(* ===== verification/_CoqProject ===== *)
-Q . S2P
Prelude.v
Target.v
Ltl.v
Linear.v
ParMove.v
Semantics.v
Tunneling.v
Cleanup.v
StackInfo.v
ConvertCall.v
Linearize.v
LinearizePass.v
Mach.v
Layout.v
Frame.v
Stacking.v
MachSem.v
StackingCode.v
StackingProof.v
StackingPass.v
Asm.v
AsmGen.v
IntOps.v
AsmGenProof.v
AsmGenPass.v
Rtl.v
Liveness.v
Interference.v
Conventions.v
RtlSem.v
RegAlloc.v
RegAllocProof.v
Irc.v
IrcInv.v
IrcAlloc.v
IrcTotal.v
ExampleTarget.v
RegAllocPass.v
Structured.v
Cminor.v
Values.v
CminorSel.v
StructuredMap.v
CminorSem.v
ValuesExample.v
RtlGen.v
RtlGenExpr.v
RtlGenStmt.v
RtlGenPass.v
Selection.v
SelectionPass.v
Ctypes.v
Csharpminor.v
Cminorgen.v
CsharpminorSem.v
CminorgenProof.v
CminorgenPass.v
CminorgenSwitch.v
Clight.v
Cabs.v
SimplExpr.v
SimplLocals.v
ClightGen.v
CshmgenOps.v
Cshmgen.v
ClightSem.v
CabsSem.v
SimplExprProof.v
ClightGenProof.v
SimplLocalsProof.v
ClightGenPass.v
CshmgenExpr.v
CshmgenProof.v
CshmgenPass.v
Cpp.v
CppExpr.v
CppExpand.v
CppDirective.v
CppPreprocess.v
BackEnd.v
