(* ===== verification/Prelude.v ===== *)
(** * ralph-cc: a verification library for the compiler

    ralph-cc is a C compiler in Go, a chain of passes over intermediate
    languages in the style of CompCert: the preprocessor, lexer and parser
    produce C syntax; [clightgen], [simplexpr], [simpllocals], [cshmgen],
    [cminorgen] and [selection] lower it to CminorSel; [rtlgen] builds a
    control-flow graph; [regalloc] assigns registers (LTL); [linearize] lays
    the blocks out (Linear); [stacking] builds the frames (Mach); [asmgen]
    emits ARM64 assembly. This library models the preprocessor and all passes
    from the syntax trees on, whole, with the languages between them, and proves
    what makes them correct, one by one and, from the syntax trees on, together.

    ** Files

    - [Prelude]: machine integers, Go map iteration ([RangeOrder],
      [NameOrder]), running deterministic machines, and the simulation theorems
      the passes share.
    - [Target]: what the back-end languages have in common, from
      [src/pkg/rtl/ast.go], [src/pkg/ltl/ast.go] and the packages they
      re-export: registers, locations, operations, conditions, addressing
      modes and memory chunks.
    - [Cabs]: the syntax trees of C ([src/pkg/cabs/ast.go]); [CabsSem] runs C
      functions: expressions with side effects, from left to right, and
      statements.
    - [src/pkg/cpp]: [Cpp] (tokens and the lexer), [CppExpr] (the expressions
      of [#if], from [conditional.go]), [CppExpand] (macros and their
      expansion), [CppDirective] (directives, and the search for files, over the
      class [OS] of what the operating system answers) and [CppPreprocess] (the
      stack of conditionals and the driver, in a monad over its state).
    - [Structured], [Ctypes], [Clight], [Csharpminor], [Cminor], [CminorSel]:
      the statements the structured languages share, C types, and the
      languages ([ast.go] of [src/pkg/clight], [csharpminor], [cminor] and
      [cminorsel]; [ctypes/types.go]). [Structured]
      also runs the statements, with a stack of continuations;
      [StructuredMap] is the simulation for passes that keep the statements.
      [IntOps] and [Values] say what operators do to values; [CsharpminorSem]
      and [CminorSem] give the languages their expressions; [ClightSem] runs
      Clight, its operators being those of C.
    - [Rtl], [Ltl], [Linear], [Mach], [Asm]: the intermediate languages
      ([ast.go] of the packages of these names). [Asm] also says what the
      integer, comparison and memory instructions do.
    - [Semantics]: small-step execution of LTL and Linear over an abstract
      target, the class [TargetSemantics]; [RtlSem]: of RTL.
    - [src/pkg/simplexpr]: [SimplExpr], in a monad over the transformer;
      [SimplExprProof]: what expressions read and write, what the pass supports,
      and that the statements and what is left compute the expression.
    - [src/pkg/simpllocals]: [SimplLocals]; [SimplLocalsProof], a lockstep
      simulation between variables and temporaries.
    - [src/pkg/clightgen]: [ClightGen] ([stmt.go], [types.go], [program.go]).
      [ClightGenProof] (what statements become, and the simulation) and
      [ClightGenPass] (locals and their types, functions,
      programs, and where the pass differs from C).
    - [src/pkg/cshmgen]: [CshmgenOps] ([operators.go] and the layout of types in
      [expr.go], with its theorem) and [Cshmgen] ([expr.go], [stmt.go], [program.go], in a monad
      over the string literals and the temporaries of parameters).
      [CshmgenExpr] (expressions), [CshmgenProof] (what is translated of statements, and the simulation)
      and [CshmgenPass].
    - [src/pkg/cminorgen]: [Cminorgen] ([stack.go], [vars.go], [transform.go],
      in a monad over the names of temporaries) and [CminorgenSwitch]
      ([switch.go], with its theorem). [CminorgenProof] (frames and what is
      known of locals; the names do not depend on the order in which they are
      made up; expressions) and [CminorgenPass].
    - [src/pkg/selection]: [Selection], with the operators of
      [cminorsel/ops.go]; [SelectionPass] (expressions, conditions
      and addresses, the simulation and the theorems).
    - [src/pkg/rtlgen]: [RtlGen], in a state monad over the builder.
      [RtlGenExpr] (how the builder grows; the graph of an expression computes
      it), [RtlGenStmt] (the graph of a statement) and [RtlGenPass] (the
      simulation and the theorems).
    - [src/pkg/linearize]: [ParMove] (parallel moves), [ConvertCall]
      ([convertCall]), [Linearize] ([linearize.go]), [Tunneling], [Cleanup],
      [StackInfo] ([stack.go]); [LinearizePass] holds the simulation and the
      pass's theorems.
    - [src/pkg/stacking]: [Layout] ([layout.go], [slots.go]), [Frame]
      ([calleesave.go], [prolog.go]), [Stacking] ([transform.go]); [MachSem]
      executes Mach; [StackingCode] (the code and the frame), [StackingProof]
      and [StackingPass] prove the pass correct.
    - [src/pkg/asmgen]: [AsmGen] ([transform.go]; the recognition of frame code
      is in [MachSem]); [AsmGenProof] (integer code, memory and
      frames) and [AsmGenPass] (labels and the theorems).

    - [src/pkg/regalloc]: [Liveness], [Interference], [Conventions], [Irc]
      ([irc.go]) and [RegAlloc] ([transform.go]). [RegAllocProof] runs the moves
      of parameters and has the simulation, for every allocation that is
      valid. That the allocator's result is: [IrcInv] (what each step does to
      the worklists and the graph, the invariants of the main loop and of
      colouring, the result, and the initial state) and [IrcAlloc]. [IrcTotal] proves termination for functions with few
      registers, and divergence. [RegAllocPass] has the theorems of
      the pass.
    - [BackEnd]: the passes in the order of [doAsm] ([src/cmd/ralph-cc/main.go]).

    Definitions have the names of the Go functions and constructors; a body
    that Go keeps in line, a loop or a case, has a name of its own with a
    comment that says where it is from.

    ** How the code is modelled

    - Go [int64] and [int32] are [Z] with the wrap-around written out ([i64],
      [i32]) where the code computes with them. Registers ([ltl.MReg], [int])
      and labels are [Z] without it: the code only compares and enumerates
      them.
    - A floating-point constant is its IEEE 754 bit pattern.
    - [for ... range] over a map visits it in an order the runtime chooses:
      definitions with such a loop take a [RangeOrder] (a [NameOrder] when the
      keys are strings), and theorems hold for every one of them. Likewise
      [sort.Slice], which leaves open how equal elements end up, is a
      [SortSlice].
    - A Go panic is [None], and [EPanic] in the preprocessor, whose errors are
      values with a format and arguments ([cpp_error]). Text is bytes.
    - In-place updates of a function or a result slice become the returned
      value: no pass keeps an alias to what it updates.
    - Loops without a structural measure take fuel. The depth-first search
      of [computeOrder] gets two more than the number of blocks,
      [resolveLabel] two more than the number of jump targets, the
      parallel-move loop twice the number of moves and one; [dfs_spec],
      [resolveLabel_total] and [resolve_total] show that these suffice, and
      the definitions the passes use never run out. Liveness
      analysis gets enough rounds for every node and register to become live
      ([AnalyzeLiveness_spec]); [getAlias] one more than the number of coalesced
      registers ([follow_alias_enough]). The main loop of [Allocate] can run
      for ever: [AllocateFunction] has the number of rounds as an argument and
      is [None] when they do not suffice; [enough_rounds] (784) do, whenever
      at most 27 registers are allocated. In the preprocessor, loops over tokens
      get as many rounds as there are tokens, expansion one more than there
      are macros in the table, and inclusion one more than [MaxIncludeDepth]
      leaves; that all of them suffice is [PreprocessFile_ends].

    ** The target

    The repository gives its languages no semantics. [TargetSemantics] leaves
    open what values, operations, memory accesses, comparisons, builtins and
    callees are; it asks that a move copies its argument and that a callee
    does not read X8. [CallConvention] adds, for stacking, which stack
    arguments a callee sees, and that it keeps the callee-saved registers;
    [FrameMemory] is the memory of a frame, of which a read returns what was
    last written at an address that no other write overlaps. Each class has an
    instance ([sum_target], [sum_convention], [fun_frame]) in which the
    examples run.

    The structured languages and RTL generation need to know what the
    operations compute: [ValueTarget] asks that the target's operations,
    conditions and addresses are those of [Values], on 32- and 64-bit integers
    and pointers; floating-point arithmetic ([FloatOps]) and the addresses of
    symbols and of the frame ([Layout]) are left open. [ValuesExample] has an
    instance over a memory of [gmap Z val].

    C has expressions with side effects: [CabsSem] evaluates operands from left
    to right, one of the orders C allows, with the conversions of C, and keeps
    what is left of a function in a stack. Its variables are kept by name or in
    memory as those of Clight are.

    Clight has the operators of C: the usual arithmetic conversions, pointers
    that move by the size of what they point to, cases that fall through
    unless the switch says it has breaks. Assignments do not convert, since
    [simplexpr] makes the casts explicit, and a call has Go's zero signature.
    A string literal has an address; the theorems ask that it is that of the
    variable it becomes ([literals_at]), so that the variables of equal
    literals are taken to be merged.

    RTL runs over the same target; [PseudoCalls] says that a callee finds its
    arguments at the locations of the calling convention, reads no others,
    and keeps the callee-saved registers and the stack slots.

    ** Theorems

    - The preprocessor. [PreprocessString_groups]: conditional compilation
      makes of nested groups, whose lines close their parentheses and include
      nothing, what the grammar of C says they are. [PreprocessFile_ends]:
      preprocessing ends, whatever the files are, with a text, an error or a
      panic. [PreprocessString_inert]: text without directives and names of
      macros keeps the texts of its tokens. [ExpandWithLoc_prosser] compares the
      expansion of object-like macros, [##] included, with the algorithm of the C
      committee, [evaluateExpr_correct] the evaluation of conditions with the
      grammar of expressions, and [AllTokens_pieces] the tokens with the text.
      [own_argument_not_expanded] and the examples next to it, and those at the
      end of [CppPreprocess], run the code where it is not what C asks for.
    - All passes. [compile_c_correct]: a Mach function of a compiled program
      that passes the checkers ends as C says of the function definition it comes
      from, and restores what its caller owns; [compile_correct] is the same from Clight on.
    - Clight generation. [ClightGen_correct]: a supported program is translated,
      without a panic, and its functions keep their behaviour.
      [TransformExpr_correct] is about the extraction of side effects,
      [TransformStmt_correct] about locals that become temporaries,
      [evaluateConstantInitializer_correct] about the bytes of globals, and
      [HasSideEffects_sound] about the test for side effects.
      [conditional_drops_statements], [do_continue_runs_forever] and
      [struct_pointer_assignment_panics] prove defects.
    - Csharpminor generation. [CshmgenPass.TranslateProgram_correct]: a supported program is
      translated, and its functions keep their behaviour, wherever their locals
      are. [struct_layout] is about fields; [TranslateBinaryOp_exact] says for
      which operands the operators are those of C.
    - Cminor generation. [TransformProgram_correct]: a supported program is
      translated, its locals get places in the frame, and its functions keep
      their behaviour. [ComputeStackLayout_correct] is about the frame,
      [TransformSwitch_equiv] about the compilation of switches, which no pass
      calls. [TransformExpr_shadowed] proves a defect.
    - Selection. [SelectProgram_correct]: a supported function of a program
      keeps its behaviour. [SelectProgram_calls_symbols] proves a defect.
    - RTL generation. [TranslateFunction_refines]: the graph of a supported
      function ends with what the function ends with.
    - Register allocation. [TransformFunction_correct]: the allocation of a
      function with at most 27 pseudo-registers, under [params_ok] and [wf_rtl],
      ends, and RTL and LTL terminate with the same results.
      [AllocateFunction_valid] (under [leading]) and [AllocateFunction_placed]
      are the contract between the allocator and the rewriting, for functions of
      any size on which the allocator ends;
      [AnalyzeLiveness_correct], [BuildInterferenceGraph_correct] and
      [resolveParallelMoves_correct] say exactly what the parts compute.
      [AllocateFunction_diverges] and [AllocateFunction_conflicts] prove
      defects.
    - Linearization. [Transform_correct]: an LTL function that meets
      [wf_function] and its Linear translation terminate with the same results
      (both directions); it rests
      on [convertCall_correct] (arguments are placed as if all at once, the
      move loop terminates, for every map order), [computeOrder_correct],
      [Tunnel_complete] and [CleanupLabels_exact]. [ComputeStackSize_correct]
      bounds the frame size.
    - Stacking. [Stacking_correct]: a transformed function that meets [wf_linear]
      and [wf_params] saves what its caller owns, places its register parameters, terminates with a result
      exactly when the Linear body does, and returns with the callee-saved
      registers, frame pointer and link register intact.
      [ComputeLayout_correct] (areas do not overlap),
      [FindUsedCalleeSaveRegs_correct] (independent of map order),
      [transformInst_panics] (exactly when it panics) and
      [frame_code_recognised] (the contract with the assembly generator).
    - Assembly. [translateOperation_correct], [loadIntConstant_correct],
      [translateLoad_correct], [translateStore_correct],
      [translateCond_correct], [translateJumptable_correct] execute the
      generated code at 32 and 64 bits; [frame_roundtrip] runs the prologue
      and the epilogue on a byte-addressed memory; [TransformProgram_labels]
      is the well-formedness of labels in the whole program.
      [float_condition_unordered], [remainder_of_X8] and
      [local_overwrites_frame_pointer] prove defects.

    The conditions of the theorems are decidable and have checkers
    ([c_program_ok], [c_compiles], [clight_ok], [function_compiles], [program_ok], [back_end_ok], [select_ok], [rtlgen_ok], [wf_function_check], [wf_linear_check], [wf_params_check],
    [wf_rtl_check], [params_ok_check], [leading_check]). They exclude
    the inputs on which the code is wrong: [c_program_ok] types the pass does
    not know, enumerations, definitions of types, arrays and [extern] variables
    among the globals ([definition_ok]), variables with the same name
    ([function_ok]), expressions whose type is not the one C gives them, or
    whose value depends on the order in which C evaluates operands
    ([expr_ok]), [continue] in do-while loops, returned values and initializers
    that would have to be converted, and cases that are not integers or follow
    the default ([stmt_ok]); [clight_ok] operators and conversions
    that are not those of C ([binop_ok], [cast_ok]), arithmetic on pointers
    to more than bytes, conditions that are not [int]s, breaks in switches,
    cases that fall through, and temporaries with the numbers of shadows;
    [program_ok] names that are local and
    global, unsigned locals of one or two bytes that are read as a whole, and
    names like those of temporaries; [select_ok] names that are local and
    global, combined bitwise and 64-bit operations and comparisons inside
    addresses; [rtlgen_ok] operators without a translation, negated compound
    conditions and nested let bindings; [wf_call] the function pointers and
    overflow arguments that argument moves overwrite, [wf_function] tail calls
    with arguments, [wf_linear] tail calls and builtins that write unsaved
    callee-saved registers; [leading] parameters that are coalesced or
    recoloured although their location is fixed, and [wf_rtl] jumps back to the
    entry. [entry_moves_repeated], [convertCall_clobbers_callee],
    [convertCall_clobbers_X8], [tailcall_drops_arguments],
    [spilled_store_panics], [tailcall_epilogue_emitted] and
    [builtin_result_not_saved] run the code on them.

    ** What is not modelled

    The lexer and the parser: between the text that the preprocessor makes and
    the syntax trees, whose types are strings as in the source, there is a gap.
    The preprocessor of the system, which the driver may run instead; of the one
    that is modelled, warnings, and how it finds the directories of the
    system. The printers, and of the driver all but the order of the passes.
    Floating-point arithmetic of the assembly, and the assembler's limits on immediates and offsets; the assembly of a
    whole function is not run, only that of its instructions, its prologue and
    its epilogue. The semantics of calls is that of one function at a time:
    what callees do is part of the target. The memory that addresses reach, with
    the locals in it, and the slots of a Mach frame are separate, so that what is
    said of Mach functions does not cover locals with addresses that overlap the
    saved registers in the assembly ([local_overwrites_frame_pointer]). *)

From stdpp Require Export base gmap sets list strings fin_maps functions sorting.
From Stdlib Require Export ZArith Lia.

Open Scope Z_scope.

(** ** Machine integers

    Go's [int64] and [int32] arithmetic wraps around; the model keeps the
    numbers in [Z] and writes the wrap-around out. Division and remainder
    truncate towards zero, which is [Z.quot] and [Z.rem]. *)

Definition wrap (w z : Z) : Z := (z + 2 ^ (w - 1)) mod 2 ^ w - 2 ^ (w - 1).
Definition i64 (z : Z) : Z := wrap 64 z.
Definition i32 (z : Z) : Z := wrap 32 z.

Definition in_i64 (z : Z) : Prop := - 2 ^ 63 <= z < 2 ^ 63.
Definition in_i32 (z : Z) : Prop := - 2 ^ 31 <= z < 2 ^ 31.

(** ** Iteration over Go maps

    [for k, v := range m] visits the entries of [m] in an unspecified order
    that may change from one loop to the next. A [RangeOrder] is one
    behaviour of the runtime: [range t m] is the order chosen by the [t]-th
    loop the program starts. Theorems quantify over every [RangeOrder]. *)

Class RangeOrder := {
  range : forall {V : Type}, nat -> gmap Z V -> list (Z * V);
  range_perm : forall {V : Type} (t : nat) (m : gmap Z V), range t m ≡ₚ map_to_list m
}.

(** The same for maps from names. *)
Class NameOrder := {
  range_names : forall {V : Type}, nat -> gmap string V -> list (string * V);
  range_names_perm : forall {V : Type} (t : nat) (m : gmap string V), range_names t m ≡ₚ map_to_list m
}.

Definition list_name_order : NameOrder := {|
  range_names := fun V _ m => map_to_list m;
  range_names_perm := fun V _ m => reflexivity _
|}.

(** The order [map_to_list] picks, for running definitions on examples. *)
Definition list_order : RangeOrder := {|
  range := fun V _ m => map_to_list m;
  range_perm := fun V _ m => reflexivity _
|}.

(** A loop over a map, the state carrying the number of the next loop. The
    body gets an entry and may run loops of its own. *)
Definition for_range `{RangeOrder} {V A : Type} (m : gmap Z V) (body : Z * V -> nat * A -> nat * A)
    (st : nat * A) : nat * A :=
  foldl (fun st kv => body kv st) (Datatypes.S st.1, st.2) (range st.1 m).

(** The same over the keys of a Go map that represents a set. *)
Definition for_set `{RangeOrder} {A : Type} (s : gset Z) (body : Z -> nat * A -> nat * A)
    (st : nat * A) : nat * A :=
  for_range (gset_to_gmap tt s) (fun kv => body kv.1) st.

(** ** Deterministic machines given by a step function *)

Inductive outcome (S R : Type) :=
| Next (s : S)
| Halt (r : R)
| Stuck.
Arguments Next {S R} s.
Arguments Halt {S R} r.
Arguments Stuck {S R}.

Section Machine.
  Context {S R : Type} (step : S -> outcome S R).

Definition steps_to (s s' : S) : Prop := step s = Next s'.

  (** [terminates s r]: the machine started in [s] halts with [r]. *)
Definition terminates (s : S) (r : R) : Prop :=
    exists s', rtc steps_to s s' /\ step s' = Halt r.

  (** The executable counterpart. *)
Fixpoint run (fuel : nat) (s : S) : option R :=
    match fuel with
    | O => None
    | Datatypes.S fuel =>
        match step s with
        | Next s' => run fuel s'
        | Halt r => Some r
        | Stuck => None
        end
    end.

  (** The state after [n] steps. *)
Fixpoint walk (n : nat) (s : S) : option S :=
    match n with
    | O => Some s
    | Datatypes.S n => match step s with Next s' => walk n s' | _ => None end
    end.
End Machine.

(** ** Lemmas on loops over maps *)

Section ForRange.
  Context `{RangeOrder} {A : Type}.

(** An invariant, and what each iteration establishes for good. *)
Lemma for_range_spec {V} (m : gmap Z V) body (P : A -> Prop) (Q : Z -> V -> A -> Prop) (st : nat * A) :
  P st.2 ->
  (forall k v t a, m !! k = Some v -> P a -> P (body (k, v) (t, a)).2 /\ Q k v (body (k, v) (t, a)).2) ->
  (forall k v k' v' t a, m !! k = Some v -> m !! k' = Some v' -> P a -> Q k v a ->
     Q k v (body (k', v') (t, a)).2) ->
  P (for_range m body st).2 /\ forall k v, m !! k = Some v -> Q k v (for_range m body st).2.
Proof.
  intros HP Hbody Hkeep. unfold for_range.
  assert (Hl : forall k v, (k, v) ∈ range st.1 m <-> m !! k = Some v).
  { intros k v. rewrite (range_perm st.1 m). apply elem_of_map_to_list. }
  assert (Hgen : forall l st', (forall k v, (k, v) ∈ l -> m !! k = Some v) -> P st'.2 ->
    P (foldl (fun st kv => body kv st) st' l).2 /\
    (forall k v, (k, v) ∈ l -> Q k v (foldl (fun st kv => body kv st) st' l).2) /\
    forall k v, m !! k = Some v -> Q k v st'.2 -> Q k v (foldl (fun st kv => body kv st) st' l).2).
  { clear -Hbody Hkeep. induction l as [|[k v] l IH]; intros [t a] Hm HP; cbn [foldl].
    { split; [done|]. split; [|done]. intros k v Hin. by apply not_elem_of_nil in Hin. }
    assert (Hkv : m !! k = Some v) by (apply Hm; left).
    destruct (Hbody k v t a Hkv HP) as [HP' HQ'].
    destruct (IH (body (k, v) (t, a)) ltac:(intros; apply Hm; by right) HP') as (I1 & I2 & I3).
    split; [done|]. split.
    - intros k' v' [[= -> ->]|Hin]%elem_of_cons; [by apply I3|by apply I2].
    - intros k' v' Hkv' HQ. apply I3; [done|]. by apply Hkeep. }
  destruct (Hgen (range st.1 m) (Datatypes.S st.1, st.2)) as (G1 & G2 & _); [intros; by apply Hl|done|].
  split; [done|]. intros k v Hkv. by apply G2, Hl.
Qed.

Lemma for_set_spec (s : gset Z) body (P : A -> Prop) (Q : Z -> A -> Prop) (st : nat * A) :
  P st.2 ->
  (forall k t a, k ∈ s -> P a -> P (body k (t, a)).2 /\ Q k (body k (t, a)).2) ->
  (forall k k' t a, k ∈ s -> k' ∈ s -> P a -> Q k a -> Q k (body k' (t, a)).2) ->
  P (for_set s body st).2 /\ forall k, k ∈ s -> Q k (for_set s body st).2.
Proof.
  intros HP Hbody Hkeep. unfold for_set.
  destruct (for_range_spec (gset_to_gmap tt s) (fun kv => body kv.1) P (fun k _ => Q k) st HP) as [H1 H2].
  - intros k v t a [Hk _]%lookup_gset_to_gmap_Some HP'. cbn. by apply Hbody.
  - intros k v k' v' t a [Hk _]%lookup_gset_to_gmap_Some [Hk' _]%lookup_gset_to_gmap_Some. cbn. by apply Hkeep.
  - split; [done|]. intros k Hk. apply (H2 k tt), lookup_gset_to_gmap_Some. done.
Qed.

Lemma for_set_inv (s : gset Z) body (P : A -> Prop) (st : nat * A) :
  P st.2 -> (forall k t a, k ∈ s -> P a -> P (body k (t, a)).2) -> P (for_set s body st).2.
Proof. intros HP Hb. apply (for_set_spec s body P (fun _ _ => True)); auto. Qed.

Lemma for_range_inv {V} (m : gmap Z V) body (P : A -> Prop) (st : nat * A) :
  P st.2 -> (forall k v t a, m !! k = Some v -> P a -> P (body (k, v) (t, a)).2) -> P (for_range m body st).2.
Proof. intros HP Hb. apply (for_range_spec m body P (fun _ _ _ => True)); auto. Qed.
End ForRange.

(** ** Boolean conditions *)

(** Takes conjunctions of booleans among the hypotheses apart. *)
Ltac destruct_andb :=
  repeat match goal with
    | H : _ && _ = true |- _ => apply andb_true_iff in H; destruct H as [? ?]
    end.

(** ** Lemmas on machine integers *)

Lemma wrap_id w z : 0 < w -> - 2 ^ (w - 1) <= z < 2 ^ (w - 1) -> wrap w z = z.
Proof.
  intros Hw Hz. unfold wrap.
  replace (2 ^ w) with (2 * 2 ^ (w - 1)).
  2:{ replace w with (Z.succ (w - 1)) at 2 by lia. rewrite Z.pow_succ_r; lia. }
  rewrite Z.mod_small; lia.
Qed.

Lemma wrap_range w z : 0 < w -> - 2 ^ (w - 1) <= wrap w z < 2 ^ (w - 1).
Proof.
  intros Hw. unfold wrap.
  assert (Hp : 2 ^ w = 2 * 2 ^ (w - 1)).
  { replace w with (Z.succ (w - 1)) at 1 by lia. rewrite Z.pow_succ_r; lia. }
  assert (0 < 2 ^ (w - 1)) by (apply Z.pow_pos_nonneg; lia).
  pose proof (Z.mod_pos_bound (z + 2 ^ (w - 1)) (2 ^ w)). lia.
Qed.

Lemma i64_id z : in_i64 z -> i64 z = z.
Proof. intros H. apply wrap_id; [lia | exact H]. Qed.

Lemma i64_range z : in_i64 (i64 z).
Proof. apply (wrap_range 64 z). lia. Qed.

Lemma i32_id z : in_i32 z -> i32 z = z.
Proof. intros H. apply wrap_id; [lia | exact H]. Qed.

Lemma i32_range z : in_i32 (i32 z).
Proof. apply (wrap_range 32 z). lia. Qed.

(** ** Lemmas on machines *)

Section MachineFacts.
  Context {S R : Type} (step : S -> outcome S R).

Lemma terminates_halt s r : step s = Halt r -> terminates step s r.
Proof. intros H. exists s. split; [apply rtc_refl | exact H]. Qed.

Lemma terminates_step s s' r :
    step s = Next s' -> terminates step s r <-> terminates step s' r.
Proof.
    intros Hs. split.
    - intros (f & Hrun & Hf). inversion Hrun as [|a b c Hab Hbc]; subst.
      + congruence.
      + unfold steps_to in Hab. rewrite Hs in Hab. injection Hab as <-. by exists f.
    - intros (f & Hrun & Hf). exists f. split; [|done]. eapply rtc_l; [exact Hs | done].
Qed.

Lemma terminates_rtc s s' r :
    rtc (steps_to step) s s' -> terminates step s r <-> terminates step s' r.
Proof.
    induction 1 as [|a b c Hab _ IH]; [done|].
    rewrite <- IH. by apply terminates_step.
Qed.

Lemma terminates_stuck s r : step s = Stuck -> ~ terminates step s r.
Proof.
    intros Hs (f & Hrun & Hf). inversion Hrun as [|a b c Hab Hbc]; subst.
    - congruence.
    - unfold steps_to in Hab. congruence.
Qed.

Lemma terminates_halt_inv s r r' : step s = Halt r -> terminates step s r' -> r = r'.
Proof.
    intros Hs (f & Hrun & Hf). inversion Hrun as [|a b c Hab Hbc]; subst.
    - congruence.
    - unfold steps_to in Hab. congruence.
Qed.

Lemma terminates_det s r r' : terminates step s r -> terminates step s r' -> r = r'.
Proof.
    intros (f & Hrun & Hf) Ht. apply (terminates_rtc _ _ _ Hrun) in Ht.
    by eapply terminates_halt_inv.
Qed.

Lemma run_terminates fuel s r : run step fuel s = Some r -> terminates step s r.
Proof.
    revert s. induction fuel as [|fuel IH]; intros s; [done|]. cbn.
    destruct (step s) as [s'|r'|] eqn:E; [|intros [= <-]; by apply terminates_halt|done].
    intros H%IH. by apply (terminates_step s s').
Qed.

Lemma terminates_run s r : terminates step s r -> exists fuel, run step fuel s = Some r.
Proof.
    intros (f & Hrun & Hf).
    induction Hrun as [s|s s' f Hs _ IH].
    - exists 1%nat. cbn. by rewrite Hf.
    - destruct IH as [fuel H]; [done|]. exists (Datatypes.S fuel). cbn. unfold steps_to in Hs. by rewrite Hs.
Qed.

Lemma walk_rtc n s s' : walk step n s = Some s' -> rtc (steps_to step) s s'.
Proof.
    revert s. induction n as [|n IH]; cbn; intros s; [intros [= ->]; apply rtc_refl|].
    destruct (step s) as [t| |] eqn:E; [|done|done]. intros H%IH. by eapply rtc_l.
Qed.

Lemma run_walk n s s' fuel r : walk step n s = Some s' -> run step fuel s = Some r -> exists fuel', (fuel = n + fuel')%nat /\ run step fuel' s' = Some r.
Proof.
    revert s fuel. induction n as [|n IH]; cbn; intros s fuel; [intros [= ->] H; by exists fuel|].
    destruct (step s) as [t| |] eqn:E; [|done|done]. intros Ht. destruct fuel as [|fuel]; cbn; [done|]. rewrite E. intros H.
    destruct (IH t fuel Ht H) as (fuel' & -> & Hr). by exists fuel'.
Qed.

Lemma walk_app n m s s' : walk step n s = Some s' -> walk step (n + m) s = walk step m s'.
Proof.
    revert s. induction n as [|n IH]; cbn; intros s; [by intros [= ->]|]. destruct (step s); try done. apply IH.
Qed.

  (** A machine that gets stuck, or that comes back to a state, does not halt. *)
Lemma walk_stuck n s r : (s' ← walk step n s; Some (step s')) = Some Stuck -> ~ terminates step s r.
Proof.
    destruct (walk step n s) as [s'|] eqn:Hw; [|done]. intros [= Hs]. apply walk_rtc in Hw.
    intros Ht%(terminates_rtc _ _ _ Hw). by apply (terminates_stuck s' r).
Qed.

Lemma walk_cycle n m s r : is_Some (walk step n s) -> walk step (n + Datatypes.S m) s = walk step n s -> ~ terminates step s r.
Proof.
    intros [s' Hn] Hc. rewrite Hn, (walk_app _ _ _ _ Hn) in Hc. apply walk_rtc in Hn.
    intros Ht%(terminates_rtc _ _ _ Hn). apply terminates_run in Ht as (fuel & Hr).
    induction (lt_wf fuel) as [fuel _ IH]. destruct (run_walk _ _ _ _ _ Hc Hr) as (fuel' & -> & Hr').
    apply (IH fuel'); [lia|done].
Qed.
End MachineFacts.

(** ** Simulation between deterministic machines

    Every step of the first machine is matched by one or more steps of the
    second, or by none while a measure decreases; halting and getting stuck
    are matched as well. The two machines then terminate on the same results,
    up to a relation between results, in both directions. *)

Section Simulation.
  Context {S1 S2 R1 R2 : Type} (step1 : S1 -> outcome S1 R1) (step2 : S2 -> outcome S2 R2).
  Context (match_states : S1 -> S2 -> Prop) (match_results : R1 -> R2 -> Prop) (measure : S1 -> nat).

  Hypothesis sim_next : forall s t s', match_states s t -> step1 s = Next s' ->
    exists t', match_states s' t' /\
      (tc (steps_to step2) t t' \/ (t' = t /\ (measure s' < measure s)%nat)).
  Hypothesis sim_halt : forall s t r, match_states s t -> step1 s = Halt r ->
    exists r', terminates step2 t r' /\ match_results r r'.
  Hypothesis sim_stuck : forall s t r, match_states s t -> step1 s = Stuck ->
    ~ terminates step2 t r.

Lemma run_tc fuel t t' r :
    tc (steps_to step2) t t' -> run step2 fuel t = Some r ->
    exists fuel', (fuel' < fuel)%nat /\ run step2 fuel' t' = Some r.
Proof using.
    intros Htc. revert fuel. induction Htc as [a b Hab|a b c Hab _ IH]; intros fuel Hrun.
    - destruct fuel as [|fuel]; [done|]. cbn in Hrun. unfold steps_to in Hab.
      rewrite Hab in Hrun. exists fuel. split; [lia|done].
    - destruct fuel as [|fuel]; [done|]. cbn in Hrun. unfold steps_to in Hab.
      rewrite Hab in Hrun. destruct (IH fuel Hrun) as (fuel' & Hlt & Hr).
      exists fuel'. split; [lia|done].
Qed.

Lemma sim_forward_rel s t r :
    match_states s t -> terminates step1 s r ->
    exists r', terminates step2 t r' /\ match_results r r'.
Proof using sim_halt sim_next.
    intros Hm (f & Hrun & Hf). revert t Hm.
    induction Hrun as [s|s s' f Hs _ IH]; intros t Hm; [by eapply sim_halt|].
    destruct (sim_next s t s' Hm Hs) as (t' & Hm' & [Htc|[-> _]]); [|by apply IH].
    destruct (IH Hf t' Hm') as (r' & Ht & Hr). exists r'. split; [|done].
    apply (terminates_rtc step2 t t'); [by apply tc_rtc|done].
Qed.

Lemma sim_backward_rel s t r :
    match_states s t -> terminates step2 t r ->
    exists r', terminates step1 s r' /\ match_results r' r.
Proof using sim_halt sim_next sim_stuck.
    intros Hm (fuel & Hrun)%terminates_run. revert s t Hm Hrun.
    induction fuel as [fuel IHf] using lt_wf_ind. intros s.
    remember (measure s) as k eqn:Hk. revert s Hk.
    induction k as [k IHk] using lt_wf_ind. intros s -> t Hm Hrun.
    destruct (step1 s) as [s'|r1|] eqn:E.
    - enough (exists r', terminates step1 s' r' /\ match_results r' r) as (r' & Ht & Hr).
      { exists r'. split; [|done]. by apply (terminates_step step1 s s' r' E). }
      destruct (sim_next s t s' Hm E) as (t' & Hm' & [Htc|[-> Hlt]]).
      + destruct (run_tc _ _ _ _ Htc Hrun) as (fuel' & Hlt & Hrun'). by eapply IHf.
      + by eapply IHk.
    - apply run_terminates in Hrun. destruct (sim_halt s t r1 Hm E) as (r' & Hr' & Hmr).
      rewrite (terminates_det _ _ _ _ Hrun Hr'). exists r1. split; [by apply terminates_halt|done].
    - apply run_terminates in Hrun. by destruct (sim_stuck s t r Hm E).
Qed.
End Simulation.

(** A machine that never gets stuck. *)
Definition safe {S R} (step : S -> outcome S R) (s : S) : Prop :=
  forall s', rtc (steps_to step) s s' -> step s' <> Stuck.

Lemma safe_step {S R} (step : S -> outcome S R) s s' : safe step s -> step s = Next s' -> safe step s'.
Proof. intros Hs E u Hu. apply Hs. eapply rtc_l; [exact E|done]. Qed.

Lemma safe_rtc {S R} (step : S -> outcome S R) s s' : rtc (steps_to step) s s' -> safe step s' -> safe step s.
Proof.
  induction 1 as [|s s1 s' Hs _ IH]; [done|]. intros Hsafe u Hu. specialize (IH Hsafe).
  inversion Hu as [|x s2 y H2 Hu2]; subst; unfold steps_to in *; [congruence|].
  apply IH. by replace s1 with s2 by congruence.
Qed.

(** The same, when only executions of the first machine that do not get stuck
    are matched: the second does not get stuck either, and ends only as the
    first does. *)
Section SafeSimulation.
  Context {S1 S2 R1 R2 : Type} (step1 : S1 -> outcome S1 R1) (step2 : S2 -> outcome S2 R2).
  Context (match_states : S1 -> S2 -> Prop) (match_results : R1 -> R2 -> Prop) (measure : S1 -> nat).

  Hypothesis sim_next : forall s t s', match_states s t -> step1 s = Next s' ->
    exists t', match_states s' t' /\
      (tc (steps_to step2) t t' \/ (t' = t /\ (measure s' < measure s)%nat)).
  Hypothesis sim_halt : forall s t r, match_states s t -> step1 s = Halt r ->
    exists r', terminates step2 t r' /\ match_results r r'.

Lemma sim_backward_safe s t r :
    match_states s t -> safe step1 s -> terminates step2 t r ->
    exists r', terminates step1 s r' /\ match_results r' r.
Proof using sim_halt sim_next.
    intros Hm Hs. eapply (sim_backward_rel step1 step2 (fun s t => match_states s t /\ safe step1 s) match_results measure).
    - intros s1 t1 s2 [Hm1 Hs1] E. destruct (sim_next s1 t1 s2 Hm1 E) as (t2 & Hm2 & H). exists t2.
      split; [|done]. split; [done|by eapply safe_step].
    - intros s1 t1 r1 [Hm1 _]. by apply sim_halt.
    - intros s1 t1 r1 [_ Hs1] E. by destruct (Hs1 s1 (rtc_refl _ s1)).
    - done.
Qed.

Lemma stuck_tc t t' k u :
    tc (steps_to step2) t t' -> nsteps (steps_to step2) k t u -> step2 u = Stuck ->
    exists k', (k' < k)%nat /\ nsteps (steps_to step2) k' t' u.
Proof using.
    intros Htc. revert k. induction Htc as [a b Hab|a b c Hab _ IH]; intros k Hk Hu.
    - inversion Hk as [|k' x y z Hxy Hyz]; subst; unfold steps_to in *; [congruence|].
      exists k'. split; [lia|]. by replace b with y by congruence.
    - inversion Hk as [|k' x y z Hxy Hyz]; subst; unfold steps_to in *; [congruence|].
      destruct (IH k') as (k2 & Hlt & Hk2); [by replace b with y by congruence|done|].
      exists k2. split; [lia|done].
Qed.

Lemma sim_safe s t : match_states s t -> safe step1 s -> safe step2 t.
Proof using sim_halt sim_next.
    intros Hm Hs u (k & Hk)%rtc_nsteps Hu. revert s t Hm Hs Hk.
    induction k as [k IHk] using lt_wf_ind. intros s.
    remember (measure s) as j eqn:Hj. revert s Hj.
    induction j as [j IHj] using lt_wf_ind. intros s -> t Hm Hs Hk.
    destruct (step1 s) as [s'|r|] eqn:E.
    - assert (Hs' := safe_step _ _ _ Hs E). destruct (sim_next s t s' Hm E) as (t' & Hm' & [Htc|[-> Hlt]]).
      + destruct (stuck_tc _ _ _ _ Htc Hk Hu) as (k' & Hlt & Hk'). by eapply IHk.
      + by eapply IHj.
    - destruct (sim_halt s t r Hm E) as (r' & Ht & _).
      apply (terminates_rtc step2 t u) in Ht; [|by eapply rtc_nsteps_2]. by apply (terminates_stuck step2 u r').
    - by apply (Hs s (rtc_refl _ s)).
Qed.
End SafeSimulation.

(** The case of equal results. *)
Section SimulationEq.
  Context {S1 S2 R : Type} (step1 : S1 -> outcome S1 R) (step2 : S2 -> outcome S2 R).
  Context (match_states : S1 -> S2 -> Prop) (measure : S1 -> nat).

  Hypothesis sim_next : forall s t s', match_states s t -> step1 s = Next s' ->
    exists t', match_states s' t' /\
      (tc (steps_to step2) t t' \/ (t' = t /\ (measure s' < measure s)%nat)).
  Hypothesis sim_halt : forall s t r, match_states s t -> step1 s = Halt r ->
    terminates step2 t r.
  Hypothesis sim_stuck : forall s t r, match_states s t -> step1 s = Stuck ->
    ~ terminates step2 t r.

Lemma sim_equiv s t r : match_states s t -> terminates step1 s r <-> terminates step2 t r.
Proof using sim_halt sim_next sim_stuck.
    assert (Hh : forall s t r, match_states s t -> step1 s = Halt r ->
      exists r', terminates step2 t r' /\ r = r') by (intros; eauto).
    intros Hm. split; intros Ht.
    - by destruct (sim_forward_rel step1 step2 _ eq measure sim_next Hh s t r Hm Ht) as (? & ? & ->).
    - by destruct (sim_backward_rel step1 step2 _ eq measure sim_next Hh sim_stuck s t r Hm Ht)
        as (? & ? & <-).
Qed.
End SimulationEq.

Create HintDb go_int.
#[export] Hint Resolve i64_id i32_id i64_range i32_range : go_int.

(** ** Finding by name *)

Section Names.
  Context {A K : Type} `{HK : Countable K} (name : A -> K).

Definition find_name (x : K) (l : list A) : option A := snd <$> list_find (fun a => name a = x) l.

Lemma find_name_cons x a l : find_name x (a :: l) = if decide (name a = x) then Some a else find_name x l.
Proof using.
  unfold find_name. cbn. destruct (decide (name a = x)); [done|]. by destruct (list_find _ l) as [[i b]|].
Qed.

Lemma find_name_Some x l a : find_name x l = Some a -> a ∈ l /\ name a = x.
Proof using.
  induction l as [|b l IH]; [done|]. rewrite find_name_cons. destruct (decide (name b = x)).
  - intros [= ->]. split; [by left|done].
  - intros [H1 H2]%IH. split; [by right|done].
Qed.

Lemma find_name_None x l : find_name x l = None <-> x ∉ name <$> l.
Proof using.
  induction l as [|b l IH]; [split; [intros _; apply not_elem_of_nil|done]|]. rewrite find_name_cons, fmap_cons, not_elem_of_cons.
  destruct (decide (name b = x)) as [->|]; [naive_solver|]. rewrite IH. naive_solver.
Qed.

Lemma find_name_elem a l : NoDup (name <$> l) -> a ∈ l -> find_name (name a) l = Some a.
Proof using.
  induction l as [|b l IH]; [by intros _ H%elem_of_nil|]. rewrite fmap_cons, NoDup_cons, elem_of_cons, find_name_cons.
  intros [Hn Hnd] [->|Ha]; [by rewrite decide_True|]. rewrite decide_False; [by apply IH|].
  intros E. apply Hn. rewrite E. apply list_elem_of_fmap. eauto.
Qed.

(** Inserting all of a list, one after the other. *)
Lemma fold_insert_lookup {B} (g : A -> B) l (m : gmap K B) x :
  NoDup (name <$> l) ->
  fold_left (fun m a => <[name a := g a]> m) l m !! x =
    match find_name x l with Some a => Some (g a) | None => m !! x end.
Proof using.
  revert m. induction l as [|a l IH]; intros m; [done|]. rewrite fmap_cons, NoDup_cons. intros [Hn Hnd].
  cbn [fold_left]. rewrite IH, find_name_cons by done. destruct (decide (name a = x)) as [<-|Hx].
  - apply find_name_None in Hn. rewrite Hn. by rewrite lookup_insert_eq.
  - by rewrite lookup_insert_ne.
Qed.

(** Altering the value of each name of a list. *)
Lemma fold_alter_lookup {B} (g : A -> B -> B) l (m : gmap K B) x :
  NoDup (name <$> l) ->
  fold_left (fun m a => alter (g a) (name a) m) l m !! x =
    match find_name x l with Some a => g a <$> m !! x | None => m !! x end.
Proof using.
  revert m. induction l as [|a l IH]; intros m; [done|]. rewrite fmap_cons, NoDup_cons. intros [Hn Hnd].
  cbn [fold_left]. rewrite IH, find_name_cons by done. destruct (decide (name a = x)) as [<-|Hx].
  - apply find_name_None in Hn. rewrite Hn. by rewrite lookup_alter_eq.
  - by rewrite lookup_alter_ne.
Qed.
End Names.
