(* ===== verification/Target.v ===== *)
(** Registers, locations, operations, conditions and addressing modes of the
    AArch64 back end ([src/pkg/rtl/ast.go], [src/pkg/ltl/ast.go] and the parts
    of [src/pkg/cminorsel/ast.go] and [src/pkg/csharpminor/ast.go] they
    re-export): the data every back-end intermediate language shares. Go
    [int]-based enumerations are inductive types; [MReg], on which the code
    does arithmetic, is [Z]. Floating-point constants are carried as their
    IEEE 754 bit patterns, on which no modelled pass computes. *)

From S2P Require Import Prelude.

(** ** Memory chunks and addressing modes *)

(** Memory chunks ([csharpminor.Chunk], re-exported by every back-end IR). *)
Inductive Chunk :=
| Mint8signed | Mint8unsigned | Mint16signed | Mint16unsigned
| Mint32 | Mint64 | Mfloat32 | Mfloat64 | Many32 | Many64.

(** ARM64 register extensions. *)
Inductive ExtendOp := Xsgn32 | Xuns32.

Inductive AddressingMode :=
| Aindexed (Offset : Z)
| Aindexed2
| Aindexed2shift (Shift : Z)
| Aindexed2ext (Extend : ExtendOp) (Shift : Z)
| Aglobal (Symbol : string) (Offset : Z)
| Ainstack (Offset : Z).

(** Function signatures. *)
Record Sig := mkSig {
  sig_Args : list string;
  sig_Return : string;
  sig_VarArg : bool
}.

(** ** Conditions *)

Inductive Condition := Ceq | Cne | Clt | Cle | Cgt | Cge.

(** [Condition.Negate] *)
Definition Negate (c : Condition) : Condition :=
  match c with
  | Ceq => Cne | Cne => Ceq | Clt => Cge | Cle => Cgt | Cgt => Cle | Cge => Clt
  end.

(** [Condition.String] *)
Definition Condition_String (c : Condition) : string :=
  match c with
  | Ceq => "==" | Cne => "!=" | Clt => "<" | Cle => "<=" | Cgt => ">" | Cge => ">="
  end.

Inductive ConditionCode :=
| Ccomp (Cond : Condition)
| Ccompu (Cond : Condition)
| Ccompimm (Cond : Condition) (N : Z)
| Ccompuimm (Cond : Condition) (N : Z)
| Ccompl (Cond : Condition)
| Ccomplu (Cond : Condition)
| Ccomplimm (Cond : Condition) (N : Z)
| Ccompluimm (Cond : Condition) (N : Z)
| Ccompf (Cond : Condition)
| Cnotcompf (Cond : Condition)
| Ccomps (Cond : Condition)
| Cnotcomps (Cond : Condition).

(** ** Operations *)

(** [rtl.Operation]: the operations of RTL, LTL, Linear and Mach. *)
Inductive Operation :=
| Omove
| Ointconst (Value : Z)
| Olongconst (Value : Z)
| Ofloatconst (Bits : Z)
| Osingleconst (Bits : Z)
| Oaddrsymbol (Symbol : string) (Offset : Z)
| Oaddrstack (Offset : Z)
(* 32-bit integer arithmetic *)
| Oadd | Oaddimm (N : Z) | Oneg | Osub | Omul | Omulimm (N : Z)
| Omulhs | Omulhu | Odiv | Odivu | Omod | Omodu
(* bitwise operations *)
| Oand | Oandimm (N : Z) | Oor | Oorimm (N : Z) | Oxor | Oxorimm (N : Z)
| Onot | Oshl | Oshlimm (N : Z) | Oshr | Oshrimm (N : Z) | Oshru | Oshruimm (N : Z)
(* 64-bit operations *)
| Oaddl | Oaddlimm (N : Z) | Onegl | Osubl | Omull | Omullimm (N : Z)
| Omullhs | Omullhu | Odivl | Odivlu | Omodl | Omodlu
| Oandl | Oandlimm (N : Z) | Oorl | Oorlimm (N : Z) | Oxorl | Oxorlimm (N : Z)
| Onotl | Oshll | Oshllimm (N : Z) | Oshrl | Oshrlimm (N : Z) | Oshrlu | Oshrluimm (N : Z)
(* conversions *)
| Ocast8signed | Ocast8unsigned | Ocast16signed | Ocast16unsigned
| Olongofint | Olongofintu | Ointoflong
(* float64 and float32 operations *)
| Onegf | Oabsf | Oaddf | Osubf | Omulf | Odivf
| Onegs | Oabss | Oadds | Osubs | Omuls | Odivs
(* float conversions *)
| Osingleoffloat | Ofloatofsingle | Ointoffloat | Ointuoffloat | Ofloatofint | Ofloatofintu
| Olongoffloat | Olonguoffloat | Ofloatoflong | Ofloatoflongu
(* comparisons producing 0 or 1 *)
| Ocmp (Cond : Condition) | Ocmpu (Cond : Condition)
| Ocmpf (Cond : Condition) | Ocmps (Cond : Condition)
| Ocmpl (Cond : Condition) | Ocmplu (Cond : Condition)
| Ocmpimm (Cond : Condition) (N : Z) | Ocmpuimm (Cond : Condition) (N : Z)
| Ocmplimm (Cond : Condition) (N : Z) | Ocmpluimm (Cond : Condition) (N : Z).

(** ** Machine registers *)

(** [ltl.MReg]: X0..X30 are 0..30, D0..D31 are 64..95. *)
Abbreviation MReg := Z (only parsing).

Definition X (n : Z) : MReg := n.
Definition D (n : Z) : MReg := n + 64.

Definition X0 : MReg := X 0.
Definition X8 : MReg := X 8.
Definition X16 : MReg := X 16.
Definition X17 : MReg := X 17.
Definition X18 : MReg := X 18.
Definition X19 : MReg := X 19.
Definition X28 : MReg := X 28.
Definition X29 : MReg := X 29.
Definition X30 : MReg := X 30.
Definition D0 : MReg := D 0.
Definition D8 : MReg := D 8.
Definition D15 : MReg := D 15.
Definition D31 : MReg := D 31.

(** [MReg.IsInteger] *)
Definition IsInteger (r : MReg) : bool := r <=? X30.

(** [MReg.IsFloat] *)
Definition IsFloat (r : MReg) : bool := (D0 <=? r) && (r <=? D31).

(** ** Locations *)

Inductive SlotKind := SlotLocal | SlotIncoming | SlotOutgoing.

Definition SlotKind_String (s : SlotKind) : string :=
  match s with
  | SlotLocal => "Local" | SlotIncoming => "Incoming" | SlotOutgoing => "Outgoing"
  end.

(** [ltl.Typ]: the type of the value a stack slot holds. *)
Inductive Typ := Tint | Tfloat | Tlong | Tsingle | Tany32 | Tany64.

Definition Typ_String (t : Typ) : string :=
  match t with
  | Tint => "Tint" | Tfloat => "Tfloat" | Tlong => "Tlong"
  | Tsingle => "Tsingle" | Tany32 => "Tany32" | Tany64 => "Tany64"
  end.

(** [ltl.Loc] is an interface with the implementations [R] and [S]; a variable
    of interface type may also hold [nil], which the register allocator leaves
    in place of a location it has not assigned. *)
Inductive Loc :=
| R (Reg : MReg)
| S (Slot : SlotKind) (Ofs : Z) (Ty : Typ)
| NilLoc.

(** ** Decidable equality *)

#[export] Instance Chunk_eq_dec : EqDecision Chunk.
Proof. solve_decision. Defined.
#[export] Instance ExtendOp_eq_dec : EqDecision ExtendOp.
Proof. solve_decision. Defined.
#[export] Instance AddressingMode_eq_dec : EqDecision AddressingMode.
Proof. solve_decision. Defined.
#[export] Instance Condition_eq_dec : EqDecision Condition.
Proof. solve_decision. Defined.
#[export] Instance ConditionCode_eq_dec : EqDecision ConditionCode.
Proof. solve_decision. Defined.
#[export] Instance SlotKind_eq_dec : EqDecision SlotKind.
Proof. solve_decision. Defined.
#[export] Instance Typ_eq_dec : EqDecision Typ.
Proof. solve_decision. Defined.
#[export] Instance Loc_eq_dec : EqDecision Loc.
Proof. solve_decision. Defined.

(** ** Facts *)

Lemma Negate_involutive c : Negate (Negate c) = c.
Proof. by destruct c. Qed.

(** Registers of the two banks are distinct. *)
Lemma X_D_disjoint n m : 0 <= n <= 30 -> 0 <= m <= 31 -> X n <> D m.
Proof. unfold X, D. lia. Qed.
