(* ===== verification/Ltl.v ===== *)
(** LTL ([src/pkg/ltl/ast.go]): a control-flow graph of basic blocks over
    machine registers and stack slots, the output of register allocation. *)

From S2P Require Import Prelude Target.

(** Program points of the control-flow graph (a Go [int]). *)
Abbreviation Node := Z (only parsing).

Inductive FunRef :=
| FunReg (fr_Loc : Loc)
| FunSymbol (Name : string).

Inductive Instruction :=
| Lnop
| Lop (Op : Operation) (Args : list Loc) (Dest : Loc)
| Lload (chunk : Chunk) (Addr : AddressingMode) (Args : list Loc) (Dest : Loc)
| Lstore (chunk : Chunk) (Addr : AddressingMode) (Args : list Loc) (Src : Loc)
| Lcall (sig : Sig) (Fn : FunRef) (Args : list Loc)
| Ltailcall (sig : Sig) (Fn : FunRef) (Args : list Loc)
| Lbuiltin (Builtin : string) (Args : list Loc) (Dest : option Loc)
| Lbranch (Succ : Node)
| Lcond (Cond : ConditionCode) (Args : list Loc) (IfSo IfNot : Node)
| Ljumptable (Arg : Loc) (Targets : list Node)
| Lreturn.

(** A basic block, its terminator last. *)
Record BBlock := mkBBlock { Body : list Instruction }.

Record Function := mkFunction {
  fn_Name : string;
  fn_Sig : Sig;
  fn_Params : list Loc;
  fn_Stacksize : Z;
  fn_Code : gmap Z BBlock;
  fn_Entrypoint : Node
}.

(** The global variables, the same record in every back-end IR. *)
Record GlobVar := mkGlobVar {
  gv_Name : string;
  gv_Size : Z;
  gv_Init : list Z;
  gv_ReadOnly : bool
}.

Record Program := mkProgram {
  Globals : list GlobVar;
  Functions : list Function
}.

Definition NewFunction (name : string) (sig : Sig) : Function :=
  mkFunction name sig [] 0 ∅ 0.

(** Instructions that end a block. *)
Definition is_terminator (i : Instruction) : bool :=
  match i with
  | Ltailcall _ _ _ | Lbranch _ | Lcond _ _ _ _ | Ljumptable _ _ | Lreturn => true
  | _ => false
  end.

(** The terminator of a block is its last instruction, and no other
    instruction of it transfers control: what the register allocator emits. *)
Definition wf_block (b : BBlock) : Prop :=
  exists body t, Body b = body ++ [t] /\ is_terminator t = true /\
            Forall (fun i => is_terminator i = false) body.
