(* ===== verification/Linear.v ===== *)
(** Linear ([src/pkg/linear/ast.go]): a flat instruction list with labels and
    explicit jumps, the output of linearization. *)

From S2P Require Import Prelude Target.

(** Branch targets, positive; 0 is no label. *)
Abbreviation Label := Z (only parsing).

(** [Label.Valid] *)
Definition Valid (l : Label) : bool := 0 <? l.

Inductive FunRef :=
| FunReg (fr_Loc : Loc)
| FunSymbol (Name : string).

Inductive Instruction :=
| Lgetstack (Slot : SlotKind) (Ofs : Z) (Ty : Typ) (Dest : MReg)
| Lsetstack (Src : MReg) (Slot : SlotKind) (Ofs : Z) (Ty : Typ)
| Lop (Op : Operation) (Args : list Loc) (Dest : Loc)
| Lload (chunk : Chunk) (Addr : AddressingMode) (Args : list Loc) (Dest : Loc)
| Lstore (chunk : Chunk) (Addr : AddressingMode) (Args : list Loc) (Src : Loc)
| Lcall (sig : Sig) (Fn : FunRef)
| Ltailcall (sig : Sig) (Fn : FunRef)
| Lbuiltin (Builtin : string) (Args : list Loc) (Dest : option Loc)
| Llabel (Lbl : Label)
| Lgoto (Target : Label)
| Lcond (Cond : ConditionCode) (Args : list Loc) (IfSo : Label)
| Ljumptable (Arg : Loc) (Targets : list Label)
| Lreturn.

Record Function := mkFunction {
  fn_Name : string;
  fn_Sig : Sig;
  fn_Params : list Loc;
  fn_Stacksize : Z;
  fn_Code : list Instruction
}.

Record GlobVar := mkGlobVar {
  gv_Name : string;
  gv_Size : Z;
  gv_Init : list Z;
  gv_ReadOnly : bool
}.

Record Program := mkProgram {
  Globals : list GlobVar;
  Functions : list Function
}.

Definition NewFunction (name : string) (sig : Sig) : Function :=
  mkFunction name sig [] 0 [].

(** [Function.Append] *)
Definition Append (f : Function) (inst : Instruction) : Function :=
  mkFunction (fn_Name f) (fn_Sig f) (fn_Params f) (fn_Stacksize f) (fn_Code f ++ [inst]).

(** The function with another code or another stack size: the assignments
    [fn.Code = ...] and [fn.Stacksize = ...] of the passes. *)
Definition with_code (f : Function) (code : list Instruction) : Function :=
  mkFunction (fn_Name f) (fn_Sig f) (fn_Params f) (fn_Stacksize f) code.
Definition with_stacksize (f : Function) (n : Z) : Function :=
  mkFunction (fn_Name f) (fn_Sig f) (fn_Params f) n (fn_Code f).

(** The idiom [if !seen[l] { seen[l] = true; labels = append(labels, l) }]. *)
Definition add_seen (acc : gset Z * list Label) (l : Label) : gset Z * list Label :=
  let '(seen, labels) := acc in
  if decide (l ∈ seen) then acc else ({[l]} ∪ seen, labels ++ [l]).

(** [Function.Labels] *)
Definition Labels (f : Function) : list Label :=
  (foldl (fun acc inst =>
      match inst with
      | Llabel l => add_seen acc l
      | _ => acc
      end) (∅, []) (fn_Code f)).2.

(** [Function.ReferencedLabels] *)
Definition ReferencedLabels (f : Function) : list Label :=
  (foldl (fun acc inst =>
      match inst with
      | Lgoto l => add_seen acc l
      | Lcond _ _ l => add_seen acc l
      | Ljumptable _ ls => foldl add_seen acc ls
      | _ => acc
      end) (∅, []) (fn_Code f)).2.

(** The labels an instruction defines, and those it jumps to. *)
Definition inst_label (i : Instruction) : option Label :=
  match i with Llabel l => Some l | _ => None end.

Definition inst_targets (i : Instruction) : list Label :=
  match i with
  | Lgoto l => [l]
  | Lcond _ _ l => [l]
  | Ljumptable _ ls => ls
  | _ => []
  end.

Definition code_labels (c : list Instruction) : list Label := omap inst_label c.
Definition code_targets (c : list Instruction) : list Label := c ≫= inst_targets.

(** Every label of a piece of code is defined once. *)
Definition unique_labels (c : list Instruction) : Prop := NoDup (code_labels c).

(** ** [Labels] and [ReferencedLabels] enumerate without repetition *)

Definition seen_inv (acc : gset Z * list Label) : Prop :=
  NoDup acc.2 /\ forall l, l ∈ acc.2 <-> l ∈ acc.1.

Lemma add_seen_spec acc l :
  seen_inv acc ->
  seen_inv (add_seen acc l) /\ forall k, k ∈ (add_seen acc l).2 <-> k ∈ acc.2 \/ k = l.
Proof.
  destruct acc as [seen labels]. intros [Hnd Hiff]. cbn in *. unfold add_seen.
  case_decide as Hin; cbn.
  - split; [done|]. intros k. split; [tauto|]. intros [?| ->]; [done|]. by apply Hiff.
  - split.
    + split; cbn.
      * apply NoDup_app. split; [done|]. split; [|apply NoDup_singleton].
        intros x Hx ->%list_elem_of_singleton. by apply Hin, Hiff.
      * intros k. rewrite elem_of_app, list_elem_of_singleton, Hiff. set_solver.
    + intros k. by rewrite elem_of_app, list_elem_of_singleton.
Qed.

Lemma foldl_add_seen ls acc :
  seen_inv acc ->
  seen_inv (foldl add_seen acc ls) /\
  forall k, k ∈ (foldl add_seen acc ls).2 <-> k ∈ acc.2 \/ k ∈ ls.
Proof.
  revert acc. induction ls as [|l ls IH]; intros acc Hinv; cbn.
  - split; [done|]. intros k. set_solver.
  - destruct (add_seen_spec acc l Hinv) as [Hinv' Hk].
    destruct (IH _ Hinv') as [Hinv'' Hk']. split; [done|].
    intros k. rewrite Hk', Hk. set_solver.
Qed.

Lemma seen_inv_empty : seen_inv (∅, []).
Proof. split; [apply NoDup_nil_2|]. set_solver. Qed.

(** Both enumerations fold [add_seen] over the labels of the instructions. *)
Lemma Labels_fold f : Labels f = (foldl add_seen (∅, []) (code_labels (fn_Code f))).2.
Proof.
  unfold Labels, code_labels. generalize (∅ : gset Z, [] : list Label) as acc.
  induction (fn_Code f) as [|i c IH]; intros acc; [done|].
  cbn [foldl]. rewrite IH. by destruct i.
Qed.

Lemma ReferencedLabels_fold f :
  ReferencedLabels f = (foldl add_seen (∅, []) (code_targets (fn_Code f))).2.
Proof.
  unfold ReferencedLabels, code_targets. generalize (∅ : gset Z, [] : list Label) as acc.
  induction (fn_Code f) as [|i c IH]; intros acc; [done|].
  cbn [foldl]. rewrite IH, bind_cons, foldl_app. by destruct i.
Qed.

Lemma foldl_add_seen_empty ls :
  NoDup (foldl add_seen (∅, []) ls).2 /\ forall k, k ∈ (foldl add_seen (∅, []) ls).2 <-> k ∈ ls.
Proof.
  destruct (foldl_add_seen ls _ seen_inv_empty) as [[Hnd _] Hk]. split; [done|].
  intros k. rewrite Hk. set_solver.
Qed.

(** ** Code concatenation *)

Lemma code_labels_app c1 c2 : code_labels (c1 ++ c2) = code_labels c1 ++ code_labels c2.
Proof. apply omap_app. Qed.

Lemma code_targets_app c1 c2 : code_targets (c1 ++ c2) = code_targets c1 ++ code_targets c2.
Proof. apply bind_app. Qed.

Lemma elem_of_code_targets c l : l ∈ code_targets c <-> exists i, i ∈ c /\ l ∈ inst_targets i.
Proof.
  unfold code_targets. rewrite list_elem_of_bind. naive_solver.
Qed.

Lemma elem_of_code_labels c l : l ∈ code_labels c <-> Llabel l ∈ c.
Proof.
  unfold code_labels. rewrite list_elem_of_omap. split.
  - intros (i & Hi & E). destruct i; try done. by injection E as ->.
  - intros H. by exists (Llabel l).
Qed.
