(* ===== verification/ParMove.v ===== *)
(** The parallel-move resolver that [convertCall]
    ([src/pkg/linearize/linearize.go]) and [GenerateParamCopies]
    ([src/pkg/stacking/prolog.go]) each contain: a set of moves
    [dest := src], all meant to happen at once, is turned into a sequence of
    moves through one temporary register. The loop visits Go maps, so it is
    parameterised by a [RangeOrder]; sources are of an abstract type, a
    location in the first copy of the loop and a register in the second. *)

From S2P Require Import Prelude Target.

Section Resolver.
  Context `{RangeOrder} {Src : Type} (as_reg : Src -> option MReg) (of_reg : MReg -> Src).
  Context (tempReg : MReg).

  Implicit Types (moves : gmap Z Src) (fin : gset Z) (result : list (Src * MReg)).

  (** [isSourceOfPendingMove] *)
Definition isSourceOfPendingMove moves fin (reg : MReg) : bool :=
    existsb (fun '(dest, src) =>
        negb (bool_decide (dest ∈ fin)) && bool_decide (as_reg src = Some reg))
      (map_to_list moves).

  (** One iteration of [for dest, src := range moves]; the state is [done],
      [result] and [madeProgress]. *)
Definition pass_step moves (acc : gset Z * list (Src * MReg) * bool) (mv : Z * Src) :=
    let '(fin, result, madeProgress) := acc in
    let '(dest, src) := mv in
    if decide (dest ∈ fin) then acc
    else if isSourceOfPendingMove moves fin dest then acc
    else ({[dest]} ∪ fin, result ++ [(src, dest)], true).

Definition pass (t : nat) moves fin result :=
    foldl (pass_step moves) (fin, result, false) (range t moves).

  (** The first pending move in iteration order. *)
Definition first_pending (t : nat) moves fin : option (Z * Src) :=
    head (filter (fun mv => mv.1 ∉ fin) (range t moves)).

  (** [if !madeProgress]: break a cycle through the temporary. *)
Definition break_cycle (t : nat) moves fin result :=
    match first_pending t moves fin with
    | None => (moves, fin, result)
    | Some (dest, src) =>
        match as_reg src with
        | None => (moves, {[dest]} ∪ fin, result ++ [(src, dest)])
        | Some srcReg =>
            ((fun src2 => if decide (as_reg src2 = Some srcReg) then of_reg tempReg else src2)
               <$> moves,
             fin,
             result ++ [(of_reg srcReg, tempReg)])
        end
    end.

  (** [for len(done) < len(moves)]; [None] when the fuel runs out. *)
Fixpoint resolve (fuel : nat) (t : nat) moves fin result : option (list (Src * MReg)) :=
    match fuel with
    | O => None
    | Datatypes.S fuel =>
        if decide (size fin < size moves)%nat then
          let '(fin', result', madeProgress) := pass t moves fin result in
          if madeProgress then resolve fuel (t + 2) moves fin' result'
          else
            let '(moves'', fin'', result'') := break_cycle (t + 1) moves fin' result' in
            resolve fuel (t + 2) moves'' fin'' result''
        else Some result
    end.

  (** Enough fuel for any set of moves: every two iterations retire a move. *)
Definition resolve_fuel moves : nat := (2 * size moves + 1)%nat.
End Resolver.

(** ** Specification *)

Section Spec.
  Context {Src V : Type} (as_reg : Src -> option MReg) (of_reg : MReg -> Src).

  (** What the sources mean: a source reads the register it names, or
      something no move can change. *)
Record source_laws (read : Src -> (MReg -> V) -> V) : Prop := {
    read_reg s r rf : as_reg s = Some r -> read s rf = rf r;
    read_other s rf rf' : as_reg s = None -> read s rf = read s rf';
    as_reg_of_reg r : as_reg (of_reg r) = Some r
  }.

  Context (read : Src -> (MReg -> V) -> V).

  (** Running a sequence of moves on a register file. *)
Definition exec_move (rf : MReg -> V) (mv : Src * MReg) : MReg -> V :=
    <[mv.2 := read mv.1 rf]> rf.
Definition exec_moves (rf : MReg -> V) (ms : list (Src * MReg)) : MReg -> V :=
    foldl exec_move rf ms.

  (** [rf'] is the effect on [rf] of doing all [moves] at once; the register
      [temp] is left with any value. *)
Definition parallel_assign (temp : MReg) (moves : gmap Z Src) (rf rf' : MReg -> V) : Prop :=
    (forall d s, moves !! d = Some s -> rf' d = read s rf) /\
    (forall r, moves !! r = None -> r <> temp -> rf' r = rf r).
End Spec.

(** ** Correctness *)

(** A finite set covered by the partial image of itself is permuted. *)
Lemma covered_permutes (f : Z -> option Z) (l : list Z) :
  NoDup l ->
  (forall d, d ∈ l -> exists d', d' ∈ l /\ f d' = Some d) ->
  forall d', d' ∈ l -> exists d, d ∈ l /\ f d' = Some d.
Proof.
  intros Hnd Hcov d' Hd'.
  assert (Hlen : (length (omap f l) <= length l)%nat).
  { clear. induction l as [|x l IH]; cbn; [lia|]. destruct (f x); cbn; lia. }
  assert (Hsub : submseteq l (omap f l)).
  { apply NoDup_submseteq; [done|]. intros d Hd.
    destruct (Hcov d Hd) as (e & He & Hf). apply list_elem_of_omap. eauto. }
  pose proof (submseteq_length_Permutation _ _ Hsub Hlen) as Hperm.
  destruct (f d') as [d|] eqn:E.
  - exists d. split; [|done]. rewrite Hperm. apply list_elem_of_omap. eauto.
  - exfalso. apply Permutation_length in Hperm.
    assert (length (omap f l) < length l)%nat; [|lia]. clear - Hd' E.
    induction Hd' as [x l|x y l Hin IH]; cbn.
    + rewrite E. clear. induction l as [|y l IH]; cbn; [lia|]. destruct (f y); cbn; lia.
    + specialize (IH E). destruct (f y); cbn; lia.
Qed.

Section Correct.
  Context `{RangeOrder} {Src V : Type} (as_reg : Src -> option MReg) (of_reg : MReg -> Src).
  Context (temp : MReg) (read : Src -> (MReg -> V) -> V).
  Context (laws : source_laws as_reg of_reg read).

  Implicit Types (moves : gmap Z Src) (fin : gset Z) (result : list (Src * MReg)).
  Implicit Types (rf : MReg -> V).

Let isSrc := isSourceOfPendingMove as_reg.

Lemma isSrc_true moves fin reg :
    isSrc moves fin reg = true <->
    exists d s, moves !! d = Some s /\ d ∉ fin /\ as_reg s = Some reg.
Proof.
    unfold isSrc, isSourceOfPendingMove. rewrite existsb_exists. split.
    - intros ([d s] & Hin%list_elem_of_In & Hb).
      apply elem_of_map_to_list in Hin. apply andb_prop in Hb as [H1 H2].
      apply negb_true_iff, bool_decide_eq_false in H1. apply bool_decide_eq_true in H2. eauto.
    - intros (d & s & Hm & Hd & Hs). exists (d, s).
      split; [by apply list_elem_of_In, elem_of_map_to_list|].
      rewrite bool_decide_eq_false_2, bool_decide_eq_true_2; done.
Qed.

Lemma isSrc_false moves fin reg :
    isSrc moves fin reg = false <->
    forall d s, moves !! d = Some s -> d ∉ fin -> as_reg s <> Some reg.
Proof.
    rewrite <- not_true_iff_false, isSrc_true. split.
    - intros Hn d s Hm Hd Hs. apply Hn. eauto.
    - intros Hn (d & s & Hm & Hd & Hs). by eapply Hn.
Qed.

Lemma range_elem t moves d s : (d, s) ∈ range t moves <-> moves !! d = Some s.
Proof. rewrite range_perm. apply elem_of_map_to_list. Qed.

  (** The loop invariant: [rf0] is the initial register file, [val] the value
      every destination must receive. *)
Record inv (rf0 : MReg -> V) (dests : gset Z) (val : Z -> V)
      moves fin (rf : MReg -> V) : Prop := {
    inv_dom : dom moves = dests;
    inv_temp : temp ∉ dests;
    inv_fin : fin ⊆ dests;
    inv_done d : d ∈ fin -> rf d = val d;
    inv_pending d s : moves !! d = Some s -> d ∉ fin -> read s rf = val d;
    inv_other r : r ∉ dests -> r <> temp -> rf r = rf0 r
  }.

  (** Assigning a register no pending source names preserves what they read. *)
Lemma read_insert_other s d v rf :
    as_reg s <> Some d -> read s (<[d := v]> rf) = read s rf.
Proof.
    intros Hne. destruct (as_reg s) as [r|] eqn:E.
    - rewrite !(read_reg _ _ _ laws _ _ _ E). apply fn_lookup_insert_ne. congruence.
    - by apply (read_other _ _ _ laws).
Qed.

Lemma inv_retire rf0 dests val moves fin rf d s :
    inv rf0 dests val moves fin rf ->
    moves !! d = Some s -> d ∉ fin -> isSrc moves fin d = false ->
    inv rf0 dests val moves ({[d]} ∪ fin) (exec_move read rf (s, d)).
Proof.
    intros [Hdom Htmp Hfin Hdone Hpend Hoth] Hm Hd Hfree.
    rewrite isSrc_false in Hfree.
    assert (Hdd : d ∈ dests) by (rewrite <- Hdom; apply elem_of_dom; eauto).
    unfold exec_move. cbn. split; try done.
    - set_solver.
    - intros e He. destruct (decide (d = e)) as [<-|Hne].
      + rewrite fn_lookup_insert. by apply Hpend.
      + rewrite fn_lookup_insert_ne by done. apply Hdone. set_solver.
    - intros e s' He Hne. rewrite read_insert_other; [apply Hpend; set_solver|].
      apply (Hfree e s'); [done|set_solver].
    - intros r Hr Hrt. rewrite fn_lookup_insert_ne by set_solver. by apply Hoth.
Qed.

  (** *** One pass *)

Lemma pass_fold moves (l : list (Z * Src)) rf0 dests val rf fin result b :
    (forall d s, (d, s) ∈ l -> moves !! d = Some s) ->
    inv rf0 dests val moves fin (exec_moves read rf result) ->
    let '(fin', result', b') := foldl (pass_step as_reg moves) (fin, result, b) l in
    inv rf0 dests val moves fin' (exec_moves read rf result') /\
    fin ⊆ fin' /\
    (b' = false -> b = false /\ fin' = fin /\ result' = result /\
       forall d s, (d, s) ∈ l -> d ∉ fin -> isSrc moves fin d = true) /\
    (b' = true -> b = true \/ fin ⊂ fin').
Proof.
    revert fin result b. induction l as [|[d s] l IH]; intros fin result b Hl Hinv; cbn [foldl].
    { split; [done|]. split; [done|]. split; [|by left].
      intros ->. repeat split; [done..|]. intros d s Hin. by apply not_elem_of_nil in Hin. }
    assert (Hl' : forall d s, (d, s) ∈ l -> moves !! d = Some s) by (intros; apply Hl; set_solver).
    unfold pass_step at 2. destruct (decide (d ∈ fin)) as [Hd|Hd].
    - specialize (IH fin result b Hl' Hinv).
      destruct (foldl _ _ l) as [[fin' result'] b']. destruct IH as (I1 & I2 & I3 & I4).
      split; [done|]. split; [done|]. split; [|done].
      intros Hb. destruct (I3 Hb) as (-> & -> & -> & HF). repeat split; [done..|].
      intros e s' [[= -> ->]|Hin]%elem_of_cons; [done|eauto].
    - destruct (isSourceOfPendingMove as_reg moves fin d) eqn:Hs.
      + specialize (IH fin result b Hl' Hinv).
        destruct (foldl _ _ l) as [[fin' result'] b']. destruct IH as (I1 & I2 & I3 & I4).
        split; [done|]. split; [done|]. split; [|done].
        intros Hb. destruct (I3 Hb) as (-> & -> & -> & HF). repeat split; [done..|].
        intros e s' [[= -> ->]|Hin]%elem_of_cons; [done|eauto].
      + assert (Hinv' : inv rf0 dests val moves ({[d]} ∪ fin)
                  (exec_moves read rf (result ++ [(s, d)]))).
        { unfold exec_moves. rewrite foldl_app. cbn.
          apply inv_retire; [done| |done|done]. apply Hl. set_solver. }
        specialize (IH _ _ true Hl' Hinv').
        destruct (foldl _ _ l) as [[fin' result'] b']. destruct IH as (I1 & I2 & I3 & I4).
        split; [done|]. split; [set_solver|]. split.
        * intros Hb. by destruct (I3 Hb).
        * intros _. right. set_solver.
Qed.

Definition pass_spec t moves fin result rf0 dests val rf
      (Hinv : inv rf0 dests val moves fin (exec_moves read rf result)) :=
    pass_fold moves (range t moves) rf0 dests val rf fin result false
      (fun d s => proj1 (range_elem t moves d s)) Hinv.

  (** A pass that starts with a free pending destination retires a move. *)
Lemma pass_fold_progress moves (l : list (Z * Src)) fin result b d s :
    (d, s) ∈ l -> d ∉ fin -> isSrc moves fin d = false ->
    (foldl (pass_step as_reg moves) (fin, result, b) l).2 = true.
Proof.
    assert (Htrue : forall l fin result,
      (foldl (pass_step as_reg moves) (fin, result, true) l).2 = true).
    { intros k. induction k as [|[e s'] k IH]; intros fin' result'; [done|].
      cbn [foldl]. unfold pass_step at 2. repeat case_match; apply IH. }
    revert fin result b. induction l as [|[e s'] l IH]; intros fin result b Hin Hd Hfree.
    { by apply not_elem_of_nil in Hin. }
    cbn [foldl]. unfold pass_step at 2. apply elem_of_cons in Hin as [[= <- <-]|Hin].
    - destruct (decide (d ∈ fin)); [done|]. unfold isSrc in Hfree. rewrite Hfree. apply Htrue.
    - case_match; [by apply IH|]. case_match; [by apply IH|]. apply Htrue.
Qed.

  (** *** Breaking a cycle *)

Definition stalled moves fin : Prop :=
    forall d s, moves !! d = Some s -> d ∉ fin -> isSrc moves fin d = true.

  (** When no move can be done, the pending sources are the pending
      destinations, in another order. *)
Lemma stalled_permutes moves fin :
    stalled moves fin ->
    forall d s, moves !! d = Some s -> d ∉ fin ->
    exists r s', as_reg s = Some r /\ moves !! r = Some s' /\ r ∉ fin.
Proof.
    intros Hst d s Hm Hd.
    set (l := filter (fun d => d ∉ fin) (elements (dom moves))).
    assert (Hl : forall e, e ∈ l <-> e ∉ fin /\ is_Some (moves !! e)).
    { intros e. unfold l. rewrite list_elem_of_filter, elem_of_elements, elem_of_dom. done. }
    destruct (covered_permutes (fun e => moves !! e ≫= as_reg) l) with (d' := d) as (r & Hr & Hfr).
    - apply NoDup_filter, NoDup_elements.
    - intros e [He [s' Hs']]%Hl. apply (Hst e s' Hs'), isSrc_true in He as (e' & s'' & H1 & H2 & H3).
      exists e'. split; [apply Hl; eauto|]. by rewrite H1.
    - apply Hl. eauto.
    - rewrite Hm in Hfr. cbn in Hfr. apply Hl in Hr as [Hrf [s' Hs']]. eauto.
Qed.

Lemma first_pending_Some t moves fin d s :
    first_pending t moves fin = Some (d, s) -> moves !! d = Some s /\ d ∉ fin.
Proof.
    unfold first_pending. intros Hh%head_Some_elem_of.
    apply list_elem_of_filter in Hh as [Hd Hin]. by apply range_elem in Hin.
Qed.

Lemma first_pending_is_Some t moves fin d s :
    moves !! d = Some s -> d ∉ fin -> is_Some (first_pending t moves fin).
Proof.
    intros Hm Hd. unfold first_pending.
    assert (Hin : (d, s) ∈ filter (fun mv => mv.1 ∉ fin) (range t moves))
      by (apply list_elem_of_filter; split; [done|by apply range_elem]).
    destruct (filter _ _); [by apply not_elem_of_nil in Hin|]. by eexists.
Qed.

Lemma inv_break rf0 dests val moves fin rf result t :
    inv rf0 dests val moves fin (exec_moves read rf result) ->
    stalled moves fin -> (size fin < size moves)%nat ->
    exists moves' result' r s,
      break_cycle as_reg of_reg temp t moves fin result = (moves', fin, result') /\
      inv rf0 dests val moves' fin (exec_moves read rf result') /\
      moves' !! r = Some s /\ r ∉ fin /\ isSrc moves' fin r = false.
Proof.
    intros Hinv Hst Hsz. pose proof Hinv as [Hdom Htmp Hfin Hdone Hpend Hoth].
    assert (Hex : exists d s, moves !! d = Some s /\ d ∉ fin).
    { destruct (set_choose_or_empty (dests ∖ fin)) as [[d Hd]|Hsub].
      - apply elem_of_difference in Hd as [Hd Hn].
        rewrite <- Hdom, elem_of_dom in Hd. destruct Hd as [s Hs]. eauto.
      - assert (Hle : dests ⊆ fin) by set_solver.
        apply subseteq_size in Hle. rewrite <- Hdom, size_dom in Hle. lia. }
    destruct Hex as (d0 & s0 & Hm0 & Hd0).
    destruct (first_pending_is_Some t moves fin d0 s0 Hm0 Hd0) as [[d s] Hfp].
    destruct (first_pending_Some t moves fin d s Hfp) as [Hm Hd].
    destruct (stalled_permutes moves fin Hst d s Hm Hd) as (r & s' & Hr & Hmr & Hrf).
    unfold break_cycle. rewrite Hfp, Hr.
    set (sub := fun src2 => if decide (as_reg src2 = Some r) then of_reg temp else src2).
    assert (Hrt : r <> temp).
    { intros ->. apply Htmp. rewrite <- Hdom. apply elem_of_dom. eauto. }
    exists (sub <$> moves), (result ++ [(of_reg r, temp)]), r, (sub s').
    split; [done|]. split; [|split; [by rewrite lookup_fmap, Hmr|split; [done|]]].
    - unfold exec_moves in *. rewrite foldl_app. cbn. set (rf1 := foldl _ rf result) in *.
      assert (Hread : read (of_reg r) rf1 = rf1 r)
        by (apply (read_reg _ _ _ laws), (as_reg_of_reg _ _ _ laws)).
      unfold exec_move. cbn. rewrite Hread. split; try done.
      + by rewrite dom_fmap_L.
      + intros e He. rewrite fn_lookup_insert_ne by set_solver. by apply Hdone.
      + intros e s2 He Hef. rewrite lookup_fmap in He.
        destruct (moves !! e) as [s3|] eqn:Em; [|done]. cbn in He. injection He as <-.
        pose proof (Hpend e s3 Em Hef) as Hv.
        destruct (stalled_permutes moves fin Hst e s3 Em Hef) as (r3 & s4 & Hr3 & Hm3 & Hr3f).
        unfold sub. case_decide as Hc.
        * rewrite (read_reg _ _ _ laws _ temp) by apply (as_reg_of_reg _ _ _ laws).
          rewrite fn_lookup_insert, <- Hv. symmetry. by apply (read_reg _ _ _ laws).
        * rewrite read_insert_other; [done|]. rewrite Hr3. intros [= ->]. apply Htmp.
          rewrite <- Hdom. apply elem_of_dom. eauto.
      + intros q Hq Hqt. rewrite fn_lookup_insert_ne by done. by apply Hoth.
    - apply isSrc_false. intros e s2 He Hef. rewrite lookup_fmap in He.
      destruct (moves !! e) as [s3|]; [|done]. cbn in He. injection He as <-.
      unfold sub. case_decide; [|done]. rewrite (as_reg_of_reg _ _ _ laws). congruence.
Qed.

  (** *** The whole loop *)

Lemma resolve_sound fuel t moves fin result rf0 dests val rf ms :
    inv rf0 dests val moves fin (exec_moves read rf result) ->
    resolve as_reg of_reg temp fuel t moves fin result = Some ms ->
    exists moves' fin', inv rf0 dests val moves' fin' (exec_moves read rf ms) /\
      (size moves' <= size fin')%nat.
Proof.
    revert t moves fin result. induction fuel as [|fuel IH]; intros t moves fin result Hinv; [done|].
    cbn. case_decide as Hsz; [|intros [= <-]; exists moves, fin; split; [done|lia]].
    pose proof (pass_spec t moves fin result rf0 dests val rf Hinv) as Hp.
    unfold pass. destruct (foldl _ _ (range t moves)) as [[fin' result'] b] eqn:E.
    destruct Hp as (Hinv' & _ & Hb & _). destruct b; [by apply IH|].
    destruct (Hb eq_refl) as (_ & -> & -> & Hst).
    assert (Hstall : stalled moves fin) by (intros d s Hm; apply (Hst d s), range_elem, Hm).
    destruct (inv_break _ _ _ _ _ _ _ (t + 1) Hinv Hstall Hsz)
      as (moves' & result'' & r & s & -> & Hinv'' & _). by apply IH.
Qed.

  (** Fuel: [n] pending moves need at most [2 n + 1] iterations, [2 n] when
      one of them can be done at once. *)
Lemma resolve_enough n : forall fuel t moves fin result rf0 dests val rf,
    inv rf0 dests val moves fin (exec_moves read rf result) ->
    (size moves - size fin <= n)%nat ->
    (2 * n + 1 <= fuel \/
     2 * n <= fuel /\ exists d s, moves !! d = Some s /\ d ∉ fin /\ isSrc moves fin d = false)%nat ->
    is_Some (resolve as_reg of_reg temp fuel t moves fin result).
Proof.
    induction n as [|n IHn].
    { intros fuel t moves fin result rf0 dests val rf Hinv Hsz Hfuel. destruct fuel as [|fuel].
      - destruct Hfuel as [|(_ & d & s & Hm & Hd & _)]; [lia|]. exfalso.
        assert (Hlt : (size ({[d]} ∪ fin) <= size moves)%nat).
        { rewrite <- size_dom, (inv_dom _ _ _ _ _ _ Hinv). apply subseteq_size.
          pose proof (inv_fin _ _ _ _ _ _ Hinv). apply union_subseteq. split; [|done].
          apply singleton_subseteq_l. rewrite <- (inv_dom _ _ _ _ _ _ Hinv).
          apply elem_of_dom. eauto. }
        rewrite size_union, size_singleton in Hlt by set_solver. lia.
      - cbn. rewrite decide_False by lia. eauto. }
    (* a free pending move *)
    assert (Hfree : forall fuel t moves fin result rf0 dests val rf d s,
      inv rf0 dests val moves fin (exec_moves read rf result) ->
      (size moves - size fin <= Datatypes.S n)%nat -> (2 * Datatypes.S n <= fuel)%nat ->
      moves !! d = Some s -> d ∉ fin -> isSrc moves fin d = false ->
      is_Some (resolve as_reg of_reg temp fuel t moves fin result)).
    { intros fuel t moves fin result rf0 dests val rf d s Hinv Hsz Hfuel Hm Hd Hf.
      destruct fuel as [|fuel]; [lia|]. cbn. case_decide; [|eauto].
      pose proof (pass_spec t moves fin result rf0 dests val rf Hinv) as Hp.
      pose proof (pass_fold_progress moves (range t moves) fin result false d s
        (proj2 (range_elem t moves d s) Hm) Hd Hf) as Hb.
      unfold pass. destruct (foldl _ _ (range t moves)) as [[fin' result'] b].
      cbn in Hb. subst b. destruct Hp as (Hinv' & _ & _ & Hlt).
      destruct (Hlt eq_refl) as [|Hsub%subset_size]; [done|].
      eapply IHn; [exact Hinv'|lia|]. left. lia. }
    intros fuel t moves fin result rf0 dests val rf Hinv Hsz Hfuel.
    destruct Hfuel as [Hfuel|(Hfuel & d & s & Hm & Hd & Hf)]; [|by eapply Hfree].
    destruct fuel as [|fuel]; [lia|]. cbn. case_decide as Hlt; [|eauto].
    pose proof (pass_spec t moves fin result rf0 dests val rf Hinv) as Hp.
    unfold pass. destruct (foldl _ _ (range t moves)) as [[fin' result'] b].
    destruct Hp as (Hinv' & _ & Hb & Hsub). destruct b.
    - destruct (Hsub eq_refl) as [|Hlt'%subset_size]; [done|].
      eapply IHn; [exact Hinv'|lia|]. left. lia.
    - destruct (Hb eq_refl) as (_ & -> & -> & Hst).
      assert (Hstall : stalled moves fin) by (intros d s Hm; apply (Hst d s), range_elem, Hm).
      destruct (inv_break _ _ _ _ _ _ _ (t + 1) Hinv Hstall Hlt)
        as (moves' & result'' & r & s & -> & Hinv'' & Hr & Hrf & Hfr).
      eapply (Hfree _ _ _ _ _ rf0 dests val rf r s); [exact Hinv''| |lia|done..].
      rewrite <- (size_dom (D := gset Z) moves'), (inv_dom _ _ _ _ _ _ Hinv''),
        <- (inv_dom _ _ _ _ _ _ Hinv), size_dom. lia.
Qed.

Lemma inv_init moves rf :
    moves !! temp = None ->
    inv rf (dom moves) (fun d => default (rf d) (moves !! d ≫= fun s => Some (read s rf)))
      moves ∅ (exec_moves read rf []).
Proof.
    intros Ht. split; [done| |set_solver|set_solver| |done].
    - by apply not_elem_of_dom.
    - intros d s Hm _. by rewrite Hm.
Qed.

Lemma resolve_total moves t (rf : MReg -> V) :
    moves !! temp = None ->
    is_Some (resolve as_reg of_reg temp (resolve_fuel moves) t moves ∅ []).
Proof.
    intros Ht. eapply (resolve_enough (size moves)).
    - by apply (inv_init moves rf).
    - lia.
    - left. unfold resolve_fuel. lia.
Qed.

Lemma resolve_parallel fuel t moves ms rf :
    moves !! temp = None ->
    resolve as_reg of_reg temp fuel t moves ∅ [] = Some ms ->
    parallel_assign read temp moves rf (exec_moves read rf ms).
Proof.
    intros Ht Hres.
    destruct (resolve_sound _ _ _ _ _ _ _ _ rf ms (inv_init moves rf Ht) Hres)
      as (moves' & fin' & [Hdom _ Hfin Hdone _ Hoth] & Hsz).
    assert (Hall : dom moves = fin').
    { symmetry. apply set_subseteq_size_eq; [done|]. by rewrite <- Hdom, size_dom. }
    split.
    - intros d s Hm. rewrite Hdone; [by rewrite Hm|].
      rewrite <- Hall. apply elem_of_dom. eauto.
    - intros r Hr Hrt. apply Hoth; [|done]. by apply not_elem_of_dom.
Qed.
End Correct.

(** The loop terminates on every set of moves that does not write the
    temporary, whatever the iteration order of the maps. *)
Lemma resolve_terminates `{RangeOrder} {Src} (as_reg : Src -> option MReg) of_reg temp moves t :
  (forall r, as_reg (of_reg r) = Some r) ->
  moves !! temp = None ->
  is_Some (resolve as_reg of_reg temp (resolve_fuel moves) t moves ∅ []).
Proof.
  intros Hlaw Ht.
  apply (resolve_total as_reg of_reg temp (fun _ _ => tt)); [|exact (fun _ => tt)|done].
  by split; [intros ? r rf _; destruct (rf r)| |].
Qed.
