(* ===== verification/Semantics.v ===== *)
(** Execution of LTL and Linear functions, the reference the passes are
    verified against. The repository gives its intermediate languages no
    semantics of their own, only the names and comments of CompCert's, so this
    file fixes one: a program state is a map from locations to values and a
    memory, and what single operations, memory accesses, comparisons, builtins
    and callees do is left abstract in the class [TargetSemantics]. *)

From S2P Require Import Prelude Target.
From S2P Require Import Ltl Linear.
From Stdlib Require Import FunctionalExtensionality.

(** The code a call transfers to: an address, or a named symbol. *)
Inductive callee (V : Type) :=
| ToAddress (v : V)
| ToSymbol (name : string).
Arguments ToAddress {V} v.
Arguments ToSymbol {V} name.

(** Locations hold values; a callee reads and rewrites them and the memory. *)
Class TargetSemantics (V M : Type) := {
  eval_op : Operation -> list V -> M -> option V;
  eval_load : Chunk -> AddressingMode -> list V -> M -> option V;
  eval_store : Chunk -> AddressingMode -> list V -> V -> M -> option M;
  eval_cond : ConditionCode -> list V -> M -> option bool;
  eval_index : V -> option nat;
  eval_builtin : string -> list V -> M -> option (V * M);
  eval_call : Sig -> callee V -> (Loc -> V) -> M -> option ((Loc -> V) * M);
  (* moves copy their argument *)
  eval_op_move : forall v m, eval_op Omove [v] m = Some v;
  (* X8 carries no argument: a callee does not depend on what it holds *)
  eval_call_X8 : forall sig f ls ls' m,
    (forall l, l <> Target.R X8 -> ls l = ls' l) -> eval_call sig f ls m = eval_call sig f ls' m
}.

(** What a function hands over when it ends: a return value and the memory,
    or, for a tail call, the callee and the arguments it finds. *)
Inductive result (V M : Type) :=
| Returned (v : V) (m : M)
| TailCalled (sig : Sig) (f : callee V) (args : list V) (m : M).
Arguments Returned {V M} v m.
Arguments TailCalled {V M} sig f args m.

(** ** The calling convention *)

(** The location of the [i]-th argument of a call when the first [regs]
    arguments are passed in X0, X1, ... and the others on the stack, eight
    bytes each. *)
Definition call_loc (regs i : nat) : Loc :=
  if (i <? regs)%nat then Target.R (X (Z.of_nat i))
  else Target.S SlotOutgoing (Z.of_nat (i - regs) * 8) Tlong.

Definition call_locs (regs n : nat) : list Loc := call_loc regs <$> seq 0 n.

(** The locations after all arguments have been placed, all at once. *)
Definition place_args {V} (regs : nat) (args : list Loc) (ls : Loc -> V) : Loc -> V :=
  foldl (fun acc dv => <[dv.1 := dv.2]> acc) ls
    (zip (call_locs regs (length args)) (ls <$> args)).

Section Execution.
  Context {V M : Type} `{TargetSemantics V M}.
  Implicit Types (ls : Loc -> V) (m : M).

  (** ** LTL *)

Definition ltl_callee ls (f : Ltl.FunRef) : callee V :=
    match f with
    | Ltl.FunReg l => ToAddress (ls l)
    | Ltl.FunSymbol s => ToSymbol s
    end.

  (** How many arguments of a call are passed in registers: a parameter,
      for the platform decides. *)
  Context (reg_args : Ltl.FunRef -> nat).

  (** An instruction that does not end a block. *)
Definition ltl_exec (i : Ltl.Instruction) ls m : option ((Loc -> V) * M) :=
    match i with
    | Ltl.Lnop => Some (ls, m)
    | Ltl.Lop op args dest =>
        v ← eval_op op (ls <$> args) m; Some (<[dest := v]> ls, m)
    | Ltl.Lload chunk addr args dest =>
        v ← eval_load chunk addr (ls <$> args) m; Some (<[dest := v]> ls, m)
    | Ltl.Lstore chunk addr args src =>
        m' ← eval_store chunk addr (ls <$> args) (ls src) m; Some (ls, m')
    | Ltl.Lcall sig f args =>
        eval_call sig (ltl_callee ls f) (place_args (reg_args f) args ls) m
    | Ltl.Lbuiltin b args dest =>
        '(v, m') ← eval_builtin b (ls <$> args) m;
        Some (match dest with Some d => <[d := v]> ls | None => ls end, m')
    | _ => None
    end.

  (** The state: the instructions of the current block still to execute, the
      locations and the memory. *)
Definition ltl_state : Type := list Ltl.Instruction * (Loc -> V) * M.

Definition ltl_enter (code : gmap Z BBlock) (n : Z) ls m : outcome ltl_state (result V M) :=
    match code !! n with
    | Some b => Next (Body b, ls, m)
    | None => Stuck
    end.

Definition ltl_step (code : gmap Z BBlock) (s : ltl_state) : outcome ltl_state (result V M) :=
    let '(body, ls, m) := s in
    match body with
    | [] => Stuck
    | Ltl.Lbranch n :: _ => ltl_enter code n ls m
    | Ltl.Lcond c args n1 n2 :: _ =>
        match eval_cond c (ls <$> args) m with
        | Some b => ltl_enter code (if b then n1 else n2) ls m
        | None => Stuck
        end
    | Ltl.Ljumptable arg targets :: _ =>
        match eval_index (ls arg) ≫= (fun k => targets !! k) with
        | Some n => ltl_enter code n ls m
        | None => Stuck
        end
    | Ltl.Lreturn :: _ => Halt (Returned (ls (Target.R X0)) m)
    | Ltl.Ltailcall sig f args :: _ => Halt (TailCalled sig (ltl_callee ls f) (ls <$> args) m)
    | i :: rest =>
        match ltl_exec i ls m with
        | Some (ls', m') => Next (rest, ls', m')
        | None => Stuck
        end
    end.

  (** A function body started at its entry point. *)
Definition ltl_init (f : Ltl.Function) ls m : option ltl_state :=
    b ← Ltl.fn_Code f !! Ltl.fn_Entrypoint f; Some (Body b, ls, m).

  (** ** Linear *)

Definition linear_callee ls (f : Linear.FunRef) : callee V :=
    match f with
    | Linear.FunReg l => ToAddress (ls l)
    | Linear.FunSymbol s => ToSymbol s
    end.

  (** An instruction that does not transfer control within the function. *)
Definition linear_exec (i : Linear.Instruction) ls m : option ((Loc -> V) * M) :=
    match i with
    | Linear.Lgetstack slot ofs ty dest => Some (<[Target.R dest := ls (Target.S slot ofs ty)]> ls, m)
    | Linear.Lsetstack src slot ofs ty => Some (<[Target.S slot ofs ty := ls (Target.R src)]> ls, m)
    | Linear.Lop op args dest =>
        v ← eval_op op (ls <$> args) m; Some (<[dest := v]> ls, m)
    | Linear.Lload chunk addr args dest =>
        v ← eval_load chunk addr (ls <$> args) m; Some (<[dest := v]> ls, m)
    | Linear.Lstore chunk addr args src =>
        m' ← eval_store chunk addr (ls <$> args) (ls src) m; Some (ls, m')
    | Linear.Lcall sig f => eval_call sig (linear_callee ls f) ls m
    | Linear.Lbuiltin b args dest =>
        '(v, m') ← eval_builtin b (ls <$> args) m;
        Some (match dest with Some d => <[d := v]> ls | None => ls end, m')
    | Linear.Llabel _ => Some (ls, m)
    | _ => None
    end.

  (** The code that follows a label. *)
Fixpoint find_label (l : Z) (code : list Linear.Instruction) : option (list Linear.Instruction) :=
    match code with
    | [] => None
    | Linear.Llabel l' :: rest => if decide (l = l') then Some rest else find_label l rest
    | _ :: rest => find_label l rest
    end.

  (** The state: the code still to execute, the locations and the memory. *)
Definition linear_state : Type := list Linear.Instruction * (Loc -> V) * M.

Definition linear_jump (code : list Linear.Instruction) (l : Z) ls m
      : outcome linear_state (result V M) :=
    match find_label l code with
    | Some rest => Next (rest, ls, m)
    | None => Stuck
    end.

Definition linear_step (code : list Linear.Instruction) (s : linear_state)
      : outcome linear_state (result V M) :=
    let '(pc, ls, m) := s in
    match pc with
    | [] => Stuck
    | Linear.Lgoto l :: _ => linear_jump code l ls m
    | Linear.Lcond c args l :: rest =>
        match eval_cond c (ls <$> args) m with
        | Some true => linear_jump code l ls m
        | Some false => Next (rest, ls, m)
        | None => Stuck
        end
    | Linear.Ljumptable arg targets :: _ =>
        match eval_index (ls arg) ≫= (fun k => targets !! k) with
        | Some l => linear_jump code l ls m
        | None => Stuck
        end
    | Linear.Lreturn :: _ => Halt (Returned (ls (Target.R X0)) m)
    | Linear.Ltailcall sig f :: _ =>
        Halt (TailCalled sig (linear_callee ls f) (ls <$> call_locs 8 (length (sig_Args sig))) m)
    | i :: rest =>
        match linear_exec i ls m with
        | Some (ls', m') => Next (rest, ls', m')
        | None => Stuck
        end
    end.

(** Instructions that do not transfer control within the function. *)
Definition is_straight (i : Linear.Instruction) : bool :=
  match i with
  | Linear.Lgoto _ | Linear.Lcond _ _ _ | Linear.Ljumptable _ _
  | Linear.Lreturn | Linear.Ltailcall _ _ => false
  | _ => true
  end.

Lemma linear_step_straight code i rest ls m :
    is_straight i = true ->
    linear_step code (i :: rest, ls, m) =
      match linear_exec i ls m with Some (ls', m') => Next (rest, ls', m') | None => Stuck end.
Proof. by destruct i. Qed.

Definition linear_init (f : Linear.Function) ls m : linear_state :=
    (Linear.fn_Code f, ls, m).

  (** Straight-line execution. *)
Fixpoint linear_exec_list (c : list Linear.Instruction) ls m : option ((Loc -> V) * M) :=
    match c with
    | [] => Some (ls, m)
    | i :: rest => '(ls', m') ← linear_exec i ls m; linear_exec_list rest ls' m'
    end.
End Execution.

(** ** A concrete target

    Values and memories are integers; a load or store reads or writes the one
    memory cell; a callee returns the sum of X0, X1, the first outgoing slot
    and its own address or name length, and counts the call in the memory.
    The theorems hold for every target; this one runs them on examples. *)

Definition sum_op (op : Operation) (args : list Z) : option Z :=
  match op, args with
  | Omove, [v] => Some v
  | Ointconst n, [] => Some n
  | Oadd, [a; b] => Some (a + b)
  | Oaddimm n, [a] => Some (a + n)
  | Osub, [a; b] => Some (a - b)
  | _, _ => None
  end.

Definition sum_cond (c : ConditionCode) (args : list Z) : option bool :=
  match c, args with
  | Ccompimm Ceq n, [a] => Some (a =? n)
  | Ccompimm Clt n, [a] => Some (a <? n)
  | Ccomp Clt, [a; b] => Some (a <? b)
  | _, _ => None
  end.

Definition sum_call (f : callee Z) (ls : Loc -> Z) (m : Z) : (Loc -> Z) * Z :=
  let v := ls (Target.R 0) + ls (Target.R 1) + ls (Target.S SlotOutgoing 0 Tlong) +
           match f with ToAddress a => 1000 * a | ToSymbol s => Z.of_nat (String.length s) end in
  (fun l => if decide (l = Target.R 0) then v else
            match l with Target.R r => if 19 <=? r then ls l else 0 | _ => ls l end, m + 1).

Lemma sum_call_X8 f ls ls' m :
  (forall l, l <> Target.R X8 -> ls l = ls' l) -> sum_call f ls m = sum_call f ls' m.
Proof.
  intros Hls. unfold sum_call. rewrite !Hls by done. f_equal.
  apply functional_extensionality. intros l. case_decide; [done|].
  destruct l as [r|k o t|]; [|by apply Hls..].
  destruct (Z.leb_spec 19 r); [|done]. apply Hls. intros [= ->]. unfold X8, X in *. lia.
Qed.

Definition sum_target : TargetSemantics Z Z := {|
  eval_op op args _ := sum_op op args;
  eval_load _ _ args m := Some m;
  eval_store _ _ args v _ := Some v;
  eval_cond c args _ := sum_cond c args;
  eval_index v := if 0 <=? v then Some (Z.to_nat v) else None;
  eval_builtin _ args m := Some (0, m);
  eval_call _ f ls m := Some (sum_call f ls m);
  eval_op_move _ _ := eq_refl;
  eval_call_X8 _ f ls ls' m H := f_equal Some (sum_call_X8 f ls ls' m H)
|}.
