(* ===== verification/Tunneling.v ===== *)
(** Branch tunneling ([src/pkg/linearize/tunneling.go]): a jump to a label
    that is immediately followed by a [goto] is redirected to the end of the
    chain of jumps. *)

From S2P Require Import Prelude Target Linear Semantics.

(** [buildJumpTargetMap]: labels immediately followed by a goto. The loop
    goes from the first instruction to the last but one, and a later entry
    for a label replaces an earlier one. *)
Fixpoint build_from (code : list Instruction) (result : gmap Z Z) : gmap Z Z :=
  match code with
  | Llabel l :: ((Lgoto t :: _) as rest) => build_from rest (<[l := t]> result)
  | _ :: rest => build_from rest result
  | [] => result
  end.

Definition buildJumpTargetMap (code : list Instruction) : gmap Z Z := build_from code ∅.

(** [resolveLabel]: the loop, with the set of visited labels; [None] when the
    fuel runs out. *)
Fixpoint resolveLabel (fuel : nat) (jumpTargets : gmap Z Z) (visited : gset Z) (current : Z)
    : option Z :=
  match fuel with
  | O => None
  | Datatypes.S fuel =>
      if decide (current ∈ visited) then Some current
      else
        match jumpTargets !! current with
        | None => Some current
        | Some target => resolveLabel fuel jumpTargets ({[current]} ∪ visited) target
        end
  end.

(** A chain visits each label of the map at most once before the loop stops. *)
Definition chain_fuel (jumpTargets : gmap Z Z) : nat := (size jumpTargets + 2)%nat.

(** [resolveChains]. The iteration order of the map does not matter: every
    iteration writes the entry of its own key. *)
Definition resolveChains (jumpTargets : gmap Z Z) : gmap Z Z :=
  map_imap (fun lbl _ => resolveLabel (chain_fuel jumpTargets) jumpTargets ∅ lbl) jumpTargets.

Definition tunnel_label (resolved : gmap Z Z) (l : Z) : Z :=
  match resolved !! l with
  | Some target => target
  | None => l
  end.

Definition tunnelInstruction (resolved : gmap Z Z) (inst : Instruction) : Instruction :=
  match inst with
  | Lgoto l => Lgoto (tunnel_label resolved l)
  | Lcond c args l => Lcond c args (tunnel_label resolved l)
  | Ljumptable arg targets => Ljumptable arg (tunnel_label resolved <$> targets)
  | _ => inst
  end.

Definition tunnel_code (code : list Instruction) : list Instruction :=
  match code with
  | [] => []
  | _ => tunnelInstruction (resolveChains (buildJumpTargetMap code)) <$> code
  end.

(** [Tunnel] *)
Definition Tunnel (fn : Function) : Function := with_code fn (tunnel_code (fn_Code fn)).

(** ** Chains of jumps *)

Definition jumps (jt : gmap Z Z) (a b : Z) : Prop := jt !! a = Some b.

Lemma resolveLabel_chain fuel jt visited l l' :
  resolveLabel fuel jt visited l = Some l' -> rtc (jumps jt) l l'.
Proof.
  revert visited l. induction fuel as [|fuel IH]; intros visited l; [done|]. cbn.
  case_decide; [by intros [= ->]|].
  destruct (jt !! l) as [t|] eqn:E; [|by intros [= ->]].
  intros Hr. eapply rtc_l; [exact E|by eapply IH].
Qed.

(** Where the loop may stop: at a label that does not jump on, or on a cycle. *)
Lemma resolveLabel_end fuel jt visited l l' :
  (forall v, v ∈ visited -> tc (jumps jt) v l) ->
  resolveLabel fuel jt visited l = Some l' ->
  jt !! l' = None \/ tc (jumps jt) l' l'.
Proof.
  revert visited l. induction fuel as [|fuel IH]; intros visited l Hv; [done|]. cbn.
  case_decide as Hin; [intros [= <-]; right; by apply Hv|].
  destruct (jt !! l) as [t|] eqn:E; [|intros [= <-]; by left].
  apply IH. intros v [->%elem_of_singleton|Hvin]%elem_of_union.
  - by apply tc_once.
  - eapply tc_r; [by apply Hv|done].
Qed.

Lemma resolveLabel_total fuel jt visited l :
  visited ⊆ dom jt -> (size jt + 2 <= fuel + size visited)%nat ->
  is_Some (resolveLabel fuel jt visited l).
Proof.
  revert visited l. induction fuel as [|fuel IH]; intros visited l Hsub Hf.
  { apply subseteq_size in Hsub. rewrite size_dom in Hsub. lia. }
  cbn. case_decide as Hin; [eauto|].
  destruct (jt !! l) as [t|] eqn:E; [|eauto].
  apply IH.
  - apply union_subseteq. split; [|done]. apply singleton_subseteq_l, elem_of_dom. eauto.
  - rewrite size_union, size_singleton by set_solver. lia.
Qed.

Lemma resolveChains_lookup jt l :
  resolveChains jt !! l =
    match jt !! l with Some _ => resolveLabel (chain_fuel jt) jt ∅ l | None => None end.
Proof. unfold resolveChains. rewrite map_lookup_imap. by destruct (jt !! l). Qed.

Lemma tunnel_label_chain jt l : rtc (jumps jt) l (tunnel_label (resolveChains jt) l).
Proof.
  unfold tunnel_label. rewrite resolveChains_lookup.
  destruct (jt !! l); [|done]. destruct (resolveLabel _ _ _ _) eqn:E; [|done].
  by eapply resolveLabel_chain.
Qed.

(** ** The map and the code *)

Lemma find_label_notin l c : ~ Llabel l ∈ c -> find_label l c = None.
Proof.
  induction c as [|i c IH]; intros Hn; [done|].
  assert (Hn' : ~ Llabel l ∈ c) by set_solver.
  destruct i; cbn; try by apply IH.
  case_decide; [subst; set_solver|by apply IH].
Qed.

Lemma find_label_in l c : Llabel l ∈ c -> is_Some (find_label l c).
Proof.
  induction c as [|i c IH]; intros Hin; [by apply not_elem_of_nil in Hin|].
  apply elem_of_cons in Hin as [<-|Hin]; cbn.
  - rewrite decide_True; eauto.
  - destruct i; try by apply IH. case_decide; [eauto|by apply IH].
Qed.

Lemma find_label_unique l c1 c2 :
  unique_labels (c1 ++ Llabel l :: c2) -> find_label l (c1 ++ Llabel l :: c2) = Some c2.
Proof.
  induction c1 as [|i c1 IH]; intros Hu; cbn.
  - by rewrite decide_True.
  - unfold unique_labels in Hu. cbn in Hu.
    destruct i; cbn in Hu; try (by apply IH).
    apply NoDup_cons in Hu as [Hn Hu]. rewrite decide_False; [by apply IH|].
    intros <-. apply Hn. fold (code_labels (c1 ++ Llabel l :: c2)).
    apply elem_of_code_labels. set_solver.
Qed.

Lemma build_from_spec code result l t :
  build_from code result !! l = Some t ->
  result !! l = Some t \/ exists c1 c2, code = c1 ++ Llabel l :: Lgoto t :: c2.
Proof.
  revert result. induction code as [|i code IH]; intros result; [by left|].
  assert (Hskip : forall r, build_from code r !! l = Some t ->
    r !! l = Some t \/ exists c1 c2, i :: code = c1 ++ Llabel l :: Lgoto t :: c2).
  { intros r [?|(c1 & c2 & ->)]%IH; [by left|]. right. by exists (i :: c1), c2. }
  destruct i as [| | | | | | | |k| | | |]; cbn; try apply Hskip.
  destruct code as [|[| | | | | | | | |t'| | |] code']; try apply Hskip.
  intros [Hl|?]%Hskip; [|by right].
  apply lookup_insert_Some in Hl as [[-> ->]|[_ ?]]; [|by left].
  right. by exists [], code'.
Qed.

Lemma jump_target_found code a b :
  unique_labels code -> jumps (buildJumpTargetMap code) a b ->
  exists rest, find_label a code = Some (Lgoto b :: rest).
Proof.
  intros Hu [Hn|(c1 & c2 & ->)]%build_from_spec; [by rewrite lookup_empty in Hn|].
  exists c2. by apply find_label_unique.
Qed.

Lemma tunnel_labels resolved c :
  code_labels (tunnelInstruction resolved <$> c) = code_labels c.
Proof.
  unfold code_labels. induction c as [|i c IH]; [done|]. destruct i; cbn in *; by rewrite IH.
Qed.

Lemma find_label_tunnel resolved l c :
  find_label l (tunnelInstruction resolved <$> c) =
    fmap (M := list) (tunnelInstruction resolved) <$> find_label l c.
Proof.
  induction c as [|i c IH]; [done|]. destruct i; cbn; try apply IH.
  case_decide; [done|apply IH].
Qed.

(** ** Semantic preservation *)

Section Preservation.
  Context {V M : Type} `{TargetSemantics V M}.
  Implicit Types (ls : Loc -> V) (m : M) (code : list Instruction).

  (** A jump to the start of a chain ends up after its last label. *)
Lemma jump_chain code l l' (s : linear_state (V := V) (M := M)) ls m :
    unique_labels code ->
    rtc (jumps (buildJumpTargetMap code)) l l' ->
    linear_step code s = linear_jump code l ls m ->
    match find_label l' code with
    | Some pc => tc (steps_to (linear_step code)) s (pc, ls, m)
    | None => forall r, ~ terminates (linear_step code) s r
    end.
Proof.
    intros Hu Hch. revert s. induction Hch as [l|l k l' Hlk _ IH]; intros s Hs.
    - unfold linear_jump in Hs. destruct (find_label l code) as [pc|].
      + by apply tc_once.
      + intros r. by apply terminates_stuck.
    - destruct (jump_target_found code l k Hu Hlk) as [rest Hf].
      unfold linear_jump in Hs. rewrite Hf in Hs.
      specialize (IH (Lgoto k :: rest, ls, m) eq_refl).
      destruct (find_label l' code) as [pc|].
      + eapply tc_l; [exact Hs|exact IH].
      + intros r Hr. apply (IH r). by apply (terminates_step _ _ _ _ Hs).
Qed.

  (** The tunneled code is at the same instruction, tunneled. *)
Definition match_tunnel (resolved : gmap Z Z) (s t : linear_state (V := V) (M := M)) : Prop :=
    s = (tunnelInstruction resolved <$> t.1.1, t.1.2, t.2).

Lemma tunnel_jump code ls m l s :
    unique_labels code ->
    let resolved := resolveChains (buildJumpTargetMap code) in
    linear_step code s = linear_jump code l ls m ->
    match linear_jump (tunnelInstruction resolved <$> code) (tunnel_label resolved l) ls m with
    | Next s' => exists t', match_tunnel resolved s' t' /\ tc (steps_to (linear_step code)) s t'
    | Halt r => terminates (linear_step code) s r
    | Stuck => forall r, ~ terminates (linear_step code) s r
    end.
Proof.
    intros Hu resolved Hs.
    pose proof (jump_chain code l _ s ls m Hu (tunnel_label_chain _ l) Hs) as Hj.
    fold resolved in Hj. unfold linear_jump. rewrite find_label_tunnel.
    destruct (find_label (tunnel_label resolved l) code) as [pc|]; cbn; [|done].
    exists (pc, ls, m). by split.
Qed.

  (** One step of the tunneled code, against the original. *)
Lemma tunnel_sim code s t :
    unique_labels code ->
    let resolved := resolveChains (buildJumpTargetMap code) in
    match_tunnel resolved s t ->
    match linear_step (tunnelInstruction resolved <$> code) s with
    | Next s' => exists t', match_tunnel resolved s' t' /\ tc (steps_to (linear_step code)) t t'
    | Halt r => terminates (linear_step code) t r
    | Stuck => forall r, ~ terminates (linear_step code) t r
    end.
Proof.
    intros Hu resolved ->. destruct t as [[pc ls] m]. cbn [fst snd].
    destruct pc as [|i rest].
    { cbn. intros r. by apply terminates_stuck. }
    assert (Hexec : forall (o : option ((Loc -> V) * M)),
      linear_step code (i :: rest, ls, m) =
        match o with Some (ls', m') => Next (rest, ls', m') | None => Stuck end ->
      match match o with
            | Some (ls', m') => Next (tunnelInstruction resolved <$> rest, ls', m')
            | None => Stuck end with
      | Next s' => exists t', match_tunnel resolved s' t' /\
          tc (steps_to (linear_step code)) (i :: rest, ls, m) t'
      | Halt r => terminates (linear_step code) (i :: rest, ls, m) r
      | Stuck => forall r, ~ terminates (linear_step code) (i :: rest, ls, m) r
      end).
    { intros [[ls' m']|] Ho.
      - exists (rest, ls', m'). split; [done|by apply tc_once].
      - intros r. by apply terminates_stuck. }
    destruct i as [| | | | | | | | |l|c args l|arg targets|]; try (match goal with
      |- context [(?i :: rest, ls, m)] => exact (Hexec (linear_exec i ls m) eq_refl) end).
    - by apply terminates_halt.
    - by apply (tunnel_jump code ls m l (Lgoto l :: rest, ls, m) Hu).
    - cbn. destruct (eval_cond c (ls <$> args) m) as [[]|] eqn:Ec.
      + apply tunnel_jump; [done|]. cbn. by rewrite Ec.
      + exists (rest, ls, m). split; [done|]. apply tc_once. unfold steps_to. cbn. by rewrite Ec.
      + intros r. apply terminates_stuck. cbn. by rewrite Ec.
    - cbn. destruct (eval_index (ls arg)) as [k|] eqn:Ek; cbn.
      2:{ intros r. apply terminates_stuck. cbn. by rewrite Ek. }
      rewrite list_lookup_fmap. destruct (targets !! k) as [l|] eqn:Et; cbn.
      + apply tunnel_jump; [done|]. cbn. rewrite Ek. cbn. by rewrite Et.
      + intros r. apply terminates_stuck. cbn. rewrite Ek. cbn. by rewrite Et.
    - by apply terminates_halt.
Qed.

  (** Tunneling preserves what the code computes from any point of it. *)
Lemma tunnel_code_equiv code ls m r :
    unique_labels code ->
    terminates (linear_step (tunnel_code code)) (tunnel_code code, ls, m) r <->
    terminates (linear_step code) (code, ls, m) r.
Proof.
    intros Hu. destruct code as [|i0 c0]; [done|].
    set (code := i0 :: c0) in *. unfold tunnel_code. fold code.
    apply (sim_equiv (linear_step (tunnelInstruction _ <$> code)) (linear_step code)
             (match_tunnel (resolveChains (buildJumpTargetMap code))) (fun _ => O)).
    - intros s t s' Hm Hs. pose proof (tunnel_sim code s t Hu Hm) as Hsim.
      rewrite Hs in Hsim. destruct Hsim as (t' & Hm' & Htc). eauto.
    - intros s t r' Hm Hs. pose proof (tunnel_sim code s t Hu Hm) as Hsim. by rewrite Hs in Hsim.
    - intros s t r' Hm Hs. pose proof (tunnel_sim code s t Hu Hm) as Hsim. rewrite Hs in Hsim.
      by apply Hsim.
    - done.
Qed.
End Preservation.

Lemma tunnel_code_labels code : code_labels (tunnel_code code) = code_labels code.
Proof. destruct code; [done|]. apply tunnel_labels. Qed.
