(* ===== verification/Cleanup.v ===== *)
(** Label cleanup ([src/pkg/linearize/cleanup.go]): labels no branch refers to
    are removed, except the first one. *)

From S2P Require Import Prelude Target Linear Semantics Tunneling.

(** [collectUsedLabels] *)
Definition collectUsedLabels (code : list Instruction) : gset Z :=
  foldl (fun used inst =>
    match inst with
    | Lgoto l => {[l]} ∪ used
    | Lcond _ _ l => {[l]} ∪ used
    | Ljumptable _ targets => foldl (fun used target => {[target]} ∪ used) used targets
    | _ => used
    end) ∅ code.

(** The first label in the code; [var entryLabel linear.Label] is 0 when
    there is none. *)
Definition entryLabel (code : list Instruction) : Z :=
  default 0 (head (code_labels code)).

Definition keep_inst (used : gset Z) (inst : Instruction) : bool :=
  match inst with
  | Llabel l => bool_decide (l ∈ used)
  | _ => true
  end.

Definition cleanup_code (code : list Instruction) : list Instruction :=
  match code with
  | [] => []
  | _ => filter (keep_inst ({[entryLabel code]} ∪ collectUsedLabels code)) code
  end.

(** [CleanupLabels] *)
Definition CleanupLabels (fn : Function) : Function := with_code fn (cleanup_code (fn_Code fn)).

(** ** Used labels *)

Lemma collect_targets (ts : list Z) (used : gset Z) :
  foldl (fun used target => {[target]} ∪ used) used ts = list_to_set ts ∪ used.
Proof.
  revert used. induction ts as [|t ts IH]; intros used; cbn [foldl]; [set_solver|].
  rewrite IH. set_solver.
Qed.

Lemma collectUsedLabels_spec code l : l ∈ collectUsedLabels code <-> l ∈ code_targets code.
Proof.
  unfold collectUsedLabels.
  assert (Hgen : forall used : gset Z, l ∈ foldl (fun used inst =>
    match inst with
    | Lgoto l => {[l]} ∪ used
    | Lcond _ _ l => {[l]} ∪ used
    | Ljumptable _ targets => foldl (fun used target => {[target]} ∪ used) used targets
    | _ => used
    end) used code <-> l ∈ used \/ l ∈ code_targets code).
  { induction code as [|i code IH]; intros used; cbn [foldl].
    - unfold code_targets. cbn. set_solver.
    - rewrite IH. unfold code_targets. rewrite bind_cons, elem_of_app.
      destruct i; cbn [inst_targets]; rewrite ?collect_targets; set_solver. }
  rewrite Hgen. set_solver.
Qed.

Lemma keep_used code l :
  l ∈ code_targets code ->
  keep_inst ({[entryLabel code]} ∪ collectUsedLabels code) (Llabel l) = true.
Proof.
  intros Hl. cbn. apply bool_decide_eq_true_2, elem_of_union_r. by apply collectUsedLabels_spec.
Qed.

Lemma find_label_filter used l code :
  keep_inst used (Llabel l) = true ->
  find_label l (filter (keep_inst used) code) =
    filter (keep_inst used) <$> find_label l code.
Proof.
  intros Hk. induction code as [|i code IH]; [done|].
  rewrite filter_cons. destruct i; try (rewrite decide_True by done; apply IH).
  cbn [find_label]. destruct (decide (l = Lbl)) as [<-|Hd].
  - rewrite decide_True by (by rewrite Hk). cbn [find_label]. by rewrite decide_True.
  - case_decide; [|done]. cbn [find_label]. by rewrite decide_False.
Qed.

Lemma find_label_suffix l code rest : find_label l code = Some rest -> suffix rest code.
Proof.
  induction code as [|i code IH]; [done|].
  destruct i; cbn; try (intros Hf; by apply suffix_cons_r, IH).
  case_decide; [intros [= ->]; by apply suffix_cons_r|]. intros Hf. by apply suffix_cons_r, IH.
Qed.

Lemma suffix_targets (c code : list Instruction) i rest l :
  suffix (i :: rest) code -> l ∈ inst_targets i -> l ∈ code_targets code.
Proof.
  intros [pre ->] Hl. apply elem_of_code_targets. exists i. split; [set_solver|done].
Qed.

Lemma suffix_tail {A} (x : A) l k : suffix (x :: l) k -> suffix l k.
Proof. intros [p ->]. exists (p ++ [x]). by rewrite <- app_assoc. Qed.

(** ** Semantic preservation *)

Section Preservation.
  Context {V M : Type} `{TargetSemantics V M}.
  Implicit Types (ls : Loc -> V) (m : M) (code : list Instruction).

  (** The cleaned code is at the same instruction, removed labels skipped. *)
Definition match_cleanup (code : list Instruction) (keep : Instruction -> bool)
      (s t : linear_state (V := V) (M := M)) : Prop :=
    suffix s.1.1 code /\ t = (filter keep s.1.1, s.1.2, s.2).

Lemma cleanup_jump code used ls m l :
    keep_inst used (Llabel l) = true ->
    match linear_jump code l ls m with
    | Next s' => exists t', match_cleanup code (keep_inst used) s' t' /\
                   linear_jump (filter (keep_inst used) code) l ls m = Next t'
    | Halt _ => False
    | Stuck => linear_jump (filter (keep_inst used) code) l ls m = Stuck
    end.
Proof.
    intros Hk. unfold linear_jump. rewrite find_label_filter by done.
    destruct (find_label l code) as [rest|] eqn:E; cbn; [|done].
    eexists. split; [|done]. split; [|done]. by apply find_label_suffix in E.
Qed.

  (** A step of the original code is the same step of the cleaned code, or
      skips a removed label. *)
Lemma cleanup_sim code used s t :
    (forall l, l ∈ code_targets code -> keep_inst used (Llabel l) = true) ->
    match_cleanup code (keep_inst used) s t ->
    match linear_step code s with
    | Next s' => exists t', match_cleanup code (keep_inst used) s' t' /\
        (linear_step (filter (keep_inst used) code) t = Next t' \/
         t' = t /\ (length s'.1.1 < length s.1.1)%nat)
    | Halt r => linear_step (filter (keep_inst used) code) t = Halt r
    | Stuck => linear_step (filter (keep_inst used) code) t = Stuck
    end.
Proof.
    intros Hused. destruct s as [[pc ls] m]. intros [Hsuf ->]. cbn [fst snd] in *.
    destruct pc as [|i rest]; [done|].
    pose proof (suffix_tail _ _ _ Hsuf) as Hsuf'.
    assert (Htgt : forall l, l ∈ inst_targets i -> keep_inst used (Llabel l) = true)
      by (intros l Hl; eapply Hused, (suffix_targets []); done).
    assert (Hjump : forall l, l ∈ inst_targets i ->
      match linear_jump code l ls m with
      | Next s' => exists t', match_cleanup code (keep_inst used) s' t' /\
          (linear_jump (filter (keep_inst used) code) l ls m = Next t' \/
           t' = (filter (keep_inst used) (i :: rest), ls, m) /\
           (length s'.1.1 < Datatypes.S (length rest))%nat)
      | Halt r => linear_jump (filter (keep_inst used) code) l ls m = Halt r
      | Stuck => linear_jump (filter (keep_inst used) code) l ls m = Stuck
      end).
    { intros l Hl. pose proof (cleanup_jump code used ls m l (Htgt l Hl)) as Hj.
      destruct (linear_jump code l ls m); [|done..].
      destruct Hj as (t' & Hm & Ht). eauto. }
    destruct (decide (keep_inst used i)) as [Hk|Hk].
    2:{ rewrite filter_cons, decide_False by done. destruct i; try (by destruct Hk).
        eexists. split; [split; [exact Hsuf'|done]|]. right. cbn. split; [done|lia]. }
    rewrite filter_cons, decide_True by done.
    assert (Hexec : forall o : option ((Loc -> V) * M),
      match match o with Some (ls', m') => Next (rest, ls', m') | None => Stuck end
            : outcome (linear_state (V := V) (M := M)) (result V M) with
      | Next s' => exists t', match_cleanup code (keep_inst used) s' t' /\
          (match o with Some (ls', m') => Next (filter (keep_inst used) rest, ls', m')
                      | None => Stuck end
             = Next (R := result V M) t' \/
           t' = (i :: filter (keep_inst used) rest, ls, m) /\
           (length s'.1.1 < Datatypes.S (length rest))%nat)
      | Halt r => match o with Some (ls', m') => Next (filter (keep_inst used) rest, ls', m')
                             | None => Stuck end = Halt r
      | Stuck => match o with Some (ls', m') => Next (filter (keep_inst used) rest, ls', m')
                            | None => Stuck end = Stuck (R := result V M)
      end).
    { intros [[ls' m']|]; [|done]. eexists. split; [split; [exact Hsuf'|done]|]. by left. }
    rewrite filter_cons, decide_True in Hjump by done.
    destruct i as [| | | | | | | | |l|c args l|arg targets|]; try done;
      try (match goal with |- context [(?i :: rest, ls, m)] => apply (Hexec (linear_exec i ls m)) end).
    - apply (Hjump l). set_solver.
    - cbn. destruct (eval_cond c (ls <$> args) m) as [[]|]; [| |done].
      + apply (Hjump l). set_solver.
      + eexists. split; [split; [exact Hsuf'|done]|]. by left.
    - cbn. destruct (eval_index (ls arg)) as [k|]; [|done]. cbn.
      destruct (targets !! k) as [l|] eqn:E; [|done].
      apply (Hjump l). by eapply list_elem_of_lookup_2.
Qed.

  (** Label cleanup preserves what the code computes. *)
Lemma cleanup_code_equiv code ls m r :
    terminates (linear_step code) (code, ls, m) r <->
    terminates (linear_step (cleanup_code code)) (cleanup_code code, ls, m) r.
Proof.
    destruct code as [|i0 c0]; [done|].
    set (code := i0 :: c0) in *. unfold cleanup_code. fold code.
    set (used := {[entryLabel code]} ∪ collectUsedLabels code).
    assert (Hused : forall l, l ∈ code_targets code -> keep_inst used (Llabel l) = true)
      by (intros l; apply keep_used).
    apply (sim_equiv (linear_step code) (linear_step (filter (keep_inst used) code))
             (match_cleanup code (keep_inst used)) (fun s => length s.1.1)).
    - intros s t s' Hm Hs. pose proof (cleanup_sim code used s t Hused Hm) as Hsim.
      rewrite Hs in Hsim. destruct Hsim as (t' & Hm' & [Ht|[-> Hlt]]); [|by eauto].
      exists t'. split; [done|]. left. by apply tc_once.
    - intros s t r' Hm Hs. pose proof (cleanup_sim code used s t Hused Hm) as Hsim.
      rewrite Hs in Hsim. by apply terminates_halt.
    - intros s t r' Hm Hs. pose proof (cleanup_sim code used s t Hused Hm) as Hsim.
      rewrite Hs in Hsim. by apply terminates_stuck.
    - by split.
Qed.
End Preservation.

(** ** What is removed *)

Lemma cleanup_code_subseq code : sublist (cleanup_code code) code.
Proof. destruct code; [done|]. apply sublist_filter. Qed.

Lemma cleanup_code_labels code l :
  Llabel l ∈ cleanup_code code <->
  Llabel l ∈ code /\ (l = entryLabel code \/ l ∈ code_targets code).
Proof.
  destruct code as [|i c]; [set_solver|]. unfold cleanup_code.
  rewrite list_elem_of_filter. cbn [keep_inst].
  rewrite bool_decide_spec, elem_of_union, elem_of_singleton, collectUsedLabels_spec. tauto.
Qed.

Lemma cleanup_code_targets code : code_targets (cleanup_code code) = code_targets code.
Proof.
  destruct code as [|i c]; [done|]. unfold cleanup_code, code_targets.
  generalize ({[entryLabel (i :: c)]} ∪ collectUsedLabels (i :: c)) as used. intros used.
  generalize (i :: c) as code. clear i c. induction code as [|i code IH]; [done|].
  rewrite filter_cons, bind_cons, <- IH. case_decide as Hk; [done|]. by destruct i.
Qed.

Lemma sublist_elem {A} (x : A) l k : x ∈ l -> sublist l k -> x ∈ k.
Proof. intros Hx Hs. induction Hs; set_solver. Qed.

Lemma cleanup_code_other code i :
  inst_label i = None -> i ∈ code -> i ∈ cleanup_code code.
Proof.
  intros Hl Hi. destruct code as [|j c]; [done|]. unfold cleanup_code.
  apply list_elem_of_filter. split; [by destruct i|done].
Qed.
