(* ===== verification/StackInfo.v ===== *)
(** The stack slots a Linear function uses ([src/pkg/linearize/stack.go]; the
    same scan is repeated in [src/pkg/stacking/layout.go]) and the frame size
    computed from them. Offsets and sizes are Go [int64]s: every addition
    wraps around. *)

From S2P Require Import Prelude Target Linear.

Definition stackAlignment : Z := 16.

Record StackInfo := mkStackInfo {
  LocalSize : Z;
  IncomingSize : Z;
  OutgoingSize : Z
}.

(** [slotSize] *)
Definition slotSize (ty : Typ) : Z :=
  match ty with
  | Tint | Tsingle | Tany32 => 4
  | Tfloat | Tlong | Tany64 => 8
  end.

(** [if end := ofs + size; end > max { max = end }] for the maximum of the
    slot's kind. *)
Definition upd_slot (slot : SlotKind) (ofs : Z) (ty : Typ) (info : StackInfo) : StackInfo :=
  let end_ := i64 (ofs + slotSize ty) in
  let '(mkStackInfo l i o) := info in
  match slot with
  | SlotLocal => mkStackInfo (if l <? end_ then end_ else l) i o
  | SlotIncoming => mkStackInfo l (if i <? end_ then end_ else i) o
  | SlotOutgoing => mkStackInfo l i (if o <? end_ then end_ else o)
  end.

(** [checkSlotLoc] *)
Definition checkSlotLoc (info : StackInfo) (loc : Loc) : StackInfo :=
  match loc with
  | Target.S slot ofs ty => upd_slot slot ofs ty info
  | _ => info
  end.

(** One instruction of the scan of [CollectStackInfo]. *)
Definition collect_inst (info : StackInfo) (inst : Instruction) : StackInfo :=
  match inst with
  | Lgetstack slot ofs ty _ => upd_slot slot ofs ty info
  | Lsetstack _ slot ofs ty => upd_slot slot ofs ty info
  | Lop _ args dest => checkSlotLoc (foldl checkSlotLoc info args) dest
  | Lload _ _ args dest => checkSlotLoc (foldl checkSlotLoc info args) dest
  | Lstore _ _ args src => checkSlotLoc (foldl checkSlotLoc info args) src
  | _ => info
  end.

(** [CollectStackInfo] *)
Definition CollectStackInfo (fn : Function) : StackInfo :=
  foldl collect_inst (mkStackInfo 0 0 0) (fn_Code fn).

(** [TotalSize] *)
Definition TotalSize (s : StackInfo) : Z :=
  let total := i64 (LocalSize s + OutgoingSize s) in
  if Z.rem total stackAlignment =? 0 then total
  else i64 (i64 (Z.quot total stackAlignment + 1) * stackAlignment).

(** [ComputeStackSize] *)
Definition ComputeStackSize (fn : Function) : Function :=
  with_stacksize fn (TotalSize (CollectStackInfo fn)).

(** ** Specification *)

(** The slots the scan looks at. The locations of conditions, jump tables and
    builtins are not among them. *)
Definition loc_slots (l : Loc) : list (SlotKind * Z * Typ) :=
  match l with Target.S k o t => [(k, o, t)] | _ => [] end.

Definition inst_slots (inst : Instruction) : list (SlotKind * Z * Typ) :=
  match inst with
  | Lgetstack k o t _ => [(k, o, t)]
  | Lsetstack _ k o t => [(k, o, t)]
  | Lop _ args dest => (args ≫= loc_slots) ++ loc_slots dest
  | Lload _ _ args dest => (args ≫= loc_slots) ++ loc_slots dest
  | Lstore _ _ args src => (args ≫= loc_slots) ++ loc_slots src
  | _ => []
  end.

Definition code_slots (code : list Instruction) : list (SlotKind * Z * Typ) := code ≫= inst_slots.

Definition size_of (k : SlotKind) (info : StackInfo) : Z :=
  match k with
  | SlotLocal => LocalSize info
  | SlotIncoming => IncomingSize info
  | SlotOutgoing => OutgoingSize info
  end.

Definition slot_end (s : SlotKind * Z * Typ) : Z := i64 (s.1.2 + slotSize s.2).

Definition upd (info : StackInfo) (s : SlotKind * Z * Typ) : StackInfo :=
  upd_slot s.1.1 s.1.2 s.2 info.

(** ** Facts *)

Lemma slotSize_pos ty : 4 <= slotSize ty <= 8.
Proof. destruct ty; cbn; lia. Qed.

Lemma checkSlotLoc_fold info loc : checkSlotLoc info loc = foldl upd info (loc_slots loc).
Proof. by destruct loc. Qed.

Lemma checkSlotLocs_fold info locs :
  foldl checkSlotLoc info locs = foldl upd info (locs ≫= loc_slots).
Proof.
  revert info. induction locs as [|l locs IH]; intros info; [done|].
  cbn [foldl]. by rewrite bind_cons, foldl_app, <- checkSlotLoc_fold.
Qed.

Lemma collect_inst_fold info inst : collect_inst info inst = foldl upd info (inst_slots inst).
Proof.
  destruct inst; try done; cbn [collect_inst inst_slots];
    by rewrite foldl_app, checkSlotLoc_fold, checkSlotLocs_fold.
Qed.

(** The scan is a fold over the slots of the code. *)
Lemma CollectStackInfo_fold fn :
  CollectStackInfo fn = foldl upd (mkStackInfo 0 0 0) (code_slots (fn_Code fn)).
Proof.
  unfold CollectStackInfo, code_slots. generalize (mkStackInfo 0 0 0) as info.
  induction (fn_Code fn) as [|i c IH]; intros info; [done|].
  cbn [foldl]. by rewrite bind_cons, foldl_app, <- collect_inst_fold.
Qed.

Lemma size_of_upd k info s :
  size_of k (upd info s) =
    if decide (s.1.1 = k) then Z.max (size_of k info) (slot_end s) else size_of k info.
Proof.
  destruct s as [[k' o] t], info as [l i u]. unfold upd, upd_slot, slot_end. cbn.
  destruct k', k; cbn; rewrite ?decide_True, ?decide_False by done; try done;
    destruct (Z.ltb_spec l (i64 (o + slotSize t))), (Z.ltb_spec i (i64 (o + slotSize t))),
      (Z.ltb_spec u (i64 (o + slotSize t))); lia.
Qed.

(** The size of a kind of slots is the largest end of such a slot, or 0. *)
Lemma foldl_upd_bound info slots k :
  size_of k info <= size_of k (foldl upd info slots) /\
  (forall s, s ∈ slots -> s.1.1 = k -> slot_end s <= size_of k (foldl upd info slots)) /\
  (size_of k (foldl upd info slots) = size_of k info \/
   exists s, s ∈ slots /\ s.1.1 = k /\ slot_end s = size_of k (foldl upd info slots)).
Proof.
  revert info. induction slots as [|s slots IH]; intros info; cbn [foldl].
  { split; [lia|]. split; [set_solver|by left]. }
  destruct (IH (upd info s)) as (H1 & H2 & H3). rewrite size_of_upd in H1, H3.
  split; [|split].
  - case_decide; lia.
  - intros s' [->|Hs']%elem_of_cons Hk; [|by apply H2]. rewrite decide_True in H1 by done. lia.
  - destruct H3 as [H3|(s' & Hs' & Hk & He)].
    + case_decide as Hk; [|by left].
      destruct (Z.max_spec (size_of k info) (slot_end s)) as [[_ E]|[_ E]]; rewrite E in H3; [right|by left].
      exists s. split; [by left|]. split; [done|]. by rewrite H3.
    + right. exists s'. split; [by right|done].
Qed.

Lemma CollectStackInfo_bound fn k :
  0 <= size_of k (CollectStackInfo fn) /\
  (forall s, s ∈ code_slots (fn_Code fn) -> s.1.1 = k -> slot_end s <= size_of k (CollectStackInfo fn)) /\
  (size_of k (CollectStackInfo fn) = 0 \/
   exists s, s ∈ code_slots (fn_Code fn) /\ s.1.1 = k /\ slot_end s = size_of k (CollectStackInfo fn)).
Proof.
  rewrite CollectStackInfo_fold.
  pose proof (foldl_upd_bound (mkStackInfo 0 0 0) (code_slots (fn_Code fn)) k) as H.
  by replace (size_of k (mkStackInfo 0 0 0)) with 0 in H by (by destruct k).
Qed.

Lemma size_of_i64 fn k : in_i64 (size_of k (CollectStackInfo fn)).
Proof.
  destruct (CollectStackInfo_bound fn k) as (_ & _ & [->|(s & _ & _ & <-)]).
  - unfold in_i64. lia.
  - apply i64_range.
Qed.

(** Rounding up to a multiple of 16. *)
Lemma TotalSize_spec info :
  0 <= LocalSize info -> 0 <= OutgoingSize info ->
  LocalSize info + OutgoingSize info + 16 < 2 ^ 63 ->
  TotalSize info mod 16 = 0 /\
  LocalSize info + OutgoingSize info <= TotalSize info < LocalSize info + OutgoingSize info + 16.
Proof.
  intros Hl Ho Hlt. unfold TotalSize, stackAlignment.
  assert (Ht : 0 <= LocalSize info + OutgoingSize info) by lia. clear Hl Ho.
  revert Ht Hlt. generalize (LocalSize info + OutgoingSize info) as t. intros t Ht Hlt.
  rewrite (i64_id t) by (unfold in_i64; lia).
  rewrite Z.quot_div_nonneg, Z.rem_mod_nonneg by lia.
  pose proof (Z.div_mod t 16 ltac:(lia)) as Hdm. pose proof (Z.mod_pos_bound t 16 ltac:(lia)).
  destruct (Z.eqb_spec (t mod 16) 0) as [E|E]; [lia|].
  rewrite (i64_id (t / 16 + 1)) by (unfold in_i64; lia).
  rewrite i64_id by (unfold in_i64; lia).
  split; [by apply Z.mod_mul|lia].
Qed.
