(* ===== verification/ConvertCall.v ===== *)
(** Call conversion ([convertCall] in [src/pkg/linearize/linearize.go]): an LTL
    call, whose arguments are wherever register allocation left them, becomes
    the stores and moves that place them where the AArch64 calling convention
    wants them, and the call itself. *)

From S2P Require Import Prelude Target.
From S2P Require Import Ltl Linear ParMove Semantics.

(** ** Calls *)

(** [knownVariadicFuncs] *)
Definition knownVariadicFuncs : gmap string nat :=
  list_to_map [
    ("printf", 1%nat); ("fprintf", 2%nat); ("sprintf", 2%nat); ("snprintf", 3%nat); ("dprintf", 2%nat);
    ("scanf", 1%nat); ("fscanf", 2%nat); ("sscanf", 2%nat);
    ("execl", 1%nat); ("execlp", 1%nat); ("execle", 1%nat); ("fcntl", 2%nat); ("ioctl", 2%nat);
    ("open", 2%nat); ("openat", 3%nat); ("semctl", 3%nat); ("syslog", 2%nat)].

Definition intArgRegs : list MReg := X <$> [0; 1; 2; 3; 4; 5; 6; 7].

Definition tempReg : MReg := X8.

(** [isVariadicCall] *)
Definition isVariadicCall (fn : Ltl.FunRef) : bool * nat :=
  match fn with
  | Ltl.FunSymbol name =>
      match knownVariadicFuncs !! name with
      | Some fixedArgs => (true, fixedArgs)
      | None => (false, 0%nat)
      end
  | _ => (false, 0%nat)
  end.

(** [convertFunRef] *)
Definition convertFunRef (fn : Ltl.FunRef) : Linear.FunRef :=
  match fn with
  | Ltl.FunReg l => Linear.FunReg l
  | Ltl.FunSymbol s => Linear.FunSymbol s
  end.

(** [if regLoc, ok := argLoc.(ltl.R)] *)
Definition loc_reg (l : Loc) : option MReg :=
  match l with Target.R r => Some r | _ => None end.

Definition move_inst (mv : Loc * MReg) : Linear.Instruction :=
  Linear.Lop Omove [mv.1] (Target.R mv.2).

(** The map [moves] from target registers to argument locations. *)
Definition call_moves (maxRegArgs : nat) (args : list Loc) : gmap Z Loc :=
  foldl (fun moves ta =>
      if decide (loc_reg ta.2 = Some ta.1) then moves else <[ta.1 := ta.2]> moves)
    ∅ (zip (take maxRegArgs intArgRegs) args).

(** The stores of the arguments passed on the stack: [idx] counts them. *)
Fixpoint overflow_stores (idx : Z) (args : list Loc) : list Linear.Instruction :=
  match args with
  | [] => []
  | argLoc :: args =>
      match loc_reg argLoc with
      | Some r => [Linear.Lsetstack r SlotOutgoing (i64 (idx * 8)) Tlong]
      | None => [Linear.Lop Omove [argLoc] (Target.R tempReg);
                 Linear.Lsetstack tempReg SlotOutgoing (i64 (idx * 8)) Tlong]
      end ++ overflow_stores (idx + 1) args
  end.

Section Convert.
  (** [runtime.GOOS == "darwin"], a constant of the running compiler. *)
  Context (darwin : bool).

  (** How many arguments are passed in registers, [maxRegArgs]; it is also
      where the arguments passed on the stack start. *)
Definition maxRegArgs (fn : Ltl.FunRef) : nat :=
    let '(isVariadic, fixedArgs) := isVariadicCall fn in
    if isVariadic && darwin && (fixedArgs <? length intArgRegs)%nat
    then fixedArgs else length intArgRegs.

Definition overflowStart (fn : Ltl.FunRef) : nat :=
    let '(isVariadic, fixedArgs) := isVariadicCall fn in
    if isVariadic && darwin then fixedArgs else maxRegArgs fn.

  (** The register moves of a call; they exist by [resolve_terminates]. *)
Definition call_reg_moves `{RangeOrder} (fn : Ltl.FunRef) (args : list Loc) : list (Loc * MReg) :=
    let moves := call_moves (maxRegArgs fn) args in
    default [] (resolve loc_reg Target.R tempReg (resolve_fuel moves) 0 moves ∅ []).

  (** [convertCall] *)
Definition convertCall `{RangeOrder} (sig : Sig) (fn : Ltl.FunRef) (args : list Loc)
      : list Linear.Instruction :=
    overflow_stores 0 (drop (overflowStart fn) args) ++
    (move_inst <$> call_reg_moves fn args) ++
    [Linear.Lcall sig (convertFunRef fn)].
End Convert.

(** ** Lookups *)

Lemma call_loc_inj regs i j : call_loc regs i = call_loc regs j -> i = j.
Proof.
  unfold call_loc, X. destruct (Nat.ltb_spec i regs), (Nat.ltb_spec j regs); intros [=]; lia.
Qed.

Lemma call_locs_lookup regs n i l :
  call_locs regs n !! i = Some l <-> (i < n)%nat /\ l = call_loc regs i.
Proof.
  unfold call_locs. rewrite list_lookup_fmap_Some. setoid_rewrite lookup_seq. naive_solver.
Qed.

Lemma call_locs_NoDup regs n : NoDup (call_locs regs n).
Proof. apply NoDup_fmap_2; [intros i j; apply call_loc_inj|apply NoDup_seq]. Qed.

(** Sequential assignment to distinct locations. *)
Lemma foldl_assign_other {V} (dvs : list (Loc * V)) (ls : Loc -> V) l :
  l ∉ dvs.*1 -> foldl (fun acc dv => <[dv.1 := dv.2]> acc) ls dvs l = ls l.
Proof.
  revert ls. induction dvs as [|[d v] dvs IH]; intros ls Hl; [done|]. cbn in *.
  rewrite IH by set_solver. apply fn_lookup_insert_ne. set_solver.
Qed.

Lemma foldl_assign {V} (dvs : list (Loc * V)) (ls : Loc -> V) l v :
  NoDup dvs.*1 -> (l, v) ∈ dvs -> foldl (fun acc dv => <[dv.1 := dv.2]> acc) ls dvs l = v.
Proof.
  revert ls. induction dvs as [|[d w] dvs IH]; intros ls Hnd Hin; [by apply not_elem_of_nil in Hin|].
  cbn in *. apply NoDup_cons in Hnd as [Hd Hnd]. apply elem_of_cons in Hin as [[= -> ->]|Hin].
  - rewrite foldl_assign_other by done. apply fn_lookup_insert.
  - by apply IH.
Qed.

Lemma zip_fst_length {A B} (l : list A) (k : list B) :
  length l = length k -> (zip l k).*1 = l.
Proof. intros Hl. apply fst_zip. lia. Qed.

Lemma place_args_at {V} regs args (ls : Loc -> V) i a :
  args !! i = Some a -> place_args regs args ls (call_loc regs i) = ls a.
Proof.
  intros Ha. unfold place_args. assert (Hlen : length (call_locs regs (length args)) = length (ls <$> args)).
  { unfold call_locs. by rewrite !length_fmap, length_seq. }
  apply foldl_assign.
  - rewrite zip_fst_length by done. apply call_locs_NoDup.
  - apply list_elem_of_lookup. exists i. apply lookup_zip_Some. split.
    + apply call_locs_lookup. split; [by eapply lookup_lt_Some|done].
    + by rewrite list_lookup_fmap, Ha.
Qed.

Lemma place_args_other {V} regs args (ls : Loc -> V) l :
  l ∉ call_locs regs (length args) -> place_args regs args ls l = ls l.
Proof.
  intros Hl. unfold place_args. apply foldl_assign_other.
  rewrite zip_fst_length; [done|]. unfold call_locs. by rewrite !length_fmap, length_seq.
Qed.

(** The map of register moves. *)
Lemma call_moves_fold (tas : list (Z * Loc)) (moves : gmap Z Loc) t s :
  NoDup tas.*1 ->
  (forall t, t ∈ tas.*1 -> moves !! t = None) ->
  foldl (fun moves ta =>
      if decide (loc_reg ta.2 = Some ta.1) then moves else <[ta.1 := ta.2]> moves) moves tas !! t = Some s
  <-> moves !! t = Some s \/ ((t, s) ∈ tas /\ loc_reg s <> Some t).
Proof.
  revert moves. induction tas as [|[t0 s0] tas IH]; intros moves Hnd Hnone; cbn [foldl].
  { set_solver. }
  cbn in Hnd, Hnone. apply NoDup_cons in Hnd as [Ht0 Hnd]. cbn [fst snd].
  assert (Hn0 : moves !! t0 = None) by (apply Hnone; left).
  case_decide as Hd; rewrite IH; try done.
  - split; [intros [?|[? ?]]; [by left|right; split; [by right|done]]|].
    intros [?|[[[= -> ->]|?]%elem_of_cons ?]]; [by left|done|by right].
  - intros t' Ht'. apply Hnone. by right.
  - rewrite lookup_insert_Some. split.
    + intros [[[<- <-]|[_ ?]]|[? ?]]; [right|by left|right].
      * split; [by left|done].
      * split; [by right|done].
    + intros [?|[[[= -> ->]|?]%elem_of_cons ?]].
      * left. right. split; [|done]. intros <-. congruence.
      * left. by left.
      * by right.
  - intros t' Ht'. rewrite lookup_insert_ne by (intros ->; done). apply Hnone. by right.
Qed.

Lemma intArgRegs_lookup i r :
  intArgRegs !! i = Some r <-> (i < 8)%nat /\ r = X (Z.of_nat i).
Proof.
  unfold intArgRegs, X. do 8 (destruct i as [|i]; [cbn; split; [intros [= <-]; lia|intros [_ ->]; done]|]).
  cbn. split; [done|lia].
Qed.

Lemma call_moves_lookup k args t s :
  (k <= 8)%nat ->
  call_moves k args !! t = Some s <->
  exists i, (i < k)%nat /\ t = X (Z.of_nat i) /\ args !! i = Some s /\ s <> Target.R t.
Proof.
  intros Hk. unfold call_moves. rewrite call_moves_fold.
  - rewrite lookup_empty. split.
    + intros [?|[Hin Hs]]; [done|]. apply list_elem_of_lookup in Hin as [i Hi].
      apply lookup_zip_Some in Hi as [Hr Ha]. exists i.
      rewrite lookup_take_Some in Hr. destruct Hr as [Hr ?].
      apply intArgRegs_lookup in Hr as [_ ->]. repeat split; try done. by intros ->.
    + intros (i & Hi & -> & Ha & Hs). right. split.
      * apply list_elem_of_lookup. exists i. apply lookup_zip_Some. split; [|done].
        apply lookup_take_Some. split; [|done]. apply intArgRegs_lookup. split; [lia|done].
      * destruct s; cbn; congruence.
  - apply NoDup_alt. intros i j r Hi Hj.
    apply list_lookup_fmap_Some in Hi as ([r1 a1] & -> & Hi).
    apply list_lookup_fmap_Some in Hj as ([r2 a2] & E & Hj). cbn in E. subst r2.
    apply lookup_zip_Some in Hi as [Hi _], Hj as [Hj _]. cbn in *.
    apply lookup_take_Some in Hi as [Hi _], Hj as [Hj _].
    apply intArgRegs_lookup in Hi as [_ ->], Hj as [_ Hj]. unfold X in Hj. lia.
  - intros ? _. apply lookup_empty.
Qed.

Lemma call_moves_regs k args t s :
  (k <= 8)%nat -> call_moves k args !! t = Some s -> 0 <= t < 8.
Proof. intros Hk (i & Hi & -> & _)%call_moves_lookup; [|done]. unfold X. lia. Qed.

Lemma call_moves_temp k args : (k <= 8)%nat -> call_moves k args !! tempReg = None.
Proof.
  intros Hk. destruct (call_moves k args !! tempReg) eqn:E; [|done].
  apply call_moves_regs in E; [|done]. by destruct E as [_ E].
Qed.

(** Every known variadic function has fewer fixed arguments than there are
    argument registers, so stack arguments start after the register ones. *)
Lemma isVariadic_fixed fn : ((isVariadicCall fn).2 < 8)%nat.
Proof.
  assert (Hall : map_Forall (fun _ k => (k < 8)%nat) knownVariadicFuncs)
    by (apply (bool_decide_eq_true_1 _); by vm_compute).
  unfold isVariadicCall. destruct fn as [l|s]; [cbn; lia|].
  destruct (knownVariadicFuncs !! s) as [k|] eqn:E; [exact (Hall s k E)|cbn; lia].
Qed.

Lemma maxRegArgs_le darwin fn : (maxRegArgs darwin fn <= 8)%nat.
Proof.
  unfold maxRegArgs. pose proof (isVariadic_fixed fn).
  destruct (isVariadicCall fn) as [b k]. cbn in *. change (length intArgRegs) with 8%nat.
  case_match; lia.
Qed.

Lemma overflowStart_eq darwin fn : overflowStart darwin fn = maxRegArgs darwin fn.
Proof.
  unfold overflowStart, maxRegArgs. pose proof (isVariadic_fixed fn) as Hk.
  destruct (isVariadicCall fn) as [b k]. change (length intArgRegs) with 8%nat.
  apply Nat.ltb_lt in Hk. cbn [snd] in Hk. rewrite Hk. by destruct b, darwin.
Qed.

Lemma elem_of_drop_in {A} (x : A) n l : x ∈ drop n l -> x ∈ l.
Proof. intros Hx. rewrite <- (take_drop n l). apply elem_of_app. by right. Qed.

(** ** Execution *)

(** Arguments in locations a call may be converted with: none is an outgoing
    slot; X8 holds none when a stack argument must go through it; the callee's
    address is not in a location the arguments are placed in. *)
Record wf_call (regs : nat) (fn : Ltl.FunRef) (args : list Loc) : Prop := {
  wc_outgoing a : a ∈ args -> forall ofs ty, a <> Target.S SlotOutgoing ofs ty;
  wc_temp : Forall (fun a => is_Some (loc_reg a)) (drop regs args) \/ Target.R tempReg ∉ args;
  wc_callee l : fn = Ltl.FunReg l -> l ∉ call_locs regs (length args) /\ l <> Target.R tempReg;
  wc_length : Z.of_nat (length args) * 8 < 2 ^ 63
}.

Section Correct.
  Context {V M : Type} `{TargetSemantics V M}.
  Implicit Types (ls : Loc -> V) (m : M).

Lemma linear_exec_list_app c1 c2 ls m :
    linear_exec_list (c1 ++ c2) ls m =
      ('(ls', m') ← linear_exec_list c1 ls m; linear_exec_list c2 ls' m').
Proof.
    revert ls m. induction c1 as [|i c1 IH]; intros ls m; [done|]. cbn.
    destruct (linear_exec i ls m) as [[ls' m']|]; [apply IH|done].
Qed.

Definition overflow_loc (idx : Z) (i : nat) : Loc :=
    Target.S SlotOutgoing ((idx + Z.of_nat i) * 8) Tlong.

Lemma overflow_stores_exec args idx ls m :
    (forall a, a ∈ args -> forall ofs ty, a <> Target.S SlotOutgoing ofs ty) ->
    Forall (fun a => is_Some (loc_reg a)) args \/ Target.R tempReg ∉ args ->
    0 <= idx -> (idx + Z.of_nat (length args)) * 8 < 2 ^ 63 ->
    exists ls', linear_exec_list (overflow_stores idx args) ls m = Some (ls', m) /\
      (forall i a, args !! i = Some a -> ls' (overflow_loc idx i) = ls a) /\
      (forall l, (forall i, (i < length args)%nat -> l <> overflow_loc idx i) ->
        l <> Target.R tempReg -> ls' l = ls l) /\
      (Forall (fun a => is_Some (loc_reg a)) args -> ls' (Target.R tempReg) = ls (Target.R tempReg)).
Proof.
    revert idx ls. induction args as [|a args IH]; intros idx ls Hout Htmp Hidx Hlen.
    { exists ls. split; [done|]. split; [by intros i a Ha|]. done. }
    cbn [length] in Hlen.
    set (v := ls a).
    set (ls1 := <[Target.S SlotOutgoing (idx * 8) Tlong := v]>
                  (match loc_reg a with Some _ => ls | None => <[Target.R tempReg := v]> ls end)).
    destruct (IH (idx + 1) ls1) as (ls' & Hexec & Hat & Hoth & Hregs).
    { intros b Hb. apply Hout. by right. }
    { destruct Htmp as [Htmp|Htmp]; [left; by apply Forall_cons_1 in Htmp as [_ ?]|right; set_solver]. }
    { lia. }
    { lia. }
    exists ls'. split; [|split; [|split]].
    - cbn [overflow_stores]. rewrite i64_id by (unfold in_i64; lia).
      rewrite linear_exec_list_app.
      assert (linear_exec_list
        match loc_reg a with
        | Some r => [Linear.Lsetstack r SlotOutgoing (idx * 8) Tlong]
        | None => [Linear.Lop Omove [a] (Target.R tempReg);
                   Linear.Lsetstack tempReg SlotOutgoing (idx * 8) Tlong]
        end ls m = Some (ls1, m)) as ->; [|exact Hexec].
      unfold ls1, v. destruct a as [r|s o t|]; cbn; rewrite ?eval_op_move; cbn;
        rewrite ?fn_lookup_insert; done.
    - assert (Hsame : forall l, (forall ofs ty, l <> Target.S SlotOutgoing ofs ty) ->
        l <> Target.R tempReg \/ is_Some (loc_reg a) -> ls1 l = ls l).
      { intros l Hl Hc. unfold ls1. rewrite fn_lookup_insert_ne by (intros E; by apply (Hl _ _ (eq_sym E))).
        destruct (loc_reg a); [done|]. destruct Hc as [Hc|[? ?]]; [|done].
        by rewrite fn_lookup_insert_ne. }
      intros [|i] b Hb; cbn in Hb.
      + injection Hb as <-. unfold overflow_loc. rewrite Z.add_0_r.
        rewrite Hoth; [unfold ls1; by rewrite fn_lookup_insert| |done].
        intros j _ [=]. lia.
      + replace (overflow_loc idx (Datatypes.S i)) with (overflow_loc (idx + 1) i)
          by (unfold overflow_loc; f_equal; lia).
        rewrite (Hat i b Hb). apply Hsame.
        * apply Hout. right. by eapply list_elem_of_lookup_2.
        * destruct Htmp as [Htmp|Htmp]; [right; by apply Forall_cons_1 in Htmp as [? _]|left].
          intros ->. apply Htmp. right. by eapply list_elem_of_lookup_2.
    - intros l Hl Hlt. rewrite Hoth; [| |done].
      + unfold ls1. rewrite fn_lookup_insert_ne.
        * destruct (loc_reg a); [done|]. by rewrite fn_lookup_insert_ne.
        * intros <-. apply (Hl 0%nat); [cbn; lia|]. unfold overflow_loc. by rewrite Z.add_0_r.
      + intros i Hi. specialize (Hl (Datatypes.S i) ltac:(cbn; lia)).
        intros ->. apply Hl. unfold overflow_loc. f_equal. lia.
    - intros [Ha Hall]%Forall_cons_1. rewrite (Hregs Hall). unfold ls1.
      destruct (loc_reg a); [|by destruct Ha]. by rewrite fn_lookup_insert_ne.
Qed.

  (** Reading a source of a move: registers change, other locations do not. *)
Definition read_loc ls (s : Loc) (rf : MReg -> V) : V :=
    match s with Target.R r => rf r | l => ls l end.

Lemma read_loc_laws ls : source_laws loc_reg Target.R (read_loc ls).
Proof.
    split.
    - intros s r rf Hs. destruct s; cbn in Hs; try done. by injection Hs as ->.
    - intros s rf rf' Hs. by destruct s.
    - done.
Qed.

Lemma move_insts_exec ms ls m :
    exists ls', linear_exec_list (move_inst <$> ms) ls m = Some (ls', m) /\
      (forall r, ls' (Target.R r) = exec_moves (read_loc ls) (fun r => ls (Target.R r)) ms r) /\
      (forall l, loc_reg l = None -> ls' l = ls l).
Proof.
    assert (Hgen : forall ls1 rf, (forall r, ls1 (Target.R r) = rf r) ->
      (forall l, loc_reg l = None -> ls1 l = ls l) ->
      exists ls', linear_exec_list (move_inst <$> ms) ls1 m = Some (ls', m) /\
      (forall r, ls' (Target.R r) = exec_moves (read_loc ls) rf ms r) /\
      (forall l, loc_reg l = None -> ls' l = ls l)); [|by apply Hgen].
    induction ms as [|[s d] ms IH]; intros ls1 rf Hr Ho; [by exists ls1|].
    cbn. rewrite eval_op_move. cbn. apply IH.
    - intros r. unfold exec_move. cbn. destruct (decide (d = r)) as [<-|Hne].
      + rewrite !fn_lookup_insert. destruct s; cbn; [apply Hr|by apply Ho..].
      + rewrite !fn_lookup_insert_ne by congruence. apply Hr.
    - intros l Hl. rewrite fn_lookup_insert_ne; [by apply Ho|]. by intros <-.
Qed.

  (** The stores and moves of a converted call put every argument in its
      place and change nothing else but X8. *)
Lemma convertCall_places `{RangeOrder} darwin fn args ls m :
    wf_call (maxRegArgs darwin fn) fn args ->
    exists ls', linear_exec_list
        (overflow_stores 0 (drop (overflowStart darwin fn) args) ++
         (move_inst <$> call_reg_moves darwin fn args)) ls m = Some (ls', m) /\
      forall l, l <> Target.R tempReg -> ls' l = place_args (maxRegArgs darwin fn) args ls l.
Proof.
    intros [Hout Htmp _ Hlen]. rewrite overflowStart_eq.
    set (k := maxRegArgs darwin fn) in *.
    assert (Hk : (k <= 8)%nat) by apply maxRegArgs_le.
    destruct (overflow_stores_exec (drop k args) 0 ls m) as (ls1 & Hex1 & Hat & Hoth & Hregs).
    { intros a Ha. apply Hout. by eapply elem_of_drop_in. }
    { destruct Htmp as [?|Ht]; [by left|right]. intros Ha. apply Ht.
      by eapply elem_of_drop_in. }
    { lia. }
    { rewrite length_drop. lia. }
    set (moves := call_moves k args).
    assert (Hnt : moves !! tempReg = None) by (by apply call_moves_temp).
    destruct (resolve_terminates loc_reg Target.R tempReg moves 0 (fun _ => eq_refl) Hnt) as [ms Hms].
    assert (Hcm : call_reg_moves darwin fn args = ms)
      by (unfold call_reg_moves; fold k moves; by rewrite Hms).
    rewrite Hcm.
    destruct (move_insts_exec ms ls1 m) as (ls2 & Hex2 & Hr2 & Ho2).
    exists ls2. split; [by rewrite linear_exec_list_app, Hex1|].
    destruct (resolve_parallel loc_reg Target.R tempReg (read_loc ls1) (read_loc_laws ls1)
      _ 0 moves ms (fun r => ls1 (Target.R r)) Hnt Hms) as [Hdest Hother].
    assert (Hsrc : forall a i, args !! i = Some a -> (i < k)%nat -> ls1 a = ls a).
    { intros a i Ha Hi. destruct (decide (a = Target.R tempReg)) as [->|Hne].
      - apply Hregs. destruct Htmp as [?|Ht]; [done|]. exfalso. apply Ht. by eapply list_elem_of_lookup_2.
      - apply Hoth; [|done]. intros j _ ->.
        eapply (Hout _ (list_elem_of_lookup_2 _ _ _ Ha)). done. }
    intros l Hl. destruct (decide (l ∈ call_locs k (length args))) as [Hin|Hnin].
    - apply list_elem_of_lookup in Hin as [i [Hi ->]%call_locs_lookup].
      destruct (lookup_lt_is_Some_2 args i Hi) as [a Ha].
      rewrite (place_args_at k args ls i a Ha). unfold call_loc.
      destruct (Nat.ltb_spec i k) as [Hik|Hik].
      + rewrite Hr2. destruct (decide (a = Target.R (X (Z.of_nat i)))) as [->|Hne].
        * rewrite Hother; [by eapply Hsrc| |unfold tempReg, X8, X; lia].
          destruct (moves !! X (Z.of_nat i)) as [s|] eqn:E; [|done].
          apply call_moves_lookup in E as (j & Hj & Hij & Hs & Hns); [|done].
          unfold X in Hij. replace j with i in Hs by lia. congruence.
        * rewrite (Hdest _ a); [|apply call_moves_lookup; [done|by exists i]].
          transitivity (ls1 a); [by destruct a|by eapply Hsrc].
      + rewrite Ho2 by done. replace (Target.S _ _ _) with (overflow_loc 0 (i - k)).
        * rewrite (Hat _ a); [done|]. rewrite lookup_drop. by replace (k + (i - k))%nat with i by lia.
        * unfold overflow_loc. by rewrite Z.add_0_l.
    - rewrite place_args_other by done.
      assert (Hno : forall i, (i < length (drop k args))%nat -> l <> overflow_loc 0 i).
      { intros i Hi ->. apply Hnin, list_elem_of_lookup. exists (k + i)%nat.
        apply call_locs_lookup. rewrite length_drop in Hi. split; [lia|].
        unfold call_loc, overflow_loc. destruct (Nat.ltb_spec (k + i) k); [lia|].
        rewrite Z.add_0_l. by replace (k + i - k)%nat with i by lia. }
      destruct (loc_reg l) as [r|] eqn:El; [|rewrite Ho2 by done; by apply Hoth].
      destruct l as [r'| |]; try done. cbn in El. injection El as ->.
      rewrite Hr2, Hother; [by apply Hoth| |congruence].
      destruct (moves !! r) as [s|] eqn:E; [|done].
      apply call_moves_lookup in E as (j & Hj & -> & Hs & Hns); [|done].
      exfalso. apply Hnin, list_elem_of_lookup. exists j. apply call_locs_lookup.
      split; [by eapply lookup_lt_Some|]. unfold call_loc.
      by destruct (Nat.ltb_spec j k); [|lia].
Qed.

  (** The code of a converted call has the effect of the LTL call. *)
Lemma convertCall_exec `{RangeOrder} darwin sig fn args ls m :
    wf_call (maxRegArgs darwin fn) fn args ->
    linear_exec_list (convertCall darwin sig fn args) ls m =
      ltl_exec (maxRegArgs darwin) (Ltl.Lcall sig fn args) ls m.
Proof.
    intros Hwf. destruct (convertCall_places darwin fn args ls m Hwf) as (ls' & Hex & Hls).
    unfold convertCall. rewrite app_assoc, linear_exec_list_app, Hex. cbn.
    assert (Hc : linear_callee ls' (convertFunRef fn) = ltl_callee ls fn).
    { destruct fn as [l|s]; [|done]. cbn. f_equal.
      destruct (wc_callee _ _ _ Hwf l eq_refl) as [Hl Hlt].
      rewrite (Hls l Hlt). by apply place_args_other. }
    rewrite Hc, (eval_call_X8 _ _ ls' (place_args (maxRegArgs darwin fn) args ls)) by apply Hls.
    by destruct (eval_call _ _ _ _) as [[? ?]|].
Qed.
End Correct.
