(* ===== verification/Linearize.v ===== *)
(** Linearization ([src/pkg/linearize/linearize.go], [stack.go]): ordering the
    blocks of an LTL function, emitting them one after the other with labels
    and jumps, placing call arguments, then tunneling, label cleanup and the
    size of the stack frame. *)

From S2P Require Import Prelude Target.
From S2P Require Import Ltl Linear ParMove Semantics ConvertCall Tunneling Cleanup.

Section Convert.
  (** [runtime.GOOS == "darwin"], a constant of the running compiler. *)
  Context (darwin : bool).

  (** [convertInstruction] *)
Definition convertInstruction `{RangeOrder} (inst : Ltl.Instruction) : list Linear.Instruction :=
    match inst with
    | Ltl.Lnop => []
    | Ltl.Lop op args dest => [Linear.Lop op args dest]
    | Ltl.Lload chunk addr args dest => [Linear.Lload chunk addr args dest]
    | Ltl.Lstore chunk addr args src => [Linear.Lstore chunk addr args src]
    | Ltl.Lcall sig fn args => convertCall darwin sig fn args
    | Ltl.Lbuiltin b args dest => [Linear.Lbuiltin b args dest]
    | _ => []
    end.

  (** *** Blocks *)

  (** [blockSuccessors] *)
Definition blockSuccessors (block : BBlock) : list Node :=
    match last (Body block) with
    | Some (Ltl.Lbranch succ) => [succ]
    | Some (Ltl.Lcond _ _ ifso ifnot) => [ifso; ifnot]
    | Some (Ltl.Ljumptable _ targets) => targets
    | _ => []
    end.

  (** [computeOrder]'s closure [dfs]: the state is [visited] and [postorder];
      [None] when the fuel runs out. *)
Fixpoint dfs (fuel : nat) (code : gmap Z BBlock) (n : Node) (st : gset Z * list Node)
      : option (gset Z * list Node) :=
    match fuel with
    | O => None
    | Datatypes.S fuel =>
        let '(visited, postorder) := st in
        if decide (n ∈ visited) then Some st
        else
          match code !! n with
          | None => Some ({[n]} ∪ visited, postorder)
          | Some block =>
              '(visited', postorder') ←
                foldl (fun acc succ => st' ← acc; dfs fuel code succ st')
                  (Some ({[n]} ∪ visited, postorder)) (blockSuccessors block);
              Some (visited', postorder' ++ [n])
          end
    end.

  (** Every nested call visits another block: the depth is at most the number
      of blocks, and one more for a missing block. *)
Definition dfs_fuel (code : gmap Z BBlock) : nat := (size code + 2)%nat.

  (** [computeOrder] *)
Definition computeOrder (fn : Ltl.Function) : list Node :=
    match dfs (dfs_fuel (Ltl.fn_Code fn)) (Ltl.fn_Code fn) (Ltl.fn_Entrypoint fn) (∅, []) with
    | Some (_, postorder) => reverse postorder
    | None => []
    end.

  (** [assignLabels]: consecutive labels from 1. *)
Definition assignLabels (order : list Node) : gmap Z Z * Z :=
    foldl (fun st n => (<[n := st.2]> st.1, st.2 + 1)) (∅, 1) order.

  (** [l.nodeToLbl[n]], 0 for an absent key. *)
Definition node_label (nodeToLbl : gmap Z Z) (n : Node) : Linear.Label :=
    default 0 (nodeToLbl !! n).

  (** [emitTerminator]; [nextNode] is the next block in linear order. *)
Definition emitTerminator (nodeToLbl : gmap Z Z) (term : Ltl.Instruction) (nextNode : option Node)
      : list Linear.Instruction :=
    match term with
    | Ltl.Lbranch succ =>
        if decide (nextNode = Some succ) then []
        else [Linear.Lgoto (node_label nodeToLbl succ)]
    | Ltl.Lcond c args ifso ifnot =>
        if decide (nextNode = Some ifnot) then
          [Linear.Lcond c args (node_label nodeToLbl ifso)]
        else if decide (nextNode = Some ifso) then
          [Linear.Lcond c args (node_label nodeToLbl ifso);
           Linear.Lgoto (node_label nodeToLbl ifnot)]
        else
          [Linear.Lcond c args (node_label nodeToLbl ifso);
           Linear.Lgoto (node_label nodeToLbl ifnot)]
    | Ltl.Ljumptable arg targets =>
        [Linear.Ljumptable arg (node_label nodeToLbl <$> targets)]
    | Ltl.Ltailcall sig fn _ => [Linear.Ltailcall sig (convertFunRef fn)]
    | Ltl.Lreturn => [Linear.Lreturn]
    | _ => []
    end.

  (** All the runtime's choices of iteration orders: one for the call at each
      position of each block. *)
  Context (orders : Node -> nat -> RangeOrder).

  (** The instructions of a block but the last, then the terminator. *)
Fixpoint emit_body (nodeToLbl : gmap Z Z) (node : Node) (nextNode : option Node)
      (pos : nat) (body : list Ltl.Instruction) : list Linear.Instruction :=
    match body with
    | [] => []
    | [term] => emitTerminator nodeToLbl term nextNode
    | inst :: body =>
        convertInstruction (H := orders node pos) inst ++
        emit_body nodeToLbl node nextNode (pos + 1) body
    end.

  (** [emitBlock] *)
Definition emitBlock (code : gmap Z BBlock) (nodeToLbl : gmap Z Z) (node : Node)
      (nextNode : option Node) : list Linear.Instruction :=
    match code !! node with
    | None => []
    | Some block =>
        Linear.Llabel (node_label nodeToLbl node) ::
        emit_body nodeToLbl node nextNode 0 (Body block)
    end.

  (** The loop of [linearize] over the block order. *)
Fixpoint emitBlocks (code : gmap Z BBlock) (nodeToLbl : gmap Z Z) (order : list Node)
      : list Linear.Instruction :=
    match order with
    | [] => []
    | node :: order =>
        emitBlock code nodeToLbl node (head order) ++ emitBlocks code nodeToLbl order
    end.

  (** [Linearize] *)
Definition Linearize (fn : Ltl.Function) : Linear.Function :=
    let result := Linear.mkFunction (Ltl.fn_Name fn) (Ltl.fn_Sig fn) (Ltl.fn_Params fn)
                    (Ltl.fn_Stacksize fn) [] in
    if decide (Ltl.fn_Code fn = ∅) then result
    else
      let order := computeOrder fn in
      Linear.with_code result (emitBlocks (Ltl.fn_Code fn) (assignLabels order).1 order).
End Convert.

(** ** Block order *)

(** The edges of the control-flow graph. *)
Definition succ_rel (code : gmap Z BBlock) (a b : Z) : Prop :=
  exists block, code !! a = Some block /\ b ∈ blockSuccessors block.

(** What a run of [dfs] from the nodes [roots] does: [visited] grows to
    [visited'], and [new] is what is appended to [postorder]. *)
Record dfs_post (code : gmap Z BBlock) (roots : list Z) (visited visited' : gset Z)
    (new : list Z) : Prop := {
  dp_mono : visited ⊆ visited';
  dp_roots r : r ∈ roots -> r ∈ visited';
  dp_nodup : NoDup new;
  dp_new x : x ∈ new <-> x ∈ visited' /\ x ∉ visited /\ x ∈ dom code;
  dp_reach x : x ∈ visited' -> x ∉ visited -> exists r, r ∈ roots /\ rtc (succ_rel code) r x;
  dp_closed x y : x ∈ new -> succ_rel code x y -> y ∈ visited'
}.

Lemma dfs_fold (code : gmap Z BBlock) fuel roots visited post :
  (forall n visited post, (size (dom code ∖ visited) < fuel)%nat ->
    exists visited' new, dfs fuel code n (visited, post) = Some (visited', post ++ new) /\
      dfs_post code [n] visited visited' new) ->
  (size (dom code ∖ visited) < fuel)%nat ->
  exists visited' new,
    foldl (fun acc succ => st' ← acc; dfs fuel code succ st') (Some (visited, post)) roots
      = Some (visited', post ++ new) /\
    dfs_post code roots visited visited' new.
Proof.
  intros IH. revert visited post. induction roots as [|n roots IHr]; intros visited post Hf.
  { exists visited, []. rewrite app_nil_r. split; [done|].
    split; [done|set_solver|apply NoDup_nil_2|set_solver|done|set_solver]. }
  destruct (IH n visited post Hf) as (v1 & l1 & E1 & [M1 R1 N1 W1 H1 C1]).
  destruct (IHr v1 (post ++ l1)) as (v2 & l2 & E2 & [M2 R2 N2 W2 H2 C2]).
  { assert (Hle : (size (dom code ∖ v1) <= size (dom code ∖ visited))%nat); [|lia].
    apply subseteq_size. set_solver. }
  exists v2, (l1 ++ l2). split.
  { cbn [foldl]. cbn. rewrite E1. rewrite E2. by rewrite app_assoc. }
  assert (Hn : n ∈ v1) by (apply R1; by left).
  split.
  - set_solver.
  - intros r [->|Hr]%elem_of_cons; [by apply M2|by apply R2].
  - apply NoDup_app. split; [done|]. split; [|done]. intros x Hx1 Hx2.
    apply W1 in Hx1 as [Hx1 _]. apply W2 in Hx2 as (_ & Hx2 & _). done.
  - intros x. rewrite elem_of_app, W1, W2. split.
    + intros [(? & ? & ?)|(? & ? & ?)]; split_and!; try done; [by apply M2|].
      intros Hx. by apply M1 in Hx.
    + intros (? & ? & ?). destruct (decide (x ∈ v1)); [left|right]; done.
  - intros x Hx Hnx. destruct (decide (x ∈ v1)) as [Hx1|Hx1].
    + destruct (H1 x Hx1 Hnx) as (r & ->%list_elem_of_singleton & Hr). exists n. split; [by left|done].
    + destruct (H2 x Hx Hx1) as (r & Hr & Hrx). exists r. split; [by right|done].
  - intros x y [Hx|Hx]%elem_of_app Hy; [apply M2; by eapply C1|by eapply C2].
Qed.

Lemma dfs_spec (code : gmap Z BBlock) fuel n visited post :
  (size (dom code ∖ visited) < fuel)%nat ->
  exists visited' new, dfs fuel code n (visited, post) = Some (visited', post ++ new) /\
    dfs_post code [n] visited visited' new /\
    (n ∉ visited -> n ∈ dom code -> last new = Some n).
Proof.
  revert n visited post. induction fuel as [|fuel IH]; intros n visited post Hf; [lia|].
  cbn. destruct (decide (n ∈ visited)) as [Hv|Hv].
  { exists visited, []. rewrite app_nil_r. split; [done|]. split; [|done].
    split; [done|set_solver|apply NoDup_nil_2|set_solver|done|set_solver]. }
  destruct (code !! n) as [block|] eqn:En.
  2:{ exists ({[n]} ∪ visited), []. rewrite app_nil_r. split; [done|].
      apply not_elem_of_dom in En. split; [|done].
      split; [set_solver|set_solver|apply NoDup_nil_2| | |set_solver].
      - intros x. split; [set_solver|]. intros (Hx & Hnx & Hd). exfalso.
        assert (x = n) as -> by set_solver. done.
      - intros x Hx Hnx. exists n. split; [by left|]. assert (x = n) as -> by set_solver. done. }
  assert (Hd : n ∈ dom code) by (apply elem_of_dom; eauto).
  destruct (dfs_fold code fuel (blockSuccessors block) ({[n]} ∪ visited) post)
    as (v1 & l1 & E1 & [M1 R1 N1 W1 H1 C1]).
  { intros n' v' p' Hf'. destruct (IH n' v' p' Hf') as (v'' & l'' & ? & ? & _). eauto. }
  { assert (Hlt : dom code ∖ ({[n]} ∪ visited) ⊂ dom code ∖ visited) by set_solver.
    apply subset_size in Hlt. lia. }
  rewrite E1. cbn. exists v1, (l1 ++ [n]). split; [by rewrite app_assoc|].
  split; [|intros _ _; apply last_snoc].
  assert (Hn1 : n ∈ v1) by (apply M1; set_solver).
  split.
  - set_solver.
  - intros r ->%list_elem_of_singleton. done.
  - apply NoDup_app. split; [done|]. split; [|apply NoDup_singleton].
    intros x Hx ->%list_elem_of_singleton. apply W1 in Hx. set_solver.
  - intros x. rewrite elem_of_app, W1, list_elem_of_singleton. split.
    + intros [(? & ? & ?)| ->]; set_solver.
    + intros (? & ? & ?). destruct (decide (x = n)); set_solver.
  - intros x Hx Hnx. exists n. split; [by left|]. destruct (decide (x = n)) as [->|Hne]; [done|].
    destruct (H1 x Hx ltac:(set_solver)) as (r & Hr & Hrx).
    eapply rtc_l; [|exact Hrx]. by exists block.
  - intros x y [Hx|Hx%list_elem_of_singleton]%elem_of_app Hxy; [by eapply C1|].
    subst x. apply R1. destruct Hxy as (b & Hb & Hy). congruence.
Qed.

Lemma computeOrder_spec fn :
  exists visited, dfs_post (Ltl.fn_Code fn) [Ltl.fn_Entrypoint fn] ∅ visited (reverse (computeOrder fn)) /\
    (Ltl.fn_Entrypoint fn ∈ dom (Ltl.fn_Code fn) -> head (computeOrder fn) = Some (Ltl.fn_Entrypoint fn)).
Proof.
  unfold computeOrder.
  destruct (dfs_spec (Ltl.fn_Code fn) (dfs_fuel (Ltl.fn_Code fn)) (Ltl.fn_Entrypoint fn) ∅ [])
    as (v & l & -> & Hpost & Hlast).
  { unfold dfs_fuel. rewrite difference_empty_L, size_dom. lia. }
  exists v. rewrite reverse_involutive. split; [done|].
  intros Hd. rewrite head_reverse. by apply Hlast; [set_solver|].
Qed.

Lemma computeOrder_NoDup fn : NoDup (computeOrder fn).
Proof.
  destruct (computeOrder_spec fn) as (v & [_ _ Hnd _ _ _] & _). by rewrite reverse_Permutation in Hnd.
Qed.

Lemma computeOrder_elem fn n :
  n ∈ computeOrder fn <->
  n ∈ dom (Ltl.fn_Code fn) /\ rtc (succ_rel (Ltl.fn_Code fn)) (Ltl.fn_Entrypoint fn) n.
Proof.
  destruct (computeOrder_spec fn) as (v & [_ Hr _ Hnew Hreach Hcl] & _).
  setoid_rewrite elem_of_reverse in Hnew. setoid_rewrite elem_of_reverse in Hcl. split.
  - intros Hn. apply Hnew in Hn as (Hv & _ & Hd). split; [done|].
    destruct (Hreach n Hv (not_elem_of_empty _)) as (r & ->%list_elem_of_singleton & Hrn). done.
  - intros [Hd Hrn]. apply Hnew. split; [|split; [apply not_elem_of_empty|done]].
    assert (He : Ltl.fn_Entrypoint fn ∈ v) by (apply Hr; by left).
    clear Hr Hreach. revert He Hd. induction Hrn as [x|x y z Hxy _ IH]; [done|]. intros Hx Hd.
    refine (IH _ Hd). apply (Hcl x); [|done]. apply Hnew. split; [done|].
    split; [apply not_elem_of_empty|]. destruct Hxy as (b & Hb & _). apply elem_of_dom. eauto.
Qed.

(** ** Labels *)

Lemma foldl_labels_other (order : list Z) (m : gmap Z Z) k n :
  n ∉ order ->
  (foldl (fun st n => (<[n := st.2]> st.1, st.2 + 1)) (m, k) order).1 !! n = m !! n.
Proof.
  revert m k. induction order as [|x order IH]; intros m k Hn; [done|]. cbn [foldl fst snd].
  rewrite IH by set_solver. apply lookup_insert_ne. set_solver.
Qed.

Lemma foldl_labels_at (order : list Z) (m : gmap Z Z) k i n :
  NoDup order -> order !! i = Some n ->
  (foldl (fun st n => (<[n := st.2]> st.1, st.2 + 1)) (m, k) order).1 !! n = Some (k + Z.of_nat i).
Proof.
  revert m k i. induction order as [|x order IH]; intros m k i Hnd Hi; [done|].
  apply NoDup_cons in Hnd as [Hx Hnd]. cbn [foldl fst snd]. destruct i as [|i]; cbn in Hi.
  - injection Hi as ->. rewrite foldl_labels_other by done. rewrite lookup_insert_eq. f_equal. lia.
  - rewrite (IH _ _ i Hnd Hi). f_equal. lia.
Qed.

Lemma assignLabels_at order i n :
  NoDup order -> order !! i = Some n -> node_label (assignLabels order).1 n = 1 + Z.of_nat i.
Proof.
  intros Hnd Hi. unfold node_label, assignLabels. by rewrite (foldl_labels_at _ _ _ i n Hnd Hi).
Qed.

Lemma assignLabels_absent order n : n ∉ order -> node_label (assignLabels order).1 n = 0.
Proof. intros Hn. unfold node_label, assignLabels. by rewrite foldl_labels_other. Qed.

(** Distinct blocks get distinct labels. *)
Lemma assignLabels_inj order a b :
  NoDup order -> a ∈ order -> b ∈ order ->
  node_label (assignLabels order).1 a = node_label (assignLabels order).1 b -> a = b.
Proof.
  intros Hnd [i Hi]%list_elem_of_lookup [j Hj]%list_elem_of_lookup.
  rewrite (assignLabels_at _ i a), (assignLabels_at _ j b) by done.
  intros Hij. replace j with i in Hj by lia. congruence.
Qed.

(** ** Emitted code *)

Section Emit.
  Context (darwin : bool) (orders : Node -> nat -> RangeOrder).

Lemma convertCall_no_label `{RangeOrder} sig fn args :
    code_labels (convertCall darwin sig fn args) = [].
Proof.
    unfold convertCall. rewrite !code_labels_app.
    assert (Ho : forall idx args, code_labels (overflow_stores idx args) = []).
    { intros idx args'. revert idx. induction args' as [|a args' IH]; intros idx; [done|].
      cbn [overflow_stores]. rewrite code_labels_app, IH. by destruct (loc_reg a). }
    rewrite Ho. cbn [app]. change (code_labels [Linear.Lcall _ _]) with (@nil Z).
    rewrite app_nil_r. induction (call_reg_moves darwin fn args) as [|mv ms IH]; [done|exact IH].
Qed.

Lemma convertInstruction_no_label `{RangeOrder} i :
    code_labels (convertInstruction darwin i) = [].
Proof. destruct i; try done. apply convertCall_no_label. Qed.

Lemma emitTerminator_no_label nodeToLbl i next :
    code_labels (emitTerminator nodeToLbl i next) = [].
Proof. destruct i; try done; cbn; repeat case_decide; done. Qed.

Lemma emit_body_no_label nodeToLbl n next pos body :
    code_labels (emit_body darwin orders nodeToLbl n next pos body) = [].
Proof.
    revert pos. induction body as [|i body IH]; intros pos; [done|]. cbn [emit_body].
    destruct body as [|j body]; [apply emitTerminator_no_label|].
    rewrite code_labels_app, convertInstruction_no_label. apply IH.
Qed.

Lemma emitBlocks_labels code nodeToLbl order :
    Forall (fun n => n ∈ dom code) order ->
    code_labels (emitBlocks darwin orders code nodeToLbl order) = node_label nodeToLbl <$> order.
Proof.
    induction 1 as [|n order Hn _ IH]; [done|]. cbn [emitBlocks].
    rewrite code_labels_app, IH. unfold emitBlock. apply elem_of_dom in Hn as [b ->].
    cbn. f_equal. change (omap inst_label ?c) with (code_labels c). by rewrite emit_body_no_label.
Qed.

Lemma computeOrder_dom fn : Forall (fun n => n ∈ dom (Ltl.fn_Code fn)) (computeOrder fn).
Proof. apply Forall_forall. intros n Hn. by apply computeOrder_elem in Hn as [? _]. Qed.

  (** The labels of linearized code are 1, 2, ..., one per block. *)
Lemma Linearize_labels fn :
    code_labels (Linear.fn_Code (Linearize darwin orders fn)) =
      (fun i => 1 + Z.of_nat i) <$> seq 0 (length (computeOrder fn)).
Proof.
    unfold Linearize. case_decide as He; cbn.
    { unfold computeOrder. rewrite He. unfold dfs_fuel. rewrite map_size_empty. cbn.
      by rewrite lookup_empty. }
    rewrite emitBlocks_labels by apply computeOrder_dom.
    apply list_eq. intros i. rewrite !list_lookup_fmap.
    destruct (computeOrder fn !! i) as [n|] eqn:En.
    - rewrite lookup_seq_lt by (by eapply lookup_lt_Some). cbn.
      by rewrite (assignLabels_at _ i n (computeOrder_NoDup fn) En).
    - rewrite lookup_seq_ge by (by apply lookup_ge_None). done.
Qed.

Lemma Linearize_unique_labels fn :
    unique_labels (Linear.fn_Code (Linearize darwin orders fn)).
Proof.
    unfold unique_labels. rewrite Linearize_labels. apply NoDup_fmap_2; [|apply NoDup_seq].
    intros i j. lia.
Qed.
End Emit.
