(* ===== verification/LinearizePass.v ===== *)
(** Linearization preserves the semantics of LTL functions: a simulation
    between the block being executed and the code emitted for it.
    The whole linearization pass ([Transform] and [TransformProgram] of
    [src/pkg/linearize/linearize.go]) and what it guarantees. *)

From S2P Require Import Prelude Target Ltl Linear Semantics ConvertCall Tunneling Cleanup Linearize.
From S2P Require Import StackInfo.

(** The LTL functions linearization accepts: what the register allocator
    produces, with the conditions on calls under which [convertCall] is
    correct, and tail calls whose arguments are already in place, since
    [emitTerminator] emits no moves for them. *)
Record wf_function (darwin : bool) (f : Ltl.Function) : Prop := {
  wf_entry : Ltl.fn_Entrypoint f ∈ dom (Ltl.fn_Code f);
  wf_blocks n b : Ltl.fn_Code f !! n = Some b -> wf_block b;
  wf_closed n b s : n ∈ computeOrder f -> Ltl.fn_Code f !! n = Some b -> s ∈ blockSuccessors b -> s ∈ dom (Ltl.fn_Code f);
  wf_calls n b sig fn args : Ltl.fn_Code f !! n = Some b -> Ltl.Lcall sig fn args ∈ Body b ->
    wf_call (maxRegArgs darwin fn) fn args;
  wf_tailcalls n b sig fn args : Ltl.fn_Code f !! n = Some b -> Ltl.Ltailcall sig fn args ∈ Body b ->
    args = call_locs 8 (length (sig_Args sig))
}.

Section Straight.
  Context {V M : Type} `{TargetSemantics V M}.
  Implicit Types (ls : Loc -> V) (m : M).

  (** Straight-line code runs to its end, or gets stuck. *)
Lemma straight_run code c rest ls m :
    Forall (fun i => is_straight i = true) c ->
    match linear_exec_list c ls m with
    | Some (ls', m') => rtc (steps_to (linear_step code)) (c ++ rest, ls, m) (rest, ls', m') /\
        (c <> [] -> tc (steps_to (linear_step code)) (c ++ rest, ls, m) (rest, ls', m'))
    | None => forall r, ~ terminates (linear_step code) (c ++ rest, ls, m) r
    end.
Proof.
    intros Hs. revert ls m. induction Hs as [|i c Hi _ IH]; intros ls m; [by split|].
    pose proof (linear_step_straight code i (c ++ rest) ls m Hi) as Hstep.
    cbn [linear_exec_list app].
    destruct (linear_exec i ls m) as [[ls' m']|]; cbn [mbind option_bind].
    - specialize (IH ls' m'). destruct (linear_exec_list c ls' m') as [[ls'' m'']|].
      + destruct IH as [Hr _].
        assert (Ht : tc (steps_to (linear_step code)) (i :: c ++ rest, ls, m) (rest, ls'', m''))
          by (eapply tc_rtc_r; [by apply tc_once|done]).
        split; [by apply tc_rtc|done].
      + intros r Hr. by apply (terminates_step _ _ _ _ Hstep), IH in Hr.
    - intros r. by apply terminates_stuck.
Qed.
End Straight.

Section Simulation.
  Context {V M : Type} `{TargetSemantics V M}.
  Context (darwin : bool) (orders : Node -> nat -> RangeOrder).
  Context (f : Ltl.Function) (Hwf : wf_function darwin f).
  Implicit Types (ls : Loc -> V) (m : M).

Let code := Ltl.fn_Code f.
Let order := computeOrder f.
Let labels := (assignLabels order).1.
Let lcode := emitBlocks darwin orders code labels order.
Let lstep := linear_step (V := V) (M := M) lcode.

  (** The code after the label of block [n], when [o2] follows it. *)
Definition block_code (n : Node) (o2 : list Node) (pos : nat) (body : list Ltl.Instruction) :=
    emit_body darwin orders labels n (head o2) pos body ++ emitBlocks darwin orders code labels o2.

  (** The state is inside block [n], at the instructions [body]. *)
Definition match_states (s : ltl_state (V := V) (M := M)) (t : linear_state (V := V) (M := M)) : Prop :=
    exists n o1 o2 b pre,
      order = o1 ++ n :: o2 /\ code !! n = Some b /\ Body b = pre ++ s.1.1 /\ s.1.1 <> [] /\
      t = (block_code n o2 (length pre) s.1.1, s.1.2, s.2).

Lemma emitBlocks_app o1 o2 :
    exists c1, emitBlocks darwin orders code labels (o1 ++ o2) = c1 ++ emitBlocks darwin orders code labels o2.
Proof using.
    clear. induction o1 as [|n o1 [c1 IH]]; [by exists []|]. cbn [app emitBlocks]. rewrite IH.
    eexists. by rewrite app_assoc.
Qed.

Lemma block_nonempty n b : code !! n = Some b -> Body b <> [].
Proof using Hwf.
    intros Hb. destruct (wf_blocks _ _ Hwf n b Hb) as (body & t & -> & _).
    by destruct body.
Qed.

Lemma order_split n : n ∈ order -> exists o1 o2, order = o1 ++ n :: o2.
Proof using. apply list_elem_of_split. Qed.

  (** The first state of a block, one label step after its start. *)
Lemma enter_label n b o1 o2 ls m :
    order = o1 ++ n :: o2 -> code !! n = Some b ->
    emitBlocks darwin orders code labels (n :: o2) =
      Linear.Llabel (node_label labels n) :: block_code n o2 0 (Body b) /\
    match_states (Body b, ls, m) (block_code n o2 0 (Body b), ls, m).
Proof using Hwf.
    intros Ho Hb. split.
    - cbn [emitBlocks]. unfold emitBlock. by rewrite Hb.
    - exists n, o1, o2, b, []. repeat split; try done. by apply (block_nonempty n).
Qed.

  (** Jumping to the label of a block. *)
Lemma enter_jump n b ls m :
    n ∈ order -> code !! n = Some b ->
    exists t, linear_jump lcode (node_label labels n) ls m = Next (R := result V M) t /\
      match_states (Body b, ls, m) t.
Proof using Hwf.
    intros Hn Hb. destruct (order_split n Hn) as (o1 & o2 & Ho).
    destruct (enter_label n b o1 o2 ls m Ho Hb) as [Hcode Hm].
    eexists. split; [|exact Hm]. unfold linear_jump.
    destruct (emitBlocks_app o1 (n :: o2)) as [c1 Hc1].
    assert (Hl : lcode = c1 ++ Linear.Llabel (node_label labels n) :: block_code n o2 0 (Body b))
      by (unfold lcode; by rewrite Ho, Hc1, Hcode).
    assert (Hu : unique_labels lcode).
    { pose proof (Linearize_unique_labels darwin orders f) as Hu. unfold Linearize in Hu.
      rewrite decide_False in Hu; [exact Hu|]. fold code. intros He. by rewrite He, lookup_empty in Hb. }
    rewrite Hl in Hu |- *. by rewrite find_label_unique.
Qed.

  (** A successor of a block in the order is in the order. *)
Lemma order_succ n b s :
    n ∈ order -> code !! n = Some b -> s ∈ blockSuccessors b ->
    s ∈ order /\ exists bs, code !! s = Some bs.
Proof using Hwf.
    intros Hn Hb Hs. pose proof (wf_closed _ _ Hwf n b s Hn Hb Hs) as Hd.
    split; [|by apply elem_of_dom in Hd].
    apply computeOrder_elem. split; [done|]. apply computeOrder_elem in Hn as [_ Hr].
    eapply rtc_r; [exact Hr|]. by exists b.
Qed.

  (** Entering a successor by a jump, in both languages. *)
Lemma enter_succ n b s ls m :
    n ∈ order -> code !! n = Some b -> s ∈ blockSuccessors b ->
    exists bs t, ltl_enter code s ls m = Next (R := result V M) (Body bs, ls, m) /\
      linear_jump lcode (node_label labels s) ls m = Next (R := result V M) t /\
      match_states (Body bs, ls, m) t.
Proof using Hwf.
    intros Hn Hb Hs. destruct (order_succ n b s Hn Hb Hs) as [Ho [bs Hbs]].
    destruct (enter_jump s bs ls m Ho Hbs) as (t & Hj & Hm).
    exists bs, t. split; [|done]. unfold ltl_enter. by rewrite Hbs.
Qed.

  (** Entering the next block in the order by falling through. *)
Lemma enter_fall n b s o1 o2 ls m :
    order = o1 ++ n :: o2 -> code !! n = Some b -> s ∈ blockSuccessors b -> head o2 = Some s ->
    exists bs t, ltl_enter code s ls m = Next (R := result V M) (Body bs, ls, m) /\
      lstep (emitBlocks darwin orders code labels o2, ls, m) = Next t /\
      match_states (Body bs, ls, m) t.
Proof using Hwf.
    intros Ho Hb Hs Hh. destruct o2 as [|s' o3]; [done|]. injection Hh as ->.
    assert (Hn : n ∈ order) by (rewrite Ho; set_solver).
    destruct (order_succ n b s Hn Hb Hs) as [_ [bs Hbs]].
    assert (Ho' : order = (o1 ++ [n]) ++ s :: o3) by (by rewrite <- app_assoc).
    destruct (enter_label s bs (o1 ++ [n]) o3 ls m Ho' Hbs) as [-> Hm].
    exists bs. eexists. split; [unfold ltl_enter; by rewrite Hbs|]. by split.
Qed.

  (** The last instruction of a block is its only terminator. *)
Lemma block_split n b pre i rest :
    code !! n = Some b -> Body b = pre ++ i :: rest ->
    (rest = [] /\ is_terminator i = true /\ last (Body b) = Some i) \/
    (rest <> [] /\ is_terminator i = false).
Proof using Hwf.
    intros Hb Hbody. destruct (wf_blocks _ _ Hwf n b Hb) as (body & t & Hbt & Ht & Hall).
    destruct rest as [|j rest] using rev_ind.
    - left. rewrite Hbody, last_snoc in *. apply app_inj_tail in Hbt as [_ ->]. done.
    - right. split; [by destruct rest|]. rewrite Hbody in Hbt.
      rewrite app_comm_cons, app_assoc in Hbt. apply app_inj_tail in Hbt as [<- _].
      rewrite Forall_app in Hall. destruct Hall as [_ Hall]. by apply Forall_cons_1 in Hall as [? _].
Qed.

Lemma convertInstruction_straight `{RangeOrder} i :
    Forall (fun i => is_straight i = true) (convertInstruction darwin i).
Proof using.
    destruct i; repeat constructor. unfold convertInstruction, convertCall.
    apply Forall_app. split; [|apply Forall_app; split; [|by repeat constructor]].
    - generalize (drop (overflowStart darwin Fn) Args) as args, 0.
      induction args as [|a args IH]; intros idx; [constructor|]. cbn [overflow_stores].
      apply Forall_app. split; [|apply IH]. destruct (loc_reg a); by repeat constructor.
    - apply Forall_fmap, Forall_true. done.
Qed.

Lemma convertInstruction_exec `{RangeOrder} n b i ls m :
    code !! n = Some b -> i ∈ Body b -> is_terminator i = false ->
    linear_exec_list (convertInstruction darwin i) ls m = ltl_exec (maxRegArgs darwin) i ls m.
Proof using Hwf.
    intros Hb Hi Ht. destruct i as [|op args dest|ch ad args dest|ch ad args src|sig fn args| |bi args dest| | | |];
      try done; try (apply convertCall_exec; by eapply (wf_calls _ _ Hwf)); cbn.
    - by destruct (eval_op op (ls <$> args) m).
    - by destruct (eval_load ch ad (ls <$> args) m).
    - by destruct (eval_store ch ad (ls <$> args) (ls src) m).
    - by destruct (eval_builtin bi (ls <$> args) m) as [[? ?]|].
Qed.

Let sim_goal (s : ltl_state) (t : linear_state) : Prop :=
    match ltl_step (maxRegArgs darwin) code s with
    | Next s' => exists t', match_states s' t' /\
        (tc (steps_to lstep) t t' \/ (t' = t /\ (length s'.1.1 < length s.1.1)%nat))
    | Halt r => terminates lstep t r
    | Stuck => forall r, ~ terminates lstep t r
    end.

  (** An instruction inside a block. *)
Lemma sim_inside n o1 o2 b pre i rest ls m :
    order = o1 ++ n :: o2 -> code !! n = Some b -> Body b = pre ++ i :: rest ->
    rest <> [] -> is_terminator i = false ->
    sim_goal (i :: rest, ls, m) (block_code n o2 (length pre) (i :: rest), ls, m).
Proof using Hwf.
    intros Ho Hb Hbody Hrest Hi. unfold sim_goal.
    assert (Hin : i ∈ Body b) by (rewrite Hbody; set_solver).
    assert (Hbc : block_code n o2 (length pre) (i :: rest) =
      convertInstruction (H := orders n (length pre)) darwin i ++ block_code n o2 (length (pre ++ [i])) rest).
    { unfold block_code. destruct rest as [|j rest]; [done|]. rewrite length_app.
      cbn [emit_body length]. by rewrite <- app_assoc. }
    assert (Hm : forall ls' m', match_states (rest, ls', m') (block_code n o2 (length (pre ++ [i])) rest, ls', m')).
    { intros ls' m'. exists n, o1, o2, b, (pre ++ [i]). rewrite <- app_assoc. by repeat split. }
    assert (Hs : ltl_step (maxRegArgs darwin) code (i :: rest, ls, m) =
      match ltl_exec (maxRegArgs darwin) i ls m with
      | Some (ls', m') => Next (rest, ls', m') | None => Stuck end) by (by destruct i).
    rewrite Hs, Hbc.
    pose proof (straight_run lcode _ (block_code n o2 (length (pre ++ [i])) rest) ls m
      (convertInstruction_straight (H0 := orders n (length pre)) i)) as Hrun.
    rewrite (convertInstruction_exec n b i ls m Hb Hin Hi) in Hrun.
    destruct (ltl_exec _ i ls m) as [[ls' m']|] eqn:Ex; [|exact Hrun].
    eexists. split; [apply Hm|]. destruct Hrun as [_ Htc].
    assert (i = Ltl.Lnop \/ i <> Ltl.Lnop) as [->|Hne] by (destruct i; (by left) || (by right)); [|left; apply Htc].
    - right. cbn in Ex. injection Ex as <- <-. split; [done|cbn; lia].
    - destruct i as [| | | |sig fn args| | | | | |]; try done. cbn. unfold convertCall.
      intros Hnil. apply app_eq_nil in Hnil as [_ Hnil]. by apply app_eq_nil in Hnil as [_ Hnil].
Qed.

  (** The terminator of a block. *)
Lemma sim_terminator n o1 o2 b pre i ls m :
    order = o1 ++ n :: o2 -> code !! n = Some b -> Body b = pre ++ [i] ->
    is_terminator i = true -> last (Body b) = Some i ->
    sim_goal ([i], ls, m) (block_code n o2 (length pre) [i], ls, m).
Proof using Hwf.
    intros Ho Hb Hbody Hi Hlast.
    assert (Hn : n ∈ order) by (rewrite Ho; set_solver).
    assert (Hin : i ∈ Body b) by (rewrite Hbody; set_solver).
    assert (Hsucc : blockSuccessors b = match i with
      | Ltl.Lbranch succ => [succ] | Ltl.Lcond _ _ a b => [a; b]
      | Ltl.Ljumptable _ ts => ts | _ => [] end)
      by (unfold blockSuccessors; rewrite Hlast; by destruct i).
    set (rest := emitBlocks darwin orders code labels o2).
    (* a jump of the emitted code to a successor *)
    assert (Hjump : forall s t, s ∈ blockSuccessors b ->
      lstep t = linear_jump lcode (node_label labels s) ls m ->
      exists bs t', ltl_enter code s ls m = Next (R := result V M) (Body bs, ls, m) /\
        match_states (Body bs, ls, m) t' /\ tc (steps_to lstep) t t').
    { intros s t Hs Ht. destruct (enter_succ n b s ls m Hn Hb Hs) as (bs & t' & He & Hj & Hm).
      exists bs, t'. split; [done|]. split; [done|]. apply tc_once. unfold steps_to. by rewrite Ht. }
    (* falling through to the next block *)
    assert (Hfall : forall s, s ∈ blockSuccessors b -> head o2 = Some s ->
      exists bs t', ltl_enter code s ls m = Next (R := result V M) (Body bs, ls, m) /\
        match_states (Body bs, ls, m) t' /\ tc (steps_to lstep) (rest, ls, m) t').
    { intros s Hs Hh. destruct (enter_fall n b s o1 o2 ls m Ho Hb Hs Hh) as (bs & t' & He & Hst & Hm).
      exists bs, t'. split; [done|]. split; [done|]. by apply tc_once. }
    unfold sim_goal, block_code. cbn [emit_body]. fold rest.
    destruct i as [| | | | |sig fn args| |s|c args s1 s2|arg ts|]; try done; cbn [emitTerminator ltl_step].
    - cbn [app]. apply terminates_halt. cbn. unfold convertFunRef.
      rewrite (wf_tailcalls _ _ Hwf n b sig fn args Hb Hin). by destruct fn.
    - assert (Hs : s ∈ blockSuccessors b) by (rewrite Hsucc; by left). case_decide as Hd.
      + destruct (Hfall s Hs Hd) as (bs & t' & -> & Hm & Htc). eauto.
      + destruct (Hjump s (Linear.Lgoto (node_label labels s) :: rest, ls, m) Hs eq_refl)
          as (bs & t' & -> & Hm & Htc). eauto.
    - assert (Hs1 : s1 ∈ blockSuccessors b) by (rewrite Hsucc; by left).
      assert (Hs2 : s2 ∈ blockSuccessors b) by (rewrite Hsucc; right; by left).
      destruct (eval_cond c (ls <$> args) m) as [[]|] eqn:Ec.
      + set (pc := _ ++ rest).
        destruct (Hjump s1 (pc, ls, m) Hs1) as (bs & t' & -> & Hm & Htc); [|by eauto].
        unfold pc. repeat case_decide; cbn; by rewrite Ec.
      + case_decide as Hd.
        * destruct (Hfall s2 Hs2 Hd) as (bs & t' & -> & Hm & Htc). eexists. split; [exact Hm|].
          left. eapply tc_l; [|exact Htc]. unfold steps_to. cbn. by rewrite Ec.
        * assert (Hgo : forall k, exists bs t', ltl_enter code s2 ls m = Next (R := result V M) (Body bs, ls, m) /\
            match_states (Body bs, ls, m) t' /\
            tc (steps_to lstep) (Linear.Lcond c args k :: Linear.Lgoto (node_label labels s2) :: rest, ls, m) t').
          { intros k. destruct (Hjump s2 (Linear.Lgoto (node_label labels s2) :: rest, ls, m) Hs2 eq_refl)
              as (bs & t' & He & Hm & Htc).
            exists bs, t'. split; [done|]. split; [done|]. eapply tc_l; [|exact Htc].
            unfold steps_to. cbn. by rewrite Ec. }
          destruct (Hgo (node_label labels s1)) as (bs & t' & -> & Hm & Htc).
          case_decide; eauto.
      + intros r. apply terminates_stuck. repeat case_decide; cbn; by rewrite Ec.
    - cbn [app]. destruct (eval_index (ls arg)) as [k|] eqn:Ek; cbn [mbind option_bind].
      2:{ intros r. apply terminates_stuck. cbn. by rewrite Ek. }
      destruct (ts !! k) as [s|] eqn:Et.
      + destruct (Hjump s (Linear.Ljumptable arg (node_label labels <$> ts) :: rest, ls, m))
          as (bs & t' & -> & Hm & Htc); [| |by eauto].
        * rewrite Hsucc. by eapply list_elem_of_lookup_2.
        * cbn. rewrite Ek. cbn. by rewrite list_lookup_fmap, Et.
      + intros r. apply terminates_stuck. cbn. rewrite Ek. cbn. by rewrite list_lookup_fmap, Et.
    - cbn [app]. by apply terminates_halt.
Qed.

Lemma linearize_sim s t : match_states s t -> sim_goal s t.
Proof using Hwf.
    intros (n & o1 & o2 & b & pre & Ho & Hb & Hbody & Hne & ->).
    destruct s as [[body ls] m]. cbn [fst snd] in *. destruct body as [|i rest]; [done|].
    destruct (block_split n b pre i rest Hb Hbody) as [(-> & Ht & Hl)|[Hr Ht]].
    - by eapply sim_terminator.
    - by eapply sim_inside.
Qed.

  (** From the entry point, the LTL function and its linearized code
      terminate on the same results. *)
Lemma Linearize_equiv s ls m r :
    ltl_init f ls m = Some s ->
    terminates (ltl_step (maxRegArgs darwin) code) s r <->
    terminates (linear_step (Linear.fn_Code (Linearize darwin orders f)))
      (linear_init (Linearize darwin orders f) ls m) r.
Proof using Hwf.
    intros Hinit. unfold ltl_init in Hinit. fold code in Hinit.
    destruct (code !! Ltl.fn_Entrypoint f) as [b|] eqn:Eb; [|done]. injection Hinit as <-.
    assert (Hc : Linear.fn_Code (Linearize darwin orders f) = lcode).
    { unfold Linearize. rewrite decide_False; [done|]. fold code. intros He.
      by rewrite He, lookup_empty in Eb. }
    unfold linear_init. rewrite Hc.
    destruct (computeOrder_spec f) as (v & _ & Hh). specialize (Hh (wf_entry _ _ Hwf)).
    fold order in Hh.
    assert (exists o2, order = Ltl.fn_Entrypoint f :: o2) as [o2 Eo].
    { revert Hh. generalize order. intros [|n o2]; [done|]. intros [= ->]. by exists o2. }
    destruct (enter_label (Ltl.fn_Entrypoint f) b [] o2 ls m Eo Eb) as [Hcode Hm].
    assert (Hl : lcode = Linear.Llabel (node_label labels (Ltl.fn_Entrypoint f)) :: block_code (Ltl.fn_Entrypoint f) o2 0 (Body b))
      by (unfold lcode; by rewrite Eo).
    etransitivity; [|symmetry; apply (terminates_step lstep (lcode, ls, m)
      (block_code (Ltl.fn_Entrypoint f) o2 0 (Body b), ls, m)); by rewrite Hl at 1].
    apply (sim_equiv _ lstep match_states (fun s => length s.1.1)).
    - intros s t s' Hst Hs. pose proof (linearize_sim s t Hst) as Hsim.
      unfold sim_goal in Hsim. by rewrite Hs in Hsim.
    - intros s t r' Hst Hs. pose proof (linearize_sim s t Hst) as Hsim.
      unfold sim_goal in Hsim. by rewrite Hs in Hsim.
    - intros s t r' Hst Hs. pose proof (linearize_sim s t Hst) as Hsim.
      unfold sim_goal in Hsim. rewrite Hs in Hsim. apply Hsim.
    - exact Hm.
Qed.
End Simulation.

(** [Transform]: linearize, tunnel, clean up the labels, compute the stack
    size. *)
Definition Transform (darwin : bool) (orders : Node -> nat -> RangeOrder) (fn : Ltl.Function)
    : Linear.Function :=
  ComputeStackSize (CleanupLabels (Tunnel (Linearize darwin orders fn))).

(** [TransformProgram] *)
Definition TransformProgram (darwin : bool) (orders : nat -> Node -> nat -> RangeOrder)
    (prog : Ltl.Program) : Linear.Program :=
  Linear.mkProgram
    ((fun g => Linear.mkGlobVar (Ltl.gv_Name g) (Ltl.gv_Size g) (Ltl.gv_Init g) (Ltl.gv_ReadOnly g))
       <$> Ltl.Globals prog)
    (imap (fun i fn => Transform darwin (orders i) fn) (Ltl.Functions prog)).

(** ** A checker for [wf_function] *)

Definition wf_block_check (b : BBlock) : bool :=
  match last (Body b) with
  | Some t => is_terminator t && forallb (fun i => negb (is_terminator i)) (take (length (Body b) - 1) (Body b))
  | None => false
  end.

Definition wf_call_check (regs : nat) (fn : Ltl.FunRef) (args : list Loc) : bool :=
  forallb (fun a => match a with Target.S SlotOutgoing _ _ => false | _ => true end) args &&
  (forallb (fun a => match loc_reg a with Some _ => true | None => false end) (drop regs args) ||
   bool_decide (Target.R tempReg ∉ args)) &&
  match fn with
  | Ltl.FunReg l => bool_decide (l ∉ call_locs regs (length args)) && bool_decide (l <> Target.R tempReg)
  | Ltl.FunSymbol _ => true
  end &&
  (Z.of_nat (length args) * 8 <? 2 ^ 63).

Definition wf_inst_check (darwin : bool) (i : Ltl.Instruction) : bool :=
  match i with
  | Ltl.Lcall _ fn args => wf_call_check (maxRegArgs darwin fn) fn args
  | Ltl.Ltailcall sig _ args => bool_decide (args = call_locs 8 (length (sig_Args sig)))
  | _ => true
  end.

Definition wf_function_check (darwin : bool) (f : Ltl.Function) : bool :=
  bool_decide (is_Some (Ltl.fn_Code f !! Ltl.fn_Entrypoint f)) &&
  forallb (fun nb =>
      wf_block_check nb.2 &&
      forallb (wf_inst_check darwin) (Body nb.2))
    (map_to_list (Ltl.fn_Code f)) &&
  forallb (fun n => match Ltl.fn_Code f !! n with
    | Some b => forallb (fun s => bool_decide (is_Some (Ltl.fn_Code f !! s))) (blockSuccessors b)
    | None => true
    end) (computeOrder f).

Lemma forallb_elem {A} (p : A -> bool) l : forallb p l = true <-> forall x, x ∈ l -> p x = true.
Proof. rewrite forallb_forall. by setoid_rewrite list_elem_of_In. Qed.

Lemma wf_block_check_sound b : wf_block_check b = true -> wf_block b.
Proof.
  unfold wf_block_check, wf_block. destruct (Body b) as [|t l _] using rev_ind; [done|].
  rewrite last_snoc, length_app, Nat.add_sub, take_app_length. intros [Ht Hl]%andb_prop.
  exists l, t. split; [done|]. split; [done|]. apply Forall_forall. intros i Hi.
  rewrite forallb_elem in Hl. by apply negb_true_iff, Hl.
Qed.

Lemma wf_call_check_sound regs fn args : wf_call_check regs fn args = true -> wf_call regs fn args.
Proof.
  unfold wf_call_check. intros [[[Ho Ht]%andb_prop Hc]%andb_prop Hl]%andb_prop. split.
  - intros a Ha ofs ty ->. rewrite forallb_elem in Ho. by specialize (Ho _ Ha).
  - apply orb_prop in Ht as [Ht|Ht]; [left|right; by apply bool_decide_eq_true in Ht].
    apply Forall_forall. intros a Ha. rewrite forallb_elem in Ht. specialize (Ht a Ha).
    destruct (loc_reg a); [eauto|done].
  - intros l ->. apply andb_prop in Hc as [H1 H2]. by apply bool_decide_eq_true in H1, H2.
  - by apply Z.ltb_lt.
Qed.

Lemma wf_function_check_sound darwin f : wf_function_check darwin f = true -> wf_function darwin f.
Proof.
  unfold wf_function_check. intros [[He Hall]%andb_prop Hord]%andb_prop. rewrite forallb_elem in Hall. rewrite forallb_elem in Hord.
  assert (Hb : forall n b, Ltl.fn_Code f !! n = Some b ->
    wf_block_check b = true /\ forall i, i ∈ Body b -> wf_inst_check darwin i = true).
  { intros n b Hn. specialize (Hall (n, b) (proj2 (elem_of_map_to_list _ _ _) Hn)).
    apply andb_prop in Hall as [H1 H3]. split; [exact H1|exact (proj1 (forallb_elem _ _) H3)]. }
  split.
  - by apply bool_decide_eq_true in He; apply elem_of_dom.
  - intros n b Hn. by apply wf_block_check_sound, (Hb n).
  - intros n b s Ho Hn Hs. apply elem_of_dom. specialize (Hord n Ho). rewrite Hn, forallb_elem in Hord.
    by apply Hord, bool_decide_eq_true in Hs.
  - intros n b sig fn args Hn Hi. apply wf_call_check_sound.
    by destruct (Hb n b Hn) as (_ & Hc); specialize (Hc _ Hi).
  - intros n b sig fn args Hn Hi.
    destruct (Hb n b Hn) as (_ & Hc). specialize (Hc _ Hi). by apply bool_decide_eq_true in Hc.
Qed.

(** ** The pass is correct *)

(** The code of the transformed function. *)
Lemma Transform_code darwin orders fn :
  Linear.fn_Code (Transform darwin orders fn) =
    cleanup_code (tunnel_code (Linear.fn_Code (Linearize darwin orders fn))).
Proof. done. Qed.

(** Tunneling and the cleanup of labels change nothing. *)
Lemma Transform_code_equiv {V M : Type} `{TargetSemantics V M} darwin orders fn (ls : Loc -> V) (m : M) r :
  terminates (linear_step (Linear.fn_Code (Transform darwin orders fn)))
    (linear_init (Transform darwin orders fn) ls m) r <->
  terminates (linear_step (Linear.fn_Code (Linearize darwin orders fn)))
    (linear_init (Linearize darwin orders fn) ls m) r.
Proof.
  unfold linear_init. rewrite Transform_code, <- cleanup_code_equiv.
  by rewrite tunnel_code_equiv by apply Linearize_unique_labels.
Qed.

(** C6. Linearization preserves the semantics of the LTL functions that meet
    [wf_function]: from every initial state, the LTL function terminates with a
    result exactly when the Linear function [Transform] makes of it does, for every
    target, platform and map iteration order. [wf_function] asks that the graph is
    closed and its blocks end in their only terminator; that in a call neither the
    function pointer nor, when another argument goes from stack to stack through X8,
    an argument is in a place the conversion overwrites ([wf_call]); and that the
    arguments of a tail call are already in place. On other calls the pass is wrong:
    [convertCall_clobbers_callee], [convertCall_clobbers_X8],
    [tailcall_drops_arguments]. *)
Theorem Transform_correct {V M : Type} `{TargetSemantics V M} (darwin : bool)
    (orders : Node -> nat -> RangeOrder) (fn : Ltl.Function) (s : ltl_state) (ls : Loc -> V) (m : M)
    (r : result V M) :
  wf_function darwin fn ->
  ltl_init fn ls m = Some s ->
  terminates (ltl_step (maxRegArgs darwin) (Ltl.fn_Code fn)) s r <->
  terminates (linear_step (Linear.fn_Code (Transform darwin orders fn)))
    (linear_init (Transform darwin orders fn) ls m) r.
Proof.
  intros Hwf Hinit. rewrite Transform_code_equiv. by apply (Linearize_equiv darwin orders fn Hwf s ls m r).
Qed.

(** A function with a loop, a call with swapped arguments and a chain of
    jumps. *)
Definition example_ltl : Ltl.Function :=
  Ltl.mkFunction "f" (mkSig [] "int" false) [] 0
    (list_to_map [
      (1, mkBBlock [Ltl.Lop (Ointconst 3) [] (Target.R 1); Ltl.Lop (Ointconst 4) [] (Target.R 0);
                    Ltl.Lbranch 2]);
      (2, mkBBlock [Ltl.Lcond (Ccompimm Clt 10) [Target.R 1] 3 4]);
      (3, mkBBlock [Ltl.Lop (Oaddimm 5) [Target.R 1] (Target.R 1); Ltl.Lbranch 5]);
      (5, mkBBlock [Ltl.Lbranch 2]);
      (4, mkBBlock [Ltl.Lcall (mkSig ["int"; "int"] "int" false) (Ltl.FunSymbol "g")
                      [Target.R 1; Target.R 0]; Ltl.Lreturn])])
    1.

Lemma Transform_correct_witness :
  let f := Transform false (fun _ _ => list_order) example_ltl in
  terminates (linear_step (H := sum_target) (Linear.fn_Code f)) (linear_init f (fun _ => 0) 0)
    (Returned 18 1).
Proof.
  apply (Transform_correct (H := sum_target) false (fun _ _ => list_order) example_ltl
           (Body (default (mkBBlock []) (Ltl.fn_Code example_ltl !! 1)), fun _ => 0, 0) (fun _ => 0) 0
           (Returned 18 1)).
  - apply wf_function_check_sound. by vm_compute.
  - reflexivity.
  - apply (run_terminates _ 30). by vm_compute.
Defined.

(** C14. Call conversion is correct for the calls that meet [wf_call]: no argument is
    in an outgoing slot, X8 holds none when a stack argument has to go through it, and
    the function pointer of an indirect call is neither in X8 nor in a place the
    arguments go to. For every iteration order of the map of moves the parallel-move
    loop ends, and the stores, moves and call it emits have the effect of the LTL
    call, which reads all its arguments at once. On other calls it is wrong:
    [convertCall_clobbers_X8], [convertCall_clobbers_callee]. *)
Theorem convertCall_correct {V M : Type} `{TargetSemantics V M} `{RangeOrder} (darwin : bool)
    (sig : Sig) (fn : Ltl.FunRef) (args : list Loc) (ls : Loc -> V) (m : M) :
  wf_call (maxRegArgs darwin fn) fn args ->
  is_Some (let moves := call_moves (maxRegArgs darwin fn) args in
           ParMove.resolve loc_reg Target.R tempReg (ParMove.resolve_fuel moves) 0 moves ∅ []) /\
  linear_exec_list (convertCall darwin sig fn args) ls m =
    ltl_exec (maxRegArgs darwin) (Ltl.Lcall sig fn args) ls m.
Proof.
  intros Hwf. split; [|by apply convertCall_exec].
  apply ParMove.resolve_terminates; [done|]. apply call_moves_temp, maxRegArgs_le.
Qed.

(** Nine arguments, among them a cycle through X0, X1 and X2 and a stack slot. *)
Definition example_args : list Loc :=
  [Target.R 1; Target.R 2; Target.R 0; Target.S SlotLocal 0 Tlong; Target.R 20; Target.R 3;
   Target.R 21; Target.R 7; Target.R 22].

Lemma convertCall_correct_witness :
  let ls := fun l => match l with Target.R r => r | _ => 100 end in
  wf_call 8 (Ltl.FunSymbol "g") example_args /\
  linear_exec_list (H := sum_target)
    (convertCall (H := list_order) false (mkSig [] "" false) (Ltl.FunSymbol "g") example_args) ls 0 =
  ltl_exec (H := sum_target) (maxRegArgs false)
    (Ltl.Lcall (mkSig [] "" false) (Ltl.FunSymbol "g") example_args) ls 0.
Proof.
  intros ls. assert (Hwf : wf_call 8 (Ltl.FunSymbol "g") example_args)
    by (apply wf_call_check_sound; by vm_compute).
  split; [exact Hwf|].
  apply (convertCall_correct (H := sum_target) (H0 := list_order) false (mkSig [] "" false)
           (Ltl.FunSymbol "g") example_args ls 0 Hwf).
Defined.

(** C17. The block order is a permutation of the reachable blocks, the entry
    block first. *)
Theorem computeOrder_correct (fn : Ltl.Function) :
  NoDup (computeOrder fn) /\
  (forall n, n ∈ computeOrder fn <->
     n ∈ dom (Ltl.fn_Code fn) /\ rtc (succ_rel (Ltl.fn_Code fn)) (Ltl.fn_Entrypoint fn) n) /\
  (Ltl.fn_Entrypoint fn ∈ dom (Ltl.fn_Code fn) ->
     head (computeOrder fn) = Some (Ltl.fn_Entrypoint fn)).
Proof.
  split; [apply computeOrder_NoDup|]. split; [apply computeOrder_elem|].
  by destruct (computeOrder_spec fn) as (v & _ & Hh).
Qed.


(** C19. Label cleanup removes exactly the labels that are neither the first
    one nor the target of a branch, and no other instruction. *)
Theorem CleanupLabels_exact (fn : Linear.Function) (i : Linear.Instruction) :
  sublist (Linear.fn_Code (CleanupLabels fn)) (Linear.fn_Code fn) /\
  code_targets (Linear.fn_Code (CleanupLabels fn)) = code_targets (Linear.fn_Code fn) /\
  (i ∈ Linear.fn_Code (CleanupLabels fn) <->
   i ∈ Linear.fn_Code fn /\
   forall l, i = Linear.Llabel l ->
     l = entryLabel (Linear.fn_Code fn) \/ l ∈ code_targets (Linear.fn_Code fn)).
Proof.
  split; [apply cleanup_code_subseq|]. split; [apply cleanup_code_targets|]. cbn.
  destruct (inst_label i) as [l|] eqn:El.
  - destruct i; try done. rewrite cleanup_code_labels. naive_solver.
  - split.
    + intros Hi. split; [by eapply sublist_elem, cleanup_code_subseq|]. by intros l ->.
    + intros [Hi _]. by apply cleanup_code_other.
Qed.

(** The frame size [ComputeStackSize] stores is a multiple of 16, is at
    least the space of the local and outgoing slots and less than 16 bytes
    more, and every local or outgoing slot the scan sees ends within it,
    provided that space does not overflow an int64. *)
Theorem ComputeStackSize_correct (fn : Linear.Function) (k : SlotKind) (ofs : Z) (ty : Typ) :
  let info := CollectStackInfo fn in
  let size := Linear.fn_Stacksize (ComputeStackSize fn) in
  LocalSize info + OutgoingSize info + 16 < 2 ^ 63 ->
  size mod 16 = 0 /\
  LocalSize info + OutgoingSize info <= size < LocalSize info + OutgoingSize info + 16 /\
  ((k, ofs, ty) ∈ code_slots (Linear.fn_Code fn) -> k <> SlotIncoming -> in_i64 (ofs + slotSize ty) ->
   ofs + slotSize ty <= size).
Proof.
  intros info size Hlt.
  destruct (CollectStackInfo_bound fn SlotLocal) as (Hl & Hlb & _).
  destruct (CollectStackInfo_bound fn SlotOutgoing) as (Ho & Hob & _).
  destruct (TotalSize_spec info Hl Ho Hlt) as [Hmod Hsize].
  split; [done|]. split; [done|]. intros Hin Hk Hi64.
  assert (slot_end (k, ofs, ty) <= size_of k info) as Hend.
  { by destruct k; [apply Hlb| |apply Hob]. }
  unfold slot_end in Hend. cbn in Hend. rewrite i64_id in Hend by done.
  cbn in Hl, Ho, Hsize. unfold size. cbn. fold info in Hl, Ho |- *.
  destruct k; cbn in Hend; [lia|done|lia].
Qed.

Lemma ComputeStackSize_correct_witness :
  let fn := Linear.mkFunction "f" (mkSig [] "" false) [] 0
    [Linear.Lsetstack 0 SlotLocal 8 Tint; Linear.Lsetstack 0 SlotOutgoing 0 Tlong] in
  Linear.fn_Stacksize (ComputeStackSize fn) mod 16 = 0 /\ 8 + 4 <= Linear.fn_Stacksize (ComputeStackSize fn).
Proof.
  intros fn.
  destruct (ComputeStackSize_correct fn SlotLocal 8 Tint ltac:(by vm_compute)) as (H1 & _ & H3).
  split; [exact H1|]. apply H3; [left|discriminate|split; vm_compute; congruence].
Defined.

(** ** Calls the conversion gets wrong *)

(** The register X0 and the memory after a call, on [sum_target]. *)
Definition call_outcome (o : option ((Loc -> Z) * Z)) : option (Z * Z) :=
  '(ls, m) ← o; Some (ls (Target.R 0), m).

(** A function pointer in an argument register is overwritten by the argument
    moves before the call reads it. *)
Theorem convertCall_clobbers_callee :
  let ls := fun l => match l with Target.R r => r | _ => 0 end in
  let call := Ltl.Lcall (mkSig [] "" false) (Ltl.FunReg (Target.R 0)) [Target.R 5] in
  call_outcome (ltl_exec (H := sum_target) (maxRegArgs false) call ls 0) = Some (6, 1) /\
  call_outcome (linear_exec_list (H := sum_target)
    (convertInstruction (H := list_order) false call) ls 0) = Some (5006, 1).
Proof. by vm_compute. Qed.

(** A ninth argument in a stack slot goes through X8, and overwrites a first
    argument held in X8. *)
Theorem convertCall_clobbers_X8 :
  let ls := fun l => match l with Target.R r => r | _ => 100 end in
  let call := Ltl.Lcall (mkSig [] "" false) (Ltl.FunSymbol "")
    [Target.R 8; Target.R 1; Target.R 2; Target.R 3; Target.R 4; Target.R 5; Target.R 6; Target.R 7;
     Target.S SlotLocal 0 Tlong] in
  call_outcome (ltl_exec (H := sum_target) (maxRegArgs false) call ls 0) = Some (109, 1) /\
  call_outcome (linear_exec_list (H := sum_target)
    (convertInstruction (H := list_order) false call) ls 0) = Some (201, 1).
Proof. by vm_compute. Qed.

(** The arguments of a tail call are not placed at all. *)
Theorem tailcall_drops_arguments (darwin : bool) (nodeToLbl : gmap Z Z) (sig : Sig)
    (fn : Ltl.FunRef) (args : list Loc) (next : option Node) :
  emitTerminator nodeToLbl (Ltl.Ltailcall sig fn args) next = [Linear.Ltailcall sig (convertFunRef fn)].
Proof. done. Qed.
