(* ===== verification/Mach.v ===== *)
(** Mach ([src/pkg/mach/ast.go]): Linear with registers as the only operands
    and stack slots replaced by byte offsets from the frame pointer. *)

From S2P Require Import Prelude Target Linear.

(** Branch targets, the labels of Linear. *)
Abbreviation Label := Z (only parsing).

(** [Label.Valid] *)
Definition Valid (l : Label) : bool := 0 <? l.

Inductive FunRef :=
| FunReg (fr_Reg : MReg)
| FunSymbol (Name : string).

Inductive Instruction :=
| Mgetstack (Ofs : Z) (Ty : Typ) (Dest : MReg)
| Msetstack (Src : MReg) (Ofs : Z) (Ty : Typ)
| Mgetparam (Ofs : Z) (Ty : Typ) (Dest : MReg)
| Mop (Op : Operation) (Args : list MReg) (Dest : MReg)
| Mload (chunk : Chunk) (Addr : AddressingMode) (Args : list MReg) (Dest : MReg)
| Mstore (chunk : Chunk) (Addr : AddressingMode) (Args : list MReg) (Src : MReg)
| Mcall (sig : Sig) (Fn : FunRef)
| Mtailcall (sig : Sig) (Fn : FunRef)
| Mbuiltin (Builtin : string) (Args : list MReg) (Dest : option MReg)
| Mlabel (Lbl : Label)
| Mgoto (Target : Label)
| Mcond (Cond : ConditionCode) (Args : list MReg) (IfSo : Label)
| Mjumptable (Arg : MReg) (Targets : list Label)
| Mreturn.

Record Function := mkFunction {
  fn_Name : string;
  fn_Sig : Sig;
  fn_Code : list Instruction;
  fn_Stacksize : Z;
  fn_CalleeSaveRegs : list MReg;
  fn_UsesFramePtr : bool
}.

Record GlobVar := mkGlobVar {
  gv_Name : string;
  gv_Size : Z;
  gv_Init : list Z;
  gv_ReadOnly : bool
}.

Record Program := mkProgram {
  Globals : list GlobVar;
  Functions : list Function
}.

Definition NewFunction (name : string) (sig : Sig) : Function :=
  mkFunction name sig [] 0 [] true.

(** [Function.Append] *)
Definition Append (f : Function) (inst : Instruction) : Function :=
  mkFunction (fn_Name f) (fn_Sig f) (fn_Code f ++ [inst]) (fn_Stacksize f) (fn_CalleeSaveRegs f)
    (fn_UsesFramePtr f).

(** [Function.Labels] *)
Definition Labels (f : Function) : list Label :=
  (foldl (fun acc inst =>
      match inst with
      | Mlabel l => add_seen acc l
      | _ => acc
      end) (∅, []) (fn_Code f)).2.

(** [Function.ReferencedLabels] *)
Definition ReferencedLabels (f : Function) : list Label :=
  (foldl (fun acc inst =>
      match inst with
      | Mgoto l => add_seen acc l
      | Mcond _ _ l => add_seen acc l
      | Mjumptable _ ls => foldl add_seen acc ls
      | _ => acc
      end) (∅, []) (fn_Code f)).2.

(** The labels an instruction defines, and those it jumps to. *)
Definition inst_label (i : Instruction) : option Label :=
  match i with Mlabel l => Some l | _ => None end.

Definition inst_targets (i : Instruction) : list Label :=
  match i with
  | Mgoto l => [l]
  | Mcond _ _ l => [l]
  | Mjumptable _ ls => ls
  | _ => []
  end.

(** Appending a list of instructions, one after the other. *)
Lemma foldl_Append f insts :
  foldl Append f insts =
    mkFunction (fn_Name f) (fn_Sig f) (fn_Code f ++ insts) (fn_Stacksize f) (fn_CalleeSaveRegs f)
      (fn_UsesFramePtr f).
Proof.
  revert f. induction insts as [|i insts IH]; intros f; cbn.
  - rewrite app_nil_r. by destruct f.
  - rewrite IH. cbn. by rewrite <- app_assoc.
Qed.

(** Both enumerations fold [add_seen] over the labels of the instructions. *)
Lemma mach_Labels_fold f : Labels f = (foldl add_seen (∅, []) (omap inst_label (fn_Code f))).2.
Proof.
  unfold Labels. generalize (∅ : gset Z, [] : list Label) as acc.
  induction (fn_Code f) as [|i c IH]; intros acc; [done|].
  cbn [foldl]. rewrite IH. by destruct i.
Qed.

Lemma mach_ReferencedLabels_fold f :
  ReferencedLabels f = (foldl add_seen (∅, []) (fn_Code f ≫= inst_targets)).2.
Proof.
  unfold ReferencedLabels. generalize (∅ : gset Z, [] : list Label) as acc.
  induction (fn_Code f) as [|i c IH]; intros acc; [done|].
  cbn [foldl]. rewrite IH, bind_cons, foldl_app. by destruct i.
Qed.
