(* ===== verification/Layout.v ===== *)
(** The stack frame of a function ([src/pkg/stacking/layout.go]) and the
    translation of abstract slots to offsets from the frame pointer
    ([src/pkg/stacking/slots.go]). Offsets and sizes are Go [int64]s. *)

From S2P Require Import Prelude Target.
From S2P Require Import Linear StackInfo Mach.

Definition pointerSize : Z := 8.

Record FrameLayout := mkFrameLayout {
  CalleeSaveSize : Z;
  fl_LocalSize : Z;
  fl_OutgoingSize : Z;
  CalleeSaveOffset : Z;
  LocalOffset : Z;
  OutgoingOffset : Z;
  fl_TotalSize : Z;
  UseFramePointer : bool
}.

(** [alignUp] *)
Definition alignUp (n align : Z) : Z :=
  if align =? 0 then n
  else i64 (Z.quot (i64 (i64 (n + align) - 1)) align * align).

(** [collectStackInfo] repeats the scan of the linearization pass,
    [CollectStackInfo] of [src/pkg/linearize/stack.go], word for word. *)
Definition collectStackInfo (fn : Linear.Function) : StackInfo := CollectStackInfo fn.

(** [ComputeLayout] *)
Definition ComputeLayout (fn : Linear.Function) (calleeSaveRegs : Z) : FrameLayout :=
  let info := collectStackInfo fn in
  let numRegs := if Z.rem calleeSaveRegs 2 =? 0 then calleeSaveRegs else i64 (calleeSaveRegs + 1) in
  let calleeSaveSize := i64 (numRegs * pointerSize) in
  let localSize := alignUp (LocalSize info) 8 in
  let outgoingSize := alignUp (OutgoingSize info) 8 in
  let localOffset := i64 (i64 (- calleeSaveSize) - localSize) in
  let outgoingOffset := i64 (i64 (i64 (- calleeSaveSize) - localSize) - outgoingSize) in
  let frameBody := i64 (i64 (calleeSaveSize + localSize) + outgoingSize) in
  let frameBody := alignUp frameBody stackAlignment in
  mkFrameLayout calleeSaveSize localSize outgoingSize (-8) localOffset outgoingOffset
    (i64 (frameBody + 16)) true.

(** [LocalSlotOffset] *)
Definition LocalSlotOffset (l : FrameLayout) (slotOffset : Z) : Z := i64 (LocalOffset l + slotOffset).

(** [OutgoingSlotOffset] *)
Definition OutgoingSlotOffset (l : FrameLayout) (slotOffset : Z) : Z :=
  let fpOffset := i64 (fl_TotalSize l - 16) in
  i64 (i64 (- fpOffset) + slotOffset).

(** [IncomingSlotOffset] *)
Definition IncomingSlotOffset (l : FrameLayout) (slotOffset : Z) : Z := i64 (16 + slotOffset).

(** [SlotTranslator.TranslateSlotOffset] *)
Definition TranslateSlotOffset (l : FrameLayout) (slot : SlotKind) (ofs : Z) : Z :=
  match slot with
  | SlotLocal => LocalSlotOffset l ofs
  | SlotIncoming => IncomingSlotOffset l ofs
  | SlotOutgoing => OutgoingSlotOffset l ofs
  end.

(** [SlotTranslator.TranslateGetstack] *)
Definition TranslateGetstack (l : FrameLayout) (slot : SlotKind) (ofs : Z) (ty : Typ) (dest : MReg)
    : Mach.Instruction :=
  match slot with
  | SlotLocal => Mgetstack (LocalSlotOffset l ofs) ty dest
  | SlotIncoming => Mgetparam (IncomingSlotOffset l ofs) ty dest
  | SlotOutgoing => Mgetstack (OutgoingSlotOffset l ofs) ty dest
  end.

(** [SlotTranslator.TranslateSetstack] *)
Definition TranslateSetstack (l : FrameLayout) (src : MReg) (slot : SlotKind) (ofs : Z) (ty : Typ)
    : Mach.Instruction :=
  let ofs' :=
    match slot with
    | SlotLocal => LocalSlotOffset l ofs
    | SlotIncoming => IncomingSlotOffset l ofs
    | SlotOutgoing => OutgoingSlotOffset l ofs
    end in
  Msetstack src ofs' ty.

(** ** Facts *)

(** Without overflow, [alignUp] rounds up to the next multiple. *)
Lemma alignUp_spec n align :
  0 <= n -> 0 < align -> n + align < 2 ^ 63 ->
  alignUp n align mod align = 0 /\ n <= alignUp n align < n + align.
Proof.
  intros Hn Ha Hlt. unfold alignUp. destruct (Z.eqb_spec align 0) as [|_]; [lia|].
  rewrite (i64_id (n + align)) by (unfold in_i64; lia).
  rewrite (i64_id (n + align - 1)) by (unfold in_i64; lia).
  rewrite Z.quot_div_nonneg by lia.
  pose proof (Z.div_mod (n + align - 1) align ltac:(lia)) as Hdm.
  pose proof (Z.mod_pos_bound (n + align - 1) align Ha) as Hmod.
  rewrite i64_id by (unfold in_i64; lia). split; [by apply Z.mod_mul; lia|lia].
Qed.

Lemma alignUp_mult n align : 0 <= n -> 0 < align -> n + align < 2 ^ 63 -> n mod align = 0 ->
  alignUp n align = n.
Proof.
  intros Hn Ha Hlt Hm. destruct (alignUp_spec n align Hn Ha Hlt) as [Hm' Hb].
  apply Z.mod_divide in Hm as [k Hk]; [|lia]. apply Z.mod_divide in Hm' as [k' Hk']; [|lia].
  rewrite Hk' in *. subst n. f_equal. nia.
Qed.

(** The layout of a function whose sections do not overflow. *)
Section Spec.
  Context (fn : Linear.Function) (regs : Z).
Let info := collectStackInfo fn.
Let l := ComputeLayout fn regs.

  Hypothesis regs_even : regs mod 2 = 0.
  Hypothesis regs_nonneg : 0 <= regs.
  Hypothesis no_overflow : 8 * regs + LocalSize info + OutgoingSize info + 64 < 2 ^ 63.

Lemma info_nonneg : 0 <= LocalSize info /\ 0 <= OutgoingSize info.
Proof using.
  destruct (CollectStackInfo_bound fn SlotLocal) as [Hl _].
  destruct (CollectStackInfo_bound fn SlotOutgoing) as [Ho _]. done.
Qed.

Lemma ComputeLayout_spec :
  CalleeSaveSize l = 8 * regs /\
  fl_LocalSize l mod 8 = 0 /\ LocalSize info <= fl_LocalSize l < LocalSize info + 8 /\
  fl_OutgoingSize l mod 8 = 0 /\ OutgoingSize info <= fl_OutgoingSize l < OutgoingSize info + 8 /\
  LocalOffset l = - CalleeSaveSize l - fl_LocalSize l /\
  OutgoingOffset l = LocalOffset l - fl_OutgoingSize l /\
  fl_TotalSize l mod 16 = 0 /\
  CalleeSaveSize l + fl_LocalSize l + fl_OutgoingSize l + 16 <= fl_TotalSize l
    < CalleeSaveSize l + fl_LocalSize l + fl_OutgoingSize l + 32.
Proof using regs_even regs_nonneg no_overflow.
  destruct info_nonneg as [Hl Ho].
  destruct (alignUp_spec (LocalSize info) 8 Hl ltac:(lia) ltac:(lia)) as [Hlm Hlb].
  destruct (alignUp_spec (OutgoingSize info) 8 Ho ltac:(lia) ltac:(lia)) as [Hom Hob].
  unfold l, ComputeLayout. fold info.
  cbn [CalleeSaveSize fl_LocalSize fl_OutgoingSize LocalOffset OutgoingOffset fl_TotalSize].
  rewrite Z.rem_mod_nonneg, regs_even by lia. rewrite Z.eqb_refl. unfold pointerSize.
  rewrite (i64_id (regs * 8)) by (unfold in_i64; lia).
  set (la := alignUp (LocalSize info) 8) in *. set (oa := alignUp (OutgoingSize info) 8) in *.
  rewrite (i64_id (- (regs * 8))) by (unfold in_i64; lia).
  rewrite (i64_id (- (regs * 8) - la)) by (unfold in_i64; lia).
  rewrite (i64_id (- (regs * 8) - la - oa)) by (unfold in_i64; lia).
  rewrite (i64_id (regs * 8 + la)), (i64_id (regs * 8 + la + oa)) by (unfold in_i64; lia).
  destruct (alignUp_spec (regs * 8 + la + oa) 16 ltac:(lia) ltac:(lia) ltac:(lia)) as [Htm Htb].
  unfold stackAlignment. set (ta := alignUp _ 16) in *.
  rewrite i64_id by (unfold in_i64; lia).
  repeat split; try lia; try done.
  rewrite Z.add_mod, Htm by lia. done.
Qed.
End Spec.
