(* ===== verification/Frame.v ===== *)
(** What a function does when it is entered and left: the callee-saved
    registers it must preserve ([src/pkg/stacking/calleesave.go]), and the
    prologue, the epilogue and the copies of the parameters
    ([src/pkg/stacking/prolog.go]). *)

From S2P Require Import Prelude Target.
From S2P Require Import Linear Mach Layout ParMove.
From S2P Require Import ConvertCall.

(** ** Callee-saved registers *)

Definition CalleeSaveRegs : list MReg := X <$> [19; 20; 21; 22; 23; 24; 25; 26; 27; 28].
Definition CalleeSaveFloatRegs : list MReg := D <$> [8; 9; 10; 11; 12; 13; 14; 15].

(** [IsCalleeSaved] *)
Definition IsCalleeSaved (reg : MReg) : bool :=
  if (X19 <=? reg) && (reg <=? X28) then true
  else if (D8 <=? reg) && (reg <=? D15) then true
  else false.

(** [if r, ok := loc.(linear.R); ok { used[r.Reg] = true }] *)
Definition use_loc (used : gmap Z bool) (loc : Loc) : gmap Z bool :=
  match loc with Target.R r => <[r := true]> used | _ => used end.

(** [collectRegsFromInst] *)
Definition collectRegsFromInst (used : gmap Z bool) (inst : Linear.Instruction) : gmap Z bool :=
  match inst with
  | Linear.Lgetstack _ _ _ dest => <[dest := true]> used
  | Linear.Lsetstack src _ _ _ => <[src := true]> used
  | Linear.Lop _ args dest => use_loc (foldl use_loc used args) dest
  | Linear.Lload _ _ args dest => use_loc (foldl use_loc used args) dest
  | Linear.Lstore _ _ args src => use_loc (foldl use_loc used args) src
  | Linear.Lcond _ args _ => foldl use_loc used args
  | Linear.Ljumptable arg _ => use_loc used arg
  | _ => used
  end.

(** The inner loop of [sortRegs]: [x] is [regs[i]], the list the elements
    after it; a smaller element is swapped into place. *)
Fixpoint sort_inner (x : MReg) (l : list MReg) : MReg * list MReg :=
  match l with
  | [] => (x, [])
  | y :: l =>
      if y <? x then let '(m, l') := sort_inner y l in (m, x :: l')
      else let '(m, l') := sort_inner x l in (m, y :: l')
  end.

(** [sortRegs]; the first argument counts the positions left. *)
Fixpoint sortRegs_loop (n : nat) (l : list MReg) : list MReg :=
  match n, l with
  | Datatypes.S n, x :: l => let '(m, l') := sort_inner x l in m :: sortRegs_loop n l'
  | _, _ => l
  end.

Definition sortRegs (l : list MReg) : list MReg := sortRegs_loop (length l) l.

(** [FindUsedCalleeSaveRegs]; the map of used registers is visited in any
    order. *)
Definition FindUsedCalleeSaveRegs `{RangeOrder} (fn : Linear.Function) : list MReg :=
  let used := foldl collectRegsFromInst ∅ (Linear.fn_Code fn) in
  sortRegs (filter (fun r => IsCalleeSaved r = true) (range 0 used).*1).

Record CalleeSaveInfo := mkCalleeSaveInfo {
  Regs : list MReg;
  SaveOffsets : list Z
}.

(** The loop of [ComputeCalleeSaveInfo]. *)
Fixpoint save_offsets (offset : Z) (regs : list MReg) : list Z :=
  match regs with
  | [] => []
  | _ :: regs => offset :: save_offsets (i64 (offset - 8)) regs
  end.

(** [ComputeCalleeSaveInfo] *)
Definition ComputeCalleeSaveInfo (layout : FrameLayout) (usedRegs : list MReg) : CalleeSaveInfo :=
  mkCalleeSaveInfo usedRegs (save_offsets (-8) usedRegs).

(** [PadToEven] *)
Definition PadToEven (regs : list MReg) : list MReg :=
  if (length regs mod 2 =? 0)%nat then regs else regs ++ [regs !!! (length regs - 1)%nat].

(** ** Prologue and epilogue *)

Definition FP : MReg := X29.
Definition LR : MReg := X30.

(** The loop that saves the callee-saved registers, two at a time. *)
Definition prologue_saves (calleeSave : CalleeSaveInfo) : list Mach.Instruction :=
  let regs := Regs calleeSave in
  seq 0 (length regs / 2) ≫= fun j =>
    let i := (2 * j)%nat in
    [Msetstack (regs !!! i) (SaveOffsets calleeSave !!! i) Tlong;
     Msetstack (regs !!! (i + 1)%nat) (SaveOffsets calleeSave !!! (i + 1)%nat) Tlong].

(** [GeneratePrologue] *)
Definition GeneratePrologue (layout : FrameLayout) (calleeSave : CalleeSaveInfo)
    : list Mach.Instruction :=
  let fpSaveOffset := i64 (fl_TotalSize layout - 16) in
  (if 0 <? fl_TotalSize layout then [Mop (Oaddlimm (i64 (- fl_TotalSize layout))) [] FP] else []) ++
  [Msetstack FP fpSaveOffset Tlong; Msetstack LR (i64 (fpSaveOffset + 8)) Tlong;
   Mop (Oaddlimm fpSaveOffset) [] FP] ++
  prologue_saves calleeSave.

(** The loop that restores the callee-saved registers, the last pair first. *)
Definition epilogue_restores (calleeSave : CalleeSaveInfo) : list Mach.Instruction :=
  let regs := Regs calleeSave in
  seq 0 (length regs / 2) ≫= fun j =>
    let i := (length regs - 2 - 2 * j)%nat in
    Mgetstack (SaveOffsets calleeSave !!! i) Tlong (regs !!! i) ::
    (if (i + 1 <? length regs)%nat
     then [Mgetstack (SaveOffsets calleeSave !!! (i + 1)%nat) Tlong (regs !!! (i + 1)%nat)]
     else []).

(** [GenerateEpilogue] *)
Definition GenerateEpilogue (layout : FrameLayout) (calleeSave : CalleeSaveInfo)
    : list Mach.Instruction :=
  let fpSaveOffset := i64 (fl_TotalSize layout - 16) in
  epilogue_restores calleeSave ++
  [Mgetstack fpSaveOffset Tlong FP; Mgetstack (i64 (fpSaveOffset + 8)) Tlong LR] ++
  (if 0 <? fl_TotalSize layout then [Mop (Oaddlimm (fl_TotalSize layout)) [] FP] else []) ++
  [Mreturn].

(** [GenerateTailEpilogue] *)
Definition GenerateTailEpilogue (layout : FrameLayout) (calleeSave : CalleeSaveInfo)
    : list Mach.Instruction :=
  let epilogue := GenerateEpilogue layout calleeSave in
  take (length epilogue - 1) epilogue.

(** [IsLeafFunction] *)
Fixpoint IsLeafFunction (code : list Mach.Instruction) : bool :=
  match code with
  | [] => true
  | Mcall _ _ :: _ | Mtailcall _ _ :: _ => false
  | _ :: code => IsLeafFunction code
  end.

(** ** Parameters *)

Definition paramCopyTempReg : MReg := X8.

(** The loop of [GenerateParamCopies] over the parameters: the moves between
    registers and the stores of spilled parameters. [intArgRegs] is the list
    of [src/pkg/linearize/linearize.go]; [prolog.go] has a copy. *)
Fixpoint param_moves (layout : FrameLayout) (i : nat) (params : list Loc)
    (acc : gmap Z MReg * list Mach.Instruction) : gmap Z MReg * list Mach.Instruction :=
  match params with
  | [] => acc
  | paramLoc :: params =>
      match intArgRegs !! i with
      | None => acc
      | Some incomingReg =>
          param_moves layout (i + 1) params
            match paramLoc with
            | Target.R r => if decide (r = incomingReg) then acc else (<[r := incomingReg]> acc.1, acc.2)
            | Target.S slot ofs ty =>
                (acc.1, acc.2 ++ [Msetstack incomingReg (TranslateSlotOffset layout slot ofs) ty])
            | NilLoc => acc
            end
      end
  end.

Definition copy_inst (mv : MReg * MReg) : Mach.Instruction := Mop Omove [mv.1] mv.2.

(** [GenerateParamCopies]; [None] when the fuel for the loop over the moves
    runs out. *)
Definition GenerateParamCopies `{RangeOrder} (params : list Loc) (layout : FrameLayout)
    : option (list Mach.Instruction) :=
  let '(moves, stackMoves) := param_moves layout 0 params (∅, []) in
  ms ← resolve Some id paramCopyTempReg (resolve_fuel moves) 0 moves ∅ [];
  Some (stackMoves ++ (copy_inst <$> ms)).
