(* ===== verification/Stacking.v ===== *)
(** From Linear to Mach ([src/pkg/stacking/transform.go]): operands that are
    stack slots go through the temporaries X16 and X17, slots become offsets
    from the frame pointer, and the prologue, the parameter copies and the
    epilogues are inserted. A Go panic is [None]. *)

From S2P Require Import Prelude Target.
From S2P Require Import Linear Mach Layout Frame.

Definition stackingTempRegs : list MReg := [X16; X17].

Section Transformer.
  (** [transformer.layout] and [transformer.calleeSave]. *)
  Context (layout : FrameLayout) (calleeSave : CalleeSaveInfo).

(** [ensureInReg]: the register, and the load to append to [result]. *)
Definition ensureInReg (loc : Loc) (tempIdx : nat) : option (MReg * list Mach.Instruction) :=
  match loc with
  | Target.R r => Some (r, [])
  | Target.S slot ofs ty =>
      tempReg ← stackingTempRegs !! tempIdx;
      Some (tempReg, [TranslateGetstack layout slot ofs ty tempReg])
  | NilLoc => None
  end.

(** [locsToRegsWithSpill] *)
Fixpoint locsToRegsWithSpill (locs : list Loc) (tempIdx : nat)
    : option (list MReg * list Mach.Instruction) :=
  match locs with
  | [] => Some ([], [])
  | loc :: locs =>
      '(r, code) ← ensureInReg loc tempIdx;
      '(rs, code') ← locsToRegsWithSpill locs (tempIdx + 1);
      Some (r :: rs, code ++ code')
  end.

(** [locToReg] *)
Definition locToReg (loc : Loc) : option MReg :=
  match loc with Target.R r => Some r | _ => None end.

(** [locsToRegs] *)
Fixpoint locsToRegs (locs : list Loc) : option (list MReg) :=
  match locs with
  | [] => Some []
  | loc :: locs => r ← locToReg loc; rs ← locsToRegs locs; Some (r :: rs)
  end.

(** [transformFunRef] *)
Definition transformFunRef (fn : Linear.FunRef) : option Mach.FunRef :=
  match fn with
  | Linear.FunReg loc => r ← locToReg loc; Some (Mach.FunReg r)
  | Linear.FunSymbol s => Some (Mach.FunSymbol s)
  end.

(** The loop of [transformLop] over the arguments: a temporary is taken for
    every stack slot. *)
Fixpoint lop_args (args : list Loc) (tempIdx : nat) : option (list MReg * list Mach.Instruction) :=
  match args with
  | [] => Some ([], [])
  | Target.R r :: args =>
      '(rs, code) ← lop_args args tempIdx; Some (r :: rs, code)
  | Target.S slot ofs ty :: args =>
      tempReg ← stackingTempRegs !! tempIdx;
      '(rs, code) ← lop_args args (tempIdx + 1);
      Some (tempReg :: rs, TranslateGetstack layout slot ofs ty tempReg :: code)
  | NilLoc :: _ => None
  end.

(** The register an instruction computes its result in, and the store that
    follows when the destination is a slot. *)
Definition dest_reg (dest : Loc) : option (MReg * list Mach.Instruction) :=
  match dest with
  | Target.R r => Some (r, [])
  | Target.S slot ofs ty => Some (X16, [TranslateSetstack layout X16 slot ofs ty])
  | NilLoc => None
  end.

(** [transformLop] *)
Definition transformLop (op : Operation) (args : list Loc) (dest : Loc)
    : option (list Mach.Instruction) :=
  '(rs, code) ← lop_args args 0;
  match dest with
  | NilLoc => Some (code ++ [Mop op rs 0])
  | _ => '(d, post) ← dest_reg dest; Some (code ++ [Mop op rs d] ++ post)
  end.

(** [transformLload] *)
Definition transformLload (chunk : Chunk) (addr : AddressingMode) (args : list Loc) (dest : Loc)
    : option (list Mach.Instruction) :=
  '(rs, code) ← locsToRegsWithSpill args 0;
  '(d, post) ← dest_reg dest;
  Some (code ++ [Mload chunk addr rs d] ++ post).

(** [transformLstore] *)
Definition transformLstore (chunk : Chunk) (addr : AddressingMode) (args : list Loc) (src : Loc)
    : option (list Mach.Instruction) :=
  '(rs, code) ← locsToRegsWithSpill args 0;
  '(s, code') ← ensureInReg src (length args);
  Some (code ++ code' ++ [Mstore chunk addr rs s]).

(** [transformLcond] *)
Definition transformLcond (cond : ConditionCode) (args : list Loc) (ifso : Z)
    : option (list Mach.Instruction) :=
  '(rs, code) ← locsToRegsWithSpill args 0; Some (code ++ [Mcond cond rs ifso]).

(** [transformLjumptable] *)
Definition transformLjumptable (arg : Loc) (targets : list Z) : option (list Mach.Instruction) :=
  '(r, code) ← ensureInReg arg 0; Some (code ++ [Mjumptable r targets]).

(** [transformLbuiltin] *)
Definition transformLbuiltin (b : string) (args : list Loc) (dest : option Loc)
    : option (list Mach.Instruction) :=
  '(rs, code) ← locsToRegsWithSpill args 0;
  match dest with
  | None => Some (code ++ [Mbuiltin b rs None])
  | Some loc => '(d, post) ← dest_reg loc; Some (code ++ [Mbuiltin b rs (Some d)] ++ post)
  end.

(** [transformInst] *)
Definition transformInst (inst : Linear.Instruction) : option (list Mach.Instruction) :=
  match inst with
  | Linear.Lgetstack slot ofs ty dest => Some [TranslateGetstack layout slot ofs ty dest]
  | Linear.Lsetstack src slot ofs ty => Some [TranslateSetstack layout src slot ofs ty]
  | Linear.Lop op args dest => transformLop op args dest
  | Linear.Lload chunk addr args dest => transformLload chunk addr args dest
  | Linear.Lstore chunk addr args src => transformLstore chunk addr args src
  | Linear.Lcall sig fn => fn' ← transformFunRef fn; Some [Mcall sig fn']
  | Linear.Ltailcall sig fn =>
      fn' ← transformFunRef fn;
      Some (GenerateTailEpilogue layout calleeSave ++ [Mtailcall sig fn'])
  | Linear.Lbuiltin b args dest => transformLbuiltin b args dest
  | Linear.Llabel l => Some [Mlabel l]
  | Linear.Lgoto l => Some [Mgoto l]
  | Linear.Lcond cond args ifso => transformLcond cond args ifso
  | Linear.Ljumptable arg targets => transformLjumptable arg targets
  | Linear.Lreturn => Some (GenerateEpilogue layout calleeSave)
  end.

(** The loop of [transform] over the body. *)
Fixpoint transform_body (code : list Linear.Instruction) : option (list Mach.Instruction) :=
  match code with
  | [] => Some []
  | inst :: code =>
      insts ← transformInst inst; rest ← transform_body code; Some (insts ++ rest)
  end.
End Transformer.

(** The frame [transform] gives a function. *)
Definition used_regs `{RangeOrder} (fn : Linear.Function) : list MReg :=
  PadToEven (FindUsedCalleeSaveRegs fn).
Definition fn_layout `{RangeOrder} (fn : Linear.Function) : FrameLayout :=
  ComputeLayout fn (Z.of_nat (length (used_regs fn))).
Definition fn_calleeSave `{RangeOrder} (fn : Linear.Function) : CalleeSaveInfo :=
  ComputeCalleeSaveInfo (fn_layout fn) (used_regs fn).

(** [transform], and [Transform] which calls it. *)
Definition Transform `{RangeOrder} (fn : Linear.Function) : option Mach.Function :=
  let prologue := GeneratePrologue (fn_layout fn) (fn_calleeSave fn) in
  paramCopies ← GenerateParamCopies (Linear.fn_Params fn) (fn_layout fn);
  body ← transform_body (fn_layout fn) (fn_calleeSave fn) (Linear.fn_Code fn);
  let machFn := Mach.NewFunction (Linear.fn_Name fn) (Linear.fn_Sig fn) in
  let machFn := Mach.mkFunction (Mach.fn_Name machFn) (Mach.fn_Sig machFn) (Mach.fn_Code machFn)
                  (fl_TotalSize (fn_layout fn)) (used_regs fn) (UseFramePointer (fn_layout fn)) in
  Some (foldl Mach.Append (foldl Mach.Append (foldl Mach.Append machFn prologue) paramCopies) body).

(** [TransformProgram]; the first function that panics stops the compiler. *)
Definition TransformProgram `{RangeOrder} (prog : Linear.Program) : option Mach.Program :=
  fns ← mapM Transform (Linear.Functions prog);
  Some (Mach.mkProgram
    ((fun g => Mach.mkGlobVar (Linear.gv_Name g) (Linear.gv_Size g) (Linear.gv_Init g)
                 (Linear.gv_ReadOnly g)) <$> Linear.Globals prog) fns).
