(* ===== verification/MachSem.v ===== *)
(** Execution of Mach functions. Frames are set up and torn down by the
    assembly generator ([src/pkg/asmgen/transform.go]), which recognises the
    frame instructions of the prologue and of the epilogues by their shape,
    drops them, and emits its own: the recognition is part of the model, and
    the semantics runs the code that is left. *)

From S2P Require Import Prelude Target.
From S2P Require Import Linear Mach Semantics Layout StackInfo Frame.

(** ** The frame instructions the assembly generator recognises *)

Definition is_Mop (i : Mach.Instruction) : bool := match i with Mop _ _ _ => true | _ => false end.
Definition is_Mgetstack (i : Mach.Instruction) : bool :=
  match i with Mgetstack _ _ _ => true | _ => false end.
Definition is_Msetstack (i : Mach.Instruction) : bool :=
  match i with Msetstack _ _ _ => true | _ => false end.
Definition is_Mreturn (i : Mach.Instruction) : bool := match i with Mreturn => true | _ => false end.

(** [countPrologueInstructions] *)
Definition countPrologueInstructions (code : list Mach.Instruction) : nat :=
  match code with
  | c0 :: c1 :: c2 :: c3 :: _ =>
      if is_Mop c0 then
        if is_Msetstack c1 then
          if is_Msetstack c2 then
            if is_Mop c3 then 4%nat else 3%nat
          else 2%nat
        else 1%nat
      else 0%nat
  | _ => 0%nat
  end.

(** [isEpilogueStart], at the start of the code that is left. *)
Definition isEpilogueStart (code : list Mach.Instruction) : bool :=
  match code with
  | c0 :: c1 :: c2 :: c3 :: _ => is_Mgetstack c0 && is_Mgetstack c1 && is_Mop c2 && is_Mreturn c3
  | _ => false
  end.

(** [countEpilogueInstructions] *)
Definition countEpilogueInstructions (code : list Mach.Instruction) : nat :=
  if isEpilogueStart code then 4%nat else 0%nat.

(** The loop of [transformFunction]: the instructions it translates. An
    epilogue is represented by its last instruction, [Mreturn]. *)
Fixpoint emitted (fuel : nat) (code : list Mach.Instruction) : list Mach.Instruction :=
  match fuel with
  | O => []
  | Datatypes.S fuel =>
      match code with
      | [] => []
      | inst :: _ =>
          if isEpilogueStart code then
            let k := (countEpilogueInstructions code - 1)%nat in
            match drop k code with
            | [] => []
            | inst' :: rest => inst' :: emitted fuel rest
            end
          else inst :: emitted fuel (drop 1 code)
      end
  end.

(** What is left of a function, and how much of it the prologue takes: the
    fuel is the length of the code, of which every iteration consumes some. *)
Definition body_code (code : list Mach.Instruction) : list Mach.Instruction :=
  let rest := drop (countPrologueInstructions code) code in emitted (length rest) rest.

(** ** Frames *)

(** The memory of the current frame and the incoming arguments, addressed from
    the frame pointer. What a read returns that overlaps several writes is
    left open. *)
Class FrameMemory (F V : Type) := {
  fget : F -> Z -> Typ -> V;
  fset : F -> Z -> Typ -> V -> F;
  fget_same : forall f o t v, fget (fset f o t v) o t = v;
  fget_other : forall f o t v o' t',
    o + slotSize t <= o' \/ o' + slotSize t' <= o -> fget (fset f o t v) o' t' = fget f o' t'
}.

(** A frame as a function, for examples. *)
Definition fun_frame {V} : FrameMemory (Z -> Typ -> V) V.
Proof.
  refine {| fget f := f;
            fset f o t v := fun o' t' => if decide (o = o' /\ t = t') then v else f o' t' |}.
  - intros f o t v. by rewrite decide_True.
  - intros f o t v o' t' Hd. rewrite decide_False; [done|]. intros [-> ->].
    pose proof (slotSize_pos t'). lia.
Defined.

(** Registers the back end keeps for itself: the temporaries of this pass and
    the linkage registers. *)
Definition reserved : list MReg := [X16; X17; FP; LR].

(** What callers and callees agree on. A callee sees the registers and its
    stack arguments, the slots [call_slots]; it may change both, but keeps the
    callee-saved registers. *)
Class CallConvention (V M : Type) `{TargetSemantics V M} := {
  call_slots : Sig -> list (Z * Typ);
  eval_call_visible : forall sig f (ls1 ls2 : Loc -> V) m,
    (forall r, r ∉ reserved -> ls1 (Target.R r) = ls2 (Target.R r)) ->
    (forall s, s ∈ call_slots sig ->
       ls1 (Target.S SlotOutgoing s.1 s.2) = ls2 (Target.S SlotOutgoing s.1 s.2)) ->
    match eval_call sig f ls1 m, eval_call sig f ls2 m with
    | Some (ls1', m1), Some (ls2', m2) =>
        m1 = m2 /\
        (forall r, r ∉ reserved -> ls1' (Target.R r) = ls2' (Target.R r)) /\
        (forall s, s ∈ call_slots sig ->
           ls1' (Target.S SlotOutgoing s.1 s.2) = ls2' (Target.S SlotOutgoing s.1 s.2))
    | None, None => True
    | _, _ => False
    end;
  eval_call_slots : forall sig f (ls : Loc -> V) m ls' m',
    eval_call sig f ls m = Some (ls', m') ->
    forall k o t, (k = SlotOutgoing -> (o, t) ∉ call_slots sig) ->
    ls' (Target.S k o t) = ls (Target.S k o t);
  eval_call_saved : forall sig f (ls : Loc -> V) m ls' m',
    eval_call sig f ls m = Some (ls', m') ->
    forall r, IsCalleeSaved r = true -> ls' (Target.R r) = ls (Target.R r)
}.

(** ** Mach *)

Section Execution.
  Context {V M F : Type} `{CallConvention V M} `{FrameMemory F V}.
  Implicit Types (rf : MReg -> V) (fr : F) (m : M).

Definition mach_callee rf (f : Mach.FunRef) : callee V :=
  match f with
  | Mach.FunReg r => ToAddress (rf r)
  | Mach.FunSymbol s => ToSymbol s
  end.

  (** The size of the frame: the stack pointer is [size - 16] bytes below the
      frame pointer. *)
  Context (size : Z).

(** The locations a callee sees: the outgoing slots start at the stack
    pointer. *)
Definition callee_locs rf fr (l : Loc) : V :=
  match l with
  | Target.R r => rf r
  | Target.S _ o t => fget fr (o - (size - 16)) t
  | NilLoc => rf 0
  end.

(** What the callee leaves in its stack arguments. *)
Definition store_args (slots : list (Z * Typ)) (ls : Loc -> V) fr : F :=
  foldl (fun fr s => fset fr (s.1 - (size - 16)) s.2 (ls (Target.S SlotOutgoing s.1 s.2))) fr slots.

(** An instruction that does not transfer control within the function. *)
Definition mach_exec (i : Mach.Instruction) rf fr m : option ((MReg -> V) * F * M) :=
  match i with
  | Mgetstack o t d => Some (<[d := fget fr o t]> rf, fr, m)
  | Mgetparam o t d => Some (<[d := fget fr o t]> rf, fr, m)
  | Msetstack s o t => Some (rf, fset fr o t (rf s), m)
  | Mop op args d => v ← eval_op op (rf <$> args) m; Some (<[d := v]> rf, fr, m)
  | Mload chunk addr args d => v ← eval_load chunk addr (rf <$> args) m; Some (<[d := v]> rf, fr, m)
  | Mstore chunk addr args s =>
      m' ← eval_store chunk addr (rf <$> args) (rf s) m; Some (rf, fr, m')
  | Mcall sig f =>
      '(ls', m') ← eval_call sig (mach_callee rf f) (callee_locs rf fr) m;
      Some (fun r => ls' (Target.R r), store_args (call_slots sig) ls' fr, m')
  | Mbuiltin b args d =>
      '(v, m') ← eval_builtin b (rf <$> args) m;
      Some (match d with Some d => <[d := v]> rf | None => rf end, fr, m')
  | Mlabel _ => Some (rf, fr, m)
  | _ => None
  end.

(** The code that follows a label. *)
Fixpoint find_mlabel (l : Z) (code : list Mach.Instruction) : option (list Mach.Instruction) :=
  match code with
  | [] => None
  | Mlabel l' :: rest => if decide (l = l') then Some rest else find_mlabel l rest
  | _ :: rest => find_mlabel l rest
  end.

(** The state: the code still to execute, the registers, the frame and the
    memory. A function hands over its result and its registers. *)
Definition mach_state : Type := list Mach.Instruction * (MReg -> V) * F * M.
Definition mach_result : Type := result V M * (MReg -> V).

Definition mach_jump (code : list Mach.Instruction) (l : Z) rf fr m
    : outcome mach_state mach_result :=
  match find_mlabel l code with
  | Some rest => Next (rest, rf, fr, m)
  | None => Stuck
  end.

(** [Mreturn] stands for [generateEpilogue]: the frame pointer and the link
    register are reloaded from the top of the frame. *)
Definition mach_step (code : list Mach.Instruction) (s : mach_state)
    : outcome mach_state mach_result :=
  let '(pc, rf, fr, m) := s in
  match pc with
  | [] => Stuck
  | Mgoto l :: _ => mach_jump code l rf fr m
  | Mcond c args l :: rest =>
      match eval_cond c (rf <$> args) m with
      | Some true => mach_jump code l rf fr m
      | Some false => Next (rest, rf, fr, m)
      | None => Stuck
      end
  | Mjumptable arg targets :: _ =>
      match eval_index (rf arg) ≫= (fun k => targets !! k) with
      | Some l => mach_jump code l rf fr m
      | None => Stuck
      end
  | Mreturn :: _ =>
      Halt (Returned (rf X0) m, <[FP := fget fr 0 Tlong]> (<[LR := fget fr 8 Tlong]> rf))
  | Mtailcall sig f :: _ =>
      Halt (TailCalled sig (mach_callee rf f)
              (callee_locs rf fr <$> call_locs 8 (length (sig_Args sig))) m, rf)
  | i :: rest =>
      match mach_exec i rf fr m with
      | Some (rf', fr', m') => Next (rest, rf', fr', m')
      | None => Stuck
      end
  end.

(** [generatePrologue] saves the frame pointer and the link register at the
    top of the frame. *)
Definition mach_init (code : list Mach.Instruction) rf fr m : mach_state :=
  (code, rf, fset (fset fr 0 Tlong (rf FP)) 8 Tlong (rf LR), m).

(** Straight-line execution. *)
Fixpoint mach_exec_list (c : list Mach.Instruction) rf fr m : option ((MReg -> V) * F * M) :=
  match c with
  | [] => Some (rf, fr, m)
  | i :: rest => '(rf', fr', m') ← mach_exec i rf fr m; mach_exec_list rest rf' fr' m'
  end.

Lemma mach_exec_list_app c1 c2 rf fr m :
  mach_exec_list (c1 ++ c2) rf fr m =
    '(rf', fr', m') ← mach_exec_list c1 rf fr m; mach_exec_list c2 rf' fr' m'.
Proof.
  revert rf fr m. induction c1 as [|i c1 IH]; intros rf fr m; [done|]. cbn.
  destruct (mach_exec i rf fr m) as [[[rf' fr'] m']|]; [|done]. cbn. apply IH.
Qed.

(** Instructions that execute and fall through. *)
Definition mach_straight (i : Mach.Instruction) : bool :=
  match i with
  | Mgoto _ | Mcond _ _ _ | Mjumptable _ _ | Mreturn | Mtailcall _ _ => false
  | _ => true
  end.

Lemma mach_step_straight code i rest rf fr m :
  mach_straight i = true ->
  mach_step code (i :: rest, rf, fr, m) =
    match mach_exec i rf fr m with
    | Some (rf', fr', m') => Next (rest, rf', fr', m')
    | None => Stuck
    end.
Proof. by destruct i. Qed.

(** Straight-line code runs to its end, or gets stuck in it. *)
Lemma mach_straight_run code c rest rf fr m :
  forallb mach_straight c = true ->
  match mach_exec_list c rf fr m with
  | Some (rf', fr', m') =>
      rtc (steps_to (mach_step code)) (c ++ rest, rf, fr, m) (rest, rf', fr', m') /\
      (c <> [] -> tc (steps_to (mach_step code)) (c ++ rest, rf, fr, m) (rest, rf', fr', m'))
  | None => forall r, ~ terminates (mach_step code) (c ++ rest, rf, fr, m) r
  end.
Proof.
  revert rf fr m. induction c as [|i c IH]; intros rf fr m; [by split|].
  cbn [forallb mach_exec_list app]. intros [Hi Hc]%andb_prop.
  pose proof (mach_step_straight code i (c ++ rest) rf fr m Hi) as Hs.
  destruct (mach_exec i rf fr m) as [[[rf1 fr1] m1]|]; cbn.
  - specialize (IH rf1 fr1 m1 Hc).
    destruct (mach_exec_list c rf1 fr1 m1) as [[[rf2 fr2] m2]|].
    + destruct IH as [IH1 IH2].
      assert (Htc : tc (steps_to (mach_step code)) (i :: c ++ rest, rf, fr, m) (rest, rf2, fr2, m2)).
      { by eapply tc_rtc_r; [apply tc_once|]. }
      split; [by apply tc_rtc|done].
    + intros r Ht. apply (IH r). by apply (terminates_step _ _ _ _ Hs).
  - intros r Ht. by apply (terminates_stuck _ _ _ Hs) in Ht.
Qed.
End Execution.
