(* ===== verification/StackingCode.v ===== *)
(** The code the assembly generator emits for a function of the stacking pass:
    prologue and epilogues, and only they, are recognised and dropped.
    Facts on frames: the callee-saved registers are found and sorted, each has
    its save slot, and the areas of a frame do not overlap. *)

From S2P Require Import Prelude Target Linear Mach Layout Frame ParMove ConvertCall Semantics.
From S2P Require Import Stacking MachSem StackInfo.

(** ** Recognition of epilogues *)

Definition no_return (c : list Mach.Instruction) : Prop := forall i, i ∈ c -> is_Mreturn i = false.

Lemma no_return_app c1 c2 : no_return (c1 ++ c2) <-> no_return c1 /\ no_return c2.
Proof. unfold no_return. setoid_rewrite elem_of_app. naive_solver. Qed.

Lemma no_return_cons i c : no_return (i :: c) <-> is_Mreturn i = false /\ no_return c.
Proof. unfold no_return. setoid_rewrite elem_of_cons. naive_solver. Qed.

Lemma no_return_nil : no_return [].
Proof. intros i Hi. by apply not_elem_of_nil in Hi. Qed.

Lemma isEpilogueStart_false code :
  (forall i, code !! 3%nat = Some i -> is_Mreturn i = false) -> isEpilogueStart code = false.
Proof.
  intros Hi. destruct code as [|c0 [|c1 [|c2 [|c3 code]]]]; try done. cbn.
  rewrite (Hi c3) by done. by rewrite andb_false_r.
Qed.

(** Code without a return is emitted as it is. *)
Lemma emitted_no_return n c : no_return c -> (length c <= n)%nat -> emitted n c = c.
Proof.
  revert c. induction n as [|n IH]; intros [|i c] Hc Hn; cbn in Hn |- *; try done; [lia|].
  change (match c with | c1 :: c2 :: c3 :: _ => is_Mgetstack i && is_Mgetstack c1 && is_Mop c2 && is_Mreturn c3 | _ => false end)
    with (isEpilogueStart (i :: c)).
  rewrite isEpilogueStart_false.
  - apply no_return_cons in Hc as [_ Hc]. rewrite drop_0. f_equal. apply IH; [done|lia].
  - intros j Hj. apply Hc. by eapply list_elem_of_lookup_2.
Qed.

(** The four last instructions of an epilogue become one return. *)
Lemma emitted_epilogue n pre o1 t1 d1 o2 t2 d2 op args d rest :
  no_return pre ->
  (length pre + 4 + length rest <= n)%nat ->
  exists n', (length rest <= n')%nat /\
    emitted n (pre ++ Mgetstack o1 t1 d1 :: Mgetstack o2 t2 d2 :: Mop op args d :: Mreturn :: rest) =
      pre ++ Mreturn :: emitted n' rest.
Proof.
  revert pre. induction n as [|n IH]; intros pre Hpre Hn; [lia|].
  destruct pre as [|i pre].
  - exists n. split; [cbn in Hn; lia|done].
  - apply no_return_cons in Hpre as [Hi Hpre]. cbn in Hn.
    destruct (IH pre Hpre ltac:(lia)) as (n' & Hn' & E). exists n'. split; [done|].
    set (tail := Mgetstack o1 t1 d1 :: _) in *.
    change (emitted (Datatypes.S n) ((i :: pre) ++ tail)) with
      (if isEpilogueStart (i :: pre ++ tail) then
         match drop (countEpilogueInstructions (i :: pre ++ tail) - 1) (i :: pre ++ tail) with
         | [] => [] | inst' :: r => inst' :: emitted n r end
       else i :: emitted n (drop 1 (i :: pre ++ tail))).
    rewrite isEpilogueStart_false; [cbn [drop app]; rewrite drop_0; by f_equal|].
    intros j Hj. destruct pre as [|p1 [|p2 [|p3 pre]]]; unfold tail in Hj; cbn in Hj;
      try (by injection Hj as <-).
    injection Hj as <-. apply Hpre. set_solver.
Qed.

Section Code.
  Context (l : FrameLayout) (cs : CalleeSaveInfo).

(** What is emitted for an instruction of the source. *)
Definition tr_inst (i : Linear.Instruction) : option (list Mach.Instruction) :=
  match i with
  | Linear.Lreturn => Some (epilogue_restores cs ++ [Mreturn])
  | _ => transformInst l cs i
  end.

Fixpoint tr_body (code : list Linear.Instruction) : option (list Mach.Instruction) :=
  match code with
  | [] => Some []
  | i :: code => c ← tr_inst i; rest ← tr_body code; Some (c ++ rest)
  end.

Definition is_tailcall (i : Linear.Instruction) : bool :=
  match i with Linear.Ltailcall _ _ => true | _ => false end.

(** *** The shape of the code for one instruction *)

(** Loads and stores of slots around one main instruction. *)
Definition is_slot_access (i : Mach.Instruction) : bool :=
  match i with Mgetstack _ _ _ | Mgetparam _ _ _ | Msetstack _ _ _ => true | _ => false end.

Definition accesses (c : list Mach.Instruction) : Prop := forallb is_slot_access c = true.

Lemma accesses_app c1 c2 : accesses (c1 ++ c2) <-> accesses c1 /\ accesses c2.
Proof. unfold accesses. rewrite forallb_app, andb_true_iff. done. Qed.

Lemma accesses_no_return c : accesses c -> no_return c.
Proof.
  unfold accesses. rewrite forallb_forall. intros Hc i Hi%list_elem_of_In.
  specialize (Hc i Hi). by destruct i.
Qed.

Lemma accesses_straight c : accesses c -> forallb mach_straight c = true.
Proof.
  unfold accesses. rewrite !forallb_forall. intros Hc i Hi. specialize (Hc i Hi). by destruct i.
Qed.

Lemma getstack_access slot o t d : is_slot_access (TranslateGetstack l slot o t d) = true.
Proof. by destruct slot. Qed.

Lemma ensureInReg_accesses loc k r code : ensureInReg l loc k = Some (r, code) -> accesses code.
Proof.
  unfold ensureInReg. destruct loc as [r'|slot o t|]; [by intros [= <- <-]| |done].
  destruct (stackingTempRegs !! k); [|done]. intros [= <- <-].
  unfold accesses. cbn. by rewrite getstack_access.
Qed.

Lemma locsToRegs_accesses locs k rs code :
  locsToRegsWithSpill l locs k = Some (rs, code) -> accesses code.
Proof.
  revert k rs code. induction locs as [|loc locs IH]; intros k rs code; cbn; [by intros [= <- <-]|].
  destruct (ensureInReg l loc k) as [[r c1]|] eqn:E1; [|done]. cbn.
  destruct (locsToRegsWithSpill l locs (k + 1)) as [[rs' c2]|] eqn:E2; [|done]. cbn.
  intros [= <- <-]. apply accesses_app. split; [by eapply ensureInReg_accesses|by eapply IH].
Qed.

Lemma lop_args_accesses args k rs code : lop_args l args k = Some (rs, code) -> accesses code.
Proof.
  revert k rs code. induction args as [|[r|slot o t|] args IH]; intros k rs code; cbn;
    [by intros [= <- <-]| | |done].
  - destruct (lop_args l args k) as [[rs' c2]|] eqn:E2; [|done]. cbn. intros [= <- <-].
    by eapply IH.
  - destruct (stackingTempRegs !! k); [|done]. cbn.
    destruct (lop_args l args (k + 1)) as [[rs' c2]|] eqn:E2; [|done]. cbn. intros [= <- <-].
    unfold accesses. cbn. rewrite getstack_access. by eapply IH.
Qed.

Lemma dest_reg_accesses dest d post : dest_reg l dest = Some (d, post) -> accesses post.
Proof. destruct dest; cbn; [by intros [= <- <-]..|done]. Qed.

(** The main instruction is neither a return nor, but for [Llabel], a label. *)
Lemma transformInst_shape i c :
  transformInst l cs i = Some c -> i <> Linear.Lreturn -> is_tailcall i = false ->
  exists pre main post, c = pre ++ [main] ++ post /\ accesses pre /\ accesses post /\
    is_Mreturn main = false /\ Mach.inst_label main = Linear.inst_label i /\
    mach_straight main = is_straight i.
Proof.
  intros Hc Hr Ht. destruct i as [slot o t d|s slot o t|op args d|ch ad args d|ch ad args s|sig fn|sig fn
    |b args d|lb|lb|cd args lb|arg tg|]; try done; cbn in Hc.
  - injection Hc as <-. eexists [], _, []. split; [done|]. by destruct slot.
  - injection Hc as <-. eexists [], _, []. split; [done|]. by destruct slot.
  - unfold transformLop in Hc. destruct (lop_args l args 0) as [[rs pre]|] eqn:E; [|done]. cbn in Hc.
    apply lop_args_accesses in E. destruct d as [r|slot o t|]; cbn in Hc; injection Hc as <-;
      eexists pre, _, _; (split; [done|]); done.
  - unfold transformLload in Hc. destruct (locsToRegsWithSpill l args 0) as [[rs pre]|] eqn:E; [|done].
    cbn in Hc. apply locsToRegs_accesses in E.
    destruct (dest_reg l d) as [[r post]|] eqn:Ed; [|done]. apply dest_reg_accesses in Ed.
    injection Hc as <-. by eexists pre, _, post.
  - unfold transformLstore in Hc. destruct (locsToRegsWithSpill l args 0) as [[rs pre]|] eqn:E; [|done].
    cbn in Hc. apply locsToRegs_accesses in E.
    destruct (ensureInReg l s (length args)) as [[r pre']|] eqn:Es; [|done].
    apply ensureInReg_accesses in Es. injection Hc as <-. eexists (pre ++ pre'), _, [].
    rewrite app_assoc. split; [done|]. by rewrite accesses_app.
  - destruct (transformFunRef fn); [|done]. injection Hc as <-. by eexists [], _, [].
  - unfold transformLbuiltin in Hc. destruct (locsToRegsWithSpill l args 0) as [[rs pre]|] eqn:E; [|done].
    cbn in Hc. apply locsToRegs_accesses in E. destruct d as [d|].
    + destruct (dest_reg l d) as [[r post]|] eqn:Ed; [|done]. apply dest_reg_accesses in Ed.
      injection Hc as <-. by eexists pre, _, post.
    + injection Hc as <-. by eexists pre, _, [].
  - injection Hc as <-. by eexists [], _, [].
  - injection Hc as <-. by eexists [], _, [].
  - unfold transformLcond in Hc. destruct (locsToRegsWithSpill l args 0) as [[rs pre]|] eqn:E; [|done].
    cbn in Hc. apply locsToRegs_accesses in E. injection Hc as <-. by eexists pre, _, [].
  - unfold transformLjumptable in Hc. destruct (ensureInReg l arg 0) as [[r pre]|] eqn:E; [|done].
    cbn in Hc. apply ensureInReg_accesses in E. injection Hc as <-. by eexists pre, _, [].
Qed.

Lemma transformInst_no_return i c :
  transformInst l cs i = Some c -> i <> Linear.Lreturn -> is_tailcall i = false -> no_return c.
Proof.
  intros Hc Hr Ht. destruct (transformInst_shape i c Hc Hr Ht) as (pre & main & post & -> & Hp & Hq & Hm & _ & _).
  rewrite !no_return_app, no_return_cons.
  split; [by apply accesses_no_return|]. split; [by split; [|apply no_return_nil]|].
  by apply accesses_no_return.
Qed.

Lemma epilogue_restores_accesses : accesses (epilogue_restores cs).
Proof.
  unfold epilogue_restores, accesses. rewrite forallb_forall. intros i Hi%list_elem_of_In.
  apply list_elem_of_bind in Hi as (j & Hi & _). case_match; set_solver.
Qed.

Lemma prologue_saves_accesses : accesses (prologue_saves cs).
Proof.
  unfold prologue_saves, accesses. rewrite forallb_forall. intros i Hi%list_elem_of_In.
  apply list_elem_of_bind in Hi as (j & Hi & _). set_solver.
Qed.

(** *** The emitted body *)

  Hypothesis size_pos : 0 < fl_TotalSize l.

Lemma transform_body_emitted code body :
  transform_body l cs code = Some body -> forallb (fun i => negb (is_tailcall i)) code = true ->
  exists body', tr_body code = Some body' /\
    forall pre n, no_return pre -> (length pre + length body <= n)%nat ->
      emitted n (pre ++ body) = pre ++ body'.
Proof using size_pos.
  revert body. induction code as [|i code IH]; intros body; cbn.
  { intros [= <-] _. exists []. split; [done|]. intros pre n Hpre Hn. rewrite app_nil_r.
    apply emitted_no_return; [done|]. cbn in Hn. lia. }
  destruct (transformInst l cs i) as [c|] eqn:Ec; [|done]. cbn.
  destruct (transform_body l cs code) as [rest|] eqn:Er; [|done]. cbn.
  intros [= <-] [Ht Hts]%andb_prop. apply negb_true_iff in Ht.
  destruct (IH rest eq_refl Hts) as (rest' & Hrest' & Hem).
  rewrite Hrest'.
  assert (i = Linear.Lreturn \/ i <> Linear.Lreturn) as [->|Hr] by (destruct i; (by left) || by right).
  - change (Some (GenerateEpilogue l cs) = Some c) in Ec. injection Ec as <-. eexists. split; [done|]. intros pre n Hpre Hn.
    unfold GenerateEpilogue in *. rewrite (proj2 (Z.ltb_lt _ _) size_pos) in *. cbn [app] in *.
    rewrite !length_app in Hn. cbn [length] in Hn. rewrite <- (app_assoc (epilogue_restores cs)), app_assoc. cbn [app].
    match goal with |- context [emitted n (_ ++ Mgetstack ?a ?b ?c :: Mgetstack ?d ?e ?f :: Mop ?o ?ar ?de :: Mreturn :: rest)] =>
      destruct (emitted_epilogue n (pre ++ epilogue_restores cs) a b c d e f o ar de rest) as (n' & Hn' & ->) end.
    + apply no_return_app. split; [done|]. apply accesses_no_return, epilogue_restores_accesses.
    + rewrite length_app. lia.
    + rewrite <- app_assoc. f_equal. rewrite <- app_assoc. f_equal. cbn. f_equal.
      by apply (Hem [] n' no_return_nil).
  - assert (Htr : tr_inst i = Some c) by (by destruct i). rewrite Htr.
    exists (c ++ rest'). split; [done|]. intros pre n Hpre Hn. rewrite !app_assoc.
    rewrite length_app in Hn. apply Hem; [|rewrite length_app; lia].
    apply no_return_app. split; [done|]. by eapply transformInst_no_return.
Qed.
End Code.

(** ** Parameter copies *)

Lemma param_moves_accesses l i params acc :
  accesses acc.2 -> accesses (param_moves l i params acc).2.
Proof.
  revert i acc. induction params as [|p params IH]; intros i acc Hacc; [done|]. cbn.
  case_match; [|done]. apply IH. destruct p; [by case_decide| |done].
  cbn. apply accesses_app. split; [done|]. by destruct Slot.
Qed.

(** What the assembly generator makes of a transformed function: the saves
    of the prologue, the parameter copies and the body. *)
Lemma Transform_body_code `{RangeOrder} f mf :
  Stacking.Transform f = Some mf ->
  forallb (fun i => negb (is_tailcall i)) (Linear.fn_Code f) = true ->
  0 < fl_TotalSize (fn_layout f) ->
  exists copies body,
    GenerateParamCopies (Linear.fn_Params f) (fn_layout f) = Some copies /\
    tr_body (fn_layout f) (fn_calleeSave f) (Linear.fn_Code f) = Some body /\
    fl_TotalSize (fn_layout f) = Mach.fn_Stacksize mf /\
    body_code (Mach.fn_Code mf) = prologue_saves (fn_calleeSave f) ++ copies ++ body.
Proof.
  unfold Stacking.Transform. intros Hmf Ht Hsz.
  destruct (GenerateParamCopies _ _) as [copies|] eqn:Ecp; [|done]. cbn [mbind option_bind] in Hmf.
  destruct (transform_body _ _ _) as [body|] eqn:Eb; [|done]. cbn [mbind option_bind] in Hmf.
  destruct (transform_body_emitted _ _ Hsz _ _ Eb Ht) as (body' & Hb' & Hem).
  exists copies, body'. split; [done|]. split; [done|].
  apply (inj Some) in Hmf. subst mf. rewrite !foldl_Append. cbn [Mach.fn_Stacksize Mach.fn_Code]. split; [done|].
  assert (Hcp : no_return copies).
  { unfold GenerateParamCopies in Ecp.
    destruct (param_moves _ _ _ _) as [mv st] eqn:Ep.
    pose proof (param_moves_accesses (fn_layout f) 0 (Linear.fn_Params f) (∅, []) eq_refl) as Ha.
    rewrite Ep in Ha. destruct (resolve _ _ _ _ _ _ _ _) as [ms|]; [|done]. apply (inj Some) in Ecp; subst copies.
    apply no_return_app. split; [by apply accesses_no_return|].
    intros i Hi. apply list_elem_of_fmap in Hi as (mv' & -> & _). done. }
  unfold GeneratePrologue. rewrite (proj2 (Z.ltb_lt _ _) Hsz). unfold body_code.
  cbn [app countPrologueInstructions is_Mop is_Msetstack drop Mach.NewFunction Mach.fn_Code].
  rewrite <- (app_assoc (prologue_saves _)). rewrite (app_assoc _ copies body).
  rewrite (app_assoc _ copies body').
  apply Hem; [|rewrite drop_0, !length_app; lia].
  apply no_return_app. split; [apply accesses_no_return, prologue_saves_accesses|done].
Qed.

(** ** Sorting *)

Lemma sort_inner_spec x l m l' :
  sort_inner x l = (m, l') -> m :: l' ≡ₚ x :: l /\ Forall (Z.le m) l' /\ m <= x.
Proof.
  revert x m l'. induction l as [|y l IH]; intros x m l'; cbn; [intros [= <- <-]; by split|].
  destruct (Z.ltb_spec y x) as [Hlt|Hge].
  - destruct (sort_inner y l) as [m1 l1] eqn:E. intros [= <- <-].
    destruct (IH _ _ _ E) as (Hp & Hf & Hle). split; [|split; [constructor; [lia|done]|lia]].
    by rewrite Permutation_swap, Hp, Permutation_swap.
  - destruct (sort_inner x l) as [m1 l1] eqn:E. intros [= <- <-].
    destruct (IH _ _ _ E) as (Hp & Hf & Hle). split; [|split; [constructor; [lia|done]|lia]].
    by rewrite Permutation_swap, Hp, Permutation_swap.
Qed.

Lemma sortRegs_loop_spec n l :
  (length l <= n)%nat -> Sorted Z.le (sortRegs_loop n l) /\ sortRegs_loop n l ≡ₚ l.
Proof.
  revert l. induction n as [|n IH]; intros [|x l] Hn; cbn in Hn |- *; [by split|lia|by split|].
  destruct (sort_inner x l) as [m l'] eqn:E.
  destruct (sort_inner_spec _ _ _ _ E) as (Hp & Hf & _).
  destruct (IH l') as [Hs Hp'].
  { apply Permutation_length in Hp. cbn in Hp. lia. }
  split; [|by rewrite Hp'].
  constructor; [done|]. destruct (sortRegs_loop n l') as [|y l''] eqn:El; constructor.
  rewrite Forall_forall in Hf. apply Hf. rewrite <- Hp'. by left.
Qed.

(** The exchange sort returns a sorted permutation. *)
Lemma sortRegs_spec l : Sorted Z.le (sortRegs l) /\ sortRegs l ≡ₚ l.
Proof. by apply sortRegs_loop_spec. Qed.

(** ** Used callee-saved registers *)

(** The registers [collectRegsFromInst] records. *)
Definition loc_regs (l : Loc) : list MReg := match l with Target.R r => [r] | _ => [] end.

Definition collected_regs (i : Linear.Instruction) : list MReg :=
  match i with
  | Linear.Lgetstack _ _ _ d => [d]
  | Linear.Lsetstack s _ _ _ => [s]
  | Linear.Lop _ args d | Linear.Lload _ _ args d | Linear.Lstore _ _ args d =>
      (args ≫= loc_regs) ++ loc_regs d
  | Linear.Lcond _ args _ => args ≫= loc_regs
  | Linear.Ljumptable arg _ => loc_regs arg
  | _ => []
  end.

Lemma use_locs_dom used args r :
  r ∈ dom (foldl use_loc used args) <-> r ∈ dom used \/ r ∈ args ≫= loc_regs.
Proof.
  revert used. induction args as [|a args IH]; intros used; cbn [foldl].
  - set_solver.
  - rewrite IH, bind_cons, elem_of_app. destruct a; cbn; [|set_solver..].
    rewrite dom_insert. set_solver.
Qed.

Lemma use_loc_dom used a r : r ∈ dom (use_loc used a) <-> r ∈ dom used \/ r ∈ loc_regs a.
Proof. pose proof (use_locs_dom used [a] r) as H. cbn in H. by rewrite app_nil_r in H. Qed.

Lemma collectRegs_dom used i r :
  r ∈ dom (collectRegsFromInst used i) <-> r ∈ dom used \/ r ∈ collected_regs i.
Proof.
  destruct i; cbn [collectRegsFromInst collected_regs];
    rewrite ?use_loc_dom, ?use_locs_dom, ?dom_insert, ?elem_of_app; set_solver.
Qed.

Lemma collectRegs_code_dom code used r :
  r ∈ dom (foldl collectRegsFromInst used code) <-> r ∈ dom used \/ r ∈ code ≫= collected_regs.
Proof.
  revert used. induction code as [|i code IH]; intros used; cbn [foldl]; [set_solver|].
  rewrite IH, bind_cons, elem_of_app, collectRegs_dom. tauto.
Qed.

Lemma range_keys `{RangeOrder} {A} t (m : gmap Z A) r : r ∈ (range t m).*1 <-> r ∈ dom m.
Proof.
  rewrite list_elem_of_fmap, elem_of_dom. setoid_rewrite range_perm. split.
  - intros ([k v] & -> & Hin). apply elem_of_map_to_list in Hin. by exists v.
  - intros [v Hv]. exists (r, v). split; [done|]. by apply elem_of_map_to_list.
Qed.

Lemma FindUsed_elem `{RangeOrder} f r :
  r ∈ FindUsedCalleeSaveRegs f <->
    IsCalleeSaved r = true /\ r ∈ Linear.fn_Code f ≫= collected_regs.
Proof.
  unfold FindUsedCalleeSaveRegs. rewrite (proj2 (sortRegs_spec _)), list_elem_of_filter, range_keys,
    collectRegs_code_dom. set_solver.
Qed.

Lemma FindUsed_NoDup `{RangeOrder} f : NoDup (FindUsedCalleeSaveRegs f).
Proof.
  unfold FindUsedCalleeSaveRegs. rewrite (proj2 (sortRegs_spec _)). apply NoDup_filter.
  rewrite range_perm. apply NoDup_fst_map_to_list.
Qed.

Lemma PadToEven_spec regs :
  (length (PadToEven regs) mod 2 = 0)%nat /\ forall r, r ∈ PadToEven regs <-> r ∈ regs.
Proof.
  unfold PadToEven. destruct (Nat.eqb_spec (length regs mod 2) 0) as [E|E]; [done|]. split.
  - rewrite length_app. change (length [_]) with 1%nat.
    pose proof (Nat.mod_upper_bound (length regs) 2 ltac:(done)).
    rewrite <- Nat.Div0.add_mod_idemp_l. by replace (length regs mod 2)%nat with 1%nat by lia.
  - intros r. rewrite elem_of_app, list_elem_of_singleton. split; [|tauto]. intros [?| ->]; [done|].
    destruct regs as [|x regs] using rev_ind; [done|]. clear.
    rewrite length_app, Nat.add_sub, list_lookup_total_middle by done. set_solver.
Qed.

Lemma used_regs_elem `{RangeOrder} f r :
  r ∈ used_regs f <-> IsCalleeSaved r = true /\ r ∈ Linear.fn_Code f ≫= collected_regs.
Proof. unfold used_regs. by rewrite (proj2 (PadToEven_spec _)), FindUsed_elem. Qed.

(** The order in which Go visits the map of used registers does not show. *)
Lemma FindUsed_order (H1 H2 : RangeOrder) f :
  FindUsedCalleeSaveRegs (H := H1) f = FindUsedCalleeSaveRegs (H := H2) f.
Proof.
  apply (Sorted_unique (A := Z) Z.le).
  - apply sortRegs_spec.
  - apply sortRegs_spec.
  - apply NoDup_Permutation; [apply (FindUsed_NoDup (H := H1))|apply (FindUsed_NoDup (H := H2))|].
    intros r. by rewrite (FindUsed_elem (H := H1)), (FindUsed_elem (H := H2)).
Qed.

(** ** Save slots *)

Lemma save_offsets_lookup ofs regs i :
  ofs - 8 * Z.of_nat (length regs) > - 2 ^ 63 -> ofs < 2 ^ 63 ->
  (i < length regs)%nat -> save_offsets ofs regs !! i = Some (ofs - 8 * Z.of_nat i).
Proof.
  revert ofs i. induction regs as [|r regs IH]; intros ofs i Hlo Hhi Hi; cbn [length] in *; [lia|].
  destruct i as [|i]; cbn [save_offsets lookup list_lookup]; [f_equal; lia|].
  rewrite i64_id by (unfold in_i64; lia). rewrite IH by lia. f_equal. lia.
Qed.

(** Indices of a loop that takes the elements two at a time. *)
Lemma pair_index n i : (n mod 2 = 0 -> i < n -> exists j, j < n / 2 /\ (i = 2 * j \/ i = 2 * j + 1))%nat.
Proof.
  intros Hn Hi. exists (i / 2)%nat.
  pose proof (Nat.div_mod n 2). pose proof (Nat.div_mod i 2). pose proof (Nat.mod_upper_bound i 2). lia.
Qed.

Lemma pair_index_lt n j : (n mod 2 = 0 -> j < n / 2 -> 2 * j + 1 < n)%nat.
Proof. intros Hn Hj. pose proof (Nat.div_mod n 2). lia. Qed.

Section Saves.
  Context (regs : list MReg) (l : FrameLayout).
  Hypothesis even : (length regs mod 2 = 0)%nat.
  Hypothesis small : 8 * Z.of_nat (length regs) + 8 < 2 ^ 63.
Let cs := ComputeCalleeSaveInfo l regs.

Lemma save_offset i : (i < length regs)%nat -> SaveOffsets cs !!! i = - 8 * (Z.of_nat i + 1).
Proof using even small.
  intros Hi. apply list_lookup_total_correct. cbn [cs ComputeCalleeSaveInfo SaveOffsets].
  rewrite save_offsets_lookup by lia. f_equal. lia.
Qed.

Lemma regs_total i r : regs !! i = Some r -> regs !!! i = r.
Proof using. apply list_lookup_total_correct. Qed.

(** The prologue saves every register in its slot, and does nothing else. *)
Lemma prologue_saves_elem i :
  i ∈ prologue_saves cs <->
  exists k r, regs !! k = Some r /\ i = Msetstack r (- 8 * (Z.of_nat k + 1)) Tlong.
Proof using even small.
  unfold prologue_saves. change (Regs cs) with regs. rewrite list_elem_of_bind. split.
  - intros (j & Hi & Hj%elem_of_seq). pose proof (pair_index_lt _ j even ltac:(lia)) as Hlt.
    destruct (lookup_lt_is_Some_2 regs (2 * j)) as [r1 Hr1]; [lia|].
    destruct (lookup_lt_is_Some_2 regs (2 * j + 1)) as [r2 Hr2]; [lia|].
    rewrite !save_offset, (regs_total _ _ Hr1), (regs_total _ _ Hr2) in Hi by lia.
    apply elem_of_cons in Hi as [->|Hi%list_elem_of_singleton]; [eauto|]. subst i. eauto.
  - intros (k & r & Hr & ->). pose proof (lookup_lt_Some _ _ _ Hr) as Hk.
    destruct (pair_index _ k even Hk) as (j & Hj & Hkj). exists j. rewrite elem_of_seq.
    split; [|lia]. pose proof (pair_index_lt _ j even Hj). rewrite !save_offset by lia.
    rewrite !elem_of_cons. destruct Hkj as [->| ->]; rewrite (regs_total _ _ Hr); auto.
Qed.

(** The epilogue reloads every register from its slot, and nothing else. *)
Lemma epilogue_restores_elem i :
  i ∈ epilogue_restores cs <->
  exists k r, regs !! k = Some r /\ i = Mgetstack (- 8 * (Z.of_nat k + 1)) Tlong r.
Proof using even small.
  unfold epilogue_restores. change (Regs cs) with regs. rewrite list_elem_of_bind. split.
  - intros (j & Hi & Hj%elem_of_seq). pose proof (pair_index_lt _ j even ltac:(lia)) as Hlt.
    set (k := (length regs - 2 - 2 * j)%nat) in *.
    destruct (lookup_lt_is_Some_2 regs k) as [r1 Hr1]; [lia|].
    destruct (lookup_lt_is_Some_2 regs (k + 1)) as [r2 Hr2]; [lia|].
    rewrite (proj2 (Nat.ltb_lt (k + 1) (length regs))) in Hi by lia.
    rewrite !save_offset, (regs_total _ _ Hr1), (regs_total _ _ Hr2) in Hi by lia.
    apply elem_of_cons in Hi as [->|Hi%list_elem_of_singleton]; [eauto|]. subst i. eauto.
  - intros (k & r & Hr & ->). pose proof (lookup_lt_Some _ _ _ Hr) as Hk.
    destruct (pair_index _ k even Hk) as (j & Hj & Hkj).
    pose proof (pair_index_lt _ j even Hj). pose proof (Nat.div_mod (length regs) 2).
    exists (length regs / 2 - 1 - j)%nat. rewrite elem_of_seq. split; [|lia].
    replace (length regs - 2 - 2 * (length regs / 2 - 1 - j))%nat with (2 * j)%nat by lia.
    rewrite (proj2 (Nat.ltb_lt (2 * j + 1) (length regs))) by lia. rewrite !save_offset by lia.
    rewrite !elem_of_cons. destruct Hkj as [->| ->]; rewrite (regs_total _ _ Hr); auto.
Qed.
End Saves.

(** ** The areas of a frame *)

(** The sizes do not overflow an [int64], and the slots have sensible
    offsets. *)
Record layout_ok (f : Linear.Function) (n : Z) : Prop := {
  lo_even : n mod 2 = 0;
  lo_nonneg : 0 <= n;
  lo_space : 8 * n + LocalSize (collectStackInfo f) + OutgoingSize (collectStackInfo f) + 64 < 2 ^ 63;
  lo_incoming : IncomingSize (collectStackInfo f) + 16 < 2 ^ 63;
  lo_slots k o t : (k, o, t) ∈ code_slots (Linear.fn_Code f) -> 0 <= o /\ o + slotSize t < 2 ^ 63
}.

(** Two slots are the same or do not overlap. *)
Definition slots_compatible (s1 s2 : SlotKind * Z * Typ) : Prop :=
  s1 = s2 \/ s1.1.1 <> s2.1.1 \/ s1.1.2 + slotSize s1.2 <= s2.1.2 \/ s2.1.2 + slotSize s2.2 <= s1.1.2.

Section Areas.
  Context (f : Linear.Function) (n : Z) (ok : layout_ok f n).
Let l := ComputeLayout f n.

Lemma layout_spec :
  fl_TotalSize l mod 16 = 0 /\ 0 < fl_TotalSize l /\
  - (fl_TotalSize l - 16) <= LocalOffset l - fl_OutgoingSize l /\
  LocalOffset l + fl_LocalSize l = - 8 * n /\
  LocalSize (collectStackInfo f) <= fl_LocalSize l /\
  OutgoingSize (collectStackInfo f) <= fl_OutgoingSize l /\
  LocalOffset l <= 0 /\ - 2 ^ 63 < LocalOffset l /\ 0 <= fl_OutgoingSize l /\
  fl_TotalSize l < 2 ^ 63.
Proof using ok.
  destruct (ComputeLayout_spec f n (lo_even _ _ ok) (lo_nonneg _ _ ok) (lo_space _ _ ok))
    as (Hcs & _ & Hl & _ & Ho & Hlo & _ & Htm & Ht).
  pose proof (info_nonneg f). pose proof (lo_space _ _ ok). pose proof (lo_nonneg _ _ ok).
  fold l in Hcs, Hl, Ho, Hlo, Htm, Ht.
  repeat split; try done; lia.
Qed.

(** Every slot of the code lies inside the area of its kind. *)
Lemma slot_area k o t :
  (k, o, t) ∈ code_slots (Linear.fn_Code f) ->
  let p := TranslateSlotOffset l k o in
  match k with
  | SlotLocal => LocalOffset l <= p /\ p + slotSize t <= - 8 * n /\ p = LocalOffset l + o
  | SlotOutgoing => - (fl_TotalSize l - 16) <= p /\ p + slotSize t <= LocalOffset l /\
      p = o - (fl_TotalSize l - 16)
  | SlotIncoming => 16 <= p /\ p = 16 + o
  end.
Proof using ok.
  intros Hin p. destruct layout_spec as (_ & Hpos & Hout & Hloc & Hls & Hos & Hlo & Hlb & Hon & Hub).
  destruct (lo_slots _ _ ok k o t Hin) as [Ho Hlt]. pose proof (slotSize_pos t).
  destruct (CollectStackInfo_bound f k) as (_ & Hb & _). specialize (Hb _ Hin eq_refl).
  unfold slot_end in Hb. cbn [fst snd] in Hb. rewrite i64_id in Hb by (unfold in_i64; lia).
  pose proof (lo_incoming _ _ ok). pose proof (lo_nonneg _ _ ok). unfold collectStackInfo in *.
  unfold p, TranslateSlotOffset, LocalSlotOffset, IncomingSlotOffset, OutgoingSlotOffset.
  destruct k; cbn [size_of] in Hb.
  - rewrite i64_id by (unfold in_i64; lia). lia.
  - rewrite i64_id by (unfold in_i64; lia). lia.
  - rewrite (i64_id (fl_TotalSize l - 16)) by (unfold in_i64; lia).
    rewrite (i64_id (- _)) by (unfold in_i64; lia). rewrite i64_id by (unfold in_i64; lia). lia.
Qed.

(** Compatible slots stay apart in the frame. *)
Lemma slots_apart k1 o1 t1 k2 o2 t2 :
  (k1, o1, t1) ∈ code_slots (Linear.fn_Code f) -> (k2, o2, t2) ∈ code_slots (Linear.fn_Code f) ->
  slots_compatible (k1, o1, t1) (k2, o2, t2) ->
  (k1, o1, t1) = (k2, o2, t2) \/
  TranslateSlotOffset l k1 o1 + slotSize t1 <= TranslateSlotOffset l k2 o2 \/
  TranslateSlotOffset l k2 o2 + slotSize t2 <= TranslateSlotOffset l k1 o1.
Proof using ok.
  intros H1 H2 Hc. pose proof (slot_area _ _ _ H1) as A1. pose proof (slot_area _ _ _ H2) as A2.
  destruct layout_spec as (_ & Hpos & Hout & Hloc & Hls & Hos & Hlo & Hlb & Hon & Hub).
  pose proof (slotSize_pos t1). pose proof (slotSize_pos t2). pose proof (lo_nonneg _ _ ok).
  unfold slots_compatible in Hc. cbn [fst snd] in Hc.
  destruct Hc as [Hc|[Hc|Hc]]; [by left|right|right]; destruct k1, k2; cbn zeta in A1, A2; try done; lia.
Qed.

(** Slots stay clear of the saved registers, the frame pointer and the link
    register. *)
Lemma slot_clear k o t :
  (k, o, t) ∈ code_slots (Linear.fn_Code f) ->
  TranslateSlotOffset l k o + slotSize t <= - 8 * n \/ 16 <= TranslateSlotOffset l k o.
Proof using ok.
  intros Hs. pose proof (slot_area _ _ _ Hs) as A. cbn zeta in A.
  destruct layout_spec as (_ & Hpos & Hout & Hloc & Hls & Hos & Hlo & Hlb & Hon & Hub).
  pose proof (slotSize_pos t). pose proof (lo_nonneg _ _ ok).
  pose proof (info_nonneg f). destruct k; lia.
Qed.
End Areas.
