(* ===== verification/StackingProof.v ===== *)
(** Executing the code of the stacking pass: how a Mach state represents the
    locations of a Linear state, and that every transformed instruction
    preserves it.
    A transformed function runs like the original: jumps, returns, and the
    simulation between Linear and Mach states.
    Entering a transformed function: the prologue saves what the caller owns,
    then the parameters are copied to their locations. *)

From S2P Require Import Prelude Target Linear Mach ParMove ConvertCall Semantics StackInfo Layout.
From S2P Require Import Frame StackingCode Stacking MachSem Cleanup.

(** ** Well-formed input *)

(** The registers and the slots an instruction names. *)
Definition funref_locs (fn : Linear.FunRef) : list Loc :=
  match fn with Linear.FunReg l => [l] | Linear.FunSymbol _ => [] end.

Definition inst_locs (i : Linear.Instruction) : list Loc :=
  match i with
  | Linear.Lgetstack k o t d => [Target.S k o t; Target.R d]
  | Linear.Lsetstack s k o t => [Target.R s; Target.S k o t]
  | Linear.Lop _ args d | Linear.Lload _ _ args d | Linear.Lstore _ _ args d => args ++ [d]
  | Linear.Lcall _ fn | Linear.Ltailcall _ fn => funref_locs fn
  | Linear.Lbuiltin _ args d => args ++ match d with Some d => [d] | None => [] end
  | Linear.Lcond _ args _ => args
  | Linear.Ljumptable arg _ => [arg]
  | _ => []
  end.

(** The location an instruction assigns. *)
Definition inst_dest (i : Linear.Instruction) : option Loc :=
  match i with
  | Linear.Lgetstack _ _ _ d => Some (Target.R d)
  | Linear.Lop _ _ d | Linear.Lload _ _ _ d => Some d
  | Linear.Lbuiltin _ _ d => d
  | _ => None
  end.

(** A location the pass can handle: a register it does not use itself, or a
    slot the frame has room for. *)
Definition loc_ok (f : Linear.Function) (l : Loc) : Prop :=
  match l with
  | Target.R r => r ∉ reserved
  | Target.S k o t => (k, o, t) ∈ code_slots (Linear.fn_Code f)
  | NilLoc => False
  end.

Record wf_linear `{RangeOrder} (call_slots : Sig -> list (Z * Typ)) (f : Linear.Function) : Prop := {
  wl_layout : layout_ok f (Z.of_nat (length (used_regs f)));
  wl_slots s1 s2 : s1 ∈ code_slots (Linear.fn_Code f) -> s2 ∈ code_slots (Linear.fn_Code f) ->
    slots_compatible s1 s2;
  wl_locs i l : i ∈ Linear.fn_Code f -> l ∈ inst_locs i -> loc_ok f l;
  wl_calls sig fn s : Linear.Lcall sig fn ∈ Linear.fn_Code f -> s ∈ call_slots sig ->
    (SlotOutgoing, s.1, s.2) ∈ code_slots (Linear.fn_Code f);
  wl_no_tailcall i : i ∈ Linear.fn_Code f -> is_tailcall i = false;
  wl_builtins b args r : Linear.Lbuiltin b args (Some (Target.R r)) ∈ Linear.fn_Code f ->
    IsCalleeSaved r = true -> r ∈ used_regs f
}.

Lemma reserved_not_saved r : r ∈ reserved -> IsCalleeSaved r = false.
Proof. unfold reserved. rewrite !elem_of_cons. intros [->|[->|[->|[->|Hn%not_elem_of_nil]]]]; done. Qed.

(** ** The representation of a Linear state *)

Section Run.
  Context {V M F : Type} {HT : TargetSemantics V M} {HC : CallConvention V M}.
  Context {HF : FrameMemory F V} {HO : RangeOrder}.
  Context (f : Linear.Function) (wf : wf_linear call_slots f).

  Context (l : FrameLayout) (l_eq : l = fn_layout f).
Let slots := code_slots (Linear.fn_Code f).
Let T := TranslateSlotOffset l.
Let n := length (used_regs f).
Let size := fl_TotalSize l.

  Implicit Types (rf : MReg -> V) (fr : F) (m : M) (ls : Loc -> V).

(** Registers hold the values of the registers, the frame those of the slots. *)
Record agrees ls rf fr : Prop := {
  ag_reg r : r ∉ reserved -> ls (Target.R r) = rf r;
  ag_slot k o t : (k, o, t) ∈ slots -> ls (Target.S k o t) = fget fr (T k o) t
}.

(** What the caller owns is where it can be restored from. *)
Record frame_ok (rf0 : MReg -> V) rf fr : Prop := {
  fo_saved i r : used_regs f !! i = Some r -> fget fr (- 8 * (Z.of_nat i + 1)) Tlong = rf0 r;
  fo_kept r : IsCalleeSaved r = true -> r ∉ used_regs f -> rf r = rf0 r;
  fo_fp : fget fr 0 Tlong = rf0 FP;
  fo_lr : fget fr 8 Tlong = rf0 LR
}.

(** *** Updates *)

Lemma T_apart k1 o1 t1 k2 o2 t2 :
  (k1, o1, t1) ∈ slots -> (k2, o2, t2) ∈ slots ->
  (k1, o1, t1) = (k2, o2, t2) \/
  T k1 o1 + slotSize t1 <= T k2 o2 \/ T k2 o2 + slotSize t2 <= T k1 o1.
Proof using All.
  unfold T. rewrite l_eq. intros H1 H2.
  apply (slots_apart f _ (wl_layout _ _ wf)); [done..|]. by apply (wl_slots _ _ wf).
Qed.

Lemma T_clear k o t :
  (k, o, t) ∈ slots -> T k o + slotSize t <= - 8 * Z.of_nat n \/ 16 <= T k o.
Proof using All. unfold T. rewrite l_eq. apply (slot_clear f _ (wl_layout _ _ wf)). Qed.

Lemma agrees_set_slot ls rf fr k o t v :
  (k, o, t) ∈ slots -> agrees ls rf fr ->
  agrees (<[Target.S k o t := v]> ls) rf (fset fr (T k o) t v).
Proof using All.
  intros Hs [Hr Hf]. split.
  - intros r Hn. rewrite fn_lookup_insert_ne by done. by apply Hr.
  - intros k' o' t' Hs'. destruct (T_apart _ _ _ _ _ _ Hs Hs') as [[= <- <- <-]|Hd].
    + by rewrite fn_lookup_insert, fget_same.
    + destruct (decide (Target.S k o t = Target.S k' o' t')) as [[= <- <- <-]|Hne].
      * by rewrite fn_lookup_insert, fget_same.
      * rewrite fn_lookup_insert_ne, fget_other by done. by apply Hf.
Qed.

Lemma agrees_set_reg ls rf fr r v :
  r ∉ reserved -> agrees ls rf fr -> agrees (<[Target.R r := v]> ls) (<[r := v]> rf) fr.
Proof using All.
  intros Hn [Hr Hf]. split.
  - intros r' Hn'. destruct (decide (r = r')) as [<-|Hne]; [by rewrite !fn_lookup_insert|].
    rewrite !fn_lookup_insert_ne by congruence. by apply Hr.
  - intros k o t Hs. rewrite fn_lookup_insert_ne by done. by apply Hf.
Qed.

(** Registers may differ where they are reserved. *)
Lemma agrees_regs ls rf rf' fr :
  (forall r, r ∉ reserved -> rf' r = rf r) -> agrees ls rf fr -> agrees ls rf' fr.
Proof using All. intros He [Hr Hf]. split; [|done]. intros r Hn. rewrite He by done. by apply Hr. Qed.

Lemma frame_ok_regs rf0 rf rf' fr :
  (forall r, IsCalleeSaved r = true -> r ∉ used_regs f -> rf' r = rf r) ->
  frame_ok rf0 rf fr -> frame_ok rf0 rf' fr.
Proof using All. intros He [Hs Hk Hfp Hlr]. split; try done. intros r H1 H2. rewrite He by done. by apply Hk. Qed.

Lemma frame_ok_set_slot rf0 rf fr k o t v :
  (k, o, t) ∈ slots -> frame_ok rf0 rf fr -> frame_ok rf0 rf (fset fr (T k o) t v).
Proof using All.
  intros Hs [Hsv Hk Hfp Hlr]. pose proof (T_clear _ _ _ Hs) as Hc. pose proof (slotSize_pos t).
  split; [|done| |].
  - intros i r Hi. pose proof (lookup_lt_Some _ _ _ Hi) as Hlt. fold n in Hlt.
    rewrite fget_other; [by apply Hsv|]. change (slotSize Tlong) with 8. lia.
  - rewrite fget_other; [done|]. change (slotSize Tlong) with 8. lia.
  - rewrite fget_other; [done|]. change (slotSize Tlong) with 8. lia.
Qed.

(** A register the code may write: it is saved if it has to be. *)
Definition writable (r : MReg) : Prop := IsCalleeSaved r = true -> r ∈ used_regs f.

Lemma writable_reserved r : r ∈ reserved -> writable r.
Proof using All. intros Hr Hs. by rewrite reserved_not_saved in Hs. Qed.

Lemma frame_ok_set_reg rf0 rf fr r v :
  writable r -> frame_ok rf0 rf fr -> frame_ok rf0 (<[r := v]> rf) fr.
Proof using All.
  intros Hw. apply frame_ok_regs. intros r' Hs Hn. apply fn_lookup_insert_ne. intros <-. auto.
Qed.

Lemma dest_writable i r : i ∈ Linear.fn_Code f -> inst_dest i = Some (Target.R r) -> writable r.
Proof using All.
  intros Hi Hd Hs. destruct i as [k o t d|s k o t|op args d|ch ad args d|ch ad args s|sig fn|sig fn
    |b args d|lb|lb|cd args lb|arg tg|]; try done; cbn in Hd.
  4: { subst d. by eapply (wl_builtins _ _ wf). }
  all: injection Hd as ->; apply used_regs_elem; split; [done|]; apply list_elem_of_bind;
    (eexists; split; [|exact Hi]); cbn; set_solver.
Qed.

(** *** Operands *)

(** Code that loads temporaries from index [k] on: the other registers stay. *)
Definition loads (k : nat) rf rf' : Prop :=
  forall r, (forall j, (k <= j)%nat -> stackingTempRegs !! j <> Some r) -> rf' r = rf r.

Lemma loads_reserved k rf rf' r : loads k rf rf' -> r ∉ reserved -> rf' r = rf r.
Proof using All.
  intros Hl Hr. apply Hl. intros j _ Hj. apply Hr. apply list_elem_of_lookup_2 in Hj.
  unfold stackingTempRegs, reserved in *. set_solver.
Qed.

Lemma loads_trans k k' rf1 rf2 rf3 : (k <= k')%nat -> loads k rf1 rf2 -> loads k' rf2 rf3 -> loads k rf1 rf3.
Proof using All.
  intros Hk H1 H2 r Hr. rewrite H2, H1; [done..|]. intros j Hj. apply Hr. lia.
Qed.

Lemma temp_inj j j' r : stackingTempRegs !! j = Some r -> stackingTempRegs !! j' = Some r -> j = j'.
Proof using All.
  intros H1 H2. eapply NoDup_lookup; [|exact H1|exact H2].
  unfold stackingTempRegs, X16, X17, X. repeat constructor; set_solver.
Qed.

Lemma exec_getstack k o t d rf fr m :
  mach_exec size (TranslateGetstack l k o t d) rf fr m = Some (<[d := fget fr (T k o) t]> rf, fr, m).
Proof using All. unfold T. destruct k; cbn [TranslateSlotOffset]; reflexivity. Qed.

Lemma exec_setstack k o t s rf fr m :
  mach_exec size (TranslateSetstack l s k o t) rf fr m = Some (rf, fset fr (T k o) t (rf s), m).
Proof using All. unfold T. destruct k; cbn [TranslateSlotOffset]; reflexivity. Qed.

(** One operand: the register it ends up in holds its value, and later loads
    do not disturb it. *)
Lemma ensureInReg_exec loc k r code ls rf fr m :
  ensureInReg l loc k = Some (r, code) -> loc_ok f loc -> agrees ls rf fr ->
  exists rf', mach_exec_list size code rf fr m = Some (rf', fr, m) /\ loads k rf rf' /\
    forall rf'', loads (k + 1) rf' rf'' -> rf'' r = ls loc.
Proof using All.
  intros He Hok Hag. destruct loc as [r'|sk o t|]; cbn in He; [| |done].
  - injection He as <- <-. exists rf. split; [done|]. split; [done|]. intros rf'' Hl.
    rewrite (ag_reg _ _ _ Hag) by done. by apply (loads_reserved _ _ _ _ Hl).
  - destruct (stackingTempRegs !! k) as [tmp|] eqn:Et; [|done]. cbn in He. injection He as <- <-.
    exists (<[tmp := fget fr (T sk o) t]> rf). cbn [mach_exec_list]. rewrite exec_getstack.
    split; [done|]. split.
    + intros r Hr. apply fn_lookup_insert_ne. intros <-. by apply (Hr k).
    + intros rf'' Hl. rewrite Hl, fn_lookup_insert; [by rewrite (ag_slot _ _ _ Hag)|].
      intros j Hj Hj'. pose proof (temp_inj _ _ _ Et Hj'). lia.
Qed.

Lemma locsToRegs_exec locs k rs code ls rf fr m :
  locsToRegsWithSpill l locs k = Some (rs, code) -> (forall a, a ∈ locs -> loc_ok f a) ->
  agrees ls rf fr ->
  exists rf', mach_exec_list size code rf fr m = Some (rf', fr, m) /\ loads k rf rf' /\
    forall rf'', loads (k + length locs) rf' rf'' -> rf'' <$> rs = ls <$> locs.
Proof using All.
  revert k rs code rf. induction locs as [|a locs IH]; intros k rs code rf He Hok Hag; cbn in He.
  { injection He as <- <-. exists rf. by split. }
  destruct (ensureInReg l a k) as [[r c1]|] eqn:E1; [|done]. cbn in He.
  destruct (locsToRegsWithSpill l locs (k + 1)) as [[rs' c2]|] eqn:E2; [|done]. cbn in He.
  injection He as <- <-.
  destruct (ensureInReg_exec a k r c1 ls rf fr m E1 (Hok a ltac:(set_solver)) Hag) as (rf1 & Hx1 & Hl1 & Hv1).
  assert (Hag1 : agrees ls rf1 fr).
  { eapply agrees_regs; [|exact Hag]. intros r' Hr'. by eapply loads_reserved. }
  destruct (IH (k + 1)%nat rs' c2 rf1 E2 ltac:(set_solver) Hag1) as (rf2 & Hx2 & Hl2 & Hv2).
  exists rf2. split; [by rewrite mach_exec_list_app, Hx1|]. split; [by apply (loads_trans _ (k + 1) _ rf1); [lia|..]|].
  intros rf'' Hl. cbn. f_equal.
  - apply Hv1. apply (loads_trans _ (k + 1 + length locs) _ rf2); [lia|done|].
    by replace (k + 1 + length locs)%nat with (k + length (a :: locs))%nat by (cbn; lia).
  - apply Hv2. by replace (k + 1 + length locs)%nat with (k + length (a :: locs))%nat by (cbn; lia).
Qed.

(** The operands of [Lop] take a temporary only when they need one. *)
Lemma lop_args_exec args k rs code ls rf fr m :
  lop_args l args k = Some (rs, code) -> (forall a, a ∈ args -> loc_ok f a) -> agrees ls rf fr ->
  exists rf' k', mach_exec_list size code rf fr m = Some (rf', fr, m) /\ loads k rf rf' /\ (k <= k')%nat /\
    forall rf'', loads k' rf' rf'' -> rf'' <$> rs = ls <$> args.
Proof using All.
  revert k rs code rf. induction args as [|a args IH]; intros k rs code rf He Hok Hag; cbn in He.
  { injection He as <- <-. exists rf, k. repeat split; done. }
  destruct a as [r|sk o t|]; [| |done].
  - destruct (lop_args l args k) as [[rs' c2]|] eqn:E2; [|done]. cbn in He. injection He as <- <-.
    destruct (IH k rs' c2 rf E2 ltac:(set_solver) Hag) as (rf2 & k2 & Hx2 & Hl2 & Hk2 & Hv2).
    exists rf2, k2. split; [done|]. split; [done|]. split; [done|]. intros rf'' Hl. cbn. f_equal; [|by apply Hv2].
    pose proof (Hok (Target.R r) ltac:(set_solver)) as Hr. cbn in Hr.
    rewrite (loads_reserved _ _ _ _ Hl), (loads_reserved _ _ _ _ Hl2) by done.
    symmetry. by apply (ag_reg _ _ _ Hag).
  - destruct (stackingTempRegs !! k) as [tmp'|] eqn:Et; [|done]. cbn in He.
    destruct (lop_args l args (k + 1)) as [[rs' c2]|] eqn:E2; [|done]. cbn in He.
    injection He as <- <-.
    assert (E1 : ensureInReg l (Target.S sk o t) k = Some (tmp', [TranslateGetstack l sk o t tmp']))
      by (cbn; by rewrite Et).
    destruct (ensureInReg_exec _ k _ _ ls rf fr m E1 (Hok (Target.S sk o t) ltac:(set_solver)) Hag) as (rf1 & Hx1 & Hl1 & Hv1).
    assert (Hag1 : agrees ls rf1 fr).
    { eapply agrees_regs; [|exact Hag]. intros r' Hr'. by eapply loads_reserved. }
    destruct (IH (k + 1)%nat rs' c2 rf1 E2 ltac:(set_solver) Hag1) as (rf2 & k2 & Hx2 & Hl2 & Hk2 & Hv2).
    exists rf2, k2. split.
    { change (_ :: c2) with ([TranslateGetstack l sk o t tmp'] ++ c2). by rewrite mach_exec_list_app, Hx1. }
    split; [by apply (loads_trans _ (k + 1) _ rf1); [lia|..]|]. split; [lia|].
    intros rf'' Hl. cbn. f_equal; [|by apply Hv2].
    apply Hv1. by apply (loads_trans _ k2 _ rf2).
Qed.

(** Loads preserve the representation. *)
Lemma loads_agrees k ls rf rf' fr : loads k rf rf' -> agrees ls rf fr -> agrees ls rf' fr.
Proof using All. intros Hl. apply agrees_regs. intros r Hr. by apply (loads_reserved k). Qed.

Lemma loads_frame_ok k rf0 rf rf' fr : loads k rf rf' -> frame_ok rf0 rf fr -> frame_ok rf0 rf' fr.
Proof using All.
  intros Hl. apply frame_ok_regs. intros r Hs _. apply Hl. intros j _ Hj.
  assert (Hr : r ∈ reserved) by (apply list_elem_of_lookup_2 in Hj; unfold stackingTempRegs, reserved in *; set_solver).
  by rewrite reserved_not_saved in Hs.
Qed.

(** The result: computed in the destination, or in X16 and then stored. *)
Lemma dest_exec dest d post v ls rf0 rf fr m :
  dest_reg l dest = Some (d, post) -> loc_ok f dest ->
  (forall r, dest = Target.R r -> writable r) ->
  agrees ls rf fr -> frame_ok rf0 rf fr ->
  exists rf' fr', mach_exec_list size post (<[d := v]> rf) fr m = Some (rf', fr', m) /\
    agrees (<[dest := v]> ls) rf' fr' /\ frame_ok rf0 rf' fr'.
Proof using All.
  intros Hd Hok Hw Hag Hfo. destruct dest as [r|k o t|]; [| |done]; injection Hd as <- <-.
  - exists (<[r := v]> rf), fr. split; [done|]. split; [by apply agrees_set_reg|].
    apply frame_ok_set_reg; auto.
  - exists (<[X16 := v]> rf), (fset fr (T k o) t v).
    assert (Hr : X16 ∈ reserved) by (unfold reserved; set_solver).
    split; [|split].
    + cbn [mach_exec_list]. rewrite exec_setstack. cbn. by rewrite fn_lookup_insert.
    + apply agrees_set_slot; [done|]. eapply agrees_regs; [|done].
      intros r Hn. apply fn_lookup_insert_ne. by intros <-.
    + apply frame_ok_set_slot; [done|]. apply frame_ok_set_reg; [by apply writable_reserved|done].
Qed.

(** *** Calls *)

Lemma foldl_assign_fn (h : Z * Typ -> Loc) (g : Loc -> V) sl ls x :
  foldl (fun acc s => <[h s := g (h s)]> acc) ls sl x = if decide (x ∈ h <$> sl) then g x else ls x.
Proof using All.
  revert ls. induction sl as [|s sl IH]; intros ls; cbn [foldl].
  - rewrite decide_False; [done|]. apply not_elem_of_nil.
  - rewrite IH, fmap_cons. case_decide as Hin; [by rewrite decide_True by (by right)|].
    destruct (decide (h s = x)) as [<-|Hne].
    + by rewrite fn_lookup_insert, decide_True by (by left).
    + rewrite fn_lookup_insert_ne, decide_False by done || (apply not_elem_of_cons; split; congruence). done.
Qed.

Lemma T_outgoing o t : (SlotOutgoing, o, t) ∈ slots -> T SlotOutgoing o = o - (size - 16).
Proof using All.
  intros Hs. unfold T, size. rewrite l_eq. by apply (slot_area f _ (wl_layout _ _ wf) SlotOutgoing o t Hs).
Qed.

Lemma store_args_ok sl ls' rf0 ls rf fr :
  (forall s, s ∈ sl -> (SlotOutgoing, s.1, s.2) ∈ slots) ->
  agrees ls rf fr -> frame_ok rf0 rf fr ->
  agrees (foldl (fun acc s => <[Target.S SlotOutgoing s.1 s.2 := ls' (Target.S SlotOutgoing s.1 s.2)]> acc) ls sl)
    rf (store_args size sl ls' fr) /\ frame_ok rf0 rf (store_args size sl ls' fr).
Proof using All.
  unfold store_args. revert ls fr. induction sl as [|s sl IH]; intros ls fr Hsl Hag Hfo; [done|].
  pose proof (Hsl s ltac:(by left)) as Hs. cbn [foldl]. rewrite <- (T_outgoing _ _ Hs).
  apply IH; [intros s' Hs'; apply Hsl; by right|by apply agrees_set_slot|by apply frame_ok_set_slot].
Qed.

Lemma exec_call sig fn fn' ls rf0 rf fr m :
  Linear.Lcall sig fn ∈ Linear.fn_Code f -> transformFunRef fn = Some fn' ->
  agrees ls rf fr -> frame_ok rf0 rf fr ->
  match eval_call sig (linear_callee ls fn) ls m, mach_exec_list size [Mcall sig fn'] rf fr m with
  | Some (ls', m1), Some (rf', fr', m2) => m1 = m2 /\ agrees ls' rf' fr' /\ frame_ok rf0 rf' fr'
  | None, None => True
  | _, _ => False
  end.
Proof using All.
  intros Hi Hfn Hag Hfo.
  assert (Hcl : linear_callee ls fn = mach_callee rf fn').
  { destruct fn as [loc|s]; cbn in Hfn; [|by injection Hfn as <-].
    pose proof (wl_locs _ _ wf _ loc Hi ltac:(cbn; set_solver)) as Hloc.
    destruct loc as [r| |]; try done. injection Hfn as <-. cbn. f_equal. by apply (ag_reg _ _ _ Hag). }
  pose proof (fun s Hs => wl_calls _ _ wf sig fn s Hi Hs) as Hsl.
  pose proof (eval_call_visible sig (linear_callee ls fn) ls (callee_locs size rf fr) m
    (ag_reg _ _ _ Hag)) as Hv.
  cbn [mach_exec_list mach_exec]. rewrite <- Hcl.
  destruct (eval_call sig _ ls m) as [[ls1 m1]|] eqn:E1;
    destruct (eval_call sig _ (callee_locs size rf fr) m) as [[ls2 m2]|] eqn:E2; cbn;
    (lapply Hv; [clear Hv; intros Hv|intros s Hs; cbn; rewrite <- (T_outgoing _ s.2) by (by apply Hsl);
                 apply (ag_slot _ _ _ Hag); by apply Hsl]); try done.
  destruct Hv as (-> & Hr & Hs). split; [done|].
  destruct (store_args_ok (call_slots sig) ls2 rf0 ls rf fr Hsl Hag Hfo) as [Hag' Hfo']. split.
  - split; [done|]. intros k o t Hkot. rewrite <- (ag_slot _ _ _ Hag' k o t Hkot).
    rewrite (foldl_assign_fn (fun s => Target.S SlotOutgoing s.1 s.2) ls2). case_decide as Hin.
    + apply list_elem_of_fmap in Hin as ([o' t'] & [= -> -> ->] & Hin). by apply (Hs (o', t')).
    + apply (eval_call_slots _ _ _ _ _ _ E1). intros -> Hin'. apply Hin.
      apply list_elem_of_fmap. by exists (o, t).
  - eapply frame_ok_regs; [|done]. intros r Hsv _.
    by rewrite (eval_call_saved _ _ _ _ _ _ E2 r Hsv).
Qed.

(** *** One instruction *)

(** What it means that the Mach code [c] does what [i] does. *)
Definition simulates (i : Linear.Instruction) (c : list Mach.Instruction) : Prop :=
  forall rf0 ls rf fr m, agrees ls rf fr -> frame_ok rf0 rf fr ->
  match linear_exec i ls m, mach_exec_list size c rf fr m with
  | Some (ls', m1), Some (rf', fr', m2) => m1 = m2 /\ agrees ls' rf' fr' /\ frame_ok rf0 rf' fr'
  | None, None => True
  | _, _ => False
  end.

(** Instructions that compute a value from operands and store it. *)
Lemma simulates_compute args rs pre dest d post main (ev : list V -> M -> option (V * M)) :
  (forall ls rf fr m, agrees ls rf fr -> exists rf' k, mach_exec_list size pre rf fr m = Some (rf', fr, m) /\
     loads k rf rf' /\ rf' <$> rs = ls <$> args) ->
  dest_reg l dest = Some (d, post) -> loc_ok f dest -> (forall r, dest = Target.R r -> writable r) ->
  (forall rf fr m, mach_exec size main rf fr m = '(v, m') ← ev (rf <$> rs) m; Some (<[d := v]> rf, fr, m')) ->
  forall rf0 ls rf fr m, agrees ls rf fr -> frame_ok rf0 rf fr ->
  match ev (ls <$> args) m, mach_exec_list size (pre ++ [main] ++ post) rf fr m with
  | Some (v, m1), Some (rf', fr', m2) => m1 = m2 /\ agrees (<[dest := v]> ls) rf' fr' /\ frame_ok rf0 rf' fr'
  | None, None => True
  | _, _ => False
  end.
Proof using All.
  intros Hpre Hd Hok Hw Hmain rf0 ls rf fr m Hag Hfo.
  destruct (Hpre ls rf fr m Hag) as (rf1 & k & Hx & Hl & Hv).
  rewrite mach_exec_list_app, Hx. cbn [mbind option_bind app mach_exec_list]. rewrite Hmain, Hv.
  destruct (ev (ls <$> args) m) as [[v m1]|]; [|done]. cbn [mbind option_bind].
  destruct (dest_exec dest d post v ls rf0 rf1 fr m1 Hd Hok Hw) as (rf2 & fr2 & Hx2 & Hag2 & Hfo2).
  - by eapply loads_agrees.
  - by eapply loads_frame_ok.
  - by rewrite Hx2.
Qed.

(** The operands of each kind of instruction are loaded. *)
Lemma spill_loads args rs pre k0 :
  locsToRegsWithSpill l args k0 = Some (rs, pre) -> (forall a, a ∈ args -> loc_ok f a) ->
  forall ls rf fr m, agrees ls rf fr -> exists rf' k, mach_exec_list size pre rf fr m = Some (rf', fr, m) /\
     loads k rf rf' /\ rf' <$> rs = ls <$> args.
Proof using All.
  intros He Hok ls rf fr m Hag.
  destruct (locsToRegs_exec args k0 rs pre ls rf fr m He Hok Hag) as (rf' & Hx & Hl & Hv).
  exists rf', k0. split; [done|]. split; [done|]. by apply Hv.
Qed.

Lemma lop_loads args rs pre :
  lop_args l args 0 = Some (rs, pre) -> (forall a, a ∈ args -> loc_ok f a) ->
  forall ls rf fr m, agrees ls rf fr -> exists rf' k, mach_exec_list size pre rf fr m = Some (rf', fr, m) /\
     loads k rf rf' /\ rf' <$> rs = ls <$> args.
Proof using All.
  intros He Hok ls rf fr m Hag.
  destruct (lop_args_exec args 0 rs pre ls rf fr m He Hok Hag) as (rf' & k' & Hx & Hl & _ & Hv).
  exists rf', 0%nat. split; [done|]. split; [done|]. by apply Hv.
Qed.

(** A store's source is one more operand. *)
Lemma store_operands args s rs pre r pre' :
  locsToRegsWithSpill l args 0 = Some (rs, pre) -> ensureInReg l s (length args) = Some (r, pre') ->
  locsToRegsWithSpill l (args ++ [s]) 0 = Some (rs ++ [r], pre ++ pre').
Proof using All.
  change (length args) with (0 + length args)%nat. generalize 0%nat as k. revert rs pre.
  induction args as [|a args IH]; intros rs pre k Ha Hs; cbn in Ha, Hs |- *.
  - injection Ha as <- <-. rewrite Nat.add_0_r in Hs. rewrite Hs. cbn. by rewrite app_nil_r.
  - destruct (ensureInReg l a k) as [[r1 c1]|]; [|done]. cbn in Ha |- *.
    destruct (locsToRegsWithSpill l args (k + 1)) as [[rs' c2]|] eqn:E; [|done]. cbn in Ha.
    injection Ha as <- <-. rewrite (IH rs' c2 (k + 1)%nat); [cbn; by rewrite <- app_assoc|done|].
    by replace (k + 1 + length args)%nat with (k + Datatypes.S (length args))%nat by lia.
Qed.

Lemma simulates_access ls' rf' fr' m rf0 :
  agrees ls' rf' fr' -> frame_ok rf0 rf' fr' ->
  m = m /\ agrees ls' rf' fr' /\ frame_ok rf0 rf' fr'.
Proof using All. done. Qed.

Lemma simulates_getstack k o t d :
  Linear.Lgetstack k o t d ∈ Linear.fn_Code f ->
  simulates (Linear.Lgetstack k o t d) [TranslateGetstack l k o t d].
Proof using All.
  intros Hi rf0 ls rf fr m Hag Hfo. cbn [mach_exec_list linear_exec]. rewrite exec_getstack. cbn.
  pose proof (wl_locs _ _ wf _ (Target.S k o t) Hi ltac:(cbn; set_solver)) as Hs.
  pose proof (wl_locs _ _ wf _ (Target.R d) Hi ltac:(cbn; set_solver)) as Hd.
  rewrite (ag_slot _ _ _ Hag k o t Hs). apply simulates_access; [by apply agrees_set_reg|].
  apply frame_ok_set_reg; [|done]. by eapply dest_writable.
Qed.

Lemma simulates_setstack s k o t :
  Linear.Lsetstack s k o t ∈ Linear.fn_Code f ->
  simulates (Linear.Lsetstack s k o t) [TranslateSetstack l s k o t].
Proof using All.
  intros Hi rf0 ls rf fr m Hag Hfo. cbn [mach_exec_list linear_exec]. rewrite exec_setstack. cbn.
  pose proof (wl_locs _ _ wf _ (Target.S k o t) Hi ltac:(cbn; set_solver)) as Hs.
  pose proof (wl_locs _ _ wf _ (Target.R s) Hi ltac:(cbn; set_solver)) as Hd.
  rewrite (ag_reg _ _ _ Hag s Hd).
  apply simulates_access; [by apply agrees_set_slot|by apply frame_ok_set_slot].
Qed.

Lemma simulates_op op args d c :
  Linear.Lop op args d ∈ Linear.fn_Code f -> transformLop l op args d = Some c ->
  simulates (Linear.Lop op args d) c.
Proof using All.
  intros Hi Hc rf0 ls rf fr m Hag Hfo. unfold transformLop in Hc.
  destruct (lop_args l args 0) as [[rs pre]|] eqn:Ea; [|done]. cbn [mbind option_bind] in Hc.
  pose proof (wl_locs _ _ wf _ d Hi ltac:(cbn; set_solver)) as Hd.
  assert (Hc' : exists r post, dest_reg l d = Some (r, post) /\ c = pre ++ [Mop op rs r] ++ post)
    by (destruct d; [by injection Hc as <-; eauto..|done]).
  destruct Hc' as (r & post & Er & ->).
  pose proof (simulates_compute args rs pre d r post (Mop op rs r)
    (fun vs m => v ← eval_op op vs m; Some (v, m))) as Hs.
  cbn [linear_exec]. specialize (Hs (lop_loads _ _ _ Ea ltac:(intros a Ha; apply (wl_locs _ _ wf _ a Hi); cbn; set_solver)) Er Hd).
  specialize (Hs ltac:(intros r' ->; by eapply dest_writable)).
  specialize (Hs ltac:(intros rf1 fr1 m1; cbn; by destruct (eval_op _ _ _)) rf0 ls rf fr m Hag Hfo).
  cbv beta in Hs. by destruct (eval_op op (ls <$> args) m).
Qed.

Lemma simulates_load ch ad args d c :
  Linear.Lload ch ad args d ∈ Linear.fn_Code f -> transformLload l ch ad args d = Some c ->
  simulates (Linear.Lload ch ad args d) c.
Proof using All.
  intros Hi Hc rf0 ls rf fr m Hag Hfo. unfold transformLload in Hc.
  destruct (locsToRegsWithSpill l args 0) as [[rs pre]|] eqn:Ea; [|done]. cbn [mbind option_bind] in Hc.
  pose proof (wl_locs _ _ wf _ d Hi ltac:(cbn; set_solver)) as Hd.
  destruct (dest_reg l d) as [[r post]|] eqn:Er; [|done]. cbn [mbind option_bind] in Hc.
  apply (inj Some) in Hc. subst c.
  pose proof (simulates_compute args rs pre d r post (Mload ch ad rs r)
    (fun vs m => v ← eval_load ch ad vs m; Some (v, m))) as Hs.
  cbn [linear_exec]. specialize (Hs (spill_loads _ _ _ _ Ea ltac:(intros a Ha; apply (wl_locs _ _ wf _ a Hi); cbn; set_solver)) Er Hd).
  specialize (Hs ltac:(intros r' ->; by eapply dest_writable)).
  specialize (Hs ltac:(intros rf1 fr1 m1; cbn; by destruct (eval_load _ _ _ _)) rf0 ls rf fr m Hag Hfo).
  cbv beta in Hs. by destruct (eval_load ch ad (ls <$> args) m).
Qed.

Lemma simulates_builtin b args d c :
  Linear.Lbuiltin b args d ∈ Linear.fn_Code f -> transformLbuiltin l b args d = Some c ->
  simulates (Linear.Lbuiltin b args d) c.
Proof using All.
  intros Hi Hc rf0 ls rf fr m Hag Hfo. unfold transformLbuiltin in Hc.
  destruct (locsToRegsWithSpill l args 0) as [[rs pre]|] eqn:Ea; [|done]. cbn [mbind option_bind] in Hc.
  pose proof (spill_loads _ _ _ _ Ea ltac:(intros a Ha; apply (wl_locs _ _ wf _ a Hi); cbn; set_solver)) as Hpre.
  cbn [linear_exec]. destruct d as [d|].
  - pose proof (wl_locs _ _ wf _ d Hi ltac:(cbn; set_solver)) as Hd.
    destruct (dest_reg l d) as [[r post]|] eqn:Er; [|done]. cbn [mbind option_bind] in Hc.
    apply (inj Some) in Hc. subst c.
    pose proof (simulates_compute args rs pre d r post (Mbuiltin b rs (Some r)) (eval_builtin b) Hpre Er Hd) as Hs.
    specialize (Hs ltac:(intros r' ->; by eapply dest_writable)).
    specialize (Hs ltac:(done) rf0 ls rf fr m Hag Hfo).
    by destruct (eval_builtin b (ls <$> args) m) as [[v m1]|].
  - apply (inj Some) in Hc. subst c. destruct (Hpre ls rf fr m Hag) as (rf1 & k & Hx & Hl & Hv).
    rewrite mach_exec_list_app, Hx. cbn. rewrite Hv.
    destruct (eval_builtin b (ls <$> args) m) as [[v m1]|]; [|done]. cbn.
    split; [done|]. split; [by eapply loads_agrees|by eapply loads_frame_ok].
Qed.

Lemma simulates_store ch ad args s c :
  Linear.Lstore ch ad args s ∈ Linear.fn_Code f -> transformLstore l ch ad args s = Some c ->
  simulates (Linear.Lstore ch ad args s) c.
Proof using All.
  intros Hi Hc rf0 ls rf fr m Hag Hfo. unfold transformLstore in Hc.
  destruct (locsToRegsWithSpill l args 0) as [[rs pre]|] eqn:Ea; [|done]. cbn [mbind option_bind] in Hc.
  destruct (ensureInReg l s (length args)) as [[r pre']|] eqn:Er; [|done]. cbn [mbind option_bind] in Hc.
  apply (inj Some) in Hc. subst c.
  pose proof (store_operands _ _ _ _ _ _ Ea Er) as Eas.
  destruct (spill_loads _ _ _ _ Eas ltac:(intros a Ha; apply (wl_locs _ _ wf _ a Hi); done) ls rf fr m Hag)
    as (rf1 & k & Hx & Hl & Hv).
  rewrite app_assoc, mach_exec_list_app, Hx. cbn. rewrite !fmap_app in Hv. cbn in Hv.
  apply app_inj_tail in Hv as [Hv1 Hv2]. rewrite Hv1, Hv2.
  destruct (eval_store ch ad (ls <$> args) (ls s) m) as [m1|]; [|done]. cbn.
  split; [done|]. split; [by eapply loads_agrees|by eapply loads_frame_ok].
Qed.

(** Every instruction that falls through does what it did before. *)
Lemma transformInst_simulates cs i c :
  i ∈ Linear.fn_Code f -> is_straight i = true -> transformInst l cs i = Some c -> simulates i c.
Proof using All.
  intros Hi Hst Hc.
  destruct i as [k o t d|s k o t|op args d|ch ad args d|ch ad args s|sig fn|sig fn
    |b args d|lb|lb|cd args lb|arg tg|]; try done; cbn [transformInst] in Hc.
  - apply (inj Some) in Hc. subst c. by apply simulates_getstack.
  - apply (inj Some) in Hc. subst c. by apply simulates_setstack.
  - by apply simulates_op.
  - by apply simulates_load.
  - by apply simulates_store.
  - destruct (transformFunRef fn) as [fn'|] eqn:Ef; [|done]. apply (inj Some) in Hc. subst c.
    intros rf0 ls rf fr m Hag Hfo. by apply (exec_call sig fn).
  - by apply simulates_builtin.
  - apply (inj Some) in Hc. subst c. by intros rf0 ls rf fr m Hag Hfo.
Qed.
End Run.

(** ** Labels *)

Lemma find_mlabel_skip l c rest :
  (forall i, i ∈ c -> Mach.inst_label i = None) -> find_mlabel l (c ++ rest) = find_mlabel l rest.
Proof.
  induction c as [|i c IH]; intros Hc; [done|]. cbn [app].
  pose proof (Hc i ltac:(by left)) as Hi. destruct i; try done; cbn [find_mlabel]; apply IH; set_solver.
Qed.

Lemma accesses_no_label c : accesses c -> forall i, i ∈ c -> Mach.inst_label i = None.
Proof.
  unfold accesses. rewrite forallb_forall. intros Hc i Hi%list_elem_of_In.
  specialize (Hc i Hi). by destruct i.
Qed.

Section Labels.
  Context (l : FrameLayout) (cs : CalleeSaveInfo).

Lemma tr_inst_label i c lb :
  tr_inst l cs i = Some c -> is_tailcall i = false ->
  forall rest, find_mlabel lb (c ++ rest) =
    match i with
    | Linear.Llabel lb' => if decide (lb = lb') then Some rest else find_mlabel lb rest
    | _ => find_mlabel lb rest
    end.
Proof.
  intros Hc Ht rest.
  assert (i = Linear.Lreturn \/ i <> Linear.Lreturn) as [->|Hr] by (destruct i; (by left) || by right).
  - apply (inj Some) in Hc. subst c. apply find_mlabel_skip. intros i [Hi|Hi]%elem_of_app.
    + by eapply accesses_no_label, Hi; apply epilogue_restores_accesses.
    + by apply list_elem_of_singleton in Hi as ->.
  - assert (Hc' : transformInst l cs i = Some c) by (by destruct i).
    destruct (transformInst_shape l cs i c Hc' Hr Ht) as (pre & main & post & -> & Hp & Hq & _ & Hl & _).
    rewrite <- !app_assoc, find_mlabel_skip by (by apply accesses_no_label). cbn [app].
    destruct i; cbn in Hl; try done;
      try (destruct main; try done; cbn [find_mlabel]; apply find_mlabel_skip; by apply accesses_no_label).
    destruct main; try done. injection Hl as ->. cbn [find_mlabel]. cbn in Hc'.
    apply (inj Some) in Hc'. destruct pre as [|? [|??]]; try done. cbn in Hc'.
    injection Hc' as <-. done.
Qed.

Lemma find_label_tr code body lb :
  tr_body l cs code = Some body -> (forall i, i ∈ code -> is_tailcall i = false) ->
  match find_label lb code with
  | Some rest => exists rest', tr_body l cs rest = Some rest' /\ find_mlabel lb body = Some rest'
  | None => find_mlabel lb body = None
  end.
Proof.
  revert body. induction code as [|i code IH]; intros body Hb Ht; cbn in Hb; [by injection Hb as <-|].
  destruct (tr_inst l cs i) as [c|] eqn:Ec; [|done]. cbn in Hb.
  destruct (tr_body l cs code) as [rest|] eqn:Er; [|done]. apply (inj Some) in Hb. subst body.
  rewrite (tr_inst_label i c lb Ec) by (apply Ht; by left).
  specialize (IH rest eq_refl ltac:(set_solver)).
  destruct i; try done. cbn [find_label]. case_decide; [by exists rest|done].
Qed.
End Labels.

(** ** The simulation *)

Section Run.
  Context {V M F : Type} {HT : TargetSemantics V M} {HC : CallConvention V M}.
  Context {HF : FrameMemory F V} {HO : RangeOrder}.
  Context (f : Linear.Function) (wf : wf_linear call_slots f).
  Context (l : FrameLayout) (l_eq : l = fn_layout f) (cs : CalleeSaveInfo) (cs_eq : cs = fn_calleeSave f).

Let code := Linear.fn_Code f.
Let size := fl_TotalSize l.

  (** What the body is emitted as, after some code without labels. *)
  Context (prefix body : list Mach.Instruction).
  Hypothesis prefix_no_label : forall i, i ∈ prefix -> Mach.inst_label i = None.
  Hypothesis body_tr : tr_body l cs code = Some body.
Let mcode := prefix ++ body.

  Implicit Types (rf : MReg -> V) (fr : F) (m : M) (ls : Loc -> V).

(** The registers and the frame the function was entered with. *)
  Context (rf0 : MReg -> V).

Definition match_states (s : linear_state (V := V) (M := M)) (t : mach_state (V := V) (M := M) (F := F)) : Prop :=
  let '(pc, ls, m) := s in
  let '(mpc, rf, fr, m') := t in
  m' = m /\ suffix pc code /\ tr_body l cs pc = Some mpc /\ agrees f l ls rf fr /\ frame_ok f rf0 rf fr.

(** The function's result, and the registers the caller relies on. *)
Definition preserved (rf : MReg -> V) : Prop :=
  forall r, IsCalleeSaved r = true \/ r = FP \/ r = LR -> rf r = rf0 r.

Definition match_results (r : result V M) (r' : mach_result (V := V) (M := M)) : Prop :=
  r'.1 = r /\ preserved r'.2.

Lemma suffix_in pc i rest : suffix pc code -> pc = i :: rest -> i ∈ code /\ suffix rest code.
Proof using All.
  intros [p Hp] ->. split; [rewrite Hp; set_solver|]. exists (p ++ [i]). by rewrite <- app_assoc.
Qed.

Lemma not_tailcall i : i ∈ code -> is_tailcall i = false.
Proof using All. apply (wl_no_tailcall _ _ wf). Qed.

(** A jump goes to the translation of its target. *)
Lemma jump_sim lb ls rf fr m :
  agrees f l ls rf fr -> frame_ok f rf0 rf fr ->
  match linear_jump code lb ls m with
  | Next s' => exists t', mach_jump mcode lb rf fr m = Next t' /\ match_states s' t'
  | Halt _ => False
  | Stuck => mach_jump mcode lb rf fr m = Stuck
  end.
Proof using All.
  intros Hag Hfo. unfold linear_jump, mach_jump, mcode.
  rewrite (find_mlabel_skip lb prefix body prefix_no_label).
  pose proof (find_label_tr l cs code body lb body_tr not_tailcall) as Hl.
  destruct (find_label lb code) as [rest|] eqn:E; [|by rewrite Hl].
  destruct Hl as (rest' & Hr & ->). eexists. split; [done|].
  split; [done|]. split; [by eapply find_label_suffix|done].
Qed.

(** *** The epilogue *)

Lemma restores_exec c rf fr m :
  (forall i, i ∈ c -> exists o r, i = Mgetstack o Tlong r /\ fget fr o Tlong = rf0 r) ->
  exists rf', mach_exec_list size c rf fr m = Some (rf', fr, m) /\
    forall r, (rf' r = rf0 r /\ exists o, Mgetstack o Tlong r ∈ c) \/
              (rf' r = rf r /\ forall o, Mgetstack o Tlong r ∉ c).
Proof using All.
  revert rf. induction c as [|i c IH]; intros rf Hc.
  { exists rf. split; [done|]. intros r. right. split; [done|]. intros o. apply not_elem_of_nil. }
  destruct (Hc i ltac:(by left)) as (o & r & -> & Hv). cbn [mach_exec_list mach_exec mbind option_bind].
  destruct (IH (<[r := fget fr o Tlong]> rf) ltac:(set_solver)) as (rf' & Hx & Hr).
  exists rf'. split; [done|]. intros r'. destruct (Hr r') as [[E [o' Ho']]|[E Hn]].
  { left. split; [done|]. exists o'. by right. }
  destruct (decide (r = r')) as [<-|Hne].
  - left. rewrite E, fn_lookup_insert. split; [done|]. exists o. by left.
  - right. rewrite E, fn_lookup_insert_ne by done. split; [done|].
    intros o' [[= -> ->]|Hin]%elem_of_cons; [done|by eapply Hn].
Qed.

Lemma regs_small : 8 * Z.of_nat (length (used_regs f)) + 8 < 2 ^ 63.
Proof using l wf.
  pose proof (lo_space _ _ (wl_layout _ _ wf)). pose proof (info_nonneg f). lia.
Qed.

Lemma regs_even : (length (used_regs f) mod 2 = 0)%nat.
Proof using. apply (PadToEven_spec (FindUsedCalleeSaveRegs f)). Qed.

Lemma restores_elem i :
  i ∈ epilogue_restores cs <->
  exists k r, used_regs f !! k = Some r /\ i = Mgetstack (- 8 * (Z.of_nat k + 1)) Tlong r.
Proof using All.
  rewrite cs_eq. unfold fn_calleeSave. apply epilogue_restores_elem; [apply regs_even|apply regs_small].
Qed.

(** The epilogue hands the caller its registers back. *)
Lemma epilogue_exec rf fr m :
  frame_ok f rf0 rf fr ->
  exists rf', mach_exec_list size (epilogue_restores cs) rf fr m = Some (rf', fr, m) /\
    (forall r, IsCalleeSaved r = true -> rf' r = rf0 r) /\
    (forall r, IsCalleeSaved r = false -> rf' r = rf r).
Proof using All.
  intros [Hsv Hk Hfp Hlr].
  destruct (restores_exec (epilogue_restores cs) rf fr m) as (rf' & Hx & Hr).
  { intros i (k & r & Hkr & ->)%restores_elem. eexists _, _. split; [done|]. by apply Hsv. }
  exists rf'. split; [done|]. split; intros r Hs; destruct (Hr r) as [[E [o Ho]]|[E Hn]]; try done.
  - rewrite E. apply Hk; [done|]. intros [k Hin]%list_elem_of_lookup.
    eapply Hn, restores_elem. by exists k, r.
  - apply restores_elem in Ho as (k & r' & Hu%list_elem_of_lookup_2 & [= _ <-]).
    apply used_regs_elem in Hu as [Hu _]. congruence.
Qed.

(** *** Steps *)

Lemma tr_body_cons i rest mpc :
  tr_body l cs (i :: rest) = Some mpc ->
  exists c mrest, tr_inst l cs i = Some c /\ tr_body l cs rest = Some mrest /\ mpc = c ++ mrest.
Proof using All.
  cbn. destruct (tr_inst l cs i) as [c|]; [|done]. cbn.
  destruct (tr_body l cs rest) as [mrest|]; [|done]. intros [= <-]. eauto.
Qed.

(** Operands of a conditional jump or of a jump table are loaded first. *)
Lemma step_operands args pre rs main mrest ls rf fr m :
  locsToRegsWithSpill l args 0 = Some (rs, pre) -> (forall a, a ∈ args -> loc_ok f a) ->
  agrees f l ls rf fr -> frame_ok f rf0 rf fr ->
  exists rf', rtc (steps_to (mach_step size mcode)) ((pre ++ [main]) ++ mrest, rf, fr, m)
                (main :: mrest, rf', fr, m) /\
    rf' <$> rs = ls <$> args /\ agrees f l ls rf' fr /\ frame_ok f rf0 rf' fr.
Proof using All.
  intros He Hok Hag Hfo.
  destruct (spill_loads f wf l l_eq args rs pre 0 He Hok ls rf fr m Hag) as (rf' & k & Hx & Hl & Hv).
  exists rf'. pose proof (mach_straight_run size mcode pre (main :: mrest) rf fr m
    (accesses_straight _ (locsToRegs_accesses _ _ _ _ _ He))) as Hrun.
  fold size in Hx. rewrite Hx in Hrun. destruct Hrun as [Hrun _]. rewrite <- app_assoc.
  split; [done|]. split; [done|]. split; [by eapply loads_agrees|by eapply loads_frame_ok].
Qed.

Lemma straight_sim i c rest mrest ls rf fr m :
  i ∈ code -> is_straight i = true -> tr_inst l cs i = Some c -> suffix rest code ->
  tr_body l cs rest = Some mrest -> agrees f l ls rf fr -> frame_ok f rf0 rf fr ->
  match linear_step code (i :: rest, ls, m) with
  | Next s' => exists t', match_states s' t' /\ tc (steps_to (mach_step size mcode)) (c ++ mrest, rf, fr, m) t'
  | Halt _ => False
  | Stuck => forall r, ~ terminates (mach_step size mcode) (c ++ mrest, rf, fr, m) r
  end.
Proof using All.
  intros Hi Hst Hc Hsuf Hrest Hag Hfo. rewrite linear_step_straight by done.
  assert (Hc' : transformInst l cs i = Some c) by (by destruct i).
  pose proof (transformInst_simulates f wf l l_eq cs i c Hi Hst Hc' rf0 ls rf fr m Hag Hfo) as Hsim.
  destruct (transformInst_shape l cs i c Hc' ltac:(by intros ->) (not_tailcall i Hi))
    as (pre & main & post & Ecs & Hp & Hq & _ & _ & Hm).
  assert (Hms : forallb mach_straight c = true).
  { rewrite Ecs, !forallb_app. cbn. rewrite Hm, Hst, !accesses_straight; done. }
  pose proof (mach_straight_run size mcode c mrest rf fr m Hms) as Hrun. fold size in Hsim.
  destruct (linear_exec i ls m) as [[ls' m1]|];
    destruct (mach_exec_list size c rf fr m) as [[[rf' fr'] m2]|]; try done.
  destruct Hsim as (<- & Hag' & Hfo'). destruct Hrun as [_ Htc].
  eexists. split; [|apply Htc; rewrite Ecs; by destruct pre]. done.
Qed.

Lemma return_sim rest mrest ls rf fr m :
  agrees f l ls rf fr -> frame_ok f rf0 rf fr ->
  exists r', terminates (mach_step size mcode) ((epilogue_restores cs ++ [Mreturn]) ++ mrest, rf, fr, m) r' /\
    linear_step code (Linear.Lreturn :: rest, ls, m) = Halt r'.1 /\ preserved r'.2.
Proof using All.
  intros Hag Hfo. destruct (epilogue_exec rf fr m Hfo) as (rf' & Hx & Hs & Hns).
  pose proof (mach_straight_run size mcode (epilogue_restores cs) (Mreturn :: mrest) rf fr m
    (accesses_straight _ (epilogue_restores_accesses cs))) as Hrun.
  rewrite Hx in Hrun. destruct Hrun as [Hrun _]. rewrite <- app_assoc. cbn [app].
  eexists. split; [by apply (terminates_rtc _ _ _ _ Hrun), terminates_halt|]. cbn [fst snd]. split.
  - cbn. rewrite (Hns X0) by done. by rewrite (ag_reg _ _ _ _ _ Hag X0) by (unfold reserved; set_solver).
  - intros r Hr. destruct (decide (FP = r)) as [<-|Hf]; [rewrite fn_lookup_insert; apply (fo_fp _ _ _ _ Hfo)|].
    rewrite fn_lookup_insert_ne by done.
    destruct (decide (LR = r)) as [<-|Hlr]; [rewrite fn_lookup_insert; apply (fo_lr _ _ _ _ Hfo)|].
    rewrite fn_lookup_insert_ne by done. destruct Hr as [Hr|[->| ->]]; [by apply Hs|done..].
Qed.

(** One step of the original is a step, or several, of the transformed
    function. *)
Lemma step_sim s t :
  match_states s t ->
  match linear_step code s with
  | Next s' => exists t', match_states s' t' /\ tc (steps_to (mach_step size mcode)) t t'
  | Halt r => exists r', terminates (mach_step size mcode) t r' /\ match_results r r'
  | Stuck => forall r, ~ terminates (mach_step size mcode) t r
  end.
Proof using All.
  destruct s as [[pc ls] m], t as [[[mpc rf] fr] m']. intros (-> & Hsuf & Htr & Hag & Hfo).
  destruct pc as [|i rest].
  { injection Htr as <-. cbn. intros r. by apply terminates_stuck. }
  destruct (tr_body_cons _ _ _ Htr) as (c & mrest & Hc & Hrest & ->).
  destruct (suffix_in _ _ _ Hsuf eq_refl) as [Hi Hsuf'].
  pose proof (fun a Ha => wl_locs _ _ wf i a Hi Ha) as Hlocs.
  destruct (is_straight i) eqn:Hst.
  { pose proof (straight_sim i c rest mrest ls rf fr m Hi Hst Hc Hsuf' Hrest Hag Hfo) as Hss.
    by destruct (linear_step code (i :: rest, ls, m)). }
  destruct i as [| | | | | |sig fn| | |lb|cd args lb|arg tg|]; try done; clear Hst.
  - by pose proof (not_tailcall _ Hi).
  - apply (inj Some) in Hc. subst c. cbn [linear_step].
    pose proof (jump_sim lb ls rf fr m Hag Hfo) as Hj. destruct (linear_jump code lb ls m); [|done|].
    + destruct Hj as (t' & Hj & Hm). exists t'. split; [done|]. by apply tc_once.
    + intros r. by apply terminates_stuck.
  - cbn in Hc. unfold transformLcond in Hc.
    destruct (locsToRegsWithSpill l args 0) as [[rs pre]|] eqn:E; [|done]. apply (inj Some) in Hc. subst c.
    destruct (step_operands args pre rs (Mcond cd rs lb) mrest ls rf fr m E Hlocs Hag Hfo)
      as (rf' & Hrtc & Hv & Hag' & Hfo').
    cbn [linear_step]. pose proof (jump_sim lb ls rf' fr m Hag' Hfo') as Hj.
    destruct (eval_cond cd (ls <$> args) m) as [[]|] eqn:Ec.
    + destruct (linear_jump code lb ls m); [|done|].
      * destruct Hj as (t' & Hj & Hm). exists t'. split; [done|]. eapply tc_rtc_l; [exact Hrtc|].
        apply tc_once. unfold steps_to. cbn [mach_step]. by rewrite Hv, Ec.
      * intros r Ht. apply (terminates_rtc _ _ _ _ Hrtc) in Ht. revert Ht. apply terminates_stuck.
        cbn [mach_step]. by rewrite Hv, Ec.
    + eexists. split; [|eapply tc_rtc_l; [exact Hrtc|]; apply tc_once; unfold steps_to; cbn [mach_step];
        by rewrite Hv, Ec]. done.
    + intros r Ht. apply (terminates_rtc _ _ _ _ Hrtc) in Ht. revert Ht. apply terminates_stuck.
      cbn [mach_step]. by rewrite Hv, Ec.
  - cbn in Hc. unfold transformLjumptable in Hc.
    destruct (ensureInReg l arg 0) as [[ra pre]|] eqn:E; [|done]. apply (inj Some) in Hc. subst c.
    assert (E' : locsToRegsWithSpill l [arg] 0 = Some ([ra], pre)).
    { cbn [locsToRegsWithSpill]. rewrite E. cbn. by rewrite app_nil_r. }
    destruct (step_operands [arg] pre [ra] (Mjumptable ra tg) mrest ls rf fr m E' Hlocs Hag Hfo)
      as (rf' & Hrtc & Hv & Hag' & Hfo'). injection Hv as Hv.
    assert (Hstep : mach_step size mcode (Mjumptable ra tg :: mrest, rf', fr, m) =
      match eval_index (ls arg) ≫= (fun k => tg !! k) with
      | Some lb => mach_jump mcode lb rf' fr m | None => Stuck end) by (cbn [mach_step]; by rewrite Hv).
    cbn [linear_step]. destruct (eval_index (ls arg) ≫= _) as [lb|].
    + pose proof (jump_sim lb ls rf' fr m Hag' Hfo') as Hj. destruct (linear_jump code lb ls m); [|done|].
      * destruct Hj as (t' & Hj & Hm). exists t'. split; [done|]. eapply tc_rtc_l; [exact Hrtc|].
        apply tc_once. unfold steps_to. by rewrite Hstep.
      * intros r Ht. apply (terminates_rtc _ _ _ _ Hrtc) in Ht. revert Ht. apply terminates_stuck.
        by rewrite Hstep.
    + intros r Ht. apply (terminates_rtc _ _ _ _ Hrtc) in Ht. revert Ht. by apply terminates_stuck.
  - apply (inj Some) in Hc. subst c. cbn [linear_step].
    destruct (return_sim rest mrest ls rf fr m Hag Hfo) as (r' & Ht & Hh & Hp).
    cbn [linear_step] in Hh. injection Hh as Hh. exists r'. by rewrite Hh.
Qed.

(** The body terminates as the original does, with the caller's registers. *)
Lemma body_equiv s t :
  match_states s t ->
  (forall r, terminates (linear_step code) s r ->
     exists rf, terminates (mach_step size mcode) t (r, rf) /\ preserved rf) /\
  (forall r rf, terminates (mach_step size mcode) t (r, rf) ->
     terminates (linear_step code) s r /\ preserved rf).
Proof using All.
  intros Hm.
  assert (Hn : forall s t s', match_states s t -> linear_step code s = Next s' ->
    exists t', match_states s' t' /\
      (tc (steps_to (mach_step size mcode)) t t' \/ (t' = t /\ (0 < 0)%nat))).
  { intros s1 t1 s' Hm1 E. pose proof (step_sim s1 t1 Hm1) as Hs. rewrite E in Hs.
    destruct Hs as (t' & ? & ?). eauto. }
  assert (Hh : forall s t r, match_states s t -> linear_step code s = Halt r ->
    exists r', terminates (mach_step size mcode) t r' /\ match_results r r').
  { intros s1 t1 r Hm1 E. pose proof (step_sim s1 t1 Hm1) as Hs. by rewrite E in Hs. }
  assert (Hk : forall s t r, match_states s t -> linear_step code s = Stuck ->
    ~ terminates (mach_step size mcode) t r).
  { intros s1 t1 r Hm1 E. pose proof (step_sim s1 t1 Hm1) as Hs. rewrite E in Hs. apply Hs. }
  split.
  - intros r Ht. destruct (sim_forward_rel _ _ _ match_results (fun _ => 0%nat) Hn Hh s t r Hm Ht)
      as ([r1 rf] & Ht' & Hr1 & Hp). cbn in Hr1. subst r1. by exists rf.
  - intros r rf Ht. destruct (sim_backward_rel _ _ _ match_results (fun _ => 0%nat) Hn Hh Hk s t (r, rf) Hm Ht)
      as (r1 & Ht' & Hr1 & Hp). cbn in Hr1. by subst r1.
Qed.
End Run.

Definition disjoint_ranges (o1 : Z) (t1 : Typ) (o2 : Z) (t2 : Typ) : Prop :=
  o1 + slotSize t1 <= o2 \/ o2 + slotSize t2 <= o1.

(** The parameters that arrive in registers, and where the body wants them. *)
Record wf_params `{RangeOrder} (f : Linear.Function) : Prop := {
  wp_locs p : p ∈ take 8 (Linear.fn_Params f) -> loc_ok f p;
  wp_writable r : Target.R r ∈ take 8 (Linear.fn_Params f) -> writable f r;
  wp_temp : Target.R paramCopyTempReg ∉ take 8 (Linear.fn_Params f);
  wp_nodup : NoDup (take 8 (Linear.fn_Params f))
}.

(** ** The moves and stores of the parameters *)

Lemma int_arg_lt i s : intArgRegs !! i = Some s -> (i < 8)%nat /\ s = X (Z.of_nat i).
Proof.
  intros Hi. pose proof (lookup_lt_Some _ _ _ Hi) as Hlt. cbn in Hlt. split; [done|].
  do 8 (destruct i as [|i]; [by injection Hi as <-|]). lia.
Qed.

Lemma int_arg_some i : (i < 8)%nat -> intArgRegs !! i = Some (X (Z.of_nat i)).
Proof. intros Hi. do 8 (destruct i as [|i]; [done|]). lia. Qed.

Section Moves.
  Context (l : FrameLayout).

Lemma param_moves_cons i p params acc s :
  intArgRegs !! i = Some s ->
  param_moves l i (p :: params) acc =
    param_moves l (i + 1) params
      match p with
      | Target.R r => if decide (r = s) then acc else (<[r := s]> acc.1, acc.2)
      | Target.S k o t => (acc.1, acc.2 ++ [Msetstack s (TranslateSlotOffset l k o) t])
      | NilLoc => acc
      end.
Proof. intros Hs. cbn [param_moves]. by rewrite Hs. Qed.

Lemma param_moves_stop i params acc : (8 <= i)%nat -> param_moves l i params acc = acc.
Proof.
  intros Hi. destruct params; [done|]. cbn [param_moves].
  destruct (intArgRegs !! i) as [s|] eqn:E; [|done]. apply int_arg_lt in E. lia.
Qed.

(** The map of moves. *)
Lemma param_moves_lookup i params acc r s :
  NoDup (take (8 - i) params) ->
  (param_moves l i params acc).1 !! r = Some s <->
    (exists j, params !! j = Some (Target.R r) /\ intArgRegs !! (i + j)%nat = Some s /\ r <> s) \/
    (acc.1 !! r = Some s /\
     forall j s', params !! j = Some (Target.R r) -> intArgRegs !! (i + j)%nat = Some s' -> r = s').
Proof.
  revert i acc. induction params as [|p params IH]; intros i acc Hnd.
  { cbn. split; [intros H; right; by split|]. intros [(j & Hj & _)|[H _]]; [done|done]. }
  destruct (intArgRegs !! i) as [a|] eqn:Ea.
  2:{ assert (Hi : (8 <= i)%nat).
      { destruct (decide (i < 8)%nat) as [Hlt|]; [|lia]. by rewrite int_arg_some in Ea. }
      rewrite param_moves_stop by done. split.
      - intros H. right. split; [done|]. intros j s' _ Hs'. apply int_arg_lt in Hs'. lia.
      - intros [(j & _ & Hs & _)|[H _]]; [apply int_arg_lt in Hs; lia|done]. }
  rewrite (param_moves_cons _ _ _ _ _ Ea). destruct (int_arg_lt _ _ Ea) as [Hi _].
  replace (8 - i)%nat with (Datatypes.S (8 - (i + 1)))%nat in Hnd by lia. cbn [take] in Hnd.
  apply NoDup_cons in Hnd as [Hp Hnd]. rewrite IH by done.
  assert (Hsplit : forall P : nat -> Prop, (exists j, P j) <-> P 0%nat \/ exists j, P (Datatypes.S j)).
  { intros P. split; [intros [[|j] H]; eauto|intros [H|[j H]]; eauto]. }
  assert (Hlater : forall j s', params !! j = Some p -> intArgRegs !! (i + 1 + j)%nat = Some s' -> False).
  { intros j s' Hj Hs'. apply int_arg_lt in Hs' as [Hlt _]. apply Hp, list_elem_of_lookup. exists j.
    rewrite lookup_take_lt by lia. done. }
  setoid_rewrite <- (Nat.add_assoc i 1). change (1 + ?x)%nat with (Datatypes.S x).
  rewrite (Hsplit (fun j => (p :: params) !! j = _ /\ _)). cbn [lookup list_lookup]. rewrite Nat.add_0_r, Ea.
  setoid_rewrite <- (Nat.add_assoc i 1) in Hlater.
  assert (Hall : (forall j s', (p :: params) !! j = Some (Target.R r) -> intArgRegs !! (i + j)%nat = Some s' -> r = s') <->
    (p = Target.R r -> r = a) /\
    forall j s', params !! j = Some (Target.R r) -> intArgRegs !! (i + Datatypes.S j)%nat = Some s' -> r = s').
  { split.
    - intros H. split; [intros ->; apply (H 0%nat); [done|by rewrite Nat.add_0_r]|].
      intros j. apply (H (Datatypes.S j)).
    - intros [H0 H] [|j] s'; [rewrite Nat.add_0_r, Ea; intros [= ->] [= <-]; by apply H0|apply H]. }
  rewrite Hall. clear Hall Hsplit IH Hnd Hp.
  destruct p as [r'|k o t|]; [|naive_solver..].
  destruct (decide (r' = a)) as [->|Hne]; [naive_solver|]. cbn [fst].
  destruct (decide (r = r')) as [<-|Hr].
  - rewrite lookup_insert_eq. split.
    + intros [(j & Hj & Hs & _)|[[= <-] _]]; [by destruct (Hlater j s Hj Hs)|left; left; done].
    + intros [[(_ & [= <-] & _)|(j & Hj & Hs & _)]|(_ & Hra & _)].
      * right. split; [done|]. intros j s' Hj Hs'. by destruct (Hlater j s' Hj Hs').
      * by destruct (Hlater j s Hj Hs).
      * by destruct (Hne (Hra eq_refl)).
  - rewrite lookup_insert_ne by done. split; [|intros [[([= <-] & _)|?]|(?&_&?)]; [done|by left|by right]].
    intros [?|[? ?]]; [by left; right|right; split; [done|]]. split; [by intros [= <-]|done].
Qed.

(** The stores of spilled parameters. *)
Lemma param_moves_stores i params acc x :
  x ∈ (param_moves l i params acc).2 <->
    x ∈ acc.2 \/ exists j k o t s, params !! j = Some (Target.S k o t) /\
      intArgRegs !! (i + j)%nat = Some s /\ x = Msetstack s (TranslateSlotOffset l k o) t.
Proof.
  revert i acc. induction params as [|p params IH]; intros i acc.
  { cbn. split; [by left|]. intros [?|(j & k & o & t & s & Hj & _)]; done. }
  destruct (intArgRegs !! i) as [a|] eqn:Ea.
  2:{ cbn [param_moves]. rewrite Ea. split; [by left|]. intros [?|(j & k & o & t & s & _ & Hs & _)]; [done|].
      apply int_arg_lt in Hs as [Hlt _]. rewrite int_arg_some in Ea by lia. done. }
  rewrite (param_moves_cons _ _ _ _ _ Ea), IH. setoid_rewrite <- (Nat.add_assoc i 1).
  change (1 + ?x)%nat with (Datatypes.S x). split.
  - intros [Hx|(j & k & o & t & s & H)]; [|right; exists (Datatypes.S j); naive_solver].
    destruct p as [r|k o t|]; [case_decide; by left| |by left].
    cbn in Hx. apply elem_of_app in Hx as [?| ->%list_elem_of_singleton]; [by left|right].
    exists 0%nat, k, o, t, a. by rewrite Nat.add_0_r.
  - intros [Hx|([|j] & k & o & t & s & Hj & Hs & ->)].
    + left. destruct p; [by case_decide| |done]. cbn. apply elem_of_app. by left.
    + injection Hj as ->. rewrite Nat.add_0_r, Ea in Hs. injection Hs as <-. left. cbn. set_solver.
    + right. exists j, k, o, t, s. done.
Qed.
End Moves.

(** ** Execution *)

Section Run.
  Context {V M F : Type} {HT : TargetSemantics V M} {HC : CallConvention V M}.
  Context {HF : FrameMemory F V} {HO : RangeOrder}.
  Implicit Types (rf : MReg -> V) (fr : F) (m : M).

Definition store_of (i : Mach.Instruction) : option (MReg * Z * Typ) :=
  match i with Msetstack r o t => Some (r, o, t) | _ => None end.

Lemma elem_of_stores (c : list Mach.Instruction) r o t : (r, o, t) ∈ omap store_of c <-> Msetstack r o t ∈ c.
Proof using.
  rewrite list_elem_of_omap. split; [|by exists (Msetstack r o t)].
  intros (i & Hi & E). destruct i; try done. by injection E as -> -> ->.
Qed.

(** A sequence of stores at equal or disjoint places. *)
Lemma stores_exec size c rf fr m :
  (forall i, i ∈ c -> exists r o t, i = Msetstack r o t) ->
  (forall r1 o1 t1 r2 o2 t2, Msetstack r1 o1 t1 ∈ c -> Msetstack r2 o2 t2 ∈ c ->
     (r1, o1, t1) = (r2, o2, t2) \/ disjoint_ranges o1 t1 o2 t2) ->
  exists fr', mach_exec_list size c rf fr m = Some (rf, fr', m) /\
    (forall r o t, Msetstack r o t ∈ c -> fget fr' o t = rf r) /\
    (forall o t, (forall r o' t', Msetstack r o' t' ∈ c -> disjoint_ranges o' t' o t) ->
       fget fr' o t = fget fr o t).
Proof using.
  revert fr. induction c as [|i c IH]; intros fr Hc Hd.
  { exists fr. split; [done|]. split; [|done]. intros r o t Hin. by apply not_elem_of_nil in Hin. }
  destruct (Hc i ltac:(by left)) as (r & o & t & ->). cbn [mach_exec_list mach_exec mbind option_bind].
  destruct (IH (fset fr o t (rf r))) as (fr' & Hx & Hin & Hout); [set_solver|set_solver|].
  exists fr'. split; [done|]. split.
  - intros r1 o1 t1 [[= -> -> ->]|H1]%elem_of_cons; [|by apply Hin].
    destruct (decide ((r, o, t) ∈ omap store_of c)) as [He|He]; rewrite elem_of_stores in He.
    { by apply Hin. }
    rewrite Hout; [apply fget_same|]. intros r2 o2 t2 H2.
    destruct (Hd r2 o2 t2 r o t ltac:(by right) ltac:(by left)) as [[= -> -> ->]|?]; [|done].
    by destruct He.
  - intros o1 t1 H1. rewrite Hout by set_solver. apply fget_other. apply (H1 r). by left.
Qed.

Lemma copies_exec size (ms : list (MReg * MReg)) rf fr m :
  mach_exec_list size (copy_inst <$> ms) rf fr m =
    Some (exec_moves (fun s (rf : MReg -> V) => rf s) rf ms, fr, m).
Proof using.
  revert rf. induction ms as [|[s d] ms IH]; intros rf; [done|].
  cbn. rewrite eval_op_move. cbn. apply IH.
Qed.

  Context (f : Linear.Function) (wf : wf_linear call_slots f) (wfp : wf_params f).
  Context (l : FrameLayout) (l_eq : l = fn_layout f) (cs : CalleeSaveInfo) (cs_eq : cs = fn_calleeSave f).

(** What the body finds in the location of a parameter. *)
Definition param_value (p : Loc) rf fr : V :=
  match p with
  | Target.R r => rf r
  | Target.S k o t => fget fr (TranslateSlotOffset l k o) t
  | NilLoc => rf X0
  end.

Lemma saves_elem i :
  i ∈ prologue_saves cs <->
  exists k r, used_regs f !! k = Some r /\ i = Msetstack r (- 8 * (Z.of_nat k + 1)) Tlong.
Proof using All.
  rewrite cs_eq. unfold fn_calleeSave.
  apply prologue_saves_elem; [apply regs_even|by apply (regs_small f wf l)].
Qed.

(** The prologue: the frame keeps what the caller owns. *)
Lemma prologue_exec size rf fr m :
  exists fr', mach_exec_list size (prologue_saves cs) rf (fset (fset fr 0 Tlong (rf FP)) 8 Tlong (rf LR)) m =
      Some (rf, fr', m) /\ frame_ok f rf rf fr'.
Proof using All.
  destruct (stores_exec size (prologue_saves cs) rf (fset (fset fr 0 Tlong (rf FP)) 8 Tlong (rf LR)) m)
    as (fr' & Hx & Hin & Hout).
  - intros i (k & r & _ & ->)%saves_elem. eauto.
  - intros r1 o1 t1 r2 o2 t2 (k1 & r1' & H1 & [= <- -> ->])%saves_elem (k2 & r2' & H2 & [= <- -> ->])%saves_elem.
    unfold disjoint_ranges. change (slotSize Tlong) with 8. destruct (decide (k1 = k2)) as [<-|Hne].
    + left. rewrite H1 in H2. by injection H2 as <-.
    + right. lia.
  - assert (Hlink : forall o, o = 0 \/ o = 8 -> fget fr' o Tlong =
      fget (fset (fset fr 0 Tlong (rf FP)) 8 Tlong (rf LR)) o Tlong).
    { intros o Ho. apply Hout. intros r o' t' (k & r' & _ & [= _ -> ->])%saves_elem.
      unfold disjoint_ranges. change (slotSize Tlong) with 8. lia. }
    exists fr'. split; [done|]. split; [|done| |].
    + intros i r Hi. rewrite (Hin r); [done|]. apply saves_elem. by exists i, r.
    + rewrite Hlink by (by left). rewrite fget_other; [apply fget_same|]. change (slotSize Tlong) with 8. lia.
    + rewrite Hlink by (by right). apply fget_same.
Qed.

Lemma int_arg_not_temp i s : intArgRegs !! i = Some s -> s <> paramCopyTempReg.
Proof using. intros [Hi ->]%int_arg_lt. unfold paramCopyTempReg, X8, X. lia. Qed.

Lemma take_param j p : Linear.fn_Params f !! j = Some p -> (j < 8)%nat -> take 8 (Linear.fn_Params f) !! j = Some p.
Proof using. intros Hj Hlt. by rewrite lookup_take_lt. Qed.

Lemma param_index j p s :
  Linear.fn_Params f !! j = Some p -> intArgRegs !! j = Some s -> take 8 (Linear.fn_Params f) !! j = Some p.
Proof using. intros Hj [Hlt _]%int_arg_lt. by apply take_param. Qed.

(** The stores of the spilled parameters. *)
Lemma param_stores_exec size rf0 rf fr m :
  frame_ok f rf0 rf fr ->
  exists fr', mach_exec_list size (param_moves l 0 (Linear.fn_Params f) (∅, [])).2 rf fr m = Some (rf, fr', m) /\
    frame_ok f rf0 rf fr' /\
    forall j k o t, Linear.fn_Params f !! j = Some (Target.S k o t) -> (j < 8)%nat ->
      fget fr' (TranslateSlotOffset l k o) t = rf (X (Z.of_nat j)).
Proof using All.
  intros [Hsv Hk Hfp Hlr].
  assert (Hst : forall x, x ∈ (param_moves l 0 (Linear.fn_Params f) (∅, [])).2 ->
    exists j k o t s, take 8 (Linear.fn_Params f) !! j = Some (Target.S k o t) /\
      intArgRegs !! j = Some s /\ x = Msetstack s (TranslateSlotOffset l k o) t /\
      (k, o, t) ∈ code_slots (Linear.fn_Code f)).
  { intros x [Hx|(j & k & o & t & s & Hj & Hs & ->)]%param_moves_stores; [by apply not_elem_of_nil in Hx|].
    exists j, k, o, t, s. pose proof (param_index _ _ _ Hj Hs) as Hj'. repeat split; [done..|].
    exact (wp_locs _ wfp _ (list_elem_of_lookup_2 _ _ _ Hj')). }
  destruct (stores_exec size _ rf fr m (fun x Hx =>
    let '(ex_intro _ _ (ex_intro _ k (ex_intro _ o (ex_intro _ t (ex_intro _ s (conj _ (conj _ (conj E _)))))))) := Hst x Hx in
    ex_intro _ s (ex_intro _ _ (ex_intro _ t E)))) as (fr' & Hx & Hin & Hout).
  { intros r1 o1 t1 r2 o2 t2 (j1 & k1 & p1 & u1 & s1 & H1 & E1 & [= -> -> ->] & C1)%Hst
      (j2 & k2 & p2 & u2 & s2 & H2 & E2 & [= -> -> ->] & C2)%Hst.
    destruct (T_apart f wf l l_eq _ _ _ _ _ _ C1 C2) as [[= <- <- <-]|Hd]; [left|by right].
    pose proof (NoDup_lookup _ _ _ _ (wp_nodup _ wfp) H1 H2) as <-. rewrite E1 in E2. by injection E2 as <-. }
  assert (Hkeep : forall o, (o < 0 /\ - 8 * Z.of_nat (length (used_regs f)) <= o) \/ o = 0 \/ o = 8 ->
    fget fr' o Tlong = fget fr o Tlong).
  { intros o Ho. apply Hout. intros r o' t' (j & k & p & u & s & _ & _ & [= _ -> ->] & C)%Hst.
    pose proof (T_clear f wf l l_eq _ _ _ C). unfold disjoint_ranges.
    change (slotSize Tlong) with 8. lia. }
  exists fr'. split; [done|]. split.
  - split; [|done| |].
    + intros i r Hi. pose proof (lookup_lt_Some _ _ _ Hi). rewrite Hkeep by lia. by apply Hsv.
    + rewrite Hkeep by lia. done.
    + rewrite Hkeep by lia. done.
  - intros j k o t Hj Hlt. apply Hin, param_moves_stores. right.
    exists j, k, o, t, (X (Z.of_nat j)). split; [done|]. split; [by apply int_arg_some|done].
Qed.

(** The parameter copies: every parameter that arrives in a register is
    found in its location. *)
Lemma params_exec size copies rf0 fr m :
  GenerateParamCopies (Linear.fn_Params f) l = Some copies -> frame_ok f rf0 rf0 fr ->
  exists rf' fr', mach_exec_list size copies rf0 fr m = Some (rf', fr', m) /\ frame_ok f rf0 rf' fr' /\
    forall j p, Linear.fn_Params f !! j = Some p -> (j < 8)%nat -> param_value p rf' fr' = rf0 (X (Z.of_nat j)).
Proof using All.
  unfold GenerateParamCopies. intros Hc Hfo.
  destruct (param_stores_exec size rf0 rf0 fr m Hfo) as (fr1 & Hx1 & Hfo1 & Hv1).
  pose proof (param_moves_lookup l 0 (Linear.fn_Params f) (∅, [])) as Hlk.
  destruct (param_moves l 0 (Linear.fn_Params f) (∅, [])) as [moves st]. cbn [fst snd] in Hlk, Hx1.
  destruct (resolve Some id paramCopyTempReg (resolve_fuel moves) 0 moves ∅ []) as [ms|] eqn:Er; [|done].
  apply (inj Some) in Hc. subst copies. rewrite mach_exec_list_app, Hx1. cbn [mbind option_bind].
  assert (Hmv : forall r s, moves !! r = Some s <-> exists j, Linear.fn_Params f !! j = Some (Target.R r) /\
    intArgRegs !! j = Some s /\ r <> s).
  { intros r s. rewrite Hlk by apply (wp_nodup _ wfp). rewrite lookup_empty. cbn. naive_solver. }
  assert (Ht : moves !! paramCopyTempReg = None).
  { destruct (moves !! paramCopyTempReg) as [s|] eqn:E; [|done].
    apply Hmv in E as (j & Hj & Hs & _). exfalso. apply (wp_temp _ wfp).
    by eapply list_elem_of_lookup_2, param_index. }
  assert (Hlaws : source_laws Some id (fun s (rf : MReg -> V) => rf s)).
  { split; [|done|done]. by intros s r rf [= ->]. }
  destruct (resolve_parallel Some id paramCopyTempReg _ Hlaws _ 0 moves ms rf0 Ht Er) as [Hdest Hother].
  eexists _, fr1. split; [apply copies_exec|]. split.
  - eapply frame_ok_regs; [done|exact l_eq| |exact Hfo1]. intros r Hs Hu. apply Hother.
    + destruct (moves !! r) as [s|] eqn:E; [|done]. apply Hmv in E as (j & Hj & Hs' & _).
      destruct Hu. apply (wp_writable _ wfp); [|done]. by eapply list_elem_of_lookup_2, param_index.
    + by intros ->.
  - intros j p Hj Hlt. pose proof (int_arg_some j Hlt) as Hs.
    pose proof (param_index _ _ _ Hj Hs) as Hj'. pose proof (wp_locs _ wfp _ (list_elem_of_lookup_2 _ _ _ Hj')) as Hok.
    destruct p as [r|k o t|]; [|by apply Hv1|done]. cbn.
    destruct (decide (r = X (Z.of_nat j))) as [->|Hne].
    + rewrite Hother; [done| |by eapply int_arg_not_temp].
      destruct (moves !! X (Z.of_nat j)) as [s|] eqn:E; [|done]. apply Hmv in E as (j2 & Hj2 & Hs2 & Hne).
      pose proof (param_index _ _ _ Hj2 Hs2) as Hj2'.
      pose proof (NoDup_lookup _ _ _ _ (wp_nodup _ wfp) Hj' Hj2') as <-. rewrite Hs in Hs2. by injection Hs2.
    + apply Hdest. apply Hmv. by exists j.
Qed.
End Run.

(** The prologue and the parameter copies run straight through. *)
Lemma entry_code_plain `{RangeOrder} (f : Linear.Function) (cs : CalleeSaveInfo) copies :
  GenerateParamCopies (Linear.fn_Params f) (fn_layout f) = Some copies ->
  forallb mach_straight (prologue_saves cs ++ copies) = true /\
  forall i, i ∈ prologue_saves cs ++ copies -> Mach.inst_label i = None.
Proof.
  unfold GenerateParamCopies. intros Hc.
  pose proof (param_moves_accesses (fn_layout f) 0 (Linear.fn_Params f) (∅, []) eq_refl) as Ha.
  destruct (param_moves _ _ _ _) as [moves st]. cbn [snd] in Ha.
  destruct (resolve _ _ _ _ _ _ _ _) as [ms|]; [|done]. apply (inj Some) in Hc. subst copies. split.
  - rewrite !forallb_app, !accesses_straight by (done || apply prologue_saves_accesses).
    apply forallb_forall. intros i Hi%list_elem_of_In. by apply list_elem_of_fmap in Hi as (mv & -> & _).
  - intros i [Hi|[Hi|Hi]%elem_of_app]%elem_of_app.
    + by eapply accesses_no_label, Hi; apply prologue_saves_accesses.
    + by eapply accesses_no_label.
    + by apply list_elem_of_fmap in Hi as (mv & -> & _).
Qed.
