(* ===== verification/StackingPass.v ===== *)
(** The stacking pass ([src/pkg/stacking]) as a whole, and what it
    guarantees. *)

From S2P Require Import Prelude Target.
From S2P Require Import Linear Mach ParMove ConvertCall Semantics StackInfo Layout Frame StackingCode.
From S2P Require Import Stacking MachSem StackingCode StackingProof.

(** ** Checkers for the well-formedness conditions *)

Definition loc_ok_check (slots : list (SlotKind * Z * Typ)) (l : Loc) : bool :=
  match l with
  | Target.R r => bool_decide (r ∉ reserved)
  | Target.S k o t => bool_decide ((k, o, t) ∈ slots)
  | NilLoc => false
  end.

Definition compatible_check (s1 s2 : SlotKind * Z * Typ) : bool :=
  bool_decide (s1 = s2) || bool_decide (s1.1.1 <> s2.1.1) ||
  (s1.1.2 + slotSize s1.2 <=? s2.1.2) || (s2.1.2 + slotSize s2.2 <=? s1.1.2).

Definition layout_check (f : Linear.Function) (n : Z) : bool :=
  let info := collectStackInfo f in
  (n mod 2 =? 0) && (0 <=? n) && (8 * n + LocalSize info + OutgoingSize info + 64 <? 2 ^ 63) &&
  (IncomingSize info + 16 <? 2 ^ 63) &&
  forallb (fun s => (0 <=? s.1.2) && (s.1.2 + slotSize s.2 <? 2 ^ 63)) (code_slots (Linear.fn_Code f)).

Definition inst_check (call_slots : Sig -> list (Z * Typ)) (used : list MReg)
    (slots : list (SlotKind * Z * Typ)) (i : Linear.Instruction) : bool :=
  forallb (loc_ok_check slots) (inst_locs i) && negb (is_tailcall i) &&
  match i with
  | Linear.Lcall sig _ => forallb (fun s => bool_decide ((SlotOutgoing, s.1, s.2) ∈ slots)) (call_slots sig)
  | Linear.Lbuiltin _ _ (Some (Target.R r)) => negb (IsCalleeSaved r) || bool_decide (r ∈ used)
  | _ => true
  end.

Definition wf_linear_check `{RangeOrder} (call_slots : Sig -> list (Z * Typ)) (f : Linear.Function) : bool :=
  let slots := code_slots (Linear.fn_Code f) in
  layout_check f (Z.of_nat (length (used_regs f))) &&
  forallb (fun s1 => forallb (compatible_check s1) slots) slots &&
  forallb (inst_check call_slots (used_regs f) slots) (Linear.fn_Code f).

Lemma forallb_spec {A} (p : A -> bool) l : forallb p l = true <-> forall x, x ∈ l -> p x = true.
Proof. rewrite forallb_forall. by setoid_rewrite list_elem_of_In. Qed.

Lemma loc_ok_check_sound f l : loc_ok_check (code_slots (Linear.fn_Code f)) l = true -> loc_ok f l.
Proof. destruct l; cbn; [by intros ?%bool_decide_eq_true..|done]. Qed.

Lemma compatible_check_sound s1 s2 : compatible_check s1 s2 = true -> slots_compatible s1 s2.
Proof.
  unfold compatible_check, slots_compatible. rewrite !orb_true_iff, !Z.leb_le, !bool_decide_eq_true. tauto.
Qed.

Lemma layout_check_sound f n : layout_check f n = true -> layout_ok f n.
Proof.
  unfold layout_check. rewrite !andb_true_iff, Z.eqb_eq, Z.leb_le, !Z.ltb_lt, forallb_spec.
  intros [[[[H1 H2] H3] H4] H5]. split; try done. intros k o t Hin. specialize (H5 _ Hin).
  by rewrite andb_true_iff, Z.leb_le, Z.ltb_lt in H5.
Qed.

Lemma wf_linear_check_sound `{RangeOrder} call_slots f :
  wf_linear_check call_slots f = true -> wf_linear call_slots f.
Proof.
  unfold wf_linear_check. intros [[Hl Hs]%andb_prop Hi]%andb_prop.
  rewrite forallb_spec in Hs. rewrite forallb_spec in Hi.
  assert (Hinst : forall i, i ∈ Linear.fn_Code f -> _) by exact Hi. clear Hi.
  split.
  - by apply layout_check_sound.
  - intros s1 s2 H1 H2. apply compatible_check_sound. specialize (Hs s1 H1).
    rewrite forallb_spec in Hs. by apply Hs.
  - intros i l Hin Hl'. apply loc_ok_check_sound. specialize (Hinst i Hin). cbn beta in Hinst.
    apply andb_prop in Hinst as [[Hi _]%andb_prop _]. rewrite forallb_spec in Hi. by apply Hi.
  - intros sig fn s Hin Hs'. specialize (Hinst _ Hin). apply andb_prop in Hinst as [_ Hi].
    rewrite forallb_spec in Hi. by apply Hi, bool_decide_eq_true in Hs'.
  - intros i Hin. specialize (Hinst i Hin). apply andb_prop in Hinst as [[_ Hi]%andb_prop _].
    by apply negb_true_iff.
  - intros b args r Hin Hsv. specialize (Hinst _ Hin). apply andb_prop in Hinst as [_ Hi].
    rewrite Hsv in Hi. by apply bool_decide_eq_true in Hi.
Qed.

Definition wf_params_check `{RangeOrder} (f : Linear.Function) : bool :=
  let ps := take 8 (Linear.fn_Params f) in
  forallb (loc_ok_check (code_slots (Linear.fn_Code f))) ps &&
  forallb (fun p => match p with
                    | Target.R r => negb (IsCalleeSaved r) || bool_decide (r ∈ used_regs f)
                    | _ => true end) ps &&
  bool_decide (Target.R paramCopyTempReg ∉ ps) && bool_decide (NoDup ps).

Lemma wf_params_check_sound `{RangeOrder} f : wf_params_check f = true -> wf_params f.
Proof.
  unfold wf_params_check. rewrite !andb_true_iff, !forallb_spec, !bool_decide_eq_true.
  intros [[[H1 H2] H3] H4]. split; try done.
  - intros p Hp. by apply loc_ok_check_sound, H1.
  - intros r Hr Hs. specialize (H2 _ Hr). cbn in H2. rewrite Hs in H2. by apply bool_decide_eq_true in H2.
Qed.

(** ** The calling convention of the example target *)

Lemma sum_call_eq f (ls1 ls2 : Loc -> Z) m :
  (forall r, r ∉ reserved -> ls1 (Target.R r) = ls2 (Target.R r)) ->
  ls1 (Target.S SlotOutgoing 0 Tlong) = ls2 (Target.S SlotOutgoing 0 Tlong) ->
  (sum_call f ls1 m).2 = (sum_call f ls2 m).2 /\
  (forall r, r ∉ reserved -> (sum_call f ls1 m).1 (Target.R r) = (sum_call f ls2 m).1 (Target.R r)) /\
  (sum_call f ls1 m).1 (Target.S SlotOutgoing 0 Tlong) = (sum_call f ls2 m).1 (Target.S SlotOutgoing 0 Tlong).
Proof.
  intros Hr Hs. unfold sum_call. cbn.
  rewrite (Hr 0), (Hr 1), Hs by (unfold reserved, X16, X17, FP, LR, X29, X30, X; set_solver).
  split; [done|]. split; [|done]. intros r Hn. case_decide; [done|]. case_match; [by apply Hr|done].
Qed.

Definition sum_convention : CallConvention Z Z (H := sum_target).
Proof.
  refine {| call_slots := (fun _ => [(0, Tlong)]) : Sig -> list (Z * Typ) |}.
  - intros sig f ls1 ls2 m Hr Hs. cbn.
    destruct (sum_call_eq f ls1 ls2 m Hr (Hs (0, Tlong) ltac:(set_solver))) as (H1 & H2 & H3).
    split; [exact H1|]. split; [exact H2|]. intros s ->%list_elem_of_singleton. exact H3.
  - intros sig f ls m ls' m' [= <- _] k o t Hn. cbn. by rewrite decide_False.
  - intros sig f ls m ls' m' [= <- _] r Hs. cbn. rewrite decide_False.
    + case_match eqn:E; [done|]. apply Z.leb_gt in E. unfold IsCalleeSaved, X19, D8, X28, D15, X, D in Hs.
      repeat case_match; try done; lia.
    + intros [= ->]. done.
Defined.

(** ** The pass is correct *)

(** A transformed function reaches its body, which then runs as the Linear
    body does from every state the registers and the frame represent. *)
Lemma stacking_simulates {V M F : Type} `{CallConvention V M} `{FrameMemory F V} `{RangeOrder}
    (f : Linear.Function) (mf : Mach.Function) (rf0 : MReg -> V) (fr0 : F) (m : M) :
  wf_linear call_slots f -> wf_params f -> Stacking.Transform f = Some mf ->
  let step := mach_step (Mach.fn_Stacksize mf) (body_code (Mach.fn_Code mf)) in
  let init := mach_init (body_code (Mach.fn_Code mf)) rf0 fr0 m in
  exists body rf fr,
    rtc (steps_to step) init (body, rf, fr, m) /\
    (forall j p, Linear.fn_Params f !! j = Some p -> (j < 8)%nat ->
       param_value (fn_layout f) p rf fr = rf0 (X (Z.of_nat j))) /\
    forall ls, agrees f (fn_layout f) ls rf fr ->
      let lin := terminates (linear_step (Linear.fn_Code f)) (linear_init f ls m) in
      (forall r, lin r -> exists rf', terminates step (body, rf, fr, m) (r, rf') /\ preserved rf0 rf') /\
      (forall r rf', terminates step (body, rf, fr, m) (r, rf') -> lin r /\ preserved rf0 rf').
Proof.
  intros wf wfp Hmf step init.
  assert (Hpos : 0 < fl_TotalSize (fn_layout f)) by apply (layout_spec _ _ (wl_layout _ _ wf)).
  destruct (Transform_body_code f mf Hmf) as (copies & body & Hcp & Hbody & Hsz & Hcode).
  { apply forallb_spec. intros i Hi. by apply negb_true_iff, (wl_no_tailcall _ _ wf). }
  { done. }
  destruct (prologue_exec f wf wfp _ eq_refl _ eq_refl (fl_TotalSize (fn_layout f)) rf0 fr0 m)
    as (fr1 & Hx1 & Hfo1).
  destruct (params_exec f wf wfp _ eq_refl _ eq_refl (fl_TotalSize (fn_layout f)) copies rf0 fr1 m Hcp Hfo1)
    as (rf2 & fr2 & Hx2 & Hfo2 & Hpar).
  destruct (entry_code_plain f (fn_calleeSave f) copies Hcp) as [Hplain Hnl].
  assert (Hrun : rtc (steps_to step) init (body, rf2, fr2, m)).
  { unfold step, init, mach_init. rewrite Hcode, <- Hsz, app_assoc.
    pose proof (mach_straight_run (fl_TotalSize (fn_layout f)) ((prologue_saves (fn_calleeSave f) ++ copies) ++ body)
      (prologue_saves (fn_calleeSave f) ++ copies) body rf0 (fset (fset fr0 0 Tlong (rf0 FP)) 8 Tlong (rf0 LR)) m Hplain) as Hr.
    rewrite mach_exec_list_app, Hx1 in Hr. cbn [mbind option_bind] in Hr. rewrite Hx2 in Hr. apply Hr. }
  exists body, rf2, fr2. split; [exact Hrun|]. split; [exact Hpar|]. intros ls Hag.
  pose proof (body_equiv f wf _ eq_refl _ eq_refl (prologue_saves (fn_calleeSave f) ++ copies) body Hnl Hbody rf0
    (linear_init f ls m) (body, rf2, fr2, m)) as Heq.
  rewrite <- app_assoc, <- Hcode, Hsz in Heq. fold step in Heq.
  apply Heq. by split; [|split; [exists []|]].
Qed.

(** C20. The stacking pass preserves the semantics of the functions that meet
    [wf_linear] and [wf_params]: no tail calls; no builtin whose result is in a
    callee-saved register that is not saved; registers other than the reserved ones,
    slots that are counted and either the same or apart, a frame whose size is in
    range; distinct register parameters, none of them in the temporary of the copies.
    Entered with any registers and any frame, the transformed function saves what the
    caller owns and puts every parameter that arrives in a register into its location;
    from the state it has then reached, and for every Linear state that it represents,
    the Linear body terminates with a result exactly when the Mach function does, and
    the Mach function hands back the callee-saved registers, the frame pointer and the
    link register unchanged. The slots of the frame are a memory of their own, apart
    from the one that addresses reach ([FrameMemory]), so that stores through
    addresses into the frame ([local_overwrites_frame_pointer]) are not covered. On
    what is excluded: [tailcall_epilogue_emitted], [builtin_result_not_saved]. *)
Theorem Stacking_correct {V M F : Type} `{CallConvention V M} `{FrameMemory F V} `{RangeOrder}
    (f : Linear.Function) (mf : Mach.Function) (rf0 : MReg -> V) (fr0 : F) (m : M) :
  wf_linear call_slots f -> wf_params f -> Stacking.Transform f = Some mf ->
  let step := mach_step (Mach.fn_Stacksize mf) (body_code (Mach.fn_Code mf)) in
  let init := mach_init (body_code (Mach.fn_Code mf)) rf0 fr0 m in
  exists body rf fr,
    rtc (steps_to step) init (body, rf, fr, m) /\
    (forall j p, Linear.fn_Params f !! j = Some p -> (j < 8)%nat ->
       param_value (fn_layout f) p rf fr = rf0 (X (Z.of_nat j))) /\
    (forall ls, agrees f (fn_layout f) ls rf fr ->
       (forall r, terminates (linear_step (Linear.fn_Code f)) (linear_init f ls m) r ->
          exists rf', terminates step init (r, rf') /\ preserved rf0 rf') /\
       (forall r rf', terminates step init (r, rf') ->
          terminates (linear_step (Linear.fn_Code f)) (linear_init f ls m) r /\ preserved rf0 rf')).
Proof.
  intros wf wfp Hmf step init.
  destruct (stacking_simulates f mf rf0 fr0 m wf wfp Hmf) as (body & rf & fr & Hrun & Hpar & Heq).
  exists body, rf, fr. split; [exact Hrun|]. split; [exact Hpar|]. intros ls Hag.
  destruct (Heq ls Hag) as [Hf Hb]. split.
  - intros r Ht. destruct (Hf r Ht) as (rf' & Ht' & Hp). exists rf'. split; [|done].
    by apply (terminates_rtc _ _ _ _ Hrun).
  - intros r rf' Ht. apply Hb. by apply (terminates_rtc _ _ _ _ Hrun).
Qed.

(** A function that is called with a spilled second parameter, keeps its first
    one in X19 over a call with a stack argument, and computes on spills. *)
Definition example_linear : Linear.Function :=
  Linear.mkFunction "f" (mkSig ["long"; "long"] "long" false) [Target.R 1; Target.S SlotLocal 0 Tlong] 16
    [Linear.Llabel 1;
     Linear.Lop Omove [Target.R 1] (Target.R 19);
     Linear.Lsetstack 19 SlotOutgoing 0 Tlong;
     Linear.Lcall (mkSig ["long"] "long" false) (Linear.FunSymbol "g");
     Linear.Lop Oadd [Target.S SlotLocal 0 Tlong; Target.R 0] (Target.S SlotLocal 8 Tlong);
     Linear.Lcond (Ccompimm Clt 40) [Target.S SlotLocal 8 Tlong] 1;
     Linear.Lop Oadd [Target.S SlotLocal 8 Tlong; Target.R 19] (Target.R 0);
     Linear.Lreturn].

Definition example_mach : Mach.Function :=
  default (Mach.NewFunction "" (mkSig [] "" false)) (Stacking.Transform (H := list_order) example_linear).

Lemma Stacking_correct_witness :
  exists ls, terminates (linear_step (H := sum_target) (Linear.fn_Code example_linear))
    (linear_init example_linear ls 0) (Returned 52 1).
Proof.
  destruct (Stacking_correct (H := sum_target) (H0 := sum_convention) (H1 := fun_frame) (H2 := list_order)
    example_linear example_mach (fun r => 10 + r) (fun _ _ => 0) 0) as (body & rf & fr & _ & _ & Heq).
  - apply wf_linear_check_sound. by vm_compute.
  - apply wf_params_check_sound. by vm_compute.
  - by vm_compute.
  - exists (fun l => param_value (HF := fun_frame) (fn_layout (H := list_order) example_linear) l rf fr).
    destruct (Heq (fun l => param_value (HF := fun_frame) (fn_layout (H := list_order) example_linear) l rf fr)) as [_ Hb]; [by split|].
    refine (proj1 (Hb _ _ (run_terminates _ 60 _ _ _))). vm_compute. reflexivity.
Defined.

(** C21. The areas of a frame do not overlap: every slot of the code gets an
    offset inside the area of its kind, different slots stay apart, and all of
    them stay clear of the [n] registers saved below the frame pointer, of the
    saved frame pointer and of the link register; the frame is a multiple of
    16 bytes and covers all the areas. *)
Theorem ComputeLayout_correct (f : Linear.Function) (n : Z) (s1 s2 : SlotKind * Z * Typ) :
  layout_ok f n ->
  s1 ∈ code_slots (Linear.fn_Code f) -> s2 ∈ code_slots (Linear.fn_Code f) ->
  let l := ComputeLayout f n in
  let range s := (TranslateSlotOffset l s.1.1 s.1.2, TranslateSlotOffset l s.1.1 s.1.2 + slotSize s.2) in
  fl_TotalSize l mod 16 = 0 /\
  (s1.1.1 <> SlotIncoming -> 16 - fl_TotalSize l <= (range s1).1 /\ (range s1).2 <= - 8 * n) /\
  (s1.1.1 = SlotIncoming -> 16 <= (range s1).1) /\
  (slots_compatible s1 s2 -> s1 = s2 \/ (range s1).2 <= (range s2).1 \/ (range s2).2 <= (range s1).1).
Proof.
  destruct s1 as [[k1 o1] t1], s2 as [[k2 o2] t2]. intros ok H1 H2 l range. cbn [fst snd] in *.
  destruct (layout_spec f n ok) as (Hm & Hpos & Hout & Hloc & Hls & Hos & Hlo & Hlb & Hon & Hub).
  pose proof (slot_area f n ok _ _ _ H1) as A. cbn zeta in A. fold l in A, Hm, Hpos, Hout, Hloc, Hls, Hos, Hlo, Hon.
  pose proof (info_nonneg f). pose proof (lo_nonneg _ _ ok). pose proof (slotSize_pos t1).
  split; [done|]. split; [|split; [intros ->; unfold range; cbn [fst snd]; lia|by apply slots_apart]].
  intros Hk. unfold range. cbn [fst snd]. destruct k1; [lia|done|lia].
Qed.

Lemma ComputeLayout_correct_witness :
  let l := ComputeLayout example_linear 2 in
  TranslateSlotOffset l SlotLocal 8 + 8 <= -16 /\
  (TranslateSlotOffset l SlotLocal 8 + 8 <= TranslateSlotOffset l SlotOutgoing 0 \/
   TranslateSlotOffset l SlotOutgoing 0 + 8 <= TranslateSlotOffset l SlotLocal 8).
Proof.
  destruct (ComputeLayout_correct example_linear 2 (SlotLocal, 8, Tlong) (SlotOutgoing, 0, Tlong)
    ltac:(apply layout_check_sound; by vm_compute) ltac:(cbn; set_solver) ltac:(cbn; set_solver))
    as (_ & H1 & _ & H3).
  split; [by apply H1|]. destruct H3 as [?|?]; [by right; left|done|done].
Defined.

(** The callee-saved registers to save are found whatever the order in
    which the map of used registers is visited: the sorted list, without
    repetition, of the callee-saved registers that the scan of the code meets;
    padding makes the number even and adds no new register. *)
Theorem FindUsedCalleeSaveRegs_correct (H : RangeOrder) (f : Linear.Function) (r : MReg) :
  let regs := FindUsedCalleeSaveRegs f in
  Sorted Z.le regs /\ NoDup regs /\
  (r ∈ regs <-> IsCalleeSaved r = true /\ r ∈ Linear.fn_Code f ≫= collected_regs) /\
  FindUsedCalleeSaveRegs (H := list_order) f = regs /\
  (length (PadToEven regs) mod 2 = 0)%nat /\ (r ∈ PadToEven regs <-> r ∈ regs).
Proof.
  intros regs. split; [apply sortRegs_spec|]. split; [apply FindUsed_NoDup|]. split; [apply FindUsed_elem|].
  split; [apply FindUsed_order|]. split; apply PadToEven_spec.
Qed.

(** ** Where the pass panics *)

(** Operands loaded by position: only the first two may be slots. *)
Fixpoint operands_fit (k : nat) (locs : list Loc) : bool :=
  match locs with
  | [] => true
  | Target.R _ :: locs => operands_fit (k + 1) locs
  | Target.S _ _ _ :: locs => (k <? 2)%nat && operands_fit (k + 1) locs
  | NilLoc :: _ => false
  end.

(** Operands of [Lop]: at most two of them may be slots. *)
Definition is_slot (l : Loc) : bool := match l with Target.S _ _ _ => true | _ => false end.

Definition op_operands_fit (k : nat) (locs : list Loc) : bool :=
  (k + length (List.filter is_slot locs) <=? 2)%nat && forallb (fun l => bool_decide (l <> NilLoc)) locs.

Definition handled (i : Linear.Instruction) : bool :=
  match i with
  | Linear.Lop _ args _ => op_operands_fit 0 args
  | Linear.Lload _ _ args d => operands_fit 0 args && bool_decide (d <> NilLoc)
  | Linear.Lstore _ _ args s => operands_fit 0 (args ++ [s])
  | Linear.Lcall _ fn | Linear.Ltailcall _ fn =>
      match fn with
      | Linear.FunReg (Target.R _) | Linear.FunSymbol _ => true
      | Linear.FunReg _ => false
      end
  | Linear.Lbuiltin _ args d => operands_fit 0 args && bool_decide (d <> Some NilLoc)
  | Linear.Lcond _ args _ => operands_fit 0 args
  | Linear.Ljumptable arg _ => operands_fit 0 [arg]
  | _ => true
  end.

Lemma temps_lookup k : is_Some (stackingTempRegs !! k) <-> (k < 2)%nat.
Proof. apply lookup_lt_is_Some. Qed.

Lemma temps_none k : (2 <= k)%nat -> stackingTempRegs !! k = None.
Proof. intros Hk. by apply lookup_ge_None. Qed.

Lemma locsToRegs_fit l locs k : is_Some (locsToRegsWithSpill l locs k) <-> operands_fit k locs = true.
Proof.
  revert k. induction locs as [|loc locs IH]; intros k; cbn [locsToRegsWithSpill operands_fit].
  { split; [done|]. by eexists. }
  destruct loc as [r|sk o t|]; cbn [ensureInReg mbind option_bind].
  - rewrite <- IH. destruct (locsToRegsWithSpill l locs (k + 1)) as [[??]|]; cbn; split; intros [??]; eauto; done.
  - destruct (Nat.ltb_spec k 2) as [Hk|Hk].
    + apply temps_lookup in Hk as [tmp ->]. cbn. rewrite <- IH.
      destruct (locsToRegsWithSpill l locs (k + 1)) as [[??]|]; cbn; split; intros [??]; eauto; done.
    + rewrite temps_none by done. cbn. split; [by intros [??]|done].
  - cbn. split; [by intros [??]|done].
Qed.

Lemma lop_args_fit l args k : (k <= 2)%nat -> is_Some (lop_args l args k) <-> op_operands_fit k args = true.
Proof.
  unfold op_operands_fit. revert k.
  induction args as [|a args IH]; intros k Hk; cbn [lop_args List.filter forallb is_slot].
  { rewrite andb_true_r. cbn [length]. rewrite Nat.leb_le. split; [lia|by eexists]. }
  destruct a as [r|sk o t|]; cbn [is_slot].
  - rewrite bool_decide_eq_true_2 by done. cbn [andb]. rewrite <- IH by done.
    destruct (lop_args l args k) as [[??]|]; cbn; split; intros [??]; eauto; done.
  - rewrite bool_decide_eq_true_2 by done. cbn [andb length]. destruct (decide (k < 2)%nat) as [Hlt|Hge].
    + destruct (proj2 (temps_lookup k) Hlt) as [tmp ->]. cbn [mbind option_bind].
      replace (k + Datatypes.S (length (List.filter is_slot args)))%nat
        with (k + 1 + length (List.filter is_slot args))%nat by lia.
      rewrite <- IH by lia. destruct (lop_args l args (k + 1)) as [[??]|]; cbn; split; intros [??]; eauto; done.
    + rewrite temps_none by lia. cbn [mbind option_bind]. split; [by intros [??]|].
      intros [E%Nat.leb_le _]%andb_prop. lia.
  - rewrite bool_decide_eq_false_2 by (intros E; by apply E). cbn. rewrite andb_false_r.
    split; [by intros [??]|done].
Qed.

Lemma ensureInReg_fit l loc k : is_Some (ensureInReg l loc k) <-> operands_fit k [loc] = true.
Proof.
  rewrite <- (locsToRegs_fit l). cbn. destruct (ensureInReg l loc k) as [[??]|]; cbn; split; intros [??]; eauto; done.
Qed.

Lemma operands_fit_app k a b :
  operands_fit k (a ++ b) = operands_fit k a && operands_fit (k + length a) b.
Proof.
  revert k. induction a as [|x a IH]; intros k; cbn; [by rewrite Nat.add_0_r|].
  rewrite !IH. replace (k + 1 + length a)%nat with (k + Datatypes.S (length a))%nat by lia.
  destruct x; [done| |done]. by rewrite andb_assoc.
Qed.

Lemma dest_reg_fit l d : is_Some (dest_reg l d) <-> d <> NilLoc.
Proof. destruct d; cbn; (split; [intros [??]; done|intros Hd]); [by eexists..|by destruct Hd]. Qed.

(** C22. The pass panics exactly on the instructions that are not [handled]: an
    operand in a slot at the third position or later of a load, store, branch
    or builtin, more than two operands of an operation in slots, a call through
    a spilled function pointer, or a location that was never assigned. *)
Theorem transformInst_panics (l : FrameLayout) (cs : CalleeSaveInfo) (i : Linear.Instruction) :
  transformInst l cs i = None <-> handled i = false.
Proof.
  rewrite <- not_true_iff_false, eq_None_not_Some.
  enough (is_Some (transformInst l cs i) <-> handled i = true) by tauto.
  destruct i as [k o t d|s k o t|op args d|ch ad args d|ch ad args s|sig fn|sig fn
    |b args d|lb|lb|cd args lb|arg tg|]; cbn [transformInst handled]; try (split; [done|by eexists]).
  - rewrite <- (lop_args_fit l) by lia. unfold transformLop.
    destruct (lop_args l args 0) as [[??]|]; cbn; [|done]. split; [by eexists|]. intros _. destruct d; by eexists.
  - rewrite andb_true_iff, bool_decide_eq_true, <- (locsToRegs_fit l), <- (dest_reg_fit l). unfold transformLload.
    destruct (locsToRegsWithSpill l args 0) as [[??]|], (dest_reg l d) as [[??]|]; cbn;
      (split; [intros [??]|intros [[??] [??]]]); try done; split; by eexists.
  - rewrite operands_fit_app, andb_true_iff, <- (locsToRegs_fit l), <- (ensureInReg_fit l). unfold transformLstore.
    cbn [Nat.add].
    destruct (locsToRegsWithSpill l args 0) as [[??]|], (ensureInReg l s (length args)) as [[??]|]; cbn;
      (split; [intros [??]|intros [[??] [??]]]); try done; split; by eexists.
  - destruct fn as [[| |]|]; cbn; (split; [intros [??]|intros ?]); try done; by eexists.
  - destruct fn as [[| |]|]; cbn; (split; [intros [??]|intros ?]); try done; by eexists.
  - rewrite andb_true_iff, bool_decide_eq_true, <- (locsToRegs_fit l). unfold transformLbuiltin.
    destruct (locsToRegsWithSpill l args 0) as [[??]|]; cbn; [|by split; [intros [??]|intros [[??] _]]].
    destruct d as [[| |]|]; cbn; (split; [intros [??]|intros [_ ?]]); try done; split; by eexists.
  - rewrite <- (locsToRegs_fit l). unfold transformLcond.
    destruct (locsToRegsWithSpill l args 0) as [[??]|]; cbn; (split; intros [??]); try done; by eexists.
  - rewrite <- (ensureInReg_fit l). unfold transformLjumptable.
    destruct (ensureInReg l arg 0) as [[??]|]; cbn; (split; intros [??]); try done; by eexists.
Qed.

(** The assembly generator recognises the frame instructions of a
    transformed function exactly: it drops the four instructions of the
    prologue and, at every return, the reloads of the frame pointer and the
    link register with the deallocation that follows, and nothing else. *)
Theorem frame_code_recognised `{RangeOrder} (f : Linear.Function) (mf : Mach.Function) :
  Stacking.Transform f = Some mf -> layout_ok f (Z.of_nat (length (used_regs f))) ->
  forallb (fun i => negb (is_tailcall i)) (Linear.fn_Code f) = true ->
  exists copies body,
    GenerateParamCopies (Linear.fn_Params f) (fn_layout f) = Some copies /\
    tr_body (fn_layout f) (fn_calleeSave f) (Linear.fn_Code f) = Some body /\
    body_code (Mach.fn_Code mf) = prologue_saves (fn_calleeSave f) ++ copies ++ body.
Proof.
  intros Hmf Hok Ht. destruct (Transform_body_code f mf Hmf Ht) as (copies & body & H1 & H2 & _ & H4); [|eauto].
  apply (layout_spec _ _ Hok).
Qed.

Lemma frame_code_recognised_witness :
  exists c, body_code (Mach.fn_Code example_mach) = Msetstack 19 (-8) Tlong :: c.
Proof.
  destruct (frame_code_recognised (H := list_order) example_linear example_mach) as (copies & body & _ & _ & E).
  - by vm_compute.
  - apply layout_check_sound. by vm_compute.
  - done.
  - rewrite E. eexists. vm_compute. reflexivity.
Defined.

(** ** Functions the pass gets wrong *)

(** A store with two address registers and a spilled value, the code of
    [a[i] = x] under register pressure, stops the compiler. *)
Theorem spilled_store_panics (l : FrameLayout) (cs : CalleeSaveInfo) (ofs : Z) :
  transformInst l cs (Linear.Lstore Mint32 Aindexed2 [Target.R 0; Target.R 1] (Target.S SlotLocal ofs Tlong)) = None.
Proof. done. Qed.

(** The frame instructions before a tail call are not recognised: they are
    executed relative to the frame pointer. *)
Theorem tailcall_epilogue_emitted :
  let f := Linear.mkFunction "f" (mkSig [] "" false) [] 0
    [Linear.Ltailcall (mkSig [] "" false) (Linear.FunSymbol "g")] in
  match Stacking.Transform (H := list_order) f with
  | Some mf => body_code (Mach.fn_Code mf) =
      [Mgetstack 0 Tlong FP; Mgetstack 8 Tlong LR; Mop (Oaddlimm 16) [] FP;
       Mtailcall (mkSig [] "" false) (Mach.FunSymbol "g")]
  | None => False
  end.
Proof. by vm_compute. Qed.

(** A callee-saved register that only a builtin assigns is not saved. *)
Theorem builtin_result_not_saved :
  used_regs (H := list_order) (Linear.mkFunction "f" (mkSig [] "" false) [] 0
    [Linear.Lbuiltin "b" [] (Some (Target.R 19)); Linear.Lreturn]) = [].
Proof. by vm_compute. Qed.
