(* ===== verification/Asm.v ===== *)
(** ARM64 assembly ([src/pkg/asm/ast.go]), the output of the compiler. The
    floating-point immediate of [FMOVi] is its IEEE 754 bit pattern. *)

From S2P Require Import Prelude Target.

(** The stack pointer: a register number of its own. *)
Definition SP : MReg := 100.

(** Branch targets and symbols. *)
Abbreviation Label := string (only parsing).

Inductive CondCode :=
| CondEQ | CondNE | CondCS | CondCC | CondMI | CondPL | CondVS | CondVC
| CondHI | CondLS | CondGE | CondLT | CondGT | CondLE | CondAL.

(** [CondCode.String] *)
Definition CondCode_String (c : CondCode) : string :=
  match c with
  | CondEQ => "eq" | CondNE => "ne" | CondCS => "cs" | CondCC => "cc" | CondMI => "mi"
  | CondPL => "pl" | CondVS => "vs" | CondVC => "vc" | CondHI => "hi" | CondLS => "ls"
  | CondGE => "ge" | CondLT => "lt" | CondGT => "gt" | CondLE => "le" | CondAL => "al"
  end.

Inductive Instruction :=
(* data processing *)
| ADD (Rd Rn Rm : MReg) (Is64 : bool) | ADDi (Rd Rn : MReg) (Imm : Z) (Is64 : bool)
| SUB (Rd Rn Rm : MReg) (Is64 : bool) | SUBi (Rd Rn : MReg) (Imm : Z) (Is64 : bool)
| MUL (Rd Rn Rm : MReg) (Is64 : bool) | MADD (Rd Rn Rm Ra : MReg) (Is64 : bool)
| SMULL (Rd Rn Rm : MReg) | UMULL (Rd Rn Rm : MReg)
| SDIV (Rd Rn Rm : MReg) (Is64 : bool) | UDIV (Rd Rn Rm : MReg) (Is64 : bool)
| AND (Rd Rn Rm : MReg) (Is64 : bool) | ANDi (Rd Rn : MReg) (Imm : Z) (Is64 : bool)
| ORR (Rd Rn Rm : MReg) (Is64 : bool) | ORRi (Rd Rn : MReg) (Imm : Z) (Is64 : bool)
| EOR (Rd Rn Rm : MReg) (Is64 : bool) | EORi (Rd Rn : MReg) (Imm : Z) (Is64 : bool)
| MVN (Rd Rm : MReg) (Is64 : bool) | NEG (Rd Rm : MReg) (Is64 : bool)
(* shifts *)
| LSL (Rd Rn Rm : MReg) (Is64 : bool) | LSLi (Rd Rn : MReg) (Shift : Z) (Is64 : bool)
| LSR (Rd Rn Rm : MReg) (Is64 : bool) | LSRi (Rd Rn : MReg) (Shift : Z) (Is64 : bool)
| ASR (Rd Rn Rm : MReg) (Is64 : bool) | ASRi (Rd Rn : MReg) (Shift : Z) (Is64 : bool)
| ROR (Rd Rn Rm : MReg) (Is64 : bool) | RORi (Rd Rn : MReg) (Shift : Z) (Is64 : bool)
(* loads and stores *)
| LDR (Rt Rn : MReg) (Ofs : Z) (Is64 : bool) | LDRr (Rt Rn Rm : MReg) (Is64 : bool)
| LDRB (Rt Rn : MReg) (Ofs : Z) | LDRH (Rt Rn : MReg) (Ofs : Z)
| LDRSB (Rt Rn : MReg) (Ofs : Z) (Is64 : bool) | LDRSH (Rt Rn : MReg) (Ofs : Z) (Is64 : bool)
| LDRSW (Rt Rn : MReg) (Ofs : Z)
| STR (Rt Rn : MReg) (Ofs : Z) (Is64 : bool) | STRr (Rt Rn Rm : MReg) (Is64 : bool)
| STRB (Rt Rn : MReg) (Ofs : Z) | STRH (Rt Rn : MReg) (Ofs : Z)
| LDP (Rt1 Rt2 Rn : MReg) (Ofs : Z) (Is64 : bool) | LDPpost (Rt1 Rt2 Rn : MReg) (Ofs : Z) (Is64 : bool)
| STP (Rt1 Rt2 Rn : MReg) (Ofs : Z) (Is64 : bool) | STPpre (Rt1 Rt2 Rn : MReg) (Ofs : Z) (Is64 : bool)
| FLDRs (Ft Rn : MReg) (Ofs : Z) | FLDRd (Ft Rn : MReg) (Ofs : Z)
| FSTRs (Ft Rn : MReg) (Ofs : Z) | FSTRd (Ft Rn : MReg) (Ofs : Z)
(* branches *)
| B (Target : Label) (IsSymbol : bool) | BL (Target : Label) (IsSymbol : bool)
| BR (Rn : MReg) | BLR (Rn : MReg) | RET
| Bcond (Cond : CondCode) (Target : Label)
(* comparisons and conditional selection *)
| CMP (Rn Rm : MReg) (Is64 : bool) | CMPi (Rn : MReg) (Imm : Z) (Is64 : bool)
| CMN (Rn Rm : MReg) (Is64 : bool) | CMNi (Rn : MReg) (Imm : Z) (Is64 : bool)
| TST (Rn Rm : MReg) (Is64 : bool) | TSTi (Rn : MReg) (Imm : Z) (Is64 : bool)
| CSEL (Rd Rn Rm : MReg) (Cond : CondCode) (Is64 : bool)
| CSET (Rd : MReg) (Cond : CondCode) (Is64 : bool)
| CSINC (Rd Rn Rm : MReg) (Cond : CondCode) (Is64 : bool)
(* moves and addresses *)
| MOV (Rd Rm : MReg) (Is64 : bool) | MOVi (Rd : MReg) (Imm : Z) (Is64 : bool)
| MOVZ (Rd : MReg) (Imm Shift : Z) (Is64 : bool) | MOVK (Rd : MReg) (Imm Shift : Z) (Is64 : bool)
| MOVN (Rd : MReg) (Imm Shift : Z) (Is64 : bool)
| ADR (Rd : MReg) (Target : Label) | ADRP (Rd : MReg) (Target : Label) (IsSymbol : bool)
| ADDpageoff (Rd Rn : MReg) (Symbol : Label) (Offset : Z)
(* floating point *)
| FADD (Fd Fn Fm : MReg) (IsDouble : bool) | FSUB (Fd Fn Fm : MReg) (IsDouble : bool)
| FMUL (Fd Fn Fm : MReg) (IsDouble : bool) | FDIV (Fd Fn Fm : MReg) (IsDouble : bool)
| FNEG (Fd Fn : MReg) (IsDouble : bool) | FABS (Fd Fn : MReg) (IsDouble : bool)
| FSQRT (Fd Fn : MReg) (IsDouble : bool)
| FMOV (Fd Fn : MReg) (IsDouble : bool) | FMOVi (Fd : MReg) (ImmBits : Z) (IsDouble : bool)
| SCVTF (Fd Rn : MReg) (IsDouble Is64Src : bool) | UCVTF (Fd Rn : MReg) (IsDouble Is64Src : bool)
| FCVTZS (Rd Fn : MReg) (IsDouble Is64Dst : bool) | FCVTZU (Rd Fn : MReg) (IsDouble Is64Dst : bool)
| FCVT (Fd Fn : MReg) (DstDouble : bool)
| FCMP (Fn Fm : MReg) (IsDouble : bool) | FCMPz (Fn : MReg) (IsDouble : bool)
(* extensions *)
| SXTB (Rd Rn : MReg) (Is64 : bool) | SXTH (Rd Rn : MReg) (Is64 : bool) | SXTW (Rd Rn : MReg)
| UXTB (Rd Rn : MReg) | UXTH (Rd Rn : MReg)
| LabelDef (Name : Label).

Record Function := mkFunction {
  fn_Name : string;
  fn_Code : list Instruction;
  fn_Size : Z
}.

Record GlobVar := mkGlobVar {
  gv_Name : string;
  gv_Size : Z;
  gv_Init : list Z;
  gv_Align : Z;
  gv_ReadOnly : bool
}.

Record Program := mkProgram {
  Globals : list GlobVar;
  Functions : list Function
}.

Definition NewFunction (name : string) : Function := mkFunction name [] 0.

(** [Function.Append] *)
Definition Append (f : Function) (inst : Instruction) : Function :=
  mkFunction (fn_Name f) (fn_Code f ++ [inst]) (fn_Size f).

(** [Function.AppendLabel] *)
Definition AppendLabel (f : Function) (name : Label) : Function :=
  mkFunction (fn_Name f) (fn_Code f ++ [LabelDef name]) (fn_Size f).

(** ** Execution of integer instructions

    A register holds 64 bits, a number from 0 to [2^64 - 1]. An instruction
    reads the low 64 or 32 bits of its operands; writing 32 bits clears the
    upper half. This is the behaviour the architecture manual documents; the
    assembler's limits on immediates are not part of it. *)

Record Flags := mkFlags { flag_N : bool; flag_Z : bool; flag_C : bool; flag_V : bool }.

Definition width (Is64 : bool) : Z := if Is64 then 64 else 32.

(** The flags after comparing two numbers of [w] bits. *)
Definition compare_flags (w a b : Z) : Flags :=
  let a := a mod 2 ^ w in let b := b mod 2 ^ w in
  let d := (a - b) mod 2 ^ w in
  mkFlags (2 ^ (w - 1) <=? d) (d =? 0) (b <=? a) (negb (wrap w a - wrap w b =? wrap w (a - b))).

Definition cond_holds (c : CondCode) (f : Flags) : bool :=
  match c with
  | CondEQ => flag_Z f
  | CondNE => negb (flag_Z f)
  | CondCS => flag_C f
  | CondCC => negb (flag_C f)
  | CondMI => flag_N f
  | CondPL => negb (flag_N f)
  | CondVS => flag_V f
  | CondVC => negb (flag_V f)
  | CondHI => flag_C f && negb (flag_Z f)
  | CondLS => negb (flag_C f && negb (flag_Z f))
  | CondGE => Bool.eqb (flag_N f) (flag_V f)
  | CondLT => negb (Bool.eqb (flag_N f) (flag_V f))
  | CondGT => negb (flag_Z f) && Bool.eqb (flag_N f) (flag_V f)
  | CondLE => negb (negb (flag_Z f) && Bool.eqb (flag_N f) (flag_V f))
  | CondAL => true
  end.

Definition reg_state : Type := (MReg -> Z) * Flags.

(** [Rd := z], truncated to the width. *)
Definition set_reg (s : reg_state) (rd : MReg) (w z : Z) : option reg_state :=
  Some (<[rd := z mod 2 ^ w]> s.1, s.2).

Definition sdiv (a b : Z) : Z := if b =? 0 then 0 else Z.quot a b.
Definition udiv (a b : Z) : Z := if b =? 0 then 0 else a / b.

(** The value an instruction computes in a register. *)
Definition int_result (rf : MReg -> Z) (f : Flags) (i : Instruction) : option (MReg * Z * Z) :=
  let u (is64 : bool) r := rf r mod 2 ^ width is64 in
  let s (is64 : bool) r := wrap (width is64) (rf r) in
  match i with
  | ADD d n m w => Some (d, width w, u w n + u w m)
  | ADDi d n k w => Some (d, width w, u w n + k)
  | SUB d n m w => Some (d, width w, u w n - u w m)
  | SUBi d n k w => Some (d, width w, u w n - k)
  | MUL d n m w => Some (d, width w, u w n * u w m)
  | MADD d n m a w => Some (d, width w, u w a + u w n * u w m)
  | SMULL d n m => Some (d, 64, s false n * s false m)
  | UMULL d n m => Some (d, 64, u false n * u false m)
  | SDIV d n m w => Some (d, width w, sdiv (s w n) (s w m))
  | UDIV d n m w => Some (d, width w, udiv (u w n) (u w m))
  | AND d n m w => Some (d, width w, Z.land (u w n) (u w m))
  | ANDi d n k w => Some (d, width w, Z.land (u w n) k)
  | ORR d n m w => Some (d, width w, Z.lor (u w n) (u w m))
  | ORRi d n k w => Some (d, width w, Z.lor (u w n) k)
  | EOR d n m w => Some (d, width w, Z.lxor (u w n) (u w m))
  | EORi d n k w => Some (d, width w, Z.lxor (u w n) k)
  | MVN d m w => Some (d, width w, Z.lnot (u w m))
  | NEG d m w => Some (d, width w, - u w m)
  | LSL d n m w => Some (d, width w, Z.shiftl (u w n) (u w m mod width w))
  | LSLi d n k w => Some (d, width w, Z.shiftl (u w n) k)
  | LSR d n m w => Some (d, width w, Z.shiftr (u w n) (u w m mod width w))
  | LSRi d n k w => Some (d, width w, Z.shiftr (u w n) k)
  | ASR d n m w => Some (d, width w, Z.shiftr (s w n) (u w m mod width w))
  | ASRi d n k w => Some (d, width w, Z.shiftr (s w n) k)
  | CSEL d n m c w => Some (d, width w, if cond_holds c f then u w n else u w m)
  | CSET d c w => Some (d, width w, if cond_holds c f then 1 else 0)
  | CSINC d n m c w => Some (d, width w, if cond_holds c f then u w n else u w m + 1)
  | MOV d m w => Some (d, width w, u w m)
  | MOVi d k w => Some (d, width w, k)
  | MOVZ d k sh w => Some (d, width w, Z.shiftl k sh)
  | MOVN d k sh w => Some (d, width w, Z.lnot (Z.shiftl k sh))
  | MOVK d k sh w =>
      Some (d, width w, u w d - Z.shiftl (Z.shiftr (u w d) sh mod 2 ^ 16) sh + Z.shiftl k sh)
  | SXTB d n w => Some (d, width w, wrap 8 (rf n))
  | SXTH d n w => Some (d, width w, wrap 16 (rf n))
  | SXTW d n => Some (d, 64, wrap 32 (rf n))
  | UXTB d n => Some (d, 32, rf n mod 2 ^ 8)
  | UXTH d n => Some (d, 32, rf n mod 2 ^ 16)
  | _ => None
  end.

(** One integer instruction. *)
Definition exec_int (i : Instruction) (st : reg_state) : option reg_state :=
  match i with
  | CMP n m w => Some (st.1, compare_flags (width w) (st.1 n) (st.1 m))
  | CMPi n k w => Some (st.1, compare_flags (width w) (st.1 n) k)
  | _ => '(d, w, z) ← int_result st.1 st.2 i; set_reg st d w z
  end.

Fixpoint exec_ints (c : list Instruction) (st : reg_state) : option reg_state :=
  match c with
  | [] => Some st
  | i :: c => st' ← exec_int i st; exec_ints c st'
  end.

(** The flags after comparing two floating-point numbers; [None]: unordered,
    one of them is a NaN. *)
Definition fcmp_flags (r : option comparison) : Flags :=
  match r with
  | Some Lt => mkFlags true false false false
  | Some Eq => mkFlags false true true false
  | Some Gt => mkFlags false false true false
  | None => mkFlags false false true true
  end.

(** ** Memory

    A memory maps addresses, numbers from 0 to [2^64 - 1], to bytes; words
    are little-endian and addresses wrap around. *)

Definition memory : Type := Z -> Z.
Definition byte_at (m : memory) (a : Z) : Z := m (a mod 2 ^ 64) mod 2 ^ 8.

Fixpoint load (n : nat) (m : memory) (a : Z) : Z :=
  match n with
  | O => 0
  | Datatypes.S n => byte_at m a + 2 ^ 8 * load n m (a + 1)
  end.

Definition store (n : nat) (m : memory) (a v : Z) : memory := fun b =>
  let i := (b - a) mod 2 ^ 64 in
  if i <? Z.of_nat n then v / 2 ^ (8 * i) else m b.

Definition state : Type := reg_state * memory.

Definition write_reg (s : state) (rd : MReg) (w z : Z) : option state :=
  rs ← set_reg s.1 rd w z; Some (rs, s.2).

(** One instruction: the integer instructions and the loads and stores of
    integer registers. *)
Definition exec (i : Instruction) (s : state) : option state :=
  let rf := s.1.1 in let m := s.2 in
  match i with
  | LDR t n k true => write_reg s t 64 (load 8 m (rf n + k))
  | LDR t n k false => write_reg s t 32 (load 4 m (rf n + k))
  | LDRB t n k => write_reg s t 32 (load 1 m (rf n + k))
  | LDRH t n k => write_reg s t 32 (load 2 m (rf n + k))
  | LDRSB t n k w => write_reg s t (width w) (wrap 8 (load 1 m (rf n + k)))
  | LDRSH t n k w => write_reg s t (width w) (wrap 16 (load 2 m (rf n + k)))
  | LDRSW t n k => write_reg s t 64 (wrap 32 (load 4 m (rf n + k)))
  | STR t n k true => Some (s.1, store 8 m (rf n + k) (rf t))
  | STR t n k false => Some (s.1, store 4 m (rf n + k) (rf t))
  | STRB t n k => Some (s.1, store 1 m (rf n + k) (rf t))
  | STRH t n k => Some (s.1, store 2 m (rf n + k) (rf t))
  | STP t1 t2 n k true => Some (s.1, store 8 (store 8 m (rf n + k) (rf t1)) (rf n + k + 8) (rf t2))
  | LDP t1 t2 n k true =>
      s' ← write_reg s t1 64 (load 8 m (rf n + k)); write_reg s' t2 64 (load 8 m (rf n + k + 8))
  | _ => rs ← exec_int i s.1; Some (rs, m)
  end.

(** A sequence of instructions, up to its end or the first return. *)
Fixpoint exec_code (c : list Instruction) (s : state) : option state :=
  match c with
  | [] => Some s
  | RET :: _ => Some s
  | i :: c => s' ← exec i s; exec_code c s'
  end.
