(* ===== verification/AsmGen.v ===== *)
(** Assembly generation ([src/pkg/asmgen/transform.go]). An index into the
    argument registers that is out of range panics: [None]. *)

From stdpp Require Import pretty.
From S2P Require Import Prelude Target.
From S2P Require Import Mach MachSem.
From S2P Require Asm.

(** [is64BitType] *)
Definition is64BitType (ty : Typ) : bool :=
  match ty with Tlong | Tfloat | Tany64 => true | _ => false end.

(** [conditionToCondCode] *)
Definition conditionToCondCode (cond : Condition) (unsigned : bool) : Asm.CondCode :=
  match cond with
  | Ceq => Asm.CondEQ
  | Cne => Asm.CondNE
  | Clt => if unsigned then Asm.CondCC else Asm.CondLT
  | Cle => if unsigned then Asm.CondLS else Asm.CondLE
  | Cgt => if unsigned then Asm.CondHI else Asm.CondGT
  | Cge => if unsigned then Asm.CondCS else Asm.CondGE
  end.

(** [uint16(z)] *)
Definition uint16 (z : Z) : Z := z mod 2 ^ 16.

(** [loadIntConstant]; [val] is an [int64]. *)
Definition loadIntConstant (dest : MReg) (val : Z) (is64 : bool) : list Asm.Instruction :=
  if (0 <=? val) && (val <=? 65535) then [Asm.MOVi dest val is64]
  else if (val <? 0) && (-65536 <=? val) then [Asm.MOVN dest (uint16 (Z.lnot val)) 0 is64]
  else
    [Asm.MOVZ dest (uint16 (Z.land val 65535)) 0 is64] ++
    (if negb (Z.land (Z.shiftr val 16) 65535 =? 0)
     then [Asm.MOVK dest (uint16 (Z.land (Z.shiftr val 16) 65535)) 16 is64] else []) ++
    (if is64 then
       (if negb (Z.land (Z.shiftr val 32) 65535 =? 0)
        then [Asm.MOVK dest (uint16 (Z.land (Z.shiftr val 32) 65535)) 32 true] else []) ++
       (if negb (Z.land (Z.shiftr val 48) 65535 =? 0)
        then [Asm.MOVK dest (uint16 (Z.land (Z.shiftr val 48) 65535)) 48 true] else [])
     else []).

(** [loadFloatConstant]; the bits of a float64. *)
Definition loadFloatConstant (dest : MReg) (bits : Z) (isDouble : bool) : list Asm.Instruction :=
  [Asm.FMOVi dest bits isDouble].

(** [float64(x)] for the float32 [x] with the given bits: every float32 is a
    float64. A NaN becomes quiet. *)
Definition float64_of_float32 (bits : Z) : Z :=
  let s := bits / 2 ^ 31 in
  let e := bits / 2 ^ 23 mod 2 ^ 8 in
  let m := bits mod 2 ^ 23 in
  let pack e m := s * 2 ^ 63 + e * 2 ^ 52 + m in
  if e =? 255 then pack 2047 (if m =? 0 then 0 else Z.lor (m * 2 ^ 29) (2 ^ 51))
  else if e =? 0 then
    if m =? 0 then pack 0 0
    else let k := Z.log2 m in pack (k - 149 + 1023) (m * 2 ^ (52 - k) - 2 ^ 52)
  else pack (e - 127 + 1023) (m * 2 ^ 29).

(** [translateCompare] *)
Definition translateCompare (args : list MReg) (dest : MReg) (cond : Condition) (unsigned is64 : bool)
    : option (list Asm.Instruction) :=
  let cc := conditionToCondCode cond unsigned in
  a0 ← args !! 0%nat; a1 ← args !! 1%nat;
  Some [Asm.CMP a0 a1 is64; Asm.CSET dest cc is64].

(** [translateCompareImm] *)
Definition translateCompareImm (arg dest : MReg) (imm : Z) (cond : Condition) (unsigned is64 : bool)
    : list Asm.Instruction :=
  let cc := conditionToCondCode cond unsigned in
  [Asm.CMPi arg imm is64; Asm.CSET dest cc is64].

Section Operation.
  Context (args : list MReg) (dest : MReg).

(** The instruction shapes the cases of [translateOperation] share. *)
Definition op1 (f : MReg -> list Asm.Instruction) : option (list Asm.Instruction) :=
  a0 ← args !! 0%nat; Some (f a0).
Definition op2 (f : MReg -> MReg -> list Asm.Instruction) : option (list Asm.Instruction) :=
  a0 ← args !! 0%nat; a1 ← args !! 1%nat; Some (f a0 a1).

(** [translateOperation] *)
Definition translateOperation (op : Operation) : option (list Asm.Instruction) :=
  match op with
  | Omove =>
      op1 (fun a => if IsFloat dest then [Asm.FMOV dest a true] else [Asm.MOV dest a true])
  | Ointconst v => Some (loadIntConstant dest v false)
  | Olongconst v => Some (loadIntConstant dest v true)
  | Ofloatconst bits => Some (loadFloatConstant dest bits true)
  | Osingleconst bits => Some (loadFloatConstant dest (float64_of_float32 bits) false)
  | Oaddrsymbol sym ofs => Some [Asm.ADRP dest sym true; Asm.ADDpageoff dest dest sym ofs]
  | Oaddrstack ofs => Some [Asm.ADDi dest X29 ofs true]
  | Oadd => op2 (fun a b => [Asm.ADD dest a b false])
  | Oaddimm n => op1 (fun a => [Asm.ADDi dest a n false])
  | Osub => op2 (fun a b => [Asm.SUB dest a b false])
  | Oneg => op1 (fun a => [Asm.NEG dest a false])
  | Omul => op2 (fun a b => [Asm.MUL dest a b false])
  | Omulimm n => op1 (fun a => [Asm.MOVi X8 n false; Asm.MUL dest a X8 false])
  | Odiv => op2 (fun a b => [Asm.SDIV dest a b false])
  | Odivu => op2 (fun a b => [Asm.UDIV dest a b false])
  | Omod => op2 (fun a b => [Asm.SDIV X8 a b false; Asm.MUL X8 X8 b false; Asm.SUB dest a X8 false])
  | Omodu => op2 (fun a b => [Asm.UDIV X8 a b false; Asm.MUL X8 X8 b false; Asm.SUB dest a X8 false])
  | Oand => op2 (fun a b => [Asm.AND dest a b false])
  | Oandimm n => op1 (fun a => [Asm.ANDi dest a n false])
  | Oor => op2 (fun a b => [Asm.ORR dest a b false])
  | Oorimm n => op1 (fun a => [Asm.ORRi dest a n false])
  | Oxor => op2 (fun a b => [Asm.EOR dest a b false])
  | Oxorimm n => op1 (fun a => [Asm.EORi dest a n false])
  | Onot => op1 (fun a => [Asm.MVN dest a false])
  | Oshl => op2 (fun a b => [Asm.LSL dest a b false])
  | Oshlimm n => op1 (fun a => [Asm.LSLi dest a n false])
  | Oshr => op2 (fun a b => [Asm.ASR dest a b false])
  | Oshrimm n => op1 (fun a => [Asm.ASRi dest a n false])
  | Oshru => op2 (fun a b => [Asm.LSR dest a b false])
  | Oshruimm n => op1 (fun a => [Asm.LSRi dest a n false])
  | Oaddl => op2 (fun a b => [Asm.ADD dest a b true])
  | Oaddlimm n =>
      let srcReg := match args with [] => X29 | a :: _ => a end in
      Some [Asm.ADDi dest srcReg n true]
  | Osubl => op2 (fun a b => [Asm.SUB dest a b true])
  | Onegl => op1 (fun a => [Asm.NEG dest a true])
  | Omull => op2 (fun a b => [Asm.MUL dest a b true])
  | Odivl => op2 (fun a b => [Asm.SDIV dest a b true])
  | Odivlu => op2 (fun a b => [Asm.UDIV dest a b true])
  | Omodl => op2 (fun a b => [Asm.SDIV X8 a b true; Asm.MUL X8 X8 b true; Asm.SUB dest a X8 true])
  | Omodlu => op2 (fun a b => [Asm.UDIV X8 a b true; Asm.MUL X8 X8 b true; Asm.SUB dest a X8 true])
  | Oandl => op2 (fun a b => [Asm.AND dest a b true])
  | Oandlimm n => op1 (fun a => [Asm.ANDi dest a n true])
  | Oorl => op2 (fun a b => [Asm.ORR dest a b true])
  | Oorlimm n => op1 (fun a => [Asm.ORRi dest a n true])
  | Oxorl => op2 (fun a b => [Asm.EOR dest a b true])
  | Oxorlimm n => op1 (fun a => [Asm.EORi dest a n true])
  | Onotl => op1 (fun a => [Asm.MVN dest a true])
  | Oshll => op2 (fun a b => [Asm.LSL dest a b true])
  | Oshllimm n => op1 (fun a => [Asm.LSLi dest a n true])
  | Oshrl => op2 (fun a b => [Asm.ASR dest a b true])
  | Oshrlimm n => op1 (fun a => [Asm.ASRi dest a n true])
  | Oshrlu => op2 (fun a b => [Asm.LSR dest a b true])
  | Oshrluimm n => op1 (fun a => [Asm.LSRi dest a n true])
  | Ocast8signed => op1 (fun a => [Asm.SXTB dest a false])
  | Ocast8unsigned => op1 (fun a => [Asm.UXTB dest a])
  | Ocast16signed => op1 (fun a => [Asm.SXTH dest a false])
  | Ocast16unsigned => op1 (fun a => [Asm.UXTH dest a])
  | Olongofint => op1 (fun a => [Asm.SXTW dest a])
  | Olongofintu => op1 (fun a => [Asm.MOV dest a false])
  | Ointoflong => op1 (fun a => [Asm.MOV dest a false])
  | Onegf => op1 (fun a => [Asm.FNEG dest a true])
  | Oabsf => op1 (fun a => [Asm.FABS dest a true])
  | Oaddf => op2 (fun a b => [Asm.FADD dest a b true])
  | Osubf => op2 (fun a b => [Asm.FSUB dest a b true])
  | Omulf => op2 (fun a b => [Asm.FMUL dest a b true])
  | Odivf => op2 (fun a b => [Asm.FDIV dest a b true])
  | Onegs => op1 (fun a => [Asm.FNEG dest a false])
  | Oabss => op1 (fun a => [Asm.FABS dest a false])
  | Oadds => op2 (fun a b => [Asm.FADD dest a b false])
  | Osubs => op2 (fun a b => [Asm.FSUB dest a b false])
  | Omuls => op2 (fun a b => [Asm.FMUL dest a b false])
  | Odivs => op2 (fun a b => [Asm.FDIV dest a b false])
  | Osingleoffloat => op1 (fun a => [Asm.FCVT dest a false])
  | Ofloatofsingle => op1 (fun a => [Asm.FCVT dest a true])
  | Ointoffloat => op1 (fun a => [Asm.FCVTZS dest a true false])
  | Ointuoffloat => op1 (fun a => [Asm.FCVTZU dest a true false])
  | Ofloatofint => op1 (fun a => [Asm.SCVTF dest a true false])
  | Ofloatofintu => op1 (fun a => [Asm.UCVTF dest a true false])
  | Olongoffloat => op1 (fun a => [Asm.FCVTZS dest a true true])
  | Olonguoffloat => op1 (fun a => [Asm.FCVTZU dest a true true])
  | Ofloatoflong => op1 (fun a => [Asm.SCVTF dest a true true])
  | Ofloatoflongu => op1 (fun a => [Asm.UCVTF dest a true true])
  | Ocmp c => translateCompare args dest c false false
  | Ocmpu c => translateCompare args dest c true false
  | Ocmpl c => translateCompare args dest c false true
  | Ocmplu c => translateCompare args dest c true true
  | Ocmpimm c n => a0 ← args !! 0%nat; Some (translateCompareImm a0 dest n c false false)
  | Ocmpuimm c n => a0 ← args !! 0%nat; Some (translateCompareImm a0 dest n c true false)
  | Ocmplimm c n => a0 ← args !! 0%nat; Some (translateCompareImm a0 dest n c false true)
  | Ocmpluimm c n => a0 ← args !! 0%nat; Some (translateCompareImm a0 dest n c true true)
  | _ => Some []
  end.
End Operation.

(** The base register and the offset [translateLoad] and [translateStore]
    extract from an addressing mode. *)
Definition addr_base (addr : AddressingMode) (args : list MReg) : option (MReg * Z) :=
  match addr with
  | Aindexed ofs => base ← args !! 0%nat; Some (base, ofs)
  | Ainstack ofs => Some (X29, ofs)
  | _ => base ← args !! 0%nat; Some (base, 0)
  end.

(** [translateLoad] *)
Definition translateLoad (chunk : Chunk) (addr : AddressingMode) (args : list MReg) (dest : MReg)
    : option (list Asm.Instruction) :=
  '(base, ofs) ← addr_base addr args;
  Some match chunk with
       | Mint8signed => [Asm.LDRSB dest base ofs false]
       | Mint8unsigned => [Asm.LDRB dest base ofs]
       | Mint16signed => [Asm.LDRSH dest base ofs false]
       | Mint16unsigned => [Asm.LDRH dest base ofs]
       | Mint32 => [Asm.LDR dest base ofs false]
       | Mint64 => [Asm.LDR dest base ofs true]
       | Mfloat32 => [Asm.FLDRs dest base ofs]
       | Mfloat64 => [Asm.FLDRd dest base ofs]
       | _ => [Asm.LDR dest base ofs true]
       end.

(** [translateStore] *)
Definition translateStore (chunk : Chunk) (addr : AddressingMode) (args : list MReg) (src : MReg)
    : option (list Asm.Instruction) :=
  '(base, ofs) ← addr_base addr args;
  Some match chunk with
       | Mint8signed | Mint8unsigned => [Asm.STRB src base ofs]
       | Mint16signed | Mint16unsigned => [Asm.STRH src base ofs]
       | Mint32 => [Asm.STR src base ofs false]
       | Mint64 => [Asm.STR src base ofs true]
       | Mfloat32 => [Asm.FSTRs src base ofs]
       | Mfloat64 => [Asm.FSTRd src base ofs]
       | _ => [Asm.STR src base ofs true]
       end.

(** [translateGetstack]; [translateGetparam] has the same body. *)
Definition translateGetstack (ofs : Z) (ty : Typ) (dest : MReg) : list Asm.Instruction :=
  if IsFloat dest then
    if is64BitType ty then [Asm.FLDRd dest X29 ofs] else [Asm.FLDRs dest X29 ofs]
  else [Asm.LDR dest X29 ofs (is64BitType ty)].

Definition translateGetparam (ofs : Z) (ty : Typ) (dest : MReg) : list Asm.Instruction :=
  if IsFloat dest then
    if is64BitType ty then [Asm.FLDRd dest X29 ofs] else [Asm.FLDRs dest X29 ofs]
  else [Asm.LDR dest X29 ofs (is64BitType ty)].

(** [translateSetstack] *)
Definition translateSetstack (src : MReg) (ofs : Z) (ty : Typ) : list Asm.Instruction :=
  if IsFloat src then
    if is64BitType ty then [Asm.FSTRd src X29 ofs] else [Asm.FSTRs src X29 ofs]
  else [Asm.STR src X29 ofs (is64BitType ty)].

(** [translateCall] *)
Definition translateCall (fn : Mach.FunRef) : list Asm.Instruction :=
  match fn with
  | Mach.FunSymbol name => [Asm.BL name true]
  | Mach.FunReg r => [Asm.BLR r]
  end.

(** [translateTailcall] *)
Definition translateTailcall (fn : Mach.FunRef) : list Asm.Instruction :=
  match fn with
  | Mach.FunSymbol name => [Asm.B name true]
  | Mach.FunReg r => [Asm.BR r]
  end.

(** [translateBuiltin] *)
Definition translateBuiltin (builtin : string) : list Asm.Instruction := [Asm.BL builtin true].

Section Context.
  (** The function being translated: its name and its frame size. *)
  Context (name : string) (frameSize : Z).

(** [machLabelToAsm] *)
Definition machLabelToAsm (lbl : Z) : Asm.Label := (".L_" +:+ name +:+ "_" +:+ pretty lbl)%string.

(** [generatePrologue] *)
Definition generatePrologue : list Asm.Instruction :=
  if frameSize =? 0 then []
  else
    let fpOffset := i64 (frameSize - 16) in
    [Asm.SUBi Asm.SP Asm.SP frameSize true; Asm.STP X29 X30 Asm.SP fpOffset true;
     Asm.ADDi X29 Asm.SP fpOffset true].

(** [generateEpilogue] *)
Definition generateEpilogue : list Asm.Instruction :=
  if frameSize =? 0 then [Asm.RET]
  else
    let fpOffset := i64 (frameSize - 16) in
    [Asm.LDP X29 X30 Asm.SP fpOffset true; Asm.ADDi Asm.SP Asm.SP frameSize true; Asm.RET].

(** A comparison that is emitted when there are enough arguments. *)
Definition cmp_regs (args : list MReg) (is64 : bool) : list Asm.Instruction :=
  match args with a0 :: a1 :: _ => [Asm.CMP a0 a1 is64] | _ => [] end.
Definition cmp_imm (args : list MReg) (n : Z) (is64 : bool) : list Asm.Instruction :=
  match args with a0 :: _ => [Asm.CMPi a0 n is64] | _ => [] end.
Definition fcmp_regs (args : list MReg) (isDouble : bool) : list Asm.Instruction :=
  match args with a0 :: a1 :: _ => [Asm.FCMP a0 a1 isDouble] | _ => [] end.

(** [translateCond] *)
Definition translateCond (cond : ConditionCode) (args : list MReg) (ifSo : Z) : list Asm.Instruction :=
  let target := machLabelToAsm ifSo in
  match cond with
  | Ccomp c => cmp_regs args false ++ [Asm.Bcond (conditionToCondCode c false) target]
  | Ccompu c => cmp_regs args false ++ [Asm.Bcond (conditionToCondCode c true) target]
  | Ccompimm c n => cmp_imm args n false ++ [Asm.Bcond (conditionToCondCode c false) target]
  | Ccompuimm c n => cmp_imm args n false ++ [Asm.Bcond (conditionToCondCode c true) target]
  | Ccompl c => cmp_regs args true ++ [Asm.Bcond (conditionToCondCode c false) target]
  | Ccomplu c => cmp_regs args true ++ [Asm.Bcond (conditionToCondCode c true) target]
  | Ccomplimm c n => cmp_imm args n true ++ [Asm.Bcond (conditionToCondCode c false) target]
  | Ccompluimm c n => cmp_imm args n true ++ [Asm.Bcond (conditionToCondCode c true) target]
  | Ccompf c => fcmp_regs args true ++ [Asm.Bcond (conditionToCondCode c false) target]
  | Ccomps c => fcmp_regs args false ++ [Asm.Bcond (conditionToCondCode c false) target]
  | _ => [Asm.Bcond Asm.CondAL target]
  end.

(** [translateJumptable]; [idx] counts the targets. *)
Fixpoint jump_tests (arg : MReg) (idx : Z) (targets : list Z) : list Asm.Instruction :=
  match targets with
  | [] => []
  | target :: targets =>
      [Asm.CMPi arg idx true; Asm.Bcond Asm.CondEQ (machLabelToAsm target)] ++
      jump_tests arg (idx + 1) targets
  end.

Definition translateJumptable (arg : MReg) (targets : list Z) : list Asm.Instruction :=
  jump_tests arg 0 targets.

(** [translateInstruction] *)
Definition translateInstruction (inst : Mach.Instruction) : option (list Asm.Instruction) :=
  match inst with
  | Mgetstack ofs ty dest => Some (translateGetstack ofs ty dest)
  | Msetstack src ofs ty => Some (translateSetstack src ofs ty)
  | Mgetparam ofs ty dest => Some (translateGetparam ofs ty dest)
  | Mop op args dest => translateOperation args dest op
  | Mload chunk addr args dest => translateLoad chunk addr args dest
  | Mstore chunk addr args src => translateStore chunk addr args src
  | Mcall _ fn => Some (translateCall fn)
  | Mtailcall _ fn => Some (translateTailcall fn)
  | Mbuiltin b _ _ => Some (translateBuiltin b)
  | Mlabel l => Some [Asm.LabelDef (machLabelToAsm l)]
  | Mgoto l => Some [Asm.B (machLabelToAsm l) false]
  | Mcond c args l => Some (translateCond c args l)
  | Mjumptable arg targets => Some (translateJumptable arg targets)
  | Mreturn => Some generateEpilogue
  end.

(** The loop of [transformFunction] over the instructions it emits. *)
Fixpoint translate_code (code : list Mach.Instruction) : option (list Asm.Instruction) :=
  match code with
  | [] => Some []
  | i :: code => c ← translateInstruction i; rest ← translate_code code; Some (c ++ rest)
  end.
End Context.

(** [transformFunction] *)
Definition transformFunction (f : Mach.Function) : option Asm.Function :=
  code ← translate_code (Mach.fn_Name f) (Mach.fn_Stacksize f) (body_code (Mach.fn_Code f));
  Some (Asm.mkFunction (Mach.fn_Name f) (generatePrologue (Mach.fn_Stacksize f) ++ code) 0).

(** [TransformProgram] *)
Definition TransformProgram (prog : Mach.Program) : option Asm.Program :=
  fns ← mapM transformFunction (Mach.Functions prog);
  Some (Asm.mkProgram
    ((fun g => Asm.mkGlobVar (Mach.gv_Name g) (Mach.gv_Size g) (Mach.gv_Init g) 8 (Mach.gv_ReadOnly g))
       <$> Mach.Globals prog) fns).
