(* ===== verification/IntOps.v ===== *)
(** What the integer operations and comparisons of the target compute, at 32
    and 64 bits: the specification the assembly generator is verified against,
    and the meaning of operators in the languages above RTL. *)

From S2P Require Import Prelude Target.

(** The arguments are the contents of 64-bit registers. [Some (w, z)] says
    that the low [w] bits of the result are those of the integer [z]; [None]
    leaves the result open: division by zero and shifts by the width or more.
    32-bit operations look at the low halves of their arguments, signed or
    unsigned. *)

Definition u32 (z : Z) : Z := z mod 2 ^ 32.
Definition u64 (z : Z) : Z := z mod 2 ^ 64.

Definition compare_Z (c : Condition) (a b : Z) : bool :=
  match c with
  | Ceq => a =? b | Cne => negb (a =? b) | Clt => a <? b
  | Cle => a <=? b | Cgt => b <? a | Cge => b <=? a
  end.

Definition guard_div (b z : Z) : option Z := if b =? 0 then None else Some z.
Definition guard_shift (w k z : Z) : option Z := if (0 <=? k) && (k <? w) then Some z else None.

Definition int32_op (op : Operation) (args : list Z) : option Z :=
  match op, args with
  | Ointconst v, [] => Some v
  | Oadd, [a; b] => Some (i32 a + i32 b)
  | Oaddimm n, [a] => Some (i32 a + n)
  | Oneg, [a] => Some (- i32 a)
  | Osub, [a; b] => Some (i32 a - i32 b)
  | Omul, [a; b] => Some (i32 a * i32 b)
  | Omulimm n, [a] => Some (i32 a * n)
  | Odiv, [a; b] => guard_div (i32 b) (Z.quot (i32 a) (i32 b))
  | Odivu, [a; b] => guard_div (u32 b) (u32 a / u32 b)
  | Omod, [a; b] => guard_div (i32 b) (Z.rem (i32 a) (i32 b))
  | Omodu, [a; b] => guard_div (u32 b) (u32 a mod u32 b)
  | Oand, [a; b] => Some (Z.land (i32 a) (i32 b))
  | Oandimm n, [a] => Some (Z.land (i32 a) n)
  | Oor, [a; b] => Some (Z.lor (i32 a) (i32 b))
  | Oorimm n, [a] => Some (Z.lor (i32 a) n)
  | Oxor, [a; b] => Some (Z.lxor (i32 a) (i32 b))
  | Oxorimm n, [a] => Some (Z.lxor (i32 a) n)
  | Onot, [a] => Some (Z.lnot (i32 a))
  | Oshl, [a; b] => guard_shift 32 (u32 b) (Z.shiftl (i32 a) (u32 b))
  | Oshlimm n, [a] => guard_shift 32 n (Z.shiftl (i32 a) n)
  | Oshr, [a; b] => guard_shift 32 (u32 b) (Z.shiftr (i32 a) (u32 b))
  | Oshrimm n, [a] => guard_shift 32 n (Z.shiftr (i32 a) n)
  | Oshru, [a; b] => guard_shift 32 (u32 b) (Z.shiftr (u32 a) (u32 b))
  | Oshruimm n, [a] => guard_shift 32 n (Z.shiftr (u32 a) n)
  | Ocast8signed, [a] => Some (wrap 8 a)
  | Ocast8unsigned, [a] => Some (a mod 2 ^ 8)
  | Ocast16signed, [a] => Some (wrap 16 a)
  | Ocast16unsigned, [a] => Some (a mod 2 ^ 16)
  | Ointoflong, [a] => Some a
  | Ocmp c, [a; b] => Some (Z.b2z (compare_Z c (i32 a) (i32 b)))
  | Ocmpu c, [a; b] => Some (Z.b2z (compare_Z c (u32 a) (u32 b)))
  | Ocmpl c, [a; b] => Some (Z.b2z (compare_Z c (i64 a) (i64 b)))
  | Ocmplu c, [a; b] => Some (Z.b2z (compare_Z c (u64 a) (u64 b)))
  | Ocmpimm c n, [a] => Some (Z.b2z (compare_Z c (i32 a) (i32 n)))
  | Ocmpuimm c n, [a] => Some (Z.b2z (compare_Z c (u32 a) (u32 n)))
  | Ocmplimm c n, [a] => Some (Z.b2z (compare_Z c (i64 a) (i64 n)))
  | Ocmpluimm c n, [a] => Some (Z.b2z (compare_Z c (u64 a) (u64 n)))
  | _, _ => None
  end.

Definition int64_op (op : Operation) (args : list Z) : option Z :=
  match op, args with
  | Omove, [a] => Some a
  | Olongconst v, [] => Some v
  | Oaddl, [a; b] => Some (i64 a + i64 b)
  | Oaddlimm n, [a] => Some (i64 a + n)
  | Onegl, [a] => Some (- i64 a)
  | Osubl, [a; b] => Some (i64 a - i64 b)
  | Omull, [a; b] => Some (i64 a * i64 b)
  | Odivl, [a; b] => guard_div (i64 b) (Z.quot (i64 a) (i64 b))
  | Odivlu, [a; b] => guard_div (u64 b) (u64 a / u64 b)
  | Omodl, [a; b] => guard_div (i64 b) (Z.rem (i64 a) (i64 b))
  | Omodlu, [a; b] => guard_div (u64 b) (u64 a mod u64 b)
  | Oandl, [a; b] => Some (Z.land (i64 a) (i64 b))
  | Oandlimm n, [a] => Some (Z.land (i64 a) n)
  | Oorl, [a; b] => Some (Z.lor (i64 a) (i64 b))
  | Oorlimm n, [a] => Some (Z.lor (i64 a) n)
  | Oxorl, [a; b] => Some (Z.lxor (i64 a) (i64 b))
  | Oxorlimm n, [a] => Some (Z.lxor (i64 a) n)
  | Onotl, [a] => Some (Z.lnot (i64 a))
  | Oshll, [a; b] => guard_shift 64 (u64 b) (Z.shiftl (i64 a) (u64 b))
  | Oshllimm n, [a] => guard_shift 64 n (Z.shiftl (i64 a) n)
  | Oshrl, [a; b] => guard_shift 64 (u64 b) (Z.shiftr (i64 a) (u64 b))
  | Oshrlimm n, [a] => guard_shift 64 n (Z.shiftr (i64 a) n)
  | Oshrlu, [a; b] => guard_shift 64 (u64 b) (Z.shiftr (u64 a) (u64 b))
  | Oshrluimm n, [a] => guard_shift 64 n (Z.shiftr (u64 a) n)
  | Olongofint, [a] => Some (i32 a)
  | Olongofintu, [a] => Some (u32 a)
  | _, _ => None
  end.

Definition int_op (op : Operation) (args : list Z) : option (Z * Z) :=
  match int32_op op args with
  | Some z => Some (32, z)
  | None => z ← int64_op op args; Some (64, z)
  end.

(** Whether a condition on integers holds; [None] for the others. *)
Definition int_cond (cond : ConditionCode) (args : list Z) : option bool :=
  match cond, args with
  | Ccomp c, [a; b] => Some (compare_Z c (i32 a) (i32 b))
  | Ccompu c, [a; b] => Some (compare_Z c (u32 a) (u32 b))
  | Ccompimm c n, [a] => Some (compare_Z c (i32 a) (i32 n))
  | Ccompuimm c n, [a] => Some (compare_Z c (u32 a) (u32 n))
  | Ccompl c, [a; b] => Some (compare_Z c (i64 a) (i64 b))
  | Ccomplu c, [a; b] => Some (compare_Z c (u64 a) (u64 b))
  | Ccomplimm c n, [a] => Some (compare_Z c (i64 a) (i64 n))
  | Ccompluimm c n, [a] => Some (compare_Z c (u64 a) (u64 n))
  | _, _ => None
  end.

(** Whether a comparison of floating-point numbers holds, given how they
    compare; only [!=] holds of unordered ones. *)
Definition float_holds (c : Condition) (r : option comparison) : bool :=
  match c, r with
  | Ceq, Some Eq | Cne, (None | Some (Lt | Gt)) | Clt, Some Lt | Cle, Some (Lt | Eq)
  | Cgt, Some Gt | Cge, Some (Gt | Eq) => true
  | _, _ => false
  end.
