(* ===== verification/AsmGenProof.v ===== *)
(** The integer operations, comparisons and constants of the assembly
    generator against a machine-width specification.
    The loads, stores and frames of the assembly generator: byte-level
    memory, and what the emitted code does to it. *)

From Stdlib Require Import Ascii.
From stdpp Require Import pretty.
From S2P Require Import Prelude Target IntOps Mach MachSem AsmGen.
From S2P Require Asm.

(** The operations whose code computes in X8. *)
Definition uses_X8 (op : Operation) : bool :=
  match op with
  | Omulimm _ | Omod | Omodu | Omodl | Omodlu => true
  | _ => false
  end.

(** ** Arithmetic modulo a power of two *)

Definition eqm (w a b : Z) : Prop := a mod 2 ^ w = b mod 2 ^ w.

Lemma eqm_refl w a : eqm w a a.
Proof. done. Qed.

Lemma eqm_mod w a : 0 <= w -> eqm w (a mod 2 ^ w) a.
Proof. intros Hw. unfold eqm. rewrite Zmod_mod. done. Qed.

Lemma eqm_wrap w a : 0 < w -> eqm w (wrap w a) a.
Proof.
  intros Hw. unfold eqm, wrap. rewrite Zminus_mod_idemp_l.
  f_equal. lia.
Qed.

Lemma wrap_eqm w a b : eqm w a b -> wrap w a = wrap w b.
Proof.
  unfold eqm, wrap. intros H.
  by rewrite <- (Zplus_mod_idemp_l a), H, Zplus_mod_idemp_l.
Qed.

Lemma eqm_add w a a' b b' : eqm w a a' -> eqm w b b' -> eqm w (a + b) (a' + b').
Proof. unfold eqm. intros Ha Hb. by rewrite Zplus_mod, Ha, Hb, <- Zplus_mod. Qed.
Lemma eqm_sub w a a' b b' : eqm w a a' -> eqm w b b' -> eqm w (a - b) (a' - b').
Proof. unfold eqm. intros Ha Hb. by rewrite Zminus_mod, Ha, Hb, <- Zminus_mod. Qed.
Lemma eqm_mul w a a' b b' : eqm w a a' -> eqm w b b' -> eqm w (a * b) (a' * b').
Proof. unfold eqm. intros Ha Hb. by rewrite Zmult_mod, Ha, Hb, <- Zmult_mod. Qed.
Lemma eqm_opp w a a' : eqm w a a' -> eqm w (- a) (- a').
Proof. intros Ha. apply (eqm_sub w 0 0 a a' (eqm_refl w 0) Ha). Qed.

(** Equality modulo [2 ^ w] is equality of the low [w] bits. *)
Lemma eqm_bits w a b : 0 <= w ->
  eqm w a b <-> forall i, 0 <= i < w -> Z.testbit a i = Z.testbit b i.
Proof.
  intros Hw. unfold eqm. split.
  - intros H i Hi. rewrite <- (Z.mod_pow2_bits_low a w i), <- (Z.mod_pow2_bits_low b w i), H by lia. done.
  - intros H. apply Z.bits_inj'. intros i Hi. destruct (Z.ltb_spec i w).
    + rewrite !Z.mod_pow2_bits_low by lia. apply H. lia.
    + by rewrite !Z.mod_pow2_bits_high by lia.
Qed.

Lemma eqm_land w a a' b b' : 0 <= w -> eqm w a a' -> eqm w b b' -> eqm w (Z.land a b) (Z.land a' b').
Proof.
  intros Hw. rewrite !eqm_bits by done. intros Ha Hb i Hi. rewrite !Z.land_spec, Ha, Hb by done. done.
Qed.
Lemma eqm_lor w a a' b b' : 0 <= w -> eqm w a a' -> eqm w b b' -> eqm w (Z.lor a b) (Z.lor a' b').
Proof.
  intros Hw. rewrite !eqm_bits by done. intros Ha Hb i Hi. rewrite !Z.lor_spec, Ha, Hb by done. done.
Qed.
Lemma eqm_lxor w a a' b b' : 0 <= w -> eqm w a a' -> eqm w b b' -> eqm w (Z.lxor a b) (Z.lxor a' b').
Proof.
  intros Hw. rewrite !eqm_bits by done. intros Ha Hb i Hi. rewrite !Z.lxor_spec, Ha, Hb by done. done.
Qed.
Lemma eqm_lnot w a a' : 0 <= w -> eqm w a a' -> eqm w (Z.lnot a) (Z.lnot a').
Proof.
  intros Hw. rewrite !eqm_bits by done. intros Ha i Hi. rewrite !Z.lnot_spec, Ha by lia. done.
Qed.
Lemma eqm_shiftl w a a' k : 0 <= w -> 0 <= k -> eqm w a a' -> eqm w (Z.shiftl a k) (Z.shiftl a' k).
Proof.
  intros Hw Hk. rewrite !eqm_bits by done. intros Ha i Hi. rewrite !Z.shiftl_spec by lia.
  destruct (Z.ltb_spec i k); [by rewrite !Z.testbit_neg_r by lia|]. apply Ha. lia.
Qed.

Lemma i32_u32 a b : eqm 32 a b -> i32 a = i32 b.
Proof. apply wrap_eqm. Qed.

(** ** Comparisons *)

Lemma wrap_mod w a : 0 < w ->
  wrap w a = (if 2 ^ (w - 1) <=? a mod 2 ^ w then a mod 2 ^ w - 2 ^ w else a mod 2 ^ w).
Proof.
  intros Hw. assert (Hp : 2 ^ w = 2 * 2 ^ (w - 1)).
  { replace w with (Z.succ (w - 1)) at 1 by lia. rewrite Z.pow_succ_r; lia. }
  assert (H0 : 0 < 2 ^ (w - 1)) by (apply Z.pow_pos_nonneg; lia).
  rewrite <- (wrap_eqm w (a mod 2 ^ w) a) by (apply eqm_mod; lia).
  pose proof (Z.mod_pos_bound a (2 ^ w) ltac:(lia)) as Hb. set (x := a mod 2 ^ w) in *.
  unfold wrap. destruct (Z.leb_spec (2 ^ (w - 1)) x).
  - rewrite <- (Z.mod_unique (x + 2 ^ (w - 1)) (2 ^ w) 1 (x - 2 ^ (w - 1))) by lia. lia.
  - rewrite Z.mod_small by lia. lia.
Qed.

(** A condition code computed from the flags of a comparison is the
    comparison of the two numbers, signed or unsigned. *)
Lemma condition_correct w c uns a b :
  0 < w ->
  Asm.cond_holds (conditionToCondCode c uns) (Asm.compare_flags w a b) =
    if uns then compare_Z c (a mod 2 ^ w) (b mod 2 ^ w) else compare_Z c (wrap w a) (wrap w b).
Proof.
  intros Hw. assert (Hp : 2 ^ w = 2 * 2 ^ (w - 1)).
  { replace w with (Z.succ (w - 1)) at 1 by lia. rewrite Z.pow_succ_r; lia. }
  assert (H0 : 0 < 2 ^ (w - 1)) by (apply Z.pow_pos_nonneg; lia).
  unfold Asm.compare_flags. rewrite !(wrap_eqm w (_ mod _) _) by (apply eqm_mod; lia).
  rewrite !wrap_mod by done. set (h := 2 ^ (w - 1)) in *. rewrite Hp in *.
  pose proof (Z.mod_pos_bound a (2 * h) ltac:(lia)) as Ha. pose proof (Z.mod_pos_bound b (2 * h) ltac:(lia)) as Hb.
  set (x := a mod (2 * h)) in *. set (y := b mod (2 * h)) in *.
  assert (Hd : (x - y) mod (2 * h) = if y <=? x then x - y else x - y + 2 * h).
  { destruct (Z.leb_spec y x); [by rewrite Z.mod_small by lia|].
    symmetry. apply (Z.mod_unique _ _ (-1)); lia. }
  rewrite Hd. clear Hd.
  destruct c, uns; cbn [conditionToCondCode Asm.cond_holds Asm.flag_Z Asm.flag_C Asm.flag_N Asm.flag_V compare_Z];
    repeat match goal with
    | |- context [?p <=? ?q] => destruct (Z.leb_spec p q)
    | |- context [?p <? ?q] => destruct (Z.ltb_spec p q)
    | |- context [?p =? ?q] => destruct (Z.eqb_spec p q)
    end; cbn; try reflexivity; exfalso; lia.
Qed.

(** ** Constants *)

Lemma land_65535 z : Z.land z 65535 = z mod 2 ^ 16.
Proof. change 65535 with (Z.ones 16). by rewrite Z.land_ones. Qed.

Lemma field_uint16 val sh : uint16 (Z.land (Z.shiftr val sh) 65535) = Z.shiftr val sh mod 2 ^ 16.
Proof. unfold uint16. by rewrite land_65535, Zmod_mod. Qed.

(** The low [sh + 16] bits are the low [sh] bits and the next field. *)
Lemma low_bits_split val sh : 0 <= sh ->
  val mod 2 ^ (sh + 16) = val mod 2 ^ sh + Z.shiftl (Z.shiftr val sh mod 2 ^ 16) sh.
Proof.
  intros Hsh. rewrite Z.shiftl_mul_pow2, Z.shiftr_div_pow2, Z.pow_add_r by lia.
  assert (0 < 2 ^ sh) by (apply Z.pow_pos_nonneg; lia).
  rewrite Z.rem_mul_r by lia. lia.
Qed.

(** [MOVK] adds the next field to a register that holds the low bits. *)
Lemma movk_step val sh (is64 : bool) x : 0 <= sh -> sh + 16 <= Asm.width is64 ->
  x = val mod 2 ^ sh ->
  (x mod 2 ^ Asm.width is64 - Z.shiftl (Z.shiftr (x mod 2 ^ Asm.width is64) sh mod 2 ^ 16) sh
     + Z.shiftl (Z.shiftr val sh mod 2 ^ 16) sh) mod 2 ^ Asm.width is64 = val mod 2 ^ (sh + 16).
Proof.
  intros Hsh Hw ->. assert (H0 : 0 < 2 ^ sh) by (apply Z.pow_pos_nonneg; lia).
  assert (Hle : 2 ^ (sh + 16) <= 2 ^ Asm.width is64) by (apply Z.pow_le_mono_r; lia).
  pose proof (Z.mod_pos_bound val (2 ^ sh) H0) as Hb.
  assert (Hlt : 2 ^ sh <= 2 ^ (sh + 16)) by (apply Z.pow_le_mono_r; lia).
  rewrite (Z.mod_small (val mod 2 ^ sh)) by lia.
  rewrite (Z.shiftr_div_pow2 (val mod _)), (Z.div_small (val mod _)) by lia.
  rewrite Zmod_0_l, Z.shiftl_0_l, Z.sub_0_r, <- low_bits_split by done.
  apply Z.mod_small. pose proof (Z.mod_pos_bound val (2 ^ (sh + 16))). lia.
Qed.

(** One optional [MOVK]. *)
Lemma movk_exec dest val sh is64 rf fl : 0 <= sh -> sh + 16 <= Asm.width is64 ->
  rf dest = val mod 2 ^ sh ->
  exists rf', Asm.exec_ints
      (if negb (Z.land (Z.shiftr val sh) 65535 =? 0)
       then [Asm.MOVK dest (uint16 (Z.land (Z.shiftr val sh) 65535)) sh is64] else []) (rf, fl) = Some (rf', fl) /\
    rf' dest = val mod 2 ^ (sh + 16) /\ forall r, r <> dest -> rf' r = rf r.
Proof.
  intros Hsh Hw Hr. destruct (Z.eqb_spec (Z.land (Z.shiftr val sh) 65535) 0) as [E|E]; cbn [negb].
  - exists rf. split; [done|]. split; [|done].
    rewrite Hr, low_bits_split, <- land_65535, E, Z.shiftl_0_l by done. lia.
  - eexists. split; [done|]. cbn [fst snd]. split; [|intros r Hne; by apply fn_lookup_insert_ne].
    rewrite fn_lookup_insert, field_uint16. by apply movk_step.
Qed.

Lemma exec_ints_app c1 c2 st : Asm.exec_ints (c1 ++ c2) st = st' ← Asm.exec_ints c1 st; Asm.exec_ints c2 st'.
Proof.
  revert st. induction c1 as [|i c1 IH]; intros st; [done|]. cbn.
  destruct (Asm.exec_int i st); [apply IH|done].
Qed.

(** The instructions of [loadIntConstant] load the constant. *)
Lemma loadIntConstant_exec dest val is64 rf fl :
  exists rf', Asm.exec_ints (loadIntConstant dest val is64) (rf, fl) = Some (rf', fl) /\
    rf' dest = val mod 2 ^ Asm.width is64 /\ forall r, r <> dest -> rf' r = rf r.
Proof.
  unfold loadIntConstant. destruct ((0 <=? val) && (val <=? 65535)).
  { eexists. split; [done|]. cbn [fst snd]. split; [apply fn_lookup_insert|].
    intros r Hne. by apply fn_lookup_insert_ne. }
  destruct ((val <? 0) && (-65536 <=? val)) eqn:Eneg.
  { eexists. split; [done|]. cbn [fst snd]. split; [|intros r Hne; by apply fn_lookup_insert_ne].
    rewrite fn_lookup_insert, Z.shiftl_0_r. unfold uint16.
    apply andb_prop in Eneg as [H1%Z.ltb_lt H2%Z.leb_le].
    rewrite (Z.mod_small (Z.lnot val)) by (unfold Z.lnot; lia). by rewrite Z.lnot_involutive. }
  rewrite exec_ints_app.
  cbn [Asm.exec_ints Asm.exec_int Asm.int_result Asm.set_reg mbind option_bind fst snd].
  set (rf0 := <[dest := _]> rf).
  assert (H0 : rf0 dest = val mod 2 ^ 16).
  { unfold rf0. rewrite fn_lookup_insert, Z.shiftl_0_r. unfold uint16. rewrite land_65535, Zmod_mod.
    apply Z.mod_small. pose proof (Z.mod_pos_bound val (2 ^ 16) ltac:(lia)). destruct is64; cbn in *; lia. }
  assert (Ho : forall r, r <> dest -> rf0 r = rf r) by (intros r Hne; by apply fn_lookup_insert_ne).
  clearbody rf0. rewrite exec_ints_app.
  destruct (movk_exec dest val 16 is64 rf0 fl ltac:(lia) ltac:(destruct is64; cbn; lia) H0) as (rf1 & -> & H1 & Ho1).
  cbn [mbind option_bind]. destruct is64.
  - rewrite exec_ints_app.
    destruct (movk_exec dest val 32 true rf1 fl ltac:(lia) ltac:(cbn; lia) H1) as (rf2 & -> & H2 & Ho2).
    cbn [mbind option_bind].
    destruct (movk_exec dest val 48 true rf2 fl ltac:(lia) ltac:(cbn; lia) H2) as (rf3 & -> & H3 & Ho3).
    exists rf3. split; [done|]. split; [done|]. intros r Hne. by rewrite Ho3, Ho2, Ho1, Ho.
  - exists rf1. split; [done|]. split; [done|]. intros r Hne. by rewrite Ho1, Ho.
Qed.

(** ** Operations *)

Lemma guard_div_inv b z z' : guard_div b z = Some z' -> b <> 0 /\ z' = z.
Proof. unfold guard_div. destruct (Z.eqb_spec b 0); [done|]. by intros [= <-]. Qed.

Lemma guard_shift_inv w k z z' : guard_shift w k z = Some z' -> 0 <= k < w /\ z' = z.
Proof.
  unfold guard_shift. destruct (Z.leb_spec 0 k), (Z.ltb_spec k w); cbn; try done. intros [= <-]. lia.
Qed.

Lemma eqm_trans w a b c : eqm w a b -> eqm w b c -> eqm w a c.
Proof. unfold eqm. congruence. Qed.

Lemma eqm_sym w a b : eqm w a b -> eqm w b a.
Proof. unfold eqm. congruence. Qed.

Lemma eqm_mod_wrap w a : 0 < w -> eqm w (a mod 2 ^ w) (wrap w a).
Proof. intros Hw. eapply eqm_trans; [by apply eqm_mod; lia|]. by apply eqm_sym, eqm_wrap. Qed.

Create HintDb eqm.
#[export] Hint Resolve eqm_refl eqm_mod_wrap eqm_add eqm_sub eqm_mul eqm_opp eqm_land eqm_lor eqm_lxor
  eqm_lnot : eqm.

Lemma sdiv_quot a b : b <> 0 -> Asm.sdiv a b = Z.quot a b.
Proof. unfold Asm.sdiv. destruct (Z.eqb_spec b 0); done. Qed.
Lemma udiv_div a b : b <> 0 -> Asm.udiv a b = a / b.
Proof. unfold Asm.udiv. destruct (Z.eqb_spec b 0); done. Qed.

(** What a piece of code does to the registers: a result in [dest], and
    nothing else but, when [tmp], a value in X8. *)
Definition computes (code : list Asm.Instruction) (dest : MReg) (tmp : bool) (rf : MReg -> Z) (fl : Asm.Flags)
    (w z : Z) : Prop :=
  exists rf' fl', Asm.exec_ints code (rf, fl) = Some (rf', fl') /\ eqm w (rf' dest) z /\
    forall r, r <> dest -> (tmp = true -> r <> X8) -> rf' r = rf r.

(** A single instruction. *)
Lemma computes_one i dest rf fl w' z' w z :
  Asm.int_result rf fl i = Some (dest, w', z') -> eqm w (z' mod 2 ^ w') z ->
  computes [i] dest false rf fl w z.
Proof.
  intros Hi Heq. exists (<[dest := z' mod 2 ^ w']> rf), fl. split.
  - cbn. assert (Hx : Asm.exec_int i (rf, fl) = Some (<[dest := z' mod 2 ^ w']> rf, fl)).
    { destruct i; try (by cbn in Hi); unfold Asm.exec_int; cbn [fst snd]; by rewrite ?Hi. }
    by rewrite Hx.
  - split; [by rewrite fn_lookup_insert|]. intros r Hne _. by apply fn_lookup_insert_ne.
Qed.

Lemma computes_one_eqm i dest rf fl w z' z :
  0 <= w ->
  Asm.int_result rf fl i = Some (dest, w, z') -> eqm w z' z ->
  computes [i] dest false rf fl w z.
Proof.
  intros Hw Hi Heq. eapply computes_one; [done|].
  eapply eqm_trans; [by apply eqm_mod|done].
Qed.

(** A comparison and a conditional set. *)
Lemma computes_compare i dest c uns is64 rf fl a b w :
  Asm.exec_int i (rf, fl) = Some (rf, Asm.compare_flags (Asm.width is64) a b) -> 0 < w <= Asm.width is64 ->
  computes [i; Asm.CSET dest (conditionToCondCode c uns) is64] dest false rf fl w
    (Z.b2z (if uns then compare_Z c (a mod 2 ^ Asm.width is64) (b mod 2 ^ Asm.width is64)
            else compare_Z c (wrap (Asm.width is64) a) (wrap (Asm.width is64) b))).
Proof.
  intros Hi Hw. eexists _, _. split; [cbn [Asm.exec_ints]; rewrite Hi; reflexivity|].
  split; [|intros r Hne _; by apply fn_lookup_insert_ne].
  rewrite fn_lookup_insert. cbn [Asm.int_result fst snd].
  rewrite condition_correct by (destruct is64; cbn; lia).
  destruct uns, (compare_Z _ _ _); cbn [Z.b2z]; unfold eqm; f_equal;
    apply Z.mod_small; destruct is64; cbn; lia.
Qed.

(** Remainders: a quotient, a product and a difference. *)
Lemma computes_mod i a b dest (is64 : bool) rf fl q z :
  a <> X8 -> b <> X8 -> Asm.exec_int i (rf, fl) = Asm.set_reg (rf, fl) X8 (Asm.width is64) q ->
  eqm (Asm.width is64) (rf a - q * rf b) z ->
  computes [i; Asm.MUL X8 X8 b is64; Asm.SUB dest a X8 is64] dest true rf fl (Asm.width is64) z.
Proof.
  intros Ha Hb Hi Heq. set (w := Asm.width is64) in *.
  assert (Hw : 0 <= w) by (unfold w; destruct is64; cbn; lia).
  eexists _, _. split.
  { cbn [Asm.exec_ints]. rewrite Hi. cbn. reflexivity. }
  cbn [fst snd]. split.
  - rewrite fn_lookup_insert. eapply eqm_trans; [by apply eqm_mod|]. eapply eqm_trans; [|exact Heq].
    rewrite !fn_lookup_insert, !(fn_lookup_insert_ne _ X8 a), !(fn_lookup_insert_ne _ X8 b) by done. fold w.
    apply eqm_sub; [by apply eqm_mod|].
    eapply eqm_trans; [by apply eqm_mod|]. eapply eqm_trans; [by apply eqm_mod|].
    apply eqm_mul; [|by apply eqm_mod]. eapply eqm_trans; [by apply eqm_mod|by apply eqm_mod].
  - intros r Hne H8. by rewrite !fn_lookup_insert_ne by (try done; intros <-; by apply H8).
Qed.

Lemma computes_mulimm a dest n rf fl :
  a <> X8 -> computes [Asm.MOVi X8 n false; Asm.MUL dest a X8 false] dest true rf fl 32 (i32 (rf a) * n).
Proof.
  intros Ha. eexists _, _. split; [reflexivity|]. cbn [fst snd]. split.
  - rewrite fn_lookup_insert. eapply eqm_trans; [by apply eqm_mod|].
    rewrite fn_lookup_insert, fn_lookup_insert_ne by done.
    apply eqm_mul; [by apply eqm_mod_wrap|]. eapply eqm_trans; by apply eqm_mod.
  - intros r Hne H8. by rewrite !fn_lookup_insert_ne by (try done; intros <-; by apply H8).
Qed.

Lemma computes_tmp code dest tmp rf fl w z :
  computes code dest false rf fl w z -> computes code dest tmp rf fl w z.
Proof. intros (rf' & fl' & H1 & H2 & H3). exists rf', fl'. split; [done|]. split; [done|]. auto. Qed.

Lemma eqm_rem w a b q : 0 < w -> q = Z.quot (wrap w a) (wrap w b) ->
  eqm w (a - q * b) (Z.rem (wrap w a) (wrap w b)).
Proof.
  intros Hw ->. pose proof (Z.quot_rem' (wrap w a) (wrap w b)) as E.
  replace (Z.rem _ _) with (wrap w a - Z.quot (wrap w a) (wrap w b) * wrap w b) by lia.
  apply eqm_sub; [by apply eqm_sym, eqm_wrap|]. apply eqm_mul; [done|by apply eqm_sym, eqm_wrap].
Qed.

Lemma eqm_modu w a b q : 0 <= w -> b mod 2 ^ w <> 0 -> q = (a mod 2 ^ w) / (b mod 2 ^ w) ->
  eqm w (a - q * b) ((a mod 2 ^ w) mod (b mod 2 ^ w)).
Proof.
  intros Hw Hb ->. pose proof (Z.div_mod (a mod 2 ^ w) (b mod 2 ^ w) Hb) as E.
  replace ((a mod 2 ^ w) mod (b mod 2 ^ w)) with
    (a mod 2 ^ w - (a mod 2 ^ w) / (b mod 2 ^ w) * (b mod 2 ^ w)) by lia.
  apply eqm_sub; [by apply eqm_sym, eqm_mod|]. apply eqm_mul; [done|by apply eqm_sym, eqm_mod].
Qed.

Lemma eqm_b2z w c : 1 < w -> eqm w (Z.b2z c mod 2 ^ 32) (Z.b2z c).
Proof. intros Hw. by destruct c. Qed.

(** The arguments come from [args]. *)
Lemma map_nil {A B} (g : A -> B) l : g <$> l = [] -> l = [].
Proof. by destruct l. Qed.
Lemma map_one {A B} (g : A -> B) l x : g <$> l = [x] -> exists a, l = [a] /\ x = g a.
Proof. destruct l as [|a [|??]]; cbn; intros [=]; subst; eauto. Qed.
Lemma map_two {A B} (g : A -> B) l x y : g <$> l = [x; y] -> exists a b, l = [a; b] /\ x = g a /\ y = g b.
Proof. destruct l as [|a [|b [|??]]]; cbn; intros [=]; subst; eauto. Qed.

(** One instruction that computes a value congruent to the specification. *)
#[export] Hint Extern 1 (_ < _) => lia : eqm.
#[export] Hint Extern 1 (_ <= _) => lia : eqm.

Lemma eqm_shiftl' w a k : 0 < w -> 0 <= k -> eqm w (Z.shiftl (a mod 2 ^ w) k) (Z.shiftl (wrap w a) k).
Proof. intros Hw Hk. apply eqm_shiftl; [lia|done|by apply eqm_mod_wrap]. Qed.

Lemma eqm_wide w a : 0 < w -> eqm w (a mod 2 ^ w) a.
Proof. intros Hw. apply eqm_mod. lia. Qed.
#[export] Hint Resolve eqm_shiftl' eqm_wide : eqm.

Ltac one_inst :=
  eexists; split; [reflexivity|];
  apply computes_tmp; eapply computes_one_eqm; [lia|reflexivity|cbn [Asm.width fst snd]; auto 6 with eqm].

(** The other shapes of code. *)
Ltac compare_inst :=
  eexists; split; [reflexivity|]; apply computes_tmp; unfold translateCompareImm;
  match goal with |- computes [?i; Asm.CSET ?d (conditionToCondCode ?c ?uns) ?is64] _ _ ?rf ?fl ?w _ =>
    match i with
    | Asm.CMP ?a ?b _ => exact (computes_compare i d c uns is64 rf fl (rf a) (rf b) w eq_refl ltac:(cbn; lia))
    | Asm.CMPi ?a ?n _ => exact (computes_compare i d c uns is64 rf fl (rf a) n w eq_refl ltac:(cbn; lia))
    end
  end.

Ltac div_inst :=
  eexists; split; [reflexivity|]; apply computes_tmp; eapply computes_one_eqm;
    [|reflexivity|cbn [Asm.width fst snd]; rewrite ?sdiv_quot, ?udiv_div by done; done]; lia.

Ltac shift_inst :=
  eexists; split; [reflexivity|]; apply computes_tmp; eapply computes_one_eqm;
    [|reflexivity|cbn [Asm.width fst snd]; rewrite (Z.mod_small (_ mod _)) by done; auto with eqm]; lia.

Ltac mod_inst H8 :=
  specialize (H8 eq_refl); rewrite !not_elem_of_cons in H8; destruct H8 as (? & ? & _);
  eexists; split; [reflexivity|];
  match goal with
  | |- computes (_ :: _ :: [Asm.SUB _ _ _ ?is64]) _ _ _ _ _ _ =>
      eapply (computes_mod _ _ _ _ is64); [congruence|congruence|reflexivity|];
      cbn [Asm.width fst snd]; first
        [apply eqm_rem; [lia|by apply sdiv_quot]|apply eqm_modu; [lia|done|by apply udiv_div]]
  end.

Ltac const_inst :=
  eexists; split; [reflexivity|];
  match goal with |- computes (loadIntConstant ?dest ?v ?is64) _ _ ?rf ?fl _ _ =>
    let rf' := fresh in let Hx := fresh in let Hd := fresh in let Ho := fresh in
    destruct (loadIntConstant_exec dest v is64 rf fl) as (rf' & Hx & Hd & Ho);
    exists rf', fl; split; [done|]; split; [rewrite Hd; apply eqm_mod; cbn; lia|auto]
  end.

Ltac mulimm_inst H8 :=
  specialize (H8 eq_refl); rewrite !not_elem_of_cons in H8; destruct H8 as (? & _);
  eexists; split; [reflexivity|]; apply computes_mulimm; congruence.

(** The division and shift guards. *)
Ltac guards Hop :=
  match type of Hop with
  | guard_div _ _ = Some _ => apply guard_div_inv in Hop as [Hnz ->]
  | guard_shift _ _ _ = Some _ => apply guard_shift_inv in Hop as [Hsh ->]
  | Some _ = Some _ => injection Hop as <-
  end.

Ltac translate_cases H8 :=
  first [solve [one_inst] | solve [compare_inst] | solve [div_inst] | solve [shift_inst] | solve [const_inst]
    | solve [mod_inst H8] | solve [mulimm_inst H8]].

Lemma translate32_correct op args dest rf fl z :
  int32_op op (rf <$> args) = Some z -> (uses_X8 op = true -> X8 ∉ args) ->
  exists code, translateOperation args dest op = Some code /\ computes code dest (uses_X8 op) rf fl 32 z.
Proof.
  intros Hop H8.
  assert (Hargs : match args with [] | [_] | [_; _] => True | _ => False end).
  { destruct args as [|a [|b [|c args]]]; [done..|]. by destruct op. }
  destruct args as [|a [|b [|c args]]]; [| | |done]; clear Hargs;
    destruct op; cbn [int32_op fmap list_fmap] in Hop; try done;
    unfold i32, i64, u32, u64 in Hop; guards Hop; translate_cases H8.
Qed.

Lemma translate64_correct op args dest rf fl z :
  int64_op op (rf <$> args) = Some z -> (uses_X8 op = true -> X8 ∉ args) -> IsFloat dest = false ->
  exists code, translateOperation args dest op = Some code /\ computes code dest (uses_X8 op) rf fl 64 z.
Proof.
  intros Hop H8 Hf.
  assert (Hargs : match args with [] | [_] | [_; _] => True | _ => False end).
  { destruct args as [|a [|b [|c args]]]; [done..|]. by destruct op. }
  destruct args as [|a [|b [|c args]]]; [| | |done]; clear Hargs;
    destruct op; cbn [int64_op fmap list_fmap] in Hop; try done;
    unfold i32, i64, u32, u64 in Hop; guards Hop; try translate_cases H8.
  - cbn [translateOperation op1]. rewrite Hf. one_inst.
  - eexists. split; [reflexivity|]. eapply computes_one; [reflexivity|]. cbn [Asm.width]. by rewrite Zmod_mod.
Qed.

(** ** Branches *)

(** The decision a sequence of comparisons and conditional branches takes: the
    target, or [None] for falling through. *)
Fixpoint branch_decision (code : list Asm.Instruction) (st : Asm.reg_state) : option (option string) :=
  match code with
  | [] => Some None
  | Asm.Bcond c target :: code =>
      if Asm.cond_holds c st.2 then Some (Some target) else branch_decision code st
  | i :: code => st' ← Asm.exec_int i st; branch_decision code st'
  end.

Lemma translateCond_decision name cond args ifSo rf fl b :
  int_cond cond (rf <$> args) = Some b ->
  branch_decision (translateCond name cond args ifSo) (rf, fl) =
    Some (if b then Some (machLabelToAsm name ifSo) else None).
Proof.
  intros Hc. destruct args as [|a1 [|a2 [|a3 args]]]; destruct cond; cbn [int_cond fmap list_fmap] in Hc; try done;
    injection Hc as <-; cbn [translateCond cmp_regs cmp_imm app branch_decision Asm.exec_int mbind option_bind fst snd];
    rewrite condition_correct by (cbn; lia); unfold i32, i64, u32, u64; cbn [Asm.width]; by destruct (compare_Z _ _ _).
Qed.

Lemma jump_tests_decision name arg idx targets rf fl :
  0 <= idx -> idx + Z.of_nat (length targets) <= 2 ^ 64 -> 0 <= rf arg < 2 ^ 64 -> idx <= rf arg ->
  branch_decision (jump_tests name arg idx targets) (rf, fl) =
    Some (machLabelToAsm name <$> targets !! Z.to_nat (rf arg - idx)).
Proof.
  revert idx fl. induction targets as [|t targets IH]; intros idx fl Hi Hn Hr Hle; [done|].
  cbn [jump_tests app branch_decision Asm.exec_int mbind option_bind fst snd]. cbn [length] in Hn.
  change Asm.CondEQ with (conditionToCondCode Ceq true).
  rewrite condition_correct by (cbn; lia). cbn [compare_Z Asm.width]. rewrite !Z.mod_small by lia.
  destruct (Z.eqb_spec (rf arg) idx) as [->|Hne].
  - by rewrite Z.sub_diag.
  - rewrite IH by lia. replace (Z.to_nat (rf arg - idx)) with (Datatypes.S (Z.to_nat (rf arg - (idx + 1)))) by lia.
    done.
Qed.

(** ** Labels *)

Fixpoint has_underscore (s : string) : bool :=
  match s with
  | EmptyString => false
  | String c s => bool_decide (c = "_"%char) || has_underscore s
  end.

Lemma has_underscore_app s1 s2 : has_underscore (s1 +:+ s2)%string = has_underscore s1 || has_underscore s2.
Proof.
  induction s1 as [|c s1 IH]; [done|].
  change (String c s1 +:+ s2)%string with (String c (s1 +:+ s2)). cbn [has_underscore].
  rewrite IH. apply orb_assoc.
Qed.

Lemma pretty_N_go_underscore x s : has_underscore (pretty_N_go x s) = has_underscore s.
Proof.
  revert s. induction (N.lt_wf_0 x) as [x _ IH]; intros s.
  destruct (decide (0 < x)%N) as [Hx|Hx].
  - rewrite pretty_N_go_step by done. rewrite IH by (apply N.div_lt; lia). cbn.
    rewrite bool_decide_eq_false_2; [done|].
    unfold pretty_N_char. repeat case_match; discriminate.
  - replace x with 0%N by lia. by rewrite pretty_N_go_0.
Qed.

Lemma pretty_underscore (z : Z) : has_underscore (pretty z) = false.
Proof.
  assert (Hn : forall n : N, has_underscore (pretty n) = false).
  { intros n. unfold pretty, pretty_N. case_decide; [done|]. by rewrite pretty_N_go_underscore. }
  destruct z as [|p|p]; [done|apply (Hn (Npos p))|]. cbn. apply (Hn (Npos p)).
Qed.

Lemma split_last_underscore n1 n2 p1 p2 :
  has_underscore p1 = false -> has_underscore p2 = false ->
  (n1 +:+ "_" +:+ p1 = n2 +:+ "_" +:+ p2)%string -> n1 = n2 /\ p1 = p2.
Proof.
  intros H1 H2. revert n2. induction n1 as [|c n1 IH]; intros [|c' n2] H.
  - change (String "_" p1 = String "_" p2) in H. injection H as H. done.
  - change (String "_" p1 = String c' (n2 +:+ String "_" p2)%string) in H. injection H as _ ->.
    rewrite has_underscore_app in H1. cbn in H1. by rewrite orb_true_r in H1.
  - change (String c (n1 +:+ String "_" p1)%string = String "_" p2) in H. injection H as _ <-.
    rewrite has_underscore_app in H2. cbn in H2. by rewrite orb_true_r in H2.
  - injection H as -> H. by destruct (IH _ H) as [-> ->].
Qed.

(** ** Memory *)

Lemma load_ext n m m' a :
  (forall i, 0 <= i < Z.of_nat n -> Asm.byte_at m (a + i) = Asm.byte_at m' (a + i)) ->
  Asm.load n m a = Asm.load n m' a.
Proof.
  revert a. induction n as [|n IH]; intros a H; [done|]. cbn [Asm.load]. rewrite (IH (a + 1)).
  - specialize (H 0 ltac:(lia)). rewrite Z.add_0_r in H. by rewrite H.
  - intros i Hi. rewrite <- Z.add_assoc. apply H. lia.
Qed.

(** A word is determined by its bytes. *)
Lemma load_bytes n m a v :
  (forall i, 0 <= i < Z.of_nat n -> Asm.byte_at m (a + i) = v / 2 ^ (8 * i) mod 2 ^ 8) ->
  Asm.load n m a = v mod 2 ^ (8 * Z.of_nat n).
Proof.
  revert a v. induction n as [|n IH]; intros a v H; [by rewrite Z.mod_1_r|].
  cbn [Asm.load]. rewrite (IH (a + 1) (v / 2 ^ 8)).
  - specialize (H 0 ltac:(lia)). rewrite Z.add_0_r, Z.mul_0_r, Z.div_1_r in H. rewrite H.
    rewrite Nat2Z.inj_succ. replace (8 * Z.succ (Z.of_nat n)) with (8 + 8 * Z.of_nat n) by lia.
    rewrite Z.pow_add_r, Z.rem_mul_r by lia. done.
  - intros i Hi. rewrite <- Z.add_assoc, H by lia. rewrite Z.div_div by lia.
    rewrite <- Z.pow_add_r by lia. do 3 f_equal. lia.
Qed.

Lemma load_range n m a : 0 <= Asm.load n m a < 2 ^ (8 * Z.of_nat n).
Proof.
  revert a. induction n as [|n IH]; intros a; [cbn; lia|]. cbn [Asm.load].
  pose proof (Z.mod_pos_bound (m (a mod 2 ^ 64)) (2 ^ 8) ltac:(lia)) as Hb.
  fold (Asm.byte_at m a) in Hb. specialize (IH (a + 1)).
  rewrite Nat2Z.inj_succ. replace (8 * Z.succ (Z.of_nat n)) with (8 + 8 * Z.of_nat n) by lia.
  rewrite Z.pow_add_r by lia. lia.
Qed.

Lemma byte_store n m a v b :
  Asm.byte_at (Asm.store n m a v) b =
    if (b - a) mod 2 ^ 64 <? Z.of_nat n then v / 2 ^ (8 * ((b - a) mod 2 ^ 64)) mod 2 ^ 8
    else Asm.byte_at m b.
Proof.
  unfold Asm.byte_at, Asm.store. rewrite (Zminus_mod_idemp_l b a). by case_match.
Qed.

Lemma load_store_same n m a v :
  Z.of_nat n < 2 ^ 64 -> Asm.load n (Asm.store n m a v) a = v mod 2 ^ (8 * Z.of_nat n).
Proof.
  intros Hn. apply load_bytes. intros i Hi. rewrite byte_store.
  replace (a + i - a) with i by lia. rewrite Z.mod_small by lia.
  destruct (Z.ltb_spec i (Z.of_nat n)); [done|lia].
Qed.

(** Bytes outside a store keep their value. *)
Lemma load_store_other n n' m a v b :
  (forall i, 0 <= i < Z.of_nat n' -> Z.of_nat n <= (b + i - a) mod 2 ^ 64) ->
  Asm.load n' (Asm.store n m a v) b = Asm.load n' m b.
Proof.
  intros H. apply load_ext. intros i Hi. rewrite byte_store.
  specialize (H i Hi). destruct (Z.ltb_spec ((b + i - a) mod 2 ^ 64) (Z.of_nat n)); [lia|done].
Qed.

Lemma load_mod n m a : Asm.load n m (a mod 2 ^ 64) = Asm.load n m a.
Proof.
  assert (H : forall k, Asm.load n m (a mod 2 ^ 64 + k) = Asm.load n m (a + k)).
  { induction n as [|n IH]; intros k; [done|]. cbn [Asm.load]. rewrite <- !Z.add_assoc, !IH.
    unfold Asm.byte_at. by rewrite Zplus_mod_idemp_l. }
  specialize (H 0). by rewrite !Z.add_0_r in H.
Qed.

Lemma load_eqm n m a b : eqm 64 a b -> Asm.load n m a = Asm.load n m b.
Proof. intros H. rewrite <- (load_mod n m a), <- (load_mod n m b). unfold eqm in H. by rewrite H. Qed.

(** ** Loads and stores *)

(** The value an integer load yields, and how many of its bits count. *)
Definition chunk_value (chunk : Chunk) (m : Asm.memory) (a : Z) : option (Z * Z) :=
  match chunk with
  | Mint8signed => Some (32, wrap 8 (Asm.load 1 m a))
  | Mint8unsigned => Some (32, Asm.load 1 m a)
  | Mint16signed => Some (32, wrap 16 (Asm.load 2 m a))
  | Mint16unsigned => Some (32, Asm.load 2 m a)
  | Mint32 => Some (32, Asm.load 4 m a)
  | Mint64 => Some (64, Asm.load 8 m a)
  | _ => None
  end.

Definition chunk_bytes (chunk : Chunk) : option nat :=
  match chunk with
  | Mint8signed | Mint8unsigned => Some 1%nat
  | Mint16signed | Mint16unsigned => Some 2%nat
  | Mint32 => Some 4%nat
  | Mint64 => Some 8%nat
  | _ => None
  end.

(** The address of an addressing mode, given its arguments and the frame
    pointer; the modes the generator supports. *)
Definition address (addr : AddressingMode) (args : list Z) (fp : Z) : option Z :=
  match addr, args with
  | Aindexed ofs, [base] => Some (base + ofs)
  | Ainstack ofs, [] => Some (fp + ofs)
  | _, _ => None
  end.

Lemma address_base addr args rf a :
  address addr (rf <$> args) (rf X29) = Some a ->
  exists base ofs, addr_base addr args = Some (base, ofs) /\ a = rf base + ofs.
Proof.
  destruct addr; cbn [address]; intros H.
  all: destruct args as [|x [|y l]]; cbn in H; try done; injection H as <-; cbn; eauto.
Qed.

Lemma load_exec chunk addr args dest rf fl m a w z :
  address addr (rf <$> args) (rf X29) = Some a -> chunk_value chunk m a = Some (w, z) ->
  exists code rf', translateLoad chunk addr args dest = Some code /\
    Asm.exec_code code ((rf, fl), m) = Some ((rf', fl), m) /\ eqm w (rf' dest) z /\
    forall r, r <> dest -> rf' r = rf r.
Proof.
  intros (base & ofs & Hb & ->)%address_base Hz. unfold translateLoad. rewrite Hb. cbn [mbind option_bind].
  destruct chunk; try done; cbn [chunk_value] in Hz; injection Hz as <- <-;
    (eexists _, _; split; [reflexivity|]; split; [reflexivity|]; split;
     [cbn [fst snd]; rewrite fn_lookup_insert; by apply eqm_mod|intros r Hr; by apply fn_lookup_insert_ne]).
Qed.

Lemma store_exec chunk addr args src rf fl m a n :
  address addr (rf <$> args) (rf X29) = Some a -> chunk_bytes chunk = Some n ->
  exists code, translateStore chunk addr args src = Some code /\
    Asm.exec_code code ((rf, fl), m) = Some ((rf, fl), Asm.store n m a (rf src)).
Proof.
  intros (base & ofs & Hb & ->)%address_base Hn. unfold translateStore. rewrite Hb. cbn [mbind option_bind].
  destruct chunk; try done; cbn [chunk_bytes] in Hn; injection Hn as <-; eauto.
Qed.

(** What is left of a register that goes through memory as a chunk, and how many of
    its bits count: the low bytes, extended as the chunk says. *)
Definition chunk_cut (chunk : Chunk) (v : Z) : Z * Z :=
  match chunk with
  | Mint8signed => (32, wrap 8 v)
  | Mint8unsigned => (32, v mod 2 ^ 8)
  | Mint16signed => (32, wrap 16 v)
  | Mint16unsigned => (32, v mod 2 ^ 16)
  | Mint32 => (32, v mod 2 ^ 32)
  | _ => (64, v mod 2 ^ 64)
  end.

(** Reading back what was written. *)
Lemma load_after_store chunk m a v n :
  chunk_bytes chunk = Some n -> chunk_value chunk (Asm.store n m a v) a = Some (chunk_cut chunk v).
Proof.
  destruct chunk; try done; cbn [chunk_bytes]; intros [= <-]; cbn [chunk_value chunk_cut]; rewrite load_store_same by done;
    do 2 f_equal; by apply wrap_eqm, eqm_mod.
Qed.

(** ** Frames *)

(** The state after the prologue: the frame is allocated, the frame pointer
    and the return address are saved in its top 16 bytes, and the frame
    pointer addresses them. *)
Definition frame_top (fs sp : Z) : Z := (sp - fs) mod 2 ^ 64 + (fs - 16).

Lemma i64_frame fs : 0 < fs < 2 ^ 63 -> i64 (fs - 16) = fs - 16.
Proof. intros H. unfold i64. by apply wrap_id; cbn; lia. Qed.

Lemma eqm_frame_top fs sp : eqm 64 (frame_top fs sp) (sp - 16).
Proof.
  unfold frame_top. replace (sp - 16) with ((sp - fs) + (fs - 16)) by lia.
  apply eqm_add; [by apply eqm_mod|done].
Qed.

Lemma emitted_prologue_exec fs rf fl m :
  0 < fs < 2 ^ 63 ->
  exists rf', Asm.exec_code (generatePrologue fs) ((rf, fl), m) =
      Some ((rf', fl), Asm.store 8 (Asm.store 8 m (frame_top fs (rf Asm.SP)) (rf X29))
                         (frame_top fs (rf Asm.SP) + 8) (rf X30)) /\
    rf' Asm.SP = (rf Asm.SP - fs) mod 2 ^ 64 /\ rf' X29 = (rf Asm.SP - 16) mod 2 ^ 64 /\
    forall r, r <> Asm.SP -> r <> X29 -> rf' r = rf r.
Proof.
  intros Hfs. unfold generatePrologue. destruct (Z.eqb_spec fs 0); [lia|].
  rewrite i64_frame by done.
  cbn [Asm.exec_code Asm.exec Asm.exec_int Asm.int_result Asm.set_reg Asm.write_reg mbind option_bind
       fst snd Asm.width].
  rewrite fn_lookup_insert, !(fn_lookup_insert_ne _ Asm.SP _) by done.
  assert (E : forall x, (x mod 2 ^ 64 - fs) mod 2 ^ 64 = (x - fs) mod 2 ^ 64)
    by (intros x; apply Zminus_mod_idemp_l).
  rewrite E. eexists. split; [reflexivity|]. split; [|split].
  - by rewrite fn_lookup_insert_ne, fn_lookup_insert.
  - rewrite fn_lookup_insert, Zmod_mod. apply eqm_frame_top.
  - intros r Hsp Hfp. by rewrite !fn_lookup_insert_ne.
Qed.

Lemma emitted_epilogue_exec fs rf fl m sp fp lr :
  0 < fs < 2 ^ 63 -> 0 <= sp < 2 ^ 64 -> 0 <= fp < 2 ^ 64 -> 0 <= lr < 2 ^ 64 ->
  rf Asm.SP = (sp - fs) mod 2 ^ 64 ->
  Asm.load 8 m (sp - 16) = fp -> Asm.load 8 m (sp - 8) = lr ->
  exists rf', Asm.exec_code (generateEpilogue fs) ((rf, fl), m) = Some ((rf', fl), m) /\
    rf' Asm.SP = sp /\ rf' X29 = fp /\ rf' X30 = lr /\
    forall r, r <> Asm.SP -> r <> X29 -> r <> X30 -> rf' r = rf r.
Proof.
  intros Hfs Hsp Hfp Hlr Hrf Hm1 Hm2. unfold generateEpilogue. destruct (Z.eqb_spec fs 0); [lia|].
  rewrite i64_frame by done.
  cbn [Asm.exec_code Asm.exec Asm.exec_int Asm.int_result Asm.set_reg Asm.write_reg mbind option_bind
       fst snd Asm.width].
  rewrite !Hrf. fold (frame_top fs sp).
  assert (E1 : Asm.load 8 m (frame_top fs sp) = fp).
  { rewrite <- Hm1. apply load_eqm, eqm_frame_top. }
  assert (E2 : Asm.load 8 m (frame_top fs sp + 8) = lr).
  { rewrite <- Hm2. apply load_eqm. replace (sp - 8) with (sp - 16 + 8) by lia.
    by apply eqm_add; [apply eqm_frame_top|]. }
  rewrite E1, E2. eexists. split; [reflexivity|].
  split; [|split; [|split]].
  - rewrite fn_lookup_insert, !fn_lookup_insert_ne by done.
    rewrite Hrf, Zmod_mod, Zplus_mod_idemp_l. replace (sp - fs + fs) with sp by lia. by apply Z.mod_small.
  - rewrite fn_lookup_insert_ne, fn_lookup_insert_ne, fn_lookup_insert by done. by apply Z.mod_small.
  - rewrite fn_lookup_insert_ne, fn_lookup_insert by done. by apply Z.mod_small.
  - intros r ???. by rewrite !fn_lookup_insert_ne.
Qed.

(** The bytes of the save area, and what it holds after the prologue. *)
Definition saved (fs : Z) (m : Asm.memory) (sp fp lr : Z) : Asm.memory :=
  Asm.store 8 (Asm.store 8 m (frame_top fs sp) fp) (frame_top fs sp + 8) lr.

Lemma eqm_offset a b c : eqm 64 a b -> (c - a) mod 2 ^ 64 = (c - b) mod 2 ^ 64.
Proof. intros H. by apply eqm_sub. Qed.

Lemma saved_other fs m sp fp lr b :
  16 <= (b - (sp - 16)) mod 2 ^ 64 -> Asm.byte_at (saved fs m sp fp lr) b = Asm.byte_at m b.
Proof.
  intros Hb. unfold saved. rewrite !byte_store.
  assert (E : eqm 64 (frame_top fs sp + 8) (sp - 16 + 8)) by (apply eqm_add; [apply eqm_frame_top|done]).
  rewrite (eqm_offset _ _ b E), (eqm_offset _ _ b (eqm_frame_top fs sp)).
  replace (b - (sp - 16 + 8)) with (b - (sp - 16) - 8) by lia.
  rewrite <- Zminus_mod_idemp_l. set (x := (b - (sp - 16)) mod 2 ^ 64) in *.
  pose proof (Z.mod_pos_bound (b - (sp - 16)) (2 ^ 64) ltac:(lia)). fold x in H.
  rewrite Z.mod_small by lia.
  destruct (Z.ltb_spec (x - 8) (Z.of_nat 8)); [lia|]. by destruct (Z.ltb_spec x (Z.of_nat 8)); [lia|].
Qed.

Lemma saved_fp fs m sp fp lr : 0 <= fp < 2 ^ 64 -> Asm.load 8 (saved fs m sp fp lr) (sp - 16) = fp.
Proof.
  intros Hfp. rewrite <- (load_eqm 8 _ _ _ (eqm_frame_top fs sp)). unfold saved.
  rewrite load_store_other, load_store_same by
    (try done; intros i Hi; replace (_ - _) with (i - 8) by lia;
     rewrite <- (Z.mod_add _ 1), Z.mod_small by lia; lia).
  by apply Z.mod_small.
Qed.

Lemma saved_lr fs m sp fp lr : 0 <= lr < 2 ^ 64 -> Asm.load 8 (saved fs m sp fp lr) (sp - 8) = lr.
Proof.
  intros Hlr. replace (sp - 8) with (sp - 16 + 8) by lia.
  rewrite <- (load_eqm 8 _ (frame_top fs sp + 8)) by (apply eqm_add; [apply eqm_frame_top|done]).
  unfold saved. rewrite load_store_same by done. by apply Z.mod_small.
Qed.
