(* ===== verification/AsmGenPass.v ===== *)
(** Labels of the assembly: where they are defined and which branches refer to
    them, from the Mach code to the assembly of a whole program.
    The properties of the assembly generator: operations, constants, memory
    accesses, frames, branches and labels, and where it goes wrong. *)

From stdpp Require Import pretty.
From S2P Require Import Prelude Target IntOps Mach MachSem AsmGen AsmGenProof.
From S2P Require Asm.

(** ** The recognition of frame code drops no other instruction *)

Section Observed.
  (** Something to observe of instructions, that frame code does not have. *)
  Context {B : Type} (g : Mach.Instruction -> list B).
  Context (g_frame : forall i, is_Mop i || is_Mgetstack i || is_Msetstack i = true -> g i = []).

Lemma emitted_observed fuel code :
  (length code <= fuel)%nat -> emitted fuel code ≫= g = code ≫= g.
Proof using All.
  revert code. induction fuel as [|fuel IH]; intros code Hlen; [by destruct code; cbn [length] in *; [|lia]|].
  destruct code as [|c0 code]; [done|]. cbn [emitted]. destruct (isEpilogueStart (c0 :: code)) eqn:E.
  - unfold countEpilogueInstructions. rewrite E. change (4 - 1)%nat with 3%nat.
    destruct code as [|c1 [|c2 [|c3 code]]]; [done..|]. cbn [isEpilogueStart] in E.
    cbn [drop]. apply andb_prop in E as [[[E0 E1]%andb_prop E2]%andb_prop _].
    rewrite !bind_cons, (IH code) by (cbn [length] in *; lia).
    rewrite (g_frame c0), (g_frame c1), (g_frame c2); [done|..];
      rewrite ?E0, ?E1, ?E2, ?orb_true_r; done.
  - change (drop 1 (c0 :: code)) with code. rewrite !bind_cons, IH by (cbn [length] in *; lia). done.
Qed.

Lemma prologue_observed code : drop (countPrologueInstructions code) code ≫= g = code ≫= g.
Proof using All.
  destruct code as [|c0 [|c1 [|c2 [|c3 code]]]]; try done. cbn [countPrologueInstructions].
  destruct (is_Mop c0) eqn:E0; [|done]. destruct (is_Msetstack c1) eqn:E1.
  2: { cbn [drop]. rewrite !bind_cons, (g_frame c0); [done|by rewrite E0]. }
  assert (G0 : g c0 = []) by (apply g_frame; by rewrite E0).
  assert (G1 : g c1 = []) by (apply g_frame; by rewrite E1, orb_true_r).
  destruct (is_Msetstack c2) eqn:E2.
  2: { cbn [drop]. by rewrite !bind_cons, G0, G1. }
  assert (G2 : g c2 = []) by (apply g_frame; by rewrite E2, orb_true_r).
  destruct (is_Mop c3) eqn:E3; cbn [drop]; rewrite !bind_cons, G0, G1, G2; [|done].
  rewrite (g_frame c3); [done|by rewrite E3].
Qed.

Lemma body_code_observed code : body_code code ≫= g = code ≫= g.
Proof using All. unfold body_code. by rewrite emitted_observed, prologue_observed. Qed.
End Observed.

(** ** Labels and branches *)

Definition mach_defs (i : Mach.Instruction) : list Z :=
  match i with Mlabel l => [l] | _ => [] end.

Definition asm_defs (i : Asm.Instruction) : list string :=
  match i with Asm.LabelDef l => [l] | _ => [] end.

Definition asm_targets (i : Asm.Instruction) : list string :=
  match i with
  | Asm.B l false => [l]
  | Asm.Bcond _ l => [l]
  | _ => []
  end.

(** Code without labels and local branches. *)
Definition plain (i : Asm.Instruction) : bool :=
  match i with Asm.LabelDef _ | Asm.B _ false | Asm.Bcond _ _ => false | _ => true end.

Lemma plain_bind code : forallb plain code = true -> code ≫= asm_defs = [] /\ code ≫= asm_targets = [].
Proof.
  induction code as [|i code IH]; [done|]. cbn [forallb]. intros [Hi Hc]%andb_prop.
  rewrite !bind_cons. destruct (IH Hc) as [-> ->]. by destruct i as []; try done; destruct IsSymbol.
Qed.

Lemma loadIntConstant_plain dest v is64 : forallb plain (loadIntConstant dest v is64) = true.
Proof.
  unfold loadIntConstant. case_match; [done|]. case_match; [done|].
  rewrite !forallb_app. do 2 (case_match; cbn; try done); repeat (case_match; cbn; try done).
Qed.

Lemma op1_plain args f code :
  op1 args f = Some code -> (forall a, forallb plain (f a) = true) -> forallb plain code = true.
Proof. unfold op1. destruct (args !! 0%nat); [|done]. intros H Hf. apply (inj Some) in H as <-. apply Hf. Qed.

Lemma op2_plain args f code :
  op2 args f = Some code -> (forall a b, forallb plain (f a b) = true) -> forallb plain code = true.
Proof.
  unfold op2. destruct (args !! 0%nat); [|done]. destruct (args !! 1%nat); [|done].
  intros H Hf. apply (inj Some) in H as <-. apply Hf.
Qed.

Lemma translateCompare_plain args dest c uns is64 code :
  translateCompare args dest c uns is64 = Some code -> forallb plain code = true.
Proof.
  unfold translateCompare. destruct (args !! 0%nat); [|done]. destruct (args !! 1%nat); [|done].
  by intros [= <-].
Qed.

Lemma translateOperation_plain args dest op code :
  translateOperation args dest op = Some code -> forallb plain code = true.
Proof.
  destruct op; cbn [translateOperation]; intros H;
    first
      [ by eapply op1_plain; [exact H|intros a; try case_match; reflexivity]
      | by eapply op2_plain; [exact H|reflexivity]
      | by eapply translateCompare_plain
      | by destruct (args !! 0%nat); [apply (inj Some) in H as <-|]
      | by apply (inj Some) in H as <-; first [reflexivity|apply loadIntConstant_plain] ].
Qed.

Lemma translateLoad_plain chunk addr args dest code :
  translateLoad chunk addr args dest = Some code -> forallb plain code = true.
Proof. unfold translateLoad. destruct (addr_base addr args) as [[]|]; [|done]. by destruct chunk; intros [= <-]. Qed.

Lemma translateStore_plain chunk addr args src code :
  translateStore chunk addr args src = Some code -> forallb plain code = true.
Proof. unfold translateStore. destruct (addr_base addr args) as [[]|]; [|done]. by destruct chunk; intros [= <-]. Qed.

Lemma frame_code_plain fs : forallb plain (generatePrologue fs) = true /\ forallb plain (generateEpilogue fs) = true.
Proof. unfold generatePrologue, generateEpilogue. by destruct (fs =? 0). Qed.

Section Function.
  Context (name : string) (fs : Z).

Lemma jump_tests_labels arg idx targets :
  jump_tests name arg idx targets ≫= asm_defs = [] /\
  jump_tests name arg idx targets ≫= asm_targets = machLabelToAsm name <$> targets.
Proof.
  revert idx. induction targets as [|t targets IH]; intros idx; [done|].
  cbn [jump_tests app]. rewrite !bind_cons. by destruct (IH (idx + 1)) as [-> ->].
Qed.

Lemma translateCond_labels c args l :
  translateCond name c args l ≫= asm_defs = [] /\
  translateCond name c args l ≫= asm_targets = [machLabelToAsm name l].
Proof. by destruct c, args as [|? [|??]]. Qed.

Lemma translateInstruction_labels i code :
  translateInstruction name fs i = Some code ->
  code ≫= asm_defs = machLabelToAsm name <$> mach_defs i /\
  code ≫= asm_targets = machLabelToAsm name <$> Mach.inst_targets i.
Proof.
  destruct i; cbn [translateInstruction mach_defs Mach.inst_targets]; intros H; try (apply (inj Some) in H as <-).
  all: try done.
  - apply plain_bind. unfold translateGetstack. by repeat case_match.
  - apply plain_bind. unfold translateSetstack. by repeat case_match.
  - apply plain_bind. unfold translateGetparam. by repeat case_match.
  - eapply plain_bind, translateOperation_plain, H.
  - eapply plain_bind, translateLoad_plain, H.
  - eapply plain_bind, translateStore_plain, H.
  - apply plain_bind. by destruct Fn.
  - apply plain_bind. by destruct Fn.
  - apply translateCond_labels.
  - apply jump_tests_labels.
  - apply plain_bind, frame_code_plain.
Qed.

Lemma translate_code_labels code acode :
  translate_code name fs code = Some acode ->
  acode ≫= asm_defs = machLabelToAsm name <$> (code ≫= mach_defs) /\
  acode ≫= asm_targets = machLabelToAsm name <$> (code ≫= Mach.inst_targets).
Proof.
  revert acode. induction code as [|i code IH]; intros acode H; cbn [translate_code] in H.
  - by injection H as <-.
  - destruct (translateInstruction name fs i) as [c|] eqn:Hi; [|done]. cbn [mbind option_bind] in H.
    destruct (translate_code name fs code) as [rest|]; [|done]. cbn [mbind option_bind] in H.
    apply (inj Some) in H as <-. destruct (IH _ eq_refl) as [IH1 IH2].
    destruct (translateInstruction_labels i c Hi) as [H1 H2].
    by rewrite !bind_app, !bind_cons, !fmap_app, H1, H2, IH1, IH2.
Qed.
End Function.

(** The labels and the local branches of a function. *)
Lemma transformFunction_labels f af :
  transformFunction f = Some af ->
  Asm.fn_Code af ≫= asm_defs = machLabelToAsm (Mach.fn_Name f) <$> (Mach.fn_Code f ≫= mach_defs) /\
  Asm.fn_Code af ≫= asm_targets = machLabelToAsm (Mach.fn_Name f) <$> (Mach.fn_Code f ≫= Mach.inst_targets).
Proof.
  unfold transformFunction.
  destruct (translate_code (Mach.fn_Name f) (Mach.fn_Stacksize f) (body_code (Mach.fn_Code f)))
    as [code|] eqn:Hc; [|done].
  cbn [mbind option_bind]. intros H. apply (inj Some) in H as <-. cbn [Asm.fn_Code].
  destruct (translate_code_labels _ _ _ _ Hc) as [H1 H2].
  destruct (plain_bind _ (proj1 (frame_code_plain (Mach.fn_Stacksize f)))) as [P1 P2].
  rewrite !bind_app, P1, P2, H1, H2, !body_code_observed; [done|by intros []..].
Qed.

(** Distinct functions and distinct labels have distinct names. *)
Lemma machLabelToAsm_inj n1 n2 l1 l2 :
  machLabelToAsm n1 l1 = machLabelToAsm n2 l2 -> n1 = n2 /\ l1 = l2.
Proof.
  unfold machLabelToAsm. intros H. apply (inj (String.append ".L_")) in H.
  apply split_last_underscore in H as [-> H%(inj pretty)]; [done|apply pretty_underscore..].
Qed.

(** Every label of a function carries its name. *)
Lemma transformFunction_label_of f af l :
  transformFunction f = Some af -> l ∈ Asm.fn_Code af ≫= asm_defs ->
  exists k, l = machLabelToAsm (Mach.fn_Name f) k.
Proof.
  intros Hf Hl. destruct (transformFunction_labels f af Hf) as [E _]. rewrite E in Hl.
  apply list_elem_of_fmap in Hl as (k & -> & _). eauto.
Qed.

Lemma functions_labels_nodup fs afs :
  Forall2 (fun f af => transformFunction f = Some af) fs afs ->
  NoDup (Mach.fn_Name <$> fs) ->
  Forall (fun f => NoDup (Mach.fn_Code f ≫= mach_defs) /\
    forall l, l ∈ Mach.fn_Code f ≫= Mach.inst_targets -> l ∈ Mach.fn_Code f ≫= mach_defs) fs ->
  NoDup (afs ≫= fun f => Asm.fn_Code f ≫= asm_defs).
Proof.
  induction 1 as [|f af fs afs Hf Hm IH]; intros Hn Hfns; [constructor|].
  apply Forall_cons in Hfns as [[Hd _] Hfns]. cbn in Hn. apply NoDup_cons in Hn as [Hnew Hn].
  rewrite bind_cons. apply NoDup_app. split; [|split; [|by apply IH]].
  - destruct (transformFunction_labels f af Hf) as [-> _]. apply NoDup_fmap_2; [|done].
    intros l1 l2 E. by apply machLabelToAsm_inj in E as [_ ->].
  - intros l Hl (af' & Hl' & Haf')%list_elem_of_bind.
    destruct (transformFunction_label_of f af l Hf Hl) as (k & ->).
    apply list_elem_of_lookup in Haf' as (i & Hi).
    destruct (Forall2_lookup_r _ _ _ _ _ Hm Hi) as (f' & Hf' & Ht).
    destruct (transformFunction_label_of f' af' _ Ht Hl') as (k' & E).
    apply machLabelToAsm_inj in E as [E _]. apply Hnew. rewrite E.
    apply list_elem_of_fmap. exists f'. split; [done|]. by eapply list_elem_of_lookup_2.
Qed.

(** Registers for the examples: [Xn] holds [100 + n]. *)
Definition example_rf : MReg -> Z := fun r => 100 + r.
Definition example_flags : Asm.Flags := Asm.mkFlags false false false false.

(** ** Operations *)

(** C23. Integer operations compute what they should: when the specification gives an
    operation a result on the contents of its arguments (a quotient by zero and a
    shift by the width have none), the generated code runs to its end, the low 32 or
    64 bits of the destination hold the result, and no other register changes but X8,
    which remainders and multiplications by a constant use as a temporary. These must
    not have their arguments in X8: there they are wrong ([remainder_of_X8]). *)
Theorem translateOperation_correct op args dest rf fl w z :
  int_op op (rf <$> args) = Some (w, z) ->
  (uses_X8 op = true -> X8 ∉ args) ->
  IsFloat dest = false ->
  exists code rf' fl',
    translateOperation args dest op = Some code /\
    Asm.exec_ints code (rf, fl) = Some (rf', fl') /\
    rf' dest mod 2 ^ w = z mod 2 ^ w /\
    forall r, r <> dest -> (uses_X8 op = true -> r <> X8) -> rf' r = rf r.
Proof.
  intros Hop H8 Hf. unfold int_op in Hop.
  assert (H : exists code, translateOperation args dest op = Some code /\ computes code dest (uses_X8 op) rf fl w z).
  { destruct (int32_op op (rf <$> args)) as [z'|] eqn:E32.
    - injection Hop as <- <-. by apply translate32_correct.
    - destruct (int64_op op (rf <$> args)) as [z'|] eqn:E64; [|done]. cbn in Hop. injection Hop as <- <-.
      by apply translate64_correct. }
  destruct H as (code & Hc & rf' & fl' & Hx & Hz & Ho). by exists code, rf', fl'.
Qed.

(** 102 divided by 103, through X8. *)
Lemma translateOperation_correct_witness :
  int_op Omod (example_rf <$> [(X 2); (X 3)]) = Some (32, 102) /\
  exists code rf' fl',
    translateOperation [(X 2); (X 3)] (X 0) Omod = Some code /\
    Asm.exec_ints code (example_rf, example_flags) = Some (rf', fl') /\
    rf' (X 0) mod 2 ^ 32 = 102 mod 2 ^ 32 /\
    forall r, r <> (X 0) -> (uses_X8 Omod = true -> r <> X8) -> rf' r = example_rf r.
Proof.
  split; [reflexivity|].
  apply (translateOperation_correct Omod [(X 2); (X 3)] (X 0) example_rf example_flags 32 102).
  - reflexivity.
  - intros _. apply (bool_decide_eq_true_1 _). vm_compute. reflexivity.
  - reflexivity.
Defined.

(** What an instruction's immediate may be. *)
Definition encodable (i : Asm.Instruction) : bool :=
  match i with
  | Asm.MOVi _ k _ => (0 <=? k) && (k <? 2 ^ 16)
  | Asm.MOVZ _ k sh is64 | Asm.MOVN _ k sh is64 | Asm.MOVK _ k sh is64 =>
      (0 <=? k) && (k <? 2 ^ 16) && (0 <=? sh) && (sh mod 16 =? 0) && (sh <? Asm.width is64)
  | _ => true
  end.

Lemma uint16_encodable z : (0 <=? uint16 z) && (uint16 z <? 2 ^ 16) = true.
Proof.
  unfold uint16. pose proof (Z.mod_pos_bound z (2 ^ 16) ltac:(lia)).
  apply andb_true_intro. split; [apply Z.leb_le|apply Z.ltb_lt]; lia.
Qed.

(** Loading a constant: at most four moves, all with 16-bit immediates at
    shifts the width allows, put the constant, cut to the width, into the
    destination, and change nothing else. *)
Theorem loadIntConstant_correct dest val is64 rf fl :
  (length (loadIntConstant dest val is64) <= 4)%nat /\
  forallb encodable (loadIntConstant dest val is64) = true /\
  exists rf', Asm.exec_ints (loadIntConstant dest val is64) (rf, fl) = Some (rf', fl) /\
    rf' dest = val mod 2 ^ Asm.width is64 /\ forall r, r <> dest -> rf' r = rf r.
Proof.
  split; [|split].
  - unfold loadIntConstant. destruct ((0 <=? val) && (val <=? 65535)); [cbn; lia|].
    destruct ((val <? 0) && (-65536 <=? val)); [cbn; lia|].
    rewrite !length_app. destruct is64; repeat (destruct (negb _)); cbn; lia.
  - unfold loadIntConstant. destruct ((0 <=? val) && (val <=? 65535)) eqn:E.
    { apply andb_prop in E as [E1 E2%Z.leb_le]. cbn [forallb encodable]. rewrite E1, andb_true_l, andb_true_r.
      apply Z.ltb_lt. lia. }
    assert (Hf : forall z sh, (0 <=? sh) && (sh mod 16 =? 0) && (sh <? Asm.width is64) = true ->
      (0 <=? uint16 z) && (uint16 z <? 2 ^ 16) && (0 <=? sh) && (sh mod 16 =? 0) && (sh <? Asm.width is64) = true).
    { intros z sh Hsh. rewrite uint16_encodable. exact Hsh. }
    destruct ((val <? 0) && (-65536 <=? val)).
    { cbn [forallb encodable]. rewrite Hf by (by destruct is64). done. }
    rewrite !forallb_app. cbn [forallb encodable]. rewrite Hf by (by destruct is64).
    destruct is64; repeat (destruct (negb _)); cbn [forallb encodable app]; rewrite ?Hf by done; done.
  - apply loadIntConstant_exec.
Qed.

(** ** Memory *)

(** Integer loads: for the addressing modes with a base register and an
    offset, and for stack addresses, the code loads the bytes of the chunk at
    the address, extended as the chunk says. *)
Theorem translateLoad_correct chunk addr args dest rf fl m a w z :
  address addr (rf <$> args) (rf X29) = Some a ->
  chunk_value chunk m a = Some (w, z) ->
  exists code rf',
    translateLoad chunk addr args dest = Some code /\
    Asm.exec_code code ((rf, fl), m) = Some ((rf', fl), m) /\
    rf' dest mod 2 ^ w = z mod 2 ^ w /\
    forall r, r <> dest -> rf' r = rf r.
Proof. apply load_exec. Qed.

Lemma translateLoad_correct_witness :
  exists code rf',
    translateLoad Mint16signed (Aindexed 8) [(X 1)] (X 0) = Some code /\
    Asm.exec_code code ((example_rf, example_flags), fun _ => 255) =
      Some ((rf', example_flags), fun _ => 255) /\
    rf' (X 0) mod 2 ^ 32 = -1 mod 2 ^ 32 /\ forall r, r <> (X 0) -> rf' r = example_rf r.
Proof.
  apply (translateLoad_correct Mint16signed (Aindexed 8) [(X 1)] (X 0) example_rf example_flags (fun _ => 255) 109 32 (-1)).
  - reflexivity.
  - vm_compute. reflexivity.
Defined.

(** C26. Integer stores to an address in a register or in the frame, both with an
    offset ([address]; the other addressing modes are not computed right, see the
    findings): the code puts the low bytes of the source register at the address, the
    bytes outside the chunk keep their values and the registers theirs, and the code
    generated for a load of the same chunk from the same address into any register
    then makes of that register the stored value, cut to the chunk and extended as
    the chunk says, and changes no other. *)
Theorem translateStore_correct chunk addr args src dest rf fl m a n :
  address addr (rf <$> args) (rf X29) = Some a ->
  chunk_bytes chunk = Some n ->
  exists code m' load rf',
    translateStore chunk addr args src = Some code /\
    Asm.exec_code code ((rf, fl), m) = Some ((rf, fl), m') /\
    (forall b, Z.of_nat n <= (b - a) mod 2 ^ 64 -> Asm.byte_at m' b = Asm.byte_at m b) /\
    translateLoad chunk addr args dest = Some load /\
    Asm.exec_code load ((rf, fl), m') = Some ((rf', fl), m') /\
    eqm (chunk_cut chunk (rf src)).1 (rf' dest) (chunk_cut chunk (rf src)).2 /\
    forall r, r <> dest -> rf' r = rf r.
Proof.
  intros Ha Hn. destruct (store_exec chunk addr args src rf fl m a n Ha Hn) as (code & Hc & Hx).
  destruct (chunk_cut chunk (rf src)) as [w z] eqn:E.
  destruct (load_exec chunk addr args dest rf fl (Asm.store n m a (rf src)) a w z Ha) as (load & rf' & Hl & Hlx & Hd & Hr);
    [by rewrite (load_after_store _ _ _ _ _ Hn), E|].
  exists code, (Asm.store n m a (rf src)), load, rf'. split_and!; try done.
  intros b Hb. rewrite byte_store. destruct (Z.ltb_spec ((b - a) mod 2 ^ 64) (Z.of_nat n)); [lia|done].
Qed.

Lemma translateStore_correct_witness :
  exists code m' load rf',
    translateStore Mint8signed (Ainstack (-8)) [] (X 1) = Some code /\
    Asm.exec_code code ((example_rf, example_flags), fun _ => 255) = Some ((example_rf, example_flags), m') /\
    (forall b, Z.of_nat 1 <= (b - 121) mod 2 ^ 64 -> Asm.byte_at m' b = Asm.byte_at (fun _ => 255) b) /\
    translateLoad Mint8signed (Ainstack (-8)) [] (X 2) = Some load /\
    Asm.exec_code load ((example_rf, example_flags), m') = Some ((rf', example_flags), m') /\
    eqm 32 (rf' (X 2)) (wrap 8 (example_rf (X 1))) /\
    forall r, r <> X 2 -> rf' r = example_rf r.
Proof.
  apply (translateStore_correct Mint8signed (Ainstack (-8)) [] (X 1) (X 2) example_rf example_flags (fun _ => 255) 121 1);
    reflexivity.
Defined.

(** ** Frames *)

(** C24. Prologue and epilogue: the prologue allocates the frame, points the
    frame pointer at its top 16 bytes and saves the old frame pointer and the
    return address there. An epilogue that runs in any later state with the
    same stack pointer, and with those 16 bytes unchanged, restores the stack
    pointer, the frame pointer and the return address; neither touches any
    other register, or any other byte of memory. *)
Theorem frame_roundtrip fs rf fl m rf2 fl2 m2 :
  0 < fs < 2 ^ 63 ->
  (forall r, 0 <= rf r < 2 ^ 64) ->
  exists rf1 m1,
    Asm.exec_code (generatePrologue fs) ((rf, fl), m) = Some ((rf1, fl), m1) /\
    rf1 Asm.SP = (rf Asm.SP - fs) mod 2 ^ 64 /\
    rf1 X29 = (rf Asm.SP - 16) mod 2 ^ 64 /\
    (forall r, r <> Asm.SP -> r <> X29 -> rf1 r = rf r) /\
    (forall b, 16 <= (b - (rf Asm.SP - 16)) mod 2 ^ 64 -> Asm.byte_at m1 b = Asm.byte_at m b) /\
    (rf2 Asm.SP = rf1 Asm.SP ->
     (forall b, (b - (rf Asm.SP - 16)) mod 2 ^ 64 < 16 -> Asm.byte_at m2 b = Asm.byte_at m1 b) ->
     exists rf3, Asm.exec_code (generateEpilogue fs) ((rf2, fl2), m2) = Some ((rf3, fl2), m2) /\
       rf3 Asm.SP = rf Asm.SP /\ rf3 X29 = rf X29 /\ rf3 X30 = rf X30 /\
       forall r, r <> Asm.SP -> r <> X29 -> r <> X30 -> rf3 r = rf2 r).
Proof.
  intros Hfs Hrf. destruct (emitted_prologue_exec fs rf fl m Hfs) as (rf1 & Hx & Hsp & Hfp & Ho).
  eexists rf1, _. split; [exact Hx|]. do 3 (split; [done|]).
  split; [intros b Hb; by apply saved_other|].
  intros Hsp2 Hm2. apply emitted_epilogue_exec; [done|apply Hrf..|congruence| |]; fold (saved fs m (rf Asm.SP) (rf X29) (rf X30)) in Hm2.
  - rewrite <- (saved_fp fs m (rf Asm.SP) (rf X29) (rf X30)) by apply Hrf. apply load_ext.
    intros i Hi. apply Hm2. replace (_ - _) with i by lia. rewrite Z.mod_small; lia.
  - rewrite <- (saved_lr fs m (rf Asm.SP) (rf X29) (rf X30)) by apply Hrf. apply load_ext.
    intros i Hi. apply Hm2. replace (_ - _) with (8 + i) by lia. rewrite Z.mod_small; lia.
Qed.

Definition example_rf2 : MReg -> Z := fun r => if r =? Asm.SP then 4064 else 0.

Lemma frame_roundtrip_witness :
  exists rf3, Asm.exec_code (generateEpilogue 32)
      ((example_rf2, example_flags), saved 32 (fun _ => 0) 4096 4096 4096) =
    Some ((rf3, example_flags), saved 32 (fun _ => 0) 4096 4096 4096) /\
    rf3 Asm.SP = 4096 /\ rf3 X29 = 4096 /\ rf3 X30 = 4096.
Proof.
  destruct (frame_roundtrip 32 (fun _ => 4096) example_flags (fun _ => 0)
    example_rf2 example_flags (saved 32 (fun _ => 0) 4096 4096 4096)) as (rf1 & m1 & Hx & Hsp & _ & _ & _ & He).
  - lia.
  - lia.
  - destruct (emitted_prologue_exec 32 (fun _ => 4096) example_flags (fun _ => 0) ltac:(lia)) as (rf' & Hx' & _).
    rewrite Hx' in Hx. apply (inj Some), (inj2 pair) in Hx as [_ Hm].
    destruct He as (rf3 & H1 & H2 & H3 & H4 & _); [by rewrite Hsp|by rewrite <- Hm|].
    exists rf3. auto.
Defined.

(** ** Branches *)

(** Conditional branches on integers: the code branches to the label of
    the target when the condition holds on the contents of the arguments, and
    falls through when it does not. *)
Theorem translateCond_correct name cond args ifSo rf fl b :
  int_cond cond (rf <$> args) = Some b ->
  branch_decision (translateCond name cond args ifSo) (rf, fl) =
    Some (if b then Some (machLabelToAsm name ifSo) else None).
Proof. apply translateCond_decision. Qed.

Lemma translateCond_correct_witness :
  int_cond (Ccompu Clt) (example_rf <$> [X 1; X 2]) = Some true /\
  branch_decision (translateCond "f" (Ccompu Clt) [X 1; X 2] 7) (example_rf, example_flags) =
    Some (Some ".L_f_7"%string).
Proof.
  split; [reflexivity|].
  apply (translateCond_correct "f" (Ccompu Clt) [X 1; X 2] 7 example_rf example_flags true).
  reflexivity.
Defined.

(** Jump tables: the code branches to the target the register indexes, and
    falls through when the register is not below the number of targets, as an
    unsigned number. *)
Theorem translateJumptable_correct name arg targets rf fl :
  0 <= rf arg < 2 ^ 64 ->
  Z.of_nat (length targets) <= 2 ^ 64 ->
  branch_decision (translateJumptable name arg targets) (rf, fl) =
    Some (machLabelToAsm name <$> targets !! Z.to_nat (rf arg)).
Proof.
  intros Hr Hn. unfold translateJumptable. rewrite jump_tests_decision by lia. by rewrite Z.sub_0_r.
Qed.

Lemma translateJumptable_correct_witness :
  branch_decision (translateJumptable "f" (X 1) [4; 5; 6]) ((fun _ => 2), example_flags) =
    Some (Some ".L_f_6"%string).
Proof. apply (translateJumptable_correct "f" (X 1) [4; 5; 6] (fun _ => 2) example_flags); cbn; lia. Defined.

(** Branches on floating-point comparisons: the code is a comparison and a
    branch that is taken exactly when the comparison holds, except that [<] and
    [<=] also branch when an operand is a NaN: they use the condition codes of
    signed integers. *)
Theorem float_condition_unordered name c (a b : MReg) ifSo (is64 : bool) (r : option comparison) :
  translateCond name (if is64 then Ccompf c else Ccomps c) [a; b] ifSo =
    [Asm.FCMP a b is64; Asm.Bcond (conditionToCondCode c false) (machLabelToAsm name ifSo)] /\
  Asm.cond_holds (conditionToCondCode c false) (Asm.fcmp_flags r) =
    float_holds c r || (bool_decide (r = None) && bool_decide (c = Clt \/ c = Cle)).
Proof. destruct c, is64, r as [[]|]; split; reflexivity. Qed.

(** ** Labels *)

(** C25. Labels: when the functions of a program have distinct names, and each
    of them defines its labels once and branches to labels it defines, then in
    the assembly of the whole program every label is defined once, and every
    local branch goes to a label of its own function. *)
Theorem TransformProgram_labels (prog : Mach.Program) (p : Asm.Program) :
  TransformProgram prog = Some p ->
  NoDup (Mach.fn_Name <$> Mach.Functions prog) ->
  Forall (fun f => NoDup (Mach.fn_Code f ≫= mach_defs) /\
    forall l, l ∈ Mach.fn_Code f ≫= Mach.inst_targets -> l ∈ Mach.fn_Code f ≫= mach_defs) (Mach.Functions prog) ->
  NoDup (Asm.Functions p ≫= fun f => Asm.fn_Code f ≫= asm_defs) /\
  Forall (fun f => forall l, l ∈ Asm.fn_Code f ≫= asm_targets -> l ∈ Asm.fn_Code f ≫= asm_defs) (Asm.Functions p).
Proof.
  unfold TransformProgram. intros H Hnames Hfns.
  destruct (mapM transformFunction (Mach.Functions prog)) as [fns|] eqn:Hm; [|done].
  cbn [mbind option_bind] in H. apply (inj Some) in H as <-. cbn [Asm.Functions].
  apply mapM_Some in Hm. split; [by apply functions_labels_nodup with (Mach.Functions prog)|].
  clear Hnames. induction Hm as [|f af fs afs Hf Hm IH]; [by constructor|].
  apply Forall_cons in Hfns as [[_ Ht] Hfns]. constructor; [|by apply IH].
  destruct (transformFunction_labels f af Hf) as [-> ->].
  intros l (l' & -> & Hl')%list_elem_of_fmap. apply list_elem_of_fmap. eauto.
Qed.

Definition example_function (name : string) : Mach.Function :=
  Mach.mkFunction name (mkSig [] "int" false) [Mlabel 1; Mgoto 1; Mreturn] 0 [] true.

Lemma TransformProgram_labels_witness :
  exists p, TransformProgram (Mach.mkProgram [] [example_function "f"; example_function "g"]) = Some p /\
    NoDup (Asm.Functions p ≫= fun f => Asm.fn_Code f ≫= asm_defs).
Proof.
  eexists. split; [vm_compute; reflexivity|].
  apply (TransformProgram_labels (Mach.mkProgram [] [example_function "f"; example_function "g"])).
  - vm_compute. reflexivity.
  - apply (bool_decide_eq_true_1 _). vm_compute. reflexivity.
  - do 2 (apply Forall_cons; split;
      [split; [apply (bool_decide_eq_true_1 _); vm_compute; reflexivity|intros l Hl; exact Hl]|]).
    constructor.
Defined.

(** ** Where the generator goes wrong *)

(** The operations without a case. *)
Definition unsupported (op : Operation) : bool :=
  match op with
  | Omulhs | Omulhu | Omullimm _ | Omullhs | Omullhu | Ocmpf _ | Ocmps _ => true
  | _ => false
  end.

Lemma loadIntConstant_not_nil dest v is64 : loadIntConstant dest v is64 <> [].
Proof. unfold loadIntConstant. by repeat case_match. Qed.

(** Operations without code: given two arguments, every operation is
    translated, and the code is empty exactly for the high halves of products,
    the 64-bit multiplication by a constant and the floating-point comparisons
    that produce an integer. Their destination keeps its old value. *)
Theorem translateOperation_silent (a b dest : MReg) (op : Operation) :
  exists code, translateOperation [a; b] dest op = Some code /\ (code = [] <-> unsupported op = true).
Proof.
  destruct op; cbn [translateOperation unsupported]; eexists; (split; [reflexivity|]);
    try (split; [intros H; exfalso; first [discriminate H|by apply loadIntConstant_not_nil in H]|discriminate]);
    try done.
  by destruct (IsFloat dest).
Qed.

(** A remainder whose dividend is in X8 is 0, whatever the operands: the
    quotient overwrites the dividend before it is subtracted from. X8 is one
    of the registers the register allocator hands out. *)
Theorem remainder_of_X8 (b dest : MReg) (op : Operation) rf fl :
  op ∈ [Omod; Omodu; Omodl; Omodlu] ->
  exists code rf', translateOperation [X8; b] dest op = Some code /\
    Asm.exec_ints code (rf, fl) = Some (rf', fl) /\ rf' dest = 0.
Proof.
  intros Hop.
  assert (H : exists i (is64 : bool) q, translateOperation [X8; b] dest op =
      Some [i; Asm.MUL X8 X8 b is64; Asm.SUB dest X8 X8 is64] /\
      Asm.exec_int i (rf, fl) = Asm.set_reg (rf, fl) X8 (Asm.width is64) q).
  { rewrite !elem_of_cons in Hop. destruct Hop as [->|[->|[->|[->|Hop]]]]; [..|by apply not_elem_of_nil in Hop];
      (eexists _, _, _; split; reflexivity). }
  destruct H as (i & is64 & q & -> & Hi). eexists _, _. split; [done|]. split.
  - cbn [Asm.exec_ints]. rewrite Hi. cbn. reflexivity.
  - cbn [fst snd]. by rewrite fn_lookup_insert, Z.sub_diag, Zmod_0_l.
Qed.

Lemma remainder_of_X8_witness :
  exists code rf', translateOperation [X8; X 3] X0 Omod = Some code /\
    Asm.exec_ints code (example_rf, example_flags) = Some (rf', example_flags) /\ rf' X0 = 0.
Proof.
  apply (remainder_of_X8 (X 3) X0 Omod example_rf example_flags).
  left.
Defined.

(** A local that has an address is at the frame pointer, where the prologue has
    saved the caller's: a store to it changes the frame pointer the epilogue restores.
    The functions of [Mach], whose frame slots are apart from the memory that
    addresses reach, do not show this. *)
Lemma local_overwrites_frame_pointer :
  match translateOperation [] (X 9) (Oaddrstack 0), translateStore Mint64 (Aindexed 0) [X 9] (X 1) with
  | Some local, Some assignment =>
      (fun '(rf, _, _) => (rf Asm.SP, rf X29, rf X30)) <$>
        Asm.exec_code (generatePrologue 32 ++ local ++ assignment ++ generateEpilogue 32)
          ((fun r => if r =? X 1 then 7 else 4096, example_flags), fun _ => 0)
  | _, _ => None
  end = Some (4096, 7, 4096).
Proof. vm_compute. reflexivity. Qed.
