(* ===== verification/Rtl.v ===== *)
(** RTL ([src/pkg/rtl/ast.go]): a control-flow graph of instructions over
    pseudo-registers, the input of register allocation. *)

From S2P Require Import Prelude Target.

(** Pseudo-registers, positive; [Dest = 0] of a call says that the result is
    not used. *)
Abbreviation Reg := Z (only parsing).
Abbreviation Node := Z (only parsing).

Inductive FunRef :=
| FunReg (fr_Reg : Reg)
| FunSymbol (Name : string).

Inductive Instruction :=
| Inop (Succ : Node)
| Iop (Op : Operation) (Args : list Reg) (Dest : Reg) (Succ : Node)
| Iload (chunk : Chunk) (Addr : AddressingMode) (Args : list Reg) (Dest : Reg) (Succ : Node)
| Istore (chunk : Chunk) (Addr : AddressingMode) (Args : list Reg) (Src : Reg) (Succ : Node)
| Icall (sig : Sig) (Fn : FunRef) (Args : list Reg) (Dest : Reg) (Succ : Node)
| Itailcall (sig : Sig) (Fn : FunRef) (Args : list Reg)
| Ibuiltin (Builtin : string) (Args : list Reg) (Dest : option Reg) (Succ : Node)
| Icond (Cond : ConditionCode) (Args : list Reg) (IfSo IfNot : Node)
| Ijumptable (Arg : Reg) (Targets : list Node)
| Ireturn (Arg : option Reg).

(** [Successors] *)
Definition Successors (i : Instruction) : list Node :=
  match i with
  | Inop succ => [succ]
  | Iop _ _ _ succ => [succ]
  | Iload _ _ _ _ succ => [succ]
  | Istore _ _ _ _ succ => [succ]
  | Icall _ _ _ _ succ => [succ]
  | Itailcall _ _ _ => []
  | Ibuiltin _ _ _ succ => [succ]
  | Icond _ _ ifSo ifNot => [ifSo; ifNot]
  | Ijumptable _ targets => targets
  | Ireturn _ => []
  end.

Record Function := mkFunction {
  fn_Name : string;
  fn_Sig : Sig;
  fn_Params : list Reg;
  fn_Stacksize : Z;
  fn_Code : gmap Z Instruction;
  fn_Entrypoint : Node
}.

Record GlobVar := mkGlobVar {
  gv_Name : string;
  gv_Size : Z;
  gv_Init : list Z;
  gv_ReadOnly : bool
}.

Record Program := mkProgram {
  Globals : list GlobVar;
  Functions : list Function
}.

Definition NewFunction (name : string) (sig : Sig) : Function :=
  mkFunction name sig [] 0 ∅ 0.
