(* ===== verification/Liveness.v ===== *)
(** Liveness analysis ([src/pkg/regalloc/liveness.go]): the registers whose
    value may still be used, by iteration over the control-flow graph. Sets of
    registers are Go maps to [true], here finite sets. *)

From S2P Require Import Prelude Target Rtl.

Abbreviation RegSet := (gset Z) (only parsing).

(** [RegSet.Union] and [RegSet.Minus] *)
Definition Union (s other : RegSet) : RegSet := s ∪ other.
Definition Minus (s other : RegSet) : RegSet := s ∖ other.

(** The register a call goes through. *)
Definition fn_use (fn : Rtl.FunRef) : RegSet :=
  match fn with Rtl.FunReg r => {[r]} | Rtl.FunSymbol _ => ∅ end.

(** [ComputeDefUse]: the two sets of one instruction. *)
Definition instr_def (i : Rtl.Instruction) : RegSet :=
  match i with
  | Iop _ _ dest _ => {[dest]}
  | Iload _ _ _ dest _ => {[dest]}
  | Icall _ _ _ dest _ => if decide (dest = 0) then ∅ else {[dest]}
  | Ibuiltin _ _ (Some dest) _ => {[dest]}
  | _ => ∅
  end.

Definition instr_use (i : Rtl.Instruction) : RegSet :=
  match i with
  | Inop _ => ∅
  | Iop _ args _ _ => list_to_set args
  | Iload _ _ args _ _ => list_to_set args
  | Istore _ _ args src _ => list_to_set args ∪ {[src]}
  | Icall _ fn args _ _ => list_to_set args ∪ fn_use fn
  | Itailcall _ fn args => list_to_set args ∪ fn_use fn
  | Ibuiltin _ args _ _ => list_to_set args
  | Icond _ args _ _ => list_to_set args
  | Ijumptable arg _ => {[arg]}
  | Ireturn (Some arg) => {[arg]}
  | Ireturn None => ∅
  end.

Definition ComputeDefUse (fn : Rtl.Function) : gmap Z RegSet * gmap Z RegSet :=
  (instr_def <$> Rtl.fn_Code fn, instr_use <$> Rtl.fn_Code fn).

Record LivenessInfo := mkLivenessInfo {
  LiveIn : gmap Z RegSet;
  LiveOut : gmap Z RegSet;
  Def : gmap Z RegSet;
  Use : gmap Z RegSet
}.

(** A missing entry of a Go map to sets reads as the empty set. *)
Definition set_at (m : gmap Z RegSet) (n : Z) : RegSet := default ∅ (m !! n).

Section Analyze.
  Context (code : gmap Z Rtl.Instruction) (def use : gmap Z RegSet).

(** The registers live out of a node, given those live into its successors. *)
Definition new_live_out (liveIn : gmap Z RegSet) (i : Rtl.Instruction) : RegSet :=
  foldl (fun acc succ => acc ∪ set_at liveIn succ) ∅ (Successors i).

Definition new_live_in (node : Z) (newLiveOut : RegSet) : RegSet :=
  Union (set_at use node) (Minus newLiveOut (set_at def node)).

(** The body of the inner loop: [liveIn], [liveOut] and [changed]. *)
Definition live_step (st : gmap Z RegSet * gmap Z RegSet * bool) (ni : Z * Rtl.Instruction)
    : gmap Z RegSet * gmap Z RegSet * bool :=
  let '(liveIn, liveOut, changed) := st in
  let '(node, instr) := ni in
  let newLiveOut := new_live_out liveIn instr in
  let newLiveIn := new_live_in node newLiveOut in
  if bool_decide (set_at liveIn node = newLiveIn) && bool_decide (set_at liveOut node = newLiveOut)
  then st
  else (<[node := newLiveIn]> liveIn, <[node := newLiveOut]> liveOut, true).

(** The outer loop; [t] counts the rounds. *)
Fixpoint live_rounds `{RangeOrder} (fuel t : nat) (liveIn liveOut : gmap Z RegSet)
    : option (gmap Z RegSet * gmap Z RegSet) :=
  match fuel with
  | O => None
  | Datatypes.S fuel =>
      let '(liveIn', liveOut', changed) := foldl live_step (liveIn, liveOut, false) (range t code) in
      if changed : bool then live_rounds fuel (Datatypes.S t) liveIn' liveOut'
      else Some (liveIn', liveOut')
  end.
End Analyze.

(** All registers of a function, and the rounds that suffice. *)
Definition code_regs (code : gmap Z Rtl.Instruction) : RegSet :=
  map_fold (fun _ i acc => instr_def i ∪ instr_use i ∪ acc) ∅ code.

Definition live_fuel (code : gmap Z Rtl.Instruction) : nat :=
  (2 * (size code * size (code_regs code)) + 2)%nat.

(** [AnalyzeLiveness] *)
Definition AnalyzeLiveness `{RangeOrder} (fn : Rtl.Function) : option LivenessInfo :=
  let '(def, use) := ComputeDefUse fn in
  let code := Rtl.fn_Code fn in
  let liveIn := (fun _ => ∅) <$> code in
  let liveOut := (fun _ => ∅) <$> code in
  '(liveIn, liveOut) ← live_rounds code def use (live_fuel code) 0 liveIn liveOut;
  Some (mkLivenessInfo liveIn liveOut def use).

(** ** The liveness equations *)

(** What is live out of and into a node, as sets of registers given by the
    sets of the other nodes. *)
Record solution (code : gmap Z Rtl.Instruction) (li lo : Z -> RegSet) : Prop := {
  sol_out : forall n i r, code !! n = Some i -> r ∈ lo n <-> exists s, s ∈ Successors i /\ r ∈ li s;
  sol_in : forall n i r, code !! n = Some i ->
    r ∈ li n <-> r ∈ instr_use i \/ (r ∈ lo n /\ r ∉ instr_def i);
  sol_none : forall n, code !! n = None -> li n = ∅ /\ lo n = ∅
}.

(** A register is live at a node when some path of the control-flow graph leads
    from it to a use of the register without a definition in between. *)
Inductive live_at (code : gmap Z Rtl.Instruction) (r : Z) : Z -> Prop :=
| live_use n i : code !! n = Some i -> r ∈ instr_use i -> live_at code r n
| live_through n i s : code !! n = Some i -> r ∉ instr_def i -> s ∈ Successors i ->
    live_at code r s -> live_at code r n.

Definition live_after (code : gmap Z Rtl.Instruction) (r n : Z) : Prop :=
  exists i s, code !! n = Some i /\ s ∈ Successors i /\ live_at code r s.

Lemma elem_of_new_live_out liveIn i r :
  r ∈ new_live_out liveIn i <-> exists s, s ∈ Successors i /\ r ∈ set_at liveIn s.
Proof.
  unfold new_live_out.
  assert (H : forall acc, r ∈ foldl (fun acc succ => acc ∪ set_at liveIn succ) acc (Successors i) <->
    r ∈ acc \/ exists s, s ∈ Successors i /\ r ∈ set_at liveIn s).
  { induction (Successors i) as [|s l IH]; intros acc; cbn [foldl]; [set_solver|].
    rewrite IH. set_solver. }
  rewrite H. set_solver.
Qed.

Lemma elem_of_code_regs code n i r :
  code !! n = Some i -> r ∈ instr_def i \/ r ∈ instr_use i -> r ∈ code_regs code.
Proof.
  unfold code_regs. revert n i r.
  apply (map_fold_weak_ind (fun acc code => forall n i r, code !! n = Some i ->
    r ∈ instr_def i \/ r ∈ instr_use i -> r ∈ acc)); [by intros ???|].
  intros n j m acc Hn IH n' i r [[<- ->]|[Hne Hi]]%lookup_insert_Some Hr; [set_solver|].
  specialize (IH n' i r Hi Hr). set_solver.
Qed.

Section Correct.
  Context `{RangeOrder} (code : gmap Z Rtl.Instruction).

Let def : gmap Z RegSet := instr_def <$> code.
Let use : gmap Z RegSet := instr_use <$> code.

Lemma set_at_insert (m : gmap Z RegSet) n s k :
  set_at (<[n := s]> m) k = if decide (n = k) then s else set_at m k.
Proof. unfold set_at. rewrite lookup_insert. by case_decide. Qed.

Lemma set_at_def n i : code !! n = Some i -> set_at def n = instr_def i.
Proof using All. intros Hi. unfold set_at, def. by rewrite lookup_fmap, Hi. Qed.
Lemma set_at_use n i : code !! n = Some i -> set_at use n = instr_use i.
Proof using All. intros Hi. unfold set_at, use. by rewrite lookup_fmap, Hi. Qed.

(** What holds throughout: the sets grow towards any solution, and what they
    contain is justified by the sets of the other nodes. *)
Record growing (li lo : gmap Z RegSet) : Prop := {
  gr_out : forall n i, code !! n = Some i -> set_at lo n ⊆ new_live_out li i;
  gr_in : forall n i, code !! n = Some i -> set_at li n ⊆ new_live_in def use n (new_live_out li i);
  gr_dom : dom li = dom code /\ dom lo = dom code;
  gr_regs : forall n, set_at li n ∪ set_at lo n ⊆ code_regs code;
  gr_least : forall li' lo', solution code li' lo' -> forall n, set_at li n ⊆ li' n /\ set_at lo n ⊆ lo' n;
  gr_path : forall n r, (r ∈ set_at li n -> live_at code r n) /\ (r ∈ set_at lo n -> live_after code r n)
}.

Lemma new_live_out_mono li li' i :
  (forall n, set_at li n ⊆ set_at li' n) -> new_live_out li i ⊆ new_live_out li' i.
Proof using All. intros Hm r. rewrite !elem_of_new_live_out. intros (s & Hs & Hr). exists s. set_solver. Qed.

Lemma new_live_in_mono n s s' : s ⊆ s' -> new_live_in def use n s ⊆ new_live_in def use n s'.
Proof using All. unfold new_live_in, Union, Minus. set_solver. Qed.

Lemma live_step_grows li lo b n i :
  code !! n = Some i -> growing li lo ->
  let '(li', lo', b') := live_step def use (li, lo, b) (n, i) in
  growing li' lo' /\ (forall k, set_at li k ⊆ set_at li' k /\ set_at lo k ⊆ set_at lo' k) /\
  ((li', lo', b') = (li, lo, b) /\ set_at lo n = new_live_out li i /\
     set_at li n = new_live_in def use n (new_live_out li i) \/
   b' = true /\ (set_at li n <> set_at li' n \/ set_at lo n <> set_at lo' n)).
Proof using All.
  intros Hi [G1 G2 [G3 G3'] G4 G5 G6]. unfold live_step.
  destruct (bool_decide _ && bool_decide _) eqn:E.
  { apply andb_prop in E as [E1%bool_decide_eq_true E2%bool_decide_eq_true].
    split; [by split|]. split; [done|]. left. done. }
  set (lo1 := new_live_out li i) in *. set (li1 := new_live_in def use n lo1) in *.
  assert (Hn : n ∈ dom code) by by apply elem_of_dom_2 in Hi.
  assert (Hup : forall k, set_at li k ⊆ set_at (<[n := li1]> li) k /\ set_at lo k ⊆ set_at (<[n := lo1]> lo) k).
  { intros k. rewrite !set_at_insert. destruct (decide (n = k)) as [<-|Hk]; [|done].
    split; [by apply G2|by apply G1]. }
  split; [split|split; [done|]].
  - intros k j Hj. rewrite set_at_insert. etrans; [|apply (new_live_out_mono li); intros; apply Hup].
    destruct (decide (n = k)) as [<-|Hk]; [|by apply G1]. rewrite Hi in Hj. by injection Hj as <-.
  - intros k j Hj. rewrite set_at_insert.
    etrans; [|apply new_live_in_mono, (new_live_out_mono li); intros; apply Hup].
    destruct (decide (n = k)) as [<-|Hk]; [|by apply G2]. rewrite Hi in Hj. by injection Hj as <-.
  - rewrite !dom_insert_L. set_solver.
  - intros k r. rewrite !set_at_insert. destruct (decide (n = k)) as [<-|Hk]; [|by apply G4].
    assert (Hlo : forall r, r ∈ lo1 -> r ∈ code_regs code).
    { intros r' (s & Hs & Hr')%elem_of_new_live_out. apply (G4 s). set_solver. }
    intros [Hr|Hr]%elem_of_union; [|by apply Hlo].
    unfold li1, new_live_in, Union, Minus in Hr. rewrite (set_at_use n i Hi) in Hr.
    apply elem_of_union in Hr as [Hr|[Hr _]%elem_of_difference]; [|by apply Hlo].
    apply (elem_of_code_regs code n i); [done|]. by right.
  - intros li' lo' Hsol k. rewrite !set_at_insert. destruct (decide (n = k)) as [<-|Hk]; [|by apply G5].
    assert (Hlo : lo1 ⊆ lo' n).
    { intros r (s & Hs & Hr)%elem_of_new_live_out. apply (sol_out _ _ _ Hsol n i r Hi).
      exists s. split; [done|]. by apply (G5 li' lo' Hsol s). }
    split; [|done]. intros r Hr. unfold li1, new_live_in, Union, Minus in Hr.
    rewrite (set_at_use n i Hi), (set_at_def n i Hi) in Hr.
    apply (sol_in _ _ _ Hsol n i r Hi). set_solver.
  - intros k r. rewrite !set_at_insert. destruct (decide (n = k)) as [<-|Hk]; [|by apply G6].
    assert (Hlo : r ∈ lo1 -> live_after code r n).
    { intros (s & Hs & Hr)%elem_of_new_live_out. exists i, s. split; [done|]. split; [done|]. by apply G6. }
    split; [|done]. unfold li1, new_live_in, Union, Minus. rewrite (set_at_use n i Hi), (set_at_def n i Hi).
    intros [Hr|[Hr Hd]%elem_of_difference]%elem_of_union; [by eapply live_use|].
    destruct (Hlo Hr) as (j & s & Hj & Hs & Hp). rewrite Hi in Hj. injection Hj as <-. by eapply live_through.
  - right. split; [done|]. rewrite !set_at_insert, !decide_True by done.
    apply andb_false_iff in E as [E|E]; apply bool_decide_eq_false in E; [by left|by right].
Qed.

(** One round: nothing changed and every equation holds, or some set grew. *)
Lemma live_round_grows l li lo b :
  (forall n i, (n, i) ∈ l -> code !! n = Some i) -> growing li lo ->
  let '(li', lo', b') := foldl (live_step def use) (li, lo, b) l in
  growing li' lo' /\ (forall k, set_at li k ⊆ set_at li' k /\ set_at lo k ⊆ set_at lo' k) /\
  ((li', lo', b') = (li, lo, b) /\
     (forall n i, (n, i) ∈ l -> set_at lo n = new_live_out li i /\
        set_at li n = new_live_in def use n (new_live_out li i)) \/
   b' = true /\ exists k, k ∈ dom code /\ (set_at li k <> set_at li' k \/ set_at lo k <> set_at lo' k)).
Proof using All.
  revert li lo b. induction l as [|[n i] l IH]; intros li lo b Hl Hg; cbn [foldl].
  { split; [done|]. split; [done|]. left. split; [done|]. intros n i Hi. by apply not_elem_of_nil in Hi. }
  assert (Hi : code !! n = Some i) by (apply Hl; left).
  assert (Hl' : forall n i, (n, i) ∈ l -> code !! n = Some i) by (intros; apply Hl; by right).
  pose proof (live_step_grows li lo b n i Hi Hg) as Hs.
  destruct (live_step def use (li, lo, b) (n, i)) as [[li1 lo1] b1].
  destruct Hs as (Hg1 & Hup1 & Hs). specialize (IH li1 lo1 b1 Hl' Hg1).
  destruct (foldl _ _ l) as [[li2 lo2] b2]. destruct IH as (Hg2 & Hup2 & IH).
  split; [done|]. split; [intros k; destruct (Hup1 k), (Hup2 k); set_solver|].
  assert (Hn : n ∈ dom code) by by apply elem_of_dom_2 in Hi.
  destruct Hs as [([= -> -> ->] & Ho & Hin)|[-> Hne]].
  - destruct IH as [(Heq & IH)|IH]; [|by right]. left. split; [done|].
    intros n' i' [[= -> ->]|Hn']%elem_of_cons; [done|]. by apply IH.
  - right. destruct IH as [([= -> -> ->] & _)|[-> _]]; (split; [done|]); exists n; (split; [done|]); [done|].
    destruct (Hup1 n), (Hup2 n). destruct Hne as [Hne|Hne]; [left|right]; set_solver.
Qed.

(** The progress measure: the sizes of all sets. *)
Definition live_measure (li lo : gmap Z RegSet) : nat :=
  sum_list_with (fun n => size (set_at li n) + size (set_at lo n))%nat (elements (dom code)).

Lemma sum_list_with_lt {A} (f g : A -> nat) l :
  (forall x, x ∈ l -> f x <= g x)%nat -> (exists x, x ∈ l /\ f x < g x)%nat ->
  (sum_list_with f l < sum_list_with g l)%nat.
Proof using All.
  intros Hle (x & Hx & Hlt). induction l as [|y l IH]; [by apply not_elem_of_nil in Hx|].
  assert (Hmono : (sum_list_with f l <= sum_list_with g l)%nat).
  { clear -Hle. induction l as [|z l IH]; cbn; [lia|].
    pose proof (Hle z ltac:(set_solver)). assert (sum_list_with f l <= sum_list_with g l)%nat; [|lia].
    apply IH. set_solver. }
  cbn. pose proof (Hle y ltac:(set_solver)). apply elem_of_cons in Hx as [->|Hx]; [lia|].
  assert (sum_list_with f l < sum_list_with g l)%nat; [|lia]. apply IH; [set_solver|done].
Qed.

Lemma size_grows (s s' : RegSet) : s ⊆ s' -> s <> s' -> (size s < size s')%nat.
Proof using All. intros Hs Hne. apply subset_size. split; [done|]. intros H'. apply Hne. set_solver. Qed.

Lemma live_measure_lt li lo li' lo' :
  (forall k, set_at li k ⊆ set_at li' k /\ set_at lo k ⊆ set_at lo' k) ->
  (exists k, k ∈ dom code /\ (set_at li k <> set_at li' k \/ set_at lo k <> set_at lo' k)) ->
  (live_measure li lo < live_measure li' lo')%nat.
Proof using All.
  intros Hup (k & Hk & Hne). apply sum_list_with_lt.
  - intros n _. destruct (Hup n) as [H1 H2]. apply subseteq_size in H1, H2. lia.
  - exists k. split; [by apply elem_of_elements|]. destruct (Hup k) as [H1 H2].
    pose proof (subseteq_size _ _ H1). pose proof (subseteq_size _ _ H2).
    destruct Hne as [Hne|Hne]; [pose proof (size_grows _ _ H1 Hne)|pose proof (size_grows _ _ H2 Hne)]; lia.
Qed.

Lemma live_measure_bound li lo :
  growing li lo -> (live_measure li lo <= 2 * (size code * size (code_regs code)))%nat.
Proof using All.
  intros Hg.
  assert (Hl : forall l, (sum_list_with (fun n => size (set_at li n) + size (set_at lo n)) l <=
      2 * (length l * size (code_regs code)))%nat).
  { induction l as [|n l IH]; cbn; [lia|]. pose proof (gr_regs _ _ Hg n) as Hr.
    assert (H1 : (size (set_at li n) <= size (code_regs code))%nat) by (apply subseteq_size; set_solver).
    assert (H2 : (size (set_at lo n) <= size (code_regs code))%nat) by (apply subseteq_size; set_solver).
    lia. }
  rewrite <- (size_dom (D := gset Z) code). apply Hl.
Qed.

Lemma live_rounds_spec fuel t li lo :
  growing li lo -> (2 * (size code * size (code_regs code)) < fuel + live_measure li lo)%nat ->
  exists li' lo', live_rounds code def use fuel t li lo = Some (li', lo') /\ growing li' lo' /\
    forall n i, code !! n = Some i -> set_at lo' n = new_live_out li' i /\
      set_at li' n = new_live_in def use n (new_live_out li' i).
Proof using All.
  revert t li lo. induction fuel as [|fuel IH]; intros t li lo Hg Hf.
  { pose proof (live_measure_bound li lo Hg). lia. }
  cbn [live_rounds].
  assert (Hl : forall n i, (n, i) ∈ range t code <-> code !! n = Some i).
  { intros n i. rewrite (range_perm t code). apply elem_of_map_to_list. }
  pose proof (live_round_grows (range t code) li lo false (fun n i => proj1 (Hl n i)) Hg) as Hr.
  destruct (foldl _ _ _) as [[li1 lo1] b]. destruct Hr as (Hg1 & Hup & [([= -> -> ->] & Heq)|(-> & Hne)]).
  - exists li, lo. split; [done|]. split; [done|]. intros n i Hi. by apply Heq, Hl.
  - apply IH; [done|]. pose proof (live_measure_lt _ _ _ _ Hup Hne). lia.
Qed.

Lemma growing_init : growing ((fun _ => ∅) <$> code) ((fun _ => ∅) <$> code).
Proof using All.
  assert (He : forall n, set_at ((fun _ => ∅) <$> code) n = (∅ : RegSet)).
  { intros n. unfold set_at. rewrite lookup_fmap. by destruct (code !! n). }
  split.
  - intros n i _. rewrite He. set_solver.
  - intros n i _. rewrite He. set_solver.
  - by rewrite dom_fmap_L.
  - intros n. rewrite !He. set_solver.
  - intros li' lo' _ n. rewrite !He. set_solver.
  - intros n r. rewrite !He. set_solver.
Qed.

Lemma growing_solution li lo :
  growing li lo ->
  (forall n i, code !! n = Some i -> set_at lo n = new_live_out li i /\
      set_at li n = new_live_in def use n (new_live_out li i)) ->
  solution code (set_at li) (set_at lo).
Proof using All.
  intros Hg Heq. split.
  - intros n i r Hi. destruct (Heq n i Hi) as [-> _]. apply elem_of_new_live_out.
  - intros n i r Hi. destruct (Heq n i Hi) as [Ho ->]. rewrite Ho. unfold new_live_in, Union, Minus.
    rewrite (set_at_use n i Hi), (set_at_def n i Hi). set_solver.
  - intros n Hn. destruct (gr_dom _ _ Hg) as [H1 H2]. apply not_elem_of_dom in Hn. unfold set_at.
    by rewrite !(proj1 (not_elem_of_dom _ _)) by (rewrite ?H1, ?H2; done).
Qed.
End Correct.

(** The analysis returns the least solution of the liveness equations. *)
Lemma AnalyzeLiveness_spec `{RangeOrder} (fn : Rtl.Function) :
  exists info, AnalyzeLiveness fn = Some info /\
    solution (Rtl.fn_Code fn) (set_at (LiveIn info)) (set_at (LiveOut info)) /\
    (forall li lo, solution (Rtl.fn_Code fn) li lo ->
       forall n, set_at (LiveIn info) n ⊆ li n /\ set_at (LiveOut info) n ⊆ lo n) /\
    (forall n r, (r ∈ set_at (LiveIn info) n -> live_at (Rtl.fn_Code fn) r n) /\
       (r ∈ set_at (LiveOut info) n -> live_after (Rtl.fn_Code fn) r n)) /\
    dom (LiveIn info) = dom (Rtl.fn_Code fn) /\ dom (LiveOut info) = dom (Rtl.fn_Code fn) /\
    Def info = instr_def <$> Rtl.fn_Code fn /\ Use info = instr_use <$> Rtl.fn_Code fn.
Proof.
  destruct (live_rounds_spec (Rtl.fn_Code fn) (live_fuel (Rtl.fn_Code fn)) 0 _ _ (growing_init _))
    as (li & lo & Hr & Hg & Heq); [unfold live_fuel; lia|].
  unfold AnalyzeLiveness, ComputeDefUse. rewrite Hr. eexists. split; [reflexivity|]. cbn.
  split; [by apply growing_solution|]. split; [apply (gr_least _ _ _ Hg)|]. split; [apply (gr_path _ _ _ Hg)|].
  destruct (gr_dom _ _ _ Hg) as [-> ->]. done.
Qed.

(** The least solution is unique: the iteration order does not matter. *)
Lemma AnalyzeLiveness_order (r1 r2 : RangeOrder) (fn : Rtl.Function) :
  @AnalyzeLiveness r1 fn = @AnalyzeLiveness r2 fn.
Proof.
  destruct (@AnalyzeLiveness_spec r1 fn) as (i1 & -> & S1 & L1 & _ & D1 & D1' & E1 & E1').
  destruct (@AnalyzeLiveness_spec r2 fn) as (i2 & -> & S2 & L2 & _ & D2 & D2' & E2 & E2').
  assert (Hext : forall m1 m2 : gmap Z RegSet, dom m1 = dom m2 -> (forall n, set_at m1 n = set_at m2 n) -> m1 = m2).
  { intros m1 m2 Hd Hs. apply map_eq. intros n. specialize (Hs n). unfold set_at in Hs.
    destruct (m1 !! n) as [s1|] eqn:E.
    - assert (Hn : n ∈ dom m2) by (rewrite <- Hd; by apply elem_of_dom_2 in E).
      apply elem_of_dom in Hn as [s2 Hs2]. rewrite Hs2 in *. cbn in Hs. by subst.
    - apply not_elem_of_dom in E. rewrite Hd in E. by apply not_elem_of_dom in E. }
  destruct i1, i2; cbn in *; subst. f_equal. f_equal; apply Hext; [congruence| |congruence|].
  - intros n. destruct (L1 _ _ S2 n), (L2 _ _ S1 n). set_solver.
  - intros n. destruct (L1 _ _ S2 n), (L2 _ _ S1 n). set_solver.
Qed.

(** A solution contains every live register. *)
Lemma solution_live code li lo n r : solution code li lo -> live_at code r n -> r ∈ li n.
Proof.
  intros Hs Hl. induction Hl as [n i Hi Hu|n i s Hi Hd Hsucc _ IH]; apply (sol_in _ _ _ Hs n i r Hi); [by left|].
  right. split; [|done]. apply (sol_out _ _ _ Hs n i r Hi). eauto.
Qed.
