(* ===== verification/Interference.v ===== *)
(** The interference graph ([src/pkg/regalloc/interference.go]): which
    pseudo-registers must not share a location. Sets and maps of sets are Go
    maps; loops over them run in any order. *)

From S2P Require Import Prelude Target Rtl Liveness.

Record InterferenceGraph := mkGraph {
  Nodes : RegSet;
  Edges : gmap Z RegSet;
  Preferences : gmap Z RegSet;
  LiveAcrossCalls : RegSet
}.

Definition NewInterferenceGraph : InterferenceGraph := mkGraph ∅ ∅ ∅ ∅.

(** [if m[r] == nil { m[r] = NewRegSet() }] *)
Definition ensure_set (m : gmap Z RegSet) (r : Z) : gmap Z RegSet :=
  match m !! r with None => <[r := ∅]> m | Some _ => m end.

(** [m[r1].Add(r2)] *)
Definition add_to (m : gmap Z RegSet) (r1 r2 : Z) : gmap Z RegSet := <[r1 := {[r2]} ∪ set_at m r1]> m.

(** [AddNode] *)
Definition AddNode (g : InterferenceGraph) (r : Z) : InterferenceGraph :=
  mkGraph ({[r]} ∪ Nodes g) (ensure_set (Edges g) r) (ensure_set (Preferences g) r) (LiveAcrossCalls g).

(** [AddEdge] *)
Definition AddEdge (g : InterferenceGraph) (r1 r2 : Z) : InterferenceGraph :=
  if r1 =? r2 then g
  else
    let g := AddNode (AddNode g r1) r2 in
    mkGraph (Nodes g) (add_to (add_to (Edges g) r1 r2) r2 r1) (Preferences g) (LiveAcrossCalls g).

(** [AddPreference] *)
Definition AddPreference (g : InterferenceGraph) (r1 r2 : Z) : InterferenceGraph :=
  if r1 =? r2 then g
  else
    let g := AddNode (AddNode g r1) r2 in
    mkGraph (Nodes g) (Edges g) (add_to (add_to (Preferences g) r1 r2) r2 r1) (LiveAcrossCalls g).

(** [g.LiveAcrossCalls.Add(r)] *)
Definition AddLiveAcross (g : InterferenceGraph) (r : Z) : InterferenceGraph :=
  mkGraph (Nodes g) (Edges g) (Preferences g) ({[r]} ∪ LiveAcrossCalls g).

(** [HasEdge], [Degree], [Neighbors], [MoveRelated] *)
Definition HasEdge (g : InterferenceGraph) (r1 r2 : Z) : bool := bool_decide (r2 ∈ set_at (Edges g) r1).
Definition Degree (g : InterferenceGraph) (r : Z) : nat := size (set_at (Edges g) r).
Definition Neighbors (g : InterferenceGraph) (r : Z) : RegSet := set_at (Edges g) r.
Definition MoveRelated (g : InterferenceGraph) (r : Z) : bool := (0 <? size (set_at (Preferences g) r))%nat.

(** [isCall], [isMove], [isMoveSource] *)
Definition isCall (i : Rtl.Instruction) : bool :=
  match i with Icall _ _ _ _ _ => true | _ => false end.
Definition isMove (i : Rtl.Instruction) : bool :=
  match i with Iop Omove _ _ _ => true | _ => false end.
Definition isMoveSource (i : Rtl.Instruction) (reg : Z) : bool :=
  match i with Iop Omove [a] _ _ => a =? reg | _ => false end.

Section Build.
  Context `{RangeOrder}.

(** [RemoveNode]: the neighbours forget the node, then it goes. *)
Definition remove_from (m : gmap Z RegSet) (r : Z) : gmap Z RegSet :=
  match m !! r with
  | Some s => set_fold (fun n acc => <[n := set_at acc n ∖ {[r]}]> acc) m s
  | None => m
  end.

Definition RemoveNode (g : InterferenceGraph) (r : Z) : InterferenceGraph :=
  mkGraph (Nodes g ∖ {[r]}) (delete r (remove_from (Edges g) r)) (delete r (remove_from (Preferences g) r))
    (LiveAcrossCalls g).

(** The loops of [BuildInterferenceGraph]. *)
Definition add_nodes (live : LivenessInfo) (st : nat * InterferenceGraph) : nat * InterferenceGraph :=
  for_range (Def live) (fun '(node, def) st =>
    for_set (set_at (Use live) node) (fun r st => (st.1, AddNode st.2 r))
      (for_set def (fun r st => (st.1, AddNode st.2 r)) st)) st.

Definition def_edges (instr : Rtl.Instruction) (liveOut : RegSet) (defReg : Z)
    (st : nat * InterferenceGraph) : nat * InterferenceGraph :=
  for_set liveOut (fun liveReg st =>
    if isMove instr && isMoveSource instr liveReg then st else (st.1, AddEdge st.2 defReg liveReg)) st.

Definition add_edges (code : gmap Z Rtl.Instruction) (live : LivenessInfo)
    (st : nat * InterferenceGraph) : nat * InterferenceGraph :=
  for_range code (fun '(node, instr) st =>
    let liveOut := set_at (LiveOut live) node in
    let st := for_set (set_at (Def live) node) (fun defReg st => def_edges instr liveOut defReg st) st in
    if isCall instr then for_set liveOut (fun r st => (st.1, AddLiveAcross st.2 r)) st else st) st.

(** Whether a register is used anywhere: the loop stops at the first use. *)
Definition reg_used (live : LivenessInfo) (r : Z) : bool :=
  bool_decide (map_Exists (fun _ use => r ∈ use) (Use live)).

Definition add_param_edges (params : list Z) (live : LivenessInfo)
    (st : nat * InterferenceGraph) : nat * InterferenceGraph :=
  foldl (fun st param =>
    if reg_used live param then
      for_set (Nodes st.2) (fun other st =>
        if negb (other =? param) then (st.1, AddEdge st.2 param other) else st) st
    else st) st params.

Definition add_preferences (code : gmap Z Rtl.Instruction) (st : nat * InterferenceGraph)
    : nat * InterferenceGraph :=
  for_range code (fun '(_, instr) st =>
    match instr with
    | Iop Omove [a] dest _ => (st.1, AddPreference st.2 dest a)
    | _ => st
    end) st.

(** [BuildInterferenceGraph]; [t] is the number of its first loop. *)
Definition BuildInterferenceGraph (t : nat) (fn : Rtl.Function) (live : LivenessInfo)
    : nat * InterferenceGraph :=
  let g := foldl AddNode NewInterferenceGraph (Rtl.fn_Params fn) in
  add_preferences (Rtl.fn_Code fn)
    (add_param_edges (Rtl.fn_Params fn) live
      (add_edges (Rtl.fn_Code fn) live (add_nodes live (t, g)))).
End Build.

(** ** What a graph says

    Everything observable of a graph, and what a step adds to it. *)

Inductive fact :=
| FNode (r : Z)
| FEdge (r1 r2 : Z)
| FPref (r1 r2 : Z)
| FAcross (r : Z).

Definition sees (g : InterferenceGraph) (o : fact) : Prop :=
  match o with
  | FNode r => r ∈ Nodes g
  | FEdge r1 r2 => r2 ∈ set_at (Edges g) r1
  | FPref r1 r2 => r2 ∈ set_at (Preferences g) r1
  | FAcross r => r ∈ LiveAcrossCalls g
  end.

Definition adds (g g' : InterferenceGraph) (R : fact -> Prop) : Prop :=
  forall o, sees g' o <-> sees g o \/ R o.

(** The facts of an edge and of a preference between two registers. *)
Definition edge_facts (r1 r2 : Z) (o : fact) : Prop :=
  r1 <> r2 /\ (o = FNode r1 \/ o = FNode r2 \/ o = FEdge r1 r2 \/ o = FEdge r2 r1).
Definition pref_facts (r1 r2 : Z) (o : fact) : Prop :=
  r1 <> r2 /\ (o = FNode r1 \/ o = FNode r2 \/ o = FPref r1 r2 \/ o = FPref r2 r1).

Lemma set_at_ensure m r k : set_at (ensure_set m r) k = set_at m k.
Proof.
  unfold ensure_set, set_at. destruct (m !! r) eqn:E; [done|].
  destruct (decide (r = k)) as [<-|Hk]; [by rewrite lookup_insert_eq, E|by rewrite lookup_insert_ne].
Qed.

Lemma elem_of_add_to m r1 r2 k x :
  x ∈ set_at (add_to m r1 r2) k <-> x ∈ set_at m k \/ (k = r1 /\ x = r2).
Proof. unfold add_to. rewrite set_at_insert. case_decide; set_solver. Qed.

Lemma adds_AddNode g r : adds g (AddNode g r) (fun o => o = FNode r).
Proof.
  intros []; cbn; rewrite ?set_at_ensure; [|intuition congruence..].
  rewrite elem_of_union, elem_of_singleton. intuition congruence.
Qed.

Lemma adds_AddEdge g r1 r2 : adds g (AddEdge g r1 r2) (edge_facts r1 r2).
Proof.
  unfold AddEdge, edge_facts. destruct (Z.eqb_spec r1 r2); [intros o; tauto|].
  intros []; cbn; rewrite ?elem_of_add_to, ?set_at_ensure, ?elem_of_union, ?elem_of_singleton;
    intuition (try congruence); naive_solver.
Qed.

Lemma adds_AddPreference g r1 r2 : adds g (AddPreference g r1 r2) (pref_facts r1 r2).
Proof.
  unfold AddPreference, pref_facts. destruct (Z.eqb_spec r1 r2); [intros o; tauto|].
  intros []; cbn; rewrite ?elem_of_add_to, ?set_at_ensure, ?elem_of_union, ?elem_of_singleton;
    intuition (try congruence); naive_solver.
Qed.

Lemma adds_AddLiveAcross g r : adds g (AddLiveAcross g r) (fun o => o = FAcross r).
Proof.
  intros []; cbn; [intuition congruence..|].
  rewrite elem_of_union, elem_of_singleton. intuition congruence.
Qed.

Lemma adds_refl g : adds g g (fun _ => False).
Proof. intros o. tauto. Qed.

Lemma adds_trans g1 g2 g3 R R' : adds g1 g2 R -> adds g2 g3 R' -> adds g1 g3 (fun o => R o \/ R' o).
Proof. intros H1 H2 o. rewrite (H2 o), (H1 o). tauto. Qed.

Lemma adds_iff g g' (R R' : fact -> Prop) : (forall o, R o <-> R' o) -> adds g g' R -> adds g g' R'.
Proof. intros HR H o. by rewrite (H o), HR. Qed.

Section Loops.
  Context `{RangeOrder}.

Lemma adds_foldl {A} (f : nat * InterferenceGraph -> A -> nat * InterferenceGraph) (R : A -> fact -> Prop) l st :
  (forall x st, x ∈ l -> adds st.2 (f st x).2 (R x)) ->
  adds st.2 (foldl f st l).2 (fun o => exists x, x ∈ l /\ R x o).
Proof.
  revert st. induction l as [|x l IH]; intros st Hf; cbn [foldl].
  - eapply adds_iff; [|apply adds_refl]. intros o. split; [done|]. intros (x & Hx & _). by apply not_elem_of_nil in Hx.
  - eapply adds_iff; [|eapply adds_trans; [apply (Hf x); left|apply IH; intros; apply Hf; by right]].
    intros o. split.
    + intros [Hx|(y & Hy & HR)]; [exists x; split; [left|done]|exists y; split; [by right|done]].
    + intros (y & [->|Hy]%elem_of_cons & HR); [by left|right; eauto].
Qed.

Lemma adds_for_range {V} (m : gmap Z V) body (R : Z -> V -> fact -> Prop) st :
  (forall k v st, m !! k = Some v -> adds st.2 (body (k, v) st).2 (R k v)) ->
  adds st.2 (for_range m body st).2 (fun o => exists k v, m !! k = Some v /\ R k v o).
Proof.
  intros Hb. unfold for_range.
  assert (Hl : forall k v, (k, v) ∈ range st.1 m <-> m !! k = Some v).
  { intros k v. rewrite (range_perm st.1 m). apply elem_of_map_to_list. }
  eapply adds_iff; [|apply (adds_foldl _ (fun kv => R kv.1 kv.2) _ (Datatypes.S st.1, st.2))].
  - intros o. split.
    + intros ([k v] & Hin & HR). exists k, v. split; [by apply Hl|done].
    + intros (k & v & Hk & HR). exists (k, v). split; [by apply Hl|done].
  - intros [k v] st' Hin. by apply Hb, Hl.
Qed.

Lemma adds_for_set (s : RegSet) body (R : Z -> fact -> Prop) st :
  (forall k st, k ∈ s -> adds st.2 (body k st).2 (R k)) ->
  adds st.2 (for_set s body st).2 (fun o => exists k, k ∈ s /\ R k o).
Proof.
  intros Hb. unfold for_set.
  eapply adds_iff; [|apply (adds_for_range _ _ (fun k _ => R k))].
  - intros o. setoid_rewrite lookup_gset_to_gmap_Some. split.
    + intros (k & [] & [Hk _] & HR). eauto.
    + intros (k & Hk & HR). exists k, tt. auto.
  - intros k v st' [Hk _]%lookup_gset_to_gmap_Some. by apply Hb.
Qed.
End Loops.

(** ** What the construction builds *)

Section Spec.
  Context `{RangeOrder} (fn : Rtl.Function) (live : LivenessInfo).

Let code := Rtl.fn_Code fn.

(** The registers of the graph, apart from those only edges mention. *)
Definition graph_reg (r : Z) : Prop :=
  r ∈ Rtl.fn_Params fn \/ exists n s, Def live !! n = Some s /\ (r ∈ s \/ r ∈ set_at (Use live) n).

(** A register that is defined where another one is live out, other than by a
    move from it; or a used parameter and any other register. *)
Definition def_interferes (a b : Z) : Prop :=
  exists n i, Rtl.fn_Code fn !! n = Some i /\ a ∈ set_at (Def live) n /\ b ∈ set_at (LiveOut live) n /\
    ~ (isMove i = true /\ isMoveSource i b = true).

Definition param_interferes (a b : Z) : Prop :=
  a ∈ Rtl.fn_Params fn /\ reg_used live a = true /\ graph_reg b.

Definition interferes (a b : Z) : Prop := def_interferes a b \/ param_interferes a b.

(** The two sides of a move. *)
Definition moves (dest src : Z) : Prop :=
  exists n succ, Rtl.fn_Code fn !! n = Some (Iop Omove [src] dest succ).

Definition live_across (r : Z) : Prop :=
  exists n i, Rtl.fn_Code fn !! n = Some i /\ isCall i = true /\ r ∈ set_at (LiveOut live) n.

(** Live registers are registers of the graph. *)
Hypothesis live_regs : forall n r, r ∈ set_at (LiveOut live) n -> graph_reg r.

Lemma adds_params g l : adds g (foldl AddNode g l) (fun o => exists r, r ∈ l /\ o = FNode r).
Proof.
  revert g. induction l as [|r l IH]; intros g; cbn [foldl].
  - eapply adds_iff; [|apply adds_refl]. intros o. split; [done|]. intros (x & Hx & _). by apply not_elem_of_nil in Hx.
  - eapply adds_iff; [|eapply adds_trans; [apply adds_AddNode|apply IH]].
    intros o. setoid_rewrite elem_of_cons. naive_solver.
Qed.

Lemma adds_nodes st :
  adds st.2 (add_nodes live st).2
    (fun o => exists n s, Def live !! n = Some s /\ exists r, (r ∈ s \/ r ∈ set_at (Use live) n) /\ o = FNode r).
Proof.
  eapply adds_iff; [|apply (adds_for_range _ _ (fun n s o =>
    exists r, (r ∈ s \/ r ∈ set_at (Use live) n) /\ o = FNode r))].
  { intros o. naive_solver. }
  intros n s st' Hn.
  eapply adds_iff; [|eapply adds_trans; cycle 1; apply (adds_for_set _ _ (fun r o => o = FNode r))].
  - intros o. naive_solver.
  - intros r st'' _. apply adds_AddNode.
  - intros r st'' _. apply adds_AddNode.
Qed.

Lemma adds_def_edges instr lo d st :
  adds st.2 (def_edges instr lo d st).2
    (fun o => exists l, l ∈ lo /\ ~ (isMove instr = true /\ isMoveSource instr l = true) /\ edge_facts d l o).
Proof.
  apply (adds_for_set lo _ (fun l o =>
    ~ (isMove instr = true /\ isMoveSource instr l = true) /\ edge_facts d l o)).
  intros l st' _. destruct (isMove instr && isMoveSource instr l) eqn:E.
  - apply andb_prop in E. eapply adds_iff; [|apply adds_refl]. tauto.
  - eapply adds_iff; [|apply adds_AddEdge]. intros o. rewrite andb_false_iff in E.
    destruct E as [E|E]; rewrite E; intuition congruence.
Qed.

Lemma adds_edges st :
  adds st.2 (add_edges code live st).2
    (fun o => (exists a b, def_interferes a b /\ edge_facts a b o) \/ exists r, live_across r /\ o = FAcross r).
Proof.
  eapply adds_iff; [|apply (adds_for_range _ _ (fun n i o =>
    (exists d, d ∈ set_at (Def live) n /\ exists l, l ∈ set_at (LiveOut live) n /\
       ~ (isMove i = true /\ isMoveSource i l = true) /\ edge_facts d l o) \/
    (isCall i = true /\ exists r, r ∈ set_at (LiveOut live) n /\ o = FAcross r)))].
  { intros o. unfold def_interferes, live_across, code. split.
    - intros (n & i & Hn & [(d & Hd & l & Hl & Hm & He)|(Hc & r & Hr & ->)]).
      + left. exists d, l. split; [|done]. eauto 8.
      + right. exists r. split; [|done]. eauto 8.
    - intros [(a & b & (n & i & Hn & Ha & Hb & Hm) & He)|(r & (n & i & Hn & Hc & Hr) & ->)].
      + exists n, i. split; [done|]. left. eauto 8.
      + exists n, i. split; [done|]. right. eauto. }
  intros n i st' Hn. cbn beta iota.
  assert (Hd := adds_for_set (set_at (Def live) n) (fun d st => def_edges i (set_at (LiveOut live) n) d st) _ st'
    (fun d st _ => adds_def_edges i (set_at (LiveOut live) n) d st)).
  destruct (isCall i).
  - eapply adds_iff; [|eapply adds_trans; cycle 1; [apply (adds_for_set _ _ (fun r o => o = FAcross r))|exact Hd]].
    + intros o. naive_solver.
    + intros r st'' _. apply adds_AddLiveAcross.
  - eapply adds_iff; [|exact Hd]. intros o. naive_solver.
Qed.

Lemma adds_param_edges l (N : RegSet) st :
  Nodes st.2 = N -> (forall p, p ∈ l -> p ∈ N) ->
  adds st.2 (add_param_edges l live st).2
    (fun o => exists p x, p ∈ l /\ reg_used live p = true /\ x ∈ N /\ edge_facts p x o).
Proof.
  revert st. induction l as [|p l IH]; intros st HN Hl; cbn [add_param_edges foldl].
  { eapply adds_iff; [|apply adds_refl]. intros o. split; [done|]. intros (x & y & Hx & _). by apply not_elem_of_nil in Hx. }
  destruct (reg_used live p) eqn:Hu.
  2:{ eapply adds_iff; [|apply IH; [done|intros; apply Hl; by right]].
      intros o. split.
      - intros (q & x & Hq & Hr). exists q, x. split; [by right|done].
      - intros (q & x & [->|Hq]%elem_of_cons & Hr & Hx); [congruence|eauto 6]. }
  rewrite HN. set (st' := for_set N _ st).
  assert (Hst : adds st.2 st'.2 (fun o => exists x, x ∈ N /\ edge_facts p x o)).
  { apply adds_for_set. intros x st'' _. destruct (Z.eqb_spec x p) as [->|Hne]; cbn [negb].
    - eapply adds_iff; [|apply adds_refl]. unfold edge_facts. tauto.
    - apply adds_AddEdge. }
  eapply adds_iff; [|eapply adds_trans; [exact Hst|apply (IH st'); [|intros; apply Hl; by right]]].
  - intros o. split.
    + intros [(x & Hx & Hf)|(q & x & Hq & Hr)]; [exists p, x; split; [left|done]|].
      exists q, x. split; [by right|done].
    + intros (q & x & [->|Hq]%elem_of_cons & Hr & Hx & Hf); [left; eauto|right; eauto 6].
  - apply set_eq. intros r. rewrite <- HN. specialize (Hst (FNode r)). cbn in Hst. rewrite Hst.
    split; [|by left]. intros [Hr|(x & Hx & _ & Hf)]; [done|]. rewrite HN.
    destruct Hf as [[= ->]|[[= ->]|[?|?]]]; [apply Hl; left|done|done|done].
Qed.

Lemma adds_preferences st :
  adds st.2 (add_preferences code st).2 (fun o => exists d s, moves d s /\ pref_facts d s o).
Proof.
  eapply adds_iff; [|apply (adds_for_range _ _ (fun _ i o =>
    exists d s succ, i = Iop Omove [s] d succ /\ pref_facts d s o))].
  { intros o. unfold moves, code. naive_solver. }
  intros n i st' Hn.
  destruct i as [|op args d succ| | | | | | | |]; try (eapply adds_iff; [|apply adds_refl]; naive_solver).
  destruct op; try (eapply adds_iff; [|apply adds_refl]; naive_solver).
  destruct args as [|a [|]]; try (eapply adds_iff; [|apply adds_refl]; naive_solver).
  eapply adds_iff; [|apply adds_AddPreference]. intros o. naive_solver.
Qed.

Lemma set_at_Some (m : gmap Z RegSet) n r : r ∈ set_at m n -> exists s, m !! n = Some s /\ r ∈ s.
Proof. unfold set_at. destruct (m !! n); cbn; [eauto|set_solver]. Qed.

Lemma def_interferes_reg a b : def_interferes a b -> graph_reg a /\ graph_reg b.
Proof using live_regs.
  intros (n & i & _ & Ha & Hb & _). split; [|by eapply live_regs].
  apply set_at_Some in Ha as (s & Hs & Ha). right. eauto.
Qed.

Lemma moves_reg d s :
  Def live = instr_def <$> code -> Use live = instr_use <$> code -> moves d s -> graph_reg d /\ graph_reg s.
Proof using Type.
  intros Hd Hu (n & succ & Hn). split; right; exists n; rewrite Hd; unfold code; rewrite lookup_fmap, Hn;
    (eexists; split; [reflexivity|]); cbn.
  - left. by apply elem_of_singleton.
  - right. unfold set_at. rewrite Hu. unfold code. rewrite lookup_fmap, Hn. cbn. apply elem_of_union. left.
    by apply elem_of_singleton.
Qed.

Hypothesis def_code : Def live = instr_def <$> code.
Hypothesis use_code : Use live = instr_use <$> code.

Definition first_graph (t : nat) : nat * InterferenceGraph :=
  add_nodes live (t, foldl AddNode NewInterferenceGraph (Rtl.fn_Params fn)).

Lemma sees_first_graph t o : sees (first_graph t).2 o <-> exists r, graph_reg r /\ o = FNode r.
Proof using Type.
  unfold first_graph. rewrite (adds_nodes _ o). cbn [snd]. rewrite (adds_params _ _ o). unfold graph_reg. split.
  - intros [[Hr|(r & Hr & ->)]|(n & s & Hn & r & Hr & ->)]; [|eauto|eauto 8].
    destruct o; cbn in Hr; unfold set_at in Hr; rewrite ?lookup_empty in Hr; by apply not_elem_of_empty in Hr.
  - intros (r & [Hr|(n & s & Hn & Hr)] & ->); [left; right; eauto|right; eauto 8].
Qed.

(** Everything the finished graph says. *)
Lemma BuildInterferenceGraph_sees t o :
  sees (BuildInterferenceGraph t fn live).2 o <->
    (exists r, graph_reg r /\ o = FNode r) \/
    (exists a b, interferes a b /\ edge_facts a b o) \/
    (exists r, live_across r /\ o = FAcross r) \/
    (exists d s, moves d s /\ pref_facts d s o).
Proof using live_regs.
  set (st2 := add_edges code live (first_graph t)).
  assert (N2 : forall r, r ∈ Nodes st2.2 <-> graph_reg r).
  { intros r. change (r ∈ Nodes st2.2) with (sees st2.2 (FNode r)).
    unfold st2. rewrite (adds_edges _ _), sees_first_graph. split; [|by eauto].
    intros [(x & Hx & [= ->])|[(a & b & Hab & _ & Hf)|(x & _ & ?)]]; [done| |done].
    apply def_interferes_reg in Hab as [Ha Hb]. by destruct Hf as [[= ->]|[[= ->]|[?|?]]]. }
  change (BuildInterferenceGraph t fn live) with
    (add_preferences code (add_param_edges (Rtl.fn_Params fn) live st2)).
  rewrite (adds_preferences _ _).
  rewrite (adds_param_edges (Rtl.fn_Params fn) (Nodes st2.2) st2 eq_refl
    (fun p Hp => proj2 (N2 p) (or_introl Hp)) o).
  unfold st2. rewrite (adds_edges _ _), sees_first_graph. fold st2. unfold interferes, param_interferes. split.
  - intros [[[H0|[(a & b & Hab & Hf)|Hl]]|(p & x & Hp & Hu & Hx & Hf)]|Hm]; [by left| | | |by do 3 right].
    + right. left. eauto 6.
    + by do 2 right; left.
    + right. left. exists p, x. rewrite <- N2. eauto 6.
  - intros [H0|[(a & b & [Hab|(Hp & Hu & Hg)] & Hf)|[Hl|Hm]]].
    + by do 3 left.
    + left. left. right. left. eauto.
    + left. right. exists a, b. rewrite N2. auto.
    + by left; left; right; right.
    + by right.
Qed.

Ltac no_fact :=
  match goal with
  | H : edge_facts _ _ _ |- _ => by destruct H as (? & [?|[?|[?|?]]])
  | H : pref_facts _ _ _ |- _ => by destruct H as (? & [?|[?|[?|?]]])
  | _ => done
  end.

Lemma Build_nodes t r : r ∈ Nodes (BuildInterferenceGraph t fn live).2 <-> graph_reg r.
Proof using live_regs def_code use_code.
  change (r ∈ Nodes ?g) with (sees g (FNode r)). rewrite BuildInterferenceGraph_sees. split; [|by eauto].
  intros [(x & Hx & [= ->])|[(a & b & Hab & _ & Hf)|[(x & _ & ?)|(d & s & Hm & _ & Hf)]]]; [done| |done|].
  - assert (Hg : graph_reg a /\ graph_reg b).
    { destruct Hab as [Hab|(Hp & _ & Hg)]; [by apply def_interferes_reg|]. split; [by left|done]. }
    destruct Hg. by destruct Hf as [[= ->]|[[= ->]|[?|?]]].
  - destruct (moves_reg _ _ def_code use_code Hm). by destruct Hf as [[= ->]|[[= ->]|[?|?]]].
Qed.

Lemma Build_edges t a b :
  b ∈ set_at (Edges (BuildInterferenceGraph t fn live).2) a <-> a <> b /\ (interferes a b \/ interferes b a).
Proof using live_regs.
  change (b ∈ set_at (Edges ?g) a) with (sees g (FEdge a b)). rewrite BuildInterferenceGraph_sees. split.
  - intros [(x & Hx & ?)|[(x & y & Hi & Hne & Hf)|[(x & Hx & ?)|(d & s & Hm & Hf)]]]; try no_fact.
    destruct Hf as [?|[?|[[= -> ->]|[= -> ->]]]]; [done|done|auto|auto].
  - intros [Hne [Hi|Hi]]; right; left; [exists a, b|exists b, a]; (split; [done|split; auto]).
Qed.

Lemma Build_preferences t a b :
  b ∈ set_at (Preferences (BuildInterferenceGraph t fn live).2) a <-> a <> b /\ (moves a b \/ moves b a).
Proof using live_regs.
  change (b ∈ set_at (Preferences ?g) a) with (sees g (FPref a b)). rewrite BuildInterferenceGraph_sees. split.
  - intros [(x & Hx & ?)|[(x & y & Hi & Hf)|[(x & Hx & ?)|(d & s & Hm & Hne & Hf)]]]; try no_fact.
    destruct Hf as [?|[?|[[= -> ->]|[= -> ->]]]]; [done|done|auto|auto].
  - intros [Hne [Hi|Hi]]; do 3 right; [exists a, b|exists b, a]; (split; [done|split; auto]).
Qed.

Lemma Build_across t r :
  r ∈ LiveAcrossCalls (BuildInterferenceGraph t fn live).2 <-> live_across r.
Proof using live_regs.
  change (r ∈ LiveAcrossCalls ?g) with (sees g (FAcross r)). rewrite BuildInterferenceGraph_sees. split.
  - intros [(x & Hx & ?)|[(x & y & Hi & Hf)|[(x & Hx & [= ->])|(d & s & Hm & Hf)]]]; no_fact.
  - intros Hr. right. right. left. eauto.
Qed.
End Spec.
