(* ===== verification/Conventions.v ===== *)
(** The calling conventions the register allocator follows
    ([src/pkg/regalloc/conventions.go]). *)

From S2P Require Import Prelude Target.

Definition CallerSavedRegs : list MReg :=
  X <$> [0; 1; 2; 3; 4; 5; 6; 7; 8; 9; 10; 11; 12; 13; 14; 15; 16; 17; 18].

Definition CalleeSavedRegs : list MReg := X <$> [19; 20; 21; 22; 23; 24; 25; 26; 27; 28].

Definition CallerSavedFloatRegs : list MReg :=
  D <$> [0; 1; 2; 3; 4; 5; 6; 7; 16; 17; 18; 19; 20; 21; 22; 23; 24; 25; 26; 27; 28; 29; 30; 31].

Definition CalleeSavedFloatRegs : list MReg := D <$> [8; 9; 10; 11; 12; 13; 14; 15].

Definition IntArgRegs : list MReg := X <$> [0; 1; 2; 3; 4; 5; 6; 7].
Definition FloatArgRegs : list MReg := D <$> [0; 1; 2; 3; 4; 5; 6; 7].

Definition IntReturnReg : MReg := X0.
Definition FloatReturnReg : MReg := D0.

Definition AllocatableIntRegs : list MReg :=
  X <$> [0; 1; 2; 3; 4; 5; 6; 7; 8; 9; 10; 11; 12; 13; 14; 15; 18; 19; 20; 21; 22; 23; 24; 25; 26; 27; 28].

Definition AllocatableFloatRegs : list MReg :=
  D <$> [0; 1; 2; 3; 4; 5; 6; 7; 8; 9; 10; 11; 12; 13; 14; 15; 16; 17; 18; 19; 20; 21; 22; 23; 24; 25; 26;
         27; 28; 29; 30; 31].

Definition NumAllocatableIntRegs : nat := 27.
Definition NumAllocatableFloatRegs : nat := 32.
Definition FirstCalleeSavedColor : nat := 17.
Definition NumCalleeSavedRegs : nat := 10.

(** [ArgLocation] *)
Definition ArgLocation (i : nat) (isFloat : bool) : Loc :=
  if isFloat then
    match FloatArgRegs !! i with
    | Some r => Target.R r
    | None => Target.S SlotIncoming (i64 (i64 (Z.of_nat i - Z.of_nat (length FloatArgRegs)) * 8)) Tfloat
    end
  else
    match IntArgRegs !! i with
    | Some r => Target.R r
    | None => Target.S SlotIncoming (i64 (i64 (Z.of_nat i - Z.of_nat (length IntArgRegs)) * 8)) Tlong
    end.

(** [ReturnLocation] *)
Definition ReturnLocation (isFloat : bool) : Loc :=
  if isFloat then Target.R FloatReturnReg else Target.R IntReturnReg.

(** [IsCallerSaved] *)
Definition IsCallerSaved (r : MReg) : bool :=
  existsb (fun cr => r =? cr) CallerSavedRegs || existsb (fun cr => r =? cr) CallerSavedFloatRegs.

(** [IsCalleeSaved] *)
Definition IsCalleeSaved (r : MReg) : bool :=
  existsb (fun cr => r =? cr) CalleeSavedRegs || existsb (fun cr => r =? cr) CalleeSavedFloatRegs.

(** ** Facts *)

(** Colours index the allocatable registers; the constants agree with the
    lists. *)
Lemma AllocatableIntRegs_spec :
  NoDup AllocatableIntRegs /\ length AllocatableIntRegs = NumAllocatableIntRegs /\
  drop FirstCalleeSavedColor AllocatableIntRegs = CalleeSavedRegs /\
  (forall i, (i < 8)%nat -> AllocatableIntRegs !! i = Some (X (Z.of_nat i))).
Proof.
  split; [apply (bool_decide_eq_true_1 _); by vm_compute|]. split; [done|]. split; [done|].
  intros i Hi. do 8 (destruct i as [|i]; [done|]). lia.
Qed.

(** No register is both caller-saved and callee-saved. *)
Lemma saved_disjoint r : IsCalleeSaved r = true -> IsCallerSaved r = false.
Proof.
  unfold IsCalleeSaved, IsCallerSaved. rewrite orb_true_iff, !existsb_exists.
  intros [(c & Hc & ->%Z.eqb_eq)|(c & Hc & ->%Z.eqb_eq)]; cbn in Hc;
    repeat (destruct Hc as [<-|Hc]; [reflexivity|]); done.
Qed.
