(* ===== verification/RtlSem.v ===== *)
(** Execution of RTL functions over the abstract target of [Semantics]. *)

From S2P Require Import Prelude Target Rtl Conventions.
From S2P Require Import Ltl ConvertCall Semantics.
From Stdlib Require Import FunctionalExtensionality.

(** How many arguments of a call are passed in registers depends on the callee
    only. *)
Definition callee_regs {V} (darwin : bool) (f : callee V) : nat :=
  match f with
  | ToAddress _ => length intArgRegs
  | ToSymbol s => maxRegArgs darwin (Ltl.FunSymbol s)
  end.

(** Locations that keep their contents across a call: callee-saved registers
    and the slots of the caller's own frame. *)
Definition call_preserved (l : Loc) : bool :=
  match l with
  | Target.R r => Conventions.IsCalleeSaved r
  | Target.S SlotLocal _ _ | Target.S SlotIncoming _ _ => true
  | _ => false
  end.

(** Calls between pseudo-registers: a callee is a function from argument values
    to a value. It finds the arguments where [call_locs] says, leaves its
    result in X0, and preserves what it must. *)
Class PseudoCalls (V M : Type) `{TargetSemantics V M} (darwin : bool) := {
  call_value : Sig -> callee V -> list V -> M -> option (V * M);
  eval_call_value : forall sig f args (ls : Loc -> V) m,
    (length (sig_Args sig) <= length args)%nat ->
    ls <$> call_locs (callee_regs darwin f) (length args) = args ->
    match call_value sig f args m, eval_call sig f ls m with
    | Some (v, m1), Some (ls', m2) =>
        m1 = m2 /\ ls' (Target.R X0) = v /\ forall l, call_preserved l = true -> ls' l = ls l
    | None, None => True
    | _, _ => False
    end
}.

(** What a function hands over: the value of a [return] without an argument is
    anything. *)
Inductive rtl_result (V M : Type) :=
| RReturned (v : option V) (m : M)
| RTailCalled (sig : Sig) (f : callee V) (args : list V) (m : M).
Arguments RReturned {V M} v m.
Arguments RTailCalled {V M} sig f args m.

Definition match_results {V M} (r : rtl_result V M) (r' : result V M) : Prop :=
  match r, r' with
  | RReturned (Some v) m, Returned v' m' => v = v' /\ m = m'
  | RReturned None m, Returned _ m' => m = m'
  | RTailCalled sig f args m, TailCalled sig' f' args' m' => sig = sig' /\ f = f' /\ args = args' /\ m = m'
  | _, _ => False
  end.

Section Execution.
  Context {V M : Type} `{PC : PseudoCalls V M}.
  Implicit Types (rs : Z -> V) (m : M).

Definition rtl_callee rs (f : Rtl.FunRef) : callee V :=
  match f with
  | Rtl.FunReg r => ToAddress (rs r)
  | Rtl.FunSymbol s => ToSymbol s
  end.

(** The state: the node to execute, the registers and the memory. *)
Definition rtl_state : Type := Z * (Z -> V) * M.

Definition set_dest (dest : Z) (v : V) rs : Z -> V := if decide (dest = 0) then rs else <[dest := v]> rs.

Definition rtl_next {A} (o : option A) (f : A -> outcome rtl_state (rtl_result V M))
    : outcome rtl_state (rtl_result V M) :=
  match o with Some x => f x | None => Stuck end.

Definition rtl_step (code : gmap Z Rtl.Instruction) (s : rtl_state) : outcome rtl_state (rtl_result V M) :=
  let '(n, rs, m) := s in
  match code !! n with
  | None => Stuck
  | Some (Inop succ) => Next (succ, rs, m)
  | Some (Iop op args dest succ) =>
      rtl_next (eval_op op (rs <$> args) m) (fun v => Next (succ, <[dest := v]> rs, m))
  | Some (Iload chunk addr args dest succ) =>
      rtl_next (eval_load chunk addr (rs <$> args) m) (fun v => Next (succ, <[dest := v]> rs, m))
  | Some (Istore chunk addr args src succ) =>
      rtl_next (eval_store chunk addr (rs <$> args) (rs src) m) (fun m' => Next (succ, rs, m'))
  | Some (Icall sig fn args dest succ) =>
      rtl_next (call_value sig (rtl_callee rs fn) (rs <$> args) m)
        (fun vm => Next (succ, set_dest dest vm.1 rs, vm.2))
  | Some (Itailcall sig fn args) => Halt (RTailCalled sig (rtl_callee rs fn) (rs <$> args) m)
  | Some (Ibuiltin b args dest succ) =>
      rtl_next (eval_builtin b (rs <$> args) m)
        (fun vm => Next (succ, match dest with Some d => <[d := vm.1]> rs | None => rs end, vm.2))
  | Some (Icond c args ifSo ifNot) =>
      rtl_next (eval_cond c (rs <$> args) m) (fun b => Next (if b : bool then ifSo else ifNot, rs, m))
  | Some (Ijumptable arg targets) =>
      rtl_next (eval_index (rs arg) ≫= fun k => targets !! k) (fun n' => Next (n', rs, m))
  | Some (Ireturn arg) => Halt (RReturned (rs <$> arg) m)
  end.

Definition rtl_init (fn : Rtl.Function) rs m : rtl_state := (Rtl.fn_Entrypoint fn, rs, m).
End Execution.
