(* ===== verification/RegAlloc.v ===== *)
(** From RTL to LTL ([src/pkg/regalloc/transform.go]): the result of register
    allocation applied to every instruction, the moves around calls and
    returns, and the moves that take the parameters to their locations. *)

From S2P Require Import Prelude Target Rtl Liveness Conventions.
From S2P Require Import Ltl.

(** [AllocationResult] of [src/pkg/regalloc/irc.go]. *)
Record AllocationResult := mkAllocationResult {
  RegToLoc : gmap Z Loc;
  SpilledRegs : RegSet;
  StackSize : Z
}.

(** A register without a location reads as Go's [nil]. *)
Definition loc_of (alloc : AllocationResult) (r : Z) : Loc := default NilLoc (RegToLoc alloc !! r).

(** [transformRegs] *)
Definition transformRegs (regs : list Z) (alloc : AllocationResult) : list Loc := loc_of alloc <$> regs.

Definition transform_fn (fn : Rtl.FunRef) (alloc : AllocationResult) : Ltl.FunRef :=
  match fn with
  | Rtl.FunSymbol name => Ltl.FunSymbol name
  | Rtl.FunReg r => Ltl.FunReg (loc_of alloc r)
  end.

(** The move that takes the result of a call out of X0. *)
Definition result_move (dest : Z) (alloc : AllocationResult) : list Ltl.Instruction :=
  if negb (dest =? 0) then
    let destLoc := loc_of alloc dest in
    let retLoc := ReturnLocation false in
    if decide (destLoc = retLoc) then [] else [Ltl.Lop Omove [retLoc] destLoc]
  else [].

(** [transformInstruction] *)
Definition transformInstruction (instr : Rtl.Instruction) (alloc : AllocationResult) : BBlock :=
  mkBBlock
    match instr with
    | Inop succ => [Ltl.Lbranch succ]
    | Iop op args dest succ => [Ltl.Lop op (transformRegs args alloc) (loc_of alloc dest); Ltl.Lbranch succ]
    | Iload chunk addr args dest succ =>
        [Ltl.Lload chunk addr (transformRegs args alloc) (loc_of alloc dest); Ltl.Lbranch succ]
    | Istore chunk addr args src succ =>
        [Ltl.Lstore chunk addr (transformRegs args alloc) (loc_of alloc src); Ltl.Lbranch succ]
    | Icall sig fn args dest succ =>
        [Ltl.Lcall sig (transform_fn fn alloc) (transformRegs args alloc)] ++
        result_move dest alloc ++ [Ltl.Lbranch succ]
    | Itailcall sig fn args => [Ltl.Ltailcall sig (transform_fn fn alloc) (transformRegs args alloc)]
    | Ibuiltin b args dest succ =>
        [Ltl.Lbuiltin b (transformRegs args alloc) (loc_of alloc <$> dest); Ltl.Lbranch succ]
    | Icond c args ifSo ifNot => [Ltl.Lcond c (transformRegs args alloc) ifSo ifNot]
    | Ijumptable arg targets => [Ltl.Ljumptable (loc_of alloc arg) targets]
    | Ireturn arg =>
        match arg with
        | Some r =>
            let srcLoc := loc_of alloc r in
            let destLoc := ReturnLocation false in
            if decide (srcLoc = destLoc) then [] else [Ltl.Lop Omove [srcLoc] destLoc]
        | None => []
        end ++ [Ltl.Lreturn]
    end.

(** [resolveParallelMoves]. First pass: sources that are also destinations are
    saved in X8, X9, ...; it stops when the ninth would be needed. *)
Fixpoint save_sources (dsts : list Loc) (moves : list (Loc * Loc)) (tmpIndex : Z) (savedLocs : list (Loc * Loc))
    : list (Loc * Loc) * list Ltl.Instruction :=
  match moves with
  | [] => (savedLocs, [])
  | (src, dst) :: moves =>
      if bool_decide (src ∈ dsts) && negb (bool_decide (src ∈ savedLocs.*1)) then
        let tmp := Target.R (X8 + tmpIndex) in
        let tmpIndex := tmpIndex + 1 in
        if 8 <? tmpIndex then (savedLocs, [])
        else
          let '(saved, code) := save_sources dsts moves tmpIndex (savedLocs ++ [(src, tmp)]) in
          (saved, Ltl.Lop Omove [src] tmp :: code)
      else save_sources dsts moves tmpIndex savedLocs
  end.

(** [if savedSrc, ok := savedLocs[m.src]; ok] *)
Fixpoint saved_source (savedLocs : list (Loc * Loc)) (src : Loc) : Loc :=
  match savedLocs with
  | [] => src
  | (l, tmp) :: savedLocs => if decide (l = src) then tmp else saved_source savedLocs src
  end.

Definition resolveParallelMoves (srcLocs dstLocs : list Loc) : list Ltl.Instruction :=
  let moves := filter (fun m => m.1 <> m.2) (zip srcLocs dstLocs) in
  let '(saved, saves) := save_sources moves.*2 moves 0 [] in
  saves ++ ((fun m => Ltl.Lop Omove [saved_source saved m.1] m.2) <$> moves).

(** [getSortedNodes] *)
Definition getSortedNodes `{RangeOrder} (t : nat) (fn : Rtl.Function) : list Z :=
  merge_sort Z.le (range t (Rtl.fn_Code fn)).*1.

(** The moves at the entry. *)
Definition param_moves (params : list Z) (alloc : AllocationResult) : list Ltl.Instruction :=
  resolveParallelMoves (imap (fun i _ => ArgLocation i false) params) (loc_of alloc <$> params).

(** The blocks, one per node, the parameter moves in front of the entry's. *)
Definition transform_blocks `{RangeOrder} (t : nat) (fn : Rtl.Function) (alloc : AllocationResult)
    : gmap Z BBlock :=
  let code := foldl (fun code node =>
      match Rtl.fn_Code fn !! node with
      | Some instr => <[node := transformInstruction instr alloc]> code
      | None => code
      end) ∅ (getSortedNodes t fn) in
  match code !! Rtl.fn_Entrypoint fn with
  | Some b => <[Rtl.fn_Entrypoint fn := mkBBlock (param_moves (Rtl.fn_Params fn) alloc ++ Body b)]> code
  | None => code
  end.

(** [TransformFunction], given the allocation. *)
Definition transform_with `{RangeOrder} (t : nat) (fn : Rtl.Function) (alloc : AllocationResult) : Ltl.Function :=
  Ltl.mkFunction (Rtl.fn_Name fn) (Rtl.fn_Sig fn) (imap (fun i _ => ArgLocation i false) (Rtl.fn_Params fn))
    (i64 (Rtl.fn_Stacksize fn + StackSize alloc)) (transform_blocks t fn alloc) (Rtl.fn_Entrypoint fn).

(** ** The blocks as a function of the instructions *)

Lemma getSortedNodes_elem `{RangeOrder} t fn n : n ∈ getSortedNodes t fn <-> n ∈ dom (Rtl.fn_Code fn).
Proof.
  unfold getSortedNodes. rewrite (merge_sort_Permutation Z.le _), (range_perm t (Rtl.fn_Code fn)).
  rewrite list_elem_of_fmap, elem_of_dom. split.
  - intros ([n' i] & -> & Hi%elem_of_map_to_list). by exists i.
  - intros [i Hi]. exists (n, i). split; [done|]. by apply elem_of_map_to_list.
Qed.

Lemma transform_blocks_lookup `{RangeOrder} t fn alloc n :
  transform_blocks t fn alloc !! n =
    (fun i => let b := transformInstruction i alloc in
       if decide (n = Rtl.fn_Entrypoint fn) then mkBBlock (param_moves (Rtl.fn_Params fn) alloc ++ Body b) else b)
    <$> Rtl.fn_Code fn !! n.
Proof.
  unfold transform_blocks. set (code := foldl _ _ _).
  assert (Hcode : forall k, code !! k = (fun i => transformInstruction i alloc) <$> Rtl.fn_Code fn !! k).
  { assert (Hgen : forall l (acc : gmap Z BBlock) k, foldl (fun code node =>
        match Rtl.fn_Code fn !! node with
        | Some instr => <[node := transformInstruction instr alloc]> code
        | None => code
        end) acc l !! k =
        if decide (k ∈ l) then match Rtl.fn_Code fn !! k with Some i => Some (transformInstruction i alloc) | None => acc !! k end
        else acc !! k).
    { induction l as [|x l IH]; intros acc k; cbn [foldl]; [by case_decide as Hk; [apply not_elem_of_nil in Hk|]|].
      rewrite IH. destruct (decide (x = k)) as [<-|Hx].
      - rewrite (decide_True (P := x ∈ x :: l)) by left. destruct (Rtl.fn_Code fn !! x) eqn:E; [|by case_decide].
        case_decide; [done|]. by rewrite lookup_insert_eq.
      - assert (Hl : k ∈ x :: l <-> k ∈ l) by (rewrite elem_of_cons; intuition congruence).
        destruct (decide (k ∈ l)); [rewrite decide_True by (by apply Hl)|rewrite decide_False by (by rewrite Hl)];
          destruct (Rtl.fn_Code fn !! x); rewrite ?lookup_insert_ne; done. }
    intros k. unfold code. rewrite Hgen. destruct (Rtl.fn_Code fn !! k) as [i|] eqn:E; cbn.
    - rewrite decide_True; [done|]. apply getSortedNodes_elem. by apply elem_of_dom_2 in E.
    - by case_decide. }
  clearbody code. destruct (decide (n = Rtl.fn_Entrypoint fn)) as [->|Hn].
  - rewrite !Hcode. destruct (Rtl.fn_Code fn !! Rtl.fn_Entrypoint fn) as [i|] eqn:E; cbn.
    + by rewrite lookup_insert_eq.
    + by rewrite Hcode, E.
  - destruct (code !! Rtl.fn_Entrypoint fn); rewrite ?lookup_insert_ne, Hcode by done; done.
Qed.
