(* ===== verification/RegAllocProof.v ===== *)
(** The moves at the entry of a function: [resolveParallelMoves] assigns all
    destinations at once.
    Register allocation preserves the semantics, for every allocation that
    keeps live registers apart: the contract [valid_alloc] between the
    allocator and the transformation. *)

From S2P Require Import Prelude Target Ltl RegAlloc Rtl Liveness Interference Conventions RtlSem.
From S2P Require Import ConvertCall Semantics.

(** One move after the other; a move is a source and a destination. *)
Definition run_moves {V} (ms : list (Loc * Loc)) (ls : Loc -> V) : Loc -> V :=
  foldl (fun ls m => <[m.2 := ls m.1]> ls) ls ms.

Definition move_code (m : Loc * Loc) : Ltl.Instruction := Ltl.Lop Omove [m.1] m.2.

Definition temp_loc (k : nat) : Loc := Target.R (X8 + Z.of_nat k).

Lemma run_moves_app {V} ms1 ms2 (ls : Loc -> V) : run_moves (ms1 ++ ms2) ls = run_moves ms2 (run_moves ms1 ls).
Proof. apply foldl_app. Qed.

Lemma run_moves_other {V} ms (ls : Loc -> V) l : l ∉ ms.*2 -> run_moves ms ls l = ls l.
Proof.
  revert ls. induction ms as [|[s d] ms IH]; intros ls Hl; [done|]. cbn [fmap list_fmap] in Hl.
  apply not_elem_of_cons in Hl as [Hd Hl].
  change (run_moves ((s, d) :: ms) ls) with (run_moves ms (<[d := ls s]> ls)).
  rewrite IH by done. by apply fn_lookup_insert_ne.
Qed.

(** Distinct destinations that are not sources: the order does not matter. *)
Lemma run_moves_at {V} ms (ls : Loc -> V) s d :
  NoDup ms.*2 -> (forall s', s' ∈ ms.*1 -> s' ∉ ms.*2) -> (s, d) ∈ ms -> run_moves ms ls d = ls s.
Proof.
  revert ls. induction ms as [|[s0 d0] ms IH]; intros ls Hnd Hs Hin; [by apply not_elem_of_nil in Hin|].
  change (run_moves ((s0, d0) :: ms) ls) with (run_moves ms (<[d0 := ls s0]> ls)).
  apply NoDup_cons in Hnd as [Hd0 Hnd]. apply elem_of_cons in Hin as [[= -> ->]|Hin].
  - rewrite run_moves_other by done. apply fn_lookup_insert.
  - rewrite IH; [|done| |done].
    + apply fn_lookup_insert_ne. intros <-. apply (Hs d0); [|left].
      right. apply list_elem_of_fmap. by exists (d0, d).
    + intros s' Hs' Hd'. apply (Hs s'); by right.
Qed.

Section Resolve.
  Context (dsts : list Loc).

(** The sources that are saved, in order. *)
Fixpoint clobbered (srcs seen : list Loc) : list Loc :=
  match srcs with
  | [] => []
  | s :: srcs =>
      if bool_decide (s ∈ dsts) && negb (bool_decide (s ∈ seen)) then s :: clobbered srcs (seen ++ [s])
      else clobbered srcs seen
  end.

Lemma clobbered_elem srcs seen s :
  s ∈ clobbered srcs seen <-> s ∈ srcs /\ s ∈ dsts /\ s ∉ seen.
Proof.
  revert seen. induction srcs as [|x srcs IH]; intros seen; cbn [clobbered]; [set_solver|].
  destruct (bool_decide (x ∈ dsts) && negb (bool_decide (x ∈ seen))) eqn:E.
  - apply andb_prop in E as [E1%bool_decide_eq_true E2%negb_true_iff%bool_decide_eq_false].
    rewrite !elem_of_cons, IH. destruct (decide (s = x)) as [->|Hne]; set_solver.
  - rewrite IH, elem_of_cons. apply andb_false_iff in E as [E|E].
    + apply bool_decide_eq_false in E. set_solver.
    + apply negb_false_iff, bool_decide_eq_true in E. set_solver.
Qed.

Lemma clobbered_NoDup srcs seen : NoDup (clobbered srcs seen).
Proof.
  revert seen. induction srcs as [|x srcs IH]; intros seen; cbn [clobbered]; [constructor|].
  case_match; [|done]. apply NoDup_cons. split; [|done]. rewrite clobbered_elem. set_solver.
Qed.

(** The saves: the [k]-th clobbered source goes to the [k]-th temporary. *)
Lemma save_sources_spec moves k saved :
  (k + length (clobbered moves.*1 saved.*1) <= 8)%nat ->
  save_sources dsts moves (Z.of_nat k) saved =
    (saved ++ imap (fun j s => (s, temp_loc (k + j))) (clobbered moves.*1 saved.*1),
     move_code <$> imap (fun j s => (s, temp_loc (k + j))) (clobbered moves.*1 saved.*1)).
Proof.
  revert k saved. induction moves as [|[s d] moves IH]; intros k saved Hk.
  { cbn. by rewrite app_nil_r. }
  cbn [fmap list_fmap fst clobbered save_sources] in *.
  destruct (bool_decide (s ∈ dsts) && negb (bool_decide (s ∈ saved.*1))) eqn:E; [|by apply IH].
  cbn [length] in Hk. destruct (Z.ltb_spec 8 (Z.of_nat k + 1)); [lia|].
  replace (Z.of_nat k + 1) with (Z.of_nat (Datatypes.S k)) by lia. rewrite IH; rewrite !fmap_app; cbn [fmap list_fmap fst]; [|lia].
  rewrite imap_cons, Nat.add_0_r. unfold compose. cbn [fmap list_fmap]. rewrite <- app_assoc. cbn [app].
  assert (E' : forall l : list Loc, imap (fun j s => (s, temp_loc (Datatypes.S k + j))) l =
      imap (fun j s => (s, temp_loc (k + Datatypes.S j))) l).
  { intros l. apply imap_ext. intros j x _. by rewrite Nat.add_succ_r. }
  by rewrite E'.
Qed.

Lemma saved_source_none saved s : s ∉ saved.*1 -> saved_source saved s = s.
Proof.
  induction saved as [|[l t] saved IH]; cbn; [done|]. intros [Hl Hs]%not_elem_of_cons.
  rewrite decide_False by congruence. by apply IH.
Qed.

Lemma saved_source_elem saved s t : NoDup saved.*1 -> (s, t) ∈ saved -> saved_source saved s = t.
Proof.
  induction saved as [|[l t'] saved IH]; cbn [fmap list_fmap fst saved_source]; [by intros _ ?%not_elem_of_nil|].
  intros [Hl Hnd]%NoDup_cons [[= -> ->]|Hin]%elem_of_cons; [by rewrite decide_True|].
  rewrite decide_False; [by apply IH|]. intros ->. apply Hl, list_elem_of_fmap. by exists (s, t).
Qed.
End Resolve.

(** The moves that are needed. *)
Definition needed (srcs dsts : list Loc) : list (Loc * Loc) := filter (fun m => m.1 <> m.2) (zip srcs dsts).

(** No source or destination is a temporary, destinations are distinct, and
    there are enough temporaries. *)
Record moves_ok (srcs dsts : list Loc) : Prop := {
  mo_length : length srcs = length dsts;
  mo_dsts : NoDup dsts;
  mo_temps : forall k, (k < 8)%nat -> temp_loc k ∉ srcs /\ temp_loc k ∉ dsts;
  mo_enough : (length (clobbered (needed srcs dsts).*2 (needed srcs dsts).*1 []) <= 8)%nat
}.

Lemma zip_elem_lookup {A B} (l : list A) (k : list B) x y :
  (x, y) ∈ zip l k <-> exists i, l !! i = Some x /\ k !! i = Some y.
Proof.
  rewrite list_elem_of_lookup. split; intros (i & Hi); exists i.
  - apply lookup_zip_with_Some in Hi as (a & b & [= -> ->] & Ha & Hb). done.
  - apply lookup_zip_with_Some. naive_solver.
Qed.

Lemma elem_of_needed srcs dsts s d : (s, d) ∈ needed srcs dsts <-> s <> d /\ (s, d) ∈ zip srcs dsts.
Proof. unfold needed. by rewrite list_elem_of_filter. Qed.

Lemma needed_src srcs dsts s : s ∈ (needed srcs dsts).*1 -> s ∈ srcs.
Proof.
  intros ([s' d] & -> & Hin)%list_elem_of_fmap. apply elem_of_needed in Hin as [_ Hin].
  apply zip_elem_lookup in Hin as (i & Hi & _). by apply list_elem_of_lookup_2 in Hi.
Qed.

Lemma needed_dst srcs dsts d : d ∈ (needed srcs dsts).*2 -> d ∈ dsts.
Proof.
  intros ([s d'] & -> & Hin)%list_elem_of_fmap. apply elem_of_needed in Hin as [_ Hin].
  apply zip_elem_lookup in Hin as (i & _ & Hi). by apply list_elem_of_lookup_2 in Hi.
Qed.

Lemma zip_filter_NoDup (ms : list (Loc * Loc)) (P : Loc * Loc -> Prop) `{forall m, Decision (P m)} :
  NoDup ms.*2 -> NoDup (filter P ms).*2.
Proof.
  intros Hnd. eapply sublist_NoDup; [exact Hnd|]. apply fmap_sublist, sublist_filter.
Qed.

Lemma temp_loc_inj j k : temp_loc j = temp_loc k -> j = k.
Proof. unfold temp_loc. intros [= H]. lia. Qed.

Section Correct.
  Context {V : Type} (srcs dsts : list Loc) (ok : moves_ok srcs dsts).

Let ms := needed srcs dsts.
Let saved := imap (fun j s => (s, temp_loc j)) (clobbered ms.*2 ms.*1 []).

Lemma needed_NoDup : NoDup ms.*2.
Proof using ok. apply zip_filter_NoDup. rewrite snd_zip; [apply ok|]. rewrite (mo_length _ _ ok). done. Qed.

Lemma saved_elem s t : (s, t) ∈ saved <-> exists j, clobbered ms.*2 ms.*1 [] !! j = Some s /\ t = temp_loc j.
Proof.
  unfold saved. rewrite list_elem_of_lookup. split.
  - intros (j & Hj). rewrite list_lookup_imap in Hj. exists j.
    destruct (_ !! j) eqn:E; [|done]. cbn in Hj. injection Hj as -> <-. done.
  - intros (j & Hj & ->). exists j. by rewrite list_lookup_imap, Hj.
Qed.

Lemma saved_fst : saved.*1 = clobbered ms.*2 ms.*1 [].
Proof.
  unfold saved. apply list_eq. intros j. rewrite list_lookup_fmap, list_lookup_imap. by destruct (_ !! j).
Qed.

Lemma saved_snd t : t ∈ saved.*2 -> exists k, (k < 8)%nat /\ t = temp_loc k.
Proof using ok.
  intros ([s t'] & -> & Hin)%list_elem_of_fmap. apply saved_elem in Hin as (j & Hj & ->).
  exists j. split; [|done]. apply lookup_lt_Some in Hj. pose proof (mo_enough _ _ ok). fold ms in H. lia.
Qed.

Lemma saved_snd_NoDup : NoDup saved.*2.
Proof.
  unfold saved. generalize (clobbered ms.*2 ms.*1 []). intros l.
  assert (E : (imap (fun j s => (s, temp_loc j)) l).*2 = temp_loc <$> seq 0 (length l)).
  { apply list_eq. intros j. rewrite list_lookup_fmap, list_lookup_imap, list_lookup_fmap.
    destruct (l !! j) eqn:E.
    - cbn. rewrite lookup_seq_lt; [done|]. by apply lookup_lt_Some in E.
    - cbn. by rewrite lookup_seq_ge by (by apply lookup_ge_None). }
  rewrite E. apply NoDup_fmap_2; [intros j k; apply temp_loc_inj|apply NoDup_seq].
Qed.

(** Where the second pass reads a source, and what it finds there. *)
Lemma saved_source_cases s :
  s ∈ ms.*1 -> (s ∈ ms.*2 /\ (s, saved_source saved s) ∈ saved) \/ (s ∉ ms.*2 /\ saved_source saved s = s).
Proof.
  intros Hs. destruct (decide (s ∈ ms.*2)) as [Hd|Hd].
  - left. split; [done|]. assert (Hc : s ∈ saved.*1) by (rewrite saved_fst, clobbered_elem; set_solver).
    apply list_elem_of_fmap in Hc as ([s' t] & -> & Hin). cbn.
    rewrite (saved_source_elem saved s' t); [done| |done]. rewrite saved_fst. apply clobbered_NoDup.
  - right. split; [done|]. apply saved_source_none. rewrite saved_fst, clobbered_elem. tauto.
Qed.

Lemma saves_run (ls : Loc -> V) s : s ∈ ms.*1 -> run_moves saved ls (saved_source saved s) = ls s.
Proof using ok.
  intros Hs. destruct (saved_source_cases s Hs) as [[_ Hin]|[_ ->]].
  - apply run_moves_at; [apply saved_snd_NoDup| |done].
    intros s' Hs' Ht. apply saved_snd in Ht as (k & Hk & ->).
    rewrite saved_fst, clobbered_elem in Hs'. apply (proj1 (mo_temps _ _ ok k Hk)). by apply (needed_src srcs dsts), Hs'.
  - apply run_moves_other. intros (k & Hk & ->)%saved_snd. apply (proj1 (mo_temps _ _ ok k Hk)). by apply (needed_src srcs dsts).
Qed.

(** The second pass reads no location that it writes. *)
Lemma second_pass_sources s : s ∈ ms.*1 -> saved_source saved s ∉ ms.*2.
Proof using ok.
  intros Hs. destruct (saved_source_cases s Hs) as [[_ Hin]|[Hd ->]]; [|done].
  assert (Ht : saved_source saved s ∈ saved.*2) by (apply list_elem_of_fmap; eexists; split; [|exact Hin]; done).
  apply saved_snd in Ht as (k & Hk & ->). intros Hd. apply needed_dst in Hd. by apply (mo_temps _ _ ok k Hk).
Qed.

Lemma resolve_run :
  exists code, resolveParallelMoves srcs dsts = move_code <$> code /\
    forall ls : Loc -> V,
      (forall i s d, srcs !! i = Some s -> dsts !! i = Some d -> run_moves code ls d = ls s) /\
      (forall l, l ∉ dsts -> (forall k, (k < 8)%nat -> l <> temp_loc k) -> run_moves code ls l = ls l).
Proof using ok.
  set (second := (fun m => (saved_source saved m.1, m.2)) <$> ms).
  assert (Hsnd : second.*2 = ms.*2) by (unfold second; rewrite <- list_fmap_compose; by apply list_fmap_ext).
  exists (saved ++ second). split.
  - unfold resolveParallelMoves. fold (needed srcs dsts). fold ms.
    rewrite (save_sources_spec ms.*2 ms 0 []) by apply (mo_enough _ _ ok). cbn [fmap list_fmap app].
    change (imap (fun j s => (s, temp_loc (0 + j))) (clobbered ms.*2 ms.*1 [])) with saved.
    rewrite fmap_app. f_equal. unfold second. by rewrite <- list_fmap_compose.
  - intros ls. split.
    + intros i s d Hs Hd. rewrite run_moves_app.
      assert (Hz : (s, d) ∈ zip srcs dsts) by (apply zip_elem_lookup; eauto).
      destruct (decide (s = d)) as [->|Hne].
      * rewrite !run_moves_other; [done| |].
        -- intros (k & Hk & ->)%saved_snd. apply (mo_temps _ _ ok k Hk). by apply list_elem_of_lookup_2 in Hd.
        -- rewrite Hsnd. intros ([s' d'] & E & Hin)%list_elem_of_fmap. cbn in E. subst d'.
           apply elem_of_needed in Hin as [Hne Hin]. apply zip_elem_lookup in Hin as (j & Hj & Hj').
           assert (i = j) as <- by (by eapply (NoDup_lookup dsts); [apply ok| |]). congruence.
      * assert (Hin : (s, d) ∈ ms) by (by apply elem_of_needed).
        assert (Hs1 : s ∈ ms.*1) by (apply list_elem_of_fmap; by exists (s, d)).
        rewrite (run_moves_at second _ (saved_source saved s) d); [by apply saves_run|by rewrite Hsnd; apply needed_NoDup| |].
        -- intros s' Hs'. rewrite Hsnd. unfold second in Hs'.
           apply list_elem_of_fmap in Hs' as (m & -> & Hm). apply list_elem_of_fmap in Hm as (m' & -> & Hm').
           cbn. apply second_pass_sources. apply list_elem_of_fmap. eauto.
        -- apply list_elem_of_fmap. by exists (s, d).
    + intros l Hl Ht. rewrite run_moves_app, !run_moves_other; [done| |].
      * intros (k & Hk & ->)%saved_snd. by apply (Ht k Hk).
      * rewrite Hsnd. intros Hd%needed_dst. done.
Qed.
End Correct.

(** What the transformation needs of an allocation. A register that is defined
    shares no location with one that is live afterwards, unless it is a copy
    of it; what is live across a call is in a location calls preserve; the
    parameters can be moved to their locations. *)
Record valid_alloc (fn : Rtl.Function) (live : LivenessInfo) (alloc : AllocationResult) : Prop := {
  va_def : forall n i d l, Rtl.fn_Code fn !! n = Some i -> d ∈ instr_def i ->
    l ∈ set_at (LiveOut live) n -> l <> d -> ~ (isMove i = true /\ isMoveSource i l = true) ->
    loc_of alloc l <> loc_of alloc d;
  va_call : forall n i l, Rtl.fn_Code fn !! n = Some i -> isCall i = true ->
    l ∈ set_at (LiveOut live) n -> l ∉ instr_def i -> call_preserved (loc_of alloc l) = true;
  va_params : moves_ok (imap (fun i _ => ArgLocation i false) (Rtl.fn_Params fn)) (loc_of alloc <$> Rtl.fn_Params fn)
}.

(** Control passes from a node to another. *)
Definition rtl_edge (fn : Rtl.Function) (n s : Z) : Prop :=
  exists i, Rtl.fn_Code fn !! n = Some i /\ s ∈ Successors i.

(** What it needs of the function: what is reached from the entry is in the
    graph, the entry is not the target of a jump (its block also moves the
    parameters), only parameters are live at the entry, and calls pass at least
    the declared arguments. *)
Record wf_rtl (fn : Rtl.Function) (live : LivenessInfo) : Prop := {
  wr_entry : Rtl.fn_Entrypoint fn ∈ dom (Rtl.fn_Code fn);
  wr_closed : forall n s, rtc (rtl_edge fn) (Rtl.fn_Entrypoint fn) n -> rtl_edge fn n s ->
    s ∈ dom (Rtl.fn_Code fn) /\ s <> Rtl.fn_Entrypoint fn;
  wr_live : forall r, r ∈ set_at (LiveIn live) (Rtl.fn_Entrypoint fn) -> r ∈ Rtl.fn_Params fn;
  wr_calls : forall n sig f args dest succ, Rtl.fn_Code fn !! n = Some (Icall sig f args dest succ) ->
    (length (sig_Args sig) <= length args)%nat
}.

Section Proof.
  Context {V M : Type} `{HT : TargetSemantics V M} {darwin : bool} {PC : PseudoCalls V M darwin} `{RO : RangeOrder}.
  Context (t : nat) (fn : Rtl.Function) (live : LivenessInfo) (alloc : AllocationResult).
  Context (Hlive : solution (Rtl.fn_Code fn) (set_at (LiveIn live)) (set_at (LiveOut live))).
  Context (va : valid_alloc fn live alloc) (wf : wf_rtl fn live).

Let code := Rtl.fn_Code fn.
Let lcode := transform_blocks t fn alloc.
Let lstep := ltl_step (V := V) (M := M) (maxRegArgs darwin) lcode.
Let L := loc_of alloc.

(** Registers that are live have their values in their locations. *)
Definition agree (n : Z) (rs : Z -> V) (ls : Loc -> V) : Prop :=
  forall r, r ∈ set_at (LiveIn live) n -> rs r = ls (L r).

Lemma agree_use n i rs ls r : code !! n = Some i -> agree n rs ls -> r ∈ instr_use i -> rs r = ls (L r).
Proof using All. intros Hn Ha Hr. apply Ha. apply (sol_in _ _ _ Hlive n i r Hn). by left. Qed.

Lemma agree_args n i rs ls args :
  code !! n = Some i -> agree n rs ls -> list_to_set args ⊆ instr_use i -> rs <$> args = ls <$> transformRegs args alloc.
Proof using All.
  intros Hn Ha Hsub. unfold transformRegs. rewrite <- list_fmap_compose. apply list_fmap_ext.
  intros k r Hr. cbn. apply (agree_use n i); [done|done|]. apply Hsub, elem_of_list_to_set.
  by apply list_elem_of_lookup_2 in Hr.
Qed.

Lemma agree_out n i rs ls r :
  code !! n = Some i -> agree n rs ls -> r ∈ set_at (LiveOut live) n -> r ∉ instr_def i -> rs r = ls (L r).
Proof using All. intros Hn Ha Hr Hd. apply Ha. apply (sol_in _ _ _ Hlive n i r Hn). by right. Qed.

Lemma live_succ n i s r :
  code !! n = Some i -> s ∈ Successors i -> r ∈ set_at (LiveIn live) s -> r ∈ set_at (LiveOut live) n.
Proof using All. intros Hn Hs Hr. apply (sol_out _ _ _ Hlive n i r Hn). eauto. Qed.

(** An instruction that defines no register. *)
Lemma agree_nodef n i s rs ls :
  code !! n = Some i -> s ∈ Successors i -> instr_def i = ∅ -> agree n rs ls -> agree s rs ls.
Proof using All.
  intros Hn Hs Hd Ha r Hr. apply (agree_out n i); [done|done|by eapply live_succ|]. rewrite Hd. set_solver.
Qed.

(** An instruction that defines one. *)
Lemma agree_def n i s rs ls d v :
  code !! n = Some i -> s ∈ Successors i -> instr_def i = {[d]} -> agree n rs ls ->
  (forall l, isMove i = true -> isMoveSource i l = true -> v = rs l) ->
  agree s (<[d := v]> rs) (<[L d := v]> ls).
Proof using All.
  intros Hn Hs Hd Ha Hmv r Hr. destruct (decide (r = d)) as [->|Hne]; [by rewrite !fn_lookup_insert|].
  assert (Ho : r ∈ set_at (LiveOut live) n) by by eapply live_succ.
  assert (Hr' : rs r = ls (L r)) by (apply (agree_out n i); [done..|rewrite Hd; set_solver]).
  rewrite fn_lookup_insert_ne by done.
  destruct (decide (isMove i = true /\ isMoveSource i r = true)) as [[Hm Hsrc]|Hm].
  - rewrite <- (Hmv r Hm Hsrc) in Hr'. destruct (decide (L d = L r)) as [E|E].
    + rewrite E, fn_lookup_insert. symmetry. by apply Hmv.
    + rewrite fn_lookup_insert_ne by done. rewrite <- Hr'. symmetry. by apply Hmv.
  - rewrite fn_lookup_insert_ne; [done|]. apply not_eq_sym. apply (va_def _ _ _ va n i); [done| |done..].
    rewrite Hd. by apply elem_of_singleton.
Qed.

(** ** Calls *)

Lemma transform_callee (rs : Z -> V) (ls : Loc -> V) f :
  (forall r, r ∈ fn_use f -> rs r = ls (L r)) -> rtl_callee rs f = ltl_callee ls (transform_fn f alloc).
Proof using All. destruct f; cbn; [|done]. intros H. rewrite H; [done|]. by apply elem_of_singleton. Qed.

Lemma callee_regs_transform (ls : Loc -> V) f :
  callee_regs darwin (ltl_callee ls (transform_fn f alloc)) = maxRegArgs darwin (transform_fn f alloc).
Proof using All. by destruct f. Qed.

Lemma place_args_values regs args (ls : Loc -> V) :
  place_args regs args ls <$> call_locs regs (length args) = ls <$> args.
Proof using All.
  apply list_eq. intros i. rewrite !list_lookup_fmap. destruct (args !! i) as [a|] eqn:Ha.
  - rewrite (proj2 (call_locs_lookup regs (length args) i (call_loc regs i))).
    + cbn. by rewrite (place_args_at regs args ls i a Ha).
    + split; [by apply lookup_lt_Some in Ha|done].
  - rewrite lookup_ge_None_2; [done|]. unfold call_locs. rewrite length_fmap, length_seq. by apply lookup_ge_None.
Qed.

Lemma preserved_not_arg regs n l : (regs <= 8)%nat -> call_preserved l = true -> l ∉ call_locs regs n.
Proof using All.
  intros Hr Hl (i & [Hi ->]%call_locs_lookup)%list_elem_of_lookup_1. unfold call_loc in Hl.
  destruct (Nat.ltb_spec i regs); [|done]. cbn in Hl. assert (i < 8)%nat by lia.
  do 8 (destruct i as [|i]; [done|]). lia.
Qed.

(** The call, and the move of its result. *)
Lemma call_exec sig f args dest (rs : Z -> V) (ls : Loc -> V) m n succ :
  code !! n = Some (Icall sig f args dest succ) -> agree n rs ls ->
  match call_value sig (rtl_callee rs f) (rs <$> args) m,
        ltl_exec (maxRegArgs darwin) (Ltl.Lcall sig (transform_fn f alloc) (transformRegs args alloc)) ls m with
  | Some (v, m1), Some (ls', m2) => m1 = m2 /\ ls' (Target.R X0) = v /\
      forall r, r ∈ set_at (LiveOut live) n -> r ∉ instr_def (Icall sig f args dest succ) -> ls' (L r) = rs r
  | None, None => True
  | _, _ => False
  end.
Proof using All.
  intros Hn Ha. set (i := Icall sig f args dest succ) in *.
  assert (Hargs : rs <$> args = ls <$> transformRegs args alloc) by (apply (agree_args n i); [done|done|cbn; set_solver]).
  assert (Hf : rtl_callee rs f = ltl_callee ls (transform_fn f alloc)).
  { apply transform_callee. intros r Hr. apply (agree_use n i); [done|done|]. cbn. set_solver. }
  cbn [ltl_exec]. rewrite Hf, Hargs. set (lf := ltl_callee ls (transform_fn f alloc)).
  set (regs := maxRegArgs darwin (transform_fn f alloc)).
  set (largs := transformRegs args alloc).
  pose proof (eval_call_value sig lf (ls <$> largs) (place_args regs largs ls) m) as Hcall.
  assert (Hregs : callee_regs darwin lf = regs) by apply callee_regs_transform.
  rewrite length_fmap, Hregs in Hcall.
  specialize (Hcall ltac:(unfold largs, transformRegs; rewrite length_fmap; by eapply (wr_calls _ _ wf))
    (place_args_values regs largs ls)).
  destruct (call_value sig lf (ls <$> largs) m) as [[v m1]|],
    (eval_call sig lf (place_args regs largs ls) m) as [[ls' m2]|]; try done.
  destruct Hcall as (-> & Hv & Hp). split; [done|]. split; [done|]. intros r Hr Hd.
  assert (Hpr : call_preserved (L r) = true) by (apply (va_call _ _ _ va n i); done).
  rewrite Hp, place_args_other by (first [done|apply preserved_not_arg; [apply maxRegArgs_le|done]]).
  symmetry. by apply (agree_out n i).
Qed.

(** ** Blocks *)

Definition block_of (n : Z) : list Ltl.Instruction :=
  match code !! n with Some i => Body (transformInstruction i alloc) | None => [] end.

Inductive match_states : rtl_state (V := V) (M := M) -> ltl_state (V := V) (M := M) -> Prop :=
| match_states_intro n rs ls m :
    rtc (rtl_edge fn) (Rtl.fn_Entrypoint fn) n -> n ∈ dom code -> agree n rs ls -> match_states (n, rs, m) (block_of n, ls, m).

Lemma enter_block n ls m :
  n ∈ dom code -> n <> Rtl.fn_Entrypoint fn -> ltl_enter (V := V) (M := M) lcode n ls m = Next (block_of n, ls, m).
Proof using All.
  intros [i Hi]%elem_of_dom Hne. unfold ltl_enter, lcode, block_of. rewrite transform_blocks_lookup.
  fold code. rewrite Hi. cbn. by rewrite decide_False.
Qed.

Lemma enter_rtl_succ n i s rs ls m :
  rtc (rtl_edge fn) (Rtl.fn_Entrypoint fn) n -> code !! n = Some i -> s ∈ Successors i -> agree s rs ls ->
  ltl_enter lcode s ls m = Next (block_of s, ls, m) /\ match_states (s, rs, m) (block_of s, ls, m).
Proof using All.
  intros Hreach Hn Hs Ha. assert (He : rtl_edge fn n s) by (by exists i).
  destruct (wr_closed _ _ wf n s Hreach He) as [Hd Hne].
  split; [by apply enter_block|constructor; [by eapply rtc_r|done..]].
Qed.

(** The code after the result of a call is in X0. *)
Lemma result_move_run dest (rs : Z -> V) (ls : Loc -> V) v m n sig f args succ :
  code !! n = Some (Icall sig f args dest succ) -> ls (Target.R X0) = v ->
  (forall r, r ∈ set_at (LiveOut live) n -> r ∉ instr_def (Icall sig f args dest succ) -> ls (L r) = rs r) ->
  exists ls', rtc (steps_to lstep) (result_move dest alloc ++ [Ltl.Lbranch succ], ls, m) ([Ltl.Lbranch succ], ls', m) /\
    agree succ (set_dest dest v rs) ls'.
Proof using All.
  intros Hn Hv Hr. set (i := Icall sig f args dest succ) in *.
  assert (Hsucc : forall r, r ∈ set_at (LiveIn live) succ -> r ∈ set_at (LiveOut live) n).
  { intros r. apply (live_succ n i); [done|left]. }
  unfold result_move, set_dest. destruct (Z.eqb_spec dest 0) as [Hd|Hd]; cbn [negb app].
  { exists ls. split; [apply rtc_refl|]. rewrite decide_True by done. intros r Hin. symmetry.
    apply Hr; [by apply Hsucc|]. unfold i. cbn. rewrite decide_True by done. set_solver. }
  rewrite (decide_False (P := dest = 0)) by done.
  assert (Hdef : instr_def i = {[dest]}) by (unfold i; cbn; by rewrite decide_False).
  assert (Hother : forall r, r ∈ set_at (LiveIn live) succ -> r <> dest -> ls (L r) = rs r /\ L r <> L dest).
  { intros r Hin Hne. split; [apply Hr; [by apply Hsucc|rewrite Hdef; set_solver]|].
    apply (va_def _ _ _ va n i); [done|rewrite Hdef; set_solver|by apply Hsucc|done|]. by intros [? _]. }
  change (ReturnLocation false) with (Target.R X0). fold L. destruct (decide (L dest = Target.R X0)) as [E|E].
  - exists ls. split; [apply rtc_refl|]. intros r Hin. destruct (decide (r = dest)) as [->|Hne].
    + by rewrite fn_lookup_insert, <- Hv, <- E.
    + rewrite fn_lookup_insert_ne by done. symmetry. by apply Hother.
  - exists (<[L dest := v]> ls). split.
    + apply rtc_once. unfold steps_to, lstep. cbn. by rewrite Hv, eval_op_move.
    + intros r Hin. destruct (decide (r = dest)) as [->|Hne]; [by rewrite !fn_lookup_insert|].
      destruct (Hother r Hin Hne) as [H1 H2]. by rewrite !fn_lookup_insert_ne.
Qed.

(** ** The simulation *)

Lemma sim_halt_alloc s t0 r :
  match_states s t0 -> rtl_step code s = Halt r -> exists r', terminates lstep t0 r' /\ match_results r r'.
Proof using All.
  intros [n rs ls m Hreach [i Hi]%elem_of_dom Ha] Hs. cbn in Hs. rewrite Hi in Hs.
  assert (Hb : block_of n = Body (transformInstruction i alloc)) by (unfold block_of; by rewrite Hi).
  rewrite Hb. destruct i; try (unfold rtl_next in Hs; repeat case_match; done).
  - (* tail calls *)
    injection Hs as <-. eexists. split; [by apply terminates_halt|]. cbn.
    split; [done|]. split; [|split; [|done]].
    + apply transform_callee. intros r Hr. eapply agree_use; [exact Hi|done|]. cbn. set_solver.
    + eapply agree_args; [exact Hi|done|]. cbn. set_solver.
  - (* returns *)
    injection Hs as <-. destruct Arg as [r|]; cbn [fmap option_fmap option_map].
    + assert (Hr : rs r = ls (L r)) by (eapply agree_use; [exact Hi|done|cbn; set_solver]).
      cbn [transformInstruction Body]. fold L. change (ReturnLocation false) with (Target.R X0).
      destruct (decide (L r = Target.R X0)) as [E|E].
      * eexists. split; [by apply terminates_halt|]. cbn. by rewrite Hr, E.
      * exists (Returned (ls (L r)) m). split; [|by rewrite Hr].
        eapply terminates_step.
        { unfold lstep. cbn. by rewrite eval_op_move. }
        apply terminates_halt. cbn. by rewrite fn_lookup_insert.
    + eexists. split; [by apply terminates_halt|]. done.
Qed.

(** A straight instruction, then the branch to the next block. *)
Lemma straight_then_branch (n : Z) i s (j : Ltl.Instruction) (rs : Z -> V) ls m (rs' : Z -> V) ls' m'
    (Q : ltl_state (V := V) (M := M) -> Prop) :
  rtc (rtl_edge fn) (Rtl.fn_Entrypoint fn) n -> code !! n = Some i -> s ∈ Successors i ->
  Body (transformInstruction i alloc) = [j; Ltl.Lbranch s] ->
  lstep ([j; Ltl.Lbranch s], ls, m) = Next ([Ltl.Lbranch s], ls', m') -> agree s rs' ls' ->
  exists t', match_states (s, rs', m') t' /\
    (tc (steps_to lstep) (block_of n, ls, m) t' \/ Q t').
Proof using All.
  intros Hreach Hn Hs Hb Hj Ha. destruct (enter_rtl_succ n i s rs' ls' m' Hreach Hn Hs Ha) as [He Hm].
  exists (block_of s, ls', m'). split; [done|]. left. unfold block_of at 1. rewrite Hn, Hb.
  eapply tc_l; [exact Hj|]. apply tc_once. exact He.
Qed.

Ltac step_inv Hs :=
  unfold rtl_next in Hs;
  match type of Hs with
  | (match ?o with Some _ => _ | None => _ end) = _ => destruct o eqn:?; [|done]
  end; injection Hs as <-.

Lemma sim_next_alloc s t0 s' :
  match_states s t0 -> rtl_step code s = Next s' ->
  exists t', match_states s' t' /\
    (tc (steps_to lstep) t0 t' \/ (t' = t0 /\ ((fun _ => O) s' < (fun _ => O) s)%nat)).
Proof using All.
  intros [n rs ls m Hreach [i Hi]%elem_of_dom Ha] Hs. cbn [rtl_step] in Hs. rewrite Hi in Hs.
  assert (Hargs : forall args, list_to_set args ⊆ instr_use i -> rs <$> args = ls <$> transformRegs args alloc)
    by (intros args; by eapply agree_args).
  destruct i as [succ|op args dest succ|ch addr args dest succ|ch addr args src succ|sig f args dest succ
    |sig f args|b args dest succ|c args n1 n2|arg targets|arg].
  - injection Hs as <-.
    destruct (enter_rtl_succ n _ succ rs ls m Hreach Hi ltac:(left) ltac:(eapply agree_nodef; [exact Hi|left|done|done]))
      as [He Hm].
    eexists. split; [exact Hm|]. left. unfold block_of at 1. rewrite Hi. apply tc_once. exact He.
  - step_inv Hs. eapply (straight_then_branch n _ succ _ rs); [exact Hreach|exact Hi|left|reflexivity| |].
    + unfold lstep. cbn. rewrite <- Hargs by done. by rewrite Heqo.
    + eapply agree_def; [exact Hi|left|done|done|]. intros l Hm Hl.
      destruct op; try done. destruct args as [|a [|]]; try done. apply Z.eqb_eq in Hl as ->. cbn in Heqo.
      rewrite eval_op_move in Heqo. by injection Heqo.
  - step_inv Hs. eapply (straight_then_branch n _ succ _ rs); [exact Hreach|exact Hi|left|reflexivity| |].
    + unfold lstep. cbn. rewrite <- Hargs by done. by rewrite Heqo.
    + eapply agree_def; [exact Hi|left|done|done|]. done.
  - step_inv Hs. eapply (straight_then_branch n _ succ _ rs); [exact Hreach|exact Hi|left|reflexivity| |].
    + unfold lstep. cbn. rewrite <- Hargs by (cbn; set_solver). fold L.
      rewrite <- (agree_use n _ rs ls src Hi Ha) by (cbn; set_solver). by rewrite Heqo.
    + eapply agree_nodef; [exact Hi|left|done|done].
  - step_inv Hs. pose proof (call_exec sig f args dest rs ls m n succ Hi Ha) as Hc. rewrite Heqo in Hc.
    destruct p as [v m1]. destruct (ltl_exec _ _ _ _) as [[ls1 m2]|] eqn:Hx; [|done].
    destruct Hc as (-> & Hv & Hr). cbn [fst snd].
    destruct (result_move_run dest rs ls1 v m2 n sig f args succ Hi Hv Hr) as (ls2 & Hrun & Ha2).
    destruct (enter_rtl_succ n _ succ _ ls2 m2 Hreach Hi ltac:(left) Ha2) as [He Hm].
    eexists. split; [exact Hm|]. left. unfold block_of at 1. rewrite Hi.
    apply tc_rtc_l with ([Ltl.Lbranch succ], ls2, m2); [|apply tc_once; exact He]. eapply rtc_l; [|exact Hrun].
    unfold steps_to, lstep. cbn [transformInstruction Body app]. cbn [ltl_step]. by rewrite Hx.
  - done.
  - step_inv Hs. destruct p as [v m']. cbn [fst snd].
    eapply (straight_then_branch n _ succ _ rs); [exact Hreach|exact Hi|left|reflexivity| |].
    + unfold lstep. cbn. rewrite <- Hargs by done. rewrite Heqo. cbn. reflexivity.
    + destruct dest as [d|]; cbn [fmap option_fmap option_map].
      * eapply agree_def; [exact Hi|left|done|done|]. done.
      * eapply agree_nodef; [exact Hi|left|done|done].
  - step_inv Hs.
    assert (Hsucc : (if b then n1 else n2) ∈ Successors (Icond c args n1 n2)) by (destruct b; cbn; set_solver).
    destruct (enter_rtl_succ n _ _ rs ls m Hreach Hi Hsucc ltac:(eapply agree_nodef; [exact Hi|exact Hsucc|done|done])) as [He Hm].
    eexists. split; [exact Hm|]. left. unfold block_of at 1. rewrite Hi. apply tc_once.
    unfold steps_to, lstep. cbn. rewrite <- Hargs by done. by rewrite Heqo.
  - step_inv Hs.
    assert (Hsucc : z ∈ Successors (Ijumptable arg targets)).
    { apply bind_Some in Heqo as (k & _ & Hk). cbn. by apply list_elem_of_lookup_2 in Hk. }
    destruct (enter_rtl_succ n _ _ rs ls m Hreach Hi Hsucc ltac:(eapply agree_nodef; [exact Hi|exact Hsucc|done|done])) as [He Hm].
    eexists. split; [exact Hm|]. left. unfold block_of at 1. rewrite Hi. apply tc_once.
    unfold steps_to, lstep. cbn. fold L. rewrite <- (agree_use n _ rs ls arg Hi Ha) by (cbn; set_solver).
    by rewrite Heqo.
  - done.
Qed.

Ltac stuck_inv Hs :=
  unfold rtl_next in Hs;
  match type of Hs with
  | (match ?o with Some _ => _ | None => _ end) = _ => destruct o eqn:Ho; [done|]
  end; clear Hs.

Lemma sim_stuck_alloc s t0 r :
  match_states s t0 -> rtl_step code s = Stuck -> ~ terminates lstep t0 r.
Proof using All.
  intros [n rs ls m Hreach [i Hi]%elem_of_dom Ha] Hs. cbn [rtl_step] in Hs. rewrite Hi in Hs.
  assert (Hargs : forall args, list_to_set args ⊆ instr_use i -> rs <$> args = ls <$> transformRegs args alloc)
    by (intros args; by eapply agree_args).
  apply terminates_stuck. unfold block_of. rewrite Hi.
  destruct i as [succ|op args dest succ|ch addr args dest succ|ch addr args src succ|sig f args dest succ
    |sig f args|b args dest succ|c args n1 n2|arg targets|arg]; try done; stuck_inv Hs.
  - unfold lstep. cbn. rewrite <- Hargs by done. by rewrite Ho.
  - unfold lstep. cbn. rewrite <- Hargs by done. by rewrite Ho.
  - unfold lstep. cbn. rewrite <- Hargs by (cbn; set_solver). fold L.
    rewrite <- (agree_use n _ rs ls src Hi Ha) by (cbn; set_solver). by rewrite Ho.
  - pose proof (call_exec sig f args dest rs ls m n succ Hi Ha) as Hc. rewrite Ho in Hc.
    destruct (ltl_exec _ _ _ _) eqn:Hx; [done|].
    unfold lstep. cbn [transformInstruction Body app]. cbn [ltl_step]. by rewrite Hx.
  - unfold lstep. cbn. rewrite <- Hargs by done. by rewrite Ho.
  - unfold lstep. cbn. rewrite <- Hargs by done. by rewrite Ho.
  - unfold lstep. cbn. fold L. rewrite <- (agree_use n _ rs ls arg Hi Ha) by (cbn; set_solver). by rewrite Ho.
Qed.

(** ** The entry *)

Lemma moves_run ms rest (ls : Loc -> V) m :
  rtc (steps_to lstep) ((move_code <$> ms) ++ rest, ls, m) (rest, run_moves ms ls, m).
Proof using All.
  revert ls. induction ms as [|[s d] ms IH]; intros ls; [apply rtc_refl|].
  cbn [fmap list_fmap app]. eapply rtc_l; [|apply IH].
  unfold steps_to, lstep. cbn. by rewrite eval_op_move.
Qed.

Lemma entry_run (rs : Z -> V) (ls : Loc -> V) m :
  (forall i p, Rtl.fn_Params fn !! i = Some p -> rs p = ls (ArgLocation i false)) ->
  exists b ls', lcode !! Rtl.fn_Entrypoint fn = Some b /\
    rtc (steps_to lstep) (Body b, ls, m) (block_of (Rtl.fn_Entrypoint fn), ls', m) /\
    match_states (rtl_init fn rs m) (block_of (Rtl.fn_Entrypoint fn), ls', m).
Proof using All.
  intros Hp. pose proof (wr_entry _ _ wf) as He. pose proof He as [i Hi]%elem_of_dom.
  destruct (resolve_run (V := V) _ _ (va_params _ _ _ va)) as (ms & Hms & Hrun).
  destruct (Hrun ls) as [Hdst _]. clear Hrun.
  eexists _, (run_moves ms ls). split; [|split].
  - unfold lcode. rewrite transform_blocks_lookup, Hi. cbn. rewrite decide_True by done. reflexivity.
  - cbn [Body]. unfold param_moves. rewrite Hms. unfold block_of. fold code in Hi. rewrite Hi. apply moves_run.
  - constructor; [apply rtc_refl|done|]. intros r Hr. pose proof (wr_live _ _ wf r Hr) as Hin.
    apply list_elem_of_lookup in Hin as (j & Hj). rewrite (Hp j r Hj). symmetry. apply (Hdst j).
    + by rewrite list_lookup_imap, Hj.
    + by rewrite list_lookup_fmap, Hj.
Qed.

Lemma alloc_equiv (rs : Z -> V) (ls : Loc -> V) m s :
  (forall i p, Rtl.fn_Params fn !! i = Some p -> rs p = ls (ArgLocation i false)) ->
  ltl_init (transform_with t fn alloc) ls m = Some s ->
  (forall r, terminates (rtl_step code) (rtl_init fn rs m) r ->
     exists r', terminates (ltl_step (maxRegArgs darwin) lcode) s r' /\ match_results r r') /\
  (forall r', terminates (ltl_step (maxRegArgs darwin) lcode) s r' ->
     exists r, terminates (rtl_step code) (rtl_init fn rs m) r /\ match_results r r').
Proof using All.
  intros Hp Hinit. destruct (entry_run rs ls m Hp) as (b & ls' & Hb & Hrun & Hm).
  unfold ltl_init in Hinit. cbn [Ltl.fn_Code Ltl.fn_Entrypoint transform_with] in Hinit. fold lcode in Hinit.
  rewrite Hb in Hinit. cbn in Hinit. injection Hinit as <-. fold lstep. split.
  - intros r Hr.
    destruct (sim_forward_rel _ _ _ _ (fun _ => O) sim_next_alloc sim_halt_alloc _ _ r Hm Hr) as (r' & Ht & Hmr).
    exists r'. split; [|done]. by apply (terminates_rtc _ _ _ _ Hrun).
  - intros r' Ht. apply (terminates_rtc _ _ _ _ Hrun) in Ht.
    by apply (sim_backward_rel _ _ _ _ (fun _ => O) sim_next_alloc sim_halt_alloc sim_stuck_alloc _ _ r' Hm Ht).
Qed.
End Proof.
