(* ===== verification/Irc.v ===== *)
(** Iterated register coalescing ([src/pkg/regalloc/irc.go]): the registers of
    the interference graph are simplified, coalesced, frozen or marked for
    spilling, then coloured in the reverse order. Worklists are Go slices that
    grow and shrink at their end. *)

From S2P Require Import Prelude Target Rtl Liveness Interference Conventions RegAlloc.

Abbreviation K := NumAllocatableIntRegs (only parsing).

(** The allocator's state. *)
Record Allocator := mkAllocator {
  graph : InterferenceGraph;
  colors : gmap Z nat;
  spillSlot : gmap Z Z;
  simplifyWorklist : list Z;
  freezeWorklist : list Z;
  spillWorklist : list Z;
  coalescedNodes : RegSet;
  coloredNodes : RegSet;
  spilledNodes : RegSet;
  selectStack : list Z;
  onSelectStack : RegSet;
  alias : gmap Z Z;
  coalescedMoves : list (Z * Z);
  constrainedMoves : list (Z * Z);
  frozenMoves : list (Z * Z);
  worklistMoves : list (Z * Z);
  activeMoves : list (Z * Z);
  nextSpillSlot : Z;
  precoloredParams : gmap Z Loc
}.

(** Field updates. *)
Definition set_graph (v : InterferenceGraph) (a : Allocator) : Allocator :=
  mkAllocator v (colors a) (spillSlot a) (simplifyWorklist a) (freezeWorklist a) (spillWorklist a)
    (coalescedNodes a) (coloredNodes a) (spilledNodes a) (selectStack a) (onSelectStack a) (alias a)
    (coalescedMoves a) (constrainedMoves a) (frozenMoves a) (worklistMoves a) (activeMoves a)
    (nextSpillSlot a) (precoloredParams a).
Definition set_colors (v : gmap Z nat) (a : Allocator) : Allocator :=
  mkAllocator (graph a) v (spillSlot a) (simplifyWorklist a) (freezeWorklist a) (spillWorklist a)
    (coalescedNodes a) (coloredNodes a) (spilledNodes a) (selectStack a) (onSelectStack a) (alias a)
    (coalescedMoves a) (constrainedMoves a) (frozenMoves a) (worklistMoves a) (activeMoves a)
    (nextSpillSlot a) (precoloredParams a).
Definition set_spillSlot (v : gmap Z Z) (a : Allocator) : Allocator :=
  mkAllocator (graph a) (colors a) v (simplifyWorklist a) (freezeWorklist a) (spillWorklist a)
    (coalescedNodes a) (coloredNodes a) (spilledNodes a) (selectStack a) (onSelectStack a) (alias a)
    (coalescedMoves a) (constrainedMoves a) (frozenMoves a) (worklistMoves a) (activeMoves a)
    (nextSpillSlot a) (precoloredParams a).
Definition set_simplifyWorklist (v : list Z) (a : Allocator) : Allocator :=
  mkAllocator (graph a) (colors a) (spillSlot a) v (freezeWorklist a) (spillWorklist a)
    (coalescedNodes a) (coloredNodes a) (spilledNodes a) (selectStack a) (onSelectStack a) (alias a)
    (coalescedMoves a) (constrainedMoves a) (frozenMoves a) (worklistMoves a) (activeMoves a)
    (nextSpillSlot a) (precoloredParams a).
Definition set_freezeWorklist (v : list Z) (a : Allocator) : Allocator :=
  mkAllocator (graph a) (colors a) (spillSlot a) (simplifyWorklist a) v (spillWorklist a)
    (coalescedNodes a) (coloredNodes a) (spilledNodes a) (selectStack a) (onSelectStack a) (alias a)
    (coalescedMoves a) (constrainedMoves a) (frozenMoves a) (worklistMoves a) (activeMoves a)
    (nextSpillSlot a) (precoloredParams a).
Definition set_spillWorklist (v : list Z) (a : Allocator) : Allocator :=
  mkAllocator (graph a) (colors a) (spillSlot a) (simplifyWorklist a) (freezeWorklist a) v
    (coalescedNodes a) (coloredNodes a) (spilledNodes a) (selectStack a) (onSelectStack a) (alias a)
    (coalescedMoves a) (constrainedMoves a) (frozenMoves a) (worklistMoves a) (activeMoves a)
    (nextSpillSlot a) (precoloredParams a).
Definition set_coalescedNodes (v : RegSet) (a : Allocator) : Allocator :=
  mkAllocator (graph a) (colors a) (spillSlot a) (simplifyWorklist a) (freezeWorklist a)
    (spillWorklist a) v (coloredNodes a) (spilledNodes a) (selectStack a) (onSelectStack a) (alias
    a) (coalescedMoves a) (constrainedMoves a) (frozenMoves a) (worklistMoves a) (activeMoves a)
    (nextSpillSlot a) (precoloredParams a).
Definition set_coloredNodes (v : RegSet) (a : Allocator) : Allocator :=
  mkAllocator (graph a) (colors a) (spillSlot a) (simplifyWorklist a) (freezeWorklist a)
    (spillWorklist a) (coalescedNodes a) v (spilledNodes a) (selectStack a) (onSelectStack a) (alias
    a) (coalescedMoves a) (constrainedMoves a) (frozenMoves a) (worklistMoves a) (activeMoves a)
    (nextSpillSlot a) (precoloredParams a).
Definition set_spilledNodes (v : RegSet) (a : Allocator) : Allocator :=
  mkAllocator (graph a) (colors a) (spillSlot a) (simplifyWorklist a) (freezeWorklist a)
    (spillWorklist a) (coalescedNodes a) (coloredNodes a) v (selectStack a) (onSelectStack a) (alias
    a) (coalescedMoves a) (constrainedMoves a) (frozenMoves a) (worklistMoves a) (activeMoves a)
    (nextSpillSlot a) (precoloredParams a).
Definition set_selectStack (v : list Z) (a : Allocator) : Allocator :=
  mkAllocator (graph a) (colors a) (spillSlot a) (simplifyWorklist a) (freezeWorklist a)
    (spillWorklist a) (coalescedNodes a) (coloredNodes a) (spilledNodes a) v (onSelectStack a)
    (alias a) (coalescedMoves a) (constrainedMoves a) (frozenMoves a) (worklistMoves a) (activeMoves
    a) (nextSpillSlot a) (precoloredParams a).
Definition set_onSelectStack (v : RegSet) (a : Allocator) : Allocator :=
  mkAllocator (graph a) (colors a) (spillSlot a) (simplifyWorklist a) (freezeWorklist a)
    (spillWorklist a) (coalescedNodes a) (coloredNodes a) (spilledNodes a) (selectStack a) v (alias
    a) (coalescedMoves a) (constrainedMoves a) (frozenMoves a) (worklistMoves a) (activeMoves a)
    (nextSpillSlot a) (precoloredParams a).
Definition set_alias (v : gmap Z Z) (a : Allocator) : Allocator :=
  mkAllocator (graph a) (colors a) (spillSlot a) (simplifyWorklist a) (freezeWorklist a)
    (spillWorklist a) (coalescedNodes a) (coloredNodes a) (spilledNodes a) (selectStack a)
    (onSelectStack a) v (coalescedMoves a) (constrainedMoves a) (frozenMoves a) (worklistMoves a)
    (activeMoves a) (nextSpillSlot a) (precoloredParams a).
Definition set_coalescedMoves (v : list (Z * Z)) (a : Allocator) : Allocator :=
  mkAllocator (graph a) (colors a) (spillSlot a) (simplifyWorklist a) (freezeWorklist a)
    (spillWorklist a) (coalescedNodes a) (coloredNodes a) (spilledNodes a) (selectStack a)
    (onSelectStack a) (alias a) v (constrainedMoves a) (frozenMoves a) (worklistMoves a)
    (activeMoves a) (nextSpillSlot a) (precoloredParams a).
Definition set_constrainedMoves (v : list (Z * Z)) (a : Allocator) : Allocator :=
  mkAllocator (graph a) (colors a) (spillSlot a) (simplifyWorklist a) (freezeWorklist a)
    (spillWorklist a) (coalescedNodes a) (coloredNodes a) (spilledNodes a) (selectStack a)
    (onSelectStack a) (alias a) (coalescedMoves a) v (frozenMoves a) (worklistMoves a) (activeMoves
    a) (nextSpillSlot a) (precoloredParams a).
Definition set_frozenMoves (v : list (Z * Z)) (a : Allocator) : Allocator :=
  mkAllocator (graph a) (colors a) (spillSlot a) (simplifyWorklist a) (freezeWorklist a)
    (spillWorklist a) (coalescedNodes a) (coloredNodes a) (spilledNodes a) (selectStack a)
    (onSelectStack a) (alias a) (coalescedMoves a) (constrainedMoves a) v (worklistMoves a)
    (activeMoves a) (nextSpillSlot a) (precoloredParams a).
Definition set_worklistMoves (v : list (Z * Z)) (a : Allocator) : Allocator :=
  mkAllocator (graph a) (colors a) (spillSlot a) (simplifyWorklist a) (freezeWorklist a)
    (spillWorklist a) (coalescedNodes a) (coloredNodes a) (spilledNodes a) (selectStack a)
    (onSelectStack a) (alias a) (coalescedMoves a) (constrainedMoves a) (frozenMoves a) v
    (activeMoves a) (nextSpillSlot a) (precoloredParams a).
Definition set_activeMoves (v : list (Z * Z)) (a : Allocator) : Allocator :=
  mkAllocator (graph a) (colors a) (spillSlot a) (simplifyWorklist a) (freezeWorklist a)
    (spillWorklist a) (coalescedNodes a) (coloredNodes a) (spilledNodes a) (selectStack a)
    (onSelectStack a) (alias a) (coalescedMoves a) (constrainedMoves a) (frozenMoves a)
    (worklistMoves a) v (nextSpillSlot a) (precoloredParams a).
Definition set_nextSpillSlot (v : Z) (a : Allocator) : Allocator :=
  mkAllocator (graph a) (colors a) (spillSlot a) (simplifyWorklist a) (freezeWorklist a)
    (spillWorklist a) (coalescedNodes a) (coloredNodes a) (spilledNodes a) (selectStack a)
    (onSelectStack a) (alias a) (coalescedMoves a) (constrainedMoves a) (frozenMoves a)
    (worklistMoves a) (activeMoves a) v (precoloredParams a).
Definition set_precoloredParams (v : gmap Z Loc) (a : Allocator) : Allocator :=
  mkAllocator (graph a) (colors a) (spillSlot a) (simplifyWorklist a) (freezeWorklist a)
    (spillWorklist a) (coalescedNodes a) (coloredNodes a) (spilledNodes a) (selectStack a)
    (onSelectStack a) (alias a) (coalescedMoves a) (constrainedMoves a) (frozenMoves a)
    (worklistMoves a) (activeMoves a) (nextSpillSlot a) v.

(** [append(list, r)] *)
Definition push {A} (l : list A) (x : A) : list A := l ++ [x].

(** The list without its last element, [list[:n]]. *)
Definition pop {A} (l : list A) : list A := take (length l - 1) l.

(** [removeFromWorklist]: the first occurrence goes. *)
Fixpoint remove_first (r : Z) (l : list Z) : list Z :=
  match l with
  | [] => []
  | x :: l => if decide (x = r) then l else x :: remove_first r l
  end.

(** [degree]: neighbours that are neither coalesced nor on the select stack. *)
Definition counted (a : Allocator) (n : Z) : Prop := n ∉ coalescedNodes a /\ n ∉ onSelectStack a.
#[export] Instance counted_dec a n : Decision (counted a n).
Proof. unfold counted. apply _. Defined.

Definition degree (a : Allocator) (r : Z) : nat := size (filter (counted a) (set_at (Edges (graph a)) r)).

(** [decrementDegree] *)
Definition decrementDegree (a : Allocator) (r : Z) : Allocator :=
  if decide (r ∈ coalescedNodes a) then a
  else if decide (degree a r = K - 1)%nat then
    let a := set_spillWorklist (remove_first r (spillWorklist a)) a in
    if MoveRelated (graph a) r then set_freezeWorklist (push (freezeWorklist a) r) a
    else set_simplifyWorklist (push (simplifyWorklist a) r) a
  else a.

(** [addToWorklist] *)
Definition addToWorklist (a : Allocator) (r : Z) : Allocator :=
  if decide (r ∈ coalescedNodes a) then a
  else if (degree a r <? K)%nat && negb (MoveRelated (graph a) r) then
    set_simplifyWorklist (push (simplifyWorklist a) r) (set_freezeWorklist (remove_first r (freezeWorklist a)) a)
  else a.

(** [getAlias]: the fuel exceeds the length of every chain of aliases. *)
Fixpoint follow_alias (fuel : nat) (a : Allocator) (r : Z) : Z :=
  match fuel with
  | O => r
  | Datatypes.S fuel =>
      if decide (r ∈ coalescedNodes a) then follow_alias fuel a (default 0 (alias a !! r)) else r
  end.
Definition getAlias (a : Allocator) (r : Z) : Z := follow_alias (Datatypes.S (size (coalescedNodes a))) a r.

(** [conservativeCoalesce] *)
Definition conservativeCoalesce (a : Allocator) (u v : Z) : bool :=
  let neighbors := filter (fun n => n ∉ coalescedNodes a) (set_at (Edges (graph a)) u ∪ set_at (Edges (graph a)) v) in
  let highDegreeNeighbors := size (filter (fun n => K <= degree a n)%nat neighbors) in
  (highDegreeNeighbors <? K)%nat.

(** [freezeMovesFor]: one move. *)
Definition freeze_move (r : Z) (st : Allocator * list (Z * Z)) (m : Z * Z) : Allocator * list (Z * Z) :=
  let '(a, remaining) := st in
  if decide (m.1 = r \/ m.2 = r) then
    let a := set_frozenMoves (push (frozenMoves a) m) a in
    let other := if decide (m.1 = r) then m.2 else m.1 in
    (addToWorklist a other, remaining)
  else (a, push remaining m).

Definition freezeMovesFor (a : Allocator) (r : Z) : Allocator :=
  let '(a, remaining) := foldl (freeze_move r) (a, []) (activeMoves a) in
  set_activeMoves remaining a.

(** The search of [selectSpill]: the first register of the highest degree,
    [maxDeg] and [maxIdx] with the index [i] still to visit. *)
Fixpoint select_max (a : Allocator) (l : list Z) (i : nat) (best : option (nat * Z * nat)) : option (nat * Z * nat) :=
  match l with
  | [] => best
  | r :: l =>
      let d := degree a r in
      let best :=
        match best with
        | None => Some (d, r, i)
        | Some (maxDeg, _, _) => if (maxDeg <? d)%nat then Some (d, r, i) else best
        end in
      select_max a l (Datatypes.S i) best
  end.

Section Allocate.
  Context `{RangeOrder}.

(** [simplify] *)
Definition simplify (st : nat * Allocator) : nat * Allocator :=
  let '(t, a) := st in
  match last (simplifyWorklist a) with
  | None => st
  | Some r =>
      let a := set_simplifyWorklist (pop (simplifyWorklist a)) a in
      let a := set_selectStack (push (selectStack a) r) a in
      let a := set_onSelectStack ({[r]} ∪ onSelectStack a) a in
      for_set (set_at (Edges (graph a)) r) (fun n st => (st.1, decrementDegree st.2 n)) (t, a)
  end.

(** [combine]: its two loops, and the whole. *)
Definition merge_edges (u v : Z) (st : nat * Allocator) : nat * Allocator :=
  for_set (set_at (Edges (graph st.2)) v) (fun n st =>
    let a := st.2 in
    if decide (n ∉ coalescedNodes a /\ n <> u)
    then (st.1, decrementDegree (set_graph (AddEdge (graph a) u n) a) n) else st) st.

Definition merge_preferences (u v : Z) (st : nat * Allocator) : nat * Allocator :=
  for_set (set_at (Preferences (graph st.2)) v) (fun n st =>
    let a := st.2 in
    if decide (n <> u) then (st.1, set_graph (AddPreference (graph a) u n) a) else st) st.

Definition combine (u v : Z) (st : nat * Allocator) : nat * Allocator :=
  let '(t, a) := st in
  let a := set_freezeWorklist (remove_first v (freezeWorklist a)) a in
  let a := set_spillWorklist (remove_first v (spillWorklist a)) a in
  let a := set_coalescedNodes ({[v]} ∪ coalescedNodes a) a in
  let a := set_alias (<[v := u]> (alias a)) a in
  let a := if decide (v ∈ LiveAcrossCalls (graph a)) then set_graph (AddLiveAcross (graph a) u) a else a in
  let '(t, a) := merge_preferences u v (merge_edges u v (t, a)) in
  if (K <=? degree a u)%nat then
    let a := set_freezeWorklist (remove_first u (freezeWorklist a)) a in
    (t, set_spillWorklist (push (spillWorklist a) u) a)
  else (t, a).

(** [coalesce] *)
Definition coalesce (st : nat * Allocator) : nat * Allocator :=
  let '(t, a) := st in
  match last (worklistMoves a) with
  | None => st
  | Some m =>
      let a := set_worklistMoves (pop (worklistMoves a)) a in
      let x := getAlias a m.1 in
      let y := getAlias a m.2 in
      let '(u, v) := if x <? y then (x, y) else (y, x) in
      if u =? v then
        let a := set_coalescedMoves (push (coalescedMoves a) m) a in (t, addToWorklist a u)
      else if HasEdge (graph a) u v then
        let a := set_constrainedMoves (push (constrainedMoves a) m) a in
        (t, addToWorklist (addToWorklist a u) v)
      else if conservativeCoalesce a u v then
        let a := set_coalescedMoves (push (coalescedMoves a) m) a in
        let '(t, a) := combine u v (t, a) in (t, addToWorklist a u)
      else (t, set_activeMoves (push (activeMoves a) m) a)
  end.

(** [freeze] *)
Definition freeze (a : Allocator) : Allocator :=
  match last (freezeWorklist a) with
  | None => a
  | Some r =>
      let a := set_freezeWorklist (pop (freezeWorklist a)) a in
      let a := set_simplifyWorklist (push (simplifyWorklist a) r) a in
      freezeMovesFor a r
  end.

(** [selectSpill] *)
Definition selectSpill (a : Allocator) : Allocator :=
  match select_max a (spillWorklist a) 0 None with
  | None => a
  | Some (_, maxReg, maxIdx) =>
      let a := set_spillWorklist (delete maxIdx (spillWorklist a)) a in
      let a := set_simplifyWorklist (push (simplifyWorklist a) maxReg) a in
      freezeMovesFor a maxReg
  end.

(** One iteration of the main loop of [Allocate]; [None] when all worklists
    are empty. *)
Definition alloc_step (st : nat * Allocator) : option (nat * Allocator) :=
  let a := st.2 in
  match simplifyWorklist a with
  | _ :: _ => Some (simplify st)
  | [] =>
      match worklistMoves a with
      | _ :: _ => Some (coalesce st)
      | [] =>
          match freezeWorklist a with
          | _ :: _ => Some (st.1, freeze a)
          | [] =>
              match spillWorklist a with
              | _ :: _ => Some (st.1, selectSpill a)
              | [] => None
              end
          end
      end
  end.

(** The main loop: [None] when the fuel runs out. *)
Fixpoint main_loop (fuel : nat) (st : nat * Allocator) : option (nat * Allocator) :=
  match fuel with
  | O => None
  | Datatypes.S fuel =>
      match alloc_step st with
      | None => Some st
      | Some st' => main_loop fuel st'
      end
  end.

(** The colour of a machine register. *)
Definition reg_color (r : MReg) : option nat := fst <$> list_find (fun mreg => mreg = r) AllocatableIntRegs.

(** [buildWorklists] *)
Definition color_param (st : nat * Allocator) (pl : Z * Loc) : nat * Allocator :=
  let '(t, a) := st in
  match pl.2 with
  | Target.R r =>
      match reg_color r with
      | Some i => (t, set_coloredNodes ({[pl.1]} ∪ coloredNodes a) (set_colors (<[pl.1 := i]> (colors a)) a))
      | None => st
      end
  | _ => st
  end.

Definition classify_node (a : Allocator) (r : Z) : Allocator :=
  if decide (is_Some (precoloredParams a !! r)) then a
  else if (K <=? degree a r)%nat then set_spillWorklist (push (spillWorklist a) r) a
  else if MoveRelated (graph a) r then set_freezeWorklist (push (freezeWorklist a) r) a
  else set_simplifyWorklist (push (simplifyWorklist a) r) a.

Definition buildWorklists (st : nat * Allocator) : nat * Allocator :=
  let st := for_range (precoloredParams st.2) (fun pl st => color_param st pl) st in
  let st := for_set (Nodes (graph st.2)) (fun r st => (st.1, classify_node st.2 r)) st in
  for_range (Preferences (graph st.2)) (fun '(r, prefs) st =>
    for_set prefs (fun p st =>
      if r <? p then (st.1, set_worklistMoves (push (worklistMoves st.2) (r, p)) st.2) else st) st) st.

(** [NewAllocator] *)
Definition NewAllocator (fn : Rtl.Function) (g : InterferenceGraph) : Allocator :=
  let pre := foldl (fun pre ip =>
      if decide (ip.2 ∈ LiveAcrossCalls g) then pre else <[ip.2 := ArgLocation ip.1 false]> pre)
    ∅ (imap pair (Rtl.fn_Params fn)) in
  mkAllocator g ∅ ∅ [] [] [] ∅ ∅ ∅ [] ∅ ∅ [] [] [] [] [] 0 pre.

(** [assignColors]: the colours of the neighbours of a register, and the first
    one that is free. *)
Definition usedColors (a : Allocator) (r : Z) : gset nat :=
  list_to_set (omap (fun n =>
    let al := getAlias a n in
    if decide (al ∈ coloredNodes a) then Some (default 0%nat (colors a !! al)) else None)
    (elements (set_at (Edges (graph a)) r))).

Definition free_color (a : Allocator) (r : Z) : option nat :=
  let startColor := if decide (r ∈ LiveAcrossCalls (graph a)) then FirstCalleeSavedColor else 0%nat in
  snd <$> list_find (fun c => c ∉ usedColors a r) (seq startColor (K - startColor)).

Definition assign_color (a : Allocator) (r : Z) : Allocator :=
  match free_color a r with
  | Some color => set_colors (<[r := color]> (colors a)) (set_coloredNodes ({[r]} ∪ coloredNodes a) a)
  | None =>
      let a' := set_spillSlot (<[r := nextSpillSlot a]> (spillSlot a)) (set_spilledNodes ({[r]} ∪ spilledNodes a) a) in
      set_nextSpillSlot (i64 (nextSpillSlot a + 8)) a'
  end.

(** Popping the select stack: its end comes first. *)
Definition color_stack (a : Allocator) : Allocator :=
  set_selectStack [] (foldl assign_color a (reverse (selectStack a))).

(** A coalesced register gets what its representative has. *)
Definition copy_color (a : Allocator) (r : Z) : Allocator :=
  let al := getAlias a r in
  if decide (al ∈ coloredNodes a) then
    set_coloredNodes ({[r]} ∪ coloredNodes a) (set_colors (<[r := default 0%nat (colors a !! al)]> (colors a)) a)
  else if decide (al ∈ spilledNodes a) then
    set_spillSlot (<[r := default 0 (spillSlot a !! al)]> (spillSlot a)) (set_spilledNodes ({[r]} ∪ spilledNodes a) a)
  else
    match precoloredParams a !! al with
    | Some loc => set_precoloredParams (<[r := loc]> (precoloredParams a)) a
    | None => a
    end.

Definition assignColors (st : nat * Allocator) : nat * Allocator :=
  let a := color_stack st.2 in
  for_set (coalescedNodes a) (fun r st => (st.1, copy_color st.2 r)) (st.1, a).

(** [buildResult] *)
Definition add_colored (a : Allocator) (m : gmap Z Loc) (r : Z) : gmap Z Loc :=
  if decide (is_Some (precoloredParams a !! r)) then m
  else
    match AllocatableIntRegs !! default 0%nat (colors a !! r) with
    | Some reg => <[r := Target.R reg]> m
    | None => m
    end.

Definition add_spilled (a : Allocator) (m : gmap Z Loc) (r : Z) : gmap Z Loc :=
  if decide (is_Some (precoloredParams a !! r)) then m
  else <[r := Target.S SlotLocal (default 0 (spillSlot a !! r)) Tlong]> m.

Definition buildResult (st : nat * Allocator) : nat * AllocationResult :=
  let '(t, a) := st in
  let st := for_set (coloredNodes a) (fun r st => (st.1, add_colored a st.2 r)) (t, precoloredParams a) in
  let st := for_set (spilledNodes a) (fun r st => (st.1, add_spilled a st.2 r)) st in
  (st.1, mkAllocationResult st.2 (spilledNodes a) (nextSpillSlot a)).

(** [Allocate] *)
Definition Allocate (fuel : nat) (st : nat * Allocator) : option (nat * AllocationResult) :=
  st' ← main_loop fuel (buildWorklists st); Some (buildResult (assignColors st')).
End Allocate.

(** [AllocateFunction]: the liveness analysis and the allocator may iterate in
    different orders. *)
Definition AllocateFunction (order1 order2 : RangeOrder) (fuel : nat) (fn : Rtl.Function) : option (nat * AllocationResult) :=
  live ← @AnalyzeLiveness order1 fn;
  let '(t, g) := @BuildInterferenceGraph order2 0 fn live in
  @Allocate order2 fuel (t, NewAllocator fn g).

(** [TransformFunction] and [TransformProgram] of [transform.go]. *)
Definition TransformFunction (order1 order2 : RangeOrder) (fuel : nat) (fn : Rtl.Function) : option Ltl.Function :=
  '(t, alloc) ← AllocateFunction order1 order2 fuel fn;
  Some (@transform_with order2 t fn alloc).

Definition TransformProgram (order1 order2 : RangeOrder) (fuel : nat) (prog : Rtl.Program) : option Ltl.Program :=
  fns ← mapM (TransformFunction order1 order2 fuel) (Rtl.Functions prog);
  Some (Ltl.mkProgram
    ((fun g => Ltl.mkGlobVar (Rtl.gv_Name g) (Rtl.gv_Size g) (Rtl.gv_Init g) (Rtl.gv_ReadOnly g)) <$> Rtl.Globals prog)
    fns).

(** [GetAllRegisters]: the registers of one instruction, and of the function. *)
Definition instr_regs (i : Rtl.Instruction) : RegSet :=
  match i with
  | Inop _ => ∅
  | Iop _ args dest _ => list_to_set args ∪ {[dest]}
  | Iload _ _ args dest _ => list_to_set args ∪ {[dest]}
  | Istore _ _ args src _ => list_to_set args ∪ {[src]}
  | Icall _ fn args dest _ => list_to_set args ∪ (if decide (dest = 0) then ∅ else {[dest]}) ∪ fn_use fn
  | Itailcall _ fn args => list_to_set args ∪ fn_use fn
  | Ibuiltin _ args dest _ => list_to_set args ∪ match dest with Some d => {[d]} | None => ∅ end
  | Icond _ args _ _ => list_to_set args
  | Ijumptable arg _ => {[arg]}
  | Ireturn arg => match arg with Some r => {[r]} | None => ∅ end
  end.

Definition GetAllRegisters `{RangeOrder} (t : nat) (fn : Rtl.Function) : RegSet :=
  (for_range (Rtl.fn_Code fn) (fun '(_, instr) st => (st.1, st.2 ∪ instr_regs instr))
    (t, list_to_set (Rtl.fn_Params fn))).2.

(** [SortedRegSlice], of the elements [Slice] returns in any order. *)
Definition Slice `{RangeOrder} (t : nat) (s : RegSet) : list Z := (range t (gset_to_gmap tt s)).*1.
Definition SortedRegSlice `{RangeOrder} (t : nat) (s : RegSet) : list Z := merge_sort Z.le (Slice t s).
