(* ===== verification/IrcInv.v ===== *)
(** The main loop of the allocator: what it preserves. Aliases form chains
    that end in registers that are not coalesced; interfering registers never
    get the same representative, and their representatives interfere; no
    register is lost.
    The invariant of the allocator's main loop: interfering registers never get
    the same representative, and their representatives interfere; a register
    that is live across a call is represented by one that is; every register
    waits in a worklist, is on the select stack or is coalesced; parameters with
    a fixed location stay on their own.
    Colouring: the registers popped from the select stack get colours different
    from those of their coloured neighbours, or a spill slot of their own;
    coalesced registers follow their representative.
    The result of the allocator: where the registers end up, and that
    interfering registers end up in different places.
    The state in which the allocator's main loop starts: parameters that are
    not live across a call are coloured with their argument registers, all
    other registers are in a worklist. *)

From S2P Require Import Prelude Target Rtl Liveness Interference Conventions RegAlloc Irc.

(** ** Lists *)

#[local] Arguments push : simpl never.
#[local] Arguments pop : simpl never.

Lemma elem_of_push {A} (l : list A) x y : y ∈ push l x <-> y ∈ l \/ y = x.
Proof. unfold push. rewrite elem_of_app, list_elem_of_singleton. done. Qed.

Lemma pop_last {A} (l : list A) x : last l = Some x -> l = pop l ++ [x].
Proof.
  unfold pop. destruct l as [|y l _] using rev_ind; [done|]. rewrite last_snoc. intros [= ->].
  rewrite length_app. cbn. rewrite Nat.add_sub. by rewrite take_app_length.
Qed.

Lemma elem_of_pop {A} (l : list A) x y : last l = Some x -> y ∈ l <-> y ∈ pop l \/ y = x.
Proof. intros H. rewrite (pop_last l x H) at 1. by rewrite elem_of_app, list_elem_of_singleton. Qed.

Lemma length_pop {A} (l : list A) x : last l = Some x -> length l = Datatypes.S (length (pop l)).
Proof. intros H. rewrite (pop_last l x H) at 1. rewrite length_app. cbn. lia. Qed.

Lemma remove_first_other r l x : x <> r -> x ∈ remove_first r l <-> x ∈ l.
Proof.
  intros Hx. induction l as [|y l IH]; [done|]. cbn [remove_first].
  case_decide as E; rewrite ?elem_of_cons, ?IH; [|done]. subst. intuition congruence.
Qed.

Lemma remove_first_sub r l x : x ∈ remove_first r l -> x ∈ l.
Proof.
  induction l as [|y l IH]; [done|]. cbn [remove_first]. case_decide; rewrite ?elem_of_cons; [by right|]. naive_solver.
Qed.

Lemma length_remove_first r l : (length (remove_first r l) <= length l)%nat.
Proof. induction l as [|y l IH]; cbn [remove_first length]; [done|]. case_decide; cbn [length]; lia. Qed.

(** ** What stays the same, and what is listed *)

(** The parts of the state that only [combine], [simplify] and the colouring
    change. *)
Definition core (a : Allocator) :=
  (coalescedNodes a, alias a, (selectStack a, onSelectStack a),
   (precoloredParams a, colors a, coloredNodes a, spilledNodes a, spillSlot a, nextSpillSlot a)).

(** Where a register waits. *)
Definition listed (a : Allocator) (r : Z) : Prop :=
  r ∈ simplifyWorklist a \/ r ∈ freezeWorklist a \/ r ∈ spillWorklist a \/
  r ∈ selectStack a \/ r ∈ coalescedNodes a.

(** A step on the worklists only. *)
Record list_step (a a' : Allocator) : Prop := {
  ls_core : core a' = core a;
  ls_graph : graph a' = graph a;
  ls_moves : worklistMoves a' = worklistMoves a;
  ls_listed : forall r, listed a r -> listed a' r
}.

Lemma list_step_refl a : list_step a a.
Proof. by split. Qed.

Lemma list_step_trans a1 a2 a3 : list_step a1 a2 -> list_step a2 a3 -> list_step a1 a3.
Proof. intros [] []. split; [congruence..|auto]. Qed.

(** Moving [r] from a worklist to the end of another. *)
Lemma decrementDegree_step a r : list_step a (decrementDegree a r).
Proof.
  unfold decrementDegree. case_decide; [apply list_step_refl|]. case_decide; [|apply list_step_refl].
  cbn [graph set_spillWorklist]. destruct (MoveRelated (graph a) r); (split; [done..|]); intros x Hx;
    unfold listed in *; cbn; rewrite elem_of_push; destruct (decide (x = r)) as [->|Hne]; auto;
    rewrite remove_first_other by done; tauto.
Qed.

Lemma addToWorklist_step a r : list_step a (addToWorklist a r).
Proof.
  unfold addToWorklist. case_decide; [apply list_step_refl|]. destruct (_ && _); [|apply list_step_refl].
  split; [done..|]. intros x Hx. unfold listed in *. cbn. rewrite elem_of_push.
  destruct (decide (x = r)) as [->|Hne]; [auto|]. rewrite remove_first_other by done. tauto.
Qed.

Lemma freeze_move_step r a rem m : list_step a (freeze_move r (a, rem) m).1.
Proof.
  unfold freeze_move. case_decide; [|apply list_step_refl].
  eapply list_step_trans; [|apply addToWorklist_step]. by split.
Qed.

Lemma freezeMovesFor_step a r : list_step a (freezeMovesFor a r).
Proof.
  unfold freezeMovesFor.
  assert (H : forall l a rem, list_step a (foldl (freeze_move r) (a, rem) l).1).
  { clear a. induction l as [|m l IH]; intros a rem; [apply list_step_refl|]. cbn [foldl].
    pose proof (freeze_move_step r a rem m) as Hm. destruct (freeze_move r (a, rem) m) as [a1 rem1].
    eapply list_step_trans; [exact Hm|apply IH]. }
  specialize (H (activeMoves a) a []). destruct (foldl _ _ _) as [a1 rem1].
  eapply list_step_trans; [exact H|]. by split.
Qed.

(** Putting [r], taken from a worklist, on the simplify worklist. *)
Lemma freeze_step a : list_step a (freeze a).
Proof.
  unfold freeze. destruct (last (freezeWorklist a)) as [r|] eqn:Hr; [|apply list_step_refl].
  eapply list_step_trans; [|apply freezeMovesFor_step]. split; [done..|]. intros x Hx.
  unfold listed in *. cbn. rewrite elem_of_push. rewrite (elem_of_pop _ _ x Hr) in Hx. tauto.
Qed.

Lemma select_max_spec a l i best d r j :
  select_max a l i best = Some (d, r, j) -> (i <= j)%nat /\ l !! (j - i)%nat = Some r \/ best = Some (d, r, j).
Proof.
  revert i best. induction l as [|x l IH]; intros i best; cbn [select_max]; [auto|].
  intros H. apply IH in H as [[Hle Hl]|H].
  - left. split; [lia|]. replace (j - i)%nat with (Datatypes.S (j - Datatypes.S i)) by lia. done.
  - assert (Hx : Some (degree a x, x, i) = Some (d, r, j) \/ best = Some (d, r, j)).
    { destruct best as [[[md mr] mi]|]; [destruct (md <? degree a x)%nat|]; auto. }
    destruct Hx as [[= <- <- <-]|Hx]; [left|by right]. split; [done|]. by rewrite Nat.sub_diag.
Qed.

Lemma selectSpill_step a : list_step a (selectSpill a).
Proof.
  unfold selectSpill. destruct (select_max a (spillWorklist a) 0 None) as [[[d r] j]|] eqn:Hs; [|apply list_step_refl].
  eapply list_step_trans; [|apply freezeMovesFor_step]. split; [done..|]. intros x Hx.
  apply select_max_spec in Hs as [[_ Hj]|?]; [|done]. rewrite Nat.sub_0_r in Hj.
  unfold listed in *. cbn. rewrite elem_of_push. destruct (decide (x = r)) as [->|Hne]; [auto|].
  destruct Hx as [Hx|[Hx|[Hx|Hx]]]; [auto|auto|right; right; left|tauto].
  apply list_elem_of_lookup in Hx as (k & Hk). rewrite <- (take_drop_middle _ _ _ Hj) in Hk.
  rewrite delete_take_drop. apply list_elem_of_lookup_2 in Hk.
  rewrite elem_of_app, elem_of_cons in Hk. rewrite elem_of_app. intuition congruence.
Qed.

(** ** Aliases *)

(** A register is coalesced into a smaller one. *)
Definition alias_ok (a : Allocator) : Prop :=
  forall v, v ∈ coalescedNodes a -> exists u, alias a !! v = Some u /\ u < v.

(** The coalesced registers up to [r]: an alias chain from [r] is no longer. *)
Definition below (a : Allocator) (r : Z) : RegSet := filter (fun x => x <= r) (coalescedNodes a).

Lemma below_lt a u v : v ∈ coalescedNodes a -> u < v -> (size (below a u) < size (below a v))%nat.
Proof.
  intros Hv Hu. apply subset_size. split.
  - intros x. unfold below. rewrite !elem_of_filter. intros [Hx Hc]. split; [lia|done].
  - intros Hs. assert (Hin : v ∈ below a v) by (apply elem_of_filter; split; [lia|done]).
    apply Hs in Hin. unfold below in Hin. rewrite elem_of_filter in Hin. lia.
Qed.

Lemma follow_alias_enough a f1 f2 r :
  alias_ok a -> (size (below a r) < f1)%nat -> (size (below a r) < f2)%nat ->
  follow_alias f1 a r = follow_alias f2 a r /\ follow_alias f1 a r ∉ coalescedNodes a.
Proof.
  intros Hok. revert f2 r. induction f1 as [|f1 IH]; intros f2 r H1 H2; [lia|].
  destruct f2 as [|f2]; [lia|]. cbn [follow_alias]. case_decide as Hr; [|done].
  destruct (Hok r Hr) as (u & -> & Hu). cbn [from_option id]. pose proof (below_lt a u r Hr Hu). apply IH; lia.
Qed.

Lemma below_size a r : (size (below a r) <= size (coalescedNodes a))%nat.
Proof. apply subseteq_size. intros x. unfold below. rewrite elem_of_filter. by intros [_ Hx]. Qed.

(** The defining equation of [getAlias]. *)
Lemma getAlias_eq a r :
  alias_ok a ->
  getAlias a r = if decide (r ∈ coalescedNodes a) then getAlias a (default 0 (alias a !! r)) else r.
Proof.
  intros Hok. unfold getAlias at 1. cbn [follow_alias]. case_decide as Hr; [|done].
  destruct (Hok r Hr) as (u & -> & Hu). cbn [from_option id]. unfold getAlias.
  pose proof (below_lt a u r Hr Hu). pose proof (below_size a r). pose proof (below_size a u).
  apply follow_alias_enough; [done|lia|lia].
Qed.

Lemma getAlias_root a r : alias_ok a -> getAlias a r ∉ coalescedNodes a.
Proof.
  intros Hok. unfold getAlias. pose proof (below_size a r).
  by apply (follow_alias_enough a _ (Datatypes.S (size (coalescedNodes a)))); [done|lia|lia].
Qed.

Lemma getAlias_self a r : r ∉ coalescedNodes a -> getAlias a r = r.
Proof. intros Hr. unfold getAlias. cbn [follow_alias]. by rewrite decide_False. Qed.

Lemma getAlias_idem a r : alias_ok a -> getAlias a (getAlias a r) = getAlias a r.
Proof. intros Hok. by apply getAlias_self, getAlias_root. Qed.

(** [getAlias] depends on two parts of the state. *)
Lemma getAlias_core a a' r :
  coalescedNodes a' = coalescedNodes a -> alias a' = alias a -> getAlias a' r = getAlias a r.
Proof.
  intros Hc Ha. unfold getAlias. rewrite Hc. generalize (Datatypes.S (size (coalescedNodes a))). intros f.
  revert r. induction f as [|f IH]; intros r; [done|]. cbn [follow_alias]. rewrite Hc, Ha, IH. done.
Qed.

Lemma alias_ok_core a a' :
  coalescedNodes a' = coalescedNodes a -> alias a' = alias a -> alias_ok a -> alias_ok a'.
Proof. intros Hc Ha Hok v. rewrite Hc, Ha. apply Hok. Qed.

(** Coalescing [v] into [u]: what had the representative [v] now has [u]. *)
Lemma getAlias_combine a a' u v :
  alias_ok a -> u ∉ coalescedNodes a -> v ∉ coalescedNodes a -> u < v ->
  coalescedNodes a' = {[v]} ∪ coalescedNodes a -> alias a' = <[v := u]> (alias a) ->
  alias_ok a' /\ forall r, getAlias a' r = if decide (getAlias a r = v) then u else getAlias a r.
Proof.
  intros Hok Hu Hv Hlt Hc Ha.
  assert (Hok' : alias_ok a').
  { intros w. rewrite Hc, Ha, elem_of_union, elem_of_singleton. destruct (decide (w = v)) as [->|Hw].
    - intros _. exists u. by rewrite lookup_insert_eq.
    - intros [?|Hw']; [done|]. destruct (Hok w Hw') as (x & Hx & Hlx). exists x. by rewrite lookup_insert_ne. }
  split; [done|].
  assert (Hin : forall r, r ∈ coalescedNodes a' <-> r = v \/ r ∈ coalescedNodes a).
  { intros r. by rewrite Hc, elem_of_union, elem_of_singleton. }
  assert (Hout : forall r, r ∉ coalescedNodes a' -> getAlias a' r = if decide (getAlias a r = v) then u else getAlias a r).
  { intros r Hr. rewrite (getAlias_self a' r Hr). rewrite Hin in Hr.
    assert (r <> v) by tauto. rewrite (getAlias_self a r), decide_False by tauto. done. }
  assert (Hgen : forall k r, (size (below a' r) < k)%nat ->
    getAlias a' r = if decide (getAlias a r = v) then u else getAlias a r).
  { induction k as [|k IH]; intros r Hk; [lia|].
    destruct (decide (r ∈ coalescedNodes a')) as [Hr|Hr]; [|by apply Hout].
    rewrite (getAlias_eq a' r Hok'), decide_True by done.
    destruct (Hok' r Hr) as (x & Hx & Hlx). rewrite Hx. cbn [from_option id].
    pose proof (below_lt a' x r Hr Hlx). rewrite IH by lia. rewrite Ha in Hx.
    destruct (decide (r = v)) as [->|Hne].
    - rewrite lookup_insert_eq in Hx. injection Hx as <-.
      rewrite (getAlias_self a u), (getAlias_self a v) by done. rewrite (decide_True (P := v = v)) by done.
      by case_decide.
    - rewrite lookup_insert_ne in Hx by done. apply Hin in Hr as [Hr|Hr]; [done|].
      rewrite (getAlias_eq a r Hok), (decide_True (P := r ∈ coalescedNodes a)), Hx by done. done. }
  intros r. apply (Hgen (Datatypes.S (size (below a' r)))). lia.
Qed.

(** ** Steps that extend the graph *)

Record grow_step (R : fact -> Prop) (a a' : Allocator) : Prop := {
  gs_core : core a' = core a;
  gs_moves : worklistMoves a' = worklistMoves a;
  gs_listed : forall r, listed a r -> listed a' r;
  gs_graph : adds (graph a) (graph a') R
}.

Lemma grow_iff (R R' : fact -> Prop) a a' : (forall o, R o <-> R' o) -> grow_step R a a' -> grow_step R' a a'.
Proof. intros HR []. split; [done..|]. by eapply adds_iff. Qed.

Lemma grow_trans R R' a1 a2 a3 :
  grow_step R a1 a2 -> grow_step R' a2 a3 -> grow_step (fun o => R o \/ R' o) a1 a3.
Proof. intros [] []. split; [congruence..|auto|]. by eapply adds_trans. Qed.

Lemma grow_refl a : grow_step (fun _ => False) a a.
Proof. split; [done..|]. apply adds_refl. Qed.

Lemma grow_list a a' : list_step a a' -> grow_step (fun _ => False) a a'.
Proof. intros [Hc Hg Hm Hl]. split; [done..|]. rewrite Hg. apply adds_refl. Qed.

Lemma grow_set_graph R a g : adds (graph a) g R -> grow_step R a (set_graph g a).
Proof. by split. Qed.

Section Combine.
  Context `{RangeOrder}.

(** A loop each round of which is such a step, as long as the core stays. *)
Lemma grow_for_set (s : RegSet) body (R : Z -> fact -> Prop) (st : nat * Allocator) :
  (forall k st', k ∈ s -> core st'.2 = core st.2 -> grow_step (R k) st'.2 (body k st').2) ->
  grow_step (fun o => exists k, k ∈ s /\ R k o) st.2 (for_set s body st).2.
Proof.
  intros Hb. unfold for_set, for_range. cbn [fst].
  assert (Hl : forall k u, (k, u) ∈ range st.1 (gset_to_gmap tt s) <-> k ∈ s).
  { intros k []. rewrite (range_perm st.1 _), elem_of_map_to_list, lookup_gset_to_gmap_Some. tauto. }
  set (l := range _ _) in *.
  eapply (grow_iff (fun o => exists ku, ku ∈ l /\ R ku.1 o)).
  { intros o. split.
    - intros ([k u] & Hk & HR). exists k. split; [by apply Hl in Hk|done].
    - intros (k & Hk & HR). exists (k, tt). split; [by apply Hl|done]. }
  assert (Hb' : forall ku st', ku ∈ l -> core st'.2 = core st.2 -> grow_step (R ku.1) st'.2 (body ku.1 st').2).
  { intros [k u] st' Hk. apply Hb. by apply Hl in Hk. }
  assert (Hgen : forall st', core st'.2 = core st.2 ->
    grow_step (fun o => exists ku, ku ∈ l /\ R ku.1 o) st'.2 (foldl (fun st kv => body kv.1 st) st' l).2).
  { clear Hl Hb. induction l as [|ku l IH]; intros st' Hc; cbn [foldl].
    - eapply grow_iff; [|apply grow_refl]. intros o. split; [done|]. intros (? & Hn & _). by apply not_elem_of_nil in Hn.
    - pose proof (Hb' ku st' ltac:(left) Hc) as H1.
      eapply grow_iff; [|eapply grow_trans; [exact H1|apply IH]].
      + intros o. setoid_rewrite elem_of_cons. naive_solver.
      + intros. apply Hb'; [by right|done].
      + by rewrite (gs_core _ _ _ H1). }
  by apply (Hgen (Datatypes.S st.1, st.2)).
Qed.

(** What [combine] adds to the graph. *)
Definition new_edges (a : Allocator) (u v : Z) (o : fact) : Prop :=
  exists n, n ∈ set_at (Edges (graph a)) v /\ n ∉ coalescedNodes a /\ n <> u /\ edge_facts u n o.
Definition new_prefs (a : Allocator) (u v : Z) (o : fact) : Prop :=
  exists n, n ∈ set_at (Preferences (graph a)) v /\ n <> u /\ pref_facts u n o.

Lemma merge_edges_step u v st : grow_step (new_edges st.2 u v) st.2 (merge_edges u v st).2.
Proof.
  eapply grow_iff; [|apply (grow_for_set _ _ (fun n o =>
    n ∉ coalescedNodes st.2 /\ n <> u /\ edge_facts u n o))].
  { intros o. unfold new_edges. naive_solver. }
  intros n [t a] Hn Hc. cbn [snd] in *. assert (Hco : coalescedNodes a = coalescedNodes st.2) by (unfold core in Hc; congruence).
  rewrite <- Hco. case_decide as Hd.
  - eapply grow_iff; [|eapply grow_trans; [apply grow_set_graph, adds_AddEdge|apply grow_list, decrementDegree_step]].
    intros o. tauto.
  - eapply grow_iff; [|apply grow_refl]. intros o. tauto.
Qed.

Lemma merge_preferences_step u v st : grow_step (new_prefs st.2 u v) st.2 (merge_preferences u v st).2.
Proof.
  eapply grow_iff; [|apply (grow_for_set _ _ (fun n o => n <> u /\ pref_facts u n o))].
  { intros o. unfold new_prefs. naive_solver. }
  intros n [t a] Hn Hc. cbn [snd] in *. case_decide as Hd.
  - eapply grow_iff; [|apply grow_set_graph, adds_AddPreference]. intros o. tauto.
  - eapply grow_iff; [|apply grow_refl]. intros o. tauto.
Qed.
End Combine.

#[local] Arguments push : simpl never.
#[local] Arguments pop : simpl never.

Abbreviation adj g x y := (y ∈ set_at (Edges g) x) (only parsing).
Abbreviation pref g x y := (y ∈ set_at (Preferences g) x) (only parsing).

(** What [combine] does: [v] is represented by [u], to which its edges, its
    preferences and its calls pass. *)
Record combined (u v : Z) (a a' : Allocator) : Prop := {
  cb_coalesced : coalescedNodes a' = {[v]} ∪ coalescedNodes a;
  cb_alias : alias a' = <[v := u]> (alias a);
  cb_stack : (selectStack a', onSelectStack a') = (selectStack a, onSelectStack a);
  cb_colors : (precoloredParams a', colors a', coloredNodes a', spilledNodes a', spillSlot a', nextSpillSlot a') =
    (precoloredParams a, colors a, coloredNodes a, spilledNodes a, spillSlot a, nextSpillSlot a);
  cb_moves : worklistMoves a' = worklistMoves a;
  cb_listed : forall r, listed a r -> listed a' r;
  cb_graph : adds (graph a) (graph a') (fun o =>
    (v ∈ LiveAcrossCalls (graph a) /\ o = FAcross u) \/
    (exists n, adj (graph a) v n /\ n <> v /\ n ∉ coalescedNodes a /\ n <> u /\ edge_facts u n o) \/
    (exists n, pref (graph a) v n /\ n <> u /\ pref_facts u n o))
}.

(** Its graph, relation by relation. *)
Section CombinedGraph.
  Context (u v : Z) (a a' : Allocator) (Cg : adds (graph a) (graph a') (fun o =>
    (v ∈ LiveAcrossCalls (graph a) /\ o = FAcross u) \/
    (exists n, adj (graph a) v n /\ n <> v /\ n ∉ coalescedNodes a /\ n <> u /\ edge_facts u n o) \/
    (exists n, pref (graph a) v n /\ n <> u /\ pref_facts u n o))).

Lemma combined_adj x y : adj (graph a') x y <-> adj (graph a) x y \/
  exists n, adj (graph a) v n /\ n <> v /\ n ∉ coalescedNodes a /\ n <> u /\ ((x = u /\ y = n) \/ (x = n /\ y = u)).
Proof using Cg.
  pose proof (Cg (FEdge x y)) as E. cbn [sees] in E. rewrite E. clear E. unfold edge_facts, pref_facts. split.
  - intros [?|[[_ ?]|[(n & H1 & H2 & H3 & H4 & Hn & Hf)|(n & _ & _ & _ & Hf)]]]; [by left|done| |naive_solver].
    right. exists n. naive_solver.
  - intros [?|(n & ? & ? & ? & ? & Hxy)]; [by left|]. right. right. left. exists n. naive_solver.
Qed.

Lemma combined_pref x y : pref (graph a') x y <-> pref (graph a) x y \/
  exists n, pref (graph a) v n /\ n <> u /\ ((x = u /\ y = n) \/ (x = n /\ y = u)).
Proof using Cg.
  pose proof (Cg (FPref x y)) as E. cbn [sees] in E. rewrite E. clear E. unfold edge_facts, pref_facts. split.
  - intros [?|[[_ ?]|[(n & H1 & H2 & H3 & H4 & Hn & Hf)|(n & H1 & H2 & Hn & Hf)]]]; [by left|done|naive_solver|].
    right. exists n. naive_solver.
  - intros [?|(n & ? & ? & Hxy)]; [by left|]. do 3 right. exists n. naive_solver.
Qed.

Lemma combined_across x : x ∈ LiveAcrossCalls (graph a') <->
  x ∈ LiveAcrossCalls (graph a) \/ (v ∈ LiveAcrossCalls (graph a) /\ x = u).
Proof using Cg.
  pose proof (Cg (FAcross x)) as E. cbn [sees] in E. rewrite E. clear E. unfold edge_facts, pref_facts. naive_solver.
Qed.
End CombinedGraph.

Section Combine.
  Context `{RangeOrder}.

Lemma combine_spec u v t a : u <> v -> combined u v a (combine u v (t, a)).2.
Proof.
  intros Hne. unfold combine.
  set (a1 := set_alias _ _). set (a2 := if decide _ then _ else a1).
  assert (H1 : core a2 = core a1 /\ worklistMoves a2 = worklistMoves a /\ (forall r, listed a r -> listed a2 r)).
  { assert (Hl : forall r, listed a r -> listed a1 r).
    { intros r. unfold listed. cbn. destruct (decide (r = v)) as [->|Hr]; [set_solver|].
      rewrite !remove_first_other by done. set_solver. }
    by unfold a2; case_decide. }
  assert (HE : Edges (graph a2) = Edges (graph a) /\ Preferences (graph a2) = Preferences (graph a))
    by (unfold a2; by case_decide).
  assert (HA : adds (graph a) (graph a2) (fun o => v ∈ LiveAcrossCalls (graph a) /\ o = FAcross u)).
  { unfold a2. change (graph a1) with (graph a). case_decide as Hv.
    - eapply adds_iff; [|apply adds_AddLiveAcross]. tauto.
    - eapply adds_iff; [|apply adds_refl]. tauto. }
  clearbody a2. destruct H1 as (Hcore & Hmoves & Hlisted), HE as [HE HP].
  pose proof (merge_edges_step u v (t, a2)) as S1.
  pose proof (merge_preferences_step u v (merge_edges u v (t, a2))) as S2.
  set (st3 := merge_edges u v (t, a2)) in *. destruct st3 as [t3 a3].
  assert (HP3 : forall n, pref (graph a3) v n <-> pref (graph a) v n).
  { intros n. change (sees (graph a3) (FPref v n) <-> n ∈ set_at (Preferences (graph a)) v).
    rewrite (gs_graph _ _ _ S1 (FPref v n)). cbn [sees snd]. rewrite HP. split; [|by left].
    intros [?|(k & _ & _ & _ & _ & Hf)]; [done|]. by destruct Hf as [?|[?|[?|?]]]. }
  pose proof (grow_trans _ _ _ _ _ S1 S2) as S. clear S1 S2. destruct (merge_preferences u v (t3, a3)) as [t4 a4].
  cbn [snd] in S. destruct S as [Sc Sm Sl Sg]. rewrite Hcore in Sc.
  set (a5 := (if _ : bool then _ else _)).
  assert (H5 : core a5.2 = core a1 /\ worklistMoves a5.2 = worklistMoves a4 /\
    (forall r, listed a4 r -> listed a5.2 r) /\ graph a5.2 = graph a4).
  { unfold a5. destruct (K <=? degree a4 u)%nat; [|done]. repeat (split; [done|]). split; [|done].
    intros r. unfold listed. cbn. rewrite elem_of_push. destruct (decide (r = u)) as [->|Hr]; [tauto|].
    rewrite remove_first_other by done. tauto. }
  clearbody a5. destruct H5 as (Hc5 & Hm5 & Hl5 & Hg5). unfold core in Hc5.
  injection Hc5 as Hco5 Hal5 Hs1 Hs2 Hp1 Hp2 Hp3 Hp4 Hp5 Hp6. split.
  - exact Hco5.
  - exact Hal5.
  - by rewrite Hs1, Hs2.
  - by rewrite Hp1, Hp2, Hp3, Hp4, Hp5, Hp6.
  - by rewrite Hm5, Sm.
  - auto.
  - rewrite Hg5. eapply adds_iff; [|eapply adds_trans; [exact HA|exact Sg]].
    assert (Hco : coalescedNodes a2 = {[v]} ∪ coalescedNodes a) by (unfold core in Hcore; by injection Hcore).
    intros o. unfold new_edges, new_prefs. cbn [snd]. rewrite HE, Hco. setoid_rewrite HP3.
    setoid_rewrite not_elem_of_union. setoid_rewrite not_elem_of_singleton. clear.
    split; [intros [?|[(n & ?)|?]]|intros [?|[(n & ?)|?]]]; eauto 8; right; left; exists n; tauto.
Qed.
End Combine.

Section Invariant.
  Context `{RangeOrder} (a0 : Allocator).

Let g0 := graph a0.

(** A parameter with a fixed location, and a register that interferes with all
    others. *)
Definition fixed (p : Z) : Prop := is_Some (precoloredParams a0 !! p).
Definition full (p : Z) : Prop := forall x, x ∈ Nodes (graph a0) -> x <> p -> adj (graph a0) p x.

(** The colouring part of the state, which the main loop does not touch. *)
Definition coloring (a : Allocator) :=
  (precoloredParams a, colors a, coloredNodes a, spilledNodes a, spillSlot a, nextSpillSlot a).

Record inv (a : Allocator) : Prop := {
  iv_alias : alias_ok a;
  iv_nodes : forall r, r ∈ Nodes g0 -> getAlias a r ∈ Nodes g0;
  iv_coalesced : forall r, r ∈ coalescedNodes a -> r ∈ Nodes g0;
  iv_sym : forall x y, adj (graph a) x y -> adj (graph a) y x;
  iv_irr : forall x, ~ adj (graph a) x x;
  iv_adj : forall x y, adj (graph a) x y -> adj (graph a) (getAlias a x) (getAlias a y);
  iv_kept : forall x y, adj g0 x y -> adj (graph a) x y;
  iv_psym : forall x y, pref (graph a) x y -> pref (graph a) y x;
  iv_across : forall x, x ∈ LiveAcrossCalls (graph a) -> getAlias a x ∈ LiveAcrossCalls (graph a);
  iv_across_kept : forall x, x ∈ LiveAcrossCalls g0 -> x ∈ LiveAcrossCalls (graph a);
  iv_moves : forall m, m ∈ worklistMoves a -> m ∈ worklistMoves a0;
  iv_fixed : forall p, fixed p ->
    p ∉ coalescedNodes a /\ (forall r, getAlias a r = p -> r = p) /\
    (p ∈ LiveAcrossCalls (graph a) -> p ∈ LiveAcrossCalls g0);
  iv_listed : forall r, r ∈ Nodes g0 -> ~ fixed r -> listed a r;
  iv_stack : forall r, r ∈ selectStack a <-> r ∈ onSelectStack a;
  iv_coloring : coloring a = coloring a0
}.

(** Moves are between registers of the graph; a parameter with a fixed location
    that occurs in one interferes with everything else. *)
Hypothesis moves_nodes : forall m, m ∈ worklistMoves a0 -> m.1 ∈ Nodes g0 /\ m.2 ∈ Nodes g0.
Hypothesis moves_full : forall m p, m ∈ worklistMoves a0 -> p = m.1 \/ p = m.2 -> fixed p -> full p.

(** What the invariant depends on. *)
Lemma inv_same a a' : coalescedNodes a' = coalescedNodes a -> alias a' = alias a -> graph a' = graph a ->
  (forall m, m ∈ worklistMoves a' -> m ∈ worklistMoves a) -> (forall r, listed a r -> listed a' r) ->
  (forall r, r ∈ selectStack a' <-> r ∈ onSelectStack a') -> coloring a' = coloring a -> inv a -> inv a'.
Proof using Type.
  intros Hco Hal Hg Hm Hl Hs Hc [].
  assert (HA : forall r, getAlias a' r = getAlias a r) by (intros; by apply getAlias_core).
  split; rewrite ?Hg; try (intros *; rewrite ?HA; auto; fail); auto.
  - by apply (alias_ok_core a).
  - intros r. rewrite Hco. auto.
  - intros p Hp. rewrite Hco. destruct (iv_fixed0 p Hp) as (H1 & H2 & H3). split; [done|]. split; [|done].
    intros r. rewrite HA. auto.
  - congruence.
Qed.

Lemma inv_list a a' : list_step a a' -> inv a -> inv a'.
Proof using Type.
  intros [Hc Hg Hm Hl] Hi. unfold core in Hc. injection Hc as Hco Hal Hs1 Hs2 Hp1 Hp2 Hp3 Hp4 Hp5 Hp6.
  apply (inv_same a); [done|done|done|by rewrite Hm|done| | |done].
  - rewrite Hs1, Hs2. apply (iv_stack a Hi).
  - unfold coloring. by rewrite Hp1, Hp2, Hp3, Hp4, Hp5, Hp6.
Qed.

Lemma inv_for_set (s : RegSet) body st :
  (forall k st', k ∈ s -> inv st'.2 -> inv (body k st').2) -> inv st.2 -> inv (for_set s body st).2.
Proof using Type. intros Hb Hi. apply for_set_inv; [done|]. intros k t a Hk. apply (Hb k (t, a) Hk). Qed.

Lemma inv_simplify st : inv st.2 -> inv (simplify st).2.
Proof using Type.
  destruct st as [t a]. cbn [snd]. intros Hi. unfold simplify. destruct (last (simplifyWorklist a)) as [r|] eqn:Hr; [|done].
  apply inv_for_set; [intros k st' _; apply inv_list, decrementDegree_step|]. cbn [snd].
  apply (inv_same a); [done..|done| | |done|done].
  - intros x. unfold listed. cbn. rewrite elem_of_push, (elem_of_pop _ _ x Hr). tauto.
  - intros x. cbn. rewrite elem_of_push, elem_of_union, elem_of_singleton, (iv_stack a Hi). tauto.
Qed.

(** Both sides of a move that can be coalesced are no parameters with a fixed
    location. *)
Lemma alias_not_fixed a m x u v : inv a -> m ∈ worklistMoves a ->
  (x = m.1 \/ x = m.2) -> u = getAlias a x -> v ∈ Nodes g0 -> u <> v -> ~ adj (graph a) u v -> ~ fixed u.
Proof using All.
  intros Hi Hm Hx Hu Hv Hne Hadj Hf. destruct (iv_fixed a Hi u Hf) as (_ & Ha & _).
  assert (u = x) as -> by (symmetry; by apply Ha).
  apply Hadj, (iv_kept a Hi). apply (moves_full m x); [by apply (iv_moves a Hi)|naive_solver|done|done|done].
Qed.

Lemma inv_combined u v a a' : u < v -> u ∈ Nodes g0 -> v ∈ Nodes g0 ->
  u ∉ coalescedNodes a -> v ∉ coalescedNodes a -> ~ fixed u -> ~ fixed v -> ~ adj (graph a) u v ->
  combined u v a a' -> inv a -> inv a'.
Proof using All.
  intros Hlt Hun Hvn Hu Hv Hfu Hfv Hadj [Cco Cal Cst Ccol Cmv Cl Cg] Hi.
  destruct (getAlias_combine a a' u v (iv_alias a Hi) Hu Hv Hlt Cco Cal) as [Hok HA].
  pose proof Hi as []. injection Cst as Cs1 Cs2.
  assert (Hroot : forall r, getAlias a r ∉ coalescedNodes a) by (intros; by apply getAlias_root).
  pose proof (combined_adj u v a a' Cg) as HE. pose proof (combined_pref u v a a' Cg) as HP.
  pose proof (combined_across u v a a' Cg) as HL.
  clear Cg. split.
  - done.
  - intros r Hr. rewrite HA. case_decide; auto.
  - intros r. rewrite Cco, elem_of_union, elem_of_singleton. intros [->|?]; auto.
  - intros x y. rewrite !HE. intros [?|(n & ? & ? & ? & ? & [[-> ->]|[-> ->]])]; [auto|right; exists n; tauto..].
  - intros x. rewrite HE. naive_solver.
  - intros x y Hxy. rewrite HE, !HA. apply HE in Hxy as [Hxy|(n & H1 & H2 & H3 & H4 & Hxy)].
    + apply iv_adj0 in Hxy. pose proof (Hroot x). pose proof (Hroot y).
      destruct (decide (getAlias a x = v)) as [E1|E1], (decide (getAlias a y = v)) as [E2|E2].
      * rewrite E1, E2 in Hxy. by apply iv_irr0 in Hxy.
      * right. rewrite E1 in Hxy. exists (getAlias a y). naive_solver.
      * right. rewrite E2 in Hxy. exists (getAlias a x). naive_solver.
      * by left.
    + right. exists n. rewrite <- (getAlias_self a n H3) in Hxy at 1 2.
      destruct Hxy as [[-> ->]|[-> ->]]; rewrite ?(getAlias_self a u Hu), ?(getAlias_self a n H3), ?(getAlias_self a n H3);
        rewrite (decide_False (P := u = v)), (decide_False (P := n = v)) by (done || lia); naive_solver.
  - intros x y Hxy. apply HE. auto.
  - intros x y. rewrite !HP. intros [?|(n & ? & ? & [[-> ->]|[-> ->]])]; [auto|right; exists n; tauto..].
  - intros x. rewrite !HL, HA. intros [Hx|[Hx ->]].
    + apply iv_across0 in Hx. case_decide as E; [rewrite E in Hx; by right|by left].
    + right. split; [done|]. rewrite (getAlias_self a u Hu). case_decide; [lia|done].
  - intros x Hx. apply HL. auto.
  - intros m. rewrite Cmv. auto.
  - intros p Hp. destruct (iv_fixed0 p Hp) as (F1 & F2 & F3). rewrite Cco, HL. split; [|split].
    + rewrite not_elem_of_union, not_elem_of_singleton. split; [by intros ->|done].
    + intros r. rewrite HA. case_decide; [by intros ->|apply F2].
    + intros [?|[_ ->]]; [auto|done].
  - auto.
  - intros r. by rewrite Cs1, Cs2.
  - unfold coloring. by rewrite Ccol.
Qed.
Lemma inv_moves_change a a' : graph a' = graph a -> core a' = core a ->
  (simplifyWorklist a', freezeWorklist a', spillWorklist a') = (simplifyWorklist a, freezeWorklist a, spillWorklist a) ->
  (forall m, m ∈ worklistMoves a' -> m ∈ worklistMoves a) -> inv a -> inv a'.
Proof using Type.
  intros Hg Hc Hl Hm Hi. unfold core in Hc. injection Hc as Hco Hal Hs1 Hs2 Hp1 Hp2 Hp3 Hp4 Hp5 Hp6.
  injection Hl as L1 L2 L3. apply (inv_same a); [done|done|done|done| | | |done].
  - intros r. unfold listed. by rewrite Hco, Hs1, L1, L2, L3.
  - rewrite Hs1, Hs2. apply (iv_stack a Hi).
  - unfold coloring. by rewrite Hp1, Hp2, Hp3, Hp4, Hp5, Hp6.
Qed.

Lemma inv_coalesce st : inv st.2 -> inv (coalesce st).2.
Proof using All.
  destruct st as [t a]. cbn [snd]. intros Hi. unfold coalesce.
  destruct (last (worklistMoves a)) as [m|] eqn:Hm; [|done].
  assert (Hin : m ∈ worklistMoves a) by (rewrite (elem_of_pop _ _ m Hm); by right).
  set (a1 := set_worklistMoves _ a).
  assert (Hpop : forall m', m' ∈ pop (worklistMoves a) -> m' ∈ worklistMoves a).
  { intros m' ?. rewrite (elem_of_pop _ _ m' Hm). by left. }
  assert (Hi1 : inv a1) by by apply (inv_moves_change a).
  assert (Hal : forall r, getAlias a1 r = getAlias a r) by (intros; by apply getAlias_core).
  rewrite !Hal.
  destruct (if getAlias a m.1 <? getAlias a m.2 then _ else _) as [u v] eqn:Euv.
  assert (Huv : (u = getAlias a m.1 /\ v = getAlias a m.2 \/ u = getAlias a m.2 /\ v = getAlias a m.1) /\ u <= v).
  { destruct (Z.ltb_spec (getAlias a m.1) (getAlias a m.2)); injection Euv as <- <-; lia || (split; [tauto|lia]). }
  destruct Huv as [Huv Hle]. clear Euv.
  destruct (Z.eqb_spec u v) as [->|Hne].
  { cbn [snd]. eapply inv_list; [apply addToWorklist_step|]. by apply (inv_moves_change a1). }
  destruct (HasEdge (graph a1) u v) eqn:He.
  { cbn [snd]. eapply inv_list; [apply addToWorklist_step|]. eapply inv_list; [apply addToWorklist_step|].
    by apply (inv_moves_change a1). }
  apply bool_decide_eq_false in He. change (graph a1) with (graph a) in He.
  destruct (conservativeCoalesce a1 u v); [|by apply (inv_moves_change a1)].
  set (a2 := set_coalescedMoves _ a1). assert (Hi2 : inv a2) by by apply (inv_moves_change a1).
  pose proof (combine_spec u v t a2 Hne) as Hc. destruct (combine u v (t, a2)) as [t' a3]. cbn [snd] in *.
  eapply inv_list; [apply addToWorklist_step|].
  destruct (moves_nodes m (iv_moves a Hi m Hin)) as [Hn1 Hn2].
  assert (Hu : u ∈ Nodes g0 /\ v ∈ Nodes g0 /\ u ∉ coalescedNodes a /\ v ∉ coalescedNodes a).
  { pose proof (iv_nodes a Hi _ Hn1). pose proof (iv_nodes a Hi _ Hn2).
    pose proof (getAlias_root a m.1 (iv_alias a Hi)). pose proof (getAlias_root a m.2 (iv_alias a Hi)).
    by destruct Huv as [[-> ->]|[-> ->]]. }
  destruct Hu as (Hu & Hv & Hcu & Hcv).
  apply (inv_combined u v a2); [lia|done|done|done|done| | |done|done|done].
  - destruct Huv as [[Eu _]|[Eu _]];
      [apply (alias_not_fixed a m m.1 u v)|apply (alias_not_fixed a m m.2 u v)]; auto.
  - assert (Hadj : ~ adj (graph a) v u) by (intros ?; by apply He, (iv_sym a Hi)).
    destruct Huv as [[_ Ev]|[_ Ev]];
      [apply (alias_not_fixed a m m.2 v u)|apply (alias_not_fixed a m m.1 v u)]; auto.
Qed.

Lemma inv_step st st' : alloc_step st = Some st' -> inv st.2 -> inv st'.2.
Proof using All.
  unfold alloc_step. intros Hs Hi.
  destruct (simplifyWorklist st.2); [|injection Hs as <-; by apply inv_simplify].
  destruct (worklistMoves st.2); [|injection Hs as <-; by apply inv_coalesce].
  destruct (freezeWorklist st.2); [|injection Hs as <-; by eapply inv_list; [apply freeze_step|]].
  destruct (spillWorklist st.2); [done|injection Hs as <-]. by eapply inv_list; [apply selectSpill_step|].
Qed.

(** When the loop ends, all registers are coloured next or represented by one
    that is. *)
Lemma inv_main_loop fuel st st' : main_loop fuel st = Some st' -> inv st.2 ->
  inv st'.2 /\ forall r, r ∈ Nodes g0 -> ~ fixed r -> r ∈ selectStack st'.2 \/ r ∈ coalescedNodes st'.2.
Proof using All.
  revert st. induction fuel as [|fuel IH]; intros st; [done|]. cbn [main_loop].
  destruct (alloc_step st) as [st1|] eqn:Hs; [intros ? ?; apply (IH st1); [done|by eapply inv_step]|].
  intros [= <-] Hi. split; [done|]. intros r Hr Hf. pose proof (iv_listed _ Hi r Hr Hf) as Hl. revert Hs Hl.
  unfold alloc_step, listed.
  destruct (simplifyWorklist st.2); [|done]. destruct (worklistMoves st.2); [|done].
  destruct (freezeWorklist st.2); [|done]. destruct (spillWorklist st.2); [|done].
  rewrite !elem_of_nil. tauto.
Qed.

(** ** The start *)

Lemma inv_start : alias_ok a0 -> coalescedNodes a0 = ∅ ->
  (forall x y, adj g0 x y -> adj g0 y x) -> (forall x, ~ adj g0 x x) -> (forall x y, pref g0 x y -> pref g0 y x) ->
  (forall r, r ∈ Nodes g0 -> ~ fixed r -> listed a0 r) -> (forall r, r ∈ selectStack a0 <-> r ∈ onSelectStack a0) ->
  inv a0.
Proof using Type.
  clear moves_nodes moves_full. intros Hok Hc Hsym Hirr Hps Hl Hs.
  assert (HA : forall r, getAlias a0 r = r) by (intros; apply getAlias_self; rewrite Hc; set_solver).
  split; auto; try (intros *; rewrite ?HA; auto; fail).
  - intros r. rewrite Hc. set_solver.
  - intros p Hp. rewrite Hc. split; [set_solver|]. split; [|done]. intros r. by rewrite HA.
Qed.
End Invariant.

(** The colour of a coloured register. *)
Definition color_of (a : Allocator) (r : Z) : nat := default 0%nat (colors a !! r).

Lemma elem_of_usedColors a r c :
  c ∈ usedColors a r <-> exists n, adj (graph a) r n /\ getAlias a n ∈ coloredNodes a /\ c = color_of a (getAlias a n).
Proof.
  unfold usedColors. rewrite elem_of_list_to_set, list_elem_of_omap. split.
  - intros (n & Hn%elem_of_elements & Hc). case_decide; [|done]. injection Hc as <-. eauto.
  - intros (n & Hn & Hc & ->). exists n. rewrite elem_of_elements. split; [done|]. by rewrite decide_True.
Qed.

Lemma free_color_spec a r c : free_color a r = Some c ->
  (c < K)%nat /\ c ∉ usedColors a r /\ (r ∈ LiveAcrossCalls (graph a) -> FirstCalleeSavedColor <= c)%nat.
Proof.
  unfold free_color. set (start := if decide _ then _ else _).
  destruct (list_find _ _) as [[i c']|] eqn:E; [|done]. cbn. intros [= ->].
  apply list_find_Some in E as (Hi & Hc & _). apply lookup_seq in Hi as [-> Hi]. split; [lia|]. split; [done|].
  intros Hr. unfold start. rewrite decide_True by done. lia.
Qed.

Section Color.
  Context (a : Allocator).

Let A := getAlias a.

(** The registers that stand for themselves. *)
Definition root (r : Z) : Prop := r ∉ coalescedNodes a.

(** While the stack is popped, with [k] slots in use. *)
Record color_inv (k : Z) (b : Allocator) : Prop := {
  ci_graph : graph b = graph a;
  ci_coalesced : coalescedNodes b = coalescedNodes a;
  ci_alias : alias b = alias a;
  ci_pre : precoloredParams b = precoloredParams a;
  ci_some : forall x, x ∈ coloredNodes b -> exists c, colors b !! x = Some c /\ (c < K)%nat;
  ci_diff : forall x y, root x -> root y -> adj (graph a) x y -> x ∈ coloredNodes b -> y ∈ coloredNodes b ->
    color_of b x <> color_of b y;
  ci_across : forall x, x ∈ LiveAcrossCalls (graph a) -> x ∈ coloredNodes b -> (FirstCalleeSavedColor <= color_of b x)%nat;
  ci_next : nextSpillSlot b = 8 * k;
  ci_slot : forall x, x ∈ spilledNodes b -> exists j, spillSlot b !! x = Some (8 * j) /\ 0 <= j < k;
  ci_inj : forall x y s, x ∈ spilledNodes b -> y ∈ spilledNodes b ->
    spillSlot b !! x = Some s -> spillSlot b !! y = Some s -> x = y
}.

Lemma ci_getAlias k b r : color_inv k b -> getAlias b r = A r.
Proof. intros []. by apply getAlias_core. Qed.

Hypothesis sym : forall x y, adj (graph a) x y -> adj (graph a) y x.
Hypothesis irr : forall x, ~ adj (graph a) x x.

Lemma assign_color_inv k b r : 0 <= k -> k + 1 < 2 ^ 60 -> color_inv k b ->
  exists k', k <= k' <= k + 1 /\ color_inv k' (assign_color b r) /\
    (r ∈ coloredNodes (assign_color b r) \/ r ∈ spilledNodes (assign_color b r)) /\
    coloredNodes b ⊆ coloredNodes (assign_color b r) /\ spilledNodes b ⊆ spilledNodes (assign_color b r).
Proof using sym irr.
  intros Hk Hk1 Hc. unfold assign_color. destruct (free_color b r) as [c|] eqn:E.
  - apply free_color_spec in E as (Hlt & Hfree & Hacross). exists k. split; [lia|].
    rewrite (ci_graph k b Hc) in Hacross. rewrite elem_of_usedColors in Hfree.
    setoid_rewrite (ci_getAlias k b _ Hc) in Hfree. rewrite (ci_graph k b Hc) in Hfree.
    assert (Hnew : forall y, root y -> adj (graph a) r y -> y ∈ coloredNodes b -> c <> color_of b y).
    { intros y Hy Hadj Hcy ->. apply Hfree. exists y. unfold A. rewrite (getAlias_self a y Hy). done. }
    destruct Hc. split; [|cbn; set_solver]. split; cbn; try done.
    + intros x. rewrite elem_of_union, elem_of_singleton, lookup_insert. case_decide as Er; [eauto|].
      intros [?|?]; [congruence|auto].
    + intros x y Hx Hy Hadj. unfold color_of. cbn. rewrite !lookup_insert, !elem_of_union, !elem_of_singleton.
      intros Hcx Hcy. repeat case_decide; subst.
      * by apply irr in Hadj.
      * cbn. apply Hnew; [done|done|]. destruct Hcy; [congruence|done].
      * cbn. apply not_eq_sym, Hnew; [done|by apply sym|]. destruct Hcx; [congruence|done].
      * apply ci_diff0; [done..| |]; naive_solver.
    + intros x Hx. unfold color_of. cbn. rewrite lookup_insert, elem_of_union, elem_of_singleton.
      intros Hcx. case_decide; [subst; cbn; auto|]. apply ci_across0; [done|]. naive_solver.
  - destruct Hc. exists (k + 1). split; [lia|]. split; [|cbn; set_solver].
    split; cbn; try done.
    + rewrite ci_next0. rewrite i64_id; [lia|]. unfold in_i64. lia.
    + intros x. rewrite elem_of_union, elem_of_singleton, lookup_insert. case_decide.
      * intros _. exists k. rewrite ci_next0. split; [done|lia].
      * intros [?|Hx]; [congruence|]. destruct (ci_slot0 x Hx) as (j & ? & ?). exists j. split; [done|lia].
    + intros x y s. rewrite !elem_of_union, !elem_of_singleton, !lookup_insert, ci_next0.
      assert (Hfresh : forall z, z ∈ spilledNodes b -> spillSlot b !! z = Some (8 * k) -> False).
      { intros z Hz Hs. destruct (ci_slot0 z Hz) as (j & Hj & ?). rewrite Hj in Hs. injection Hs as Hs. lia. }
      repeat case_decide; subst; [done| | |].
      * intros _ [?|Hy] [= <-] Hs; [congruence|by destruct (Hfresh y)].
      * intros [?|Hx] _ Hs [= <-]; [congruence|by destruct (Hfresh x)].
      * intros [?|?] [?|?]; try congruence. eauto.
Qed.

(** The whole stack. *)
Lemma assign_colors_inv l k b : 0 <= k -> k + Z.of_nat (length l) < 2 ^ 60 -> color_inv k b ->
  exists k', color_inv k' (foldl assign_color b l) /\
    (forall r, r ∈ l -> r ∈ coloredNodes (foldl assign_color b l) \/ r ∈ spilledNodes (foldl assign_color b l)) /\
    coloredNodes b ⊆ coloredNodes (foldl assign_color b l) /\ spilledNodes b ⊆ spilledNodes (foldl assign_color b l).
Proof using sym irr.
  revert k b. induction l as [|r l IH]; intros k b Hk Hl Hc; cbn [foldl].
  { exists k. split; [done|]. split; [|done]. intros r Hr. by apply not_elem_of_nil in Hr. }
  cbn [length] in Hl. destruct (assign_color_inv k b r ltac:(lia) ltac:(lia) Hc) as (k1 & Hk1 & Hc1 & Hr & Hs1 & Hs2).
  destruct (IH k1 (assign_color b r) ltac:(lia) ltac:(lia) Hc1) as (k2 & Hc2 & Hall & Hs3 & Hs4).
  exists k2. split; [done|]. split; [|set_solver].
  intros x [->|Hx]%elem_of_cons; [|auto]. destruct Hr; [left|right]; set_solver.
Qed.
End Color.

(** ** Coalesced registers *)

Lemma bool_decide_agree (P Q : Prop) `{Decision P, Decision Q} : bool_decide P = bool_decide Q -> (P <-> Q).
Proof. intros E. repeat case_bool_decide; done || tauto. Qed.

Lemma elem_union_self (r : Z) (s : RegSet) : bool_decide (r ∈ {[r]} ∪ s) = true.
Proof. apply bool_decide_true. set_solver. Qed.

Lemma elem_union_other (r x : Z) (s : RegSet) : x <> r -> bool_decide (x ∈ {[r]} ∪ s) = bool_decide (x ∈ s).
Proof. intros Hx. apply bool_decide_ext. set_solver. Qed.

Section Copy.
  Context `{RangeOrder} (b : Allocator).

(** The part of the state the copies leave alone, and a register whose entries
    are as before, or copied from its representative. *)
Definition copy_frame (a : Allocator) :=
  (graph a, coalescedNodes a, alias a, precoloredParams a, nextSpillSlot a).
Definition entries (a : Allocator) (r : Z) :=
  (bool_decide (r ∈ coloredNodes a), colors a !! r, (bool_decide (r ∈ spilledNodes a), spillSlot a !! r)).
Definition copied (c : Allocator) (r : Z) : Prop :=
  let al := getAlias b r in
  if decide (al ∈ coloredNodes b)
  then entries c r = (true, Some (color_of b al), (entries b r).2)
  else entries c r = ((entries b r).1, (true, Some (default 0 (spillSlot b !! al)))).

Hypothesis ok : alias_ok b.
Hypothesis placed : forall r, r ∈ coalescedNodes b -> getAlias b r ∈ coloredNodes b \/ getAlias b r ∈ spilledNodes b.

(** One copy. *)
Definition copying (c : Allocator) : Prop :=
  copy_frame c = copy_frame b /\ forall r, entries c r = entries b r \/ (r ∈ coalescedNodes b /\ copied c r).

Lemma copy_color_spec c r : copying c -> r ∈ coalescedNodes b ->
  copy_frame (copy_color c r) = copy_frame b /\ copied (copy_color c r) r /\
  forall x, x <> r -> entries (copy_color c r) x = entries c x.
Proof using ok placed.
  intros [Hf He] Hr.
  assert (Hal : getAlias c r = getAlias b r) by (apply getAlias_core; unfold copy_frame in Hf; congruence).
  destruct (He (getAlias b r)) as [Hel|[Hc _]]; [|by apply getAlias_root in Hc].
  unfold entries in Hel. injection Hel as E1 E2 E3 E4. apply bool_decide_agree in E1, E3.
  assert (Hr' : entries c r = entries b r \/ copied c r) by (destruct (He r); tauto).
  assert (Hpl := placed r Hr). unfold copy_color. rewrite Hal. unfold copied in *. case_decide as Ec.
  - rewrite (decide_True (P := _ ∈ coloredNodes c)) by tauto. split; [exact Hf|]. unfold color_of. rewrite E2. split.
    + destruct Hr' as [Hr'|Hr']; unfold entries in *; cbn in *; injection Hr' as R1 R2 R3 R4;
        by rewrite R3, R4, lookup_insert_eq, elem_union_self.
    + intros x Hx. unfold entries. cbn. rewrite lookup_insert_ne by done. do 2 f_equal. f_equal.
      by apply elem_union_other.
  - rewrite (decide_False (P := _ ∈ coloredNodes c)), (decide_True (P := _ ∈ spilledNodes c)) by tauto.
    split; [exact Hf|]. rewrite E4. split.
    + destruct Hr' as [Hr'|Hr']; unfold entries in *; cbn in *; injection Hr' as R1 R2 R3 R4;
        by rewrite R1, R2, lookup_insert_eq, elem_union_self.
    + intros x Hx. unfold entries. cbn. rewrite lookup_insert_ne by done. do 3 f_equal.
      by apply elem_union_other.
Qed.

Lemma copies_spec st : st.2 = b ->
  let c := (for_set (coalescedNodes b) (fun r st => (st.1, copy_color st.2 r)) st).2 in
  copy_frame c = copy_frame b /\
  forall r, if decide (r ∈ coalescedNodes b) then copied c r else entries c r = entries b r.
Proof using ok placed.
  intros Hst c.
  assert (Hs : forall c0 r, copying c0 -> r ∈ coalescedNodes b -> copying (copy_color c0 r) /\
    forall x, x = r \/ copied c0 x -> copied (copy_color c0 r) x).
  { intros c0 r Hc Hr. destruct (copy_color_spec c0 r Hc Hr) as (Hf & Hq & Ho).
    assert (Hk : forall x, x = r \/ copied c0 x -> copied (copy_color c0 r) x).
    { intros x Hx. destruct (decide (x = r)) as [->|Hne]; [done|]. destruct Hx as [?|Hx]; [done|].
      unfold copied in *. by rewrite (Ho x Hne). }
    split; [|done]. split; [done|]. intros x. destruct (decide (x = r)) as [->|Hne]; [auto|].
    rewrite (Ho x Hne). destruct Hc as [_ Hc]. destruct (Hc x) as [?|[? ?]]; [auto|]. right. auto. }
  destruct (for_set_spec (coalescedNodes b) (fun r st => (st.1, copy_color st.2 r)) copying (fun r c => copied c r) st)
    as [[Hf He] Hc].
  - rewrite Hst. split; auto.
  - intros r t c0 Hr Hc0. destruct (Hs c0 r Hc0 Hr) as [H1 H2]. auto.
  - intros r r' t c0 Hr Hr' Hc0 Hq. destruct (Hs c0 r' Hc0 Hr') as [H1 H2]. auto.
  - split; [done|]. intros r. case_decide as Hr; [auto|]. destruct (He r); tauto.
Qed.
End Copy.

(** ** The result *)

Section Result.
  Context `{RangeOrder}.

(** A loop that inserts under some keys of a set. *)
Lemma for_set_insert {V} (s : RegSet) (body : Z -> nat * gmap Z V -> nat * gmap Z V) (skip : Z -> bool)
    (f : Z -> option V) st k :
  (forall r t m, (body r (t, m)).2 = if skip r then m else match f r with Some l => <[r := l]> m | None => m end) ->
  (for_set s body st).2 !! k =
    if bool_decide (k ∈ s) && negb (skip k) then match f k with Some l => Some l | None => st.2 !! k end
    else st.2 !! k.
Proof.
  intros Hb. set (target := if bool_decide (k ∈ s) && negb (skip k) then _ else _).
  destruct (for_set_spec s body (fun m => m !! k = st.2 !! k \/ m !! k = target)
    (fun r m => r = k -> m !! k = target) st) as [HP HQ].
  - by left.
  - intros r t m Hr Hm. rewrite Hb. destruct (decide (r = k)) as [->|Hne].
    + unfold target in *. rewrite bool_decide_true in * by done. cbn [andb] in *.
      destruct (skip k); cbn [negb] in *; [naive_solver|].
      destruct (f k); [rewrite lookup_insert_eq; auto|naive_solver].
    + split; [|done]. destruct (skip r); [done|]. destruct (f r); [|done]. by rewrite lookup_insert_ne.
  - intros r r' t m Hr Hr' Hm Hq Hk. specialize (Hq Hk). rewrite Hb. destruct (decide (r' = k)) as [->|Hne].
    + subst r. unfold target in *. rewrite bool_decide_true in * by done. cbn [andb] in *.
      destruct (skip k); cbn [negb] in *; [done|]. destruct (f k); [by rewrite lookup_insert_eq|done].
    + destruct (skip r'); [done|]. destruct (f r'); [|done]. by rewrite lookup_insert_ne.
  - destruct (decide (k ∈ s)) as [Hk|Hk]; [by apply (HQ k)|]. unfold target in *.
    rewrite bool_decide_false in * by done. by destruct HP.
Qed.

Lemma buildResult_lookup st r :
  RegToLoc (buildResult st).2 !! r =
    match precoloredParams st.2 !! r with
    | Some l => Some l
    | None =>
        if decide (r ∈ spilledNodes st.2) then Some (Target.S SlotLocal (default 0 (spillSlot st.2 !! r)) Tlong)
        else if decide (r ∈ coloredNodes st.2) then Target.R <$> AllocatableIntRegs !! color_of st.2 r else None
    end.
Proof.
  destruct st as [t a]. cbn [snd]. unfold buildResult. cbn [RegToLoc snd].
  set (pre := fun x => bool_decide (is_Some (precoloredParams a !! x))).
  rewrite (for_set_insert _ _ pre (fun r => Some (Target.S SlotLocal (default 0 (spillSlot a !! r)) Tlong))).
  2:{ intros x t' m. cbn [snd]. unfold add_spilled, pre. by case_decide; [rewrite bool_decide_true|rewrite bool_decide_false]. }
  rewrite (for_set_insert _ _ pre (fun r => Target.R <$> AllocatableIntRegs !! color_of a r)).
  2:{ intros x t' m. cbn [snd]. unfold add_colored, pre, color_of.
      case_decide; [by rewrite bool_decide_true|rewrite bool_decide_false by done]. by destruct (AllocatableIntRegs !! _). }
  cbn [snd]. unfold pre. destruct (precoloredParams a !! r) as [l|] eqn:E.
  - rewrite (bool_decide_true (is_Some (Some l))) by (by exists l). cbn [negb]. by rewrite !andb_false_r.
  - rewrite (bool_decide_false (is_Some None)) by (by intros []). cbn [negb]. rewrite !andb_true_r.
    repeat case_bool_decide; repeat case_decide; try done; by destruct (AllocatableIntRegs !! _).
Qed.

Lemma buildResult_spilled st :
  SpilledRegs (buildResult st).2 = spilledNodes st.2 /\ StackSize (buildResult st).2 = nextSpillSlot st.2.
Proof. by destruct st. Qed.
End Result.

(** The parameters with a fixed location when the main loop starts: those in
    registers have the colours of these registers. *)
Record start_ok (a0 : Allocator) : Prop := {
  so_pre : forall p l, precoloredParams a0 !! p = Some l ->
    (exists i, (i < 8)%nat /\ l = Target.R (X (Z.of_nat i)) /\ p ∈ coloredNodes a0) \/
    (exists ofs, l = Target.S SlotIncoming ofs Tlong /\ p ∉ coloredNodes a0);
  so_colored : forall p, p ∈ coloredNodes a0 -> exists i, (i < 8)%nat /\
    precoloredParams a0 !! p = Some (Target.R (X (Z.of_nat i))) /\ colors a0 !! p = Some i;
  so_inj : forall p q l, precoloredParams a0 !! p = Some l -> precoloredParams a0 !! q = Some l -> p = q;
  so_spilled : spilledNodes a0 = ∅ /\ nextSpillSlot a0 = 0;
  so_across : forall p, fixed a0 p -> p ∉ LiveAcrossCalls (graph a0)
}.

Lemma alloc_reg i : (i < 8)%nat -> AllocatableIntRegs !! i = Some (X (Z.of_nat i)).
Proof. apply AllocatableIntRegs_spec. Qed.

Lemma alloc_lookup_inj i j m : AllocatableIntRegs !! i = Some m -> AllocatableIntRegs !! j = Some m -> i = j.
Proof. apply NoDup_lookup, AllocatableIntRegs_spec. Qed.

Lemma alloc_some c : (c < K)%nat -> exists m, AllocatableIntRegs !! c = Some m.
Proof. intros Hc. apply lookup_lt_is_Some. by destruct AllocatableIntRegs_spec as (_ & -> & _). Qed.

Lemma alloc_callee_saved c m : (FirstCalleeSavedColor <= c)%nat -> AllocatableIntRegs !! c = Some m ->
  Conventions.IsCalleeSaved m = true /\ X 19 <= m.
Proof.
  intros Hc Hm. assert (Hd : drop FirstCalleeSavedColor AllocatableIntRegs !! (c - FirstCalleeSavedColor)%nat = Some m).
  { rewrite lookup_drop. by replace (FirstCalleeSavedColor + (c - FirstCalleeSavedColor))%nat with c by lia. }
  destruct AllocatableIntRegs_spec as (_ & _ & E & _). rewrite E in Hd.
  apply list_elem_of_lookup_2 in Hd.
  assert (Hall : Forall (fun m => Conventions.IsCalleeSaved m = true /\ X 19 <= m) CalleeSavedRegs).
  { repeat constructor; vm_compute; congruence. }
  rewrite Forall_forall in Hall. by apply Hall.
Qed.

(** A location the allocator may choose: an allocatable register, a spill slot,
    or the stack slot in which the caller passed a parameter. *)
Definition well_placed (l : Loc) : bool :=
  match l with
  | Target.R m => bool_decide (m ∈ AllocatableIntRegs)
  | Target.S SlotLocal _ Tlong | Target.S SlotIncoming _ Tlong => true
  | _ => false
  end.

Section Result.
  Context `{RangeOrder} (a0 : Allocator) (t : nat) (a : Allocator).
  Context (so : start_ok a0) (Hi : inv a0 a).
  Context (Hdone : forall r, r ∈ Nodes (graph a0) -> ~ fixed a0 r -> r ∈ selectStack a \/ r ∈ coalescedNodes a).
  Context (Hstack : Z.of_nat (length (selectStack a)) < 2 ^ 60).

Let A := getAlias a.
Let b := color_stack a.

(** The colours of the parameters that matter are those of their registers when
    the select stack has been popped. *)
Context (matters : Z -> Prop) (Hstay : forall p i, matters p -> p ∈ Nodes (graph a0) ->
  precoloredParams a0 !! p = Some (Target.R (X (Z.of_nat i))) -> color_of b p = i).

Lemma coloring_start : precoloredParams a = precoloredParams a0 /\ colors a = colors a0 /\
  coloredNodes a = coloredNodes a0 /\ spilledNodes a = ∅ /\ nextSpillSlot a = 0.
Proof using so Hi.
  pose proof (iv_coloring _ _ Hi) as Hc. unfold coloring in Hc. injection Hc as H1 H2 H3 H4 H5 H6.
  destruct (so_spilled _ so). by rewrite H4, H6.
Qed.

Lemma color_inv_start : color_inv a 0 a.
Proof using so Hi.
  destruct coloring_start as (Hp & Hc & Hn & Hs & Hx). split; try done; rewrite ?Hn, ?Hs.
  - intros x Hx'. apply (so_colored _ so) in Hx' as (i & Hlt & _ & Hc'). exists i. rewrite Hc. split; [done|].
    unfold NumAllocatableIntRegs. lia.
  - intros x y _ _ Hadj Hcx Hcy. apply (so_colored _ so) in Hcx as (i & _ & Hpx & Hcx), Hcy as (j & _ & Hpy & Hcy).
    unfold color_of. rewrite Hc, Hcx, Hcy. cbn. intros <-. assert (x = y) as -> by (by eapply (so_inj _ so)).
    by apply (iv_irr _ _ Hi) in Hadj.
  - intros x Hx' Hcx. apply (so_colored _ so) in Hcx as (i & _ & Hpx & _).
    assert (Hf : fixed a0 x) by by eexists. exfalso. apply (so_across _ so x Hf). by apply (iv_fixed _ _ Hi x Hf).
  - intros x Hx'. by apply not_elem_of_empty in Hx'.
  - intros x y s Hx'. by apply not_elem_of_empty in Hx'.
Qed.

Lemma color_stack_spec : exists k, color_inv a k b /\
  (forall r, r ∈ selectStack a -> r ∈ coloredNodes b \/ r ∈ spilledNodes b) /\ coloredNodes a0 ⊆ coloredNodes b.
Proof using so Hi Hstack.
  destruct (assign_colors_inv a (iv_sym _ _ Hi) (iv_irr _ _ Hi) (reverse (selectStack a)) 0 a) as (k & Hk & Hr & Hs & _).
  - done.
  - rewrite length_reverse. lia.
  - apply color_inv_start.
  - exists k. destruct coloring_start as (_ & _ & <- & _). unfold b, color_stack. split; [|split; [|exact Hs]].
    + destruct Hk. by split.
    + intros r Hin. apply Hr. by apply elem_of_reverse.
Qed.

Lemma root_placed r : r ∈ Nodes (graph a0) -> ~ fixed a0 r -> A r ∈ coloredNodes b \/ A r ∈ spilledNodes b.
Proof using so Hi Hstack Hdone.
  intros Hr Hf. destruct color_stack_spec as (k & _ & Hs & _). apply Hs.
  destruct (Hdone (A r)) as [?|Hc]; [by apply (iv_nodes _ _ Hi)| |done|].
  - intros Hfa. destruct (iv_fixed _ _ Hi _ Hfa) as (_ & Hself & _). apply Hf. by rewrite (Hself r eq_refl).
  - exfalso. by apply (getAlias_root a r (iv_alias _ _ Hi)).
Qed.

(** Where a register can be: with the colour of its representative, in a spill
    slot, or where its caller put it. *)
Inductive placed (r : Z) : Loc -> Prop :=
| pl_reg c m : A r ∈ coloredNodes b -> color_of b (A r) = c -> AllocatableIntRegs !! c = Some m -> placed r (Target.R m)
| pl_slot o s : o = r \/ o = A r -> o ∈ spilledNodes b -> spillSlot b !! o = Some s ->
    placed r (Target.S SlotLocal s Tlong)
| pl_arg ofs : precoloredParams a0 !! r = Some (Target.S SlotIncoming ofs Tlong) ->
    placed r (Target.S SlotIncoming ofs Tlong).

Lemma placed_diff x y lx ly : adj (graph a) x y -> placed x lx -> placed y ly -> lx <> ly.
Proof using so Hi Hstack.
  intros Hadj Hx Hy. destruct color_stack_spec as (k & Hc & _ & _).
  pose proof (iv_adj _ _ Hi x y Hadj) as HadjA.
  assert (HrA : forall r, root a (A r)) by (intros r; apply (getAlias_root a r (iv_alias _ _ Hi))).
  assert (HA : forall r, A (A r) = A r) by (intros r; apply getAlias_self, HrA).
  destruct Hx as [c m H1 H2 H3|o s H1 H2 H3|ofs H1], Hy as [c' m' H1' H2' H3'|o' s' H1' H2' H3'|ofs' H1']; try done.
  - intros [= ->]. subst c c'.
    apply (ci_diff a k b Hc (A x) (A y)); [done..|]. by eapply alloc_lookup_inj.
  - intros [= ->]. assert (o = o') as <- by (by eapply (ci_inj a k b Hc)).
    assert (A x = A y) as E.
    { destruct H1 as [->| ->], H1' as [E|E]; [by rewrite E|by rewrite E, HA|by rewrite <- E, HA|done]. }
    unfold A in E. rewrite E in HadjA. by apply (iv_irr _ _ Hi) in HadjA.
  - intros [= ->]. assert (x = y) as -> by (by eapply (so_inj _ so)). by apply (iv_irr _ _ Hi) in Hadj.
Qed.

(** A register that is live across a call is in a callee-saved register or in a
    slot. *)
Lemma placed_across x l : x ∈ LiveAcrossCalls (graph a0) -> placed x l ->
  (exists m, l = Target.R m /\ Conventions.IsCalleeSaved m = true /\ X 19 <= m) \/
  (exists s, l = Target.S SlotLocal s Tlong).
Proof using so Hi Hstack.
  intros Hx Hp. destruct color_stack_spec as (k & Hc & _ & _).
  pose proof (iv_across _ _ Hi _ (iv_across_kept _ _ Hi _ Hx)) as Hx'.
  destruct Hp as [c m H1 H2 H3|o s H1 H2 H3|ofs H1]; [left|right; eauto|].
  - exists m. split; [done|]. subst c. eapply alloc_callee_saved; [|exact H3]. by apply (ci_across a k b Hc).
  - exfalso. apply (so_across _ so x); [by eexists|exact Hx].
Qed.

(** ** The locations of the result *)

Let c := (assignColors (t, a)).2.

Lemma copies : copy_frame c = copy_frame b /\
  forall r, if decide (r ∈ coalescedNodes a) then copied b c r else entries c r = entries b r.
Proof using so Hi Hstack Hdone.
  destruct color_stack_spec as (k & Hc & _ & _).
  assert (Hal : forall r, getAlias b r = A r) by (intros r; by apply (ci_getAlias a k b r)).
  assert (Hco : coalescedNodes a = coalescedNodes b) by (symmetry; apply (ci_coalesced _ _ _ Hc)).
  rewrite Hco. apply copies_spec; [|..|done].
  - apply (alias_ok_core a); [apply (ci_coalesced _ _ _ Hc)|apply (ci_alias _ _ _ Hc)|apply (iv_alias _ _ Hi)].
  - intros r Hr. rewrite Hal. rewrite <- Hco in Hr. apply root_placed; [by apply (iv_coalesced _ _ Hi)|].
    intros Hf. by apply (iv_fixed _ _ Hi r Hf).
Qed.

Lemma result_pre : precoloredParams c = precoloredParams a0.
Proof using so Hi Hstack Hdone.
  destruct copies as [Hf _], color_stack_spec as (k & Hc & _), coloring_start as [Hp _].
  unfold copy_frame in Hf. injection Hf as _ _ _ Hf _. 
  transitivity (precoloredParams b); [exact Hf|]. transitivity (precoloredParams a); [exact (ci_pre a k b Hc)|done].
Qed.

Let res := (buildResult (assignColors (t, a))).2.

Lemma fixed_located p l : precoloredParams a0 !! p = Some l -> loc_of res p = l.
Proof using so Hi Hstack Hdone.
  intros Hp. unfold loc_of, res. rewrite buildResult_lookup. fold c. by rewrite result_pre, Hp.
Qed.

(** The entries of the final state, in terms of the state after popping. *)
Lemma final_colored r : r ∈ Nodes (graph a0) -> ~ fixed a0 r ->
  (r ∈ spilledNodes c -> exists o, (o = r \/ o = A r) /\ o ∈ spilledNodes b /\ spillSlot c !! r = Some (default 0 (spillSlot b !! o))) /\
  (r ∉ spilledNodes c -> r ∈ coloredNodes c /\ A r ∈ coloredNodes b /\ color_of c r = color_of b (A r)).
Proof using so Hi Hstack Hdone.
  intros Hr Hf. destruct copies as [_ He], color_stack_spec as (k & Hc & _ & _).
  assert (Hal : getAlias b r = A r) by (by apply (ci_getAlias a k b r)).
  assert (Hslot : forall o, o ∈ spilledNodes b -> spillSlot b !! o = Some (default 0 (spillSlot b !! o))).
  { intros o Ho. by destruct (ci_slot a k b Hc o Ho) as (j & -> & _). }
  pose proof (root_placed r Hr Hf) as Hpl. specialize (He r). unfold copied in He. rewrite Hal in He. unfold entries in He.
  case_decide as Hco; [case_decide as Hal'|]; injection He as E1 E2 E3 E4.
  - apply bool_decide_eq_true in E1. apply bool_decide_agree in E3. split.
    + intros Hs%E3. exists r. rewrite E4. auto.
    + intros _. split; [done|]. split; [done|]. unfold color_of at 1. by rewrite E2.
  - apply bool_decide_eq_true in E3. split; [|done]. intros _. exists (A r). rewrite E4. split; [auto|]. split; [|done].
    by destruct Hpl.
  - apply bool_decide_agree in E1, E3.
    assert (HA : A r = r) by (by apply getAlias_self). rewrite HA in *. split.
    + intros Hs%E3. exists r. rewrite E4. auto.
    + rewrite E3. intros Hs. destruct Hpl as [Hpl|?]; [|done]. split; [by apply E1|]. split; [done|].
      unfold color_of. by rewrite E2.
Qed.

Lemma free_located r : r ∈ Nodes (graph a0) -> ~ fixed a0 r -> placed r (loc_of res r).
Proof using so Hi Hstack Hdone.
  intros Hr Hf. destruct color_stack_spec as (k & Hc & _ & _).
  destruct (final_colored r Hr Hf) as [Hs Hcol]. unfold loc_of, res. rewrite buildResult_lookup. fold c.
  assert (Hp : precoloredParams a0 !! r = None) by (apply eq_None_not_Some; exact Hf).
  rewrite result_pre, Hp. destruct (decide (r ∈ spilledNodes c)) as [Hin|Hout].
  - destruct (Hs Hin) as (o & Ho & Hob & Hsl). destruct (ci_slot a k b Hc o Hob) as (j & Hj & _).
    rewrite Hj in Hsl. rewrite Hsl. by apply (pl_slot r o (8 * j)).
  - destruct (Hcol Hout) as (Hcc & Hcb & Hcol'). rewrite decide_True by done.
    destruct (ci_some a k b Hc (A r) Hcb) as (cl & Hcl & Hlt). destruct (alloc_some cl Hlt) as [m Hreg].
    assert (Hof : color_of b (A r) = cl) by (unfold color_of; by rewrite Hcl).
    rewrite Hcol', Hof, Hreg. by apply (pl_reg r cl m).
Qed.

(** Every register has a location of the right sort. *)
Lemma located_sort r : r ∈ Nodes (graph a0) -> well_placed (loc_of res r) = true.
Proof using so Hi Hstack Hdone.
  intros Hr. assert (Hreg : forall c m, AllocatableIntRegs !! c = Some m -> well_placed (Target.R m) = true).
  { intros cl m Hm. cbn. apply bool_decide_eq_true. by apply list_elem_of_lookup_2 in Hm. }
  destruct (precoloredParams a0 !! r) as [l|] eqn:Hp.
  - rewrite (fixed_located r l Hp). destruct (so_pre _ so r l Hp) as [(i & Hlt & -> & _)|(ofs & -> & _)]; [|done].
    by apply (Hreg i), alloc_reg.
  - destruct (free_located r Hr) as [cl m _ _ Hm|o s _ _ _|ofs _]; [|by eapply Hreg|done|done]. intros [l Hl]. congruence.
Qed.

(** Every register is placed; parameters with a fixed location must matter. *)
Lemma located r : r ∈ Nodes (graph a0) -> (fixed a0 r -> matters r) -> placed r (loc_of res r).
Proof using All.
  intros Hr Hm. destruct color_stack_spec as (k & Hc & _ & Hkept).
  destruct (precoloredParams a0 !! r) as [l|] eqn:Hp.
  - rewrite (fixed_located r l Hp). assert (Hf : fixed a0 r) by by eexists.
    destruct (so_pre _ so r l Hp) as [(i & Hlt & -> & Hcol)|(ofs & -> & _)]; [|by apply pl_arg].
    assert (HA : A r = r) by (apply getAlias_self; by apply (iv_fixed _ _ Hi r Hf)).
    apply (pl_reg r i); [rewrite HA; by apply Hkept| |by apply alloc_reg].
    rewrite HA. by apply Hstay; [apply Hm| |].
  - apply free_located; [done|]. intros [l Hl]. congruence.
Qed.
End Result.

(** ** Colours that stay *)

Lemma assign_color_other b r p : p <> r ->
  (p ∈ coloredNodes (assign_color b r) <-> p ∈ coloredNodes b) /\ color_of (assign_color b r) p = color_of b p.
Proof.
  intros Hp. unfold assign_color, color_of. destruct (free_color b r); cbn; [|done].
  rewrite lookup_insert_ne by done. split; [set_solver|done].
Qed.

Lemma color_stack_other a p : p ∉ selectStack a -> color_of (color_stack a) p = color_of a p.
Proof.
  intros Hp. unfold color_stack. change (color_of (foldl assign_color a (reverse (selectStack a))) p = color_of a p).
  assert (Hr : p ∉ reverse (selectStack a)) by (by rewrite elem_of_reverse). revert Hr.
  generalize (reverse (selectStack a)). clear Hp. intros l. revert a. induction l as [|r l IH]; intros a Hr; [done|].
  cbn [foldl]. apply not_elem_of_cons in Hr as [Hne Hr]. rewrite IH by done. by apply assign_color_other.
Qed.

Section Stay.
  Context (a0 : Allocator) (a : Allocator) (so : start_ok a0) (Hi : inv a0 a).

Lemma start_color p i : precoloredParams a0 !! p = Some (Target.R (X (Z.of_nat i))) ->
  p ∈ coloredNodes a0 /\ color_of a p = i.
Proof using so Hi.
  intros Hp. destruct (so_pre _ so p _ Hp) as [(j & _ & _ & Hc)|(ofs & ? & _)]; [|done]. split; [done|].
  destruct (so_colored _ so p Hc) as (j' & _ & Hj & Hcol). rewrite Hp in Hj. injection Hj as Hj. unfold X in Hj.
  destruct (coloring_start a0 a so Hi) as (_ & Ecol & _). unfold color_of. rewrite Ecol, Hcol. cbn. lia.
Qed.

(** A parameter that never gets on the select stack. *)
Lemma unstacked_stays p i : precoloredParams a0 !! p = Some (Target.R (X (Z.of_nat i))) -> p ∉ selectStack a ->
  color_of (color_stack a) p = i.
Proof using so Hi. intros Hp Hs. rewrite color_stack_other by done. by apply start_color. Qed.

(** Parameters that interfere with everything and take the first argument
    registers: popped again, they find the colours below their own taken. *)
Context (matters : Z -> Prop).
Context (Hfull : forall p, matters p -> fixed a0 p -> full a0 p /\ p ∈ Nodes (graph a0)).
Context (Hlead : forall p i j, matters p -> precoloredParams a0 !! p = Some (Target.R (X (Z.of_nat i))) -> (j < i)%nat ->
  exists q, matters q /\ precoloredParams a0 !! q = Some (Target.R (X (Z.of_nat j)))).

Definition staying (b : Allocator) : Prop := forall p i, matters p ->
  precoloredParams a0 !! p = Some (Target.R (X (Z.of_nat i))) -> p ∈ coloredNodes b /\ color_of b p = i.

Lemma staying_adj p q i j : matters p -> matters q -> i <> j ->
  precoloredParams a0 !! p = Some (Target.R (X (Z.of_nat i))) -> precoloredParams a0 !! q = Some (Target.R (X (Z.of_nat j))) ->
  adj (graph a) p q.
Proof using Hi Hfull.
  intros Hp Hq Hne Hpi Hqj. apply (iv_kept _ _ Hi). apply (Hfull p Hp); [by eexists|by apply (Hfull q Hq); eexists|].
  intros ->. rewrite Hpi in Hqj. injection Hqj as E. unfold X in E. lia.
Qed.

Lemma staying_free k b r i : color_inv a k b -> staying b -> matters r ->
  precoloredParams a0 !! r = Some (Target.R (X (Z.of_nat i))) -> free_color b r = Some i.
Proof using so Hi Hfull Hlead.
  intros Hc Hs Hr Hp. assert (Hf : fixed a0 r) by by eexists.
  destruct (iv_fixed _ _ Hi r Hf) as (Hroot & _ & Hla).
  assert (Hstart : r ∉ LiveAcrossCalls (graph b)).
  { rewrite (ci_graph _ _ _ Hc). intros Hin. by apply (so_across _ so r Hf), Hla. }
  assert (Hlt : (i < 8)%nat).
  { destruct (so_pre _ so r _ Hp) as [(j & Hj & E & _)|(ofs & ? & _)]; [|done]. injection E as E. unfold X in E. lia. }
  assert (HA : forall q j, matters q -> precoloredParams a0 !! q = Some (Target.R (X (Z.of_nat j))) -> getAlias b q = q).
  { intros q j Hq Hqj. rewrite (ci_getAlias a k b q Hc). apply getAlias_self. apply (iv_fixed _ _ Hi q). by eexists. }
  unfold free_color. rewrite decide_False by done.
  assert (E : list_find (fun c => c ∉ usedColors b r) (seq 0 (K - 0)) = Some (i, i)); [|by rewrite E].
  apply list_find_Some. split; [apply lookup_seq; unfold NumAllocatableIntRegs; lia|]. split.
  - rewrite elem_of_usedColors. intros (n & Hn & Hcn & E). rewrite (ci_getAlias a k b n Hc) in Hcn, E.
    rewrite (ci_graph _ _ _ Hc) in Hn. destruct (Hs r i Hr Hp) as [Hcr Er].
    apply (iv_adj _ _ Hi) in Hn. rewrite (getAlias_self a r Hroot) in Hn.
    apply (ci_diff a k b Hc r (getAlias a n)); [done|by apply getAlias_root, (iv_alias _ _ Hi)|done|done|done|congruence].
  - intros j c Hj Hji. apply lookup_seq in Hj as [-> _]. cbn. intros Hu. apply Hu, elem_of_usedColors.
    destruct (Hlead r i j Hr Hp Hji) as (q & Hq & Hqj). exists q. rewrite (ci_graph _ _ _ Hc), (HA q j Hq Hqj).
    destruct (Hs q j Hq Hqj) as [Hcq Eq']. split; [|by split]. apply (staying_adj r q i j); [done|done|lia|done|done].
Qed.

Lemma leading_stays p i : Z.of_nat (length (selectStack a)) < 2 ^ 60 -> matters p ->
  precoloredParams a0 !! p = Some (Target.R (X (Z.of_nat i))) -> color_of (color_stack a) p = i.
Proof using so Hi Hfull Hlead.
  intros Hlen Hm Hp.
  assert (Hgen : forall l k b, 0 <= k -> k + Z.of_nat (length l) < 2 ^ 60 -> color_inv a k b -> staying b ->
    staying (foldl assign_color b l)).
  { induction l as [|r l IH]; intros k b Hk Hl Hc Hs; [done|]. cbn [foldl length] in *.
    destruct (assign_color_inv a (iv_sym _ _ Hi) (iv_irr _ _ Hi) k b r Hk ltac:(lia) Hc) as (k' & Hk' & Hc' & _).
    apply (IH k'); [lia|lia|done|]. intros q j Hq Hqj. destruct (decide (q = r)) as [->|Hne].
    - unfold assign_color. rewrite (staying_free k b r j Hc Hs Hq Hqj). cbn. unfold color_of. cbn.
      rewrite lookup_insert_eq. split; [set_solver|done].
    - destruct (assign_color_other b r q Hne) as [-> ->]. by apply Hs. }
  destruct (Hgen (reverse (selectStack a)) 0 a) with (p := p) (i := i) as [_ E]; try done.
  - rewrite length_reverse. lia.
  - by apply (color_inv_start a0 a so Hi).
  - intros q j Hq Hqj. destruct (start_color q j Hqj) as [Hcol E]. split; [|done].
    by rewrite (proj1 (proj2 (proj2 (coloring_start a0 a so Hi)))).
Qed.
End Stay.

#[local] Arguments push : simpl never.

(** ** The parameters *)

Lemma ArgLocation_cases i :
  (i < 8)%nat /\ ArgLocation i false = Target.R (X (Z.of_nat i)) \/
  (8 <= i)%nat /\ ArgLocation i false = Target.S SlotIncoming (i64 (i64 (Z.of_nat i - 8) * 8)) Tlong.
Proof.
  destruct (decide (i < 8)%nat) as [Hi|Hi]; [left|right].
  - split; [done|]. do 8 (destruct i as [|i]; [done|]). lia.
  - split; [lia|]. unfold ArgLocation. rewrite lookup_ge_None_2; [done|]. cbn. lia.
Qed.

Lemma ArgLocation_inj i j : Z.of_nat i < 2 ^ 59 -> Z.of_nat j < 2 ^ 59 ->
  ArgLocation i false = ArgLocation j false -> i = j.
Proof.
  intros Hi Hj. destruct (ArgLocation_cases i) as [[Hi' ->]|[Hi' ->]], (ArgLocation_cases j) as [[Hj' ->]|[Hj' ->]]; try done.
  - intros [= E]. unfold X in E. lia.
  - rewrite !i64_id; unfold in_i64; try lia; rewrite ?i64_id; unfold in_i64; try lia. intros [= E]. lia.
Qed.

Lemma reg_color_arg i : (i < 8)%nat -> reg_color (X (Z.of_nat i)) = Some i.
Proof. intros Hi. do 8 (destruct i as [|i]; [done|]). lia. Qed.

Section Start.
  Context `{RangeOrder} (fn : Rtl.Function) (g : InterferenceGraph).

Definition new := NewAllocator fn g.

(** The locations [NewAllocator] fixes. *)
Lemma new_pre p l : NoDup (Rtl.fn_Params fn) ->
  precoloredParams new !! p = Some l <->
  exists i, Rtl.fn_Params fn !! i = Some p /\ p ∉ LiveAcrossCalls g /\ l = ArgLocation i false.
Proof.
  intros Hnd. unfold new, NewAllocator. cbn [precoloredParams].
  assert (Hgen : forall ips (m : gmap Z Loc), NoDup ips.*2 ->
    foldl (fun pre ip => if decide (ip.2 ∈ LiveAcrossCalls g) then pre else <[ip.2 := ArgLocation ip.1 false]> pre) m ips !! p =
      Some l <->
    (exists i, (i, p) ∈ ips /\ p ∉ LiveAcrossCalls g /\ l = ArgLocation i false) \/
    (m !! p = Some l /\ (p ∈ LiveAcrossCalls g \/ p ∉ ips.*2))).
  { induction ips as [|[i q] ips IH]; intros m Hn; cbn [foldl fmap list_fmap fst snd] in *.
    { split; [intros Hm; right; split; [done|right; apply not_elem_of_nil]|].
      intros [(i & Hi & _)|[Hm _]]; [by apply not_elem_of_nil in Hi|done]. }
    apply NoDup_cons in Hn as [Hq Hn]. rewrite IH by done. setoid_rewrite elem_of_cons.
    destruct (decide (q ∈ LiveAcrossCalls g)) as [Hc|Hc]; [split|rewrite lookup_insert; case_decide as E; [subst q; split|split]].
    - intros [(j & Hj & ?)|[Hm ?]]; [left; eauto|]. right. split; [done|]. destruct (decide (p = q)) as [->|]; [by left|tauto].
    - intros [(j & [[= -> ->]|Hj] & ?)|[Hm Ho]]; [tauto|left; eauto|]. right. tauto.
    - intros [(j & Hj & ?)|[[= <-] ?]]; [left; eauto|]. left. eauto 6.
    - intros [(j & [[= ->]|Hj] & Hp & ->)|[Hm Ho]]; [|left; eauto|].
      + right. split; [done|]. tauto.
      + tauto.
    - intros [(j & Hj & ?)|[Hm ?]]; [left; eauto|]. right. split; [done|]. naive_solver.
    - intros [(j & [[= -> ->]|Hj] & ?)|[Hm Ho]]; [done|left; eauto|]. right. tauto. }
  rewrite Hgen.
  - rewrite lookup_empty. split.
    + intros [(i & Hi & ?)|[? _]]; [|done]. exists i. split; [|done].
      apply elem_of_lookup_imap in Hi as (j & q & [= -> ->] & Hq). done.
    + intros (i & Hi & ?). left. exists i. split; [|done]. apply elem_of_lookup_imap. eauto.
  - assert (E : (imap pair (Rtl.fn_Params fn)).*2 = Rtl.fn_Params fn); [|by rewrite E].
    apply list_eq. intros i. rewrite list_lookup_fmap, list_lookup_imap. by destruct (_ !! i).
Qed.

(** ** The loops of [buildWorklists] *)

(** What they do not touch. *)
Definition frame (a : Allocator) :=
  (graph a, coalescedNodes a, alias a, (selectStack a, onSelectStack a), precoloredParams a, (spilledNodes a, nextSpillSlot a, activeMoves a)).

Definition waiting (a : Allocator) := (worklistMoves a, (simplifyWorklist a, freezeWorklist a, spillWorklist a)).

(** On a worklist. *)
Definition queued (a : Allocator) (p : Z) : Prop :=
  p ∈ simplifyWorklist a \/ p ∈ freezeWorklist a \/ p ∈ spillWorklist a.

Definition has_arg_color (a : Allocator) (p : Z) : Prop :=
  exists i, (i < 8)%nat /\ precoloredParams a !! p = Some (Target.R (X (Z.of_nat i))) /\ colors a !! p = Some i.

Lemma color_params_spec st :
  coloredNodes st.2 = ∅ ->
  (forall p l, precoloredParams st.2 !! p = Some l -> exists i, l = ArgLocation i false) ->
  let a := (for_range (precoloredParams st.2) (fun pl st => color_param st pl) st).2 in
  (frame a = frame st.2 /\ waiting a = waiting st.2) /\ (forall p, p ∈ coloredNodes a -> has_arg_color a p) /\
  (forall p r, precoloredParams st.2 !! p = Some (Target.R r) -> p ∈ coloredNodes a).
Proof.
  intros H0 Hpre a.
  destruct (for_range_spec (precoloredParams st.2) (fun pl st => color_param st pl)
    (fun a => (frame a = frame st.2 /\ waiting a = waiting st.2) /\ forall p, p ∈ coloredNodes a -> has_arg_color a p)
    (fun p l a => forall r, l = Target.R r -> p ∈ coloredNodes a) st) as [[HF HP] HQ].
  - split; [done|]. rewrite H0. intros p Hp. by apply not_elem_of_empty in Hp.
  - intros p l t c Hp [[Hf Hm] Hc]. destruct (Hpre p l Hp) as [i ->]. unfold color_param. cbn [fst snd].
    destruct (ArgLocation_cases i) as [[Hi E]|[Hi E]]; rewrite E in *; [|by cbn; split; [|intros ? [=]]].
    rewrite reg_color_arg by done. cbn. split; [split; [by split|]|].
    + intros q. rewrite elem_of_union, elem_of_singleton. unfold has_arg_color. cbn. intros Hq.
      destruct (decide (p = q)) as [<-|Hne].
      * exists i. rewrite lookup_insert_eq. unfold frame in Hf. injection Hf as _ _ _ _ _ -> _ _ _. done.
      * rewrite lookup_insert_ne by done. apply Hc. naive_solver.
    + intros _ _. set_solver.
  - intros p l q l' t c Hp Hq [Hf Hc] HQ r ->. specialize (HQ r eq_refl). unfold color_param. cbn [fst snd].
    destruct l'; [destruct (reg_color _)|..]; cbn; set_solver.
  - split; [done|]. split; [done|]. intros p r Hp. by apply (HQ p _ Hp r).
Qed.

Lemma classify_spec (s : RegSet) st :
  let a := (for_set s (fun r st => (st.1, classify_node st.2 r)) st).2 in
  frame a = frame st.2 /\ (coloredNodes a, colors a) = (coloredNodes st.2, colors st.2) /\ worklistMoves a = worklistMoves st.2 /\
  (forall p, queued a p -> queued st.2 p \/ ~ fixed st.2 p) /\
  forall r, r ∈ s -> ~ fixed st.2 r -> listed a r.
Proof.
  intros a.
  destruct (for_set_spec s (fun r st => (st.1, classify_node st.2 r))
    (fun a => frame a = frame st.2 /\ (coloredNodes a, colors a) = (coloredNodes st.2, colors st.2) /\
       worklistMoves a = worklistMoves st.2 /\ forall p, queued a p -> queued st.2 p \/ ~ fixed st.2 p)
    (fun r a => ~ fixed st.2 r -> listed a r) st) as [(H1 & H2 & H3 & H4) HQ]; [repeat split; auto| | |done].
  - intros r t c Hr (Hf & Hc & Hm & Hw). cbn [fst snd]. unfold classify_node.
    assert (Hp : precoloredParams c = precoloredParams st.2) by (unfold frame in Hf; by injection Hf).
    rewrite Hp. case_decide as Hd; [done|].
    destruct (K <=? degree c r)%nat; [|destruct (MoveRelated (graph c) r)];
      (split; [split; [done|]; split; [done|]; split; [done|]|]); try (intros _; unfold listed; cbn; rewrite elem_of_push; tauto);
      intros p; unfold queued in *; cbn; rewrite elem_of_push; specialize (Hw p);
      (destruct (decide (p = r)) as [->|]; [by right|tauto]).
  - intros r r' t c _ _ _ HQ Hf. specialize (HQ Hf). cbn [fst snd]. unfold classify_node.
    case_decide; [done|]. unfold listed in *.
    destruct (K <=? degree c r')%nat; [|destruct (MoveRelated (graph c) r')]; cbn; rewrite elem_of_push; tauto.
Qed.

Lemma moves_spec st :
  worklistMoves st.2 = [] ->
  let a := (for_range (Preferences (graph st.2)) (fun '(r, prefs) st =>
    for_set prefs (fun p st =>
      if r <? p then (st.1, set_worklistMoves (push (worklistMoves st.2) (r, p)) st.2) else st) st) st).2 in
  frame a = frame st.2 /\ (coloredNodes a, colors a) = (coloredNodes st.2, colors st.2) /\
  (simplifyWorklist a, freezeWorklist a, spillWorklist a) = (simplifyWorklist st.2, freezeWorklist st.2, spillWorklist st.2) /\
  forall m, m ∈ worklistMoves a -> pref (graph st.2) m.1 m.2.
Proof.
  intros H0 a. apply for_range_inv.
  { rewrite H0. repeat split. intros m Hm. by apply not_elem_of_nil in Hm. }
  intros r prefs t c Hr Hc. apply for_set_inv; [done|]. intros p t' c' Hp (H1 & H2 & H3 & H4). cbn [fst snd].
  destruct (r <? p); [|done]. cbn. repeat (split; [done|]). intros m. rewrite elem_of_push.
  intros [Hm| ->]; [auto|]. cbn. unfold set_at. by rewrite Hr.
Qed.
(** ** All loops *)

Record starts (a0 : Allocator) : Prop := {
  st_graph : graph a0 = g;
  st_ok : start_ok a0;
  st_inv : inv a0 a0;
  st_pre : forall p l, precoloredParams a0 !! p = Some l <->
    exists i, Rtl.fn_Params fn !! i = Some p /\ p ∉ LiveAcrossCalls g /\ l = ArgLocation i false;
  st_colors : forall p, p ∈ coloredNodes a0 -> has_arg_color a0 p;
  st_moves : forall m, m ∈ worklistMoves a0 -> pref g m.1 m.2;
  st_empty : selectStack a0 = [] /\ activeMoves a0 = [];
  st_uncoalesced : coalescedNodes a0 = ∅;
  st_queued : forall p, queued a0 p -> ~ fixed a0 p
}.

Lemma buildWorklists_spec t :
  NoDup (Rtl.fn_Params fn) -> Z.of_nat (length (Rtl.fn_Params fn)) < 2 ^ 59 ->
  (forall x y, adj g x y -> adj g y x) -> (forall x, ~ adj g x x) -> (forall x y, pref g x y -> pref g y x) ->
  starts (buildWorklists (t, new)).2.
Proof.
  intros Hnd Hlen Hsym Hirr Hps. unfold buildWorklists.
  pose proof (fun p l => new_pre p l Hnd) as Hpre.
  assert (N : frame new = (g, ∅, ∅, ([], ∅), precoloredParams new, (∅, 0, [])) /\ waiting new = ([], ([], [], [])) /\
    coloredNodes new = ∅) by done.
  set (n0 := new) in *. clearbody n0. destruct N as (N1 & N2 & N3).
  destruct (color_params_spec (t, n0) N3) as ([F1 M1] & C1 & D1).
  { intros p l (i & _ & _ & ->)%Hpre. eauto. }
  set (st1 := for_range _ _ (t, n0)) in *. destruct st1 as [t1 a1]. cbn [snd] in *.
  destruct (classify_spec (Nodes (graph a1)) (t1, a1)) as (F2 & C2 & M2 & W2 & L2).
  cbn [snd] in *. set (st2 := for_set _ _ (t1, a1)) in *. destruct st2 as [t2 a2]. cbn [snd] in *.
  destruct (moves_spec (t2, a2)) as (F3 & C3 & L3 & M3); [cbn [snd]; rewrite M2; unfold waiting in M1, N2; congruence|].
  cbn [snd] in *. set (st3 := for_range _ _ (t2, a2)) in *. destruct st3 as [t3 a3]. cbn [snd] in *.
  assert (F : frame a3 = frame n0) by congruence. rewrite N1 in F. injection C2 as C2 C2'. injection C3 as C3 C3'. injection L3 as L3a L3b L3c.
  rewrite N1 in F1. assert (G1 : graph a1 = g /\ precoloredParams a1 = precoloredParams n0) by (unfold frame in F1; by injection F1).
  assert (G2 : graph a2 = g) by (unfold frame in F2; injection F2 as -> _ _ _ _ _ _ _ _; apply G1).
  unfold frame in F. injection F as Fg Fc Fa Fs Fo Fp Fsp Fn Fm.
  assert (Hargs : forall p, p ∈ coloredNodes a3 -> has_arg_color a3 p).
  { intros p. rewrite C3, C2. intros (i & Hi & Hp & Hc)%C1. exists i. by rewrite Fp, <- (proj2 G1), C3', C2'. }
  assert (Hlisted : forall r, r ∈ Nodes g -> ~ fixed a3 r -> listed a3 r).
  { intros r Hr Hf. destruct G1 as [Gg Gp]. assert (Hl : listed a2 r).
    { apply L2; [by rewrite Gg|]. unfold fixed in *. by rewrite Gp, <- Fp. }
    revert Hl. unfold listed. rewrite L3a, L3b, L3c. unfold frame in F3. injection F3 as _ -> _ -> _ _ _ _ _. done. }
  split.
  - done.
  - split.
    + intros p l Hp. rewrite Fp in Hp. pose proof Hp as (i & Hi & Ha & ->)%Hpre.
      destruct (ArgLocation_cases i) as [[Hlt E]|[Hlt E]]; rewrite E in *.
      * left. exists i. split; [done|]. split; [done|]. rewrite C3, C2. by eapply D1.
      * right. eexists. split; [done|]. intros (j & _ & Hj & _)%Hargs. rewrite Fp, Hp in Hj. done.
    + intros p (i & ? & ? & ?)%Hargs. eauto.
    + intros p q l. rewrite Fp, !Hpre. intros (i & Hi & _ & ->) (j & Hj & _ & E).
      apply ArgLocation_inj in E as ->; [congruence|..];
        [apply lookup_lt_Some in Hi|apply lookup_lt_Some in Hj]; lia.
    + by rewrite Fsp, Fn.
    + intros p [l Hl]. rewrite Fp in Hl. apply Hpre in Hl as (i & _ & Ha & _). by rewrite Fg.
  - apply inv_start.
    + intros v. rewrite Fc. intros Hv. by apply not_elem_of_empty in Hv.
    + done.
    + by rewrite Fg.
    + by rewrite Fg.
    + by rewrite Fg.
    + by rewrite Fg.
    + intros r. rewrite Fs, Fo. split; intros Hr; [by apply not_elem_of_nil in Hr|by apply not_elem_of_empty in Hr].
  - intros p l. by rewrite Fp.
  - done.
  - intros m Hm. rewrite <- G2. auto.
  - by rewrite Fs, Fm.
  - done.
  - intros p Hq. assert (Hq2 : queued a2 p) by (revert Hq; unfold queued; by rewrite L3a, L3b, L3c).
    destruct (W2 p Hq2) as [Hq1|Hnf].
    + rewrite N2 in M1. unfold waiting in M1. injection M1 as _ E1 E2 E3. revert Hq1. unfold queued.
      rewrite E1, E2, E3, !elem_of_nil. tauto.
    + unfold fixed in *. by rewrite Fp, <- (proj2 G1).
Qed.
End Start.
