(* ===== verification/IrcAlloc.v ===== *)
(** The allocator meets the contract of the transformation: what
    [AllocateFunction] returns is a [valid_alloc]. *)

From S2P Require Import Prelude Target Rtl Liveness Interference Conventions RtlSem RegAlloc RegAllocProof.
From S2P Require Import Irc IrcInv.

(** What the allocator needs of the parameters: they are distinct, and one that
    is assigned in the function is also used. *)
Record params_ok (fn : Rtl.Function) : Prop := {
  po_nodup : NoDup (Rtl.fn_Params fn);
  po_length : Z.of_nat (length (Rtl.fn_Params fn)) < 2 ^ 59;
  po_used : forall p n i, p ∈ Rtl.fn_Params fn -> Rtl.fn_Code fn !! n = Some i -> p ∈ instr_def i ->
    exists n' i', Rtl.fn_Code fn !! n' = Some i' /\ p ∈ instr_use i'
}.

(** The result of the liveness analysis, as the allocator receives it. *)
Record live_info (fn : Rtl.Function) (live : LivenessInfo) : Prop := {
  li_solution : solution (Rtl.fn_Code fn) (set_at (LiveIn live)) (set_at (LiveOut live));
  li_path : forall n r, r ∈ set_at (LiveOut live) n -> live_after (Rtl.fn_Code fn) r n;
  li_def : Def live = instr_def <$> Rtl.fn_Code fn;
  li_use : Use live = instr_use <$> Rtl.fn_Code fn
}.

Lemma AnalyzeLiveness_info `{RangeOrder} fn live : AnalyzeLiveness fn = Some live -> live_info fn live.
Proof.
  intros Ha. destruct (AnalyzeLiveness_spec fn) as (i & Hi & Hs & _ & Hp & _ & _ & Hd & Hu).
  rewrite Ha in Hi. injection Hi as <-. split; [done| |done|done]. intros n r. apply Hp.
Qed.

Lemma live_at_used code r n : live_at code r n -> exists n' i, code !! n' = Some i /\ r ∈ instr_use i.
Proof. induction 1; eauto. Qed.

(** The select stack grows by at most one register per round. *)
Lemma list_step_stack a a' : list_step a a' -> selectStack a' = selectStack a.
Proof. intros Hl. pose proof (ls_core _ _ Hl) as Hc. unfold core in Hc. by injection Hc. Qed.

Lemma simplify_stack `{RangeOrder} st :
  (length (selectStack (simplify st).2) <= Datatypes.S (length (selectStack st.2)))%nat.
Proof.
  destruct st as [t a]. unfold simplify. destruct (last (simplifyWorklist a)) as [r|]; [|cbn; lia].
  apply for_set_inv.
  - cbn. unfold push. rewrite length_app. cbn. lia.
  - intros k t' a' _ Ha. cbn [fst snd] in *. by rewrite (list_step_stack _ _ (decrementDegree_step a' k)).
Qed.

Lemma coalesce_stack `{RangeOrder} st : selectStack (coalesce st).2 = selectStack st.2.
Proof.
  destruct st as [t a]. unfold coalesce. destruct (last (worklistMoves a)) as [m|]; [|done].
  set (a1 := set_worklistMoves _ a). change (selectStack (t, a).2) with (selectStack a1). clearbody a1.
  destruct (if getAlias a1 m.1 <? getAlias a1 m.2 then _ else _) as [u v].
  destruct (Z.eqb_spec u v) as [->|Hne]; [cbn [snd]; by rewrite (list_step_stack _ _ (addToWorklist_step _ _))|].
  destruct (HasEdge _ u v).
  { cbn [snd]. by rewrite !(list_step_stack _ _ (addToWorklist_step _ _)). }
  destruct (conservativeCoalesce _ u v); [|done]. set (a2 := set_coalescedMoves _ a1).
  change (selectStack a1) with (selectStack a2). clearbody a2.
  pose proof (cb_stack _ _ _ _ (combine_spec u v t a2 Hne)) as Hc. destruct (combine u v (t, a2)) as [t' a3].
  cbn [snd] in *. rewrite (list_step_stack _ _ (addToWorklist_step _ _)). by injection Hc.
Qed.

Lemma step_stack `{RangeOrder} st st' : alloc_step st = Some st' ->
  (length (selectStack st'.2) <= Datatypes.S (length (selectStack st.2)))%nat.
Proof.
  unfold alloc_step. intros Hs.
  destruct (simplifyWorklist st.2); [|apply (inj Some) in Hs; subst st'; apply simplify_stack].
  destruct (worklistMoves st.2); [|apply (inj Some) in Hs; subst st'; rewrite coalesce_stack; lia].
  destruct (freezeWorklist st.2).
  - destruct (spillWorklist st.2); [done|]. apply (inj Some) in Hs; subst st'. cbn [snd].
    rewrite (list_step_stack _ _ (selectSpill_step _)). lia.
  - apply (inj Some) in Hs; subst st'. cbn [snd]. rewrite (list_step_stack _ _ (freeze_step _)). lia.
Qed.

Lemma main_loop_stack `{RangeOrder} fuel st st' : main_loop fuel st = Some st' ->
  (length (selectStack st'.2) <= length (selectStack st.2) + fuel)%nat.
Proof.
  revert st. induction fuel as [|fuel IH]; intros st; [done|]. cbn [main_loop].
  destruct (alloc_step st) as [st1|] eqn:Hs; [|intros E; apply (inj Some) in E; subst st'; lia].
  intros Hr%IH. apply step_stack in Hs. lia.
Qed.

Section Valid.
  Context {order2 : RangeOrder} (fn : Rtl.Function) (live : LivenessInfo) (t : nat).
  Context (po : params_ok fn) (li : live_info fn live).

Let code := Rtl.fn_Code fn.
Let g := (BuildInterferenceGraph t fn live).2.

Lemma used_iff p : reg_used live p = true <-> exists n i, code !! n = Some i /\ p ∈ instr_use i.
Proof using li.
  unfold reg_used. rewrite bool_decide_eq_true, (li_use _ _ li). split.
  - intros (n & s & Hs & Hp). rewrite lookup_fmap in Hs. apply fmap_Some in Hs as (i & Hi & ->). eauto.
  - intros (n & i & Hi & Hp). exists n, (instr_use i). rewrite lookup_fmap. fold code. by rewrite Hi.
Qed.

Lemma def_at n i : code !! n = Some i -> Def live !! n = Some (instr_def i) /\ set_at (Def live) n = instr_def i.
Proof using li. intros Hi. unfold set_at. rewrite (li_def _ _ li), lookup_fmap. fold code. by rewrite Hi. Qed.

Lemma live_used n r : r ∈ set_at (LiveOut live) n -> exists n' i, code !! n' = Some i /\ r ∈ instr_use i.
Proof using li. intros (i & s & _ & _ & Hl)%(li_path _ _ li). by apply live_at_used in Hl. Qed.

Lemma used_reg n i r : code !! n = Some i -> r ∈ instr_use i -> graph_reg fn live r.
Proof using li.
  intros Hi Hr. right. exists n, (instr_def i). split; [by apply def_at|]. right.
  unfold set_at. rewrite (li_use _ _ li), lookup_fmap. fold code. by rewrite Hi.
Qed.

Lemma live_regs n r : r ∈ set_at (LiveOut live) n -> graph_reg fn live r.
Proof using li. intros (n' & i & Hi & Hr)%live_used. by eapply used_reg. Qed.

Lemma graph_nodes r : r ∈ Nodes g <-> graph_reg fn live r.
Proof using li. apply Build_nodes; [exact live_regs|apply li|apply li]. Qed.

Lemma graph_adj x y : adj g x y <-> x <> y /\ (interferes fn live x y \/ interferes fn live y x).
Proof using li. apply Build_edges. exact live_regs. Qed.

Lemma graph_pref x y : pref g x y <-> x <> y /\ (moves fn x y \/ moves fn y x).
Proof using li. apply Build_preferences. exact live_regs. Qed.

Lemma graph_across r : r ∈ LiveAcrossCalls g <-> live_across fn live r.
Proof using li. apply Build_across. exact live_regs. Qed.

(** The start of the main loop, and its end. *)
Context (t' : nat) (fuel : nat).
Let a0 := (buildWorklists (t', NewAllocator fn g)).2.

Lemma start_facts : starts fn g a0.
Proof using po li.
  apply buildWorklists_spec; [apply po|apply po|..].
  - intros x y. rewrite !graph_adj. intuition congruence.
  - intros x. rewrite graph_adj. tauto.
  - intros x y. rewrite !graph_pref. intuition congruence.
Qed.

Lemma fixed_param p : fixed a0 p -> p ∈ Rtl.fn_Params fn /\ p ∉ LiveAcrossCalls g.
Proof using po li.
  intros [l Hl]. apply (st_pre _ _ _ start_facts) in Hl as (i & Hi & Hn & _).
  split; [by apply list_elem_of_lookup_2 in Hi|done].
Qed.

Definition used (p : Z) : Prop := exists n i, Rtl.fn_Code fn !! n = Some i /\ p ∈ instr_use i.

Lemma used_full p : p ∈ Rtl.fn_Params fn -> used p -> full a0 p.
Proof using po li.
  intros Hp Hu x Hx Hne. rewrite (st_graph _ _ _ start_facts) in *. apply graph_nodes in Hx.
  apply graph_adj. split; [done|]. left. right. split; [done|]. split; [|done]. apply used_iff. eauto.
Qed.

Lemma start_moves m : m ∈ worklistMoves a0 ->
  (m.1 ∈ Nodes (graph a0) /\ m.2 ∈ Nodes (graph a0)) /\
  forall p, p = m.1 \/ p = m.2 -> fixed a0 p -> full a0 p.
Proof using po li.
  intros Hm. apply (st_moves _ _ _ start_facts) in Hm. apply graph_pref in Hm as [_ Hm].
  rewrite (st_graph _ _ _ start_facts), !graph_nodes.
  assert (Hd : forall d s, moves fn d s -> (graph_reg fn live d /\ graph_reg fn live s) /\
    forall p, p = d \/ p = s -> fixed a0 p -> full a0 p).
  { intros d s Hds. split; [by apply (moves_reg fn live d s (li_def _ _ li) (li_use _ _ li))|].
    destruct Hds as (n & succ & Hn). intros p [->| ->] Hf; apply fixed_param in Hf as [Hp _].
    - apply used_full; [done|]. apply (po_used _ po d n _ Hp Hn). cbn [instr_def]. by apply elem_of_singleton.
    - apply used_full; [done|]. eexists n, _. split; [exact Hn|]. cbn [instr_use]. apply elem_of_list_to_set. left. }
  destruct Hm as [Hm|Hm]; destruct (Hd _ _ Hm) as [[H1 H2] H3]; (split; [done|]); intros p [->| ->]; auto.
Qed.

Context (st' : nat * Allocator) (Hrun : main_loop fuel (buildWorklists (t', NewAllocator fn g)) = Some st').
Context (Hfuel : Z.of_nat fuel < 2 ^ 60).

Lemma end_facts : inv a0 st'.2 /\
  (forall r, r ∈ Nodes (graph a0) -> ~ fixed a0 r -> r ∈ selectStack st'.2 \/ r ∈ coalescedNodes st'.2) /\
  Z.of_nat (length (selectStack st'.2)) < 2 ^ 60.
Proof using po li Hrun Hfuel.
  destruct (inv_main_loop a0 (fun m Hm => proj1 (start_moves m Hm)) (fun m p Hm => proj2 (start_moves m Hm) p) _ _ _ Hrun
    (st_inv _ _ _ start_facts)) as [Hi Hd].
  split; [done|]. split; [done|]. apply main_loop_stack in Hrun as Hl. fold a0 in Hl.
  rewrite (proj1 (st_empty _ _ _ start_facts)) in Hl. cbn in Hl. lia.
Qed.

Lemma mentioned_node r n i : code !! n = Some i -> r ∈ instr_def i \/ r ∈ instr_use i -> r ∈ Nodes (graph a0).
Proof using po li.
  intros Hn Hr. rewrite (st_graph _ _ _ start_facts), graph_nodes. destruct Hr as [Hr|Hr]; [|by eapply used_reg].
  right. exists n, (instr_def i). split; [by apply def_at|by left].
Qed.

(** Every register of the code has a location of the right sort. *)
Lemma allocation_placed n i r : code !! n = Some i -> r ∈ instr_def i \/ r ∈ instr_use i ->
  well_placed (loc_of (buildResult (assignColors st')).2 r) = true.
Proof using po li Hrun Hfuel.
  intros Hn Hr. destruct end_facts as (H1 & H2 & H3). rewrite (surjective_pairing st').
  apply (located_sort a0 st'.1 st'.2 (st_ok _ _ _ start_facts) H1 H2 H3). by eapply mentioned_node.
Qed.

(** The parameters keep the colours of their registers while the stack is
    popped. *)
Context (Hstay : forall p i, used p -> p ∈ Nodes (graph a0) ->
  precoloredParams a0 !! p = Some (Target.R (X (Z.of_nat i))) -> color_of (color_stack st'.2) p = i).

Let alloc := (buildResult (assignColors st')).2.

Lemma mentioned_placed r n i : code !! n = Some i -> r ∈ instr_def i \/ r ∈ instr_use i ->
  r ∈ Nodes (graph a0) /\ placed a0 st'.2 r (loc_of alloc r).
Proof using All.
  intros Hn Hr. assert (Hg : r ∈ Nodes (graph a0)) by (by eapply mentioned_node).
  destruct end_facts as (H1 & H2 & H3). split; [done|].
  unfold alloc. rewrite (surjective_pairing st').
  apply (located a0 st'.1 st'.2 (st_ok _ _ _ start_facts) H1 H2 H3 used Hstay r Hg).
  intros [Hp _]%fixed_param. destruct Hr; [by eapply (po_used _ po)|by exists n, i].
Qed.

Lemma interfering_apart x y lx ly : adj g x y -> placed a0 st'.2 x lx -> placed a0 st'.2 y ly -> lx <> ly.
Proof using po li Hrun Hfuel.
  intros Hadj. destruct end_facts as (H1 & H2 & H3).
  apply (placed_diff a0 st'.2 (st_ok _ _ _ start_facts) H1 H3). apply (iv_kept _ _ H1).
  by rewrite (st_graph _ _ _ start_facts).
Qed.
(** Where the parameters go: they stay, or leave for a place that is neither an
    argument location nor a temporary. *)
Definition moved_away (l : Loc) : Prop :=
  (forall i, l <> ArgLocation i false) /\ (forall k, (k < 8)%nat -> l <> temp_loc k) /\ call_preserved l = true.

Lemma across_placed r : live_across fn live r ->
  r ∈ Nodes (graph a0) /\ placed a0 st'.2 r (loc_of alloc r) /\ moved_away (loc_of alloc r).
Proof using All.
  intros Ha. assert (Hla : r ∈ LiveAcrossCalls (graph a0)) by (by rewrite (st_graph _ _ _ start_facts), graph_across).
  destruct Ha as (n & i & Hn & Hcall & Hl). destruct (live_used n r Hl) as (n' & i' & Hn' & Hu).
  destruct (mentioned_placed r n' i' Hn' (or_intror Hu)) as [Hg Hp]. split; [done|]. split; [done|].
  destruct end_facts as (H1 & H2 & H3).
  destruct (placed_across a0 st'.2 (st_ok _ _ _ start_facts) H1 H3 r _ Hla Hp) as [(m & -> & Hcs & Hm)|(s & ->)].
  - unfold X in Hm. split; [|split; [|done]].
    + intros j. destruct (ArgLocation_cases j) as [[Hj ->]|[Hj ->]]; [|done]. intros [= ->]. unfold X in Hm. lia.
    + intros k Hk [= ->]. unfold X8, X in Hm. lia.
  - split; [|split; [|done]]; [|done]. intros j. by destruct (ArgLocation_cases j) as [[Hj ->]|[Hj ->]].
Qed.

Lemma param_cases i p : Rtl.fn_Params fn !! i = Some p ->
  (~ live_across fn live p /\ loc_of alloc p = ArgLocation i false) \/
  (live_across fn live p /\ moved_away (loc_of alloc p)).
Proof using All.
  intros Hp. destruct (decide (p ∈ LiveAcrossCalls g)) as [Ha|Ha].
  - apply graph_across in Ha. right. split; [done|]. by apply across_placed.
  - left. split; [by rewrite <- graph_across|]. destruct end_facts as (H1 & H2 & H3).
    unfold alloc. rewrite (surjective_pairing st').
    apply (fixed_located a0 st'.1 st'.2 (st_ok _ _ _ start_facts) H1 H2 H3).
    apply (st_pre _ _ _ start_facts). eauto.
Qed.

Lemma across_apart p q : live_across fn live p -> p ∈ Rtl.fn_Params fn -> live_across fn live q -> p <> q ->
  loc_of alloc p <> loc_of alloc q.
Proof using All.
  intros Hp Hin Hq Hne. destruct (across_placed p Hp) as (Hgp & Hpp & _), (across_placed q Hq) as (Hgq & Hpq & _).
  apply (interfering_apart p q); [|done|done]. destruct Hp as (n & i & Hn & Hcall & Hl).
  destruct (live_used n p Hl) as (n' & i' & Hn' & Hu).
  rewrite <- (st_graph _ _ _ start_facts). apply used_full; [done|by exists n', i'| |done].
  exact Hgq.
Qed.

Lemma params_moves_ok :
  moves_ok (imap (fun i _ => ArgLocation i false) (Rtl.fn_Params fn)) (loc_of alloc <$> Rtl.fn_Params fn).
Proof using All.
  pose proof (po_length _ po) as Hlen. assert (Hsmall : forall i p, Rtl.fn_Params fn !! i = Some p -> Z.of_nat i < 2 ^ 59).
  { intros i p Hi%lookup_lt_Some. lia. }
  split.
  - by rewrite length_imap, length_fmap.
  - apply NoDup_alt. intros i j l Hi Hj.
    rewrite list_lookup_fmap in Hi, Hj. apply fmap_Some in Hi as (p & Hp & ->), Hj as (q & Hq & E).
    destruct (param_cases i p Hp) as [[Np Lp]|[Ap Mp]], (param_cases j q Hq) as [[Nq Lq]|[Aq Mq]].
    + rewrite Lp, Lq in E. apply ArgLocation_inj in E; [done|by eapply Hsmall|by eapply Hsmall].
    + rewrite Lp in E. destruct Mq as [Mq _]. by destruct (Mq i).
    + rewrite Lq in E. destruct Mp as [Mp _]. by destruct (Mp j).
    + destruct (decide (p = q)) as [->|Hne]; [by eapply NoDup_lookup; [apply po| |]|].
      exfalso. apply (across_apart p q); try done. by apply list_elem_of_lookup_2 in Hp.
  - intros k Hk. split.
    + intros (i & p & E & Hi)%elem_of_lookup_imap. unfold temp_loc in E.
      destruct (ArgLocation_cases i) as [[Hlt Ea]|[Hlt Ea]]; rewrite Ea in E; [|done]. injection E as E.
      unfold X, X8 in E. unfold X in E. lia.
    + intros (p & E & (i & Hi)%list_elem_of_lookup)%list_elem_of_fmap.
      destruct (param_cases i p Hi) as [[_ Lp]|[_ (_ & M & _)]]; [|by destruct (M k Hk)].
      rewrite Lp in E. unfold temp_loc in E.
      destruct (ArgLocation_cases i) as [[Hlt Ea]|[Hlt Ea]]; rewrite Ea in E; [|done]. injection E as E.
      unfold X8, X in E. lia.
  - set (ms := needed _ _). destruct (clobbered ms.*2 ms.*1 []) as [|s l] eqn:E; [cbn; lia|]. exfalso.
    assert (Hs : s ∈ clobbered ms.*2 ms.*1 []) by (rewrite E; left).
    apply clobbered_elem in Hs as (([s1 d1] & E1 & Hm1)%list_elem_of_fmap & ([s2 d2] & E2 & Hm2)%list_elem_of_fmap & _).
    cbn in E1, E2. subst s1 d2. apply elem_of_needed in Hm1 as [_ Hz1], Hm2 as [Hne2 Hz2].
    apply zip_elem_lookup in Hz1 as (i & Hi & _), Hz2 as (j & Hj & Hj').
    rewrite list_lookup_imap in Hi, Hj. rewrite list_lookup_fmap in Hj'.
    apply fmap_Some in Hi as (p & _ & Ep), Hj as (q & Hq & Eq'), Hj' as (q' & Hq' & El).
    rewrite Hq in Hq'. injection Hq' as <-.
    destruct (param_cases j q Hq) as [[_ Lq]|[_ (M & _)]]; [congruence|]. apply (M i). congruence.
Qed.

Lemma allocation_valid : valid_alloc fn live alloc.
Proof using All.
  split.
  - intros n i d l Hn Hd Hl Hne Hmv. destruct (live_used n l Hl) as (n' & i' & Hn' & Hu).
    destruct (mentioned_placed d n i Hn (or_introl Hd)) as [_ Pd].
    destruct (mentioned_placed l n' i' Hn' (or_intror Hu)) as [_ Pl].
    apply not_eq_sym, (interfering_apart d l); [|done|done]. apply graph_adj. split; [done|].
    left. left. exists n, i. split; [done|]. rewrite (proj2 (def_at n i Hn)). auto.
  - intros n i l Hn Hc Hl _. apply across_placed. by exists n, i.
  - apply params_moves_ok.
Qed.
End Valid.

(** The parameters before one that is passed in a register and not live across
    a call are used and not live across a call either: popped from the select
    stack, they get their own colours back. *)
Definition leading (fn : Rtl.Function) (live : LivenessInfo) : Prop :=
  forall i j p q, Rtl.fn_Params fn !! i = Some p -> (i < 8)%nat -> ~ live_across fn live p -> used fn p -> (j < i)%nat ->
    Rtl.fn_Params fn !! j = Some q -> ~ live_across fn live q /\ used fn q.

Lemma ArgLocation_reg i j : ArgLocation i false = Target.R (X (Z.of_nat j)) -> i = j /\ (i < 8)%nat.
Proof. destruct (ArgLocation_cases i) as [[Hi ->]|[Hi ->]]; [|done]. intros [= E]. unfold X in E. lia. Qed.

Lemma Allocate_leading {order2 : RangeOrder} fn live t t' fuel st' :
  params_ok fn -> live_info fn live -> leading fn live -> Z.of_nat fuel < 2 ^ 60 ->
  main_loop fuel (buildWorklists (t', NewAllocator fn (BuildInterferenceGraph t fn live).2)) = Some st' ->
  valid_alloc fn live (buildResult (assignColors st')).2.
Proof.
  intros po li Hlead Hfuel Hrun. pose proof (start_facts fn live t po li t') as Hst.
  destruct (end_facts fn live t po li t' fuel st' Hrun Hfuel) as (Hi & _ & Hlen).
  assert (Hstay : forall p i, used fn p -> p ∈ Nodes (graph (buildWorklists (t', NewAllocator fn (BuildInterferenceGraph t fn live).2)).2) ->
    precoloredParams (buildWorklists (t', NewAllocator fn (BuildInterferenceGraph t fn live).2)).2 !! p =
      Some (Target.R (X (Z.of_nat i))) -> color_of (color_stack st'.2) p = i).
  2:{ by apply (allocation_valid fn live t po li t' fuel st' Hrun Hfuel). }
  intros p i Hu _ Hp.
  eapply (leading_stays _ _ (st_ok _ _ _ Hst) Hi (used fn)); [|..|exact Hlen|exact Hu|exact Hp].
  - intros q Hq Hf. destruct (fixed_param fn live t po li t' q Hf) as [Hin _].
    split; [by apply used_full|]. destruct Hq as (n & j & Hn & Hq).
    rewrite (st_graph _ _ _ Hst), (graph_nodes fn live t li). by eapply used_reg.
  - intros q j k Hq Hqj Hlt. apply (st_pre _ _ _ Hst) in Hqj as (j' & Hj' & Hna & E).
    symmetry in E. apply ArgLocation_reg in E as [-> Hj8].
    destruct (lookup_lt_is_Some_2 (Rtl.fn_Params fn) k) as [q' Hq']; [apply lookup_lt_Some in Hj'; lia|].
    destruct (Hlead j k q q' Hj' Hj8) as [Hna' Hu']; [by rewrite <- (graph_across fn live t li)|done..|].
    exists q'. split; [done|]. apply (st_pre _ _ _ Hst). exists k. split; [done|].
    split; [by rewrite (graph_across fn live t li)|]. destruct (ArgLocation_cases k) as [[_ ->]|[? _]]; [done|lia].
Qed.

(** Parameters that never get on the select stack stay in any case. *)
Lemma Allocate_unstacked {order2 : RangeOrder} fn live t t' fuel st' :
  params_ok fn -> live_info fn live -> Z.of_nat fuel < 2 ^ 60 ->
  main_loop fuel (buildWorklists (t', NewAllocator fn (BuildInterferenceGraph t fn live).2)) = Some st' ->
  (forall p, p ∈ Rtl.fn_Params fn -> ~ live_across fn live p -> p ∉ selectStack st'.2) ->
  valid_alloc fn live (buildResult (assignColors st')).2.
Proof.
  intros po li Hfuel Hrun Hun. pose proof (start_facts fn live t po li t') as Hst.
  destruct (end_facts fn live t po li t' fuel st' Hrun Hfuel) as (Hi & _ & Hlen).
  apply (allocation_valid fn live t po li t' fuel st' Hrun Hfuel). intros p i Hu _ Hp.
  apply (unstacked_stays _ _ (st_ok _ _ _ Hst) Hi); [done|].
  destruct (fixed_param fn live t po li t' p) as [Hin Hna]; [by eexists|].
  apply Hun; [done|]. by rewrite <- (graph_across fn live t li).
Qed.
