(* ===== verification/IrcTotal.v ===== *)
(** Functions with at most [K] pseudo-registers: no degree ever passes the
    threshold, so that the allocator's main loop ends, and parameters with a
    fixed location never get on the select stack.
    The allocator on functions with at most [K] pseudo-registers: the rounds
    its main loop needs, and the result.
    A function whose main loop never ends: [decrementDegree] looks at the degree
    of a register that is already on the select stack, so two of [K + 1]
    registers that interfere with each other are pushed in turn, forever. *)

From S2P Require Import Prelude Target Rtl Liveness Interference Conventions RegAlloc Irc IrcInv.
From S2P Require Import IrcInv RtlSem RegAllocProof IrcAlloc.

#[local] Arguments push : simpl never.
#[local] Arguments pop : simpl never.

Lemma MoveRelated_iff g x : MoveRelated g x = true <-> exists y, pref g x y.
Proof.
  unfold MoveRelated. rewrite Nat.ltb_lt. split.
  - intros Hs. destruct (set_choose_L (set_at (Preferences g) x)) as [y Hy]; [|eauto].
    intros E. rewrite E in Hs. rewrite size_empty in Hs. lia.
  - intros [y Hy]. destruct (decide (size (set_at (Preferences g) x) = 0)%nat) as [E|E]; [|lia].
    apply size_empty_inv in E. set_solver.
Qed.

Lemma addToWorklist_move_related a r : MoveRelated (graph a) r = true -> addToWorklist a r = a.
Proof. intros Hm. unfold addToWorklist. rewrite Hm, andb_false_r. by case_decide. Qed.

Lemma select_max_some a l i b : l <> [] \/ b <> None -> select_max a l i b <> None.
Proof.
  revert i b. induction l as [|x l IH]; intros i b Hl; cbn [select_max]; [tauto|].
  apply IH. right. destruct b as [[[md mr] mi]|]; [|done]. by destruct (md <? degree a x)%nat.
Qed.

Section Small.
  Context `{RangeOrder} (N : RegSet) (HN : (size N <= K)%nat).

(** A register next to which two others do not count. *)
Lemma degree_small a r z : (forall y, adj (graph a) r y -> y ∈ N /\ y <> r) -> r ∈ N -> z ∈ N -> z <> r -> ~ counted a z ->
  (degree a r < K - 1)%nat.
Proof using HN.
  intros Hadj Hr Hz Hne Hc. unfold degree.
  assert (Hs : filter (counted a) (set_at (Edges (graph a)) r) ⊆ N ∖ {[r]} ∖ {[z]}).
  { intros y. rewrite elem_of_filter. intros [Hy Hin]. destruct (Hadj y Hin).
    rewrite !elem_of_difference, !elem_of_singleton. split; [done|]. by intros ->. }
  apply subseteq_size in Hs. rewrite !size_difference in Hs by set_solver. rewrite !size_singleton in Hs.
  assert (Hp : (0 < size (N ∖ {[r]}))%nat).
  { destruct (decide (size (N ∖ {[r]}) = 0)%nat) as [E|E]; [|lia]. apply size_empty_inv in E. set_solver. }
  rewrite size_difference, size_singleton in Hp by set_solver. lia.
Qed.

Lemma decrementDegree_small a r z : (forall y, adj (graph a) r y -> y ∈ N /\ y <> r) -> r ∈ N -> z ∈ N -> z <> r ->
  ~ counted a z -> decrementDegree a r = a.
Proof using HN.
  intros Hadj Hr Hz Hne Hc. unfold decrementDegree. case_decide; [done|].
  pose proof (degree_small a r z Hadj Hr Hz Hne Hc). rewrite decide_False by lia. done.
Qed.

(** [simplify] moves a register to the select stack. *)
Definition edges_in (g : InterferenceGraph) : Prop := forall x y, adj g x y -> x ∈ N /\ y ∈ N /\ x <> y.

Lemma simplify_small t a r : edges_in (graph a) -> (forall x y, adj (graph a) x y -> adj (graph a) y x) ->
  last (simplifyWorklist a) = Some r ->
  (simplify (t, a)).2 = set_onSelectStack ({[r]} ∪ onSelectStack a)
    (set_selectStack (push (selectStack a) r) (set_simplifyWorklist (pop (simplifyWorklist a)) a)).
Proof using HN.
  intros He Hsym Hr. unfold simplify. rewrite Hr. apply for_set_inv; [done|].
  intros n t' a' Hn ->. cbn [fst snd]. destruct (He _ _ Hn) as (H1 & H2 & H3).
  apply (decrementDegree_small _ n r).
  - intros y Hy. destruct (He _ _ Hy) as (? & ? & ?). split; [done|congruence].
  - done.
  - done.
  - done.
  - unfold counted. cbn. set_solver.
Qed.

(** [combine] changes the worklists only where [v] is. *)
Definition lists (a : Allocator) :=
  (simplifyWorklist a, freezeWorklist a, spillWorklist a, selectStack a, (worklistMoves a, activeMoves a)).

Lemma edges_in_AddEdge g u n : edges_in g -> u ∈ N -> n ∈ N -> u <> n -> edges_in (AddEdge g u n).
Proof using Type.
  intros He Hu Hn Hne x y Hxy. change (sees (AddEdge g u n) (FEdge x y)) in Hxy. apply adds_AddEdge in Hxy as [Hxy|[_ Hf]].
  - by apply He.
  - by destruct Hf as [?|[?|[[= -> ->]|[= -> ->]]]].
Qed.

Lemma combine_small t a u v : edges_in (graph a) -> u ∈ N -> v ∈ N -> u <> v ->
  lists (combine u v (t, a)).2 =
    (simplifyWorklist a, remove_first v (freezeWorklist a), remove_first v (spillWorklist a), selectStack a,
     (worklistMoves a, activeMoves a)).
Proof using HN.
  intros He Hu Hv Hne. unfold combine.
  set (a1 := set_alias _ _). set (a2 := if decide _ then _ else a1).
  assert (H2 : lists a2 = lists a1 /\ v ∈ coalescedNodes a2 /\ edges_in (graph a2)).
  { assert (Hv1 : v ∈ coalescedNodes a1) by (cbn; set_solver). unfold a2. case_decide; auto. }
  change (_ = lists a1) with (lists a2 = lists a1) in *. clearbody a2. destruct H2 as (Hl & Hvc & He2).
  transitivity (lists a1); [|done]. rewrite <- Hl. clear Hl a1.
  set (P a' := lists a' = lists a2 /\ v ∈ coalescedNodes a' /\ edges_in (graph a')).
  assert (HP1 : P (merge_edges u v (t, a2)).2).
  { apply (for_set_inv _ _ P); [done|]. intros n t' a' Hn (Hl & Hc & He'). cbn [fst snd] in *. case_decide as Hd; [|done].
    destruct Hd as [_ Hnu]. destruct (He2 _ _ Hn) as (_ & HnN & Hvn).
    assert (He3 : edges_in (AddEdge (graph a') u n)) by (by apply edges_in_AddEdge; [..|apply not_eq_sym]).
    rewrite (decrementDegree_small _ n v); [done|..|done|done|done|].
    - intros y Hy. destruct (He3 _ _ Hy) as (? & ? & ?). split; [done|congruence].
    - unfold counted. cbn. tauto. }
  destruct (merge_edges u v (t, a2)) as [t3 a3]. cbn [snd] in HP1.
  assert (HP2 : P (merge_preferences u v (t3, a3)).2).
  { apply (for_set_inv _ _ P); [done|]. intros n t' a' Hn (Hl & Hc & He'). cbn [fst snd] in *. case_decide as Hd; [|done].
    split; [done|]. split; [done|]. cbn [graph set_graph]. intros x y Hxy.
    change (sees (AddPreference (graph a') u n) (FEdge x y)) in Hxy. apply adds_AddPreference in Hxy as [Hxy|[_ Hf]]; [by apply He'|].
    by destruct Hf as [?|[?|[?|?]]]. }
  destruct (merge_preferences u v (t3, a3)) as [t4 a4]. cbn [snd] in HP2. destruct HP2 as (Hl & Hc & He4).
  assert (Hd : (degree a4 u < K - 1)%nat).
  { apply (degree_small a4 u v); [|done|done|by apply not_eq_sym|unfold counted; tauto].
    intros y Hy. destruct (He4 _ _ Hy) as (? & ? & ?). split; [done|congruence]. }
  destruct (Nat.leb_spec K (degree a4 u)); [lia|done].
Qed.
(** Freezing moves whose registers are all move-related changes no worklist. *)
Definition moves_related (a : Allocator) : Prop := forall m, m ∈ worklistMoves a \/ m ∈ activeMoves a ->
  MoveRelated (graph a) m.1 = true /\ MoveRelated (graph a) m.2 = true.

Lemma freezeMovesFor_small a r : moves_related a -> exists rem, (forall m, m ∈ rem -> m ∈ activeMoves a) /\
  lists (freezeMovesFor a r) = (simplifyWorklist a, freezeWorklist a, spillWorklist a, selectStack a, (worklistMoves a, rem)).
Proof using Type.
  intros Hm. unfold freezeMovesFor.
  assert (Hgen : forall l a' rem, (forall m, m ∈ l -> m ∈ activeMoves a) -> (forall m, m ∈ rem -> m ∈ activeMoves a) ->
    graph a' = graph a -> lists a' = lists a ->
    exists a1 rem1, foldl (freeze_move r) (a', rem) l = (a1, rem1) /\ (forall m, m ∈ rem1 -> m ∈ activeMoves a) /\
      lists a1 = lists a).
  { induction l as [|m l IH]; intros a' rem Hl Hr Hg Hls; cbn [foldl]; [eauto|]. unfold freeze_move at 2.
    assert (Hin : m ∈ activeMoves a) by (apply Hl; left). destruct (Hm m (or_intror Hin)) as [M1 M2].
    case_decide as Hd.
    - apply IH; [intros; apply Hl; by right|done|..];
        by rewrite addToWorklist_move_related by (cbn [graph set_frozenMoves]; rewrite Hg; by case_decide).
    - apply IH; [intros; apply Hl; by right| |done|done]. intros m'. rewrite elem_of_push. naive_solver. }
  destruct (Hgen (activeMoves a) a []) as (a1 & rem & -> & Hrem & Hl); [done| |done|done|].
  { intros m Hn. by apply not_elem_of_nil in Hn. }
  exists rem. split; [done|]. unfold lists in *. injection Hl as E1 E2 E3 E4 E5 E6. cbn. by rewrite E1, E2, E3, E4, E5.
Qed.

(** ** The measure *)

Definition measure (a : Allocator) : nat :=
  (length (simplifyWorklist a) + 2 * length (freezeWorklist a) + 2 * length (spillWorklist a) + length (worklistMoves a))%nat.

Section Steps.
  Context (a0 : Allocator).
  Context (moves_nodes : forall m, m ∈ worklistMoves a0 -> m.1 ∈ Nodes (graph a0) /\ m.2 ∈ Nodes (graph a0)).
  Context (moves_full : forall m p, m ∈ worklistMoves a0 -> p = m.1 \/ p = m.2 -> fixed a0 p -> full a0 p).
  Context (HN0 : Nodes (graph a0) = N).

Definition waits (a : Allocator) (p : Z) : Prop :=
  p ∈ simplifyWorklist a \/ p ∈ freezeWorklist a \/ p ∈ spillWorklist a \/ p ∈ selectStack a.

Record small (a : Allocator) : Prop := {
  sm_inv : inv a0 a;
  sm_edges : edges_in (graph a);
  sm_moves : moves_related a;
  sm_alias : forall x, MoveRelated (graph a) x = true -> MoveRelated (graph a) (getAlias a x) = true;
  sm_fixed : forall p, fixed a0 p -> ~ waits a p
}.

(** Changes that leave the graph and the aliases alone. *)
Lemma small_same a a' : inv a0 a' -> graph a' = graph a -> coalescedNodes a' = coalescedNodes a -> alias a' = alias a ->
  (forall m, m ∈ worklistMoves a' \/ m ∈ activeMoves a' -> m ∈ worklistMoves a \/ m ∈ activeMoves a) ->
  (forall p, waits a' p -> waits a p) -> small a -> small a'.
Proof using All.
  intros Hi Hg Hc Ha Hm Hw []. split; rewrite ?Hg; auto.
  - intros m Hin. rewrite Hg. auto.
  - intros x. rewrite (getAlias_core a a') by done. auto.
  - intros p Hp Hwp. by apply (sm_fixed0 p Hp), Hw.
Qed.

Lemma simplify_step t a : simplifyWorklist a <> [] -> small a -> inv a0 (simplify (t, a)).2 ->
  small (simplify (t, a)).2 /\ (measure (simplify (t, a)).2 < measure a)%nat.
Proof using All.
  intros Hne Hs Hi. destruct (last (simplifyWorklist a)) as [r|] eqn:Hr; [|by apply last_None in Hr].
  rewrite (simplify_small t a r (sm_edges a Hs) (iv_sym _ _ (sm_inv a Hs)) Hr) in *. split.
  - apply (small_same a); try done. intros p. unfold waits. cbn. rewrite elem_of_push.
    intros [?|[?|[?|[?| ->]]]]; rewrite ?(elem_of_pop _ _ _ Hr); tauto.
  - unfold measure. cbn. rewrite (length_pop _ _ Hr). lia.
Qed.

Lemma freezing_step a a1 r : inv a0 (freezeMovesFor a1 r) -> small a ->
  graph a1 = graph a -> coalescedNodes a1 = coalescedNodes a -> alias a1 = alias a ->
  worklistMoves a1 = worklistMoves a -> activeMoves a1 = activeMoves a ->
  (forall p, waits a1 p -> waits a p) -> (measure a1 < measure a)%nat ->
  small (freezeMovesFor a1 r) /\ (measure (freezeMovesFor a1 r) < measure a)%nat.
Proof using All.
  intros Hi Hs Hg Hc Ha Hw Hact Hwaits Hlt.
  destruct (freezeMovesFor_small a1 r) as (rem & Hrem & Hl).
  { intros m. rewrite Hg, Hw, Hact. apply (sm_moves a Hs). }
  destruct (freezeMovesFor_step a1 r) as [Hcore Hg' _ _]. unfold core in Hcore. injection Hcore as C1 C2 _ _ _ _ _ _ _ _.
  unfold lists in Hl. injection Hl as L1 L2 L3 L4 L5 L6. split.
  - apply (small_same a); [done|congruence|congruence|congruence| | |done].
    + intros m. rewrite L5, L6, Hw, <- Hact. intros [?|?]; [by left|right; auto].
    + intros p Hp. apply Hwaits. revert Hp. unfold waits. by rewrite L1, L2, L3, L4.
  - unfold measure in *. rewrite L1, L2, L3, L5. lia.
Qed.

Lemma freeze_step_small a : freezeWorklist a <> [] -> small a -> inv a0 (freeze a) ->
  small (freeze a) /\ (measure (freeze a) < measure a)%nat.
Proof using All.
  intros Hne Hs Hi. unfold freeze in *. destruct (last (freezeWorklist a)) as [r|] eqn:Hr; [|by apply last_None in Hr].
  apply freezing_step; try done.
  - intros p. unfold waits. cbn. rewrite elem_of_push, !(elem_of_pop _ _ p Hr). tauto.
  - unfold measure. cbn. unfold push. rewrite length_app, (length_pop _ _ Hr). cbn. lia.
Qed.

Lemma selectSpill_step_small a : spillWorklist a <> [] -> small a -> inv a0 (selectSpill a) ->
  small (selectSpill a) /\ (measure (selectSpill a) < measure a)%nat.
Proof using All.
  intros Hne Hs Hi. unfold selectSpill in *.
  destruct (select_max a (spillWorklist a) 0 None) as [[[d r] j]|] eqn:E.
  2:{ exfalso. by apply (select_max_some a (spillWorklist a) 0 None (or_introl Hne)). }
  apply select_max_spec in E as [[_ Hj]|?]; [|done]. rewrite Nat.sub_0_r in Hj.
  apply freezing_step; try done.
  - intros p. unfold waits. cbn. rewrite elem_of_push.
    assert (Hd : p ∈ delete j (spillWorklist a) -> p ∈ spillWorklist a).
    { rewrite <- (take_drop_middle _ _ _ Hj) at 2. rewrite delete_take_drop, !elem_of_app, elem_of_cons. tauto. }
    intros [[?| ->]|[?|[?|?]]]; [tauto| |tauto|tauto|tauto]. right. right. left. by apply list_elem_of_lookup_2 in Hj.
  - unfold measure. cbn. unfold push. rewrite length_app, (length_delete (spillWorklist a) j) by (by exists r). cbn.
    apply lookup_lt_Some in Hj. lia.
Qed.
(** Combining keeps what is move-related so. *)
Lemma combine_related t a u v x : u <> v -> MoveRelated (graph a) x = true ->
  MoveRelated (graph (combine u v (t, a)).2) x = true.
Proof using All.
  intros Hne (y & Hy)%MoveRelated_iff. apply MoveRelated_iff. exists y.
  apply (combined_pref u v a _ (cb_graph _ _ _ _ (combine_spec u v t a Hne))). by left.
Qed.

Lemma combine_step_small t a u v : small a -> u < v -> u ∈ N -> v ∈ N -> u ∉ coalescedNodes a -> v ∉ coalescedNodes a ->
  MoveRelated (graph a) u = true -> inv a0 (combine u v (t, a)).2 ->
  small (combine u v (t, a)).2 /\ (measure (combine u v (t, a)).2 <= measure a)%nat.
Proof using All.
  intros Hs Hlt Hu Hv Hcu Hcv Hmu Hi. assert (Hne : u <> v) by lia.
  pose proof (combine_small t a u v (sm_edges a Hs) Hu Hv Hne) as Hl.
  destruct (combine_spec u v t a Hne) as [Cco Cal _ _ _ _ Cg]. destruct (combine u v (t, a)) as [t' a']. cbn [snd] in *.
  pose proof (combined_adj u v a a' Cg) as HE. pose proof (combined_pref u v a a' Cg) as HP. clear Cg.
  destruct (getAlias_combine a a' u v (iv_alias _ _ (sm_inv a Hs)) Hcu Hcv Hlt Cco Cal) as [_ HA].
  assert (Hmr : forall x, MoveRelated (graph a) x = true -> MoveRelated (graph a') x = true).
  { intros x (y & Hy)%MoveRelated_iff. apply MoveRelated_iff. exists y. apply HP. by left. }
  assert (Hmr' : forall x, MoveRelated (graph a') x = true -> x = u \/ MoveRelated (graph a) x = true).
  { intros x (y & Hy)%MoveRelated_iff. apply HP in Hy as [Hy|(n & Hn & _ & [[-> ->]|[-> ->]])]; [|by left|];
      right; apply MoveRelated_iff; [by exists y|]. exists v. by apply (iv_psym _ _ (sm_inv a Hs)). }
  unfold lists in Hl. injection Hl as L1 L2 L3 L4 L5 L6. split; [split|].
  - done.
  - intros x y. rewrite HE. intros [Hxy|(n & Hn & _ & _ & Hnu & Hxy)]; [by apply (sm_edges a Hs)|].
    destruct (sm_edges a Hs _ _ Hn) as (_ & HnN & _). by destruct Hxy as [[-> ->]|[-> ->]].
  - intros m. rewrite L5, L6. intros Hm. destruct (sm_moves a Hs m Hm). auto.
  - intros x Hx. rewrite HA. case_decide as Hd; [by apply Hmr|].
    apply Hmr' in Hx as [->|Hx]; [rewrite (getAlias_self a u Hcu); by apply Hmr|by apply Hmr, (sm_alias a Hs)].
  - intros p Hp. intros Hw. apply (sm_fixed a Hs p Hp). revert Hw. unfold waits. rewrite L1, L2, L3, L4.
    intros [?|[?%remove_first_sub|[?%remove_first_sub|?]]]; tauto.
  - unfold measure. rewrite L1, L2, L3, L5. pose proof (length_remove_first v (freezeWorklist a)).
    pose proof (length_remove_first v (spillWorklist a)). lia.
Qed.

Lemma coalesce_step_small t a : worklistMoves a <> [] -> small a -> inv a0 (coalesce (t, a)).2 ->
  small (coalesce (t, a)).2 /\ (measure (coalesce (t, a)).2 < measure a)%nat.
Proof using All.
  intros Hne Hs Hi. unfold coalesce in *. destruct (last (worklistMoves a)) as [m|] eqn:Hm; [|by apply last_None in Hm].
  assert (Hin : m ∈ worklistMoves a) by (rewrite (elem_of_pop _ _ m Hm); by right).
  destruct (sm_moves a Hs m (or_introl Hin)) as [Hm1 Hm2].
  set (a1 := set_worklistMoves _ a) in *.
  assert (Hal : forall r, getAlias a1 r = getAlias a r) by (intros; by apply getAlias_core).
  rewrite !Hal in *.
  destruct (if getAlias a m.1 <? getAlias a m.2 then _ else _) as [u v] eqn:Euv.
  assert (Huv : MoveRelated (graph a) u = true /\ MoveRelated (graph a) v = true /\
    u ∉ coalescedNodes a /\ v ∉ coalescedNodes a /\ u ∈ N /\ v ∈ N /\ u <= v).
  { destruct (moves_nodes m (iv_moves _ _ (sm_inv a Hs) m Hin)) as [N1 N2].
    pose proof (iv_nodes _ _ (sm_inv a Hs) _ N1) as N1'. pose proof (iv_nodes _ _ (sm_inv a Hs) _ N2) as N2'.
    rewrite HN0 in N1', N2'. pose proof (iv_alias _ _ (sm_inv a Hs)) as Hok.
    pose proof (getAlias_root a m.1 Hok). pose proof (getAlias_root a m.2 Hok).
    pose proof (sm_alias a Hs _ Hm1). pose proof (sm_alias a Hs _ Hm2).
    destruct (Z.ltb_spec (getAlias a m.1) (getAlias a m.2)); injection Euv as <- <-; (repeat (split; [done|])); lia. }
  destruct Huv as (Mu & Mv & Hcu & Hcv & Hu & Hv & Hle). clear Euv.
  assert (Hpop : forall m', m' ∈ pop (worklistMoves a) -> m' ∈ worklistMoves a).
  { intros m' ?. rewrite (elem_of_pop _ _ m' Hm). by left. }
  assert (Hlen : length (worklistMoves a) = Datatypes.S (length (pop (worklistMoves a)))) by (by eapply length_pop).
  assert (Hsame : forall a', inv a0 a' -> graph a' = graph a -> coalescedNodes a' = coalescedNodes a -> alias a' = alias a ->
    lists a' = lists a1 \/ lists a' = (simplifyWorklist a, freezeWorklist a, spillWorklist a, selectStack a,
      (pop (worklistMoves a), push (activeMoves a) m)) -> small a' /\ (measure a' < measure a)%nat).
  { intros a' Hi' Hg Hc Ha Hl. assert (Hl' : waits a' = waits a /\ worklistMoves a' = pop (worklistMoves a) /\
      (forall m', m' ∈ activeMoves a' -> m' ∈ activeMoves a \/ m' = m) /\ measure a' = measure a1).
    { unfold waits, measure. unfold lists in Hl. destruct Hl as [Hl|Hl]; injection Hl as -> -> -> -> -> ->; cbn;
        (split; [done|]); (split; [done|]); (split; [|done]); [by left|]. intros m'. by rewrite elem_of_push. }
    destruct Hl' as (Hw & Hwm & Hact & Hms). split.
    - apply (small_same a); [done|done|done|done| |by rewrite Hw|done]. intros m'. rewrite Hwm.
      intros [?|[?| ->]%Hact]; auto.
    - rewrite Hms. unfold measure, a1. cbn. lia. }
  destruct (Z.eqb_spec u v) as [->|Hneq].
  { cbn [snd] in *. rewrite addToWorklist_move_related in * by done. apply Hsame; auto. }
  destruct (HasEdge (graph a1) u v).
  { cbn [snd] in *. rewrite !addToWorklist_move_related in * by (rewrite ?addToWorklist_move_related; done).
    apply Hsame; auto. }
  destruct (conservativeCoalesce a1 u v); [|apply Hsame; auto].
  set (a2 := set_coalescedMoves _ a1) in *.
  assert (Hi2 : inv a0 a2) by (apply (inv_moves_change a0 a); try done; apply Hs).
  destruct (Hsame a2 Hi2 eq_refl eq_refl eq_refl (or_introl eq_refl)) as [Hs2 Hm2'].
  pose proof (combine_step_small t a2 u v Hs2 ltac:(lia) Hu Hv Hcu Hcv Mu) as Hc.
  pose proof (combine_related t a2 u v u Hneq Mu) as Hr.
  destruct (combine u v (t, a2)) as [t' a3]. cbn [snd] in *.
  rewrite (addToWorklist_move_related a3 u Hr) in *. destruct (Hc Hi) as [Hs3 Hm3]. split; [done|lia].
Qed.

(** Every round is such a step, so the loop ends. *)
Lemma small_step st st' : alloc_step st = Some st' -> small st.2 -> small st'.2 /\ (measure st'.2 < measure st.2)%nat.
Proof using All.
  intros Hstep Hs. pose proof (inv_step a0 moves_nodes moves_full st st' Hstep (sm_inv _ Hs)) as Hi. revert Hstep.
  destruct st as [t a]. unfold alloc_step. cbn [fst snd] in *.
  destruct (simplifyWorklist a) eqn:E1; [|intros E; apply (inj Some) in E; subst st'; apply simplify_step; [congruence|exact Hs|exact Hi]].
  destruct (worklistMoves a) eqn:E2; [|intros E; apply (inj Some) in E; subst st'; apply coalesce_step_small; [congruence|exact Hs|exact Hi]].
  destruct (freezeWorklist a) eqn:E3; [|intros E; apply (inj Some) in E; subst st'; apply freeze_step_small; [congruence|exact Hs|exact Hi]].
  destruct (spillWorklist a) eqn:E4; [done|]. intros E; apply (inj Some) in E; subst st'. apply selectSpill_step_small; [congruence|exact Hs|exact Hi].
Qed.

Lemma small_main_loop fuel st : small st.2 -> (measure st.2 < fuel)%nat ->
  exists st', main_loop fuel st = Some st' /\ small st'.2.
Proof using All.
  revert st. induction fuel as [|fuel IH]; intros st Hs Hf; [lia|]. cbn [main_loop].
  destruct (alloc_step st) as [st1|] eqn:E; [|eauto]. destruct (small_step st st1 E Hs). apply IH; [done|lia].
Qed.
End Steps.
End Small.

(** ** Counting rounds of loops *)

Section Count.
  Context `{RangeOrder} {A : Type} (f : A -> nat) (c : nat).

Lemma for_range_count {V} (m : gmap Z V) body (st : nat * A) :
  (forall k v t a, m !! k = Some v -> f (body (k, v) (t, a)).2 <= f a + c)%nat ->
  (f (for_range m body st).2 <= f st.2 + c * size m)%nat.
Proof.
  intros Hb. unfold for_range.
  assert (Hl : length (range st.1 m) = size m) by (by rewrite (range_perm st.1 m), length_map_to_list).
  rewrite <- Hl. assert (Hin : forall k v, (k, v) ∈ range st.1 m -> m !! k = Some v).
  { intros k v. rewrite (range_perm st.1 m). apply elem_of_map_to_list. }
  clear Hl. revert Hin. generalize (range st.1 m), (Datatypes.S st.1). intros l. destruct st as [t0 a]. cbn [snd].
  revert a. clear t0. induction l as [|[k v] l IH]; intros a t Hin; cbn [foldl length snd]; [lia|].
  pose proof (Hb k v t a ltac:(apply Hin; left)) as H1. destruct (body (k, v) (t, a)) as [t1 a1]. cbn [snd] in H1.
  pose proof (IH a1 t1 ltac:(intros; apply Hin; by right)). lia.
Qed.

Lemma for_set_count (s : RegSet) body (st : nat * A) :
  (forall k t a, k ∈ s -> f (body k (t, a)).2 <= f a + c)%nat -> (f (for_set s body st).2 <= f st.2 + c * size s)%nat.
Proof.
  intros Hb. unfold for_set.
  replace (size s) with (size (gset_to_gmap tt s)) by (by rewrite <- (size_dom (D := RegSet)), dom_gset_to_gmap).
  apply for_range_count. intros k v t a [Hk _]%lookup_gset_to_gmap_Some. by apply Hb.
Qed.
End Count.

(** ** The graph has preferences for its nodes only *)

Definition prefs_known (g : InterferenceGraph) : Prop := dom (Preferences g) ⊆ Nodes g.

Lemma known_AddNode g r : prefs_known g -> prefs_known (AddNode g r).
Proof.
  unfold prefs_known, AddNode, ensure_set. cbn. destruct (Preferences g !! r); [|rewrite dom_insert_L]; set_solver.
Qed.

Lemma known_AddEdge g r1 r2 : prefs_known g -> prefs_known (AddEdge g r1 r2).
Proof. intros Hg. unfold AddEdge. destruct (r1 =? r2); [done|]. by apply (known_AddNode _ r2), (known_AddNode _ r1). Qed.

Lemma known_AddPreference g r1 r2 : prefs_known g -> prefs_known (AddPreference g r1 r2).
Proof.
  intros Hg. unfold AddPreference. destruct (r1 =? r2); [done|].
  pose proof (known_AddNode _ r2 (known_AddNode _ r1 Hg)) as Hk.
  assert (H1 : {[r1; r2]} ⊆ Nodes (AddNode (AddNode g r1) r2)) by (cbn; set_solver).
  set (g' := AddNode (AddNode g r1) r2) in *. clearbody g'. unfold prefs_known, add_to in *. cbn.
  rewrite !dom_insert_L. set_solver.
Qed.

Lemma known_Build `{RangeOrder} t fn live : prefs_known (BuildInterferenceGraph t fn live).2.
Proof.
  unfold BuildInterferenceGraph.
  assert (H0 : prefs_known (foldl AddNode NewInterferenceGraph (Rtl.fn_Params fn))).
  { assert (Hg : prefs_known NewInterferenceGraph) by (unfold prefs_known; cbn; set_solver). revert Hg.
    generalize NewInterferenceGraph. induction (Rtl.fn_Params fn) as [|r l IH]; intros g Hg; [done|].
    apply IH, known_AddNode, Hg. }
  set (g0 := foldl _ _ _) in *. clearbody g0.
  assert (H1 : prefs_known (add_nodes live (t, g0)).2).
  { apply (for_range_inv _ _ prefs_known); [done|]. intros n s t' g Hn Hg.
    apply (for_set_inv _ _ prefs_known); [|intros; by apply known_AddNode]. apply (for_set_inv _ _ prefs_known); [done|]. intros; by apply known_AddNode. }
  set (st1 := add_nodes _ _) in *. clearbody st1.
  assert (H2 : prefs_known (add_edges (Rtl.fn_Code fn) live st1).2).
  { apply (for_range_inv _ _ prefs_known); [done|]. intros n i t' g Hn Hg. cbn beta iota.
    assert (Hd : prefs_known (for_set (set_at (Def live) n)
      (fun d st => def_edges i (set_at (LiveOut live) n) d st) (t', g)).2).
    { apply (for_set_inv _ _ prefs_known); [done|]. intros d t2 g2 _ Hg2. apply (for_set_inv _ _ prefs_known); [done|]. intros l t3 g3 _ Hg3.
      destruct (isMove i && isMoveSource i l); [done|]. by apply known_AddEdge. }
    destruct (isCall i); [|done]. apply (for_set_inv _ _ prefs_known); [done|]. intros r t2 g2 _ Hg2. exact Hg2. }
  set (st2 := add_edges _ _ _) in *. clearbody st2.
  assert (H3 : prefs_known (add_param_edges (Rtl.fn_Params fn) live st2).2).
  { unfold add_param_edges. revert st2 H2. induction (Rtl.fn_Params fn) as [|p l IH]; intros st2 H2; [done|].
    apply IH. destruct (reg_used live p); [|done]. apply (for_set_inv _ _ prefs_known); [done|]. intros r t2 g2 _ Hg2.
    destruct (negb (r =? p)); [|done]. by apply known_AddEdge. }
  set (st3 := add_param_edges _ _ _) in *. clearbody st3.
  apply (for_range_inv _ _ prefs_known); [done|]. intros n i t' g Hn Hg.
  destruct i as [|op args d succ| | | | | | | |]; try done. destruct op; try done. destruct args as [|a [|]]; try done.
  by apply known_AddPreference.
Qed.

(** ** The measure at the start *)

Lemma buildWorklists_measure `{RangeOrder} a t n :
  measure a = O -> (size (Nodes (graph a)) <= n)%nat ->
  (size (Preferences (graph a)) <= n)%nat -> (forall r, size (set_at (Preferences (graph a)) r) <= n)%nat ->
  (measure (buildWorklists (t, a)).2 <= 2 * n + n * n)%nat.
Proof.
  intros Hm Hn Hp Hs. unfold buildWorklists. cbn [snd].
  set (st1 := for_range _ _ (t, a)).
  assert (H1 : measure st1.2 = O /\ graph st1.2 = graph a).
  { apply for_range_inv; [done|]. intros p l t' a' _ [Hm' Hg']. unfold color_param. cbn [fst snd].
    destruct l; [destruct (reg_color _)|..]; done. }
  destruct H1 as [Hm1 Hg1]. rewrite Hg1. clearbody st1.
  set (st2 := for_set _ _ st1).
  assert (H2 : (measure st2.2 <= 2 * n)%nat /\ graph st2.2 = graph a).
  { split; [|apply for_set_inv; [done|]; intros r t' a' _ Hg; cbn [fst snd]; unfold classify_node].
    - unfold st2. etrans; [apply (for_set_count measure 2)|rewrite Hm1; lia].
      intros r t' a' _. cbn [fst snd]. unfold classify_node, measure. case_decide; [lia|].
      destruct (K <=? degree a' r)%nat; [|destruct (MoveRelated (graph a') r)]; cbn; unfold push; rewrite length_app; cbn; lia.
    - case_decide; [done|]. by destruct (K <=? degree a' r)%nat; [|destruct (MoveRelated (graph a') r)]. }
  destruct H2 as [Hm2 Hg2]. rewrite Hg2. clearbody st2.
  etrans; [apply (for_range_count measure n)|nia].
  intros r prefs t' a' Hr. etrans; [apply (for_set_count measure 1)|].
  - intros p t2 a2 _. cbn [fst snd]. destruct (r <? p); [|cbn [snd]; lia]. unfold measure. cbn. unfold push. rewrite length_app. cbn. lia.
  - specialize (Hs r). unfold set_at in Hs. rewrite Hr in Hs. cbn in *. lia.
Qed.

(** ** Small functions *)

Lemma main_loop_more `{RangeOrder} f f' st st' : main_loop f st = Some st' -> (f <= f')%nat -> main_loop f' st = Some st'.
Proof.
  revert f' st. induction f as [|f IH]; intros f' st Hr Hle; [done|]. destruct f' as [|f']; [lia|].
  cbn [main_loop] in *. destruct (alloc_step st); [|done]. apply IH; [done|lia].
Qed.

(** The pseudo-registers of a function. *)
Definition registers (fn : Rtl.Function) : RegSet := list_to_set (Rtl.fn_Params fn) ∪ code_regs (Rtl.fn_Code fn).

Lemma instr_regs_spec i : instr_regs i = instr_use i ∪ instr_def i.
Proof. destruct i as [| | | | | |b args [d|] s| | |[r|]]; cbn; try case_decide; set_solver. Qed.

Lemma code_regs_spec code r : r ∈ code_regs code <-> exists n i, code !! n = Some i /\ (r ∈ instr_def i \/ r ∈ instr_use i).
Proof.
  split; [|intros (n & i & Hn & Hr); by apply (elem_of_code_regs code n i)]. unfold code_regs.
  apply (map_fold_weak_ind (fun acc code => r ∈ acc -> exists n i, code !! n = Some i /\ (r ∈ instr_def i \/ r ∈ instr_use i))).
  - intros Hr. by apply not_elem_of_empty in Hr.
  - intros n i m acc Hn IH Hr. apply elem_of_union in Hr as [Hr|Hr].
    + exists n, i. rewrite lookup_insert_eq. apply elem_of_union in Hr. auto.
    + destruct (IH Hr) as (n' & i' & Hn' & Hr'). exists n', i'. rewrite lookup_insert_ne by congruence. auto.
Qed.

(** [GetAllRegisters] is that set, in any order. *)
Lemma GetAllRegisters_registers `{RangeOrder} t fn : GetAllRegisters t fn = registers fn.
Proof.
  apply set_eq. intros r. unfold registers. rewrite elem_of_union, code_regs_spec. unfold GetAllRegisters.
  destruct (for_range_spec (Rtl.fn_Code fn) (fun '(_, instr) st => (st.1, st.2 ∪ instr_regs instr))
    (fun s => (r ∈ s -> r ∈ (list_to_set (Rtl.fn_Params fn) : RegSet) \/
       exists n i, Rtl.fn_Code fn !! n = Some i /\ (r ∈ instr_def i \/ r ∈ instr_use i)) /\
       (list_to_set (Rtl.fn_Params fn) : RegSet) ⊆ s)
    (fun _ i s => instr_regs i ⊆ s) (t, list_to_set (Rtl.fn_Params fn))) as [[H1 H2] HQ].
  - cbn [snd]. split; [by left|done].
  - intros n i t' s Hn [Hs Hsub]. cbn [fst snd]. split; [|set_solver]. split; [|set_solver].
    rewrite elem_of_union, instr_regs_spec, elem_of_union. intros [?|Hr]; [auto|]. right. exists n, i. tauto.
  - intros n i n' i' t' s _ _ _ Hq. cbn [fst snd]. set_solver.
  - split; [done|]. intros [Hr|(n & i & Hn & Hr)]; [by apply H2|]. apply (HQ n i Hn).
    rewrite instr_regs_spec, elem_of_union. tauto.
Qed.

(** The rounds that suffice for [K] registers. *)
Definition enough_rounds : nat := (2 * K + K * K + 1)%nat.

Section Total.
  Context {order2 : RangeOrder} (fn : Rtl.Function) (live : LivenessInfo) (t t' : nat).
  Context (li : live_info fn live).

Let g := (BuildInterferenceGraph t fn live).2.
Let a0 := (buildWorklists (t', NewAllocator fn g)).2.

Lemma nodes_registers : Nodes g ⊆ registers fn.
Proof using li.
  intros r. unfold g. rewrite (graph_nodes fn live t li). unfold registers. intros [Hp|(n & s & Hs & Hr)].
  - apply elem_of_union_l. by apply elem_of_list_to_set.
  - apply elem_of_union_r. rewrite (li_def _ _ li), lookup_fmap in Hs. apply fmap_Some in Hs as (i & Hi & ->).
    apply (elem_of_code_regs _ n i); [done|]. destruct Hr as [Hr|Hr]; [by left|right].
    unfold set_at in Hr. rewrite (li_use _ _ li), lookup_fmap, Hi in Hr. done.
Qed.

Lemma adj_nodes x y : adj g x y -> x ∈ Nodes g /\ y ∈ Nodes g /\ x <> y.
Proof using li.
  unfold g. rewrite !(graph_nodes fn live t li), (graph_adj fn live t li). intros [Hne Hi].
  assert (Hg : forall a b, interferes fn live a b -> graph_reg fn live a /\ graph_reg fn live b).
  { intros a b [Hd|(Hp & _ & Hb)].
    - by apply (def_interferes_reg fn live (live_regs fn live li)).
    - split; [by left|done]. }
  destruct Hi as [Hi|Hi]; apply Hg in Hi as [? ?]; done.
Qed.

Lemma pref_nodes x y : pref g x y -> y ∈ Nodes g.
Proof using li.
  unfold g. rewrite (graph_nodes fn live t li), (graph_pref fn live t li).
  intros [_ [Hm|Hm]]; destruct (moves_reg fn live _ _ (li_def _ _ li) (li_use _ _ li) Hm); done.
Qed.

Context (po : params_ok fn) (few : (size (registers fn) <= K)%nat).

Lemma nodes_few : (size (Nodes g) <= K)%nat.
Proof using All. etrans; [apply subseteq_size, nodes_registers|done]. Qed.

Lemma start_small : small (Nodes g) a0 a0.
Proof using All.
  pose proof (start_facts fn live t po li t') as Hst. fold g a0 in Hst.
  pose proof (st_graph _ _ _ Hst) as Hg. split.
  - apply Hst.
  - rewrite Hg. intros x y. apply adj_nodes.
  - intros m [Hm|Hm]; [|rewrite (proj2 (st_empty _ _ _ Hst)) in Hm; by apply not_elem_of_nil in Hm].
    apply (st_moves _ _ _ Hst) in Hm. rewrite Hg, !MoveRelated_iff. split; [eauto|]. exists m.1.
    rewrite <- Hg in *. by apply (iv_psym _ _ (st_inv _ _ _ Hst)).
  - intros x. rewrite getAlias_self; [done|]. rewrite (st_uncoalesced _ _ _ Hst). set_solver.
  - intros p Hp [Hw|[Hw|[Hw|Hw]]]; [by apply (st_queued _ _ _ Hst p); [unfold queued; tauto|]..|].
    rewrite (proj1 (st_empty _ _ _ Hst)) in Hw. by apply not_elem_of_nil in Hw.
Qed.

Lemma start_measure : (measure a0 < enough_rounds)%nat.
Proof using All.
  pose proof (buildWorklists_measure (NewAllocator fn g) t' K eq_refl nodes_few) as Hm. cbn [graph NewAllocator] in Hm.
  unfold enough_rounds. fold a0 in Hm. enough (measure a0 <= 2 * K + K * K)%nat by lia. apply Hm.
  - rewrite <- (size_dom (D := RegSet)). etrans; [apply subseteq_size, known_Build|apply nodes_few].
  - intros r. etrans; [apply subseteq_size|apply nodes_few]. intros y Hy. by eapply pref_nodes.
Qed.

Lemma Allocate_small : exists st', valid_alloc fn live (buildResult (assignColors st')).2 /\
  forall fuel, (enough_rounds <= fuel)%nat -> Allocate fuel (t', NewAllocator fn g) = Some (buildResult (assignColors st')).
Proof using All.
  pose proof (start_facts fn live t po li t') as Hst. fold g a0 in Hst. pose proof (st_graph _ _ _ Hst) as Hg.
  destruct (small_main_loop (Nodes g) nodes_few a0
    (fun m Hm => proj1 (start_moves fn live t po li t' m Hm)) (fun m p Hm => proj2 (start_moves fn live t po li t' m Hm) p)
    ltac:(by rewrite Hg) enough_rounds _ start_small start_measure) as (st' & Hrun & Hs).
  exists st'. split.
  - apply (Allocate_unstacked fn live t t' enough_rounds st' po li ltac:(done) Hrun).
    intros p Hp Hna Hin. apply (sm_fixed _ _ _ Hs p); [|unfold waits; tauto].
    apply list_elem_of_lookup in Hp as (i & Hi). eexists. apply (st_pre _ _ _ Hst). exists i.
    split; [done|]. unfold g. rewrite (graph_across fn live t li). done.
  - intros fuel Hf. unfold Allocate. by rewrite (main_loop_more _ fuel _ _ Hrun Hf).
Qed.
End Total.

#[local] Arguments push : simpl never.
#[local] Arguments pop : simpl never.

Section Clique.
  Context `{RangeOrder} (g : InterferenceGraph) (C : RegSet).
  Context (HC : size C = (K + 1)%nat) (Hadj : forall r, r ∈ C -> set_at (Edges g) r = C ∖ {[r]}).
  Context (Hpref : forall r, MoveRelated g r = false).

Record base (a : Allocator) : Prop := {
  bs_graph : graph a = g;
  bs_coalesced : coalescedNodes a = ∅
}.

Lemma degree_clique a r : base a -> r ∈ C -> degree a r = size (C ∖ ({[r]} ∪ onSelectStack a)).
Proof using All.
  intros [Hg Hc] Hr. unfold degree. rewrite Hg, (Hadj r Hr). f_equal. apply set_eq. intros x.
  rewrite elem_of_filter. unfold counted. rewrite Hc. set_solver.
Qed.

Lemma size_without (s : RegSet) k : s ⊆ C -> size s = k -> size (C ∖ s) = (K + 1 - k)%nat.
Proof using All. intros Hs <-. by rewrite size_difference, HC by done. Qed.

Lemma decrementDegree_clique a r : base a -> r ∈ C ->
  decrementDegree a r =
    if decide (degree a r = K - 1)%nat
    then set_simplifyWorklist (push (simplifyWorklist a) r) (set_spillWorklist (remove_first r (spillWorklist a)) a)
    else a.
Proof using All.
  intros [Hg Hc] Hr. unfold decrementDegree. rewrite Hc, decide_False by set_solver.
  case_decide; [|done]. cbn [graph set_spillWorklist]. by rewrite Hg, Hpref.
Qed.

(** Two registers, [x] on the stack and [y] next to be pushed. *)
Definition ping (x y : Z) (a : Allocator) : Prop :=
  x ∈ C /\ y ∈ C /\ x <> y /\ base a /\ x ∈ onSelectStack a /\ onSelectStack a ⊆ {[x; y]} /\
  last (simplifyWorklist a) = Some y.

Lemma ping_pong x y t a : ping x y a -> ping y x (simplify (t, a)).2.
Proof using All.
  intros (Hx & Hy & Hne & Hb & Hin & Hsub & Hl). unfold simplify. rewrite Hl.
  set (a1 := set_onSelectStack _ _).
  assert (Hb1 : base a1) by (by destruct Hb; split).
  assert (Hs1 : onSelectStack a1 = {[x; y]}) by (cbn; set_solver).
  replace (set_at (Edges (graph a1)) y) with (C ∖ {[y]}) by (by rewrite (bs_graph _ Hb1), Hadj).
  destruct (for_set_spec (C ∖ {[y]}) (fun n st => (st.1, decrementDegree st.2 n))
    (fun a' => base a' /\ onSelectStack a' = {[x; y]})
    (fun n a' => n = x -> last (simplifyWorklist a') = Some x) (t, a1)) as [[Hb2 Hs2] HQ].
  - done.
  - intros n t' a' Hn [Hb' Hs']. cbn [fst snd]. rewrite decrementDegree_clique by set_solver.
    rewrite (degree_clique a' n Hb') by set_solver. rewrite Hs'.
    case_decide as Hd; [split; [by split; [destruct Hb'; split|]|]|split; [done|]].
    + intros ->. cbn. unfold push. by rewrite last_snoc.
    + intros ->. exfalso. apply Hd. rewrite (size_without _ 2); [unfold NumAllocatableIntRegs; lia|set_solver|].
      replace ({[x]} ∪ {[x; y]} : RegSet) with ({[x; y]} : RegSet) by set_solver.
      rewrite size_union, !size_singleton by set_solver. done.
  - intros n n' t' a' Hn Hn' [Hb' Hs'] Hq ->. specialize (Hq eq_refl). cbn [fst snd].
    rewrite decrementDegree_clique by set_solver. rewrite (degree_clique a' n' Hb') by set_solver. rewrite Hs'.
    case_decide as Hd; [|done]. destruct (decide (n' = x)) as [->|Hnx]; [cbn; unfold push; by rewrite last_snoc|].
    exfalso. rewrite (size_without _ 3) in Hd; [unfold NumAllocatableIntRegs in Hd; lia|set_solver|].
    rewrite !size_union, !size_singleton by set_solver. done.
  - split; [done|]. split; [done|]. split; [by apply not_eq_sym|]. split; [done|]. rewrite Hs2.
    split; [set_solver|]. split; [set_solver|]. apply (HQ x); [set_solver|done].
Qed.

Lemma simplify_next t a y : last (simplifyWorklist a) = Some y -> alloc_step (t, a) = Some (simplify (t, a)).
Proof using All. intros Hl. unfold alloc_step. cbn [snd]. by destruct (simplifyWorklist a). Qed.

Lemma ping_forever fuel x y st : ping x y st.2 -> main_loop fuel st = None.
Proof using All.
  revert x y st. induction fuel as [|fuel IH]; intros x y [t a] Hp; [done|]. cbn [main_loop].
  pose proof Hp as (_ & _ & _ & _ & _ & _ & Hl). rewrite (simplify_next t a y Hl). eapply IH, ping_pong, Hp.
Qed.

(** The first two rounds: a spill candidate, after which all others look
    simple. *)
Lemma first_push t a r : base a -> onSelectStack a = ∅ -> simplifyWorklist a = [r] -> r ∈ C ->
  exists y, ping r y (simplify (t, a)).2.
Proof using All.
  intros Hb Hs Hl Hr. unfold simplify. rewrite Hl. cbn [last].
  set (a1 := set_onSelectStack _ _).
  assert (Hb1 : base a1) by (by destruct Hb; split).
  assert (Hs1 : onSelectStack a1 = {[r]}) by (cbn; set_solver).
  replace (set_at (Edges (graph a1)) r) with (C ∖ {[r]}) by (by rewrite (bs_graph _ Hb1), Hadj).
  assert (Hdeg : forall a' n, base a' -> onSelectStack a' = {[r]} -> n ∈ C ∖ {[r]} -> degree a' n = (K - 1)%nat).
  { intros a' n Hb' Hs' Hn. rewrite (degree_clique a' n Hb') by set_solver. rewrite Hs', (size_without _ 2); [done|set_solver|].
    rewrite size_union, !size_singleton by set_solver. done. }
  destruct (for_set_spec (C ∖ {[r]}) (fun n st => (st.1, decrementDegree st.2 n))
    (fun a' => (base a' /\ onSelectStack a' = {[r]}) /\ forall n, n ∈ simplifyWorklist a' -> n ∈ C ∖ {[r]})
    (fun n a' => n ∈ simplifyWorklist a') (t, a1)) as [[[Hb2 Hs2] Hall] HQ].
  - split; [done|]. intros n Hn. by apply not_elem_of_nil in Hn.
  - intros n t' a' Hn [[Hb' Hs'] Ha']. cbn [fst snd]. rewrite decrementDegree_clique by set_solver.
    rewrite (Hdeg a' n) by done. rewrite decide_True by done. cbn. split; [split|].
    + by destruct Hb'.
    + intros n'. rewrite elem_of_push. intros [?| ->]; auto.
    + rewrite elem_of_push. by right.
  - intros n n' t' a' Hn Hn' [[Hb' Hs'] Ha'] Hq. cbn [fst snd]. rewrite decrementDegree_clique by set_solver.
    case_decide; [|done]. cbn. rewrite elem_of_push. by left.
  - set (a2 := (for_set _ _ _).2) in *. destruct (last (simplifyWorklist a2)) as [y|] eqn:El.
    + exists y. assert (Hy : y ∈ C ∖ {[r]}) by (apply Hall, last_Some_elem_of, El).
      split; [done|]. split; [set_solver|]. split; [set_solver|]. split; [done|]. rewrite Hs2.
      split; [set_solver|]. split; [set_solver|done].
    + exfalso. apply last_None in El.
      destruct (set_choose_L (C ∖ {[r]})) as [n Hn].
      { intros E. assert (Hsz : size (C ∖ {[r]}) = K) by (rewrite (size_without _ 1); [done|set_solver|by rewrite size_singleton]).
        by rewrite E, size_empty in Hsz. }
      specialize (HQ n Hn). rewrite El in HQ. by apply not_elem_of_nil in HQ.
Qed.

(** A state in which all registers of the clique wait to be spilled. *)
Lemma spill_forever fuel t a : base a -> onSelectStack a = ∅ -> activeMoves a = [] -> worklistMoves a = [] ->
  simplifyWorklist a = [] -> freezeWorklist a = [] -> spillWorklist a <> [] -> (forall r, r ∈ spillWorklist a -> r ∈ C) ->
  main_loop fuel (t, a) = None.
Proof using All.
  intros Hb Hs Hact Hm Hl Hf Hne Hsp. destruct fuel as [|fuel]; [done|]. cbn [main_loop].
  assert (E : alloc_step (t, a) = Some (t, selectSpill a)).
  { unfold alloc_step. cbn [fst snd]. rewrite Hl, Hm, Hf. by destruct (spillWorklist a). }
  rewrite E. unfold selectSpill.
  destruct (select_max a (spillWorklist a) 0 None) as [[[d r] j]|] eqn:Em.
  2:{ exfalso. by apply (select_max_some a (spillWorklist a) 0 None (or_introl Hne)). }
  apply select_max_spec in Em as [[_ Hj]|?]; [|done]. rewrite Nat.sub_0_r in Hj.
  assert (Hr : r ∈ C) by (apply Hsp; by apply list_elem_of_lookup_2 in Hj).
  unfold freezeMovesFor. cbn [activeMoves set_simplifyWorklist set_spillWorklist]. rewrite Hact. cbn [foldl].
  set (a1 := set_activeMoves _ _). assert (Hl1 : simplifyWorklist a1 = [r]) by (cbn; by rewrite Hl).
  destruct fuel as [|fuel]; [done|]. cbn [main_loop]. rewrite (simplify_next t a1 r) by (by rewrite Hl1).
  destruct (first_push t a1 r) as [y Hy]; [by destruct Hb|done|done|done|]. by eapply ping_forever.
Qed.
End Clique.

(** All registers of a clique start as spill candidates. *)
Lemma clique_forever `{RangeOrder} (fn : Rtl.Function) (g : InterferenceGraph) fuel t :
  Rtl.fn_Params fn = [] -> size (Nodes g) = (K + 1)%nat ->
  (forall r, r ∈ Nodes g -> set_at (Edges g) r = Nodes g ∖ {[r]}) -> (forall r, MoveRelated g r = false) ->
  Allocate fuel (t, NewAllocator fn g) = None.
Proof.
  intros Hp HC Hadj Hpref. unfold Allocate.
  assert (Hpn : forall r, set_at (Preferences g) r = ∅).
  { intros r. apply set_eq. intros x. split; [|set_solver]. intros Hx. exfalso.
    assert (Hm : MoveRelated g r = true) by (apply MoveRelated_iff; by exists x). by rewrite Hpref in Hm. }
  assert (Hpre : precoloredParams (NewAllocator fn g) = ∅) by (cbn; by rewrite Hp).
  unfold buildWorklists. cbn [snd]. rewrite Hpre.
  set (st1 := for_range ∅ _ _).
  assert (H1 : st1.2 = NewAllocator fn g).
  { apply (for_range_inv _ _ (fun a => a = NewAllocator fn g)); [done|]. intros k v t' a Hk. by rewrite lookup_empty in Hk. }
  rewrite H1. cbn [graph NewAllocator]. set (st2 := for_set (Nodes g) _ _).
  set (P a := base g a /\ precoloredParams a = ∅ /\
    (onSelectStack a = ∅ /\ activeMoves a = [] /\ worklistMoves a = []) /\
    (simplifyWorklist a = [] /\ freezeWorklist a = []) /\ forall r, r ∈ spillWorklist a -> r ∈ Nodes g).
  assert (H2 : P st2.2 /\ forall r, r ∈ Nodes g -> r ∈ spillWorklist st2.2).
  { apply (for_set_spec _ _ P (fun r a => r ∈ spillWorklist a)).
    - rewrite H1. split; [done|]. split; [done|]. split; [done|]. split; [done|]. intros r Hr. by apply not_elem_of_nil in Hr.
    - intros r t' a Hr (Hb & Hpa & Ho & Hl & Hs). cbn [fst snd]. unfold classify_node. rewrite Hpa, lookup_empty.
      rewrite decide_False by (by intros []).
      assert (Hd : degree a r = K).
      { destruct Ho as [Ho _]. rewrite (degree_clique g (Nodes g) HC Hadj Hpref a r Hb Hr), Ho, union_empty_r_L.
        apply (size_without g (Nodes g) HC Hadj Hpref _ 1); [clear -Hr; set_solver|apply size_singleton]. }
      rewrite Hd. change (K <=? K)%nat with true. cbn. rewrite elem_of_push. split; [|by right]. split; [by destruct Hb|]. split; [done|]. split; [done|]. split; [done|].
      intros r'. cbn. rewrite elem_of_push. intros [?| ->]; auto.
    - intros r r' t' a Hr Hr' (Hb & Hpa & Ho & Hl & Hs) Hq. cbn [fst snd]. unfold classify_node. case_decide; [done|].
      destruct (K <=? degree a r')%nat; [|by destruct (MoveRelated (graph a) r')]. cbn. rewrite elem_of_push. by left. }
  destruct H2 as [(Hb & Hpa & (Ho1 & Ho2 & Ho3) & (Hl1 & Hl2) & Hs) HQ]. rewrite (bs_graph _ _ Hb).
  set (st3 := for_range (Preferences g) _ _).
  assert (H3 : st3.2 = st2.2).
  { apply (for_range_inv _ _ (fun a => a = st2.2)); [done|]. intros r prefs t' a Hr ->.
    apply (for_set_inv _ _ (fun a => a = st2.2)); [done|]. intros p t2 a Hpp ->. specialize (Hpn r). unfold set_at in Hpn.
    rewrite Hr in Hpn. cbn in Hpn. subst prefs. by apply not_elem_of_empty in Hpp. }
  rewrite (surjective_pairing st3), H3.
  rewrite (spill_forever g (Nodes g) HC Hadj Hpref fuel st3.1 st2.2); try done.
  destruct (set_choose_L (Nodes g)) as [r Hr].
  { intros E. rewrite E, size_empty in HC. unfold NumAllocatableIntRegs in HC. lia. }
  intros E. specialize (HQ r Hr). rewrite E in HQ. by apply not_elem_of_nil in HQ.
Qed.
