(* ===== verification/ExampleTarget.v ===== *)
(** Targets to run examples on: calls whose result is a function of the callee
    and of its declared arguments, over any values and memory. *)

From S2P Require Import Prelude Target Conventions.
From S2P Require Import Ltl ConvertCall Semantics RtlSem Frame MachSem.
From Stdlib Require Import FunctionalExtensionality.

Section Calls.
  Context {V M : Type} (value : Sig -> callee V -> list V -> V) (tick : M -> M) (junk : V).

(** A callee leaves [value] in X0 and [junk] in the registers it need not
    preserve. *)
Definition clobbers (l : Loc) : bool := match l with Target.R r => negb (Conventions.IsCalleeSaved r) | _ => false end.

Definition example_call (sig : Sig) (f : callee V) (ls : Loc -> V) (m : M) : option ((Loc -> V) * M) :=
  let v := value sig f (ls <$> call_locs (callee_regs false f) (length (sig_Args sig))) in
  Some (fun l => if decide (l = Target.R X0) then v else if clobbers l then junk else ls l, tick m).

Definition example_call_value (sig : Sig) (f : callee V) (args : list V) (m : M) : option (V * M) :=
  Some (value sig f (take (length (sig_Args sig)) args), tick m).

Lemma call_loc_not_X8 regs i : (regs <= 8)%nat -> call_loc regs i <> Target.R X8.
Proof using.
  intros Hr. unfold call_loc. destruct (Nat.ltb_spec i regs); [|done]. intros [= E]. unfold X, X8 in E. unfold X in E. lia.
Qed.

Lemma callee_regs_le (f : callee V) : (callee_regs false f <= 8)%nat.
Proof using. destruct f; [done|apply maxRegArgs_le]. Qed.

Lemma example_call_X8 sig f (ls ls' : Loc -> V) m :
  (forall l, l <> Target.R X8 -> ls l = ls' l) -> example_call sig f ls m = example_call sig f ls' m.
Proof using.
  intros Hl. unfold example_call. f_equal. f_equal. apply functional_extensionality. intros l.
  assert (E : ls <$> call_locs (callee_regs false f) (length (sig_Args sig)) =
    ls' <$> call_locs (callee_regs false f) (length (sig_Args sig))).
  { unfold call_locs. rewrite <- !list_fmap_compose. apply list_fmap_ext. intros i x _. cbn. apply Hl, call_loc_not_X8, callee_regs_le. }
  rewrite E. case_decide; [done|]. destruct (clobbers l) eqn:Hp; [done|]. apply Hl. by intros ->.
Qed.

Lemma example_call_spec sig f args (ls : Loc -> V) m :
  (length (sig_Args sig) <= length args)%nat -> ls <$> call_locs (callee_regs false f) (length args) = args ->
  match example_call_value sig f args m, example_call sig f ls m with
  | Some (v, m1), Some (ls', m2) =>
      m1 = m2 /\ ls' (Target.R X0) = v /\ forall l, call_preserved l = true -> ls' l = ls l
  | None, None => True
  | _, _ => False
  end.
Proof using.
  intros Hlen Hargs. unfold example_call, example_call_value. split; [done|]. split.
  - rewrite decide_True by done. f_equal. rewrite <- Hargs at 1.
    unfold call_locs. rewrite <- !fmap_take, !take_seq. by rewrite !Nat.min_l by lia.
  - intros l Hl. rewrite decide_False by (by intros ->). destruct l as [r|k o t|]; cbn in Hl |- *; [by rewrite Hl|done|done].
Qed.

(** *** The calling convention of these calls *)

Definition outgoing_slot (l : Loc) : option (Z * Typ) :=
  match l with Target.S SlotOutgoing o t => Some (o, t) | _ => None end.

(** The stack arguments of a call with the declared arguments. *)
Definition example_slots (sig : Sig) : list (Z * Typ) := omap outgoing_slot (call_locs 8 (length (sig_Args sig))).

Lemma example_slots_elem sig i :
  (i < length (sig_Args sig))%nat -> (8 <= i)%nat -> (Z.of_nat (i - 8) * 8, Tlong) ∈ example_slots sig.
Proof using.
  intros Hi H8. apply list_elem_of_omap. exists (call_loc 8 i). unfold call_loc.
  destruct (Nat.ltb_spec i 8); [lia|]. split; [|done]. apply list_elem_of_lookup. exists i.
  apply call_locs_lookup. unfold call_loc. split; [done|]. destruct (Nat.ltb_spec i 8); [lia|done].
Qed.

Lemma arg_reg_visible i : (i < 8)%nat -> X (Z.of_nat i) ∉ reserved.
Proof using. intros Hi. unfold reserved. rewrite !elem_of_cons, elem_of_nil. unfold X16, X17, FP, LR, X29, X30, X. lia. Qed.

Lemma callee_regs_eight (f : callee V) : callee_regs false f = 8%nat.
Proof using.
  destruct f as [|s]; [done|]. cbn. unfold maxRegArgs. destruct (isVariadicCall _) as [b k]. by rewrite andb_false_r.
Qed.

Lemma example_args_visible sig (f : callee V) (ls1 ls2 : Loc -> V) :
  (forall r, r ∉ reserved -> ls1 (Target.R r) = ls2 (Target.R r)) ->
  (forall s, s ∈ example_slots sig -> ls1 (Target.S SlotOutgoing s.1 s.2) = ls2 (Target.S SlotOutgoing s.1 s.2)) ->
  ls1 <$> call_locs (callee_regs false f) (length (sig_Args sig)) =
  ls2 <$> call_locs (callee_regs false f) (length (sig_Args sig)).
Proof using.
  intros Hr Hs. rewrite callee_regs_eight. unfold call_locs. rewrite <- !list_fmap_compose. apply list_fmap_ext.
  intros k i [-> Hk]%lookup_seq. cbn. unfold call_loc. destruct (Nat.ltb_spec k 8).
  - apply Hr. by apply arg_reg_visible.
  - by apply (Hs (_, Tlong)), example_slots_elem.
Qed.

Lemma example_visible sig f (ls1 ls2 : Loc -> V) m :
  (forall r, r ∉ reserved -> ls1 (Target.R r) = ls2 (Target.R r)) ->
  (forall s, s ∈ example_slots sig -> ls1 (Target.S SlotOutgoing s.1 s.2) = ls2 (Target.S SlotOutgoing s.1 s.2)) ->
  match example_call sig f ls1 m, example_call sig f ls2 m with
  | Some (ls1', m1), Some (ls2', m2) =>
      m1 = m2 /\
      (forall r, r ∉ reserved -> ls1' (Target.R r) = ls2' (Target.R r)) /\
      (forall s, s ∈ example_slots sig ->
         ls1' (Target.S SlotOutgoing s.1 s.2) = ls2' (Target.S SlotOutgoing s.1 s.2))
  | None, None => True
  | _, _ => False
  end.
Proof using.
  intros Hr Hs. unfold example_call. rewrite (example_args_visible sig f ls1 ls2 Hr Hs). split; [done|]. split.
  - intros r Hn. case_decide; [done|]. destruct (clobbers (Target.R r)); [done|by apply Hr].
  - intros s Hin. rewrite !decide_False by done. cbn. by apply Hs.
Qed.

Lemma example_slots_kept sig f (ls : Loc -> V) m ls' m' :
  example_call sig f ls m = Some (ls', m') ->
  forall k o t, (k = SlotOutgoing -> (o, t) ∉ example_slots sig) -> ls' (Target.S k o t) = ls (Target.S k o t).
Proof using. intros [= <- _] k o t _. by rewrite decide_False. Qed.

Lemma saved_conventions r : Frame.IsCalleeSaved r = true -> Conventions.IsCalleeSaved r = true.
Proof using.
  unfold Frame.IsCalleeSaved, Conventions.IsCalleeSaved, CalleeSavedRegs, CalleeSavedFloatRegs, X19, X28, D8, D15, X, D. cbn.
  repeat case_match; try done; intros _; lia.
Qed.

Lemma example_saved sig f (ls : Loc -> V) m ls' m' :
  example_call sig f ls m = Some (ls', m') -> forall r, Frame.IsCalleeSaved r = true -> ls' (Target.R r) = ls (Target.R r).
Proof using. intros [= <- _] r Hs. rewrite decide_False by (by intros [= ->]). cbn. by rewrite (saved_conventions r Hs). Qed.
End Calls.
