(* ===== verification/RegAllocPass.v ===== *)
(** Register allocation: the theorems of the pass, and the functions it gets
    wrong. *)

From S2P Require Import Prelude Target Rtl Liveness Interference Conventions RtlSem.
From S2P Require Import Ltl ConvertCall Semantics RegAlloc RegAllocProof ExampleTarget.
From S2P Require Import Irc IrcInv IrcAlloc IrcTotal.
From Stdlib Require Import FunctionalExtensionality.

(** ** The conditions, decidably *)

Definition call_args_ok (i : Rtl.Instruction) : bool :=
  match i with Icall sig _ args _ _ => (length (sig_Args sig) <=? length args)%nat | _ => true end.

(** The nodes found from [todo] within [fuel] visits. *)
Fixpoint reachable (fn : Rtl.Function) (fuel : nat) (todo : list Z) (seen : gset Z) : gset Z :=
  match fuel, todo with
  | Datatypes.S fuel, n :: todo =>
      if decide (n ∈ seen) then reachable fn fuel todo seen
      else reachable fn fuel (from_option Successors [] (Rtl.fn_Code fn !! n) ++ todo) ({[n]} ∪ seen)
  | _, _ => seen
  end.

(** A set with the entry that control does not leave. *)
Definition closed_set (fn : Rtl.Function) (R : gset Z) : bool :=
  bool_decide (Rtl.fn_Entrypoint fn ∈ R) &&
  bool_decide (set_Forall (fun n => Forall (fun s => s ∈ R /\ s ∈ dom (Rtl.fn_Code fn) /\ s <> Rtl.fn_Entrypoint fn)
    (from_option Successors [] (Rtl.fn_Code fn !! n))) R).

Definition wf_rtl_check (fn : Rtl.Function) (live : LivenessInfo) : bool :=
  bool_decide (Rtl.fn_Entrypoint fn ∈ dom (Rtl.fn_Code fn)) &&
  closed_set fn (reachable fn (3 * size (Rtl.fn_Code fn) + 2) [Rtl.fn_Entrypoint fn] ∅) &&
  bool_decide (map_Forall (fun _ i => call_args_ok i = true) (Rtl.fn_Code fn)) &&
  bool_decide (set_Forall (fun r => r ∈ Rtl.fn_Params fn) (set_at (LiveIn live) (Rtl.fn_Entrypoint fn))).

Lemma closed_set_edge fn R n s : closed_set fn R = true -> n ∈ R -> rtl_edge fn n s ->
  s ∈ R /\ s ∈ dom (Rtl.fn_Code fn) /\ s <> Rtl.fn_Entrypoint fn.
Proof.
  unfold closed_set. rewrite andb_true_iff, !bool_decide_eq_true. intros [_ Hall] Hn (i & Hi & Hs).
  specialize (Hall n Hn). cbn beta in Hall. rewrite Hi, Forall_forall in Hall. by apply Hall.
Qed.

Lemma closed_set_reach fn R n : closed_set fn R = true -> rtc (rtl_edge fn) (Rtl.fn_Entrypoint fn) n -> n ∈ R.
Proof.
  intros HR Hn. assert (He : Rtl.fn_Entrypoint fn ∈ R) by (by apply andb_true_iff in HR as [?%bool_decide_eq_true _]).
  revert n Hn. apply rtc_ind_r; [done|]. intros x y _ Hxy IH. by apply (closed_set_edge fn R x).
Qed.

Lemma wf_rtl_check_sound fn live : wf_rtl_check fn live = true -> wf_rtl fn live.
Proof.
  unfold wf_rtl_check. rewrite !andb_true_iff, !bool_decide_eq_true. intros [[[H1 HR] H2] H3]. split; [done| |done|].
  - intros n s Hn He. by apply (closed_set_edge fn _ n s HR (closed_set_reach fn _ n HR Hn) He).
  - intros n sig f args dest succ Hn. by apply Nat.leb_le, (H2 n _ Hn).
Qed.

Definition params_ok_check (fn : Rtl.Function) : bool :=
  bool_decide (NoDup (Rtl.fn_Params fn)) && (Z.of_nat (length (Rtl.fn_Params fn)) <? 2 ^ 59) &&
  bool_decide (Forall (fun p => map_Forall (fun _ i => p ∉ instr_def i) (Rtl.fn_Code fn) \/
    map_Exists (fun _ i => p ∈ instr_use i) (Rtl.fn_Code fn)) (Rtl.fn_Params fn)).

Lemma params_ok_check_sound fn : params_ok_check fn = true -> params_ok fn.
Proof.
  unfold params_ok_check. rewrite !andb_true_iff, !bool_decide_eq_true, Z.ltb_lt. intros [[H1 H2] H3]. split; [done|done|].
  intros p n i Hp Hn Hd. rewrite Forall_forall in H3. destruct (H3 p Hp) as [Hf|(n' & i' & ? & ?)]; [|eauto].
  by destruct (Hf n i Hn).
Qed.

(** All parameters are used and not live across a call. *)
Definition leading_check (fn : Rtl.Function) (live : LivenessInfo) : bool :=
  bool_decide (Forall (fun p =>
    map_Forall (fun n i => isCall i = false \/ p ∉ set_at (LiveOut live) n) (Rtl.fn_Code fn) /\
    map_Exists (fun _ i => p ∈ instr_use i) (Rtl.fn_Code fn)) (Rtl.fn_Params fn)).

Lemma leading_check_sound fn live : leading_check fn live = true -> leading fn live.
Proof.
  unfold leading_check. rewrite bool_decide_eq_true, Forall_forall. intros Hf i j p q _ _ _ _ _ Hq.
  apply list_elem_of_lookup_2 in Hq. destruct (Hf q Hq) as [Ha (n & i' & ? & ?)]. split; [|by exists n, i'].
  intros (n' & i2 & Hn & Hc & Hl). destruct (Ha n' i2 Hn) as [Hno|Hno]; [congruence|done].
Qed.

(** ** Examples to run *)

(** A callee returns the sum of its declared arguments and of its address or the
    length of its name, and counts the call in the memory. *)
Definition callee_number (f : callee Z) : Z :=
  match f with ToAddress a => a | ToSymbol s => Z.of_nat (String.length s) end.

Definition sum_arguments (_ : Sig) (f : callee Z) (args : list Z) : Z := callee_number f + foldr Z.add 0 args.

Definition rtl_target : TargetSemantics Z Z := {|
  eval_op op args _ := sum_op op args;
  eval_load _ _ args m := Some m;
  eval_store _ _ args v _ := Some v;
  eval_cond c args _ := sum_cond c args;
  eval_index v := if 0 <=? v then Some (Z.to_nat v) else None;
  eval_builtin _ args m := Some (0, m);
  eval_call := example_call sum_arguments (Z.add 1) 0;
  eval_op_move _ _ := eq_refl;
  eval_call_X8 := example_call_X8 sum_arguments (Z.add 1) 0
|}.

Definition rtl_calls : @PseudoCalls Z Z rtl_target false :=
  @Build_PseudoCalls Z Z rtl_target false (example_call_value sum_arguments (Z.add 1))
    (example_call_spec sum_arguments (Z.add 1) 0).

(** A loop with a call: one parameter is live across the call, the other is
    moved to the accumulator. *)
Definition call_sig : Sig := mkSig ["int"%string] "int" false.

Definition loop_fn : Rtl.Function :=
  Rtl.mkFunction "f" call_sig [1; 4] 0 (list_to_map [
    (1, Iop Omove [4] 2 2);
    (2, Icond (Ccompimm Clt 1) [1] 6 3);
    (3, Icall call_sig (Rtl.FunSymbol "g") [1] 3 4);
    (4, Iop Oadd [2; 3] 2 5);
    (5, Iop (Oaddimm (-1)) [1] 1 2);
    (6, Ireturn (Some 2))]) 1.

(** Two parameters and a move. *)
Definition leaf_fn : Rtl.Function :=
  Rtl.mkFunction "f" call_sig [1; 2] 0 (list_to_map [
    (1, Iop Oadd [1; 2] 3 2);
    (2, Iop Omove [3] 4 3);
    (3, Iop Oadd [4; 1] 5 4);
    (4, Ireturn (Some 5))]) 1.

Definition live_of (fn : Rtl.Function) : LivenessInfo :=
  match @AnalyzeLiveness list_order fn with Some live => live | None => mkLivenessInfo ∅ ∅ ∅ ∅ end.

(** Executing a list of LTL instructions. *)
Fixpoint ltl_exec_list {V M} `{TargetSemantics V M} (reg_args : Ltl.FunRef -> nat) (code : list Ltl.Instruction)
    (ls : Loc -> V) (m : M) : option ((Loc -> V) * M) :=
  match code with
  | [] => Some (ls, m)
  | i :: code => '(ls', m') ← ltl_exec reg_args i ls m; ltl_exec_list reg_args code ls' m'
  end.

Lemma exec_moves {V M} `{TargetSemantics V M} reg_args ms (ls : Loc -> V) (m : M) :
  ltl_exec_list reg_args (move_code <$> ms) ls m = Some (run_moves ms ls, m).
Proof.
  revert ls. induction ms as [|[s d] ms IH]; intros ls; [done|]. cbn [fmap list_fmap ltl_exec_list].
  change (ltl_exec reg_args (move_code (s, d)) ls m) with (v ← eval_op Omove [ls s] m; Some (<[d := v]> ls, m)).
  rewrite eval_op_move. cbn [mbind option_bind]. apply IH.
Qed.

Definition moves_ok_check (srcs dsts : list Loc) : bool :=
  bool_decide (length srcs = length dsts) && bool_decide (NoDup dsts) &&
  bool_decide (Forall (fun k => temp_loc k ∉ srcs /\ temp_loc k ∉ dsts) (seq 0 8)) &&
  (length (clobbered (needed srcs dsts).*2 (needed srcs dsts).*1 []) <=? 8)%nat.

Lemma moves_ok_check_sound srcs dsts : moves_ok_check srcs dsts = true -> moves_ok srcs dsts.
Proof.
  unfold moves_ok_check. rewrite !andb_true_iff, !bool_decide_eq_true, Nat.leb_le. intros [[[H1 H2] H3] H4].
  split; [done|done| |done]. intros k Hk. rewrite Forall_forall in H3. apply H3, elem_of_seq. lia.
Qed.

Lemma live_of_eq fn : @AnalyzeLiveness list_order fn = Some (live_of fn).
Proof. unfold live_of. destruct (@AnalyzeLiveness_spec list_order fn) as (live & -> & _). done. Qed.

(** ** The pass *)

Lemma alloc_init {V M} `{RangeOrder} t fn live alloc (ls : Loc -> V) (m : M) : wf_rtl fn live ->
  exists s, ltl_init (transform_with t fn alloc) ls m = Some s.
Proof.
  intros wf. destruct (proj1 (elem_of_dom _ _) (wr_entry _ _ wf)) as [i Hi].
  unfold ltl_init. cbn [Ltl.fn_Code Ltl.fn_Entrypoint transform_with].
  rewrite transform_blocks_lookup, Hi. cbn. eauto.
Qed.

(** On a function with few registers the allocator ends with a valid
    allocation. *)
Lemma TransformFunction_small (order1 order2 : RangeOrder) (fuel : nat) (fn : Rtl.Function) (live : LivenessInfo) :
  params_ok fn -> @AnalyzeLiveness order1 fn = Some live ->
  (size (@GetAllRegisters order1 0 fn) <= NumAllocatableIntRegs)%nat -> (enough_rounds <= fuel)%nat ->
  exists t alloc, Irc.TransformFunction order1 order2 fuel fn = Some (@transform_with order2 t fn alloc) /\
    valid_alloc fn live alloc /\ solution (Rtl.fn_Code fn) (set_at (LiveIn live)) (set_at (LiveOut live)).
Proof.
  rewrite GetAllRegisters_registers. intros po Hl few Hfuel. pose proof (AnalyzeLiveness_info fn live Hl) as li.
  unfold Irc.TransformFunction, AllocateFunction. rewrite Hl. cbn [mbind option_bind].
  destruct (@BuildInterferenceGraph order2 0 fn live) as [t1 g] eqn:Eg.
  destruct (Allocate_small fn live 0 t1 li po few) as (st' & va & Hrun).
  specialize (Hrun fuel Hfuel). rewrite Eg in Hrun. cbn [snd] in Hrun. rewrite Hrun. cbn [mbind option_bind].
  destruct (buildResult (assignColors st')) as [t2 alloc]. cbn [snd] in va.
  exists t2, alloc. split; [done|]. split; [done|]. exact (li_solution _ _ li).
Qed.

(** C9. Register allocation preserves the semantics. Take a function with at most
    27 pseudo-registers; with distinct parameters of which the assigned ones are also
    used ([params_ok]); with a control-flow graph that is closed from its entry on,
    to which no jump leads, in which only parameters are live at the entry and calls
    pass at least the declared arguments ([wf_rtl]). Then [TransformFunction] ends,
    given [enough_rounds], and the LTL function it returns and the RTL function
    terminate together: started with the arguments where the calling convention
    puts them, each has a result when the other has, and the results agree. Liveness
    analysis and allocation may iterate over maps in any order. Without the
    conditions the pass can be wrong: [entry_moves_repeated],
    [AllocateFunction_conflicts]. *)
Theorem TransformFunction_correct {V M : Type} `{TargetSemantics V M} (darwin : bool) `{!PseudoCalls V M darwin}
    (order1 order2 : RangeOrder) (fuel : nat) (fn : Rtl.Function) (live : LivenessInfo)
    (rs : Z -> V) (ls : Loc -> V) (m : M) :
  params_ok fn -> @AnalyzeLiveness order1 fn = Some live -> wf_rtl fn live ->
  (size (@GetAllRegisters order1 0 fn) <= NumAllocatableIntRegs)%nat -> (enough_rounds <= fuel)%nat ->
  (forall i p, Rtl.fn_Params fn !! i = Some p -> rs p = ls (ArgLocation i false)) ->
  exists fn' s, Irc.TransformFunction order1 order2 fuel fn = Some fn' /\ ltl_init fn' ls m = Some s /\
    (forall r, terminates (rtl_step (Rtl.fn_Code fn)) (rtl_init fn rs m) r ->
       exists r', terminates (ltl_step (maxRegArgs darwin) (Ltl.fn_Code fn')) s r' /\ match_results r r') /\
    (forall r', terminates (ltl_step (maxRegArgs darwin) (Ltl.fn_Code fn')) s r' ->
       exists r, terminates (rtl_step (Rtl.fn_Code fn)) (rtl_init fn rs m) r /\ match_results r r').
Proof.
  intros po Hl wf few Hfuel Hp.
  destruct (TransformFunction_small order1 order2 fuel fn live po Hl few Hfuel) as (t & alloc & Htf & va & Hsol).
  destruct (alloc_init t fn live alloc ls m wf) as [s Hs].
  exists (transform_with t fn alloc), s. split; [done|]. split; [done|].
  exact (alloc_equiv t fn live alloc Hsol va wf rs ls m s Hp Hs).
Qed.

Lemma TransformFunction_correct_witness : exists fn' s,
  Irc.TransformFunction list_order list_order enough_rounds loop_fn = Some fn' /\
  ltl_init fn' (fun l => if decide (l = Target.R X0) then 3 else 10) 0 = Some s /\
  forall r', terminates (ltl_step (H := rtl_target) (maxRegArgs false) (Ltl.fn_Code fn')) s r' ->
    exists r, terminates (rtl_step (PC := rtl_calls) (Rtl.fn_Code loop_fn))
      (rtl_init loop_fn (fun p => if p =? 1 then 3 else 10) 0) r /\ match_results r r'.
Proof.
  destruct (TransformFunction_correct (H := rtl_target) false (PseudoCalls0 := rtl_calls) list_order list_order enough_rounds
    loop_fn (live_of loop_fn) (fun p => if p =? 1 then 3 else 10) (fun l => if decide (l = Target.R X0) then 3 else 10) 0
    (params_ok_check_sound loop_fn eq_refl) (live_of_eq _)
    (wf_rtl_check_sound loop_fn (live_of loop_fn) eq_refl)) as (fn' & s & H1 & H2 & _ & H3).
  - apply Nat.leb_le. by vm_compute.
  - done.
  - intros [|[|i]] p Hi; [injection Hi as <-; reflexivity..|]. discriminate Hi.
  - exists fn', s. split; [exact H1|]. split; [exact H2|exact H3].
Defined.

(** C16. What [AllocateFunction] returns, if it returns (in fewer than 2^60 rounds),
    is an allocation the rewriting to LTL can rely on, for functions of any size
    whose parameters are distinct, used if they are assigned ([params_ok]), and
    [leading]: the parameters before one that is used, passed in a register and not
    live across a call are used and not live across a call either. A register that
    is defined where another one is live gets a different location, unless the
    definition copies that register; a register that is live across a call is in a
    callee-saved register or a stack slot; and the parameters can be moved from where
    the caller passes them to their locations all at once. Without the conditions on
    parameters this is false: [AllocateFunction_conflicts]. *)
Theorem AllocateFunction_valid (order1 order2 : RangeOrder) (fuel : nat) (fn : Rtl.Function) (live : LivenessInfo)
    (t : nat) (alloc : AllocationResult) :
  params_ok fn -> @AnalyzeLiveness order1 fn = Some live -> leading fn live -> Z.of_nat fuel < 2 ^ 60 ->
  AllocateFunction order1 order2 fuel fn = Some (t, alloc) ->
  (forall n i d l, Rtl.fn_Code fn !! n = Some i -> d ∈ instr_def i -> l ∈ set_at (LiveOut live) n -> l <> d ->
     ~ (isMove i = true /\ isMoveSource i l = true) -> loc_of alloc l <> loc_of alloc d) /\
  (forall n i l, Rtl.fn_Code fn !! n = Some i -> isCall i = true -> l ∈ set_at (LiveOut live) n -> l ∉ instr_def i ->
     call_preserved (loc_of alloc l) = true) /\
  moves_ok (imap (fun i _ => ArgLocation i false) (Rtl.fn_Params fn)) (loc_of alloc <$> Rtl.fn_Params fn).
Proof.
  intros po Hl Hlead Hfuel. pose proof (AnalyzeLiveness_info fn live Hl) as li. unfold AllocateFunction, Allocate.
  rewrite Hl. cbn [mbind option_bind]. destruct (@BuildInterferenceGraph order2 0 fn live) as [t1 g] eqn:Eg.
  destruct (main_loop fuel _) as [st'|] eqn:Hrun; [|done]. cbn [mbind option_bind]. intros E. apply (inj Some) in E.
  destruct (Allocate_leading fn live 0 t1 fuel st' po li Hlead Hfuel) as [V1 V2 V3]; [by rewrite Eg|].
  rewrite E in V1, V2, V3. auto.
Qed.

Lemma AllocateFunction_valid_witness : exists alloc,
  snd <$> AllocateFunction list_order list_order 100 leaf_fn = Some alloc /\ loc_of alloc 2 <> loc_of alloc 3 /\
  moves_ok [ArgLocation 0 false; ArgLocation 1 false] (loc_of alloc <$> [1; 2]).
Proof.
  destruct (AllocateFunction list_order list_order 100 leaf_fn) as [[t alloc]|] eqn:E; [|by vm_compute in E].
  destruct (AllocateFunction_valid list_order list_order 100 leaf_fn (live_of leaf_fn) t alloc
    (params_ok_check_sound leaf_fn eq_refl) (live_of_eq _) (leading_check_sound leaf_fn (live_of leaf_fn) eq_refl)
    ltac:(lia) E) as (H1 & H2 & H3).
  exists alloc. split; [done|]. split; [|exact H3].
  vm_compute in E. injection E as <- <-. by vm_compute.
Defined.

(** C30. If the parameters of a function are distinct, and those that are assigned
    are also used ([params_ok]), and the allocator ends, as it does not always
    ([AllocateFunction_diverges]), then every pseudo-register of the code gets a
    location, of one of three sorts: an allocatable integer register, a spill slot of
    the function's own frame, or the incoming stack slot of a parameter. The
    allocator may iterate over maps in any order. *)
Theorem AllocateFunction_placed (order1 order2 : RangeOrder) (fuel : nat) (fn : Rtl.Function)
    (t : nat) (alloc : AllocationResult) (n r : Z) (i : Rtl.Instruction) :
  params_ok fn -> Z.of_nat fuel < 2 ^ 60 -> AllocateFunction order1 order2 fuel fn = Some (t, alloc) ->
  Rtl.fn_Code fn !! n = Some i -> r ∈ instr_def i \/ r ∈ instr_use i ->
  exists l, RegToLoc alloc !! r = Some l /\
    match l with
    | Target.R m => m ∈ AllocatableIntRegs
    | Target.S SlotLocal _ Tlong | Target.S SlotIncoming _ Tlong => True
    | _ => False
    end.
Proof.
  intros po Hfuel Hrun Hn Hr. revert Hrun. unfold AllocateFunction, Allocate.
  destruct (@AnalyzeLiveness order1 fn) as [live|] eqn:Hl; [|done]. pose proof (AnalyzeLiveness_info fn live Hl) as li.
  cbn [mbind option_bind]. destruct (@BuildInterferenceGraph order2 0 fn live) as [t1 g] eqn:Eg.
  destruct (main_loop fuel _) as [st'|] eqn:Hrun; [|done]. cbn [mbind option_bind]. intros E. apply (inj Some) in E.
  assert (Hp : well_placed (loc_of (buildResult (assignColors st')).2 r) = true).
  { apply (allocation_placed fn live 0 po li t1 fuel st') with n i; [by rewrite Eg|done..]. }
  rewrite E in Hp. cbn [snd] in Hp. unfold loc_of in Hp.
  destruct (RegToLoc alloc !! r) as [l|]; [|done]. exists l. split; [done|]. cbn in Hp.
  destruct l as [m|k s ty|]; [by apply bool_decide_eq_true in Hp|by destruct k, ty|done].
Qed.

Lemma AllocateFunction_placed_witness :
  exists t alloc l, AllocateFunction list_order list_order 100 leaf_fn = Some (t, alloc) /\ RegToLoc alloc !! 5 = Some l.
Proof.
  destruct (AllocateFunction list_order list_order 100 leaf_fn) as [[t alloc]|] eqn:E; [|by vm_compute in E].
  destruct (AllocateFunction_placed list_order list_order 100 leaf_fn t alloc 3 5 (Iop Oadd [4; 1] 5 4)
    (params_ok_check_sound leaf_fn eq_refl) ltac:(lia) E eq_refl ltac:(left; exact (proj2 (elem_of_singleton 5 5) eq_refl))) as (l & Hl & _).
  eauto.
Defined.

(** C27. Liveness analysis ends and is exact: a register is live into a node when
    some path from the node leads to a use of it with no definition before, and
    live out of a node when it is live into one of its successors. The result
    does not depend on the order in which the maps are iterated. *)
Theorem AnalyzeLiveness_correct (fn : Rtl.Function) : exists live,
  (forall order : RangeOrder, @AnalyzeLiveness order fn = Some live) /\
  forall n r, (r ∈ set_at (LiveIn live) n <-> live_at (Rtl.fn_Code fn) r n) /\
    (r ∈ set_at (LiveOut live) n <-> live_after (Rtl.fn_Code fn) r n).
Proof.
  destruct (@AnalyzeLiveness_spec list_order fn) as (live & Hl & Hs & _ & Hp & _).
  exists live. split; [intros order; by rewrite (AnalyzeLiveness_order order list_order)|]. intros n r.
  destruct (Hp n r) as [Hin Hout]. split; (split; [done|]).
  - by apply (solution_live _ _ _ _ _ Hs).
  - intros (i & s & Hn & Hsucc & Hr). apply (sol_out _ _ _ Hs n i r Hn). exists s. split; [done|].
    by apply (solution_live (Rtl.fn_Code fn)  _ _ _ _ Hs).
Qed.

(** C28. The interference graph is the one the allocation needs, in any map
    order: its nodes are the parameters and the registers that occur in the
    code; two registers are joined when one is defined where the other is live
    afterwards and the definition does not copy it, or when one of them is a
    parameter that is used; preferences are the moves; and the registers live
    across calls are recorded. *)
Theorem BuildInterferenceGraph_correct `{RangeOrder} (fn : Rtl.Function) (live : LivenessInfo) (t : nat) :
  AnalyzeLiveness fn = Some live ->
  let code := Rtl.fn_Code fn in
  let g := (BuildInterferenceGraph t fn live).2 in
  let defined_at a b := exists n i, code !! n = Some i /\ a ∈ instr_def i /\ live_after code b n /\
    ~ (isMove i = true /\ isMoveSource i b = true) in
  let used_param a := a ∈ Rtl.fn_Params fn /\ exists n i, code !! n = Some i /\ a ∈ instr_use i in
  (forall a, a ∈ Nodes g <->
     a ∈ Rtl.fn_Params fn \/ exists n i, code !! n = Some i /\ (a ∈ instr_def i \/ a ∈ instr_use i)) /\
  (forall a b, HasEdge g a b = true <-> a <> b /\
     (defined_at a b \/ defined_at b a \/ (used_param a /\ b ∈ Nodes g) \/ (used_param b /\ a ∈ Nodes g))) /\
  (forall a b, b ∈ set_at (Preferences g) a <-> a <> b /\
     exists n s, code !! n = Some (Iop Omove [b] a s) \/ code !! n = Some (Iop Omove [a] b s)) /\
  (forall a, a ∈ LiveAcrossCalls g <-> exists n i, code !! n = Some i /\ isCall i = true /\ live_after code a n).
Proof.
  intros Hl code g defined_at used_param. pose proof (AnalyzeLiveness_info fn live Hl) as li.
  assert (Hout : forall n r, r ∈ set_at (LiveOut live) n <-> live_after code r n).
  { intros n r. split; [apply (li_path _ _ li)|]. intros (i & s & Hn & Hs & Hr).
    apply (sol_out _ _ _ (li_solution _ _ li) n i r Hn). exists s. split; [done|].
    by apply (solution_live (Rtl.fn_Code fn) _ _ _ _ (li_solution _ _ li)). }
  assert (Hdef : forall a b, def_interferes fn live a b <-> defined_at a b).
  { intros a b. split; intros (n & i & Hn & Ha & Hb & Hm); exists n, i;
      (split; [done|]); [rewrite (proj2 (def_at fn live li n i Hn)) in Ha|rewrite (proj2 (def_at fn live li n i Hn))];
      (split; [done|]); (split; [by apply Hout|done]). }
  assert (Hreg : forall a, graph_reg fn live a <->
    a ∈ Rtl.fn_Params fn \/ exists n i, code !! n = Some i /\ (a ∈ instr_def i \/ a ∈ instr_use i)).
  { intros a. apply or_iff_compat_l. split.
    - intros (n & s & Hs & Ha). rewrite (li_def _ _ li), lookup_fmap in Hs. apply fmap_Some in Hs as (i & Hn & ->).
      exists n, i. split; [done|]. unfold set_at in Ha. rewrite (li_use _ _ li), lookup_fmap in Ha. by rewrite Hn in Ha.
    - intros (n & i & Hn & Ha). exists n, (instr_def i). split; [by apply (def_at fn live li)|].
      unfold set_at. rewrite (li_use _ _ li), lookup_fmap. fold code. by rewrite Hn. }
  split; [|split; [|split]].
  - intros a. unfold g. by rewrite (graph_nodes fn live t li), Hreg.
  - intros a b. unfold g, HasEdge. rewrite bool_decide_eq_true, (graph_adj fn live t li), !(graph_nodes fn live t li).
    unfold interferes, param_interferes. rewrite !Hdef, !(used_iff fn live li). unfold used_param. fold code. tauto.
  - intros a b. unfold g. rewrite (graph_pref fn live t li). unfold moves. fold code. naive_solver.
  - intros a. unfold g. rewrite (graph_across fn live t li). unfold live_across. setoid_rewrite Hout. done.
Qed.

Lemma BuildInterferenceGraph_correct_witness :
  let g := (@BuildInterferenceGraph list_order 0 loop_fn (live_of loop_fn)).2 in
  2 ∈ LiveAcrossCalls g /\
  exists n i, Rtl.fn_Code loop_fn !! n = Some i /\ isCall i = true /\ live_after (Rtl.fn_Code loop_fn) 2 n.
Proof.
  intros g. destruct (@BuildInterferenceGraph_correct list_order loop_fn (live_of loop_fn) 0 (live_of_eq _)) as (_ & _ & _ & Ha).
  assert (H : 2 ∈ LiveAcrossCalls g) by (apply (bool_decide_eq_true_1 _); by vm_compute).
  split; [exact H|]. by apply Ha.
Defined.

(** C29. The moves at the entry of a function are a parallel assignment: run one
    after the other, they leave in every destination what was in its source
    before the first of them, and change nothing else but the temporaries X8 to
    X15. Sources and destinations may overlap in any way that needs at most
    eight temporaries, and must not contain these. *)
Theorem resolveParallelMoves_correct {V M : Type} `{TargetSemantics V M} (reg_args : Ltl.FunRef -> nat)
    (srcs dsts : list Loc) (ls : Loc -> V) (m : M) :
  moves_ok srcs dsts ->
  exists ls', ltl_exec_list reg_args (resolveParallelMoves srcs dsts) ls m = Some (ls', m) /\
    (forall i s d, srcs !! i = Some s -> dsts !! i = Some d -> ls' d = ls s) /\
    (forall l, l ∉ dsts -> (forall k, (k < 8)%nat -> l <> Target.R (X (8 + Z.of_nat k))) -> ls' l = ls l).
Proof.
  intros ok. destruct (resolve_run (V := V) srcs dsts ok) as (code & -> & Hrun).
  exists (run_moves code ls). split; [apply exec_moves|]. apply Hrun.
Qed.

(** Swapping two registers, and moving a third out of the way. *)
Lemma resolveParallelMoves_correct_witness :
  let swap := [Target.R X0; Target.R (X 1); Target.R (X 2)] in
  let dsts := [Target.R (X 1); Target.R X0; Target.R X19] in
  exists ls', ltl_exec_list (H := rtl_target) (maxRegArgs false) (resolveParallelMoves swap dsts)
      (fun l => match l with Target.R r => 100 + r | _ => 0 end) 0 = Some (ls', 0) /\ ls' (Target.R X0) = 101.
Proof.
  intros swap dsts.
  destruct (resolveParallelMoves_correct (H := rtl_target) (maxRegArgs false) swap dsts
    (fun l => match l with Target.R r => 100 + r | _ => 0 end) 0 ltac:(by apply moves_ok_check_sound)) as (ls' & H1 & H2 & _).
  exists ls'. split; [exact H1|]. exact (H2 1%nat _ _ eq_refl eq_refl).
Defined.

(** ** Functions the allocator gets wrong *)

(** C31. The allocator never ends on a function without parameters whose
    interference graph joins any two of 28 registers and has no move: for every
    number of rounds, and every map order, the main loop needs another one. A
    register already on the select stack is pushed again whenever its degree is
    [K - 1], and two registers do that to each other in turn. *)
Theorem AllocateFunction_diverges (order1 order2 : RangeOrder) (fuel : nat) (fn : Rtl.Function) (live : LivenessInfo) :
  @AnalyzeLiveness order1 fn = Some live -> Rtl.fn_Params fn = [] ->
  let g := (@BuildInterferenceGraph order2 0 fn live).2 in
  size (Nodes g) = 28%nat ->
  (forall x y, x ∈ Nodes g -> y ∈ Nodes g -> x <> y -> HasEdge g x y = true) ->
  (forall x, set_at (Preferences g) x = ∅) ->
  AllocateFunction order1 order2 fuel fn = None.
Proof.
  intros Hl Hp g Hsize Hedge Hpref. pose proof (AnalyzeLiveness_info fn live Hl) as li.
  unfold AllocateFunction. rewrite Hl. cbn [mbind option_bind].
  rewrite (surjective_pairing (@BuildInterferenceGraph order2 0 fn live)). apply clique_forever; [done|..]; fold g.
  - exact Hsize.
  - intros r Hr. apply set_eq. intros x. rewrite elem_of_difference, elem_of_singleton. split.
    + intros Hx. destruct (adj_nodes fn live 0 li r x Hx) as (_ & Hxn & Hne). auto.
    + intros [Hx Hne]. apply (bool_decide_eq_true_1 _ (Hedge r x Hr Hx (not_eq_sym Hne))).
  - intros r. unfold MoveRelated. by rewrite Hpref.
Qed.

(** 28 constants, all passed to a call. *)
Definition consts (from : Z) (n : nat) (first : Z) : list (Z * Rtl.Instruction) :=
  (fun i => (first + Z.of_nat i, Iop (Ointconst 7) [] (from + Z.of_nat i) (first + Z.of_nat i + 1))) <$> seq 0 n.

Definition clique_fn : Rtl.Function :=
  Rtl.mkFunction "f" call_sig [] 0 (list_to_map (consts 1 28 1 ++
    [(29, Icall call_sig (Rtl.FunSymbol "g") ((fun i => Z.of_nat i) <$> seq 1 28) 0 30); (30, Ireturn None)])) 1.

Definition clique_check (g : InterferenceGraph) : bool :=
  forallb (fun x => forallb (fun y => (x =? y) || HasEdge g x y) (elements (Nodes g))) (elements (Nodes g)) &&
  forallb (fun rs : Z * gset Z => bool_decide (rs.2 = ∅)) (map_to_list (Preferences g)).

Lemma clique_check_sound g : clique_check g = true ->
  (forall x y, x ∈ Nodes g -> y ∈ Nodes g -> x <> y -> HasEdge g x y = true) /\ (forall x, set_at (Preferences g) x = ∅).
Proof.
  unfold clique_check. rewrite andb_true_iff, !forallb_forall. intros [He Hp]. split.
  - intros x y Hx%elem_of_elements%list_elem_of_In Hy%elem_of_elements%list_elem_of_In Hne.
    specialize (He x Hx). rewrite forallb_forall in He. specialize (He y Hy).
    apply orb_true_iff in He as [He%Z.eqb_eq|He]; done.
  - intros x. unfold set_at. destruct (Preferences g !! x) as [s|] eqn:E; [|done].
    apply elem_of_map_to_list, list_elem_of_In, Hp, bool_decide_eq_true in E. done.
Qed.

Lemma AllocateFunction_diverges_witness : AllocateFunction list_order list_order 1000 clique_fn = None.
Proof.
  destruct (clique_check_sound (@BuildInterferenceGraph list_order 0 clique_fn (live_of clique_fn)).2 ltac:(by vm_compute))
    as [He Hp].
  apply (AllocateFunction_diverges list_order list_order 1000 clique_fn (live_of clique_fn)).
  - apply live_of_eq.
  - reflexivity.
  - vm_compute. reflexivity.
  - exact He.
  - exact Hp.
Defined.

(** A parameter that is live across a call, one that is not, and 25 variables
    that are. *)
Definition crowded_fn : Rtl.Function :=
  Rtl.mkFunction "f" call_sig [1; 2] 0 (list_to_map (
    [(1, Iop (Ointconst 5) [] 4 2); (2, Iop Oadd [4; 2] 3 3)] ++ consts 5 24 3 ++
    [(27, Icall call_sig (Rtl.FunSymbol "g") [] 0 28);
     (28, Itailcall call_sig (Rtl.FunSymbol "h") ([1; 3] ++ ((fun i => Z.of_nat i) <$> seq 5 24)))])) 1.

(** A parameter that is assigned and never used. *)
Definition unused_fn : Rtl.Function :=
  Rtl.mkFunction "f" call_sig [1] 0 (list_to_map [
    (1, Iop (Ointconst 5) [] 2 2); (2, Iop Omove [2] 1 3);
    (3, Icall call_sig (Rtl.FunSymbol "g") [] 0 4); (4, Ireturn (Some 2))]) 1.

Definition locations (fn : Rtl.Function) (rs : list Z) : option (list Loc) :=
  '(_, alloc) ← AllocateFunction list_order list_order 300 fn; Some (loc_of alloc <$> rs).

(** The two ways an allocation goes wrong. In [crowded_fn] the second
    parameter stays in X1, but is given another colour when it is popped from the
    select stack, so that register 4, assigned while the parameter is still
    needed, gets X1 too. In [unused_fn] register 2 is live across a call; it is
    coalesced with the unused parameter, whose fixed location X0 ignores that,
    and the call overwrites it. *)
Theorem AllocateFunction_conflicts :
  (locations crowded_fn [2; 4] = Some [Target.R (X 1); Target.R (X 1)] /\
   Rtl.fn_Code crowded_fn !! 1 = Some (Iop (Ointconst 5) [] 4 2) /\
   live_after (Rtl.fn_Code crowded_fn) 2 1) /\
  (locations unused_fn [2] = Some [Target.R X0] /\ Conventions.IsCallerSaved X0 = true /\
   Rtl.fn_Code unused_fn !! 3 = Some (Icall call_sig (Rtl.FunSymbol "g") [] 0 4) /\
   live_after (Rtl.fn_Code unused_fn) 2 3).
Proof.
  split; [split; [by vm_compute|]|split; [by vm_compute|]].
  - split; [done|]. exists (Iop (Ointconst 5) [] 4 2), 2. split; [done|]. split; [left|].
    apply live_use with (Iop Oadd [4; 2] 3 3); [done|]. apply elem_of_list_to_set. right. left.
  - split; [done|]. split; [done|]. exists (Icall call_sig (Rtl.FunSymbol "g") [] 0 4), 4. split; [done|]. split; [left|].
    apply live_use with (Ireturn (Some 2)); [done|]. exact (proj2 (elem_of_singleton 2 2) eq_refl).
Qed.

(** A loop that starts at the entry. *)
Definition head_fn : Rtl.Function :=
  Rtl.mkFunction "f" call_sig [1] 0 (list_to_map [
    (1, Icond (Ccompimm Clt 1) [1] 4 2);
    (2, Icall call_sig (Rtl.FunSymbol "g") [1] 0 3);
    (3, Iop (Oaddimm (-1)) [1] 1 1);
    (4, Ireturn None)]) 1.

(** The moves of the parameters are in front of the entry block, so a jump back
    to the entry repeats them: the function calls [g] three times, its
    translation is still running after a thousand steps. *)
Theorem entry_moves_repeated :
  run (rtl_step (PC := rtl_calls) (Rtl.fn_Code head_fn)) 20 (rtl_init head_fn (fun _ => 3) 0) = Some (RReturned None 3) /\
  match Irc.TransformFunction list_order list_order 100 head_fn with
  | Some fn' =>
      match ltl_init fn' (fun _ => 3) 0 with
      | Some s => run (ltl_step (H := rtl_target) (maxRegArgs false) (Ltl.fn_Code fn')) 1000 s = None
      | None => False
      end
  | None => False
  end.
Proof. split; by vm_compute. Qed.
