(* ===== verification/Structured.v ===== *)
(** Structured statements. Csharpminor, Cminor and CminorSel
    ([src/pkg/csharpminor/ast.go], [src/pkg/cminor/ast.go],
    [src/pkg/cminorsel/ast.go]) have the same statements over different
    signatures, variables, expressions, conditions and addresses: this file has
    them once, with these five as parameters, and executes them. *)

From S2P Require Import Prelude Target Semantics RtlSem.

Inductive Stmt (G V E C A : Type) :=
| Sskip
| Sassign (Name : V) (RHS : E)
| Sstore (chunk : Chunk) (Addr : A) (Value : E)
| Scall (Result : option V) (sig : option G) (Func : E) (Args : list E)
| Stailcall (sig : option G) (Func : E) (Args : list E)
| Sbuiltin (Result : option V) (Builtin : string) (Args : list E)
| Sseq (First Second : Stmt G V E C A)
| Sifthenelse (Cond : C) (Then Else : Stmt G V E C A)
| Sloop (Body : Stmt G V E C A)
| Sblock (Body : Stmt G V E C A)
| Sexit (N : Z)
| Sswitch (IsLong : bool) (Expr : E) (Cases : list (Z * Stmt G V E C A)) (Default : Stmt G V E C A)
| Sreturn (Value : option E)
| Slabel (Label : string) (Body : Stmt G V E C A)
| Sgoto (Label : string).
Arguments Sskip {G V E C A}.
Arguments Sassign {G V E C A} Name RHS.
Arguments Sstore {G V E C A} chunk Addr Value.
Arguments Scall {G V E C A} Result sig Func Args.
Arguments Stailcall {G V E C A} sig Func Args.
Arguments Sbuiltin {G V E C A} Result Builtin Args.
Arguments Sseq {G V E C A} First Second.
Arguments Sifthenelse {G V E C A} Cond Then Else.
Arguments Sloop {G V E C A} Body.
Arguments Sblock {G V E C A} Body.
Arguments Sexit {G V E C A} N.
Arguments Sswitch {G V E C A} IsLong Expr Cases Default.
Arguments Sreturn {G V E C A} Value.
Arguments Slabel {G V E C A} Label Body.
Arguments Sgoto {G V E C A} Label.

(** [SwitchCase] *)
Definition SwitchCase (G V E C A : Type) : Type := Z * Stmt G V E C A.

(** Induction, with a hypothesis for the body of every case of a switch. *)
Section StmtInd.
  Context {G V E C A : Type} (P : Stmt G V E C A -> Prop).
  Context (Hskip : P Sskip).
  Context (Hassign : forall x e, P (Sassign x e)).
  Context (Hstore : forall chunk a e, P (Sstore chunk a e)).
  Context (Hcall : forall r sig f args, P (Scall r sig f args)).
  Context (Htailcall : forall sig f args, P (Stailcall sig f args)).
  Context (Hbuiltin : forall r b args, P (Sbuiltin r b args)).
  Context (Hseq : forall s1 s2, P s1 -> P s2 -> P (Sseq s1 s2)).
  Context (Hif : forall c s1 s2, P s1 -> P s2 -> P (Sifthenelse c s1 s2)).
  Context (Hloop : forall s, P s -> P (Sloop s)).
  Context (Hblock : forall s, P s -> P (Sblock s)).
  Context (Hexit : forall n, P (Sexit n)).
  Context (Hswitch : forall l e cases d, Forall (fun c => P c.2) cases -> P d -> P (Sswitch l e cases d)).
  Context (Hreturn : forall e, P (Sreturn e)).
  Context (Hlabel : forall l s, P s -> P (Slabel l s)).
  Context (Hgoto : forall l, P (Sgoto l)).

Fixpoint Stmt_nested_ind (s : Stmt G V E C A) : P s :=
  match s with
  | Sskip => Hskip
  | Sassign x e => Hassign x e
  | Sstore chunk a e => Hstore chunk a e
  | Scall r sig f args => Hcall r sig f args
  | Stailcall sig f args => Htailcall sig f args
  | Sbuiltin r b args => Hbuiltin r b args
  | Sseq s1 s2 => Hseq s1 s2 (Stmt_nested_ind s1) (Stmt_nested_ind s2)
  | Sifthenelse c s1 s2 => Hif c s1 s2 (Stmt_nested_ind s1) (Stmt_nested_ind s2)
  | Sloop s => Hloop s (Stmt_nested_ind s)
  | Sblock s => Hblock s (Stmt_nested_ind s)
  | Sexit n => Hexit n
  | Sswitch l e cases d =>
      Hswitch l e cases d
        ((fix go cases : Forall (fun c => P c.2) cases :=
            match cases with
            | [] => List.Forall_nil _
            | c :: cases => List.Forall_cons _ _ _ (Stmt_nested_ind c.2) (go cases)
            end) cases)
        (Stmt_nested_ind d)
  | Sreturn e => Hreturn e
  | Slabel l s => Hlabel l s (Stmt_nested_ind s)
  | Sgoto l => Hgoto l
  end.
End StmtInd.

(** [Seq]: sequences without [Sskip]. *)
Definition is_skip {G V E C A} (s : Stmt G V E C A) : bool := match s with Sskip => true | _ => false end.

Definition Seq {G V E C A} (stmts : list (Stmt G V E C A)) : Stmt G V E C A :=
  foldl (fun result s =>
    if is_skip result then s else if is_skip s then result else Sseq result s) Sskip stmts.

(** ** Execution *)

(** What remains to be done after a statement, innermost first. *)
Inductive frame (G V E C A : Type) :=
| Fseq (s : Stmt G V E C A)
| Fblock.
Arguments Fseq {G V E C A} s.
Arguments Fblock {G V E C A}.

(** What a language gives the statements: the value of an expression, the
    truth of a condition, a store, the callee an expression denotes, the integer
    a switch selects on, and the signature of a call. Variables hold values of
    type [W]. *)
Record Language (G V E C A W M : Type) `{Countable V} := mkLanguage {
  lang_expr : gmap V W -> M -> E -> option W;
  lang_cond : gmap V W -> M -> C -> option bool;
  lang_store : gmap V W -> Chunk -> A -> W -> M -> option M;
  lang_callee : gmap V W -> M -> E -> option (callee W);
  lang_switch : bool -> W -> option Z;
  lang_sig : option G -> Sig
}.
Arguments lang_expr {G V E C A W M _ _} _ _ _ _.
Arguments lang_cond {G V E C A W M _ _} _ _ _ _.
Arguments lang_store {G V E C A W M _ _} _ _ _ _ _.
Arguments lang_callee {G V E C A W M _ _} _ _ _ _.
Arguments lang_switch {G V E C A W M _ _} _ _ _.
Arguments lang_sig {G V E C A W M _ _} _ _.

(** The signature of a call without one is Go's zero value. *)
Definition zero_sig : Sig := mkSig [] "" false.

Section Execution.
  Context {G V E C A W M : Type} `{Countable V} (L : Language G V E C A W M).
  Context `{PC : PseudoCalls W M}.
  Local Abbreviation stmt := (Stmt G V E C A).
  Local Abbreviation cont := (list (frame G V E C A)).
  Implicit Types (s : stmt) (k : cont) (e : gmap V W) (m : M).

Definition struct_state : Type := stmt * cont * gmap V W * M.

(** Leaving [n + 1] blocks. *)
Fixpoint exit_cont (n : nat) k : option cont :=
  match k with
  | [] => None
  | Fseq _ :: k => exit_cont n k
  | Fblock :: k => match n with O => Some k | Datatypes.S n => exit_cont n k end
  end.

(** The statement a label is in front of, and what follows it. *)
Fixpoint find_stmt (l : string) s k : option (stmt * cont) :=
  match s with
  | Sseq s1 s2 =>
      match find_stmt l s1 (Fseq s2 :: k) with
      | Some r => Some r
      | None => find_stmt l s2 k
      end
  | Sifthenelse _ s1 s2 =>
      match find_stmt l s1 k with
      | Some r => Some r
      | None => find_stmt l s2 k
      end
  | Sloop s1 => find_stmt l s1 (Fseq (Sloop s1) :: k)
  | Sblock s1 => find_stmt l s1 (Fblock :: k)
  | Sswitch _ _ cases d =>
      match
        (fix go cases :=
           match cases with
           | [] => None
           | c :: cases => match find_stmt l c.2 k with Some r => Some r | None => go cases end
           end) cases
      with
      | Some r => Some r
      | None => find_stmt l d k
      end
  | Slabel l' s1 => if decide (l = l') then Some (s1, k) else find_stmt l s1 k
  | _ => None
  end.

(** The case a switch selects: the first with the value, or the default. *)
Fixpoint select_case (z : Z) (cases : list (Z * stmt)) (d : stmt) : stmt :=
  match cases with
  | [] => d
  | (v, s) :: cases => if decide (z = v) then s else select_case z cases d
  end.

Definition set_result (r : option V) (v : W) e : gmap V W :=
  match r with Some x => <[x := v]> e | None => e end.

Definition step_opt {B} (o : option B) (f : B -> outcome struct_state (rtl_result W M))
    : outcome struct_state (rtl_result W M) :=
  match o with Some x => f x | None => Stuck end.

Definition struct_step (body : stmt) (st : struct_state) : outcome struct_state (rtl_result W M) :=
  let '(s, k, e, m) := st in
  match s with
  | Sskip =>
      match k with
      | [] => Halt (RReturned None m)
      | Fseq s :: k => Next (s, k, e, m)
      | Fblock :: k => Next (Sskip, k, e, m)
      end
  | Sassign x a => step_opt (lang_expr L e m a) (fun v => Next (Sskip, k, <[x := v]> e, m))
  | Sstore chunk addr a =>
      step_opt (v ← lang_expr L e m a; lang_store L e chunk addr v m) (fun m' => Next (Sskip, k, e, m'))
  | Scall r sig f args =>
      step_opt (fv ← lang_callee L e m f; vs ← mapM (lang_expr L e m) args;
                call_value (lang_sig L sig) fv vs m)
        (fun vm => Next (Sskip, k, set_result r vm.1 e, vm.2))
  | Stailcall sig f args =>
      step_opt (fv ← lang_callee L e m f; vs ← mapM (lang_expr L e m) args; Some (fv, vs))
        (fun fa => Halt (RTailCalled (lang_sig L sig) fa.1 fa.2 m))
  | Sbuiltin r b args =>
      step_opt (vs ← mapM (lang_expr L e m) args; eval_builtin b vs m)
        (fun vm => Next (Sskip, k, set_result r vm.1 e, vm.2))
  | Sseq s1 s2 => Next (s1, Fseq s2 :: k, e, m)
  | Sifthenelse c s1 s2 => step_opt (lang_cond L e m c) (fun b => Next (if b : bool then s1 else s2, k, e, m))
  | Sloop s1 => Next (s1, Fseq (Sloop s1) :: k, e, m)
  | Sblock s1 => Next (s1, Fblock :: k, e, m)
  | Sexit n =>
      step_opt (if n <? 0 then None else exit_cont (Z.to_nat n) k) (fun k' => Next (Sskip, k', e, m))
  | Sswitch isLong a cases d =>
      step_opt (v ← lang_expr L e m a; lang_switch L isLong v)
        (fun z => Next (select_case z cases d, k, e, m))
  | Sreturn None => Halt (RReturned None m)
  | Sreturn (Some a) => step_opt (lang_expr L e m a) (fun v => Halt (RReturned (Some v) m))
  | Slabel _ s1 => Next (s1, k, e, m)
  | Sgoto l => step_opt (find_stmt l body []) (fun sk => Next (sk.1, sk.2, e, m))
  end.
End Execution.
