(* ===== verification/Cminor.v ===== *)
(** Cminor ([src/pkg/cminor/ast.go]): the structured language in which locals
    have a place, a variable or the stack frame, together with the operators
    and constants it takes over from Csharpminor
    ([src/pkg/csharpminor/ast.go]). *)

From S2P Require Import Prelude.
From S2P Require Target Structured.

Abbreviation Chunk := Target.Chunk (only parsing).
Abbreviation Sig := Target.Sig (only parsing).

(** ** Operators *)

Inductive UnaryOp :=
| Ocast8signed | Ocast8unsigned | Ocast16signed | Ocast16unsigned
| Onegint | Onegf | Onegl | Onegs
| Onotint | Onotl
| Onotbool
| Osingleoffloat | Ofloatofsingle
| Ointoffloat | Ointuoffloat | Ofloatofint | Ofloatofintu
| Olongoffloat | Olonguoffloat | Ofloatoflong | Ofloatoflongu
| Olongofsingle | Olonguofsingle | Osingleoflong | Osingleoflongu
| Ointoflong | Olongofint | Olongofintu.

Inductive BinaryOp :=
| Oadd | Osub | Omul | Odiv | Odivu | Omod | Omodu
| Oaddf | Osubf | Omulf | Odivf
| Oadds | Osubs | Omuls | Odivs
| Oaddl | Osubl | Omull | Odivl | Odivlu | Omodl | Omodlu
| Oand | Oor | Oxor | Oshl | Oshr | Oshru
| Oandl | Oorl | Oxorl | Oshll | Oshrl | Oshrlu
| Ocmp | Ocmpu | Ocmpf | Ocmps | Ocmpl | Ocmplu.

Inductive Comparison := Ceq | Cne | Clt | Cle | Cgt | Cge.

(** ** Constants and expressions; floating-point numbers are bit patterns *)

Inductive Constant :=
| Ointconst (Value : Z)
| Ofloatconst (Bits : Z)
| Olongconst (Value : Z)
| Osingleconst (Bits : Z)
| Oaddrsymbol (Name : string) (Offset : Z)
| Oaddrstack (Offset : Z).

Inductive Expr :=
| Evar (Name : string)
| Econst (Const : Constant)
| Eunop (Op : UnaryOp) (Arg : Expr)
| Ebinop (Op : BinaryOp) (Left Right : Expr)
| Ecmp (Op : BinaryOp) (Cmp : Comparison) (Left Right : Expr)
| Eload (chunk : Chunk) (Addr : Expr).

Definition Stmt : Type := Structured.Stmt Sig string Expr Expr Expr.

Record Function := mkFunction {
  fn_Name : string;
  fn_Sig : Sig;
  fn_Params : list string;
  fn_Vars : list string;
  fn_Stackspace : Z;
  fn_Body : Stmt
}.

Record GlobVar := mkGlobVar {
  gv_Name : string;
  gv_Size : Z;
  gv_Init : list Z;
  gv_ReadOnly : bool
}.

Record Program := mkProgram {
  Globals : list GlobVar;
  Functions : list Function
}.

#[export] Instance UnaryOp_eq_dec : EqDecision UnaryOp.
Proof. solve_decision. Defined.
#[export] Instance BinaryOp_eq_dec : EqDecision BinaryOp.
Proof. solve_decision. Defined.
#[export] Instance Comparison_eq_dec : EqDecision Comparison.
Proof. solve_decision. Defined.
#[export] Instance Constant_eq_dec : EqDecision Constant.
Proof. solve_decision. Defined.
