(* ===== verification/Values.v ===== *)
(** Values and operators. A value is a 32- or 64-bit integer or a
    floating-point number; addresses are 64-bit integers. This file gives the
    operators of Cminor and the operations, conditions and addressing modes of
    RTL a meaning on values. *)

From S2P Require Import Prelude Target IntOps Semantics.
From S2P Require Cminor.

(** Integers of width [w] are kept between [-2^(w-1)] and [2^(w-1) - 1];
    floating-point numbers are their bit patterns. *)
Inductive val :=
| Vint (n : Z)
| Vlong (n : Z)
| Vfloat (bits : Z)
| Vsingle (bits : Z).

#[export] Instance val_eq_dec : EqDecision val.
Proof. solve_decision. Defined.

(** The arithmetic of floating-point numbers, on bit patterns, is left open.
    Comparisons of unordered numbers are [None]. *)
Class FloatOps := {
  f64_neg : Z -> Z; f64_abs : Z -> Z;
  f64_add : Z -> Z -> Z; f64_sub : Z -> Z -> Z; f64_mul : Z -> Z -> Z; f64_div : Z -> Z -> Z;
  f32_neg : Z -> Z; f32_abs : Z -> Z;
  f32_add : Z -> Z -> Z; f32_sub : Z -> Z -> Z; f32_mul : Z -> Z -> Z; f32_div : Z -> Z -> Z;
  f64_compare : Z -> Z -> option comparison;
  f32_compare : Z -> Z -> option comparison;
  f32_of_f64 : Z -> Z; f64_of_f32 : Z -> Z;
  int_of_f64 : Z -> option Z; intu_of_f64 : Z -> option Z;
  f64_of_int : Z -> Z; f64_of_intu : Z -> Z;
  long_of_f64 : Z -> option Z; longu_of_f64 : Z -> option Z;
  f64_of_long : Z -> Z; f64_of_longu : Z -> Z;
  long_of_f32 : Z -> option Z; longu_of_f32 : Z -> option Z;
  f32_of_long : Z -> Z; f32_of_longu : Z -> Z
}.

(** Where the symbols and the stack frame of the function are. *)
Class Layout := {
  symbol_address : string -> Z;
  stack_pointer : Z
}.

Definition symbol_offset `{Layout} (s : string) (ofs : Z) : val := Vlong (i64 (symbol_address s + ofs)).
Definition stack_offset `{Layout} (ofs : Z) : val := Vlong (i64 (stack_pointer + ofs)).

Definition truth (b : bool) : val := Vint (Z.b2z b).

(** ** Cminor *)

Definition condition_of (c : Cminor.Comparison) : Condition :=
  match c with
  | Cminor.Ceq => Ceq | Cminor.Cne => Cne | Cminor.Clt => Clt
  | Cminor.Cle => Cle | Cminor.Cgt => Cgt | Cminor.Cge => Cge
  end.

Section Cminor.
  Context `{FloatOps}.

Definition eval_unop (op : Cminor.UnaryOp) (v : val) : option val :=
  match op, v with
  | Cminor.Ocast8signed, Vint n => Some (Vint (wrap 8 n))
  | Cminor.Ocast8unsigned, Vint n => Some (Vint (n mod 2 ^ 8))
  | Cminor.Ocast16signed, Vint n => Some (Vint (wrap 16 n))
  | Cminor.Ocast16unsigned, Vint n => Some (Vint (n mod 2 ^ 16))
  | Cminor.Onegint, Vint n => Some (Vint (i32 (- n)))
  | Cminor.Onegf, Vfloat f => Some (Vfloat (f64_neg f))
  | Cminor.Onegl, Vlong n => Some (Vlong (i64 (- n)))
  | Cminor.Onegs, Vsingle f => Some (Vsingle (f32_neg f))
  | Cminor.Onotint, Vint n => Some (Vint (Z.lnot n))
  | Cminor.Onotl, Vlong n => Some (Vlong (Z.lnot n))
  | Cminor.Onotbool, Vint n => Some (truth (n =? 0))
  | Cminor.Osingleoffloat, Vfloat f => Some (Vsingle (f32_of_f64 f))
  | Cminor.Ofloatofsingle, Vsingle f => Some (Vfloat (f64_of_f32 f))
  | Cminor.Ointoffloat, Vfloat f => Vint ∘ i32 <$> int_of_f64 f
  | Cminor.Ointuoffloat, Vfloat f => Vint ∘ i32 <$> intu_of_f64 f
  | Cminor.Ofloatofint, Vint n => Some (Vfloat (f64_of_int n))
  | Cminor.Ofloatofintu, Vint n => Some (Vfloat (f64_of_intu (u32 n)))
  | Cminor.Olongoffloat, Vfloat f => Vlong ∘ i64 <$> long_of_f64 f
  | Cminor.Olonguoffloat, Vfloat f => Vlong ∘ i64 <$> longu_of_f64 f
  | Cminor.Ofloatoflong, Vlong n => Some (Vfloat (f64_of_long n))
  | Cminor.Ofloatoflongu, Vlong n => Some (Vfloat (f64_of_longu (u64 n)))
  | Cminor.Olongofsingle, Vsingle f => Vlong ∘ i64 <$> long_of_f32 f
  | Cminor.Olonguofsingle, Vsingle f => Vlong ∘ i64 <$> longu_of_f32 f
  | Cminor.Osingleoflong, Vlong n => Some (Vsingle (f32_of_long n))
  | Cminor.Osingleoflongu, Vlong n => Some (Vsingle (f32_of_longu (u64 n)))
  | Cminor.Ointoflong, Vlong n => Some (Vint (i32 n))
  | Cminor.Olongofint, Vint n => Some (Vlong n)
  | Cminor.Olongofintu, Vint n => Some (Vlong (u32 n))
  | _, _ => None
  end.

(** Division by zero and shifts by the width or more have no value, nor has
    the quotient that overflows: it is the smallest integer on AArch64. *)
Definition eval_binop (op : Cminor.BinaryOp) (v1 v2 : val) : option val :=
  match op, v1, v2 with
  | Cminor.Oadd, Vint a, Vint b => Some (Vint (i32 (a + b)))
  | Cminor.Osub, Vint a, Vint b => Some (Vint (i32 (a - b)))
  | Cminor.Omul, Vint a, Vint b => Some (Vint (i32 (a * b)))
  | Cminor.Odiv, Vint a, Vint b => Vint ∘ i32 <$> guard_div b (Z.quot a b)
  | Cminor.Odivu, Vint a, Vint b => Vint ∘ i32 <$> guard_div (u32 b) (u32 a / u32 b)
  | Cminor.Omod, Vint a, Vint b => Vint ∘ i32 <$> guard_div b (Z.rem a b)
  | Cminor.Omodu, Vint a, Vint b => Vint ∘ i32 <$> guard_div (u32 b) (u32 a mod u32 b)
  | Cminor.Oaddf, Vfloat a, Vfloat b => Some (Vfloat (f64_add a b))
  | Cminor.Osubf, Vfloat a, Vfloat b => Some (Vfloat (f64_sub a b))
  | Cminor.Omulf, Vfloat a, Vfloat b => Some (Vfloat (f64_mul a b))
  | Cminor.Odivf, Vfloat a, Vfloat b => Some (Vfloat (f64_div a b))
  | Cminor.Oadds, Vsingle a, Vsingle b => Some (Vsingle (f32_add a b))
  | Cminor.Osubs, Vsingle a, Vsingle b => Some (Vsingle (f32_sub a b))
  | Cminor.Omuls, Vsingle a, Vsingle b => Some (Vsingle (f32_mul a b))
  | Cminor.Odivs, Vsingle a, Vsingle b => Some (Vsingle (f32_div a b))
  | Cminor.Oaddl, Vlong a, Vlong b => Some (Vlong (i64 (a + b)))
  | Cminor.Osubl, Vlong a, Vlong b => Some (Vlong (i64 (a - b)))
  | Cminor.Omull, Vlong a, Vlong b => Some (Vlong (i64 (a * b)))
  | Cminor.Odivl, Vlong a, Vlong b => Vlong ∘ i64 <$> guard_div b (Z.quot a b)
  | Cminor.Odivlu, Vlong a, Vlong b => Vlong ∘ i64 <$> guard_div (u64 b) (u64 a / u64 b)
  | Cminor.Omodl, Vlong a, Vlong b => Vlong ∘ i64 <$> guard_div b (Z.rem a b)
  | Cminor.Omodlu, Vlong a, Vlong b => Vlong ∘ i64 <$> guard_div (u64 b) (u64 a mod u64 b)
  | Cminor.Oand, Vint a, Vint b => Some (Vint (Z.land a b))
  | Cminor.Oor, Vint a, Vint b => Some (Vint (Z.lor a b))
  | Cminor.Oxor, Vint a, Vint b => Some (Vint (Z.lxor a b))
  | Cminor.Oshl, Vint a, (Vint b | Vlong b) => Vint ∘ i32 <$> guard_shift 32 b (Z.shiftl a b)
  | Cminor.Oshr, Vint a, (Vint b | Vlong b) => Vint ∘ i32 <$> guard_shift 32 b (Z.shiftr a b)
  | Cminor.Oshru, Vint a, (Vint b | Vlong b) => Vint ∘ i32 <$> guard_shift 32 b (Z.shiftr (u32 a) b)
  | Cminor.Oandl, Vlong a, Vlong b => Some (Vlong (Z.land a b))
  | Cminor.Oorl, Vlong a, Vlong b => Some (Vlong (Z.lor a b))
  | Cminor.Oxorl, Vlong a, Vlong b => Some (Vlong (Z.lxor a b))
  | Cminor.Oshll, Vlong a, (Vint b | Vlong b) => Vlong ∘ i64 <$> guard_shift 64 b (Z.shiftl a b)
  | Cminor.Oshrl, Vlong a, (Vint b | Vlong b) => Vlong ∘ i64 <$> guard_shift 64 b (Z.shiftr a b)
  | Cminor.Oshrlu, Vlong a, (Vint b | Vlong b) => Vlong ∘ i64 <$> guard_shift 64 b (Z.shiftr (u64 a) b)
  | _, _, _ => None
  end.

(** The comparison operators [Ocmp], [Ocmpu], ...: the other operators compare
    nothing. *)
Definition eval_cmp (op : Cminor.BinaryOp) (c : Condition) (v1 v2 : val) : option bool :=
  match op, v1, v2 with
  | Cminor.Ocmp, Vint a, Vint b => Some (compare_Z c a b)
  | Cminor.Ocmpu, Vint a, Vint b => Some (compare_Z c (u32 a) (u32 b))
  | Cminor.Ocmpf, Vfloat a, Vfloat b => Some (float_holds c (f64_compare a b))
  | Cminor.Ocmps, Vsingle a, Vsingle b => Some (float_holds c (f32_compare a b))
  | Cminor.Ocmpl, Vlong a, Vlong b => Some (compare_Z c a b)
  | Cminor.Ocmplu, Vlong a, Vlong b => Some (compare_Z c (u64 a) (u64 b))
  | _, _, _ => None
  end.
End Cminor.

Definition eval_const `{Layout} (c : Cminor.Constant) : val :=
  match c with
  | Cminor.Ointconst n => Vint n
  | Cminor.Olongconst n => Vlong n
  | Cminor.Ofloatconst f => Vfloat f
  | Cminor.Osingleconst f => Vsingle f
  | Cminor.Oaddrsymbol s ofs => symbol_offset s ofs
  | Cminor.Oaddrstack ofs => stack_offset ofs
  end.

(** ** RTL *)

Section Rtl.
  Context `{FloatOps} `{Layout}.

Definition val_op (op : Operation) (args : list val) : option val :=
  match op, args with
  | Omove, [v] => Some v
  | Ointconst n, [] => Some (Vint n)
  | Olongconst n, [] => Some (Vlong n)
  | Ofloatconst f, [] => Some (Vfloat f)
  | Osingleconst f, [] => Some (Vsingle f)
  | Oaddrsymbol s ofs, [] => Some (symbol_offset s ofs)
  | Oaddrstack ofs, [] => Some (stack_offset ofs)
  | Oadd, [v1; v2] => eval_binop Cminor.Oadd v1 v2
  | Oaddimm n, [v] => eval_binop Cminor.Oadd v (Vint n)
  | Oneg, [v] => eval_unop Cminor.Onegint v
  | Osub, [v1; v2] => eval_binop Cminor.Osub v1 v2
  | Omul, [v1; v2] => eval_binop Cminor.Omul v1 v2
  | Omulimm n, [v] => eval_binop Cminor.Omul v (Vint n)
  | Odiv, [v1; v2] => eval_binop Cminor.Odiv v1 v2
  | Odivu, [v1; v2] => eval_binop Cminor.Odivu v1 v2
  | Omod, [v1; v2] => eval_binop Cminor.Omod v1 v2
  | Omodu, [v1; v2] => eval_binop Cminor.Omodu v1 v2
  | Oand, [v1; v2] => eval_binop Cminor.Oand v1 v2
  | Oandimm n, [v] => eval_binop Cminor.Oand v (Vint n)
  | Oor, [v1; v2] => eval_binop Cminor.Oor v1 v2
  | Oorimm n, [v] => eval_binop Cminor.Oor v (Vint n)
  | Oxor, [v1; v2] => eval_binop Cminor.Oxor v1 v2
  | Oxorimm n, [v] => eval_binop Cminor.Oxor v (Vint n)
  | Onot, [v] => eval_unop Cminor.Onotint v
  | Oshl, [v1; v2] => eval_binop Cminor.Oshl v1 v2
  | Oshlimm n, [v] => eval_binop Cminor.Oshl v (Vint n)
  | Oshr, [v1; v2] => eval_binop Cminor.Oshr v1 v2
  | Oshrimm n, [v] => eval_binop Cminor.Oshr v (Vint n)
  | Oshru, [v1; v2] => eval_binop Cminor.Oshru v1 v2
  | Oshruimm n, [v] => eval_binop Cminor.Oshru v (Vint n)
  | Oaddl, [v1; v2] => eval_binop Cminor.Oaddl v1 v2
  | Oaddlimm n, [v] => eval_binop Cminor.Oaddl v (Vlong n)
  | Onegl, [v] => eval_unop Cminor.Onegl v
  | Osubl, [v1; v2] => eval_binop Cminor.Osubl v1 v2
  | Omull, [v1; v2] => eval_binop Cminor.Omull v1 v2
  | Omullimm n, [v] => eval_binop Cminor.Omull v (Vlong n)
  | Odivl, [v1; v2] => eval_binop Cminor.Odivl v1 v2
  | Odivlu, [v1; v2] => eval_binop Cminor.Odivlu v1 v2
  | Omodl, [v1; v2] => eval_binop Cminor.Omodl v1 v2
  | Omodlu, [v1; v2] => eval_binop Cminor.Omodlu v1 v2
  | Oandl, [v1; v2] => eval_binop Cminor.Oandl v1 v2
  | Oandlimm n, [v] => eval_binop Cminor.Oandl v (Vlong n)
  | Oorl, [v1; v2] => eval_binop Cminor.Oorl v1 v2
  | Oorlimm n, [v] => eval_binop Cminor.Oorl v (Vlong n)
  | Oxorl, [v1; v2] => eval_binop Cminor.Oxorl v1 v2
  | Oxorlimm n, [v] => eval_binop Cminor.Oxorl v (Vlong n)
  | Onotl, [v] => eval_unop Cminor.Onotl v
  | Oshll, [v1; v2] => eval_binop Cminor.Oshll v1 v2
  | Oshllimm n, [v] => eval_binop Cminor.Oshll v (Vint n)
  | Oshrl, [v1; v2] => eval_binop Cminor.Oshrl v1 v2
  | Oshrlimm n, [v] => eval_binop Cminor.Oshrl v (Vint n)
  | Oshrlu, [v1; v2] => eval_binop Cminor.Oshrlu v1 v2
  | Oshrluimm n, [v] => eval_binop Cminor.Oshrlu v (Vint n)
  | Ocast8signed, [v] => eval_unop Cminor.Ocast8signed v
  | Ocast8unsigned, [v] => eval_unop Cminor.Ocast8unsigned v
  | Ocast16signed, [v] => eval_unop Cminor.Ocast16signed v
  | Ocast16unsigned, [v] => eval_unop Cminor.Ocast16unsigned v
  | Olongofint, [v] => eval_unop Cminor.Olongofint v
  | Olongofintu, [v] => eval_unop Cminor.Olongofintu v
  | Ointoflong, [v] => eval_unop Cminor.Ointoflong v
  | Onegf, [v] => eval_unop Cminor.Onegf v
  | Oabsf, [Vfloat f] => Some (Vfloat (f64_abs f))
  | Oaddf, [v1; v2] => eval_binop Cminor.Oaddf v1 v2
  | Osubf, [v1; v2] => eval_binop Cminor.Osubf v1 v2
  | Omulf, [v1; v2] => eval_binop Cminor.Omulf v1 v2
  | Odivf, [v1; v2] => eval_binop Cminor.Odivf v1 v2
  | Onegs, [v] => eval_unop Cminor.Onegs v
  | Oabss, [Vsingle f] => Some (Vsingle (f32_abs f))
  | Oadds, [v1; v2] => eval_binop Cminor.Oadds v1 v2
  | Osubs, [v1; v2] => eval_binop Cminor.Osubs v1 v2
  | Omuls, [v1; v2] => eval_binop Cminor.Omuls v1 v2
  | Odivs, [v1; v2] => eval_binop Cminor.Odivs v1 v2
  | Osingleoffloat, [v] => eval_unop Cminor.Osingleoffloat v
  | Ofloatofsingle, [v] => eval_unop Cminor.Ofloatofsingle v
  | Ointoffloat, [v] => eval_unop Cminor.Ointoffloat v
  | Ointuoffloat, [v] => eval_unop Cminor.Ointuoffloat v
  | Ofloatofint, [v] => eval_unop Cminor.Ofloatofint v
  | Ofloatofintu, [v] => eval_unop Cminor.Ofloatofintu v
  | Olongoffloat, [v] => eval_unop Cminor.Olongoffloat v
  | Olonguoffloat, [v] => eval_unop Cminor.Olonguoffloat v
  | Ofloatoflong, [v] => eval_unop Cminor.Ofloatoflong v
  | Ofloatoflongu, [v] => eval_unop Cminor.Ofloatoflongu v
  | Ocmp c, [v1; v2] => truth <$> eval_cmp Cminor.Ocmp c v1 v2
  | Ocmpu c, [v1; v2] => truth <$> eval_cmp Cminor.Ocmpu c v1 v2
  | Ocmpf c, [v1; v2] => truth <$> eval_cmp Cminor.Ocmpf c v1 v2
  | Ocmps c, [v1; v2] => truth <$> eval_cmp Cminor.Ocmps c v1 v2
  | Ocmpl c, [v1; v2] => truth <$> eval_cmp Cminor.Ocmpl c v1 v2
  | Ocmplu c, [v1; v2] => truth <$> eval_cmp Cminor.Ocmplu c v1 v2
  | Ocmpimm c n, [v] => truth <$> eval_cmp Cminor.Ocmp c v (Vint n)
  | Ocmpuimm c n, [v] => truth <$> eval_cmp Cminor.Ocmpu c v (Vint n)
  | Ocmplimm c n, [v] => truth <$> eval_cmp Cminor.Ocmpl c v (Vlong n)
  | Ocmpluimm c n, [v] => truth <$> eval_cmp Cminor.Ocmplu c v (Vlong n)
  | _, _ => None
  end.

Definition val_cond (c : ConditionCode) (args : list val) : option bool :=
  match c, args with
  | Ccomp c, [v1; v2] => eval_cmp Cminor.Ocmp c v1 v2
  | Ccompu c, [v1; v2] => eval_cmp Cminor.Ocmpu c v1 v2
  | Ccompimm c n, [v] => eval_cmp Cminor.Ocmp c v (Vint n)
  | Ccompuimm c n, [v] => eval_cmp Cminor.Ocmpu c v (Vint n)
  | Ccompl c, [v1; v2] => eval_cmp Cminor.Ocmpl c v1 v2
  | Ccomplu c, [v1; v2] => eval_cmp Cminor.Ocmplu c v1 v2
  | Ccomplimm c n, [v] => eval_cmp Cminor.Ocmpl c v (Vlong n)
  | Ccompluimm c n, [v] => eval_cmp Cminor.Ocmplu c v (Vlong n)
  | Ccompf c, [v1; v2] => eval_cmp Cminor.Ocmpf c v1 v2
  | Cnotcompf c, [v1; v2] => negb <$> eval_cmp Cminor.Ocmpf c v1 v2
  | Ccomps c, [v1; v2] => eval_cmp Cminor.Ocmps c v1 v2
  | Cnotcomps c, [v1; v2] => negb <$> eval_cmp Cminor.Ocmps c v1 v2
  | _, _ => None
  end.

(** The address an addressing mode denotes. *)
Definition val_addr (a : AddressingMode) (args : list val) : option Z :=
  match a, args with
  | Aindexed ofs, [Vlong b] => Some (i64 (b + ofs))
  | Aindexed2, [Vlong b; Vlong i] => Some (i64 (b + i))
  | Aindexed2shift s, [Vlong b; Vlong i] => Some (i64 (b + Z.shiftl i s))
  | Aindexed2ext Xsgn32 s, [Vlong b; Vint i] => Some (i64 (b + Z.shiftl i s))
  | Aindexed2ext Xuns32 s, [Vlong b; Vint i] => Some (i64 (b + Z.shiftl (u32 i) s))
  | Aglobal s ofs, [] => Some (i64 (symbol_address s + ofs))
  | Ainstack ofs, [] => Some (i64 (stack_pointer + ofs))
  | _, _ => None
  end.
End Rtl.

(** A target that computes on values: its operations, conditions and
    addressing modes mean what this file says, over loads and stores at an
    address. *)
Class ValueTarget (M : Type) `{FloatOps} `{Layout} `{TargetSemantics val M} := {
  load_val : Chunk -> Z -> M -> option val;
  store_val : Chunk -> Z -> val -> M -> option M;
  eval_op_val op args m : eval_op op args m = val_op op args;
  eval_cond_val c args m : eval_cond c args m = val_cond c args;
  eval_load_val chunk a args m : eval_load chunk a args m = val_addr a args ≫= fun p => load_val chunk p m;
  eval_store_val chunk a args v m :
    eval_store chunk a args v m = val_addr a args ≫= fun p => store_val chunk p v m
}.

(** The number a switch selects on. *)
Definition switch_val (isLong : bool) (v : val) : option Z :=
  match isLong, v with
  | false, Vint n => Some n
  | true, Vlong n => Some n
  | _, _ => None
  end.
