(* ===== verification/CminorSel.v ===== *)
(** CminorSel ([src/pkg/cminorsel/ast.go]): Cminor with the addressing modes,
    conditions and combined operations of the target, the input of RTL
    generation. Operators, chunks and constants are Cminor's. *)

From S2P Require Import Prelude Target.
From S2P Require Cminor Structured.

Abbreviation UnaryOp := Cminor.UnaryOp (only parsing).
Abbreviation BinaryOp := Cminor.BinaryOp (only parsing).
Abbreviation Comparison := Cminor.Comparison (only parsing).
Abbreviation Constant := Cminor.Constant (only parsing).

Inductive ShiftOp := Slsl | Slsr | Sasr.

Inductive Expr :=
| Evar (Name : string)
| Econst (Const : Constant)
| Eunop (Op : UnaryOp) (Arg : Expr)
| Ebinop (Op : BinaryOp) (Left Right : Expr)
| Eload (chunk : Chunk) (Mode : AddressingMode) (Args : list Expr)
| Econdition (Cond : Condition) (Then Else : Expr)
| Elet (Bind Body : Expr)
| Eletvar (Index : Z)
| Eaddshift (Op : ShiftOp) (Shift : Z) (Left Right : Expr)
| Esubshift (Op : ShiftOp) (Shift : Z) (Left Right : Expr)
| Ecmp (Op : BinaryOp) (Cmp : Comparison) (Left Right : Expr)
with Condition :=
| CondTrue
| CondFalse
| CondCmp (Cmp : Comparison) (Left Right : Expr)
| CondCmpu (Cmp : Comparison) (Left Right : Expr)
| CondCmpf (Cmp : Comparison) (Left Right : Expr)
| CondCmps (Cmp : Comparison) (Left Right : Expr)
| CondCmpl (Cmp : Comparison) (Left Right : Expr)
| CondCmplu (Cmp : Comparison) (Left Right : Expr)
| CondNot (Cond : Condition)
| CondAnd (Left Right : Condition)
| CondOr (Left Right : Condition).

(** The comparison operator of the six conditions that compare. *)
Definition cond_leaf (c : Condition) : option (BinaryOp * Comparison * Expr * Expr) :=
  match c with
  | CondCmp cmp l r => Some (Cminor.Ocmp, cmp, l, r)
  | CondCmpu cmp l r => Some (Cminor.Ocmpu, cmp, l, r)
  | CondCmpf cmp l r => Some (Cminor.Ocmpf, cmp, l, r)
  | CondCmps cmp l r => Some (Cminor.Ocmps, cmp, l, r)
  | CondCmpl cmp l r => Some (Cminor.Ocmpl, cmp, l, r)
  | CondCmplu cmp l r => Some (Cminor.Ocmplu, cmp, l, r)
  | _ => None
  end.

(** Induction over expressions and conditions, with a hypothesis for every
    argument of a load. *)
Section ExprInd.
  Context (P : Expr -> Prop) (Q : Condition -> Prop).
  Context (Hvar : forall x, P (Evar x)).
  Context (Hconst : forall c, P (Econst c)).
  Context (Hunop : forall op e, P e -> P (Eunop op e)).
  Context (Hbinop : forall op e1 e2, P e1 -> P e2 -> P (Ebinop op e1 e2)).
  Context (Hload : forall chunk mode args, Forall P args -> P (Eload chunk mode args)).
  Context (Hcondition : forall c e1 e2, Q c -> P e1 -> P e2 -> P (Econdition c e1 e2)).
  Context (Hlet : forall e1 e2, P e1 -> P e2 -> P (Elet e1 e2)).
  Context (Hletvar : forall n, P (Eletvar n)).
  Context (Haddshift : forall op n e1 e2, P e1 -> P e2 -> P (Eaddshift op n e1 e2)).
  Context (Hsubshift : forall op n e1 e2, P e1 -> P e2 -> P (Esubshift op n e1 e2)).
  Context (Hcmp : forall op c e1 e2, P e1 -> P e2 -> P (Ecmp op c e1 e2)).
  Context (Htrue : Q CondTrue).
  Context (Hfalse : Q CondFalse).
  Context (Hleaf : forall c op cmp l r, cond_leaf c = Some (op, cmp, l, r) -> P l -> P r -> Q c).
  Context (Hnot : forall c, Q c -> Q (CondNot c)).
  Context (Hand : forall c1 c2, Q c1 -> Q c2 -> Q (CondAnd c1 c2)).
  Context (Hor : forall c1 c2, Q c1 -> Q c2 -> Q (CondOr c1 c2)).

Fixpoint Expr_nested_ind (e : Expr) : P e :=
  match e with
  | Evar x => Hvar x
  | Econst c => Hconst c
  | Eunop op e => Hunop op e (Expr_nested_ind e)
  | Ebinop op e1 e2 => Hbinop op e1 e2 (Expr_nested_ind e1) (Expr_nested_ind e2)
  | Eload chunk mode args =>
      Hload chunk mode args
        ((fix go args : Forall P args :=
            match args with
            | [] => List.Forall_nil _
            | a :: args => List.Forall_cons _ _ _ (Expr_nested_ind a) (go args)
            end) args)
  | Econdition c e1 e2 => Hcondition c e1 e2 (Condition_nested_ind c) (Expr_nested_ind e1) (Expr_nested_ind e2)
  | Elet e1 e2 => Hlet e1 e2 (Expr_nested_ind e1) (Expr_nested_ind e2)
  | Eletvar n => Hletvar n
  | Eaddshift op n e1 e2 => Haddshift op n e1 e2 (Expr_nested_ind e1) (Expr_nested_ind e2)
  | Esubshift op n e1 e2 => Hsubshift op n e1 e2 (Expr_nested_ind e1) (Expr_nested_ind e2)
  | Ecmp op c e1 e2 => Hcmp op c e1 e2 (Expr_nested_ind e1) (Expr_nested_ind e2)
  end
with Condition_nested_ind (c : Condition) : Q c :=
  match c with
  | CondTrue => Htrue
  | CondFalse => Hfalse
  | CondCmp cmp l r => Hleaf (CondCmp cmp l r) _ _ _ _ eq_refl (Expr_nested_ind l) (Expr_nested_ind r)
  | CondCmpu cmp l r => Hleaf (CondCmpu cmp l r) _ _ _ _ eq_refl (Expr_nested_ind l) (Expr_nested_ind r)
  | CondCmpf cmp l r => Hleaf (CondCmpf cmp l r) _ _ _ _ eq_refl (Expr_nested_ind l) (Expr_nested_ind r)
  | CondCmps cmp l r => Hleaf (CondCmps cmp l r) _ _ _ _ eq_refl (Expr_nested_ind l) (Expr_nested_ind r)
  | CondCmpl cmp l r => Hleaf (CondCmpl cmp l r) _ _ _ _ eq_refl (Expr_nested_ind l) (Expr_nested_ind r)
  | CondCmplu cmp l r => Hleaf (CondCmplu cmp l r) _ _ _ _ eq_refl (Expr_nested_ind l) (Expr_nested_ind r)
  | CondNot c => Hnot c (Condition_nested_ind c)
  | CondAnd c1 c2 => Hand c1 c2 (Condition_nested_ind c1) (Condition_nested_ind c2)
  | CondOr c1 c2 => Hor c1 c2 (Condition_nested_ind c1) (Condition_nested_ind c2)
  end.

Lemma Expr_Condition_ind : (forall e, P e) /\ (forall c, Q c).
Proof. split; [apply Expr_nested_ind|apply Condition_nested_ind]. Qed.
End ExprInd.

(** Stores have an addressing mode and its arguments for an address. *)
Definition Stmt : Type := Structured.Stmt Sig string Expr Condition (AddressingMode * list Expr).

Record Function := mkFunction {
  fn_Name : string;
  fn_Sig : Sig;
  fn_Params : list string;
  fn_Vars : list string;
  fn_Stackspace : Z;
  fn_Body : Stmt
}.

Record GlobVar := mkGlobVar {
  gv_Name : string;
  gv_Size : Z;
  gv_Init : list Z;
  gv_ReadOnly : bool
}.

Record Program := mkProgram {
  Globals : list GlobVar;
  Functions : list Function
}.
