(* ===== verification/StructuredMap.v ===== *)
(** Translations between structured languages that keep the statements and
    change what is inside them: the variables, the expressions, the conditions,
    the addresses and the signatures. If the translated parts compute what the
    original ones do, the translated function behaves as the original. *)

From S2P Require Import Prelude Target Semantics RtlSem Structured.

(** The expressions of a statement, when conditions and addresses are
    expressions too. *)
Fixpoint stmt_exprs {G V E} (s : Stmt G V E E E) : list E :=
  match s with
  | Sskip | Sexit _ | Sgoto _ | Sreturn None => []
  | Sassign _ a | Sreturn (Some a) => [a]
  | Sstore _ addr a => [addr; a]
  | Scall _ _ f args | Stailcall _ f args => f :: args
  | Sbuiltin _ _ args => args
  | Sseq s1 s2 => stmt_exprs s1 ++ stmt_exprs s2
  | Sifthenelse c s1 s2 => c :: stmt_exprs s1 ++ stmt_exprs s2
  | Sloop s | Sblock s | Slabel _ s => stmt_exprs s
  | Sswitch _ a cases d => a :: flat_map (fun c => stmt_exprs c.2) cases ++ stmt_exprs d
  end.

Section Map.
  Context {G1 V1 E1 C1 A1 G2 V2 E2 C2 A2 : Type}.
  Context (fG : G1 -> G2) (fV : V1 -> V2) (fE : E1 -> E2) (fC : C1 -> C2) (fA : A1 -> A2).
  Local Abbreviation stmt1 := (Stmt G1 V1 E1 C1 A1).
  Local Abbreviation stmt2 := (Stmt G2 V2 E2 C2 A2).
  Local Abbreviation frame1 := (frame G1 V1 E1 C1 A1).
  Local Abbreviation frame2 := (frame G2 V2 E2 C2 A2).

Fixpoint map_stmt (s : stmt1) : stmt2 :=
  match s with
  | Sskip => Sskip
  | Sassign x a => Sassign (fV x) (fE a)
  | Sstore chunk addr a => Sstore chunk (fA addr) (fE a)
  | Scall r sig f args => Scall (fV <$> r) (fG <$> sig) (fE f) (map fE args)
  | Stailcall sig f args => Stailcall (fG <$> sig) (fE f) (map fE args)
  | Sbuiltin r b args => Sbuiltin (fV <$> r) b (map fE args)
  | Sseq s1 s2 => Sseq (map_stmt s1) (map_stmt s2)
  | Sifthenelse c s1 s2 => Sifthenelse (fC c) (map_stmt s1) (map_stmt s2)
  | Sloop s => Sloop (map_stmt s)
  | Sblock s => Sblock (map_stmt s)
  | Sexit n => Sexit n
  | Sswitch isLong a cases d => Sswitch isLong (fE a) (map (fun c => (c.1, map_stmt c.2)) cases) (map_stmt d)
  | Sreturn a => Sreturn (fE <$> a)
  | Slabel l s => Slabel l (map_stmt s)
  | Sgoto l => Sgoto l
  end.

Definition map_frame (fr : frame1) : frame2 := match fr with Fseq s => Fseq (map_stmt s) | Fblock => Fblock end.

(** The parts of a statement that a translation supports. *)
Section Supported.
  Context (okE : E1 -> bool) (okC : C1 -> bool) (okA : A1 -> bool).

Fixpoint all_ok (s : stmt1) : bool :=
  match s with
  | Sskip | Sexit _ | Sgoto _ | Sreturn None => true
  | Sassign _ a | Sreturn (Some a) => okE a
  | Sstore _ addr a => okA addr && okE a
  | Scall _ _ f args | Stailcall _ f args => okE f && forallb okE args
  | Sbuiltin _ _ args => forallb okE args
  | Sseq s1 s2 => all_ok s1 && all_ok s2
  | Sifthenelse c s1 s2 => okC c && all_ok s1 && all_ok s2
  | Sloop s | Sblock s | Slabel _ s => all_ok s
  | Sswitch _ a cases d => okE a && forallb (fun c => all_ok c.2) cases && all_ok d
  end.

Definition frame_all_ok (fr : frame1) : bool := match fr with Fseq s => all_ok s | Fblock => true end.
End Supported.

(** *** Control *)

Definition map_point (sk : stmt1 * list frame1) : stmt2 * list frame2 := (map_stmt sk.1, map map_frame sk.2).

Lemma exit_map i k : exit_cont i (map map_frame k) = map map_frame <$> exit_cont i k.
Proof using. revert i. induction k as [|[s|] k IH]; intros i; [done|apply IH|]. destruct i; [done|apply IH]. Qed.

Lemma case_map z cases d :
  map_stmt (select_case z cases d) = select_case z (map (fun c => (c.1, map_stmt c.2)) cases) (map_stmt d).
Proof using. induction cases as [|[v s] cases IH]; [done|]. cbn. by destruct (decide (z = v)). Qed.

Lemma find_map l s k : find_stmt l (map_stmt s) (map map_frame k) = map_point <$> find_stmt l s k.
Proof using.
  revert k. induction s as [|x a|chunk a1 a2|r sig f args|sig f args|r b args|s1 s2 IH1 IH2|c s1 s2 IH1 IH2|s IHs|s IHs|n|isLong a cases d Hcases IHs|a|l0 s IHs|l0]
    using Stmt_nested_ind; intros k; try done; cbn [map_stmt find_stmt].
  - change (Fseq _ :: map map_frame k) with (map map_frame (Fseq s2 :: k)). rewrite IH1.
    destruct (find_stmt l s1 (Fseq s2 :: k)); [done|apply IH2].
  - rewrite (IH1 k). destruct (find_stmt l s1 k); [done|apply IH2].
  - apply (IHs (Fseq (Sloop s) :: k)).
  - apply (IHs (Fblock :: k)).
  - rewrite IHs. induction Hcases as [|[v s1] cases Hs1 _ IH]; [done|]. cbn [map fst snd] in *. rewrite (Hs1 k).
    destruct (find_stmt l s1 k); [done|apply IH].
  - destruct (decide (l = l0)); [done|apply IHs].
Qed.

(** *** Control stays within the supported statements *)

Section Closed.
  Context (okE : E1 -> bool) (okC : C1 -> bool) (okA : A1 -> bool).
  Local Abbreviation ok := (all_ok okE okC okA).
  Local Abbreviation frame_ok := (frame_all_ok okE okC okA).

Lemma exit_all_ok i k k' : exit_cont i k = Some k' -> forallb frame_ok k = true -> forallb frame_ok k' = true.
Proof using.
  revert i. induction k as [|[s|] k IH]; intros i He Hk; [done| |]; simpl in Hk; destruct_andb.
  - by eapply IH.
  - destruct i; [by injection He as <-|by eapply IH].
Qed.

Lemma case_all_ok z cases d :
  forallb (fun c => ok c.2) cases = true -> ok d = true -> ok (select_case z cases d) = true.
Proof using.
  induction cases as [|[v s] cases IH]; intros Hc Hd; [done|]. simpl in Hc. destruct_andb. cbn.
  destruct (decide (z = v)); [done|by apply IH].
Qed.

Lemma find_all_ok l s k s' k' :
  find_stmt l s k = Some (s', k') -> ok s = true -> forallb frame_ok k = true ->
  ok s' = true /\ forallb frame_ok k' = true.
Proof using.
  revert k. induction s as [|x a|chunk a1 a2|r sig f args|sig f args|r b args|s1 s2 IH1 IH2|c s1 s2 IH1 IH2|s IHs|s IHs|n|isLong a cases d Hcases IHs|a|l0 s IHs|l0]
    using Stmt_nested_ind; intros k Hf Hs Hk; try done; simpl in Hf, Hs; destruct_andb.
  - destruct (find_stmt l s1 (Fseq s2 :: k)) as [p|] eqn:E; [|by eapply IH2]. injection Hf as ->.
    apply (IH1 _ E); [done|]. simpl. by rewrite andb_true_iff.
  - destruct (find_stmt l s1 k) as [p|] eqn:E; [|by eapply IH2]. injection Hf as ->. by eapply IH1.
  - apply (IHs _ Hf); [done|]. simpl. by rewrite andb_true_iff.
  - by apply (IHs _ Hf).
  - induction Hcases as [|[v s1] cases Hs1 _ IH]; [by eapply IHs|]. simpl in *. destruct_andb.
    destruct (find_stmt l s1 k) as [p|] eqn:E; [|by apply IH]. injection Hf as ->. by eapply Hs1.
  - destruct (decide (l = l0)); [by injection Hf as <- <-|by eapply IHs].
Qed.
End Closed.

(** ** Execution *)

Section Execution.
  Context {W M : Type} `{Countable V1} `{Countable V2} `{PC : PseudoCalls W M}.
  Context (L1 : Language G1 V1 E1 C1 A1 W M) (L2 : Language G2 V2 E2 C2 A2 W M).
  Context (okE : E1 -> bool) (okC : C1 -> bool) (okA : A1 -> bool).
  Context (R : gmap V1 W -> gmap V2 W -> Prop).
  Implicit Types (m : M).

(** What the translated parts compute, for variables related by [R]. *)
Record parts_ok : Prop := {
  po_expr e1 e2 m a v : R e1 e2 -> okE a = true -> lang_expr L1 e1 m a = Some v -> lang_expr L2 e2 m (fE a) = Some v;
  po_cond e1 e2 m c b : R e1 e2 -> okC c = true -> lang_cond L1 e1 m c = Some b -> lang_cond L2 e2 m (fC c) = Some b;
  po_store e1 e2 chunk addr v m m' : R e1 e2 -> okA addr = true ->
    lang_store L1 e1 chunk addr v m = Some m' -> lang_store L2 e2 chunk (fA addr) v m = Some m';
  po_callee e1 e2 m f fv : R e1 e2 -> okE f = true -> lang_callee L1 e1 m f = Some fv -> lang_callee L2 e2 m (fE f) = Some fv;
  po_switch isLong v z : lang_switch L1 isLong v = Some z -> lang_switch L2 isLong v = Some z;
  po_sig sig : lang_sig L2 (fG <$> sig) = lang_sig L1 sig;
  po_set e1 e2 x v : R e1 e2 -> R (<[x := v]> e1) (<[fV x := v]> e2)
}.

  Context (HP : parts_ok) (body : stmt1) (body_ok : all_ok okE okC okA body = true).

Local Abbreviation step1 := (struct_step (PC := PC) L1 body).
Local Abbreviation step2 := (struct_step (PC := PC) L2 (map_stmt body)).

Definition map_rel (s : stmt1 * list frame1 * gmap V1 W * M) (t : stmt2 * list frame2 * gmap V2 W * M) : Prop :=
  let '(s1, k, e1, m) := s in
  exists e2, t = (map_stmt s1, map map_frame k, e2, m) /\ R e1 e2 /\
    all_ok okE okC okA s1 = true /\ forallb (frame_all_ok okE okC okA) k = true.

Lemma map_rel_intro s k e1 e2 m :
  R e1 e2 -> all_ok okE okC okA s = true -> forallb (frame_all_ok okE okC okA) k = true ->
  map_rel (s, k, e1, m) (map_stmt s, map map_frame k, e2, m).
Proof using. intros. by exists e2. Qed.

(** A step before, and the step after. *)
Definition same_outcome (o : outcome (stmt1 * list frame1 * gmap V1 W * M) (rtl_result W M))
    (o' : outcome (stmt2 * list frame2 * gmap V2 W * M) (rtl_result W M)) : Prop :=
  match o with
  | Next s => exists t, o' = Next t /\ map_rel s t
  | Halt r => o' = Halt r
  | Stuck => True
  end.

Lemma next_map s k e1 e2 m o' :
  o' = Next (map_stmt s, map map_frame k, e2, m) ->
  R e1 e2 -> all_ok okE okC okA s = true -> forallb (frame_all_ok okE okC okA) k = true ->
  same_outcome (Next (s, k, e1, m)) o'.
Proof using. intros -> HR Hs Hk. eexists. split; [done|by apply map_rel_intro]. Qed.

Lemma step_opt_map {A} (o : option A) (o' : option A) f g :
  (forall a, o = Some a -> o' = Some a /\ same_outcome (f a) (g a)) -> same_outcome (step_opt o f) (step_opt o' g).
Proof using. intros Hs. destruct o as [a|]; [|done]. by destruct (Hs a eq_refl) as [-> ?]. Qed.

Lemma step_opt_map_to {A B} (o : option A) (o' : option B) f g :
  (forall a, o = Some a -> exists b, o' = Some b /\ same_outcome (f a) (g b)) -> same_outcome (step_opt o f) (step_opt o' g).
Proof using. intros Hs. destruct o as [a|]; [|done]. by destruct (Hs a eq_refl) as (b & -> & ?). Qed.

Lemma args_map e1 e2 m args vs :
  R e1 e2 -> forallb okE args = true -> mapM (lang_expr L1 e1 m) args = Some vs ->
  mapM (lang_expr L2 e2 m) (map fE args) = Some vs.
Proof using HP.
  intros HR. revert vs. induction args as [|a args IH]; intros vs Ha Hvs; [done|]. simpl in Ha. destruct_andb. cbn in Hvs |- *.
  destruct (lang_expr L1 e1 m a) as [v|] eqn:Ev; [|done]. cbn in Hvs. rewrite (po_expr HP e1 e2 m a v) by done.
  destruct (mapM (lang_expr L1 e1 m) args) as [vs'|]; [|done]. cbn. by rewrite (IH vs').
Qed.

Lemma set_result_map r v e1 e2 : R e1 e2 -> R (set_result r v e1) (set_result (fV <$> r) v e2).
Proof using HP. intros HR. destruct r; [|done]. by apply (po_set HP). Qed.

Lemma call_map e1 e2 m f args {B} (k : callee W -> list W -> option B) b :
  R e1 e2 -> okE f = true -> forallb okE args = true ->
  (fv ← lang_callee L1 e1 m f; vs ← mapM (lang_expr L1 e1 m) args; k fv vs) = Some b ->
  (fv ← lang_callee L2 e2 m (fE f); vs ← mapM (lang_expr L2 e2 m) (map fE args); k fv vs) = Some b.
Proof using HP.
  intros HR Hf Ha Hb. destruct (lang_callee L1 e1 m f) as [fv|] eqn:Ef; [|done]. cbn in Hb.
  destruct (mapM (lang_expr L1 e1 m) args) as [vs|] eqn:Ev; [|done].
  rewrite (po_callee HP e1 e2 m f fv HR Hf Ef). cbn. by rewrite (args_map e1 e2 m args vs HR Ha Ev).
Qed.

Lemma skip_map k e1 e2 m :
  R e1 e2 -> forallb (frame_all_ok okE okC okA) k = true ->
  same_outcome (step1 (Sskip, k, e1, m)) (step2 (Sskip, map map_frame k, e2, m)).
Proof using.
  intros HR Hk. destruct k as [|[s|] k]; [done| |]; simpl in Hk; destruct_andb;
    (eapply next_map; [reflexivity|done..]).
Qed.

Lemma step_map s t : map_rel s t -> same_outcome (step1 s) (step2 t).
Proof using HP body_ok.
  destruct s as [[[s k] e1] m]. intros (e2 & -> & HR & Hs & Hk).
  destruct s as [|x a|chunk addr a|r sig f args|sig f args|r b args|s1 s2|c s1 s2|s|s|i|isLong a cases d|[a|]|l s|l];
    cbn [map_stmt struct_step]; simpl in Hs; destruct_andb; try done.
  - by apply skip_map.
  - apply step_opt_map. intros v Hv. split; [by apply (po_expr HP e1)|].
    eapply next_map; [reflexivity|by apply (po_set HP)|done..].
  - apply step_opt_map. intros m' Hm. destruct (lang_expr L1 e1 m a) as [v|] eqn:Ev; [|done].
    rewrite (po_expr HP e1 e2 m a v) by done. split; [by apply (po_store HP e1)|]. by eapply next_map.
  - apply step_opt_map. intros vm Hvm. rewrite (po_sig HP). split; [by apply (call_map e1)|].
    eapply next_map; [reflexivity|by apply set_result_map|done..].
  - apply step_opt_map. intros fa Hfa. rewrite (po_sig HP). split; [by apply (call_map e1)|done].
  - apply step_opt_map. intros vm Hvm. split.
    + destruct (mapM (lang_expr L1 e1 m) args) as [vs|] eqn:Ev; [|done]. by rewrite (args_map e1 e2 m args vs).
    + eapply next_map; [reflexivity|by apply set_result_map|done..].
  - eapply next_map; [reflexivity|done|done|]. simpl. by rewrite andb_true_iff.
  - apply step_opt_map. intros b Hb. split; [by apply (po_cond HP e1)|].
    eapply next_map; [by destruct b|done|by destruct b|done].
  - eapply next_map; [reflexivity|done|done|]. simpl. by rewrite andb_true_iff.
  - by eapply next_map.
  - apply step_opt_map_to. intros k' Hk'. exists (map map_frame k'). destruct (i <? 0); [done|].
    rewrite exit_map, Hk'. split; [done|]. eapply next_map; [reflexivity|done|done|by eapply exit_all_ok].
  - apply step_opt_map. intros z Hz. destruct (lang_expr L1 e1 m a) as [v|] eqn:Ev; [|done].
    rewrite (po_expr HP e1 e2 m a v) by done. split; [by apply (po_switch HP)|].
    eapply next_map; [by rewrite case_map|done|by apply case_all_ok|done].
  - apply step_opt_map. intros v Hv. by split; [by apply (po_expr HP e1)|].
  - by eapply next_map.
  - apply step_opt_map_to. intros [s' k'] Hsk. exists (map_point (s', k')).
    rewrite (find_map l body [] : find_stmt _ _ [] = _), Hsk. split; [done|]. destruct (find_all_ok okE okC okA l body [] s' k' Hsk body_ok) as [? ?]; [done|]. by eapply next_map.
Qed.

(** The translated function ends as the original, and does not get stuck if
    that one does not. *)
Theorem map_preserves s t :
  map_rel s t ->
  (forall r, terminates step1 s r -> terminates step2 t r) /\
  (safe step1 s -> safe step2 t /\ forall r, terminates step2 t r -> terminates step1 s r).
Proof using HP body_ok.
  intros Hst.
  assert (Hnext : forall s t s', map_rel s t -> step1 s = Next s' -> exists t', map_rel s' t' /\
    (tc (steps_to step2) t t' \/ (t' = t /\ (0 < 0)%nat))).
  { intros s1 t1 s' Hrel E. pose proof (step_map s1 t1 Hrel) as Hs. rewrite E in Hs. destruct Hs as (t' & Ht & Hrel').
    exists t'. split; [done|]. left. by apply tc_once. }
  assert (Hhalt : forall s t r, map_rel s t -> step1 s = Halt r -> exists r', terminates step2 t r' /\ r = r').
  { intros s1 t1 r Hrel E. pose proof (step_map s1 t1 Hrel) as Hs. rewrite E in Hs. exists r. split; [|done].
    by apply terminates_halt. }
  split.
  - intros r Hr. by destruct (sim_forward_rel _ _ map_rel eq (fun _ => 0%nat) Hnext Hhalt _ _ r Hst Hr) as (r' & Ht & ->).
  - intros Hsafe. split; [by apply (sim_safe _ _ map_rel eq (fun _ => 0%nat) Hnext Hhalt _ _ Hst)|].
    intros r Hr.
    by destruct (sim_backward_safe _ _ map_rel eq (fun _ => 0%nat) Hnext Hhalt _ _ r Hst Hsafe Hr) as (r' & Ht & <-).
Qed.
End Execution.
End Map.

Lemma all_ok_exprs {G V E} (ok : E -> bool) (s : Stmt G V E E E) : all_ok ok ok ok s = forallb ok (stmt_exprs s).
Proof.
  induction s as [|x a|chunk a1 a2|r sig f args|sig f args|r b args|s1 s2 IH1 IH2|c s1 s2 IH1 IH2|s IHs|s IHs|n|isLong a cases d Hcases IHs|[a|]|l0 s IHs|l0]
    using Stmt_nested_ind; cbn [all_ok stmt_exprs forallb]; rewrite ?andb_true_r; try done.
  - by rewrite forallb_app, IH1, IH2.
  - by rewrite forallb_app, IH1, IH2, andb_assoc.
  - rewrite forallb_app, IHs, <- andb_assoc. do 2 f_equal. induction Hcases as [|v cases Hv _ IH]; [done|].
    cbn. by rewrite forallb_app, Hv, IH.
Qed.
