(* ===== verification/CminorSem.v ===== *)
(** Execution of Cminor and CminorSel functions: the statements of
    [Structured] over expressions that compute on the values of [Values]. *)

From S2P Require Import Prelude Target Semantics RtlSem Structured Values.
From S2P Require Cminor CminorSel.

Section Languages.
  Context {M : Type} `{FO : FloatOps} `{LO : Layout} `{TS : TargetSemantics val M}.
  Context {VT : ValueTarget M}.
  Implicit Types (e : gmap string val) (m : M).

(** Addresses wrap around at 64 bits. *)
Definition eval_load_at (chunk : Chunk) (a : val) (m : M) : option val :=
  match a with Vlong p => load_val chunk (i64 p) m | _ => None end.

Definition eval_store_at (chunk : Chunk) (a v : val) (m : M) : option M :=
  match a with Vlong p => store_val chunk (i64 p) v m | _ => None end.

(** ** Cminor *)

(** A name that is not one of the function's variables is that of a symbol and
    denotes its address. *)
Fixpoint cm_expr (locals : gset string) e m (a : Cminor.Expr) : option val :=
  match a with
  | Cminor.Evar x => if decide (x ∈ locals) then e !! x else Some (symbol_offset x 0)
  | Cminor.Econst c => Some (eval_const c)
  | Cminor.Eunop op a => v ← cm_expr locals e m a; eval_unop op v
  | Cminor.Ebinop op a1 a2 => v1 ← cm_expr locals e m a1; v2 ← cm_expr locals e m a2; eval_binop op v1 v2
  | Cminor.Ecmp op c a1 a2 =>
      v1 ← cm_expr locals e m a1; v2 ← cm_expr locals e m a2; truth <$> eval_cmp op (condition_of c) v1 v2
  | Cminor.Eload chunk a => v ← cm_expr locals e m a; eval_load_at chunk v m
  end.

(** A condition is an [int], as in CompCert's Cminor, and holds when it is not
    zero. *)
Definition val_truth (v : val) : option bool :=
  match v with
  | Vint n => Some (negb (n =? 0))
  | _ => None
  end.

(** A function that is named is called by its name. *)
Definition cm_callee (locals : gset string) e m (f : Cminor.Expr) : option (callee val) :=
  match f with
  | Cminor.Evar x => if decide (x ∈ locals) then ToAddress <$> e !! x else Some (ToSymbol x)
  | Cminor.Econst (Cminor.Oaddrsymbol s 0) => Some (ToSymbol s)
  | f => ToAddress <$> cm_expr locals e m f
  end.

Definition cminor_language (locals : gset string) : Language Sig string Cminor.Expr Cminor.Expr Cminor.Expr val M := {|
  lang_expr := cm_expr locals;
  lang_cond e m a := cm_expr locals e m a ≫= val_truth;
  lang_store e chunk a v m := p ← cm_expr locals e m a; eval_store_at chunk p v m;
  lang_callee := cm_callee locals;
  lang_switch := switch_val;
  lang_sig := default zero_sig
|}.

(** ** CminorSel *)

Definition shift_op (op : CminorSel.ShiftOp) : Cminor.BinaryOp :=
  match op with
  | CminorSel.Slsl => Cminor.Oshl
  | CminorSel.Slsr => Cminor.Oshru
  | CminorSel.Sasr => Cminor.Oshr
  end.

(** [le] has the values bound by the enclosing [Elet]s, innermost first. *)
Definition let_value {A} (le : list A) (n : Z) : option A := if n <? 0 then None else le !! Z.to_nat n.

Fixpoint sel_expr e m (le : list val) (a : CminorSel.Expr) : option val :=
  match a with
  | CminorSel.Evar x => e !! x
  | CminorSel.Econst c => Some (eval_const c)
  | CminorSel.Eunop op a => v ← sel_expr e m le a; eval_unop op v
  | CminorSel.Ebinop op a1 a2 => v1 ← sel_expr e m le a1; v2 ← sel_expr e m le a2; eval_binop op v1 v2
  | CminorSel.Eload chunk mode args =>
      vs ← mapM (sel_expr e m le) args; p ← val_addr mode vs; load_val chunk p m
  | CminorSel.Econdition c a1 a2 =>
      b ← sel_cond e m le c; if b : bool then sel_expr e m le a1 else sel_expr e m le a2
  | CminorSel.Elet a1 a2 => v ← sel_expr e m le a1; sel_expr e m (v :: le) a2
  | CminorSel.Eletvar n => let_value le n
  | CminorSel.Eaddshift op n a1 a2 =>
      v1 ← sel_expr e m le a1; v2 ← sel_expr e m le a2;
      v ← eval_binop (shift_op op) v2 (Vint n); eval_binop Cminor.Oadd v1 v
  | CminorSel.Esubshift op n a1 a2 =>
      v1 ← sel_expr e m le a1; v2 ← sel_expr e m le a2;
      v ← eval_binop (shift_op op) v2 (Vint n); eval_binop Cminor.Osub v1 v
  | CminorSel.Ecmp op c a1 a2 =>
      v1 ← sel_expr e m le a1; v2 ← sel_expr e m le a2; truth <$> eval_cmp op (condition_of c) v1 v2
  end
with sel_cond e m le (c : CminorSel.Condition) : option bool :=
  let compare op cmp a1 a2 :=
    v1 ← sel_expr e m le a1; v2 ← sel_expr e m le a2; eval_cmp op (condition_of cmp) v1 v2 in
  match c with
  | CminorSel.CondTrue => Some true
  | CminorSel.CondFalse => Some false
  | CminorSel.CondCmp cmp a1 a2 => compare Cminor.Ocmp cmp a1 a2
  | CminorSel.CondCmpu cmp a1 a2 => compare Cminor.Ocmpu cmp a1 a2
  | CminorSel.CondCmpf cmp a1 a2 => compare Cminor.Ocmpf cmp a1 a2
  | CminorSel.CondCmps cmp a1 a2 => compare Cminor.Ocmps cmp a1 a2
  | CminorSel.CondCmpl cmp a1 a2 => compare Cminor.Ocmpl cmp a1 a2
  | CminorSel.CondCmplu cmp a1 a2 => compare Cminor.Ocmplu cmp a1 a2
  | CminorSel.CondNot c => negb <$> sel_cond e m le c
  | CminorSel.CondAnd c1 c2 => b ← sel_cond e m le c1; if b : bool then sel_cond e m le c2 else Some false
  | CminorSel.CondOr c1 c2 => b ← sel_cond e m le c1; if b : bool then Some true else sel_cond e m le c2
  end.

Definition sel_callee e m (f : CminorSel.Expr) : option (callee val) :=
  match f with
  | CminorSel.Econst (Cminor.Oaddrsymbol s 0) => Some (ToSymbol s)
  | f => ToAddress <$> sel_expr e m [] f
  end.

Definition cminorsel_language
    : Language Sig string CminorSel.Expr CminorSel.Condition (AddressingMode * list CminorSel.Expr) val M := {|
  lang_expr e m := sel_expr e m [];
  lang_cond e m := sel_cond e m [];
  lang_store e chunk a v m := vs ← mapM (sel_expr e m []) a.2; p ← val_addr a.1 vs; store_val chunk p v m;
  lang_callee := sel_callee;
  lang_switch := switch_val;
  lang_sig := default zero_sig
|}.
End Languages.

(** Parameters receive their values in order. *)
Definition bind_params (params : list string) (args : list val) : gmap string val :=
  foldl (fun e xv => <[xv.1 := xv.2]> e) ∅ (zip params args).

(** The variables of a function; any other name is that of a symbol. *)
Definition fn_locals (f : Cminor.Function) : gset string := list_to_set (Cminor.fn_Params f ++ Cminor.fn_Vars f).

Section Functions.
  Context {M : Type} `{FO : FloatOps} `{LO : Layout} `{TS : TargetSemantics val M}.
  Context {VT : ValueTarget M} {darwin : bool} {PC : PseudoCalls val M darwin}.

(** A Cminor function applied to arguments. *)
Definition cm_step (f : Cminor.Function) :=
  struct_step (PC := PC) (cminor_language (fn_locals f)) (Cminor.fn_Body f).

Definition cm_init (f : Cminor.Function) (args : list val) (m : M) : struct_state :=
  (Cminor.fn_Body f, [], bind_params (Cminor.fn_Params f) args, m).

End Functions.
