(* ===== verification/ValuesExample.v ===== *)
(** A target that computes on the values of [Values], to run examples on:
    memory is a map from addresses to values, and floating-point numbers are
    taken for integers. *)

From S2P Require Import Prelude Target Semantics RtlSem MachSem Values ExampleTarget.

#[export] Instance example_floats : FloatOps := {|
  f64_neg := Z.opp; f64_abs := Z.abs;
  f64_add := Z.add; f64_sub := Z.sub; f64_mul := Z.mul; f64_div := Z.quot;
  f32_neg := Z.opp; f32_abs := Z.abs;
  f32_add := Z.add; f32_sub := Z.sub; f32_mul := Z.mul; f32_div := Z.quot;
  f64_compare a b := Some (a ?= b);
  f32_compare a b := Some (a ?= b);
  f32_of_f64 := id; f64_of_f32 := id;
  int_of_f64 := Some; intu_of_f64 := Some; f64_of_int := id; f64_of_intu := id;
  long_of_f64 := Some; longu_of_f64 := Some; f64_of_long := id; f64_of_longu := id;
  long_of_f32 := Some; longu_of_f32 := Some; f32_of_long := id; f32_of_longu := id
|}.

#[export] Instance example_layout : Layout := {|
  symbol_address s := 4096 + 16 * Z.of_nat (String.length s);
  stack_pointer := 65536
|}.

Definition int_of_val (v : val) : Z :=
  match v with Vint n | Vlong n | Vfloat n | Vsingle n => n end.

(** A call returns the sum of its arguments and of the length of the callee's
    name, and counts at address 0. *)
Definition example_result (_ : Sig) (f : callee val) (args : list val) : val :=
  Vint (i32 (foldr Z.add (match f with ToAddress v => int_of_val v | ToSymbol s => Z.of_nat (String.length s) end)
    (int_of_val <$> args))).

Definition example_memory : Type := gmap Z val.

Definition example_tick (m : example_memory) : example_memory :=
  <[0 := Vint (match m !! 0 with Some (Vint n) => n + 1 | _ => 1 end)]> m.

#[export] Instance example_target : TargetSemantics val example_memory := {|
  eval_op op args _ := val_op op args;
  eval_load _ a args m := p ← val_addr a args; m !! p;
  eval_store _ a args v m := p ← val_addr a args; Some (<[p := v]> m);
  eval_cond c args _ := val_cond c args;
  eval_index v := match v with Vint n => if 0 <=? n then Some (Z.to_nat n) else None | _ => None end;
  eval_builtin _ args m := v ← head args; Some (v, example_tick m);
  eval_call := example_call example_result example_tick (Vint 0);
  eval_op_move _ _ := eq_refl;
  eval_call_X8 := example_call_X8 example_result example_tick (Vint 0)
|}.

#[export] Instance example_calls : PseudoCalls val example_memory false := {|
  call_value := example_call_value example_result example_tick;
  eval_call_value := example_call_spec example_result example_tick (Vint 0)
|}.

#[export] Instance example_convention : CallConvention val example_memory := {|
  call_slots := example_slots;
  eval_call_visible := example_visible example_result example_tick (Vint 0);
  eval_call_slots := example_slots_kept example_result example_tick (Vint 0);
  eval_call_saved := example_saved example_result example_tick (Vint 0)
|}.

#[export] Instance example_values : ValueTarget example_memory := {|
  load_val _ p m := m !! p;
  store_val _ p v m := Some (<[p := v]> m);
  eval_op_val _ _ _ := eq_refl;
  eval_cond_val _ _ _ := eq_refl;
  eval_load_val _ _ _ _ := eq_refl;
  eval_store_val _ _ _ _ _ := eq_refl
|}.
