(* ===== verification/RtlGen.v ===== *)
(** RTL generation ([src/pkg/rtlgen]): CminorSel to a control-flow graph over
    pseudo-registers. Code is generated backwards: a translation gets the node
    to continue at and returns the node to enter at. The state of the builders
    is threaded by a state monad. *)

From S2P Require Import Prelude Target Rtl Structured.
From S2P Require Cminor CminorSel.

(** ** [CFGBuilder] ([cfg.go]) *)

Record CFGBuilder := mkCFG {
  nextNode : Z;
  code : gmap Z Rtl.Instruction;
  labelNodes : gmap string Z;
  cfg_varToReg : gmap string Z;
  cfg_nextReg : Z;
  stackVars : gmap string Z;
  stackSize : Z
}.

Definition NewCFGBuilder : CFGBuilder := mkCFG 1 ∅ ∅ ∅ 1 ∅ 0.

(** ** [RegAllocator] ([regs.go]) *)

Record RegAllocator := mkRegs {
  nextReg : Z;
  varToReg : gmap string Z;
  paramRegs : list Z;
  resultReg : Z
}.

Definition NewRegAllocator : RegAllocator := mkRegs 1 ∅ [] 0.

(** ** The translators ([expr.go], [stmt.go])

    [targets] is the [ExitContext] of the statement translator, innermost
    last, and [letBindings] the package variable of the same name. *)
Record Translator := mkTranslator {
  cfg : CFGBuilder;
  regs : RegAllocator;
  targets : list Z;
  letBindings : list Z
}.

(** A computation on the translators. *)
Definition gen (A : Type) : Type := Translator -> A * Translator.
#[export] Instance gen_ret : MRet gen := fun A a s => (a, s).
#[export] Instance gen_bind : MBind gen := fun A B f m s => let '(a, s) := m s in f a s.

Definition get : gen Translator := fun s => (s, s).
Definition upd_cfg (f : CFGBuilder -> CFGBuilder) : gen unit :=
  fun s => (tt, mkTranslator (f (cfg s)) (regs s) (targets s) (letBindings s)).
Definition upd_regs (f : RegAllocator -> RegAllocator) : gen unit :=
  fun s => (tt, mkTranslator (cfg s) (f (regs s)) (targets s) (letBindings s)).

(** *** Nodes *)

Definition AllocNode : gen Z :=
  s ← get;
  let n := nextNode (cfg s) in
  upd_cfg (fun b => mkCFG (n + 1) (code b) (labelNodes b) (cfg_varToReg b) (cfg_nextReg b) (stackVars b) (stackSize b));;
  mret n.

Definition AddInstr (node : Z) (instr : Rtl.Instruction) : gen unit :=
  upd_cfg (fun b => mkCFG (nextNode b) (<[node := instr]> (code b)) (labelNodes b) (cfg_varToReg b)
    (cfg_nextReg b) (stackVars b) (stackSize b)).

Definition EmitInstr (instr : Rtl.Instruction) : gen Z := n ← AllocNode; AddInstr n instr;; mret n.

Definition SetStackSize (size : Z) : gen unit :=
  upd_cfg (fun b => mkCFG (nextNode b) (code b) (labelNodes b) (cfg_varToReg b) (cfg_nextReg b) (stackVars b) size).

Definition GetOrCreateLabel (label : string) : gen Z :=
  s ← get;
  match labelNodes (cfg s) !! label with
  | Some n => mret n
  | None =>
      n ← AllocNode;
      upd_cfg (fun b => mkCFG (nextNode b) (code b) (<[label := n]> (labelNodes b)) (cfg_varToReg b)
        (cfg_nextReg b) (stackVars b) (stackSize b));;
      mret n
  end.

(** *** Registers *)

Definition Fresh : gen Z :=
  s ← get;
  let r := nextReg (regs s) in
  upd_regs (fun a => mkRegs (r + 1) (varToReg a) (paramRegs a) (resultReg a));;
  mret r.

Fixpoint FreshN (n : nat) : gen (list Z) :=
  match n with
  | O => mret []
  | Datatypes.S n => r ← Fresh; rs ← FreshN n; mret (r :: rs)
  end.

Definition SetVar (name : string) (r : Z) : gen unit :=
  upd_regs (fun a => mkRegs (nextReg a) (<[name := r]> (varToReg a)) (paramRegs a) (resultReg a)).

Definition MapVar (name : string) : gen Z :=
  s ← get;
  match varToReg (regs s) !! name with
  | Some r => mret r
  | None => r ← Fresh; SetVar name r;; mret r
  end.

Fixpoint map_params (params : list string) : gen (list Z) :=
  match params with
  | [] => mret []
  | name :: params => r ← Fresh; SetVar name r;; rs ← map_params params; mret (r :: rs)
  end.

Definition MapParams (params : list string) : gen (list Z) :=
  rs ← map_params params;
  upd_regs (fun a => mkRegs (nextReg a) (varToReg a) rs (resultReg a));;
  mret rs.

Fixpoint MapVars (vars : list string) : gen (list Z) :=
  match vars with
  | [] => mret []
  | name :: vars => r ← MapVar name; rs ← MapVars vars; mret (r :: rs)
  end.

(** *** Exits and let bindings; both stacks grow at the end *)

Definition PushExit (target : Z) : gen unit :=
  fun s => (tt, mkTranslator (cfg s) (regs s) (targets s ++ [target]) (letBindings s)).
Definition PopExit : gen unit :=
  fun s => (tt, mkTranslator (cfg s) (regs s) (take (length (targets s) - 1) (targets s)) (letBindings s)).

(** [l[len(l) - 1 - n]], when that is an index of [l]. *)
Definition from_end (l : list Z) (n : Z) : option Z :=
  let idx := Z.of_nat (length l) - 1 - n in
  if (idx <? 0) || (Z.of_nat (length l) <=? idx) then None else l !! Z.to_nat idx.

Definition GetExit (n : Z) : gen (option Z) := s ← get; mret (from_end (targets s) n).

Definition pushLetBinding (r : Z) : gen unit :=
  fun s => (tt, mkTranslator (cfg s) (regs s) (targets s) (letBindings s ++ [r])).
Definition popLetBinding : gen unit :=
  fun s => (tt, mkTranslator (cfg s) (regs s) (targets s) (take (length (letBindings s) - 1) (letBindings s))).
Definition getLetBinding (index : Z) : gen Z := s ← get; mret (default 0 (from_end (letBindings s) index)).

(** ** Translation of operators ([instr.go], [cfg.go]) *)

Definition TranslateUnaryOp (op : Cminor.UnaryOp) : Operation :=
  match op with
  | Cminor.Ocast8signed => Ocast8signed
  | Cminor.Ocast8unsigned => Ocast8unsigned
  | Cminor.Ocast16signed => Ocast16signed
  | Cminor.Ocast16unsigned => Ocast16unsigned
  | Cminor.Onegint => Oneg
  | Cminor.Onegl => Onegl
  | Cminor.Onegf => Onegf
  | Cminor.Onegs => Onegs
  | Cminor.Onotint => Onot
  | Cminor.Onotl => Onotl
  | Cminor.Osingleoffloat => Osingleoffloat
  | Cminor.Ofloatofsingle => Ofloatofsingle
  | Cminor.Ointoffloat => Ointoffloat
  | Cminor.Ointuoffloat => Ointuoffloat
  | Cminor.Ofloatofint => Ofloatofint
  | Cminor.Ofloatofintu => Ofloatofintu
  | Cminor.Olongoffloat => Olongoffloat
  | Cminor.Olonguoffloat => Olonguoffloat
  | Cminor.Ofloatoflong => Ofloatoflong
  | Cminor.Ofloatoflongu => Ofloatoflongu
  | Cminor.Ointoflong => Ointoflong
  | Cminor.Olongofint => Olongofint
  | Cminor.Olongofintu => Olongofintu
  | _ => Omove
  end.

Definition TranslateBinaryOp (op : Cminor.BinaryOp) : Operation :=
  match op with
  | Cminor.Oadd => Oadd
  | Cminor.Osub => Osub
  | Cminor.Omul => Omul
  | Cminor.Odiv => Odiv
  | Cminor.Odivu => Odivu
  | Cminor.Omod => Omod
  | Cminor.Omodu => Omodu
  | Cminor.Oand => Oand
  | Cminor.Oor => Oor
  | Cminor.Oxor => Oxor
  | Cminor.Oshl => Oshl
  | Cminor.Oshr => Oshr
  | Cminor.Oshru => Oshru
  | Cminor.Oaddf => Oaddf
  | Cminor.Osubf => Osubf
  | Cminor.Omulf => Omulf
  | Cminor.Odivf => Odivf
  | Cminor.Oadds => Oadds
  | Cminor.Osubs => Osubs
  | Cminor.Omuls => Omuls
  | Cminor.Odivs => Odivs
  | Cminor.Oaddl => Oaddl
  | Cminor.Osubl => Osubl
  | Cminor.Omull => Omull
  | Cminor.Odivl => Odivl
  | Cminor.Odivlu => Odivlu
  | Cminor.Omodl => Omodl
  | Cminor.Omodlu => Omodlu
  | Cminor.Oandl => Oandl
  | Cminor.Oorl => Oorl
  | Cminor.Oxorl => Oxorl
  | Cminor.Oshll => Oshll
  | Cminor.Oshrl => Oshrl
  | Cminor.Oshrlu => Oshrlu
  | _ => Oadd
  end.

Definition TranslateConstant (c : Cminor.Constant) : Operation :=
  match c with
  | Cminor.Ointconst v => Ointconst v
  | Cminor.Olongconst v => Olongconst v
  | Cminor.Ofloatconst f => Ofloatconst f
  | Cminor.Osingleconst f => Osingleconst f
  | Cminor.Oaddrsymbol s ofs => Oaddrsymbol s ofs
  | Cminor.Oaddrstack ofs => Oaddrstack ofs
  end.

Definition TranslateAddressingMode (addr : AddressingMode) : AddressingMode :=
  match addr with
  | Aindexed ofs => Aindexed ofs
  | Aindexed2 => Aindexed2
  | Aindexed2shift s => Aindexed2shift s
  | Aglobal s ofs => Aglobal s ofs
  | Ainstack ofs => Ainstack ofs
  | _ => Aindexed 0
  end.

Definition TranslateChunk (c : Chunk) : Chunk := c.

Definition TranslateCompareOp (op : Cminor.BinaryOp) (cond : Condition) : Operation :=
  match op with
  | Cminor.Ocmp => Ocmp cond
  | Cminor.Ocmpu => Ocmpu cond
  | Cminor.Ocmpf => Ocmpf cond
  | Cminor.Ocmps => Ocmps cond
  | Cminor.Ocmpl => Ocmpl cond
  | Cminor.Ocmplu => Ocmplu cond
  | _ => Ocmp cond
  end.

(** Also the conversion [rtl.Condition(e.Cmp)]: the two enumerations list the
    comparisons in the same order. *)
Definition translateComparison (cmp : Cminor.Comparison) : Condition :=
  match cmp with
  | Cminor.Ceq => Ceq | Cminor.Cne => Cne | Cminor.Clt => Clt
  | Cminor.Cle => Cle | Cminor.Cgt => Cgt | Cminor.Cge => Cge
  end.

Definition negateConditionCode (cc : ConditionCode) : ConditionCode :=
  match cc with
  | Ccomp c => Ccomp (Negate c)
  | Ccompu c => Ccompu (Negate c)
  | Ccompimm c n => Ccompimm (Negate c) n
  | Ccompuimm c n => Ccompuimm (Negate c) n
  | Ccompl c => Ccompl (Negate c)
  | Ccomplu c => Ccomplu (Negate c)
  | Ccomplimm c n => Ccomplimm (Negate c) n
  | Ccompluimm c n => Ccompluimm (Negate c) n
  | Ccompf c => Cnotcompf c
  | Cnotcompf c => Ccompf c
  | Ccomps c => Cnotcomps c
  | Cnotcomps c => Ccomps c
  end.

(** The condition code and the expressions it compares; [None] is Go's [nil],
    for the compound conditions and the negations of these. *)
Fixpoint TranslateCondition (cond : CminorSel.Condition) : option (ConditionCode * list CminorSel.Expr) :=
  match cond with
  | CminorSel.CondTrue => Some (Ccompimm Cne 0, [CminorSel.Econst (Cminor.Ointconst 1)])
  | CminorSel.CondFalse => Some (Ccompimm Cne 0, [CminorSel.Econst (Cminor.Ointconst 0)])
  | CminorSel.CondCmp c l r => Some (Ccomp (translateComparison c), [l; r])
  | CminorSel.CondCmpu c l r => Some (Ccompu (translateComparison c), [l; r])
  | CminorSel.CondCmpf c l r => Some (Ccompf (translateComparison c), [l; r])
  | CminorSel.CondCmps c l r => Some (Ccomps (translateComparison c), [l; r])
  | CminorSel.CondCmpl c l r => Some (Ccompl (translateComparison c), [l; r])
  | CminorSel.CondCmplu c l r => Some (Ccomplu (translateComparison c), [l; r])
  | CminorSel.CondNot c => '(inner, args) ← TranslateCondition c; Some (negateConditionCode inner, args)
  | CminorSel.CondAnd _ _ | CminorSel.CondOr _ _ => None
  end.

Definition translateShiftOp (op : CminorSel.ShiftOp) (amount : Z) : Operation :=
  match op with
  | CminorSel.Slsl => Oshlimm (i32 amount)
  | CminorSel.Slsr => Oshruimm (i32 amount)
  | CminorSel.Sasr => Oshrimm (i32 amount)
  end.

(** ** Expressions ([expr.go]; the builders of [instr.go]) *)

Definition EmitOp (op : Operation) (args : list Z) (dest succ : Z) : gen Z := EmitInstr (Iop op args dest succ).
Definition EmitMove (src dest succ : Z) : gen Z := EmitOp Omove [src] dest succ.
Definition EmitConst (c : Cminor.Constant) (dest succ : Z) : gen Z := EmitOp (TranslateConstant c) [] dest succ.
Definition EmitLoad (chunk : Chunk) (addr : AddressingMode) (args : list Z) (dest succ : Z) : gen Z :=
  EmitInstr (Iload chunk addr args dest succ).
Definition EmitCond (cond : ConditionCode) (args : list Z) (ifso ifnot : Z) : gen Z :=
  EmitInstr (Icond cond args ifso ifnot).
Definition EmitNop (succ : Z) : gen Z := EmitInstr (Inop succ).

Definition translateVar (x : string) (dest succ : Z) : gen Z :=
  src ← MapVar x;
  if decide (src = dest) then mret succ else EmitMove src dest succ.

Definition translateLetvar (index dest succ : Z) : gen Z :=
  src ← getLetBinding index;
  if src =? 0 then EmitNop succ else if decide (src = dest) then mret succ else EmitMove src dest succ.

(** The loops over arguments run from the last to the first. *)
Fixpoint translate_list (tr : CminorSel.Expr -> Z -> Z -> gen Z) (exprs : list CminorSel.Expr) (regs : list Z)
    (succ : Z) : gen Z :=
  match exprs, regs with
  | e :: exprs, r :: regs => entry ← translate_list tr exprs regs succ; tr e r entry
  | _, _ => mret succ
  end.

(** [translate_list] on the arguments that [TranslateCondition] returns, by
    recursion on the condition they are parts of ([cond_args_list]). *)
Fixpoint cond_args (tr : CminorSel.Expr -> Z -> Z -> gen Z) (c : CminorSel.Condition) (regs : list Z) (succ : Z)
    : gen Z :=
  match c, regs with
  | CminorSel.CondTrue, [r] => EmitConst (Cminor.Ointconst 1) r succ
  | CminorSel.CondFalse, [r] => EmitConst (Cminor.Ointconst 0) r succ
  | (CminorSel.CondCmp _ a1 a2 | CminorSel.CondCmpu _ a1 a2 | CminorSel.CondCmpf _ a1 a2
    | CminorSel.CondCmps _ a1 a2 | CminorSel.CondCmpl _ a1 a2 | CminorSel.CondCmplu _ a1 a2), [r1; r2] =>
      entry ← tr a2 r2 succ; tr a1 r1 entry
  | CminorSel.CondNot c, _ => cond_args tr c regs succ
  | _, _ => mret succ
  end.

(** [translateLoad] and [TranslateCond] translate their arguments twice, the
    first time to a node that nothing leads to. *)
Fixpoint TranslateExpr (e : CminorSel.Expr) (dest succ : Z) {struct e} : gen Z :=
  match e with
  | CminorSel.Evar x => translateVar x dest succ
  | CminorSel.Econst c => EmitConst c dest succ
  | CminorSel.Eunop op a =>
      argReg ← Fresh;
      opNode ← EmitOp (TranslateUnaryOp op) [argReg] dest succ;
      TranslateExpr a argReg opNode
  | CminorSel.Ebinop op a1 a2 =>
      leftReg ← Fresh;
      rightReg ← Fresh;
      opNode ← EmitOp (TranslateBinaryOp op) [leftReg; rightReg] dest succ;
      rightEntry ← TranslateExpr a2 rightReg opNode;
      TranslateExpr a1 leftReg rightEntry
  | CminorSel.Eload chunk mode args =>
      argRegs ← FreshN (length args);
      _ ← translate_list TranslateExpr args argRegs succ;
      loadNode ← EmitLoad (TranslateChunk chunk) (TranslateAddressingMode mode) argRegs dest succ;
      translate_list TranslateExpr args argRegs loadNode
  | CminorSel.Econdition c a1 a2 =>
      elseEntry ← TranslateExpr a2 dest succ;
      thenEntry ← TranslateExpr a1 dest succ;
      TranslateCond c thenEntry elseEntry
  | CminorSel.Elet a1 a2 =>
      boundReg ← Fresh;
      pushLetBinding boundReg;;
      bodyEntry ← TranslateExpr a2 dest succ;
      entry ← TranslateExpr a1 boundReg bodyEntry;
      popLetBinding;;
      mret entry
  | CminorSel.Eletvar n => translateLetvar n dest succ
  | CminorSel.Eaddshift op amount a1 a2 =>
      leftReg ← Fresh;
      rightReg ← Fresh;
      shiftedReg ← Fresh;
      addNode ← EmitOp Oadd [leftReg; shiftedReg] dest succ;
      shiftNode ← EmitOp (translateShiftOp op amount) [rightReg] shiftedReg addNode;
      rightEntry ← TranslateExpr a2 rightReg shiftNode;
      TranslateExpr a1 leftReg rightEntry
  | CminorSel.Esubshift op amount a1 a2 =>
      leftReg ← Fresh;
      rightReg ← Fresh;
      shiftedReg ← Fresh;
      subNode ← EmitOp Osub [leftReg; shiftedReg] dest succ;
      shiftNode ← EmitOp (translateShiftOp op amount) [rightReg] shiftedReg subNode;
      rightEntry ← TranslateExpr a2 rightReg shiftNode;
      TranslateExpr a1 leftReg rightEntry
  | CminorSel.Ecmp op cmp a1 a2 =>
      leftReg ← Fresh;
      rightReg ← Fresh;
      opNode ← EmitOp (TranslateCompareOp op (translateComparison cmp)) [leftReg; rightReg] dest succ;
      rightEntry ← TranslateExpr a2 rightReg opNode;
      TranslateExpr a1 leftReg rightEntry
  end
with TranslateCond (cond : CminorSel.Condition) (ifso ifnot : Z) {struct cond} : gen Z :=
  match TranslateCondition cond with
  | Some (cc, args) =>
      dead ← AllocNode;
      argRegs ← FreshN (length args);
      _ ← cond_args TranslateExpr cond argRegs dead;
      condNode ← EmitCond cc argRegs ifso ifnot;
      cond_args TranslateExpr cond argRegs condNode
  | None =>
      match cond with
      | CminorSel.CondAnd c1 c2 =>
          inner ← TranslateCond c2 ifso ifnot;
          TranslateCond c1 inner ifnot
      | CminorSel.CondOr c1 c2 =>
          inner ← TranslateCond c2 ifso ifnot;
          TranslateCond c1 ifso inner
      | _ => mret ifso
      end
  end.

Definition TranslateExprs : list CminorSel.Expr -> list Z -> Z -> gen Z := translate_list TranslateExpr.

(** ** Statements ([stmt.go]) *)

(** The symbol of a direct call; its offset is ignored. *)
Definition direct_callee (f : CminorSel.Expr) : option string :=
  match f with
  | CminorSel.Econst (Cminor.Oaddrsymbol s _) => Some s
  | _ => None
  end.

(** [if s.Result != nil { destReg = t.regs.MapVar( *s.Result) }] *)
Definition result_reg (result : option string) : gen (option Z) :=
  match result with
  | Some x => r ← MapVar x; mret (Some r)
  | None => mret None
  end.

Definition translateCall (result : option string) (sig : option Sig) (func : CminorSel.Expr)
    (args : list CminorSel.Expr) (succ : Z) : gen Z :=
  funcReg ← Fresh;
  argRegs ← FreshN (length args);
  dest ← result_reg result;
  let destReg := default 0 dest in
  let sig := default zero_sig sig in
  callNode ← EmitInstr (Icall sig (Rtl.FunReg funcReg) argRegs destReg succ);
  match direct_callee func with
  | Some s =>
      AddInstr callNode (Icall sig (Rtl.FunSymbol s) argRegs destReg succ);;
      TranslateExprs args argRegs callNode
  | None =>
      funcEntry ← TranslateExpr func funcReg callNode;
      TranslateExprs args argRegs funcEntry
  end.

Definition translateTailcall (sig : option Sig) (func : CminorSel.Expr) (args : list CminorSel.Expr) : gen Z :=
  funcReg ← Fresh;
  argRegs ← FreshN (length args);
  let sig := default zero_sig sig in
  tailNode ← EmitInstr (Itailcall sig (Rtl.FunReg funcReg) argRegs);
  match direct_callee func with
  | Some s =>
      AddInstr tailNode (Itailcall sig (Rtl.FunSymbol s) argRegs);;
      TranslateExprs args argRegs tailNode
  | None =>
      funcEntry ← TranslateExpr func funcReg tailNode;
      TranslateExprs args argRegs funcEntry
  end.

Definition translateStore (chunk : Chunk) (addr : AddressingMode * list CminorSel.Expr) (value : CminorSel.Expr)
    (succ : Z) : gen Z :=
  valueReg ← Fresh;
  addrRegs ← FreshN (length addr.2);
  storeNode ← EmitInstr (Istore (TranslateChunk chunk) (TranslateAddressingMode addr.1) addrRegs valueReg succ);
  valueEntry ← TranslateExpr value valueReg storeNode;
  TranslateExprs addr.2 addrRegs valueEntry.

Definition translateBuiltin (result : option string) (builtin : string) (args : list CminorSel.Expr) (succ : Z)
    : gen Z :=
  argRegs ← FreshN (length args);
  dest ← result_reg result;
  builtinNode ← EmitInstr (Ibuiltin builtin argRegs dest succ);
  TranslateExprs args argRegs builtinNode.

Definition case_cond (isLong : bool) (value : Z) : ConditionCode :=
  if isLong then Ccomplimm Ceq value else Ccompimm Ceq (i32 value).

(** The loop over the cases runs from the last to the first. *)
Fixpoint translate_cases (tr : CminorSel.Stmt -> Z -> gen Z) (isLong : bool) (exprReg : Z)
    (cases : list (Z * CminorSel.Stmt)) (succ currentElse : Z) : gen Z :=
  match cases with
  | [] => mret currentElse
  | (value, body) :: cases =>
      currentElse ← translate_cases tr isLong exprReg cases succ currentElse;
      caseEntry ← tr body succ;
      EmitCond (case_cond isLong value) [exprReg] caseEntry currentElse
  end.

Definition translateReturn (value : option CminorSel.Expr) : gen Z :=
  match value with
  | None => EmitInstr (Ireturn None)
  | Some a =>
      retReg ← Fresh;
      retNode ← EmitInstr (Ireturn (Some retReg));
      TranslateExpr a retReg retNode
  end.

Fixpoint TranslateStmt (s : CminorSel.Stmt) (succ : Z) {struct s} : gen Z :=
  match s with
  | Sskip => mret succ
  | Sassign x a => dest ← MapVar x; TranslateExpr a dest succ
  | Sstore chunk addr a => translateStore chunk addr a succ
  | Scall result sig func args => translateCall result sig func args succ
  | Stailcall sig func args => translateTailcall sig func args
  | Sbuiltin result b args => translateBuiltin result b args succ
  | Sseq s1 s2 => secondEntry ← TranslateStmt s2 succ; TranslateStmt s1 secondEntry
  | Sifthenelse c s1 s2 =>
      thenEntry ← TranslateStmt s1 succ;
      elseEntry ← TranslateStmt s2 succ;
      TranslateCond c thenEntry elseEntry
  | Sloop body =>
      header ← AllocNode;
      bodyEntry ← TranslateStmt body header;
      AddInstr header (Inop bodyEntry);;
      mret header
  | Sblock body =>
      PushExit succ;;
      entry ← TranslateStmt body succ;
      PopExit;;
      mret entry
  | Sexit n =>
      target ← GetExit n;
      match target with
      | Some target => EmitInstr (Inop target)
      | None => AllocNode
      end
  | Sswitch isLong a cases d =>
      exprReg ← Fresh;
      defaultEntry ← TranslateStmt d succ;
      first ← translate_cases TranslateStmt isLong exprReg cases succ defaultEntry;
      TranslateExpr a exprReg first
  | Sreturn value => translateReturn value
  | Slabel l body =>
      labelNode ← GetOrCreateLabel l;
      bodyEntry ← TranslateStmt body succ;
      AddInstr labelNode (Inop bodyEntry);;
      mret labelNode
  | Sgoto l =>
      targetNode ← GetOrCreateLabel l;
      EmitInstr (Inop targetNode)
  end.

(** ** Functions and programs *)

Definition gen_function (fn : CminorSel.Function) : gen (list Z * Z) :=
  paramRegs ← MapParams (CminorSel.fn_Params fn);
  _ ← MapVars (CminorSel.fn_Vars fn);
  SetStackSize (CminorSel.fn_Stackspace fn);;
  exitNode ← AllocNode;
  AddInstr exitNode (Ireturn None);;
  entryNode ← TranslateStmt (CminorSel.fn_Body fn) exitNode;
  mret (paramRegs, entryNode).

Definition new_translator : Translator := mkTranslator NewCFGBuilder NewRegAllocator [] [].

Definition TranslateFunction (fn : CminorSel.Function) : Rtl.Function :=
  let '((paramRegs, entryNode), s) := gen_function fn new_translator in
  Rtl.mkFunction (CminorSel.fn_Name fn) (CminorSel.fn_Sig fn) paramRegs (CminorSel.fn_Stackspace fn)
    (code (cfg s)) entryNode.

Definition TranslateProgram (prog : CminorSel.Program) : Rtl.Program :=
  Rtl.mkProgram
    ((fun g => Rtl.mkGlobVar (CminorSel.gv_Name g) (CminorSel.gv_Size g) (CminorSel.gv_Init g) (CminorSel.gv_ReadOnly g))
      <$> CminorSel.Globals prog)
    (TranslateFunction <$> CminorSel.Functions prog).

(** ** Operations of the builders that the translation does not use

    The graph builder has registers and variables of its own. *)

Definition AllocReg : gen Z :=
  s ← get;
  let r := cfg_nextReg (cfg s) in
  upd_cfg (fun b => mkCFG (nextNode b) (code b) (labelNodes b) (cfg_varToReg b) (r + 1) (stackVars b) (stackSize b));;
  mret r.

Fixpoint AllocRegs (n : nat) : gen (list Z) :=
  match n with
  | O => mret []
  | Datatypes.S n => r ← AllocReg; rs ← AllocRegs n; mret (r :: rs)
  end.

Definition cfg_MapVar (name : string) : gen Z :=
  s ← get;
  match cfg_varToReg (cfg s) !! name with
  | Some r => mret r
  | None =>
      r ← AllocReg;
      upd_cfg (fun b => mkCFG (nextNode b) (code b) (labelNodes b) (<[name := r]> (cfg_varToReg b))
        (cfg_nextReg b) (stackVars b) (stackSize b));;
      mret r
  end.

Definition GetVarReg (b : CFGBuilder) (name : string) : option Z := cfg_varToReg b !! name.

Definition SetStackVar (name : string) (offset : Z) : gen unit :=
  upd_cfg (fun b => mkCFG (nextNode b) (code b) (labelNodes b) (cfg_varToReg b) (cfg_nextReg b)
    (<[name := offset]> (stackVars b)) (stackSize b)).

Definition GetStackVar (b : CFGBuilder) (name : string) : option Z := stackVars b !! name.
Definition GetLabel (b : CFGBuilder) (label : string) : option Z := labelNodes b !! label.

Definition LookupVar (a : RegAllocator) (name : string) : option Z := varToReg a !! name.

Definition SetResultReg (r : Z) : gen unit := upd_regs (fun a => mkRegs (nextReg a) (varToReg a) (paramRegs a) r).
Definition AllocResultReg : gen Z := r ← Fresh; SetResultReg r;; mret r.

Definition EmitStore (chunk : Chunk) (addr : AddressingMode) (args : list Z) (src succ : Z) : gen Z :=
  EmitInstr (Istore chunk addr args src succ).
Definition EmitCall (sig : Sig) (fn : Rtl.FunRef) (args : list Z) (dest succ : Z) : gen Z :=
  EmitInstr (Icall sig fn args dest succ).
Definition EmitTailcall (sig : Sig) (fn : Rtl.FunRef) (args : list Z) : gen Z := EmitInstr (Itailcall sig fn args).
Definition EmitJumptable (arg : Z) (targets : list Z) : gen Z := EmitInstr (Ijumptable arg targets).
Definition EmitReturn (arg : option Z) : gen Z := EmitInstr (Ireturn arg).

(** Registers for all results and the code that fills them. *)
Definition TranslateExprList (exprs : list CminorSel.Expr) (succ : Z) : gen (list Z * Z) :=
  match exprs with
  | [] => mret ([], succ)
  | _ => regs ← FreshN (length exprs); entry ← TranslateExprs exprs regs succ; mret (regs, entry)
  end.
