(* ===== verification/RtlGenExpr.v ===== *)
(** The state of RTL generation: what is always true of it, what a translation
    may change, and rules to reason about the primitive steps.
    The code generated for expressions and conditions computes them.
    RTL generation for expressions and conditions produces code that computes
    them: the specifications of [TranslateExpr] and [TranslateCond]. *)

From S2P Require Import Prelude Target Rtl RtlGen IntOps Semantics RtlSem Structured Values.
From S2P Require Import CminorSem.
From S2P Require Cminor CminorSel.

Abbreviation vars s := (varToReg (regs s)).
Abbreviation labels s := (labelNodes (cfg s)).
Abbreviation nodes s := (code (cfg s)).
Abbreviation top_node s := (nextNode (cfg s)).
Abbreviation top_reg s := (nextReg (regs s)).

(** Nodes and registers in use are below the next fresh one; labels have nodes
    of their own, variables registers of their own. *)
Record wf (s : Translator) : Prop := {
  wf_nodes : forall n, n ∈ dom (nodes s) -> n < top_node s;
  wf_labels : forall l n, labels s !! l = Some n -> n < top_node s;
  wf_labels_inj : forall l l' n, labels s !! l = Some n -> labels s !! l' = Some n -> l = l';
  wf_vars : forall x r, vars s !! x = Some r -> 0 < r < top_reg s;
  wf_vars_inj : forall x y r, vars s !! x = Some r -> vars s !! y = Some r -> x = y;
  wf_lets : forall r, r ∈ letBindings s -> 0 < r < top_reg s;
  wf_reg : 0 < top_reg s
}.

(** A translation that defines the labels [ls] adds code at new nodes, which
    are not nodes of labels, and at the nodes of [ls]. It maps no variables. *)
Record ext (ls : gset string) (s s' : Translator) : Prop := {
  ext_node : top_node s <= top_node s';
  ext_reg : top_reg s <= top_reg s';
  ext_vars : vars s' = vars s;
  ext_targets : targets s' = targets s;
  ext_lets : letBindings s' = letBindings s;
  ext_labels : labels s ⊆ labels s';
  ext_new_label : forall l n, labels s' !! l = Some n -> labels s !! l = Some n \/ top_node s <= n;
  ext_code : nodes s ⊆ nodes s';
  ext_new_node : forall n, n ∈ dom (nodes s') ->
    n ∈ dom (nodes s) \/
    (top_node s <= n /\ forall l, labels s' !! l <> Some n) \/
    exists l, l ∈ ls /\ labels s' !! l = Some n
}.

Lemma ext_refl ls s : ext ls s s.
Proof. constructor; try done; auto. Qed.

Lemma ext_trans ls1 ls2 s s1 s2 : wf s1 -> ext ls1 s s1 -> ext ls2 s1 s2 -> ext (ls1 ∪ ls2) s s2.
Proof.
  intros w A B. destruct A as [an ar av at_ al ab anl ac ann], B as [bn br bv bt bl bb bnl bc bnn]. constructor.
  - lia.
  - lia.
  - congruence.
  - congruence.
  - congruence.
  - by etrans.
  - intros l n Hl. destruct (bnl l n Hl) as [H|H]; [|right; lia]. destruct (anl l n H); auto.
  - by etrans.
  - intros n Hn. destruct (bnn n Hn) as [H|[[H1 H2]|(l & Hl & H)]].
    + destruct (ann n H) as [H1|[[H1 H2]|(l & Hl & H1)]].
      * by left.
      * right; left. split; [done|]. intros l Hl. destruct (bnl l n Hl) as [Hl'|Hge]; [by apply (H2 l)|].
        pose proof (wf_nodes _ w n H). lia.
      * right; right. exists l. split; [set_solver|]. by eapply lookup_weaken.
    + right; left. split; [lia|done].
    + right; right. exists l. split; [set_solver|done].
Qed.

Lemma ext_mono ls ls' s s' : ls ⊆ ls' -> ext ls s s' -> ext ls' s s'.
Proof.
  intros Hsub E. destruct E. constructor; try done. intros n Hn.
  destruct (ext_new_node0 n Hn) as [H|[H|(l & Hl & H)]]; [by left|by right; left|]. right; right. exists l. set_solver.
Qed.

Lemma ext_trans0 s s1 s2 : wf s1 -> ext ∅ s s1 -> ext ∅ s1 s2 -> ext ∅ s s2.
Proof. intros w E1 E2. apply (ext_mono (∅ ∪ ∅)); [set_solver|by apply (ext_trans _ _ _ s1)]. Qed.

(** Labels still to be defined: their nodes, if they have one, have no code. *)
Definition pending (ls : gset string) (s : Translator) : Prop :=
  forall l n, l ∈ ls -> labels s !! l = Some n -> n ∉ dom (nodes s).

Lemma pending_ext ls ls' s s' : wf s -> wf s' -> ls ## ls' -> pending ls s -> ext ls' s s' -> pending ls s'.
Proof.
  intros w w' Hd Hp E l n Hl Hn Hin. destruct (ext_new_node _ _ _ E n Hin) as [H|[[_ H]|(l' & Hl' & H)]].
  - destruct (ext_new_label _ _ _ E l n Hn) as [H'|H']; [by apply (Hp l n)|].
    pose proof (wf_nodes _ w n H). lia.
  - by apply (H l).
  - rewrite (wf_labels_inj _ w' l l' n Hn H) in Hl. set_solver.
Qed.

(** ** Specifications of computations *)

(** From a well-formed state, [m] ends in one, defines the labels [ls] and
    returns what [Q] says. *)
Definition spec {A} (ls : gset string) (m : gen A) (s : Translator) (Q : A -> Translator -> Prop) : Prop :=
  forall a s', m s = (a, s') -> wf s' /\ ext ls s s' /\ Q a s'.

Lemma bind_run {A B} (m : gen A) (f : A -> gen B) s : (m ≫= f) s = let '(a, s') := m s in f a s'.
Proof. reflexivity. Qed.

Lemma spec_ret {A} ls (a : A) s (Q : A -> Translator -> Prop) : wf s -> Q a s -> spec ls (mret a) s Q.
Proof. intros w HQ a' s' H. injection H as <- <-. split; [done|]. split; [apply ext_refl|done]. Qed.

Lemma spec_bind {A B} ls1 ls2 ls (m : gen A) (f : A -> gen B) s Q1 Q :
  wf s -> spec ls1 m s Q1 ->
  (forall a s1, wf s1 -> ext ls1 s s1 -> Q1 a s1 ->
     spec ls2 (f a) s1 (fun b s' => ext ls s s' -> wf s' -> Q b s')) ->
  ls1 ∪ ls2 ⊆ ls -> spec ls (m ≫= f) s Q.
Proof.
  intros w Hm Hf Hls b s'. unfold mbind, gen_bind. destruct (m s) as [a s1] eqn:E. intros Hb.
  destruct (Hm a s1 E) as (w1 & E1 & HQ1). destruct (Hf a s1 w1 E1 HQ1 b s' Hb) as (w' & E2 & HQ).
  assert (Hext : ext ls s s').
  { apply (ext_mono (ls1 ∪ ls2)); [done|]. apply (ext_trans _ _ _ s1); done. }
  split; [done|]. split; [done|]. by apply HQ.
Qed.

Lemma spec_mono {A} ls ls' (m : gen A) s (Q Q' : A -> Translator -> Prop) :
  spec ls m s Q -> ls ⊆ ls' -> (forall a s', wf s' -> ext ls s s' -> Q a s' -> Q' a s') -> spec ls' m s Q'.
Proof.
  intros Hm Hls HQ a s' H. destruct (Hm a s' H) as (w & E & HQ1). split; [done|].
  split; [by apply (ext_mono ls)|by apply HQ].
Qed.

(** Sequencing without labels, and the last computation of a sequence. *)
Lemma spec_bind0 {A B} (m : gen A) (f : A -> gen B) s Q1 Q :
  wf s -> spec ∅ m s Q1 ->
  (forall a s1, wf s1 -> ext ∅ s s1 -> Q1 a s1 -> spec ∅ (f a) s1 (fun b s' => ext ∅ s s' -> wf s' -> Q b s')) ->
  spec ∅ (m ≫= f) s Q.
Proof. intros w H1 H2. eapply spec_bind; [exact w|exact H1|exact H2|set_solver]. Qed.

Lemma spec_conseq {A} ls (m : gen A) s (Q Q' : A -> Translator -> Prop) :
  spec ls m s Q -> (forall a s', wf s' -> ext ls s s' -> Q a s' -> Q' a s') -> spec ls m s Q'.
Proof. intros H1 H2. by eapply spec_mono. Qed.

(** ** Primitive steps *)

Lemma spec_AllocNode s : wf s ->
  spec ∅ AllocNode s (fun n s' => n = top_node s /\ top_node s' = n + 1 /\ nodes s' = nodes s /\ labels s' = labels s).
Proof.
  intros w n s' [= <- <-]. split.
  - destruct w. constructor; cbn; try done.
    + intros n Hn. specialize (wf_nodes0 n Hn). lia.
    + intros l n Hl. specialize (wf_labels0 l n Hl). lia.
  - split; [|done]. constructor; cbn; try done; try lia; auto.
Qed.

Lemma spec_AddInstr n i s : wf s -> n < top_node s -> n ∉ dom (nodes s) ->
  (forall l, labels s !! l <> Some n) ->
  forall u s', AddInstr n i s = (u, s') ->
  wf s' /\ nodes s' = <[n := i]> (nodes s) /\ top_node s' = top_node s /\ regs s' = regs s /\ labels s' = labels s /\
  targets s' = targets s /\ letBindings s' = letBindings s.
Proof.
  intros w Hn Hd Hl u s' [= <- <-]. split; [|done]. destruct w. constructor; cbn; try done.
  intros n'. rewrite dom_insert. intros [->%elem_of_singleton|H]%elem_of_union; [lia|by apply wf_nodes0].
Qed.

Lemma spec_EmitInstr i s : wf s ->
  spec ∅ (EmitInstr i) s (fun n s' => nodes s' !! n = Some i /\ labels s' = labels s /\ regs s' = regs s /\
    n = top_node s).
Proof.
  intros w n s' [= <- <-]. assert (Hd : top_node s ∉ dom (nodes s)).
  { intros H. pose proof (wf_nodes _ w _ H). lia. }
  assert (Hl : forall l, labels s !! l <> Some (top_node s)).
  { intros l H. pose proof (wf_labels _ w _ _ H). lia. }
  split; [|split].
  - destruct w. constructor; cbn; try done.
    + intros n. rewrite dom_insert. intros [->%elem_of_singleton|H]%elem_of_union; [lia|].
      specialize (wf_nodes0 n H). lia.
    + intros l n H. specialize (wf_labels0 l n H). lia.
  - constructor; cbn; try done; try lia; auto.
    + apply insert_subseteq. by apply not_elem_of_dom.
    + intros n. rewrite dom_insert. intros [->%elem_of_singleton|H]%elem_of_union; [|by left].
      right; left. split; [lia|done].
  - cbn. by rewrite lookup_insert_eq.
Qed.

Lemma spec_Fresh s : wf s ->
  spec ∅ Fresh s (fun r s' => r = top_reg s /\ top_reg s' = r + 1 /\ cfg s' = cfg s).
Proof.
  intros w r s' [= <- <-]. split; [|split; [|done]].
  - destruct w. constructor; cbn; try done; try lia.
    + intros x r H. specialize (wf_vars0 x r H). lia.
    + intros r H. specialize (wf_lets0 r H). lia.
  - constructor; cbn; try done; try lia; auto.
Qed.

Lemma spec_FreshN n s : wf s ->
  spec ∅ (FreshN n) s (fun rs s' => rs = seqZ (top_reg s) (Z.of_nat n) /\ top_reg s' = top_reg s + Z.of_nat n /\
    cfg s' = cfg s).
Proof.
  revert s. induction n as [|n IH]; intros s w; cbn [FreshN].
  - apply spec_ret; [done|]. split; [done|]. split; [lia|done].
  - eapply spec_bind0; [done|by apply spec_Fresh|]. intros r s1 w1 E1 (-> & Hr & Hc).
    eapply spec_bind0; [done|by apply IH|]. intros rs s2 w2 E2 (-> & Hr2 & Hc2). apply spec_ret; [done|]. intros _ _ _ _.
    rewrite Hr. split; [|split; [lia|congruence]]. rewrite (seqZ_cons (top_reg s)) by lia.
    f_equal. f_equal; lia.
Qed.

Lemma spec_MapVar x r s : wf s -> vars s !! x = Some r -> spec ∅ (MapVar x) s (fun r' s' => r' = r /\ s' = s).
Proof.
  intros w Hx r' s'. unfold MapVar, get, mbind, gen_bind. rewrite Hx. intros [= <- <-].
  split; [done|]. split; [apply ext_refl|done].
Qed.

(** Instructions in the final code. *)
Lemma ext_lookup ls s s' n i : ext ls s s' -> nodes s !! n = Some i -> nodes s' !! n = Some i.
Proof. intros E H. eapply lookup_weaken; [done|apply E]. Qed.

(** Code for a node that was reserved before. *)
Lemma spec_fill ls s s1 n i u s2 :
  wf s1 -> ext ls s s1 -> n < top_node s1 -> n ∉ dom (nodes s1) ->
  (top_node s <= n /\ (forall l, labels s1 !! l <> Some n)) \/ (exists l, l ∈ ls /\ labels s1 !! l = Some n) ->
  AddInstr n i s1 = (u, s2) ->
  wf s2 /\ ext ls s s2 /\ nodes s2 !! n = Some i /\ nodes s1 ⊆ nodes s2 /\ labels s2 = labels s1.
Proof.
  intros w E Hlt Hd Hn [= <- <-]. assert (Hsub : nodes s1 ⊆ <[n := i]> (nodes s1)).
  { apply insert_subseteq. by apply not_elem_of_dom. }
  split; [|split; [|split; [|done]]].
  - destruct w. constructor; cbn; try done.
    intros n'. rewrite dom_insert. intros [->%elem_of_singleton|H]%elem_of_union; [lia|by apply wf_nodes0].
  - destruct E. constructor; cbn; try done.
    + by etrans.
    + intros n'. rewrite dom_insert. intros [->%elem_of_singleton|H]%elem_of_union; [by right|by apply ext_new_node0].
  - cbn. by rewrite lookup_insert_eq.
Qed.

(** A reserved node stays without code and without label. *)
Lemma ext_reserved ls s s' n :
  n < top_node s -> n ∉ dom (nodes s) -> (forall l, labels s !! l <> Some n) -> ext ls s s' ->
  n ∉ dom (nodes s') /\ forall l, labels s' !! l <> Some n.
Proof.
  intros Hn Hd Hl E. assert (Hl' : forall l, labels s' !! l <> Some n).
  { intros l H. destruct (ext_new_label _ _ _ E l n H); [by apply (Hl l)|lia]. }
  split; [|done]. intros H. destruct (ext_new_node _ _ _ E n H) as [H'|[[H' _]|(l & _ & H')]]; [done|lia|by apply (Hl' l)].
Qed.

(** Code that is replaced at once. *)
Lemma emit_again {A} i i' (f : Z -> gen A) :
  (n ← EmitInstr i; AddInstr n i';; f n) = (n ← EmitInstr i'; f n).
Proof.
  unfold mbind, gen_bind. unfold EmitInstr, AllocNode, AddInstr, get, upd_cfg, mbind, gen_bind, mret, gen_ret. cbn.
  apply FunctionalExtensionality.functional_extensionality. intros s. by rewrite insert_insert_eq.
Qed.

Lemma spec_GetOrCreateLabel l s : wf s ->
  spec ∅ (GetOrCreateLabel l) s (fun n s' => labels s' !! l = Some n /\ nodes s' = nodes s).
Proof.
  intros w n s'. unfold GetOrCreateLabel, get, mbind, gen_bind. destruct (labels s !! l) as [n'|] eqn:El.
  - intros [= <- <-]. split; [done|]. split; [apply ext_refl|done].
  - intros [= <- <-]. split; [|split].
    + destruct w. constructor; cbn; try done.
      * intros n' Hn'. specialize (wf_nodes0 n' Hn'). lia.
      * intros l' n'. destruct (decide (l = l')) as [<-|Hne].
        { rewrite lookup_insert_eq. intros [= <-]. lia. }
        rewrite lookup_insert_ne by done. intros H. specialize (wf_labels0 l' n' H). lia.
      * intros l1 l2 n'. destruct (decide (l = l1)) as [<-|N1], (decide (l = l2)) as [<-|N2]; [done| | |].
        { rewrite lookup_insert_eq, lookup_insert_ne by done. intros [= <-] H. specialize (wf_labels0 l2 _ H). lia. }
        { rewrite lookup_insert_eq, lookup_insert_ne by done. intros H [= <-]. specialize (wf_labels0 l1 _ H). lia. }
        { rewrite !lookup_insert_ne by done. apply wf_labels_inj0. }
    + constructor; cbn; try done; try lia; auto.
      * by apply insert_subseteq.
      * intros l' n'. destruct (decide (l = l')) as [<-|Hne].
        { rewrite lookup_insert_eq. intros [= <-]. right. lia. }
        rewrite lookup_insert_ne by done. by left.
    + cbn. by rewrite lookup_insert_eq.
Qed.

(** ** What RTL generation supports *)

(** Operators that are translated to the operation of the same meaning. *)
Definition unop_supported (op : Cminor.UnaryOp) : bool :=
  match op with
  | Cminor.Onotbool | Cminor.Olongofsingle | Cminor.Olonguofsingle
  | Cminor.Osingleoflong | Cminor.Osingleoflongu => false
  | _ => true
  end.

Definition is_comparison (op : Cminor.BinaryOp) : bool :=
  match op with
  | Cminor.Ocmp | Cminor.Ocmpu | Cminor.Ocmpf | Cminor.Ocmps | Cminor.Ocmpl | Cminor.Ocmplu => true
  | _ => false
  end.

Definition mode_supported (mode : AddressingMode) : bool :=
  match mode with Aindexed2ext _ _ => false | _ => true end.

(** Let variables refer to the [d] innermost bindings only. *)
Fixpoint let_closed (d : Z) (a : CminorSel.Expr) : bool :=
  match a with
  | CminorSel.Evar _ | CminorSel.Econst _ => true
  | CminorSel.Eunop _ a => let_closed d a
  | CminorSel.Ebinop _ a1 a2 | CminorSel.Eaddshift _ _ a1 a2 | CminorSel.Esubshift _ _ a1 a2
  | CminorSel.Ecmp _ _ a1 a2 => let_closed d a1 && let_closed d a2
  | CminorSel.Eload _ _ args => forallb (let_closed d) args
  | CminorSel.Econdition c a1 a2 => cond_let_closed d c && let_closed d a1 && let_closed d a2
  | CminorSel.Elet a1 a2 => let_closed d a1 && let_closed (d + 1) a2
  | CminorSel.Eletvar n => (0 <=? n) && (n <? d)
  end
with cond_let_closed (d : Z) (c : CminorSel.Condition) : bool :=
  match c with
  | CminorSel.CondTrue | CminorSel.CondFalse => true
  | CminorSel.CondCmp _ a1 a2 | CminorSel.CondCmpu _ a1 a2 | CminorSel.CondCmpf _ a1 a2
  | CminorSel.CondCmps _ a1 a2 | CminorSel.CondCmpl _ a1 a2 | CminorSel.CondCmplu _ a1 a2 =>
      let_closed d a1 && let_closed d a2
  | CminorSel.CondNot c => cond_let_closed d c
  | CminorSel.CondAnd c1 c2 | CminorSel.CondOr c1 c2 => cond_let_closed d c1 && cond_let_closed d c2
  end.

(** Expressions whose variables are among [xs], whose operators and addressing
    modes are supported, without negations of compound conditions, and whose
    bound expressions use no binding outside of them. *)
Fixpoint supported (xs : gset string) (a : CminorSel.Expr) : bool :=
  match a with
  | CminorSel.Evar x => bool_decide (x ∈ xs)
  | CminorSel.Econst _ | CminorSel.Eletvar _ => true
  | CminorSel.Eunop op a => unop_supported op && supported xs a
  | CminorSel.Ebinop op a1 a2 => negb (is_comparison op) && supported xs a1 && supported xs a2
  | CminorSel.Eload _ mode args => mode_supported mode && forallb (supported xs) args
  | CminorSel.Econdition c a1 a2 => cond_supported xs c && supported xs a1 && supported xs a2
  | CminorSel.Elet a1 a2 => let_closed 0 a1 && supported xs a1 && supported xs a2
  | CminorSel.Eaddshift _ _ a1 a2 | CminorSel.Esubshift _ _ a1 a2 => supported xs a1 && supported xs a2
  | CminorSel.Ecmp op _ a1 a2 => is_comparison op && supported xs a1 && supported xs a2
  end
with cond_supported (xs : gset string) (c : CminorSel.Condition) : bool :=
  match c with
  | CminorSel.CondTrue | CminorSel.CondFalse => true
  | CminorSel.CondCmp _ a1 a2 | CminorSel.CondCmpu _ a1 a2 | CminorSel.CondCmpf _ a1 a2
  | CminorSel.CondCmps _ a1 a2 | CminorSel.CondCmpl _ a1 a2 | CminorSel.CondCmplu _ a1 a2 =>
      supported xs a1 && supported xs a2
  | CminorSel.CondNot c => bool_decide (is_Some (TranslateCondition c)) && cond_supported xs c
  | CminorSel.CondAnd c1 c2 | CminorSel.CondOr c1 c2 => cond_supported xs c1 && cond_supported xs c2
  end.

(** ** The operators *)

Section Operators.
  Context `{FO : FloatOps} `{LO : Layout}.

Lemma TranslateUnaryOp_ok op v v' :
  unop_supported op = true -> eval_unop op v = Some v' -> val_op (TranslateUnaryOp op) [v] = Some v'.
Proof. destruct op; try done; by intros _ H. Qed.

Lemma TranslateBinaryOp_ok op v1 v2 v' :
  eval_binop op v1 v2 = Some v' -> val_op (TranslateBinaryOp op) [v1; v2] = Some v'.
Proof. destruct op; try done; by intros H. Qed.

Lemma TranslateConstant_ok c : val_op (TranslateConstant c) [] = Some (eval_const c).
Proof. by destruct c. Qed.

Lemma translateComparison_ok c : translateComparison c = condition_of c.
Proof. by destruct c. Qed.

Lemma TranslateCompareOp_ok op c v1 v2 b :
  eval_cmp op c v1 v2 = Some b -> val_op (TranslateCompareOp op c) [v1; v2] = Some (truth b).
Proof. destruct op; try done; cbn; by intros ->. Qed.

Lemma translateShiftOp_ok op n v v' :
  eval_binop (shift_op op) v (Vint n) = Some v' -> val_op (translateShiftOp op n) [v] = Some v'.
Proof.
  intros H. assert (Hn : 0 <= n < 32).
  { destruct op, v; cbn in H; try done; unfold guard_shift in H;
      destruct (0 <=? n) eqn:E1, (n <? 32) eqn:E2; try done; lia. }
  destruct op; cbn [translateShiftOp val_op]; rewrite i32_id by (unfold in_i32; lia); done.
Qed.

Lemma TranslateAddressingMode_ok mode : mode_supported mode = true -> TranslateAddressingMode mode = mode.
Proof. by destruct mode. Qed.

Lemma negb_compare c a b : compare_Z (Negate c) a b = negb (compare_Z c a b).
Proof. destruct c; cbn; rewrite ?negb_involutive; lia. Qed.

Lemma eval_cmp_negate op c v1 v2 :
  op <> Cminor.Ocmpf -> op <> Cminor.Ocmps -> eval_cmp op (Negate c) v1 v2 = negb <$> eval_cmp op c v1 v2.
Proof. intros H1 H2. destruct op, v1, v2; try done; cbn; by rewrite negb_compare. Qed.

Lemma negateConditionCode_ok cc vs : val_cond (negateConditionCode cc) vs = negb <$> val_cond cc vs.
Proof.
  destruct cc; destruct vs as [|v1 [|v2 [|v3 vs]]]; cbn [negateConditionCode val_cond]; try done;
    try (by apply eval_cmp_negate).
  - destruct (eval_cmp _ _ _ _); cbn; by rewrite ?negb_involutive.
  - destruct (eval_cmp _ _ _ _); cbn; by rewrite ?negb_involutive.
Qed.
End Operators.

Lemma mapM_ext {A B} (f g : A -> option B) l : Forall (fun x => f x = g x) l -> mapM f l = mapM g l.
Proof. induction 1 as [|x l H _ IH]; [done|]. cbn. by rewrite H, IH. Qed.

Lemma forallb_Forall {A} (f : A -> bool) l : forallb f l = true <-> Forall (fun x => f x = true) l.
Proof. rewrite List.forallb_forall, List.Forall_forall. done. Qed.

(** ** Evaluation *)

Section Evaluation.
  Context {M : Type} `{FO : FloatOps} `{LO : Layout} `{TS : TargetSemantics val M}.
  Context {VT : ValueTarget M}.
  Implicit Types (e : gmap string val) (m : M).

(** Rewriting with the induction hypotheses of closed subterms. *)
Ltac use_closed le1 le le' :=
  repeat match goal with
    | IH : forall d le1 le le', let_closed d ?a = true -> _, H : let_closed ?d ?a = true |- _ =>
        rewrite (IH d le1 le le' H) by done; clear IH
    | IH : forall d le1 le le', cond_let_closed d ?c = true -> _, H : cond_let_closed ?d ?c = true |- _ =>
        rewrite (IH d le1 le le' H) by done; clear IH
    end.

(** Only the bindings an expression can refer to matter. *)
Lemma let_closed_eval e m :
  (forall a d le1 le le', let_closed d a = true -> d = Z.of_nat (length le1) ->
     sel_expr e m (le1 ++ le) a = sel_expr e m (le1 ++ le') a) /\
  (forall c d le1 le le', cond_let_closed d c = true -> d = Z.of_nat (length le1) ->
     sel_cond e m (le1 ++ le) c = sel_cond e m (le1 ++ le') c).
Proof.
  apply CminorSel.Expr_Condition_ind; try done; intros.
  all: try (match goal with H : let_closed _ _ = true |- _ => simpl in H end).
  all: try (match goal with H : cond_let_closed _ _ = true |- _ => simpl in H end).
  all: try (simpl; destruct_andb; use_closed le1 le le'; done).
  - simpl. match goal with H : forallb _ _ = true |- _ => apply forallb_Forall in H; rename H into Hc end.
    rewrite (mapM_ext (sel_expr e m (le1 ++ le)) (sel_expr e m (le1 ++ le'))); [done|].
    rewrite List.Forall_forall in *. intros a Ha. by apply (H a Ha d); [apply Hc|].
  - simpl. destruct_andb. use_closed le1 le le'. destruct (sel_expr e m (le1 ++ le') e1) as [v|]; [|done]. cbn.
    apply (H0 (d + 1) (v :: le1)); [done|]. cbn [length]. lia.
  - cbn. unfold let_value. destruct (Z.ltb_spec n 0); [done|]. rewrite !lookup_app_l by lia. done.
  - destruct c; try done; simpl in *; injection H as <- <- <- <-; destruct_andb; by use_closed le1 le le'.
Qed.

(** The condition code decides the condition. *)
Lemma TranslateCondition_ok e m le c cc args b :
  TranslateCondition c = Some (cc, args) -> sel_cond e m le c = Some b ->
  exists vs, mapM (sel_expr e m le) args = Some vs /\ val_cond cc vs = Some b.
Proof.
  revert cc args b. induction c as [| |cmp l r|cmp l r|cmp l r|cmp l r|cmp l r|cmp l r|c IH|c1 _ c2 _|c1 _ c2 _];
    intros cc args b Hc Hb; cbn in Hc; try done;
    try (injection Hc as <- <-; simpl in Hb |- *; rewrite ?translateComparison_ok;
         destruct (sel_expr e m le l) as [v1|]; [|done]; destruct (sel_expr e m le r) as [v2|]; [|done];
         by exists [v1; v2]).
  - injection Hc as <- <-. injection Hb as <-. by exists [Vint 1].
  - injection Hc as <- <-. injection Hb as <-. by exists [Vint 0].
  - destruct (TranslateCondition c) as [[inner args']|] eqn:E; [|done]. cbn in Hc. injection Hc as <- <-.
    simpl in Hb. destruct (sel_cond e m le c) as [b'|] eqn:Eb; [|done]. injection Hb as <-.
    destruct (IH inner args' b' eq_refl eq_refl) as (vs & Hvs & Hcc). exists vs. split; [done|].
    by rewrite negateConditionCode_ok, Hcc.
Qed.
End Evaluation.

(** ** Executions of the generated code *)

(** Registers hold what the variables and the let bindings hold. *)
Definition agree (vm : gmap string Z) (e : gmap string val) (rs : Z -> val) : Prop :=
  forall x v, e !! x = Some v -> exists r, vm !! x = Some r /\ rs r = v.

Definition lets_agree (lb : list Z) (le : list val) (rs : Z -> val) : Prop :=
  forall n v, let_value le n = Some v -> exists r, from_end lb n = Some r /\ rs r = v.

Lemma agree_frame vm e rs rs' :
  agree vm e rs -> (forall x r, vm !! x = Some r -> rs' r = rs r) -> agree vm e rs'.
Proof. intros Ha Hf x v Hx. destruct (Ha x v Hx) as (r & Hr & <-). exists r. split; [done|by apply (Hf x)]. Qed.

Lemma from_end_elem lb n r : from_end lb n = Some r -> r ∈ lb.
Proof. unfold from_end. destruct (_ || _); [done|]. apply list_elem_of_lookup_2. Qed.

Lemma lets_agree_frame lb le rs rs' :
  lets_agree lb le rs -> (forall r, r ∈ lb -> rs' r = rs r) -> lets_agree lb le rs'.
Proof.
  intros Ha Hf n v Hn. destruct (Ha n v Hn) as (r & Hr & <-). exists r. split; [done|].
  by apply Hf, (from_end_elem lb n).
Qed.

Lemma from_end_app_last lb r : from_end (lb ++ [r]) 0 = Some r.
Proof.
  unfold from_end. rewrite length_app. cbn [length].
  destruct (Z.ltb_spec (Z.of_nat (length lb + 1) - 1 - 0) 0); [lia|].
  destruct (Z.leb_spec (Z.of_nat (length lb + 1)) (Z.of_nat (length lb + 1) - 1 - 0)); [lia|]. cbn [orb].
  rewrite lookup_app_r by lia. replace (_ - length lb)%nat with 0%nat by lia. done.
Qed.

Lemma from_end_app lb r n : 0 <= n -> from_end (lb ++ [r]) (n + 1) = from_end lb n.
Proof.
  intros Hn. unfold from_end. rewrite length_app. cbn [length].
  replace (Z.of_nat (length lb + 1) - 1 - (n + 1)) with (Z.of_nat (length lb) - 1 - n) by lia.
  destruct (Z.ltb_spec (Z.of_nat (length lb) - 1 - n) 0); [done|].
  destruct (Z.leb_spec (Z.of_nat (length lb + 1)) (Z.of_nat (length lb) - 1 - n)); [lia|].
  destruct (Z.leb_spec (Z.of_nat (length lb)) (Z.of_nat (length lb) - 1 - n)); [lia|]. cbn [orb].
  apply lookup_app_l. lia.
Qed.

Lemma lets_agree_push lb le rs r v : lets_agree lb le rs -> rs r = v -> lets_agree (lb ++ [r]) (v :: le) rs.
Proof.
  intros Ha Hr n w Hn. unfold let_value in Hn. destruct (Z.ltb_spec n 0); [done|].
  destruct (decide (n = 0)) as [->|Hne].
  - cbn in Hn. injection Hn as <-. exists r. by rewrite from_end_app_last.
  - destruct (Ha (n - 1) w) as (r' & Hr' & Hw).
    { unfold let_value. destruct (Z.ltb_spec (n - 1) 0); [lia|].
      replace (Z.to_nat n) with (Datatypes.S (Z.to_nat (n - 1))) in Hn by lia. done. }
    exists r'. split; [|done]. replace n with ((n - 1) + 1) by lia. rewrite from_end_app by lia. done.
Qed.

Section Code.
  Context {M : Type} `{FO : FloatOps} `{LO : Layout} `{TS : TargetSemantics val M}.
  Context {VT : ValueTarget M} {darwin : bool} {PC : PseudoCalls val M darwin}.
  Context (C : gmap Z Rtl.Instruction) (vm : gmap string Z) (lb : list Z).

(** From [n] the code evaluates [a] into [dest] and arrives at [succ]; besides
    [dest] it writes temporaries between [lo] and [hi] only. *)
Definition expr_ok (lo hi : Z) (a : CminorSel.Expr) (dest n succ : Z) : Prop :=
  forall e le rs m v, agree vm e rs -> lets_agree lb le rs -> sel_expr e m le a = Some v ->
  exists rs', rtc (steps_to (rtl_step C)) (n, rs, m) (succ, rs', m) /\ rs' dest = v /\
    forall r, r <> dest -> ~ (lo <= r < hi) -> rs' r = rs r.

Definition exprs_ok (lo hi : Z) (args : list CminorSel.Expr) (dests : list Z) (n succ : Z) : Prop :=
  forall e le rs m vs, agree vm e rs -> lets_agree lb le rs -> mapM (sel_expr e m le) args = Some vs ->
  exists rs', rtc (steps_to (rtl_step C)) (n, rs, m) (succ, rs', m) /\ rs' <$> dests = vs /\
    forall r, r ∉ dests -> ~ (lo <= r < hi) -> rs' r = rs r.

(** The code decides [c], in at least one step. *)
Definition cond_ok (lo hi : Z) (c : CminorSel.Condition) (n ifso ifnot : Z) : Prop :=
  forall e le rs m b, agree vm e rs -> lets_agree lb le rs -> sel_cond e m le c = Some b ->
  exists rs', tc (steps_to (rtl_step C)) (n, rs, m) (if b : bool then ifso else ifnot, rs', m) /\
    forall r, ~ (lo <= r < hi) -> rs' r = rs r.

(** Registers that hold variables or bindings. *)
Definition in_use (r : Z) : Prop := (exists x, vm !! x = Some r) \/ r ∈ lb.

Lemma agree_in_use e le rs rs' :
  agree vm e rs -> lets_agree lb le rs -> (forall r, in_use r -> rs' r = rs r) ->
  agree vm e rs' /\ lets_agree lb le rs'.
Proof using.
  intros Ha Hl Hf. split.
  - eapply agree_frame; [done|]. intros x r Hx. apply Hf. left. by exists x.
  - eapply lets_agree_frame; [done|]. intros r Hr. apply Hf. by right.
Qed.

Lemma step_op n op args dest succ rs m v :
  C !! n = Some (Iop op args dest succ) -> val_op op (rs <$> args) = Some v ->
  steps_to (rtl_step C) (n, rs, m) (succ, <[dest := v]> rs, m).
Proof using VT.
  intros Hn Hv. unfold steps_to, rtl_step. rewrite Hn, eval_op_val, Hv. done.
Qed.

Lemma step_nop n succ rs m : C !! n = Some (Inop succ) -> steps_to (rtl_step C) (n, rs, m) (succ, rs, m).
Proof using. intros Hn. unfold steps_to, rtl_step. by rewrite Hn. Qed.

Lemma step_cond n c args ifso ifnot rs m b :
  C !! n = Some (Icond c args ifso ifnot) -> val_cond c (rs <$> args) = Some b ->
  steps_to (rtl_step C) (n, rs, m) (if b : bool then ifso else ifnot, rs, m).
Proof using VT. intros Hn Hv. unfold steps_to, rtl_step. rewrite Hn, eval_cond_val, Hv. by destruct b. Qed.

Lemma move_ok lo hi a src dest n succ :
  (forall e le rs m v, agree vm e rs -> lets_agree lb le rs -> sel_expr e m le a = Some v -> rs src = v) ->
  (if decide (src = dest) then n = succ else C !! n = Some (Iop Omove [src] dest succ)) ->
  expr_ok lo hi a dest n succ.
Proof using VT.
  intros Ha Hn e le rs m v He Hl Hv. specialize (Ha e le rs m v He Hl Hv). destruct (decide (src = dest)) as [<-|].
  - exists rs. subst n. split; [apply rtc_refl|done].
  - exists (<[dest := v]> rs). split; [|split].
    + apply rtc_once. by apply (step_op n Omove [src] dest); [|cbn; rewrite Ha].
    + by rewrite fn_lookup_insert.
    + intros r Hr _. by rewrite fn_lookup_insert_ne by congruence.
Qed.

(** Arguments first, then an operation on them. *)
Lemma op_ok lo hi lo' hi' a op args regs dest n n1 succ :
  exprs_ok lo' hi' args regs n n1 -> C !! n1 = Some (Iop op regs dest succ) ->
  (forall e m le v, sel_expr e m le a = Some v ->
     exists vs, mapM (sel_expr e m le) args = Some vs /\ val_op op vs = Some v) ->
  lo <= lo' -> hi' <= hi -> (forall r, r ∈ regs -> lo <= r < hi) ->
  expr_ok lo hi a dest n succ.
Proof using VT.
  intros Hargs Hn1 Hop Hlo Hhi Hregs e le rs m v He Hl Hv. destruct (Hop e m le v Hv) as (vs & Hvs & Hov).
  destruct (Hargs e le rs m vs He Hl Hvs) as (rs1 & Hrun & Hd & Hf).
  exists (<[dest := v]> rs1). split; [|split].
  - eapply rtc_r; [exact Hrun|]. apply (step_op n1 op regs dest); [done|by rewrite Hd].
  - by rewrite fn_lookup_insert.
  - intros r Hr Hr'. rewrite fn_lookup_insert_ne by congruence. apply Hf; [intros H; by apply Hr', Hregs|lia].
Qed.

(** One argument after another. *)
Lemma exprs_ok_nil lo hi n : exprs_ok lo hi [] [] n n.
Proof using. intros e le rs m vs _ _ [= <-]. exists rs. split; [apply rtc_refl|done]. Qed.

Lemma exprs_ok_cons lo1 hi1 lo2 hi2 lo hi a args r regs n n1 succ :
  expr_ok lo1 hi1 a r n n1 -> exprs_ok lo2 hi2 args regs n1 succ ->
  r ∉ regs -> ~ (lo2 <= r < hi2) -> ~ in_use r -> (forall r', in_use r' -> ~ (lo1 <= r' < hi1)) ->
  lo <= lo1 -> hi1 <= hi -> lo <= lo2 -> hi2 <= hi ->
  exprs_ok lo hi (a :: args) (r :: regs) n succ.
Proof using.
  intros Ha Hargs Hr Hr2 Hnu Hu1 ? ? ? ? e le rs m vs He Hl Hvs. cbn in Hvs.
  destruct (sel_expr e m le a) as [v|] eqn:Ev; [|done]. cbn in Hvs.
  destruct (mapM (sel_expr e m le) args) as [vs'|] eqn:Evs; [|done]. injection Hvs as <-.
  destruct (Ha e le rs m v He Hl Ev) as (rs1 & Hrun1 & Hd1 & Hf1).
  destruct (agree_in_use e le rs rs1 He Hl) as [He1 Hl1].
  { intros r' Hu. apply Hf1; [by intros ->|by apply Hu1]. }
  destruct (Hargs e le rs1 m vs' He1 Hl1 Evs) as (rs2 & Hrun2 & Hd2 & Hf2).
  exists rs2. split; [by etrans|]. split.
  - cbn. f_equal; [|done]. by rewrite Hf2.
  - intros r' [Hne Hni]%not_elem_of_cons Hlo. rewrite Hf2 by (done || lia). apply Hf1; [done|lia].
Qed.

Lemma exprs_ok_single lo hi a r n succ : expr_ok lo hi a r n succ -> exprs_ok lo hi [a] [r] n succ.
Proof using.
  intros Ha e le rs m vs He Hl Hvs. cbn in Hvs. destruct (sel_expr e m le a) as [v|] eqn:Ev; [|done].
  injection Hvs as <-. destruct (Ha e le rs m v He Hl Ev) as (rs1 & Hrun & Hd & Hf).
  exists rs1. split; [done|]. split; [cbn; by rewrite Hd|]. intros r'. rewrite list_elem_of_singleton. intros ? ?. by apply Hf.
Qed.
End Code.

(** The facts of an extension that later steps need. *)
Ltac open_ext E :=
  let v := fresh "Ev" in let l := fresh "El" in let r := fresh "Er" in let c := fresh "Ec" in let n := fresh "En" in
  pose proof (ext_vars _ _ _ E) as v; pose proof (ext_lets _ _ _ E) as l; pose proof (ext_reg _ _ _ E) as r;
  pose proof (ext_code _ _ _ E) as c; pose proof (ext_node _ _ _ E) as n.

Section Generation.
  Context {M : Type} `{FO : FloatOps} `{LO : Layout} `{TS : TargetSemantics val M}.
  Context {VT : ValueTarget M} {darwin : bool} {PC : PseudoCalls val M darwin}.

(** The specifications of the translations. *)
Definition expr_spec (a : CminorSel.Expr) : Prop := forall vm lb dest succ s,
  supported (dom vm) a = true -> wf s -> vars s = vm -> letBindings s = lb -> dest < top_reg s ->
  spec ∅ (TranslateExpr a dest succ) s (fun n s' =>
    forall C, nodes s' ⊆ C -> expr_ok C vm lb (top_reg s) (top_reg s') a dest n succ).

Definition cond_spec (c : CminorSel.Condition) : Prop := forall vm lb ifso ifnot s,
  cond_supported (dom vm) c = true -> wf s -> vars s = vm -> letBindings s = lb ->
  spec ∅ (TranslateCond c ifso ifnot) s (fun n s' =>
    forall C, nodes s' ⊆ C -> cond_ok C vm lb (top_reg s) (top_reg s') c n ifso ifnot).

Lemma in_use_below vm lb s r : wf s -> vars s = vm -> letBindings s = lb -> in_use vm lb r -> r < top_reg s.
Proof using.
  intros w <- <- [[x Hx]|Hr]; [apply (wf_vars _ w x r Hx)|apply (wf_lets _ w r Hr)].
Qed.

(** Arguments, translated from the last to the first into registers that are
    not in use. *)
Lemma list_spec vm lb args regs succ s :
  Forall expr_spec args -> Forall (fun a => supported (dom vm) a = true) args -> length regs = length args ->
  wf s -> vars s = vm -> letBindings s = lb -> NoDup regs ->
  (forall r, r ∈ regs -> r < top_reg s /\ ~ in_use vm lb r) ->
  spec ∅ (translate_list TranslateExpr args regs succ) s (fun n s' =>
    forall C, nodes s' ⊆ C -> exprs_ok C vm lb (top_reg s) (top_reg s') args regs n succ).
Proof using.
  intros Hargs Hsup Hlen w Hvm Hlb Hnd Hregs. revert regs Hlen Hnd Hregs.
  induction Hargs as [|a args Ha Hargs IH]; intros [|r regs] Hlen Hnd Hregs; try done; cbn [translate_list].
  - apply spec_ret; [done|]. intros C _. apply exprs_ok_nil.
  - apply Forall_cons in Hsup as [Hsa Hsup]. apply NoDup_cons in Hnd as [Hr Hnd].
    eapply spec_bind0; [done|apply (IH Hsup regs); [cbn in Hlen; lia|done|]|].
    { intros r' Hr'. apply Hregs. by right. }
    intros entry s1 w1 E1 HQ1. open_ext E1.
    destruct (Hregs r) as [Hlt Hnu]; [left|].
    eapply spec_conseq; [apply (Ha vm lb); [done|done|congruence|congruence|lia]|].
    intros n s2 w2 E2 HQ2 E3 _ C HC. open_ext E2.
    eapply exprs_ok_cons; [by apply HQ2|apply HQ1; by etrans|done|lia|done| |lia|lia|lia|lia].
    intros r' Hu. pose proof (in_use_below vm lb s r' w Hvm Hlb Hu). lia.
Qed.

Lemma fresh_regs vm lb s n :
  wf s -> vars s = vm -> letBindings s = lb ->
  NoDup (seqZ (top_reg s) n) /\ forall r, r ∈ seqZ (top_reg s) n -> top_reg s <= r < top_reg s + n /\ ~ in_use vm lb r.
Proof using.
  intros w Hvm Hlb. split; [apply NoDup_seqZ|]. intros r [Hr1 Hr2]%elem_of_seqZ. split; [lia|].
  intros Hu. pose proof (in_use_below vm lb s r w Hvm Hlb Hu). lia.
Qed.

(** Arguments into [regs], then an operation on them. *)
Lemma op_spec vm lb a args op node regs dest succ s0 s :
  Forall expr_spec args -> Forall (fun a => supported (dom vm) a = true) args -> length regs = length args ->
  wf s0 -> vars s0 = vm -> letBindings s0 = lb -> ext ∅ s0 s -> wf s -> NoDup regs ->
  (forall r, r ∈ regs -> top_reg s0 <= r < top_reg s) ->
  nodes s !! node = Some (Iop op regs dest succ) ->
  (forall e m le v, sel_expr e m le a = Some v ->
     exists vs, mapM (sel_expr e m le) args = Some vs /\ val_op op vs = Some v) ->
  spec ∅ (translate_list TranslateExpr args regs node) s (fun n s' => ext ∅ s0 s' -> wf s' ->
    forall C, nodes s' ⊆ C -> expr_ok C vm lb (top_reg s0) (top_reg s') a dest n succ).
Proof using.
  intros Hargs Hsup Hlen w0 Hvm Hlb E0 w Hnd Hregs Hnode Hop. open_ext E0.
  eapply spec_conseq; [apply (list_spec vm lb); try done; try congruence|].
  { intros r Hr. specialize (Hregs r Hr). split; [lia|]. intros Hu.
    pose proof (in_use_below vm lb s0 r w0 Hvm Hlb Hu). lia. }
  intros n s' w' E HQ _ _ C HC. open_ext E. eapply op_ok; [by apply HQ| |exact Hop|lia|lia|].
  - eapply lookup_weaken; [exact Hnode|]. by etrans.
  - intros r Hr. specialize (Hregs r Hr). lia.
Qed.

Lemma move_spec vm lb a src dest succ s :
  wf s -> vars s = vm -> letBindings s = lb ->
  (forall e le rs m v, agree vm e rs -> lets_agree lb le rs -> sel_expr e m le a = Some v -> rs src = v) ->
  spec ∅ (if decide (src = dest) then mret succ else EmitMove src dest succ) s (fun n s' =>
    forall C, nodes s' ⊆ C -> expr_ok C vm lb (top_reg s) (top_reg s') a dest n succ).
Proof using VT.
  intros w Hvm Hlb Ha. destruct (decide (src = dest)) as [Heq|Hne].
  - apply spec_ret; [done|]. intros C _. eapply move_ok; [exact Ha|]. by rewrite decide_True.
  - eapply spec_conseq; [by apply spec_EmitInstr|]. intros n s' _ _ (Hn & _) C HC.
    eapply move_ok; [exact Ha|]. rewrite decide_False by done. by eapply lookup_weaken.
Qed.

Lemma var_spec vm lb x dest succ s :
  x ∈ dom vm -> wf s -> vars s = vm -> letBindings s = lb ->
  spec ∅ (translateVar x dest succ) s (fun n s' =>
    forall C, nodes s' ⊆ C -> expr_ok C vm lb (top_reg s) (top_reg s') (CminorSel.Evar x) dest n succ).
Proof using VT.
  intros Hx w Hvm Hlb. apply elem_of_dom in Hx as [r Hr].
  eapply spec_bind0; [done|apply (spec_MapVar x r); [done|by rewrite Hvm]|]. intros r' s1 _ E1 (-> & ->).
  eapply spec_conseq; [apply (move_spec vm lb (CminorSel.Evar x)); [done|done|done|]|auto].
  intros e le rs m v Ha _ Hv. destruct (Ha x v Hv) as (r1 & Hr1 & <-). congruence.
Qed.

Lemma letvar_spec vm lb n dest succ s :
  wf s -> vars s = vm -> letBindings s = lb ->
  spec ∅ (translateLetvar n dest succ) s (fun n' s' =>
    forall C, nodes s' ⊆ C -> expr_ok C vm lb (top_reg s) (top_reg s') (CminorSel.Eletvar n) dest n' succ).
Proof using VT.
  intros w Hvm Hlb. unfold translateLetvar. eapply (spec_bind0 _ _ _ (fun src s' => src = default 0 (from_end lb n) /\ s' = s)).
  - done.
  - intros a s' [= <- <-]. rewrite Hlb. split; [done|]. split; [apply ext_refl|done].
  - intros src s1 _ _ (-> & ->). destruct (from_end lb n) as [r|] eqn:Er; cbn [default from_option id].
    + assert (Hr : 0 < r) by (apply (wf_lets _ w); rewrite Hlb; by eapply from_end_elem).
      destruct (Z.eqb_spec r 0); [lia|]. eapply spec_conseq; [apply (move_spec vm lb (CminorSel.Eletvar n)); [done|done|done|]|auto].
      intros e le rs m v _ Hl Hv. destruct (Hl n v Hv) as (r1 & Hr1 & <-). congruence.
    + eapply spec_conseq; [by apply spec_EmitInstr|]. intros n' s' _ _ _ _ _ C _ e le rs m v _ Hl Hv.
      destruct (Hl n v Hv) as (r1 & Hr1 & _). congruence.
Qed.

(** A computation under another binding. *)
Lemma spec_let r (f : gen Z) s (Q : Z -> Translator -> Prop) :
  wf s -> 0 < r < top_reg s ->
  spec ∅ f (mkTranslator (cfg s) (regs s) (targets s) (letBindings s ++ [r])) (fun n s' =>
    Q n (mkTranslator (cfg s') (regs s') (targets s') (letBindings s))) ->
  spec ∅ (pushLetBinding r;; n ← f; popLetBinding;; mret n) s Q.
Proof using.
  intros w Hr Hf n s'. unfold mbind, gen_bind, pushLetBinding, popLetBinding, mret, gen_ret.
  destruct (f _) as [n1 s1] eqn:E1. destruct (Hf n1 s1 E1) as (w1 & Ex & HQ).
  intros [= <- <-]. assert (Hl : letBindings s1 = letBindings s ++ [r]) by apply (ext_lets _ _ _ Ex).
  rewrite Hl, length_app. cbn [length]. rewrite take_app_le by lia. rewrite take_ge by lia. split; [|split].
  - pose proof (ext_reg _ _ _ Ex) as Hreg. cbn in Hreg. pose proof (wf_lets _ w) as Hw.
    destruct w1. constructor; cbn; try done. intros r' Hr'. specialize (Hw r' Hr'). lia.
  - destruct Ex. by constructor; cbn in *.
  - done.
Qed.

Lemma const_spec c : expr_spec (CminorSel.Econst c).
Proof using VT.
  intros vm lb dest succ s _ w Hvm Hlb Hd. eapply spec_conseq; [by apply spec_EmitInstr|].
  intros n s' _ _ (Hn & _) C HC. eapply (op_ok C vm lb _ _ (top_reg s) (top_reg s')); [apply exprs_ok_nil| | |lia|lia|].
  - by eapply lookup_weaken.
  - intros e m le v [= <-]. exists []. split; [done|apply TranslateConstant_ok].
  - intros r Hr. by apply not_elem_of_nil in Hr.
Qed.

(** ** Expressions and conditions *)

Lemma list2_eq (e1 e2 : CminorSel.Expr) r1 r2 n :
  (rightEntry ← TranslateExpr e2 r2 n; TranslateExpr e1 r1 rightEntry) =
  translate_list TranslateExpr [e1; e2] [r1; r2] n.
Proof using. reflexivity. Qed.

Lemma list1_eq (e1 : CminorSel.Expr) r1 n : TranslateExpr e1 r1 n = translate_list TranslateExpr [e1] [r1] n.
Proof using. reflexivity. Qed.

(** Two operands in fresh registers, then an operation. *)
Lemma binary_spec vm lb a e1 e2 op dest succ s :
  expr_spec e1 -> expr_spec e2 -> supported (dom vm) e1 = true -> supported (dom vm) e2 = true ->
  wf s -> vars s = vm -> letBindings s = lb ->
  (forall e m le v, sel_expr e m le a = Some v ->
     exists vs, mapM (sel_expr e m le) [e1; e2] = Some vs /\ val_op op vs = Some v) ->
  spec ∅ (leftReg ← Fresh; rightReg ← Fresh;
          opNode ← EmitOp op [leftReg; rightReg] dest succ;
          rightEntry ← TranslateExpr e2 rightReg opNode;
          TranslateExpr e1 leftReg rightEntry) s (fun n s' =>
    forall C, nodes s' ⊆ C -> expr_ok C vm lb (top_reg s) (top_reg s') a dest n succ).
Proof using.
  intros H1 H2 Hs1 Hs2 w Hvm Hlb Hop.
  eapply spec_bind0; [done|by apply spec_Fresh|]. intros r1 s1 w1 E1 (-> & Hr1 & _).
  eapply spec_bind0; [done|by apply spec_Fresh|]. intros r2 s2 w2 E2 (-> & Hr2 & _).
  eapply spec_bind0; [done|by apply spec_EmitInstr|]. intros node s3 w3 E3 (Hnode & _). rewrite list2_eq.
  assert (E03 : ext ∅ s s3) by (apply (ext_trans0 _ s1); [done|done|]; by apply (ext_trans0 _ s2)).
  open_ext E3. eapply spec_conseq.
  - eapply (op_spec vm lb a [e1; e2] op node _ dest succ s s3); try done.
    + by rewrite !Forall_cons, Forall_nil.
    + by rewrite !Forall_cons, Forall_nil.
    + rewrite NoDup_cons, list_elem_of_singleton. split; [lia|apply NoDup_singleton].
    + intros r. rewrite elem_of_cons, list_elem_of_singleton. intros [->| ->]; lia.
  - intros n s' w' E HQ. cbn beta in HQ. intros _ _ E0 _ Ew _. by apply HQ.
Qed.

Lemma unary_spec vm lb a e1 op dest succ s :
  expr_spec e1 -> supported (dom vm) e1 = true -> wf s -> vars s = vm -> letBindings s = lb ->
  (forall e m le v, sel_expr e m le a = Some v ->
     exists vs, mapM (sel_expr e m le) [e1] = Some vs /\ val_op op vs = Some v) ->
  spec ∅ (argReg ← Fresh; opNode ← EmitOp op [argReg] dest succ; TranslateExpr e1 argReg opNode) s (fun n s' =>
    forall C, nodes s' ⊆ C -> expr_ok C vm lb (top_reg s) (top_reg s') a dest n succ).
Proof using.
  intros H1 Hs1 w Hvm Hlb Hop.
  eapply spec_bind0; [done|by apply spec_Fresh|]. intros r1 s1 w1 E1 (-> & Hr1 & _).
  eapply spec_bind0; [done|by apply spec_EmitInstr|]. intros node s2 w2 E2 (Hnode & _). rewrite list1_eq.
  assert (E02 : ext ∅ s s2) by by apply (ext_trans0 _ s1). open_ext E2. eapply spec_conseq.
  - eapply (op_spec vm lb a [e1] op node _ dest succ s s2); try done.
    + by rewrite Forall_cons, Forall_nil.
    + by rewrite Forall_cons, Forall_nil.
    + apply NoDup_singleton.
    + intros r. rewrite list_elem_of_singleton. intros ->. lia.
  - intros n s' w' E HQ. cbn beta in HQ. intros _ _ E0 _. by apply HQ.
Qed.

(** A load from an address computed from arguments. *)
Lemma load_spec vm lb chunk mode args dest succ s :
  Forall expr_spec args -> Forall (fun a => supported (dom vm) a = true) args -> mode_supported mode = true ->
  wf s -> vars s = vm -> letBindings s = lb ->
  spec ∅ (TranslateExpr (CminorSel.Eload chunk mode args) dest succ) s (fun n s' =>
    forall C, nodes s' ⊆ C ->
    expr_ok C vm lb (top_reg s) (top_reg s') (CminorSel.Eload chunk mode args) dest n succ).
Proof using VT.
  intros Hargs Hsup Hmode w Hvm Hlb. cbn [TranslateExpr].
  destruct (fresh_regs vm lb s (Z.of_nat (length args)) w Hvm Hlb) as [Hnd Hregs].
  eapply spec_bind0; [done|by apply spec_FreshN|]. intros rs s1 w1 E1 (-> & Hr1 & _). open_ext E1.
  assert (Hlen : length (seqZ (top_reg s) (Z.of_nat (length args))) = length args) by (rewrite length_seqZ; lia).
  eapply spec_bind0; [done|apply (list_spec vm lb); try done; try congruence|].
  { intros r Hr. destruct (Hregs r Hr). split; [lia|done]. }
  intros dead s2 w2 E2 _. open_ext E2.
  eapply spec_bind0; [done|by apply spec_EmitInstr|]. intros node s3 w3 E3 (Hnode & _). open_ext E3.
  eapply spec_conseq; [apply (list_spec vm lb); try done; try congruence|].
  { intros r Hr. destruct (Hregs r Hr). split; [lia|done]. }
  intros n s' w' E HQ _ _ _ _ _ _ C HC. open_ext E. intros e le rs m v He Hl Hv. cbn in Hv.
  destruct (mapM (sel_expr e m le) args) as [vs|] eqn:Evs; [|done]. cbn in Hv.
  destruct (HQ C HC e le rs m vs He Hl Evs) as (rs1 & Hrun & Hd & Hf).
  exists (<[dest := v]> rs1). split; [|split].
  - eapply rtc_r; [exact Hrun|]. unfold steps_to, rtl_step.
    rewrite (lookup_weaken _ C _ _ Hnode) by (by etrans).
    rewrite Hd, eval_load_val, TranslateAddressingMode_ok by done. unfold TranslateChunk. by rewrite Hv.
  - by rewrite fn_lookup_insert.
  - intros r Hr Hr'. rewrite fn_lookup_insert_ne by congruence. apply Hf; [|lia].
    intros Hin. destruct (Hregs r Hin). lia.
Qed.

(** An operand, a shifted operand, and an operation on the two. *)
Lemma shift_spec vm lb a op op' bop n e1 e2 dest succ s :
  expr_spec e1 -> expr_spec e2 -> supported (dom vm) e1 = true -> supported (dom vm) e2 = true ->
  wf s -> vars s = vm -> letBindings s = lb ->
  (forall e m le, sel_expr e m le a =
     v1 ← sel_expr e m le e1; v2 ← sel_expr e m le e2;
     v ← eval_binop (shift_op op) v2 (Vint n); eval_binop bop v1 v) ->
  (forall v1 v2, val_op op' [v1; v2] = eval_binop bop v1 v2) ->
  spec ∅ (leftReg ← Fresh; rightReg ← Fresh; shiftedReg ← Fresh;
          opNode ← EmitOp op' [leftReg; shiftedReg] dest succ;
          shiftNode ← EmitOp (translateShiftOp op n) [rightReg] shiftedReg opNode;
          rightEntry ← TranslateExpr e2 rightReg shiftNode;
          TranslateExpr e1 leftReg rightEntry) s (fun n s' =>
    forall C, nodes s' ⊆ C -> expr_ok C vm lb (top_reg s) (top_reg s') a dest n succ).
Proof using VT.
  intros H1 H2 Hs1 Hs2 w Hvm Hlb Ha Hop.
  eapply spec_bind0; [done|by apply spec_Fresh|]. intros r1 s1 w1 E1 (-> & Hr1 & _).
  eapply spec_bind0; [done|by apply spec_Fresh|]. intros r2 s2 w2 E2 (-> & Hr2 & _).
  eapply spec_bind0; [done|by apply spec_Fresh|]. intros r3 s3 w3 E3 (-> & Hr3 & _).
  eapply spec_bind0; [done|by apply spec_EmitInstr|]. intros node s4 w4 E4 (Hnode & _).
  eapply spec_bind0; [done|by apply spec_EmitInstr|]. intros node' s5 w5 E5 (Hnode' & _). rewrite list2_eq.
  open_ext E1. open_ext E2. open_ext E3. open_ext E4. open_ext E5.
  eapply spec_conseq; [apply (list_spec vm lb); try done; try congruence|].
  - by rewrite !Forall_cons, Forall_nil.
  - by rewrite !Forall_cons, Forall_nil.
  - rewrite NoDup_cons, list_elem_of_singleton. split; [lia|apply NoDup_singleton].
  - intros r. rewrite elem_of_cons, list_elem_of_singleton. intros Hr. split; [destruct Hr as [->| ->]; lia|].
    intros Hu. pose proof (in_use_below vm lb s r w Hvm Hlb Hu). destruct Hr as [->| ->]; lia.
  - intros n0 s' w' E HQ _ _ _ _ _ _ _ _ _ _ C HC. open_ext E. intros e le rs m v He Hl Hv. rewrite Ha in Hv.
    destruct (sel_expr e m le e1) as [v1|] eqn:X1; [|done]. cbn in Hv.
    destruct (sel_expr e m le e2) as [v2|] eqn:X2; [|done]. cbn in Hv.
    destruct (eval_binop (shift_op op) v2 (Vint n)) as [v3|] eqn:X3; [|done]. cbn in Hv.
    destruct (HQ C HC e le rs m [v1; v2] He Hl) as (rs1 & Hrun & Hd & Hf).
    { cbn. rewrite X1. cbn. by rewrite X2. }
    cbn in Hd. injection Hd as Hd1 Hd2.
    exists (<[dest := v]> (<[top_reg s2 := v3]> rs1)). split; [|split].
    + eapply rtc_r; [eapply rtc_r; [exact Hrun|]|].
      * apply (step_op C node' (translateShiftOp op n) [top_reg s1]); [eapply lookup_weaken; [done|by etrans]|].
        cbn. rewrite Hd2. by apply translateShiftOp_ok.
      * apply (step_op C node op' [top_reg s; top_reg s2]).
        { eapply lookup_weaken; [exact Hnode|]. etrans; [exact Ec3|]. by etrans. }
        cbn. rewrite fn_lookup_insert_ne by lia. rewrite fn_lookup_insert, Hd1. by rewrite Hop.
    + by rewrite fn_lookup_insert.
    + intros r Hr Hr'. rewrite !fn_lookup_insert_ne by lia. apply Hf; [|lia].
      rewrite elem_of_cons, list_elem_of_singleton. lia.
Qed.

(** *** Conditions *)

Lemma TranslateCond_eq cond ifso ifnot :
  TranslateCond cond ifso ifnot =
  match TranslateCondition cond with
  | Some (cc, args) =>
      dead ← AllocNode;
      argRegs ← FreshN (length args);
      _ ← cond_args TranslateExpr cond argRegs dead;
      condNode ← EmitCond cc argRegs ifso ifnot;
      cond_args TranslateExpr cond argRegs condNode
  | None =>
      match cond with
      | CminorSel.CondAnd c1 c2 => inner ← TranslateCond c2 ifso ifnot; TranslateCond c1 inner ifnot
      | CminorSel.CondOr c1 c2 => inner ← TranslateCond c2 ifso ifnot; TranslateCond c1 ifso inner
      | _ => mret ifso
      end
  end.
Proof using. by destruct cond. Qed.

(** [cond_args] is the loop over the arguments of [TranslateCondition]. *)
Lemma cond_args_list c cc args regs succ :
  TranslateCondition c = Some (cc, args) -> length regs = length args ->
  cond_args TranslateExpr c regs succ = translate_list TranslateExpr args regs succ.
Proof using.
  revert cc args. induction c; intros cc args Hc Hlen; cbn [TranslateCondition] in Hc; try done;
    try (injection Hc as <- <-; destruct regs as [|r1 [|r2 [|r3 regs]]]; try done; reflexivity).
  destruct (TranslateCondition c) as [[inner args']|]; [|done]. injection Hc as <- <-. by apply (IHc inner).
Qed.

Lemma cond_args_supported xs c cc args :
  TranslateCondition c = Some (cc, args) -> cond_supported xs c = true -> Forall (fun a => supported xs a = true) args.
Proof using.
  revert cc args. induction c; intros cc args Hc Hs; cbn [TranslateCondition] in Hc; try done; simpl in Hs;
    try (injection Hc as <- <-; destruct_andb; by rewrite ?Forall_cons, Forall_nil).
  destruct (TranslateCondition c) as [[inner args']|]; [|done]. injection Hc as <- <-. destruct_andb. by apply (IHc inner).
Qed.

Lemma simple_cond_spec c cc args :
  TranslateCondition c = Some (cc, args) -> Forall expr_spec args -> cond_spec c.
Proof using VT.
  intros Hc Hargs vm lb ifso ifnot s Hs w Hvm Hlb. rewrite TranslateCond_eq, Hc.
  pose proof (cond_args_supported _ c cc args Hc Hs) as Hsup.
  eapply spec_bind0; [done|by apply spec_AllocNode|]. intros dead s1 w1 E1 _. open_ext E1.
  destruct (fresh_regs vm lb s1 (Z.of_nat (length args)) w1) as [Hnd Hregs]; [congruence|congruence|].
  eapply spec_bind0; [done|by apply spec_FreshN|]. intros rs s2 w2 E2 (-> & Hr2 & _). open_ext E2.
  assert (Hlen : length (seqZ (top_reg s1) (Z.of_nat (length args))) = length args) by (rewrite length_seqZ; lia).
  rewrite (cond_args_list c cc args _ dead Hc Hlen).
  eapply spec_bind0; [done|apply (list_spec vm lb); try done; try congruence|].
  { intros r Hr. destruct (Hregs r Hr). split; [lia|done]. }
  intros d s3 w3 E3 _. open_ext E3.
  eapply spec_bind0; [done|by apply spec_EmitInstr|]. intros node s4 w4 E4 (Hnode & _). open_ext E4.
  rewrite (cond_args_list c cc args _ node Hc Hlen).
  eapply spec_conseq; [apply (list_spec vm lb); try done; try congruence|].
  { intros r Hr. destruct (Hregs r Hr). split; [lia|done]. }
  intros n s' w' E HQ _ _ _ _ _ _ _ _ C HC. open_ext E. intros e le rs m b He Hl Hb.
  destruct (TranslateCondition_ok e m le c cc args b Hc Hb) as (vs & Hvs & Hcc).
  destruct (HQ C HC e le rs m vs He Hl Hvs) as (rs1 & Hrun & Hd & Hf). exists rs1. split.
  - eapply tc_rtc_l; [exact Hrun|]. apply tc_once. eapply step_cond; [|by rewrite Hd].
    eapply lookup_weaken; [exact Hnode|by etrans].
  - intros r Hr'. apply Hf; [|lia]. intros Hin. destruct (Hregs r Hin). lia.
Qed.

(** One condition, then another on the nodes of one of its branches. *)
Lemma cond_ok_and C vm lb lo1 hi1 lo2 hi2 lo hi c1 c2 n n2 ifso ifnot :
  cond_ok C vm lb lo1 hi1 c1 n n2 ifnot -> cond_ok C vm lb lo2 hi2 c2 n2 ifso ifnot ->
  (forall r, in_use vm lb r -> r < lo1) -> lo <= lo1 -> hi1 <= hi -> lo <= lo2 -> hi2 <= hi ->
  cond_ok C vm lb lo hi (CminorSel.CondAnd c1 c2) n ifso ifnot.
Proof using.
  intros H1 H2 Hu ? ? ? ? e le rs m b He Hl Hb. simpl in Hb.
  destruct (sel_cond e m le c1) as [b1|] eqn:E1; [|done]. cbn in Hb.
  destruct (H1 e le rs m b1 He Hl E1) as (rs1 & Hrun1 & Hf1). destruct b1.
  - destruct (agree_in_use vm lb e le rs rs1 He Hl) as [He1 Hl1].
    { intros r Hr. specialize (Hu r Hr). apply Hf1. lia. }
    destruct (H2 e le rs1 m b He1 Hl1 Hb) as (rs2 & Hrun2 & Hf2). exists rs2. split; [by etrans|].
    intros r Hr. rewrite Hf2, Hf1; [done|lia|lia].
  - injection Hb as <-. exists rs1. split; [done|]. intros r Hr. apply Hf1. lia.
Qed.

Lemma cond_ok_or C vm lb lo1 hi1 lo2 hi2 lo hi c1 c2 n n2 ifso ifnot :
  cond_ok C vm lb lo1 hi1 c1 n ifso n2 -> cond_ok C vm lb lo2 hi2 c2 n2 ifso ifnot ->
  (forall r, in_use vm lb r -> r < lo1) -> lo <= lo1 -> hi1 <= hi -> lo <= lo2 -> hi2 <= hi ->
  cond_ok C vm lb lo hi (CminorSel.CondOr c1 c2) n ifso ifnot.
Proof using.
  intros H1 H2 Hu ? ? ? ? e le rs m b He Hl Hb. simpl in Hb.
  destruct (sel_cond e m le c1) as [b1|] eqn:E1; [|done]. cbn in Hb.
  destruct (H1 e le rs m b1 He Hl E1) as (rs1 & Hrun1 & Hf1). destruct b1.
  - injection Hb as <-. exists rs1. split; [done|]. intros r Hr. apply Hf1. lia.
  - destruct (agree_in_use vm lb e le rs rs1 He Hl) as [He1 Hl1].
    { intros r Hr. specialize (Hu r Hr). apply Hf1. lia. }
    destruct (H2 e le rs1 m b He1 Hl1 Hb) as (rs2 & Hrun2 & Hf2). exists rs2. split; [by etrans|].
    intros r Hr. rewrite Hf2, Hf1; [done|lia|lia].
Qed.

Lemma compound_spec c1 c2 : cond_spec c1 -> cond_spec c2 ->
  cond_spec (CminorSel.CondAnd c1 c2) /\ cond_spec (CminorSel.CondOr c1 c2).
Proof using.
  intros H1 H2. split; intros vm lb ifso ifnot s Hs w Hvm Hlb; simpl in Hs; destruct_andb;
    rewrite TranslateCond_eq; cbn [TranslateCondition].
  all: eapply spec_bind0; [done|by apply (H2 vm lb)|]; intros inner s1 w1 E1 HQ1; open_ext E1;
    (eapply spec_conseq; [apply (H1 vm lb); [done|done|congruence|congruence]|]);
    intros n s' w' E HQ _ _ C HC; open_ext E.
  - eapply cond_ok_and; [by apply HQ|apply HQ1; by etrans| |lia|lia|lia|lia].
    intros r Hr. pose proof (in_use_below vm lb s r w Hvm Hlb Hr). lia.
  - eapply cond_ok_or; [by apply HQ|apply HQ1; by etrans| |lia|lia|lia|lia].
    intros r Hr. pose proof (in_use_below vm lb s r w Hvm Hlb Hr). lia.
Qed.

Lemma condition_spec c e1 e2 : cond_spec c -> expr_spec e1 -> expr_spec e2 -> expr_spec (CminorSel.Econdition c e1 e2).
Proof using.
  intros Hc H1 H2 vm lb dest succ s Hs w Hvm Hlb Hd. simpl in Hs. destruct_andb. cbn [TranslateExpr].
  eapply spec_bind0; [done|by apply (H2 vm lb)|]. intros n2 s1 w1 E1 HQ2. open_ext E1.
  eapply spec_bind0; [done|apply (H1 vm lb); [done|done|congruence|congruence|lia]|]. intros n1 s2 w2 E2 HQ1. open_ext E2.
  eapply spec_conseq; [apply (Hc vm lb); [done|done|congruence|congruence]|].
  intros n s' w' E HQ _ _ _ _ C HC. open_ext E. intros e le rs m v He Hl Hv. simpl in Hv.
  destruct (sel_cond e m le c) as [b|] eqn:Eb; [|done]. cbn in Hv.
  destruct (HQ C HC e le rs m b He Hl Eb) as (rs1 & Hrun1 & Hf1).
  destruct (agree_in_use vm lb e le rs rs1 He Hl) as [He1 Hl1].
  { intros r Hr. pose proof (in_use_below vm lb s r w Hvm Hlb Hr). apply Hf1. lia. }
  assert (Hbr : exists lo hi, expr_ok C vm lb lo hi (if b then e1 else e2) dest (if b then n1 else n2) succ /\
    top_reg s <= lo /\ hi <= top_reg s').
  { destruct b; [exists (top_reg s1), (top_reg s2)|exists (top_reg s), (top_reg s1)].
    - split; [apply HQ1; by etrans|]. lia.
    - split; [apply HQ2; do 2 (etrans; [done|]); done|]. lia. }
  destruct Hbr as (lo & hi & Hbr & Hlo & Hhi).
  destruct (Hbr e le rs1 m v He1 Hl1) as (rs2 & Hrun2 & Hd2 & Hf2); [by destruct b|].
  exists rs2. split; [|split; [done|]].
  - etrans; [by apply tc_rtc|done].
  - intros r Hr Hr'. rewrite Hf2, Hf1; [done|lia|done|lia].
Qed.

Lemma let_seq_eq e1 e2 dest r succ s :
  (pushLetBinding r;;
   bodyEntry ← TranslateExpr e2 dest succ; entry ← TranslateExpr e1 r bodyEntry; popLetBinding;; mret entry) s =
  (pushLetBinding r;;
   n ← (bodyEntry ← TranslateExpr e2 dest succ; TranslateExpr e1 r bodyEntry); popLetBinding;; mret n) s.
Proof using.
  unfold mbind, gen_bind. destruct (pushLetBinding r s) as [u s1]. by destruct (TranslateExpr e2 dest succ s1).
Qed.

Lemma let_spec e1 e2 : expr_spec e1 -> expr_spec e2 -> expr_spec (CminorSel.Elet e1 e2).
Proof using.
  intros H1 H2 vm lb dest succ s Hs w Hvm Hlb Hd. simpl in Hs. destruct_andb. cbn [TranslateExpr].
  eapply spec_bind0; [done|by apply spec_Fresh|]. intros r s1 w1 E1 (-> & Hr & _). open_ext E1.
  intros n0 s0. rewrite let_seq_eq. revert n0 s0.
  match goal with |- forall n0 s0, ?f s1 = _ -> wf s0 /\ ext ∅ s1 s0 /\ ?Q => change (spec ∅ f s1 (fun n0 s0 => Q)) end.
  pose proof (wf_reg _ w).
  apply spec_let; [done|lia|]. set (s2 := mkTranslator _ _ _ _).
  assert (w2 : wf s2).
  { pose proof (wf_lets _ w) as Hw. destruct w1. constructor; cbn; try done. intros r'.
    rewrite El, elem_of_app, list_elem_of_singleton. intros [Hin| ->]; [|lia]. specialize (Hw r' Hin). lia. }
  assert (Hvm2 : vars s2 = vm) by (cbn; congruence).
  assert (Hlb2 : letBindings s2 = lb ++ [top_reg s]) by (cbn; congruence).
  eapply spec_bind0; [done|apply (H2 vm (lb ++ [top_reg s])); try done; cbn; lia|].
  intros body s3 w3 E3 HQ2. open_ext E3.
  eapply spec_conseq; [apply (H1 vm (lb ++ [top_reg s])); try done; [congruence|congruence|cbn in *; lia]|].
  intros n s' w' E HQ1 _ _ _ _ C HC. open_ext E. cbn in HC. intros e le rs m v He Hl Hv. simpl in Hv.
  destruct (sel_expr e m le e1) as [v1|] eqn:X1; [|done]. cbn in Hv.
  assert (Hc1 : sel_expr e m [] e1 = Some v1).
  { rewrite <- X1. by apply (proj1 (let_closed_eval e m) e1 0 [] [] le). }
  destruct (HQ1 C HC e [] rs m v1 He) as (rs1 & Hrun1 & Hd1 & Hf1); [|done|].
  { intros k w0 Hk. unfold let_value in Hk. by destruct (k <? 0). }
  destruct (agree_in_use vm lb e le rs rs1 He Hl) as [He1 Hl1].
  { intros r Hr'. pose proof (in_use_below vm lb s r w Hvm Hlb Hr'). apply Hf1; [lia|]. cbn in *. lia. }
  destruct (HQ2 C) with (e := e) (le := v1 :: le) (rs := rs1) (m := m) (v := v) as (rs2 & Hrun2 & Hd2 & Hf2); try done.
  { by etrans. }
  { by apply lets_agree_push. }
  exists rs2. split; [by etrans|]. split; [done|].
  intros r Hr1 Hr2. cbn in *. rewrite Hf2, Hf1; [done|lia|lia|done|lia].
Qed.

(** The code generated for a supported expression computes it, and the code for
    a supported condition decides it. *)
Theorem translate_spec : (forall a, expr_spec a) /\ (forall c, cond_spec c).
Proof using VT.
  cut ((forall a, expr_spec a) /\
    (forall c, cond_spec c /\ forall cc args, TranslateCondition c = Some (cc, args) -> Forall expr_spec args)).
  { intros [H1 H2]. split; [done|]. intros c. apply H2. }
  apply CminorSel.Expr_Condition_ind.
  - intros x vm lb dest succ s Hs w Hvm Hlb Hd. simpl in Hs. apply bool_decide_eq_true in Hs. by apply var_spec.
  - apply const_spec.
  - intros op e1 H1 vm lb dest succ s Hs w Hvm Hlb Hd. simpl in Hs. destruct_andb. apply unary_spec; try done.
    intros e m le v Hv. simpl in Hv |- *. destruct (sel_expr e m le e1) as [v1|]; [|done].
    exists [v1]. split; [done|]. by apply TranslateUnaryOp_ok.
  - intros op e1 e2 H1 H2 vm lb dest succ s Hs w Hvm Hlb Hd. simpl in Hs. destruct_andb. apply binary_spec; try done.
    intros e m le v Hv. simpl in Hv |- *. destruct (sel_expr e m le e1) as [v1|]; [|done].
    destruct (sel_expr e m le e2) as [v2|]; [|done]. exists [v1; v2]. split; [done|]. by apply TranslateBinaryOp_ok.
  - intros chunk mode args Hargs vm lb dest succ s Hs w Hvm Hlb Hd. simpl in Hs. destruct_andb.
    apply load_spec; try done. by apply forallb_Forall.
  - intros c e1 e2 [Hc _] H1 H2. by apply condition_spec.
  - intros e1 e2 H1 H2. by apply let_spec.
  - intros n vm lb dest succ s _ w Hvm Hlb _. by apply letvar_spec.
  - intros op n e1 e2 H1 H2 vm lb dest succ s Hs w Hvm Hlb Hd. simpl in Hs. destruct_andb.
    by apply (shift_spec vm lb _ op Oadd Cminor.Oadd).
  - intros op n e1 e2 H1 H2 vm lb dest succ s Hs w Hvm Hlb Hd. simpl in Hs. destruct_andb.
    by apply (shift_spec vm lb _ op Osub Cminor.Osub).
  - intros op cmp e1 e2 H1 H2 vm lb dest succ s Hs w Hvm Hlb Hd. simpl in Hs. destruct_andb. apply binary_spec; try done.
    intros e m le v Hv. simpl in Hv |- *. destruct (sel_expr e m le e1) as [v1|]; [|done].
    destruct (sel_expr e m le e2) as [v2|]; [|done]. exists [v1; v2]. split; [done|].
    cbn in Hv. destruct (eval_cmp _ _ _ _) as [b|] eqn:Eb; [|done]. injection Hv as <-.
    rewrite translateComparison_ok. by apply TranslateCompareOp_ok.
  - assert (H : Forall expr_spec [CminorSel.Econst (Cminor.Ointconst 1)]).
    { rewrite Forall_cons, Forall_nil. split; [apply const_spec|done]. }
    split; [by eapply simple_cond_spec|]. by intros cc args [= <- <-].
  - assert (H : Forall expr_spec [CminorSel.Econst (Cminor.Ointconst 0)]).
    { rewrite Forall_cons, Forall_nil. split; [apply const_spec|done]. }
    split; [by eapply simple_cond_spec|]. by intros cc args [= <- <-].
  - intros c op cmp l r Hc Hl Hr. assert (H : Forall expr_spec [l; r]) by by rewrite !Forall_cons, Forall_nil.
    assert (Hargs : exists cc, TranslateCondition c = Some (cc, [l; r])).
    { destruct c; try done; cbn in Hc |- *; injection Hc as <- <- <- <-; by eexists. }
    destruct Hargs as [cc Hcc]. split; [by eapply simple_cond_spec|]. rewrite Hcc. by intros cc' args [= <- <-].
  - intros c [Hc Hargs]. assert (Hargs' : forall cc args, TranslateCondition (CminorSel.CondNot c) = Some (cc, args) ->
      Forall expr_spec args).
    { intros cc args H. cbn in H. destruct (TranslateCondition c) as [[cc' args']|]; [|done].
      injection H as <- <-. by eapply Hargs. }
    split; [|done]. intros vm lb ifso ifnot s Hs. revert Hs. intros Hs.
    assert (Hsome : is_Some (TranslateCondition c)).
    { simpl in Hs. destruct_andb. by eapply bool_decide_eq_true. }
    destruct Hsome as [[cc args] Hcc].
    apply (simple_cond_spec (CminorSel.CondNot c) (negateConditionCode cc) args); [cbn; by rewrite Hcc| |done].
    by apply (Hargs cc).
  - intros c1 c2 [H1 _] [H2 _]. split; [by apply compound_spec|done].
  - intros c1 c2 [H1 _] [H2 _]. split; [by apply compound_spec|done].
Qed.
End Generation.
