(* ===== verification/RtlGenStmt.v ===== *)
(** What RTL generation produces for statements: [tr_stmt] relates a statement
    to the graph between two nodes, and [TranslateStmt] establishes it. *)

From S2P Require Import Prelude Target Semantics Rtl RtlSem Structured Values CminorSem RtlGen RtlGenExpr.
From S2P Require Cminor CminorSel.
From Stdlib Require Import FunctionalExtensionality.

(** ** The code of statements *)

Section Relation.
  Context {M : Type} `{FO : FloatOps} `{LO : Layout} `{TS : TargetSemantics val M}.
  Context {VT : ValueTarget M} {darwin : bool} {PC : PseudoCalls val M darwin}.
  Context (C : gmap Z Rtl.Instruction) (vm LM : gmap string Z).
  Implicit Types (ex : list Z) (s : CminorSel.Stmt).

(** From [n] the code evaluates [args] into [rs] and arrives at [succ]; the
    other registers of variables keep their values. *)
Definition args_code (args : list CminorSel.Expr) (regs : list Z) (n succ : Z) : Prop :=
  forall e rs m vs, agree vm e rs -> mapM (sel_expr e m []) args = Some vs ->
  exists rs', rtc (steps_to (rtl_step C)) (n, rs, m) (succ, rs', m) /\ rs' <$> regs = vs /\
    forall x r, vm !! x = Some r -> r ∉ regs -> rs' r = rs r.

(** Registers that no variable is in. *)
Definition temps (regs : list Z) : Prop := forall x r, vm !! x = Some r -> r ∉ regs.

(** From [n] the code goes to [ifso] or to [ifnot]. *)
Definition cond_code (c : CminorSel.Condition) (n ifso ifnot : Z) : Prop :=
  forall e rs m b, agree vm e rs -> sel_cond e m [] c = Some b ->
  exists rs', tc (steps_to (rtl_step C)) (n, rs, m) (if b : bool then ifso else ifnot, rs', m) /\
    forall x r, vm !! x = Some r -> rs' r = rs r.

(** Arguments and callee of a call at [node]. *)
Definition call_code (f : CminorSel.Expr) (args : list CminorSel.Expr) (fn : Rtl.FunRef) (regs : list Z)
    (n node : Z) : Prop :=
  match direct_callee f with
  | Some x => f = CminorSel.Econst (Cminor.Oaddrsymbol x 0) /\ fn = Rtl.FunSymbol x /\ args_code args regs n node /\ temps regs
  | None => exists r, fn = Rtl.FunReg r /\ length regs = length args /\
      args_code (args ++ [f]) (regs ++ [r]) n node /\ temps (regs ++ [r])
  end.

Definition dest_ok (result : option string) (dest : Z) : Prop :=
  match result with Some x => vm !! x = Some dest | None => dest = 0 end.

(** The comparisons of a switch on [r], from [n] to the default at [nd]. *)
Fixpoint tr_cases (tr : CminorSel.Stmt -> Z -> Prop) (isLong : bool) (r : Z) (cases : list (Z * CminorSel.Stmt))
    (nd n : Z) : Prop :=
  match cases with
  | [] => n = nd
  | (v, s) :: cases =>
      exists ns n', (isLong || (i32 v =? v)) = true /\
        C !! n = Some (Icond (case_cond isLong v) [r] ns n') /\ tr s ns /\ tr_cases tr isLong r cases nd n'
  end.

(** The code from [n] executes [s] and arrives at [succ]; [ex] are the targets
    of exits, innermost last. *)
Fixpoint tr_stmt ex s (n succ : Z) {struct s} : Prop :=
  match s with
  | Sskip => n = succ
  | Sassign x a => exists r, vm !! x = Some r /\ args_code [a] [r] n succ
  | Sstore chunk addr a => exists regs r node,
      length regs = length addr.2 /\ args_code (addr.2 ++ [a]) (regs ++ [r]) n node /\ temps (regs ++ [r]) /\
      C !! node = Some (Istore chunk addr.1 regs r succ)
  | Scall result sig f args => exists fn regs node dest,
      call_code f args fn regs n node /\ dest_ok result dest /\
      C !! node = Some (Icall (default zero_sig sig) fn regs dest succ)
  | Stailcall sig f args => exists fn regs node,
      call_code f args fn regs n node /\ C !! node = Some (Itailcall (default zero_sig sig) fn regs)
  | Sbuiltin result b args => exists regs node dest,
      args_code args regs n node /\ temps regs /\ dest_ok result (default 0 dest) /\
      (is_Some dest <-> is_Some result) /\ C !! node = Some (Ibuiltin b regs dest succ)
  | Sseq s1 s2 => exists n', tr_stmt ex s1 n n' /\ tr_stmt ex s2 n' succ
  | Sifthenelse c s1 s2 => exists n1 n2,
      cond_code c n n1 n2 /\ tr_stmt ex s1 n1 succ /\ tr_stmt ex s2 n2 succ
  | Sloop s => exists n', C !! n = Some (Inop n') /\ tr_stmt ex s n' n
  | Sblock s => tr_stmt (ex ++ [succ]) s n succ
  | Sexit i =>
      match from_end ex i with
      | Some t => C !! n = Some (Inop t)
      | None => True
      end
  | Sswitch isLong a cases d => exists r n' nd,
      args_code [a] [r] n n' /\ temps [r] /\ tr_stmt ex d nd succ /\
      tr_cases (fun s ns => tr_stmt ex s ns succ) isLong r cases nd n'
  | Sreturn None => C !! n = Some (Ireturn None)
  | Sreturn (Some a) => exists r node, args_code [a] [r] n node /\ C !! node = Some (Ireturn (Some r))
  | Slabel l s => LM !! l = Some n /\ exists n', C !! n = Some (Inop n') /\ tr_stmt ex s n' succ
  | Sgoto l => exists n', LM !! l = Some n' /\ C !! n = Some (Inop n')
  end.

(** What the specifications of expressions give. *)
Lemma args_code_intro st lo hi args regs n succ :
  wf st -> vars st = vm -> letBindings st = [] -> top_reg st <= lo ->
  exprs_ok C vm [] lo hi args regs n succ -> args_code args regs n succ.
Proof using.
  intros w Hvm Hlb Hlo H e rs m vs He Hvs. destruct (H e [] rs m vs He) as (rs' & Hrun & Hd & Hf); [|done|].
  { intros i v Hi. unfold let_value in Hi. by destruct (i <? 0). }
  exists rs'. split; [done|]. split; [done|]. intros x r Hx Hr. apply Hf; [done|].
  rewrite <- Hvm in Hx. pose proof (wf_vars _ w x r Hx). lia.
Qed.

Lemma cond_code_intro st lo hi c n ifso ifnot :
  wf st -> vars st = vm -> letBindings st = [] -> top_reg st <= lo ->
  cond_ok C vm [] lo hi c n ifso ifnot -> cond_code c n ifso ifnot.
Proof using.
  intros w Hvm Hlb Hlo H e rs m b He Hb. destruct (H e [] rs m b He) as (rs' & Hrun & Hf); [|done|].
  { intros i v Hi. unfold let_value in Hi. by destruct (i <? 0). }
  exists rs'. split; [done|]. intros x r Hx. apply Hf. rewrite <- Hvm in Hx. pose proof (wf_vars _ w x r Hx). lia.
Qed.

Lemma temps_fresh st regs :
  wf st -> vars st = vm -> (forall r, r ∈ regs -> top_reg st <= r) -> temps regs.
Proof using.
  intros w Hvm Hr x r Hx Hin. rewrite <- Hvm in Hx. pose proof (wf_vars _ w x r Hx). specialize (Hr r Hin). lia.
Qed.
End Relation.

(** ** What RTL generation supports *)

(** Labels a statement defines. *)
Fixpoint stmt_labels (s : CminorSel.Stmt) : list string :=
  match s with
  | Sseq s1 s2 | Sifthenelse _ s1 s2 => stmt_labels s1 ++ stmt_labels s2
  | Sloop s | Sblock s => stmt_labels s
  | Sswitch _ _ cases d => concat (map (fun c => stmt_labels c.2) cases) ++ stmt_labels d
  | Slabel l s => l :: stmt_labels s
  | _ => []
  end.

Definition result_declared (xs : gset string) (result : option string) : bool :=
  match result with Some x => bool_decide (x ∈ xs) | None => true end.

(** A direct call has no offset from the symbol. *)
Definition callee_supported (xs : gset string) (f : CminorSel.Expr) : bool :=
  match f with
  | CminorSel.Econst (Cminor.Oaddrsymbol _ ofs) => ofs =? 0
  | f => supported xs f
  end.

(** Statements over the variables [xs], whose expressions are supported, and
    whose switches on [int] have [int] cases. *)
Fixpoint stmt_supported (xs : gset string) (s : CminorSel.Stmt) : bool :=
  match s with
  | Sassign x a => bool_decide (x ∈ xs) && supported xs a
  | Sstore _ addr a => mode_supported addr.1 && forallb (supported xs) addr.2 && supported xs a
  | Scall result _ f args => result_declared xs result && callee_supported xs f && forallb (supported xs) args
  | Stailcall _ f args => callee_supported xs f && forallb (supported xs) args
  | Sbuiltin result _ args => result_declared xs result && forallb (supported xs) args
  | Sseq s1 s2 => stmt_supported xs s1 && stmt_supported xs s2
  | Sifthenelse c s1 s2 => cond_supported xs c && stmt_supported xs s1 && stmt_supported xs s2
  | Sloop s | Sblock s | Slabel _ s => stmt_supported xs s
  | Sswitch isLong a cases d =>
      supported xs a && forallb (fun c => (isLong || (i32 c.1 =? c.1)) && stmt_supported xs c.2) cases &&
      stmt_supported xs d
  | Sreturn (Some a) => supported xs a
  | Sskip | Sexit _ | Sreturn None | Sgoto _ => true
  end.

(** ** Generation *)

Section Generation.
  Context {M : Type} `{FO : FloatOps} `{LO : Layout} `{TS : TargetSemantics val M}.
  Context {VT : ValueTarget M} {darwin : bool} {PC : PseudoCalls val M darwin}.

(** The state a statement with the labels [ls] is translated in. *)
Record ready (vm : gmap string Z) (ex : list Z) (ls : gset string) (st : Translator) : Prop := {
  ready_wf : wf st;
  ready_vars : vars st = vm;
  ready_lets : letBindings st = [];
  ready_targets : targets st = ex;
  ready_pending : pending ls st
}.

Lemma ready_ext vm ex ls ls' st st' : ready vm ex ls st -> wf st' -> ext ls' st st' -> ls ## ls' -> ready vm ex ls st'.
Proof using.
  intros [w Hv Hl Ht Hp] w' E Hd. constructor; [done|rewrite (ext_vars _ _ _ E); done| | |].
  - by rewrite (ext_lets _ _ _ E).
  - by rewrite (ext_targets _ _ _ E).
  - by apply (pending_ext ls ls' st).
Qed.

Lemma ready_ext0 vm ex ls st st' : ready vm ex ls st -> wf st' -> ext ∅ st st' -> ready vm ex ls st'.
Proof using. intros. eapply ready_ext; [done|done|done|set_solver]. Qed.

Lemma ready_sub vm ex ls ls' st : ready vm ex ls st -> ls' ⊆ ls -> ready vm ex ls' st.
Proof using. intros [w Hv Hl Ht Hp] Hs. constructor; try done. intros l n Hin. apply Hp. by apply Hs. Qed.

Lemma expr_specs args : Forall expr_spec args.
Proof using VT. apply List.Forall_forall. intros a _. apply translate_spec. Qed.

(** One expression, into any register. *)
Lemma assign_spec vm ex ls st a dest node :
  ready vm ex ls st -> supported (dom vm) a = true -> dest < top_reg st ->
  spec ∅ (TranslateExpr a dest node) st (fun n st' =>
    forall C, nodes st' ⊆ C -> args_code C vm [a] [dest] n node).
Proof using VT.
  intros R Hs Hd. destruct R as [w Hv Hl _ _]. eapply spec_conseq; [by apply translate_spec|].
  intros n st' _ _ HQ C HC. eapply args_code_intro; [exact w|done|done|reflexivity|].
  apply exprs_ok_single. by apply HQ.
Qed.

(** Arguments, into registers taken since [st0]. *)
Lemma args_spec vm ex ls st0 st args regs node :
  ready vm ex ls st0 -> wf st -> ext ∅ st0 st -> forallb (supported (dom vm)) args = true ->
  length regs = length args -> NoDup regs -> (forall r, r ∈ regs -> top_reg st0 <= r < top_reg st) ->
  spec ∅ (TranslateExprs args regs node) st (fun n st' =>
    (forall C, nodes st' ⊆ C -> args_code C vm args regs n node) /\ temps vm regs).
Proof using VT.
  intros R w E Hs Hlen Hnd Hregs. pose proof (ready_ext0 _ _ _ _ _ R w E) as [_ Hv Hl _ _]. destruct R as [w0 Hv0 Hl0 _ _].
  eapply spec_conseq; [apply (list_spec vm []); try done|].
  - apply expr_specs.
  - by apply forallb_Forall.
  - intros r Hr. specialize (Hregs r Hr). split; [lia|]. intros Hu.
    pose proof (in_use_below vm [] st0 r w0 Hv0 Hl0 Hu). lia.
  - intros n st' _ _ HQ. split.
    + intros C HC. eapply args_code_intro; [exact w|done|done|reflexivity|by apply HQ].
    + apply (temps_fresh vm st0); [done|done|]. intros r Hr. specialize (Hregs r Hr). lia.
Qed.

Lemma translate_list_snoc args regs a r node :
  length regs = length args ->
  translate_list TranslateExpr (args ++ [a]) (regs ++ [r]) node =
  (entry ← TranslateExpr a r node; TranslateExprs args regs entry).
Proof using.
  revert regs. induction args as [|a' args IH]; intros [|r' regs] Hlen; try done.
  - cbn. apply functional_extensionality. intros s. unfold mbind, gen_bind, mret, gen_ret.
    by destruct (TranslateExpr a r node s).
  - cbn [translate_list app]. rewrite IH by (cbn in Hlen; lia). apply functional_extensionality. intros s.
    unfold mbind, gen_bind. destruct (TranslateExpr a r node s) as [n s1]. reflexivity.
Qed.

Lemma callee_supported_indirect xs f : direct_callee f = None -> callee_supported xs f = true -> supported xs f = true.
Proof using. destruct f as [|c| | | | | | | | |]; [done|by destruct c|done..]. Qed.

Lemma direct_callee_zero xs f x :
  direct_callee f = Some x -> callee_supported xs f = true -> f = CminorSel.Econst (Cminor.Oaddrsymbol x 0).
Proof using.
  destruct f as [|c| | | | | | | | |]; try done. destruct c as [| | | |s ofs|]; try done.
  cbn. by intros [= <-] ->%Z.eqb_eq.
Qed.

Lemma fresh_NoDup_snoc lo n r : r < lo -> NoDup (seqZ lo n ++ [r]).
Proof using.
  intros Hr. apply NoDup_app. split; [apply NoDup_seqZ|]. split; [|apply NoDup_singleton].
  intros x Hx%elem_of_seqZ. rewrite list_elem_of_singleton. lia.
Qed.

(** The callee of a call and its arguments. *)
Lemma callee_spec vm ex ls st0 st (mk : Rtl.FunRef -> Rtl.Instruction) f args regs r :
  ready vm ex ls st0 -> wf st -> ext ∅ st0 st -> callee_supported (dom vm) f = true ->
  forallb (supported (dom vm)) args = true -> length regs = length args -> NoDup (regs ++ [r]) ->
  (forall r', r' ∈ regs ++ [r] -> top_reg st0 <= r' < top_reg st) ->
  spec ∅ (node ← EmitInstr (mk (Rtl.FunReg r));
          match direct_callee f with
          | Some x => AddInstr node (mk (Rtl.FunSymbol x));; TranslateExprs args regs node
          | None => funcEntry ← TranslateExpr f r node; TranslateExprs args regs funcEntry
          end) st (fun n st' => forall C, nodes st' ⊆ C ->
    exists fn node, call_code C vm f args fn regs n node /\ C !! node = Some (mk fn)).
Proof using VT.
  intros R w E Hf Hs Hlen Hnd Hregs. destruct (direct_callee f) as [x|] eqn:Ef.
  - rewrite emit_again. apply NoDup_app in Hnd as [Hnd _].
    eapply spec_bind0; [done|by apply spec_EmitInstr|]. intros node s1 w1 E1 (Hnode & _).
    assert (E01 : ext ∅ st0 s1) by (apply (ext_trans0 _ st); [done|done|done]). open_ext E1.
    eapply spec_conseq; [apply (args_spec vm ex ls st0); try done|].
    { intros r' Hr'. specialize (Hregs r' (proj2 (elem_of_app _ _ _) (or_introl Hr'))). lia. }
    intros n s2 w2 E2 [HQ Ht] _ _ C HC. exists (Rtl.FunSymbol x), node. split.
    + unfold call_code. rewrite Ef. split; [by eapply direct_callee_zero|]. split; [done|]. split; [by apply HQ|done].
    + eapply lookup_weaken; [exact Hnode|]. etrans; [apply E2|done].
  - eapply spec_bind0; [done|by apply spec_EmitInstr|]. intros node s1 w1 E1 (Hnode & _).
    assert (E01 : ext ∅ st0 s1) by (apply (ext_trans0 _ st); [done|done|done]). open_ext E1.
    rewrite <- translate_list_snoc by done.
    eapply spec_conseq; [apply (args_spec vm ex ls st0 s1 (args ++ [f])); try done|].
    + rewrite forallb_app, Hs. cbn. by rewrite callee_supported_indirect.
    + rewrite !length_app. cbn. lia.
    + intros r' Hr'. specialize (Hregs r' Hr'). lia.
    + intros n s2 w2 E2 [HQ Ht] _ _ C HC. exists (Rtl.FunReg r), node. split.
      * unfold call_code. rewrite Ef. exists r. split; [done|]. split; [done|]. split; [by apply HQ|done].
      * eapply lookup_weaken; [exact Hnode|]. etrans; [apply E2|done].
Qed.

Lemma result_reg_spec vm ex ls st result :
  ready vm ex ls st -> result_declared (dom vm) result = true ->
  spec ∅ (result_reg result) st (fun dest st' =>
    st' = st /\ dest_ok vm result (default 0 dest) /\ (is_Some dest <-> is_Some result)).
Proof using.
  intros [w Hv _ _ _] Hr. destruct result as [x|]; cbn [result_reg].
  - cbn in Hr. apply bool_decide_eq_true, elem_of_dom in Hr as [r Hr].
    eapply spec_bind0; [done|apply (spec_MapVar x r); [done|by rewrite Hv]|]. intros r' s1 _ _ (-> & ->).
    apply spec_ret; [done|]. intros _ _. split; [done|]. split; [done|]. by split.
  - apply spec_ret; [done|]. split; [done|]. split; [done|]. by split.
Qed.
End Generation.

(** ** Statements *)

Section Statements.
  Context {M : Type} `{FO : FloatOps} `{LO : Layout} `{TS : TargetSemantics val M}.
  Context {VT : ValueTarget M} {darwin : bool} {PC : PseudoCalls val M darwin}.

Local Abbreviation label_set s := (list_to_set (stmt_labels s) : gset string).

Definition stmt_spec (s : CminorSel.Stmt) : Prop := forall vm ex succ st,
  stmt_supported (dom vm) s = true -> NoDup (stmt_labels s) -> ready vm ex (label_set s) st ->
  spec (label_set s) (TranslateStmt s succ) st (fun n st' =>
    forall C LM, nodes st' ⊆ C -> labels st' ⊆ LM -> tr_stmt C vm LM ex s n succ).

Lemma assign_stmt_spec x a : stmt_spec (Sassign x a).
Proof using VT.
  intros vm ex succ st Hs _ R. simpl in Hs. destruct_andb. destruct R as [w Hv Hl Ht Hp].
  match goal with H : bool_decide _ = true |- _ => apply bool_decide_eq_true, elem_of_dom in H as [r Hr] end.
  cbn [TranslateStmt]. eapply spec_bind0; [done|apply (spec_MapVar x r); [done|by rewrite Hv]|].
  intros r' s1 _ _ (-> & ->). eapply spec_conseq.
  - apply (assign_spec vm ex ∅ st a r); [by constructor|done|]. rewrite <- Hv in Hr. apply (wf_vars _ w x r Hr).
  - intros n st' _ _ HQ _ _ C LM HC _. exists r. split; [done|by apply HQ].
Qed.

Lemma store_stmt_spec chunk addr a : stmt_spec (Sstore chunk addr a).
Proof using VT.
  intros vm ex succ st Hs _ R. simpl in Hs. destruct_andb. pose proof (ready_wf _ _ _ _ R) as w.
  cbn [TranslateStmt]. unfold translateStore.
  eapply spec_bind0; [done|by apply spec_Fresh|]. intros r s1 w1 E1 (-> & Hr1 & _). open_ext E1.
  eapply spec_bind0; [done|by apply spec_FreshN|]. intros rs s2 w2 E2 (-> & Hr2 & _). open_ext E2.
  eapply spec_bind0; [done|by apply spec_EmitInstr|]. intros node s3 w3 E3 (Hnode & _). open_ext E3.
  assert (Hlen : length (seqZ (top_reg s1) (Z.of_nat (length addr.2))) = length addr.2) by (rewrite length_seqZ; lia).
  rewrite <- translate_list_snoc by done. eapply spec_conseq.
  - eapply (args_spec vm ex _ st s3 (addr.2 ++ [a])); [exact R|done| | | | |].
    + apply (ext_trans0 _ s1); [done|done|]. by apply (ext_trans0 _ s2).
    + rewrite forallb_app. simpl. by rewrite andb_true_r, andb_true_iff.
    + rewrite !length_app, Hlen. done.
    + apply fresh_NoDup_snoc. lia.
    + intros r. rewrite elem_of_app, elem_of_seqZ, list_elem_of_singleton. lia.
  - intros n s4 w4 E4 [HQ Ht] _ _ _ _ _ _ C LM HC _. open_ext E4. exists (seqZ (top_reg s1) (Z.of_nat (length addr.2))), (top_reg st), node.
    split; [done|]. split; [by apply HQ|]. split; [done|].
    rewrite TranslateAddressingMode_ok in Hnode by done. eapply lookup_weaken; [exact Hnode|by etrans].
Qed.

Lemma call_stmt_spec result sig f args : stmt_spec (Scall result sig f args).
Proof using VT.
  intros vm ex succ st Hs _ R. simpl in Hs. destruct_andb. pose proof (ready_wf _ _ _ _ R) as w.
  cbn [TranslateStmt]. unfold translateCall.
  eapply spec_bind0; [done|by apply spec_Fresh|]. intros r s1 w1 E1 (-> & Hr1 & _). open_ext E1.
  eapply spec_bind0; [done|by apply spec_FreshN|]. intros rs s2 w2 E2 (-> & Hr2 & _). open_ext E2.
  assert (E02 : ext ∅ st s2) by by apply (ext_trans0 _ s1).
  eapply spec_bind0; [done|eapply result_reg_spec; [by eapply (ready_ext0 _ _ _ st)|done]|].
  intros dest s3 w3 E3 (-> & Hdest & _).
  eapply spec_conseq.
  - apply (callee_spec vm ex _ st s2 (fun fn => Icall (default zero_sig sig) fn (seqZ (top_reg s1) (Z.of_nat (length args)))
      (default 0 dest) succ) f args (seqZ (top_reg s1) (Z.of_nat (length args))) (top_reg st) R w2 E02); try done.
    + rewrite length_seqZ. lia.
    + apply fresh_NoDup_snoc. lia.
    + intros r. rewrite elem_of_app, elem_of_seqZ, list_elem_of_singleton. lia.
  - intros n s4 w4 E4 HQ _ _ _ _ _ _ C LM HC _. destruct (HQ C HC) as (fn & node & Hcall & Hnode).
    by exists fn, (seqZ (top_reg s1) (Z.of_nat (length args))), node, (default 0 dest).
Qed.

Lemma tailcall_stmt_spec sig f args : stmt_spec (Stailcall sig f args).
Proof using VT.
  intros vm ex succ st Hs _ R. simpl in Hs. destruct_andb. pose proof (ready_wf _ _ _ _ R) as w.
  cbn [TranslateStmt]. unfold translateTailcall.
  eapply spec_bind0; [done|by apply spec_Fresh|]. intros r s1 w1 E1 (-> & Hr1 & _). open_ext E1.
  eapply spec_bind0; [done|by apply spec_FreshN|]. intros rs s2 w2 E2 (-> & Hr2 & _). open_ext E2.
  assert (E02 : ext ∅ st s2) by by apply (ext_trans0 _ s1). eapply spec_conseq.
  - apply (callee_spec vm ex _ st s2 (fun fn => Itailcall (default zero_sig sig) fn (seqZ (top_reg s1) (Z.of_nat (length args))))
      f args (seqZ (top_reg s1) (Z.of_nat (length args))) (top_reg st) R w2 E02); try done.
    + rewrite length_seqZ. lia.
    + apply fresh_NoDup_snoc. lia.
    + intros r. rewrite elem_of_app, elem_of_seqZ, list_elem_of_singleton. lia.
  - intros n s4 w4 E4 HQ _ _ _ _ C LM HC _. destruct (HQ C HC) as (fn & node & Hcall & Hnode).
    by exists fn, (seqZ (top_reg s1) (Z.of_nat (length args))), node.
Qed.

Lemma builtin_stmt_spec result b args : stmt_spec (Sbuiltin result b args).
Proof using VT.
  intros vm ex succ st Hs _ R. simpl in Hs. destruct_andb. pose proof (ready_wf _ _ _ _ R) as w.
  cbn [TranslateStmt]. unfold translateBuiltin.
  eapply spec_bind0; [done|by apply spec_FreshN|]. intros rs s1 w1 E1 (-> & Hr1 & _). open_ext E1.
  eapply spec_bind0; [done|eapply result_reg_spec; [by eapply (ready_ext0 _ _ _ st)|done]|].
  intros dest s2 w2 E2 (-> & Hdest & Hsome).
  eapply spec_bind0; [done|by apply spec_EmitInstr|]. intros node s3 w3 E3 (Hnode & _). open_ext E3.
  eapply spec_conseq.
  - eapply (args_spec vm ex _ st s3 args); [exact R|done|by apply (ext_trans0 _ s1)|done| | |].
    + rewrite length_seqZ. lia.
    + apply NoDup_seqZ.
    + intros r. rewrite elem_of_seqZ. lia.
  - intros n s4 w4 E4 [HQ Ht] _ _ _ _ _ _ C LM HC _. open_ext E4.
    exists (seqZ (top_reg st) (Z.of_nat (length args))), node, dest.
    split; [by apply HQ|]. split; [done|]. split; [done|]. split; [done|].
    eapply lookup_weaken; [exact Hnode|by etrans].
Qed.

Lemma return_stmt_spec value : stmt_spec (Sreturn value).
Proof using VT.
  intros vm ex succ st Hs _ R. pose proof (ready_wf _ _ _ _ R) as w. cbn [TranslateStmt]. destruct value as [a|].
  - unfold translateReturn. simpl in Hs.
    eapply spec_bind0; [done|by apply spec_Fresh|]. intros r s1 w1 E1 (-> & Hr1 & _). open_ext E1.
    eapply spec_bind0; [done|by apply spec_EmitInstr|]. intros node s2 w2 E2 (Hnode & _). open_ext E2.
    eapply spec_conseq.
    + eapply (assign_spec vm ex); [|done|lia]. eapply ready_ext0; [exact R|done|by apply (ext_trans0 _ s1)].
    + intros n s3 w3 E3 HQ _ _ _ _ C LM HC _. open_ext E3. exists (top_reg st), node. split; [by apply HQ|].
      eapply lookup_weaken; [exact Hnode|by etrans].
  - eapply spec_conseq; [by apply spec_EmitInstr|]. intros n s1 _ _ (Hn & _) C LM HC _. by eapply lookup_weaken.
Qed.

(** *** Control *)

Lemma disjoint_labels (l1 l2 : list string) :
  NoDup (l1 ++ l2) -> NoDup l1 /\ NoDup l2 /\ (list_to_set l1 : gset string) ## list_to_set l2.
Proof using.
  intros (H1 & H12 & H2)%NoDup_app. split; [done|]. split; [done|]. intros x. rewrite !elem_of_list_to_set. apply H12.
Qed.

Lemma seq_stmt_spec s1 s2 : stmt_spec s1 -> stmt_spec s2 -> stmt_spec (Sseq s1 s2).
Proof using.
  intros H1 H2 vm ex succ st Hs Hnd R. simpl in Hs. destruct_andb. apply disjoint_labels in Hnd as (Hn1 & Hn2 & Hd).
  pose proof (ready_wf _ _ _ _ R) as w. cbn [TranslateStmt].
  eapply spec_bind; [done|apply (H2 vm ex); [done|done|]| |].
  - eapply ready_sub; [exact R|]. cbn. rewrite list_to_set_app. set_solver.
  - intros n2 st1 w1 E1 HQ2. eapply spec_conseq; [apply (H1 vm ex); [done|done|]|].
    + eapply ready_ext; [|exact w1|exact E1|done]. eapply ready_sub; [exact R|]. cbn. rewrite list_to_set_app. set_solver.
    + intros n st' w' E HQ1 _ _ C LM HC HL. exists n2. split; [by apply HQ1|]. apply HQ2.
      * etrans; [apply E|done].
      * etrans; [apply E|done].
  - cbn. rewrite list_to_set_app. set_solver.
Qed.

Lemma if_stmt_spec c s1 s2 : stmt_spec s1 -> stmt_spec s2 -> stmt_spec (Sifthenelse c s1 s2).
Proof using VT.
  intros H1 H2 vm ex succ st Hs Hnd R. simpl in Hs. destruct_andb. apply disjoint_labels in Hnd as (Hn1 & Hn2 & Hd).
  pose proof (ready_wf _ _ _ _ R) as w. cbn [TranslateStmt].
  eapply (spec_bind _ (label_set s2)); [done|apply (H1 vm ex); [done|done|]| |].
  - eapply ready_sub; [exact R|]. cbn. rewrite list_to_set_app. set_solver.
  - intros n1 st1 w1 E1 HQ1. eapply (spec_bind _ ∅); [done|apply (H2 vm ex); [done|done|]| |].
    + eapply ready_ext; [|exact w1|exact E1|by symmetry]. eapply ready_sub; [exact R|]. cbn. rewrite list_to_set_app. set_solver.
    + intros n2 st2 w2 E2 HQ2. destruct R as [_ Hv Hl _ _]. open_ext E1. open_ext E2.
      assert (Hv2 : vars st2 = vm) by congruence. assert (Hl2 : letBindings st2 = []) by congruence.
      eapply spec_conseq; [apply translate_spec; done|].
      intros n st' w' E HQ _ _ _ _ C LM HC HL. exists n1, n2. split; [|split].
      * eapply cond_code_intro; [exact w2|done|done|reflexivity|by apply HQ].
      * apply HQ1; (etrans; [|done]; etrans; [apply E2|apply E]).
      * apply HQ2; (etrans; [apply E|done]).
    + set_solver.
  - cbn. rewrite list_to_set_app. set_solver.
Qed.

Lemma loop_stmt_spec s : stmt_spec s -> stmt_spec (Sloop s).
Proof using.
  intros H vm ex succ st Hs Hnd R n st'. pose proof (ready_wf _ _ _ _ R) as w. cbn [TranslateStmt].
  unfold mbind, gen_bind at 1. destruct (AllocNode st) as [header st1] eqn:X1.
  destruct (spec_AllocNode st w header st1 X1) as (w1 & E1 & -> & Hn1 & Hnodes & Hlabels).
  unfold mbind, gen_bind. destruct (TranslateStmt s _ st1) as [nb st2] eqn:X2.
  assert (R1 : ready vm ex (label_set s) st1) by (by eapply ready_ext0).
  destruct (H vm ex _ st1 Hs Hnd R1 nb st2 X2) as (w2 & E2 & HQ). open_ext E2.
  destruct (ext_reserved (label_set s) st1 st2 (top_node st)) as [Hd Hnl]; [lia| | |done|].
  { rewrite Hnodes. intros Hin. pose proof (wf_nodes _ w _ Hin). lia. }
  { intros l Hl. rewrite Hlabels in Hl. pose proof (wf_labels _ w _ _ Hl). lia. }
  destruct (AddInstr (top_node st) (Inop nb) st2) as [u st3] eqn:X3. intros [= <- <-].
  assert (E02 : ext (label_set s) st st2).
  { apply (ext_mono (∅ ∪ label_set s)); [set_solver|]. by apply (ext_trans _ _ _ st1). }
  assert (Hlt : top_node st < top_node st2) by lia.
  destruct (spec_fill (label_set s) st st2 _ (Inop nb) u st3 w2 E02 Hlt Hd) as (w3 & E3 & Hnode & Hsub & Hl3);
    [left; split; [lia|done]|done|].
  split; [done|]. split; [done|]. intros C LM HC HL. exists nb. split; [by eapply lookup_weaken|]. apply HQ.
  - by etrans.
  - by rewrite <- Hl3.
Qed.

Lemma block_stmt_spec s : stmt_spec s -> stmt_spec (Sblock s).
Proof using.
  intros H vm ex succ st Hs Hnd R n st'. cbn [TranslateStmt]. unfold mbind, gen_bind, PushExit, PopExit, mret, gen_ret.
  destruct (TranslateStmt s succ _) as [n1 st1] eqn:X1. intros [= <- <-].
  assert (Ht := ready_targets _ _ _ _ R). assert (R1 : ready vm (ex ++ [succ]) (label_set s)
    (mkTranslator (cfg st) (regs st) (targets st ++ [succ]) (letBindings st))).
  { destruct R as [w Hv Hl _ Hp]. constructor; try done; cbn; [|by rewrite Ht]. by destruct w. }
  destruct (H vm (ex ++ [succ]) succ _ Hs Hnd R1 _ _ X1) as (w1 & E1 & HQ).
  assert (Ht1 := ext_targets _ _ _ E1). cbn in Ht1. rewrite Ht1, length_app. cbn [length].
  rewrite take_app_le by lia. rewrite take_ge by lia. split; [|split; [|done]].
  - by destruct w1.
  - destruct E1. by constructor; cbn in *.
Qed.

Lemma exit_stmt_spec i : stmt_spec (Sexit i).
Proof using.
  intros vm ex succ st _ _ R. pose proof (ready_wf _ _ _ _ R) as w. pose proof (ready_targets _ _ _ _ R) as Ht.
  intros n st'. cbn [TranslateStmt]. unfold GetExit, get, mbind, gen_bind, mret, gen_ret. rewrite Ht. cbn [tr_stmt].
  destruct (from_end ex i) as [t|]; intros X.
  - destruct (spec_EmitInstr _ st w _ _ X) as (w' & E & Hn & _). split; [done|]. split; [by apply (ext_mono ∅)|].
    intros C LM HC _. by eapply lookup_weaken.
  - destruct (spec_AllocNode st w _ _ X) as (w' & E & _). split; [done|]. split; [by apply (ext_mono ∅)|done].
Qed.

Lemma goto_stmt_spec l : stmt_spec (Sgoto l).
Proof using.
  intros vm ex succ st _ _ R. pose proof (ready_wf _ _ _ _ R) as w. cbn [TranslateStmt].
  eapply (spec_bind ∅ ∅); [done|by apply spec_GetOrCreateLabel| |set_solver]. intros nl st1 w1 E1 [Hnl _].
  eapply spec_conseq; [by apply spec_EmitInstr|]. intros n st' w' E (Hn & Hl & _) _ _ C LM HC HL. exists nl. split.
  - eapply lookup_weaken; [|exact HL]. by rewrite Hl.
  - by eapply lookup_weaken.
Qed.

Lemma label_stmt_spec l s : stmt_spec s -> stmt_spec (Slabel l s).
Proof using.
  intros H vm ex succ st Hs Hnd R n st'. pose proof (ready_wf _ _ _ _ R) as w. cbn [TranslateStmt].
  apply NoDup_cons in Hnd as [Hfresh Hnd]. simpl in Hs.
  unfold mbind, gen_bind at 1. destruct (GetOrCreateLabel l st) as [nl st1] eqn:X1.
  destruct (spec_GetOrCreateLabel l st w nl st1 X1) as (w1 & E1 & Hnl & Hnodes).
  unfold mbind, gen_bind. destruct (TranslateStmt s _ st1) as [nb st2] eqn:X2.
  assert (R1 : ready vm ex (label_set (Slabel l s)) st1) by (by eapply ready_ext0).
  assert (R1s : ready vm ex (label_set s) st1) by (eapply ready_sub; [exact R1|cbn; set_solver]).
  destruct (H vm ex _ st1 Hs Hnd R1s nb st2 X2) as (w2 & E2 & HQ). open_ext E2.
  assert (R2 : ready vm ex {[l]} st2).
  { eapply ready_ext; [|exact w2|exact E2|].
    - eapply ready_sub; [exact R1|cbn; set_solver].
    - apply disjoint_singleton_l. by rewrite elem_of_list_to_set. }
  assert (Hnl2 : labels st2 !! l = Some nl) by (eapply lookup_weaken; [exact Hnl|apply E2]).
  assert (Hd : nl ∉ dom (nodes st2)).
  { apply (ready_pending _ _ _ _ R2 l); [set_solver|done]. }
  destruct (AddInstr nl (Inop nb) st2) as [u st3] eqn:X3. intros [= <- <-].
  assert (E02 : ext (label_set (Slabel l s)) st st2).
  { apply (ext_mono (∅ ∪ label_set s)); [cbn; set_solver|]. by apply (ext_trans _ _ _ st1). }
  destruct (spec_fill _ st st2 _ (Inop nb) u st3 w2 E02 (wf_labels _ w2 _ _ Hnl2) Hd) as (w3 & E3 & Hnode & Hsub & Hl3);
    [right; exists l; split; [cbn; set_solver|done]|done|].
  split; [done|]. split; [done|]. intros C LM HC HL. rewrite Hl3 in HL. split; [by eapply lookup_weaken|].
  exists nb. split; [by eapply lookup_weaken|]. apply HQ; [by etrans|done].
Qed.

(** The cases of a switch, the last first. *)
Lemma cases_spec vm ex isLong r cases nd succ st :
  Forall (fun c => stmt_spec c.2) cases ->
  forallb (fun c => (isLong || (i32 c.1 =? c.1)) && stmt_supported (dom vm) c.2) cases = true ->
  NoDup (concat (map (fun c => stmt_labels c.2) cases)) ->
  ready vm ex (list_to_set (concat (map (fun c => stmt_labels c.2) cases))) st ->
  spec (list_to_set (concat (map (fun c => stmt_labels c.2) cases)))
    (translate_cases TranslateStmt isLong r cases succ nd) st (fun n st' =>
      forall C LM, nodes st' ⊆ C -> labels st' ⊆ LM ->
      tr_cases C (fun s ns => tr_stmt C vm LM ex s ns succ) isLong r cases nd n).
Proof using.
  intros Hcases. revert st. induction Hcases as [|[v s] cases Hs Hcases IH]; intros st Hsup Hnd R;
    pose proof (ready_wf _ _ _ _ R) as w.
  - cbn. by apply spec_ret.
  - cbn [forallb map concat fst snd] in *. destruct_andb. apply disjoint_labels in Hnd as (Hn1 & Hn2 & Hd).
    cbn [translate_cases]. rewrite list_to_set_app_L in R |- *.
    eapply (spec_bind _ (label_set s)); [done|apply IH; [done|done|]| |set_solver].
    { eapply ready_sub; [exact R|set_solver]. }
    intros n1 st1 w1 E1 HQ1. eapply (spec_bind _ ∅); [done|apply (Hs vm ex); [done|done|]| |set_solver].
    { eapply ready_ext; [|exact w1|exact E1|done]. eapply ready_sub; [exact R|set_solver]. }
    intros n2 st2 w2 E2 HQ2. eapply spec_conseq; [by apply spec_EmitInstr|].
    intros n st' w' E (Hn & Hl & _) _ _ _ _ C LM HC HL. exists n2, n1. split; [done|]. split; [by eapply lookup_weaken|]. split.
    + apply HQ2; (etrans; [apply E|done]).
    + apply HQ1; (etrans; [|done]; etrans; [apply E2|apply E]).
Qed.

Lemma switch_stmt_spec isLong a cases d :
  Forall (fun c => stmt_spec c.2) cases -> stmt_spec d -> stmt_spec (Sswitch isLong a cases d).
Proof using VT.
  intros Hcases Hd vm ex succ st Hs Hnd R. pose proof (ready_wf _ _ _ _ R) as w. simpl in Hs. destruct_andb.
  cbn [stmt_labels] in Hnd. apply disjoint_labels in Hnd as (Hn1 & Hn2 & Hdis).
  cbn [TranslateStmt stmt_labels] in *. rewrite list_to_set_app_L in R |- *.
  eapply (spec_bind ∅); [done|by apply spec_Fresh| |apply union_least; [set_solver|reflexivity]].
  intros r st0 w0 E0 (-> & Hr & _). assert (R0 := ready_ext0 _ _ _ _ _ R w0 E0). open_ext E0.
  eapply (spec_bind (label_set d)); [done|apply (Hd vm ex); [done|done|]| |].
  { eapply ready_sub; [exact R0|set_solver]. }
  2: { apply union_least; [set_solver|]. apply union_subseteq_l. }
  intros nd st1 w1 E1 HQd. open_ext E1. eapply (spec_bind _ ∅); [done|apply (cases_spec vm ex); try done| |set_solver].
  { eapply ready_ext; [|exact w1|exact E1|exact Hdis]. eapply ready_sub; [exact R0|set_solver]. }
  intros nc st2 w2 E2 HQc. open_ext E2.
  eapply spec_conseq; [apply (assign_spec vm ex ∅)|].
  - destruct R as [_ Hv Hl Ht _]. constructor; [done|congruence|congruence| |by intros l n Hl'].
    by rewrite (ext_targets _ _ _ E2), (ext_targets _ _ _ E1), (ext_targets _ _ _ E0).
  - done.
  - lia.
  - intros n st' w' E HQ _ _ _ _ _ _ C LM HC HL. exists (top_reg st), nc, nd. split; [by apply HQ|]. split; [|split].
    + destruct R as [_ Hv _ _ _]. apply (temps_fresh vm st); [done|done|]. intros r. rewrite list_elem_of_singleton. lia.
    + apply HQd; (etrans; [|done]; etrans; [apply E2|apply E]).
    + apply HQc; (etrans; [apply E|done]).
Qed.

Theorem stmt_spec_all s : stmt_spec s.
Proof using VT.
  induction s using Stmt_nested_ind.
  - intros vm ex succ st _ _ R. cbn [TranslateStmt]. apply spec_ret; [apply R|done].
  - apply assign_stmt_spec.
  - apply store_stmt_spec.
  - apply call_stmt_spec.
  - apply tailcall_stmt_spec.
  - apply builtin_stmt_spec.
  - by apply seq_stmt_spec.
  - by apply if_stmt_spec.
  - by apply loop_stmt_spec.
  - by apply block_stmt_spec.
  - apply exit_stmt_spec.
  - by apply switch_stmt_spec.
  - apply return_stmt_spec.
  - by apply label_stmt_spec.
  - apply goto_stmt_spec.
Qed.
End Statements.
