(* ===== verification/RtlGenPass.v ===== *)
(** The graph that RTL generation produces executes the function: a
    simulation of CminorSel statements, with their continuations, by RTL.
    RTL generation: the start of a function, and the theorems of the pass. *)

From S2P Require Import Prelude Target IntOps Semantics Rtl RtlSem Structured Values CminorSem.
From S2P Require Import RtlGen RtlGenExpr RtlGenStmt ValuesExample.
From S2P Require Cminor CminorSel.

Section Proof.
  Context {M : Type} `{FO : FloatOps} `{LO : Layout} `{TS : TargetSemantics val M}.
  Context {VT : ValueTarget M} {darwin : bool} {PC : PseudoCalls val M darwin}.
  Context (C : gmap Z Rtl.Instruction) (vm LM : gmap string Z) (body : CminorSel.Stmt) (entry exit : Z).
  Hypothesis vm_inj : forall x y r, vm !! x = Some r -> vm !! y = Some r -> x = y.
  Hypothesis vm_pos : forall x r, vm !! x = Some r -> 0 < r.
  Hypothesis body_code : tr_stmt C vm LM [] body entry exit.
  Hypothesis exit_code : C !! exit = Some (Ireturn None).

  Local Abbreviation stmt := CminorSel.Stmt.
  Local Abbreviation cont := (list (frame Sig string CminorSel.Expr CminorSel.Condition (AddressingMode * list CminorSel.Expr))).
  Local Abbreviation src_state := (stmt * cont * gmap string val * M)%type.
  Local Abbreviation step1 := (struct_step cminorsel_language body).
  Local Abbreviation step2 := (rtl_step C).

(** The code from [n] does the rest of the work. *)
Fixpoint tr_cont (ex : list Z) (k : cont) (n : Z) : Prop :=
  match k with
  | [] => ex = [] /\ C !! n = Some (Ireturn None)
  | Fseq s :: k => exists n', tr_stmt C vm LM ex s n n' /\ tr_cont ex k n'
  | Fblock :: k => exists ex', ex = ex' ++ [n] /\ tr_cont ex' k n
  end.

Definition match_states (st : src_state) (t : rtl_state) : Prop :=
  let '(s, k, e, m) := st in
  let '(n, rs, m') := t in
  exists ex n', m' = m /\ agree vm e rs /\ tr_stmt C vm LM ex s n n' /\ tr_cont ex k n'.

(** *** Work left *)

Fixpoint stmt_size (s : stmt) : nat :=
  match s with
  | Sskip => 1
  | Sseq s1 s2 | Sifthenelse _ s1 s2 => stmt_size s1 + stmt_size s2 + 2
  | Sloop s | Sblock s | Slabel _ s => stmt_size s + 2
  | Sswitch _ _ cases d => list_sum (map (fun c => stmt_size c.2) cases) + stmt_size d + 2
  | _ => 2
  end.

Fixpoint cont_size (k : cont) : nat :=
  match k with
  | [] => 0
  | Fseq s :: k => stmt_size s + 1 + cont_size k
  | Fblock :: k => 1 + cont_size k
  end.

Definition state_size (st : src_state) : nat := let '(s, k, _, _) := st in stmt_size s + cont_size k.

Lemma select_case_size z cases d :
  (stmt_size (select_case z cases d) <= list_sum (map (fun c => stmt_size c.2) cases) + stmt_size d)%nat.
Proof using.
  induction cases as [|[v s] cases IH]; cbn [select_case map snd]; [cbn; lia|].
  change (list_sum (?x :: ?l)) with (x + list_sum l)%nat. destruct (decide (z = v)); lia.
Qed.

(** *** Continuations *)

Lemma tr_exit ex k n i k' :
  tr_cont ex k n -> exit_cont i k = Some k' ->
  exists t ex', from_end ex (Z.of_nat i) = Some t /\ tr_cont ex' k' t.
Proof using.
  revert ex n i. induction k as [|[s|] k IH]; intros ex n i Hk He; cbn in He; [done| |].
  - destruct Hk as (n' & _ & Hk). by eapply IH.
  - destruct Hk as (ex' & -> & Hk). destruct i as [|i].
    + injection He as <-. exists n, ex'. by rewrite from_end_app_last.
    + destruct (IH ex' n i Hk He) as (t & ex2 & Ht & Hk2). exists t, ex2. split; [|done].
      rewrite Nat2Z.inj_succ, <- Z.add_1_r, from_end_app by lia. done.
Qed.

Lemma tr_find l s k s' k' ex n succ :
  tr_stmt C vm LM ex s n succ -> tr_cont ex k succ -> find_stmt l s k = Some (s', k') ->
  exists nl n' ex' succ', LM !! l = Some nl /\ C !! nl = Some (Inop n') /\
    tr_stmt C vm LM ex' s' n' succ' /\ tr_cont ex' k' succ'.
Proof using.
  revert k ex n succ. induction s using Stmt_nested_ind; intros k ex n1 succ Hs Hk Hf; simpl in Hf; try done.
  - destruct Hs as (n2 & Hs1 & Hs2). destruct (find_stmt l s1 (Fseq s2 :: k)) as [p|] eqn:E.
    + injection Hf as ->. eapply IHs; [exact Hs1| |exact E]. by exists succ.
    + by eapply IHs0.
  - destruct Hs as (n2 & n3 & _ & Hs1 & Hs2). destruct (find_stmt l s1 k) as [p|] eqn:E.
    + injection Hf as ->. by eapply IHs.
    + by eapply IHs0.
  - destruct Hs as (n2 & Hn & Hs). eapply IHs; [exact Hs| |exact Hf]. exists succ. split; [|done]. by exists n2.
  - eapply IHs; [exact Hs| |exact Hf]. by exists ex.
  - destruct Hs as (r & n2 & nd & _ & _ & Hd & Hcases). cbn [tr_stmt] in *.
    revert n2 Hcases. induction H as [|[v s1] cases Hs1 _ IH]; intros n2 Hcases.
    + by eapply IHs.
    + destruct Hcases as (ns & n3 & _ & _ & Hs & Hcases). cbn in Hs1.
      destruct (find_stmt l s1 k) as [p|] eqn:E; cbn in Hf; rewrite E in Hf.
      * injection Hf as ->. by eapply Hs1.
      * by eapply IH.
  - destruct Hs as (Hl & n2 & Hn & Hs). destruct (decide (l = l0)) as [<-|].
    + injection Hf as <- <-. by exists n1, n2, ex, succ.
    + by eapply IHs.
Qed.

(** *** Variables *)

Lemma agree_temps e rs rs' regs :
  agree vm e rs -> temps vm regs -> (forall x r, vm !! x = Some r -> r ∉ regs -> rs' r = rs r) -> agree vm e rs'.
Proof using.
  intros Ha Ht Hf. eapply agree_frame; [exact Ha|]. intros x r Hx. apply (Hf x r Hx), (Ht x r Hx).
Qed.

Lemma agree_insert e rs rs' x r v :
  agree vm e rs -> vm !! x = Some r -> (forall y r', vm !! y = Some r' -> r' ∉ [r] -> rs' r' = rs r') -> rs' r = v ->
  agree vm (<[x := v]> e) rs'.
Proof using vm_inj.
  intros Ha Hx Hf Hv y w Hy. destruct (decide (x = y)) as [<-|Hne].
  - rewrite lookup_insert_eq in Hy. injection Hy as <-. by exists r.
  - rewrite lookup_insert_ne in Hy by done. destruct (Ha y w Hy) as (r' & Hr' & <-). exists r'. split; [done|].
    apply (Hf y r' Hr'). rewrite list_elem_of_singleton. intros ->. apply Hne. by apply (vm_inj x y r).
Qed.

Lemma agree_result e rs result dest v :
  agree vm e rs -> dest_ok vm result dest -> agree vm (set_result result v e) (set_dest dest v rs).
Proof using vm_inj vm_pos.
  intros Ha Hd. unfold set_dest. destruct result as [x|]; cbn in Hd.
  - rewrite decide_False by (pose proof (vm_pos x dest Hd); lia). cbn.
    apply (agree_insert e rs _ x dest); [done|done| |by rewrite fn_lookup_insert].
    intros y r' _ Hr'. rewrite list_elem_of_singleton in Hr'. by rewrite fn_lookup_insert_ne by congruence.
  - by rewrite decide_True.
Qed.

(** *** Steps *)

(** A step of the function is matched by steps of the graph, or by none. *)
Definition matched (st : src_state) (t : rtl_state) (st' : src_state) : Prop :=
  exists t', match_states st' t' /\
    (tc (steps_to step2) t t' \/ (t' = t /\ (state_size st' < state_size st)%nat)).

Lemma matched_rtc st t st' t' :
  match_states st' t' -> rtc (steps_to step2) t t' -> (state_size st' < state_size st)%nat -> matched st t st'.
Proof using.
  intros Hm Hrun Hlt. exists t'. split; [done|]. apply rtc_tc in Hrun as [<-|H]; [by right|by left].
Qed.

Lemma matched_tc st t st' t1 t' :
  match_states st' t' -> rtc (steps_to step2) t t1 -> steps_to step2 t1 t' -> matched st t st'.
Proof using. intros Hm Hrun Hs. exists t'. split; [done|]. left. eapply tc_rtc_l; [exact Hrun|by apply tc_once]. Qed.

Lemma mapM_snoc {A B} (f : A -> option B) l a vs v :
  mapM f l = Some vs -> f a = Some v -> mapM f (l ++ [a]) = Some (vs ++ [v]).
Proof using.
  revert vs. induction l as [|x l IH]; intros vs Hl Ha; cbn in *.
  - injection Hl as <-. by rewrite Ha.
  - destruct (f x) as [y|]; [|done]. cbn in *. destruct (mapM f l) as [ys|]; [|done]. injection Hl as <-.
    by rewrite (IH ys).
Qed.

Lemma fmap_snoc_inv (rs : Z -> val) regs r vs v :
  rs <$> (regs ++ [r]) = vs ++ [v] -> rs <$> regs = vs /\ rs r = v.
Proof using. rewrite fmap_app. cbn. intros [H1 H2]%app_inj_tail. done. Qed.

Lemma sel_callee_indirect e m f : direct_callee f = None -> sel_callee e m f = ToAddress <$> sel_expr e m [] f.
Proof using. destruct f as [|c| | | | | | | | |]; [done|by destruct c|done..]. Qed.

Lemma call_args f args fn regs n node e rs m fv vs :
  call_code C vm f args fn regs n node -> agree vm e rs ->
  sel_callee e m f = Some fv -> mapM (sel_expr e m []) args = Some vs ->
  exists rs', rtc (steps_to step2) (n, rs, m) (node, rs', m) /\ rtl_callee rs' fn = fv /\ rs' <$> regs = vs /\
    agree vm e rs'.
Proof using.
  intros Hc Ha Hf Hvs. unfold call_code in Hc. destruct (direct_callee f) as [x|] eqn:Ef.
  - destruct Hc as (-> & -> & Hargs & Ht). destruct (Hargs e rs m vs Ha Hvs) as (rs' & Hrun & Hd & Hk).
    exists rs'. split; [done|]. split; [by injection Hf as <-|]. split; [done|by eapply agree_temps].
  - destruct Hc as (r & -> & Hlen & Hargs & Ht).
    assert (Hv : exists v, sel_expr e m [] f = Some v /\ fv = ToAddress v).
    { rewrite sel_callee_indirect in Hf by done. destruct (sel_expr e m [] f) as [v|]; [|done].
      injection Hf as <-. by exists v. }
    destruct Hv as (v & Hv & ->). destruct (Hargs e rs m (vs ++ [v]) Ha) as (rs' & Hrun & Hd & Hk).
    { by apply mapM_snoc. }
    apply fmap_snoc_inv in Hd as [Hd Hr]. exists rs'. split; [done|]. split; [cbn; by rewrite Hr|].
    split; [done|by eapply agree_temps].
Qed.

Lemma sim_assign x a k e m ex n n' rs st' :
  agree vm e rs -> tr_stmt C vm LM ex (Sassign x a) n n' -> tr_cont ex k n' ->
  step1 (Sassign x a, k, e, m) = Next st' -> matched (Sassign x a, k, e, m) (n, rs, m) st'.
Proof using vm_inj.
  intros Ha (r & Hx & Hcode) Hk Hs. cbn in Hs. destruct (sel_expr e m [] a) as [v|] eqn:Ev; [|done].
  injection Hs as <-. destruct (Hcode e rs m [v] Ha) as (rs' & Hrun & Hd & Hf); [cbn; by rewrite Ev|].
  apply (matched_rtc _ _ _ (n', rs', m)); [|done|cbn; lia].
  exists ex, n'. split; [done|]. split; [|done]. injection Hd as Hd. by apply (agree_insert e rs rs' x r).
Qed.

Lemma sim_store chunk addr a k e m ex n n' rs st' :
  agree vm e rs -> tr_stmt C vm LM ex (Sstore chunk addr a) n n' -> tr_cont ex k n' ->
  step1 (Sstore chunk addr a, k, e, m) = Next st' -> matched (Sstore chunk addr a, k, e, m) (n, rs, m) st'.
Proof using VT.
  intros Ha (regs & r & node & Hlen & Hcode & Ht & Hnode) Hk Hs. cbn in Hs.
  destruct (sel_expr e m [] a) as [v|] eqn:Ev; [|done]. cbn in Hs.
  destruct (mapM (sel_expr e m []) addr.2) as [vs|] eqn:Evs; [|done]. cbn in Hs.
  destruct (val_addr addr.1 vs) as [p|] eqn:Ep; [|done]. cbn in Hs.
  destruct (store_val chunk p v m) as [m'|] eqn:Em; [|done]. injection Hs as <-.
  destruct (Hcode e rs m (vs ++ [v]) Ha) as (rs' & Hrun & Hd & Hf); [by apply mapM_snoc|].
  apply fmap_snoc_inv in Hd as [Hd Hr]. apply (matched_tc _ _ _ (node, rs', m) (n', rs', m')); [|done|].
  - exists ex, n'. split; [done|]. split; [by eapply agree_temps|done].
  - unfold steps_to, rtl_step. rewrite Hnode, Hd, eval_store_val, Ep, Hr. cbn. by rewrite Em.
Qed.

Lemma sim_call result sig f args k e m ex n n' rs st' :
  agree vm e rs -> tr_stmt C vm LM ex (Scall result sig f args) n n' -> tr_cont ex k n' ->
  step1 (Scall result sig f args, k, e, m) = Next st' -> matched (Scall result sig f args, k, e, m) (n, rs, m) st'.
Proof using vm_inj vm_pos.
  intros Ha (fn & regs & node & dest & Hcode & Hdest & Hnode) Hk Hs. cbn in Hs.
  destruct (sel_callee e m f) as [fv|] eqn:Ef; [|done]. cbn in Hs.
  destruct (mapM (sel_expr e m []) args) as [vs|] eqn:Evs; [|done]. cbn in Hs.
  destruct (call_value _ fv vs m) as [[v m']|] eqn:Ec; [|done]. injection Hs as <-. cbn.
  destruct (call_args f args fn regs n node e rs m fv vs Hcode Ha Ef Evs) as (rs' & Hrun & Hfn & Hd & Ha').
  apply (matched_tc _ _ _ (node, rs', m) (n', set_dest dest v rs', m')); [|done|].
  - exists ex, n'. split; [done|]. split; [by apply agree_result|done].
  - unfold steps_to, rtl_step. by rewrite Hnode, Hfn, Hd, Ec.
Qed.

Lemma sim_builtin result b args k e m ex n n' rs st' :
  agree vm e rs -> tr_stmt C vm LM ex (Sbuiltin result b args) n n' -> tr_cont ex k n' ->
  step1 (Sbuiltin result b args, k, e, m) = Next st' -> matched (Sbuiltin result b args, k, e, m) (n, rs, m) st'.
Proof using vm_inj vm_pos.
  intros Ha (regs & node & dest & Hcode & Ht & Hdest & Hsome & Hnode) Hk Hs. cbn in Hs.
  destruct (mapM (sel_expr e m []) args) as [vs|] eqn:Evs; [|done]. cbn in Hs.
  destruct (eval_builtin b vs m) as [[v m']|] eqn:Eb; [|done]. injection Hs as <-. cbn.
  destruct (Hcode e rs m vs Ha Evs) as (rs' & Hrun & Hd & Hf).
  apply (matched_tc _ _ _ (node, rs', m) (n', match dest with Some d => <[d := v]> rs' | None => rs' end, m')); [|done|].
  - exists ex, n'. split; [done|]. split; [|done].
    pose proof (agree_temps e rs rs' regs Ha Ht Hf) as Ha'.
    pose proof (agree_result e rs' result (default 0 dest) v Ha' Hdest) as Hr. unfold set_dest in Hr.
    destruct dest as [d|]; cbn in Hr |- *.
    + destruct result as [x|]; [|by destruct Hsome as [[? ?] _]]. rewrite decide_False in Hr; [done|].
      pose proof (vm_pos x d Hdest). lia.
    + destruct result as [x|]; [by destruct Hsome as [_ [? ?]]|]. done.
  - unfold steps_to, rtl_step. by rewrite Hnode, Hd, Eb.
Qed.

Lemma sim_if c s1 s2 k e m ex n n' rs st' :
  agree vm e rs -> tr_stmt C vm LM ex (Sifthenelse c s1 s2) n n' -> tr_cont ex k n' ->
  step1 (Sifthenelse c s1 s2, k, e, m) = Next st' -> matched (Sifthenelse c s1 s2, k, e, m) (n, rs, m) st'.
Proof using.
  intros Ha (n1 & n2 & Hc & H1 & H2) Hk Hs. cbn in Hs. destruct (sel_cond e m [] c) as [b|] eqn:Eb; [|done].
  injection Hs as <-. destruct (Hc e rs m b Ha Eb) as (rs' & Hrun & Hf).
  exists (if b then n1 else n2, rs', m). split; [|by left].
  exists ex, n'. split; [done|]. split; [by eapply agree_frame|]. by destruct b.
Qed.

(** The comparisons find the case. *)
Lemma cases_run isLong r (tr : stmt -> Z -> Prop) cases d nd n v z rs m :
  tr_cases C tr isLong r cases nd n -> tr d nd -> rs r = v -> switch_val isLong v = Some z ->
  exists ns, rtc (steps_to step2) (n, rs, m) (ns, rs, m) /\ tr (select_case z cases d) ns.
Proof using VT.
  intros Hc Hd Hr Hz. revert n Hc. induction cases as [|[v' s] cases IH]; intros n Hc; cbn [tr_cases select_case] in *.
  - subst n. exists nd. split; [apply rtc_refl|done].
  - destruct Hc as (ns & n' & Hok & Hn & Hs & Hc).
    assert (Hb : val_cond (case_cond isLong v') (rs <$> [r]) = Some (bool_decide (z = v'))).
    { cbn. rewrite Hr. destruct isLong, v as [i|i| |]; try done; cbn in Hz; injection Hz as ->; cbn; f_equal.
      - destruct (Z.eqb_spec z v'); by case_bool_decide.
      - cbn in Hok. apply Z.eqb_eq in Hok. rewrite Hok. destruct (Z.eqb_spec z v'); by case_bool_decide. }
    pose proof (step_cond C n _ [r] ns n' rs m _ Hn Hb) as Hstep. destruct (decide (z = v')) as [Heq|Hne].
    + rewrite bool_decide_true in Hstep by done. exists ns. split; [by apply rtc_once|done].
    + rewrite bool_decide_false in Hstep by done. destruct (IH n' Hc) as (ns' & Hrun & Hs').
      exists ns'. split; [by eapply rtc_l|done].
Qed.

Lemma sim_switch isLong a cases d k e m ex n n' rs st' :
  agree vm e rs -> tr_stmt C vm LM ex (Sswitch isLong a cases d) n n' -> tr_cont ex k n' ->
  step1 (Sswitch isLong a cases d, k, e, m) = Next st' -> matched (Sswitch isLong a cases d, k, e, m) (n, rs, m) st'.
Proof using VT.
  intros Ha (r & n1 & nd & Hcode & Ht & Hd & Hcases) Hk Hs. cbn in Hs.
  destruct (sel_expr e m [] a) as [v|] eqn:Ev; [|done]. cbn in Hs.
  destruct (switch_val isLong v) as [z|] eqn:Ez; [|done]. injection Hs as <-.
  destruct (Hcode e rs m [v] Ha) as (rs' & Hrun & Hr & Hf); [cbn; by rewrite Ev|]. injection Hr as Hr.
  destruct (cases_run isLong r _ cases d nd n1 v z rs' m Hcases Hd Hr Ez) as (ns & Hrun' & Hs).
  apply (matched_rtc _ _ _ (ns, rs', m)).
  - exists ex, n'. split; [done|]. split; [by eapply agree_temps|done].
  - by etrans.
  - cbn [state_size stmt_size]. pose proof (select_case_size z cases d). lia.
Qed.

(** A jump. *)
Lemma matched_nop st n n' rs m st' :
  C !! n = Some (Inop n') -> match_states st' (n', rs, m) -> matched st (n, rs, m) st'.
Proof using. intros Hn Hm. eapply matched_tc; [exact Hm|apply rtc_refl|by apply step_nop]. Qed.

Lemma sim_skip k e m ex n n' rs st' :
  agree vm e rs -> n = n' -> tr_cont ex k n' ->
  step1 (Sskip, k, e, m) = Next st' -> matched (Sskip, k, e, m) (n, rs, m) st'.
Proof using.
  intros Ha -> Hk Hs. destruct k as [|[s|] k]; cbn in Hs; try done; injection Hs as <-.
  - destruct Hk as (n2 & Hs & Hk). apply (matched_rtc _ _ _ (n', rs, m)); [|apply rtc_refl|cbn; lia].
    by exists ex, n2.
  - destruct Hk as (ex' & -> & Hk). apply (matched_rtc _ _ _ (n', rs, m)); [|apply rtc_refl|cbn; lia].
    by exists ex', n'.
Qed.

Lemma sim_exit i k e m ex n n' rs st' :
  agree vm e rs -> tr_stmt C vm LM ex (Sexit i) n n' -> tr_cont ex k n' ->
  step1 (Sexit i, k, e, m) = Next st' -> matched (Sexit i, k, e, m) (n, rs, m) st'.
Proof using.
  intros Ha Hcode Hk Hs. cbn [struct_step tr_stmt] in *. destruct (Z.ltb_spec i 0); [done|].
  destruct (exit_cont (Z.to_nat i) k) as [k'|] eqn:Ek; [|done]. injection Hs as <-.
  destruct (tr_exit ex k n' _ k' Hk Ek) as (t & ex' & Ht & Hk'). rewrite Z2Nat.id in Ht by done. rewrite Ht in Hcode.
  eapply matched_nop; [exact Hcode|]. by exists ex', t.
Qed.

Lemma sim_goto l k e m ex n n' rs st' :
  agree vm e rs -> tr_stmt C vm LM ex (Sgoto l) n n' ->
  step1 (Sgoto l, k, e, m) = Next st' -> matched (Sgoto l, k, e, m) (n, rs, m) st'.
Proof using body_code exit_code.
  intros Ha (nl & Hl & Hn) Hs. cbn in Hs. destruct (find_stmt l body []) as [[s' k']|] eqn:Ef; [|done]. injection Hs as <-.
  destruct (tr_find l body [] s' k' [] entry exit body_code) as (nl' & n2 & ex' & succ' & Hl' & Hn2 & Hs & Hk); [done|done|].
  assert (nl' = nl) as -> by congruence. apply (matched_tc _ _ _ (nl, rs, m) (n2, rs, m)).
  - by exists ex', succ'.
  - apply rtc_once. by apply step_nop.
  - by apply step_nop.
Qed.

Lemma sim_next_rtlgen st t st' : match_states st t -> step1 st = Next st' -> matched st t st'.
Proof using All.
  destruct st as [[[s k] e] m], t as [[n rs] m']. intros (ex & n' & -> & Ha & Hs & Hk) Hstep.
  destruct s as [|x a|chunk addr a|r sig f args|sig f args|r b args|s1 s2|c s1 s2|s|s|i|l a cases d|a|l s|l].
  - by eapply sim_skip.
  - by eapply sim_assign.
  - by eapply sim_store.
  - by eapply sim_call.
  - cbn in Hstep. by destruct (sel_callee e m f ≫= _).
  - by eapply sim_builtin.
  - injection Hstep as <-. destruct Hs as (n2 & H1 & H2). apply (matched_rtc _ _ _ (n, rs, m)); [|apply rtc_refl|cbn; lia].
    exists ex, n2. split; [done|]. split; [done|]. split; [done|by exists n'].
  - by eapply sim_if.
  - injection Hstep as <-. destruct Hs as (n2 & Hn & Hs). eapply matched_nop; [exact Hn|].
    exists ex, n. split; [done|]. split; [done|]. split; [done|]. exists n'. split; [by exists n2|done].
  - injection Hstep as <-. apply (matched_rtc _ _ _ (n, rs, m)); [|apply rtc_refl|cbn; lia].
    exists (ex ++ [n']), n'. split; [done|]. split; [done|]. split; [done|by exists ex].
  - by eapply sim_exit.
  - by eapply sim_switch.
  - destruct a as [a|]; [|done]. cbn in Hstep. by destruct (sel_expr e m [] a).
  - injection Hstep as <-. destruct Hs as (_ & n2 & Hn & Hs). eapply matched_nop; [exact Hn|]. by exists ex, n'.
  - by eapply sim_goto.
Qed.

Lemma halt_at n rs n' rs' m r :
  rtc (steps_to step2) (n, rs, m) (n', rs', m) -> step2 (n', rs', m) = Halt r ->
  exists r', terminates step2 (n, rs, m) r' /\ r = r'.
Proof using. intros Hrun Hh. exists r. split; [|done]. by eexists. Qed.

Lemma sim_halt_rtlgen st t r :
  match_states st t -> step1 st = Halt r -> exists r', terminates step2 t r' /\ r = r'.
Proof using.
  destruct st as [[[s k] e] m], t as [[n rs] m']. intros (ex & n' & -> & Ha & Hs & Hk) Hstep.
  destruct s as [|x a|chunk addr a|r0 sig f args|sig f args|r0 b args|s1 s2|c s1 s2|s|s|i|l a cases d|a|l s|l];
    try done; cbn in Hstep.
  all: try (match type of Hstep with step_opt ?o _ = _ => by destruct o end).
  - destruct k as [|[s|] k]; try done. injection Hstep as <-. cbn in Hs. subst n'. destruct Hk as [_ Hn].
    eapply (halt_at n rs n rs); [apply rtc_refl|]. cbn. by rewrite Hn.
  - destruct Hs as (fn & regs & node & Hcode & Hnode).
    destruct (sel_callee e m f) as [fv|] eqn:Ef; [|done]. cbn in Hstep.
    destruct (mapM (sel_expr e m []) args) as [vs|] eqn:Evs; [|done]. injection Hstep as <-.
    destruct (call_args f args fn regs n node e rs m fv vs Hcode Ha Ef Evs) as (rs' & Hrun & Hfn & Hd & _).
    eapply halt_at; [exact Hrun|]. cbn. by rewrite Hnode, Hfn, Hd.
  - destruct a as [a|].
    + destruct Hs as (rr & node & Hcode & Hnode). destruct (sel_expr e m [] a) as [v|] eqn:Ev; [|done].
      injection Hstep as <-. destruct (Hcode e rs m [v] Ha) as (rs' & Hrun & Hd & _); [cbn; by rewrite Ev|].
      injection Hd as Hd. eapply halt_at; [exact Hrun|]. cbn. rewrite Hnode. cbn. by rewrite Hd.
    + injection Hstep as <-. eapply (halt_at n rs n rs); [apply rtc_refl|]. cbn in Hs |- *. by rewrite Hs.
Qed.
End Proof.

(** ** The registers of parameters and variables *)

Definition set_regs (s : Translator) (r : RegAllocator) : Translator :=
  mkTranslator (cfg s) r (targets s) (letBindings s).

Lemma wf_set_var x s :
  wf s -> wf (set_regs s (mkRegs (top_reg s + 1) (<[x := top_reg s]> (vars s)) (paramRegs (regs s)) (resultReg (regs s)))).
Proof.
  intros w. pose proof (wf_vars _ w) as Hv. pose proof (wf_reg _ w) as Hr.
  pose proof (wf_vars_inj _ w) as Hi. pose proof (wf_lets _ w) as Hl. destruct w. constructor; cbn; try done; try lia.
  - intros y r. destruct (decide (x = y)) as [<-|Hne].
    + rewrite lookup_insert_eq. intros [= <-]. lia.
    + rewrite lookup_insert_ne by done. intros H. specialize (Hv y r H). lia.
  - intros y z r. destruct (decide (x = y)) as [<-|N1], (decide (x = z)) as [<-|N2]; [done| | |].
    + rewrite lookup_insert_eq, lookup_insert_ne by done. intros [= <-] H. specialize (Hv z _ H). lia.
    + rewrite lookup_insert_eq, lookup_insert_ne by done. intros H [= <-]. specialize (Hv y _ H). lia.
    + rewrite !lookup_insert_ne by done. apply Hi.
  - intros r H. specialize (Hl r H). lia.
Qed.

(** Parameters get registers of their own, which receive the arguments. *)
Lemma map_params_spec ps : forall s rs s',
  wf s -> map_params ps s = (rs, s') ->
  wf s' /\ s' = set_regs s (regs s') /\ length rs = length ps /\ dom (vars s') = dom (vars s) ∪ list_to_set ps /\
  forall e (vals : Z -> val), agree (vars s) e vals ->
    agree (vars s') (foldl (fun e xv => <[xv.1 := xv.2]> e) e (zip ps (vals <$> rs))) vals.
Proof.
  induction ps as [|x ps IH]; intros s rs s' w Hm; cbn [map_params] in Hm.
  - injection Hm as <- <-. split; [done|]. split; [by destruct s|]. split; [done|]. split; [set_solver|].
    done.
  - unfold Fresh, SetVar, get, upd_regs, mbind, gen_bind, mret, gen_ret in Hm. cbn in Hm.
    set (s1 := set_regs s (mkRegs (top_reg s + 1) (<[x := top_reg s]> (vars s)) (paramRegs (regs s)) (resultReg (regs s)))) in *.
    change (mkTranslator _ _ _ _) with s1 in Hm.
    destruct (map_params ps s1) as [rs1 s2] eqn:E. injection Hm as <- <-.
    destruct (IH s1 rs1 s2 (wf_set_var x s w) E) as (w2 & Heq & Hlen & Hdom & Hagree).
    split; [done|]. split; [by rewrite Heq|]. split; [cbn; lia|]. split; [rewrite Hdom; cbn; set_solver|].
    intros e vals Ha. cbn. apply Hagree. cbn. intros y v. destruct (decide (x = y)) as [<-|Hne].
    + rewrite !lookup_insert_eq. intros [= <-]. by eexists.
    + rewrite !lookup_insert_ne by done. apply Ha.
Qed.

Lemma MapVars_spec xs : forall s rs s',
  wf s -> MapVars xs s = (rs, s') ->
  wf s' /\ s' = set_regs s (regs s') /\ dom (vars s') = dom (vars s) ∪ list_to_set xs /\ vars s ⊆ vars s'.
Proof.
  induction xs as [|x xs IH]; intros s rs s' w Hm; cbn [MapVars] in Hm.
  - injection Hm as <- <-. split; [done|]. split; [by destruct s|]. split; [set_solver|done].
  - rewrite bind_run in Hm. destruct (MapVar x s) as [r s1] eqn:E1.
    assert (H1 : wf s1 /\ s1 = set_regs s (regs s1) /\ dom (vars s1) = dom (vars s) ∪ {[x]} /\ vars s ⊆ vars s1).
    { unfold MapVar, get, mbind, gen_bind in E1. destruct (vars s !! x) as [r'|] eqn:Ex.
      - injection E1 as <- <-. split; [done|]. split; [by destruct s|]. split; [|done].
        apply elem_of_dom_2 in Ex. set_solver.
      - injection E1 as <- <-. split; [by apply wf_set_var|]. split; [done|]. cbn. split; [set_solver|].
        by apply insert_subseteq. }
    destruct H1 as (w1 & Heq1 & Hd1 & Hsub1). rewrite bind_run in Hm.
    destruct (MapVars xs s1) as [rs1 s2] eqn:E2. injection Hm as <- <-.
    destruct (IH s1 rs1 s2 w1 E2) as (w2 & Heq2 & Hd2 & Hsub2).
    split; [done|]. split; [by rewrite Heq2, Heq1|]. split; [rewrite Hd2, Hd1; cbn; set_solver|by etrans].
Qed.

(** ** The code of a function *)

(** What RTL generation translates faithfully: a function over its own
    variables with distinct labels, whose statements are supported. *)
Definition rtlgen_ok (fn : CminorSel.Function) : bool :=
  stmt_supported (list_to_set (CminorSel.fn_Params fn ++ CminorSel.fn_Vars fn)) (CminorSel.fn_Body fn) &&
  bool_decide (NoDup (stmt_labels (CminorSel.fn_Body fn))).

Section Function.
  Context {M : Type} `{FO : FloatOps} `{LO : Layout} `{TS : TargetSemantics val M}.
  Context {VT : ValueTarget M} {darwin : bool} {PC : PseudoCalls val M darwin}.

Lemma wf_new : wf new_translator.
Proof using. constructor; cbn; try done; set_solver. Qed.

Lemma agree_mono vm vm' e (vals : Z -> val) : agree vm e vals -> vm ⊆ vm' -> agree vm' e vals.
Proof using. intros Ha Hs x v Hx. destruct (Ha x v Hx) as (r & Hr & Hv). exists r. split; [by eapply lookup_weaken|done]. Qed.

Lemma function_code fn :
  rtlgen_ok fn = true ->
  let tf := TranslateFunction fn in
  length (Rtl.fn_Params tf) = length (CminorSel.fn_Params fn) /\
  exists vm LM exit,
    (forall x y r, vm !! x = Some r -> vm !! y = Some r -> x = y) /\
    (forall x r, vm !! x = Some r -> 0 < r) /\
    Rtl.fn_Code tf !! exit = Some (Ireturn None) /\
    tr_stmt (Rtl.fn_Code tf) vm LM [] (CminorSel.fn_Body fn) (Rtl.fn_Entrypoint tf) exit /\
    forall vals, agree vm (bind_params (CminorSel.fn_Params fn) (vals <$> Rtl.fn_Params tf)) vals.
Proof using VT.
  intros [Hsup Hnd]%andb_true_iff. apply bool_decide_eq_true in Hnd. unfold TranslateFunction.
  destruct (gen_function fn new_translator) as [[ps entry] s] eqn:E. cbn.
  unfold gen_function, MapParams, upd_regs, SetStackSize, AllocNode, AddInstr, get, upd_cfg, mbind, gen_bind, mret, gen_ret
    in E. cbn in E.
  destruct (map_params _ new_translator) as [rs s1] eqn:E1.
  destruct (map_params_spec _ _ rs s1 wf_new E1) as (w1 & Heq1 & Hlen & Hd1 & Hagree). cbn in E.
  set (s2 := mkTranslator (cfg s1) (mkRegs (top_reg s1) (vars s1) rs (resultReg (regs s1))) (targets s1) (letBindings s1)) in E.
  assert (w2 : wf s2) by by destruct w1. destruct (MapVars (CminorSel.fn_Vars fn) s2) as [rs' s3] eqn:E3.
  destruct (MapVars_spec _ s2 rs' s3 w2 E3) as (w3 & Heq3 & Hd3 & Hsub).
  match type of E with context [TranslateStmt _ ?x ?st] => set (s4 := st) in E; set (exit := x) in E end.
  assert (Hc : cfg s3 = NewCFGBuilder) by by rewrite Heq3; cbn; rewrite Heq1.
  assert (w4 : wf s4).
  { unfold s4. rewrite Hc. destruct w3. constructor; cbn; try done. intros n. rewrite dom_insert_L, dom_empty_L.
    intros [->%elem_of_singleton|H%not_elem_of_empty]%elem_of_union; [lia|done]. }
  assert (R : ready (vars s3) [] (list_to_set (stmt_labels (CminorSel.fn_Body fn))) s4).
  { constructor; try done; cbn.
    - by rewrite Heq3; cbn; rewrite Heq1.
    - by rewrite Heq3; cbn; rewrite Heq1.
    - intros l n _ Hl. cbn in Hl. by rewrite Hc in Hl. }
  destruct (TranslateStmt (CminorSel.fn_Body fn) exit s4) as [n s5] eqn:E5. injection E as <- <- <-.
  assert (Hdom : dom (vars s3) = (list_to_set (CminorSel.fn_Params fn ++ CminorSel.fn_Vars fn) : gset string)).
  { rewrite Hd3. change (vars s2) with (vars s1). rewrite Hd1. cbn. rewrite dom_empty_L, list_to_set_app_L. set_solver. }
  rewrite <- Hdom in Hsup.
  destruct (stmt_spec_all _ (vars s3) [] exit s4 Hsup Hnd R n s5 E5) as (w5 & X5 & HQ).
  split; [exact Hlen|]. exists (vars s3), (labels s5), exit. split; [apply (wf_vars_inj _ w3)|]. split; [|split; [|split; [by apply HQ|]]].
  - intros x r Hx. apply (wf_vars _ w3 x r Hx).
  - eapply (ext_lookup _ _ _ _ _ X5). cbn. by rewrite lookup_insert_eq.
  - intros vals. apply (agree_mono (vars s1)); [|done]. apply Hagree. intros x v Hx. by rewrite lookup_empty in Hx.
Qed.
End Function.

(** ** The pass *)

Section Pass.
  Context {M : Type} `{FO : FloatOps} `{LO : Layout} `{TS : TargetSemantics val M}.
  Context {VT : ValueTarget M} {darwin : bool} {PC : PseudoCalls val M darwin}.

(** A CminorSel function applied to arguments. *)
Definition sel_step (fn : CminorSel.Function) := struct_step (PC := PC) cminorsel_language (CminorSel.fn_Body fn).

Definition sel_init (fn : CminorSel.Function) (args : list val) (m : M) : struct_state :=
  (CminorSel.fn_Body fn, [], bind_params (CminorSel.fn_Params fn) args, m).

Lemma rtlgen_start fn vals m :
  rtlgen_ok fn = true ->
  let tf := TranslateFunction fn in
  exists rel, rel (sel_init fn (vals <$> Rtl.fn_Params tf) m) (rtl_init tf vals m) /\
    (forall s t s', rel s t -> sel_step fn s = Next s' -> exists t', rel s' t' /\
       (tc (steps_to (rtl_step (Rtl.fn_Code tf))) t t' \/ (t' = t /\ (state_size s' < state_size s)%nat))) /\
    forall s t r, rel s t -> sel_step fn s = Halt r ->
      exists r', terminates (rtl_step (Rtl.fn_Code tf)) t r' /\ r = r'.
Proof using VT.
  intros Hok tf. destruct (function_code fn Hok) as (_ & vm & LM & exit & Hinj & Hpos & Hexit & Hbody & Hargs).
  exists (match_states (Rtl.fn_Code tf) vm LM). split; [|split].
  - exists [], exit. split; [done|]. split; [apply Hargs|]. split; [done|]. by split.
  - intros s t s'. by apply (sim_next_rtlgen _ vm LM (CminorSel.fn_Body fn) (Rtl.fn_Entrypoint tf) exit).
  - intros s t r. by apply sim_halt_rtlgen.
Qed.

(** C8. What a CminorSel function returns, or the tail call it ends with, and
    the memory it leaves, the generated graph does: if the function ends with
    [r], so does the graph when its parameter registers hold the arguments. *)
Theorem TranslateFunction_refines fn vals m r :
  rtlgen_ok fn = true ->
  terminates (sel_step fn) (sel_init fn (vals <$> Rtl.fn_Params (TranslateFunction fn)) m) r ->
  terminates (rtl_step (Rtl.fn_Code (TranslateFunction fn))) (rtl_init (TranslateFunction fn) vals m) r.
Proof using VT.
  intros Hok Hr. destruct (rtlgen_start fn vals m Hok) as (rel & Hrel & Hnext & Hhalt).
  by destruct (sim_forward_rel _ _ rel eq state_size Hnext Hhalt _ _ r Hrel Hr) as (r' & Ht & ->).
Qed.

(** Of a function that never gets stuck, the graph never gets stuck: it
    reaches no missing node and no undefined operation. It ends only as the
    function does, so a function that runs forever is translated to a graph
    that does. *)
Theorem TranslateFunction_safe fn vals m :
  rtlgen_ok fn = true ->
  safe (sel_step fn) (sel_init fn (vals <$> Rtl.fn_Params (TranslateFunction fn)) m) ->
  safe (rtl_step (Rtl.fn_Code (TranslateFunction fn))) (rtl_init (TranslateFunction fn) vals m) /\
  forall r, terminates (rtl_step (Rtl.fn_Code (TranslateFunction fn))) (rtl_init (TranslateFunction fn) vals m) r ->
    terminates (sel_step fn) (sel_init fn (vals <$> Rtl.fn_Params (TranslateFunction fn)) m) r.
Proof using VT.
  intros Hok Hsafe. destruct (rtlgen_start fn vals m Hok) as (rel & Hrel & Hnext & Hhalt). split.
  - by apply (sim_safe _ _ rel eq state_size Hnext Hhalt _ _ Hrel).
  - intros r Hr. by destruct (sim_backward_safe _ _ rel eq state_size Hnext Hhalt _ _ r Hrel Hsafe Hr) as (r' & Ht & <-).
Qed.
End Pass.

(** ** Examples *)

Section Examples.
Import CminorSel.
Local Open Scope string_scope.

Definition n_var : Expr := Evar "n".
Definition s_var : Expr := Evar "s".
Definition int (n : Z) : Expr := Econst (Cminor.Ointconst n).

(** [for (s = 0; n > 0; n--) s += n; r = g(s); *sp[8] = r;
     switch (n) { case 0: goto done; default: return; } done: return *sp[8];] *)
Definition sum_fn : Function :=
  mkFunction "sum" (mkSig ["int"] "int" false) ["n"] ["s"; "r"] 16
    (Structured.Seq [
      Sassign "s" (int 0);
      Sblock (Sloop (Structured.Seq [
        Sifthenelse (CondAnd (CondCmp Cminor.Cgt n_var (int 0)) CondTrue) Sskip (Sexit 0);
        Sassign "s" (Ebinop Cminor.Oadd s_var n_var);
        Sassign "n" (Eaddshift Slsl 0 n_var (int (-1)))]));
      Scall (Some "r") (Some (mkSig ["int"] "int" false)) (Econst (Cminor.Oaddrsymbol "g" 0)) [s_var];
      Sstore Mint32 (Ainstack 8, []) (Evar "r");
      Sswitch false n_var [(0, Sgoto "done")] (Sreturn None);
      Slabel "done" (Sreturn (Some (Eload Mint32 (Ainstack 8) [])))]).

(** [for (;;) g(n);] *)
Definition forever_fn : Function :=
  mkFunction "forever" (mkSig ["int"] "void" false) ["n"] [] 0
    (Sloop (Scall None None (Econst (Cminor.Oaddrsymbol "g" 0)) [n_var])).
End Examples.

Lemma safe_invariant {S R} (step : S -> outcome S R) (I : S -> Prop) s :
  (forall s, I s -> exists s', step s = Next s' /\ I s') -> I s -> safe step s.
Proof.
  intros Hstep Hs s' Hrun. induction Hrun as [s|s s1 s2 H _ IH].
  - destruct (Hstep s Hs) as (s1 & E & _). congruence.
  - destruct (Hstep s Hs) as (s3 & E & H3). apply IH. unfold steps_to in H. by replace s1 with s3 by congruence.
Qed.

Lemma forever_safe v m : safe (sel_step forever_fn) (sel_init forever_fn [v] m).
Proof.
  apply (safe_invariant _ (fun s => exists m,
    s = sel_init forever_fn [v] m \/
    exists body, CminorSel.fn_Body forever_fn = Sloop body /\
      (s = (body, [Fseq (Sloop body)], bind_params ["n"%string] [v], m) \/
       s = (Sskip, [Fseq (Sloop body)], bind_params ["n"%string] [v], m)))); [|exists m; by left].
  intros s (m1 & [->|(body & Hb & [->| ->])]); injection Hb as <- || idtac.
  - eexists. split; [done|]. exists m1. right. eexists. split; [done|]. by left.
  - eexists. split; [done|]. eexists. right. eexists. split; [done|]. by right.
  - eexists. split; [done|]. exists m1. by left.
Qed.

Lemma TranslateFunction_refines_witness :
  rtlgen_ok sum_fn = true /\
  terminates (rtl_step (Rtl.fn_Code (TranslateFunction sum_fn)))
    (rtl_init (TranslateFunction sum_fn) (fun _ => Vint 4) ∅)
    (RReturned (Some (Vint 11)) (<[65544 := Vint 11]> (<[0 := Vint 1]> ∅))).
Proof.
  split; [vm_compute; reflexivity|]. apply (TranslateFunction_refines sum_fn (fun _ => Vint 4) ∅).
  - vm_compute. reflexivity.
  - apply (run_terminates _ 100). vm_compute. reflexivity.
Defined.

Lemma TranslateFunction_safe_witness :
  rtlgen_ok forever_fn = true /\
  safe (rtl_step (Rtl.fn_Code (TranslateFunction forever_fn))) (rtl_init (TranslateFunction forever_fn) (fun _ => Vint 1) ∅).
Proof.
  split; [vm_compute; reflexivity|]. apply (TranslateFunction_safe forever_fn (fun _ => Vint 1) ∅).
  - vm_compute. reflexivity.
  - exact (forever_safe (Vint 1) ∅).
Defined.
