(* ===== verification/Selection.v ===== *)
(** Machine operators ([src/pkg/cminorsel/ops.go]), and instruction selection
    ([src/pkg/selection]): Cminor to CminorSel. It picks addressing modes,
    conditions for branches, and the combined operations of ARM64. *)

From S2P Require Import Prelude Target Structured.
From S2P Require Cminor CminorSel.

Inductive MachUnaryOp :=
| MOnegint | MOnotint | MOnegf | MOnegs | MOabsf | MOabss | MOnegl | MOnotl | MOabsfl | MOcast8signed
| MOcast8unsigned | MOcast16signed | MOcast16unsigned | MOsingleoffloat | MOfloatofsingle | MOintoffloat
| MOintuoffloat | MOfloatofint | MOfloatofintu | MOlongoffloat | MOlonguoffloat | MOfloatoflong
| MOfloatoflongu | MOlongofsingle | MOlonguofsingle | MOsingleoflong | MOsingleoflongu | MOintoflong
| MOlongofint | MOlongofintu | MOrbit | MOclz | MOcls | MOrev | MOrev16 | MOsqrtf | MOsqrts | MOnegfs | MOabsfs.

Definition MachUnaryOp_String (op : MachUnaryOp) : string :=
  match op with
  | MOnegint => "negint" | MOnotint => "notint" | MOnegf => "negf" | MOnegs => "negs" | MOabsf => "absf"
  | MOabss => "abss" | MOnegl => "negl" | MOnotl => "notl" | MOabsfl => "absfl" | MOcast8signed => "cast8s"
  | MOcast8unsigned => "cast8u" | MOcast16signed => "cast16s" | MOcast16unsigned => "cast16u"
  | MOsingleoffloat => "singleoffloat" | MOfloatofsingle => "floatofsingle" | MOintoffloat => "intoffloat"
  | MOintuoffloat => "intuoffloat" | MOfloatofint => "floatofint" | MOfloatofintu => "floatofintu"
  | MOlongoffloat => "longoffloat" | MOlonguoffloat => "longuoffloat" | MOfloatoflong => "floatoflong"
  | MOfloatoflongu => "floatoflongu" | MOlongofsingle => "longofsingle" | MOlonguofsingle => "longuofsingle"
  | MOsingleoflong => "singleoflong" | MOsingleoflongu => "singleoflongu" | MOintoflong => "intoflong"
  | MOlongofint => "longofint" | MOlongofintu => "longofintu" | MOrbit => "rbit" | MOclz => "clz"
  | MOcls => "cls" | MOrev => "rev" | MOrev16 => "rev16" | MOsqrtf => "sqrtf" | MOsqrts => "sqrts"
  | MOnegfs => "negfs" | MOabsfs => "absfs"
  end.

Inductive MachBinaryOp :=
| MOadd | MOsub | MOmul | MOmulhs | MOmulhu | MOdiv | MOdivu | MOmod | MOmodu | MOaddf | MOsubf | MOmulf
| MOdivf | MOadds | MOsubs | MOmuls | MOdivs | MOaddl | MOsubl | MOmull | MOmullhs | MOmullhu | MOdivl
| MOdivlu | MOmodl | MOmodlu | MOand | MOor | MOxor | MOshl | MOshr | MOshru | MOandl | MOorl | MOxorl | MOshll
| MOshrl | MOshrlu | MOcmp | MOcmpu | MOcmpf | MOcmps | MOcmpl | MOcmplu | MOaddshift | MOsubshift | MOandshift
| MOorshift | MOxorshift | MOaddlshift | MOsublshift | MOandlshift | MOorlshift | MOxorlshift | MOmadd | MOmsub
| MOmaddl | MOmsubl | MOmaddf | MOmsubf | MOmadds | MOmsubs | MOnmaddf | MOnmsubf | MOnmadds | MOnmsubs | MObic
| MOorn | MOeon | MObicl | MOornl | MOeonl | MOcsel | MOcsell.

Definition MachBinaryOp_String (op : MachBinaryOp) : string :=
  match op with
  | MOadd => "add" | MOsub => "sub" | MOmul => "mul" | MOmulhs => "mulhs" | MOmulhu => "mulhu" | MOdiv => "div"
  | MOdivu => "divu" | MOmod => "mod" | MOmodu => "modu" | MOaddf => "addf" | MOsubf => "subf"
  | MOmulf => "mulf" | MOdivf => "divf" | MOadds => "adds" | MOsubs => "subs" | MOmuls => "muls"
  | MOdivs => "divs" | MOaddl => "addl" | MOsubl => "subl" | MOmull => "mull" | MOmullhs => "mullhs"
  | MOmullhu => "mullhu" | MOdivl => "divl" | MOdivlu => "divlu" | MOmodl => "modl" | MOmodlu => "modlu"
  | MOand => "and" | MOor => "or" | MOxor => "xor" | MOshl => "shl" | MOshr => "shr" | MOshru => "shru"
  | MOandl => "andl" | MOorl => "orl" | MOxorl => "xorl" | MOshll => "shll" | MOshrl => "shrl"
  | MOshrlu => "shrlu" | MOcmp => "cmp" | MOcmpu => "cmpu" | MOcmpf => "cmpf" | MOcmps => "cmps"
  | MOcmpl => "cmpl" | MOcmplu => "cmplu" | MOaddshift => "addshift" | MOsubshift => "subshift"
  | MOandshift => "andshift" | MOorshift => "orshift" | MOxorshift => "xorshift" | MOaddlshift => "addlshift"
  | MOsublshift => "sublshift" | MOandlshift => "andlshift" | MOorlshift => "orlshift"
  | MOxorlshift => "xorlshift" | MOmadd => "madd" | MOmsub => "msub" | MOmaddl => "maddl" | MOmsubl => "msubl"
  | MOmaddf => "maddf" | MOmsubf => "msubf" | MOmadds => "madds" | MOmsubs => "msubs" | MOnmaddf => "nmaddf"
  | MOnmsubf => "nmsubf" | MOnmadds => "nmadds" | MOnmsubs => "nmsubs" | MObic => "bic" | MOorn => "orn"
  | MOeon => "eon" | MObicl => "bicl" | MOornl => "ornl" | MOeonl => "eonl" | MOcsel => "csel"
  | MOcsell => "csell"
  end.

Inductive MachTernaryOp :=
| MOTmadd | MOTmsub | MOTmaddl | MOTmsubl | MOTmaddf | MOTmsubf | MOTmadds | MOTmsubs.

Definition MachTernaryOp_String (op : MachTernaryOp) : string :=
  match op with
  | MOTmadd => "madd" | MOTmsub => "msub" | MOTmaddl => "maddl" | MOTmsubl => "msubl" | MOTmaddf => "maddf"
  | MOTmsubf => "msubf" | MOTmadds => "madds" | MOTmsubs => "msubs"
  end.

#[export] Instance MachUnaryOp_eq_dec : EqDecision MachUnaryOp.
Proof. solve_decision. Defined.
#[export] Instance MachBinaryOp_eq_dec : EqDecision MachBinaryOp.
Proof. solve_decision. Defined.

Definition IsCommutative (op : MachBinaryOp) : bool :=
  match op with
  | MOadd | MOmul | MOaddf | MOmulf | MOadds | MOmuls | MOaddl | MOmull | MOand | MOor | MOxor | MOandl | MOorl
  | MOxorl => true
  | _ => false
  end.

Definition IsCompare (op : MachBinaryOp) : bool :=
  match op with
  | MOcmp | MOcmpu | MOcmpf | MOcmps | MOcmpl | MOcmplu => true
  | _ => false
  end.

Definition IsShiftCombined (op : MachBinaryOp) : bool :=
  match op with
  | MOaddshift | MOsubshift | MOandshift | MOorshift | MOxorshift | MOaddlshift | MOsublshift | MOandlshift
  | MOorlshift | MOxorlshift => true
  | _ => false
  end.

Definition IsFusedMultiply (op : MachBinaryOp) : bool :=
  match op with
  | MOmadd | MOmsub | MOmaddl | MOmsubl | MOmaddf | MOmsubf | MOmadds | MOmsubs | MOnmaddf | MOnmsubf
  | MOnmadds | MOnmsubs => true
  | _ => false
  end.

(** ** Operators ([ops.go]) *)

(** Enumerations are Go integers: an operator without a case is mapped like the
    default. *)
Definition SelectUnaryOp (op : Cminor.UnaryOp) : MachUnaryOp :=
  match op with
  | Cminor.Onegint => MOnegint | Cminor.Onegf => MOnegf | Cminor.Onegl => MOnegl | Cminor.Onegs => MOnegs
  | Cminor.Onotint => MOnotint | Cminor.Onotl => MOnotl
  | Cminor.Ocast8signed => MOcast8signed | Cminor.Ocast8unsigned => MOcast8unsigned
  | Cminor.Ocast16signed => MOcast16signed | Cminor.Ocast16unsigned => MOcast16unsigned
  | Cminor.Osingleoffloat => MOsingleoffloat | Cminor.Ofloatofsingle => MOfloatofsingle
  | Cminor.Ointoffloat => MOintoffloat | Cminor.Ointuoffloat => MOintuoffloat
  | Cminor.Ofloatofint => MOfloatofint | Cminor.Ofloatofintu => MOfloatofintu
  | Cminor.Olongoffloat => MOlongoffloat | Cminor.Olonguoffloat => MOlonguoffloat
  | Cminor.Ofloatoflong => MOfloatoflong | Cminor.Ofloatoflongu => MOfloatoflongu
  | Cminor.Olongofsingle => MOlongofsingle | Cminor.Olonguofsingle => MOlonguofsingle
  | Cminor.Osingleoflong => MOsingleoflong | Cminor.Osingleoflongu => MOsingleoflongu
  | Cminor.Ointoflong => MOintoflong | Cminor.Olongofint => MOlongofint | Cminor.Olongofintu => MOlongofintu
  | Cminor.Onotbool => MOnegint
  end.

Definition SelectBinaryOp (op : Cminor.BinaryOp) : MachBinaryOp :=
  match op with
  | Cminor.Oadd => MOadd | Cminor.Osub => MOsub | Cminor.Omul => MOmul | Cminor.Odiv => MOdiv
  | Cminor.Odivu => MOdivu | Cminor.Omod => MOmod | Cminor.Omodu => MOmodu
  | Cminor.Oaddf => MOaddf | Cminor.Osubf => MOsubf | Cminor.Omulf => MOmulf | Cminor.Odivf => MOdivf
  | Cminor.Oadds => MOadds | Cminor.Osubs => MOsubs | Cminor.Omuls => MOmuls | Cminor.Odivs => MOdivs
  | Cminor.Oaddl => MOaddl | Cminor.Osubl => MOsubl | Cminor.Omull => MOmull | Cminor.Odivl => MOdivl
  | Cminor.Odivlu => MOdivlu | Cminor.Omodl => MOmodl | Cminor.Omodlu => MOmodlu
  | Cminor.Oand => MOand | Cminor.Oor => MOor | Cminor.Oxor => MOxor
  | Cminor.Oshl => MOshl | Cminor.Oshr => MOshr | Cminor.Oshru => MOshru
  | Cminor.Oandl => MOandl | Cminor.Oorl => MOorl | Cminor.Oxorl => MOxorl
  | Cminor.Oshll => MOshll | Cminor.Oshrl => MOshrl | Cminor.Oshrlu => MOshrlu
  | Cminor.Ocmp => MOcmp | Cminor.Ocmpu => MOcmpu | Cminor.Ocmpf => MOcmpf
  | Cminor.Ocmps => MOcmps | Cminor.Ocmpl => MOcmpl | Cminor.Ocmplu => MOcmplu
  end.

(** [extractConstantOffset], [extractConstantInt] and [isConstant] are in
    [addressing.go]. *)
Definition extractConstantOffset (e : Cminor.Expr) : option Z :=
  match e with
  | Cminor.Econst (Cminor.Ointconst v) => Some v
  | Cminor.Econst (Cminor.Olongconst v) => Some v
  | _ => None
  end.

Definition extractConstantInt (e : Cminor.Expr) : option Z :=
  match e with
  | Cminor.Econst (Cminor.Ointconst v) => Some v
  | _ => None
  end.

Definition isConstant (e : Cminor.Expr) : bool := match e with Cminor.Econst _ => true | _ => false end.

(** The shift operation, its operand and a constant amount. *)
Definition extractShift (e : Cminor.Expr) : option (Cminor.BinaryOp * Cminor.Expr * Z) :=
  match e with
  | Cminor.Ebinop op l r =>
      match op with
      | Cminor.Oshl | Cminor.Oshr | Cminor.Oshru | Cminor.Oshll | Cminor.Oshrl | Cminor.Oshrlu =>
          amt ← extractConstantInt r; Some (op, l, amt)
      | _ => None
      end
  | _ => None
  end.

Definition isValidShiftAmount (amount : Z) : bool := (0 <=? amount) && (amount <=? 63).

Definition isCommutative (op : Cminor.BinaryOp) : bool :=
  match op with
  | Cminor.Oadd | Cminor.Omul | Cminor.Oand | Cminor.Oor | Cminor.Oxor
  | Cminor.Oaddl | Cminor.Omull | Cminor.Oandl | Cminor.Oorl | Cminor.Oxorl
  | Cminor.Oaddf | Cminor.Omulf | Cminor.Oadds | Cminor.Omuls => true
  | _ => false
  end.

(** The combined operation for an operator whose right operand is shifted, and,
    of the commutative ones, whose left operand is. *)
Definition combine_right (op shift : Cminor.BinaryOp) : option MachBinaryOp :=
  match op, shift with
  | Cminor.Oadd, Cminor.Oshl => Some MOaddshift
  | Cminor.Osub, Cminor.Oshl => Some MOsubshift
  | Cminor.Oand, Cminor.Oshl => Some MOandshift
  | Cminor.Oor, Cminor.Oshl => Some MOorshift
  | Cminor.Oxor, Cminor.Oshl => Some MOxorshift
  | Cminor.Oaddl, Cminor.Oshll => Some MOaddlshift
  | Cminor.Osubl, Cminor.Oshll => Some MOsublshift
  | Cminor.Oandl, Cminor.Oshll => Some MOandlshift
  | Cminor.Oorl, Cminor.Oshll => Some MOorlshift
  | Cminor.Oxorl, Cminor.Oshll => Some MOxorlshift
  | _, _ => None
  end.

Definition combine_left (op shift : Cminor.BinaryOp) : option MachBinaryOp :=
  match op, shift with
  | Cminor.Oadd, Cminor.Oshl => Some MOaddshift
  | Cminor.Oand, Cminor.Oshl => Some MOandshift
  | Cminor.Oor, Cminor.Oshl => Some MOorshift
  | Cminor.Oxor, Cminor.Oshl => Some MOxorshift
  | Cminor.Oaddl, Cminor.Oshll => Some MOaddlshift
  | Cminor.Oandl, Cminor.Oshll => Some MOandlshift
  | Cminor.Oorl, Cminor.Oshll => Some MOorlshift
  | Cminor.Oxorl, Cminor.Oshll => Some MOxorlshift
  | _, _ => None
  end.

(** The combined operation and the shift amount, for a shifted operand [e]. *)
Definition combined_with (table : Cminor.BinaryOp -> option MachBinaryOp) (e : Cminor.Expr)
    : option (MachBinaryOp * Z) :=
  '(shift, _, amount) ← extractShift e;
  if isValidShiftAmount amount then mop ← table shift; Some (mop, amount) else None.

Definition combined_right (op : Cminor.BinaryOp) (right : Cminor.Expr) : option (MachBinaryOp * Z) :=
  combined_with (combine_right op) right.

Definition combined_left (op : Cminor.BinaryOp) (left : Cminor.Expr) : option (MachBinaryOp * Z) :=
  if isCommutative op then combined_with (combine_left op) left else None.

(** [CombinedOpResult]; [None] is [IsCombined: false]. *)
Record CombinedOpResult := mkCombined {
  co_Op : MachBinaryOp;
  co_Shift : Z;
  co_Base : Cminor.Expr;
  co_Index : Cminor.Expr
}.

(** The operand before the shift. *)
Definition shifted_operand (e : Cminor.Expr) : Cminor.Expr :=
  match e with Cminor.Ebinop _ l _ => l | _ => e end.

Definition TrySelectCombinedOp (op : Cminor.BinaryOp) (left right : Cminor.Expr) : option CombinedOpResult :=
  match combined_right op right with
  | Some (mop, amount) => Some (mkCombined mop amount left (shifted_operand right))
  | None =>
      match combined_left op left with
      | Some (mop, amount) => Some (mkCombined mop amount right (shifted_operand left))
      | None => None
      end
  end.

Definition SelectComparison (cmpOp : Cminor.BinaryOp) (cmp : Cminor.Comparison) (left right : CminorSel.Expr)
    : CminorSel.Condition :=
  match cmpOp with
  | Cminor.Ocmp => CminorSel.CondCmp cmp left right
  | Cminor.Ocmpu => CminorSel.CondCmpu cmp left right
  | Cminor.Ocmpf => CminorSel.CondCmpf cmp left right
  | Cminor.Ocmps => CminorSel.CondCmps cmp left right
  | Cminor.Ocmpl => CminorSel.CondCmpl cmp left right
  | Cminor.Ocmplu => CminorSel.CondCmplu cmp left right
  | _ => CminorSel.CondCmp cmp left right
  end.

Definition NegateComparison (cmp : Cminor.Comparison) : Cminor.Comparison :=
  match cmp with
  | Cminor.Ceq => Cminor.Cne | Cminor.Cne => Cminor.Ceq
  | Cminor.Clt => Cminor.Cge | Cminor.Cle => Cminor.Cgt
  | Cminor.Cgt => Cminor.Cle | Cminor.Cge => Cminor.Clt
  end.

Definition SwapComparison (cmp : Cminor.Comparison) : Cminor.Comparison :=
  match cmp with
  | Cminor.Clt => Cminor.Cgt | Cminor.Cle => Cminor.Cge
  | Cminor.Cgt => Cminor.Clt | Cminor.Cge => Cminor.Cle
  | cmp => cmp
  end.

(** ** Addressing modes ([addressing.go]) *)

(** [translateConst] and [selectConst]: the constants of the two languages are
    the same. *)
Definition translateConst (c : Cminor.Constant) : CminorSel.Expr := CminorSel.Econst c.

Fixpoint translateExpr (e : Cminor.Expr) : CminorSel.Expr :=
  match e with
  | Cminor.Evar x => CminorSel.Evar x
  | Cminor.Econst c => translateConst c
  | Cminor.Eunop op a => CminorSel.Eunop op (translateExpr a)
  | Cminor.Ebinop op l r => CminorSel.Ebinop op (translateExpr l) (translateExpr r)
  | Cminor.Ecmp op _ l r => CminorSel.Ebinop op (translateExpr l) (translateExpr r)
  | Cminor.Eload chunk a => CminorSel.Eload chunk (Aindexed 0) [translateExpr a]
  end.

Definition AddressResult : Type := AddressingMode * list CminorSel.Expr.

Definition is_add (op : Cminor.BinaryOp) : bool :=
  match op with Cminor.Oadd | Cminor.Oaddl => true | _ => false end.

(** The first result there is: the patterns are tried in this order. *)
Definition or_else {A} (o1 o2 : option A) : option A := match o1 with Some a => Some a | None => o2 end.
Infix "<|>" := or_else (at level 51, right associativity).

(** A variable with a known address, plus a constant. *)
Definition var_plus_const (table : string -> option (Z -> AddressingMode)) (v c : Cminor.Expr) : option AddressResult :=
  match v with
  | Cminor.Evar x => mk ← table x; off ← extractConstantOffset c; Some (mk off, [])
  | _ => None
  end.

Section Addressing.
  Context (globals : gset string) (stackVars : gmap string Z).

Definition global_mode (x : string) : option (Z -> AddressingMode) :=
  if bool_decide (x ∈ globals) then Some (Aglobal x) else None.

Definition stack_mode (x : string) : option (Z -> AddressingMode) :=
  base ← stackVars !! x; Some (fun off => Ainstack (i64 (base + off))).

Definition tryAglobal (addr : Cminor.Expr) : option AddressResult :=
  match addr with
  | Cminor.Evar x => if bool_decide (x ∈ globals) then Some (Aglobal x 0, []) else None
  | Cminor.Ebinop op l r =>
      if is_add op then var_plus_const global_mode l r <|> var_plus_const global_mode r l else None
  | _ => None
  end.

Definition stack_plus_const (s c : Cminor.Expr) : option AddressResult :=
  match s with
  | Cminor.Econst (Cminor.Oaddrstack ofs) => off ← extractConstantOffset c; Some (Ainstack (i64 (ofs + off)), [])
  | _ => None
  end.

Definition tryAinstack (addr : Cminor.Expr) : option AddressResult :=
  match addr with
  | Cminor.Econst (Cminor.Oaddrstack ofs) => Some (Ainstack ofs, [])
  | Cminor.Evar x => off ← stackVars !! x; Some (Ainstack off, [])
  | Cminor.Ebinop op l r =>
      if is_add op then
        stack_plus_const l r <|> stack_plus_const r l <|>
        var_plus_const stack_mode l r <|> var_plus_const stack_mode r l
      else None
  | _ => None
  end.

Definition extractShiftAdd (base shifted : Cminor.Expr) : option (Z * Cminor.Expr * Cminor.Expr) :=
  match shifted with
  | Cminor.Ebinop (Cminor.Oshl | Cminor.Oshll) index amount =>
      amt ← extractConstantInt amount; Some (amt, base, index)
  | _ => None
  end.

Definition scaled (base shifted : Cminor.Expr) : option AddressResult :=
  '(shift, base, index) ← extractShiftAdd base shifted;
  if (0 <=? shift) && (shift <=? 3) then Some (Aindexed2shift shift, [translateExpr base; translateExpr index]) else None.

Definition tryAindexed2shift (addr : Cminor.Expr) : option AddressResult :=
  match addr with
  | Cminor.Ebinop op l r => if is_add op then scaled l r <|> scaled r l else None
  | _ => None
  end.

Definition tryAindexed2 (addr : Cminor.Expr) : option AddressResult :=
  match addr with
  | Cminor.Ebinop op l r =>
      if is_add op && negb (isConstant l || isConstant r) then Some (Aindexed2, [translateExpr l; translateExpr r])
      else None
  | _ => None
  end.

Definition base_plus_const (b c : Cminor.Expr) : option AddressResult :=
  off ← extractConstantOffset c; Some (Aindexed off, [translateExpr b]).

Definition tryAindexed (addr : Cminor.Expr) : option AddressResult :=
  match addr with
  | Cminor.Ebinop (Cminor.Oadd | Cminor.Oaddl) l r => base_plus_const l r <|> base_plus_const r l
  | Cminor.Ebinop (Cminor.Osub | Cminor.Osubl) l r =>
      off ← extractConstantOffset r; Some (Aindexed (i64 (- off)), [translateExpr l])
  | _ => None
  end.

Definition SelectAddressing (addr : Cminor.Expr) : AddressResult :=
  default (Aindexed 0, [translateExpr addr])
    (tryAglobal addr <|> tryAinstack addr <|> tryAindexed2shift addr <|> tryAindexed2 addr <|> tryAindexed addr).
End Addressing.

(** ** Expressions ([expr.go]) *)

Record SelectionContext := mkContext {
  ctx_Globals : gset string;
  ctx_StackVars : gmap string Z
}.

(** The maps that are not given ([nil]) are empty. *)
Definition NewSelectionContext (globals : option (gset string)) (stackVars : option (gmap string Z)) : SelectionContext :=
  mkContext (default ∅ globals) (default ∅ stackVars).

Section Expressions.
  Context (ctx : SelectionContext).

Definition selectVar (x : string) : CminorSel.Expr :=
  if bool_decide (x ∈ ctx_Globals ctx) then CminorSel.Econst (Cminor.Oaddrsymbol x 0)
  else match ctx_StackVars ctx !! x with
       | Some off => CminorSel.Econst (Cminor.Oaddrstack off)
       | None => CminorSel.Evar x
       end.

Definition selectUnop (op : Cminor.UnaryOp) (arg : CminorSel.Expr) : CminorSel.Expr :=
  match op with
  | Cminor.Onotbool => CminorSel.Ecmp Cminor.Ocmp Cminor.Ceq arg (CminorSel.Econst (Cminor.Ointconst 0))
  | op => CminorSel.Eunop op arg
  end.

(** The bitwise operations fall back to [Oand], without the shift. *)
Definition buildCombinedOp (op : MachBinaryOp) (shift : Z) (base index : CminorSel.Expr) : CminorSel.Expr :=
  match op with
  | MOaddshift | MOaddlshift => CminorSel.Eaddshift CminorSel.Slsl shift base index
  | MOsubshift | MOsublshift => CminorSel.Esubshift CminorSel.Slsl shift base index
  | _ => CminorSel.Ebinop Cminor.Oand base index
  end.

Fixpoint reSelectExpr (e : CminorSel.Expr) : CminorSel.Expr :=
  match e with
  | CminorSel.Evar x => selectVar x
  | CminorSel.Eunop op a => CminorSel.Eunop op (reSelectExpr a)
  | CminorSel.Ebinop op l r => CminorSel.Ebinop op (reSelectExpr l) (reSelectExpr r)
  | CminorSel.Eload chunk mode args => CminorSel.Eload chunk mode (map reSelectExpr args)
  | e => e
  end.

(** The address of a load or a store. *)
Definition select_address (addr : Cminor.Expr) : AddressResult :=
  let '(mode, args) := SelectAddressing (ctx_Globals ctx) (ctx_StackVars ctx) addr in
  (mode, map reSelectExpr args).

(** [TrySelectCombinedOp], with the operands selected in place
    ([selectBinop_combined]). *)
Fixpoint SelectExpr (e : Cminor.Expr) : CminorSel.Expr :=
  match e with
  | Cminor.Evar x => selectVar x
  | Cminor.Econst c => CminorSel.Econst c
  | Cminor.Eunop op a => selectUnop op (SelectExpr a)
  | Cminor.Ebinop op l r =>
      match combined_right op r with
      | Some (mop, amount) =>
          buildCombinedOp mop amount (SelectExpr l)
            (match r with Cminor.Ebinop _ i _ => SelectExpr i | _ => SelectExpr r end)
      | None =>
          match combined_left op l with
          | Some (mop, amount) =>
              buildCombinedOp mop amount (SelectExpr r)
                (match l with Cminor.Ebinop _ i _ => SelectExpr i | _ => SelectExpr l end)
          | None => CminorSel.Ebinop op (SelectExpr l) (SelectExpr r)
          end
      end
  | Cminor.Ecmp op cmp l r => CminorSel.Ecmp op cmp (SelectExpr l) (SelectExpr r)
  | Cminor.Eload chunk addr =>
      let '(mode, args) := select_address addr in CminorSel.Eload chunk mode args
  end.

Definition is_nonzero_const (c : Cminor.Constant) : bool :=
  match c with
  | Cminor.Ointconst v | Cminor.Olongconst v => negb (v =? 0)
  | _ => true
  end.

(** A condition that is not a comparison: is it non-zero? *)
Definition nonzero_cond (e : CminorSel.Expr) : CminorSel.Condition :=
  CminorSel.CondCmp Cminor.Cne e (CminorSel.Econst (Cminor.Ointconst 0)).

Fixpoint SelectCondition (e : Cminor.Expr) : CminorSel.Condition :=
  match e with
  | Cminor.Ecmp op cmp l r => SelectComparison op cmp (SelectExpr l) (SelectExpr r)
  | Cminor.Econst c => if is_nonzero_const c then CminorSel.CondTrue else CminorSel.CondFalse
  | Cminor.Eunop Cminor.Onotbool a => CminorSel.CondNot (SelectCondition a)
  | e => nonzero_cond (SelectExpr e)
  end.

Definition SelectConditionalExpr (cond thenExpr elseExpr : Cminor.Expr) : CminorSel.Expr :=
  CminorSel.Econdition (SelectCondition cond) (SelectExpr thenExpr) (SelectExpr elseExpr).

(** ** Statements ([stmt.go]) *)

Fixpoint SelectStmt (s : Cminor.Stmt) : CminorSel.Stmt :=
  match s with
  | Sskip => Sskip
  | Sassign x a => Sassign x (SelectExpr a)
  | Sstore chunk addr a => Sstore chunk (select_address addr) (SelectExpr a)
  | Scall result sig f args => Scall result sig (SelectExpr f) (map SelectExpr args)
  | Stailcall sig f args => Stailcall sig (SelectExpr f) (map SelectExpr args)
  | Sbuiltin result b args => Sbuiltin result b (map SelectExpr args)
  | Sseq s1 s2 => Sseq (SelectStmt s1) (SelectStmt s2)
  | Sifthenelse c s1 s2 => Sifthenelse (SelectCondition c) (SelectStmt s1) (SelectStmt s2)
  | Sloop s => Sloop (SelectStmt s)
  | Sblock s => Sblock (SelectStmt s)
  | Sexit n => Sexit n
  | Sswitch isLong a cases d =>
      Sswitch isLong (SelectExpr a) (map (fun c => (c.1, SelectStmt c.2)) cases) (SelectStmt d)
  | Sreturn a => Sreturn (SelectExpr <$> a)
  | Slabel l s => Slabel l (SelectStmt s)
  | Sgoto l => Sgoto l
  end.

Definition SelectFunction (f : Cminor.Function) : CminorSel.Function :=
  CminorSel.mkFunction (Cminor.fn_Name f) (Cminor.fn_Sig f) (Cminor.fn_Params f) (Cminor.fn_Vars f)
    (Cminor.fn_Stackspace f) (SelectStmt (Cminor.fn_Body f)).
End Expressions.

(** [IsProfitableIfConversion] and its test are not used by the pass. *)
Fixpoint isSimpleExpr (e : Cminor.Expr) : bool :=
  match e with
  | Cminor.Evar _ | Cminor.Econst _ => true
  | Cminor.Eunop _ a => isSimpleExpr a
  | Cminor.Ebinop op l r =>
      match op with
      | Cminor.Odiv | Cminor.Odivu | Cminor.Omod | Cminor.Omodu
      | Cminor.Odivl | Cminor.Odivlu | Cminor.Omodl | Cminor.Omodlu
      | Cminor.Odivf | Cminor.Odivs => false
      | _ => isSimpleExpr l && isSimpleExpr r
      end
  | Cminor.Ecmp _ _ l r => isSimpleExpr l && isSimpleExpr r
  | Cminor.Eload _ _ => false
  end.

Definition IsProfitableIfConversion (thenExpr elseExpr : Cminor.Expr) : bool :=
  isSimpleExpr thenExpr && isSimpleExpr elseExpr.

(** *** Programs *)

Definition called_name (f : Cminor.Expr) : option string :=
  match f with Cminor.Evar x => Some x | _ => None end.

Definition add_external (defined : gset string) (f : Cminor.Expr) (externals : gset string) : gset string :=
  match called_name f with
  | Some x => if bool_decide (x ∈ defined) then externals else {[x]} ∪ externals
  | None => externals
  end.

(** Labelled statements are not searched. *)
Fixpoint collectExternalFunctionsInStmt (defined : gset string) (s : Cminor.Stmt) (externals : gset string)
    : gset string :=
  match s with
  | Scall _ _ f _ | Stailcall _ f _ => add_external defined f externals
  | Sseq s1 s2 | Sifthenelse _ s1 s2 =>
      collectExternalFunctionsInStmt defined s2 (collectExternalFunctionsInStmt defined s1 externals)
  | Sloop s | Sblock s => collectExternalFunctionsInStmt defined s externals
  | Sswitch _ _ cases d =>
      collectExternalFunctionsInStmt defined d
        (fold_left (fun ext c => collectExternalFunctionsInStmt defined c.2 ext) cases externals)
  | _ => externals
  end.

Definition collectExternalFunctions (p : Cminor.Program) (defined : gset string) : gset string :=
  fold_left (fun ext f => collectExternalFunctionsInStmt defined (Cminor.fn_Body f) ext) (Cminor.Functions p) ∅.

(** The names a program defines, and those it calls besides. *)
Definition program_defined (p : Cminor.Program) : gset string :=
  list_to_set (map Cminor.gv_Name (Cminor.Globals p)) ∪ list_to_set (map Cminor.fn_Name (Cminor.Functions p)).

Definition program_globals (p : Cminor.Program) : gset string :=
  program_defined p ∪ collectExternalFunctions p (program_defined p).

Definition SelectProgram (ctx : SelectionContext) (p : Cminor.Program) : CminorSel.Program :=
  let ctx := mkContext (program_globals p) (ctx_StackVars ctx) in
  CminorSel.mkProgram
    ((fun g => CminorSel.mkGlobVar (Cminor.gv_Name g) (Cminor.gv_Size g) (Cminor.gv_Init g) (Cminor.gv_ReadOnly g))
      <$> Cminor.Globals p)
    (SelectFunction ctx <$> Cminor.Functions p).
