(* ===== verification/SelectionPass.v ===== *)
(** Selection preserves values: of expressions, addresses and conditions.
    Instruction selection: functions take the same steps before and after, and
    the theorems of the pass. *)

From S2P Require Import Prelude Target IntOps Semantics RtlSem Structured Values CminorSem Selection.
From S2P Require Import Selection StructuredMap RtlGenPass ValuesExample.
From S2P Require Cminor CminorSel.

(** ** What selection supports *)

(** A name stands for a symbol exactly when it is not a local variable. *)
Definition name_ok (globals locals : gset string) (x : string) : bool :=
  xorb (bool_decide (x ∈ globals)) (bool_decide (x ∈ locals)).

(** Combined operations that are built as such: 32-bit additions and
    subtractions. *)
Definition combined_ok (op : MachBinaryOp) : bool :=
  match op with MOaddshift | MOsubshift => true | _ => false end.

Definition binop_ok (op : Cminor.BinaryOp) (l r : Cminor.Expr) : bool :=
  match TrySelectCombinedOp op l r with Some c => combined_ok (co_Op c) | None => true end.

(** Addresses: no comparisons. *)
Fixpoint address_ok (globals locals : gset string) (a : Cminor.Expr) : bool :=
  match a with
  | Cminor.Evar x => name_ok globals locals x
  | Cminor.Econst _ => true
  | Cminor.Eunop _ a | Cminor.Eload _ a => address_ok globals locals a
  | Cminor.Ebinop _ l r => address_ok globals locals l && address_ok globals locals r
  | Cminor.Ecmp _ _ _ _ => false
  end.

Fixpoint expr_ok (globals locals : gset string) (a : Cminor.Expr) : bool :=
  match a with
  | Cminor.Evar x => name_ok globals locals x
  | Cminor.Econst _ => true
  | Cminor.Eunop _ a => expr_ok globals locals a
  | Cminor.Ebinop op l r => binop_ok op l r && expr_ok globals locals l && expr_ok globals locals r
  | Cminor.Ecmp _ _ l r => expr_ok globals locals l && expr_ok globals locals r
  | Cminor.Eload _ a => address_ok globals locals a
  end.

(** ** Integers that wrap around *)

Lemma i64_congr a b k : a = b + k * 2 ^ 64 -> i64 a = i64 b.
Proof. intros ->. unfold i64, wrap. f_equal. rewrite <- (Z.mod_add (b + 2 ^ (64 - 1)) k (2 ^ 64)) by done. f_equal. lia. Qed.

Lemma i64_eq a : exists k, i64 a = a + k * 2 ^ 64.
Proof.
  unfold i64, wrap. exists (- ((a + 2 ^ (64 - 1)) / 2 ^ 64)).
  pose proof (Z.div_mod (a + 2 ^ (64 - 1)) (2 ^ 64) ltac:(done)). lia.
Qed.

Lemma i64_add_l a b : i64 (i64 a + b) = i64 (a + b).
Proof. destruct (i64_eq a) as [k Hk]. apply (i64_congr _ _ k). lia. Qed.

Lemma i64_add_r a b : i64 (a + i64 b) = i64 (a + b).
Proof. rewrite Z.add_comm, i64_add_l, Z.add_comm. done. Qed.

Lemma i64_idem a : i64 (i64 a) = i64 a.
Proof. pose proof (i64_add_l a 0) as H. by rewrite !Z.add_0_r in H. Qed.

Lemma i64_opp_add a b : i64 (a + i64 (- b)) = i64 (a - b).
Proof. by rewrite i64_add_r. Qed.

Section Expressions.
  Context {M : Type} `{FO : FloatOps} `{LO : Layout} `{TS : TargetSemantics val M}.
  Context {VT : ValueTarget M}.
  Context (globals locals : gset string).
  Implicit Types (e : gmap string val) (m : M).

Local Abbreviation ctx := (mkContext globals ∅).
Local Abbreviation cm := (cm_expr locals).

Lemma selectVar_ok e m le x v :
  name_ok globals locals x = true -> cm e m (Cminor.Evar x) = Some v -> sel_expr e m le (selectVar ctx x) = Some v.
Proof using.
  unfold name_ok, selectVar. intros Hok Hv. cbn in Hv |- *.
  destruct (decide (x ∈ locals)) as [Hl|Hl];
    [rewrite (bool_decide_true _ Hl) in Hok|rewrite (bool_decide_false _ Hl) in Hok];
    destruct (bool_decide (x ∈ globals)); done.
Qed.

(** Address computations, translated without selection. *)
Lemma translateExpr_ok e m le a : forall v,
  address_ok globals locals a = true -> cm e m a = Some v -> sel_expr e m le (reSelectExpr ctx (translateExpr a)) = Some v.
Proof using.
  induction a as [x|c|op a IH|op l IHl r IHr|op cmp l IHl r IHr|chunk a IH]; intros v Hok Hv;
    cbn [translateExpr reSelectExpr map] in *; simpl in Hok; destruct_andb.
  - by apply selectVar_ok.
  - done.
  - cbn in Hv |- *. destruct (cm e m a) as [v1|] eqn:E; [|done]. by rewrite (IH v1).
  - cbn in Hv |- *. destruct (cm e m l) as [v1|] eqn:E1; [|done]. cbn in Hv.
    destruct (cm e m r) as [v2|] eqn:E2; [|done]. by rewrite (IHl v1), (IHr v2).
  - done.
  - cbn in Hv |- *. destruct (cm e m a) as [v1|] eqn:E; [|done]. rewrite (IH v1) by done. cbn in Hv |- *.
    destruct v1 as [|p| |]; try done. cbn in Hv |- *. by rewrite Z.add_0_r.
Qed.

(** ** Addressing modes *)

(** The mode and its arguments denote the address. *)
Definition mode_ok e m (a : Cminor.Expr) (r : AddressResult) : Prop := forall p,
  cm e m a = Some (Vlong p) ->
  exists vs, mapM (sel_expr e m []) (map (reSelectExpr ctx) r.2) = Some vs /\ val_addr r.1 vs = Some (i64 p).

Lemma or_else_ok {A} (P : A -> Prop) (o1 o2 : option A) r :
  (forall r, o1 = Some r -> P r) -> (forall r, o2 = Some r -> P r) -> (o1 <|> o2) = Some r -> P r.
Proof using. intros H1 H2. unfold or_else. destruct o1 as [a|]; [|apply H2]. intros [= <-]. by apply H1. Qed.

(** Sums and differences that are addresses are 64-bit. *)
Lemma sum_address e m op l r p :
  is_add op = true -> cm e m (Cminor.Ebinop op l r) = Some (Vlong p) ->
  exists a b, cm e m l = Some (Vlong a) /\ cm e m r = Some (Vlong b) /\ p = i64 (a + b).
Proof using.
  intros Hop Hv. cbn in Hv. destruct (cm e m l) as [v1|]; [|done]. cbn in Hv. destruct (cm e m r) as [v2|]; [|done].
  destruct op, v1 as [|a| |], v2 as [|b| |]; try done; cbn in Hv. injection Hv as <-. by exists a, b.
Qed.

Lemma const_address e m c off b : extractConstantOffset c = Some off -> cm e m c = Some (Vlong b) -> b = off.
Proof using. destruct c as [|[]| | | |]; try done; cbn; congruence. Qed.

Lemma var_plus_const_ok e m table v c l r op res :
  (forall x mk off, v = Cminor.Evar x -> table x = Some mk -> exists base, cm e m (Cminor.Evar x) = Some (Vlong (i64 base)) /\
     val_addr (mk off) [] = Some (i64 (base + off))) ->
  is_add op = true -> (v, c) = (l, r) \/ (v, c) = (r, l) -> var_plus_const table v c = Some res ->
  mode_ok e m (Cminor.Ebinop op l r) res.
Proof using.
  intros Ht Hop Hvc Hres p Hp. destruct (sum_address e m op l r p Hop Hp) as (a & b & Ha & Hb & ->).
  unfold var_plus_const in Hres. destruct v as [x| | | | |]; try done.
  destruct (table x) as [mk|] eqn:Ex; [|done]. cbn in Hres. destruct (extractConstantOffset c) as [off|] eqn:Ec; [|done].
  injection Hres as <-. destruct (Ht x mk off eq_refl Ex) as (base & Hx & Hmk). exists []. split; [done|]. cbn [fst].
  rewrite Hmk, i64_idem. f_equal. destruct Hvc as [[= <- <-]|[= <- <-]].
  - rewrite (const_address e m c off b Ec Hb). rewrite Hx in Ha. injection Ha as <-. by rewrite i64_add_l.
  - rewrite (const_address e m c off a Ec Ha). rewrite Hx in Hb. injection Hb as <-. by rewrite i64_add_r, Z.add_comm.
Qed.

Lemma global_mode_ok e m x mk off :
  name_ok globals locals x = true -> global_mode globals x = Some mk ->
  exists base, cm e m (Cminor.Evar x) = Some (Vlong (i64 base)) /\ val_addr (mk off) [] = Some (i64 (base + off)).
Proof using.
  unfold global_mode, name_ok. intros Hok H. destruct (bool_decide (x ∈ globals)); [|done]. injection H as <-.
  exists (symbol_address x). split; [|done]. cbn. rewrite decide_False; [unfold symbol_offset; by rewrite Z.add_0_r|].
  intros Hl. by rewrite (bool_decide_true _ Hl) in Hok.
Qed.

Lemma tryAglobal_ok e m a res : address_ok globals locals a = true -> tryAglobal globals a = Some res -> mode_ok e m a res.
Proof using.
  intros Hok Hres. destruct a as [x| | |op l r| |]; try done; cbn [tryAglobal] in Hres.
  - intros p Hp. destruct (bool_decide (x ∈ globals)) eqn:Eg; [|done]. injection Hres as <-. exists []. split; [done|].
    destruct (global_mode_ok e m x (Aglobal x) 0 Hok) as (base & Hx & Hmk); [unfold global_mode; by rewrite Eg|].
    cbn [fst]. rewrite Hmk. rewrite Hx in Hp. injection Hp as <-. by rewrite i64_idem, Z.add_0_r.
  - destruct (is_add op) eqn:Eop; [|done]. simpl in Hok. destruct_andb. revert Hres.
    apply or_else_ok; intros r'; (eapply var_plus_const_ok; [|done|tauto]); intros x mk off ->; by apply global_mode_ok.
Qed.

Lemma stack_plus_const_ok e m s c l r op res :
  is_add op = true -> (s, c) = (l, r) \/ (s, c) = (r, l) -> stack_plus_const s c = Some res ->
  mode_ok e m (Cminor.Ebinop op l r) res.
Proof using.
  intros Hop Hsc Hres p Hp. destruct (sum_address e m op l r p Hop Hp) as (a & b & Ha & Hb & ->).
  unfold stack_plus_const in Hres. destruct s as [|[| | | | |ofs]| | | |]; try done.
  destruct (extractConstantOffset c) as [off|] eqn:Ec; [|done]. injection Hres as <-. exists []. split; [done|].
  cbn. f_equal. rewrite i64_add_r, i64_idem. destruct Hsc as [[= <- <-]|[= <- <-]].
  - rewrite (const_address e m c off b Ec Hb). injection Ha as <-. rewrite i64_add_l. f_equal. lia.
  - rewrite (const_address e m c off a Ec Ha). injection Hb as <-. rewrite i64_add_r. f_equal. lia.
Qed.

Lemma tryAinstack_ok e m a res : tryAinstack ∅ a = Some res -> mode_ok e m a res.
Proof using.
  intros Hres. destruct a as [x|[| | | | |ofs]| |op l r| |]; try done; cbn [tryAinstack] in Hres.
  - injection Hres as <-. intros p [= <-]. exists []. split; [done|]. cbn. by rewrite i64_idem.
  - destruct (is_add op) eqn:Eop; [|done].
    assert (Hnone : forall v c, var_plus_const (stack_mode ∅) v c = None) by by intros [] ?.
    rewrite !Hnone in Hres. revert Hres. apply or_else_ok; intros r1; [apply stack_plus_const_ok; tauto|].
    apply or_else_ok; intros r2; [apply stack_plus_const_ok; tauto|done].
Qed.

(** Two arguments, in either order. *)
Lemma two_args e m l r a b :
  address_ok globals locals l = true -> address_ok globals locals r = true ->
  cm e m l = Some a -> cm e m r = Some b ->
  mapM (sel_expr e m []) (map (reSelectExpr ctx) [translateExpr l; translateExpr r]) = Some [a; b].
Proof using.
  intros Hl Hr Ha Hb. cbn [map mapM]. rewrite (translateExpr_ok e m [] l a), (translateExpr_ok e m [] r b) by done. done.
Qed.

Lemma one_arg e m l a :
  address_ok globals locals l = true -> cm e m l = Some a ->
  mapM (sel_expr e m []) (map (reSelectExpr ctx) [translateExpr l]) = Some [a].
Proof using. intros Hl Ha. cbn [map mapM]. by rewrite (translateExpr_ok e m [] l a). Qed.

Lemma scaled_ok e m base shifted l r op res :
  address_ok globals locals base = true -> address_ok globals locals shifted = true -> is_add op = true ->
  (base, shifted) = (l, r) \/ (base, shifted) = (r, l) -> scaled base shifted = Some res ->
  mode_ok e m (Cminor.Ebinop op l r) res.
Proof using.
  intros Hob Hos Hop Hbs Hres p Hp. destruct (sum_address e m op l r p Hop Hp) as (a & b & Ha & Hb & ->).
  assert (Hs : exists x y, cm e m base = Some (Vlong x) /\ cm e m shifted = Some (Vlong y) /\ i64 (a + b) = i64 (x + y)).
  { destruct Hbs as [[= -> ->]|[= -> ->]]; [by exists a, b|]. exists b, a. by rewrite Z.add_comm. }
  destruct Hs as (x & y & Hx & Hy & ->). unfold scaled, extractShiftAdd in Hres.
  destruct shifted as [| | |sop index amount| |]; try done.
  destruct (extractConstantInt amount) as [k|] eqn:Ek; [|by destruct sop].
  assert (Hamt : amount = Cminor.Econst (Cminor.Ointconst k)).
  { destruct amount as [|[]| | | |]; try done. by injection Ek as ->. }
  subst amount. cbn in Hy. destruct (cm e m index) as [vi|] eqn:Ei; [|done]. cbn in Hy. simpl in Hos. destruct_andb.
  destruct sop, vi as [i|i| |]; try done; cbn in Hy; unfold guard_shift in Hy;
    destruct ((0 <=? k) && (k <? _)); try done; injection Hy as <-.
  cbn in Hres. destruct ((0 <=? k) && (k <=? 3)); [|done]. injection Hres as <-.
  exists [Vlong x; Vlong i]. split; [by apply two_args|]. cbn. f_equal. by rewrite i64_idem, i64_add_r.
Qed.

Lemma tryAindexed2shift_ok e m a res :
  address_ok globals locals a = true -> tryAindexed2shift a = Some res -> mode_ok e m a res.
Proof using.
  intros Hok Hres. destruct a as [| | |op l r| |]; try done; cbn [tryAindexed2shift] in Hres.
  destruct (is_add op) eqn:Eop; [|done]. simpl in Hok. destruct_andb. revert Hres.
  apply or_else_ok; intros r'; apply scaled_ok; tauto.
Qed.

Lemma tryAindexed2_ok e m a res :
  address_ok globals locals a = true -> tryAindexed2 a = Some res -> mode_ok e m a res.
Proof using.
  intros Hok Hres p Hp. destruct a as [| | |op l r| |]; try done; cbn [tryAindexed2] in Hres.
  destruct (is_add op) eqn:Eop; [|done]. destruct (negb _); [|done]. injection Hres as <-. simpl in Hok. destruct_andb.
  destruct (sum_address e m op l r p Eop Hp) as (a & b & Ha & Hb & ->).
  exists [Vlong a; Vlong b]. split; [by apply two_args|]. cbn. by rewrite i64_idem.
Qed.

Lemma base_plus_const_ok e m b c l r op res :
  address_ok globals locals b = true -> is_add op = true -> (b, c) = (l, r) \/ (b, c) = (r, l) ->
  base_plus_const b c = Some res -> mode_ok e m (Cminor.Ebinop op l r) res.
Proof using.
  intros Hob Hop Hbc Hres p Hp. destruct (sum_address e m op l r p Hop Hp) as (x & y & Hx & Hy & ->).
  unfold base_plus_const in Hres. destruct (extractConstantOffset c) as [off|] eqn:Ec; [|done]. injection Hres as <-.
  assert (Hs : exists z, cm e m b = Some (Vlong z) /\ i64 (x + y) = i64 (z + off)).
  { destruct Hbc as [[= -> ->]|[= -> ->]].
    - exists x. by rewrite (const_address e m r off y Ec Hy).
    - exists y. by rewrite (const_address e m l off x Ec Hx), Z.add_comm. }
  destruct Hs as (z & Hz & ->). exists [Vlong z]. split; [by apply one_arg|]. cbn. by rewrite i64_idem.
Qed.

Lemma tryAindexed_ok e m a res :
  address_ok globals locals a = true -> tryAindexed a = Some res -> mode_ok e m a res.
Proof using.
  intros Hok Hres. destruct a as [| | |op l r| |]; try done. simpl in Hok. destruct_andb.
  destruct op; try done; cbn [tryAindexed] in Hres;
    try (revert Hres; apply or_else_ok; intros r'; apply base_plus_const_ok; tauto).
  all: intros p Hp; cbn in Hp; destruct (cm e m l) as [v1|] eqn:E1; try done; cbn in Hp;
    destruct (cm e m r) as [v2|] eqn:E2; try done; cbn in Hp; destruct v1 as [|x| |], v2 as [|y| |]; try done.
  injection Hp as <-. destruct (extractConstantOffset r) as [off|] eqn:Ec; [|done]. injection Hres as <-.
  rewrite (const_address e m r off y Ec E2). exists [Vlong x]. split; [by apply one_arg|]. cbn.
  by rewrite i64_idem, i64_opp_add.
Qed.

Theorem select_address_ok e m a p :
  address_ok globals locals a = true -> cm e m a = Some (Vlong p) ->
  exists vs, mapM (sel_expr e m []) (select_address ctx a).2 = Some vs /\ val_addr (select_address ctx a).1 vs = Some (i64 p).
Proof using.
  intros Hok Hp. unfold select_address, SelectAddressing. cbn [ctx_Globals ctx_StackVars].
  destruct (_ <|> _) as [res|] eqn:E; cbn [default from_option id].
  - enough (mode_ok e m a res) as H by (destruct res as [mode args]; by apply H). revert E.
    apply or_else_ok; intros r1; [by apply tryAglobal_ok|]. apply or_else_ok; intros r2; [by apply tryAinstack_ok|].
    apply or_else_ok; intros r3; [by apply tryAindexed2shift_ok|]. apply or_else_ok; intros r4; [by apply tryAindexed2_ok|].
    by apply tryAindexed_ok.
  - exists [Vlong p]. split; [by apply one_arg|]. cbn. by rewrite Z.add_0_r.
Qed.

(** ** Expressions *)

(** What [SelectExpr] does for [selectBinop] and [buildCombinedOp]. *)
Lemma selectBinop_combined op l r :
  SelectExpr ctx (Cminor.Ebinop op l r) =
  match TrySelectCombinedOp op l r with
  | Some c => buildCombinedOp (co_Op c) (co_Shift c) (SelectExpr ctx (co_Base c)) (SelectExpr ctx (co_Index c))
  | None => CminorSel.Ebinop op (SelectExpr ctx l) (SelectExpr ctx r)
  end.
Proof using.
  cbn [SelectExpr]. unfold TrySelectCombinedOp. destruct (combined_right op r) as [[mop k]|]; [by destruct r|].
  destruct (combined_left op l) as [[mop k]|]; [by destruct l|done].
Qed.

Lemma combined_with_inv table x mop k :
  combined_with table x = Some (mop, k) ->
  exists shift i, x = Cminor.Ebinop shift i (Cminor.Econst (Cminor.Ointconst k)) /\ table shift = Some mop.
Proof using.
  unfold combined_with. destruct (extractShift x) as [[[shift i] amount]|] eqn:Ex; [|done]. cbn.
  destruct (isValidShiftAmount amount); [|done]. destruct (table shift) as [mop'|] eqn:Et; [|done]. intros [= <- <-].
  exists shift, i. split; [|done]. destruct x as [| | |op l r| |]; try done. cbn in Ex.
  destruct (extractConstantInt r) as [a|] eqn:Er; [|by destruct op].
  assert (r = Cminor.Econst (Cminor.Ointconst a)) as ->.
  { destruct r as [|[]| | | |]; try done. by injection Er as ->. }
  destruct op; try done; by injection Ex as <- <- <-.
Qed.

Definition selected_ok e m (a : Cminor.Expr) : Prop := forall v,
  expr_ok globals locals a = true -> cm e m a = Some v -> sel_expr e m [] (SelectExpr ctx a) = Some v.

Lemma addshift_eval e m k a1 a2 v1 v2 v3 v :
  sel_expr e m [] a1 = Some v1 -> sel_expr e m [] a2 = Some v2 -> eval_binop Cminor.Oshl v2 (Vint k) = Some v3 ->
  eval_binop Cminor.Oadd v1 v3 = Some v -> sel_expr e m [] (CminorSel.Eaddshift CminorSel.Slsl k a1 a2) = Some v.
Proof using. intros H1 H2 H3 H4. cbn [sel_expr]. rewrite H1. cbn [mbind option_bind]. by rewrite H2; cbn [mbind option_bind shift_op]; rewrite H3. Qed.

Lemma subshift_eval e m k a1 a2 v1 v2 v3 v :
  sel_expr e m [] a1 = Some v1 -> sel_expr e m [] a2 = Some v2 -> eval_binop Cminor.Oshl v2 (Vint k) = Some v3 ->
  eval_binop Cminor.Osub v1 v3 = Some v -> sel_expr e m [] (CminorSel.Esubshift CminorSel.Slsl k a1 a2) = Some v.
Proof using. intros H1 H2 H3 H4. cbn [sel_expr]. rewrite H1. cbn [mbind option_bind]. by rewrite H2; cbn [mbind option_bind shift_op]; rewrite H3. Qed.

(** A 32-bit addition or subtraction whose right operand is shifted. *)
Lemma shifted_right_ok e m op l r mop k v :
  combined_right op r = Some (mop, k) -> combined_ok mop = true ->
  expr_ok globals locals l = true -> expr_ok globals locals r = true ->
  selected_ok e m l -> selected_ok e m (shifted_operand r) -> cm e m (Cminor.Ebinop op l r) = Some v ->
  sel_expr e m [] (buildCombinedOp mop k (SelectExpr ctx l) (SelectExpr ctx (shifted_operand r))) = Some v.
Proof using.
  intros Hc Hok Hl Hr IHl IHi Hv. destruct (combined_with_inv _ _ _ _ Hc) as (shift & i & -> & Ht). cbn [shifted_operand] in *.
  cbn in Hv. destruct (cm e m l) as [v1|] eqn:E1; [|done]. cbn in Hv.
  destruct (cm e m i) as [vi|] eqn:Ei; [|done]. cbn in Hv.
  assert (Hi : sel_expr e m [] (SelectExpr ctx i) = Some vi).
  { apply IHi; [|done]. simpl in Hr. by destruct_andb. }
  specialize (IHl v1 Hl E1). destruct (eval_binop shift vi (Vint k)) as [v2|] eqn:E2; [|done]. cbn in Hv.
  destruct op, shift; try done; cbn in Ht; injection Ht as <-; try done; cbn [buildCombinedOp] in *.
  - by apply (addshift_eval _ _ _ _ _ v1 vi v2).
  - by apply (subshift_eval _ _ _ _ _ v1 vi v2).
Qed.

(** A 32-bit addition whose left operand is shifted. *)
Lemma shifted_left_ok e m op l r mop k v :
  combined_left op l = Some (mop, k) -> combined_ok mop = true ->
  expr_ok globals locals l = true -> expr_ok globals locals r = true ->
  selected_ok e m r -> selected_ok e m (shifted_operand l) -> cm e m (Cminor.Ebinop op l r) = Some v ->
  sel_expr e m [] (buildCombinedOp mop k (SelectExpr ctx r) (SelectExpr ctx (shifted_operand l))) = Some v.
Proof using.
  intros Hc Hok Hl Hr IHr IHi Hv. unfold combined_left in Hc. destruct (isCommutative op) eqn:Eop; [|done].
  destruct (combined_with_inv _ _ _ _ Hc) as (shift & i & -> & Ht). cbn [shifted_operand] in *.
  cbn in Hv. destruct (cm e m i) as [vi|] eqn:Ei; [|done]. cbn in Hv.
  destruct (eval_binop shift vi (Vint k)) as [v1|] eqn:E1; [|done]. cbn in Hv.
  destruct (cm e m r) as [v2|] eqn:E2; [|done]. cbn in Hv.
  assert (Hi : sel_expr e m [] (SelectExpr ctx i) = Some vi).
  { apply IHi; [|done]. simpl in Hl. by destruct_andb. }
  specialize (IHr v2 Hr E2). destruct op, shift; try done; cbn in Ht; injection Ht as <-; try done.
  cbn [buildCombinedOp] in *. apply (addshift_eval _ _ _ _ _ v2 vi v1); [done|done|done|].
  rewrite <- Hv. destruct v1, v2; try done. cbn. by rewrite Z.add_comm.
Qed.

Lemma self_shifted e m a :
  shifted_operand a = a -> selected_ok e m a -> selected_ok e m a /\ selected_ok e m (shifted_operand a).
Proof using. by intros ->. Qed.

Lemma SelectExpr_both e m a : selected_ok e m a /\ selected_ok e m (shifted_operand a).
Proof using.
  induction a as [x|c|op a [IH _]|op l [IHl IHil] r [IHr IHir]|op cmp l [IHl _] r [IHr _]|chunk a _].
  - apply self_shifted; [done|]. intros v Hok Hv. by apply selectVar_ok.
  - apply self_shifted; [done|]. intros v Hok Hv. done.
  - apply self_shifted; [done|]. intros v Hok Hv. simpl in Hok. cbn in Hv. destruct (cm e m a) as [v1|] eqn:E1; [|done]. specialize (IH v1 Hok E1).
    cbn [SelectExpr]. destruct op; cbn [selectUnop sel_expr]; rewrite IH; try done. by destruct v1.
  - split; [|exact IHl]. intros v Hok Hv. rewrite selectBinop_combined. simpl in Hok. destruct_andb. unfold binop_ok, TrySelectCombinedOp in *.
    destruct (combined_right op r) as [[mop k]|] eqn:Er; [by eapply shifted_right_ok|].
    destruct (combined_left op l) as [[mop k]|] eqn:El; [by eapply shifted_left_ok|].
    cbn in Hv |- *. destruct (cm e m l) as [v1|] eqn:E1; [|done]. cbn in Hv.
    destruct (cm e m r) as [v2|] eqn:E2; [|done]. rewrite (IHl v1), (IHr v2) by done. done.
  - apply self_shifted; [done|]. intros v Hok Hv. simpl in Hok. destruct_andb. cbn in Hv |- *. destruct (cm e m l) as [v1|] eqn:E1; [|done]. cbn in Hv.
    destruct (cm e m r) as [v2|] eqn:E2; [|done]. rewrite (IHl v1), (IHr v2) by done. done.
  - apply self_shifted; [done|]. intros v Hok Hv. simpl in Hok. cbn in Hv. destruct (cm e m a) as [v1|] eqn:E1; [|done]. cbn in Hv. destruct v1 as [|p| |]; try done.
    destruct (select_address_ok e m a p Hok E1) as (vs & Hvs & Hp). cbn [SelectExpr].
    destruct (select_address ctx a) as [mode args]. cbn in Hvs, Hp. simpl. rewrite Hvs. cbn. by rewrite Hp.
Qed.

Theorem SelectExpr_ok e m a v :
  expr_ok globals locals a = true -> cm e m a = Some v -> sel_expr e m [] (SelectExpr ctx a) = Some v.
Proof using. apply SelectExpr_both. Qed.

(** ** Conditions *)

Fixpoint cond_ok (a : Cminor.Expr) : bool :=
  match a with
  | Cminor.Eunop Cminor.Onotbool a => cond_ok a
  | a => expr_ok globals locals a
  end.

Lemma SelectComparison_ok e m op cmp l r v1 v2 b :
  sel_expr e m [] l = Some v1 -> sel_expr e m [] r = Some v2 -> eval_cmp op (condition_of cmp) v1 v2 = Some b ->
  sel_cond e m [] (SelectComparison op cmp l r) = Some b.
Proof using. intros H1 H2 Hb. destruct op; try done; simpl; rewrite H1; cbn; by rewrite H2. Qed.

Lemma nonzero_cond_ok e m a v b :
  sel_expr e m [] a = Some v -> val_truth v = Some b -> sel_cond e m [] (nonzero_cond a) = Some b.
Proof using. intros Ha Hb. destruct v as [n| | |]; try done. simpl. rewrite Ha. cbn. by injection Hb as <-. Qed.

Theorem SelectCondition_ok e m a v b :
  cond_ok a = true -> cm e m a = Some v -> val_truth v = Some b -> sel_cond e m [] (SelectCondition ctx a) = Some b.
Proof using.
  revert v b. induction a as [x|c|op a IH|op l _ r _|op cmp l _ r _|chunk a _]; intros v b Hok Hv Hb.
  - eapply nonzero_cond_ok; [|exact Hb]. by apply SelectExpr_ok.
  - cbn in Hv. injection Hv as <-. destruct c; try done. cbn in Hb |- *. injection Hb as <-. by destruct (Value =? 0).
  - destruct op; try (eapply nonzero_cond_ok; [|exact Hb]; by apply SelectExpr_ok).
    cbn in Hv. destruct (cm e m a) as [v1|] eqn:E1; [|done]. cbn in Hv. destruct v1 as [n| | |]; try done.
    injection Hv as <-. cbn in Hb. injection Hb as <-. simpl. rewrite (IH (Vint n) (negb (n =? 0))) by done.
    cbn. f_equal. by destruct (n =? 0).
  - eapply nonzero_cond_ok; [|exact Hb]. by apply SelectExpr_ok.
  - simpl in Hok. destruct_andb. cbn in Hv. destruct (cm e m l) as [v1|] eqn:E1; [|done]. cbn in Hv.
    destruct (cm e m r) as [v2|] eqn:E2; [|done]. cbn in Hv.
    destruct (eval_cmp op (condition_of cmp) v1 v2) as [b'|] eqn:Eb; [|done]. injection Hv as <-.
    cbn in Hb. injection Hb as <-. cbn [SelectCondition].
    apply (SelectComparison_ok e m op cmp _ _ v1 v2); [by apply SelectExpr_ok|by apply SelectExpr_ok|]. by destruct b'.
  - eapply nonzero_cond_ok; [|exact Hb]. by apply SelectExpr_ok.
Qed.

(** ** Callees *)

(** Selection makes no other expression a constant. *)
Lemma plain_callee_ok e m f fv :
  match f with Cminor.Evar _ | Cminor.Econst _ => False | _ => True end ->
  expr_ok globals locals f = true -> ToAddress <$> cm e m f = Some fv -> sel_callee e m (SelectExpr ctx f) = Some fv.
Proof using.
  intros Hf Hok Hv. destruct (cm e m f) as [v|] eqn:E; [|done]. injection Hv as <-.
  pose proof (SelectExpr_ok e m f v Hok E) as Hs.
  assert (H : sel_callee e m (SelectExpr ctx f) = ToAddress <$> sel_expr e m [] (SelectExpr ctx f)); [|by rewrite H, Hs].
  clear Hs. destruct f as [| |op a|op l r|op cmp l r|chunk a]; try done.
  - by destruct op.
  - rewrite selectBinop_combined. destruct (TrySelectCombinedOp op l r) as [c|]; [|done]. by destruct (co_Op c).
  - cbn [SelectExpr]. by destruct (select_address ctx a).
Qed.

Lemma select_callee_ok e m f fv :
  expr_ok globals locals f = true -> cm_callee locals e m f = Some fv -> sel_callee e m (SelectExpr ctx f) = Some fv.
Proof using.
  intros Hok Hf. destruct f as [x|c|op a|op l r|op cmp l r|chunk a].
  - cbn in Hok, Hf |- *. unfold name_ok in Hok. unfold selectVar. cbn.
    destruct (decide (x ∈ locals)) as [Hl|Hl];
      [rewrite (bool_decide_true _ Hl) in Hok|rewrite (bool_decide_false _ Hl) in Hok];
      by destruct (bool_decide (x ∈ globals)).
  - by destruct c as [| | | |s []|].
  - by apply plain_callee_ok.
  - by apply plain_callee_ok.
  - by apply plain_callee_ok.
  - by apply plain_callee_ok.
Qed.
End Expressions.

(** ** What selection supports *)

(** A function whose names are locals or symbols but not both, without the
    combined operations and comparisons that are selected wrongly. *)
Definition select_ok (globals : gset string) (f : Cminor.Function) : bool :=
  all_ok (expr_ok globals (fn_locals f)) (cond_ok globals (fn_locals f)) (address_ok globals (fn_locals f))
    (Cminor.fn_Body f).

(** ** Execution *)

Section Execution.
  Context {M : Type} `{FO : FloatOps} `{LO : Layout} `{TS : TargetSemantics val M}.
  Context {VT : ValueTarget M} {darwin : bool} {PC : PseudoCalls val M darwin}.

Lemma SelectStmt_map ctx s :
  SelectStmt ctx s = map_stmt id id (SelectExpr ctx) (SelectCondition ctx) (select_address ctx) s.
Proof using.
  induction s as [|x a|chunk a1 a2|r sig f args|sig f args|r b args|s1 s2 IH1 IH2|c s1 s2 IH1 IH2|s IHs|s IHs|n|isLong a cases d Hcases IHs|a|l0 s IHs|l0]
    using Stmt_nested_ind; cbn [SelectStmt map_stmt]; rewrite ?option_fmap_id; try done.
  all: try (by rewrite IH1, IH2). all: rewrite IHs; try done.
  f_equal. induction Hcases as [|c cases Hc _ IH]; [done|]. cbn [map]. f_equal; [by rewrite <- Hc|exact IH].
Qed.

(** What selection makes of the parts of a statement computes the same. *)
Lemma select_parts globals locals :
  parts_ok id id (SelectExpr (mkContext globals ∅)) (SelectCondition (mkContext globals ∅))
    (select_address (mkContext globals ∅)) (cminor_language (M := M) locals) cminorsel_language
    (expr_ok globals locals) (cond_ok globals locals) (address_ok globals locals) eq.
Proof using VT.
  split.
  - intros e ? m a v <-. by apply SelectExpr_ok.
  - intros e ? m c b <- Hc Hb. cbn in Hb. destruct (cm_expr locals e m c) as [v|] eqn:Ev; [|done].
    by apply (SelectCondition_ok globals locals e m c v).
  - intros e ? chunk addr v m m' <- Haddr Hm. cbn in Hm |- *.
    destruct (cm_expr locals e m addr) as [p|] eqn:Ep; [|done]. cbn in Hm. destruct p as [|p| |]; try done.
    destruct (select_address_ok globals locals e m addr p Haddr Ep) as (vs & Hvs & Hp). rewrite Hvs. cbn. rewrite Hp. done.
  - intros e ? m f fv <-. by apply select_callee_ok.
  - done.
  - intros sig. by rewrite option_fmap_id.
  - by intros e ? x v <-.
Qed.
End Execution.

(** ** The pass *)

Section Pass.
  Context {M : Type} `{FO : FloatOps} `{LO : Layout} `{TS : TargetSemantics val M}.
  Context {VT : ValueTarget M} {darwin : bool} {PC : PseudoCalls val M darwin}.

Lemma SelectProgram_lookup ctx p i f :
  Cminor.Functions p !! i = Some f ->
  CminorSel.Functions (SelectProgram ctx p) !! i =
    Some (SelectFunction (mkContext (program_globals p) (ctx_StackVars ctx)) f).
Proof using. intros Hf. cbn. by rewrite list_lookup_fmap, Hf. Qed.

(** One function, when the names [g] are the global ones. *)
Lemma select_function_preserves g f args m :
  select_ok g f = true ->
  let tf := SelectFunction (mkContext g ∅) f in
  (forall r, terminates (cm_step f) (cm_init f args m) r -> terminates (sel_step tf) (sel_init tf args m) r) /\
  (safe (cm_step f) (cm_init f args m) ->
   safe (sel_step tf) (sel_init tf args m) /\
   forall r, terminates (sel_step tf) (sel_init tf args m) r -> terminates (cm_step f) (cm_init f args m) r).
Proof using VT.
  intros Hok. cbn zeta. unfold sel_step, sel_init. cbn [SelectFunction CminorSel.fn_Body CminorSel.fn_Params].
  rewrite SelectStmt_map. apply (map_preserves _ _ _ _ _ _ _ _ _ _ _ (select_parts g (fn_locals f)) _ Hok).
  exists (bind_params (Cminor.fn_Params f) args). by repeat split.
Qed.

(** C7. Instruction selection preserves behaviour: every supported function of a
    program is translated, at its place, to a CminorSel function that ends with
    the result and memory the Cminor function ends with; and if the function
    never gets stuck, neither does its translation, which ends only as the
    function does. *)
Theorem SelectProgram_correct p i f args m :
  Cminor.Functions p !! i = Some f -> select_ok (program_globals p) f = true ->
  exists tf, CminorSel.Functions (SelectProgram (NewSelectionContext None None) p) !! i = Some tf /\
    (forall r, terminates (cm_step f) (cm_init f args m) r -> terminates (sel_step tf) (sel_init tf args m) r) /\
    (safe (cm_step f) (cm_init f args m) ->
     safe (sel_step tf) (sel_init tf args m) /\
     forall r, terminates (sel_step tf) (sel_init tf args m) r -> terminates (cm_step f) (cm_init f args m) r).
Proof using VT.
  intros Hf Hok. exists (SelectFunction (mkContext (program_globals p) ∅) f).
  split; [by apply SelectProgram_lookup|]. by apply select_function_preserves.
Qed.
End Pass.

(** ** Names that are called *)

(** Does a statement call the name [x], outside labelled statements? *)
Definition is_called (x : string) (f : Cminor.Expr) : bool := bool_decide (called_name f = Some x).

Fixpoint calls (x : string) (s : Cminor.Stmt) : bool :=
  match s with
  | Scall _ _ f _ | Stailcall _ f _ => is_called x f
  | Sseq s1 s2 | Sifthenelse _ s1 s2 => calls x s1 || calls x s2
  | Sloop s | Sblock s => calls x s
  | Sswitch _ _ cases d => existsb (fun c => calls x c.2) cases || calls x d
  | _ => false
  end.

Lemma add_external_elem defined f ext x :
  x ∈ add_external defined f ext <-> x ∈ ext \/ x ∉ defined /\ is_called x f = true.
Proof.
  unfold add_external, is_called. destruct (called_name f) as [y|].
  - destruct (decide (y ∈ defined)) as [Hy|Hy]; [rewrite bool_decide_true by done|rewrite (bool_decide_false (y ∈ defined)) by done].
    + rewrite bool_decide_eq_true. split; [by left|]. by intros [H|[H [= ->]]].
    + rewrite bool_decide_eq_true, elem_of_union, elem_of_singleton. split.
      * intros [->|H]; [by right|by left].
      * intros [H|[_ [= ->]]]; [by right|by left].
  - rewrite bool_decide_eq_true. split; [by left|]. by intros [H|[_ [=]]].
Qed.

(** The scan of a list, one set after the other. *)
Lemma fold_elem {A} (step : gset string -> A -> gset string) (P : A -> Prop) l ext x :
  (forall ext a, a ∈ l -> x ∈ step ext a <-> x ∈ ext \/ P a) ->
  x ∈ fold_left step l ext <-> x ∈ ext \/ exists a, a ∈ l /\ P a.
Proof.
  revert ext. induction l as [|a l IH]; intros ext Hstep; cbn [fold_left].
  - split; [by left|]. intros [H|(a & Ha & _)]; [done|by apply not_elem_of_nil in Ha].
  - rewrite IH by (intros; apply Hstep; by right). rewrite Hstep by (by left).
    setoid_rewrite elem_of_cons. split.
    + intros [[H|H]|(b & Hb & HP)]; [by left|right; exists a; auto|right; exists b; auto].
    + intros [H|(b & [->|Hb] & HP)]; [by left; left|by left; right|right; by exists b].
Qed.

Lemma collect_elem defined s ext x :
  x ∈ collectExternalFunctionsInStmt defined s ext <-> x ∈ ext \/ x ∉ defined /\ calls x s = true.
Proof.
  revert ext. induction s as [|y a|chunk a1 a2|r sig f args|sig f args|r b args|s1 s2 IH1 IH2|c s1 s2 IH1 IH2|s IHs|s IHs|n|isLong a cases d Hcases IHs|a|l0 s IHs|l0]
    using Stmt_nested_ind; intros ext; cbn [collectExternalFunctionsInStmt calls]; rewrite ?orb_true_iff.
  all: try (split; [by left|by intros [H|[_ H]]]).
  - apply add_external_elem.
  - apply add_external_elem.
  - rewrite IH2, IH1. tauto.
  - rewrite IH2, IH1. tauto.
  - apply IHs.
  - apply IHs.
  - rewrite IHs, (fold_elem _ (fun c => x ∉ defined /\ calls x c.2 = true)).
    + rewrite existsb_exists. setoid_rewrite <- list_elem_of_In. split.
      * intros [[H|(c & Hc & H1 & H2)]|[H1 H2]]; [by left|right; split; [done|left; by exists c]|right; by auto].
      * intros [H|[H1 [(c & Hc & H2)|H2]]]; [by left; left|left; right; by exists c|right; by auto].
    + intros ext' c Hc. rewrite Forall_forall in Hcases. by apply (Hcases c).
Qed.

Lemma program_globals_elem p x :
  x ∈ program_globals p <->
  x ∈ program_defined p \/ exists f, f ∈ Cminor.Functions p /\ calls x (Cminor.fn_Body f) = true.
Proof.
  unfold program_globals, collectExternalFunctions. rewrite elem_of_union.
  rewrite (fold_elem _ (fun f => x ∉ program_defined p /\ calls x (Cminor.fn_Body f) = true))
    by (intros; apply collect_elem).
  split.
  - intros [H|[H%not_elem_of_empty|(f & Hf & _ & Hc)]]; [by left|done|right; by exists f].
  - intros [H|(f & Hf & Hc)]; [by left|]. destruct (decide (x ∈ program_defined p)) as [H|H]; [by left|].
    right; right. by exists f.
Qed.

(** ** What goes wrong *)

Section Defects.
  Context {M : Type} `{FO : FloatOps} `{LO : Layout} `{TS : TargetSemantics val M}.
  Context {VT : ValueTarget M}.

(** A call through a local variable that holds a function pointer becomes a
    call of the symbol with the variable's name: the scan for external
    functions takes every called name for one. Cminor calls the address in the
    variable; the selected code calls the symbol. *)
Theorem SelectProgram_calls_symbols p f x (e : gmap string val) (m : M) v :
  f ∈ Cminor.Functions p -> calls x (Cminor.fn_Body f) = true -> x ∈ fn_locals f -> e !! x = Some v ->
  cm_callee (fn_locals f) e m (Cminor.Evar x) = Some (ToAddress v) /\
  sel_callee e m (SelectExpr (mkContext (program_globals p) ∅) (Cminor.Evar x)) = Some (ToSymbol x).
Proof using.
  intros Hf Hc Hx Hv. split; [cbn; by rewrite decide_True, Hv|]. cbn [SelectExpr]. unfold selectVar.
  rewrite bool_decide_true; [done|]. cbn. apply program_globals_elem. right. by exists f.
Qed.

(** The bitwise operations with a shifted operand lose the operation and
    the shift: [x & (y << k)], [x | (y << k)] and [x ^ (y << k)] are all selected
    as code that computes [x & y]. *)
Theorem selectBinop_bitwise op x y k a b (e : gmap string val) (m : M) :
  op ∈ [Cminor.Oand; Cminor.Oor; Cminor.Oxor] -> 0 <= k < 32 -> e !! x = Some (Vint a) -> e !! y = Some (Vint b) ->
  sel_expr e m [] (SelectExpr (mkContext ∅ ∅)
    (Cminor.Ebinop op (Cminor.Evar x) (Cminor.Ebinop Cminor.Oshl (Cminor.Evar y) (Cminor.Econst (Cminor.Ointconst k))))) =
  Some (Vint (Z.land a b)).
Proof using.
  intros Hop Hk Hx Hy. assert (Hvalid : isValidShiftAmount k = true) by (unfold isValidShiftAmount; lia).
  rewrite selectBinop_combined. unfold TrySelectCombinedOp, combined_right, combined_with.
  cbn [extractShift extractConstantInt mbind option_bind]. rewrite Hvalid.
  assert (Hvar : forall z, SelectExpr (mkContext ∅ ∅) (Cminor.Evar z) = CminorSel.Evar z) by done.
  rewrite !elem_of_cons in Hop. destruct Hop as [->|[->|[->|H%not_elem_of_nil]]]; [| | |done];
    cbn [combine_right mbind option_bind co_Op co_Shift co_Base co_Index shifted_operand buildCombinedOp];
    rewrite !Hvar; cbn [sel_expr]; rewrite Hx; cbn [mbind option_bind]; by rewrite Hy.
Qed.
End Defects.

(** ** Examples *)

Section Examples.
Import Cminor.
Local Open Scope string_scope.

Definition i_var : Expr := Evar "i".
Definition p_var : Expr := Evar "p".

(** [r = ext(i); table[2] = r; if (!(i < 10)) return; return r + (p[i] << 1);] *)
Definition load_fn : Function :=
  mkFunction "f" (Target.mkSig ["long"; "int"] "int" false) ["p"; "i"] ["r"] 0
    (Structured.Seq [
      Scall (Some "r") (Some (Target.mkSig ["int"] "int" false)) (Evar "ext") [i_var];
      Sstore Target.Mint32 (Ebinop Oaddl (Evar "table") (Econst (Olongconst 8))) (Evar "r");
      Sifthenelse (Eunop Onotbool (Ecmp Ocmp Clt i_var (Econst (Ointconst 10)))) (Sreturn None) Sskip;
      Sreturn (Some (Ebinop Oadd (Evar "r") (Ebinop Oshl
        (Eload Target.Mint32 (Ebinop Oaddl p_var (Ebinop Oshll (Eunop Olongofint i_var) (Econst (Ointconst 2)))))
        (Econst (Ointconst 1)))))]).

Definition load_prog : Program := mkProgram [mkGlobVar "table" 64 [] false] [load_fn].

(** [return fp(i);], where [fp] is a parameter *)
Definition pointer_fn : Function :=
  mkFunction "apply" (Target.mkSig ["long"; "int"] "int" false) ["fp"; "i"] ["r"] 0
    (Sseq (Scall (Some "r") None (Evar "fp") [i_var]) (Sreturn (Some (Evar "r")))).
End Examples.

Lemma SelectProgram_correct_witness :
  exists tf, CminorSel.Functions (SelectProgram (NewSelectionContext None None) load_prog) !! 0%nat = Some tf /\
    terminates (sel_step tf) (sel_init tf [Vlong 100; Vint 3] {[112 := Vint 7]})
      (RReturned (Some (Vint 20)) (<[4184 := Vint 6]> (<[0 := Vint 1]> {[112 := Vint 7]}))).
Proof.
  destruct (SelectProgram_correct load_prog 0 load_fn [Vlong 100; Vint 3] ({[112 := Vint 7]} : example_memory))
    as (tf & Htf & Hterm & _); [reflexivity|vm_compute; reflexivity|].
  exists tf. split; [exact Htf|]. apply Hterm. apply (run_terminates _ 100). vm_compute. reflexivity.
Defined.

Lemma SelectProgram_calls_symbols_witness :
  sel_callee (<["fp"%string := Vlong 64]> ∅) (∅ : example_memory)
    (SelectExpr (mkContext (program_globals (Cminor.mkProgram [] [pointer_fn])) ∅) (Cminor.Evar "fp")) =
  Some (ToSymbol "fp"%string).
Proof.
  apply (SelectProgram_calls_symbols (Cminor.mkProgram [] [pointer_fn]) pointer_fn "fp" (<["fp"%string := Vlong 64]> ∅) ∅ (Vlong 64)).
  - left.
  - vm_compute. reflexivity.
  - by apply (bool_decide_unpack _); vm_compute.
  - reflexivity.
Defined.

Lemma selectBinop_bitwise_witness :
  sel_expr (<["x"%string := Vint 12]> {["y"%string := Vint 10]}) (∅ : example_memory) []
    (SelectExpr (mkContext ∅ ∅) (Cminor.Ebinop Cminor.Oor (Cminor.Evar "x")
      (Cminor.Ebinop Cminor.Oshl (Cminor.Evar "y") (Cminor.Econst (Cminor.Ointconst 4))))) = Some (Vint 8).
Proof.
  apply (selectBinop_bitwise Cminor.Oor "x" "y" 4 12 10).
  - right; left.
  - lia.
  - reflexivity.
  - reflexivity.
Defined.
