(* ===== verification/Ctypes.v ===== *)
(** C types ([src/pkg/ctypes/types.go]). A field that can be [nil] in Go is an
    option. *)

From S2P Require Import Prelude.

Inductive Signedness := Signed | Unsigned.
Inductive IntSize := I8 | I16 | I32 | IBool.
Inductive FloatSize := F32 | F64.

Inductive Type_ :=
| Tvoid
| Tint (Size : IntSize) (Sign : Signedness)
| Tlong (Sign : Signedness)
| Tfloat (Size : FloatSize)
| Tpointer (Elem : option Type_)
| Tarray (Elem : option Type_) (Size : Z)
| Tfunction (Params : list Type_) (Return : option Type_) (VarArg : bool)
| Tstruct (Name : string) (Fields : list (string * Type_))
| Tunion (Name : string) (Fields : list (string * Type_)).

(** [Field] *)
Definition Field : Type := string * Type_.

#[export] Instance Signedness_eq_dec : EqDecision Signedness.
Proof. solve_decision. Defined.
#[export] Instance IntSize_eq_dec : EqDecision IntSize.
Proof. solve_decision. Defined.
#[export] Instance FloatSize_eq_dec : EqDecision FloatSize.
Proof. solve_decision. Defined.

#[export] Instance Type_eq_dec : EqDecision Type_.
Proof.
  unfold EqDecision, Decision. fix go 1. intros a b.
  pose proof (option_eq_dec (dec := go)) as Ho. pose proof (List.list_eq_dec go) as Hl.
  decide equality; try solve [apply String.string_dec | apply Z.eq_dec | apply Signedness_eq_dec | apply IntSize_eq_dec
    | apply FloatSize_eq_dec | apply bool_eq_dec | apply Ho | apply Hl].
  all: apply List.list_eq_dec; intros [x t] [y u]; destruct (String.string_dec x y) as [->|H];
    [destruct (go t u) as [->|H]; [by left|right; congruence]|right; congruence].
Defined.

Definition Signedness_String (s : Signedness) : string :=
  match s with Signed => "signed" | Unsigned => "unsigned" end.

Definition IntSize_String (s : IntSize) : string :=
  match s with I8 => "i8" | I16 => "i16" | I32 => "i32" | IBool => "ibool" end.

Definition FloatSize_String (s : FloatSize) : string := match s with F32 => "f32" | F64 => "f64" end.

(** [Tint.String] *)
Definition Tint_String (size : IntSize) (sign : Signedness) : string :=
  let sign := match sign with Unsigned => "unsigned " | Signed => "" end in
  (match size with
   | I8 => sign +:+ "char"
   | I16 => sign +:+ "short"
   | I32 => sign +:+ "int"
   | IBool => "_Bool"
   end)%string.

(** The [String] methods. *)
Fixpoint Type_String (t : Type_) : string :=
  (match t with
   | Tvoid => "void"
   | Tint size sign => Tint_String size sign
   | Tlong sign => match sign with Unsigned => "unsigned long" | Signed => "long" end
   | Tfloat size => match size with F32 => "float" | F64 => "double" end
   | Tpointer None => "void *"
   | Tpointer (Some elem) => Type_String elem +:+ " *"
   | Tarray None _ => "?[]"
   | Tarray (Some elem) size => if (size <? 0)%Z then Type_String elem +:+ "[]" else Type_String elem +:+ "[...]"
   | Tfunction _ _ _ => "function"
   | Tstruct "" _ => "struct <anonymous>"
   | Tstruct name _ => "struct " +:+ name
   | Tunion "" _ => "union <anonymous>"
   | Tunion name _ => "union " +:+ name
   end)%string.

(** ** Constructors *)

Definition Int : Type_ := Tint I32 Signed.
Definition UInt : Type_ := Tint I32 Unsigned.
Definition Char : Type_ := Tint I8 Signed.
Definition UChar : Type_ := Tint I8 Unsigned.
Definition Short : Type_ := Tint I16 Signed.
Definition Long : Type_ := Tlong Signed.
Definition Float : Type_ := Tfloat F32.
Definition Double : Type_ := Tfloat F64.
Definition Void : Type_ := Tvoid.
Definition Pointer (elem : option Type_) : Type_ := Tpointer elem.
Definition Array (elem : option Type_) (size : Z) : Type_ := Tarray elem size.

(** ** Equality *)

(** The test of [nil], and the loop over the parameters. *)
Definition equal_opt (eq : Type_ -> Type_ -> bool) (a b : option Type_) : bool :=
  match a, b with
  | None, None => true
  | Some a, Some b => eq a b
  | _, _ => false
  end.

Definition equal_list (eq : Type_ -> Type_ -> bool) : list Type_ -> list Type_ -> bool :=
  fix go l1 l2 :=
    match l1, l2 with
    | [], [] => true
    | a :: l1, b :: l2 => eq a b && go l1 l2
    | _, _ => false
    end.

(** [Equal]: structures and unions are compared by name. *)
Fixpoint Equal (a b : Type_) {struct a} : bool :=
  match a, b with
  | Tvoid, Tvoid => true
  | Tint size1 sign1, Tint size2 sign2 => bool_decide (size1 = size2) && bool_decide (sign1 = sign2)
  | Tlong sign1, Tlong sign2 => bool_decide (sign1 = sign2)
  | Tfloat size1, Tfloat size2 => bool_decide (size1 = size2)
  | Tpointer e1, Tpointer e2 => equal_opt Equal e1 e2
  | Tarray e1 n1, Tarray e2 n2 =>
      (n1 =? n2) && equal_opt Equal e1 e2
  | Tstruct n1 _, Tstruct n2 _ => bool_decide (n1 = n2)
  | Tunion n1 _, Tunion n2 _ => bool_decide (n1 = n2)
  | Tfunction ps1 r1 v1, Tfunction ps2 r2 v2 =>
      bool_decide (v1 = v2) && equal_opt Equal r1 r2 && equal_list Equal ps1 ps2
  | _, _ => false
  end.

Lemma Equal_refl t : Equal t t = true.
Proof.
  revert t. fix IH 1. intros t. destruct t as [|size sign|sign|size|elem|elem n|ps r v|name fields|name fields]; cbn [Equal];
    rewrite ?bool_decide_true by done; try done.
  - destruct elem; [apply IH|done].
  - rewrite Z.eqb_refl. destruct elem; [apply IH|done].
  - apply andb_true_iff. split; [destruct r; [apply IH|done]|].
    induction ps as [|p ps IHps]; cbn; [done|]. by rewrite IH, IHps.
Qed.
