(* ===== verification/Csharpminor.v ===== *)
(** Csharpminor ([src/pkg/csharpminor/ast.go]): typed operators, numbered
    temporaries, and named variables whose reads are not yet loads. Statements
    are those of [Structured]; operators are shared with Cminor. *)

From S2P Require Import Prelude.
From S2P Require Target Structured Cminor Ctypes.

Abbreviation Chunk := Target.Chunk (only parsing).
Abbreviation UnaryOp := Cminor.UnaryOp (only parsing).
Abbreviation BinaryOp := Cminor.BinaryOp (only parsing).
Abbreviation Comparison := Cminor.Comparison (only parsing).

Inductive Constant :=
| Ointconst (Value : Z)
| Ofloatconst (Bits : Z)
| Olongconst (Value : Z)
| Osingleconst (Bits : Z)
| Oaddrsymbol (Name : string) (Offset : Z).

Inductive Expr :=
| Evar (Name : string)
| Etempvar (ID : Z)
| Eaddrof (Name : string)
| Econst (Const : Constant)
| Eunop (Op : UnaryOp) (Arg : Expr)
| Ebinop (Op : BinaryOp) (Left Right : Expr)
| Ecmp (Op : BinaryOp) (Cmp : Comparison) (Left Right : Expr)
| Eload (chunk : Chunk) (Addr : Expr).

Record Sig := mkSig {
  sig_Args : list (option Ctypes.Type_);
  sig_Return : option Ctypes.Type_;
  sig_VarArg : bool
}.

(** [Sset] is [Structured.Sassign] of a temporary. *)
Definition Stmt : Type := Structured.Stmt Sig Z Expr Expr Expr.

Record VarDecl := mkVarDecl {
  vd_Name : string;
  vd_Size : Z;
  vd_Init : list Z;
  vd_ReadOnly : bool;
  vd_Signed : bool
}.

Record Function := mkFunction {
  fn_Name : string;
  fn_Sig : Sig;
  fn_Params : list string;
  fn_Locals : list VarDecl;
  fn_Temps : list (option Ctypes.Type_);
  fn_Body : Stmt
}.

Record Program := mkProgram {
  Globals : list VarDecl;
  Functions : list Function
}.

(** [ChunkForType] *)
Definition ChunkForType (t : Ctypes.Type_) : Chunk :=
  match t with
  | Ctypes.Tint Ctypes.I8 Ctypes.Signed => Target.Mint8signed
  | Ctypes.Tint Ctypes.I8 Ctypes.Unsigned => Target.Mint8unsigned
  | Ctypes.Tint Ctypes.I16 Ctypes.Signed => Target.Mint16signed
  | Ctypes.Tint Ctypes.I16 Ctypes.Unsigned => Target.Mint16unsigned
  | Ctypes.Tint (Ctypes.I32 | Ctypes.IBool) _ => Target.Mint32
  | Ctypes.Tlong _ => Target.Mint64
  | Ctypes.Tfloat Ctypes.F32 => Target.Mfloat32
  | Ctypes.Tfloat Ctypes.F64 => Target.Mfloat64
  | Ctypes.Tpointer _ => Target.Mint64
  | _ => Target.Many32
  end.
