(* ===== verification/Cminorgen.v ===== *)
(** Cminor generation ([src/pkg/cminorgen]): Csharpminor to Cminor. Locals whose
    address is taken get a place in the stack frame, the others and the
    temporaries become variables of the function. The compilation of switches
    ([switch.go]) is in [CminorgenSwitch]. *)

From stdpp Require Import pretty.
From S2P Require Import Prelude.
From S2P Require Target Structured Cminor Ctypes.
From S2P Require Import Csharpminor.

(** ** Stack layout ([stack.go]) *)

Record StackSlot := mkStackSlot {
  ss_Name : string;
  ss_Offset : Z;
  ss_Size : Z;
  ss_Alignment : Z
}.

Record StackLayout := mkStackLayout {
  Slots : list StackSlot;
  TotalSize : Z
}.

(** [GetSlot]: the first slot with the name. *)
Definition GetSlot (l : StackLayout) (name : string) : option StackSlot :=
  snd <$> list_find (fun s => ss_Name s = name) (Slots l).

Definition alignmentForSize (size : Z) : Z :=
  if size <=? 1 then 1 else if size <=? 2 then 2 else if size <=? 4 then 4 else 8.

Definition alignUp (n align : Z) : Z :=
  if align <=? 0 then n else i64 (Z.quot (i64 (i64 (n + align) - 1)) align * align).

(** The loop of [ComputeStackLayout], from [offset]: the slots, and the offset
    at the end. *)
Fixpoint layout_slots (offset : Z) (locals : list VarDecl) : list StackSlot * Z :=
  match locals with
  | [] => ([], offset)
  | local :: locals =>
      let alignment := alignmentForSize (vd_Size local) in
      let offset := alignUp offset alignment in
      let slot := mkStackSlot (vd_Name local) offset (vd_Size local) alignment in
      let '(slots, last) := layout_slots (i64 (offset + vd_Size local)) locals in
      (slot :: slots, last)
  end.

Definition ComputeStackLayout (locals : list VarDecl) : StackLayout :=
  let '(slots, offset) := layout_slots 0 locals in mkStackLayout slots (alignUp offset 8).

Definition IsStackAllocated (name : string) (locals : list VarDecl) : bool :=
  existsb (fun l => bool_decide (vd_Name l = name)) locals.

(** [findAddressTakenInExpr] adds to the set [result]. *)
Fixpoint findAddressTakenInExpr (locals : gset string) (e : Expr) (result : gset string) : gset string :=
  match e with
  | Evar _ | Etempvar _ | Econst _ => result
  | Eaddrof x => if bool_decide (x ∈ locals) then {[x]} ∪ result else result
  | Eunop _ a => findAddressTakenInExpr locals a result
  | Ebinop _ l r | Ecmp _ _ l r => findAddressTakenInExpr locals r (findAddressTakenInExpr locals l result)
  | Eload _ a => findAddressTakenInExpr locals a result
  end.

Definition findAddressTakenInExprs (locals : gset string) (es : list Expr) (result : gset string) : gset string :=
  fold_left (fun result e => findAddressTakenInExpr locals e result) es result.

Fixpoint findAddressTakenInStmt (locals : gset string) (s : Stmt) (result : gset string) : gset string :=
  match s with
  | Structured.Sskip | Structured.Sexit _ | Structured.Sgoto _ | Structured.Sreturn None => result
  | Structured.Sassign _ a | Structured.Sreturn (Some a) => findAddressTakenInExpr locals a result
  | Structured.Sstore _ addr a => findAddressTakenInExpr locals a (findAddressTakenInExpr locals addr result)
  | Structured.Scall _ _ f args | Structured.Stailcall _ f args =>
      findAddressTakenInExprs locals args (findAddressTakenInExpr locals f result)
  | Structured.Sbuiltin _ _ args => findAddressTakenInExprs locals args result
  | Structured.Sseq s1 s2 => findAddressTakenInStmt locals s2 (findAddressTakenInStmt locals s1 result)
  | Structured.Sifthenelse c s1 s2 =>
      findAddressTakenInStmt locals s2 (findAddressTakenInStmt locals s1 (findAddressTakenInExpr locals c result))
  | Structured.Sloop s | Structured.Sblock s | Structured.Slabel _ s => findAddressTakenInStmt locals s result
  | Structured.Sswitch _ a cases d =>
      findAddressTakenInStmt locals d
        (fold_left (fun result c => findAddressTakenInStmt locals c.2 result) cases
          (findAddressTakenInExpr locals a result))
  end.

Definition FindAddressTaken (s : Stmt) (locals : list VarDecl) : gset string :=
  findAddressTakenInStmt (list_to_set (map vd_Name locals)) s ∅.

(** ** Variables ([vars.go]) *)

Inductive VarKind := VarRegister | VarStack.

#[export] Instance VarKind_eq_dec : EqDecision VarKind.
Proof. solve_decision. Defined.

Record VarInfo := mkVarInfo {
  vi_Name : string;
  vi_Kind : VarKind;
  vi_Size : Z;
  vi_Offset : Z;
  vi_Chunk : Chunk
}.

Record VarEnv := mkVarEnv {
  Vars : gmap string VarInfo;
  StackSize : Z;
  TempPrefix : string
}.

Definition chunkForSizeAndSign (size : Z) (signed : bool) : Chunk :=
  match size with
  | 1 => if signed then Target.Mint8signed else Target.Mint8unsigned
  | 2 => if signed then Target.Mint16signed else Target.Mint16unsigned
  | 4 => Target.Mint32
  | 8 => Target.Mint64
  | _ => Target.Many64
  end.

Definition chunkForSize (size : Z) : Chunk := chunkForSizeAndSign size true.

(** The first loop of [ClassifyVariables]: what is known of every local before
    the stack is laid out. *)
Definition initial_info (addrTaken : gset string) (local : VarDecl) : VarInfo :=
  mkVarInfo (vd_Name local) (if bool_decide (vd_Name local ∈ addrTaken) then VarStack else VarRegister)
    (vd_Size local) 0 (chunkForSize (vd_Size local)).

Definition initial_vars (addrTaken : gset string) (locals : list VarDecl) : gmap string VarInfo :=
  fold_left (fun vars local => <[vd_Name local := initial_info addrTaken local]> vars) locals ∅.

(** [IsStack] on the variables. *)
Definition kind_is_stack (vars : gmap string VarInfo) (name : string) : bool :=
  match vars !! name with Some info => bool_decide (vi_Kind info = VarStack) | None => false end.

(** The last loop: the offsets of the slots. *)
Definition set_offsets (slots : list StackSlot) (vars : gmap string VarInfo) : gmap string VarInfo :=
  fold_left (fun vars slot =>
    alter (fun info => mkVarInfo (vi_Name info) (vi_Kind info) (vi_Size info) (ss_Offset slot) (vi_Chunk info))
      (ss_Name slot) vars) slots vars.

Definition ClassifyVariables (locals : list VarDecl) (body : Stmt) : VarEnv :=
  let addrTaken := FindAddressTaken body locals in
  let vars := initial_vars addrTaken locals in
  let stackLocals := List.filter (fun local => kind_is_stack vars (vd_Name local)) locals in
  let layout := ComputeStackLayout stackLocals in
  mkVarEnv (set_offsets (Slots layout) vars) (TotalSize layout) "_t".

Definition IsRegister (env : VarEnv) (name : string) : bool :=
  match Vars env !! name with Some info => bool_decide (vi_Kind info = VarRegister) | None => false end.

Definition IsStack (env : VarEnv) (name : string) : bool := kind_is_stack (Vars env) name.

Definition GetStackOffset (env : VarEnv) (name : string) : Z :=
  match Vars env !! name with
  | Some info => if bool_decide (vi_Kind info = VarStack) then vi_Offset info else -1
  | None => -1
  end.

Definition GetChunk (env : VarEnv) (name : string) : Chunk :=
  match Vars env !! name with Some info => vi_Chunk info | None => Target.Many32 end.

(** [RegisterVars] and [StackVars] range over the map. *)
Definition vars_of_kind `{NameOrder} (k : VarKind) (env : VarEnv) : list string :=
  omap (fun nv => if decide (vi_Kind nv.2 = k) then Some nv.1 else None) (range_names 0 (Vars env)).

Definition RegisterVars `{NameOrder} (env : VarEnv) : list string := vars_of_kind VarRegister env.
Definition StackVars `{NameOrder} (env : VarEnv) : list string := vars_of_kind VarStack env.

(** A negative offset is a panic. *)
Definition TransformAddrOf (env : VarEnv) (name : string) : option Cminor.Expr :=
  let offset := GetStackOffset env name in
  if offset <? 0 then None else Some (Cminor.Econst (Cminor.Oaddrstack offset)).

Definition TransformVarRead (env : VarEnv) (name : string) : Cminor.Expr :=
  match Vars env !! name with
  | None => Cminor.Evar name
  | Some info =>
      match vi_Kind info with
      | VarRegister => Cminor.Evar name
      | VarStack => Cminor.Eload (vi_Chunk info) (Cminor.Econst (Cminor.Oaddrstack (vi_Offset info)))
      end
  end.

Definition TransformVarWrite (env : VarEnv) (name : string) (value : Cminor.Expr) : Cminor.Stmt :=
  match Vars env !! name with
  | None => Structured.Sassign name value
  | Some info =>
      match vi_Kind info with
      | VarRegister => Structured.Sassign name value
      | VarStack => Structured.Sstore (vi_Chunk info) (Cminor.Econst (Cminor.Oaddrstack (vi_Offset info))) value
      end
  end.

(** ** Expressions, statements and functions ([transform.go]) *)

Record GlobalInfo := mkGlobalInfo {
  gi_Size : Z;
  gi_Signed : bool
}.

(** A transformer has the variables, the globals, and the names that
    temporaries have been given so far. [nextTemp] is never read. *)
Record Transformer := mkTransformer {
  varEnv : VarEnv;
  tempMap : gmap Z string;
  globals : gmap string GlobalInfo;
  nextTemp : Z
}.

Definition NewTransformer (env : VarEnv) (globals : gmap string GlobalInfo) : Transformer :=
  mkTransformer env ∅ globals 0.

(** Code that may panic and changes the names of temporaries. *)
Definition TM (A : Type) : Type := gmap Z string -> option (A * gmap Z string).

#[export] Instance TM_ret : MRet TM := fun A a tm => Some (a, tm).
#[export] Instance TM_bind : MBind TM := fun A B f x tm => '(a, tm) ← x tm; f a tm.

Definition lift_panic {A} (o : option A) : TM A := fun tm => a ← o; Some (a, tm).

(** [fmt.Sprintf("_t%d", id)] *)
Definition temp_name (id : Z) : string := ("_t" +:+ pretty id)%string.

Definition getTempName (id : Z) : TM string := fun tm =>
  match tm !! id with
  | Some name => Some (name, tm)
  | None => Some (temp_name id, <[id := temp_name id]> tm)
  end.

Definition transformConst (c : Constant) : Cminor.Expr :=
  Cminor.Econst
    match c with
    | Ointconst n => Cminor.Ointconst n
    | Ofloatconst f => Cminor.Ofloatconst f
    | Olongconst n => Cminor.Olongconst n
    | Osingleconst f => Cminor.Osingleconst f
    | Oaddrsymbol s ofs => Cminor.Oaddrsymbol s ofs
    end.

Definition typeDescriptor (t : option Ctypes.Type_) : string :=
  match t with None => "void" | Some t => Ctypes.Type_String t end.

Definition transformSig (s : Sig) : Target.Sig :=
  Target.mkSig (map typeDescriptor (sig_Args s)) (typeDescriptor (sig_Return s)) (sig_VarArg s).

Section Transform.
  Context (env : VarEnv) (globals : gmap string GlobalInfo).

Fixpoint TransformExpr (e : Expr) : TM Cminor.Expr :=
  match e with
  | Evar x =>
      match globals !! x with
      | Some info =>
          mret (Cminor.Eload (chunkForSizeAndSign (gi_Size info) (gi_Signed info)) (Cminor.Econst (Cminor.Oaddrsymbol x 0)))
      | None => mret (TransformVarRead env x)
      end
  | Etempvar id => name ← getTempName id; mret (TransformVarRead env name)
  | Eaddrof x =>
      if bool_decide (is_Some (globals !! x)) then mret (Cminor.Econst (Cminor.Oaddrsymbol x 0))
      else if IsStack env x then lift_panic (TransformAddrOf env x)
      else mret (Cminor.Evar x)
  | Econst c => mret (transformConst c)
  | Eunop op a => arg ← TransformExpr a; mret (Cminor.Eunop op arg)
  | Ebinop op l r => left ← TransformExpr l; right ← TransformExpr r; mret (Cminor.Ebinop op left right)
  | Ecmp op c l r => left ← TransformExpr l; right ← TransformExpr r; mret (Cminor.Ecmp op c left right)
  | Eload chunk a => addr ← TransformExpr a; mret (Cminor.Eload chunk addr)
  end.

Fixpoint TransformExprs (es : list Expr) : TM (list Cminor.Expr) :=
  match es with
  | [] => mret []
  | e :: es => a ← TransformExpr e; args ← TransformExprs es; mret (a :: args)
  end.

(** The variable for the result of a call. *)
Definition result_name (r : option Z) : TM (option string) :=
  match r with
  | Some id => name ← getTempName id; mret (Some name)
  | None => mret None
  end.

Definition transformCall (r : option Z) (sig : option Sig) (f : Expr) (args : list Expr) : TM Cminor.Stmt :=
  fn ← TransformExpr f; args ← TransformExprs args; result ← result_name r;
  mret (Structured.Scall result (transformSig <$> sig) fn args).

Definition transformTailcall (sig : option Sig) (f : Expr) (args : list Expr) : TM Cminor.Stmt :=
  fn ← TransformExpr f; args ← TransformExprs args; mret (Structured.Stailcall (transformSig <$> sig) fn args).

Definition transformBuiltin (r : option Z) (b : string) (args : list Expr) : TM Cminor.Stmt :=
  args ← TransformExprs args; result ← result_name r; mret (Structured.Sbuiltin result b args).

(** [transformSwitch] is the case of [Sswitch]. *)
Fixpoint TransformStmt (s : Stmt) : TM Cminor.Stmt :=
  match s with
  | Structured.Sskip => mret Structured.Sskip
  | Structured.Sassign id a =>
      name ← getTempName id; rhs ← TransformExpr a; mret (TransformVarWrite env name rhs)
  | Structured.Sstore chunk addr a =>
      addr ← TransformExpr addr; value ← TransformExpr a; mret (Structured.Sstore chunk addr value)
  | Structured.Scall r sig f args => transformCall r sig f args
  | Structured.Stailcall sig f args => transformTailcall sig f args
  | Structured.Sbuiltin r b args => transformBuiltin r b args
  | Structured.Sseq s1 s2 => first ← TransformStmt s1; second ← TransformStmt s2; mret (Structured.Sseq first second)
  | Structured.Sifthenelse c s1 s2 =>
      cond ← TransformExpr c; thenStmt ← TransformStmt s1; elseStmt ← TransformStmt s2;
      mret (Structured.Sifthenelse cond thenStmt elseStmt)
  | Structured.Sloop s => body ← TransformStmt s; mret (Structured.Sloop body)
  | Structured.Sblock s => body ← TransformStmt s; mret (Structured.Sblock body)
  | Structured.Sexit n => mret (Structured.Sexit n)
  | Structured.Sswitch isLong a cases d =>
      expr ← TransformExpr a;
      cases ← (fix go cases :=
        match cases with
        | [] => mret []
        | c :: cases => body ← TransformStmt c.2; cases ← go cases; mret ((c.1, body) :: cases)
        end) cases;
      defaultStmt ← TransformStmt d;
      mret (Structured.Sswitch isLong expr cases defaultStmt)
  | Structured.Sreturn None => mret (Structured.Sreturn None)
  | Structured.Sreturn (Some a) => value ← TransformExpr a; mret (Structured.Sreturn (Some value))
  | Structured.Slabel l s => body ← TransformStmt s; mret (Structured.Slabel l body)
  | Structured.Sgoto l => mret (Structured.Sgoto l)
  end.
End Transform.

(** The temporaries of the function get their names first. *)
Fixpoint name_temps (ids : list Z) : TM () :=
  match ids with
  | [] => mret ()
  | id :: ids => _ ← getTempName id; name_temps ids
  end.

Definition TransformFunction (order : RangeOrder) (names : NameOrder) (fn : Function) (globals : gmap string GlobalInfo)
    : option Cminor.Function :=
  let env := ClassifyVariables (fn_Locals fn) (fn_Body fn) in
  let tr := NewTransformer env globals in
  '(_, tm) ← name_temps (seqZ 0 (Z.of_nat (length (fn_Temps fn)))) (tempMap tr);
  '(body, tm) ← TransformStmt (varEnv tr) globals (fn_Body fn) tm;
  let vars := (range 0 tm).*2 ++ RegisterVars env in
  Some (Cminor.mkFunction (fn_Name fn) (transformSig (fn_Sig fn)) (fn_Params fn) vars (StackSize env) body).

Definition program_global_info (prog : Program) : gmap string GlobalInfo :=
  fold_left (fun globals g => <[vd_Name g := mkGlobalInfo (vd_Size g) (vd_Signed g)]> globals) (Globals prog) ∅.

Definition TransformProgram (order : RangeOrder) (names : NameOrder) (prog : Program) : option Cminor.Program :=
  let globals := program_global_info prog in
  functions ← mapM (fun fn => TransformFunction order names fn globals) (Functions prog);
  Some (Cminor.mkProgram
    ((fun g => Cminor.mkGlobVar (vd_Name g) (vd_Size g) (vd_Init g) (vd_ReadOnly g)) <$> Globals prog) functions).
