(* ===== verification/CsharpminorSem.v ===== *)
(** Execution of Csharpminor functions: the statements of [Structured] over
    expressions in which a name stands for a local variable, a parameter, a
    global variable or a symbol. Locals live in the frame of the function, each
    at a place of its own. *)

From S2P Require Import Prelude Target Semantics RtlSem Structured Values CminorSem.
From S2P Require Cminor Csharpminor Cminorgen.

(** ** What a name stands for *)

Definition find_decl (x : string) (decls : list Csharpminor.VarDecl) : option Csharpminor.VarDecl :=
  snd <$> list_find (fun d => Csharpminor.vd_Name d = x) decls.

Inductive meaning :=
| MLocal (d : Csharpminor.VarDecl)
| MParam
| MGlobal (d : Csharpminor.VarDecl)
| MSymbol.

(** Locals hide parameters, which hide globals. *)
Definition name_meaning (f : Csharpminor.Function) (globals : list Csharpminor.VarDecl) (x : string) : meaning :=
  match find_decl x (Csharpminor.fn_Locals f) with
  | Some d => MLocal d
  | None =>
      if decide (x ∈ Csharpminor.fn_Params f) then MParam
      else match find_decl x globals with Some d => MGlobal d | None => MSymbol end
  end.

(** How a scalar variable is read; an aggregate is not read as a whole. *)
Definition decl_chunk (d : Csharpminor.VarDecl) : option Chunk :=
  match Csharpminor.vd_Size d, Csharpminor.vd_Signed d with
  | 1, true => Some Mint8signed
  | 1, false => Some Mint8unsigned
  | 2, true => Some Mint16signed
  | 2, false => Some Mint16unsigned
  | 4, _ => Some Mint32
  | 8, _ => Some Mint64
  | _, _ => None
  end.

Section Execution.
  Context {M : Type} `{FO : FloatOps} `{LO : Layout} `{TS : TargetSemantics val M}.
  Context {VT : ValueTarget M}.
  Context (f : Csharpminor.Function) (globals : list Csharpminor.VarDecl).
  Context (place : string -> Z) (args : gmap string val).
  Implicit Types (e : gmap Z val) (m : M).

Definition cs_const (c : Csharpminor.Constant) : val :=
  match c with
  | Csharpminor.Ointconst n => Vint n
  | Csharpminor.Ofloatconst b => Vfloat b
  | Csharpminor.Olongconst n => Vlong n
  | Csharpminor.Osingleconst b => Vsingle b
  | Csharpminor.Oaddrsymbol s ofs => symbol_offset s ofs
  end.

Definition cs_var m (x : string) : option val :=
  match name_meaning f globals x with
  | MLocal d => chunk ← decl_chunk d; eval_load_at chunk (stack_offset (place x)) m
  | MParam => args !! x
  | MGlobal d => chunk ← decl_chunk d; eval_load_at chunk (symbol_offset x 0) m
  | MSymbol => Some (symbol_offset x 0)
  end.

(** A parameter has no address. *)
Definition cs_address (x : string) : option val :=
  match name_meaning f globals x with
  | MLocal _ => Some (stack_offset (place x))
  | MParam => None
  | MGlobal _ | MSymbol => Some (symbol_offset x 0)
  end.

Fixpoint cs_expr e m (a : Csharpminor.Expr) : option val :=
  match a with
  | Csharpminor.Evar x => cs_var m x
  | Csharpminor.Etempvar id => e !! id
  | Csharpminor.Eaddrof x => cs_address x
  | Csharpminor.Econst c => Some (cs_const c)
  | Csharpminor.Eunop op a => v ← cs_expr e m a; eval_unop op v
  | Csharpminor.Ebinop op a1 a2 => v1 ← cs_expr e m a1; v2 ← cs_expr e m a2; eval_binop op v1 v2
  | Csharpminor.Ecmp op c a1 a2 =>
      v1 ← cs_expr e m a1; v2 ← cs_expr e m a2; truth <$> eval_cmp op (condition_of c) v1 v2
  | Csharpminor.Eload chunk a => v ← cs_expr e m a; eval_load_at chunk v m
  end.

(** The symbol a callee names, if it names one. *)
Definition named_symbol (a : Csharpminor.Expr) : option string :=
  match a with
  | Csharpminor.Evar x => match name_meaning f globals x with MSymbol => Some x | _ => None end
  | Csharpminor.Eaddrof x => match name_meaning f globals x with MGlobal _ | MSymbol => Some x | _ => None end
  | Csharpminor.Econst (Csharpminor.Oaddrsymbol s 0) => Some s
  | _ => None
  end.

Definition cs_callee e m (a : Csharpminor.Expr) : option (callee val) :=
  match named_symbol a with
  | Some s => Some (ToSymbol s)
  | None => ToAddress <$> cs_expr e m a
  end.

Definition csharpminor_language
    : Language Csharpminor.Sig Z Csharpminor.Expr Csharpminor.Expr Csharpminor.Expr val M := {|
  lang_expr := cs_expr;
  lang_cond e m a := cs_expr e m a ≫= val_truth;
  lang_store e chunk a v m := p ← cs_expr e m a; eval_store_at chunk p v m;
  lang_callee := cs_callee;
  lang_switch := switch_val;
  lang_sig sig := default zero_sig (Cminorgen.transformSig <$> sig)
|}.
End Execution.
