(* ===== verification/CminorgenProof.v ===== *)
(** Cminor generation: the frame that it lays out, and what it knows of the
    locals of a function; that the names of the temporaries do not depend on the
    order in which expressions are translated; and that translated expressions
    compute what the original ones do. *)

From stdpp Require Import pretty.
From S2P Require Import Prelude Structured StructuredMap Csharpminor Cminorgen Target Semantics RtlSem Values.
From S2P Require Import CminorSem CsharpminorSem.
From S2P Require Cminor.

(** ** Slots *)

Lemma alignmentForSize_cases size : alignmentForSize size ∈ [1; 2; 4; 8].
Proof. unfold alignmentForSize. repeat case_match; set_solver. Qed.

Lemma alignUp_rounds n align :
  align ∈ [1; 2; 4; 8] -> 0 <= n < 2 ^ 62 -> n <= alignUp n align <= n + 7 /\ (align | alignUp n align).
Proof.
  intros Ha Hn. assert (0 < align <= 8) by (rewrite !elem_of_cons, elem_of_nil in Ha; lia).
  unfold alignUp. destruct (Z.leb_spec align 0); [lia|].
  rewrite (i64_id (n + align)) by (unfold in_i64; lia). rewrite (i64_id (n + align - 1)) by (unfold in_i64; lia).
  rewrite Z.quot_div_nonneg by lia.
  pose proof (Z.div_mod (n + align - 1) align ltac:(lia)). pose proof (Z.mod_pos_bound (n + align - 1) align ltac:(lia)).
  rewrite i64_id by (unfold in_i64; lia). split; [lia|by apply Z.divide_factor_r].
Qed.

(** The bytes that [locals] may take, padding included. *)
Fixpoint room (locals : list VarDecl) : Z :=
  match locals with [] => 0 | d :: locals => vd_Size d + 7 + room locals end.

Definition sizes_ok (locals : list VarDecl) : Prop := Forall (fun d => 0 <= vd_Size d) locals.

Lemma room_nonneg locals : sizes_ok locals -> 0 <= room locals.
Proof. induction 1; cbn; lia. Qed.

Definition slot_end (s : StackSlot) : Z := ss_Offset s + ss_Size s.

(** A slot for each declaration. *)
Definition slot_for (d : VarDecl) (s : StackSlot) : Prop :=
  ss_Name s = vd_Name d /\ ss_Size s = vd_Size d /\ ss_Alignment s = alignmentForSize (vd_Size d) /\
  (ss_Alignment s | ss_Offset s).

(** One slot is entirely below the other. *)
Definition slot_below (s t : StackSlot) : Prop := slot_end s <= ss_Offset t.

Lemma layout_slots_spec locals offset slots last :
  sizes_ok locals -> 0 <= offset -> offset + room locals < 2 ^ 62 -> layout_slots offset locals = (slots, last) ->
  Forall2 slot_for locals slots /\ StronglySorted slot_below slots /\
  Forall (fun s => offset <= ss_Offset s /\ slot_end s <= last) slots /\ offset <= last <= offset + room locals.
Proof.
  intros Hs. revert offset slots last. induction Hs as [|d locals Hd Hs IH]; intros offset slots last H0 Hr Hl.
  { injection Hl as <- <-. cbn. split_and!; try constructor; lia. }
  cbn [layout_slots room] in *. pose proof (room_nonneg locals Hs).
  destruct (alignUp_rounds offset (alignmentForSize (vd_Size d)) (alignmentForSize_cases _) ltac:(lia)) as [Hb Hdiv].
  set (start := alignUp offset (alignmentForSize (vd_Size d))) in *.
  rewrite i64_id in Hl by (unfold in_i64; lia).
  destruct (layout_slots (start + vd_Size d) locals) as [rest last'] eqn:E. injection Hl as <- <-.
  destruct (IH (start + vd_Size d) rest last' ltac:(lia) ltac:(lia) E) as (HF & Hsort & Hin & Hlast). split_and!.
  - by constructor.
  - constructor; [done|]. eapply Forall_impl; [exact Hin|]. intros s [Hs1 _]. unfold slot_below, slot_end. cbn. lia.
  - constructor; [unfold slot_end; cbn [ss_Offset ss_Size]; lia|]. eapply Forall_impl; [exact Hin|]. cbn beta. intros s [? ?]. lia.
  - lia.
  - lia.
Qed.

Lemma GetSlot_find l x : GetSlot l x = find_name ss_Name x (Slots l).
Proof. done. Qed.

(** ** Frames *)

(** Every variable has an aligned place inside the frame that it shares with no
    other. *)
Definition valid_frame (decls : list VarDecl) (place : string -> Z) (size : Z) : Prop :=
  (forall d, d ∈ decls ->
     0 <= place (vd_Name d) /\ place (vd_Name d) + vd_Size d <= size /\
     (alignmentForSize (vd_Size d) | place (vd_Name d))) /\
  (forall d1 d2, d1 ∈ decls -> d2 ∈ decls -> vd_Name d1 <> vd_Name d2 ->
     place (vd_Name d1) + vd_Size d1 <= place (vd_Name d2) \/ place (vd_Name d2) + vd_Size d2 <= place (vd_Name d1)).

Definition slot_place (l : StackLayout) (x : string) : Z := from_option ss_Offset (-1) (GetSlot l x).

Lemma sorted_below s t slots : StronglySorted slot_below slots -> s ∈ slots -> t ∈ slots -> s = t \/ slot_below s t \/ slot_below t s.
Proof.
  induction 1 as [|u slots Hs IH Hu]; [by intros H%elem_of_nil|]. rewrite Forall_forall in Hu. rewrite !elem_of_cons.
  intros [->|H1] [->|H2]; auto.
Qed.

Lemma slot_names decls slots : Forall2 slot_for decls slots -> ss_Name <$> slots = vd_Name <$> decls.
Proof. induction 1 as [|d s decls slots (Hn & _) _ IH]; [done|]. cbn. by rewrite Hn, IH. Qed.

Lemma layout_facts decls :
  sizes_ok decls -> room decls < 2 ^ 61 -> let l := ComputeStackLayout decls in
  Forall2 slot_for decls (Slots l) /\ StronglySorted slot_below (Slots l) /\
  Forall (fun s => 0 <= ss_Offset s /\ slot_end s <= TotalSize l) (Slots l) /\
  0 <= TotalSize l <= room decls + 7 /\ (8 | TotalSize l).
Proof.
  intros Hs Hr. unfold ComputeStackLayout. destruct (layout_slots 0 decls) as [slots last] eqn:E.
  destruct (layout_slots_spec decls 0 slots last Hs ltac:(lia) ltac:(lia) E) as (HF & Hsort & Hin & Hlast). cbn [Slots TotalSize].
  destruct (alignUp_rounds last 8) as [Hb Hd]; [set_solver|lia|]. split_and!; try done; try lia.
  eapply Forall_impl; [exact Hin|]. cbn beta. intros s [? ?]. lia.
Qed.

Lemma layout_valid decls :
  sizes_ok decls -> room decls < 2 ^ 61 -> NoDup (vd_Name <$> decls) ->
  let l := ComputeStackLayout decls in valid_frame decls (slot_place l) (TotalSize l).
Proof.
  intros Hs Hr Hnd l. destruct (layout_facts decls Hs Hr) as (HF & Hsort & Hin & _). fold l in HF, Hsort, Hin.
  pose proof (slot_names _ _ HF) as Hnames. rewrite <- Hnames in Hnd. rewrite Forall_forall in Hin.
  assert (Hslot : forall d, d ∈ decls -> exists s, s ∈ Slots l /\ slot_for d s /\ slot_place l (vd_Name d) = ss_Offset s).
  { intros d Hd. destruct (list_elem_of_lookup_1 _ _ Hd) as [i Hi]. destruct (Forall2_lookup_l _ _ _ _ _ HF Hi) as (s & Hi' & Hsf).
    apply list_elem_of_lookup_2 in Hi'. exists s. split_and!; [done|done|]. unfold slot_place. rewrite GetSlot_find.
    destruct Hsf as (<- & _). by rewrite (find_name_elem ss_Name s). }
  split.
  - intros d Hd. destruct (Hslot d Hd) as (s & Hs1 & (_ & Hsz & Hal & Hdiv) & ->). destruct (Hin s Hs1) as [H0 He].
    unfold slot_end in He. rewrite Hsz in He. by rewrite <- Hal.
  - intros d1 d2 Hd1 Hd2 Hne. destruct (Hslot d1 Hd1) as (s & Hs1 & (Hn1 & Hz1 & _) & ->).
    destruct (Hslot d2 Hd2) as (t & Ht1 & (Hn2 & Hz2 & _) & ->). rewrite <- Hz1, <- Hz2.
    destruct (sorted_below s t (Slots l) Hsort Hs1 Ht1) as [->|[?|?]]; [by rewrite Hn1 in Hn2|by left|by right].
Qed.

(** C33. The frame of a function: every variable the layout is computed for has a
    slot, of its size and aligned for it; the slots lie inside the frame, none
    overlaps another, and the size of the frame is a multiple of eight that
    wastes at most seven bytes per variable and at the end. *)
Theorem ComputeStackLayout_correct decls :
  sizes_ok decls -> room decls < 2 ^ 61 -> NoDup (vd_Name <$> decls) ->
  let l := ComputeStackLayout decls in
  (forall d, d ∈ decls -> exists s, GetSlot l (vd_Name d) = Some s /\ slot_for d s) /\
  valid_frame decls (slot_place l) (TotalSize l) /\ TotalSize l <= room decls + 7 /\ (8 | TotalSize l).
Proof.
  intros Hs Hr Hnd l. destruct (layout_facts decls Hs Hr) as (HF & _ & _ & Hsize & Hdiv). split; [|split; [by apply layout_valid|by split; [apply Hsize|]]].
  intros d Hd. destruct (list_elem_of_lookup_1 _ _ Hd) as [i Hi]. destruct (Forall2_lookup_l _ _ _ _ _ HF Hi) as (s & Hi' & Hsf).
  exists s. split; [|done]. rewrite GetSlot_find. destruct Hsf as (<- & _). apply find_name_elem; [by rewrite (slot_names decls)|].
  by apply list_elem_of_lookup_2 in Hi'.
Qed.

(** ** What is known of the locals *)

Section Classify.
  Context (locals : list VarDecl) (body : Stmt) (distinct : NoDup (vd_Name <$> locals)).

(** The locals with a place in the frame. *)
Definition frame_locals (locals : list VarDecl) (body : Stmt) : list VarDecl :=
  List.filter (fun d => bool_decide (vd_Name d ∈ FindAddressTaken body locals)) locals.

Local Abbreviation layout := (ComputeStackLayout (frame_locals locals body)).

Lemma frame_locals_elem d : d ∈ frame_locals locals body <-> d ∈ locals /\ vd_Name d ∈ FindAddressTaken body locals.
Proof using.
  unfold frame_locals. rewrite !list_elem_of_In, filter_In, <- list_elem_of_In, bool_decide_eq_true. done.
Qed.

Lemma frame_locals_distinct : NoDup (vd_Name <$> frame_locals locals body).
Proof using distinct.
  unfold frame_locals. induction locals as [|d l IH]; [done|]. rewrite fmap_cons, NoDup_cons in distinct.
  destruct distinct as [Hd Hl]. cbn [List.filter]. set (S := FindAddressTaken body (d :: l)) in *.
  assert (Hfilter : forall P : VarDecl -> bool, NoDup (vd_Name <$> List.filter P l)).
  { intros P. clear -Hl. induction l as [|a l IH]; [done|]. rewrite fmap_cons, NoDup_cons in Hl. destruct Hl as [Ha Hl].
    cbn. destruct (P a); [|by apply IH]. rewrite fmap_cons, NoDup_cons. split; [|by apply IH].
    intros (b & Hb & Hin)%list_elem_of_fmap. apply Ha. apply list_elem_of_fmap. exists b. split; [done|].
    rewrite list_elem_of_In, filter_In, <- list_elem_of_In in Hin. apply Hin. }
  destruct (bool_decide _); [|apply Hfilter]. rewrite fmap_cons, NoDup_cons. split; [|apply Hfilter].
  intros (b & Hb & Hin)%list_elem_of_fmap. apply Hd. apply list_elem_of_fmap. exists b. split; [done|].
  rewrite list_elem_of_In, filter_In, <- list_elem_of_In in Hin. apply Hin.
Qed.

Lemma frame_locals_room :
  sizes_ok locals -> sizes_ok (frame_locals locals body) /\ room (frame_locals locals body) <= room locals.
Proof using.
  intros Hs. unfold frame_locals. set (P := fun d => bool_decide (vd_Name d ∈ FindAddressTaken body locals)). clearbody P.
  clear distinct. induction Hs as [|d l Hd Hl [IH1 IH2]]; [by split; [constructor|]|]. cbn.
  destruct (P d); cbn; [|split; [done|lia]]. split; [by constructor|lia].
Qed.

Lemma initial_vars_lookup S x :
  initial_vars S locals !! x = initial_info S <$> find_name vd_Name x locals.
Proof using distinct.
  unfold initial_vars. rewrite (fold_insert_lookup vd_Name) by done. by destruct (find_name vd_Name x locals).
Qed.

Lemma kind_is_stack_initial S d :
  d ∈ locals -> kind_is_stack (initial_vars S locals) (vd_Name d) = bool_decide (vd_Name d ∈ S).
Proof using distinct.
  intros Hd. unfold kind_is_stack. rewrite initial_vars_lookup, find_name_elem by done. cbn.
  by destruct (bool_decide (vd_Name d ∈ S)).
Qed.

Lemma classify_stack_locals :
  List.filter (fun d => kind_is_stack (initial_vars (FindAddressTaken body locals) locals) (vd_Name d)) locals =
  frame_locals locals body.
Proof using distinct.
  apply filter_ext_in. intros d Hd. apply kind_is_stack_initial. by apply list_elem_of_In.
Qed.

Lemma StackSize_classify : StackSize (ClassifyVariables locals body) = TotalSize layout.
Proof using distinct. unfold ClassifyVariables. by rewrite classify_stack_locals. Qed.

(** The entry of a local. *)
Definition local_info (d : VarDecl) : VarInfo :=
  if decide (vd_Name d ∈ FindAddressTaken body locals)
  then mkVarInfo (vd_Name d) VarStack (vd_Size d) (slot_place layout (vd_Name d)) (chunkForSize (vd_Size d))
  else mkVarInfo (vd_Name d) VarRegister (vd_Size d) 0 (chunkForSize (vd_Size d)).

Lemma classify_lookup x :
  sizes_ok locals -> room locals < 2 ^ 61 ->
  Vars (ClassifyVariables locals body) !! x = local_info <$> find_name vd_Name x locals.
Proof using distinct.
  intros Hs Hr. unfold ClassifyVariables. rewrite classify_stack_locals. cbn [Vars].
  destruct (frame_locals_room Hs) as [Hs' Hr']. destruct (layout_facts _ Hs' ltac:(lia)) as (HF & _). pose proof (slot_names _ _ HF) as Hnames.
  unfold set_offsets. rewrite (fold_alter_lookup ss_Name) by (rewrite Hnames; apply frame_locals_distinct).
  rewrite initial_vars_lookup. destruct (find_name vd_Name x locals) as [d|] eqn:Ed.
  2:{ by destruct (find_name ss_Name x _). }
  destruct (find_name_Some _ _ _ _ Ed) as [Hd <-]. cbn [fmap option_fmap option_map]. unfold local_info, slot_place.
  rewrite GetSlot_find. unfold initial_info. destruct (find_name ss_Name (vd_Name d) (Slots layout)) as [s|] eqn:Es.
  - apply find_name_Some in Es as [Hin Hn]. cbn [from_option].
    assert (Hel : vd_Name d ∈ vd_Name <$> frame_locals locals body).
    { rewrite <- Hnames, <- Hn. apply list_elem_of_fmap. eauto. }
    apply list_elem_of_fmap in Hel as (d' & Hd' & [_ Hel]%frame_locals_elem). rewrite Hd'.
    by rewrite bool_decide_true, decide_True.
  - apply find_name_None in Es. rewrite Hnames in Es.
    assert (Hno : vd_Name d ∉ FindAddressTaken body locals).
    { intros H. apply Es. apply list_elem_of_fmap. exists d. split; [done|]. by apply frame_locals_elem. }
    by rewrite bool_decide_false, decide_False.
Qed.
End Classify.

(** ** The names given so far *)

Definition named (T : gset Z) : gmap Z string := map_imap (fun id _ => Some (temp_name id)) (gset_to_gmap () T).

Lemma named_lookup T id : named T !! id = if decide (id ∈ T) then Some (temp_name id) else None.
Proof.
  unfold named. rewrite map_lookup_imap, lookup_gset_to_gmap. destruct (decide (id ∈ T)).
  - by rewrite option_guard_True.
  - by rewrite option_guard_False.
Qed.

Lemma named_empty : named ∅ = ∅.
Proof. apply map_eq. intros id. by rewrite named_lookup, decide_False, lookup_empty by set_solver. Qed.

Lemma temp_name_inj i j : temp_name i = temp_name j -> i = j.
Proof. unfold temp_name. intros H. by apply (inj (String.append "_t")), (inj pretty) in H. Qed.

(** [x] returns [a] and gives names to the temporaries [ids], whatever has been
    named before. *)
Definition yields {A} (x : TM A) (a : A) (ids : gset Z) : Prop := forall T, x (named T) = Some (a, named (T ∪ ids)).

Lemma yields_ret {A} (a : A) : yields (mret a) a ∅.
Proof. intros T. by rewrite (right_id_L ∅ _). Qed.

Lemma yields_bind {A B} (x : TM A) (f : A -> TM B) a b i j :
  yields x a i -> yields (f a) b j -> yields (x ≫= f) b (i ∪ j).
Proof. intros Hx Hf T. unfold mbind, TM_bind. rewrite Hx. cbn. by rewrite Hf, (assoc_L (∪)). Qed.

Lemma yields_map {A B} (x : TM A) (f : A -> TM B) a b i : yields x a i -> yields (f a) b ∅ -> yields (x ≫= f) b i.
Proof. intros Hx Hf. rewrite <- (right_id_L ∅ (∪) i). by eapply yields_bind. Qed.

Lemma yields_temp id : yields (getTempName id) (temp_name id) {[id]}.
Proof.
  intros T. unfold getTempName. rewrite named_lookup. destruct (decide (id ∈ T)) as [H|H].
  - do 2 f_equal. by rewrite (comm_L (∪)), subseteq_union_1_L by set_solver.
  - do 2 f_equal. apply map_eq. intros j. rewrite named_lookup. destruct (decide (id = j)) as [<-|Hj].
    + by rewrite lookup_insert_eq, decide_True by set_solver.
    + rewrite lookup_insert_ne, named_lookup by done. destruct (decide (j ∈ T)).
      * by rewrite decide_True by set_solver.
      * by rewrite decide_False by set_solver.
Qed.

(** ** Expressions *)

Fixpoint expr_temps (e : Expr) : gset Z :=
  match e with
  | Evar _ | Eaddrof _ | Econst _ => ∅
  | Etempvar id => {[id]}
  | Eunop _ a | Eload _ a => expr_temps a
  | Ebinop _ l r | Ecmp _ _ l r => expr_temps l ∪ expr_temps r
  end.

Definition exprs_temps (es : list Expr) : gset Z := foldr (fun e ids => expr_temps e ∪ ids) ∅ es.

Section Expressions.
  Context (env : VarEnv) (globals : gmap string GlobalInfo).
  Context (placed : forall x, IsStack env x = true -> 0 <= GetStackOffset env x).
  Context (no_temps : forall id, Vars env !! temp_name id = None).

Fixpoint cm_of (e : Expr) : Cminor.Expr :=
  match e with
  | Evar x =>
      match globals !! x with
      | Some info => Cminor.Eload (chunkForSizeAndSign (gi_Size info) (gi_Signed info)) (Cminor.Econst (Cminor.Oaddrsymbol x 0))
      | None => TransformVarRead env x
      end
  | Etempvar id => Cminor.Evar (temp_name id)
  | Eaddrof x =>
      if bool_decide (is_Some (globals !! x)) then Cminor.Econst (Cminor.Oaddrsymbol x 0)
      else if IsStack env x then Cminor.Econst (Cminor.Oaddrstack (GetStackOffset env x))
      else Cminor.Evar x
  | Econst c => transformConst c
  | Eunop op a => Cminor.Eunop op (cm_of a)
  | Ebinop op l r => Cminor.Ebinop op (cm_of l) (cm_of r)
  | Ecmp op c l r => Cminor.Ecmp op c (cm_of l) (cm_of r)
  | Eload chunk a => Cminor.Eload chunk (cm_of a)
  end.

Lemma TransformExpr_yields e : yields (TransformExpr env globals e) (cm_of e) (expr_temps e).
Proof using placed no_temps.
  induction e as [x|id|x|c|op a IH|op l IHl r IHr|op c l IHl r IHr|chunk a IH]; cbn [TransformExpr cm_of expr_temps].
  - destruct (globals !! x); apply yields_ret.
  - eapply yields_map; [apply yields_temp|]. unfold TransformVarRead. rewrite no_temps. apply yields_ret.
  - destruct (bool_decide _); [apply yields_ret|]. destruct (IsStack env x) eqn:Es; [|apply yields_ret].
    unfold TransformAddrOf. destruct (Z.ltb_spec (GetStackOffset env x) 0); [by apply placed in Es; lia|apply yields_ret].
  - apply yields_ret.
  - eapply yields_map; [apply IH|apply yields_ret].
  - eapply yields_bind; [apply IHl|]. eapply yields_map; [apply IHr|apply yields_ret].
  - eapply yields_bind; [apply IHl|]. eapply yields_map; [apply IHr|apply yields_ret].
  - eapply yields_map; [apply IH|apply yields_ret].
Qed.

Lemma TransformExprs_yields es : yields (TransformExprs env globals es) (map cm_of es) (exprs_temps es).
Proof using placed no_temps.
  induction es as [|e es IH]; [apply yields_ret|]. cbn [TransformExprs map exprs_temps foldr].
  eapply yields_bind; [apply TransformExpr_yields|]. eapply yields_map; [exact IH|apply yields_ret].
Qed.
End Expressions.

(** ** Statements *)

Definition result_temps (r : option Z) : gset Z := from_option singleton ∅ r.

Fixpoint stmt_temps (s : Stmt) : gset Z :=
  match s with
  | Structured.Sskip | Structured.Sexit _ | Structured.Sgoto _ | Structured.Sreturn None => ∅
  | Structured.Sassign id a => {[id]} ∪ expr_temps a
  | Structured.Sreturn (Some a) => expr_temps a
  | Structured.Sstore _ addr a => expr_temps addr ∪ expr_temps a
  | Structured.Scall r _ f args => expr_temps f ∪ (exprs_temps args ∪ result_temps r)
  | Structured.Stailcall _ f args => expr_temps f ∪ exprs_temps args
  | Structured.Sbuiltin r _ args => exprs_temps args ∪ result_temps r
  | Structured.Sseq s1 s2 => stmt_temps s1 ∪ stmt_temps s2
  | Structured.Sifthenelse c s1 s2 => expr_temps c ∪ (stmt_temps s1 ∪ stmt_temps s2)
  | Structured.Sloop s | Structured.Sblock s | Structured.Slabel _ s => stmt_temps s
  | Structured.Sswitch _ a cases d =>
      expr_temps a ∪ (foldr (fun c ids => stmt_temps c.2 ∪ ids) ∅ cases ∪ stmt_temps d)
  end.

Lemma exprs_temps_elem es e : e ∈ es -> expr_temps e ⊆ exprs_temps es.
Proof. induction es as [|a es IH]; [by intros H%elem_of_nil|]. rewrite elem_of_cons. cbn. intros [->|H%IH]; set_solver. Qed.

Lemma stmt_temps_exprs s e : e ∈ stmt_exprs s -> expr_temps e ⊆ stmt_temps s.
Proof.
  induction s as [|x a|chunk a1 a2|r sig f args|sig f args|r b args|s1 s2 IH1 IH2|c s1 s2 IH1 IH2|s IHs|s IHs|n|isLong a cases d Hcases IHs|[a|]|l0 s IHs|l0]
    using Structured.Stmt_nested_ind; cbn [stmt_exprs stmt_temps];
    rewrite ?elem_of_cons, ?elem_of_app, ?elem_of_nil; try done.
  all: try (intros H; destruct_or?; subst; try done; try apply exprs_temps_elem in H; set_solver).
  { intros [H%IH1|H%IH2]; set_solver. }
  { intros [->|[H%IH1|H%IH2]]; set_solver. }
  intros [->|[H|H%IHs]]; [set_solver| |set_solver].
  assert (expr_temps e ⊆ foldr (fun c ids => stmt_temps c.2 ∪ ids) ∅ cases); [|set_solver].
  induction Hcases as [|c cases Hc _ IH]; [by apply elem_of_nil in H|]. cbn in H |- *.
  apply elem_of_app in H as [H%Hc|H%IH]; set_solver.
Qed.

Section Statements.
  Context (env : VarEnv) (globals : gmap string GlobalInfo).
  Context (placed : forall x, IsStack env x = true -> 0 <= GetStackOffset env x).
  Context (no_temps : forall id, Vars env !! temp_name id = None).

Definition cm_stmt : Stmt -> Cminor.Stmt :=
  map_stmt transformSig temp_name (cm_of env globals) (cm_of env globals) (cm_of env globals).

Lemma result_yields r : yields (result_name r) (temp_name <$> r) (result_temps r).
Proof using. destruct r as [id|]; [|apply yields_ret]. eapply yields_map; [apply yields_temp|apply yields_ret]. Qed.

Local Ltac yields_step :=
  first
    [ apply yields_ret
    | eapply yields_map; [first [by apply TransformExpr_yields|by apply TransformExprs_yields|by apply result_yields|done]|]
    | eapply yields_bind; [first [by apply TransformExpr_yields|by apply TransformExprs_yields|by apply result_yields|done]|] ].

Lemma TransformStmt_yields s : yields (TransformStmt env globals s) (cm_stmt s) (stmt_temps s).
Proof using placed no_temps.
  induction s as [|x a|chunk a1 a2|r sig f args|sig f args|r b args|s1 s2 IH1 IH2|c s1 s2 IH1 IH2|s IHs|s IHs|n|isLong a cases d Hcases IHs|[a|]|l0 s IHs|l0]
    using Structured.Stmt_nested_ind; unfold cm_stmt; cbn [TransformStmt map_stmt stmt_temps]; fold cm_stmt.
  2: { eapply yields_bind; [apply yields_temp|]. eapply yields_map; [by apply TransformExpr_yields|].
       unfold TransformVarWrite. rewrite no_temps. apply yields_ret. }
  all: unfold transformCall, transformTailcall, transformBuiltin.
  all: try solve [repeat yields_step].
  - eapply yields_bind; [by apply TransformExpr_yields|].
    eapply yields_bind; [|eapply yields_map; [exact IHs|apply yields_ret]].
    induction Hcases as [|c cases Hc _ IH]; [apply yields_ret|]. cbn [foldr map].
    eapply yields_bind; [exact Hc|]. eapply yields_map; [exact IH|apply yields_ret].
Qed.
End Statements.

(** ** Addresses taken *)

Fixpoint expr_addrs (e : Expr) : gset string :=
  match e with
  | Evar _ | Etempvar _ | Econst _ => ∅
  | Eaddrof x => {[x]}
  | Eunop _ a | Eload _ a => expr_addrs a
  | Ebinop _ l r | Ecmp _ _ l r => expr_addrs l ∪ expr_addrs r
  end.

Lemma find_address_expr locals e result :
  findAddressTakenInExpr locals e result = result ∪ (expr_addrs e ∩ locals).
Proof.
  revert result. induction e as [x|id|x|c|op a IH|op l IHl r IHr|op c l IHl r IHr|chunk a IH]; intros result; cbn.
  all: rewrite ?IH, ?IHr, ?IHl; try set_solver.
  destruct (bool_decide_reflect (x ∈ locals)); set_solver.
Qed.

Lemma find_address_exprs locals es result x :
  x ∈ findAddressTakenInExprs locals es result <-> x ∈ result \/ x ∈ locals /\ exists e, e ∈ es /\ x ∈ expr_addrs e.
Proof.
  unfold findAddressTakenInExprs. revert result. induction es as [|e es IH]; intros result; cbn [fold_left].
  - set_solver.
  - rewrite IH, find_address_expr, elem_of_union, elem_of_intersection. setoid_rewrite elem_of_cons. naive_solver.
Qed.

Lemma find_address_stmt locals s result :
  findAddressTakenInStmt locals s result = findAddressTakenInExprs locals (stmt_exprs s) result.
Proof.
  revert result.
  induction s as [|x a|chunk a1 a2|r sig f args|sig f args|r b args|s1 s2 IH1 IH2|c s1 s2 IH1 IH2|s IHs|s IHs|n|isLong a cases d Hcases IHs|[a|]|l0 s IHs|l0]
    using Structured.Stmt_nested_ind; intros result; cbn [findAddressTakenInStmt stmt_exprs]; try done.
  - unfold findAddressTakenInExprs. by rewrite fold_left_app, IH2, IH1.
  - unfold findAddressTakenInExprs. cbn [fold_left]. by rewrite fold_left_app, IH2, IH1.
  - unfold findAddressTakenInExprs. cbn [fold_left]. rewrite fold_left_app, IHs. unfold findAddressTakenInExprs. f_equal.
    generalize (findAddressTakenInExpr locals a result). induction Hcases as [|c cases Hc _ IH]; intros r; [done|].
    cbn [fold_left flat_map]. by rewrite fold_left_app, Hc, IH.
Qed.

Lemma FindAddressTaken_elem s locals x :
  x ∈ FindAddressTaken s locals <-> x ∈ vd_Name <$> locals /\ exists e, e ∈ stmt_exprs s /\ x ∈ expr_addrs e.
Proof.
  unfold FindAddressTaken. rewrite find_address_stmt, find_address_exprs, elem_of_list_to_set. set_solver.
Qed.

(** ** What Cminor generation supports *)

(** A variable whose reads extend the sign: signed, or of four bytes or more. *)
Definition sign_ok (d : Csharpminor.VarDecl) : bool :=
  Csharpminor.vd_Signed d || negb ((Csharpminor.vd_Size d =? 1) || (Csharpminor.vd_Size d =? 2)).

(** Could [x] be the name of a temporary? *)
Definition temp_like (x : string) : bool := String.prefix "_t" x.

Section Supported.
  Context (f : Csharpminor.Function) (gs : list Csharpminor.VarDecl).
  Local Abbreviation addresses := (FindAddressTaken (Csharpminor.fn_Body f) (Csharpminor.fn_Locals f)).

Definition not_global (x : string) : bool := match find_decl x gs with Some _ => false | None => true end.

(** Names that are not both global and local; locals are read as a whole only
    if they are in the frame. *)
Fixpoint cs_expr_ok (a : Csharpminor.Expr) : bool :=
  match a with
  | Csharpminor.Evar x =>
      match name_meaning f gs x with
      | MLocal d => bool_decide (x ∈ addresses) && sign_ok d && not_global x
      | MParam => not_global x
      | MGlobal _ => true
      | MSymbol => negb (temp_like x)
      end
  | Csharpminor.Eaddrof x =>
      match name_meaning f gs x with
      | MLocal _ => not_global x
      | MSymbol => negb (temp_like x)
      | _ => true
      end
  | Csharpminor.Etempvar _ | Csharpminor.Econst _ => true
  | Csharpminor.Eunop _ a | Csharpminor.Eload _ a => cs_expr_ok a
  | Csharpminor.Ebinop _ l r | Csharpminor.Ecmp _ _ l r => cs_expr_ok l && cs_expr_ok r
  end.

Definition cminorgen_ok : bool :=
  bool_decide (NoDup (Csharpminor.vd_Name <$> Csharpminor.fn_Locals f)) &&
  forallb (fun d => 0 <=? Csharpminor.vd_Size d) (Csharpminor.fn_Locals f) &&
  (room (Csharpminor.fn_Locals f) <? 2 ^ 61) &&
  forallb (fun x => negb (temp_like x)) (Csharpminor.fn_Params f ++ (Csharpminor.vd_Name <$> Csharpminor.fn_Locals f)) &&
  forallb cs_expr_ok (stmt_exprs (Csharpminor.fn_Body f)).
End Supported.

Lemma temp_name_like id : temp_like (temp_name id) = true.
Proof. unfold temp_like, temp_name. cbn. by destruct (pretty id). Qed.

(** ** Names and their translation *)

Section Names.
  Context (f : Csharpminor.Function) (gs : list Csharpminor.VarDecl) (ok : cminorgen_ok f gs = true).
  Context (gs_distinct : NoDup (Csharpminor.vd_Name <$> gs)).
  Local Abbreviation locals := (Csharpminor.fn_Locals f).
  Local Abbreviation body := (Csharpminor.fn_Body f).
  Local Abbreviation env := (ClassifyVariables locals body).

Definition globals_info (gs : list Csharpminor.VarDecl) : gmap string GlobalInfo :=
  fold_left (fun globals g =>
    <[Csharpminor.vd_Name g := mkGlobalInfo (Csharpminor.vd_Size g) (Csharpminor.vd_Signed g)]> globals) gs ∅.

(** The place of a local in the frame that is laid out. *)
Definition frame_place (f : Csharpminor.Function) : string -> Z :=
  slot_place (ComputeStackLayout (frame_locals (Csharpminor.fn_Locals f) (Csharpminor.fn_Body f))).

Lemma globals_info_lookup x :
  globals_info gs !! x =
    (fun g => mkGlobalInfo (Csharpminor.vd_Size g) (Csharpminor.vd_Signed g)) <$> find_decl x gs.
Proof using gs_distinct.
  unfold globals_info. rewrite (fold_insert_lookup Csharpminor.vd_Name) by done. unfold find_decl, find_name.
  by destruct (snd <$> list_find _ gs).
Qed.

Lemma cminorgen_ok_spec :
  NoDup (Csharpminor.vd_Name <$> locals) /\ sizes_ok locals /\ room locals < 2 ^ 61 /\
  (forall x, x ∈ Csharpminor.fn_Params f -> temp_like x = false) /\
  (forall d, d ∈ locals -> temp_like (Csharpminor.vd_Name d) = false) /\
  forallb (cs_expr_ok f gs) (stmt_exprs body) = true.
Proof using ok.
  pose proof ok as Hok. unfold cminorgen_ok in Hok. rewrite !andb_true_iff, bool_decide_eq_true, Z.ltb_lt, forallb_app, andb_true_iff in Hok.
  destruct Hok as [[[[Hnd Hs] Hr] [Hp Hl]] He]. rewrite forallb_forall in Hs, Hp, Hl. split; [done|]. split.
  { apply Forall_forall. intros d Hd. apply Z.leb_le. apply Hs. by apply list_elem_of_In. }
  split; [done|]. split; [|split; [|done]].
  - intros x Hx. apply negb_true_iff, Hp. by apply list_elem_of_In.
  - intros d Hd. apply negb_true_iff, Hl. apply list_elem_of_In. apply list_elem_of_fmap. eauto.
Qed.

(** What is known of a name. *)
Lemma env_lookup x : Vars env !! x = local_info locals body <$> find_decl x locals.
Proof using ok. destruct cminorgen_ok_spec as (Hnd & Hs & Hr & _). by rewrite classify_lookup. Qed.

Lemma env_no_temps id : Vars env !! temp_name id = None.
Proof using ok.
  rewrite env_lookup. destruct (find_decl (temp_name id) locals) as [d|] eqn:E; [|done].
  apply find_name_Some in E as [Hd E]. destruct cminorgen_ok_spec as (_ & _ & _ & _ & Hl & _).
  specialize (Hl d Hd). rewrite E, temp_name_like in Hl. done.
Qed.

Lemma frame_valid : valid_frame (frame_locals locals body) (frame_place f) (StackSize env).
Proof using ok.
  destruct cminorgen_ok_spec as (Hnd & Hs & Hr & _). rewrite StackSize_classify by done.
  destruct (frame_locals_room locals body Hs) as [Hs' Hr'].
  apply layout_valid; [done|lia|by apply frame_locals_distinct].
Qed.

Lemma stack_local x d :
  find_decl x locals = Some d -> x ∈ FindAddressTaken body locals ->
  Vars env !! x = Some (mkVarInfo x VarStack (Csharpminor.vd_Size d) (frame_place f x) (chunkForSize (Csharpminor.vd_Size d))).
Proof using ok.
  intros Hd Hx. rewrite env_lookup, Hd. apply find_name_Some in Hd as [_ <-]. cbn. unfold local_info. by rewrite decide_True.
Qed.

Lemma env_placed x : IsStack env x = true -> 0 <= GetStackOffset env x.
Proof using ok.
  unfold IsStack, kind_is_stack, GetStackOffset. rewrite env_lookup.
  destruct (find_decl x locals) as [d|] eqn:Hd; [|done]. cbn. unfold local_info.
  destruct (decide (Csharpminor.vd_Name d ∈ FindAddressTaken body locals)) as [Hx|]; [|done]. intros _. cbn.
  apply frame_valid, frame_locals_elem. split; [|done]. by apply find_name_Some in Hd as [? _].
Qed.

(** ** The translated function *)

(** The temporaries that get a name. *)
Definition all_temps (f : Csharpminor.Function) : gset Z :=
  list_to_set (seqZ 0 (Z.of_nat (length (Csharpminor.fn_Temps f)))) ∪ stmt_temps (Csharpminor.fn_Body f).

Lemma name_temps_yields ids : yields (name_temps ids) () (list_to_set ids).
Proof using.
  induction ids as [|id ids IH]; [apply yields_ret|]. cbn [name_temps list_to_set].
  eapply yields_bind; [apply yields_temp|exact IH].
Qed.

Definition translated (order : RangeOrder) (names : NameOrder) : Cminor.Function :=
  Cminor.mkFunction (Csharpminor.fn_Name f) (transformSig (Csharpminor.fn_Sig f)) (Csharpminor.fn_Params f)
    ((range 0 (named (all_temps f))).*2 ++ RegisterVars env) (StackSize env) (cm_stmt env (globals_info gs) body).

Lemma TransformFunction_translated order names :
  TransformFunction order names f (globals_info gs) = Some (translated order names).
Proof using ok.
  unfold TransformFunction, NewTransformer. cbn [tempMap varEnv]. rewrite <- named_empty.
  rewrite (name_temps_yields _ ∅). cbn [mbind option_bind].
  rewrite (TransformStmt_yields env (globals_info gs) env_placed env_no_temps body _). cbn [mbind option_bind].
  by rewrite (left_id_L ∅ (∪)).
Qed.

Lemma translated_locals order names x :
  x ∈ fn_locals (translated order names) <->
  x ∈ Csharpminor.fn_Params f \/ (exists id, id ∈ all_temps f /\ x = temp_name id) \/
  (exists info, Vars env !! x = Some info /\ vi_Kind info = VarRegister).
Proof using.
  unfold fn_locals, translated, RegisterVars, vars_of_kind. cbn [Cminor.fn_Params Cminor.fn_Vars].
  rewrite elem_of_list_to_set, !elem_of_app, list_elem_of_omap. f_equiv. f_equiv.
  - rewrite list_elem_of_fmap. split.
    + intros ([id y] & -> & Hin). rewrite range_perm, elem_of_map_to_list, named_lookup in Hin.
      destruct (decide (id ∈ all_temps f)); [|done]. injection Hin as <-. eauto.
    + intros (id & Hid & ->). exists (id, temp_name id). split; [done|].
      by rewrite range_perm, elem_of_map_to_list, named_lookup, decide_True.
  - split.
    + intros ([y info] & Hin & Hk). rewrite range_names_perm, elem_of_map_to_list in Hin. cbn in Hk.
      destruct (decide (vi_Kind info = VarRegister)); [|done]. injection Hk as <-. eauto.
    + intros (info & Hin & Hk). exists (x, info). split; [by rewrite range_names_perm, elem_of_map_to_list|].
      cbn. by rewrite decide_True.
Qed.

(** Names that are neither parameters nor locals stay symbols. *)
Lemma symbol_not_local order names x :
  find_decl x locals = None -> x ∉ Csharpminor.fn_Params f -> temp_like x = false ->
  x ∉ fn_locals (translated order names).
Proof using ok.
  intros Hl Hp Ht. rewrite translated_locals. intros [?|[(id & _ & ->)|(info & Hi & _)]]; [done| |].
  - by rewrite temp_name_like in Ht.
  - by rewrite env_lookup, Hl in Hi.
Qed.
End Names.

(** ** Expressions *)

Section Expressions.
  Context {M : Type} `{FO : FloatOps} `{LO : Layout} `{TS : TargetSemantics val M}.
  Context {VT : ValueTarget M}.
  Context (order : RangeOrder) (names : NameOrder).
  Context (f : Csharpminor.Function) (gs : list Csharpminor.VarDecl) (ok : cminorgen_ok f gs = true).
  Context (gs_distinct : NoDup (Csharpminor.vd_Name <$> gs)) (args : gmap string val).
  Local Abbreviation locals := (Csharpminor.fn_Locals f).
  Local Abbreviation body := (Csharpminor.fn_Body f).
  Local Abbreviation env := (ClassifyVariables locals body).
  Local Abbreviation cf := (translated f gs order names).

(** Temporaries and parameters have their values. *)
Definition vars_rel (e1 : gmap Z val) (e2 : gmap string val) : Prop :=
  (forall id v, e1 !! id = Some v -> e2 !! temp_name id = Some v) /\
  (forall x, x ∈ Csharpminor.fn_Params f -> e2 !! x = args !! x).

Lemma vars_rel_set e1 e2 id v : vars_rel e1 e2 -> vars_rel (<[id := v]> e1) (<[temp_name id := v]> e2).
Proof using ok.
  intros [Ht Hp]. split.
  - intros j w. destruct (decide (id = j)) as [<-|Hj]; [by rewrite !lookup_insert_eq|].
    rewrite !lookup_insert_ne; [apply Ht|by intros H%temp_name_inj|done].
  - intros x Hx. rewrite lookup_insert_ne; [by apply Hp|]. intros <-.
    destruct (cminorgen_ok_spec f gs ok) as (_ & _ & _ & Hn & _). specialize (Hn _ Hx). by rewrite temp_name_like in Hn.
Qed.

(** The expressions of the body: supported, with named temporaries and with
    addresses of locals in the frame only. *)
Definition part_ok (a : Csharpminor.Expr) : bool :=
  cs_expr_ok f gs a && bool_decide (expr_temps a ⊆ all_temps f) &&
  bool_decide (expr_addrs a ∩ list_to_set (Csharpminor.vd_Name <$> locals) ⊆ FindAddressTaken body locals).

Lemma part_ok_sub a :
  part_ok a = true <-> cs_expr_ok f gs a = true /\ expr_temps a ⊆ all_temps f /\
    expr_addrs a ∩ list_to_set (Csharpminor.vd_Name <$> locals) ⊆ FindAddressTaken body locals.
Proof using. unfold part_ok. rewrite !andb_true_iff, !bool_decide_eq_true. tauto. Qed.

Lemma body_parts_ok : forallb part_ok (stmt_exprs body) = true.
Proof using ok.
  destruct (cminorgen_ok_spec f gs ok) as (_ & _ & _ & _ & _ & He). rewrite forallb_forall in He |- *.
  intros a Ha. pose proof Ha as Hin%list_elem_of_In. apply part_ok_sub. split; [by apply He|]. split.
  - etrans; [by apply (stmt_temps_exprs body)|]. apply union_subseteq_r.
  - intros x [Hx Hl]%elem_of_intersection. rewrite elem_of_list_to_set in Hl. apply FindAddressTaken_elem. eauto.
Qed.

Lemma not_global_spec x : not_global gs x = true -> globals_info gs !! x = None.
Proof using gs_distinct.
  unfold not_global. rewrite globals_info_lookup by done. by destruct (find_decl x gs).
Qed.

Lemma decl_chunk_local d chunk : sign_ok d = true -> decl_chunk d = Some chunk -> chunkForSize (Csharpminor.vd_Size d) = chunk.
Proof using.
  unfold sign_ok, decl_chunk, chunkForSize, chunkForSizeAndSign. intros Hs Hc.
  repeat case_match; simplify_eq; try done.
Qed.

Lemma decl_chunk_global d chunk :
  decl_chunk d = Some chunk -> chunkForSizeAndSign (Csharpminor.vd_Size d) (Csharpminor.vd_Signed d) = chunk.
Proof using. unfold decl_chunk, chunkForSizeAndSign. intros Hc. repeat case_match; simplify_eq; done. Qed.

(** What [name_meaning] says, case by case. *)
Lemma name_meaning_inv x :
  match name_meaning f gs x with
  | MLocal d => find_decl x locals = Some d
  | MParam => find_decl x locals = None /\ x ∈ Csharpminor.fn_Params f
  | MGlobal d => find_decl x locals = None /\ x ∉ Csharpminor.fn_Params f /\ find_decl x gs = Some d
  | MSymbol => find_decl x locals = None /\ x ∉ Csharpminor.fn_Params f /\ find_decl x gs = None
  end.
Proof using.
  unfold name_meaning. destruct (find_decl x locals); [done|]. destruct (decide (x ∈ Csharpminor.fn_Params f)); [done|].
  by destruct (find_decl x gs) eqn:E.
Qed.

Lemma var_ok e1 e2 m x v :
  vars_rel e1 e2 -> cs_expr_ok f gs (Csharpminor.Evar x) = true -> cs_var f gs (frame_place f) args m x = Some v ->
  cm_expr (fn_locals cf) e2 m (cm_of env (globals_info gs) (Csharpminor.Evar x)) = Some v.
Proof using ok gs_distinct.
  intros [_ Hp] Hok Hv. unfold cs_var in Hv. cbn [cs_expr_ok cm_of] in Hok |- *. pose proof (name_meaning_inv x) as Hm.
  destruct (name_meaning f gs x) as [d| |d|].
  - destruct_andb. rewrite bool_decide_eq_true in *. rewrite not_global_spec by done.
    unfold TransformVarRead. rewrite (stack_local f gs ok x d) by done. cbn [vi_Kind vi_Chunk vi_Offset cm_expr eval_const mbind option_bind].
    destruct (decl_chunk d) as [chunk|] eqn:Hc; [|done]. by rewrite (decl_chunk_local d chunk).
  - destruct Hm as [Hl Hx]. rewrite not_global_spec by done. unfold TransformVarRead. rewrite (env_lookup f gs ok), Hl.
    cbn [fmap option_fmap option_map cm_expr]. rewrite decide_True by (apply translated_locals; by left). by rewrite Hp.
  - destruct Hm as (_ & _ & Hg). rewrite globals_info_lookup, Hg by done. cbn.
    destruct (decl_chunk d) as [chunk|] eqn:Hc; [|done]. by rewrite (decl_chunk_global d chunk).
  - destruct Hm as (Hl & Hx & Hg). rewrite globals_info_lookup, Hg by done. unfold TransformVarRead.
    rewrite (env_lookup f gs ok), Hl. cbn [fmap option_fmap option_map cm_expr]. rewrite decide_False; [done|]. apply symbol_not_local; try done. by apply negb_true_iff.
Qed.

Lemma addressed_local x d :
  part_ok (Csharpminor.Eaddrof x) = true -> find_decl x locals = Some d -> x ∈ FindAddressTaken body locals.
Proof using.
  rewrite part_ok_sub. intros (_ & _ & Haddr) Hd. cbn [expr_addrs] in Haddr. apply Haddr, elem_of_intersection.
  split; [by apply elem_of_singleton|]. apply elem_of_list_to_set, list_elem_of_fmap.
  apply find_name_Some in Hd as [? <-]. eauto.
Qed.

Lemma address_ok e2 m x v :
  part_ok (Csharpminor.Eaddrof x) = true -> cs_address f gs (frame_place f) x = Some v ->
  cm_expr (fn_locals cf) e2 m (cm_of env (globals_info gs) (Csharpminor.Eaddrof x)) = Some v.
Proof using ok gs_distinct.
  intros Ha Hv. pose proof (proj1 (proj1 (part_ok_sub _) Ha)) as Hok. unfold cs_address in Hv. cbn [cs_expr_ok cm_of] in *.
  pose proof (name_meaning_inv x) as Hm. destruct (name_meaning f gs x) as [d| |d|]; try done.
  - rewrite not_global_spec, bool_decide_false by (done || by intros [? ?]).
    pose proof (addressed_local x d Ha Hm) as Hx. unfold IsStack, kind_is_stack, GetStackOffset. rewrite (stack_local f gs ok x d) by done. exact Hv.
  - destruct Hm as (_ & _ & Hg). rewrite globals_info_lookup, Hg by done. exact Hv.
  - destruct Hm as (Hl & Hx & Hg). rewrite globals_info_lookup, Hg, bool_decide_false by (done || by intros [? ?]).
    unfold IsStack, kind_is_stack. rewrite (env_lookup f gs ok), Hl. cbn [fmap option_fmap option_map cm_expr]. rewrite decide_False; [done|].
    apply symbol_not_local; try done. by apply negb_true_iff.
Qed.

Lemma part_ok_two op l r : part_ok (Csharpminor.Ebinop op l r) = true -> part_ok l = true /\ part_ok r = true.
Proof using.
  clear ok gs_distinct. rewrite !part_ok_sub. cbn [cs_expr_ok expr_temps expr_addrs]. rewrite andb_true_iff. intros ([Hl Hr] & Ht & Hx).
  split; (split; [done|]; split; set_solver).
Qed.

Lemma cm_of_ok e1 e2 m a v :
  vars_rel e1 e2 -> part_ok a = true -> cs_expr f gs (frame_place f) args e1 m a = Some v ->
  cm_expr (fn_locals cf) e2 m (cm_of env (globals_info gs) a) = Some v.
Proof using ok gs_distinct.
  intros HR. revert v. induction a as [x|id|x|c|op a IH|op l IHl r IHr|op c l IHl r IHr|chunk a IH]; intros v Ha Hv.
  - apply part_ok_sub in Ha as [Ha _]. by apply (var_ok e1).
  - cbn [cs_expr cm_of cm_expr] in Hv |- *. rewrite decide_True; [by apply HR|]. apply part_ok_sub in Ha as (_ & Hid & _). cbn in Hid.
    apply translated_locals. right; left. exists id. split; [set_solver|done].
  - by apply address_ok.
  - cbn [cs_expr cm_of cm_expr mbind option_bind] in Hv |- *. by destruct c.
  - cbn [cs_expr cm_of cm_expr mbind option_bind] in Hv |- *. destruct (cs_expr _ _ _ _ _ _ a) as [w|]; [|done]. by rewrite (IH w).
  - apply (part_ok_two op l r) in Ha as [Hl Hr].
    cbn [cs_expr cm_of cm_expr mbind option_bind] in Hv |- *. destruct (cs_expr _ _ _ _ _ _ l) as [w|]; [|done]. rewrite (IHl w) by done.
    cbn [cs_expr cm_of cm_expr mbind option_bind] in Hv |- *. destruct (cs_expr _ _ _ _ _ _ r) as [w'|]; [|done]. by rewrite (IHr w') by done.
  - apply (part_ok_two op l r) in Ha as [Hl Hr].
    cbn [cs_expr cm_of cm_expr mbind option_bind] in Hv |- *. destruct (cs_expr _ _ _ _ _ _ l) as [w|]; [|done]. rewrite (IHl w) by done.
    cbn [cs_expr cm_of cm_expr mbind option_bind] in Hv |- *. destruct (cs_expr _ _ _ _ _ _ r) as [w'|]; [|done]. by rewrite (IHr w') by done.
  - cbn [cs_expr cm_of cm_expr mbind option_bind] in Hv |- *. destruct (cs_expr _ _ _ _ _ _ a) as [w|]; [|done]. by rewrite (IH w).
Qed.
End Expressions.
