(* ===== verification/CminorgenPass.v ===== *)
(** Cminor generation: functions take the same steps before and after, and the
    theorem of the pass. *)

From S2P Require Import Prelude Target Semantics RtlSem Structured StructuredMap Values CminorSem.
From S2P Require Import CsharpminorSem Cminorgen CminorgenProof.
From S2P Require Import ValuesExample.
From S2P Require Cminor Csharpminor Ctypes.

(** ** Execution *)

Section Execution.
  Context {M : Type} `{FO : FloatOps} `{LO : Layout} `{TS : TargetSemantics val M}.
  Context {VT : ValueTarget M} {darwin : bool} {PC : PseudoCalls val M darwin}.

(** A Csharpminor function applied to arguments, its locals at [place]s in the
    frame. *)
Definition cs_step (f : Csharpminor.Function) (gs : list Csharpminor.VarDecl) (place : string -> Z) (args : list val) :=
  struct_step (PC := PC) (csharpminor_language f gs place (bind_params (Csharpminor.fn_Params f) args))
    (Csharpminor.fn_Body f).

Definition cs_init (f : Csharpminor.Function) (m : M)
    : struct_state (V := Z) (W := val) (E := Csharpminor.Expr) (C := Csharpminor.Expr) (A := Csharpminor.Expr) :=
  (Csharpminor.fn_Body f, [], ∅, m).

Section Parts.
  Context (order : RangeOrder) (names : NameOrder).
  Context (f : Csharpminor.Function) (gs : list Csharpminor.VarDecl) (ok : cminorgen_ok f gs = true).
  Context (gs_distinct : NoDup (Csharpminor.vd_Name <$> gs)) (args : gmap string val).
  Local Abbreviation env := (ClassifyVariables (Csharpminor.fn_Locals f) (Csharpminor.fn_Body f)).
  Local Abbreviation cf := (translated f gs order names).
  Local Abbreviation to_cm := (cm_of env (globals_info gs)).

(** Calls of names stay calls of names. *)
Lemma named_symbol_ok a e m s :
  cs_expr_ok f gs a = true -> named_symbol f gs a = Some s -> cm_callee (fn_locals cf) e m (to_cm a) = Some (ToSymbol s).
Proof using ok gs_distinct.
  intros Hok Hs. destruct a as [x| |x|c| | | |]; try done; cbn [named_symbol cs_expr_ok cm_of] in *.
  - pose proof (name_meaning_inv f gs x) as Hm. destruct (name_meaning f gs x); try done. injection Hs as <-.
    destruct Hm as (Hl & Hx & Hg). rewrite globals_info_lookup, Hg by done. cbn [fmap option_fmap option_map]. unfold TransformVarRead.
    rewrite (env_lookup f gs ok), Hl. cbn [fmap option_fmap option_map cm_callee]. rewrite decide_False; [done|].
    apply symbol_not_local; try done. by apply negb_true_iff.
  - pose proof (name_meaning_inv f gs x) as Hm. destruct (name_meaning f gs x); try done; injection Hs as <-.
    + destruct Hm as (_ & _ & Hg). by rewrite globals_info_lookup, Hg.
    + destruct Hm as (Hl & Hx & Hg). rewrite globals_info_lookup, Hg, bool_decide_false by (done || by intros [? ?]).
      unfold IsStack, kind_is_stack. rewrite (env_lookup f gs ok), Hl. cbn [fmap option_fmap option_map cm_callee].
      rewrite decide_False; [done|]. apply symbol_not_local; try done. by apply negb_true_iff.
  - destruct c as [| | | |y ofs]; try done. destruct ofs; try done. by injection Hs as <-.
Qed.

(** Other calls go to the address that is computed. *)
Lemma unnamed_ok e1 e2 a m v :
  vars_rel f args e1 e2 -> part_ok f gs a = true -> named_symbol f gs a = None ->
  cs_expr f gs (frame_place f) args e1 m a = Some v -> cm_callee (fn_locals cf) e2 m (to_cm a) = Some (ToAddress v).
Proof using ok gs_distinct.
  intros HR Ha Hs Hv. pose proof (cm_of_ok order names f gs ok gs_distinct args e1 e2 m a v HR Ha Hv) as Hcm.
  assert (Hcase : (exists y, to_cm a = Cminor.Evar y /\ y ∈ fn_locals cf) \/
    cm_callee (fn_locals cf) e2 m (to_cm a) = ToAddress <$> cm_expr (fn_locals cf) e2 m (to_cm a)).
  2:{ destruct Hcase as [(y & Hy & Hin)|Hcase]; [|by rewrite Hcase, Hcm].
      rewrite Hy in Hcm |- *. cbn [cm_callee cm_expr] in Hcm |- *. rewrite decide_True in Hcm by done. by rewrite decide_True, Hcm. }
  pose proof Ha as (Hok & Ht & Hx)%part_ok_sub. destruct a as [x|id|x|c| | | |]; try (by right); cbn [named_symbol cs_expr_ok cm_of] in *.
  - pose proof (name_meaning_inv f gs x) as Hm. destruct (name_meaning f gs x) as [d| |d|]; try done.
    + destruct_andb. rewrite bool_decide_eq_true in *. rewrite not_global_spec by done. unfold TransformVarRead.
      rewrite (stack_local f gs ok x d) by done. by right.
    + left. exists x. destruct Hm as [Hl Hp]. rewrite not_global_spec by done. unfold TransformVarRead.
      rewrite (env_lookup f gs ok), Hl. split; [done|]. apply translated_locals. by left.
    + destruct Hm as (_ & _ & Hg). rewrite globals_info_lookup, Hg by done. by right.
  - left. exists (temp_name id). split; [done|]. apply translated_locals. right; left. exists id. set_solver.
  - right. cbn [cs_expr] in Hv. unfold cs_address in Hv. pose proof (name_meaning_inv f gs x) as Hm.
    destruct (name_meaning f gs x) as [d| |d|]; try done.
    rewrite not_global_spec, bool_decide_false by (done || by intros [? ?]).
    unfold IsStack, kind_is_stack. rewrite (stack_local f gs ok x d) by (done || by apply (addressed_local f gs x d)). done.
  - right. destruct c as [| | | |y ofs]; try done. by destruct ofs.
Qed.

Lemma cminorgen_parts :
  parts_ok transformSig temp_name to_cm to_cm to_cm
    (csharpminor_language f gs (frame_place f) args) (cminor_language (M := M) (fn_locals cf))
    (part_ok f gs) (part_ok f gs) (part_ok f gs) (vars_rel f args).
Proof using ok gs_distinct.
  split.
  - intros e1 e2 m a v. by apply cm_of_ok.
  - intros e1 e2 m c b HR Hc Hb. cbn in Hb |- *. destruct (cs_expr f gs (frame_place f) args e1 m c) as [v|] eqn:Ev; [|done].
    by rewrite (cm_of_ok order names f gs ok gs_distinct args e1 e2 m c v).
  - intros e1 e2 chunk addr v m m' HR Ha Hm. cbn in Hm |- *.
    destruct (cs_expr f gs (frame_place f) args e1 m addr) as [p|] eqn:Ep; [|done].
    by rewrite (cm_of_ok order names f gs ok gs_distinct args e1 e2 m addr p).
  - intros e1 e2 m a fv HR Ha Hf. cbn in Hf |- *. unfold cs_callee in Hf. destruct (named_symbol f gs a) as [s|] eqn:Es.
    + injection Hf as <-. apply named_symbol_ok; [by apply part_ok_sub in Ha as [? _]|done].
    + destruct (cs_expr f gs (frame_place f) args e1 m a) as [v|] eqn:Ev; [|done]. injection Hf as <-. by apply (unnamed_ok e1).
  - done.
  - done.
  - intros e1 e2 x v. by apply (vars_rel_set f gs ok).
Qed.
End Parts.
End Execution.

(** ** The pass *)

Section Pass.
  Context {M : Type} `{FO : FloatOps} `{LO : Layout} `{TS : TargetSemantics val M}.
  Context {VT : ValueTarget M} {darwin : bool} {PC : PseudoCalls val M darwin}.
  Context (order : RangeOrder) (names : NameOrder).

(** One function, when [gs] are the global variables. *)
Lemma cminorgen_preserves f gs args (m : M) :
  cminorgen_ok f gs = true -> NoDup (Csharpminor.vd_Name <$> gs) ->
  let cf := translated f gs order names in let run := cs_step f gs (frame_place f) args in
  (forall r, terminates run (cs_init f m) r -> terminates (cm_step cf) (cm_init cf args m) r) /\
  (safe run (cs_init f m) ->
   safe (cm_step cf) (cm_init cf args m) /\
   forall r, terminates (cm_step cf) (cm_init cf args m) r -> terminates run (cs_init f m) r).
Proof using VT.
  intros ok gs_distinct cf run.
  apply (map_preserves _ _ _ _ _ _ _ _ _ _ _ (cminorgen_parts order names f gs ok gs_distinct _)).
  - rewrite all_ok_exprs. by apply body_parts_ok.
  - exists (bind_params (Csharpminor.fn_Params f) args). split; [done|]. split; [done|]. split; [|done].
    rewrite all_ok_exprs. by apply body_parts_ok.
Qed.

(** What the pass asks of a program. *)
Definition program_ok (p : Csharpminor.Program) : bool :=
  bool_decide (NoDup (Csharpminor.vd_Name <$> Csharpminor.Globals p)) &&
  forallb (fun f => cminorgen_ok f (Csharpminor.Globals p)) (Csharpminor.Functions p).

Lemma program_ok_spec p :
  program_ok p = true -> NoDup (Csharpminor.vd_Name <$> Csharpminor.Globals p) /\
  forall f, f ∈ Csharpminor.Functions p -> cminorgen_ok f (Csharpminor.Globals p) = true.
Proof using.
  unfold program_ok. rewrite andb_true_iff, bool_decide_eq_true, forallb_forall. intros [Hnd Hf]. split; [done|].
  intros f Hin. apply Hf. by apply list_elem_of_In.
Qed.

(** Functions are translated one by one. *)
Lemma TransformProgram_lookup p :
  program_ok p = true ->
  exists cp, TransformProgram order names p = Some cp /\
    forall i f, Csharpminor.Functions p !! i = Some f ->
      Cminor.Functions cp !! i = Some (translated f (Csharpminor.Globals p) order names).
Proof using.
  intros [Hnd Hok]%program_ok_spec. unfold TransformProgram.
  assert (Hm : mapM (fun fn => TransformFunction order names fn (program_global_info p)) (Csharpminor.Functions p) =
    Some ((fun f => translated f (Csharpminor.Globals p) order names) <$> Csharpminor.Functions p)).
  { revert Hok. generalize (Csharpminor.Functions p) as fs. induction fs as [|f fs IH]; intros Hok; [done|]. cbn [mapM].
    change (program_global_info p) with (globals_info (Csharpminor.Globals p)) in *.
    rewrite TransformFunction_translated by (apply Hok; by left). cbn [mbind option_bind]. rewrite IH; [done|].
    intros g Hg. apply Hok. by right. }
  rewrite Hm. eexists. split; [done|]. intros i f Hf. cbn. by rewrite list_lookup_fmap, Hf.
Qed.

(** C5. Cminor generation preserves behaviour. A supported program is translated,
    without a panic. Every function gets a Cminor function, at its place, whose
    frame has room for the locals with an address, aligned and apart; and with
    the locals there, the Cminor function ends with the result and memory the
    Csharpminor function ends with; and if that one never gets stuck, neither
    does its translation, which ends only as the function does. *)
Theorem TransformProgram_correct p :
  program_ok p = true ->
  exists cp, TransformProgram order names p = Some cp /\
    forall i f, Csharpminor.Functions p !! i = Some f ->
      let place := frame_place f in
      exists cf, Cminor.Functions cp !! i = Some cf /\
      valid_frame (frame_locals (Csharpminor.fn_Locals f) (Csharpminor.fn_Body f)) place (Cminor.fn_Stackspace cf) /\
      forall args (m : M), let run := cs_step f (Csharpminor.Globals p) place args in
        (forall r, terminates run (cs_init f m) r -> terminates (cm_step cf) (cm_init cf args m) r) /\
        (safe run (cs_init f m) ->
         safe (cm_step cf) (cm_init cf args m) /\
         forall r, terminates (cm_step cf) (cm_init cf args m) r -> terminates run (cs_init f m) r).
Proof using VT.
  intros Hok. destruct (TransformProgram_lookup p Hok) as (cp & Hcp & Hf). exists cp. split; [done|].
  destruct (program_ok_spec p Hok) as [Hnd Hfs]. intros i f Hi place.
  pose proof (Hfs f (list_elem_of_lookup_2 _ _ _ Hi)) as Hokf.
  exists (translated f (Csharpminor.Globals p) order names). split; [by apply Hf|]. split.
  - by apply (frame_valid f (Csharpminor.Globals p)).
  - intros args m. by apply cminorgen_preserves.
Qed.
End Pass.

(** ** What goes wrong *)

Section Defects.
  Context {M : Type} `{FO : FloatOps} `{LO : Layout} `{TS : TargetSemantics val M}.
  Context {VT : ValueTarget M}.

(** A parameter with the name of a global variable is not read: the
    translation looks among the global variables first, and what was the value
    of the argument becomes a load of the global variable. *)
Theorem TransformExpr_shadowed p f x g chunk args place tm (m : M) :
  NoDup (Csharpminor.vd_Name <$> Csharpminor.Globals p) -> find_decl x (Csharpminor.fn_Locals f) = None ->
  x ∈ Csharpminor.fn_Params f -> find_decl x (Csharpminor.Globals p) = Some g -> decl_chunk g = Some chunk ->
  cs_expr f (Csharpminor.Globals p) place args ∅ m (Csharpminor.Evar x) = args !! x /\
  exists a, TransformExpr (ClassifyVariables (Csharpminor.fn_Locals f) (Csharpminor.fn_Body f)) (program_global_info p)
      (Csharpminor.Evar x) tm = Some (a, tm) /\
    forall locals e, cm_expr locals e m a = eval_load_at chunk (symbol_offset x 0) m.
Proof using.
  intros Hnd Hl Hp Hg Hc. split.
  - cbn. unfold cs_var, name_meaning. by rewrite Hl, decide_True.
  - cbn [TransformExpr]. change (program_global_info p) with (globals_info (Csharpminor.Globals p)).
    rewrite globals_info_lookup, Hg by done. eexists. split; [done|]. intros locals e. cbn.
    by rewrite (decl_chunk_global g chunk).
Qed.
End Defects.

(** ** Examples *)

Section Examples.
Import Csharpminor.
Local Open Scope string_scope.

(** [int x; char a[12]; x = n; a[1] = 7; r = ext(&x, a); return x + r + g;], where
    [g] is a global variable. *)
Definition frame_fn : Function :=
  mkFunction "f" (mkSig [Some Ctypes.Int] (Some Ctypes.Int) false) ["n"]
    [mkVarDecl "x" 4 [] false true; mkVarDecl "unused" 2 [] false false; mkVarDecl "a" 12 [] false true] [None]
    (Structured.Seq [
      Structured.Sstore Target.Mint32 (Eaddrof "x") (Evar "n");
      Structured.Sstore Target.Mint8signed (Ebinop Cminor.Oaddl (Eaddrof "a") (Econst (Olongconst 1))) (Econst (Ointconst 7));
      Structured.Scall (Some 1) (Some (mkSig [Some (Ctypes.Tpointer (Some Ctypes.Int)); None] (Some Ctypes.Int) false)) (Evar "ext")
        [Eaddrof "x"; Eaddrof "a"];
      Structured.Sassign 0 (Ebinop Cminor.Oadd (Evar "x") (Etempvar 1));
      Structured.Sreturn (Some (Ebinop Cminor.Oadd (Etempvar 0) (Evar "g")))]).

Definition frame_prog : Program := mkProgram [mkVarDecl "g" 4 [] false true] [frame_fn].

(** [return g;], where [g] is a parameter *)
Definition shadow_fn : Function :=
  mkFunction "id" (mkSig [Some Ctypes.Int] (Some Ctypes.Int) false) ["g"] [] [] (Structured.Sreturn (Some (Evar "g"))).

Definition shadow_prog : Program := mkProgram [mkVarDecl "g" 4 [] false true] [shadow_fn].
End Examples.

Lemma TransformExpr_shadowed_witness :
  exists a, TransformExpr (ClassifyVariables [] (Csharpminor.fn_Body shadow_fn)) (program_global_info shadow_prog)
      (Csharpminor.Evar "g") ∅ = Some (a, ∅) /\
    forall locals e, cm_expr locals e ({[4112 := Vint 100]} : example_memory) a = Some (Vint 100).
Proof.
  destruct (TransformExpr_shadowed shadow_prog shadow_fn "g" (Csharpminor.mkVarDecl "g" 4 [] false true) Mint32
    {["g"%string := Vint 5]} (fun _ => 0) ∅ ({[4112 := Vint 100]} : example_memory)) as [_ (a & Ha & He)].
  - apply (bool_decide_unpack _). by vm_compute.
  - reflexivity.
  - left.
  - reflexivity.
  - reflexivity.
  - exists a. split; [exact Ha|]. intros locals e. rewrite He. vm_compute. reflexivity.
Defined.

Lemma ComputeStackLayout_correct_witness :
  let l := ComputeStackLayout (Csharpminor.fn_Locals frame_fn) in
  TotalSize l = 24 /\ valid_frame (Csharpminor.fn_Locals frame_fn) (slot_place l) (TotalSize l).
Proof.
  split; [reflexivity|]. apply (ComputeStackLayout_correct (Csharpminor.fn_Locals frame_fn)).
  - repeat constructor; cbn; lia.
  - cbn. lia.
  - apply (bool_decide_unpack _). by vm_compute.
Defined.

Lemma TransformProgram_correct_witness :
  exists cp cf, TransformProgram list_order list_name_order frame_prog = Some cp /\ Cminor.Functions cp !! 0%nat = Some cf /\
    Cminor.fn_Stackspace cf = 24 /\
    terminates (cm_step cf) (cm_init cf [Vint 5] {[4112 := Vint 100]})
      (RReturned (Some (Vint 131188)) (<[0 := Vint 1]> (<[65545 := Vint 7]> (<[65536 := Vint 5]> {[4112 := Vint 100]})))).
Proof.
  destruct (TransformProgram_correct (PC := example_calls) list_order list_name_order frame_prog) as (cp & Hcp & Hf); [by vm_compute|].
  destruct (Hf 0%nat frame_fn eq_refl) as (cf & Hi & Hv & Hrun). exists cp, cf. split; [exact Hcp|]. split; [exact Hi|]. split.
  - assert (E : (TransformProgram list_order list_name_order frame_prog ≫=
      fun cp => Cminor.fn_Stackspace <$> Cminor.Functions cp !! 0%nat) = Some 24) by (vm_compute; reflexivity).
    rewrite Hcp in E. cbn [mbind option_bind] in E. rewrite Hi in E. by injection E.
  - apply (proj1 (Hrun [Vint 5] ({[4112 := Vint 100]} : example_memory))). apply (run_terminates _ 100). vm_compute. reflexivity.
Defined.
