(* ===== verification/CminorgenSwitch.v ===== *)
(** The compilation of switches to comparisons ([src/pkg/cminorgen/switch.go]),
    and its theorem: each of the three strategies leaves by the exit the switch
    selects. *)

From stdpp Require Import sorting.
From S2P Require Import Prelude Target IntOps Semantics RtlSem Values CminorSem.
From S2P Require Import ValuesExample.
From S2P Require Structured Cminor.

Inductive SwitchStrategy := StrategyLinear | StrategyBinary | StrategyJumpTable.

Record SwitchCase := mkSwitchCase {
  sc_Value : Z;
  sc_Exit : Z
}.

(** [Density] is the number of cases and the size of their range, whose quotient
    the code computes as a [float64]: the only question asked of it, whether it
    is at least 0.5, has the same answer for fewer than 2^52 cases. *)
Record SwitchAnalysis := mkSwitchAnalysis {
  sa_Cases : list SwitchCase;
  sa_Default : Z;
  sa_IsLong : bool;
  sa_Strategy : SwitchStrategy;
  sa_MinVal : Z;
  sa_MaxVal : Z;
  sa_Density : Z * Z
}.

(** [sort.Slice] by value puts equal values in any order. *)
Definition value_le (c1 c2 : SwitchCase) : Prop := sc_Value c1 <= sc_Value c2.

#[export] Instance value_le_dec : RelDecision value_le.
Proof. intros c1 c2. unfold value_le. apply _. Defined.

Class SortSlice := {
  sort_slice : list SwitchCase -> list SwitchCase;
  sort_slice_perm : forall cases, sort_slice cases ≡ₚ cases;
  sort_slice_sorted : forall cases, StronglySorted value_le (sort_slice cases)
}.

Fixpoint extractExitDepth (body : Cminor.Stmt) : Z :=
  match body with
  | Structured.Sexit n => n
  | Structured.Sseq _ s => extractExitDepth s
  | _ => 0
  end.

Definition selectStrategy (numCases : Z) (density : Z * Z) : SwitchStrategy :=
  if numCases <=? 4 then StrategyLinear
  else if density.2 <=? 2 * density.1 then StrategyJumpTable else StrategyBinary.

Definition switch_range (minVal maxVal : Z) : Z := i64 (i64 (maxVal - minVal) + 1).

Definition AnalyzeSwitch `{SortSlice} (isLong : bool) (cases : list (Structured.SwitchCase Cminor.Sig string Cminor.Expr Cminor.Expr Cminor.Expr))
    (defaultExit : Z) : SwitchAnalysis :=
  let sorted := sort_slice (map (fun c => mkSwitchCase c.1 (extractExitDepth c.2)) cases) in
  let n := Z.of_nat (length sorted) in
  let '(minVal, maxVal, density) :=
    match sorted with
    | [] => (0, 0, (0, 1))
    | first :: rest =>
        let minVal := sc_Value first in
        let maxVal := sc_Value (List.last rest first) in
        let rangeSize := switch_range minVal maxVal in
        (minVal, maxVal, if 0 <? rangeSize then (n, rangeSize) else (0, 1))
    end in
  mkSwitchAnalysis sorted defaultExit isLong (selectStrategy n density) minVal maxVal density.

(** ** Code *)

Definition makeConstant (value : Z) (isLong : bool) : Cminor.Expr :=
  Cminor.Econst (if isLong then Cminor.Olongconst value else Cminor.Ointconst (i32 value)).

Definition compare_op (isLong : bool) : Cminor.BinaryOp := if isLong then Cminor.Ocmpl else Cminor.Ocmp.

Definition makeComparison (expr : Cminor.Expr) (value : Z) (isLong : bool) : Cminor.Expr :=
  Cminor.Ecmp (compare_op isLong) Cminor.Ceq expr (makeConstant value isLong).

Definition makeLessThan (expr : Cminor.Expr) (value : Z) (isLong : bool) : Cminor.Expr :=
  Cminor.Ecmp (compare_op isLong) Cminor.Clt expr (makeConstant value isLong).

Definition subtractOp (isLong : bool) : Cminor.BinaryOp := if isLong then Cminor.Osubl else Cminor.Osub.

Definition TransformSwitchLinear (expr : Cminor.Expr) (analysis : SwitchAnalysis) : Cminor.Stmt :=
  foldr (fun c result =>
    Structured.Sifthenelse (makeComparison expr (sc_Value c) (sa_IsLong analysis)) (Structured.Sexit (sc_Exit c)) result)
    (Structured.Sexit (sa_Default analysis)) (sa_Cases analysis).

(** The recursion halves the cases: their number is enough fuel. *)
Fixpoint binary_search (fuel : nat) (expr : Cminor.Expr) (cases : list SwitchCase) (defaultExit : Z) (isLong : bool) : Cminor.Stmt :=
  match fuel, cases with
  | Datatypes.S _, [c] =>
      Structured.Sifthenelse (makeComparison expr (sc_Value c) isLong) (Structured.Sexit (sc_Exit c)) (Structured.Sexit defaultExit)
  | Datatypes.S fuel, _ :: _ =>
      let mid := Nat.div2 (length cases) in
      match drop mid cases with
      | pivot :: _ =>
          Structured.Sifthenelse (makeLessThan expr (sc_Value pivot) isLong)
            (binary_search fuel expr (take mid cases) defaultExit isLong)
            (binary_search fuel expr (drop mid cases) defaultExit isLong)
      | [] => Structured.Sexit defaultExit
      end
  | _, _ => Structured.Sexit defaultExit
  end.

Definition transformBinaryRecursive (expr : Cminor.Expr) (cases : list SwitchCase) (defaultExit : Z) (isLong : bool) : Cminor.Stmt :=
  binary_search (length cases) expr cases defaultExit isLong.

Definition TransformSwitchBinary (expr : Cminor.Expr) (analysis : SwitchAnalysis) : Cminor.Stmt :=
  match sa_Cases analysis with
  | [] => Structured.Sexit (sa_Default analysis)
  | _ => transformBinaryRecursive expr (sa_Cases analysis) (sa_Default analysis) (sa_IsLong analysis)
  end.

(** [caseMap]: the last case of a value counts. *)
Definition case_map (cases : list SwitchCase) : gmap Z Z :=
  fold_left (fun m c => <[sc_Value c := sc_Exit c]> m) cases ∅.

(** A slice of negative capacity is a panic. *)
Definition TransformSwitchJumpTable (expr : Cminor.Expr) (analysis : SwitchAnalysis) : option Cminor.Stmt :=
  let default := Structured.Sexit (sa_Default analysis) in
  match sa_Cases analysis with
  | [] => Some default
  | _ =>
      let minVal := sa_MinVal analysis in
      let normalizedExpr :=
        if minVal =? 0 then expr
        else Cminor.Ebinop (subtractOp (sa_IsLong analysis)) expr (makeConstant minVal (sa_IsLong analysis)) in
      let rangeSize := switch_range minVal (sa_MaxVal analysis) in
      if rangeSize <? 0 then None
      else
        let newCases := omap (fun i => (fun exit => (i, Structured.Sexit exit)) <$> case_map (sa_Cases analysis) !! i64 (minVal + i))
          (seqZ 0 rangeSize) in
        Some (Structured.Sswitch (sa_IsLong analysis) normalizedExpr newCases default)
  end.

Definition TransformSwitch `{SortSlice} (isLong : bool) (expr : Cminor.Expr)
    (cases : list (Structured.SwitchCase Cminor.Sig string Cminor.Expr Cminor.Expr Cminor.Expr)) (defaultExit : Z) : option Cminor.Stmt :=
  let analysis := AnalyzeSwitch isLong cases defaultExit in
  match sa_Strategy analysis with
  | StrategyLinear => Some (TransformSwitchLinear expr analysis)
  | StrategyBinary => Some (TransformSwitchBinary expr analysis)
  | StrategyJumpTable => TransformSwitchJumpTable expr analysis
  end.

(** ** Which exit *)

(** The exit of the first case with the value. *)
Fixpoint exit_for (z : Z) (cases : list SwitchCase) (d : Z) : Z :=
  match cases with
  | [] => d
  | c :: cases => if decide (z = sc_Value c) then sc_Exit c else exit_for z cases d
  end.

Lemma exit_for_none z cases d : (forall c, c ∈ cases -> z <> sc_Value c) -> exit_for z cases d = d.
Proof.
  induction cases as [|c cases IH]; intros H; [done|]. cbn. rewrite decide_False by (apply H; by left).
  apply IH. intros c' Hc. apply H. by right.
Qed.

Lemma exit_for_app_l z l1 l2 d : (forall c, c ∈ l2 -> z <> sc_Value c) -> exit_for z (l1 ++ l2) d = exit_for z l1 d.
Proof.
  intros H. induction l1 as [|c l1 IH]; cbn; [by apply exit_for_none|]. by rewrite IH.
Qed.

Lemma exit_for_app_r z l1 l2 d : (forall c, c ∈ l1 -> z <> sc_Value c) -> exit_for z (l1 ++ l2) d = exit_for z l2 d.
Proof.
  induction l1 as [|c l1 IH]; intros H; [done|]. cbn. rewrite decide_False by (apply H; by left).
  apply IH. intros c' Hc. apply H. by right.
Qed.

Lemma exit_for_elem c cases d : NoDup (sc_Value <$> cases) -> c ∈ cases -> exit_for (sc_Value c) cases d = sc_Exit c.
Proof.
  induction cases as [|b cases IH]; [by intros _ H%elem_of_nil|]. rewrite fmap_cons, NoDup_cons, elem_of_cons.
  intros [Hn Hnd] [->|Hc]; cbn; [by rewrite decide_True|]. rewrite decide_False; [by apply IH|].
  intros E. apply Hn. rewrite <- E. apply list_elem_of_fmap. eauto.
Qed.

(** Distinct values: the order of the cases does not matter. *)
Lemma exit_for_perm z l1 l2 d : l1 ≡ₚ l2 -> NoDup (sc_Value <$> l1) -> exit_for z l1 d = exit_for z l2 d.
Proof.
  intros Hp Hnd. assert (Hnd2 : NoDup (sc_Value <$> l2)) by by rewrite <- Hp.
  destruct (decide (z ∈ sc_Value <$> l1)) as [(c & -> & Hc)%list_elem_of_fmap|Hz].
  - rewrite exit_for_elem by done. symmetry. apply exit_for_elem; [done|by rewrite <- Hp].
  - assert (Hz2 : z ∉ sc_Value <$> l2) by by rewrite <- Hp.
    rewrite !exit_for_none; [done| |]; intros c Hc ->; [apply Hz2|apply Hz]; apply list_elem_of_fmap; eauto.
Qed.

Lemma case_map_lookup cases z :
  NoDup (sc_Value <$> cases) -> case_map cases !! z = sc_Exit <$> find_name sc_Value z cases.
Proof.
  intros Hnd. unfold case_map. rewrite (fold_insert_lookup sc_Value) by done. by destruct (find_name sc_Value z cases).
Qed.

Lemma exit_for_find z cases d : exit_for z cases d = from_option sc_Exit d (find_name sc_Value z cases).
Proof.
  induction cases as [|c cases IH]; [done|]. cbn [exit_for]. rewrite find_name_cons, IH.
  destruct (decide (z = sc_Value c)) as [->|Hz]; [by rewrite decide_True|by rewrite decide_False by congruence].
Qed.

(** ** What the code does *)

Section Execution.
  Context {M : Type} `{FO : FloatOps} `{LO : Layout} `{TS : TargetSemantics val M}.
  Context {VT : ValueTarget M} {darwin : bool} {PC : PseudoCalls val M darwin}.
  Context (locals : gset string) (body : Cminor.Stmt).
  Local Abbreviation step := (Structured.struct_step (PC := PC) (cminor_language (M := M) locals) body).
  Context (e : gmap string val) (m : M) (a : Cminor.Expr) (isLong : bool) (v : val) (z : Z).
  Context (Ha : cm_expr locals e m a = Some v) (Hz : switch_val isLong v = Some z).

(** The numbers that a switch of the width selects on. *)
Definition in_width (isLong : bool) (n : Z) : Prop := if isLong then in_i64 n else in_i32 n.

(** The statement leaves by the exit, whatever follows. *)
Definition leaves_by (s : Cminor.Stmt) (n : Z) : Prop :=
  forall k, rtc (steps_to step) (s, k, e, m) (Structured.Sexit n, k, e, m).

Lemma leaves_exit n : leaves_by (Structured.Sexit n) n.
Proof using. intros k. apply rtc_refl. Qed.

Lemma leaves_if c s1 s2 (b : bool) n :
  cm_expr locals e m c = Some (truth b) -> leaves_by (if b then s1 else s2) n -> leaves_by (Structured.Sifthenelse c s1 s2) n.
Proof using.
  intros Hc Hs k. eapply rtc_l; [|apply Hs]. unfold steps_to. cbn. rewrite Hc. cbn. by destruct b.
Qed.

Lemma makeConstant_ok n : in_width isLong n -> cm_expr locals e m (makeConstant n isLong) = Some (if isLong then Vlong n else Vint n).
Proof using. clear Ha Hz. intros Hn. unfold makeConstant. destruct isLong; [done|]. cbn. by rewrite i32_id. Qed.

Lemma makeComparison_ok n : in_width isLong n -> cm_expr locals e m (makeComparison a n isLong) = Some (truth (z =? n)).
Proof using Ha Hz.
  intros Hn. unfold makeComparison. cbn [cm_expr]. rewrite Ha, makeConstant_ok by done. cbn.
  by destruct isLong, v; try done; injection Hz as ->.
Qed.

Lemma makeLessThan_ok n : in_width isLong n -> cm_expr locals e m (makeLessThan a n isLong) = Some (truth (z <? n)).
Proof using Ha Hz.
  intros Hn. unfold makeLessThan. cbn [cm_expr]. rewrite Ha, makeConstant_ok by done. cbn.
  by destruct isLong, v; try done; injection Hz as ->.
Qed.

Definition widths_ok (isLong : bool) (cases : list SwitchCase) : Prop := Forall (fun c => in_width isLong (sc_Value c)) cases.

Lemma linear_ok analysis :
  sa_IsLong analysis = isLong -> widths_ok isLong (sa_Cases analysis) ->
  leaves_by (TransformSwitchLinear a analysis) (exit_for z (sa_Cases analysis) (sa_Default analysis)).
Proof using Ha Hz.
  intros Hl. unfold TransformSwitchLinear. rewrite Hl. induction 1 as [|c cases Hc _ IH]; [apply leaves_exit|]. cbn [foldr exit_for].
  eapply leaves_if; [by apply makeComparison_ok|]. destruct (Z.eqb_spec z (sc_Value c)) as [E|E].
  - rewrite decide_True by done. apply leaves_exit.
  - by rewrite decide_False by done.
Qed.

Lemma binary_ok fuel cases d :
  (length cases <= fuel)%nat -> widths_ok isLong cases -> StronglySorted value_le cases -> NoDup (sc_Value <$> cases) ->
  leaves_by (binary_search fuel a cases d isLong) (exit_for z cases d).
Proof using Ha Hz.
  revert cases. induction fuel as [|fuel IH]; intros cases Hlen Hw Hs Hnd.
  { destruct cases; [apply leaves_exit|cbn in Hlen; lia]. }
  destruct cases as [|c1 [|c2 cases]]; [apply leaves_exit| |].
  { cbn [binary_search exit_for]. eapply leaves_if; [apply makeComparison_ok; by inversion Hw|].
    destruct (Z.eqb_spec z (sc_Value c1)) as [E|E]; [rewrite decide_True by done|rewrite decide_False by done]; apply leaves_exit. }
  set (l := c1 :: c2 :: cases) in *. change (binary_search (Datatypes.S fuel) a l d isLong) with
    (match drop (Nat.div2 (length l)) l with
     | pivot :: _ => Structured.Sifthenelse (makeLessThan a (sc_Value pivot) isLong)
         (binary_search fuel a (take (Nat.div2 (length l)) l) d isLong) (binary_search fuel a (drop (Nat.div2 (length l)) l) d isLong)
     | [] => Structured.Sexit d end).
  assert (Hmid : (0 < Nat.div2 (length l) < length l)%nat).
  { change (Nat.div2 (length l)) with (Datatypes.S (Nat.div2 (length cases))).
    change (length l) with (Datatypes.S (Datatypes.S (length cases))). pose proof (Nat.div2_decr (length cases) (length cases) ltac:(lia)).
    split; [apply Nat.lt_0_succ|lia]. }
  set (mid := Nat.div2 (length l)) in *. clearbody mid.
  rewrite <- (take_drop mid l) in Hw, Hs, Hnd.
  replace (exit_for z l d) with (exit_for z (take mid l ++ drop mid l) d) by (by rewrite take_drop).
  assert (Hlt : (length (take mid l) <= fuel)%nat /\ (length (drop mid l) <= fuel)%nat).
  { rewrite length_take, length_drop. lia. }
  assert (Hne : drop mid l <> []) by (intros E%(f_equal length); rewrite length_drop in E; cbn [length] in E; lia).
  set (l1 := take mid l) in *. set (l2 := drop mid l) in *. clearbody l1 l2. clear Hmid Hlen mid l.
  unfold widths_ok in Hw. rewrite Forall_app in Hw. rewrite StronglySorted_app in Hs. rewrite fmap_app, NoDup_app in Hnd.
  destruct Hw as [Hw1 Hw2], Hs as (Hs12 & Hs1 & Hs2), Hnd as (Hnd1 & Hnd12 & Hnd2). destruct Hlt as [Hl1 Hl2].
  destruct l2 as [|pivot l2]; [done|]. clear Hne. apply StronglySorted_cons in Hs2 as Hp. destruct Hp as [Hp _].
  rewrite Forall_forall in Hp. eapply leaves_if; [apply makeLessThan_ok; by inversion Hw2|].
  destruct (Z.ltb_spec z (sc_Value pivot)) as [Hlt|Hge].
  - rewrite exit_for_app_l; [by apply IH|]. intros c [->|Hc]%elem_of_cons; [lia|]. specialize (Hp c Hc). unfold value_le in Hp. lia.
  - rewrite exit_for_app_r; [by apply IH|]. intros c Hc ->. pose proof (Hs12 c pivot Hc ltac:(left)) as Hle. unfold value_le in Hle.
    apply (Hnd12 (sc_Value c)); [apply list_elem_of_fmap; eauto|]. cbn. replace (sc_Value c) with (sc_Value pivot) by lia. left.
Qed.

(** The jump table: its index is the distance to the smallest value. *)
Lemma subtract_ok n :
  in_width isLong n -> in_width isLong z ->
  let norm := if n =? 0 then a else Cminor.Ebinop (subtractOp isLong) a (makeConstant n isLong) in
  exists w, cm_expr locals e m norm = Some w /\ switch_val isLong w = Some (if isLong then i64 (z - n) else i32 (z - n)).
Proof using Ha Hz.
  intros Hn Hw norm. unfold norm. destruct (Z.eqb_spec n 0) as [->|_].
  - exists v. split; [done|]. rewrite Hz, Z.sub_0_r. f_equal. destruct isLong; [by rewrite i64_id|by rewrite i32_id].
  - cbn [cm_expr]. rewrite Ha, makeConstant_ok by done. cbn. destruct isLong, v; try done; injection Hz as ->; by eexists.
Qed.

(** *** The jump table *)

Lemma wrap_congruent w n : 0 < w -> exists k, wrap w n = n + k * 2 ^ w.
Proof using.
  intros Hw. unfold wrap. pose proof (Z.div_mod (n + 2 ^ (w - 1)) (2 ^ w) ltac:(lia)).
  exists (- ((n + 2 ^ (w - 1)) / 2 ^ w)). lia.
Qed.

(** The distance is exact when it leads to a number of the width. *)
Lemma distance_exact n w :
  in_width isLong z -> in_width isLong (n + w) -> (if isLong then i64 (z - n) else i32 (z - n)) = w -> z = n + w.
Proof using.
  clear Ha Hz. unfold in_width, in_i64, in_i32, i64, i32. intros H1 H2 Hw. destruct isLong.
  - destruct (wrap_congruent 64 (z - n)) as [k Hk]; [lia|]. lia.
  - destruct (wrap_congruent 32 (z - n)) as [k Hk]; [lia|]. lia.
Qed.

(** A range that is positive is exact. *)
Lemma switch_range_exact lo hi : in_i64 lo -> in_i64 hi -> lo <= hi -> 0 < switch_range lo hi -> switch_range lo hi = hi - lo + 1.
Proof using.
  clear Ha Hz. unfold switch_range, in_i64, i64. intros H1 H2 Hle Hpos. pose proof (wrap_range 64 (hi - lo)) as Hr1.
  pose proof (wrap_range 64 (wrap 64 (hi - lo) + 1)) as Hr2. destruct (wrap_congruent 64 (hi - lo)) as [k Hk]; [lia|].
  destruct (wrap_congruent 64 (wrap 64 (hi - lo) + 1)) as [k' Hk']; [lia|]. lia.
Qed.

Lemma select_table (g : Z -> option Z) w l d :
  Structured.select_case w (omap (fun i => (fun exit => (i, Structured.Sexit exit)) <$> g i) l) (Structured.Sexit d : Cminor.Stmt) =
  Structured.Sexit (if decide (w ∈ l) then default d (g w) else d).
Proof using.
  clear Ha Hz. induction l as [|i l IH]; [done|]. cbn [omap list_omap]. destruct (g i) as [x|] eqn:Eg; cbn.
  - destruct (decide (w = i)) as [->|Hi]; [by rewrite decide_True, Eg by left|]. rewrite IH. f_equal.
    destruct (decide (w ∈ l)); [by rewrite decide_True by (by right)|]. rewrite decide_False; [done|]. by intros [?|?]%elem_of_cons.
  - rewrite IH. f_equal. destruct (decide (w ∈ l)); [by rewrite decide_True by (by right)|].
    destruct (decide (w ∈ i :: l)) as [[->|?]%elem_of_cons|]; [by rewrite Eg|done|done].
Qed.

(** The table is small: it has at most [2 ^ 31] entries. *)
Lemma jump_table_ok analysis lo hi :
  sa_IsLong analysis = isLong -> sa_MinVal analysis = lo -> sa_MaxVal analysis = hi ->
  widths_ok isLong (sa_Cases analysis) -> NoDup (sc_Value <$> sa_Cases analysis) ->
  (forall c, c ∈ sa_Cases analysis -> lo <= sc_Value c <= hi) -> in_width isLong lo -> in_width isLong hi -> lo <= hi ->
  0 < switch_range lo hi < 2 ^ 31 -> in_width isLong z ->
  exists s, TransformSwitchJumpTable a analysis = Some s /\ leaves_by s (exit_for z (sa_Cases analysis) (sa_Default analysis)).
Proof using Ha Hz.
  intros Hl Hlo Hhi Hw Hnd Hbetween Hwlo Hwhi Hle Hr Hwz. unfold TransformSwitchJumpTable.
  destruct (sa_Cases analysis) as [|c0 rest] eqn:Ec; [eexists; split; [done|apply leaves_exit]|]. rewrite <- Ec in *. clear c0 rest Ec.
  rewrite Hl, Hlo, Hhi. destruct (Z.ltb_spec (switch_range lo hi) 0); [lia|]. eexists. split; [done|].
  assert (Hexact : switch_range lo hi = hi - lo + 1).
  { apply switch_range_exact; [| |done|lia]; unfold in_width, in_i64, in_i32 in *; destruct isLong; lia. }
  destruct (subtract_ok lo Hwlo Hwz) as (w & Hnorm & Hsel). intros k. eapply rtc_l; [|apply leaves_exit].
  unfold steps_to. cbn [Structured.struct_step Structured.lang_expr Structured.lang_switch cminor_language]. rewrite Hnorm. cbn [mbind option_bind]. rewrite Hsel.
  cbn [Structured.step_opt]. rewrite select_table. do 5 f_equal. set (d := if isLong then i64 (z - lo) else i32 (z - lo)) in *.
  rewrite exit_for_find.
  destruct (decide (d ∈ seqZ 0 (switch_range lo hi))) as [Hd%elem_of_seqZ|Hd].
  - assert (Hwd : in_width isLong (lo + d)) by (unfold in_width, in_i64, in_i32 in *; destruct isLong; lia).
    rewrite <- (distance_exact lo d Hwz Hwd eq_refl). rewrite i64_id, case_map_lookup by (done || (unfold in_width, in_i64, in_i32 in *; destruct isLong; lia)).
    by destruct (find_name sc_Value z (sa_Cases analysis)).
  - destruct (find_name sc_Value z (sa_Cases analysis)) as [c|] eqn:Ef; [|done]. exfalso. apply Hd, elem_of_seqZ.
    apply find_name_Some in Ef as [Hc <-]. specialize (Hbetween c Hc). unfold d, in_width, in_i64, in_i32 in *.
    destruct isLong; [rewrite i64_id by (unfold in_i64; lia)|rewrite i32_id by (unfold in_i32; lia)]; lia.
Qed.
End Execution.

(** ** The whole compilation *)

Definition is_exit (s : Cminor.Stmt) : bool := match s with Structured.Sexit _ => true | _ => false end.

Definition in_width_bool (isLong : bool) (n : Z) : bool :=
  let b := if isLong then 2 ^ 63 else 2 ^ 31 in (- b <=? n) && (n <? b).

(** Cases with distinct values of the width, whose bodies leave; and not so many
    that distances overflow. *)
Definition switch_ok (isLong : bool) (cases : list (Z * Cminor.Stmt)) : bool :=
  bool_decide (NoDup cases.*1) && forallb (fun c => in_width_bool isLong c.1 && is_exit c.2) cases &&
  (Z.of_nat (length cases) <? 2 ^ 30).

Definition to_cases (cases : list (Z * Cminor.Stmt)) : list SwitchCase :=
  map (fun c => mkSwitchCase c.1 (extractExitDepth c.2)) cases.

Lemma select_exit z cases d :
  forallb (fun c => is_exit c.2) cases = true ->
  Structured.select_case z cases (Structured.Sexit d) = Structured.Sexit (exit_for z (to_cases cases) d).
Proof.
  induction cases as [|[n s] cases IH]; [done|]. cbn. rewrite andb_true_iff. intros [Hs Hc].
  destruct (decide (z = n)); [by destruct s|by apply IH].
Qed.

Lemma last_next {A} (x y : A) l : List.last (y :: l) x = List.last l y.
Proof.
  revert x y. induction l as [|b l IH]; intros x y; [done|]. change (List.last (b :: l) x = List.last (b :: l) y).
  by rewrite !IH.
Qed.

Lemma sorted_between first rest c :
  StronglySorted value_le (first :: rest) -> c ∈ first :: rest ->
  sc_Value first <= sc_Value c <= sc_Value (List.last rest first).
Proof.
  revert first c. induction rest as [|next rest IH]; intros first c Hs Hc.
  - apply list_elem_of_singleton in Hc as ->. cbn. lia.
  - apply StronglySorted_cons in Hs as [Hf Hs]. rewrite Forall_forall in Hf.
    rewrite last_next in *.
    apply elem_of_cons in Hc as [->|Hc].
    + specialize (Hf next ltac:(left)). unfold value_le in Hf. pose proof (IH next next Hs ltac:(left)). lia.
    + specialize (Hf c Hc). unfold value_le in Hf. pose proof (IH next c Hs Hc). lia.
Qed.

Section Compilation.
  Context {M : Type} `{FO : FloatOps} `{LO : Layout} `{TS : TargetSemantics val M}.
  Context {VT : ValueTarget M} {darwin : bool} {PC : PseudoCalls val M darwin} {SS : SortSlice}.

Lemma in_width_bool_spec isLong n : in_width_bool isLong n = true <-> in_width isLong n.
Proof using. unfold in_width_bool, in_width, in_i64, in_i32. destruct isLong; lia. Qed.

(** What the analysis finds. *)
Lemma analysis_cases isLong (cases : list (Z * Cminor.Stmt)) d : sa_Cases (AnalyzeSwitch isLong cases d) = sort_slice (to_cases cases).
Proof using. unfold AnalyzeSwitch, to_cases. by destruct (sort_slice _). Qed.

Lemma analysis_rest isLong (cases : list (Z * Cminor.Stmt)) d :
  sa_IsLong (AnalyzeSwitch isLong cases d) = isLong /\ sa_Default (AnalyzeSwitch isLong cases d) = d.
Proof using. unfold AnalyzeSwitch. by destruct (sort_slice _). Qed.

(** A jump table is chosen when the values fill half of their range. *)
Lemma analysis_table isLong (cases : list (Z * Cminor.Stmt)) d :
  let analysis := AnalyzeSwitch isLong cases d in sa_Strategy analysis = StrategyJumpTable ->
  exists first rest, sa_Cases analysis = first :: rest /\ sa_MinVal analysis = sc_Value first /\
    sa_MaxVal analysis = sc_Value (List.last rest first) /\
    0 < switch_range (sc_Value first) (sc_Value (List.last rest first)) <= 2 * Z.of_nat (length cases).
Proof using.
  unfold AnalyzeSwitch. assert (Hlen : length (sort_slice (to_cases cases)) = length cases).
  { rewrite (sort_slice_perm (to_cases cases)). unfold to_cases. apply length_map. }
  unfold to_cases in Hlen. destruct (sort_slice _) as [|first rest] eqn:E; [done|]. cbn [sa_Strategy sa_Cases sa_MinVal sa_MaxVal].
  unfold selectStrategy. destruct (_ <=? 4); [done|]. intros Hd. exists first, rest. split_and!; try done.
  all: destruct (Z.ltb_spec 0 (switch_range (sc_Value first) (sc_Value (List.last rest first)))) as [Hr|Hr]; cbn [fst snd] in Hd;
    rewrite ?Hlen in Hd; destruct (_ <=? _) eqn:Hle in Hd; try done; try apply Z.leb_le in Hle; lia.
Qed.

Lemma TransformSwitch_leaves locals body isLong (cases : list (Z * Cminor.Stmt)) d a (e : gmap string val) (m : M) v z :
  NoDup cases.*1 -> (forall c, c ∈ cases -> in_width_bool isLong c.1 = true) -> Z.of_nat (length cases) < 2 ^ 30 ->
  cm_expr locals e m a = Some v -> switch_val isLong v = Some z -> in_width isLong z ->
  exists s, TransformSwitch isLong a cases d = Some s /\
    leaves_by (PC := PC) locals body e m s (exit_for z (to_cases cases) d).
Proof using VT.
  intros Hnd Hwidth Hlen Ha Hz Hwz. set (analysis := AnalyzeSwitch isLong cases d).
  pose proof (analysis_cases isLong cases d) as Hc. destruct (analysis_rest isLong cases d) as [Hl Hd]. fold analysis in Hc, Hl, Hd.
  pose proof (sort_slice_perm (to_cases cases)) as Hp. pose proof (sort_slice_sorted (to_cases cases)) as Hs. rewrite <- Hc in Hp, Hs.
  assert (Hval : sc_Value <$> to_cases cases = cases.*1) by (unfold to_cases; clear; induction cases as [|c cases IH]; [done|]; cbn; by f_equal).
  rewrite <- Hval in Hnd. rewrite (exit_for_perm z (to_cases cases) (sa_Cases analysis) d) by done. rewrite <- Hp in Hnd.
  assert (Hw : widths_ok isLong (sa_Cases analysis)).
  { unfold widths_ok. rewrite Hp. apply Forall_forall. intros c (c' & <- & Hin)%list_elem_of_In%in_map_iff.
    apply in_width_bool_spec, Hwidth. by apply list_elem_of_In. }
  replace (exit_for z (sa_Cases analysis) d) with (exit_for z (sa_Cases analysis) (sa_Default analysis)) by (by rewrite Hd).
  unfold TransformSwitch. fold analysis. destruct (sa_Strategy analysis) eqn:Est.
  - eexists. split; [done|]. by eapply linear_ok.
  - eexists. split; [done|]. unfold TransformSwitchBinary. rewrite Hl. destruct (sa_Cases analysis) as [|c0 l0] eqn:El; [apply leaves_exit|].
    rewrite <- El in *. by eapply binary_ok.
  - destruct (analysis_table isLong cases d Est) as (first & rest & Hcs & Hmin & Hmax & Hr). fold analysis in Hcs, Hmin, Hmax.
    assert (Hb : forall c, c ∈ sa_Cases analysis -> sc_Value first <= sc_Value c <= sc_Value (List.last rest first)).
    { intros c Hin. rewrite Hcs in Hin, Hs. by apply sorted_between. }
    assert (Hlast : List.last rest first ∈ sa_Cases analysis).
    { rewrite Hcs, <- (last_next first). apply list_elem_of_In. destruct (exists_last (l := first :: rest)) as (l' & x & ->); [done|].
      rewrite List.last_last. apply in_or_app. right. by left. }
    unfold widths_ok in Hw. rewrite Forall_forall in Hw. pose proof (Hw first ltac:(rewrite Hcs; left)). pose proof (Hw _ Hlast).
    apply (jump_table_ok locals body e m a isLong v z Ha Hz analysis (sc_Value first) (sc_Value (List.last rest first))); try done; [by apply Forall_forall|apply (Hb _ Hlast)|lia].
Qed.

(** C32. Compiling a switch keeps its meaning: if the cases have distinct values
    of the switch's width and leave by an exit each, the code that replaces the
    switch, whichever of the three strategies is chosen, leaves by the same
    exit, in the same state. *)
Theorem TransformSwitch_equiv locals body isLong (cases : list (Z * Cminor.Stmt)) d a (e : gmap string val) (m : M) v z :
  switch_ok isLong cases = true -> cm_expr locals e m a = Some v -> switch_val isLong v = Some z -> in_width isLong z ->
  let step := Structured.struct_step (PC := PC) (cminor_language locals) body in
  exists s n, TransformSwitch isLong a cases d = Some s /\ forall k,
    rtc (steps_to step) (Structured.Sswitch isLong a cases (Structured.Sexit d), k, e, m) (Structured.Sexit n, k, e, m) /\
    rtc (steps_to step) (s, k, e, m) (Structured.Sexit n, k, e, m).
Proof using VT.
  intros Hok Ha Hz Hwz step. unfold switch_ok in Hok. rewrite !andb_true_iff, bool_decide_eq_true, Z.ltb_lt, forallb_forall in Hok.
  destruct Hok as [[Hnd Hcases] Hlen].
  assert (Hexits : forallb (fun c => is_exit c.2) cases = true).
  { apply forallb_forall. intros c Hc. specialize (Hcases c Hc). by destruct_andb. }
  destruct (TransformSwitch_leaves locals body isLong cases d a e m v z Hnd) as (s & Hs & Hleaves); try done.
  { intros c Hc. apply list_elem_of_In in Hc. specialize (Hcases c Hc). by apply andb_true_iff in Hcases as [? _]. }
  exists s, (exit_for z (to_cases cases) d). split; [done|]. intros k. split; [|apply Hleaves].
  apply rtc_once. unfold steps_to, step. cbn [Structured.struct_step Structured.lang_expr Structured.lang_switch cminor_language].
  rewrite Ha. cbn [mbind option_bind]. rewrite Hz. cbn [Structured.step_opt]. by rewrite select_exit.
Qed.
End Compilation.

(** ** Examples *)

#[export] Instance value_le_trans : Transitive value_le.
Proof. intros c1 c2 c3. unfold value_le. lia. Qed.

#[export] Instance value_le_total : Total value_le.
Proof. intros c1 c2. unfold value_le. lia. Qed.

#[export] Instance merge_sort_slice : SortSlice := {|
  sort_slice := merge_sort value_le;
  sort_slice_perm := merge_sort_Permutation value_le;
  sort_slice_sorted := StronglySorted_merge_sort value_le
|}.

(** Six cases, [f n] apart. *)
Definition six_cases (f : Z -> Z) : list (Z * Cminor.Stmt) :=
  (fun i => (f i, Structured.Sexit i)) <$> [3; 0; 5; 1; 4; 2].

Example strategies :
  sa_Strategy (AnalyzeSwitch false (take 4 (six_cases id)) 9) = StrategyLinear /\
  sa_Strategy (AnalyzeSwitch false (six_cases (fun n => 2 * n - 7)) 9) = StrategyJumpTable /\
  sa_Strategy (AnalyzeSwitch false (six_cases (fun n => 10 * n - 7)) 9) = StrategyBinary.
Proof. vm_compute. done. Qed.

Lemma TransformSwitch_equiv_witness :
  let step := Structured.struct_step (PC := example_calls) (cminor_language {["x"%string]}) Structured.Sskip in
  let e : gmap string val := {["x"%string := Vint 23]} in
  exists s n, TransformSwitch false (Cminor.Evar "x") (six_cases (fun n => 10 * n - 7)) 9 = Some s /\ forall k,
    rtc (steps_to step)
      (Structured.Sswitch false (Cminor.Evar "x") (six_cases (fun n => 10 * n - 7)) (Structured.Sexit 9), k, e, ∅)
      (Structured.Sexit n, k, e, ∅) /\
    rtc (steps_to step) (s, k, e, ∅) (Structured.Sexit n, k, e, ∅).
Proof.
  apply (TransformSwitch_equiv (PC := example_calls) {["x"%string]} Structured.Sskip false (six_cases (fun n => 10 * n - 7)) 9
    (Cminor.Evar "x") {["x"%string := Vint 23]} ∅ (Vint 23) 23).
  - vm_compute. reflexivity.
  - cbn [cm_expr]. by rewrite decide_True by by apply elem_of_singleton.
  - reflexivity.
  - unfold in_width, in_i32. lia.
Defined.
