(* ===== verification/Clight.v ===== *)
(** Clight ([src/pkg/clight/ast.go]): C without side effects in expressions.
    Every expression carries its type, which may be [nil]. *)

From S2P Require Import Prelude.
From S2P Require Ctypes.

(** [ctypes.Type], where it may be [nil] *)
Abbreviation Type_ := (option Ctypes.Type_) (only parsing).

Inductive UnaryOp := Onotbool | Onotint | Oneg | Oabsfloat.

Inductive BinaryOp :=
| Oadd | Osub | Omul | Odiv | Omod
| Oeq | One | Olt | Ogt | Ole | Oge
| Oand | Oor | Oxor | Oshl | Oshr.

#[export] Instance UnaryOp_eq_dec : EqDecision UnaryOp.
Proof. solve_decision. Defined.
#[export] Instance BinaryOp_eq_dec : EqDecision BinaryOp.
Proof. solve_decision. Defined.

Definition UnaryOp_String (op : UnaryOp) : string :=
  match op with Onotbool => "!" | Onotint => "~" | Oneg => "-" | Oabsfloat => "abs" end.

Definition BinaryOp_String (op : BinaryOp) : string :=
  match op with
  | Oadd => "+" | Osub => "-" | Omul => "*" | Odiv => "/" | Omod => "%"
  | Oeq => "==" | One => "!=" | Olt => "<" | Ogt => ">" | Ole => "<=" | Oge => ">="
  | Oand => "&" | Oor => "|" | Oxor => "^" | Oshl => "<<" | Oshr => ">>"
  end.

Inductive Expr :=
| Econst_int (Value : Z) (Typ : Type_)
| Econst_float (Bits : Z) (Typ : Type_)
| Econst_long (Value : Z) (Typ : Type_)
| Econst_single (Bits : Z) (Typ : Type_)
| Estring (Value : string) (Typ : Type_)
| Evar (Name : string) (Typ : Type_)
| Etempvar (ID : Z) (Typ : Type_)
| Ederef (Ptr : Expr) (Typ : Type_)
| Eaddrof (Arg : Expr) (Typ : Type_)
| Eunop (Op : UnaryOp) (Arg : Expr) (Typ : Type_)
| Ebinop (Op : BinaryOp) (Left Right : Expr) (Typ : Type_)
| Ecast (Arg : Expr) (Typ : Type_)
| Efield (Arg : Expr) (FieldName : string) (Typ : Type_)
| Esizeof (ArgType : Type_) (Typ : Type_)
| Ealignof (ArgType : Type_) (Typ : Type_).

Definition ExprType (e : Expr) : Type_ :=
  match e with
  | Econst_int _ t | Econst_float _ t | Econst_long _ t | Econst_single _ t | Estring _ t
  | Evar _ t | Etempvar _ t | Ederef _ t | Eaddrof _ t | Eunop _ _ t | Ebinop _ _ _ t
  | Ecast _ t | Efield _ _ t | Esizeof _ t | Ealignof _ t => t
  end.

Inductive Stmt :=
| Sskip
| Sassign (LHS RHS : Expr)
| Sset (TempID : Z) (RHS : Expr)
| Scall (Result : option Z) (Func : Expr) (Args : list Expr)
| Sbuiltin (Result : option Z) (Builtin : string) (Args : list Expr)
| Ssequence (First Second : Stmt)
| Sifthenelse (Cond : Expr) (Then Else : Stmt)
| Sloop (Body Continue : Stmt)
| Sbreak
| Scontinue
| Sreturn (Value : option Expr)
| Sswitch (Expr_ : Expr) (Cases : list (Z * Stmt)) (Default : Stmt) (HasBreak : bool)
| Slabel (Label : string) (Body : Stmt)
| Sgoto (Label : string).

(** [SwitchCase] *)
Definition SwitchCase : Type := Z * Stmt.

(** Induction, with a hypothesis for the body of every case of a switch. *)
Section StmtInd.
  Context (P : Stmt -> Prop).
  Context (Hskip : P Sskip).
  Context (Hassign : forall l r, P (Sassign l r)).
  Context (Hset : forall id r, P (Sset id r)).
  Context (Hcall : forall r f args, P (Scall r f args)).
  Context (Hbuiltin : forall r b args, P (Sbuiltin r b args)).
  Context (Hseq : forall s1 s2, P s1 -> P s2 -> P (Ssequence s1 s2)).
  Context (Hif : forall c s1 s2, P s1 -> P s2 -> P (Sifthenelse c s1 s2)).
  Context (Hloop : forall s1 s2, P s1 -> P s2 -> P (Sloop s1 s2)).
  Context (Hbreak : P Sbreak).
  Context (Hcontinue : P Scontinue).
  Context (Hreturn : forall e, P (Sreturn e)).
  Context (Hswitch : forall e cases d h, Forall (fun c => P c.2) cases -> P d -> P (Sswitch e cases d h)).
  Context (Hlabel : forall l s, P s -> P (Slabel l s)).
  Context (Hgoto : forall l, P (Sgoto l)).

Fixpoint Stmt_nested_ind (s : Stmt) : P s :=
  match s with
  | Sskip => Hskip
  | Sassign l r => Hassign l r
  | Sset id r => Hset id r
  | Scall r f args => Hcall r f args
  | Sbuiltin r b args => Hbuiltin r b args
  | Ssequence s1 s2 => Hseq s1 s2 (Stmt_nested_ind s1) (Stmt_nested_ind s2)
  | Sifthenelse c s1 s2 => Hif c s1 s2 (Stmt_nested_ind s1) (Stmt_nested_ind s2)
  | Sloop s1 s2 => Hloop s1 s2 (Stmt_nested_ind s1) (Stmt_nested_ind s2)
  | Sbreak => Hbreak
  | Scontinue => Hcontinue
  | Sreturn e => Hreturn e
  | Sswitch e cases d h =>
      Hswitch e cases d h
        ((fix go cases : Forall (fun c => P c.2) cases :=
            match cases with
            | [] => List.Forall_nil _
            | c :: cases => List.Forall_cons _ _ _ (Stmt_nested_ind c.2) (go cases)
            end) cases)
        (Stmt_nested_ind d)
  | Slabel l s => Hlabel l s (Stmt_nested_ind s)
  | Sgoto l => Hgoto l
  end.
End StmtInd.

Record VarDecl := mkVarDecl {
  vd_Name : string;
  vd_Type : Type_;
  vd_Init : list Z
}.

Record Function := mkFunction {
  fn_Name : string;
  fn_Return : Type_;
  fn_Params : list VarDecl;
  fn_Locals : list VarDecl;
  fn_Temps : list Type_;
  fn_Body : Stmt
}.

(** Structures and unions are their names and fields ([Tstruct], [Tunion]). *)
Record Program := mkProgram {
  Structs : list (string * list Ctypes.Field);
  Unions : list (string * list Ctypes.Field);
  Globals : list VarDecl;
  Functions : list Function
}.

(** [Seq]: sequences without [Sskip]. *)
Definition is_skip (s : Stmt) : bool := match s with Sskip => true | _ => false end.

Definition Seq (stmts : list Stmt) : Stmt :=
  foldl (fun result s =>
    if is_skip result then s else if is_skip s then result else Ssequence result s) Sskip stmts.
