(* ===== verification/Cabs.v ===== *)
(** C syntax ([src/pkg/cabs/ast.go]), what the parser produces. Types are still
    strings. A field that can be [nil] in Go is an option. *)

From S2P Require Import Prelude.

Inductive BinaryOp :=
| OpAdd | OpSub | OpMul | OpDiv | OpMod
| OpLt | OpLe | OpGt | OpGe | OpEq | OpNe
| OpAnd | OpOr
| OpBitAnd | OpBitOr | OpBitXor | OpShl | OpShr
| OpAssign | OpAddAssign | OpSubAssign | OpMulAssign | OpDivAssign | OpModAssign
| OpAndAssign | OpOrAssign | OpXorAssign | OpShlAssign | OpShrAssign
| OpComma.

Inductive UnaryOp :=
| OpNeg | OpNot | OpBitNot
| OpPreInc | OpPreDec | OpPostInc | OpPostDec
| OpAddrOf | OpDeref | OpPlus.

#[export] Instance BinaryOp_eq_dec : EqDecision BinaryOp.
Proof. solve_decision. Defined.
#[export] Instance UnaryOp_eq_dec : EqDecision UnaryOp.
Proof. solve_decision. Defined.

Definition BinaryOp_String (op : BinaryOp) : string :=
  match op with
  | OpAdd => "+" | OpSub => "-" | OpMul => "*" | OpDiv => "/" | OpMod => "%"
  | OpLt => "<" | OpLe => "<=" | OpGt => ">" | OpGe => ">=" | OpEq => "==" | OpNe => "!="
  | OpAnd => "&&" | OpOr => "||" | OpBitAnd => "&" | OpBitOr => "|" | OpBitXor => "^"
  | OpShl => "<<" | OpShr => ">>"
  | OpAssign => "=" | OpAddAssign => "+=" | OpSubAssign => "-=" | OpMulAssign => "*="
  | OpDivAssign => "/=" | OpModAssign => "%=" | OpAndAssign => "&=" | OpOrAssign => "|="
  | OpXorAssign => "^=" | OpShlAssign => "<<=" | OpShrAssign => ">>=" | OpComma => ","
  end.

Definition UnaryOp_String (op : UnaryOp) : string :=
  match op with
  | OpNeg => "-" | OpNot => "!" | OpBitNot => "~"
  | OpPreInc | OpPostInc => "++" | OpPreDec | OpPostDec => "--"
  | OpAddrOf => "&" | OpDeref => "*" | OpPlus => "+"
  end.

(** ** Expressions *)

Inductive Expr :=
| Constant (Value : Z)
| StringLiteral (Value : string)
| CharLiteral (Value : string)
| Variable_ (Name : string)
| Unary (Op : UnaryOp) (Arg : Expr)
| Binary (Op : BinaryOp) (Left Right : Expr)
| Paren (Arg : Expr)
| Conditional (Cond Then Else : Expr)
| Call (Func : Expr) (Args : list Expr)
| Index (Array Idx : Expr)
| Member (Arg : Expr) (Name : string) (IsArrow : bool)
| SizeofExpr (Arg : Expr)
| SizeofType (TypeName : string)
| Cast (TypeName : string) (Arg : Expr).

(** Induction, with a hypothesis for every argument of a call. *)
Section ExprInd.
  Context (P : Expr -> Prop).
  Context (Hconst : forall n, P (Constant n)).
  Context (Hstring : forall s, P (StringLiteral s)).
  Context (Hchar : forall s, P (CharLiteral s)).
  Context (Hvar : forall x, P (Variable_ x)).
  Context (Hunary : forall op a, P a -> P (Unary op a)).
  Context (Hbinary : forall op a b, P a -> P b -> P (Binary op a b)).
  Context (Hparen : forall a, P a -> P (Paren a)).
  Context (Hcond : forall a b c, P a -> P b -> P c -> P (Conditional a b c)).
  Context (Hcall : forall f args, P f -> Forall P args -> P (Call f args)).
  Context (Hindex : forall a b, P a -> P b -> P (Index a b)).
  Context (Hmember : forall a x arrow, P a -> P (Member a x arrow)).
  Context (Hsizeof : forall a, P a -> P (SizeofExpr a)).
  Context (Hsizeof_type : forall t, P (SizeofType t)).
  Context (Hcast : forall t a, P a -> P (Cast t a)).

Fixpoint Expr_nested_ind (a : Expr) : P a :=
  match a with
  | Constant n => Hconst n
  | StringLiteral s => Hstring s
  | CharLiteral s => Hchar s
  | Variable_ x => Hvar x
  | Unary op a => Hunary op a (Expr_nested_ind a)
  | Binary op a b => Hbinary op a b (Expr_nested_ind a) (Expr_nested_ind b)
  | Paren a => Hparen a (Expr_nested_ind a)
  | Conditional a b c => Hcond a b c (Expr_nested_ind a) (Expr_nested_ind b) (Expr_nested_ind c)
  | Call f args =>
      Hcall f args (Expr_nested_ind f)
        ((fix go args : Forall P args :=
            match args with
            | [] => List.Forall_nil _
            | a :: args => List.Forall_cons _ _ _ (Expr_nested_ind a) (go args)
            end) args)
  | Index a b => Hindex a b (Expr_nested_ind a) (Expr_nested_ind b)
  | Member a x arrow => Hmember a x arrow (Expr_nested_ind a)
  | SizeofExpr a => Hsizeof a (Expr_nested_ind a)
  | SizeofType t => Hsizeof_type t
  | Cast t a => Hcast t a (Expr_nested_ind a)
  end.
End ExprInd.

(** ** Statements *)

(** An array dimension is [nil] in [int a[]]. *)
Record Decl := mkDecl {
  d_TypeSpec : string;
  d_Name : string;
  d_ArrayDims : list (option Expr);
  d_Initializer : option Expr
}.

(** A case of a switch, [SwitchCase], is its expression, [nil] for the default
    case, and its statements. *)
Inductive Stmt :=
| Return (Value : option Expr)
| Computation (Arg : Expr)
| If (Cond : Expr) (Then : Stmt) (Else : option Stmt)
| While (Cond : Expr) (Body : Stmt)
| DoWhile (Body : Stmt) (Cond : Expr)
| For (Init : option Expr) (InitDecl : list Decl) (Cond Step : option Expr) (Body : Stmt)
| Skip
| Break
| Continue
| Switch (Value : Expr) (Cases : list (option Expr * list Stmt))
| Goto (Name : string)
| Label (Name : string) (Body : Stmt)
| Block (Items : list Stmt)
| DeclStmt (Decls : list Decl).

Definition SwitchCase : Type := option Expr * list Stmt.

(** Induction, with a hypothesis for every statement below. *)
Section StmtInd.
  Context (P : Stmt -> Prop).
  Context (Hreturn : forall a, P (Return a)).
  Context (Hcomp : forall a, P (Computation a)).
  Context (Hif : forall a s o, P s -> from_option P True o -> P (If a s o)).
  Context (Hwhile : forall a s, P s -> P (While a s)).
  Context (Hdo : forall s a, P s -> P (DoWhile s a)).
  Context (Hfor : forall i ds c st s, P s -> P (For i ds c st s)).
  Context (Hskip : P Skip).
  Context (Hbreak : P Break).
  Context (Hcontinue : P Continue).
  Context (Hswitch : forall a cases, Forall (fun c => Forall P c.2) cases -> P (Switch a cases)).
  Context (Hgoto : forall l, P (Goto l)).
  Context (Hlabel : forall l s, P s -> P (Label l s)).
  Context (Hblock : forall ss, Forall P ss -> P (Block ss)).
  Context (Hdecl : forall ds, P (DeclStmt ds)).

Fixpoint Stmt_nested_ind (s : Stmt) : P s :=
  let all := fix all ss : Forall P ss :=
    match ss with
    | [] => List.Forall_nil _
    | s :: ss => List.Forall_cons _ _ _ (Stmt_nested_ind s) (all ss)
    end in
  match s with
  | Return a => Hreturn a
  | Computation a => Hcomp a
  | If a s o =>
      Hif a s o (Stmt_nested_ind s)
        match o with Some s' => Stmt_nested_ind s' | None => I end
  | While a s => Hwhile a s (Stmt_nested_ind s)
  | DoWhile s a => Hdo s a (Stmt_nested_ind s)
  | For i ds c st s => Hfor i ds c st s (Stmt_nested_ind s)
  | Skip => Hskip
  | Break => Hbreak
  | Continue => Hcontinue
  | Switch a cases =>
      Hswitch a cases
        ((fix go cases : Forall (fun c => Forall P c.2) cases :=
            match cases with
            | [] => List.Forall_nil _
            | c :: cases => List.Forall_cons _ _ _ (all c.2) (go cases)
            end) cases)
  | Goto l => Hgoto l
  | Label l s => Hlabel l s (Stmt_nested_ind s)
  | Block ss => Hblock ss (all ss)
  | DeclStmt ds => Hdecl ds
  end.
End StmtInd.

(** ** Definitions *)

Record Param := mkParam { p_TypeSpec : string; p_Name : string }.

Record StructField := mkStructField { sf_TypeSpec : string; sf_Name : string }.

(** The body of a function is a block; a prototype has none. *)
Record FunDef := mkFunDef {
  f_ReturnType : string;
  f_Name : string;
  f_Params : list Param;
  f_Variadic : bool;
  f_Body : option (list Stmt)
}.

Record VarDef := mkVarDef {
  v_StorageClass : string;
  v_TypeSpec : string;
  v_Name : string;
  v_ArrayDims : list (option Expr);
  v_Initializer : option Expr
}.

Inductive Definition_ :=
| DFun (d : FunDef)
| DVar (d : VarDef)
| DTypedef (TypeSpec Name : string) (InlineType : option Definition_)
| DStruct (Name : string) (Fields : list StructField)
| DUnion (Name : string) (Fields : list StructField)
| DEnum (Name : string) (Values : list (string * option Expr)).

(** A [Program]. *)
Definition Program : Type := list Definition_.
