(* ===== verification/SimplExpr.v ===== *)
(** The extraction of side effects ([src/pkg/simplexpr/transform.go]): from C
    expressions to Clight ones that have none, and the statements to run before
    them. *)

From S2P Require Import Prelude Clight.
From S2P Require Ctypes Cabs.

#[local] Existing Instance Ctypes.Signedness_eq_dec.
#[local] Existing Instance Ctypes.IntSize_eq_dec.
#[local] Existing Instance Ctypes.FloatSize_eq_dec.
#[local] Existing Instance Cabs.BinaryOp_eq_dec.

(** ** State *)

(** [Transformer]; [tempTypes] has the types of the temporaries made so far. *)
Record Transformer := mkTransformer {
  nextTempID : Z;
  tempTypes : list (option Ctypes.Type_);
  typeEnv : gmap string Ctypes.Type_;
  structDefs : gmap string (list Ctypes.Field)
}.

Definition New : Transformer := mkTransformer 1 [] ∅ ∅.
Definition Reset (st : Transformer) : Transformer := mkTransformer 1 [] (typeEnv st) (structDefs st).

Definition SetNextTempID (id : Z) (st : Transformer) : Transformer :=
  mkTransformer id (tempTypes st) (typeEnv st) (structDefs st).

Definition SetType (name : string) (typ : Ctypes.Type_) (st : Transformer) : Transformer :=
  mkTransformer (nextTempID st) (tempTypes st) (<[name := typ]> (typeEnv st)) (structDefs st).

Definition SetStructDef (name : string) (fields : list Ctypes.Field) (st : Transformer) : Transformer :=
  mkTransformer (nextTempID st) (tempTypes st) (typeEnv st) (<[name := fields]> (structDefs st)).

(** [ResolveStruct], of the structure [name] with [fields]; on other types
    nothing happens. *)
Definition ResolveStruct (defs : gmap string (list Ctypes.Field)) (t : Ctypes.Type_) : Ctypes.Type_ :=
  match t with
  | Ctypes.Tstruct name fields => Ctypes.Tstruct name (default fields (defs !! name))
  | _ => t
  end.

Definition GetType (env : gmap string Ctypes.Type_) (name : string) : Ctypes.Type_ :=
  default Ctypes.Int (env !! name).

(** Code that may panic and changes the transformer. *)
Definition SE (A : Type) : Type := Transformer -> option (A * Transformer).

#[export] Instance SE_ret : MRet SE := fun A a st => Some (a, st).
#[export] Instance SE_bind : MBind SE := fun A B f x st => '(a, st) ← x st; f a st.

(** The loop that transforms the elements of a list. *)
Definition each {A B} (g : A -> SE B) : list A -> SE (list B) :=
  fix go l := match l with [] => mret [] | a :: l => b ← g a; bs ← go l; mret (b :: bs) end.

Definition newTemp (typ : Type_) : SE Z := fun st =>
  Some (nextTempID st,
    mkTransformer (nextTempID st + 1) (tempTypes st ++ [typ]) (typeEnv st) (structDefs st)).

Definition get_type (name : string) : SE Ctypes.Type_ := fun st => Some (GetType (typeEnv st) name, st).
Definition resolve (t : Ctypes.Type_) : SE Ctypes.Type_ := fun st => Some (ResolveStruct (structDefs st) t, st).

(** ** Types *)

(** [==] of two interface values of type [ctypes.Type]. Structures and functions
    hold slices: comparing two of them panics. *)
Fixpoint interface_eq (a b : Ctypes.Type_) : option bool :=
  let elems (e1 e2 : option Ctypes.Type_) :=
    match e1, e2 with Some a, Some b => interface_eq a b | None, None => Some true | _, _ => Some false end in
  match a, b with
  | Ctypes.Tstruct _ _, Ctypes.Tstruct _ _ | Ctypes.Tunion _ _, Ctypes.Tunion _ _
  | Ctypes.Tfunction _ _ _, Ctypes.Tfunction _ _ _ => None
  | Ctypes.Tvoid, Ctypes.Tvoid => Some true
  | Ctypes.Tint size1 sign1, Ctypes.Tint size2 sign2 => Some (bool_decide (size1 = size2) && bool_decide (sign1 = sign2))
  | Ctypes.Tlong sign1, Ctypes.Tlong sign2 => Some (bool_decide (sign1 = sign2))
  | Ctypes.Tfloat size1, Ctypes.Tfloat size2 => Some (bool_decide (size1 = size2))
  | Ctypes.Tpointer e1, Ctypes.Tpointer e2 => elems e1 e2
  | Ctypes.Tarray e1 n1, Ctypes.Tarray e2 n2 => (fun same => same && (n1 =? n2)) <$> elems e1 e2
  | _, _ => Some false
  end.

Definition types_eq (a b : Type_) : SE bool := fun st =>
  match a, b with
  | Some a, Some b => (fun eq => (eq, st)) <$> interface_eq a b
  | None, None => Some (true, st)
  | _, _ => Some (false, st)
  end.

(** The strings of the integer and floating-point types, of [typeFromString] and
    of [TypeFromString]. *)
Definition basic_type (s : string) : option Ctypes.Type_ :=
  let any l := bool_decide (s ∈ (l : list string)) in
  (if any ["void"] then Some Ctypes.Void
   else if any ["char"; "signed char"; "int8_t"] then Some Ctypes.Char
   else if any ["unsigned char"; "uint8_t"] then Some Ctypes.UChar
   else if any ["short"; "signed short"; "short int"; "signed short int"; "int16_t"] then Some Ctypes.Short
   else if any ["unsigned short"; "unsigned short int"; "uint16_t"] then Some (Ctypes.Tint Ctypes.I16 Ctypes.Unsigned)
   else if any ["int"; "signed"; "signed int"; "int32_t"] then Some Ctypes.Int
   else if any ["unsigned int"; "unsigned"; "uint32_t"] then Some Ctypes.UInt
   else if any ["long"; "long long"; "signed long long"; "int64_t"; "ssize_t"; "ptrdiff_t"] then Some Ctypes.Long
   else if any ["unsigned long"; "unsigned long long"; "uint64_t"; "size_t"] then Some (Ctypes.Tlong Ctypes.Unsigned)
   else if any ["float"] then Some Ctypes.Float
   else if any ["double"] then Some Ctypes.Double
   else None)%string.

Definition byte (c : Ascii.ascii) : Z := Z.of_N (Ascii.N_of_ascii c).

Definition last_byte (s : string) : option Z := byte <$> String.get (String.length s - 1) s.

(** [typeFromString]: of a pointer the last two characters are dropped. *)
Fixpoint type_from (fuel : nat) (s : string) : Ctypes.Type_ :=
  match basic_type s with
  | Some t => t
  | None =>
      if (2 <? String.length s)%nat && bool_decide (last_byte s = Some 42) then
        match fuel with
        | Datatypes.S fuel => Ctypes.Pointer (Some (type_from fuel (String.substring 0 (String.length s - 2) s)))
        | O => Ctypes.Int
        end
      else Ctypes.Int
  end.

Definition typeFromString (s : string) : Ctypes.Type_ := type_from (String.length s) s.

(** [usualArithmeticConversion] *)
Definition needsPromotion (t : Type_) : bool :=
  match t with Some (Ctypes.Tint (Ctypes.I8 | Ctypes.I16) _) => true | _ => false end.
Definition isUnsignedInt (t : Type_) : bool :=
  match t with Some (Ctypes.Tint Ctypes.I32 Ctypes.Unsigned) => true | _ => false end.
Definition isUnsignedLong (t : Type_) : bool :=
  match t with Some (Ctypes.Tlong Ctypes.Unsigned) => true | _ => false end.

Definition usualArithmeticConversion (left right : Type_) : Type_ :=
  match left, right with
  | Some (Ctypes.Tfloat s1), Some (Ctypes.Tfloat s2) =>
      if bool_decide (s1 = Ctypes.F64) || bool_decide (s2 = Ctypes.F64) then Some Ctypes.Double else Some Ctypes.Float
  | Some (Ctypes.Tfloat _), _ => left
  | _, Some (Ctypes.Tfloat _) => right
  | Some (Ctypes.Tlong _), _ | _, Some (Ctypes.Tlong _) =>
      if isUnsignedLong left || isUnsignedLong right then Some (Ctypes.Tlong Ctypes.Unsigned) else Some Ctypes.Long
  | Some (Ctypes.Tpointer _), _ => left
  | _, Some (Ctypes.Tpointer _) => right
  | _, _ =>
      if needsPromotion left || needsPromotion right then Some Ctypes.Int
      else if isUnsignedInt left || isUnsignedInt right then Some Ctypes.UInt
      else left
  end.

(** ** Side effects *)

(** The loop over the operators in [HasSideEffects]. *)
Definition is_assignment (op : Cabs.BinaryOp) : bool :=
  match op with
  | Cabs.OpAssign | Cabs.OpAddAssign | Cabs.OpSubAssign | Cabs.OpMulAssign | Cabs.OpDivAssign | Cabs.OpModAssign
  | Cabs.OpAndAssign | Cabs.OpOrAssign | Cabs.OpXorAssign | Cabs.OpShlAssign | Cabs.OpShrAssign => true
  | _ => false
  end.

Fixpoint HasSideEffects (e : Cabs.Expr) : bool :=
  match e with
  | Cabs.Constant _ | Cabs.StringLiteral _ | Cabs.CharLiteral _ | Cabs.Variable_ _ => false
  | Cabs.Paren e => HasSideEffects e
  | Cabs.Unary (Cabs.OpPreInc | Cabs.OpPreDec | Cabs.OpPostInc | Cabs.OpPostDec) _ => true
  | Cabs.Unary _ e => HasSideEffects e
  | Cabs.Binary op l r =>
      if is_assignment op || bool_decide (op = Cabs.OpComma) then true else HasSideEffects l || HasSideEffects r
  | Cabs.Conditional c t e => HasSideEffects c || HasSideEffects t || HasSideEffects e
  | Cabs.Call _ _ => true
  | Cabs.Index a i => HasSideEffects a || HasSideEffects i
  | Cabs.Member e _ _ => HasSideEffects e
  | Cabs.SizeofExpr _ | Cabs.SizeofType _ => false
  | Cabs.Cast _ e => HasSideEffects e
  end.

(** ** Literals *)

(** The character an escape sequence stands for: of n, t, r, 0, backslash, and the
    two quotes. *)
Definition escape (c : Ascii.ascii) : option Z :=
  if byte c =? 110 then Some 10 else if byte c =? 116 then Some 9 else if byte c =? 114 then Some 13
  else if byte c =? 48 then Some 0 else if byte c =? 92 then Some 92 else if byte c =? 39 then Some 39
  else if byte c =? 34 then Some 34 else None.

Definition char_value (s : string) : Z :=
  match s with
  | EmptyString => 0
  | String c EmptyString => byte c
  | String c (String d _) => if byte c =? 92 then default (byte d) (escape d) else byte c
  end.

Fixpoint processEscapeSequences (s : string) : string :=
  match s with
  | EmptyString => EmptyString
  | String c rest =>
      match rest with
      | String d rest' =>
          match (if byte c =? 92 then escape d else None) with
          | Some n => String (Ascii.ascii_of_N (Z.to_N n)) (processEscapeSequences rest')
          | None => String c (processEscapeSequences rest)
          end
      | EmptyString => String c EmptyString
      end
  end.

(** The type of an integer constant. *)
Definition constant_type (value : Z) : Ctypes.Type_ :=
  if (-2147483648 <=? value) && (value <=? 2147483647) then Ctypes.Int
  else if (-2147483648 <=? value) && (value <=? 9223372036854775807) then Ctypes.Long
  else Ctypes.Tlong Ctypes.Unsigned.

(** ** Expressions *)

(** [TransformResult] *)
Record TransformResult := mkResult {
  Expr_ : Expr;
  Stmts : list Stmt
}.

(** [cabsToBinaryOp]; it panics on the logical operators. *)
Definition cabsToBinaryOp (op : Cabs.BinaryOp) : option BinaryOp :=
  match op with
  | Cabs.OpAdd => Some Oadd | Cabs.OpSub => Some Osub | Cabs.OpMul => Some Omul
  | Cabs.OpDiv => Some Odiv | Cabs.OpMod => Some Omod
  | Cabs.OpEq => Some Oeq | Cabs.OpNe => Some One | Cabs.OpLt => Some Olt | Cabs.OpGt => Some Ogt
  | Cabs.OpLe => Some Ole | Cabs.OpGe => Some Oge
  | Cabs.OpBitAnd => Some Oand | Cabs.OpBitOr => Some Oor | Cabs.OpBitXor => Some Oxor
  | Cabs.OpShl => Some Oshl | Cabs.OpShr => Some Oshr
  | Cabs.OpAnd | Cabs.OpOr => None
  | _ => Some Oadd
  end.

(** The operator of a compound assignment, in [transformBinary]. *)
Definition compound_op (op : Cabs.BinaryOp) : option BinaryOp :=
  match op with
  | Cabs.OpAddAssign => Some Oadd | Cabs.OpSubAssign => Some Osub | Cabs.OpMulAssign => Some Omul
  | Cabs.OpDivAssign => Some Odiv | Cabs.OpModAssign => Some Omod | Cabs.OpAndAssign => Some Oand
  | Cabs.OpOrAssign => Some Oor | Cabs.OpXorAssign => Some Oxor | Cabs.OpShlAssign => Some Oshl
  | Cabs.OpShrAssign => Some Oshr
  | _ => None
  end.

Definition is_comparison (op : BinaryOp) : bool :=
  match op with Oeq | One | Olt | Ogt | Ole | Oge => true | _ => false end.

Definition int : Type_ := Some Ctypes.Int.
Definition pure (e : Expr) : TransformResult := mkResult e [].

(** The operands have been transformed. *)
Definition transformIncDec (inner : TransformResult) (op : BinaryOp) (isPre : bool) : SE TransformResult :=
  let typ := ExprType (Expr_ inner) in
  let computed := Ebinop op (Expr_ inner) (Econst_int 1 typ) typ in
  tempID ← newTemp typ;
  mret (mkResult (Etempvar tempID typ)
    (Stmts inner ++
     if isPre then [Sset tempID computed; Sassign (Expr_ inner) (Etempvar tempID typ)]
     else [Sset tempID (Expr_ inner); Sassign (Expr_ inner) computed])).

Definition transformUnary (op : Cabs.UnaryOp) (inner : TransformResult) : SE TransformResult :=
  let e := Expr_ inner in let typ := ExprType e in
  match op with
  | Cabs.OpPlus => mret inner
  | Cabs.OpNeg => mret (mkResult (Eunop Oneg e typ) (Stmts inner))
  | Cabs.OpNot => mret (mkResult (Eunop Onotbool e int) (Stmts inner))
  | Cabs.OpBitNot => mret (mkResult (Eunop Onotint e typ) (Stmts inner))
  | Cabs.OpAddrOf => mret (mkResult (Eaddrof e (Some (Ctypes.Pointer typ))) (Stmts inner))
  | Cabs.OpDeref =>
      mret (mkResult (Ederef e (match typ with Some (Ctypes.Tpointer elem) => elem | _ => int end)) (Stmts inner))
  | Cabs.OpPreInc => transformIncDec inner Oadd true
  | Cabs.OpPreDec => transformIncDec inner Osub true
  | Cabs.OpPostInc => transformIncDec inner Oadd false
  | Cabs.OpPostDec => transformIncDec inner Osub false
  end.

(** The temporary that holds what is assigned, and the assignment. *)
Definition assign_temp (lhs rhs : Expr) (stmts : list Stmt) : SE TransformResult :=
  let typ := ExprType lhs in
  tempID ← newTemp typ;
  mret (mkResult (Etempvar tempID typ) (stmts ++ [Sset tempID rhs; Sassign lhs (Etempvar tempID typ)])).

Definition transformAssign (left right : TransformResult) : SE TransformResult :=
  let typ := ExprType (Expr_ left) in
  same ← types_eq (ExprType (Expr_ right)) typ;
  assign_temp (Expr_ left) (if same : bool then Expr_ right else Ecast (Expr_ right) typ) (Stmts left ++ Stmts right).

Definition transformCompoundAssign (left right : TransformResult) (op : BinaryOp) : SE TransformResult :=
  assign_temp (Expr_ left) (Ebinop op (Expr_ left) (Expr_ right) (ExprType (Expr_ left))) (Stmts left ++ Stmts right).

(** [if (e) temp = 1 else temp = 0] *)
Definition set_truth (tempID : Z) (e : Expr) : Stmt :=
  Sifthenelse e (Sset tempID (Econst_int 1 int)) (Sset tempID (Econst_int 0 int)).

Definition transformLogicalAnd (left right : TransformResult) : SE TransformResult :=
  tempID ← newTemp int;
  mret (mkResult (Etempvar tempID int)
    (Stmts left ++
     [Sifthenelse (Expr_ left) (Seq (Stmts right ++ [set_truth tempID (Expr_ right)])) (Sset tempID (Econst_int 0 int))])).

Definition transformLogicalOr (left right : TransformResult) : SE TransformResult :=
  tempID ← newTemp int;
  mret (mkResult (Etempvar tempID int)
    (Stmts left ++
     [Sifthenelse (Expr_ left) (Sset tempID (Econst_int 1 int)) (Seq (Stmts right ++ [set_truth tempID (Expr_ right)]))])).

Definition transformBinary (op : Cabs.BinaryOp) (left right : TransformResult) : SE TransformResult :=
  match op, compound_op op with
  | Cabs.OpAssign, _ => transformAssign left right
  | Cabs.OpComma, _ => mret (mkResult (Expr_ right) (Stmts left ++ Stmts right))
  | Cabs.OpAnd, _ => transformLogicalAnd left right
  | Cabs.OpOr, _ => transformLogicalOr left right
  | _, Some op' => transformCompoundAssign left right op'
  | _, None =>
      fun st =>
        op' ← cabsToBinaryOp op;
        let typ := usualArithmeticConversion (ExprType (Expr_ left)) (ExprType (Expr_ right)) in
        Some (mkResult (Ebinop op' (Expr_ left) (Expr_ right) (if is_comparison op' then int else typ))
          (Stmts left ++ Stmts right), st)
  end.

(** The branches have been transformed; without side effects in them, their
    statements are not used. *)
Definition transformConditional (pure_branches : bool) (cond then_ else_ : TransformResult) : SE TransformResult :=
  let typ := ExprType (Expr_ then_) in
  tempID ← newTemp typ;
  let branch r := Sset tempID (Expr_ r) in
  let if_ := if pure_branches then Sifthenelse (Expr_ cond) (branch then_) (branch else_)
    else Sifthenelse (Expr_ cond) (Seq (Stmts then_ ++ [branch then_])) (Seq (Stmts else_ ++ [branch else_])) in
  mret (mkResult (Etempvar tempID typ) (Stmts cond ++ [if_])).

Definition param_types (t : Type_) : list Ctypes.Type_ :=
  match t with Some (Ctypes.Tfunction params _ _) => params | _ => [] end.
Definition return_type (t : Type_) : Type_ :=
  match t with Some (Ctypes.Tfunction _ ret _) => ret | _ => int end.

(** An argument gets the type of the parameter, if that is known. *)
Definition convert_arg (param : option Ctypes.Type_) (e : Expr) : Expr :=
  match param with
  | Some t => if Ctypes.equal_opt Ctypes.Equal (ExprType e) (Some t) then e else Ecast e (Some t)
  | None => e
  end.

Definition transformCall (func : TransformResult) (args : list TransformResult) : SE TransformResult :=
  let t := ExprType (Expr_ func) in
  tempID ← newTemp (return_type t);
  mret (mkResult (Etempvar tempID (return_type t))
    (Stmts func ++ concat (Stmts <$> args) ++
     [Scall (Some tempID) (Expr_ func) (imap (fun i r => convert_arg (param_types t !! i) (Expr_ r)) args)])).

Definition transformIndex (array index : TransformResult) : TransformResult :=
  let '(base, elem) :=
    match ExprType (Expr_ array) with
    | Some (Ctypes.Tarray elem _) => (Eaddrof (Expr_ array) (Some (Ctypes.Pointer elem)), elem)
    | Some (Ctypes.Tpointer elem) => (Expr_ array, elem)
    | _ => (Expr_ array, int)
    end in
  mkResult (Ederef (Ebinop Oadd base (Expr_ index) (Some (Ctypes.Pointer elem))) elem) (Stmts array ++ Stmts index).

(** [ResolveStruct] of a type that may be [nil]. *)
Definition resolve_opt (t : Type_) : SE Type_ := fun st => Some (ResolveStruct (structDefs st) <$> t, st).

Definition field_type (t : Type_) (name : string) : Type_ :=
  match t with
  | Some (Ctypes.Tstruct _ fields) => default int (Some ∘ snd <$> find_name fst name fields)
  | _ => int
  end.

Definition transformMember (inner : TransformResult) (name : string) (isArrow : bool) : SE TransformResult :=
  base ←
    (if isArrow then
       elem ← resolve_opt (match ExprType (Expr_ inner) with Some (Ctypes.Tpointer elem) => elem | _ => int end);
       mret (Ederef (Expr_ inner) elem)
     else mret (Expr_ inner));
  t ← resolve_opt (ExprType base);
  mret (mkResult (Efield base name (field_type t name)) (Stmts inner)).

(** [TransformExpr] *)
Fixpoint TransformExpr (e : Cabs.Expr) : SE TransformResult :=
  match e with
  | Cabs.Constant n => mret (pure (Econst_int n (Some (constant_type n))))
  | Cabs.StringLiteral s => mret (pure (Estring (processEscapeSequences s) (Some (Ctypes.Pointer (Some Ctypes.Char)))))
  | Cabs.CharLiteral s => mret (pure (Econst_int (char_value s) int))
  | Cabs.Variable_ x => t ← get_type x; t ← resolve t; mret (pure (Evar x (Some t)))
  | Cabs.Paren e => TransformExpr e
  | Cabs.Unary op e => inner ← TransformExpr e; transformUnary op inner
  | Cabs.Binary op l r => left ← TransformExpr l; right ← TransformExpr r; transformBinary op left right
  | Cabs.Conditional c t e =>
      cond ← TransformExpr c; then_ ← TransformExpr t; else_ ← TransformExpr e;
      transformConditional (negb (HasSideEffects t) && negb (HasSideEffects e)) cond then_ else_
  | Cabs.Call f args =>
      func ← TransformExpr f;
      results ← each TransformExpr args;
      transformCall func results
  | Cabs.Index a i => array ← TransformExpr a; index ← TransformExpr i; mret (transformIndex array index)
  | Cabs.Member e name isArrow => inner ← TransformExpr e; transformMember inner name isArrow
  | Cabs.SizeofType s => mret (pure (Esizeof (Some (typeFromString s)) (Some Ctypes.UInt)))
  | Cabs.SizeofExpr e => inner ← TransformExpr e; mret (pure (Esizeof (ExprType (Expr_ inner)) (Some Ctypes.UInt)))
  | Cabs.Cast s e => inner ← TransformExpr e; mret (mkResult (Ecast (Expr_ inner) (Some (typeFromString s))) (Stmts inner))
  end.
