(* ===== verification/SimplLocals.v ===== *)
(** Locals that become temporaries ([src/pkg/simpllocals/transform.go]): those of
    a scalar type whose address is not taken. *)

From S2P Require Import Prelude Clight.
From S2P Require Ctypes Cabs.

#[local] Existing Instance Cabs.UnaryOp_eq_dec.

(** [Transformer] *)
Record Transformer := mkTransformer {
  addressTaken : gset string;
  varToTemp : gmap string Z;
  nextTempID : Z;
  temps : list Type_
}.

Definition New : Transformer := mkTransformer ∅ ∅ 1 [].

(** ** Addresses that are taken *)

(** [AnalyzeAddressTaken] *)
Fixpoint AnalyzeAddressTaken (e : Cabs.Expr) (taken : gset string) : gset string :=
  match e with
  | Cabs.Unary op a =>
      AnalyzeAddressTaken a
        match op, a with
        | Cabs.OpAddrOf, Cabs.Variable_ x => {[x]} ∪ taken
        | _, _ => taken
        end
  | Cabs.Binary _ l r => AnalyzeAddressTaken r (AnalyzeAddressTaken l taken)
  | Cabs.Paren a | Cabs.Member a _ _ | Cabs.Cast _ a | Cabs.SizeofExpr a => AnalyzeAddressTaken a taken
  | Cabs.Conditional c t e => AnalyzeAddressTaken e (AnalyzeAddressTaken t (AnalyzeAddressTaken c taken))
  | Cabs.Call f args => fold_left (fun taken a => AnalyzeAddressTaken a taken) args (AnalyzeAddressTaken f taken)
  | Cabs.Index a i => AnalyzeAddressTaken i (AnalyzeAddressTaken a taken)
  | _ => taken
  end.

Definition analyze_opt (o : option Cabs.Expr) (taken : gset string) : gset string :=
  match o with Some e => AnalyzeAddressTaken e taken | None => taken end.

(** [AnalyzeStmt] *)
Fixpoint AnalyzeStmt (s : Cabs.Stmt) (taken : gset string) : gset string :=
  match s with
  | Cabs.Return o => analyze_opt o taken
  | Cabs.Computation e => AnalyzeAddressTaken e taken
  | Cabs.If c s o =>
      let taken := AnalyzeStmt s (AnalyzeAddressTaken c taken) in
      match o with Some s => AnalyzeStmt s taken | None => taken end
  | Cabs.While c s => AnalyzeStmt s (AnalyzeAddressTaken c taken)
  | Cabs.DoWhile s c => AnalyzeAddressTaken c (AnalyzeStmt s taken)
  | Cabs.For init _ c step s => AnalyzeStmt s (analyze_opt step (analyze_opt c (analyze_opt init taken)))
  | Cabs.Switch e cases =>
      fold_left (fun taken c => fold_left (fun taken s => AnalyzeStmt s taken) c.2 taken) cases (AnalyzeAddressTaken e taken)
  | Cabs.Label _ s => AnalyzeStmt s taken
  | Cabs.Block ss => fold_left (fun taken s => AnalyzeStmt s taken) ss taken
  | Cabs.DeclStmt ds => fold_left (fun taken d => analyze_opt (Cabs.d_Initializer d) taken) ds taken
  | _ => taken
  end.

Definition AnalyzeFunction (fn : Cabs.FunDef) (st : Transformer) : Transformer :=
  match Cabs.f_Body fn with
  | Some body => mkTransformer (AnalyzeStmt (Cabs.Block body) (addressTaken st)) (varToTemp st) (nextTempID st) (temps st)
  | None => st
  end.

(** ** Promotion *)

Definition IsScalarType (t : Type_) : bool :=
  match t with
  | Some (Ctypes.Tint _ _) | Some (Ctypes.Tlong _) | Some (Ctypes.Tfloat _) | Some (Ctypes.Tpointer _) => true
  | _ => false
  end.

Definition CanPromoteToTemp (st : Transformer) (name : string) (t : Type_) : bool :=
  if decide (name ∈ addressTaken st) then false else IsScalarType t.

Definition PromoteLocal (name : string) (t : Type_) (st : Transformer) : Z * Transformer :=
  if CanPromoteToTemp st name t then
    match varToTemp st !! name with
    | Some id => (id, st)
    | None =>
        (nextTempID st,
         mkTransformer (addressTaken st) (<[name := nextTempID st]> (varToTemp st)) (nextTempID st + 1) (temps st ++ [t]))
    end
  else (-1, st).

Record LocalInfo := mkLocalInfo {
  li_Name : string;
  li_Type : Type_;
  li_AddressTaken : bool;
  li_Promoted : bool;
  li_TempID : Z
}.

(** [AnalyzeLocals], from a declaration on. *)
Fixpoint AnalyzeLocals (decls : list VarDecl) (st : Transformer) : list LocalInfo * Transformer :=
  match decls with
  | [] => ([], st)
  | d :: decls =>
      let promoted := CanPromoteToTemp st (vd_Name d) (vd_Type d) in
      let '(id, st) := if promoted then PromoteLocal (vd_Name d) (vd_Type d) st else (-1, st) in
      let info := mkLocalInfo (vd_Name d) (vd_Type d) (bool_decide (vd_Name d ∈ addressTaken st)) promoted id in
      let '(infos, st) := AnalyzeLocals decls st in
      (info :: infos, st)
  end.

Definition FilterUnpromotedLocals (infos : list LocalInfo) : list VarDecl :=
  (fun i => mkVarDecl (li_Name i) (li_Type i) []) <$> filter (fun i => li_Promoted i = false) infos.

(** ** Expressions and statements *)

Section Transform.
  (* [varToTemp] *)
  Context (vars : gmap string Z).

Fixpoint TransformExpr (e : Expr) : Expr :=
  match e with
  | Evar x t => match vars !! x with Some id => Etempvar id t | None => e end
  | Ederef a t => Ederef (TransformExpr a) t
  | Eaddrof a t => Eaddrof (TransformExpr a) t
  | Eunop op a t => Eunop op (TransformExpr a) t
  | Ebinop op a b t => Ebinop op (TransformExpr a) (TransformExpr b) t
  | Ecast a t => Ecast (TransformExpr a) t
  | Efield a name t => Efield (TransformExpr a) name t
  | _ => e
  end.

Fixpoint TransformStmt (s : Stmt) : Stmt :=
  match s with
  | Sassign lhs rhs =>
      match TransformExpr lhs with
      | Etempvar id _ => Sset id (TransformExpr rhs)
      | lhs => Sassign lhs (TransformExpr rhs)
      end
  | Sset id rhs => Sset id (TransformExpr rhs)
  | Scall result f args => Scall result (TransformExpr f) (TransformExpr <$> args)
  | Sbuiltin result b args => Sbuiltin result b (TransformExpr <$> args)
  | Ssequence s1 s2 => Ssequence (TransformStmt s1) (TransformStmt s2)
  | Sifthenelse c s1 s2 => Sifthenelse (TransformExpr c) (TransformStmt s1) (TransformStmt s2)
  | Sloop s1 s2 => Sloop (TransformStmt s1) (TransformStmt s2)
  | Sreturn o => Sreturn (TransformExpr <$> o)
  | Sswitch e cases d hasBreak =>
      Sswitch (TransformExpr e) ((fun c => (c.1, TransformStmt c.2)) <$> cases) (TransformStmt d) hasBreak
  | Slabel l s => Slabel l (TransformStmt s)
  | _ => s
  end.
End Transform.
