(* ===== verification/ClightGen.v ===== *)
(** Clight generation ([src/pkg/clightgen]): statements, functions and programs,
    with the passes [simplexpr] and [simpllocals]. *)

From S2P Require Import Prelude Clight SimplExpr.
From S2P Require Ctypes Cabs SimplLocals.

(** ** Types *)

(** [SizeofType]; it does not align the fields. *)
Fixpoint SizeofType (t : Ctypes.Type_) : Z :=
  let fields_size combine fields :=
    (fix go total (fields : list (string * Ctypes.Type_)) :=
       match fields with [] => total | f :: fields => go (combine total (SizeofType f.2)) fields end) 0 fields in
  match t with
  | Ctypes.Tvoid => 0
  | Ctypes.Tint Ctypes.I8 _ => 1
  | Ctypes.Tint Ctypes.I16 _ => 2
  | Ctypes.Tint (Ctypes.I32 | Ctypes.IBool) _ => 4
  | Ctypes.Tlong _ => 8
  | Ctypes.Tfloat Ctypes.F32 => 4
  | Ctypes.Tfloat Ctypes.F64 => 8
  | Ctypes.Tpointer _ => 8
  | Ctypes.Tarray elem n => i64 (n * match elem with Some elem => SizeofType elem | None => 4 end)
  | Ctypes.Tstruct _ fields => fields_size (fun total n => i64 (total + n)) fields
  | Ctypes.Tunion _ fields => fields_size Z.max fields
  | Ctypes.Tfunction _ _ _ => 4
  end.

(** [strings.TrimSpace], on ASCII strings. *)
Definition is_space (c : Ascii.ascii) : bool := (byte c =? 32) || ((9 <=? byte c) && (byte c <=? 13)).

Fixpoint trim_left (s : string) : string :=
  match s with String c rest => if is_space c then trim_left rest else s | EmptyString => s end.

Fixpoint trim_right (s : string) : string :=
  match s with
  | String c rest =>
      match trim_right rest with
      | EmptyString => if is_space c then EmptyString else String c EmptyString
      | rest => String c rest
      end
  | EmptyString => s
  end.

Definition TrimSpace (s : string) : string := trim_right (trim_left s).

(** [strings.TrimPrefix], when there is the prefix. *)
Definition without_prefix (prefix s : string) : option string :=
  if String.prefix prefix s then Some (String.substring (String.length prefix) (String.length s) s) else None.

(** The default case of [TypeFromString], for strings without stars. *)
Definition tagged_type (s : string) : Ctypes.Type_ :=
  match without_prefix "struct " s, without_prefix "union " s with
  | Some name, _ => Ctypes.Tstruct (TrimSpace name) []
  | _, Some name => Ctypes.Tunion (TrimSpace name) []
  | _, _ => Ctypes.Int
  end.

Fixpoint type_of_string (fuel : nat) (s : string) : Ctypes.Type_ :=
  let s := TrimSpace s in
  match basic_type s with
  | Some t => t
  | None =>
      if bool_decide (last_byte s = Some 42) then
        match fuel with
        | Datatypes.S fuel => Ctypes.Pointer (Some (type_of_string fuel (TrimSpace (String.substring 0 (String.length s - 1) s))))
        | O => Ctypes.Int
        end
      else tagged_type s
  end.

(** [TypeFromString]: the recursion is on shorter strings. *)
Definition TypeFromString (s : string) : Ctypes.Type_ := type_of_string (String.length s) s.

(** ** Statements *)

Definition coerceToType (e : Expr) (target : Ctypes.Type_) : Expr :=
  match target with
  | Ctypes.Tlong _ => match e with Econst_int n _ => Econst_long n (Some target) | _ => e end
  | Ctypes.Tint (Ctypes.I8 | Ctypes.I16) _ =>
      match ExprType e with
      | Some t => if Ctypes.Equal t target then e else Ecast e (Some target)
      | None => e
      end
  | _ => e
  end.

(** The assignments of declarations with initializers. *)
Fixpoint transformDecls (ds : list Cabs.Decl) : SE (list Stmt) :=
  match ds with
  | [] => mret []
  | d :: ds =>
      match Cabs.d_Initializer d with
      | Some init =>
          let typ := TypeFromString (Cabs.d_TypeSpec d) in
          r ← TransformExpr init;
          rest ← transformDecls ds;
          mret (Stmts r ++ Sassign (Evar (Cabs.d_Name d) (Some typ)) (coerceToType (Expr_ r) typ) :: rest)
      | None => transformDecls ds
      end
  end.

(** An expression that may be absent, run for its side effects. *)
Definition transform_opt (o : option Cabs.Expr) : SE Stmt :=
  match o with Some e => r ← TransformExpr e; mret (Seq (Stmts r)) | None => mret Sskip end.

(** [stmts; if (e) body else break] *)
Definition loop_body (stmts : list Stmt) (e : Expr) (body : Stmt) : Stmt :=
  Seq (stmts ++ [Sifthenelse e body Sbreak]).

(** The cases of a switch and its default case, [d] when there is none; a case
    that is not an integer constant is dropped. *)
Definition transform_cases (block : list Cabs.Stmt -> SE (list Stmt)) :
    list (option Cabs.Expr * list Cabs.Stmt) -> Stmt -> SE (list (Z * Stmt) * Stmt) :=
  fix go cases d :=
    match cases with
    | [] => mret ([], d)
    | c :: cases =>
        ts ← block c.2;
        match c.1 with
        | None => go cases (Seq ts)
        | Some (Cabs.Constant n) => cd ← go cases d; mret ((n, Seq ts) :: cd.1, cd.2)
        | Some _ => go cases d
        end
    end.

(** [transformStmt] and [transformBlock] *)
Fixpoint transformStmt (s : Cabs.Stmt) : SE Stmt :=
  match s with
  | Cabs.Return None => mret (Sreturn None)
  | Cabs.Return (Some e) => r ← TransformExpr e; mret (Seq (Stmts r ++ [Sreturn (Some (Expr_ r))]))
  | Cabs.Computation e => r ← TransformExpr e; mret (Seq (Stmts r))
  | Cabs.If c s1 o =>
      r ← TransformExpr c; t1 ← transformStmt s1;
      t2 ← match o with Some s2 => transformStmt s2 | None => mret Sskip end;
      mret (Seq (Stmts r ++ [Sifthenelse (Expr_ r) t1 t2]))
  | Cabs.While c body =>
      r ← TransformExpr c; t ← transformStmt body;
      mret (Sloop (loop_body (Stmts r) (Expr_ r) t) Sskip)
  | Cabs.DoWhile body c =>
      t ← transformStmt body; r ← TransformExpr c;
      mret (Sloop (Seq (t :: Stmts r ++ [Sifthenelse (Eunop Onotbool (Expr_ r) int) Sbreak Sskip])) Sskip)
  | Cabs.For init decls c step body =>
      i ← match init with
          | Some e => r ← TransformExpr e; mret (Seq (Stmts r))
          | None => ts ← transformDecls decls; mret (Seq ts)
          end;
      r ← match c with Some c => TransformExpr c | None => mret (pure (Econst_int 1 int)) end;
      t ← transformStmt body;
      st ← transform_opt step;
      mret (Seq [i; Sloop (loop_body (Stmts r) (Expr_ r) t) st])
  | Cabs.Skip => mret Sskip
  | Cabs.Break => mret Sbreak
  | Cabs.Continue => mret Scontinue
  | Cabs.Switch e cases =>
      r ← TransformExpr e;
      cd ← transform_cases (each transformStmt) cases Sskip;
      mret (Seq (Stmts r ++ [Sswitch (Expr_ r) cd.1 cd.2 false]))
  | Cabs.Goto l => mret (Sgoto l)
  | Cabs.Label l s => t ← transformStmt s; mret (Slabel l t)
  | Cabs.Block ss => ts ← each transformStmt ss; mret (Seq ts)
  | Cabs.DeclStmt ds => ts ← transformDecls ds; mret (Seq ts)
  end.

Definition transformBlock (ss : list Cabs.Stmt) : SE Stmt := transformStmt (Cabs.Block ss).

(** ** Local variables *)

Definition dimension (d : option Cabs.Expr) : Z :=
  match d with Some (Cabs.Constant n) => n | _ => -1 end.

(** The type of a declared variable; the structures are those of the
    transformer. *)
Definition declared_type (defs : gmap string (list Ctypes.Field)) (d : Cabs.Decl) : Ctypes.Type_ :=
  ResolveStruct defs (TypeFromString (Cabs.d_TypeSpec d)).

Definition array_type (dims : list (option Cabs.Expr)) (t : Ctypes.Type_) : Ctypes.Type_ :=
  foldr (fun d t => Ctypes.Tarray (Some t) (dimension d)) t dims.

(** One declaration: the variable gets its type, and is a local. *)
Definition collect_decl (arrays : bool) (acc : list VarDecl * Transformer) (d : Cabs.Decl) : list VarDecl * Transformer :=
  let '(locals, st) := acc in
  let t := declared_type (structDefs st) d in
  let t := if arrays then array_type (Cabs.d_ArrayDims d) t else t in
  (locals ++ [mkVarDecl (Cabs.d_Name d) (Some t) []], SetType (Cabs.d_Name d) t st).

(** [collectLocalsFromStmt] and [collectLocals] *)
Fixpoint collectLocalsFromStmt (s : Cabs.Stmt) (acc : list VarDecl * Transformer) : list VarDecl * Transformer :=
  match s with
  | Cabs.DeclStmt ds => fold_left (collect_decl true) ds acc
  | Cabs.Block ss => fold_left (fun acc s => collectLocalsFromStmt s acc) ss acc
  | Cabs.For _ ds _ _ body => collectLocalsFromStmt body (fold_left (collect_decl false) ds acc)
  | Cabs.While _ body | Cabs.DoWhile body _ => collectLocalsFromStmt body acc
  | Cabs.If _ s1 o =>
      let acc := collectLocalsFromStmt s1 acc in
      match o with Some s2 => collectLocalsFromStmt s2 acc | None => acc end
  | Cabs.Switch _ cases =>
      fold_left (fun acc (c : option Cabs.Expr * list Cabs.Stmt) =>
        fold_left (fun acc s => collectLocalsFromStmt s acc) c.2 acc) cases acc
  | _ => acc
  end.

(** ** Constant initializers *)

(** The [size] low bytes, the lowest first. *)
Fixpoint little_endian (size : nat) (val : Z) : list Z :=
  match size with O => [] | Datatypes.S size => Z.land val 255 :: little_endian size (Z.shiftr val 8) end.

Fixpoint evaluateConstantInitializer (e : Cabs.Expr) (t : Ctypes.Type_) : list Z :=
  let size := Z.to_nat (SizeofType t) in
  match e with
  | Cabs.Paren e => evaluateConstantInitializer e t
  | Cabs.Constant n => little_endian size n
  | Cabs.Unary Cabs.OpNeg (Cabs.Constant n) => little_endian size (i64 (- n))
  | Cabs.Unary Cabs.OpPlus e => evaluateConstantInitializer e t
  | _ => []
  end.

(** ** Functions and programs *)

Section Programs.
  Context `{NameOrder}.

(** The loops that register structures and the types of globals, which range
    over maps; [t] is the number of the loop. *)
Definition register_structs (t : nat) (defs : gmap string (list Ctypes.Field)) (st : Transformer) : Transformer :=
  fold_left (fun st s => SetStructDef s.1 s.2 st) (range_names t defs) st.

Definition register_types (t : nat) (types : gmap string Ctypes.Type_) (st : Transformer) : Transformer :=
  fold_left (fun st x => SetType x.1 x.2 st) (range_names t types) st.

Definition register_params (params : list Cabs.Param) (st : Transformer) : Transformer :=
  fold_left (fun st p => SetType (Cabs.p_Name p) (TypeFromString (Cabs.p_TypeSpec p)) st) params st.

(** The three registrations, done before locals are collected and again before
    the body is transformed. *)
Definition register (t : nat) (defs : gmap string (list Ctypes.Field)) (types : gmap string Ctypes.Type_)
    (params : list Cabs.Param) (st : Transformer) : Transformer :=
  register_params params (register_types (Datatypes.S t) types (register_structs t defs st)).

(** The number of the first temporary after those of the locals. *)
Definition next_temp (infos : list SimplLocals.LocalInfo) : Z :=
  fold_left (fun next i =>
    if SimplLocals.li_Promoted i && (next <=? SimplLocals.li_TempID i) then SimplLocals.li_TempID i + 1 else next) infos 1.

Definition param_decl (p : Cabs.Param) : VarDecl :=
  mkVarDecl (Cabs.p_Name p) (Some (TypeFromString (Cabs.p_TypeSpec p))) [].

(** [translateFunctionWithStructsAndGlobals], of a function with a body. *)
Definition translateFunction (t : nat) (fn : Cabs.FunDef) (body : list Cabs.Stmt)
    (defs : gmap string (list Ctypes.Field)) (types : gmap string Ctypes.Type_) : option Function :=
  let params := Cabs.f_Params fn in
  let st := register t defs types params SimplExpr.New in
  let loc := SimplLocals.AnalyzeFunction fn SimplLocals.New in
  let '(locals, st) := collectLocalsFromStmt (Cabs.Block body) ([], st) in
  let '(infos, loc) := SimplLocals.AnalyzeLocals locals loc in
  let st := register (t + 2) defs types params (SimplExpr.Reset st) in
  '(tbody, st) ← transformBlock body (SetNextTempID (next_temp infos) st);
  Some (mkFunction (Cabs.f_Name fn) (Some (TypeFromString (Cabs.f_ReturnType fn))) (param_decl <$> params)
    (SimplLocals.FilterUnpromotedLocals infos) (SimplLocals.temps loc ++ tempTypes st)
    (SimplLocals.TransformStmt (SimplLocals.varToTemp loc) tbody)).

(** The first pass of [TranslateProgram]: structures and unions. *)
Definition field_of (f : Cabs.StructField) : Ctypes.Field := (Cabs.sf_Name f, TypeFromString (Cabs.sf_TypeSpec f)).

Definition structs_of (p : Cabs.Program) : list (string * list Ctypes.Field) :=
  omap (fun d => match d with Cabs.DStruct name fields => Some (name, field_of <$> fields) | _ => None end) p.

Definition unions_of (p : Cabs.Program) : list (string * list Ctypes.Field) :=
  omap (fun d => match d with Cabs.DUnion name fields => Some (name, field_of <$> fields) | _ => None end) p.

(** The second pass: global variables, and the types of variables and functions. *)
Definition is_declaration (d : Cabs.VarDef) : bool :=
  bool_decide (Cabs.v_StorageClass d = "extern"%string) && bool_decide (Cabs.v_Initializer d = None).

Definition function_type (d : Cabs.FunDef) : Ctypes.Type_ :=
  Ctypes.Tfunction ((fun p => TypeFromString (Cabs.p_TypeSpec p)) <$> Cabs.f_Params d)
    (Some (TypeFromString (Cabs.f_ReturnType d))) false.

Definition global_of (d : Cabs.VarDef) : VarDecl :=
  let typ := TypeFromString (Cabs.v_TypeSpec d) in
  mkVarDecl (Cabs.v_Name d) (Some typ)
    match Cabs.v_Initializer d with Some e => evaluateConstantInitializer e typ | None => [] end.

Definition globals_of (p : Cabs.Program) : list VarDecl :=
  omap (fun d => match d with Cabs.DVar d => if is_declaration d then None else Some (global_of d) | _ => None end) p.

Definition global_types (p : Cabs.Program) : gmap string Ctypes.Type_ :=
  fold_left (fun types d =>
    match d with
    | Cabs.DVar d => if is_declaration d then types else <[Cabs.v_Name d := TypeFromString (Cabs.v_TypeSpec d)]> types
    | Cabs.DFun d => <[Cabs.f_Name d := function_type d]> types
    | _ => types
    end) p ∅.

(** The third pass: the functions with bodies; [t] loops have run. *)
Fixpoint translate_functions (t : nat) (defs : gmap string (list Ctypes.Field)) (types : gmap string Ctypes.Type_)
    (p : list Cabs.Definition_) : option (list Function) :=
  match p with
  | [] => Some []
  | Cabs.DFun fn :: p =>
      match Cabs.f_Body fn with
      | Some body => f ← translateFunction t fn body defs types; fs ← translate_functions (t + 4) defs types p; Some (f :: fs)
      | None => translate_functions t defs types p
      end
  | _ :: p => translate_functions t defs types p
  end.

Definition TranslateProgram (p : Cabs.Program) : option Program :=
  let defs := fold_left (fun defs s => <[s.1 := s.2]> defs) (structs_of p) ∅ in
  functions ← translate_functions 0 defs (global_types p) p;
  Some (mkProgram (structs_of p) (unions_of p) (globals_of p) functions).
End Programs.
