(* ===== verification/CshmgenOps.v ===== *)
(** The choice of operators by type ([src/pkg/cshmgen/operators.go]), the sizes
    and offsets of types ([src/pkg/cshmgen/expr.go]), and what they make of the
    layout of C types. A type may be [nil]. *)

From S2P Require Import Prelude Ctypes Cminor.
From S2P Require Clight Layout.

Abbreviation Type_ := (option Ctypes.Type_) (only parsing).

(** ** Operators *)

Definition translateNeg (t : Type_) : UnaryOp :=
  match t with
  | Some (Tint _ _) => Onegint
  | Some (Tlong _) => Onegl
  | Some (Tfloat F32) => Onegs
  | Some (Tfloat F64) => Onegf
  | _ => Onegint
  end.

Definition translateBitnot (t : Type_) : UnaryOp := match t with Some (Tlong _) => Onotl | _ => Onotint end.

Definition TranslateUnaryOp (op : Clight.UnaryOp) (argType : Type_) : UnaryOp :=
  match op with
  | Clight.Oneg => translateNeg argType
  | Clight.Onotint => translateBitnot argType
  | Clight.Onotbool => Onotbool
  | Clight.Oabsfloat => Onegf
  end.

Definition translateAdd (t : Type_) : BinaryOp :=
  match t with
  | Some (Tint _ _) => Oadd
  | Some (Tlong _) => Oaddl
  | Some (Tfloat F32) => Oadds
  | Some (Tfloat F64) => Oaddf
  | Some (Tpointer _) => Oaddl
  | _ => Oadd
  end.

Definition translateSub (t : Type_) : BinaryOp :=
  match t with
  | Some (Tint _ _) => Osub
  | Some (Tlong _) => Osubl
  | Some (Tfloat F32) => Osubs
  | Some (Tfloat F64) => Osubf
  | Some (Tpointer _) => Osubl
  | _ => Osub
  end.

Definition translateMul (t : Type_) : BinaryOp :=
  match t with
  | Some (Tint _ _) => Omul
  | Some (Tlong _) => Omull
  | Some (Tfloat F32) => Omuls
  | Some (Tfloat F64) => Omulf
  | _ => Omul
  end.

Definition translateDiv (t : Type_) : BinaryOp :=
  match t with
  | Some (Tint _ Unsigned) => Odivu
  | Some (Tint _ Signed) => Odiv
  | Some (Tlong Unsigned) => Odivlu
  | Some (Tlong Signed) => Odivl
  | Some (Tfloat F32) => Odivs
  | Some (Tfloat F64) => Odivf
  | _ => Odiv
  end.

Definition translateMod (t : Type_) : BinaryOp :=
  match t with
  | Some (Tint _ Unsigned) => Omodu
  | Some (Tint _ Signed) => Omod
  | Some (Tlong Unsigned) => Omodlu
  | Some (Tlong Signed) => Omodl
  | _ => Omod
  end.

Definition translateAnd (t : Type_) : BinaryOp := match t with Some (Tlong _) => Oandl | _ => Oand end.
Definition translateOr (t : Type_) : BinaryOp := match t with Some (Tlong _) => Oorl | _ => Oor end.
Definition translateXor (t : Type_) : BinaryOp := match t with Some (Tlong _) => Oxorl | _ => Oxor end.
Definition translateShl (t : Type_) : BinaryOp := match t with Some (Tlong _) => Oshll | _ => Oshl end.

Definition translateShr (t : Type_) : BinaryOp :=
  match t with
  | Some (Tint _ Unsigned) => Oshru
  | Some (Tint _ Signed) => Oshr
  | Some (Tlong Unsigned) => Oshrlu
  | Some (Tlong Signed) => Oshrl
  | _ => Oshr
  end.

Definition isUnsigned (t : Type_) : bool :=
  match t with Some (Tint _ Unsigned) | Some (Tlong Unsigned) => true | _ => false end.

Definition needsUnsignedInt (t : Type_) : bool :=
  match t with Some (Tint I32 Unsigned) | Some (Tlong Unsigned) => true | _ => false end.

Definition translateCmp (t : Type_) : BinaryOp :=
  match t with
  | Some (Tint _ Unsigned) => Ocmpu
  | Some (Tint _ Signed) => Ocmp
  | Some (Tlong Unsigned) => Ocmplu
  | Some (Tlong Signed) => Ocmpl
  | Some (Tfloat F32) => Ocmps
  | Some (Tfloat F64) => Ocmpf
  | Some (Tpointer _) => Ocmplu
  | _ => Ocmp
  end.

Definition is_float (t : Type_) : bool := match t with Some (Tfloat _) => true | _ => false end.
Definition is_pointer (t : Type_) : bool := match t with Some (Tpointer _) => true | _ => false end.
Definition is_long (t : Type_) : bool := match t with Some (Tlong _) => true | _ => false end.

Definition translateCmpBoth (left right : Type_) : BinaryOp :=
  if is_float left then translateCmp left
  else if is_float right then translateCmp right
  else if is_pointer left then Ocmplu
  else if is_pointer right then Ocmplu
  else if is_long left || is_long right then
    if isUnsigned left && isUnsigned right then Ocmplu
    else if (is_long left && isUnsigned left) || (is_long right && isUnsigned right) then Ocmplu
    else Ocmpl
  else if needsUnsignedInt left || needsUnsignedInt right then Ocmpu
  else Ocmp.

Definition TranslateBinaryOp (op : Clight.BinaryOp) (leftType rightType : Type_) : BinaryOp * Comparison :=
  match op with
  | Clight.Oadd => (translateAdd leftType, Ceq)
  | Clight.Osub => (translateSub leftType, Ceq)
  | Clight.Omul => (translateMul leftType, Ceq)
  | Clight.Odiv => (translateDiv leftType, Ceq)
  | Clight.Omod => (translateMod leftType, Ceq)
  | Clight.Oand => (translateAnd leftType, Ceq)
  | Clight.Oor => (translateOr leftType, Ceq)
  | Clight.Oxor => (translateXor leftType, Ceq)
  | Clight.Oshl => (translateShl leftType, Ceq)
  | Clight.Oshr => (translateShr leftType, Ceq)
  | Clight.Oeq => (translateCmpBoth leftType rightType, Ceq)
  | Clight.One => (translateCmpBoth leftType rightType, Cne)
  | Clight.Olt => (translateCmpBoth leftType rightType, Clt)
  | Clight.Ole => (translateCmpBoth leftType rightType, Cle)
  | Clight.Ogt => (translateCmpBoth leftType rightType, Cgt)
  | Clight.Oge => (translateCmpBoth leftType rightType, Cge)
  end.

Definition IsComparisonOp (op : Clight.BinaryOp) : bool :=
  match op with
  | Clight.Oeq | Clight.One | Clight.Olt | Clight.Ogt | Clight.Ole | Clight.Oge => true
  | _ => false
  end.

(** [ctypes.Equal] of types that may be [nil] *)
Definition type_equal (a b : Type_) : bool := equal_opt Equal a b.

(** The conversions in the order of their tests: to small integers, between
    floating-point numbers, from integers to them and back, between integers. *)
Definition cast_small (to : Type_) : option UnaryOp :=
  match to with
  | Some (Tint I8 Signed) => Some Ocast8signed
  | Some (Tint I8 Unsigned) => Some Ocast8unsigned
  | Some (Tint I16 Signed) => Some Ocast16signed
  | Some (Tint I16 Unsigned) => Some Ocast16unsigned
  | _ => None
  end.

Definition cast_floats (from to : FloatSize) : option UnaryOp :=
  match from, to with
  | F64, F32 => Some Osingleoffloat
  | F32, F64 => Some Ofloatofsingle
  | _, _ => None
  end.

Definition cast_to_float (from : Type_) (to : FloatSize) : option UnaryOp :=
  match from, to with
  | Some (Tlong Unsigned), F32 => Some Osingleoflongu
  | Some (Tlong Signed), F32 => Some Osingleoflong
  | Some (Tlong Unsigned), F64 => Some Ofloatoflongu
  | Some (Tlong Signed), F64 => Some Ofloatoflong
  | Some (Tint _ Unsigned), _ => Some Ofloatofintu
  | Some (Tint _ Signed), _ => Some Ofloatofint
  | _, _ => None
  end.

Definition cast_from_float (from : FloatSize) (to : Type_) : option UnaryOp :=
  match from, to with
  | F32, Some (Tlong Unsigned) => Some Olonguofsingle
  | F32, Some (Tlong Signed) => Some Olongofsingle
  | F64, Some (Tlong Unsigned) => Some Olonguoffloat
  | F64, Some (Tlong Signed) => Some Olongoffloat
  | F32, Some (Tint _ _) => Some Ofloatofsingle
  | F64, Some (Tint _ Unsigned) => Some Ointuoffloat
  | F64, Some (Tint _ Signed) => Some Ointoffloat
  | _, _ => None
  end.

Definition cast_ints (from to : Type_) : option UnaryOp :=
  match from, to with
  | Some (Tint _ Unsigned), Some (Tlong _) => Some Olongofintu
  | Some (Tint _ Signed), Some (Tlong _) => Some Olongofint
  | Some (Tlong _), Some (Tint _ _) => Some Ointoflong
  | _, _ => None
  end.

(** [TranslateCast]: no operator when no conversion is needed. *)
Definition TranslateCast (from to : Type_) : option UnaryOp :=
  if type_equal from to then None
  else
    match cast_small to with
    | Some op => Some op
    | None =>
        match from, to with
        | Some (Tfloat ff), Some (Tfloat tf) => cast_floats ff tf
        | _, Some (Tfloat tf) => cast_to_float from tf
        | Some (Tfloat ff), _ => cast_from_float ff to
        | _, _ => cast_ints from to
        end
    end.

(** ** Sizes and offsets *)

Definition alignUp (n align : Z) : Z := if align =? 0 then n else i64 (Z.quot (i64 (i64 (n + align) - 1)) align * align).

(** The loops over the fields of a structure or a union. *)
Definition max_field (measure : Ctypes.Type_ -> Z) : Z -> list (string * Ctypes.Type_) -> Z :=
  fix go acc fields :=
    match fields with
    | [] => acc
    | f :: fields => let a := measure f.2 in go (if acc <? a then a else acc) fields
    end.

Definition end_of_fields (size align : Ctypes.Type_ -> Z) : Z -> list (string * Ctypes.Type_) -> Z :=
  fix go offset fields :=
    match fields with
    | [] => offset
    | f :: fields => go (i64 (alignUp offset (align f.2) + size f.2)) fields
    end.

(** [alignofType], [alignofStruct] and [alignofUnion] *)
Fixpoint alignof (t : Ctypes.Type_) : Z :=
  match t with
  | Tvoid => 1
  | Tint I8 _ => 1
  | Tint I16 _ => 2
  | Tint (I32 | IBool) _ => 4
  | Tlong _ => 8
  | Tfloat F32 => 4
  | Tfloat F64 => 8
  | Tpointer _ => 8
  | Tarray (Some elem) _ => alignof elem
  | Tarray None _ => 4
  | Tstruct _ fields | Tunion _ fields => max_field alignof 1 fields
  | Tfunction _ _ _ => 4
  end.

(** [sizeofType], [sizeofStruct] and [sizeofUnion] *)
Fixpoint sizeof (t : Ctypes.Type_) : Z :=
  match t with
  | Tvoid => 1
  | Tint I8 _ => 1
  | Tint I16 _ => 2
  | Tint (I32 | IBool) _ => 4
  | Tlong _ => 8
  | Tfloat F32 => 4
  | Tfloat F64 => 8
  | Tpointer _ => 8
  | Tarray elem n => if n <? 0 then 0 else i64 (n * match elem with Some elem => sizeof elem | None => 4 end)
  | Tstruct _ fields => alignUp (end_of_fields sizeof alignof 0 fields) (max_field alignof 1 fields)
  | Tunion _ fields => alignUp (max_field sizeof 0 fields) (max_field alignof 1 fields)
  | Tfunction _ _ _ => 4
  end.

Definition sizeofType (t : Type_) : Z := from_option sizeof 4 t.
Definition alignofType (t : Type_) : Z := from_option alignof 4 t.

(** [fieldOffset]: the first field with the name, from [offset] on. *)
Fixpoint field_offset (offset : Z) (fields : list (string * Ctypes.Type_)) (name : string) : option Z :=
  match fields with
  | [] => None
  | f :: fields =>
      let offset := alignUp offset (alignof f.2) in
      if bool_decide (f.1 = name) then Some offset else field_offset (i64 (offset + sizeof f.2)) fields name
  end.

Definition fieldOffset (t : Type_) (fieldName : string) : Z :=
  match t with
  | Some (Tstruct _ fields) => default 0 (field_offset 0 fields fieldName)
  | _ => 0
  end.

(** Induction, with a hypothesis for the type of every field. *)
Section TypeInd.
  Context (P : Ctypes.Type_ -> Prop).
  Context (Hvoid : P Tvoid).
  Context (Hint : forall size sign, P (Tint size sign)).
  Context (Hlong : forall sign, P (Tlong sign)).
  Context (Hfloat : forall size, P (Tfloat size)).
  Context (Hpointer : forall elem, P (Tpointer elem)).
  Context (Harray : forall elem n, (forall t, elem = Some t -> P t) -> P (Tarray elem n)).
  Context (Hfunction : forall ps r v, P (Tfunction ps r v)).
  Context (Hstruct : forall name fields, Forall (fun f => P f.2) fields -> P (Tstruct name fields)).
  Context (Hunion : forall name fields, Forall (fun f => P f.2) fields -> P (Tunion name fields)).

Fixpoint Type_layout_ind (t : Ctypes.Type_) : P t :=
  let fix go (fields : list (string * Ctypes.Type_)) : Forall (fun f => P f.2) fields :=
    match fields with
    | [] => List.Forall_nil _
    | f :: fields => List.Forall_cons _ _ _ (Type_layout_ind f.2) (go fields)
    end in
  match t with
  | Tvoid => Hvoid
  | Tint size sign => Hint size sign
  | Tlong sign => Hlong sign
  | Tfloat size => Hfloat size
  | Tpointer elem => Hpointer elem
  | Tarray (Some elem) n => Harray (Some elem) n (fun t E => match E in _ = o return match o with Some t => P t | None => True end with eq_refl => Type_layout_ind elem end)
  | Tarray None n => Harray None n (fun t E => match E in _ = o return match o with Some t => P t | None => True end with eq_refl => I end)
  | Tfunction ps r v => Hfunction ps r v
  | Tstruct name fields => Hstruct name fields (go fields)
  | Tunion name fields => Hunion name fields (go fields)
  end.
End TypeInd.

(** ** Alignments *)

Definition powers : list Z := [1; 2; 4; 8].

Lemma powers_range a : a ∈ powers -> 0 < a <= 8.
Proof. unfold powers. rewrite !elem_of_cons, elem_of_nil. lia. Qed.

(** The larger of two alignments is a multiple of the other. *)
Lemma powers_divide a b : a ∈ powers -> b ∈ powers -> a <= b -> (a | b).
Proof.
  unfold powers. rewrite !elem_of_cons, !elem_of_nil. intros Ha Hb Hle. exists (b / a).
  destruct Ha as [->|[->|[->|[->|[]]]]], Hb as [->|[->|[->|[->|[]]]]]; reflexivity || lia.
Qed.

Lemma max_field_spec measure fields acc :
  let r := max_field measure acc fields in
  acc <= r /\ (forall f, f ∈ fields -> measure f.2 <= r) /\ (r = acc \/ exists f, f ∈ fields /\ r = measure f.2).
Proof.
  revert acc. induction fields as [|f fields IH]; intros acc; cbn [max_field].
  - split; [lia|]. split; [by intros f H%elem_of_nil|by left].
  - specialize (IH (if acc <? measure f.2 then measure f.2 else acc)). cbn in IH.
    set (r := max_field measure _ fields) in *. destruct IH as (H1 & H2 & H3). split_and!.
    + destruct (Z.ltb_spec acc (measure f.2)); lia.
    + intros g [->|Hg]%elem_of_cons; [|by apply H2]. destruct (Z.ltb_spec acc (measure f.2)); lia.
    + destruct H3 as [H3|(g & Hg & H3)]; [|right; exists g; split; [by right|done]].
      destruct (Z.ltb_spec acc (measure f.2)); [right; exists f; split; [by left|done]|by left].
Qed.

Lemma max_align_powers fields :
  Forall (fun f => alignof f.2 ∈ powers) fields -> max_field alignof 1 fields ∈ powers.
Proof.
  intros H. destruct (max_field_spec alignof fields 1) as (_ & _ & [->|(f & Hf & ->)]); [by left|].
  rewrite Forall_forall in H. by apply H.
Qed.

Lemma alignof_powers t : alignof t ∈ powers.
Proof.
  induction t as [|[] sign|sign|[]|elem|elem n IH|ps r v|name fields IH|name fields IH] using Type_layout_ind;
    try (unfold powers; set_solver); try (by apply max_align_powers).
  destruct elem as [t|]; [exact (IH t eq_refl)|unfold powers; set_solver].
Qed.

Lemma alignUp_up a n :
  a ∈ powers -> 0 <= n < 2 ^ 62 -> n <= alignUp n a <= n + 7 /\ (a | alignUp n a).
Proof.
  intros Ha%powers_range Hn. destruct (Layout.alignUp_spec n a ltac:(lia) ltac:(lia) ltac:(lia)) as [Hm Hb].
  change (Layout.alignUp n a) with (alignUp n a) in *. split; [lia|]. apply Z.mod_divide; [lia|done].
Qed.

(** ** Sizes *)

(** What a type takes with the most padding: under 2^61, nothing overflows. *)
Fixpoint span (t : Ctypes.Type_) : Z :=
  match t with
  | Tarray elem n => Z.max 0 n * match elem with Some elem => span elem | None => 4 end
  | Tstruct _ fields | Tunion _ fields => foldr (fun f s => span f.2 + 7 + s) 7 fields
  | _ => 8
  end.

Definition fields_span (fields : list (string * Ctypes.Type_)) : Z := foldr (fun f s => span f.2 + 7 + s) 7 fields.

Lemma fields_span_nonneg fields : Forall (fun f => 0 <= span f.2) fields -> 7 <= fields_span fields.
Proof. induction 1 as [|f fields Hf _ IH]; cbn; [lia|]. fold (fields_span fields). cbn in Hf. lia. Qed.

Lemma span_nonneg t : 0 <= span t.
Proof.
  induction t as [|[] sign|sign|[]|elem|elem n IH|ps r v|name fields IH|name fields IH] using Type_layout_ind; try (cbn; lia).
  - cbn. destruct elem as [t|]; [specialize (IH t eq_refl)|]; apply Z.mul_nonneg_nonneg; lia.
  - pose proof (fields_span_nonneg fields IH). unfold fields_span in *. cbn. lia.
  - pose proof (fields_span_nonneg fields IH). unfold fields_span in *. cbn. lia.
Qed.

(** *** Fields *)

Definition sized (t : Ctypes.Type_) : Prop := 0 <= sizeof t <= span t /\ (alignof t | sizeof t).

Section Fields.
  Implicit Types (fields : list (string * Ctypes.Type_)).
  Local Abbreviation field_end := (end_of_fields sizeof alignof).

Lemma field_start offset f fields :
  sized f.2 -> 0 <= offset -> offset + fields_span (f :: fields) < 2 ^ 62 -> 7 <= fields_span fields ->
  let start := alignUp offset (alignof f.2) in
  offset <= start /\ (alignof f.2 | start) /\ i64 (start + sizeof f.2) = start + sizeof f.2 /\
  0 <= start + sizeof f.2 /\ start + sizeof f.2 + fields_span fields <= offset + fields_span (f :: fields).
Proof.
  intros [Hs _] Ho Hb Hf start. cbn in Hb. fold (fields_span fields) in Hb.
  destruct (alignUp_up (alignof f.2) offset (alignof_powers _) ltac:(lia)) as [H1 H2]. fold start in H1, H2.
  cbn. fold (fields_span fields). rewrite i64_id by (unfold in_i64; lia). split_and!; try done; lia.
Qed.

Lemma sized_nonneg fields : Forall (fun f => sized f.2) fields -> 7 <= fields_span fields.
Proof. intros _. apply fields_span_nonneg, Forall_forall. intros f _. apply span_nonneg. Qed.

Lemma fields_end fields : forall offset,
  Forall (fun f => sized f.2) fields -> 0 <= offset -> offset + fields_span fields < 2 ^ 62 ->
  offset <= field_end offset fields /\ field_end offset fields + 7 <= offset + fields_span fields.
Proof.
  induction fields as [|f fields IH]; intros offset Hs Ho Hb; [cbn; lia|].
  apply Forall_cons in Hs as [Hf Hs].
  destruct (field_start offset f fields Hf Ho Hb (sized_nonneg fields Hs)) as (H1 & H2 & H3 & H4 & H5).
  cbn [end_of_fields]. rewrite H3. destruct (IH (alignUp offset (alignof f.2) + sizeof f.2) Hs H4 ltac:(lia)) as [H6 H7].
  destruct Hf. lia.
Qed.

(** A field is after what comes before it, aligned, and before the end. *)
Lemma field_placed fields x t : forall offset,
  Forall (fun f => sized f.2) fields -> 0 <= offset -> offset + fields_span fields < 2 ^ 62 ->
  NoDup fields.*1 -> (x, t) ∈ fields ->
  exists ofs, field_offset offset fields x = Some ofs /\ offset <= ofs /\ (alignof t | ofs) /\
    ofs + sizeof t <= field_end offset fields.
Proof.
  induction fields as [|f fields IH]; intros offset Hs Ho Hb Hnd Hin; [by apply elem_of_nil in Hin|].
  apply Forall_cons in Hs as [Hf Hs]. apply NoDup_cons in Hnd as [Hx Hnd].
  destruct (field_start offset f fields Hf Ho Hb (sized_nonneg fields Hs)) as (H1 & H2 & H3 & H4 & H5).
  cbn [field_offset end_of_fields]. rewrite H3. apply elem_of_cons in Hin as [<-|Hin].
  - rewrite bool_decide_true by done. eexists. split; [done|]. split_and!; try done.
    by apply fields_end; [..|lia].
  - rewrite bool_decide_false by (intros <-; apply Hx; by apply (list_elem_of_fmap_2 fst _ (f.1, t))).
    destruct (IH (alignUp offset (alignof f.2) + sizeof f.2) Hs H4 ltac:(lia) Hnd Hin) as (ofs & Ho' & Hle & Hr).
    exists ofs. split; [done|]. destruct Hf. split; [lia|done].
Qed.

(** Fields do not overlap. *)
Lemma fields_apart fields x y tx ty ox oy : forall offset,
  Forall (fun f => sized f.2) fields -> 0 <= offset -> offset + fields_span fields < 2 ^ 62 ->
  NoDup fields.*1 -> (x, tx) ∈ fields -> (y, ty) ∈ fields -> x <> y ->
  field_offset offset fields x = Some ox -> field_offset offset fields y = Some oy ->
  ox + sizeof tx <= oy \/ oy + sizeof ty <= ox.
Proof.
  induction fields as [|f fields IH]; intros offset Hs Ho Hb Hnd Hx Hy Hne Hox Hoy; [by apply elem_of_nil in Hx|].
  apply Forall_cons in Hs as [Hf Hs]. apply NoDup_cons in Hnd as [Hfx Hnd].
  destruct (field_start offset f fields Hf Ho Hb (sized_nonneg fields Hs)) as (H1 & H2 & H3 & H4 & H5).
  cbn [field_offset] in Hox, Hoy. rewrite H3 in Hox, Hoy. set (start := alignUp offset (alignof f.2)) in *.
  assert (Hrest : forall z t oz, (z, t) ∈ fields -> field_offset (start + sizeof f.2) fields z = Some oz -> start + sizeof f.2 <= oz).
  { intros z t oz Hz Hoz. destruct (field_placed fields z t _ Hs H4 ltac:(lia) Hnd Hz) as (o & E & Hle & _). congruence. }
  apply elem_of_cons in Hx as [Ex|Hx], Hy as [Ey|Hy]; try (subst f; cbn [fst snd] in * ).
  - congruence.
  - rewrite bool_decide_true in Hox by done. rewrite bool_decide_false in Hoy by done. injection Hox as <-. left. by eapply Hrest.
  - rewrite bool_decide_true in Hoy by done. rewrite bool_decide_false in Hox by done. injection Hoy as <-. right. by eapply Hrest.
  - rewrite bool_decide_false in Hox by (intros <-; apply Hfx; by apply (list_elem_of_fmap_2 fst _ (f.1, tx))).
    rewrite bool_decide_false in Hoy by (intros <-; apply Hfx; by apply (list_elem_of_fmap_2 fst _ (f.1, ty))).
    apply (IH (start + sizeof f.2)); try done; lia.
Qed.
End Fields.

(** ** Types *)

Lemma field_span f fields : f ∈ fields -> span f.2 + 14 <= fields_span fields.
Proof.
  induction fields as [|g fields IH]; [by intros H%elem_of_nil|]. cbn. fold (fields_span fields).
  pose proof (span_nonneg g.2). assert (7 <= fields_span fields) by (apply fields_span_nonneg, Forall_forall; intros h _; apply span_nonneg).
  intros [->|Hf]%elem_of_cons; [lia|]. specialize (IH Hf). lia.
Qed.

Lemma sized_struct fields name :
  Forall (fun f => sized f.2) fields -> fields_span fields < 2 ^ 61 -> sized (Tstruct name fields).
Proof.
  intros Hs Hb. destruct (fields_end fields 0 Hs ltac:(lia) ltac:(lia)) as [H1 H2].
  unfold sized. change (span (Tstruct name fields)) with (fields_span fields). cbn [sizeof alignof].
  destruct (alignUp_up (max_field alignof 1 fields) (end_of_fields sizeof alignof 0 fields)) as [H3 H4]; [|lia|split; [lia|done]].
  apply max_align_powers, Forall_forall. intros f _. apply alignof_powers.
Qed.

Lemma sized_union fields name :
  Forall (fun f => sized f.2) fields -> fields_span fields < 2 ^ 61 -> sized (Tunion name fields).
Proof.
  intros Hs Hb. assert (H : 0 <= max_field sizeof 0 fields /\ max_field sizeof 0 fields + 7 <= fields_span fields).
  { pose proof (sized_nonneg fields Hs). destruct (max_field_spec sizeof fields 0) as (H1 & _ & [H2|(f & Hf & H2)]); [rewrite H2 in *; lia|].
    rewrite Forall_forall in Hs. destruct (Hs f Hf) as [Hsf _]. pose proof (field_span f fields Hf). lia. }
  unfold sized. change (span (Tunion name fields)) with (fields_span fields). cbn [sizeof alignof].
  destruct (alignUp_up (max_field alignof 1 fields) (max_field sizeof 0 fields)) as [H3 H4]; [|lia|split; [lia|done]].
  apply max_align_powers, Forall_forall. intros f _. apply alignof_powers.
Qed.

Lemma fields_sized fields :
  Forall (fun f => span f.2 < 2 ^ 61 -> sized f.2) fields -> fields_span fields < 2 ^ 61 -> Forall (fun f => sized f.2) fields.
Proof.
  intros IH Hb. rewrite Forall_forall in IH |- *. intros f Hf. apply IH; [done|]. pose proof (field_span f fields Hf). lia.
Qed.

Lemma sized_ok t : span t < 2 ^ 61 -> sized t.
Proof.
  induction t as [|[] sign|sign|[]|elem|elem n IH|ps r v|name fields IH|name fields IH] using Type_layout_ind; intros Hb;
    try (split; [cbn; lia|cbn; apply Z.divide_refl]).
  - unfold sized. cbn [span sizeof alignof] in *. destruct (Z.ltb_spec n 0).
    { split; [|by apply Z.divide_0_r]. apply (conj (Z.le_refl 0)). apply Z.mul_nonneg_nonneg; [lia|]. destruct elem; [apply span_nonneg|lia]. }
    rewrite Z.max_r in * by lia. destruct (decide (n = 0)) as [->|Hn].
    { rewrite !Z.mul_0_l. change (i64 0) with 0. split; [lia|apply Z.divide_0_r]. }
    destruct elem as [t|].
    + destruct (IH t eq_refl) as [Hs Hd]; [pose proof (span_nonneg t); nia|]. rewrite i64_id by (unfold in_i64; nia).
      split; [nia|by apply Z.divide_mul_r].
    + rewrite i64_id by (unfold in_i64; lia). split; [lia|]. cbn. apply Z.divide_factor_r.
  - apply sized_struct; [by apply fields_sized|done].
  - apply sized_union; [by apply fields_sized|done].
Qed.

(** C34. The layout of a structure that does not fill the address space, padding
    included: every field is aligned for its type and lies inside the structure,
    whose alignment is enough for it; no two fields overlap; and the size is a
    multiple of the alignment, so that the elements of an array are aligned. *)
Theorem struct_layout name fields :
  span (Tstruct name fields) < 2 ^ 61 -> NoDup fields.*1 ->
  let t := Tstruct name fields in let place x := fieldOffset (Some t) x in
  (alignof t | sizeof t) /\
  (forall x tx, (x, tx) ∈ fields ->
     0 <= place x /\ (alignof tx | place x) /\ (alignof tx | alignof t) /\ place x + sizeof tx <= sizeof t) /\
  (forall x y tx ty, (x, tx) ∈ fields -> (y, ty) ∈ fields -> x <> y ->
     place x + sizeof tx <= place y \/ place y + sizeof ty <= place x).
Proof.
  intros Hb Hnd t place. destruct (sized_ok t Hb) as [_ Hdiv].
  assert (Hs : Forall (fun f => sized f.2) fields).
  { apply fields_sized; [|done]. apply Forall_forall. intros f _. apply sized_ok. }
  change (span (Tstruct name fields)) with (fields_span fields) in Hb.
  assert (Hp : forall x tx, (x, tx) ∈ fields -> field_offset 0 fields x = Some (place x) /\ 0 <= place x /\ (alignof tx | place x) /\
    place x + sizeof tx <= end_of_fields sizeof alignof 0 fields).
  { intros x tx Hx. destruct (field_placed fields x tx 0 Hs ltac:(lia) ltac:(lia) Hnd Hx) as (ofs & E & H).
    assert (place x = ofs) as -> by (unfold place; cbn; by rewrite E). done. }
  split; [done|]. split.
  - intros x tx Hx. destruct (Hp x tx Hx) as (_ & H1 & H2 & H3). split; [done|]. split; [done|]. split.
    + apply powers_divide; [apply alignof_powers..|]. cbn. by apply (proj1 (proj2 (max_field_spec alignof fields 1)) (x, tx)).
    + destruct (fields_end fields 0 Hs ltac:(lia) ltac:(lia)) as [H4 H5]. cbn [sizeof t].
      destruct (alignUp_up (max_field alignof 1 fields) (end_of_fields sizeof alignof 0 fields)) as [H6 _]; [|lia|lia].
      apply max_align_powers, Forall_forall. intros f _. apply alignof_powers.
  - intros x y tx ty Hx Hy Hne. destruct (Hp x tx Hx) as (Ex & _), (Hp y ty Hy) as (Ey & _).
    by apply (fields_apart fields x y tx ty _ _ 0 Hs ltac:(lia) ltac:(lia) Hnd Hx Hy).
Qed.

(** [struct { char c; double d; short s[3]; int i; }] *)
Definition example_fields : list (string * Ctypes.Type_) :=
  [("c"%string, Char); ("d"%string, Double); ("s"%string, Tarray (Some Short) 3); ("i"%string, Int)].

Lemma struct_layout_witness :
  let t := Tstruct "example" example_fields in
  sizeof t = 32 /\ fieldOffset (Some t) "s" = 16 /\ fieldOffset (Some t) "i" = 24 /\ (alignof t | sizeof t).
Proof.
  split; [reflexivity|]. split; [reflexivity|]. split; [reflexivity|].
  apply (struct_layout "example" example_fields); [vm_compute; reflexivity|]. apply (bool_decide_unpack _). by vm_compute.
Defined.
