(* ===== verification/Cshmgen.v ===== *)
(** Csharpminor generation ([src/pkg/cshmgen]): Clight to Csharpminor. Operators
    get the types of their operands, reads of memory become loads, fields
    become offsets, loops become blocks with exits, and parameters that are
    assigned get a temporary. *)

From stdpp Require Import pretty.
From S2P Require Import Prelude Target CshmgenOps.
From S2P Require Structured Ctypes Clight Cminor Csharpminor.

Import Csharpminor.
#[local] Existing Instance Cminor.BinaryOp_eq_dec.

(** ** State *)

Record StringLiteral := mkStringLiteral {
  Label : string;
  Value : string
}.

(** What the translators change: the string literals so far ([ExprTranslator]),
    and the temporaries that shadow parameters ([StmtTranslator]). The depths
    that [StmtTranslator] keeps are never read. *)
Record translators := mkTranslators {
  stringCounter : Z;
  strings : list StringLiteral;
  paramTemps : gmap string Z;
  nextTempID : Z
}.

(** Code that may panic and changes the translators. *)
Definition CM (A : Type) : Type := translators -> option (A * translators).

#[export] Instance CM_ret : MRet CM := fun A a st => Some (a, st).
#[export] Instance CM_bind : MBind CM := fun A B f x st => '(a, st) ← x st; f a st.

Definition panic {A} : CM A := fun _ => None.

(** ** Expressions *)

Section Expressions.
  (* the shadow temporaries of the expression translator *)
  Context (exprTemps : gmap string Z).

Definition translateConstInt (value : Z) (t : Type_) : Expr :=
  if is_long t then Econst (Olongconst value)
  else if (value <? -2147483648) || (2147483647 <? value) then Econst (Olongconst value)
  else Econst (Ointconst (i32 value)).

(** [fmt.Sprintf(".Lstr%d", n)] *)
Definition string_label (n : Z) : string := (".Lstr" +:+ pretty n)%string.

Definition translateString (value : string) : CM Expr := fun st =>
  let label := string_label (stringCounter st) in
  Some (Econst (Oaddrsymbol label 0),
    mkTranslators (stringCounter st + 1) (strings st ++ [mkStringLiteral label value]) (paramTemps st) (nextTempID st)).

Definition translateVar (x : string) : Expr :=
  match exprTemps !! x with Some id => Etempvar id | None => Evar x end.

Definition extendToLong (e : Expr) (t : Type_) (signedExtend : bool) : Expr :=
  match t with
  | Some (Ctypes.Tlong _) => e
  | Some (Ctypes.Tint _ Ctypes.Unsigned) => Eunop Cminor.Olongofintu e
  | _ => if signedExtend then Eunop Cminor.Olongofint e else Eunop Cminor.Olongofintu e
  end.

(** The end of [translateBinop]. *)
Definition binop (op : Clight.BinaryOp) (leftType rightType : Type_) (left right : Expr) : Expr :=
  let '(op', cmp) := TranslateBinaryOp op leftType rightType in
  if IsComparisonOp op then
    let signed := bool_decide (op' = Cminor.Ocmpl) in
    if signed || bool_decide (op' = Cminor.Ocmplu) then
      Ecmp op' cmp (extendToLong left leftType signed) (extendToLong right rightType signed)
    else Ecmp op' cmp left right
  else Ebinop op' left right.

Definition cast (from to : Type_) (arg : Expr) : Expr :=
  match TranslateCast from to with Some op => Eunop op arg | None => arg end.

(** The end of [TranslateFieldAddr]. *)
Definition add_offset (base : Expr) (offset : Z) : Expr :=
  if offset =? 0 then base else Ebinop Cminor.Oaddl base (Econst (Olongconst offset)).

(** [ChunkForType] of a type that may be [nil] *)
Definition chunk_for (t : Type_) : Chunk := from_option ChunkForType Many32 t.

(** [translateAddrof] and [translateLvalueAddr] do the same. *)
Fixpoint TranslateExpr (e : Clight.Expr) : CM Expr :=
  match e with
  | Clight.Econst_int n t => mret (translateConstInt n t)
  | Clight.Econst_long n _ => mret (Econst (Olongconst n))
  | Clight.Econst_float b _ => mret (Econst (Ofloatconst b))
  | Clight.Econst_single b _ => mret (Econst (Osingleconst b))
  | Clight.Estring s _ => translateString s
  | Clight.Evar x _ => mret (translateVar x)
  | Clight.Etempvar id _ => mret (Etempvar id)
  | Clight.Eunop op a _ => arg ← TranslateExpr a; mret (Eunop (TranslateUnaryOp op (Clight.ExprType a)) arg)
  | Clight.Ebinop op l r _ =>
      left ← TranslateExpr l; right ← TranslateExpr r;
      mret (binop op (Clight.ExprType l) (Clight.ExprType r) left right)
  | Clight.Ecast a t => arg ← TranslateExpr a; mret (cast (Clight.ExprType a) t arg)
  | Clight.Ederef p t => addr ← TranslateExpr p; mret (Eload (chunk_for t) addr)
  | Clight.Eaddrof a _ => translateLvalueAddr a
  | Clight.Efield a f t =>
      base ← translateLvalueAddr a; mret (Eload (chunk_for t) (add_offset base (fieldOffset (Clight.ExprType a) f)))
  | Clight.Esizeof t _ => mret (Econst (Ointconst (i32 (sizeofType t))))
  | Clight.Ealignof t _ => mret (Econst (Ointconst (i32 (alignofType t))))
  end
with translateLvalueAddr (e : Clight.Expr) : CM Expr :=
  match e with
  | Clight.Evar x _ => mret (Eaddrof x)
  | Clight.Ederef p _ => TranslateExpr p
  | Clight.Efield a f _ => base ← translateLvalueAddr a; mret (add_offset base (fieldOffset (Clight.ExprType a) f))
  | _ => panic
  end.

Fixpoint TranslateExprs (es : list Clight.Expr) : CM (list Expr) :=
  match es with
  | [] => mret []
  | e :: es => a ← TranslateExpr e; args ← TranslateExprs es; mret (a :: args)
  end.

(** ** Statements *)

Section Statements.
  (* the names of the parameters *)
  Context (params : gset string).

Definition getOrCreateParamTemp (x : string) : CM Z := fun st =>
  match paramTemps st !! x with
  | Some id => Some (id, st)
  | None =>
      let id := nextTempID st in
      Some (id, mkTranslators (stringCounter st) (strings st) (<[x := id]> (paramTemps st)) (id + 1))
  end.

(** The parameter that an assignment changes. *)
Definition assigned_param (lhs : Clight.Expr) : option string :=
  match lhs with Clight.Evar x _ => if decide (x ∈ params) then Some x else None | _ => None end.

Definition translateAssign (lhs rhs : Clight.Expr) : CM Stmt :=
  value ← TranslateExpr rhs;
  match assigned_param lhs with
  | Some x => id ← getOrCreateParamTemp x; mret (Structured.Sassign id value)
  | None => addr ← translateLvalueAddr lhs; mret (Structured.Sstore (chunk_for (Clight.ExprType lhs)) addr value)
  end.

Definition translateCall (r : option Z) (f : Clight.Expr) (args : list Clight.Expr) : CM Stmt :=
  fn ← TranslateExpr f; args ← TranslateExprs args; mret (Structured.Scall r None fn args).

Definition translateBuiltin (r : option Z) (b : string) (args : list Clight.Expr) : CM Stmt :=
  args ← TranslateExprs args; mret (Structured.Sbuiltin r b args).

(** The end of [translateLoop]. *)
Definition loop_code (body continueStmt : Stmt) : Stmt :=
  Structured.Sblock (Structured.Sloop (Structured.Seq [Structured.Sblock body; continueStmt])).

Fixpoint TranslateStmt (s : Clight.Stmt) : CM Stmt :=
  match s with
  | Clight.Sskip => mret Structured.Sskip
  | Clight.Sassign l r => translateAssign l r
  | Clight.Sset id r => rhs ← TranslateExpr r; mret (Structured.Sassign id rhs)
  | Clight.Scall r f args => translateCall r f args
  | Clight.Sbuiltin r b args => translateBuiltin r b args
  | Clight.Ssequence s1 s2 => first ← TranslateStmt s1; second ← TranslateStmt s2; mret (Structured.Sseq first second)
  | Clight.Sifthenelse c s1 s2 =>
      cond ← TranslateExpr c; thenStmt ← TranslateStmt s1; elseStmt ← TranslateStmt s2;
      mret (Structured.Sifthenelse cond thenStmt elseStmt)
  | Clight.Sloop s1 s2 => body ← TranslateStmt s1; continueStmt ← TranslateStmt s2; mret (loop_code body continueStmt)
  | Clight.Sbreak => mret (Structured.Sexit 1)
  | Clight.Scontinue => mret (Structured.Sexit 0)
  | Clight.Sreturn None => mret (Structured.Sreturn None)
  | Clight.Sreturn (Some e) => value ← TranslateExpr e; mret (Structured.Sreturn (Some value))
  | Clight.Sswitch e cases d _ =>
      expr ← TranslateExpr e;
      cases ← (fix go cases :=
        match cases with
        | [] => mret []
        | c :: cases => body ← TranslateStmt c.2; cases ← go cases; mret ((c.1, body) :: cases)
        end) cases;
      defaultStmt ← TranslateStmt d;
      mret (Structured.Sswitch (is_long (Clight.ExprType e)) expr cases defaultStmt)
  | Clight.Slabel l s => body ← TranslateStmt s; mret (Structured.Slabel l body)
  | Clight.Sgoto l => mret (Structured.Sgoto l)
  end.
End Statements.
End Expressions.

(** ** Functions *)

(** [scanForModifiedParams] adds to the set [modified]. *)
Fixpoint scanForModifiedParams (params : gset string) (s : Clight.Stmt) (modified : gset string) : gset string :=
  match s with
  | Clight.Sassign (Clight.Evar x _) _ => if decide (x ∈ params) then {[x]} ∪ modified else modified
  | Clight.Ssequence s1 s2 | Clight.Sifthenelse _ s1 s2 | Clight.Sloop s1 s2 =>
      scanForModifiedParams params s2 (scanForModifiedParams params s1 modified)
  | Clight.Sswitch _ cases d _ =>
      scanForModifiedParams params d (fold_left (fun modified c => scanForModifiedParams params c.2 modified) cases modified)
  | Clight.Slabel _ s => scanForModifiedParams params s modified
  | _ => modified
  end.

(** A set of names, ranged over. *)
Definition range_set `{NameOrder} (t : nat) (X : gset string) : list string := (range_names t (gset_to_gmap () X)).*1.

Definition findModifiedParams `{NameOrder} (body : Clight.Stmt) (params : list string) : list string :=
  range_set 0 (scanForModifiedParams (list_to_set params) body ∅).

(** Numbering the modified parameters. *)
Definition shadow_temps (names : list string) (next : Z) : gmap string Z * Z :=
  fold_left (fun '(temps, next) x => (<[x := next]> temps, next + 1)) names (∅, next).

Definition resolveStructType (t : Type_) (defs : gmap string (list Ctypes.Field)) : Type_ :=
  match t with
  | Some (Ctypes.Tstruct name _) =>
      match defs !! name with Some fields => Some (Ctypes.Tstruct name fields) | None => t end
  | _ => t
  end.

Definition isSignedType (t : Type_) : bool :=
  match t with Some (Ctypes.Tint _ Ctypes.Unsigned) | Some (Ctypes.Tlong Ctypes.Unsigned) => false | _ => true end.

Definition translate_decl (defs : gmap string (list Ctypes.Field)) (d : Clight.VarDecl) (init : list Z) : VarDecl :=
  let typ := resolveStructType (Clight.vd_Type d) defs in
  mkVarDecl (Clight.vd_Name d) (sizeofType typ) init false (isSignedType typ).

(** The types of the temporaries: those of the function, and those of the
    parameters that are shadowed. *)
Definition all_temp_types (fn : Clight.Function) (temps : gmap string Z) (next : Z) : list Type_ :=
  let types := Clight.fn_Temps fn ++ replicate (Z.to_nat next - length (Clight.fn_Temps fn)) None in
  let paramTypes : gmap string Type_ :=
    fold_left (fun m p => <[Clight.vd_Name p := Clight.vd_Type p]> m) (Clight.fn_Params fn) ∅ in
  map_fold (fun x id types =>
    match paramTypes !! x with Some t => <[Z.to_nat id := t]> types | None => types end) types temps.

(** [translateFunctionWithStructs]: the translators come in with the literals of
    the functions before, and go out with those of this one too. *)
Definition translateFunctionWithStructs `{NameOrder} (fn : Clight.Function) (defs : gmap string (list Ctypes.Field))
    : CM Function := fun st =>
  let sig := mkSig (Clight.vd_Type <$> Clight.fn_Params fn) (Clight.fn_Return fn) false in
  let locals := (fun l => translate_decl defs l []) <$> Clight.fn_Locals fn in
  let params := Clight.vd_Name <$> Clight.fn_Params fn in
  let modifiedParams := findModifiedParams (Clight.fn_Body fn) params in
  let '(temps, next) := shadow_temps modifiedParams (Z.of_nat (length (Clight.fn_Temps fn))) in
  '(body, st') ← TranslateStmt temps (list_to_set params) (Clight.fn_Body fn)
    (mkTranslators (stringCounter st) (strings st) temps next);
  let initStmts := (fun xid => Structured.Sassign xid.2 (Evar xid.1)) <$> range_names 1 temps in
  let body := if decide (temps = ∅) then body else Structured.Seq (initStmts ++ [body]) in
  Some (mkFunction (Clight.fn_Name fn) sig params locals (all_temp_types fn temps next) body,
    mkTranslators (stringCounter st') (strings st') ∅ 0).

(** ** Programs *)

(** The bytes of a literal, with the terminator. *)
Definition string_data (s : string) : list Z :=
  ((fun c => Z.of_nat (Ascii.nat_of_ascii c)) <$> String.list_ascii_of_string s) ++ [0].

Definition string_global (l : StringLiteral) : VarDecl :=
  let data := string_data (Value l) in mkVarDecl (Label l) (Z.of_nat (length data)) data true false.

Fixpoint translate_functions `{NameOrder} (defs : gmap string (list Ctypes.Field)) (fns : list Clight.Function)
    : CM (list Function) :=
  match fns with
  | [] => mret []
  | fn :: fns => f ← translateFunctionWithStructs fn defs; fs ← translate_functions defs fns; mret (f :: fs)
  end.

Definition NewExprTranslator : translators := mkTranslators 0 [] ∅ 0.

Definition TranslateProgram `{NameOrder} (prog : Clight.Program) : option Program :=
  let structDefs := fold_left (fun defs s => <[s.1 := s.2]> defs) (Clight.Structs prog) ∅ in
  let globals := (fun g => translate_decl structDefs g (Clight.vd_Init g)) <$> Clight.Globals prog in
  '(functions, st) ← translate_functions structDefs (Clight.Functions prog) NewExprTranslator;
  Some (mkProgram (globals ++ (string_global <$> strings st)) functions).
