(* ===== verification/ClightSem.v ===== *)
(** Execution of Clight functions. Operators work at the types of their operands:
    after the usual arithmetic conversions they are operators of Cminor, and
    conversions are sequences of such operators. Statements run with a stack of
    what is left to do. *)

From S2P Require Import Prelude Target IntOps Semantics RtlSem Structured Values CminorSem CshmgenOps Clight.
From S2P Require Ctypes Cminor.

#[local] Existing Instance Cminor.UnaryOp_eq_dec.
#[local] Existing Instance Cminor.BinaryOp_eq_dec.
#[local] Existing Instance Cminor.Comparison_eq_dec.

(** ** Types *)

Section Types.
Import Ctypes.

(** The arithmetic types, after promotion of the small integers. *)
Inductive arith := AInt (unsigned : bool) | ALong (unsigned : bool) | ASingle | ADouble.

Definition unsigned (t : option Ctypes.Type_) : bool :=
  match t with Some (Tint _ Unsigned) | Some (Tlong Unsigned) => true | _ => false end.

Definition promoted (t : option Ctypes.Type_) : option arith :=
  match t with
  | Some (Tint I32 s) => Some (AInt (unsigned t))
  | Some (Tint _ _) => Some (AInt false)
  | Some (Tlong s) => Some (ALong (unsigned t))
  | Some (Tfloat F32) => Some ASingle
  | Some (Tfloat F64) => Some ADouble
  | _ => None
  end.

(** The usual arithmetic conversions. *)
Definition common (a b : arith) : arith :=
  match a, b with
  | ADouble, _ | _, ADouble => ADouble
  | ASingle, _ | _, ASingle => ASingle
  | ALong u1, ALong u2 => ALong (u1 || u2)
  | ALong u, AInt _ | AInt _, ALong u => ALong u
  | AInt u1, AInt u2 => AInt (u1 || u2)
  end.

(** How an object of a type is accessed. *)
Inductive mode := ByValue (chunk : Chunk) | ByReference | ByNothing.

Definition access_mode (t : option Ctypes.Type_) : mode :=
  match t with
  | Some (Tint I8 Signed) => ByValue Mint8signed
  | Some (Tint I8 Unsigned) => ByValue Mint8unsigned
  | Some (Tint I16 Signed) => ByValue Mint16signed
  | Some (Tint I16 Unsigned) => ByValue Mint16unsigned
  | Some (Tint (I32 | IBool) _) => ByValue Mint32
  | Some (Tlong _) => ByValue Mint64
  | Some (Tfloat F32) => ByValue Mfloat32
  | Some (Tfloat F64) => ByValue Mfloat64
  | Some (Tpointer _) => ByValue Mint64
  | Some (Tarray _ _) | Some (Tfunction _ _ _) | Some (Tstruct _ _) | Some (Tunion _ _) => ByReference
  | _ => ByNothing
  end.

Definition pointed_to (t : option Ctypes.Type_) : option (option Ctypes.Type_) :=
  match t with Some (Tpointer elem) => Some elem | _ => None end.

Definition is_bool (t : option Ctypes.Type_) : bool := match t with Some (Tint IBool _) => true | _ => false end.
Definition is_int (t : option Ctypes.Type_) : bool := match t with Some (Tint _ _) => true | _ => false end.

(** Where a field is in a structure or a union. *)
Definition field_place (t : option Ctypes.Type_) (name : string) : option Z :=
  match t with
  | Some (Tstruct _ fields) => field_offset 0 fields name
  | Some (Tunion _ fields) => if decide (name ∈ fields.*1) then Some 0 else None
  | _ => None
  end.

(** The last step of a conversion, to a small integer. *)
Definition narrowing (t : option Ctypes.Type_) : list Cminor.UnaryOp :=
  match t with
  | Some (Tint I8 Signed) => [Cminor.Ocast8signed]
  | Some (Tint I8 Unsigned) => [Cminor.Ocast8unsigned]
  | Some (Tint I16 Signed) => [Cminor.Ocast16signed]
  | Some (Tint I16 Unsigned) => [Cminor.Ocast16unsigned]
  | _ => []
  end.
End Types.

(** ** Conversions *)

(** From [a] to [b]; [u] tells whether the type before promotion is unsigned. *)
Definition arith_conversion (u : bool) (a b : arith) : list Cminor.UnaryOp :=
  match a, b with
  | AInt _, AInt _ | ALong _, ALong _ | ASingle, ASingle | ADouble, ADouble => []
  | AInt _, ALong _ => [if u then Cminor.Olongofintu else Cminor.Olongofint]
  | AInt _, ADouble => [if u then Cminor.Ofloatofintu else Cminor.Ofloatofint]
  | AInt _, ASingle => [if u then Cminor.Ofloatofintu else Cminor.Ofloatofint; Cminor.Osingleoffloat]
  | ALong _, AInt _ => [Cminor.Ointoflong]
  | ALong _, ADouble => [if u then Cminor.Ofloatoflongu else Cminor.Ofloatoflong]
  | ALong _, ASingle => [if u then Cminor.Osingleoflongu else Cminor.Osingleoflong]
  | ASingle, ADouble => [Cminor.Ofloatofsingle]
  | ADouble, ASingle => [Cminor.Osingleoffloat]
  | ASingle, AInt v => [Cminor.Ofloatofsingle; if v : bool then Cminor.Ointuoffloat else Cminor.Ointoffloat]
  | ADouble, AInt v => [if v : bool then Cminor.Ointuoffloat else Cminor.Ointoffloat]
  | ASingle, ALong v => [if v : bool then Cminor.Olonguofsingle else Cminor.Olongofsingle]
  | ADouble, ALong v => [if v : bool then Cminor.Olonguoffloat else Cminor.Olongoffloat]
  end.

Definition conversion (t : Type_) (b : arith) : option (list Cminor.UnaryOp) :=
  (fun a => arith_conversion (unsigned t) a b) <$> promoted t.

Definition is_array (t : Type_) : bool := match t with Some (Ctypes.Tarray _ _) => true | _ => false end.

(** To an address: pointers and arrays are, and an integer is extended. *)
Definition to_address (t : Type_) : option (list Cminor.UnaryOp) :=
  if is_pointer t || is_array t then Some []
  else match promoted t with Some (AInt _) | Some (ALong _) => conversion t (ALong true) | _ => None end.

(** The conversion of a cast, to other types than [_Bool]. *)
Definition cast_conversion (from to : Type_) : option (list Cminor.UnaryOp) :=
  if type_equal from to then Some []
  else if is_pointer to then to_address from
  else
    b ← promoted to;
    ops ← (if is_pointer from then
             match b with AInt _ | ALong _ => Some (arith_conversion true (ALong true) b) | _ => None end
           else conversion from b);
    Some (ops ++ narrowing to).

(** ** Operators *)

(** An operator at a common type. *)
Definition arith_op (op : BinaryOp) (a : arith) : option Cminor.BinaryOp :=
  match op, a with
  | Oadd, AInt _ => Some Cminor.Oadd | Oadd, ALong _ => Some Cminor.Oaddl
  | Oadd, ASingle => Some Cminor.Oadds | Oadd, ADouble => Some Cminor.Oaddf
  | Osub, AInt _ => Some Cminor.Osub | Osub, ALong _ => Some Cminor.Osubl
  | Osub, ASingle => Some Cminor.Osubs | Osub, ADouble => Some Cminor.Osubf
  | Omul, AInt _ => Some Cminor.Omul | Omul, ALong _ => Some Cminor.Omull
  | Omul, ASingle => Some Cminor.Omuls | Omul, ADouble => Some Cminor.Omulf
  | Odiv, AInt u => Some (if u : bool then Cminor.Odivu else Cminor.Odiv)
  | Odiv, ALong u => Some (if u : bool then Cminor.Odivlu else Cminor.Odivl)
  | Odiv, ASingle => Some Cminor.Odivs | Odiv, ADouble => Some Cminor.Odivf
  | Omod, AInt u => Some (if u : bool then Cminor.Omodu else Cminor.Omod)
  | Omod, ALong u => Some (if u : bool then Cminor.Omodlu else Cminor.Omodl)
  | Oand, AInt _ => Some Cminor.Oand | Oand, ALong _ => Some Cminor.Oandl
  | Oor, AInt _ => Some Cminor.Oor | Oor, ALong _ => Some Cminor.Oorl
  | Oxor, AInt _ => Some Cminor.Oxor | Oxor, ALong _ => Some Cminor.Oxorl
  | Oshl, AInt _ => Some Cminor.Oshl | Oshl, ALong _ => Some Cminor.Oshll
  | Oshr, AInt u => Some (if u : bool then Cminor.Oshru else Cminor.Oshr)
  | Oshr, ALong u => Some (if u : bool then Cminor.Oshrlu else Cminor.Oshrl)
  | _, _ => None
  end.

Definition comparison_at (a : arith) : Cminor.BinaryOp :=
  match a with
  | AInt u => if u : bool then Cminor.Ocmpu else Cminor.Ocmp
  | ALong u => if u : bool then Cminor.Ocmplu else Cminor.Ocmpl
  | ASingle => Cminor.Ocmps
  | ADouble => Cminor.Ocmpf
  end.

Definition comparison_of (op : BinaryOp) : option Cminor.Comparison :=
  match op with
  | Oeq => Some Cminor.Ceq | One => Some Cminor.Cne | Olt => Some Cminor.Clt
  | Ogt => Some Cminor.Cgt | Ole => Some Cminor.Cle | Oge => Some Cminor.Cge
  | _ => None
  end.

(** What a binary operator does: convert the operands, then compute or compare. *)
Record plan := mkPlan {
  plan_left : list Cminor.UnaryOp;
  plan_right : list Cminor.UnaryOp;
  plan_op : Cminor.BinaryOp;
  plan_cmp : option Cminor.Comparison
}.

#[export] Instance plan_eq_dec : EqDecision plan.
Proof. solve_decision. Defined.

(** Operators without pointers, and comparisons. Shifts have the type of their
    left operand; a small unsigned integer is not negative, so that its shift
    to the right is a logical one too. *)
Definition binop_plan (op : BinaryOp) (t1 t2 : Type_) : option plan :=
  match comparison_of op with
  | Some c =>
      if is_pointer t1 || is_pointer t2 then
        l ← to_address t1; r ← to_address t2; Some (mkPlan l r Cminor.Ocmplu (Some c))
      else
        a1 ← promoted t1; a2 ← promoted t2; let a := common a1 a2 in
        l ← conversion t1 a; r ← conversion t2 a; Some (mkPlan l r (comparison_at a) (Some c))
  | None =>
      if is_pointer t1 || is_pointer t2 then None
      else
        a1 ← promoted t1; a2 ← promoted t2;
        match op, a1, a2 with
        | (Oshl | Oshr), (AInt _ | ALong _), (AInt _ | ALong _) =>
            op' ← arith_op op (match a1 with AInt _ => AInt (unsigned t1) | a => a end); Some (mkPlan [] [] op' None)
        | (Oshl | Oshr), _, _ => None
        | _, _, _ =>
            let a := common a1 a2 in
            l ← conversion t1 a; r ← conversion t2 a; op' ← arith_op op a; Some (mkPlan l r op' None)
        end
  end.

Section Operators.
  Context `{FloatOps}.

Fixpoint run_ops (ops : list Cminor.UnaryOp) (v : val) : option val :=
  match ops with
  | [] => Some v
  | op :: ops => w ← eval_unop op v; run_ops ops w
  end.

Definition run_plan (p : plan) (v1 v2 : val) : option val :=
  w1 ← run_ops (plan_left p) v1; w2 ← run_ops (plan_right p) v2;
  match plan_cmp p with
  | Some c => truth <$> eval_cmp (plan_op p) (condition_of c) w1 w2
  | None => eval_binop (plan_op p) w1 w2
  end.

(** The integer [v] of type [t], extended, as a number of elements. *)
Definition distance (elem t : Type_) (v : val) : option Z :=
  ops ← (if is_pointer t then None else to_address t); w ← run_ops ops v;
  match w with Vlong n => Some (n * sizeofType elem) | _ => None end.

(** Operators with a pointer. *)
Definition pointer_op (op : BinaryOp) (t1 t2 : Type_) (v1 v2 : val) : option val :=
  match op, pointed_to t1, pointed_to t2, v1, v2 with
  | Oadd, Some elem, None, Vlong p, _ => (fun n => Vlong (i64 (p + n))) <$> distance elem t2 v2
  | Oadd, None, Some elem, _, Vlong p => (fun n => Vlong (i64 (p + n))) <$> distance elem t1 v1
  | Osub, Some elem, None, Vlong p, _ => (fun n => Vlong (i64 (p - n))) <$> distance elem t2 v2
  | Osub, Some elem, Some _, Vlong p, Vlong q =>
      Vlong ∘ i64 <$> guard_div (sizeofType elem) (Z.quot (i64 (p - q)) (sizeofType elem))
  | _, _, _, _, _ => None
  end.

Definition sem_binop (op : BinaryOp) (t1 t2 : Type_) (v1 v2 : val) : option val :=
  match binop_plan op t1 t2 with
  | Some p => run_plan p v1 v2
  | None => pointer_op op t1 t2 v1 v2
  end.

(** A value used as a condition: zero is false. *)
Definition cl_truth (t : Type_) (v : val) : option bool :=
  match t, v with
  | Some (Ctypes.Tint _ _), Vint n => Some (negb (n =? 0))
  | Some (Ctypes.Tlong _), Vlong n | Some (Ctypes.Tpointer _), Vlong n => Some (negb (n =? 0))
  | Some (Ctypes.Tfloat Ctypes.F64), Vfloat b => Some (float_holds Target.Cne (f64_compare b 0))
  | Some (Ctypes.Tfloat Ctypes.F32), Vsingle b => Some (float_holds Target.Cne (f32_compare b 0))
  | _, _ => None
  end.

Definition sem_unop (op : UnaryOp) (t : Type_) (v : val) : option val :=
  match op, promoted t with
  | Onotbool, _ => truth ∘ negb <$> cl_truth t v
  | Oneg, Some (AInt _) => eval_unop Cminor.Onegint v
  | Oneg, Some (ALong _) => eval_unop Cminor.Onegl v
  | Oneg, Some ASingle => eval_unop Cminor.Onegs v
  | Oneg, Some ADouble => eval_unop Cminor.Onegf v
  | Onotint, Some (AInt _) => eval_unop Cminor.Onotint v
  | Onotint, Some (ALong _) => eval_unop Cminor.Onotl v
  | Oabsfloat, Some ADouble => match v with Vfloat b => Some (Vfloat (f64_abs b)) | _ => None end
  | Oabsfloat, Some ASingle => match v with Vsingle b => Some (Vsingle (f32_abs b)) | _ => None end
  | _, _ => None
  end.

Definition sem_cast (from to : Type_) (v : val) : option val :=
  if is_bool to && negb (type_equal from to) then truth <$> cl_truth from v
  else ops ← cast_conversion from to; run_ops ops v.
End Operators.

(** ** Expressions *)

(** The parameters of a function keep their values by name; its locals are in
    memory, each at its [place]; a string literal is at the address [lit]. *)
Section Execution.
  Context {M : Type} `{FO : FloatOps} `{LO : Layout} `{TS : TargetSemantics val M}.
  Context {VT : ValueTarget M} {darwin : bool} {PC : PseudoCalls val M darwin}.
  Context (f : Function) (globals : list VarDecl) (place : string -> Z) (lit : string -> val).
  Implicit Types (e : gmap Z val) (ps : gmap string val) (m : M).

Definition is_local (x : string) : bool := bool_decide (x ∈ vd_Name <$> fn_Locals f).
Definition is_param (x : string) : bool := negb (is_local x) && bool_decide (x ∈ vd_Name <$> fn_Params f).
Definition is_global (x : string) : bool :=
  negb (is_local x) && negb (is_param x) && bool_decide (x ∈ vd_Name <$> globals).

(** A parameter has no address. *)
Definition cl_address (x : string) : option val :=
  if is_local x then Some (stack_offset (place x))
  else if is_param x then None
  else Some (symbol_offset x 0).

Definition access (t : Type_) (a : val) m : option val :=
  match access_mode t with
  | ByValue chunk => eval_load_at chunk a m
  | ByReference => Some a
  | ByNothing => None
  end.

Definition const_at (n : Z) (t : Type_) : option val :=
  match promoted t with
  | Some (AInt _) => Some (Vint (i32 n))
  | Some (ALong _) => Some (Vlong (i64 n))
  | Some ASingle => Some (Vsingle (f32_of_long n))
  | Some ADouble => Some (Vfloat (f64_of_long n))
  | None => if is_pointer t then Some (Vlong (i64 n)) else None
  end.

Definition move_address (a : val) (ofs : Z) : option val :=
  match a with Vlong p => Some (if ofs =? 0 then a else Vlong (i64 (p + ofs))) | _ => None end.

Fixpoint cl_expr e ps m (a : Expr) : option val :=
  match a with
  | Econst_int n t => const_at n t
  | Econst_float b _ => Some (Vfloat b)
  | Econst_long n _ => Some (Vlong n)
  | Econst_single b _ => Some (Vsingle b)
  | Estring s _ => Some (lit s)
  | Evar x t => if is_param x then ps !! x else p ← cl_address x; access t p m
  | Etempvar id _ => e !! id
  | Ederef a t => p ← cl_expr e ps m a; access t p m
  | Eaddrof a _ => cl_lvalue e ps m a
  | Eunop op a _ => v ← cl_expr e ps m a; sem_unop op (ExprType a) v
  | Ebinop op a1 a2 _ =>
      v1 ← cl_expr e ps m a1; v2 ← cl_expr e ps m a2; sem_binop op (ExprType a1) (ExprType a2) v1 v2
  | Ecast a t => v ← cl_expr e ps m a; sem_cast (ExprType a) t v
  | Efield a name t =>
      p ← cl_lvalue e ps m a; ofs ← field_place (ExprType a) name; q ← move_address p ofs; access t q m
  | Esizeof t _ => Some (Vint (i32 (sizeofType t)))
  | Ealignof t _ => Some (Vint (i32 (alignofType t)))
  end
with cl_lvalue e ps m (a : Expr) : option val :=
  match a with
  | Evar x _ => cl_address x
  | Ederef a _ => cl_expr e ps m a
  | Efield a name _ => p ← cl_lvalue e ps m a; ofs ← field_place (ExprType a) name; move_address p ofs
  | _ => None
  end.

Lemma field_address e ps m a name t :
  cl_lvalue e ps m (Efield a name t) =
    (p ← cl_lvalue e ps m a; ofs ← field_place (ExprType a) name; move_address p ofs).
Proof using. done. Qed.

Lemma field_value e ps m a name t :
  cl_expr e ps m (Efield a name t) =
    (p ← cl_lvalue e ps m a; ofs ← field_place (ExprType a) name; q ← move_address p ofs; access t q m).
Proof using. done. Qed.

(** A name that is not a variable is that of a function. *)
Definition function_name (a : Expr) : option string :=
  match a with
  | Evar x _ => if is_local x || is_param x || is_global x then None else Some x
  | Eaddrof (Evar x _) _ => if is_local x || is_param x then None else Some x
  | _ => None
  end.

Definition cl_callee e ps m (a : Expr) : option (callee val) :=
  match function_name a with
  | Some x => Some (ToSymbol x)
  | None => ToAddress <$> cl_expr e ps m a
  end.

(** ** Statements *)

(** What remains to be done: a statement, the rest of a loop whose body or whose
    continuation runs, or the end of a switch. *)
Inductive cl_frame :=
| Kseq (s : Stmt)
| Kloop1 (body continue : Stmt)
| Kloop2 (body continue : Stmt)
| Kswitch.

Local Abbreviation cont := (list cl_frame).

Definition cl_state : Type := Stmt * cont * gmap Z val * gmap string val * M.

Fixpoint break_cont (k : cont) : option cont :=
  match k with
  | [] => None
  | Kseq _ :: k => break_cont k
  | Kloop1 _ _ :: k | Kloop2 _ _ :: k | Kswitch :: k => Some k
  end.

(** The continuation of the loop to run next, and what follows it. *)
Fixpoint continue_cont (k : cont) : option (Stmt * cont) :=
  match k with
  | [] | Kloop2 _ _ :: _ => None
  | Kseq _ :: k | Kswitch :: k => continue_cont k
  | Kloop1 s1 s2 :: k => Some (s2, Kloop2 s1 s2 :: k)
  end.

(** The statements from a case on; without breaks, a case falls through to the
    ones after it. *)
Definition fall_through (cases : list SwitchCase) (d : Stmt) : Stmt := foldr (fun c s => Ssequence c.2 s) d cases.

Fixpoint switch_point (hasBreak : bool) (z : Z) (cases : list SwitchCase) (d : Stmt) (k : cont) : Stmt * cont :=
  match cases with
  | [] => (d, k)
  | (v, s) :: cases =>
      if decide (z = v) then (s, if hasBreak then k else Kseq (fall_through cases d) :: k)
      else switch_point hasBreak z cases d k
  end.

(** The statement a label is in front of, and what follows it. *)
Fixpoint cl_find (l : string) (s : Stmt) (k : cont) : option (Stmt * cont) :=
  match s with
  | Ssequence s1 s2 =>
      match cl_find l s1 (Kseq s2 :: k) with
      | Some r => Some r
      | None => cl_find l s2 k
      end
  | Sifthenelse _ s1 s2 =>
      match cl_find l s1 k with
      | Some r => Some r
      | None => cl_find l s2 k
      end
  | Sloop s1 s2 =>
      match cl_find l s1 (Kloop1 s1 s2 :: k) with
      | Some r => Some r
      | None => cl_find l s2 (Kloop2 s1 s2 :: k)
      end
  | Sswitch _ cases d hasBreak =>
      (fix go cases :=
         match cases with
         | [] => cl_find l d (Kswitch :: k)
         | c :: cases =>
             match cl_find l c.2 (if hasBreak : bool then Kswitch :: k else Kseq (fall_through cases d) :: Kswitch :: k) with
             | Some r => Some r
             | None => go cases
             end
         end) cases
  | Slabel l' s1 => if decide (l = l') then Some (s1, k) else cl_find l s1 k
  | _ => None
  end.

(** Assignment: to a parameter, or to memory. *)
Definition param_name (lhs : Expr) : option string :=
  match lhs with Evar x _ => if is_param x then Some x else None | _ => None end.

Definition cl_assign e ps m (lhs : Expr) (v : val) : option (gmap string val * M) :=
  match param_name lhs, access_mode (ExprType lhs) with
  | Some x, _ => Some (<[x := v]> ps, m)
  | None, ByValue chunk => p ← cl_lvalue e ps m lhs; m' ← eval_store_at chunk p v m; Some (ps, m')
  | None, _ => None
  end.

Definition cl_opt {B} (o : option B) (g : B -> outcome cl_state (rtl_result val M)) : outcome cl_state (rtl_result val M) :=
  match o with Some x => g x | None => Stuck end.

Definition cl_step (st : cl_state) : outcome cl_state (rtl_result val M) :=
  let '(s, k, e, ps, m) := st in
  match s with
  | Sskip =>
      match k with
      | [] => Halt (RReturned None m)
      | Kseq s :: k => Next (s, k, e, ps, m)
      | Kloop1 s1 s2 :: k => Next (s2, Kloop2 s1 s2 :: k, e, ps, m)
      | Kloop2 s1 s2 :: k => Next (s1, Kloop1 s1 s2 :: k, e, ps, m)
      | Kswitch :: k => Next (Sskip, k, e, ps, m)
      end
  | Sassign lhs rhs =>
      cl_opt (v ← cl_expr e ps m rhs; cl_assign e ps m lhs v) (fun pm => Next (Sskip, k, e, pm.1, pm.2))
  | Sset id a => cl_opt (cl_expr e ps m a) (fun v => Next (Sskip, k, <[id := v]> e, ps, m))
  | Scall r g args =>
      cl_opt (fv ← cl_callee e ps m g; vs ← mapM (cl_expr e ps m) args; call_value zero_sig fv vs m)
        (fun vm => Next (Sskip, k, set_result r vm.1 e, ps, vm.2))
  | Sbuiltin r b args =>
      cl_opt (vs ← mapM (cl_expr e ps m) args; eval_builtin b vs m)
        (fun vm => Next (Sskip, k, set_result r vm.1 e, ps, vm.2))
  | Ssequence s1 s2 => Next (s1, Kseq s2 :: k, e, ps, m)
  | Sifthenelse c s1 s2 =>
      cl_opt (v ← cl_expr e ps m c; cl_truth (ExprType c) v) (fun b => Next (if b : bool then s1 else s2, k, e, ps, m))
  | Sloop s1 s2 => Next (s1, Kloop1 s1 s2 :: k, e, ps, m)
  | Sbreak => cl_opt (break_cont k) (fun k' => Next (Sskip, k', e, ps, m))
  | Scontinue => cl_opt (continue_cont k) (fun sk => Next (sk.1, sk.2, e, ps, m))
  | Sreturn None => Halt (RReturned None m)
  | Sreturn (Some a) => cl_opt (cl_expr e ps m a) (fun v => Halt (RReturned (Some v) m))
  | Sswitch a cases d hasBreak =>
      cl_opt (v ← cl_expr e ps m a; switch_val (is_long (ExprType a)) v)
        (fun z => let sk := switch_point hasBreak z cases d (Kswitch :: k) in Next (sk.1, sk.2, e, ps, m))
  | Slabel _ s1 => Next (s1, k, e, ps, m)
  | Sgoto l => cl_opt (cl_find l (fn_Body f) []) (fun sk => Next (sk.1, sk.2, e, ps, m))
  end.

(** The function applied to arguments. *)
Definition cl_init (args : list val) m : cl_state :=
  (fn_Body f, [], ∅, bind_params (vd_Name <$> fn_Params f) args, m).
End Execution.
