(* ===== verification/CabsSem.v ===== *)
(** Execution of C functions: expressions with side effects, evaluated from left
    to right, and statements with a stack of what is left to do. Variables are
    as in Clight: some are kept by name, the others are in memory. *)

From S2P Require Import Prelude Target IntOps Semantics RtlSem Structured Values CminorSem CshmgenOps Clight ClightSem.
From S2P Require Import SimplExpr ClightGen.
From S2P Require Ctypes Cabs.

(** ** Types *)

(** An array that is used as a value is a pointer to its first element. *)
Definition decay (t : Type_) : Type_ :=
  match t with Some (Ctypes.Tarray elem _) => Some (Ctypes.Pointer elem) | _ => t end.

Definition type_of_arith (a : arith) : Type_ :=
  match a with
  | AInt u => Some (if u : bool then Ctypes.UInt else Ctypes.Int)
  | ALong u => Some (Ctypes.Tlong (if u : bool then Ctypes.Unsigned else Ctypes.Signed))
  | ASingle => Some Ctypes.Float
  | ADouble => Some Ctypes.Double
  end.

(** The integer promotions. *)
Definition promote (t : Type_) : Type_ := promoted t ≫= type_of_arith.

Definition common_type (t1 t2 : Type_) : Type_ :=
  a1 ← promoted t1; a2 ← promoted t2; type_of_arith (common a1 a2).

(** The type of an operation on operands of types [t1] and [t2]. *)
Definition binop_type (op : BinaryOp) (t1 t2 : Type_) : Type_ :=
  if is_comparison op then int
  else
    match op with
    | Oshl | Oshr => promote t1
    | _ =>
        if is_pointer t1 then
          if bool_decide (op = Osub) && is_pointer t2 then Some Ctypes.Long else t1
        else if is_pointer t2 then t2
        else common_type t1 t2
    end.

(** What kinds of binary operators there are: assignments, with an operator or
    none, commas, logical operators and operators on values. *)
Inductive binary_kind := KAssign (op : option BinaryOp) | KComma | KLogical (or : bool) | KPure (op : BinaryOp).

Definition kind_of (op : Cabs.BinaryOp) : binary_kind :=
  match op with
  | Cabs.OpAdd => KPure Oadd | Cabs.OpSub => KPure Osub | Cabs.OpMul => KPure Omul
  | Cabs.OpDiv => KPure Odiv | Cabs.OpMod => KPure Omod
  | Cabs.OpLt => KPure Olt | Cabs.OpLe => KPure Ole | Cabs.OpGt => KPure Ogt | Cabs.OpGe => KPure Oge
  | Cabs.OpEq => KPure Oeq | Cabs.OpNe => KPure One
  | Cabs.OpAnd => KLogical false | Cabs.OpOr => KLogical true
  | Cabs.OpBitAnd => KPure Oand | Cabs.OpBitOr => KPure Oor | Cabs.OpBitXor => KPure Oxor
  | Cabs.OpShl => KPure Oshl | Cabs.OpShr => KPure Oshr
  | Cabs.OpAssign => KAssign None
  | Cabs.OpAddAssign => KAssign (Some Oadd) | Cabs.OpSubAssign => KAssign (Some Osub)
  | Cabs.OpMulAssign => KAssign (Some Omul) | Cabs.OpDivAssign => KAssign (Some Odiv)
  | Cabs.OpModAssign => KAssign (Some Omod) | Cabs.OpAndAssign => KAssign (Some Oand)
  | Cabs.OpOrAssign => KAssign (Some Oor) | Cabs.OpXorAssign => KAssign (Some Oxor)
  | Cabs.OpShlAssign => KAssign (Some Oshl) | Cabs.OpShrAssign => KAssign (Some Oshr)
  | Cabs.OpComma => KComma
  end.

Section Typing.
  (* the types of the variables, and the structures *)
  Context (tenv : gmap string Ctypes.Type_) (defs : gmap string (list Ctypes.Field)).

Definition complete (t : Type_) : Type_ := ResolveStruct defs <$> t.

(** What a pointer, or an array, points to. *)
Definition target (t : Type_) : Type_ :=
  match decay t with Some (Ctypes.Tpointer elem) => complete elem | _ => None end.

Definition field_of_type (t : Type_) (name : string) : Type_ :=
  match t with
  | Some (Ctypes.Tstruct _ fields) | Some (Ctypes.Tunion _ fields) =>
      f ← find_name fst name fields; complete (Some f.2)
  | _ => None
  end.

(** The type of an expression; that of a string literal has decayed. *)
Fixpoint type_of (a : Cabs.Expr) : Type_ :=
  match a with
  | Cabs.Constant n => Some (if n <=? 2147483647 then Ctypes.Int else Ctypes.Long)
  | Cabs.StringLiteral _ => Some (Ctypes.Pointer (Some Ctypes.Char))
  | Cabs.CharLiteral _ => int
  | Cabs.Variable_ x => complete (Some (GetType tenv x))
  | Cabs.Paren a => type_of a
  | Cabs.Unary op a =>
      match op with
      | Cabs.OpPlus | Cabs.OpNeg | Cabs.OpBitNot => promote (type_of a)
      | Cabs.OpNot => int
      | Cabs.OpAddrOf => Some (Ctypes.Pointer (type_of a))
      | Cabs.OpDeref => target (type_of a)
      | Cabs.OpPreInc | Cabs.OpPreDec | Cabs.OpPostInc | Cabs.OpPostDec => type_of a
      end
  | Cabs.Binary op l r =>
      match kind_of op with
      | KAssign _ => type_of l
      | KComma => decay (type_of r)
      | KLogical _ => int
      | KPure op => binop_type op (decay (type_of l)) (decay (type_of r))
      end
  | Cabs.Conditional _ t e =>
      match promoted (type_of t), promoted (type_of e) with
      | Some _, Some _ => common_type (type_of t) (type_of e)
      | _, _ => decay (type_of t)
      end
  | Cabs.Call g _ => return_type (type_of g)
  | Cabs.Index a _ => target (type_of a)
  | Cabs.Member a name arrow => field_of_type (if arrow : bool then target (type_of a) else type_of a) name
  | Cabs.SizeofExpr _ | Cabs.SizeofType _ => Some (Ctypes.Tlong Ctypes.Unsigned)
  | Cabs.Cast s _ => complete (Some (TypeFromString s))
  end.

(** The type of the value of an expression. *)
Definition value_type (a : Cabs.Expr) : Type_ := decay (type_of a).
End Typing.

(** ** Literals *)

Definition is_octal (s : string) : bool :=
  match s with String c _ => (48 <=? byte c) && (byte c <=? 55) | EmptyString => false end.

(** The bytes of a literal, where only simple escape sequences are used, and
    the null character. *)
Fixpoint literal_bytes (s : string) : option string :=
  match s with
  | EmptyString => Some EmptyString
  | String c rest =>
      if byte c =? 92 then
        match rest with
        | String d rest' =>
            n ← escape d;
            if (byte d =? 48) && is_octal rest' then None
            else String (Ascii.ascii_of_N (Z.to_N n)) <$> literal_bytes rest'
        | EmptyString => None
        end
      else String c <$> literal_bytes rest
  end.

(** A character of the basic character set. *)
Definition literal_char (s : string) : option Z :=
  match s with
  | String c EmptyString => if (byte c =? 92) || (127 <? byte c) then None else Some (byte c)
  | String c (String d EmptyString) => if byte c =? 92 then escape d else None
  | _ => None
  end.

(** ** Expressions *)

(** An object is a variable that is kept by name, or at an address; an
    expression stands for an object or has a value. *)
Inductive object := OVar (x : string) | OMem (p : val).
Inductive answer := Obj (o : object) | Val (v : val).

(** How increments and decrements compute, and whether they give the new value. *)
Definition incdec_op (op : Cabs.UnaryOp) : option (BinaryOp * bool) :=
  match op with
  | Cabs.OpPreInc => Some (Oadd, true)
  | Cabs.OpPreDec => Some (Osub, true)
  | Cabs.OpPostInc => Some (Oadd, false)
  | Cabs.OpPostDec => Some (Osub, false)
  | _ => None
  end.

Definition arith_unop (op : Cabs.UnaryOp) : option UnaryOp :=
  match op with
  | Cabs.OpNeg => Some Oneg
  | Cabs.OpNot => Some Onotbool
  | Cabs.OpBitNot => Some Onotint
  | _ => None
  end.

Section Execution.
  Context {M : Type} `{FO : FloatOps} `{LO : Layout} `{TS : TargetSemantics val M}.
  Context {VT : ValueTarget M} {darwin : bool} {PC : PseudoCalls val M darwin}.
  (* the variables are the parameters and the locals of [f] *)
  Context (f : Function) (globals : list VarDecl) (place : string -> Z) (lit : string -> val).
  Context (tenv : gmap string Ctypes.Type_) (defs : gmap string (list Ctypes.Field)).
  Local Abbreviation memory := (gmap string val * M)%type.
  Local Abbreviation type_of := (type_of tenv defs).
  Local Abbreviation value_type := (value_type tenv defs).
  Implicit Types (s : memory).

Definition variable (x : string) : option object :=
  if is_param f x then Some (OVar x) else OMem <$> cl_address f place x.

Definition read (t : Type_) (o : object) s : option val :=
  match o with OVar x => s.1 !! x | OMem p => access t p s.2 end.

Definition write (t : Type_) (o : object) (v : val) s : option memory :=
  match o, access_mode t with
  | OVar x, _ => Some (<[x := v]> s.1, s.2)
  | OMem p, ByValue chunk => (fun m => (s.1, m)) <$> eval_store_at chunk p v s.2
  | OMem _, _ => None
  end.

(** The value of an answer of type [t]. *)
Definition use (t : Type_) (r : answer * memory) : option (val * memory) :=
  match r.1 with Val v => Some (v, r.2) | Obj o => (fun v => (v, r.2)) <$> read t o r.2 end.

Definition as_object (r : answer * memory) : option (object * memory) :=
  match r.1 with Obj o => Some (o, r.2) | Val _ => None end.

(** [v], of type [from], is assigned to an object of type [to]. *)
Definition assign (from to : Type_) (o : object) (v : val) s : option (val * memory) :=
  w ← sem_cast from to v; s' ← write to o w s; Some (w, s').

(** The name of a function, when an expression is that. *)
Fixpoint designator (a : Cabs.Expr) : option string :=
  match a with
  | Cabs.Variable_ x => if is_local f x || is_param f x || is_global f globals x then None else Some x
  | Cabs.Paren a => designator a
  | _ => None
  end.

(** The conversion of an argument: to the type of the parameter, or a
    [float] to a [double]. *)
Definition convert_argument (param : option Ctypes.Type_) (t : Type_) (v : val) : option val :=
  match param, t with
  | Some p, _ => sem_cast t (Some p) v
  | None, Some (Ctypes.Tfloat Ctypes.F32) => sem_cast t (Some Ctypes.Double) v
  | None, _ => Some v
  end.

Definition increment (op : BinaryOp) (pre : bool) (t : Type_) (r : answer * memory) : option (answer * memory) :=
  '(o, s) ← as_object r; v ← read t o s;
  w ← sem_binop op t int v (Vint 1);
  '(w, s) ← assign (binop_type op t int) t o w s;
  Some (Val (if pre then w else v), s).

(** An operator applied to what was evaluated, of type [t]. *)
Definition eval_unary (op : Cabs.UnaryOp) (t : Type_) (r : answer * memory) : option (answer * memory) :=
  match incdec_op op with
  | Some (op, pre) => increment op pre t r
  | None =>
      match arith_unop op with
      | Some op => '(v, s) ← use t r; w ← sem_unop op (decay t) v; Some (Val w, s)
      | None =>
          match op with
          | Cabs.OpAddrOf => '(o, s) ← as_object r; match o with OMem p => Some (Val p, s) | OVar _ => None end
          | Cabs.OpDeref => '(v, s) ← use t r; Some (Obj (OMem v), s)
          | _ => '(v, s) ← use t r; Some (Val v, s)
          end
      end
  end.

(** The arguments of a call, and the types of the parameters that are left. *)
Definition evaluate_args (value : Cabs.Expr -> memory -> option (val * memory)) :
    list Ctypes.Type_ -> list Cabs.Expr -> memory -> option (list val * memory) :=
  fix go params args s :=
    match args with
    | [] => Some ([], s)
    | a :: args =>
        '(v, s) ← value a s; w ← convert_argument (head params) (value_type a) v;
        '(vs, s) ← go (tail params) args s; Some (w :: vs, s)
    end.

(** [eval]: the operands are evaluated from left to right. *)
Fixpoint eval (a : Cabs.Expr) s : option (answer * memory) :=
  let value a s := eval a s ≫= use (type_of a) in
  match a with
  | Cabs.Constant n => (fun v => (Val v, s)) <$> const_at n (type_of a)
  | Cabs.StringLiteral b => (fun b => (Val (lit b), s)) <$> literal_bytes b
  | Cabs.CharLiteral c => (fun n => (Val (Vint n), s)) <$> literal_char c
  | Cabs.Variable_ x => (fun o => (Obj o, s)) <$> variable x
  | Cabs.Paren a => eval a s
  | Cabs.Unary op a1 =>
      eval a1 s ≫= eval_unary op (type_of a1)
  | Cabs.Binary op l r =>
      match kind_of op with
      | KAssign None =>
          '(o, s) ← eval l s ≫= as_object; '(v, s) ← value r s;
          '(w, s) ← assign (value_type r) (type_of l) o v s; Some (Val w, s)
      | KAssign (Some op) =>
          let t := type_of l in
          '(o, s) ← eval l s ≫= as_object; v ← read t o s; '(v', s) ← value r s;
          w ← sem_binop op t (value_type r) v v';
          '(w, s) ← assign (binop_type op t (value_type r)) t o w s; Some (Val w, s)
      | KComma => '(_, s) ← eval l s; '(v, s) ← value r s; Some (Val v, s)
      | KLogical or =>
          '(v, s) ← value l s; b ← cl_truth (value_type l) v;
          if eqb b or then Some (Val (truth b), s)
          else '(v, s) ← value r s; b ← cl_truth (value_type r) v; Some (Val (truth b), s)
      | KPure op =>
          '(v1, s) ← value l s; '(v2, s) ← value r s;
          w ← sem_binop op (value_type l) (value_type r) v1 v2; Some (Val w, s)
      end
  | Cabs.Conditional c t e =>
      '(v, s) ← value c s; b ← cl_truth (value_type c) v;
      if b : bool then '(v, s) ← value t s; w ← sem_cast (value_type t) (type_of a) v; Some (Val w, s)
      else '(v, s) ← value e s; w ← sem_cast (value_type e) (type_of a) v; Some (Val w, s)
  | Cabs.Call g args =>
      '(fv, s) ← match designator g with
                 | Some x => Some (ToSymbol x, s)
                 | None => '(v, s) ← value g s; Some (ToAddress v, s)
                 end;
      '(vs, s) ← evaluate_args value (param_types (type_of g)) args s;
      '(v, m) ← call_value zero_sig fv vs s.2; Some (Val v, (s.1, m))
  | Cabs.Index a i =>
      '(p, s) ← value a s; '(n, s) ← value i s;
      q ← sem_binop Oadd (value_type a) (value_type i) p n; Some (Obj (OMem q), s)
  | Cabs.Member a name arrow =>
      '(p, s) ← (if arrow : bool then value a s
                 else '(o, s) ← eval a s ≫= as_object; match o with OMem p => Some (p, s) | OVar _ => None end);
      ofs ← field_place (if arrow then target defs (type_of a) else type_of a) name;
      q ← move_address p ofs; Some (Obj (OMem q), s)
  | Cabs.SizeofExpr a => Some (Val (Vlong (sizeofType (type_of a))), s)
  | Cabs.SizeofType t => Some (Val (Vlong (sizeofType (complete defs (Some (TypeFromString t))))), s)
  | Cabs.Cast t a1 => '(v, s) ← value a1 s; w ← sem_cast (value_type a1) (type_of a) v; Some (Val w, s)
  end.

Definition value (a : Cabs.Expr) s : option (val * memory) := eval a s ≫= use (type_of a).

Definition run_opt (o : option Cabs.Expr) s : option memory :=
  match o with Some a => snd <$> eval a s | None => Some s end.

(** A condition; when absent it holds. *)
Definition test (a : Cabs.Expr) s : option (bool * memory) :=
  '(v, s) ← value a s; (fun b => (b, s)) <$> cl_truth (value_type a) v.

Definition test_opt (o : option Cabs.Expr) s : option (bool * memory) :=
  match o with Some a => test a s | None => Some (true, s) end.

(** Initializers, as assignments; an array has none. *)
Fixpoint declare (ds : list Cabs.Decl) s : option memory :=
  match ds with
  | [] => Some s
  | d :: ds =>
      match Cabs.d_Initializer d, Cabs.d_ArrayDims d with
      | Some a, [] =>
          '(v, s) ← value a s; o ← variable (Cabs.d_Name d);
          '(_, s) ← assign (value_type a) (type_of (Cabs.Variable_ (Cabs.d_Name d))) o v s;
          declare ds s
      | Some _, _ => None
      | None, _ => declare ds s
      end
  end.

(** ** Statements *)

(** What remains to be done: the rest of a block; the step of a loop whose body
    runs, and its test; the test of a loop that runs its body first; the cases
    that are fallen through; the end of a switch. *)
Inductive c_frame :=
| Kblock (ss : list Cabs.Stmt)
| Kafter (c step : option Cabs.Expr) (body : Cabs.Stmt)
| Ktest (c step : option Cabs.Expr) (body : Cabs.Stmt)
| Kdo (body : Cabs.Stmt) (c : Cabs.Expr)
| Kcases (cases : list Cabs.SwitchCase)
| Kend.

Local Abbreviation cont := (list c_frame).

Definition c_state : Type := Cabs.Stmt * cont * memory.

Fixpoint c_break (k : cont) : option cont :=
  match k with
  | [] | Ktest _ _ _ :: _ => None
  | Kblock _ :: k | Kcases _ :: k => c_break k
  | Kafter _ _ _ :: k | Kdo _ _ :: k | Kend :: k => Some k
  end.

Fixpoint c_continue (k : cont) : option cont :=
  match k with
  | [] | Ktest _ _ _ :: _ => None
  | Kblock _ :: k' | Kcases _ :: k' | Kend :: k' => c_continue k'
  | Kafter _ _ _ :: _ | Kdo _ _ :: _ => Some k
  end.

(** The value of the constant of a case. *)
Fixpoint case_constant (a : Cabs.Expr) : option Z :=
  match a with
  | Cabs.Constant n => Some n
  | Cabs.CharLiteral c => literal_char c
  | Cabs.Paren a => case_constant a
  | Cabs.Unary Cabs.OpNeg a => Z.opp <$> case_constant a
  | _ => None
  end.

(** Is [z] the constant, converted to the type [long] or [int]? *)
Definition case_is (long : bool) (z : Z) (c : Cabs.SwitchCase) : bool :=
  match c.1 ≫= case_constant with
  | Some n => (if long then i64 n else i32 n) =? z
  | None => false
  end.

Definition is_default (c : Cabs.SwitchCase) : bool := match c.1 with None => true | Some _ => false end.

(** The cases from the first with a property on. *)
Fixpoint cases_from (P : Cabs.SwitchCase -> bool) (cases : list Cabs.SwitchCase) : list Cabs.SwitchCase :=
  match cases with
  | [] => []
  | c :: rest => if P c then cases else cases_from P rest
  end.

Definition select (long : bool) (z : Z) (cases : list Cabs.SwitchCase) : list Cabs.SwitchCase :=
  match cases_from (case_is long z) cases with
  | [] => cases_from is_default cases
  | cases => cases
  end.

(** The statement a label is in front of, and what follows it. *)
Fixpoint c_find (l : string) (s : Cabs.Stmt) (k : cont) : option (Cabs.Stmt * cont) :=
  let block := fix block ss k :=
    match ss with
    | [] => None
    | s :: ss => match c_find l s (Kblock ss :: k) with Some r => Some r | None => block ss k end
    end in
  match s with
  | Cabs.If _ s1 o =>
      match c_find l s1 k, o with
      | Some r, _ => Some r
      | None, Some s2 => c_find l s2 k
      | None, None => None
      end
  | Cabs.While c body => c_find l body (Kafter (Some c) None body :: k)
  | Cabs.DoWhile body c => c_find l body (Kdo body c :: k)
  | Cabs.For _ _ c step body => c_find l body (Kafter c step body :: k)
  | Cabs.Switch _ cases =>
      (fix go (cases : list Cabs.SwitchCase) :=
         match cases with
         | [] => None
         | c :: cases => match block c.2 (Kcases cases :: Kend :: k) with Some r => Some r | None => go cases end
         end) cases
  | Cabs.Label l' s1 => if decide (l = l') then Some (s1, k) else c_find l s1 k
  | Cabs.Block ss => block ss k
  | _ => None
  end.

(** The body of the function, and the type it returns. *)
Context (body : list Cabs.Stmt) (ret : Type_).

Definition c_opt {B} (o : option B) (g : B -> outcome c_state (rtl_result val M)) : outcome c_state (rtl_result val M) :=
  match o with Some x => g x | None => Stuck end.

Definition c_step (st : c_state) : outcome c_state (rtl_result val M) :=
  let '(t, k, s) := st in
  match t with
  | Cabs.Skip =>
      match k with
      | [] => Halt (RReturned None s.2)
      | Kblock [] :: k => Next (Cabs.Skip, k, s)
      | Kblock (t :: ts) :: k => Next (t, Kblock ts :: k, s)
      | Kafter c step body :: k => c_opt (run_opt step s) (fun s => Next (Cabs.Skip, Ktest c step body :: k, s))
      | Ktest c step body :: k =>
          c_opt (test_opt c s) (fun bs => Next (if bs.1 : bool then (body, Kafter c step body :: k) else (Cabs.Skip, k), bs.2))
      | Kdo body c :: k =>
          c_opt (test c s) (fun bs => Next (if bs.1 : bool then (body, Kdo body c :: k) else (Cabs.Skip, k), bs.2))
      | Kcases [] :: k | Kend :: k => Next (Cabs.Skip, k, s)
      | Kcases (c :: cases) :: k => Next (Cabs.Block c.2, Kcases cases :: k, s)
      end
  | Cabs.Return None => Halt (RReturned None s.2)
  | Cabs.Return (Some a) =>
      c_opt ('(v, s) ← value a s; w ← sem_cast (value_type a) ret v; Some (w, s)) (fun vs => Halt (RReturned (Some vs.1) vs.2.2))
  | Cabs.Computation a => c_opt (eval a s) (fun r => Next (Cabs.Skip, k, r.2))
  | Cabs.If c s1 o => c_opt (test c s) (fun bs => Next (if bs.1 : bool then s1 else default Cabs.Skip o, k, bs.2))
  | Cabs.While c body => Next (Cabs.Skip, Ktest (Some c) None body :: k, s)
  | Cabs.DoWhile body c => Next (body, Kdo body c :: k, s)
  | Cabs.For init ds c step body =>
      c_opt (match init with Some a => snd <$> eval a s | None => declare ds s end)
        (fun s => Next (Cabs.Skip, Ktest c step body :: k, s))
  | Cabs.Break => c_opt (c_break k) (fun k => Next (Cabs.Skip, k, s))
  | Cabs.Continue => c_opt (c_continue k) (fun k => Next (Cabs.Skip, k, s))
  | Cabs.Switch a cases =>
      c_opt ('(v, s) ← value a s; z ← switch_val (is_long (value_type a)) v; Some (z, s))
        (fun zs => match select (is_long (value_type a)) zs.1 cases with
                   | [] => Next (Cabs.Skip, k, zs.2)
                   | c :: cases => Next (Cabs.Block c.2, Kcases cases :: Kend :: k, zs.2)
                   end)
  | Cabs.Goto l => c_opt (c_find l (Cabs.Block body) []) (fun sk => Next (sk, s))
  | Cabs.Label _ t => Next (t, k, s)
  | Cabs.Block ts => Next (Cabs.Skip, Kblock ts :: k, s)
  | Cabs.DeclStmt ds => c_opt (declare ds s) (fun s => Next (Cabs.Skip, k, s))
  end.

(** The function applied to arguments. *)
Definition c_init (args : list val) (m : M) : c_state :=
  (Cabs.Block body, [], (bind_params (vd_Name <$> fn_Params f) args, m)).
End Execution.
