(* ===== verification/SimplExprProof.v ===== *)
(** Extraction of side effects: the statements of an expression, and then what
    is left of it, do and compute what the expression does. *)

From S2P Require Import Prelude Target Semantics RtlSem Structured Values CminorSem CshmgenOps Clight ClightSem.
From S2P Require Import SimplExpr ClightGen CabsSem ValuesExample.
From S2P Require Ctypes Cabs Cminor.

#[local] Existing Instance Ctypes.Signedness_eq_dec.
#[local] Existing Instance Ctypes.IntSize_eq_dec.
#[local] Existing Instance Ctypes.FloatSize_eq_dec.
#[local] Existing Instance Ctypes.Type_eq_dec.
#[local] Existing Instance Cabs.BinaryOp_eq_dec.

(** ** The monad *)

Lemma SE_run {A B} (x : SE A) (k : A -> SE B) st a st' : x st = Some (a, st') -> (x ≫= k) st = k a st'.
Proof. intros H. unfold mbind, SE_bind. by rewrite H. Qed.

Lemma SE_inv {A B} (x : SE A) (k : A -> SE B) st b st' :
  (x ≫= k) st = Some (b, st') -> exists a st1, x st = Some (a, st1) /\ k a st1 = Some (b, st').
Proof. unfold mbind, SE_bind. destruct (x st) as [[a st1]|]; [|done]. intros H. by exists a, st1. Qed.

Lemma SE_ret_inv {A} (a b : A) st st' : (mret a : SE A) st = Some (b, st') -> a = b /\ st = st'.
Proof. unfold mret, SE_ret. intros H. by simplify_eq. Qed.

Ltac run_inv :=
  repeat match goal with
  | H : (_ ≫= _) _ = Some _ |- _ => apply SE_inv in H as (? & ? & ? & H)
  | H : mret _ _ = Some (_, _) |- _ => apply SE_ret_inv in H as [H ?]; subst
  end.

(** ** Running lists of statements *)

Section Lists.
  Context {M : Type} `{FO : FloatOps} `{LO : Layout} `{TS : TargetSemantics val M}.
  Context {VT : ValueTarget M} {darwin : bool} {PC : PseudoCalls val M darwin}.
  Context (f : Function) (globals : list VarDecl) (place : string -> Z) (lit : string -> val).
  Local Abbreviation step := (cl_step (PC := PC) f globals place lit).
  Local Abbreviation memory := (gmap string val * M)%type.
  Local Abbreviation env := (gmap Z val).

(** A Clight state. *)
Definition at_ (t : Stmt) (k : list cl_frame) (e : env) (s : memory) : cl_state := (t, k, e, s.1, s.2).

(** What is left to do when the statements [ts] come next. *)
Definition conts (ts : list Stmt) (k : list cl_frame) : list cl_frame :=
  (Kseq <$> filter (fun t => is_skip t = false) ts) ++ k.

Definition ahead (ts : list Stmt) (k : list cl_frame) : Stmt * list cl_frame :=
  match conts ts [] with Kseq t :: _ => (t, tail (conts ts k)) | _ => (Sskip, k) end.

Definition at_list (ts : list Stmt) (k : list cl_frame) (e : env) (s : memory) : cl_state :=
  at_ (ahead ts k).1 (ahead ts k).2 e s.

Lemma conts_app ts1 ts2 k : conts (ts1 ++ ts2) k = conts ts1 (conts ts2 k).
Proof using. unfold conts. by rewrite filter_app, fmap_app, <- app_assoc. Qed.

Lemma conts_skip ts k : conts (Sskip :: ts) k = conts ts k.
Proof using. unfold conts. by rewrite filter_cons_False. Qed.

Lemma conts_cons t ts k : is_skip t = false -> conts (t :: ts) k = Kseq t :: conts ts k.
Proof using. intros Ht. unfold conts. by rewrite filter_cons_True. Qed.

Lemma ahead_skip ts k : ahead (Sskip :: ts) k = ahead ts k.
Proof using. unfold ahead. by rewrite !conts_skip. Qed.

Lemma ahead_cons t ts k : is_skip t = false -> ahead (t :: ts) k = (t, conts ts k).
Proof using. intros Ht. unfold ahead. by rewrite !conts_cons. Qed.

Lemma skip_inv t : is_skip t = true -> t = Sskip.
Proof using. by destruct t. Qed.

(** Steps that only go to the next statement. *)
Definition internal (st : @cl_state M) : bool :=
  match st with (Sskip, _, _, _, _) | (Ssequence _ _, _, _, _, _) => true | _ => false end.

Definition goes_to (st st' : @cl_state M) : Prop := internal st = true /\ steps_to step st st'.

Lemma goes_rtc st st' : rtc goes_to st st' -> rtc (steps_to step) st st'.
Proof using. induction 1 as [|x y z [_ H] _ IH]; [apply rtc_refl|by eapply rtc_l]. Qed.

(** A list is entered from the statement before it... *)
Lemma goes_conts ts k e s : rtc goes_to (at_ Sskip (conts ts k) e s) (at_list ts k e s).
Proof using.
  unfold at_list. induction ts as [|t ts IH]; [apply rtc_refl|]. destruct (is_skip t) eqn:Ht.
  - apply skip_inv in Ht as ->. by rewrite conts_skip, ahead_skip.
  - rewrite conts_cons, ahead_cons by done. by apply rtc_once.
Qed.

Lemma enter_conts ts k e s : rtc (steps_to step) (at_ Sskip (conts ts k) e s) (at_list ts k e s).
Proof using. apply goes_rtc, goes_conts. Qed.

Lemma seq_last ts t : Seq (ts ++ [t]) = if is_skip (Seq ts) then t else if is_skip t then Seq ts else Ssequence (Seq ts) t.
Proof using. unfold Seq. by rewrite foldl_app. Qed.

Lemma seq_skip ts : is_skip (Seq ts) = true -> Forall (fun t => t = Sskip) ts.
Proof using.
  induction ts as [|t ts IH] using rev_ind; [done|]. rewrite seq_last. destruct (is_skip (Seq ts)) eqn:E.
  - intros Ht%skip_inv. apply Forall_app. split; [by apply IH|by apply Forall_singleton].
  - destruct (is_skip t); [by rewrite E|done].
Qed.

Lemma skip_seq ts : Forall (fun t => t = Sskip) ts -> is_skip (Seq ts) = true.
Proof using.
  induction ts as [|t ts IH] using rev_ind; [done|]. rewrite seq_last.
  intros [Hs ->%Forall_singleton]%Forall_app. by rewrite IH.
Qed.

Lemma ahead_app ts1 ts2 k : ahead ts1 (conts ts2 k) = ahead (ts1 ++ ts2) k \/ Forall (fun t => t = Sskip) ts1.
Proof using.
  induction ts1 as [|t ts IH]; [by right|]. destruct (is_skip t) eqn:Ht.
  - apply skip_inv in Ht as ->. cbn [app]. rewrite !ahead_skip. destruct IH as [IH|IH]; [by left|by right; constructor].
  - left. cbn [app]. by rewrite !ahead_cons, conts_app by done.
Qed.

Lemma ahead_skips ts1 ts2 k : Forall (fun t => t = Sskip) ts1 -> ahead (ts1 ++ ts2) k = ahead ts2 k.
Proof using. induction 1 as [|t ts -> _ IH]; [done|]. cbn [app]. by rewrite ahead_skip. Qed.

(** ... or through the statement it forms. *)
Lemma goes_seq ts k e s : rtc goes_to (at_ (Seq ts) k e s) (at_list ts k e s).
Proof using.
  unfold at_list. revert k. induction ts as [|t ts IH] using rev_ind; intros k; [apply rtc_refl|]. rewrite seq_last.
  destruct (is_skip (Seq ts)) eqn:E.
  - apply seq_skip in E. rewrite ahead_skips by done. destruct (is_skip t) eqn:Ht.
    + apply skip_inv in Ht as ->. rewrite ahead_skip. apply rtc_refl.
    + rewrite ahead_cons by done. apply rtc_refl.
  - assert (Hne : ~ Forall (fun t => t = Sskip) ts) by (intros Hs%skip_seq; congruence).
    destruct (ahead_app ts [t] k) as [<-|]; [|done]. destruct (is_skip t) eqn:Ht.
    + apply skip_inv in Ht as ->. rewrite conts_skip. apply IH.
    + eapply rtc_l; [by split|]. rewrite conts_cons by done. apply IH.
Qed.

Lemma enter_seq ts k e s : rtc (steps_to step) (at_ (Seq ts) k e s) (at_list ts k e s).
Proof using. apply goes_rtc, goes_seq. Qed.

(** The statements run to the end, one after the other. *)
Inductive exec : list Stmt -> env -> memory -> env -> memory -> Prop :=
| exec_nil e s : exec [] e s e s
| exec_cons t ts e s e1 s1 e2 s2 :
    (forall k, rtc (steps_to step) (at_ t k e s) (at_ Sskip k e1 s1)) -> exec ts e1 s1 e2 s2 -> exec (t :: ts) e s e2 s2.

Lemma exec_app ts1 ts2 e s e1 s1 e2 s2 : exec ts1 e s e1 s1 -> exec ts2 e1 s1 e2 s2 -> exec (ts1 ++ ts2) e s e2 s2.
Proof using. induction 1; [done|]. intros. cbn. by econstructor; eauto. Qed.

Lemma skip_stays e s e' s' : (forall k, rtc (steps_to step) (at_ Sskip k e s) (at_ Sskip k e' s')) -> e = e' /\ s = s'.
Proof using.
  intros H. specialize (H []). inversion H as [|? y ? Hs]; [|by inversion Hs]. by destruct s, s'; cbn in *; simplify_eq.
Qed.

Lemma exec_ahead ts1 ts2 k e s e' s' :
  exec ts1 e s e' s' -> rtc (steps_to step) (at_list (ts1 ++ ts2) k e s) (at_list ts2 k e' s').
Proof using.
  unfold at_list. induction 1 as [|t ts e s e1 s1 e2 s2 Ht _ IH]; [apply rtc_refl|]. cbn [app]. destruct (is_skip t) eqn:Hs.
  - apply skip_inv in Hs as ->. rewrite ahead_skip. by destruct (skip_stays _ _ _ _ Ht) as [-> ->].
  - rewrite ahead_cons by done. etrans; [apply Ht|]. etrans; [apply enter_conts|]. exact IH.
Qed.

(** The statements, formed into one, and then the statement [t]. *)
Lemma exec_then ts t k e s e' s' :
  exec ts e s e' s' -> rtc (steps_to step) (at_ (Seq (ts ++ [t])) k e s) (at_ t k e' s').
Proof using.
  intros H. etrans; [apply enter_seq|]. etrans; [by eapply exec_ahead|]. unfold at_list. destruct (is_skip t) eqn:Ht.
  - apply skip_inv in Ht as ->. rewrite ahead_skip. apply rtc_refl.
  - rewrite ahead_cons by done. apply rtc_refl.
Qed.

Lemma exec_seq ts k e s e' s' : exec ts e s e' s' -> rtc (steps_to step) (at_ (Seq ts) k e s) (at_ Sskip k e' s').
Proof using.
  intros H. etrans; [apply enter_seq|]. pose proof (exec_ahead ts [] k _ _ _ _ H) as Hr. by rewrite app_nil_r in Hr.
Qed.

Lemma exec_one t e s e' s' : (forall k, rtc (steps_to step) (at_ t k e s) (at_ Sskip k e' s')) -> exec [t] e s e' s'.
Proof using. intros H. by econstructor; [apply H|constructor]. Qed.
End Lists.

(** ** Effects *)

(** Variables that are kept by name, and memory. *)
Record effects := mkEffects { ef_vars : gset string; ef_mem : bool }.

Definition no_effects : effects := mkEffects ∅ false.
Definition on_memory : effects := mkEffects ∅ true.
Definition both (E1 E2 : effects) : effects := mkEffects (ef_vars E1 ∪ ef_vars E2) (ef_mem E1 || ef_mem E2).
Definition all_of (l : list effects) : effects := foldr both no_effects l.

(** What is read does not depend on what is written. *)
Definition apart (R W : effects) : bool := bool_decide (ef_vars R ## ef_vars W) && negb (ef_mem R && ef_mem W).

Section Effects.
  Context (f : Function) (globals : list VarDecl) (tenv : gmap string Ctypes.Type_) (defs : gmap string (list Ctypes.Field)).
  Local Abbreviation type_of := (type_of tenv defs).

Definition of_variable (x : string) : effects := if is_param f x then mkEffects {[x]} false else on_memory.

(** The object an expression stands for. *)
Fixpoint object_of (a : Cabs.Expr) : effects :=
  match a with Cabs.Variable_ x => of_variable x | Cabs.Paren a => object_of a | _ => on_memory end.

(** What is left of an expression after its statements reads: for its address
    alone, or for its value. *)
Fixpoint reads (address : bool) (a : Cabs.Expr) : effects :=
  let own := if address then no_effects else object_of a in
  match a with
  | Cabs.Variable_ x => own
  | Cabs.Paren a => reads address a
  | Cabs.Unary Cabs.OpDeref a => both (reads false a) own
  | Cabs.Unary Cabs.OpAddrOf a => reads true a
  | Cabs.Unary (Cabs.OpPreInc | Cabs.OpPreDec | Cabs.OpPostInc | Cabs.OpPostDec) _ => no_effects
  | Cabs.Unary _ a => reads false a
  | Cabs.Binary op l r =>
      match kind_of op with
      | KAssign _ | KLogical _ => no_effects
      | KComma => reads false r
      | KPure _ => both (reads false l) (reads false r)
      end
  | Cabs.Index a i => both (both (reads (is_array (type_of a)) a) (reads false i)) own
  | Cabs.Member a _ arrow => both (reads (negb arrow) a) own
  | Cabs.Cast _ a => reads false a
  | _ => no_effects
  end.

(** What an expression writes. *)
Fixpoint writes (a : Cabs.Expr) : effects :=
  match a with
  | Cabs.Paren a | Cabs.Member a _ _ | Cabs.Cast _ a => writes a
  | Cabs.Unary op a => both (writes a) (match incdec_op op with Some _ => object_of a | None => no_effects end)
  | Cabs.Binary op l r => both (both (writes l) (writes r)) (match kind_of op with KAssign _ => object_of l | _ => no_effects end)
  | Cabs.Conditional a b c => both (writes a) (both (writes b) (writes c))
  | Cabs.Call g args => both (both (writes g) (all_of (writes <$> args))) on_memory
  | Cabs.Index a i => both (writes a) (writes i)
  | _ => no_effects
  end.

(** ** What the pass supports *)

(** The names of types that [TypeFromString] knows; it takes all others for
    [int]. *)
Fixpoint known_string (fuel : nat) (s : string) : bool :=
  let s := TrimSpace s in
  match basic_type s, fuel with
  | Some _, _ => true
  | None, Datatypes.S fuel =>
      if bool_decide (last_byte s = Some 42) then known_string fuel (TrimSpace (String.substring 0 (String.length s - 1) s))
      else bool_decide (is_Some (without_prefix "struct " s)) || bool_decide (is_Some (without_prefix "union " s))
  | None, O => false
  end.

Definition known_type (s : string) : bool := known_string (Datatypes.S (String.length s)) s.

(** Values are not arrays, or become pointers when they are converted. *)
Definition is_value (t : Type_) : bool := negb (is_array t).
Definition converts (t to : Type_) : bool := is_value t || is_pointer to.

(** The type on which increments work: integers that are not promoted. *)
Definition steps_in (t : Type_) : bool :=
  match t with
  | Some (Ctypes.Tint Ctypes.I32 _) | Some (Ctypes.Tlong _) => true
  | _ => false
  end.

(** Does the expression stand for an object that has an address? *)
Fixpoint in_memory (a : Cabs.Expr) : bool :=
  match a with
  | Cabs.Variable_ x => negb (is_param f x)
  | Cabs.Paren a => in_memory a
  | Cabs.Unary Cabs.OpDeref _ | Cabs.Index _ _ | Cabs.Member _ _ _ => true
  | _ => false
  end.

(** Callees that are addresses: what is left of them does not name a function. *)
Fixpoint address_callee (a : Cabs.Expr) : bool :=
  match a with
  | Cabs.Paren a => address_callee a
  | Cabs.Variable_ _ | Cabs.Unary Cabs.OpDeref _ | Cabs.Index _ _ | Cabs.Member _ _ _ | Cabs.Call _ _ => true
  | _ => false
  end.

(** The transformation gives the expression no statements. *)
Fixpoint plain (a : Cabs.Expr) : bool :=
  match a with
  | Cabs.Constant _ | Cabs.StringLiteral _ | Cabs.CharLiteral _ | Cabs.Variable_ _ | Cabs.SizeofExpr _ | Cabs.SizeofType _ => true
  | Cabs.Paren a | Cabs.Member a _ _ | Cabs.Cast _ a => plain a
  | Cabs.Unary op a => plain a && bool_decide (incdec_op op = None)
  | Cabs.Binary op l r =>
      match kind_of op with KComma | KPure _ => plain l && plain r | _ => false end
  | Cabs.Index a i => plain a && plain i
  | _ => false
  end.

Definition unary_ok (op : Cabs.UnaryOp) (a : Cabs.Expr) : bool :=
  let t := type_of a in
  match op with
  | Cabs.OpPlus | Cabs.OpNeg | Cabs.OpBitNot => is_value t && bool_decide (promote t = t)
  | Cabs.OpNot => is_value t
  | Cabs.OpAddrOf => true
  | Cabs.OpDeref => match t with Some (Ctypes.Tpointer elem) => bool_decide (complete defs elem = elem) | _ => false end
  | _ => steps_in t
  end.

Definition binary_ok (op : Cabs.BinaryOp) (l r : Cabs.Expr) : bool :=
  let t1 := type_of l in let t2 := type_of r in
  match kind_of op with
  | KAssign None =>
      match t1, t2 with
      | Some t, Some t' => apart (reads true l) (writes r) && bool_decide (is_Some (interface_eq t' t)) && converts t2 t1
      | _, _ => false
      end
  | KAssign (Some op') => apart (reads false l) (writes r) && is_value t1 && is_value t2 && bool_decide (binop_type op' t1 t2 = t1)
  | KComma => is_value t2
  | KLogical _ => is_value t1 && is_value t2
  | KPure op' =>
      apart (reads false l) (writes r) && is_value t1 && is_value t2 &&
      bool_decide (binop_type op' t1 t2 = if is_comparison op' then int else usualArithmeticConversion t1 t2)
  end.

Definition is_single (t : Type_) : bool := match t with Some (Ctypes.Tfloat Ctypes.F32) => true | _ => false end.

Definition argument_ok (param : option Ctypes.Type_) (t : Type_) : bool :=
  match param with Some p => converts t (Some p) | None => is_value t && negb (is_single t) end.

(** [expr_ok]: the checks on an expression, with those on its parts. *)
Section Parts.
  Context (expr_ok : Cabs.Expr -> bool).

Fixpoint args_ok (params : list Ctypes.Type_) (args : list Cabs.Expr) : bool :=
  match args with
  | [] => true
  | a :: args =>
      expr_ok a && argument_ok (head params) (type_of a) && apart (reads false a) (all_of (writes <$> args)) &&
      args_ok (tail params) args
  end.
End Parts.

Fixpoint expr_ok (a : Cabs.Expr) : bool :=
  match a with
  | Cabs.Constant n => (0 <=? n) && (n <=? 9223372036854775807)
  | Cabs.StringLiteral _ | Cabs.CharLiteral _ | Cabs.Variable_ _ => true
  | Cabs.Paren a => expr_ok a
  | Cabs.Unary op a => expr_ok a && unary_ok op a
  | Cabs.Binary op l r => expr_ok l && expr_ok r && binary_ok op l r
  | Cabs.Conditional c t e =>
      expr_ok c && expr_ok t && expr_ok e && is_value (type_of c) && is_value (type_of t) && is_value (type_of e) &&
      bool_decide (type_of t = type_of e) && bool_decide (type_of a = type_of t) &&
      (HasSideEffects t || HasSideEffects e || plain t && plain e)
  | Cabs.Call g args =>
      expr_ok g &&
      (bool_decide (is_Some (designator f globals g)) || address_callee g && apart (reads false g) (all_of (writes <$> args))) &&
      args_ok expr_ok (param_types (type_of g)) args
  | Cabs.Index a1 i =>
      expr_ok a1 && expr_ok i && apart (reads (is_array (type_of a1)) a1) (writes i) && is_value (type_of i) &&
      match type_of a1 with
      | Some (Ctypes.Tarray elem _) => bool_decide (complete defs elem = elem) && in_memory a1
      | Some (Ctypes.Tpointer elem) => bool_decide (complete defs elem = elem)
      | _ => false
      end
  | Cabs.Member a1 name arrow =>
      let t := if arrow : bool then target defs (type_of a1) else type_of a1 in
      expr_ok a1 && (if arrow then is_value (type_of a1) && is_pointer (type_of a1) else true) &&
      bool_decide (field_of_type defs t name = field_type (complete defs t) name)
  | Cabs.SizeofExpr _ | Cabs.SizeofType _ => false
  | Cabs.Cast s a1 =>
      known_type s && expr_ok a1 && converts (type_of a1) (type_of a) && bool_decide (type_of a = Some (typeFromString s))
  end.
End Effects.

(** ** Types and conversions *)

Lemma type_equal_refl t : type_equal t t = true.
Proof. destruct t; [apply Ctypes.Equal_refl|done]. Qed.

Lemma interface_eq_Equal a b : interface_eq a b = Some true -> Ctypes.Equal a b = true.
Proof.
  revert a b. fix IH 1. intros a b.
  destruct a as [|size sign|sign|size|elem|elem n|ps r v|name fields|name fields], b; cbn; try done.
  - by intros [= ->].
  - by intros [= ->].
  - by intros [= ->].
  - destruct elem, Elem; try done. apply IH.
  - destruct elem as [e|], Elem as [e'|]; try done; cbn.
    + destruct (interface_eq e e') as [[]|] eqn:E; try done; cbn. intros [= ->]. by apply IH.
    + by intros [= ->].
Qed.

Section Conversions.
  Context `{FO : FloatOps}.

Lemma sem_cast_same from to v : type_equal from to = true -> sem_cast from to v = Some v.
Proof using. intros H. unfold sem_cast, cast_conversion. by rewrite H, andb_false_r. Qed.

Lemma sem_cast_refl t v : sem_cast t t v = Some v.
Proof using. apply sem_cast_same, type_equal_refl. Qed.

(** Increments, by a constant of the type of the variable. *)
Lemma increment_run t op v w :
  steps_in t = true -> op = Oadd \/ op = Osub -> sem_binop op t int v (Vint 1) = Some w ->
  binop_type op t int = t /\ exists c, const_at 1 t = Some c /\ sem_binop op t t v c = Some w.
Proof using.
  intros Ht Hop. destruct t as [[|[] []|[]| | | | | |]|]; try done; destruct Hop as [-> | ->]; cbn; intros H;
    (split; [done|]; eexists; split; [reflexivity|]); exact H.
Qed.
(** An array that is converted to a pointer. *)
Lemma converts_cast t to v : converts t to = true -> sem_cast t to v = sem_cast (decay t) to v.
Proof using.
  unfold converts, is_value. destruct t as [[| | | | |elem n| | |]|]; try done. cbn. destruct to as [[| | | |elem'| | | |]|]; try done.
  intros _. unfold sem_cast, cast_conversion. cbn. by case_match.
Qed.

Lemma is_value_decay t : is_value t = true -> decay t = t.
Proof using. by destruct t as [[]|]. Qed.
End Conversions.

(** ** What evaluation changes *)

(** Takes a computation that gave a result apart. *)
Ltac unbind :=
  repeat match goal with
  | H : mbind _ _ = Some _ |- _ => let E := fresh "E" in apply bind_Some in H as (? & E & H); try done
  | H : fmap _ _ = Some _ |- _ => let E := fresh "E" in apply fmap_Some in H as (? & E & H); try done
  | H : (let '_ := ?p in _) = Some _ |- _ => match type of p with (_ * _)%type => destruct p end
  | H : Some _ = Some _ |- _ => injection H as H; subst
  | H : (_, _) = (_, _) |- _ => injection H as H; subst
  end; simplify_eq.

Section Changes.
  Context {M : Type}.
  Local Abbreviation memory := (gmap string val * M)%type.
  Implicit Types (s : memory) (R W : effects).

Definition changes W s s' : Prop :=
  (forall x, x ∉ ef_vars W -> s'.1 !! x = s.1 !! x) /\ (ef_mem W = false -> s'.2 = s.2).

Definition keeps R s s' : Prop :=
  (forall x, x ∈ ef_vars R -> s'.1 !! x = s.1 !! x) /\ (ef_mem R = true -> s'.2 = s.2).

Lemma changes_refl W s : changes W s s.
Proof using. by split. Qed.

Lemma changes_trans W1 W2 s1 s2 s3 : changes W1 s1 s2 -> changes W2 s2 s3 -> changes (both W1 W2) s1 s3.
Proof using.
  intros [Hv1 Hm1] [Hv2 Hm2]. split; cbn.
  - intros x [Hx1 Hx2]%not_elem_of_union. by rewrite Hv2, Hv1.
  - intros [H1 H2]%orb_false_iff. by rewrite Hm2, Hm1.
Qed.

Lemma changes_l W1 W2 s1 s2 : changes W1 s1 s2 -> changes (both W1 W2) s1 s2.
Proof using. intros H. exact (changes_trans _ _ _ _ _ H (changes_refl W2 s2)). Qed.

Lemma changes_r W1 W2 s1 s2 : changes W2 s1 s2 -> changes (both W1 W2) s1 s2.
Proof using. intros H. exact (changes_trans _ _ _ _ _ (changes_refl W1 s1) H). Qed.

Lemma keeps_refl R s : keeps R s s.
Proof using. by split. Qed.

Lemma keeps_trans R s1 s2 s3 : keeps R s1 s2 -> keeps R s2 s3 -> keeps R s1 s3.
Proof using.
  intros [Hv1 Hm1] [Hv2 Hm2]. split.
  - intros x Hx. by rewrite Hv2, Hv1.
  - intros H. by rewrite Hm2, Hm1.
Qed.

Lemma keeps_both R1 R2 s s' : keeps (both R1 R2) s s' <-> keeps R1 s s' /\ keeps R2 s s'.
Proof using.
  unfold keeps. cbn. split.
  - intros [Hv Hm]. split; (split; [intros x Hx; apply Hv; set_solver|intros H; apply Hm; by rewrite H, ?orb_true_r]).
  - intros [[Hv1 Hm1] [Hv2 Hm2]]. split; [intros x [Hx|Hx]%elem_of_union; auto|intros [H|H]%orb_true_iff; auto].
Qed.

Lemma keeps_nothing s s' : keeps no_effects s s'.
Proof using. split; [intros x Hx; by apply not_elem_of_empty in Hx|done]. Qed.

Lemma apart_keeps R W s s' : apart R W = true -> changes W s s' -> keeps R s s'.
Proof using.
  unfold apart. rewrite andb_true_iff, bool_decide_eq_true, negb_true_iff, andb_false_iff. intros [Hd Hmem] [Hv Hm]. split.
  - intros x Hx. apply Hv. set_solver.
  - intros Hr. apply Hm. destruct Hmem as [H|H]; congruence.
Qed.
End Changes.

Section Evaluation.
  Context {M : Type} `{FO : FloatOps} `{LO : Layout} `{TS : TargetSemantics val M}.
  Context {VT : ValueTarget M} {darwin : bool} {PC : PseudoCalls val M darwin}.
  Context (f : Function) (globals : list VarDecl) (place : string -> Z) (lit : string -> val).
  Context (tenv : gmap string Ctypes.Type_) (defs : gmap string (list Ctypes.Field)).
  Local Abbreviation memory := (gmap string val * M)%type.
  Local Abbreviation type_of := (type_of tenv defs).
  Local Abbreviation eval := (eval (PC := PC) f globals place lit tenv defs).
  Local Abbreviation value := (value (PC := PC) f globals place lit tenv defs).
  Implicit Types (s : memory).

Definition object_in (o : object) (E : effects) : Prop :=
  match o with OVar x => x ∈ ef_vars E | OMem _ => ef_mem E = true end.

Lemma as_object_Some (r : answer * memory) o s : as_object r = Some (o, s) -> r = (Obj o, s).
Proof using. destruct r as [[|] ?]; cbn; congruence. Qed.

Lemma use_state t (r : answer * memory) v s : use t r = Some (v, s) -> s = r.2.
Proof using VT. unfold use. destruct r as [[o|w] s1]; cbn; intros H; unbind; done. Qed.

Lemma write_changes t o v s s' E : write t o v s = Some s' -> object_in o E -> changes E s s'.
Proof using.
  intros H Ho. destruct o as [x|p]; cbn in H, Ho; unbind.
  - split; [|done]. intros y Hy. cbn. rewrite lookup_insert_ne; [done|]. by intros ->.
  - destruct (access_mode t); unbind. split; [done|congruence].
Qed.

Lemma assign_changes from t o v s w s' E : assign from t o v s = Some (w, s') -> object_in o E -> changes E s s'.
Proof using. unfold assign. intros H Ho. unbind. by eapply write_changes. Qed.

Lemma eval_unary_object op t r o s : eval_unary op t r = Some (Obj o, s) -> op = Cabs.OpDeref /\ exists p, o = OMem p.
Proof using.
  destruct op, r as [[o1|v1] s1]; cbn; unfold increment; intros H; unbind; eauto; by case_match; unbind.
Qed.

Lemma eval_unary_changes op t r r' s' E :
  eval_unary op t r = Some (r', s') -> (forall o, r.1 = Obj o -> object_in o E) ->
  changes (match incdec_op op with Some _ => E | None => no_effects end) r.2 s'.
Proof using VT.
  unfold eval_unary. destruct (incdec_op op) as [[op1 pre]|].
  - unfold increment. intros H Ho. unbind. apply as_object_Some in E0 as ->. cbn in Ho.
    eapply assign_changes; [done|]. by apply Ho.
  - intros H _. assert (s' = r.2) as ->; [|apply changes_refl]. destruct (arith_unop op); [unbind; by eapply use_state|].
    destruct op; unbind; try (by eapply use_state). destruct o; unbind. by apply as_object_Some in E0 as ->.
Qed.

Lemma eval_object a s o s' : eval a s = Some (Obj o, s') -> object_in o (object_of f a).
Proof using.
  revert s o s'.
  induction a as [n|b|c|x|op a1 IH|op l r IHl IHr|a1 IH|c t e _ _ _|g args _ _|a1 i _ _|a1 x arrow _|a1 _|t|t a1 _]
    using Cabs.Expr_nested_ind; intros s o s' H; cbn [CabsSem.eval object_of] in *.
  all: try (unbind; done).
  - unbind. unfold variable in *. unfold of_variable. destruct (is_param f x); unbind; cbn; set_solver.
  - unbind. by apply eval_unary_object in H as [-> [p ->]].
  - by destruct (kind_of op) as [[]| | |]; unbind; try case_match; unbind.
  - by eapply IH.
  - unbind. by case_match; unbind.
Qed.

Lemma object_in_both o E1 E2 : object_in o E2 -> object_in o (both E1 E2).
Proof using. destruct o; cbn; [intros H; apply elem_of_union; by right|intros ->; by rewrite orb_true_r]. Qed.

Lemma eval_own a s o s' : eval a s = Some (Obj o, s') -> object_in o (reads f tenv defs false a).
Proof using.
  intros H. pose proof (eval_object a s o s' H) as Ho. revert s o s' H Ho.
  induction a as [n|b|c|x|op a1 _|op l r _ _|a1 IH|c t e _ _ _|g args _ _|a1 i _ _|a1 x arrow _|a1 _|t|t a1 _]
    using Cabs.Expr_nested_ind; intros s o s' H Ho; cbn [reads object_of] in *; try (by apply object_in_both).
  all: try (cbn [CabsSem.eval] in H; unbind; done).
  - cbn [CabsSem.eval] in H. unbind. apply eval_unary_object in H as [-> _]. by apply object_in_both.
  - cbn [CabsSem.eval] in H. by destruct (kind_of op) as [[]| | |]; unbind; try case_match; unbind.
  - by eapply IH.
  - cbn [CabsSem.eval] in H. unbind. by case_match; unbind.
Qed.

(** Only what [writes] says changes. *)
Lemma value_writes a s v s' :
  (forall s r s', eval a s = Some (r, s') -> changes (writes f a) s s') -> value a s = Some (v, s') -> changes (writes f a) s s'.
Proof using. intros H Hv. unfold CabsSem.value in Hv. unbind. apply use_state in Hv as ->. destruct x. by eapply H. Qed.

Lemma evaluate_args_writes args :
  Forall (fun a => forall s r s', eval a s = Some (r, s') -> changes (writes f a) s s') args ->
  forall params s vs s', evaluate_args tenv defs value params args s = Some (vs, s') ->
    changes (all_of (writes f <$> args)) s s'.
Proof using.
  induction 1 as [|a args Ha _ IH]; intros params s vs s' H; cbn in H; unbind; [apply changes_refl|].
  eapply changes_trans; [by eapply value_writes|by eapply IH].
Qed.

(** What one evaluation after another changes. *)
Ltac note_changes :=
  repeat match goal with
  | H : use _ _ = Some _ |- _ => apply use_state in H
  | H : as_object _ = Some _ |- _ => apply as_object_Some in H
  | H : CabsSem.eval _ _ _ _ _ _ _ _ = Some ?x |- _ => is_var x; destruct x
  end; simplify_eq; cbn [fst snd] in *;
  repeat match goal with
  | H : CabsSem.eval _ _ _ _ _ _ ?a ?s = Some (_, ?s1), IH : forall s r s', CabsSem.eval _ _ _ _ _ _ ?a s = Some (r, s') -> _ |- _ =>
      lazymatch goal with
      | _ : changes _ s s1 |- _ => fail
      | _ => let Hc := fresh "Hc" in pose proof (IH _ _ _ H) as Hc
      end
  | H : assign _ _ _ _ _ = Some _, E : CabsSem.eval _ _ _ _ _ _ _ _ = Some (Obj _, _) |- _ =>
      apply eval_object in E; eapply assign_changes in H; [|exact E]
  end.

Lemma eval_writes a s r s' : eval a s = Some (r, s') -> changes (writes f a) s s'.
Proof using.
  revert s r s'.
  induction a as [n|b|c|x|op a1 IH|op l r1 IHl IHr|a1 IH|c t e IHc IHt IHe|g args IHg IHargs|a1 i IHa IHi|a1 x arrow IH|a1 _|t|t a1 IH]
    using Cabs.Expr_nested_ind; intros s r s' H; cbn [CabsSem.eval writes] in *; unbind; try apply changes_refl.
  - destruct x as [r1 s1]. eapply changes_trans; [by eapply IH|].
    apply (eval_unary_changes op (type_of a1) (r1, s1) r s' _ H). cbn. intros o ->. by eapply eval_object.
  - destruct (kind_of op) as [[op'|]| |or|op']; unbind; try case_match; unbind; note_changes;
      eauto using changes_trans, changes_l.
  - by eapply IH.
  - case_match; unbind; note_changes; eauto using changes_trans, changes_l, changes_r.
  - assert (Ha : changes (all_of (writes f <$> args)) p p0) by (by eapply evaluate_args_writes).
    apply changes_trans with (s2 := p0); [|by split]. apply changes_trans with (s2 := p); [|done].
    destruct (designator f globals g); unbind; [apply changes_refl|]. note_changes. done.
  - note_changes. eauto using changes_trans.
  - destruct arrow; unbind; note_changes; [done|]. case_match; unbind; done.
  - note_changes. done.
Qed.

(** ** What is left of an expression *)

Local Abbreviation step := (cl_step (PC := PC) f globals place lit).
Local Abbreviation env := (gmap Z val).
Local Abbreviation exec := (exec (PC := PC) f globals place lit).
Local Abbreviation residue e s r := (cl_expr f place lit e s.1 s.2 r).
Implicit Types (e : env) (Q : env -> memory -> Prop).

(** The object a Clight expression stands for. *)
Definition object_at e s (r : Expr) : option object :=
  match param_name f r with Some x => Some (OVar x) | None => OMem <$> cl_lvalue f place lit e s.1 s.2 r end.

Lemma deref_address e s r t : cl_lvalue f place lit e s.1 s.2 (Ederef r t) = residue e s r.
Proof using. done. Qed.

Lemma deref_value e s r t : residue e s (Ederef r t) = (p ← residue e s r; access t p s.2).
Proof using. done. Qed.

Lemma binop_value e s op a b t :
  residue e s (Ebinop op a b t) = (v1 ← residue e s a; v2 ← residue e s b; sem_binop op (ExprType a) (ExprType b) v1 v2).
Proof using. done. Qed.

Lemma object_value e s r o : object_at e s r = Some o -> residue e s r = read (ExprType r) o s.
Proof using.
  unfold object_at. destruct r; cbn [param_name ExprType]; intros H; try done.
  - cbn in *. destruct (is_param f Name); unbind; [done|]. cbn. by rewrite E.
  - unbind. rewrite deref_address in E. by rewrite deref_value, E.
  - unbind. rewrite field_value. rewrite field_address in E. destruct (cl_lvalue f place lit e s.1 s.2 r); [|done]. cbn in *.
    destruct (field_place _ _); [|done]. cbn in *. by rewrite E.
Qed.

Lemma cl_assign_object e s r o v : object_at e s r = Some o -> cl_assign f place lit e s.1 s.2 r v = write (ExprType r) o v s.
Proof using.
  unfold object_at, cl_assign. destruct (param_name f r) as [x|]; intros H; unbind; [done|]. cbn. rewrite E.
  by destruct (access_mode (ExprType r)).
Qed.

Definition agree (lo hi : Z) e e' : Prop := forall id, lo <= id < hi -> e' !! id = e !! id.
Definition frame (lo hi : Z) e e' : Prop := forall id, ~ lo <= id < hi -> e' !! id = e !! id.

(** The statements, which use the temporaries from [lo] to [hi], lead from [s] to
    [s'], and then [Q] holds, for as long as these temporaries and what [R] says
    stay as they are. *)
Definition yields (ts : list Stmt) (lo hi : Z) R Q s s' : Prop :=
  forall e, exists e', exec ts e s e' s' /\ frame lo hi e e' /\
    forall e2 s2, agree lo hi e' e2 -> keeps R s' s2 -> Q e2 s2.

Lemma yields_nil lo R Q s : (forall e s2, keeps R s s2 -> Q e s2) -> yields [] lo lo R Q s s.
Proof using. intros HQ e. exists e. split; [constructor|]. split; [by intros id|]. intros e2 s2 _. apply HQ. Qed.

Lemma yields_weaken ts lo hi R R' Q Q' s s' :
  yields ts lo hi R Q s s' -> (forall s2, keeps R' s' s2 -> keeps R s' s2) ->
  (forall e s2, keeps R' s' s2 -> Q e s2 -> Q' e s2) -> yields ts lo hi R' Q' s s'.
Proof using.
  intros H HR HQ e. destruct (H e) as (e' & Hx & Hf & Hq). exists e'. split; [done|]. split; [done|].
  intros e2 s2 Ha Hk. apply HQ; [done|]. apply Hq; [done|by apply HR].
Qed.

(** One expression after the other; what the first leaves is still there. *)
Lemma yields_pair ts1 ts2 lo mid hi R1 R2 Q1 Q2 s s1 s2 :
  lo <= mid <= hi -> yields ts1 lo mid R1 Q1 s s1 -> yields ts2 mid hi R2 Q2 s1 s2 -> keeps R1 s1 s2 ->
  yields (ts1 ++ ts2) lo hi (both R1 R2) (fun e s => Q1 e s /\ Q2 e s) s s2.
Proof using.
  intros Hmid H1 H2 Hk e. destruct (H1 e) as (e1 & Hx1 & Hf1 & Hq1). destruct (H2 e1) as (e2 & Hx2 & Hf2 & Hq2).
  exists e2. split; [by eapply exec_app|]. split.
  - intros id Hid. rewrite Hf2, Hf1 by lia. done.
  - intros e3 s3 Ha [Hk1 Hk2]%keeps_both. split.
    + apply Hq1; [|by eapply keeps_trans]. intros id Hid. rewrite Ha by lia. apply Hf2. lia.
    + apply Hq2; [|done]. intros id Hid. apply Ha. lia.
Qed.

(** Then a temporary is set. *)
Lemma yields_set ts lo hi R Q s s' rhs v :
  lo <= hi -> yields ts lo hi R Q s s' -> (forall e, Q e s' -> residue e s' rhs = Some v) ->
  yields (ts ++ [Sset hi rhs]) lo (hi + 1) R (fun e s => Q e s /\ e !! hi = Some v) s s'.
Proof using.
  intros Hlo H HQ e. destruct (H e) as (e1 & Hx & Hf & Hq). exists (<[hi := v]> e1). split; [|split].
  - eapply exec_app; [done|]. apply exec_one. intros k. apply rtc_once. unfold steps_to, at_. cbn.
    by rewrite HQ by (apply Hq; [by intros id|apply keeps_refl]).
  - intros id Hid. rewrite lookup_insert_ne by lia. apply Hf. lia.
  - intros e2 s2 Ha Hk. split.
    + apply Hq; [|done]. intros id Hid. rewrite Ha, lookup_insert_ne by lia. done.
    + rewrite Ha, lookup_insert_eq by lia. done.
Qed.

(** Then an object gets a value. *)
Lemma yields_assign ts lo hi R Q Q' s s1 s2 lhs rhs o v :
  yields ts lo hi R Q s s1 ->
  (forall e, Q e s1 -> object_at e s1 lhs = Some o /\ residue e s1 rhs = Some v) ->
  write (ExprType lhs) o v s1 = Some s2 -> (forall e1 e2 s3, Q e1 s1 -> agree lo hi e1 e2 -> Q' e2 s3) ->
  yields (ts ++ [Sassign lhs rhs]) lo hi no_effects Q' s s2.
Proof using.
  intros H HQ Hw HQ' e. destruct (H e) as (e1 & Hx & Hf & Hq). exists e1.
  assert (Hq1 : Q e1 s1) by (apply Hq; [by intros id|apply keeps_refl]). destruct (HQ e1 Hq1) as [Ho Hv]. split; [|split; [done|]].
  - eapply exec_app; [done|]. apply exec_one. intros k. apply rtc_once. unfold steps_to, at_. cbn [cl_step].
    rewrite Hv. cbn. by rewrite (cl_assign_object _ _ _ _ _ Ho), Hw.
  - intros e2 s3 Ha _. by eapply HQ'.
Qed.

(** A temporary is set, and the object then gets a value. *)
Lemma yields_store ts lo hi R Q s s1 s2 lhs rhs rhs2 o w v :
  lo <= hi -> yields ts lo hi R Q s s1 -> (forall e, Q e s1 -> residue e s1 rhs = Some w) ->
  (forall e, Q e s1 -> e !! hi = Some w -> object_at e s1 lhs = Some o /\ residue e s1 rhs2 = Some v) ->
  write (ExprType lhs) o v s1 = Some s2 ->
  yields (ts ++ [Sset hi rhs; Sassign lhs rhs2]) lo (hi + 1) no_effects (fun e _ => e !! hi = Some w) s s2.
Proof using.
  intros Hlo H Hw Ho Hs. change [Sset hi rhs; Sassign lhs rhs2] with ([Sset hi rhs] ++ [Sassign lhs rhs2]). rewrite app_assoc.
  eapply yields_assign; [eapply yields_set; [done|exact H|exact Hw]| |exact Hs|].
  - intros e [Hq He]. by apply Ho.
  - intros e1 e2 s3 [_ He] Ha. rewrite Ha by lia. done.
Qed.

(** ** Translations *)

Definition holds (rv : answer) (r : Expr) e s : Prop :=
  match rv with Val v => residue e s r = Some v | Obj o => object_at e s r = Some o end.

Definition is_object (rv : answer) : bool := match rv with Obj _ => true | Val _ => false end.

(** [r], which uses the temporaries from [lo] to [hi], does what [a] does. *)
Definition translates a (r : TransformResult) (lo hi : Z) : Prop :=
  lo <= hi /\ ExprType (Expr_ r) = type_of a /\
  forall s rv s', eval a s = Some (rv, s') ->
    yields (Stmts r) lo hi (reads f tenv defs (is_object rv) a) (holds rv (Expr_ r)) s s'.

Lemma reads_address a s s' : keeps (reads f tenv defs false a) s s' -> keeps (reads f tenv defs true a) s s'.
Proof using.
  assert (Hboth : forall R1 R2, keeps (both R1 R2) s s' -> keeps (both R1 no_effects) s s')
    by (intros R1 R2 [H1 H2]%keeps_both; apply keeps_both; split; [done|apply keeps_nothing]).
  induction a; cbn; try done; try apply keeps_nothing; try apply Hboth.
  destruct Op; try done; apply Hboth.
Qed.

Lemma read_keeps t o s s' R : object_in o R -> keeps R s s' -> read t o s' = read t o s.
Proof using VT. intros Ho [Hv Hm]. destruct o; cbn in *; [by apply Hv|by rewrite Hm]. Qed.

Lemma translates_value a r lo hi s v s' :
  translates a r lo hi -> value a s = Some (v, s') ->
  yields (Stmts r) lo hi (reads f tenv defs false a) (fun e s => residue e s (Expr_ r) = Some v) s s'.
Proof using.
  intros (_ & Ht & Hr) Hv. unfold CabsSem.value in Hv. unbind. destruct x as [[o|w] s1].
  - unfold use in Hv. cbn in Hv. unbind. eapply yields_weaken; [by apply (Hr s (Obj o))|apply reads_address|].
    cbn. intros e s2 Hk Ho. rewrite (object_value _ _ _ _ Ho), Ht. by rewrite (read_keeps _ _ _ s2 _ (eval_own _ _ _ _ E) Hk).
  - unfold use in Hv. cbn in Hv. simplify_eq. by apply (Hr s (Val v)).
Qed.

Lemma translates_object a r lo hi s o s' :
  translates a r lo hi -> eval a s ≫= as_object = Some (o, s') ->
  eval a s = Some (Obj o, s') /\
  yields (Stmts r) lo hi (reads f tenv defs true a) (fun e s => object_at e s (Expr_ r) = Some o) s s'.
Proof using.
  intros (_ & _ & Hr) Ho. unbind. apply as_object_Some in Ho as ->. split; [done|]. by apply (Hr s (Obj o)).
Qed.

(** Something without statements. *)
Lemma translates_pure a r lo :
  ExprType r = type_of a ->
  (forall s rv s', eval a s = Some (rv, s') ->
    s' = s /\ forall e s2, keeps (reads f tenv defs (is_object rv) a) s s2 -> holds rv r e s2) ->
  translates a (pure r) lo lo.
Proof using.
  intros Ht H. split; [done|]. split; [done|]. intros s rv s' E. destruct (H s rv s' E) as [-> Hh]. by apply yields_nil.
Qed.

Lemma constant_translates n lo :
  0 <= n <= 9223372036854775807 -> translates (Cabs.Constant n) (pure (Econst_int n (Some (constant_type n)))) lo lo.
Proof using.
  intros Hn. assert (Ht : Some (constant_type n) = type_of (Cabs.Constant n)).
  { cbn. unfold constant_type. rewrite (proj2 (Z.leb_le (-2147483648) n)), (proj2 (Z.leb_le n 9223372036854775807)) by lia. cbn.
    by destruct (n <=? 2147483647). }
  apply translates_pure; [done|]. intros s rv s' H. cbn [CabsSem.eval] in H. unbind. split; [done|]. intros e s2 _. cbn [holds].
  cbn. rewrite Ht. done.
Qed.

Lemma literal_escapes b b' : literal_bytes b = Some b' -> processEscapeSequences b = b'.
Proof using.
  revert b'. induction b as [b IH] using (induction_ltof1 _ String.length). unfold ltof in IH. intros b'.
  destruct b as [|c [|d rest]]; cbn; try congruence.
  - destruct (byte c =? 92); [done|]. congruence.
  - destruct (byte c =? 92) eqn:Ec.
    + destruct (escape d) as [n|]; [|done]. cbn. destruct ((byte d =? 48) && is_octal rest); [done|]. intros H. unbind.
      f_equal. apply IH; [cbn; lia|done].
    + intros H. apply fmap_Some in H as (b1 & H & ->). f_equal. exact (IH (String d rest) ltac:(cbn; lia) b1 H).
Qed.

Lemma literal_char_value c n : literal_char c = Some n -> char_value c = n /\ 0 <= n <= 127.
Proof using.
  destruct c as [|c [|d [|]]]; cbn; try done.
  - destruct (byte c =? 92) eqn:E; [done|]. cbn. destruct (127 <? byte c) eqn:El; [done|]. intros [= <-]. split; [done|].
    unfold byte in *. lia.
  - destruct (byte c =? 92); [|done]. intros H. rewrite H. split; [done|]. unfold escape in H. by repeat case_match; simplify_eq.
Qed.

Lemma string_translates b lo :
  translates (Cabs.StringLiteral b) (pure (Estring (processEscapeSequences b) (Some (Ctypes.Pointer (Some Ctypes.Char))))) lo lo.
Proof using.
  apply translates_pure; [done|]. intros s rv s' H. cbn [CabsSem.eval] in H. unbind. split; [done|]. intros e s2 _. cbn.
  by rewrite (literal_escapes b x).
Qed.

Lemma char_translates c lo : translates (Cabs.CharLiteral c) (pure (Econst_int (char_value c) int)) lo lo.
Proof using.
  apply translates_pure; [done|]. intros s rv s' H. cbn [CabsSem.eval] in H. unbind. split; [done|]. intros e s2 _. cbn.
  destruct (literal_char_value c x) as [-> Hx]; [done|]. rewrite i32_id; [done|]. unfold in_i32. lia.
Qed.

Lemma variable_translates x lo :
  translates (Cabs.Variable_ x) (pure (Evar x (Some (ResolveStruct defs (GetType tenv x))))) lo lo.
Proof using.
  apply translates_pure; [done|]. intros s rv s' H. cbn [CabsSem.eval] in H. unbind. split; [done|]. intros e s2 _.
  cbn. unfold variable, object_at in *. cbn. destruct (is_param f x); unbind; [done|]. cbn. by simplify_option_eq.
Qed.

(** *** Unary operators *)

(** The transformer is that of the function. *)
Definition well (st : Transformer) : Prop := typeEnv st = tenv /\ structDefs st = defs.

(** What code of the pass makes of [a], from the temporary [lo] on. *)
Definition makes (a : Cabs.Expr) (lo : Z) (o : option (TransformResult * Transformer)) : Prop :=
  exists r st, o = Some (r, st) /\ well st /\ translates a r lo (nextTempID st).

Lemma newTemp_well typ st : well st -> well (mkTransformer (nextTempID st + 1) (tempTypes st ++ [typ]) (typeEnv st) (structDefs st)).
Proof using. done. Qed.

Lemma use_value a s x v s' : eval a s = Some x -> use (type_of a) x = Some (v, s') -> value a s = Some (v, s').
Proof using VT. intros E H. unfold CabsSem.value. by rewrite E. Qed.

Lemma object_eval a s x o s' : eval a s = Some x -> as_object x = Some (o, s') -> eval a s ≫= as_object = Some (o, s').
Proof using VT. intros E H. by rewrite E. Qed.

(** The rest of the evaluation of [a'] is applied to the value of [a], and what is
    left of it is made from what is left of [a]. *)
Lemma value_step a a' r r' lo hi :
  translates a r lo hi -> ExprType r' = type_of a' ->
  (forall s rv s', eval a' s = Some (rv, s') -> exists v, value a s = Some (v, s') /\
     (forall s2, keeps (reads f tenv defs (is_object rv) a') s' s2 -> keeps (reads f tenv defs false a) s' s2) /\
     forall e s2, keeps (reads f tenv defs (is_object rv) a') s' s2 -> residue e s2 (Expr_ r) = Some v -> holds rv r' e s2) ->
  translates a' (mkResult r' (Stmts r)) lo hi.
Proof using.
  intros Ha Ht H. split; [by destruct Ha|]. split; [done|]. intros s rv s' E.
  destruct (H s rv s' E) as (v & Hv & HR & HQ). exact (yields_weaken _ _ _ _ _ _ _ _ _ (translates_value _ _ _ _ _ _ _ Ha Hv) HR HQ).
Qed.

Lemma object_step a a' r r' lo hi :
  translates a r lo hi -> ExprType r' = type_of a' ->
  (forall s rv s', eval a' s = Some (rv, s') -> exists o, eval a s ≫= as_object = Some (o, s') /\
     (forall s2, keeps (reads f tenv defs (is_object rv) a') s' s2 -> keeps (reads f tenv defs true a) s' s2) /\
     forall e s2, keeps (reads f tenv defs (is_object rv) a') s' s2 -> object_at e s2 (Expr_ r) = Some o -> holds rv r' e s2) ->
  translates a' (mkResult r' (Stmts r)) lo hi.
Proof using.
  intros Ha Ht H. split; [by destruct Ha|]. split; [done|]. intros s rv s' E.
  destruct (H s rv s' E) as (o & Ho & HR & HQ). destruct (translates_object _ _ _ _ _ _ _ Ha Ho) as [_ Hy].
  exact (yields_weaken _ _ _ _ _ _ _ _ _ Hy HR HQ).
Qed.

Lemma object_in_memory e s r p : object_at e s r = Some (OMem p) -> cl_lvalue f place lit e s.1 s.2 r = Some p.
Proof using. unfold object_at. destruct (param_name f r); [done|]. intros H. unbind. done. Qed.

Lemma translates_type a r lo hi : translates a r lo hi -> ExprType (Expr_ r) = type_of a.
Proof using. by intros (_ & H & _). Qed.

(** A value in a temporary, which does not depend on anything else. *)
Lemma temp_value ts lo hi id t v a rv s s' :
  rv = Val v -> yields ts lo hi no_effects (fun e _ => e !! id = Some v) s s' ->
  yields ts lo hi (reads f tenv defs (is_object rv) a) (holds rv (Etempvar id t)) s s'.
Proof using. intros -> H. eapply yields_weaken; [exact H|intros s2 _; apply keeps_nothing|]. cbn. done. Qed.

Lemma incdec_translates op op' pre a r lo st :
  translates a r lo (nextTempID st) -> incdec_op op = Some (op', pre) -> steps_in (type_of a) = true -> well st ->
  makes (Cabs.Unary op a) lo (transformIncDec r op' pre st).
Proof using.
  intros Ha Hop Ht Hst. pose proof (translates_type _ _ _ _ Ha) as Htr. unfold transformIncDec. rewrite Htr. cbn.
  eexists _, _. split; [reflexivity|]. split; [by apply newTemp_well|]. assert (Hlo : lo <= nextTempID st) by apply Ha.
  split; [cbn; lia|]. split; [by destruct op|]. intros s rv s' E. cbn [CabsSem.eval] in E. unfold eval_unary, increment in E. rewrite Hop in E. unbind.
  rename s' into s2. assert (Ho : eval a s ≫= as_object = Some (o, p)) by (by eapply object_eval).
  destruct (translates_object _ _ _ _ _ _ _ Ha Ho) as [Ev Hy].
  assert (Hops : op' = Oadd \/ op' = Osub) by (destruct op; cbn in Hop; simplify_eq; auto).
  match goal with H : sem_binop _ _ _ ?v _ = Some ?w |- _ => destruct (increment_run _ _ _ _ Ht Hops H) as (Hb & c & Hc & Hw) end.
  rewrite Hb in *. match goal with H : assign _ _ _ _ _ = Some _ |- _ => unfold assign in H; rewrite sem_cast_refl in H end. unbind.
  match goal with H : read _ _ _ = Some ?v |- _ =>
    assert (Hrhs : forall e, object_at e p (Expr_ r) = Some o -> residue e p (Expr_ r) = Some v) by
      (intros e Ho'; by rewrite (object_value _ _ _ _ Ho'), Htr)
  end.
  assert (Hcomp : forall e, object_at e p (Expr_ r) = Some o ->
    residue e p (Ebinop op' (Expr_ r) (Econst_int 1 (type_of a)) (type_of a)) = Some v).
  { intros e Ho'%Hrhs. cbn in *. rewrite Ho'. cbn. rewrite Hc. cbn. by rewrite Htr. }
  cbn [SimplExpr.nextTempID SimplExpr.Stmts SimplExpr.Expr_]. destruct pre; (eapply temp_value; [reflexivity|]).
  - eapply yields_store; [done|exact Hy|exact Hcomp| |by rewrite Htr]. intros e Hq He. by split.
  - eapply yields_store; [done|exact Hy|exact Hrhs| |by rewrite Htr]. intros e Hq He. split; [done|by apply Hcomp].
Qed.

Lemma unary_translates op a r lo st :
  translates a r lo (nextTempID st) -> unary_ok tenv defs op a = true -> well st ->
  makes (Cabs.Unary op a) lo (transformUnary op r st).
Proof using.
  intros Ha Hok Hst. pose proof (translates_type _ _ _ _ Ha) as Htr. unfold unary_ok in Hok.
  assert (Hval : forall s x v s' (P : Prop), eval a s = Some x -> use (type_of a) x = Some (v, s') -> P ->
    value a s = Some (v, s') /\ P) by (intros s x v s' P E H HP; split; [by eapply use_value|exact HP]).
  assert (Hdecay : is_value (type_of a) = true -> decay (type_of a) = ExprType (Expr_ r)) by (rewrite Htr; apply is_value_decay).
  destruct op; try (by eapply incdec_translates); rewrite ?andb_true_iff, ?bool_decide_eq_true in Hok;
    cbn [transformUnary]; eexists _, _; (split; [reflexivity|]); (split; [exact Hst|]);
    (match goal with |- translates (Cabs.Unary Cabs.OpAddrOf _) _ _ _ => eapply object_step | _ => eapply value_step end;
    [exact Ha|try (cbn; intuition congruence)|]); try (intros s rv s' E; cbn [CabsSem.eval] in E; unfold eval_unary in E; cbn [incdec_op arith_unop] in E; unbind).
  - eexists. eapply Hval; [done..|]. split; [done|]. intros e s2 _ Hr. cbn in *. rewrite Hr. cbn. by rewrite <- Hdecay by apply Hok.
  - eexists. eapply Hval; [done..|]. split; [done|]. intros e s2 _ Hr. cbn in *. rewrite Hr. cbn. by rewrite <- Hdecay.
  - eexists. eapply Hval; [done..|]. split; [done|]. intros e s2 _ Hr. cbn in *. rewrite Hr. cbn. by rewrite <- Hdecay by apply Hok.
  - destruct o as [|q]; unbind. exists (OMem q). split; [by eapply object_eval|]. split; [done|]. intros e s2 _ Ho. cbn.
    by apply object_in_memory.
  - cbn. rewrite Htr. destruct (type_of a) as [[]|]; try done. cbn. by apply bool_decide_eq_true in Hok.
  - eexists. eapply Hval; [done..|]. split; [by intros s2 [Hk _]%keeps_both|]. intros e s2 _ Hr. unfold holds, object_at. cbn [param_name].
    by rewrite deref_address, Hr.
  - change (ExprType (Expr_ r) = promote (type_of a)). intuition congruence.
  - eexists. eapply Hval; [done..|]. by split.
Qed.

(** *** Binary operators *)

Lemma assign_inv from t o v s w s' :
  assign from t o v s = Some (w, s') -> sem_cast from t v = Some w /\ write t o w s = Some s'.
Proof using VT. unfold assign. intros H. by unbind. Qed.

Lemma yields_widen ts lo hi lo' hi' R Q s s' : yields ts lo hi R Q s s' -> lo' <= lo -> hi <= hi' -> yields ts lo' hi' R Q s s'.
Proof using.
  intros H Hlo Hhi e. destruct (H e) as (e' & Hx & Hf & Hq). exists e'. split; [done|]. split.
  - intros id Hid. apply Hf. lia.
  - intros e2 s2 Ha. apply Hq. intros id Hid. apply Ha. lia.
Qed.

Lemma yields_forget ts lo hi R Q s s' : yields ts lo hi R Q s s' -> yields ts lo hi no_effects (fun _ _ => True) s s'.
Proof using. intros H e. destruct (H e) as (e' & Hx & Hf & _). by exists e'. Qed.

(** The object and what it holds. *)
Lemma translates_read a r lo hi s o s' v :
  translates a r lo hi -> eval a s ≫= as_object = Some (o, s') -> read (type_of a) o s' = Some v ->
  yields (Stmts r) lo hi (reads f tenv defs false a)
    (fun e s => object_at e s (Expr_ r) = Some o /\ residue e s (Expr_ r) = Some v) s s'.
Proof using.
  intros Ha Ho Hv. destruct (translates_object _ _ _ _ _ _ _ Ha Ho) as [E Hy]. eapply yields_weaken; [exact Hy|apply reads_address|].
  intros e s2 Hk Hq. split; [done|]. cbn in Hq. rewrite (object_value _ _ _ _ Hq), (translates_type _ _ _ _ Ha).
  by rewrite (read_keeps _ _ _ s2 _ (eval_own _ _ _ _ E) Hk).
Qed.

Lemma value_keeps b s v s' R : apart R (writes f b) = true -> value b s = Some (v, s') -> keeps R s s'.
Proof using. intros Ha Hv. eapply apart_keeps; [done|]. eapply value_writes; [apply eval_writes|done]. Qed.

Section Binary.
  Context (l r : Cabs.Expr) (rl rr : TransformResult) (lo mid : Z) (st : Transformer).
  Context (Hl : translates l rl lo mid) (Hr : translates r rr mid (nextTempID st)) (Hst : well st).

Lemma operands_range : lo <= mid <= nextTempID st.
Proof using Hl Hr. by destruct Hl, Hr. Qed.

Lemma assign_translates op :
  kind_of op = KAssign None -> binary_ok f tenv defs op l r = true -> makes (Cabs.Binary op l r) lo (transformAssign rl rr st).
Proof using Hl Hr Hst.
  intros Hk Hok. unfold binary_ok in Hok. rewrite Hk in Hok. pose proof operands_range as Hlo.
  pose proof (translates_type _ _ _ _ Hl) as Hlt. pose proof (translates_type _ _ _ _ Hr) as Hrt.
  destruct (type_of l) as [t|] eqn:Et; [|done]. destruct (type_of r) as [t'|] eqn:Et'; [|done].
  rewrite !andb_true_iff, bool_decide_eq_true in Hok. destruct Hok as [[Hap [same Hsame]] Hconv].
  unfold transformAssign, assign_temp. rewrite Hlt, Hrt.
  rewrite (SE_run _ _ st same st) by (unfold types_eq; by rewrite Hsame). cbn. eexists _, _. split; [reflexivity|]. split; [exact Hst|].
  split; [cbn; lia|]. split; [cbn; by rewrite Hk|]. intros s rv s' E. cbn [CabsSem.eval] in E. rewrite Hk in E.
  apply bind_Some in E as ([o s1] & Ho & E). apply bind_Some in E as ([v s2] & Hv & E). apply bind_Some in E as ([w s3] & Hw & E).
  simplify_eq.
  rewrite Et in Hw. apply assign_inv in Hw as [Hc Hs]. destruct (translates_object _ _ _ _ _ _ _ Hl Ho) as [_ Hy1].
  cbn [SimplExpr.nextTempID SimplExpr.Stmts SimplExpr.Expr_]. eapply temp_value; [reflexivity|].
  eapply yields_store with (o := o) (v := w); [lia|eapply yields_pair; [exact Hlo|exact Hy1|by eapply translates_value|by eapply value_keeps]| | |].
  - intros e [_ Hq]. unfold value_type in *. rewrite Et' in *. destruct same.
    + rewrite Hq. destruct (is_value (Some t')) eqn:Hval.
      * rewrite is_value_decay in * by done. rewrite sem_cast_same in * by (by apply interface_eq_Equal). congruence.
      * exfalso. unfold converts in Hconv. rewrite Hval in Hconv. destruct t', t; try done.
    + cbn in *. rewrite Hq. cbn. by rewrite Hrt, converts_cast.
  - intros e [Hq _] He. by split.
  - by rewrite Hlt.
Qed.

Lemma compound_translates op op' :
  kind_of op = KAssign (Some op') -> binary_ok f tenv defs op l r = true ->
  makes (Cabs.Binary op l r) lo (transformCompoundAssign rl rr op' st).
Proof using Hl Hr Hst.
  intros Hk Hok. unfold binary_ok in Hok. rewrite Hk, !andb_true_iff, bool_decide_eq_true in Hok. destruct Hok as [[[Hap Hv1] Hv2] Hty].
  pose proof operands_range as Hlo. pose proof (translates_type _ _ _ _ Hl) as Hlt. pose proof (translates_type _ _ _ _ Hr) as Hrt.
  unfold transformCompoundAssign, assign_temp. rewrite Hlt. cbn. eexists _, _. split; [reflexivity|]. split; [exact Hst|].
  split; [cbn; lia|]. split; [cbn; by rewrite Hk|]. intros s rv s' E. cbn [CabsSem.eval] in E. rewrite Hk in E.
  apply bind_Some in E as ([o s1] & Ho & E). apply bind_Some in E as (v1 & Hv & E). apply bind_Some in E as ([v2 s2] & Hv' & E).
  apply bind_Some in E as (w & Hw & E). apply bind_Some in E as ([w' s3] & Ha & E). simplify_eq.
  unfold value_type in Ha, Hw. rewrite (is_value_decay (type_of r)) in Ha, Hw by done. rewrite Hty in Ha.
  apply assign_inv in Ha as [Hc Hs]. rewrite sem_cast_refl in Hc. simplify_eq. cbn [SimplExpr.nextTempID SimplExpr.Stmts SimplExpr.Expr_]. eapply temp_value; [reflexivity|].
  eapply yields_store with (o := o) (v := w');
    [lia|eapply yields_pair; [exact Hlo|by eapply translates_read|by eapply translates_value|by eapply value_keeps]| | |by rewrite Hlt].
  - intros e [[_ Hq1] Hq2]. cbn in *. rewrite Hq1, Hq2. cbn. by rewrite Hlt, Hrt.
  - intros e [[Hq _] _] He. by split.
Qed.

Lemma pure_translates op op' :
  kind_of op = KPure op' -> binary_ok f tenv defs op l r = true ->
  translates (Cabs.Binary op l r)
    (mkResult (Ebinop op' (Expr_ rl) (Expr_ rr) (if is_comparison op' then int else usualArithmeticConversion (ExprType (Expr_ rl)) (ExprType (Expr_ rr))))
      (Stmts rl ++ Stmts rr)) lo (nextTempID st).
Proof using Hl Hr.
  intros Hk Hok. unfold binary_ok in Hok. rewrite Hk, !andb_true_iff, bool_decide_eq_true in Hok. destruct Hok as [[[Hap Hv1] Hv2] Hty].
  pose proof operands_range as Hlo. pose proof (translates_type _ _ _ _ Hl) as Hlt. pose proof (translates_type _ _ _ _ Hr) as Hrt.
  split; [lia|]. split; [cbn; by rewrite Hk, Hlt, Hrt, !is_value_decay by done|]. intros s rv s' E. cbn [CabsSem.eval] in E. rewrite Hk in E.
  apply bind_Some in E as ([v1 s1] & H1 & E). apply bind_Some in E as ([v2 s2] & H2 & E). apply bind_Some in E as (w & Hw & E). simplify_eq.
  eapply yields_weaken; [eapply yields_pair; [exact Hlo|by eapply translates_value|by eapply translates_value|by eapply value_keeps]| |].
  - cbn. by rewrite Hk.
  - intros e s2 _ [Hq1 Hq2]. cbn in *. rewrite Hq1, Hq2. cbn. unfold value_type in Hw. by rewrite !is_value_decay, <- Hlt, <- Hrt in Hw by done.
Qed.

Lemma comma_translates op :
  kind_of op = KComma -> binary_ok f tenv defs op l r = true ->
  translates (Cabs.Binary op l r) (mkResult (Expr_ rr) (Stmts rl ++ Stmts rr)) lo (nextTempID st).
Proof using Hl Hr.
  intros Hk Hok. unfold binary_ok in Hok. rewrite Hk in Hok. pose proof operands_range as Hlo.
  split; [lia|]. split; [cbn; by rewrite Hk, (translates_type _ _ _ _ Hr), is_value_decay|]. intros s rv s' E. cbn [CabsSem.eval] in E. rewrite Hk in E.
  apply bind_Some in E as ([v1 s1] & H1 & E). apply bind_Some in E as ([v2 s2] & H2 & E). simplify_eq.
  destruct Hl as (_ & _ & Hyl). eapply yields_weaken.
  - eapply yields_pair; [exact Hlo|by eapply yields_forget, Hyl|by eapply translates_value|apply keeps_nothing].
  - intros s3 Hk'. cbn in Hk'. rewrite Hk in Hk'. apply keeps_both. split; [apply keeps_nothing|done].
  - by intros e s3 _ [_ Hq].
Qed.
End Binary.

(** *** Conditions *)

(** The statement ends with [w] in the temporary [id]. *)
Definition runs (t : Stmt) (lo hi id : Z) (w : val) s s' : Prop :=
  forall e, exists e', (forall k, rtc (steps_to step) (at_ t k e s) (at_ Sskip k e' s')) /\ frame lo hi e e' /\ e' !! id = Some w.

Lemma set_step e s id a w k : residue e s a = Some w -> rtc (steps_to step) (at_ (Sset id a) k e s) (at_ Sskip k (<[id := w]> e) s).
Proof using. intros H. apply rtc_once. unfold steps_to, at_. cbn [cl_step]. by rewrite H. Qed.

Lemma if_step e s c t1 t2 v b k :
  residue e s c = Some v -> cl_truth (ExprType c) v = Some b ->
  rtc (steps_to step) (at_ (Sifthenelse c t1 t2) k e s) (at_ (if b then t1 else t2) k e s).
Proof using. intros Hv Hb. apply rtc_once. unfold steps_to, at_. cbn [cl_step]. rewrite Hv. cbn. by rewrite Hb. Qed.

Lemma runs_set lo hi id a w s : lo <= id < hi -> (forall e, residue e s a = Some w) -> runs (Sset id a) lo hi id w s s.
Proof using.
  intros Hid Ha e. exists (<[id := w]> e). split; [intros k; by apply set_step|]. split; [|by rewrite lookup_insert_eq].
  intros i Hi. rewrite lookup_insert_ne; [done|]. intros ->. lia.
Qed.

Lemma truth_set e s id a v b k :
  residue e s a = Some v -> cl_truth (ExprType a) v = Some b ->
  rtc (steps_to step) (at_ (set_truth id a) k e s) (at_ Sskip k (<[id := truth b]> e) s).
Proof using. intros Hv Hb. etrans; [by eapply if_step|]. by destruct b; apply set_step. Qed.

(** The statements, and then one that sets the temporary. *)
Lemma runs_then ts t lo hi R Q s s' w :
  lo <= hi -> yields ts lo hi R Q s s' ->
  (forall e k, Q e s' -> rtc (steps_to step) (at_ t k e s') (at_ Sskip k (<[hi := w]> e) s')) ->
  runs (Seq (ts ++ [t])) lo (hi + 1) hi w s s'.
Proof using.
  intros Hlo H Ht e. destruct (H e) as (e' & Hx & Hf & Hq). exists (<[hi := w]> e'). split; [|split].
  - intros k. etrans; [by apply exec_then|]. apply Ht, Hq; [by intros id|apply keeps_refl].
  - intros id Hid. rewrite lookup_insert_ne by lia. apply Hf. lia.
  - by rewrite lookup_insert_eq.
Qed.

Lemma yields_branch ts lo mid hi R Q s s1 s2 c v b t1 t2 w :
  lo <= mid <= hi -> yields ts lo mid R Q s s1 -> (forall e, Q e s1 -> residue e s1 c = Some v) ->
  cl_truth (ExprType c) v = Some b -> runs (if b then t1 else t2) mid (hi + 1) hi w s1 s2 ->
  yields (ts ++ [Sifthenelse c t1 t2]) lo (hi + 1) no_effects (fun e _ => e !! hi = Some w) s s2.
Proof using.
  intros Hlo H Hv Hb Hr e. destruct (H e) as (e1 & Hx & Hf & Hq). destruct (Hr e1) as (e2 & Hx2 & Hf2 & Hw). exists e2.
  assert (Hq1 : Q e1 s1) by (apply Hq; [by intros id|apply keeps_refl]). split; [|split].
  - eapply exec_app; [done|]. apply exec_one. intros k. etrans; [by eapply if_step, Hb; apply Hv|]. apply Hx2.
  - intros id Hid. rewrite Hf2, Hf by lia. done.
  - intros e3 s3 Ha _. by rewrite Ha by lia.
Qed.

Lemma logical_translates op or l r rl rr lo mid st :
  translates l rl lo mid -> translates r rr mid (nextTempID st) -> well st ->
  kind_of op = KLogical or -> binary_ok f tenv defs op l r = true ->
  makes (Cabs.Binary op l r) lo ((if or : bool then transformLogicalOr else transformLogicalAnd) rl rr st).
Proof using.
  intros Hl Hr Hst Hk Hok. unfold binary_ok in Hok. rewrite Hk, andb_true_iff in Hok. destruct Hok as [Hv1 Hv2].
  assert (Hlo : lo <= mid <= nextTempID st) by (by destruct Hl, Hr).
  pose proof (translates_type _ _ _ _ Hl) as Hlt. pose proof (translates_type _ _ _ _ Hr) as Hrt.
  assert (Hsem : forall s rv s', eval (Cabs.Binary op l r) s = Some (rv, s') -> exists v s1 b b',
    rv = Val (truth b') /\ value l s = Some (v, s1) /\ cl_truth (type_of l) v = Some b /\
    if eqb b or then b' = b /\ s' = s1
    else exists v', value r s1 = Some (v', s') /\ cl_truth (type_of r) v' = Some b').
  { intros s rv s' E. cbn [CabsSem.eval] in E. rewrite Hk in E. unfold value_type in E. rewrite !is_value_decay in E by done.
    apply bind_Some in E as ([v s1] & H1 & E). apply bind_Some in E as (b & Hb & E). exists v, s1, b. destruct (eqb b or).
    - simplify_eq. by exists b.
    - apply bind_Some in E as ([v' s2] & H2 & E). apply bind_Some in E as (b' & Hb' & E). simplify_eq. exists b'. eauto 10. }
  assert (Hright : forall v' s1 s' b', value r s1 = Some (v', s') -> cl_truth (type_of r) v' = Some b' ->
    runs (Seq (Stmts rr ++ [set_truth (nextTempID st) (Expr_ rr)])) mid (nextTempID st + 1) (nextTempID st) (truth b') s1 s').
  { intros v' s1 s' b' H2 Hb'. eapply runs_then; [lia|by eapply translates_value|]. intros e k Hq. eapply truth_set; [exact Hq|by rewrite Hrt]. }
  assert (Hconst : forall (b : bool) s, runs (Sset (nextTempID st) (Econst_int (if b then 1 else 0) int)) mid (nextTempID st + 1) (nextTempID st) (truth b) s s)
    by (intros b s; apply runs_set; [lia|by destruct b]).
  destruct or; cbn; eexists _, _; (split; [reflexivity|]; split; [exact Hst|]; split; [cbn; lia|]; split; [cbn; by rewrite Hk|]);
    intros s rv s' E; destruct (Hsem s rv s' E) as (v & s1 & b & b' & -> & H1 & Hb & Hrest);
    (eapply temp_value; [reflexivity|]); cbn [SimplExpr.nextTempID SimplExpr.Stmts SimplExpr.Expr_];
    (eapply yields_branch; [exact Hlo|by eapply translates_value|intros e Hq; exact Hq|by rewrite Hlt|]);
    destruct b; cbn in Hrest; try (destruct Hrest as [-> ->]); try (destruct Hrest as (v' & H2 & Hb')).
  - apply (Hconst true).
  - by eapply Hright.
  - by eapply Hright.
  - apply (Hconst false).
Qed.

(** The transformation of a branch, with or without its statements. *)
Lemma branch_runs a r lo mid hi s v s' :
  translates a r lo mid -> mid <= hi -> value a s = Some (v, s') ->
  runs (Seq (Stmts r ++ [Sset hi (Expr_ r)])) lo (hi + 1) hi v s s'.
Proof using.
  intros Ha Hhi Hv. eapply (runs_then _ _ lo hi); [destruct Ha; lia|eapply yields_widen; [by eapply translates_value|lia..]|].
  intros e k Hq. by apply set_step.
Qed.

Lemma runs_widen t lo hi lo' id w s s' : runs t lo hi id w s s' -> lo' <= lo -> runs t lo' hi id w s s'.
Proof using.
  intros H Hlo e. destruct (H e) as (e' & Hx & Hf & Hw). exists e'. split; [done|]. split; [|done]. intros i Hi. apply Hf. lia.
Qed.

Lemma conditional_translates c t u rc rt re lo mid1 mid2 pure_branches st :
  translates c rc lo mid1 -> translates t rt mid1 mid2 -> translates u re mid2 (nextTempID st) -> well st ->
  (pure_branches = true -> Stmts rt = [] /\ Stmts re = []) ->
  is_value (type_of c) = true -> is_value (type_of t) = true -> is_value (type_of u) = true ->
  type_of t = type_of u -> type_of (Cabs.Conditional c t u) = type_of t ->
  makes (Cabs.Conditional c t u) lo (transformConditional pure_branches rc rt re st).
Proof using.
  intros Hc Ht He Hst Hpure Hv1 Hv2 Hv3 Hte Hty. unfold transformConditional. rewrite (translates_type _ _ _ _ Ht). cbn -[Seq].
  eexists _, _. split; [reflexivity|]. split; [exact Hst|].
  assert (Hlo : lo <= mid1 <= mid2 /\ mid2 <= nextTempID st) by (by destruct Hc, Ht, He). split; [cbn; lia|]. split; [symmetry; exact Hty|].
  intros s rv s' E. cbn [CabsSem.eval] in E. rewrite Hty in E. unfold value_type in E. rewrite !is_value_decay in E by done.
  apply bind_Some in E as ([v s1] & H1 & E). apply bind_Some in E as (b & Hb & E).
  assert (Hw : exists w, rv = Val w /\ value (if b then t else u) s1 = Some (w, s')).
  { destruct b; apply bind_Some in E as ([w s2] & H2 & E); rewrite ?Hte, sem_cast_refl in E; cbn in E; simplify_eq; by exists w. }
  destruct Hw as (w & -> & H2). eapply temp_value; [reflexivity|]. cbn [SimplExpr.nextTempID SimplExpr.Stmts SimplExpr.Expr_].
  assert (Hrun : runs (if b then Seq (Stmts rt ++ [Sset (nextTempID st) (Expr_ rt)]) else Seq (Stmts re ++ [Sset (nextTempID st) (Expr_ re)]))
    mid1 (nextTempID st + 1) (nextTempID st) w s1 s').
  { destruct b; [by eapply branch_runs; [exact Ht|lia|]|]. eapply runs_widen; [by eapply branch_runs; [exact He| |]|lia]. }
  destruct pure_branches.
  - destruct (Hpure eq_refl) as [E1 E2]. rewrite E1, E2 in Hrun.
    eapply yields_branch with (mid := mid1); [lia|by eapply translates_value|intros i Hq; exact Hq|by rewrite (translates_type _ _ _ _ Hc)|exact Hrun].
  - eapply yields_branch with (mid := mid1); [lia|by eapply translates_value|intros i Hq; exact Hq|by rewrite (translates_type _ _ _ _ Hc)|exact Hrun].
Qed.

(** *** Objects *)

Lemma in_memory_object a s rv s' : in_memory f a = true -> eval a s = Some (rv, s') -> exists p, rv = Obj (OMem p).
Proof using.
  revert s rv s'. induction a; intros s rv s' Hm E; try done; cbn [CabsSem.eval] in E; cbn in Hm.
  - unfold variable in E. destruct (is_param f Name); [done|]. unbind. by eexists.
  - destruct Op; try done. unfold eval_unary in E. cbn in E. unbind. by eexists.
  - by eapply IHa.
  - unbind. by eexists.
  - unbind. by eexists.
Qed.

Lemma index_translates a i ra ri lo mid hi :
  translates a ra lo mid -> translates i ri mid hi ->
  apart (reads f tenv defs (is_array (type_of a)) a) (writes f i) = true -> is_value (type_of i) = true ->
  match type_of a with
  | Some (Ctypes.Tarray elem _) => bool_decide (complete defs elem = elem) && in_memory f a
  | Some (Ctypes.Tpointer elem) => bool_decide (complete defs elem = elem)
  | _ => false
  end = true ->
  translates (Cabs.Index a i) (transformIndex ra ri) lo hi.
Proof using.
  intros Ha Hi Hap Hv Ht. assert (Hlo : lo <= mid <= hi) by (by destruct Ha, Hi).
  pose proof (translates_type _ _ _ _ Ha) as Hta. pose proof (translates_type _ _ _ _ Hi) as Hti.
  assert (Hbase : exists base elem, transformIndex ra ri =
      mkResult (Ederef (Ebinop Oadd base (Expr_ ri) (Some (Ctypes.Pointer elem))) elem) (Stmts ra ++ Stmts ri) /\
      decay (type_of a) = Some (Ctypes.Pointer elem) /\ ExprType base = Some (Ctypes.Pointer elem) /\ complete defs elem = elem /\
      forall s p s1, value a s = Some (p, s1) ->
        yields (Stmts ra) lo mid (reads f tenv defs (is_array (type_of a)) a) (fun e s => residue e s base = Some p) s s1).
  { unfold transformIndex. rewrite Hta. destruct (type_of a) as [[| | | |elem|elem n| | |]|] eqn:Et; try done.
    - exists (Expr_ ra), elem. rewrite bool_decide_eq_true in Ht. repeat split; try done. intros s p s1 Hp. by eapply translates_value.
    - exists (Eaddrof (Expr_ ra) (Some (Ctypes.Pointer elem))), elem. rewrite andb_true_iff, bool_decide_eq_true in Ht. destruct Ht as [Hc Hm].
      repeat split; try done. intros s p s1 Hp. unfold CabsSem.value in Hp. apply bind_Some in Hp as ([rv s2] & E & Hp).
      destruct (in_memory_object _ _ _ _ Hm E) as [q ->]. unfold use in Hp. cbn in Hp. rewrite Et in Hp. cbn in Hp. simplify_eq.
      destruct Ha as (_ & _ & Ha). eapply yields_weaken; [by apply Ha|done|]. intros e s2 _ Ho. by apply object_in_memory. }
  destruct Hbase as (base & elem & -> & Hd & Hb & Hc & Hyb). split; [lia|]. split; [cbn; unfold target; rewrite Hd; by cbn|].
  intros s rv s' E. cbn [CabsSem.eval] in E. apply bind_Some in E as ([p s1] & Hp & E). apply bind_Some in E as ([n s2] & Hn & E).
  apply bind_Some in E as (q & Hq & E). simplify_eq. unfold value_type in Hq. rewrite Hd, is_value_decay in Hq by done.
  eapply yields_weaken; [eapply yields_pair; [exact Hlo|by apply Hyb|by eapply translates_value|by eapply value_keeps]| |].
  - cbn. intros s3 Hk. apply keeps_both in Hk as [Hk _]. exact Hk.
  - intros e s3 _ [H1 H2]. unfold holds, object_at. cbn [param_name Expr_]. rewrite deref_address, binop_value, H1, H2.
    cbn [mbind option_bind]. by rewrite Hb, Hti, Hq.
Qed.

Lemma field_translates a name arrow r lo st :
  translates a r lo (nextTempID st) -> well st ->
  (arrow = true -> is_value (type_of a) && is_pointer (type_of a) = true) ->
  (let t := if arrow : bool then target defs (type_of a) else type_of a in
   field_of_type defs t name = field_type (complete defs t) name) ->
  makes (Cabs.Member a name arrow) lo (transformMember r name arrow st).
Proof using.
  intros Ha Hst Harrow Hf. pose proof (translates_type _ _ _ _ Ha) as Hta. unfold transformMember. rewrite Hta.
  destruct Hst as [Hst1 Hst2]. assert (Hlo : lo <= nextTempID st) by apply Ha. destruct arrow.
  - specialize (Harrow eq_refl). apply andb_true_iff in Harrow as [Hv Hp]. destruct (type_of a) as [[| | | |elem| | | |]|] eqn:Et; try done.
    cbn -[complete]. eexists _, _. split; [reflexivity|]. split; [by split|].
    change (ResolveStruct (structDefs st) <$> elem) with (complete (structDefs st) elem). rewrite Hst2.
    eapply value_step; [exact Ha|cbn; rewrite Et; symmetry; exact Hf|]. intros s rv s' E. cbn [CabsSem.eval] in E. rewrite Et in E.
    apply bind_Some in E as ([p s1] & Hp' & E). apply bind_Some in E as (ofs & Ho & E). apply bind_Some in E as (q & Hq & E). simplify_eq.
    exists p. split; [unfold CabsSem.value; by rewrite Et|]. split; [by intros s2 [Hk _]%keeps_both|]. intros e s2 _ Hr.
    unfold holds, object_at. cbn [param_name]. rewrite field_address, deref_address, Hr. cbn [ExprType mbind option_bind].
    change (target defs (Some (Ctypes.Tpointer elem))) with (complete defs elem) in Ho. rewrite Ho. cbn. by rewrite Hq.
  - cbn -[complete]. eexists _, _. split; [reflexivity|]. split; [by split|]. rewrite Hta.
    change (ResolveStruct (structDefs st) <$> type_of a) with (complete (structDefs st) (type_of a)). rewrite Hst2.
    eapply object_step; [exact Ha|cbn; symmetry; exact Hf|]. intros s rv s' E. cbn [CabsSem.eval] in E.
    apply bind_Some in E as ([p s1] & Hp & E). apply bind_Some in E as (ofs & Ho & E). apply bind_Some in E as (q & Hq & E). simplify_eq.
    apply bind_Some in Hp as ([o s2] & Hp & Ep). destruct o; simplify_eq. exists (OMem p). split; [done|].
    split; [by intros s2 [Hk _]%keeps_both|]. intros e s2 _ Hr%object_in_memory.
    unfold holds, object_at. cbn [param_name]. rewrite field_address, Hr, Hta. cbn. rewrite Ho. cbn. by rewrite Hq.
Qed.

Lemma cast_translates t a r lo hi :
  translates a r lo hi -> converts (type_of a) (type_of (Cabs.Cast t a)) = true ->
  type_of (Cabs.Cast t a) = Some (typeFromString t) ->
  translates (Cabs.Cast t a) (mkResult (Ecast (Expr_ r) (Some (typeFromString t))) (Stmts r)) lo hi.
Proof using.
  intros Ha Hc Ht. eapply value_step; [exact Ha|done|]. intros s rv s' E. cbn [CabsSem.eval] in E. rewrite Ht in E, Hc.
  apply bind_Some in E as ([v s1] & Hv & E). apply bind_Some in E as (w & Hw & E). simplify_eq. exists v. split; [exact Hv|]. split; [done|].
  intros e s2 _ Hr. cbn. cbn in Hr. rewrite Hr. cbn. rewrite (translates_type _ _ _ _ Ha). unfold value_type in Hw. by rewrite converts_cast.
Qed.

(** *** Calls *)

Fixpoint translates_all (args : list Cabs.Expr) (rs : list TransformResult) (lo hi : Z) : Prop :=
  match args, rs with
  | [], [] => lo = hi
  | a :: args, r :: rs => exists mid, translates a r lo mid /\ translates_all args rs mid hi
  | _, _ => False
  end.

Lemma translates_all_range args rs lo hi : translates_all args rs lo hi -> lo <= hi.
Proof using.
  revert rs lo. induction args as [|a args IH]; intros [|r rs] lo; cbn; try done; [lia|]. intros (mid & Ha & Hall%IH). destruct Ha. lia.
Qed.

Definition converted (params : list Ctypes.Type_) (rs : list TransformResult) : list Expr :=
  imap (fun i r => convert_arg (params !! i) (Expr_ r)) rs.

Lemma converted_cons params r rs :
  converted params (r :: rs) = convert_arg (head params) (Expr_ r) :: converted (tail params) rs.
Proof using. unfold converted. cbn. f_equal; [by destruct params|]. apply imap_ext. intros i x _. by destruct params. Qed.

Lemma argument_residue param a r e s v w :
  ExprType r = type_of a -> argument_ok param (type_of a) = true -> residue e s r = Some v ->
  convert_argument param (value_type tenv defs a) v = Some w -> residue e s (convert_arg param r) = Some w.
Proof using.
  intros Ht Hok Hv. unfold value_type. destruct param as [p|]; cbn in Hok |- *.
  - intros Hw. rewrite <- converts_cast, <- Ht in Hw by done. destruct (Ctypes.equal_opt Ctypes.Equal (ExprType r) (Some p)) eqn:E.
    + rewrite sem_cast_same in Hw by done. congruence.
    + cbn. by rewrite Hv.
  - apply andb_true_iff in Hok as [Hval Hs]. rewrite is_value_decay by done.
    destruct (type_of a) as [[| | |[]| | | | |]|]; try done; congruence.
Qed.

Lemma args_yield args rs : forall params lo hi s vs s',
  translates_all args rs lo hi -> args_ok f tenv defs (expr_ok f globals tenv defs) params args = true ->
  evaluate_args tenv defs value params args s = Some (vs, s') ->
  yields (concat (Stmts <$> rs)) lo hi (all_of (reads f tenv defs false <$> args))
    (fun e s => mapM (fun r => residue e s r) (converted params rs) = Some vs) s s'.
Proof using.
  revert rs. induction args as [|a args IH]; intros [|r rs] params lo hi s vs s' Hall Hok E; try done.
  - cbn in *. simplify_eq. by apply yields_nil.
  - destruct Hall as (mid & Ha & Hall). cbn [args_ok] in Hok. rewrite !andb_true_iff in Hok. destruct Hok as [[[_ Hok] Hap] Hoks].
    cbn [evaluate_args] in E. apply bind_Some in E as ([v s1] & Hv & E). apply bind_Some in E as (w & Hw & E).
    apply bind_Some in E as ([ws s2] & Hws & E). simplify_eq. cbn [fmap list_fmap concat all_of foldr].
    eapply yields_weaken; [eapply (yields_pair _ _ lo mid hi)| |].
    + pose proof (translates_all_range _ _ _ _ Hall). destruct Ha. lia.
    + by eapply translates_value.
    + by eapply IH.
    + eapply apart_keeps; [exact Hap|]. eapply evaluate_args_writes; [|exact Hws]. apply Forall_forall. intros b _. apply eval_writes.
    + done.
    + intros e s3 _ [H1 H2]. cbn in H1, H2. rewrite converted_cons. cbn [mapM].
      rewrite (argument_residue _ _ _ _ _ _ _ (translates_type _ _ _ _ Ha) Hok H1 Hw). cbn. by rewrite H2.
Qed.

(** The callee of a call, and what is left of it. *)
Definition callee_expr_ok (g : Cabs.Expr) (r : Expr) : Prop :=
  match designator f globals g with
  | Some x => exists t, r = Evar x t
  | None => address_callee g = true -> function_name f globals r = None
  end.

Lemma designator_name g x : designator f globals g = Some x -> is_local f x = false /\ is_param f x = false /\ is_global f globals x = false.
Proof using.
  induction g; cbn; try done. destruct (is_local f Name) eqn:E1, (is_param f Name) eqn:E2, (is_global f globals Name) eqn:E3; cbn; try done. by intros [= <-].
Qed.

Lemma call_translates g args rg rs lo mid st :
  translates g rg lo mid -> translates_all args rs mid (nextTempID st) -> well st -> callee_expr_ok g (Expr_ rg) ->
  (is_Some (designator f globals g) -> Stmts rg = []) ->
  bool_decide (is_Some (designator f globals g)) || address_callee g && apart (reads f tenv defs false g) (all_of (writes f <$> args)) = true ->
  args_ok f tenv defs (expr_ok f globals tenv defs) (param_types (type_of g)) args = true ->
  makes (Cabs.Call g args) lo (transformCall rg rs st).
Proof using.
  intros Hg Hargs Hst Hcallee Hpure Hok Hoks. pose proof (translates_type _ _ _ _ Hg) as Htg. unfold transformCall. rewrite Htg. cbn.
  eexists _, _. split; [reflexivity|]. split; [exact Hst|].
  assert (Hlo : lo <= mid <= nextTempID st) by (pose proof (translates_all_range _ _ _ _ Hargs); by destruct Hg).
  split; [cbn; lia|]. split; [done|]. intros s rv s' E. cbn [CabsSem.eval] in E. apply bind_Some in E as ([fv s1] & Hf & E).
  apply bind_Some in E as ([vs s2] & Hvs & E). apply bind_Some in E as ([v m] & Hcall & E). simplify_eq.
  eapply temp_value; [reflexivity|]. cbn [SimplExpr.nextTempID SimplExpr.Stmts SimplExpr.Expr_].
  change (imap _ rs) with (converted (param_types (type_of g)) rs).
  assert (Hyg : exists R, keeps R s1 s2 /\ yields (Stmts rg) lo mid R (fun e s => cl_callee f globals place lit e s.1 s.2 (Expr_ rg) = Some fv) s s1).
  { unfold callee_expr_ok in Hcallee. destruct (designator f globals g) as [x|] eqn:Ed.
    - destruct Hcallee as [t Ht]. simplify_eq. exists no_effects. split; [apply keeps_nothing|]. rewrite Hpure by by eexists.
      eapply yields_widen; [apply (yields_nil lo)| |]; [|lia..]. intros e s3 _. rewrite Ht. unfold cl_callee. cbn.
      by destruct (designator_name g x Ed) as (-> & -> & ->).
    - cbn in Hok. rewrite andb_true_iff in Hok. destruct Hok as [Ha Hap]. apply bind_Some in Hf as ([v' s3] & Hv & Hf). simplify_eq.
      exists (reads f tenv defs false g). split.
      + eapply apart_keeps; [exact Hap|]. eapply evaluate_args_writes; [|exact Hvs]. apply Forall_forall. intros b _. apply eval_writes.
      + eapply yields_weaken; [by eapply translates_value|done|]. intros e s4 _ Hr. unfold cl_callee. rewrite Hcallee by done. cbn in Hr. by rewrite Hr. }
  destruct Hyg as (R & Hk & Hyg). rewrite app_assoc. intros e.
  destruct (yields_pair _ _ _ _ _ _ _ _ _ _ _ _ Hlo Hyg (args_yield _ _ _ _ _ _ _ _ Hargs Hoks Hvs) Hk e) as (e' & Hx & Hfr & Hq).
  destruct (Hq e' s2 ltac:(by intros id) (keeps_refl _ _)) as [Hc Hm]. exists (<[nextTempID st := v]> e'). split; [|split].
  - eapply exec_app; [exact Hx|]. apply exec_one. intros k. apply rtc_once. unfold steps_to, at_. cbn [cl_step]. rewrite Hc. cbn [mbind option_bind].
    change (mapM (cl_expr f place lit e' s2.1 s2.2) (converted (param_types (type_of g)) rs) = Some vs) in Hm. rewrite Hm. cbn. by rewrite Hcall.
  - intros id Hid. rewrite lookup_insert_ne by lia. apply Hfr. lia.
  - intros e2 s3 Ha _. rewrite Ha by lia. by rewrite lookup_insert_eq.
Qed.

(** *** All expressions *)

Lemma transformBinary_kind op left right st :
  transformBinary op left right st =
  match kind_of op with
  | KAssign None => transformAssign left right st
  | KAssign (Some op') => transformCompoundAssign left right op' st
  | KComma => Some (mkResult (Expr_ right) (Stmts left ++ Stmts right), st)
  | KLogical or => (if or : bool then transformLogicalOr else transformLogicalAnd) left right st
  | KPure op' =>
      Some (mkResult (Ebinop op' (Expr_ left) (Expr_ right)
        (if is_comparison op' then int else usualArithmeticConversion (ExprType (Expr_ left)) (ExprType (Expr_ right))))
        (Stmts left ++ Stmts right), st)
  end.
Proof using. by destruct op. Qed.

Lemma plain_stmts a st r st' : plain a = true -> TransformExpr a st = Some (r, st') -> Stmts r = [].
Proof using.
  revert st r st'. induction a; intros st r st' Hp E; try done; cbn [TransformExpr] in E; cbn in Hp; run_inv;
    rewrite ?andb_true_iff, ?bool_decide_eq_true in Hp; try done.
  - destruct Hp as [Hp Ho]. destruct Op; try done; cbn [transformUnary] in E; run_inv; cbn; by eapply IHa.
  - rewrite transformBinary_kind in E. destruct (kind_of Op); try done; rewrite andb_true_iff in Hp; destruct Hp as [Hp1 Hp2];
      simplify_eq; cbn; by erewrite IHa1, IHa2 by eassumption.
  - by eapply IHa.
  - destruct Hp as [Hp1 Hp2]. unfold transformIndex. case_match. simplify_eq. cbn. by erewrite IHa1, IHa2 by eassumption.
  - unfold transformMember in E. run_inv. cbn. by eapply IHa.
  - cbn. by eapply IHa.
Qed.

Lemma TransformExpr_callee g st r st' :
  TransformExpr g st = Some (r, st') ->
  callee_expr_ok g (Expr_ r) /\ (is_Some (designator f globals g) -> Stmts r = []).
Proof using.
  unfold callee_expr_ok. revert st r st'. induction g; intros st r st' E; cbn [TransformExpr] in E; run_inv; cbn [designator address_callee];
    try (split; [done|by intros []]).
  - split; [|done]. destruct (is_local f Name || is_param f Name || is_global f globals Name) eqn:Ev; [|by eexists].
    intros _. cbn. by rewrite Ev.
  - split; [|by intros []]. destruct Op; try done. cbn [transformUnary] in E. by run_inv.
  - by eapply IHg.
  - split; [|by intros []]. intros _. unfold transformCall in E. by run_inv.
  - split; [|by intros []]. intros _. unfold transformIndex. by destruct (ExprType _) as [[]|].
  - split; [|by intros []]. intros _. unfold transformMember in E. by run_inv.
Qed.

Lemma each_translates args :
  Forall (fun a => forall st, expr_ok f globals tenv defs a = true -> well st -> makes a (nextTempID st) (TransformExpr a st)) args ->
  forall params st, args_ok f tenv defs (expr_ok f globals tenv defs) params args = true -> well st ->
  exists rs st', each TransformExpr args st = Some (rs, st') /\ well st' /\ translates_all args rs (nextTempID st) (nextTempID st').
Proof using.
  induction 1 as [|a args Ha _ IH]; intros params st Hok Hst; [by exists [], st|]. cbn [args_ok] in Hok. destruct_andb.
  destruct (Ha st ltac:(done) Hst) as (r & st1 & E1 & Hst1 & Hr). destruct (IH (tail params) st1 ltac:(done) Hst1) as (rs & st2 & E2 & Hst2 & Hrs).
  exists (r :: rs), st2. split; [|split; [done|by exists (nextTempID st1)]]. cbn [each]. erewrite SE_run by exact E1.
  erewrite SE_run by exact E2. done.
Qed.

(** Every supported expression is transformed into one that does the same. *)
Lemma TransformExpr_makes a st : expr_ok f globals tenv defs a = true -> well st -> makes a (nextTempID st) (TransformExpr a st).
Proof using.
  revert st.
  induction a as [n|b|c|x|op a1 IH|op l r IHl IHr|a1 IH|c t u IHc IHt IHu|g args IHg IHargs|a1 i IHa IHi|a1 x arrow IH|a1 _|t|t a1 IH]
    using Cabs.Expr_nested_ind; intros st Hok Hst; cbn [expr_ok] in Hok; cbn [TransformExpr]; try done; destruct_andb.
  - eexists _, _. split; [reflexivity|]. split; [done|]. apply constant_translates. lia.
  - eexists _, _. split; [reflexivity|]. split; [done|]. apply string_translates.
  - eexists _, _. split; [reflexivity|]. split; [done|]. apply char_translates.
  - destruct Hst as [H1 H2]. eexists _, _. split; [reflexivity|]. split; [by split|]. rewrite H1, H2. apply variable_translates.
  - destruct (IH st) as (r & st1 & E & Hst1 & Hr); [done..|]. erewrite SE_run by exact E. by apply unary_translates.
  - destruct (IHl st) as (rl & st1 & E1 & Hst1 & Hl); [done..|]. destruct (IHr st1) as (rr & st2 & E2 & Hst2 & Hr); [done..|].
    erewrite SE_run by exact E1. erewrite SE_run by exact E2. rewrite transformBinary_kind. destruct (kind_of op) as [[op'|]| |or|op'] eqn:Hk.
    + by eapply compound_translates.
    + by eapply assign_translates.
    + eexists _, _. split; [reflexivity|]. split; [done|]. by eapply comma_translates.
    + by eapply logical_translates.
    + eexists _, _. split; [reflexivity|]. split; [done|]. by eapply pure_translates.
  - by apply IH.
  - destruct (IHc st) as (rc & st1 & E1 & Hst1 & Hc); [done..|]. destruct (IHt st1) as (rt & st2 & E2 & Hst2 & Ht); [done..|].
    destruct (IHu st2) as (ru & st3 & E3 & Hst3 & Hu); [done..|]. erewrite SE_run by exact E1. erewrite SE_run by exact E2. erewrite SE_run by exact E3.
    rewrite bool_decide_eq_true in *. eapply conditional_translates; try done. intros Hpure. rewrite andb_true_iff, !negb_true_iff in Hpure.
    destruct Hpure as [E4 E5]. rewrite E4, E5 in *. cbn in *. destruct_andb. split; [by eapply (plain_stmts t)|by eapply (plain_stmts u)].
  - destruct (IHg st) as (rg & st1 & E1 & Hst1 & Hg); [done..|]. destruct (each_translates args IHargs (param_types (type_of g)) st1) as (rs & st2 & E2 & Hst2 & Hrs); [done..|].
    erewrite SE_run by exact E1. erewrite SE_run by exact E2. destruct (TransformExpr_callee g st rg st1 E1) as [Hc Hp].
    by eapply call_translates.
  - destruct (IHa st) as (ra & st1 & E1 & Hst1 & Ha); [done..|]. destruct (IHi st1) as (ri & st2 & E2 & Hst2 & Hi); [done..|].
    erewrite SE_run by exact E1. erewrite SE_run by exact E2. eexists _, _. split; [reflexivity|]. split; [done|]. by eapply index_translates.
  - destruct (IH st) as (r & st1 & E & Hst1 & Hr); [done..|]. erewrite SE_run by exact E. rewrite bool_decide_eq_true in *.
    eapply field_translates; try done. intros ->. done.
  - destruct (IH st) as (r & st1 & E & Hst1 & Hr); [done..|]. erewrite SE_run by exact E. rewrite bool_decide_eq_true in *.
    eexists _, _. split; [reflexivity|]. split; [done|]. by apply cast_translates.
Qed.

(** ** Theorems *)


Lemma both_none : both no_effects no_effects = no_effects.
Proof using. unfold both, no_effects. cbn. by rewrite union_empty_l_L. Qed.

Lemma pure_writes a : HasSideEffects a = false -> writes f a = no_effects.
Proof using.
  induction a as [n|b|c|x|op a1 IH|op l r IHl IHr|a1 IH|c t u IHc IHt IHu|g args IHg IHargs|a1 i IHa IHi|a1 x arrow IH|a1 _|t|t a1 IH]
    using Cabs.Expr_nested_ind; cbn; try done.
  - destruct op; try done; intros H; rewrite IH by done; by rewrite ?both_none.
  - destruct (is_assignment op || bool_decide (op = Cabs.OpComma)) eqn:Eo; [done|]. intros [H1 H2]%orb_false_iff.
    rewrite IHl, IHr by done. destruct op; by rewrite ?both_none.
  - intros [[H1 H2]%orb_false_iff H3]%orb_false_iff. by rewrite IHc, IHt, IHu, !both_none.
  - intros [H1 H2]%orb_false_iff. by rewrite IHa, IHi, both_none.
Qed.

(** C37. [HasSideEffects] is sound: an expression it takes to have no side effects
    changes nothing when it is evaluated. *)
Theorem HasSideEffects_sound a s rv s' : HasSideEffects a = false -> eval a s = Some (rv, s') -> s' = s.
Proof using.
  intros Hp E. apply eval_writes in E. rewrite pure_writes in E by done. destruct E as [Hv Hm], s as [ps m], s' as [ps' m'].
  cbn in *. f_equal; [|by apply Hm]. apply map_eq. intros x. by apply Hv.
Qed.
End Evaluation.

(** ** Example *)

(** [(i++ && (x = i + 2)), x], of two parameters. *)
Definition example_params : Function :=
  mkFunction "example" int [mkVarDecl "i" int []; mkVarDecl "x" int []] [] [] Sskip.

Definition example_expr : Cabs.Expr :=
  let i := Cabs.Variable_ "i" in let x := Cabs.Variable_ "x" in
  Cabs.Binary Cabs.OpComma
    (Cabs.Binary Cabs.OpAnd (Cabs.Unary Cabs.OpPostInc i)
       (Cabs.Paren (Cabs.Binary Cabs.OpAssign x (Cabs.Binary Cabs.OpAdd i (Cabs.Constant 2))))) x.

Definition example_vars (i x : Z) : gmap string val * example_memory :=
  (<["i"%string := Vint i]> {["x"%string := Vint x]}, ∅).


(** [i + x ? i : x] changes nothing. *)
Lemma HasSideEffects_sound_witness :
  let a := Cabs.Conditional (Cabs.Binary Cabs.OpAdd (Cabs.Variable_ "i") (Cabs.Variable_ "x")) (Cabs.Variable_ "i") (Cabs.Variable_ "x") in
  HasSideEffects a = false /\
  forall rv s', eval (PC := example_calls) example_params [] (fun _ => 0) (fun _ => Vint 0) ∅ ∅ a (example_vars 4 9) = Some (rv, s') ->
    s' = example_vars 4 9.
Proof.
  intros a. split; [vm_compute; reflexivity|]. intros rv s' E.
  apply (HasSideEffects_sound (PC := example_calls) example_params [] (fun _ => 0) (fun _ => Vint 0) ∅ ∅ a _ rv s' eq_refl E).
Defined.
