(* ===== verification/ClightGenProof.v ===== *)
(** Statements of C and the Clight statements they become: what they do, and
    the simulation of the former by the latter. *)

From S2P Require Import Prelude Target Semantics RtlSem Structured Values CminorSem CshmgenOps Clight.
From S2P Require Import ClightSem SimplExpr ClightGen CabsSem SimplExprProof.
From S2P Require Ctypes Cabs Cminor.

#[local] Existing Instance Ctypes.Type_eq_dec.
#[local] Existing Instance Cminor.UnaryOp_eq_dec.

(** ** What the pass supports *)

(** Nothing is done to convert from [t] to [to]. *)
Definition no_conversion (t to : Type_) : bool :=
  is_value t && (type_equal t to || negb (is_bool to) && bool_decide (cast_conversion t to = Some [])).

(** What is left of the expression is a constant. *)
Fixpoint const_residue (a : Cabs.Expr) : bool :=
  match a with
  | Cabs.Constant _ | Cabs.CharLiteral _ => true
  | Cabs.Paren a | Cabs.Unary Cabs.OpPlus a | Cabs.Binary Cabs.OpComma _ a => const_residue a
  | _ => false
  end.

(** An expression of type [t] initializes a variable of type [to]. *)
Definition initializes (a : Cabs.Expr) (t : Type_) (to : Ctypes.Type_) : bool :=
  match to with
  | Ctypes.Tlong _ => const_residue a || no_conversion t (Some to)
  | Ctypes.Tint (Ctypes.I8 | Ctypes.I16) _ => is_value t
  | _ => no_conversion t (Some to)
  end.

Section Supported.
  Context (f : Function) (globals : list VarDecl).
  Context (tenv : gmap string Ctypes.Type_) (defs : gmap string (list Ctypes.Field)) (ret : Type_).
  Local Abbreviation type_of := (type_of tenv defs).
  Local Abbreviation expr_ok := (expr_ok f globals tenv defs).

Definition condition_ok (a : Cabs.Expr) : bool := expr_ok a && is_value (type_of a).

Definition decl_ok (d : Cabs.Decl) : bool :=
  match Cabs.d_Initializer d with
  | Some a =>
      let typ := TypeFromString (Cabs.d_TypeSpec d) in
      expr_ok a && bool_decide (type_of (Cabs.Variable_ (Cabs.d_Name d)) = Some typ) && initializes a (type_of a) typ
  | None => true
  end.

(** Case labels are constants of the type of the switch, and the default case
    is the last one. *)
Definition label_ok (long : bool) (c : Cabs.SwitchCase) (last : bool) : bool :=
  match c.1 with
  | Some (Cabs.Constant n) => (0 <=? n) && (n <=? if long then 9223372036854775807 else 2147483647)
  | Some _ => false
  | None => last
  end.

Fixpoint cases_ok (block_ok : list Cabs.Stmt -> bool) (long : bool) (cases : list Cabs.SwitchCase) : bool :=
  match cases with
  | [] => true
  | c :: rest =>
      label_ok long c (match rest with [] => true | _ => false end) && block_ok c.2 && cases_ok block_ok long rest
  end.

(** [in_do]: a [continue] goes to the test of a [do] loop. *)
Fixpoint stmt_ok (in_do : bool) (s : Cabs.Stmt) : bool :=
  match s with
  | Cabs.Skip | Cabs.Break | Cabs.Goto _ | Cabs.Return None => true
  | Cabs.Continue => negb in_do
  | Cabs.Return (Some a) => expr_ok a && no_conversion (type_of a) ret
  | Cabs.Computation a => expr_ok a
  | Cabs.If c s1 o => condition_ok c && stmt_ok in_do s1 && match o with Some s2 => stmt_ok in_do s2 | None => true end
  | Cabs.While c body => condition_ok c && stmt_ok false body
  | Cabs.DoWhile body c => condition_ok c && stmt_ok true body
  | Cabs.For init ds c step body =>
      match init with Some a => expr_ok a | None => forallb decl_ok ds end &&
      match c with Some c => condition_ok c | None => true end &&
      match step with Some a => expr_ok a | None => true end && stmt_ok false body
  | Cabs.Switch a cases => condition_ok a && cases_ok (forallb (stmt_ok in_do)) (is_long (type_of a)) cases
  | Cabs.Label _ s => stmt_ok in_do s
  | Cabs.Block ss => forallb (stmt_ok in_do) ss
  | Cabs.DeclStmt ds => forallb decl_ok ds
  end.
End Supported.

(** ** What the statements of an expression do *)

Section Statements.
  Context {M : Type} `{FO : FloatOps} `{LO : Layout} `{TS : TargetSemantics val M}.
  Context {VT : ValueTarget M} {darwin : bool} {PC : PseudoCalls val M darwin}.
  Context (f : Function) (globals : list VarDecl) (place : string -> Z) (lit : string -> val).
  Context (tenv : gmap string Ctypes.Type_) (defs : gmap string (list Ctypes.Field)).
  Local Abbreviation memory := (gmap string val * M)%type.
  Local Abbreviation env := (gmap Z val).
  Local Abbreviation type_of := (type_of tenv defs).
  Local Abbreviation eval := (eval (PC := PC) f globals place lit tenv defs).
  Local Abbreviation value := (value (PC := PC) f globals place lit tenv defs).
  Local Abbreviation run_opt := (run_opt (PC := PC) f globals place lit tenv defs).
  Local Abbreviation test := (test (PC := PC) f globals place lit tenv defs).
  Local Abbreviation test_opt := (test_opt (PC := PC) f globals place lit tenv defs).
  Local Abbreviation declare := (declare (PC := PC) f globals place lit tenv defs).
  Local Abbreviation step := (cl_step (PC := PC) f globals place lit).
  Local Abbreviation exec := (exec (PC := PC) f globals place lit).
  Local Abbreviation residue e s r := (cl_expr f place lit e s.1 s.2 r).
  Local Abbreviation translates := (translates (PC := PC) f globals place lit tenv defs).
  Local Abbreviation expr_ok := (expr_ok f globals tenv defs).
  Local Abbreviation well := (well tenv defs).
  Implicit Types (s : memory) (e : env).

(** Statements without labels. *)
Definition label_free (t : Stmt) : Prop := forall l k, cl_find l t k = None.

(** The statements do what the computation does... *)
Definition effect (sem : memory -> option memory) (ts : list Stmt) : Prop :=
  Forall label_free ts /\ forall e s s', sem s = Some s' -> exists e', exec ts e s e' s'.

(** ... and then the expression has its value... *)
Definition valued (sem : memory -> option (val * memory)) (r : TransformResult) : Prop :=
  Forall label_free (Stmts r) /\ forall e s v s', sem s = Some (v, s') ->
    exists e', exec (Stmts r) e s e' s' /\ residue e' s' (Expr_ r) = Some v.

(** ... or its truth. *)
Definition condition (sem : memory -> option (bool * memory)) (r : TransformResult) : Prop :=
  Forall label_free (Stmts r) /\ forall e s b s', sem s = Some (b, s') ->
    exists e' v, exec (Stmts r) e s e' s' /\ residue e' s' (Expr_ r) = Some v /\ cl_truth (ExprType (Expr_ r)) v = Some b.

(** *** Labels *)

(** A label in a list, and what follows it. *)
Fixpoint find_list (l : string) (ts : list Stmt) (k : list cl_frame) : option (Stmt * list cl_frame) :=
  match ts with
  | [] => None
  | t :: ts => match cl_find l t (conts ts k) with Some r => Some r | None => find_list l ts k end
  end.

Lemma find_list_app l ts1 ts2 k :
  find_list l (ts1 ++ ts2) k = match find_list l ts1 (conts ts2 k) with Some r => Some r | None => find_list l ts2 k end.
Proof using. induction ts1 as [|t ts IH]; [done|]. cbn. rewrite conts_app, IH. by destruct (cl_find l t _). Qed.

Lemma find_free l ts k : Forall label_free ts -> find_list l ts k = None.
Proof using. induction 1 as [|t ts Ht _ IH]; [done|]. cbn. by rewrite Ht. Qed.

Lemma skip_free : label_free Sskip.
Proof using. done. Qed.

Lemma find_seq l ts k : cl_find l (Seq ts) k = find_list l ts k.
Proof using.
  revert k. induction ts as [|t ts IH] using rev_ind; intros k; [done|]. rewrite seq_last, find_list_app.
  change (find_list l [t] k) with (match cl_find l t k with Some r => Some r | None => None end).
  destruct (is_skip (Seq ts)) eqn:E.
  - apply seq_skip in E. rewrite (find_free l ts); [by destruct (cl_find l t k)|].
    eapply Forall_impl; [exact E|]. cbn. intros x ->. apply skip_free.
  - destruct (is_skip t) eqn:Ht.
    + apply skip_inv in Ht as ->. rewrite conts_skip, IH. cbn. by destruct (find_list l ts _).
    + cbn [cl_find]. rewrite IH, conts_cons by done. by destruct (find_list l ts _), (cl_find l t k).
Qed.

Lemma seq_free ts : Forall label_free ts -> label_free (Seq ts).
Proof using. intros H l k. by rewrite find_seq, find_free. Qed.

Lemma if_free c t1 t2 : label_free t1 -> label_free t2 -> label_free (Sifthenelse c t1 t2).
Proof using. intros H1 H2 l k. cbn. by rewrite H1, H2. Qed.

Lemma each_inv {A B} (g : A -> SE B) a l st bs st' :
  each g (a :: l) st = Some (bs, st') ->
  exists b bs' st1, g a st = Some (b, st1) /\ each g l st1 = Some (bs', st') /\ bs = b :: bs'.
Proof using. cbn [each]. intros H. run_inv. by eexists _, _, _. Qed.

(** The statements of an expression have no labels. *)
Lemma TransformExpr_free a st r st' : TransformExpr a st = Some (r, st') -> Forall label_free (Stmts r).
Proof using.
  revert st r st'.
  induction a as [n|b|c|x|op a1 IH|op l r1 IHl IHr|a1 IH|c t u IHc IHt IHu|g args IHg IHargs|a1 i IHa IHi|a1 x arrow IH|a1 _|t|t a1 IH]
    using Cabs.Expr_nested_ind; intros st r st' E; cbn [TransformExpr] in E; run_inv; cbn [Stmts pure]; try by constructor.
  - pose proof (IH _ _ _ H) as IH'. destruct op; cbn [transformUnary] in E; run_inv; try done; unfold transformIncDec in E; run_inv;
      cbn; rewrite ?Forall_app; (split; [done|]); by repeat constructor.
  - apply IHl in H as Hl. apply IHr in H0 as Hr. rewrite transformBinary_kind in E. destruct (kind_of op) as [[op'|]| |[]|op'];
      unfold transformCompoundAssign, transformAssign, assign_temp, transformLogicalOr, transformLogicalAnd in E; run_inv; simplify_eq; cbn [Stmts];
      rewrite !Forall_app; repeat split; try done; repeat constructor; try done; apply if_free; try done; apply seq_free, Forall_app;
      (split; [done|]); repeat constructor; by apply if_free.
  - by eapply IH.
  - apply IHc in H. apply IHt in H0. apply IHu in H1. unfold transformConditional in E. run_inv. cbn [Stmts].
    apply Forall_app. split; [done|]. constructor; [|constructor]. destruct (_ && _); apply if_free; try done;
      by apply seq_free, Forall_app; split; [|repeat constructor].
  - apply IHg in H. unfold transformCall in E. run_inv. cbn [Stmts]. rewrite !Forall_app. split; [done|]. split; [|by repeat constructor].
    clear H H1. revert x0 x1 x2 H0. induction IHargs as [|a args Ha _ IH]; intros st0 rs st1 E; [by apply SE_ret_inv in E as [<- _]|].
    apply each_inv in E as (r1 & rs' & st2 & E1 & E2 & ->). cbn. apply Forall_app. split; [by eapply Ha|by eapply IH].
  - apply IHa in H. apply IHi in H0. unfold transformIndex. case_match. cbn. by apply Forall_app.
  - unfold transformMember in E. run_inv. cbn. by eapply IH.
  - by eapply IH.
Qed.

(** *** Expressions *)

Lemma translates_effect a r lo hi :
  translates a r lo hi -> Forall label_free (Stmts r) -> effect (fun s => snd <$> eval a s) (Stmts r).
Proof using.
  intros (_ & _ & H) Hl. split; [done|]. intros e s s' E. apply fmap_Some in E as ([rv s1] & E & ->).
  destruct (H s rv s1 E e) as (e' & Hx & _). by exists e'.
Qed.

Lemma translates_valued a r lo hi : translates a r lo hi -> Forall label_free (Stmts r) -> valued (value a) r.
Proof using.
  intros H Hl. split; [done|]. intros e s v s' E.
  destruct (translates_value _ _ _ _ _ _ _ _ _ _ _ _ _ H E e) as (e' & Hx & _ & Hq). exists e'. split; [done|].
  apply Hq; [by intros id|apply keeps_refl].
Qed.

Lemma translates_condition a r lo hi :
  translates a r lo hi -> Forall label_free (Stmts r) -> is_value (type_of a) = true -> condition (test a) r.
Proof using.
  intros H Hl Ht. split; [done|]. intros e s b s' E. unfold CabsSem.test in E. apply bind_Some in E as ([v s1] & Hv & E).
  apply fmap_Some in E as (b' & Hb & [= -> ->]). destruct (translates_valued _ _ _ _ H Hl) as [_ Hval].
  destruct (Hval e s v s1 Hv) as (e' & Hx & Hr). exists e', v. split; [done|]. split; [done|].
  unfold value_type in Hb. rewrite is_value_decay in Hb by done. by rewrite (translates_type _ _ _ _ _ _ _ _ _ _ H).
Qed.

(** [TransformExpr] on what it supports. *)
Lemma TransformExpr_run a st :
  expr_ok a = true -> well st ->
  exists r st', TransformExpr a st = Some (r, st') /\ well st' /\ translates a r (nextTempID st) (nextTempID st') /\ Forall label_free (Stmts r).
Proof using.
  intros Hok Hst. destruct (TransformExpr_makes (PC := PC) f globals place lit tenv defs a st Hok Hst) as (r & st' & E & Hst' & Hr).
  exists r, st'. split; [done|]. split; [done|]. split; [done|]. by eapply TransformExpr_free.
Qed.
(** *** Initializers *)

Lemma no_conversion_cast t to v : no_conversion t to = true -> sem_cast (decay t) to v = Some v.
Proof using.
  unfold no_conversion. rewrite andb_true_iff, orb_true_iff, andb_true_iff, bool_decide_eq_true, negb_true_iff.
  intros [Hv [He|[Hb Hc]]]; rewrite is_value_decay by done; [by apply sem_cast_same|]. unfold sem_cast. by rewrite Hb, Hc.
Qed.

Lemma const_residue_spec a st r st' :
  expr_ok a = true -> TransformExpr a st = Some (r, st') ->
  if const_residue a then exists n t, Expr_ r = Econst_int n t /\ (t = int /\ in_i32 n \/ t = Some Ctypes.Long /\ in_i64 n)
  else forall n t, Expr_ r <> Econst_int n t.
Proof using.
  revert st r st'.
  induction a as [n|b|c|x|op a1 IH|op l r1 IHl IHr|a1 IH|c t u _ _ _|g args _ _|a1 i _ _|a1 x arrow _|a1 _|t|t a1 _]
    using Cabs.Expr_nested_ind; intros st r st' Hok E; cbn [TransformExpr const_residue] in *; run_inv; try done.
  - exists n, (Some (constant_type n)). split; [done|]. cbn in Hok. unfold constant_type, in_i32, in_i64, int.
    rewrite andb_true_iff, !Z.leb_le in Hok. rewrite (proj2 (Z.leb_le (-2147483648) n)), (proj2 (Z.leb_le n 9223372036854775807)) by lia. cbn.
    destruct (n <=? 2147483647) eqn:E; [apply Z.leb_le in E; left|right]; (split; [done|lia]).
  - exists (char_value c), int. split; [done|]. left. split; [done|]. unfold in_i32, char_value, byte.
    assert (Hb : forall c, 0 <= Z.of_N (Ascii.N_of_ascii c) < 256) by (intros b; pose proof (Ascii.N_ascii_bounded b); lia).
    destruct c as [|c [|d rest]]; [lia|specialize (Hb c); lia|]. pose proof (Hb c). pose proof (Hb d).
    destruct (_ =? 92); [|lia]. unfold escape, byte. repeat (case_match; cbn; try lia).
  - cbn [SimplExpr.TransformExpr] in *. cbn [SimplExprProof.expr_ok] in Hok. destruct_andb. specialize (IH _ _ _ ltac:(done) H).
    destruct op; cbn [transformUnary] in E; unfold transformIncDec in E; run_inv; done.
  - cbn [SimplExprProof.expr_ok] in Hok. destruct_andb. specialize (IHr _ _ _ ltac:(done) H0). rewrite transformBinary_kind in E.
    destruct op; cbn [kind_of] in E; unfold transformCompoundAssign, transformAssign, assign_temp, transformLogicalOr, transformLogicalAnd in E; run_inv; simplify_eq; done.
  - by eapply IH.
  - unfold transformConditional in E. by run_inv.
  - unfold transformCall in E. by run_inv.
  - unfold transformIndex. by case_match.
  - unfold transformMember in E. by run_inv.
Qed.

Lemma coerce_residue a r typ e s v w st st' :
  expr_ok a = true -> TransformExpr a st = Some (r, st') -> ExprType (Expr_ r) = type_of a ->
  initializes a (type_of a) typ = true -> residue e s (Expr_ r) = Some v ->
  sem_cast (value_type tenv defs a) (Some typ) v = Some w -> residue e s (coerceToType (Expr_ r) typ) = Some w.
Proof using.
  intros Hok E Ht Hi Hv Hw. pose proof (const_residue_spec _ _ _ _ Hok E) as Hc. unfold value_type in Hw.
  assert (Hsame : no_conversion (type_of a) (Some typ) = true -> v = w)
    by (intros Hn; pose proof (no_conversion_cast _ _ v Hn); congruence).
  destruct typ as [|size sign|sign|size|elem|elem n|ps r1 va|x fs|x fs]; cbn [coerceToType initializes] in *;
    try (rewrite <- Hsame by done; done).
  - destruct size; try (rewrite <- Hsame by done; done); rewrite is_value_decay, <- Ht in Hw by done;
      (destruct (ExprType (Expr_ r)) as [t|] eqn:Et; [|rewrite <- Hw in *; by destruct sign]).
    all: destruct (Ctypes.Equal t _) eqn:Eq; [rewrite sem_cast_same in Hw by done; congruence|]; cbn; rewrite Hv; cbn; by rewrite Et.
  - destruct (const_residue a).
    + destruct Hc as (n & t & Er & Hn). rewrite Er in *. cbn in Ht, Hv. rewrite <- Ht in Hw. destruct Hn as [[-> Hn]|[-> Hn]].
      * cbn in Hv. injection Hv as <-. rewrite i32_id in Hw by done. destruct sign; exact Hw.
      * cbn in Hv. injection Hv as <-. rewrite i64_id in Hw by done. destruct sign; exact Hw.
    + rewrite <- Hsame by done. destruct (Expr_ r); try done. by destruct (Hc Value Typ).
Qed.
Lemma exec_assign e s lhs rhs o w s' :
  object_at f place lit e s lhs = Some o -> residue e s rhs = Some w -> write (ExprType lhs) o w s = Some s' ->
  exec [Sassign lhs rhs] e s e s'.
Proof using.
  intros Ho Hw Hs. apply exec_one. intros k. apply rtc_once. unfold steps_to, at_. cbn [cl_step]. rewrite Hw. cbn.
  by rewrite (cl_assign_object _ _ _ _ _ _ _ _ Ho), Hs.
Qed.

Lemma declare_nil : effect (declare []) [].
Proof using. split; [constructor|]. intros e s s' [= <-]. exists e. constructor. Qed.

Lemma declare_none d ds ts : Cabs.d_Initializer d = None -> effect (declare ds) ts -> effect (declare (d :: ds)) ts.
Proof using. intros Hd [Hl H]. split; [done|]. intros e s s' E. cbn [CabsSem.declare] in E. rewrite Hd in E. by eapply H. Qed.

Lemma declare_some d ds a r st st' lo hi ts :
  let typ := TypeFromString (Cabs.d_TypeSpec d) in
  Cabs.d_Initializer d = Some a -> TransformExpr a st = Some (r, st') -> translates a r lo hi -> Forall label_free (Stmts r) ->
  decl_ok f globals tenv defs d = true -> effect (declare ds) ts ->
  effect (declare (d :: ds)) (Stmts r ++ Sassign (Evar (Cabs.d_Name d) (Some typ)) (coerceToType (Expr_ r) typ) :: ts).
Proof using.
  intros typ Hd E Ha Hl Hok [Hls H]. unfold decl_ok in Hok. rewrite Hd in Hok. fold typ in Hok. destruct_andb.
  split; [by apply Forall_app; split; [|constructor]|]. intros e s s' Ed. cbn [CabsSem.declare] in Ed. rewrite Hd in Ed.
  destruct (Cabs.d_ArrayDims d); [|done]. apply bind_Some in Ed as ([v s1] & Hv & Ed). apply bind_Some in Ed as (o & Ho & Ed).
  apply bind_Some in Ed as ([w s2] & Hw & Ed). apply assign_inv in Hw as [Hw Hs].
  match goal with Ht : bool_decide (type_of _ = _) = true |- _ => apply bool_decide_eq_true in Ht; rename Ht into Hx end.
  destruct (translates_valued _ _ _ _ Ha Hl) as [_ Hval]. destruct (Hval e s v s1 Hv) as (e' & Hex & Hr).
  destruct (H e' s2 s' Ed) as (e2 & Hex2). exists e2. eapply exec_app; [exact Hex|]. change (?t :: ts) with ([t] ++ ts). eapply exec_app; [|exact Hex2].
  rewrite Hx in Hw, Hs. eapply (exec_assign _ _ _ _ o w); [|eapply coerce_residue; eauto; by eapply translates_type|exact Hs].
  unfold object_at, variable in *. cbn. destruct (is_param f (Cabs.d_Name d)); unbind; [done|]. cbn. by rewrite E0.
Qed.

Lemma transformDecls_run ds st :
  forallb (decl_ok f globals tenv defs) ds = true -> well st ->
  exists ts st', transformDecls ds st = Some (ts, st') /\ well st' /\ effect (declare ds) ts.
Proof using.
  revert st. induction ds as [|d ds IH]; intros st Hok Hst; [exists [], st; split; [done|]; split; [done|apply declare_nil]|].
  cbn [forallb] in Hok. destruct_andb. cbn [transformDecls]. destruct (Cabs.d_Initializer d) as [a|] eqn:Ed.
  - assert (Ha : expr_ok a = true) by (unfold decl_ok in *; rewrite Ed in *; by destruct_andb).
    destruct (TransformExpr_run a st Ha Hst) as (r & st1 & E & Hst1 & Hr & Hl). destruct (IH st1) as (ts & st2 & E2 & Hst2 & Hts); [done..|].
    erewrite SE_run by exact E. erewrite SE_run by exact E2. eexists _, _. split; [reflexivity|]. split; [done|]. by eapply declare_some.
  - destruct (IH st) as (ts & st2 & E2 & Hst2 & Hts); [done..|]. exists ts, st2. split; [done|]. split; [done|]. by apply declare_none.
Qed.
(** ** Statements *)

(** The type the function returns. *)
Context (ret : Type_).

Definition returned (a : Cabs.Expr) : memory -> option (val * memory) :=
  fun s => '(v, s) ← value a s; w ← sem_cast (value_type tenv defs a) ret v; Some (w, s).

(** [if (!c) break], after the body of a [do] loop. *)
Definition check (c : Expr) : Stmt := Sifthenelse (Eunop Onotbool c int) Sbreak Sskip.

Inductive tr_cases (block : list Cabs.Stmt -> list Stmt -> Prop) (long : bool) :
    list Cabs.SwitchCase -> list SwitchCase -> Stmt -> Prop :=
| tr_no_case : tr_cases block long [] [] Sskip
| tr_default ss ts : block ss ts -> tr_cases block long [(None, ss)] [] (Seq ts)
| tr_case n ss ts cases rest d :
    (if long then i64 n else i32 n) = n -> block ss ts -> tr_cases block long cases rest d ->
    tr_cases block long ((Some (Cabs.Constant n), ss) :: cases) ((n, Seq ts) :: rest) d.

(** [tr in_do s t]: [t] is what the pass makes of [s]. *)
Inductive tr : bool -> Cabs.Stmt -> Stmt -> Prop :=
| tr_skip d : tr d Cabs.Skip Sskip
| tr_break d : tr d Cabs.Break Sbreak
| tr_continue : tr false Cabs.Continue Scontinue
| tr_goto d l : tr d (Cabs.Goto l) (Sgoto l)
| tr_return_none d : tr d (Cabs.Return None) (Sreturn None)
| tr_return d a r : valued (returned a) r -> tr d (Cabs.Return (Some a)) (Seq (Stmts r ++ [Sreturn (Some (Expr_ r))]))
| tr_computation d a ts : effect (fun s => snd <$> eval a s) ts -> tr d (Cabs.Computation a) (Seq ts)
| tr_if d c b o r t1 t2 :
    condition (test c) r -> tr d b t1 -> tr d (default Cabs.Skip o) t2 ->
    tr d (Cabs.If c b o) (Seq (Stmts r ++ [Sifthenelse (Expr_ r) t1 t2]))
| tr_while d c body r t :
    condition (test c) r -> tr false body t -> tr d (Cabs.While c body) (Sloop (loop_body (Stmts r) (Expr_ r) t) Sskip)
| tr_do d body c t r :
    tr true body t -> condition (test c) r -> tr d (Cabs.DoWhile body c) (Sloop (Seq (t :: Stmts r ++ [check (Expr_ r)])) Sskip)
| tr_for d init ds c step body its r t sts :
    effect (match init with Some a => fun s => snd <$> eval a s | None => declare ds end) its ->
    condition (test_opt c) r -> tr false body t -> effect (run_opt step) sts ->
    tr d (Cabs.For init ds c step body) (Seq [Seq its; Sloop (loop_body (Stmts r) (Expr_ r) t) (Seq sts)])
| tr_switch d a cases r rest dflt :
    valued (value a) r -> is_long (ExprType (Expr_ r)) = is_long (value_type tenv defs a) ->
    tr_cases (Forall2 (tr d)) (is_long (ExprType (Expr_ r))) cases rest dflt ->
    tr d (Cabs.Switch a cases) (Seq (Stmts r ++ [Sswitch (Expr_ r) rest dflt false]))
| tr_label d l b t : tr d b t -> tr d (Cabs.Label l b) (Slabel l t)
| tr_block d ss ts : Forall2 (tr d) ss ts -> tr d (Cabs.Block ss) (Seq ts)
| tr_decl d ds ts : effect (declare ds) ts -> tr d (Cabs.DeclStmt ds) (Seq ts).

Lemma run_opt_some a ts : effect (fun s => snd <$> eval a s) ts -> effect (run_opt (Some a)) ts.
Proof using. done. Qed.

Lemma run_opt_none : effect (run_opt None) [].
Proof using. split; [constructor|]. intros e s s' [= <-]. exists e. constructor. Qed.

Lemma test_opt_none : condition (test_opt None) (pure (Econst_int 1 int)).
Proof using. split; [constructor|]. intros e s b s' [= <- <-]. exists e, (Vint 1). split; [constructor|]. by split. Qed.

Lemma translates_returned a r lo hi :
  translates a r lo hi -> Forall label_free (Stmts r) -> no_conversion (type_of a) ret = true -> valued (returned a) r.
Proof using.
  intros H Hl Hn. destruct (translates_valued _ _ _ _ H Hl) as [_ Hv]. split; [done|]. intros e s v s' E. unfold returned in E.
  apply bind_Some in E as ([v' s1] & E & Hc). unfold value_type in Hc. rewrite no_conversion_cast in Hc by done. cbn in Hc.
  simplify_eq. by apply Hv.
Qed.

(** What [transformStmt] makes of a statement. *)
Definition makes_stmt (d : bool) (b : Cabs.Stmt) : Prop :=
  forall st, well st -> exists t st', transformStmt b st = Some (t, st') /\ well st' /\ tr d b t.

Lemma block_run d ss :
  Forall (fun b => stmt_ok f globals tenv defs ret d b = true -> makes_stmt d b) ss -> forallb (stmt_ok f globals tenv defs ret d) ss = true ->
  forall st, well st -> exists ts st', each transformStmt ss st = Some (ts, st') /\ well st' /\ Forall2 (tr d) ss ts.
Proof using.
  induction 1 as [|s ss Hs _ IH]; intros Hok st Hst; [by exists [], st|]. cbn [forallb] in Hok. destruct_andb.
  destruct (Hs ltac:(done) st Hst) as (t & st1 & E1 & Hst1 & Ht). destruct (IH ltac:(done) st1 Hst1) as (ts & st2 & E2 & Hst2 & Hts).
  exists (t :: ts), st2. cbn [each]. erewrite SE_run by exact E1. erewrite SE_run by exact E2. split; [done|]. split; [done|by constructor].
Qed.

Lemma transformed_cases_run d long cases :
  Forall (fun c => Forall (fun b => stmt_ok f globals tenv defs ret d b = true -> makes_stmt d b) c.2) cases ->
  cases_ok (forallb (stmt_ok f globals tenv defs ret d)) long cases = true ->
  forall st, well st -> exists rest dflt st', transform_cases (each transformStmt) cases Sskip st = Some ((rest, dflt), st') /\
    well st' /\ tr_cases (Forall2 (tr d)) long cases rest dflt.
Proof using.
  induction 1 as [|[o ss] cases Hc _ IH]; intros Hok st Hst; [exists [], Sskip, st; split; [done|]; split; [done|constructor]|].
  cbn [cases_ok fst snd] in *. destruct_andb. destruct (block_run d ss Hc ltac:(done) st Hst) as (ts & st1 & E1 & Hst1 & Hts).
  cbn [transform_cases fst snd]. erewrite SE_run by exact E1. unfold label_ok in *. cbn [fst] in *. destruct o as [a|].
  - destruct a as [n| | | | | | | | | | | | |]; try done. destruct (IH ltac:(done) st1 Hst1) as (rest & dflt & st2 & E2 & Hst2 & Hr).
    erewrite SE_run by exact E2. eexists _, _, _. split; [reflexivity|]. split; [done|]. constructor; [|done..].
    destruct_andb. destruct long; [apply i64_id|apply i32_id]; unfold in_i64, in_i32; lia.
  - destruct cases; [|done]. eexists _, _, _. split; [reflexivity|]. split; [done|]. by constructor.
Qed.
Lemma condition_run c st :
  condition_ok f globals tenv defs c = true -> well st ->
  exists r st', TransformExpr c st = Some (r, st') /\ well st' /\ condition (test c) r.
Proof using.
  intros Hok Hst. unfold condition_ok in Hok. destruct_andb. destruct (TransformExpr_run c st ltac:(done) Hst) as (r & st' & E & Hst' & Hr & Hl).
  exists r, st'. split; [done|]. split; [done|]. by eapply translates_condition.
Qed.

Lemma effect_run a st :
  expr_ok a = true -> well st ->
  exists r st', TransformExpr a st = Some (r, st') /\ well st' /\ effect (fun s => snd <$> eval a s) (Stmts r).
Proof using.
  intros Hok Hst. destruct (TransformExpr_run a st Hok Hst) as (r & st' & E & Hst' & Hr & Hl).
  exists r, st'. split; [done|]. split; [done|]. by eapply translates_effect.
Qed.

Lemma for_run init ds c step body :
  match init with Some a => expr_ok a | None => forallb (decl_ok f globals tenv defs) ds end = true ->
  match c with Some c => condition_ok f globals tenv defs c | None => true end = true ->
  match step with Some a => expr_ok a | None => true end = true -> makes_stmt false body ->
  forall d, makes_stmt d (Cabs.For init ds c step body).
Proof using.
  intros Hi Hc Hs Hb d st Hst. cbn [transformStmt].
  assert (Hinit : exists its st1,
    match init with Some e => r ← TransformExpr e; mret (Seq (Stmts r)) | None => ts ← transformDecls ds; mret (Seq ts) end st = Some (Seq its, st1) /\
    well st1 /\ effect (match init with Some a => fun s => snd <$> eval a s | None => declare ds end) its).
  { destruct init as [a|].
    - destruct (effect_run a st Hi Hst) as (r & st1 & E & Hst1 & Hr). exists (Stmts r), st1. erewrite SE_run by exact E. done.
    - destruct (transformDecls_run ds st Hi Hst) as (ts & st1 & E & Hst1 & Hts). exists ts, st1. erewrite SE_run by exact E. done. }
  destruct Hinit as (its & st1 & E1 & Hst1 & Hits). erewrite SE_run by exact E1.
  assert (Hcond : exists r st2, match c with Some c => TransformExpr c | None => mret (pure (Econst_int 1 int)) end st1 = Some (r, st2) /\
    well st2 /\ condition (test_opt c) r).
  { destruct c as [c|]; [by apply condition_run|]. eexists _, _. split; [reflexivity|]. split; [done|apply test_opt_none]. }
  destruct Hcond as (r & st2 & E2 & Hst2 & Hr). erewrite SE_run by exact E2.
  destruct (Hb st2 Hst2) as (t & st3 & E3 & Hst3 & Ht). erewrite SE_run by exact E3.
  assert (Hstep : exists sts st4, transform_opt step st3 = Some (Seq sts, st4) /\ well st4 /\ effect (run_opt step) sts).
  { destruct step as [a|]; unfold transform_opt; [|exists [], st3; split; [done|]; split; [done|apply run_opt_none]].
    destruct (effect_run a st3 Hs Hst3) as (rs & st4 & E & Hst4 & Hrs). exists (Stmts rs), st4. erewrite SE_run by exact E. done. }
  destruct Hstep as (sts & st4 & E4 & Hst4 & Hsts). erewrite SE_run by exact E4.
  eexists _, _. split; [reflexivity|]. split; [done|]. by constructor.
Qed.

(** Every supported statement is transformed. *)
Lemma transformStmt_run b : forall d, stmt_ok f globals tenv defs ret d b = true -> makes_stmt d b.
Proof using.
  induction b as [o|a|c b o IH IHo|c b IH|b c IH|init ds c inc b IH| | | |a cases IH|l|l b IH|ss IH|ds] using Cabs.Stmt_nested_ind;
    intros d Hok; cbn [stmt_ok] in Hok; destruct_andb; try (intros st Hst; cbn [transformStmt]).
  - destruct o as [a|]; [|eexists _, _; split; [reflexivity|]; split; [done|constructor]]. destruct_andb.
    destruct (TransformExpr_run a st) as (r & st1 & E & Hst1 & Hr & Hl); [done..|]. erewrite SE_run by exact E.
    eexists _, _. split; [reflexivity|]. split; [done|]. constructor. by eapply translates_returned.
  - destruct (effect_run a st) as (r & st1 & E & Hst1 & Hr); [done..|]. erewrite SE_run by exact E.
    eexists _, _. split; [reflexivity|]. split; [done|]. by constructor.
  - destruct (condition_run c st) as (r & st1 & E & Hst1 & Hr); [done..|]. destruct (IH d ltac:(done) st1 Hst1) as (t1 & st2 & E2 & Hst2 & Ht1).
    erewrite SE_run by exact E. erewrite SE_run by exact E2.
    assert (He : exists t2 st3, match o with Some s2 => transformStmt s2 | None => mret Sskip end st2 = Some (t2, st3) /\ well st3 /\
      tr d (default Cabs.Skip o) t2).
    { destruct o as [b2|]; [by apply IHo|]. eexists _, _. split; [reflexivity|]. split; [done|constructor]. }
    destruct He as (t2 & st3 & E3 & Hst3 & Ht2). erewrite SE_run by exact E3. eexists _, _. split; [reflexivity|]. split; [done|]. by constructor.
  - destruct (condition_run c st) as (r & st1 & E & Hst1 & Hr); [done..|]. destruct (IH false ltac:(done) st1 Hst1) as (t & st2 & E2 & Hst2 & Ht).
    erewrite SE_run by exact E. erewrite SE_run by exact E2. eexists _, _. split; [reflexivity|]. split; [done|]. by constructor.
  - destruct (IH true ltac:(done) st Hst) as (t & st1 & E1 & Hst1 & Ht). destruct (condition_run c st1) as (r & st2 & E & Hst2 & Hr); [done..|].
    erewrite SE_run by exact E1. erewrite SE_run by exact E. eexists _, _. split; [reflexivity|]. split; [done|]. by constructor.
  - apply for_run; auto.
  - eexists _, _. split; [reflexivity|]. split; [done|constructor].
  - eexists _, _. split; [reflexivity|]. split; [done|constructor].
  - eexists _, _. split; [reflexivity|]. split; [done|]. destruct d; [done|constructor].
  - unfold condition_ok in *. destruct_andb. destruct (TransformExpr_run a st) as (r & st1 & E & Hst1 & Hr & Hl); [done..|].
    erewrite SE_run by exact E. pose proof (translates_type _ _ _ _ _ _ _ _ _ _ Hr) as Ht.
    destruct (transformed_cases_run d (is_long (type_of a)) cases) with (st := st1) as (rest & dflt & st2 & E2 & Hst2 & Hc); [|done..|].
    { eapply Forall_impl; [exact IH|]. intros c Hc. eapply Forall_impl; [exact Hc|]. intros b Hb. apply Hb. }
    erewrite SE_run by exact E2. eexists _, _. split; [reflexivity|]. split; [done|]. cbn [fst snd].
    constructor; [by eapply translates_valued| |by rewrite Ht]. by rewrite Ht; unfold value_type; rewrite is_value_decay.
  - eexists _, _. split; [reflexivity|]. split; [done|constructor].
  - destruct (IH d ltac:(done) st Hst) as (t & st1 & E1 & Hst1 & Ht). erewrite SE_run by exact E1.
    eexists _, _. split; [reflexivity|]. split; [done|]. by constructor.
  - destruct (block_run d ss) with (st := st) as (ts & st1 & E1 & Hst1 & Hts); [|done..|].
    { eapply Forall_impl; [exact IH|]. intros b Hb. apply Hb. }
    erewrite SE_run by exact E1. eexists _, _. split; [reflexivity|]. split; [done|]. by constructor.
  - destruct (transformDecls_run ds st) as (ts & st1 & E & Hst1 & Hts); [done..|]. erewrite SE_run by exact E.
    eexists _, _. split; [reflexivity|]. split; [done|]. by constructor.
Qed.
End Statements.

(** ** A measure *)

Fixpoint stmt_size (s : Cabs.Stmt) : nat :=
  let block_size := fix block_size ss := match ss with [] => 0%nat | s :: ss => (1 + stmt_size s + block_size ss)%nat end in
  match s with
  | Cabs.Skip => 0%nat
  | Cabs.If _ s1 o => (1 + stmt_size s1 + match o with Some s2 => stmt_size s2 | None => 0 end)%nat
  | Cabs.While _ _ | Cabs.For _ _ _ _ _ => 3%nat
  | Cabs.DoWhile body _ => (3 + stmt_size body)%nat
  | Cabs.Switch _ cases =>
      (5 + (fix go (cases : list Cabs.SwitchCase) := match cases with [] => 0 | c :: cases => 3 + block_size c.2 + go cases end) cases)%nat
  | Cabs.Label _ s => (1 + stmt_size s)%nat
  | Cabs.Block ss => (2 + block_size ss)%nat
  | _ => 1%nat
  end.

Fixpoint block_size (ss : list Cabs.Stmt) : nat :=
  match ss with [] => 0%nat | s :: ss => (1 + stmt_size s + block_size ss)%nat end.

Fixpoint cases_size (cases : list Cabs.SwitchCase) : nat :=
  match cases with [] => 0%nat | c :: cases => (3 + block_size c.2 + cases_size cases)%nat end.

Lemma block_measure ss : stmt_size (Cabs.Block ss) = (2 + block_size ss)%nat.
Proof. done. Qed.

Lemma switch_measure a cases : stmt_size (Cabs.Switch a cases) = (5 + cases_size cases)%nat.
Proof. done. Qed.

Definition frame_size (fr : c_frame) : nat :=
  match fr with
  | Kblock ss => (1 + block_size ss)%nat
  | Kafter _ _ _ => 2%nat
  | Ktest _ _ _ | Kdo _ _ | Kend => 1%nat
  | Kcases cases => (1 + cases_size cases)%nat
  end.

Fixpoint cont_size (k : list c_frame) : nat :=
  match k with [] => 0%nat | fr :: k => (frame_size fr + cont_size k)%nat end.

Lemma break_size k k' : c_break k = Some k' -> (cont_size k' <= cont_size k)%nat.
Proof. induction k as [|[] k IH]; cbn; try done; try (intros [= <-]; lia); intros H%IH; lia. Qed.

Lemma continue_size k k' : c_continue k = Some k' -> (cont_size k' <= cont_size k)%nat.
Proof. induction k as [|[] k IH]; cbn; try done; try (intros [= <-]; cbn; lia); intros H%IH; lia. Qed.

Lemma cases_from_size P cases : (cases_size (cases_from P cases) <= cases_size cases)%nat.
Proof. induction cases as [|c cases IH]; cbn; [done|]. destruct (P c); cbn; lia. Qed.

Lemma select_size long z cases : (cases_size (select long z cases) <= cases_size cases)%nat.
Proof.
  unfold select. pose proof (cases_from_size (case_is long z) cases). pose proof (cases_from_size is_default cases).
  by destruct (cases_from (case_is long z) cases).
Qed.

Section Simulation.
  Context {M : Type} `{FO : FloatOps} `{LO : Layout} `{TS : TargetSemantics val M}.
  Context {VT : ValueTarget M} {darwin : bool} {PC : PseudoCalls val M darwin}.
  Context (f : Function) (globals : list VarDecl) (place : string -> Z) (lit : string -> val).
  Context (tenv : gmap string Ctypes.Type_) (defs : gmap string (list Ctypes.Field)) (body : list Cabs.Stmt) (ret : Type_).
  Local Abbreviation memory := (gmap string val * M)%type.
  Local Abbreviation env := (gmap Z val).
  Local Abbreviation eval := (eval (PC := PC) f globals place lit tenv defs).
  Local Abbreviation value := (value (PC := PC) f globals place lit tenv defs).
  Local Abbreviation run_opt := (run_opt (PC := PC) f globals place lit tenv defs).
  Local Abbreviation test := (test (PC := PC) f globals place lit tenv defs).
  Local Abbreviation test_opt := (test_opt (PC := PC) f globals place lit tenv defs).
  Local Abbreviation declare := (declare (PC := PC) f globals place lit tenv defs).
  Local Abbreviation step := (cl_step (PC := PC) f globals place lit).
  Local Abbreviation cstep := (c_step (PC := PC) f globals place lit tenv defs body ret).
  Local Abbreviation exec := (exec (PC := PC) f globals place lit).
  Local Abbreviation goes_to := (goes_to (PC := PC) f globals place lit).
  Local Abbreviation effect := (effect (PC := PC) f globals place lit).
  Local Abbreviation condition := (condition (PC := PC) f globals place lit).
  Local Abbreviation tr := (tr (PC := PC) f globals place lit tenv defs ret).
  Implicit Types (s : memory) (e : env).

(** ** Related states *)

(** [match_cont in_do k kt]: [in_do] says where a [continue] goes to. *)
Inductive match_cont : bool -> list c_frame -> list cl_frame -> Prop :=
| mc_stop d : match_cont d [] []
| mc_block d ss ts k kt : Forall2 (tr d) ss ts -> match_cont d k kt -> match_cont d (Kblock ss :: k) (conts ts kt)
| mc_loop d c inc b r t sts k kt :
    condition (test_opt c) r -> tr false b t -> effect (run_opt inc) sts -> match_cont d k kt ->
    match_cont false (Kafter c inc b :: k) (Kloop1 (loop_body (Stmts r) (Expr_ r) t) (Seq sts) :: kt)
| mc_do d b c t r k kt :
    tr true b t -> condition (test c) r -> match_cont d k kt ->
    match_cont true (Kdo b c :: k)
      (conts (Stmts r ++ [check (Expr_ r)]) (Kloop1 (Seq (t :: Stmts r ++ [check (Expr_ r)])) Sskip :: kt))
| mc_cases d long cases rest dflt k kt :
    tr_cases (Forall2 (tr d)) long cases rest dflt -> match_cont d k kt ->
    match_cont d (Kcases cases :: k) (Kseq (fall_through rest dflt) :: kt)
| mc_last d k kt : match_cont d k kt -> match_cont d (Kcases [] :: k) kt
| mc_end d k kt : match_cont d k kt -> match_cont d (Kend :: k) (Kswitch :: kt).

(** The Clight state a state corresponds to... *)
Inductive canonical : c_state -> cl_state -> Prop :=
| canon_stmt d b k s t kt e : tr d b t -> match_cont d k kt -> canonical (b, k, s) (at_ t kt e s)
| canon_test d c inc b k s r t sts kt e :
    condition (test_opt c) r -> tr false b t -> effect (run_opt inc) sts -> match_cont d k kt ->
    canonical (Cabs.Skip, Ktest c inc b :: k, s)
      (at_ (loop_body (Stmts r) (Expr_ r) t) (Kloop1 (loop_body (Stmts r) (Expr_ r) t) (Seq sts) :: kt) e s).

(** ... up to steps that only go to the next statement. *)
Definition matches (S : c_state) (T : cl_state) : Prop :=
  exists C N, canonical S C /\ rtc goes_to C N /\ rtc (steps_to step) T N.

Definition measure (S : @c_state M) : nat := (stmt_size S.1.1 + cont_size S.1.2)%nat.

Lemma goes_or C N C' : rtc goes_to C N -> rtc (steps_to step) C C' -> rtc (steps_to step) N C' \/ rtc goes_to C' N.
Proof using.
  induction 1 as [C|C C1 N [Hi H1] Hn IH]; intros Hr; [by left|]. inversion Hr as [|? C2 ? H2 Hr2]; subst.
  - right. by eapply rtc_l; [split|].
  - assert (C2 = C1) as -> by (unfold steps_to in *; congruence). by apply IH.
Qed.

(** What a step of the source leads to. *)
Definition follows (C : cl_state) (S S' : c_state) : Prop :=
  exists J C', canonical S' C' /\ rtc goes_to C' J /\
    (rtc (steps_to step) C J /\ (measure S' < measure S)%nat \/
     exists C1, rtc (steps_to step) C C1 /\ internal C1 = false /\ tc (steps_to step) C1 J).

Lemma follows_matches C N S S' T :
  rtc goes_to C N -> rtc (steps_to step) T N -> follows C S S' ->
  exists T', matches S' T' /\ (tc (steps_to step) T T' \/ T' = T /\ (measure S' < measure S)%nat).
Proof using.
  intros Hn Ht (J & C' & Hc & Hj & [[Hr Hm]|(C1 & Hr & Hi & Htc)]).
  - exists T. split; [|by right]. destruct (goes_or _ _ _ Hn Hr) as [H|H].
    + exists C', J. split; [done|]. split; [done|]. by etrans.
    + exists C', N. split; [done|]. split; [|done]. by etrans.
  - exists J. split; [exists C', J; split; [done|]; split; [done|apply rtc_refl]|]. left.
    eapply tc_rtc_l; [exact Ht|]. destruct (goes_or _ _ _ Hn Hr) as [H|H]; [by eapply tc_rtc_l|].
    inversion H as [|? ? ? [Hi' _]]; subst; [done|congruence].
Qed.

Lemma follows_weak C S S' J C' :
  canonical S' C' -> rtc goes_to C' J -> rtc (steps_to step) C J -> (measure S' < measure S)%nat -> follows C S S'.
Proof using. intros. exists J, C'. split; [done|]. split; [done|]. by left. Qed.

Lemma follows_stmt C d b k s t kt e S :
  tr d b t -> match_cont d k kt -> rtc (steps_to step) C (at_ t kt e s) -> (measure (b, k, s) < measure S)%nat -> follows C S (b, k, s).
Proof using. intros. eapply follows_weak; [by econstructor|apply rtc_refl|done|done]. Qed.

Lemma follows_skip C d k s kt e S :
  match_cont d k kt -> rtc (steps_to step) C (at_ Sskip kt e s) -> (cont_size k < measure S)%nat -> follows C S (Cabs.Skip, k, s).
Proof using. intros. by eapply follows_stmt; [constructor| | |]. Qed.

(** ** Running *)

Lemma effect_steps sem ts e s s' : effect sem ts -> sem s = Some s' -> exists e', exec ts e s e' s'.
Proof using. intros [_ H]. apply H. Qed.

Lemma effect_seq sem ts e s s' :
  effect sem ts -> sem s = Some s' -> exists e', forall k, rtc (steps_to step) (at_ (Seq ts) k e s) (at_ Sskip k e' s').
Proof using. intros H E. destruct (effect_steps _ _ e _ _ H E) as [e' Hx]. exists e'. intros k. by apply exec_seq. Qed.

(** A condition, and the statement it chooses. *)
Lemma condition_steps sem r e s b s' :
  condition sem r -> sem s = Some (b, s') ->
  exists e', forall t1 t2 k,
    rtc (steps_to step) (at_ (Seq (Stmts r ++ [Sifthenelse (Expr_ r) t1 t2])) k e s) (at_ (Sifthenelse (Expr_ r) t1 t2) k e' s') /\
    steps_to step (at_ (Sifthenelse (Expr_ r) t1 t2) k e' s') (at_ (if b then t1 else t2) k e' s').
Proof using.
  intros [_ H] E. destruct (H e s b s' E) as (e' & v & Hx & Hv & Hb). exists e'. intros t1 t2 k. split; [by apply exec_then|].
  unfold steps_to, at_. cbn [cl_step]. rewrite Hv. cbn. by rewrite Hb.
Qed.

Lemma check_step r e s v b k :
  cl_expr f place lit e s.1 s.2 r = Some v -> cl_truth (ExprType r) v = Some b ->
  steps_to step (at_ (check r) k e s) (at_ (if b then Sskip else Sbreak) k e s).
Proof using. intros Hv Hb. unfold steps_to, at_. cbn. rewrite Hv. cbn. rewrite Hb. by destruct b. Qed.
(** ** Jumps *)

Lemma break_conts ts k : break_cont (conts ts k) = break_cont k.
Proof using. unfold conts. by induction (filter _ ts). Qed.

Lemma continue_conts ts k : continue_cont (conts ts k) = continue_cont k.
Proof using. unfold conts. by induction (filter _ ts). Qed.

Lemma break_related d k kt k' :
  match_cont d k kt -> c_break k = Some k' -> exists d' kt', break_cont kt = Some kt' /\ match_cont d' k' kt'.
Proof using.
  induction 1; cbn [c_break break_cont]; rewrite ?break_conts; cbn [break_cont]; try done; try (intros [= <-]; eauto); assumption.
Qed.

(** A loop goes on. *)
Lemma continue_related k kt k' :
  match_cont false k kt -> c_continue k = Some k' ->
  exists t1 t2 kt', match_cont false k' (Kloop1 t1 t2 :: kt') /\ continue_cont kt = Some (t2, Kloop2 t1 t2 :: kt').
Proof using.
  intros Hm. remember false as d eqn:Hd. revert Hd.
  induction Hm; intros Hd; cbn [c_continue continue_cont]; rewrite ?continue_conts; cbn [continue_cont]; try done; auto.
  intros [= <-]. eexists _, _, _. split; [by econstructor|done].
Qed.

(** Where a label is. *)
Definition found (o : option (Cabs.Stmt * list c_frame)) (o' : option (Stmt * list cl_frame)) : Prop :=
  match o with
  | Some (b, k) => exists d t kt, o' = Some (t, kt) /\ tr d b t /\ match_cont d k kt
  | None => o' = None
  end.

Lemma found_else o1 o2 o1' o2' :
  found o1 o1' -> found o2 o2' ->
  found (match o1 with Some r => Some r | None => o2 end) (match o1' with Some r => Some r | None => o2' end).
Proof using. destruct o1 as [[b k]|]; cbn; [|by intros ->]. intros (d & t & kt & -> & Ht & Hk) _. by exists d, t, kt. Qed.

Definition finds (l : string) (b : Cabs.Stmt) : Prop :=
  forall d t k kt, tr d b t -> match_cont d k kt -> found (c_find l b k) (cl_find l t kt).

(** The search in a block. *)
Fixpoint c_find_block (l : string) (ss : list Cabs.Stmt) (k : list c_frame) : option (Cabs.Stmt * list c_frame) :=
  match ss with
  | [] => None
  | s :: ss => match c_find l s (Kblock ss :: k) with Some r => Some r | None => c_find_block l ss k end
  end.

Fixpoint c_find_cases (l : string) (cases : list Cabs.SwitchCase) (k : list c_frame) : option (Cabs.Stmt * list c_frame) :=
  match cases with
  | [] => None
  | c :: cases => match c_find_block l c.2 (Kcases cases :: Kend :: k) with Some r => Some r | None => c_find_cases l cases k end
  end.

Lemma find_block l d ss ts :
  Forall (finds l) ss -> Forall2 (tr d) ss ts -> forall k kt, match_cont d k kt -> found (c_find_block l ss k) (find_list l ts kt).
Proof using.
  intros Hf Hss. induction Hss as [|b t ss ts Hb Hss IH]; intros k kt Hk; [done|]. apply Forall_cons in Hf as [Hfb Hf].
  cbn [c_find_block find_list]. apply found_else; [|by apply IH]. eapply Hfb; [exact Hb|]. by constructor.
Qed.

(** The search in the cases of a switch, whose continuation is [k]. *)
Fixpoint cl_find_cases (l : string) (cases : list SwitchCase) (d : Stmt) (k : list cl_frame) : option (Stmt * list cl_frame) :=
  match cases with
  | [] => cl_find l d k
  | c :: cases => match cl_find l c.2 (Kseq (fall_through cases d) :: k) with Some r => Some r | None => cl_find_cases l cases d k end
  end.

Lemma find_switch l a cases d k : cl_find l (Sswitch a cases d false) k = cl_find_cases l cases d (Kswitch :: k).
Proof using. cbn [cl_find]. induction cases as [|c cases IH]; [done|]. cbn [cl_find_cases]. by rewrite <- IH. Qed.

Lemma find_cases l d long cases rest dflt k kt :
  Forall (fun c => Forall (finds l) c.2) cases -> tr_cases (Forall2 (tr d)) long cases rest dflt -> match_cont d k kt ->
  found (c_find_cases l cases k) (cl_find_cases l rest dflt (Kswitch :: kt)).
Proof using.
  intros Hf Hc Hk. induction Hc as [|ss ts Hss|n ss ts cases rest dflt Hn Hss Hc IH]; [done| |]; apply Forall_cons in Hf as [Hfb Hf].
  - cbn [c_find_cases cl_find_cases fst snd]. assert (Hr : found (c_find_block l ss (Kcases [] :: Kend :: k)) (find_list l ts (Kswitch :: kt))).
    { eapply find_block; [done|exact Hss|]. by do 2 constructor. }
    rewrite <- find_seq in Hr. by destruct (c_find_block l ss _).
  - cbn [c_find_cases cl_find_cases fst snd]. apply found_else; [|by apply IH]. rewrite find_seq.
    eapply find_block; [done|exact Hss|]. econstructor; [exact Hc|]. by constructor.
Qed.
Lemma find_loop l r t sts k b d :
  finds l b -> tr d b t -> Forall label_free (Stmts r) -> Forall label_free sts ->
  let full := loop_body (Stmts r) (Expr_ r) t in
  forall ck, match_cont d ck (Kloop1 full (Seq sts) :: k) -> found (c_find l b ck) (cl_find l (Sloop full (Seq sts)) k).
Proof using.
  intros Hb Ht Hr Hs full ck Hk. unfold full, loop_body. cbn [cl_find]. rewrite find_seq, find_list_app, find_free by done.
  cbn [find_list cl_find]. rewrite (seq_free sts Hs). specialize (Hb _ _ _ _ Ht Hk). unfold full, loop_body in Hb.
  change (conts [] ?x) with x. by destruct (c_find l b ck) as [[]|]; cbn in *; destruct (cl_find l t _).
Qed.

Lemma c_find_eq l b k :
  c_find l b k =
  match b with
  | Cabs.If _ s1 o =>
      match c_find l s1 k, o with Some r, _ => Some r | None, Some s2 => c_find l s2 k | None, None => None end
  | Cabs.While c body => c_find l body (Kafter (Some c) None body :: k)
  | Cabs.DoWhile body c => c_find l body (Kdo body c :: k)
  | Cabs.For _ _ c step body => c_find l body (Kafter c step body :: k)
  | Cabs.Switch _ cases => c_find_cases l cases k
  | Cabs.Label l' s1 => if decide (l = l') then Some (s1, k) else c_find l s1 k
  | Cabs.Block ss => c_find_block l ss k
  | _ => None
  end.
Proof using.
  assert (Hblock : forall ss k, (fix block ss k := match ss with [] => None | s :: ss =>
      match c_find l s (Kblock ss :: k) with Some r => Some r | None => block ss k end end) ss k = c_find_block l ss k).
  { clear. induction ss as [|b ss IH]; intros k; [done|]. cbn [c_find_block]. by rewrite <- IH. }
  destruct b; try done; cbn [c_find]; [|apply Hblock].
  induction Cases as [|c cases IH]; [done|]. cbn [c_find_cases]. rewrite <- IH, <- Hblock. done.
Qed.

Lemma find_last l ts t k : Forall label_free ts -> cl_find l (Seq (ts ++ [t])) k = cl_find l t k.
Proof using. intros H. rewrite find_seq, find_list_app, find_free by done. cbn. by destruct (cl_find l t _). Qed.

Lemma finds_all l b : finds l b.
Proof using.
  induction b as [o|a|c b o IH IHo|c b IH|b c IH|init ds c inc b IH| | | |a cases IH|l'|l' b IH|ss IH|ds] using Cabs.Stmt_nested_ind;
    intros d t k kt Ht Hk; rewrite c_find_eq; inversion Ht; subst; try done.
  - rewrite find_last; [done|]. by match goal with H : valued _ _ _ _ _ _ |- _ => destruct H end.
  - rewrite find_seq, find_free; [done|]. by match goal with H : effect _ _ |- _ => destruct H end.
  - match goal with H : condition _ _ |- _ => destruct H as [Hl _] end. rewrite find_last by done. cbn [cl_find].
    replace (match c_find l b k with Some r0 => Some r0 | None => match o with Some s2 => c_find l s2 k | None => None end end)
      with (match c_find l b k with Some r0 => Some r0 | None => c_find l (default Cabs.Skip o) k end) by (by destruct o).
    apply found_else; [by eapply IH|]. destruct o as [b2|]; [by eapply IHo|]. by match goal with H : tr d (default _ None) _ |- _ => inversion H end.
  - match goal with H : condition _ _ |- _ => pose proof H as [Hl _] end.
    refine (find_loop l r t0 [] kt b false IH _ Hl (Forall_nil_2 _) _ _); [done|]. eapply mc_loop; try done. apply run_opt_none.
  - match goal with H : condition _ _ |- _ => pose proof H as [Hl _] end. cbn [cl_find]. rewrite find_seq. cbn [find_list].
    rewrite (find_free l (Stmts r ++ [check (Expr_ r)])); [|by apply Forall_app; split; [|repeat constructor]].
    assert (Hf : found (c_find l b (Kdo b c :: k)) (cl_find l t0 (conts (Stmts r ++ [check (Expr_ r)])
      (Kloop1 (Seq (t0 :: Stmts r ++ [check (Expr_ r)])) Sskip :: kt)))) by (eapply IH; [done|by econstructor]).
    by destruct (c_find l b _) as [[]|]; cbn in *; destruct (cl_find l t0 _).
  - match goal with H : condition _ _ |- _ => pose proof H as [Hl _] end.
    match goal with H : effect (run_opt _) _ |- _ => pose proof H as [Hl2 _] end.
    match goal with H : effect _ its |- _ => pose proof H as [Hl3 _] end.
    change [Seq its; ?x] with ([Seq its] ++ [x]). rewrite find_last by (repeat constructor; by apply seq_free).
    refine (find_loop l r t0 sts kt b false IH _ Hl Hl2 _ _); [done|]. by econstructor.
  - match goal with H : valued _ _ _ _ _ _ |- _ => destruct H as [Hl _] end. rewrite find_last, find_switch by done. by eapply find_cases.
  - cbn [cl_find]. destruct (decide (l = l')); [|by eapply IH]. by exists d, t0, kt.
  - rewrite find_seq. by eapply find_block.
  - rewrite find_seq, find_free; [done|]. by match goal with H : effect _ _ |- _ => destruct H end.
Qed.
(** Compares measures. *)
Ltac measured :=
  unfold measure; cbn [fst snd cont_size frame_size block_size cases_size];
  rewrite ?block_measure, ?switch_measure; cbn [stmt_size]; lia.

(** ** One step *)

(** The body of the function and its translation. *)
Context (t0 : Stmt) (Hbody : fn_Body f = t0) (Htr : tr false (Cabs.Block body) t0).

(** The first statement of a list, with the others to come. *)
Lemma goes_at_list t ts k e s : rtc goes_to (at_ t (conts ts k) e s) (at_list (t :: ts) k e s).
Proof using.
  unfold at_list. destruct (is_skip t) eqn:Hs; [apply skip_inv in Hs as ->; rewrite ahead_skip; apply goes_conts|].
  rewrite ahead_cons by done. apply rtc_refl.
Qed.

(** From the next statement, with nothing more to do. *)
Lemma follow_skip d k kt s e S' :
  match_cont d k kt -> cstep (Cabs.Skip, k, s) = Next S' -> follows (at_ Sskip kt e s) (Cabs.Skip, k, s) S'.
Proof using.
  intros Hk E. destruct Hk as [d|d ss ts k kt Hss Hk|d c inc b r t sts k kt Hc Hb Hi Hk|d b c t r k kt Hb Hc Hk|d long cases rest dflt k kt Hcs Hk|d k kt Hk|d k kt Hk].
  - done.
  - destruct Hss as [|b t ss ts Hb Hss]; cbn in E; injection E as <-.
    + eapply follows_skip; [exact Hk|apply rtc_refl|measured].
    + destruct (is_skip t) eqn:Hs.
      * apply skip_inv in Hs as ->. rewrite conts_skip. eapply follows_stmt; [exact Hb|by constructor|apply rtc_refl|measured].
      * rewrite conts_cons by done. eapply follows_stmt; [exact Hb|by constructor|by apply rtc_once|measured].
  - cbn [c_step] in E. destruct (run_opt inc s) as [s1|] eqn:Er; [|done]. cbn in E. injection E as <-.
    destruct (effect_seq _ _ e _ _ Hi Er) as [e' Hx]. eapply follows_weak with (J := at_ _ _ e' s1); [by econstructor|apply rtc_refl| |measured].
    eapply rtc_l; [reflexivity|]. etrans; [apply Hx|]. by apply rtc_once.
  - cbn [c_step] in E. destruct (test c s) as [[x s1]|] eqn:Et; [|done]. cbn in E. injection E as <-.
    destruct Hc as [Hl Hc']. pose proof (conj Hl Hc' : condition (test c) r) as Hc. destruct (Hc' e s x s1 Et) as (e' & v & Hx & Hv & Hbv).
    assert (Hrun : forall k, rtc (steps_to step) (at_ Sskip (conts (Stmts r ++ [check (Expr_ r)]) k) e s) (at_ (check (Expr_ r)) k e' s1)).
    { intros k'. etrans; [apply enter_conts|]. etrans; [by eapply exec_ahead|]. apply rtc_refl. }
    destruct x; cbn [fst snd].
    + exists (at_list (t :: Stmts r ++ [check (Expr_ r)]) (Kloop1 (Seq (t :: Stmts r ++ [check (Expr_ r)])) Sskip :: kt) e' s1).
      eexists. split; [eapply canon_stmt; [exact Hb|by econstructor]|]. split.
      * apply goes_at_list.
      * right. eexists. split; [apply Hrun|]. split; [done|]. eapply tc_l; [by eapply check_step|]. eapply tc_l; [reflexivity|].
        eapply tc_rtc_r; [by apply tc_once|]. apply enter_seq.
    + eapply follows_skip; [exact Hk| |measured]. etrans; [apply Hrun|]. eapply rtc_l; [by eapply check_step|]. by apply rtc_once.
  - destruct Hcs as [|ss ts Hss|n ss ts cases rest dflt Hn Hss Hcs]; cbn in E; injection E as <-.
    + eapply follows_skip; [exact Hk|by apply rtc_once|measured].
    + eapply follows_stmt; [by apply tr_block|by apply mc_last|by apply rtc_once|measured].
    + eapply follows_stmt; [by apply tr_block|by econstructor| |measured]. eapply rtc_l; [reflexivity|]. by apply rtc_once.
  - cbn in E. injection E as <-. eapply follows_skip; [exact Hk|apply rtc_refl|measured].
  - cbn in E. injection E as <-. eapply follows_skip; [exact Hk|by apply rtc_once|measured].
Qed.
(** The case that is selected. *)
Definition selected d (cases : list Cabs.SwitchCase) (sk : Stmt * list cl_frame) k kt : Prop :=
  match cases with
  | [] => sk = (Sskip, kt)
  | c :: cases => exists ts kt', sk = (Seq ts, kt') /\ Forall2 (tr d) c.2 ts /\ match_cont d (Kcases cases :: k) kt'
  end.

Lemma select_default d long cases rest dflt k kt :
  tr_cases (Forall2 (tr d)) long cases rest dflt -> match_cont d k kt ->
  selected d (cases_from is_default cases) (dflt, kt) k kt.
Proof using.
  intros Hc Hk. induction Hc as [|ss ts Hss|n ss ts cases rest dflt Hn Hss Hc IH]; [done| |exact IH].
  cbn. exists ts, kt. split; [done|]. split; [done|by apply mc_last].
Qed.

Lemma select_related d long z cases rest dflt k kt :
  tr_cases (Forall2 (tr d)) long cases rest dflt -> match_cont d k kt ->
  selected d (select long z cases) (switch_point false z rest dflt kt) k kt.
Proof using.
  intros Hc Hk.
  assert (H : match cases_from (case_is long z) cases with
              | [] => switch_point false z rest dflt kt = (dflt, kt)
              | cs => selected d cs (switch_point false z rest dflt kt) k kt
              end).
  { induction Hc as [|ss ts Hss|n ss ts cases rest dflt Hn Hss Hc IH]; [done|done|]. cbn [cases_from switch_point].
    unfold case_is at 1. cbn [fst mbind option_bind case_constant]. rewrite Hn. destruct (n =? z) eqn:Ez.
    - apply Z.eqb_eq in Ez as ->. rewrite decide_True by done. exists ts, (Kseq (fall_through rest dflt) :: kt).
      split; [done|]. split; [done|by econstructor].
    - apply Z.eqb_neq in Ez. rewrite decide_False by done. exact IH. }
  unfold select. destruct (cases_from (case_is long z) cases) as [|c cs]; [|exact H]. rewrite H. by eapply select_default.
Qed.

Lemma follow_switch d a cases r rest dflt k kt s e S' :
  valued f globals place lit (value a) r -> is_long (ExprType (Expr_ r)) = is_long (value_type tenv defs a) ->
  tr_cases (Forall2 (tr d)) (is_long (ExprType (Expr_ r))) cases rest dflt -> match_cont d k kt ->
  cstep (Cabs.Switch a cases, k, s) = Next S' ->
  follows (at_ (Seq (Stmts r ++ [Sswitch (Expr_ r) rest dflt false])) kt e s) (Cabs.Switch a cases, k, s) S'.
Proof using.
  intros [_ Hv] Hl Hc Hk E. cbn [c_step] in E. rewrite <- Hl in E.
  destruct (value a s) as [[v s1]|] eqn:Ev; [|done]. cbn [mbind option_bind] in E.
  destruct (switch_val _ v) as [z|] eqn:Ez; [|done]. cbn in E. destruct (Hv e s v s1 Ev) as (e' & Hx & Hr).
  assert (Hrun : rtc (steps_to step) (at_ (Seq (Stmts r ++ [Sswitch (Expr_ r) rest dflt false])) kt e s)
    (at_ (switch_point false z rest dflt (Kswitch :: kt)).1 (switch_point false z rest dflt (Kswitch :: kt)).2 e' s1)).
  { etrans; [by eapply exec_then|]. apply rtc_once. unfold steps_to, at_. cbn [cl_step]. rewrite Hr. cbn [mbind option_bind].
    by rewrite Ez. }
  pose proof (select_related d _ z _ _ _ (Kend :: k) (Kswitch :: kt) Hc ltac:(by constructor)) as Hs.
  pose proof (select_size (is_long (ExprType (Expr_ r))) z cases) as Hsize.
  destruct (select _ z cases) as [|c cs]; injection E as <-.
  - unfold selected in Hs. rewrite Hs in Hrun. eapply follows_skip; [exact Hk| |measured]. etrans; [exact Hrun|]. by apply rtc_once.
  - destruct Hs as (ts & kt' & Hsk & Hts & Hk'). rewrite Hsk in Hrun. cbn [fst snd cases_size] in *.
    eapply follows_stmt; [by apply tr_block|exact Hk'|exact Hrun|measured].
Qed.

(** A step from any statement. *)
Lemma follow_stmt d b t k kt s e S' :
  tr d b t -> match_cont d k kt -> cstep (b, k, s) = Next S' -> follows (at_ t kt e s) (b, k, s) S'.
Proof using Hbody Htr.
  intros Ht Hk E. destruct Ht as [d|d| |d l|d|d a r Hr|d a ts Ha|d c b o r t1 t2 Hc Ht1 Ht2|d c b r t Hc Ht|d b c t r Ht Hc
    |d init ds c inc b its r t sts Hi Hc Ht Hs|d a cases r rest dflt Hv Hl Hc|d l b t Ht|d ss ts Hss|d ds ts Hd].
  - by eapply follow_skip.
  - cbn in E. destruct (c_break k) as [k'|] eqn:Eb; [|done]. injection E as <-.
    destruct (break_related _ _ _ _ Hk Eb) as (d' & kt' & Ek & Hk'). apply break_size in Eb.
    eapply follows_skip; [exact Hk'| |measured]. apply rtc_once. unfold steps_to, at_. cbn. by rewrite Ek.
  - cbn in E. destruct (c_continue k) as [k'|] eqn:Eb; [|done]. injection E as <-.
    destruct (continue_related _ _ _ Hk Eb) as (t1 & t2 & kt' & Hk' & Ek). apply continue_size in Eb.
    eapply follows_weak with (J := at_ t2 (Kloop2 t1 t2 :: kt') e s); [by eapply canon_stmt; [constructor|exact Hk']|by apply rtc_once| |measured].
    apply rtc_once. unfold steps_to, at_. cbn. by rewrite Ek.
  - pose proof (finds_all l (Cabs.Block body) _ _ _ _ Htr (mc_stop false)) as Hf.
    change (c_opt (c_find l (Cabs.Block body) []) (fun sk => Next (sk, s)) = Next S') in E.
    destruct (c_find l (Cabs.Block body) []) as [[b k']|]; [|done]. cbn in E. injection E as <-.
    destruct Hf as (d' & t & kt' & Ek & Ht & Hk'). exists (at_ t kt' e s). eexists. split; [by eapply canon_stmt|]. split; [apply rtc_refl|].
    right. eexists. split; [apply rtc_refl|]. split; [done|]. apply tc_once. unfold steps_to, at_. cbn [cl_step]. by rewrite Hbody, Ek.
  - done.
  - cbn [c_step] in E. by destruct (_ ≫= _).
  - cbn [c_step] in E. destruct (eval a s) as [r|] eqn:Er; [|done]. injection E as <-.
    destruct (effect_seq _ _ e s r.2 Ha) as [e' Hx]; [by rewrite Er|]. eapply follows_skip; [exact Hk|apply Hx|measured].
  - cbn [c_step] in E. destruct (test c s) as [[x s1]|] eqn:Et; [|done]. injection E as <-.
    destruct (condition_steps _ _ e _ _ _ Hc Et) as [e' Hx]. destruct (Hx t1 t2 kt) as [Hr Hs]. cbn [fst snd].
    eapply follows_stmt with (d := d) (t := if x then t1 else t2); [by destruct x|exact Hk| |].
    + etrans; [exact Hr|]. by apply rtc_once.
    + destruct x, o; cbn [default from_option id]; measured.
  - cbn in E. injection E as <-. eapply follows_weak; [by eapply (canon_test d); [exact Hc|exact Ht|apply run_opt_none|exact Hk]|apply rtc_refl|by apply rtc_once|measured].
  - cbn in E. injection E as <-.
    exists (at_list (t :: Stmts r ++ [check (Expr_ r)]) (Kloop1 (Seq (t :: Stmts r ++ [check (Expr_ r)])) Sskip :: kt) e s).
    eexists. split; [eapply canon_stmt; [exact Ht|by econstructor]|]. split.
    + apply goes_at_list.
    + left. split; [|measured]. eapply rtc_l; [reflexivity|]. apply enter_seq.
  - cbn [c_step] in E. assert (Hi' : exists s1, match init with Some a => snd <$> eval a s | None => declare ds s end = Some s1 /\
      S' = (Cabs.Skip, Ktest c inc b :: k, s1)) by (destruct (match init with Some _ => _ | None => _ end); [by injection E as <-; eexists|done]).
    destruct Hi' as (s1 & Ei & ->). destruct (effect_seq _ _ e s s1 Hi) as [e' Hx]; [by destruct init|].
    eapply follows_weak; [by eapply (canon_test d); [exact Hc|exact Ht|exact Hs|exact Hk]|apply rtc_refl| |measured].
    change [Seq its; ?x] with ([Seq its] ++ [x]). etrans; [eapply exec_then; apply exec_one; exact Hx|]. by apply rtc_once.
  - by eapply follow_switch.
  - cbn in E. injection E as <-. eapply follows_stmt; [exact Ht|exact Hk|by apply rtc_once|measured].
  - cbn in E. injection E as <-. eapply follows_weak; [by eapply canon_stmt; [constructor|by constructor]| | |measured].
    + apply goes_conts.
    + apply enter_seq.
  - cbn [c_step] in E. destruct (declare ds s) as [s1|] eqn:Ed; [|done]. injection E as <-.
    destruct (effect_seq _ _ e _ _ Hd Ed) as [e' Hx]. eapply follows_skip; [exact Hk|apply Hx|measured].
Qed.
Lemma follow_test d c inc b k s r t sts kt e S' :
  condition (test_opt c) r -> tr false b t -> effect (run_opt inc) sts -> match_cont d k kt ->
  cstep (Cabs.Skip, Ktest c inc b :: k, s) = Next S' ->
  follows (at_ (loop_body (Stmts r) (Expr_ r) t) (Kloop1 (loop_body (Stmts r) (Expr_ r) t) (Seq sts) :: kt) e s)
    (Cabs.Skip, Ktest c inc b :: k, s) S'.
Proof using.
  intros Hc Ht Hs Hk E. cbn [c_step] in E. destruct (test_opt c s) as [[x s1]|] eqn:Et; [|done]. injection E as <-.
  destruct (condition_steps _ _ e _ _ _ Hc Et) as [e' Hx].
  destruct (Hx t Sbreak (Kloop1 (loop_body (Stmts r) (Expr_ r) t) (Seq sts) :: kt)) as [Hr Hst]. destruct x; cbn [fst snd].
  - eexists. eexists. split; [eapply canon_stmt; [exact Ht|by econstructor]|]. split; [apply rtc_refl|].
    right. eexists. split; [exact Hr|]. split; [done|]. by apply tc_once.
  - eapply follows_skip; [exact Hk| |measured]. etrans; [exact Hr|]. eapply rtc_l; [exact Hst|]. by apply rtc_once.
Qed.

Lemma matches_next S T S' :
  matches S T -> cstep S = Next S' ->
  exists T', matches S' T' /\ (tc (steps_to step) T T' \/ T' = T /\ (measure S' < measure S)%nat).
Proof using Hbody Htr.
  intros (C & N & Hc & Hn & Ht) E. eapply follows_matches; [exact Hn|exact Ht|]. destruct Hc.
  - by eapply follow_stmt.
  - by eapply follow_test.
Qed.

Lemma canonical_halt S C r : canonical S C -> cstep S = Halt r -> terminates step C r.
Proof using.
  intros Hc E. destruct Hc as [d b k s t kt e Ht Hk|d c inc b k s r0 t sts kt e Hc Ht Hs Hk].
  - destruct Ht; cbn [c_step] in E; try (by destruct (c_break k)); try (by destruct (c_continue k)).
    + destruct Hk as [|? ? ? ? ? []| | | | |]; try done; cbn [c_step] in E; try (by destruct (run_opt _ _)); try (by destruct (test _ _)).
      * injection E as <-. by apply terminates_halt.
      * by destruct cases.
    + by destruct (c_find l (Cabs.Block body) []).
    + injection E as <-. by apply terminates_halt.
    + destruct H as [_ Hv]. destruct (returned f globals place lit tenv defs ret a s) as [[w s1]|] eqn:Er.
      * unfold returned in Er. rewrite Er in E. cbn in E. injection E as <-. destruct (Hv e s w s1 Er) as (e' & Hx & Hr).
        eapply terminates_rtc; [by eapply exec_then|]. apply terminates_halt. unfold at_. cbn [cl_step]. by rewrite Hr.
      * unfold returned in Er. by rewrite Er in E.
    + by destruct (eval a s).
    + by destruct (test c s).
    + by destruct (match init with Some _ => _ | None => _ end).
    + destruct (_ ≫= _) as [[z s1]|]; [|done]. cbn in E. by destruct (select _ _ _).
    + by destruct (declare ds s).
  - cbn [c_step] in E. by destruct (test_opt c s).
Qed.

Lemma matches_halt S T r : matches S T -> cstep S = Halt r -> exists r', terminates step T r' /\ r = r'.
Proof using.
  intros (C & N & Hc & Hn & Ht) E. exists r. split; [|done]. apply (terminates_rtc step T N r Ht).
  apply (terminates_rtc step C N r); [by apply goes_rtc|]. by eapply canonical_halt.
Qed.

(** The two functions. *)
Lemma initial_matches args m : matches (c_init f body args m) (cl_init f args m).
Proof using Hbody Htr.
  assert (Hc : canonical (c_init f body args m) (cl_init f args m)).
  { unfold c_init, cl_init. rewrite Hbody. apply (canon_stmt false (Cabs.Block body) [] (bind_params _ args, m) t0 [] ∅); [done|constructor]. }
  eexists _, _. split; [exact Hc|]. split; apply rtc_refl.
Qed.

Lemma function_forward args m r : terminates cstep (c_init f body args m) r -> terminates step (cl_init f args m) r.
Proof using Hbody Htr.
  intros H. destruct (sim_forward_rel cstep step matches eq measure matches_next matches_halt _ _ r (initial_matches args m) H) as (r' & Hr & ->).
  done.
Qed.

Lemma function_backward args m r :
  safe cstep (c_init f body args m) -> terminates step (cl_init f args m) r -> terminates cstep (c_init f body args m) r.
Proof using Hbody Htr.
  intros Hs H. destruct (sim_backward_safe cstep step matches eq measure matches_next matches_halt _ _ r (initial_matches args m) Hs H) as (r' & Hr & <-).
  done.
Qed.

Lemma function_safe args m : safe cstep (c_init f body args m) -> safe step (cl_init f args m).
Proof using Hbody Htr. apply (sim_safe cstep step matches eq measure matches_next matches_halt _ _ (initial_matches args m)). Qed.
End Simulation.
