(* ===== verification/SimplLocalsProof.v ===== *)
(** Variables that become temporaries: a function whose promoted variables are
    kept by name, and the function with temporaries in their places, run in
    lockstep. *)

From S2P Require Import Prelude Target Semantics RtlSem Structured Values CminorSem CshmgenOps Clight ClightSem.
From S2P Require Import SimplLocals ValuesExample.
From S2P Require Ctypes.

(** ** The temporaries of a statement *)

Section Over.
  (* the temporaries of the code are those from [lo] on *)
  Context (lo : Z).

Fixpoint expr_over (a : Expr) : Prop :=
  match a with
  | Etempvar id _ => lo <= id
  | Ederef a _ | Eaddrof a _ | Eunop _ a _ | Ecast a _ | Efield a _ _ => expr_over a
  | Ebinop _ a b _ => expr_over a /\ expr_over b
  | _ => True
  end.

Definition result_over (r : option Z) : Prop := from_option (Z.le lo) True r.

Fixpoint stmt_over (s : Stmt) : Prop :=
  match s with
  | Sassign l r => expr_over l /\ expr_over r
  | Sset id r => lo <= id /\ expr_over r
  | Scall r g args => result_over r /\ expr_over g /\ Forall expr_over args
  | Sbuiltin r _ args => result_over r /\ Forall expr_over args
  | Ssequence s1 s2 | Sloop s1 s2 => stmt_over s1 /\ stmt_over s2
  | Sifthenelse c s1 s2 => expr_over c /\ stmt_over s1 /\ stmt_over s2
  | Sreturn o => from_option expr_over True o
  | Sswitch a cases d _ =>
      expr_over a /\ stmt_over d /\ (fix go cases := match cases with [] => True | c :: cases => stmt_over c.2 /\ go cases end) cases
  | Slabel _ s => stmt_over s
  | _ => True
  end.

Definition cases_over (cases : list SwitchCase) : Prop := Forall (fun c => stmt_over c.2) cases.

Lemma switch_over a cases d h : stmt_over (Sswitch a cases d h) <-> expr_over a /\ stmt_over d /\ cases_over cases.
Proof using.
  cbn [stmt_over]. unfold cases_over. assert (H : (fix go (cases : list SwitchCase) := match cases with [] => True | c :: cases => stmt_over c.2 /\ go cases end) cases
    <-> Forall (fun c => stmt_over c.2) cases); [|by rewrite H].
  induction cases as [|c cases IH]; [by split; [constructor|]|]. by rewrite Forall_cons, IH.
Qed.

Definition frame_over (fr : cl_frame) : Prop :=
  match fr with Kseq s => stmt_over s | Kloop1 s1 s2 | Kloop2 s1 s2 => stmt_over s1 /\ stmt_over s2 | Kswitch => True end.

Lemma fall_over cases d : cases_over cases -> stmt_over d -> stmt_over (fall_through cases d).
Proof using. induction 1; [done|]. cbn. by split; auto. Qed.
End Over.

(** ** The simulation *)

Section Promotion.
  Context {M : Type} `{FO : FloatOps} `{LO : Layout} `{TS : TargetSemantics val M}.
  Context {VT : ValueTarget M} {darwin : bool} {PC : PseudoCalls val M darwin}.
  Context (f1 f2 : Function) (globals : list VarDecl) (place : string -> Z) (lit : string -> val).
  Context (vars : gmap string Z) (lo : Z).
  Implicit Types (e : gmap Z val) (ps : gmap string val) (m : M).

(** [f1] has the variables [vars] among its parameters, and [f2] does not. *)
Record promotes := {
  same_locals : fn_Locals f1 = fn_Locals f2;
  more_params : exists extra, fn_Params f1 = fn_Params f2 ++ extra /\ forall x, is_Some (vars !! x) <-> x ∈ vd_Name <$> extra;
  not_local : forall x, is_Some (vars !! x) -> x ∉ vd_Name <$> fn_Locals f1;
  not_param : forall x, is_Some (vars !! x) -> x ∉ vd_Name <$> fn_Params f2;
  apart_ids : forall x y id, vars !! x = Some id -> vars !! y = Some id -> x = y;
  below : forall x id, vars !! x = Some id -> id < lo;
  body_over : stmt_over lo (fn_Body f1);
  transformed : fn_Body f2 = TransformStmt vars (fn_Body f1)
}.

Context (ok : promotes).

Definition same e1 ps1 e2 ps2 : Prop :=
  (forall x, vars !! x = None -> ps2 !! x = ps1 !! x) /\
  (forall x id, vars !! x = Some id -> e2 !! id = ps1 !! x) /\
  (forall id, lo <= id -> e2 !! id = e1 !! id).

Lemma is_local_same x : is_local f2 x = is_local f1 x.
Proof using ok. unfold is_local. by rewrite (same_locals ok). Qed.

Lemma is_param_promoted x id : vars !! x = Some id -> is_param f1 x = true.
Proof using ok.
  intros Hx. unfold is_param, is_local. rewrite bool_decide_eq_false_2 by (apply (not_local ok); eauto). cbn.
  apply bool_decide_eq_true. destruct (more_params ok) as (extra & -> & He). rewrite fmap_app, elem_of_app. right. apply He. eauto.
Qed.

Lemma is_param_same x : vars !! x = None -> is_param f2 x = is_param f1 x.
Proof using ok.
  intros Hx. unfold is_param. rewrite is_local_same. f_equal. apply bool_decide_ext.
  destruct (more_params ok) as (extra & -> & He). rewrite fmap_app, elem_of_app. split; [by left|]. intros [H|H%He]; [done|].
  destruct H. congruence.
Qed.

Lemma is_param_promoted' x id : vars !! x = Some id -> is_param f2 x = false.
Proof using ok.
  intros Hx. unfold is_param. rewrite (bool_decide_eq_false_2 (x ∈ vd_Name <$> fn_Params f2)); [by rewrite andb_false_r|].
  apply (not_param ok). eauto.
Qed.

Lemma type_same a : ExprType (TransformExpr vars a) = ExprType a.
Proof using. destruct a; try done. cbn. by destruct (vars !! Name). Qed.

(** ** Expressions *)

Lemma expr_same e1 ps1 e2 ps2 m a :
  same e1 ps1 e2 ps2 -> expr_over lo a ->
  cl_expr f2 place lit e2 ps2 m (TransformExpr vars a) = cl_expr f1 place lit e1 ps1 m a /\
  cl_lvalue f2 place lit e2 ps2 m (TransformExpr vars a) = cl_lvalue f1 place lit e1 ps1 m a.
Proof using ok.
  intros (Hps & Hvars & He). induction a as [| | | | |x t|id t|a IH t|a IH t|op a IH t|op a IHa b IHb t|a IH t|a IH x t| |]; intros Ho; try done;
    cbn [expr_over] in Ho.
  - cbn [TransformExpr]. destruct (vars !! x) as [id|] eqn:E.
    + cbn. rewrite (is_param_promoted x id E), (Hvars x id E). unfold cl_address. rewrite (is_param_promoted x id E).
      destruct (is_local f1 x) eqn:El; [|done]. apply bool_decide_eq_true in El. by destruct (not_local ok x ltac:(eauto)).
    + cbn. unfold cl_address. by rewrite is_param_same, is_local_same, (Hps x E) by done.
  - cbn. split; [by apply He|done].
  - destruct (IH Ho) as [H1 H2]. cbn. by rewrite H1.
  - destruct (IH Ho) as [H1 H2]. split; [exact H2|done].
  - destruct (IH Ho) as [H1 H2]. cbn. by rewrite H1, type_same.
  - destruct Ho as [Ha Hb]. destruct (IHa Ha) as [H1 _]. destruct (IHb Hb) as [H2 _]. cbn. by rewrite H1, H2, !type_same.
  - destruct (IH Ho) as [H1 H2]. cbn. by rewrite H1, type_same.
  - destruct (IH Ho) as [H1 H2]. cbn [TransformExpr]. rewrite !field_value, !field_address. by rewrite H2, type_same.
Qed.

Lemma args_same e1 ps1 e2 ps2 m args :
  same e1 ps1 e2 ps2 -> Forall (expr_over lo) args ->
  mapM (cl_expr f2 place lit e2 ps2 m) (TransformExpr vars <$> args) = mapM (cl_expr f1 place lit e1 ps1 m) args.
Proof using ok.
  intros Hs. induction 1 as [|a args Ha _ IH]; [done|]. cbn. rewrite (proj1 (expr_same _ _ _ _ m a Hs Ha)). by rewrite IH.
Qed.

Lemma callee_same e1 ps1 e2 ps2 m a :
  same e1 ps1 e2 ps2 -> expr_over lo a ->
  cl_callee f2 globals place lit e2 ps2 m (TransformExpr vars a) = cl_callee f1 globals place lit e1 ps1 m a.
Proof using ok.
  intros Hs Ho. unfold cl_callee. rewrite (proj1 (expr_same _ _ _ _ m a Hs Ho)).
  assert (Hn : function_name f2 globals (TransformExpr vars a) = function_name f1 globals a); [|by rewrite Hn].
  destruct a; try done; cbn [TransformExpr function_name].
  - destruct (vars !! Name) as [id|] eqn:E; cbn [function_name].
    + by rewrite (is_param_promoted _ _ E), orb_true_r.
    + unfold is_global. by rewrite is_local_same, is_param_same.
  - destruct a; try done. cbn [TransformExpr]. destruct (vars !! Name) as [id|] eqn:E; cbn [function_name].
    + by rewrite (is_param_promoted _ _ E), orb_true_r.
    + by rewrite is_local_same, is_param_same.
Qed.

(** ** Changes *)

Lemma same_temp e1 ps1 e2 ps2 id v : same e1 ps1 e2 ps2 -> lo <= id -> same (<[id := v]> e1) ps1 (<[id := v]> e2) ps2.
Proof using ok.
  intros (H1 & H2 & H3) Hid. split; [done|]. split.
  - intros x i Hx. pose proof (below ok x i Hx). rewrite lookup_insert_ne by lia. by apply H2.
  - intros i Hi. destruct (decide (id = i)) as [->|]; [by rewrite !lookup_insert_eq|]. rewrite !lookup_insert_ne by done. by apply H3.
Qed.

Lemma same_result e1 ps1 e2 ps2 r v :
  same e1 ps1 e2 ps2 -> result_over lo r -> same (set_result r v e1) ps1 (set_result r v e2) ps2.
Proof using ok. intros Hs Hr. destruct r; cbn in *; [by apply same_temp|done]. Qed.

Lemma same_param e1 ps1 e2 ps2 x v :
  same e1 ps1 e2 ps2 -> vars !! x = None -> same e1 (<[x := v]> ps1) e2 (<[x := v]> ps2).
Proof using.
  intros (H1 & H2 & H3) Hx. split; [|split; [|done]].
  - intros y Hy. destruct (decide (x = y)) as [->|]; [by rewrite !lookup_insert_eq|]. rewrite !lookup_insert_ne by done. by apply H1.
  - intros y id Hy. rewrite lookup_insert_ne by congruence. by apply H2.
Qed.

Lemma same_promoted e1 ps1 e2 ps2 x id v :
  same e1 ps1 e2 ps2 -> vars !! x = Some id -> same e1 (<[x := v]> ps1) (<[id := v]> e2) ps2.
Proof using ok.
  intros (H1 & H2 & H3) Hx. split; [|split].
  - intros y Hy. rewrite lookup_insert_ne by congruence. by apply H1.
  - intros y i Hy. destruct (decide (x = y)) as [<-|Hne].
    + replace i with id by congruence. by rewrite !lookup_insert_eq.
    + rewrite !lookup_insert_ne; [by apply H2|done|]. intros ->. by apply Hne, (apart_ids ok x y i).
  - intros i Hi. pose proof (below ok x id Hx). rewrite lookup_insert_ne by lia. by apply H3.
Qed.
(** ** Statements *)

Local Abbreviation T := (TransformStmt vars).

Definition t_frame (fr : cl_frame) : cl_frame :=
  match fr with Kseq s => Kseq (T s) | Kloop1 s1 s2 => Kloop1 (T s1) (T s2) | Kloop2 s1 s2 => Kloop2 (T s1) (T s2) | Kswitch => Kswitch end.

Local Abbreviation TK k := (fmap (M := list) t_frame k).

Definition t_pair (sk : Stmt * list cl_frame) : Stmt * list cl_frame := (T sk.1, TK sk.2).

Definition t_case (c : SwitchCase) : SwitchCase := (c.1, T c.2).

Definition pair_over (sk : Stmt * list cl_frame) : Prop := stmt_over lo sk.1 /\ Forall (frame_over lo) sk.2.

Lemma break_same k : Forall (frame_over lo) k ->
  break_cont (TK k) = fmap (M := option) (fun k => TK k) (break_cont k) /\ from_option (Forall (frame_over lo)) True (break_cont k).
Proof using. induction 1 as [|fr k Hf Hk IH]; [done|]. destruct fr; cbn; by auto. Qed.

Lemma continue_same k : Forall (frame_over lo) k ->
  continue_cont (TK k) = t_pair <$> continue_cont k /\ from_option pair_over True (continue_cont k).
Proof using.
  induction 1 as [|fr k Hf Hk IH]; [done|]. destruct fr; cbn; auto. split; [done|]. destruct Hf. by repeat constructor.
Qed.

Lemma fall_same cases d : fall_through (t_case <$> cases) (T d) = T (fall_through cases d).
Proof using. induction cases as [|c cases IH]; [done|]. cbn. f_equal. exact IH. Qed.

Lemma switch_same h z cases d k :
  cases_over lo cases -> stmt_over lo d -> Forall (frame_over lo) k ->
  switch_point h z (t_case <$> cases) (T d) (TK k) = t_pair (switch_point h z cases d k) /\ pair_over (switch_point h z cases d k).
Proof using.
  intros Hc Hd Hk. induction Hc as [|[v s] cases Hs Hc IH]; [done|]. cbn. destruct (decide (z = v)); [|exact IH].
  change (fmap (fun c => (c.1, T c.2)) cases) with (t_case <$> cases). destruct h; [done|]. rewrite fall_same. split; [done|].
  split; [done|]. constructor; [by apply fall_over|done].
Qed.

Definition find_same (o o' : option (Stmt * list cl_frame)) : Prop := o' = t_pair <$> o /\ from_option pair_over True o.

Lemma find_same_or o1 o2 o1' o2' :
  find_same o1 o1' -> find_same o2 o2' ->
  find_same (match o1 with Some r => Some r | None => o2 end) (match o1' with Some r => Some r | None => o2' end).
Proof using. intros [-> H1] H2. by destruct o1. Qed.

(** The search in the cases of a switch. *)
Fixpoint find_cases (l : string) (h : bool) (cases : list SwitchCase) (d : Stmt) (k : list cl_frame) : option (Stmt * list cl_frame) :=
  match cases with
  | [] => cl_find l d k
  | c :: cases =>
      match cl_find l c.2 (if h then k else Kseq (fall_through cases d) :: k) with
      | Some r => Some r
      | None => find_cases l h cases d k
      end
  end.

Lemma find_cases_eq l a cases d h k : cl_find l (Sswitch a cases d h) k = find_cases l h cases d (Kswitch :: k).
Proof using. cbn [cl_find]. induction cases as [|c cases IH]; [done|]. cbn [find_cases]. rewrite <- IH. by destruct h. Qed.

Lemma label_same l s : forall k, stmt_over lo s -> Forall (frame_over lo) k -> find_same (cl_find l s k) (cl_find l (T s) (TK k)).
Proof using.
  induction s as [|l1 r1|id r|r g es|r b es|s1 s2 IH1 IH2|c s1 s2 IH1 IH2|s1 s2 IH1 IH2| | |o|a cases d h IHc IHd|l' s IH|l']
    using Stmt_nested_ind; intros k Hs Hk; try done; cbn [TransformStmt].
  - by destruct (TransformExpr vars l1).
  - destruct Hs. cbn [cl_find]. apply find_same_or; [apply (IH1 (Kseq s2 :: k)); [done|by constructor]|by apply IH2].
  - destruct Hs as (_ & H1 & H2). cbn [cl_find]. apply find_same_or; [by apply IH1|by apply IH2].
  - destruct Hs. cbn [cl_find]. apply find_same_or; [apply (IH1 (Kloop1 s1 s2 :: k))|apply (IH2 (Kloop2 s1 s2 :: k))]; try done; by constructor.
  - apply switch_over in Hs as (_ & Hd & Hc). rewrite !find_cases_eq. change (fmap (fun c => (c.1, T c.2)) cases) with (t_case <$> cases).
    assert (Hk' : Forall (frame_over lo) (Kswitch :: k)) by by constructor. change (Kswitch :: TK k) with (TK (Kswitch :: k)).
    revert Hk'. generalize (Kswitch :: k) as k'. intros k' Hk'.
    induction Hc as [|[v s] cases Hs Hc IH]; [by apply IHd|]. apply Forall_cons in IHc as [IHs IHc]. cbn [find_cases fmap list_fmap t_case snd].
    apply find_same_or; [|by apply IH]. destruct h; [by apply IHs|]. rewrite fall_same.
    apply (IHs (Kseq (fall_through cases d) :: k')); [done|]. constructor; [by apply fall_over|done].
  - cbn [cl_find]. case_decide; [by split|by apply IH].
Qed.

(** ** Steps *)

Definition match_states (S1 S2 : @cl_state M) : Prop :=
  exists s k e1 ps1 m e2 ps2, S1 = (s, k, e1, ps1, m) /\ S2 = (T s, TK k, e2, ps2, m) /\
    stmt_over lo s /\ Forall (frame_over lo) k /\ same e1 ps1 e2 ps2.

Local Abbreviation step1 := (cl_step (PC := PC) f1 globals place lit).
Local Abbreviation step2 := (cl_step (PC := PC) f2 globals place lit).

(** What a step of the source leads to. *)
Definition tracks (o1 o2 : outcome (@cl_state M) (rtl_result val M)) : Prop :=
  match o1 with
  | Next S1 => exists S2, o2 = Next S2 /\ match_states S1 S2
  | Halt r => o2 = Halt r
  | Stuck => True
  end.

Lemma tracks_to s k e1 ps1 m e2 ps2 :
  stmt_over lo s -> Forall (frame_over lo) k -> same e1 ps1 e2 ps2 -> tracks (Next (s, k, e1, ps1, m)) (Next (T s, TK k, e2, ps2, m)).
Proof using. intros. eexists. split; [reflexivity|]. by exists s, k, e1, ps1, m, e2, ps2. Qed.

Lemma assign_tracks l r k e1 ps1 m e2 ps2 :
  expr_over lo l -> expr_over lo r -> Forall (frame_over lo) k -> same e1 ps1 e2 ps2 ->
  tracks (step1 (Sassign l r, k, e1, ps1, m)) (step2 (T (Sassign l r), TK k, e2, ps2, m)).
Proof using ok.
  intros Hl Hr Hk Hs. cbn [cl_step]. destruct (expr_same _ _ _ _ m r Hs Hr) as [Er _].
  destruct (cl_expr f1 place lit e1 ps1 m r) as [v|] eqn:Ev; [|done]. cbn [mbind option_bind].
  assert (Hmem : param_name f1 l = None -> param_name f2 (TransformExpr vars l) = None ->
    tracks (cl_opt (cl_assign f1 place lit e1 ps1 m l v) (fun pm => Next (Sskip, k, e1, pm.1, pm.2)))
      (cl_opt (cl_assign f2 place lit e2 ps2 m (TransformExpr vars l) v) (fun pm => Next (Sskip, TK k, e2, pm.1, pm.2)))).
  { intros H1 H2. unfold cl_assign. rewrite H1, H2, type_same, (proj2 (expr_same _ _ _ _ m l Hs Hl)).
    destruct (access_mode (ExprType l)); try done. destruct (cl_lvalue f1 place lit e1 ps1 m l) as [p|]; [|done]. cbn.
    destruct (eval_store_at chunk p v m) as [m'|]; [|done]. by apply (tracks_to Sskip). }
  destruct l; try (cbn [TransformStmt TransformExpr cl_step] in *; rewrite Er; by apply Hmem).
  - cbn [TransformStmt TransformExpr] in *. destruct (vars !! Name) as [id|] eqn:Ex.
    + cbn [cl_step]. rewrite Er. unfold cl_assign. cbn [param_name]. rewrite (is_param_promoted _ _ Ex). cbn.
      apply (tracks_to Sskip); [done|done|]. by apply same_promoted.
    + cbn [cl_step]. rewrite Er. cbn [mbind option_bind]. destruct (is_param f1 Name) eqn:Ep.
      * unfold cl_assign. cbn [param_name]. rewrite is_param_same, Ep by done. apply (tracks_to Sskip); [done|done|]. by apply same_param.
      * apply Hmem; cbn; [by rewrite Ep|by rewrite is_param_same, Ep].
  - unfold cl_assign. cbn. by destruct (access_mode Typ).
Qed.

Lemma step_tracks s k e1 ps1 m e2 ps2 :
  stmt_over lo s -> Forall (frame_over lo) k -> same e1 ps1 e2 ps2 ->
  tracks (step1 (s, k, e1, ps1, m)) (step2 (T s, TK k, e2, ps2, m)).
Proof using ok.
  intros Hs Hk Hsame. destruct s as [|l r|id r|r g args|r b args|s1 s2|c s1 s2|s1 s2| | |o|a cases d h|l s|l].
  - destruct Hk as [|fr k Hf Hk]; [done|]. destruct fr as [s|s1 s2|s1 s2|]; [|destruct Hf as [H1 H2]..|].
    + by apply (tracks_to s k).
    + apply (tracks_to s2 (Kloop2 s1 s2 :: k)); [done|by constructor|done].
    + apply (tracks_to s1 (Kloop1 s1 s2 :: k)); [done|by constructor|done].
    + by apply (tracks_to Sskip k).
  - destruct Hs. by apply assign_tracks.
  - destruct Hs as [Hid Hr]. cbn. rewrite (proj1 (expr_same _ _ _ _ m r Hsame Hr)). destruct (cl_expr f1 _ _ _ _ _ r); [|done].
    apply (tracks_to Sskip); [done|done|by apply same_temp].
  - destruct Hs as (Hr & Hg & Ha). cbn [cl_step TransformStmt]. rewrite (callee_same _ _ _ _ m g Hsame Hg), (args_same _ _ _ _ m args Hsame Ha).
    destruct (_ ≫= _) as [[v m']|]; [|done]. apply (tracks_to Sskip); [done|done|by apply same_result].
  - destruct Hs as (Hr & Ha). cbn [cl_step TransformStmt]. rewrite (args_same _ _ _ _ m args Hsame Ha).
    destruct (_ ≫= _) as [[v m']|]; [|done]. apply (tracks_to Sskip); [done|done|by apply same_result].
  - destruct Hs. apply (tracks_to s1 (Kseq s2 :: k)); [done|by constructor|done].
  - destruct Hs as (Hc & H1 & H2). cbn [cl_step TransformStmt]. rewrite (proj1 (expr_same _ _ _ _ m c Hsame Hc)), type_same.
    destruct (_ ≫= _) as [x|]; [|done]. destruct x; by apply tracks_to.
  - destruct Hs. apply (tracks_to s1 (Kloop1 s1 s2 :: k)); [done|by constructor|done].
  - destruct (break_same k Hk) as [E Ho]. cbn [cl_step TransformStmt]. rewrite E. destruct (break_cont k); [|done]. by apply (tracks_to Sskip).
  - destruct (continue_same k Hk) as [E Ho]. cbn [cl_step TransformStmt]. rewrite E. destruct (continue_cont k) as [sk|]; [|done].
    destruct Ho. by apply tracks_to.
  - destruct o as [a|]; [|done]. cbn [cl_step TransformStmt fmap option_fmap option_map]. rewrite (proj1 (expr_same _ _ _ _ m a Hsame Hs)).
    by destruct (cl_expr f1 _ _ _ _ _ a).
  - apply switch_over in Hs as (Ha & Hd & Hc). cbn [cl_step TransformStmt]. rewrite (proj1 (expr_same _ _ _ _ m a Hsame Ha)), type_same.
    destruct (_ ≫= _) as [z|]; [|done]. destruct (switch_same h z cases d (Kswitch :: k) Hc Hd) as [E [H1 H2]]; [by constructor|].
    cbn [cl_opt]. change (Kswitch :: TK k) with (TK (Kswitch :: k)). change (fmap (fun c => (c.1, T c.2)) cases) with (t_case <$> cases).
    rewrite E. by apply tracks_to.
  - by apply (tracks_to s k).
  - cbn [cl_step TransformStmt]. rewrite (transformed ok). destruct (label_same l (fn_Body f1) [] (body_over ok)) as [E Ho]; [constructor|].
    change (TK []) with (@nil cl_frame) in E. rewrite E. destruct (cl_find l (fn_Body f1) []) as [sk|]; [|done]. destruct Ho. by apply tracks_to.
Qed.
Lemma bind_params_none xs (args : list val) x : x ∉ xs -> bind_params xs args !! x = None.
Proof using.
  unfold bind_params. intros Hx. enough (H : forall ps : gmap string val, ps !! x = None ->
    foldl (fun ps xv => <[xv.1 := xv.2]> ps) ps (zip xs args) !! x = None) by (by apply H).
  revert args. induction xs as [|y xs IH]; intros [|v args] ps Hp; try done. cbn. apply not_elem_of_cons in Hx as [Hne Hx].
  apply IH; [done|]. by rewrite lookup_insert_ne.
Qed.

Lemma bind_params_short xs ys (args : list val) : length args = length xs -> bind_params (xs ++ ys) args = bind_params xs args.
Proof using.
  intros H. unfold bind_params. f_equal. revert args H. induction xs as [|x xs IH]; intros [|v args] H; try done; [by destruct ys|].
  cbn. f_equal. apply IH. by injection H.
Qed.

Lemma initial_same args :
  length args = length (fn_Params f2) ->
  same ∅ (bind_params (vd_Name <$> fn_Params f1) args) ∅ (bind_params (vd_Name <$> fn_Params f2) args).
Proof using ok.
  intros Hl. destruct (more_params ok) as (extra & -> & He). rewrite fmap_app, bind_params_short by (by rewrite length_fmap).
  split; [done|]. split; [|done]. intros x id Hx. rewrite lookup_empty. symmetry. apply bind_params_none, (not_param ok). eauto.
Qed.

Lemma lockstep_next S1 S2 S1' :
  match_states S1 S2 -> step1 S1 = Next S1' ->
  exists S2', match_states S1' S2' /\ (tc (steps_to step2) S2 S2' \/ (S2' = S2 /\ (0 < 0)%nat)).
Proof using ok.
  intros (s & k & e1 & ps1 & m & e2 & ps2 & -> & -> & Hs & Hk & Hsame) E.
  pose proof (step_tracks s k e1 ps1 m e2 ps2 Hs Hk Hsame) as H. rewrite E in H. destruct H as (S2' & E2 & Hm).
  exists S2'. split; [done|]. left. by apply tc_once.
Qed.

Lemma lockstep_halt S1 S2 r : match_states S1 S2 -> step1 S1 = Halt r -> exists r', terminates step2 S2 r' /\ r = r'.
Proof using ok.
  intros (s & k & e1 & ps1 & m & e2 & ps2 & -> & -> & Hs & Hk & Hsame) E.
  pose proof (step_tracks s k e1 ps1 m e2 ps2 Hs Hk Hsame) as H. rewrite E in H. exists r. split; [|done]. by apply terminates_halt.
Qed.

(** The two functions do the same. *)
Lemma promotion_preserves args m :
  length args = length (fn_Params f2) ->
  (forall r, terminates step1 (cl_init f1 args m) r -> terminates step2 (cl_init f2 args m) r) /\
  (safe step1 (cl_init f1 args m) ->
   safe step2 (cl_init f2 args m) /\ forall r, terminates step2 (cl_init f2 args m) r -> terminates step1 (cl_init f1 args m) r).
Proof using ok.
  intros Hl. assert (Hm : match_states (cl_init f1 args m) (cl_init f2 args m)).
  { unfold cl_init. rewrite (transformed ok). eexists _, [], ∅, _, m, ∅, _. split; [reflexivity|]. split; [reflexivity|].
    split; [apply (body_over ok)|]. split; [constructor|by apply initial_same]. }
  split; [|intros Hs; split].
  - intros r Hr. by destruct (sim_forward_rel step1 step2 match_states eq (fun _ => 0%nat) lockstep_next lockstep_halt _ _ r Hm Hr) as (? & ? & <-).
  - by apply (sim_safe step1 step2 match_states eq (fun _ => 0%nat) lockstep_next lockstep_halt _ _ Hm).
  - intros r Hr. by destruct (sim_backward_safe step1 step2 match_states eq (fun _ => 0%nat) lockstep_next lockstep_halt _ _ r Hm Hs Hr) as (? & ? & <-).
Qed.

End Promotion.

(** ** Example *)

(** [x = n; t2 = x; return t2], where [x] becomes the temporary 1. *)
Definition example_body : Stmt :=
  let int := Some Ctypes.Int in
  Ssequence (Sassign (Evar "x" int) (Evar "n" int)) (Ssequence (Sset 2 (Evar "x" int)) (Sreturn (Some (Etempvar 2 int)))).

Definition example_named : Function :=
  let int := Some Ctypes.Int in mkFunction "f" int [mkVarDecl "n" int []; mkVarDecl "x" int []] [] [] example_body.

Definition example_promoted : Function :=
  let int := Some Ctypes.Int in mkFunction "f" int [mkVarDecl "n" int []] [] [] (TransformStmt {["x"%string := 1]} example_body).

Lemma example_promotes : promotes example_named example_promoted {["x"%string := 1]} 2.
Proof.
  split; try done.
  - eexists. split; [reflexivity|]. intros x. cbn. rewrite lookup_singleton_is_Some, list_elem_of_singleton. done.
  - intros x _. cbn. set_solver.
  - intros x Hx. apply lookup_singleton_is_Some in Hx as <-. cbn. set_solver.
  - intros x y id [<- _]%lookup_singleton_Some [<- _]%lookup_singleton_Some. done.
  - intros x id [_ <-]%lookup_singleton_Some. lia.
Qed.

