(* ===== verification/ClightGenPass.v ===== *)
(** Clight generation as a whole: the temporaries and the locals of a function,
    its types, programs, and the theorems. *)

From S2P Require Import Prelude Target Semantics RtlSem Structured Values CminorSem CshmgenOps Clight ClightSem.
From S2P Require Import SimplExpr ClightGen CabsSem SimplExprProof ClightGenProof SimplLocalsProof ValuesExample.
From S2P Require Ctypes Cabs Cminor SimplLocals.

(** ** The temporaries of the code *)

Section Over.
  Context (lo : Z).
  Local Abbreviation over := (stmt_over lo).

(** A result whose temporaries are from [lo] on. *)
Definition result_from (r : TransformResult) : Prop := expr_over lo (Expr_ r) /\ Forall over (Stmts r).

(** The next temporaries stay above [lo]. *)
Definition makes_over {A} (P : A -> Prop) (g : SE A) : Prop :=
  forall st a st', g st = Some (a, st') -> lo <= nextTempID st -> P a /\ lo <= nextTempID st'.

Lemma over_ret {A} (P : A -> Prop) a : P a -> makes_over P (mret a).
Proof using. intros HP st b st' E Hlo. by apply SE_ret_inv in E as [<- <-]. Qed.

Lemma over_bind {A B} (P : A -> Prop) (Q : B -> Prop) (g : SE A) (h : A -> SE B) :
  makes_over P g -> (forall a, P a -> makes_over Q (h a)) -> makes_over Q (g ≫= h).
Proof using.
  intros Hg Hh st b st' E Hlo. apply SE_inv in E as (a & st1 & E1 & E2). destruct (Hg st a st1 E1 Hlo) as [HP Hlo1].
  by eapply Hh.
Qed.

Lemma over_each {A B} (P : B -> Prop) (g : A -> SE B) l :
  Forall (fun a => makes_over P (g a)) l -> makes_over (Forall P) (each g l).
Proof using.
  induction 1 as [|a l Ha _ IH]; [by apply over_ret|]. cbn [each]. eapply over_bind; [exact Ha|]. intros b Hb.
  eapply over_bind; [exact IH|]. intros bs Hbs. apply over_ret. by constructor.
Qed.

Lemma over_newTemp t : makes_over (Z.le lo) (newTemp t).
Proof using. intros st id st' [= <- <-] Hlo. cbn. lia. Qed.

Lemma over_pure {A} (P : A -> Prop) (g : SE A) : (forall st a st', g st = Some (a, st') -> P a /\ st' = st) -> makes_over P g.
Proof using. intros H st a st' E Hlo. by destruct (H st a st' E) as [HP ->]. Qed.

Lemma over_types_eq a b : makes_over (fun _ => True) (types_eq a b).
Proof using.
  apply over_pure. intros st x st' E. split; [done|]. unfold types_eq in E. destruct a as [a|], b as [b|]; [|by simplify_eq..].
  by apply fmap_Some in E as (y & _ & [= _ ->]).
Qed.

Lemma over_seq ts : Forall over ts -> over (Seq ts).
Proof using.
  induction ts as [|t ts IH] using rev_ind; [done|]. rewrite Forall_app, Forall_singleton, seq_last. intros [Hts Ht].
  destruct (is_skip (Seq ts)); [done|]. destruct (is_skip t); [by apply IH|]. split; [by apply IH|done].
Qed.

Lemma over_temp_set id t e ts :
  lo <= id -> Forall over ts -> expr_over lo e ->
  forall l, expr_over lo l -> result_from (mkResult (Etempvar id t) (ts ++ [Sset id e; Sassign l (Etempvar id t)])).
Proof using. intros Hid Hts He l Hl. split; [done|]. cbn [Stmts]. apply Forall_app. split; [done|]. by repeat constructor. Qed.

Lemma over_branch id t c ts t1 t2 :
  lo <= id -> Forall over ts -> expr_over lo c -> over t1 -> over t2 ->
  result_from (mkResult (Etempvar id t) (ts ++ [Sifthenelse c t1 t2])).
Proof using. intros Hid Hts Hc H1 H2. split; [done|]. cbn [Stmts]. apply Forall_app. split; [done|]. by repeat constructor. Qed.

Lemma over_truth id e : lo <= id -> expr_over lo e -> over (set_truth id e).
Proof using. intros Hid He. by repeat split. Qed.

Lemma over_incdec inner op pre : result_from inner -> makes_over result_from (transformIncDec inner op pre).
Proof using.
  intros [He Hs]. unfold transformIncDec. eapply over_bind; [apply over_newTemp|]. intros id Hid. apply over_ret. split; [done|].
  cbn [Stmts]. apply Forall_app. split; [done|]. destruct pre; by repeat constructor.
Qed.

Lemma over_unary op inner : result_from inner -> makes_over result_from (transformUnary op inner).
Proof using.
  intros H. pose proof H as [He Hs]. destruct op; cbn [transformUnary]; try (by apply over_ret); by apply over_incdec.
Qed.

Lemma over_binary op l r : result_from l -> result_from r -> makes_over result_from (transformBinary op l r).
Proof using.
  intros [Hel Hsl] [Her Hsr]. assert (Hs : Forall over (Stmts l ++ Stmts r)) by by apply Forall_app.
  intros st. rewrite transformBinary_kind. revert st. destruct (kind_of op) as [[op'|]| |[]|op'].
  - apply over_bind with (P := Z.le lo); [apply over_newTemp|]. intros id Hid. apply over_ret. by apply over_temp_set.
  - unfold transformAssign. apply over_bind with (P := fun _ => True).
    { apply over_types_eq. }
    intros same _. eapply over_bind; [apply over_newTemp|]. intros id Hid. apply over_ret. apply over_temp_set; try done. by destruct same.
  - intros st a st' [= <- <-] Hlo. by split.
  - eapply over_bind; [apply over_newTemp|]. intros id Hid. apply over_ret. apply over_branch; try done.
    apply over_seq, Forall_app. split; [done|]. constructor; [by apply over_truth|done].
  - eapply over_bind; [apply over_newTemp|]. intros id Hid. apply over_ret. apply over_branch; try done.
    apply over_seq, Forall_app. split; [done|]. constructor; [by apply over_truth|done].
  - intros st a st' [= <- <-] Hlo. by repeat split.
Qed.

Lemma over_conditional b c t e :
  result_from c -> result_from t -> result_from e -> makes_over result_from (transformConditional b c t e).
Proof using.
  intros [Hec Hsc] [Het Hst] [Hee Hse]. unfold transformConditional. eapply over_bind; [apply over_newTemp|]. intros id Hid.
  apply over_ret. destruct b; apply over_branch; try done; apply over_seq, Forall_app; by (split; [done|repeat constructor]).
Qed.

Lemma over_call g rs : result_from g -> Forall result_from rs -> makes_over result_from (transformCall g rs).
Proof using.
  intros [He Hs] Hrs. unfold transformCall. eapply over_bind; [apply over_newTemp|]. intros id Hid. apply over_ret. split; [done|].
  cbn [Stmts]. rewrite !Forall_app. split; [done|]. split.
  - apply Forall_concat, Forall_fmap. eapply Forall_impl; [exact Hrs|]. by intros r [_ H].
  - constructor; [|constructor]. split; [done|]. split; [done|]. generalize (param_types (ExprType (Expr_ g))) as ps. clear -Hrs.
    induction Hrs as [|r rs [Hr _] _ IH]; intros ps; [constructor|]. change (imap _ (r :: rs)) with (converted ps (r :: rs)).
    rewrite converted_cons. constructor; [|apply IH]. unfold convert_arg. destruct (head ps); [|done]. by case_match.
Qed.

Lemma TransformExpr_over a : makes_over result_from (TransformExpr a).
Proof using.
  induction a as [n|b|c|x|op a1 IH|op l r IHl IHr|a1 IH|c t u IHc IHt IHu|g args IHg IHargs|a1 i IHa IHi|a1 x arrow IH|a1 IH|t|t a1 IH]
    using Cabs.Expr_nested_ind; cbn [TransformExpr]; try (by apply over_ret); try done.
  - apply over_pure. intros st r st' E. apply SE_inv in E as (t & st1 & E1 & E). apply SE_inv in E as (t' & st2 & E2 & E).
    apply SE_ret_inv in E as [<- <-]. injection E1 as <- <-. by injection E2 as <- <-.
  - eapply over_bind; [exact IH|]. intros r Hr. by apply over_unary.
  - eapply over_bind; [exact IHl|]. intros rl Hl. eapply over_bind; [exact IHr|]. intros rr Hr. by apply over_binary.
  - eapply over_bind; [exact IHc|]. intros rc Hc. eapply over_bind; [exact IHt|]. intros rt Ht.
    eapply over_bind; [exact IHu|]. intros ru Hu. by apply over_conditional.
  - eapply over_bind; [exact IHg|]. intros rg Hg. eapply over_bind; [by apply over_each|]. intros rs Hrs. by apply over_call.
  - eapply over_bind; [exact IHa|]. intros ra [Ha Hsa]. eapply over_bind; [exact IHi|]. intros ri [Hi Hsi]. apply over_ret.
    assert (Hs : Forall over (Stmts ra ++ Stmts ri)) by by apply Forall_app. unfold transformIndex. destruct (ExprType (Expr_ ra)) as [[]|]; by repeat split.
  - eapply over_bind; [exact IH|]. intros r [Hr Hs]. unfold transformMember.
    eapply over_bind with (P := expr_over lo).
    { destruct arrow; [|by apply over_ret]. eapply over_bind with (P := fun _ => True); [|intros t _; by apply over_ret].
      apply over_pure. by intros st t st' [= <- <-]. }
    intros base Hb. eapply over_bind with (P := fun _ => True); [|intros t _; by apply over_ret].
    apply over_pure. by intros st t st' [= <- <-].
  - eapply over_bind; [exact IH|]. intros r Hr. by apply over_ret.
  - eapply over_bind; [exact IH|]. intros r [Hr Hs]. by apply over_ret.
Qed.
Lemma coerce_over e t : expr_over lo e -> expr_over lo (coerceToType e t).
Proof using. intros He. destruct t as [|[] sign|sign|size|elem|elem n|ps r v|x fs|x fs]; try done; cbn; (destruct e; done) || (by repeat case_match). Qed.

Lemma transformDecls_over ds : makes_over (Forall over) (transformDecls ds).
Proof using.
  induction ds as [|d ds IH]; [by apply over_ret|]. cbn [transformDecls]. destruct (Cabs.d_Initializer d) as [a|]; [|exact IH].
  eapply over_bind; [apply TransformExpr_over|]. intros r [Hr Hs]. eapply over_bind; [exact IH|]. intros ts Hts. apply over_ret.
  apply Forall_app. split; [done|]. constructor; [|done]. split; [done|by apply coerce_over].
Qed.

Lemma over_effects r : result_from r -> over (Seq (Stmts r)).
Proof using. intros [_ Hs]. by apply over_seq. Qed.

Lemma over_last ts t : Forall over ts -> over t -> over (Seq (ts ++ [t])).
Proof using. intros Hts Ht. apply over_seq, Forall_app. split; [done|by constructor]. Qed.

Lemma transform_cases_over block cases d :
  Forall (fun c => makes_over (Forall over) (block c.2)) cases -> over d ->
  makes_over (fun cd => cases_over lo cd.1 /\ over cd.2) (transform_cases block cases d).
Proof using.
  intros H. revert d. induction H as [|[o ss] cases Hc _ IH]; intros d Hd; [by apply over_ret; split; [constructor|]|].
  cbn [transform_cases fst snd]. eapply over_bind; [exact Hc|]. intros ts Hts. destruct o as [a|]; [|by apply IH, over_seq].
  destruct a; try (by apply IH). eapply over_bind; [by apply IH|]. intros [cs d'] [H1 H2]. apply over_ret. split; [|done].
  constructor; [by apply over_seq|done].
Qed.

Lemma transformStmt_over b : makes_over over (transformStmt b).
Proof using.
  induction b as [o|a|c b o IH IHo|c b IH|b c IH|init ds c inc b IH| | | |a cases IH|l'|l' b IH|ss IH|ds] using Cabs.Stmt_nested_ind;
    cbn [transformStmt]; try (by apply over_ret).
  - destruct o as [a|]; [|by apply over_ret]. eapply over_bind; [apply TransformExpr_over|]. intros r [Hr Hs]. apply over_ret. by apply over_last.
  - eapply over_bind; [apply TransformExpr_over|]. intros r Hr. by apply over_ret, over_effects.
  - eapply over_bind; [apply TransformExpr_over|]. intros r [Hr Hs]. eapply over_bind; [exact IH|]. intros t1 H1.
    eapply over_bind with (P := over); [destruct o; [exact IHo|by apply over_ret]|]. intros t2 H2. apply over_ret. by apply over_last.
  - eapply over_bind; [apply TransformExpr_over|]. intros r [Hr Hs]. eapply over_bind; [exact IH|]. intros t Ht.
    apply over_ret. split; [by apply over_last|done].
  - eapply over_bind; [exact IH|]. intros t Ht. eapply over_bind; [apply TransformExpr_over|]. intros r [Hr Hs].
    apply over_ret. split; [|done]. change (t :: Stmts r ++ ?x) with ((t :: Stmts r) ++ x). apply over_last; [by constructor|by repeat split].
  - eapply over_bind with (P := over).
    { destruct init as [a|].
      - eapply over_bind; [apply TransformExpr_over|]. intros r Hr. by apply over_ret, over_effects.
      - eapply over_bind; [apply transformDecls_over|]. intros ts Hts. by apply over_ret, over_seq. }
    intros i Hi. eapply over_bind with (P := result_from).
    { destruct c; [apply TransformExpr_over|by apply over_ret]. }
    intros r [Hr Hs]. eapply over_bind; [exact IH|]. intros t Ht. eapply over_bind with (P := over).
    { destruct inc as [a|]; [|by apply over_ret]. eapply over_bind; [apply TransformExpr_over|]. intros rs Hrs. by apply over_ret, over_effects. }
    intros st Hst. apply over_ret, over_seq. constructor; [done|]. constructor; [|done]. split; [by apply over_last|done].
  - eapply over_bind; [apply TransformExpr_over|]. intros r [Hr Hs]. eapply over_bind.
    { apply transform_cases_over; [|done]. eapply Forall_impl; [exact IH|]. intros c Hc. by apply over_each. }
    intros [cs d] [Hc Hd]. apply over_ret, over_last; [done|]. by apply switch_over.
  - eapply over_bind; [exact IH|]. intros t Ht. by apply over_ret.
  - eapply over_bind; [by apply over_each|]. intros ts Hts. by apply over_ret, over_seq.
  - eapply over_bind; [apply transformDecls_over|]. intros ts Hts. by apply over_ret, over_seq.
Qed.
End Over.

(** ** The promoted locals *)

Section Locals.
Import SimplLocals.

Definition promoted_local (st : SimplLocals.Transformer) (d : VarDecl) : bool := CanPromoteToTemp st (vd_Name d) (vd_Type d).

(** The names that have temporaries have their own ones. *)
Definition numbered (st : SimplLocals.Transformer) : Prop :=
  (forall x id, varToTemp st !! x = Some id -> 1 <= id < SimplLocals.nextTempID st) /\
  (forall x y id, varToTemp st !! x = Some id -> varToTemp st !! y = Some id -> x = y) /\ 1 <= SimplLocals.nextTempID st.

Lemma CanPromote_same st st' x t : addressTaken st = addressTaken st' -> CanPromoteToTemp st x t = CanPromoteToTemp st' x t.
Proof using. unfold CanPromoteToTemp. by intros ->. Qed.

Lemma PromoteLocal_spec x t st :
  numbered st -> CanPromoteToTemp st x t = true ->
  let '(id, st') := PromoteLocal x t st in
  addressTaken st' = addressTaken st /\ numbered st' /\ varToTemp st' !! x = Some id /\
  (forall y, y <> x -> varToTemp st' !! y = varToTemp st !! y).
Proof using.
  intros (H1 & H2 & H3) Hp. unfold PromoteLocal. rewrite Hp. destruct (varToTemp st !! x) as [id|] eqn:E.
  - by split.
  - cbn. split; [done|]. split; [|split; [by rewrite lookup_insert_eq|]].
    + split; [|split; [|cbn; lia]]; cbn.
      * intros y id. destruct (decide (x = y)) as [->|]; [rewrite lookup_insert_eq; intros [= <-]; lia|].
        rewrite lookup_insert_ne by done. intros Hy%H1. lia.
      * intros y z id. destruct (decide (x = y)) as [->|Hy], (decide (y = z)) as [->|Hyz]; try done.
        -- rewrite lookup_insert_eq, lookup_insert_ne by done. intros [= <-] Hz%H1. lia.
        -- rewrite lookup_insert_ne by done. intros Hy'. pose proof (H1 _ _ Hy'). destruct (decide (x = z)) as [->|].
           ++ rewrite lookup_insert_eq. intros [= Hz]. lia.
           ++ rewrite lookup_insert_ne by done. intros Hz. by apply (H2 y z id).
    + intros y Hy. by rewrite lookup_insert_ne.
Qed.

Definition unpromoted (st : SimplLocals.Transformer) (decls : list VarDecl) : list VarDecl :=
  (fun d => mkVarDecl (vd_Name d) (vd_Type d) []) <$> filter (fun d => promoted_local st d = false) decls.

Lemma AnalyzeLocals_spec decls : forall st, numbered st ->
  let '(infos, st') := AnalyzeLocals decls st in
  numbered st' /\ FilterUnpromotedLocals infos = unpromoted st decls /\
  (forall x, is_Some (varToTemp st' !! x) <-> is_Some (varToTemp st !! x) \/ x ∈ vd_Name <$> filter (fun d => promoted_local st d = true) decls) /\
  (forall x id, varToTemp st' !! x = Some id -> varToTemp st !! x = Some id \/ exists i, i ∈ infos /\ li_Promoted i = true /\ li_TempID i = id).
Proof using.
  induction decls as [|d decls IH]; intros st Hst; cbn [AnalyzeLocals].
  { split; [done|]. split; [done|]. split; [|by left]. intros x. cbn. split; [by left|]. by intros [?|?%elem_of_nil]. }
  destruct (CanPromoteToTemp st (vd_Name d) (vd_Type d)) eqn:Ep.
  - pose proof (PromoteLocal_spec _ _ st Hst Ep) as Hpl. destruct (PromoteLocal _ _ st) as [id st1].
    destruct Hpl as (Ha & Hst1 & Hx & Hother). specialize (IH st1 Hst1). destruct (AnalyzeLocals decls st1) as [infos st'].
    destruct IH as (Hst' & Hf & Hdom & Hids).
    assert (Hsame : forall d, promoted_local st1 d = promoted_local st d) by (intros d'; by apply CanPromote_same).
    assert (Hpd : promoted_local st d = true) by done.
    split; [done|]. split; [|split].
    + unfold FilterUnpromotedLocals, unpromoted in *. rewrite !filter_cons_False by (cbn; congruence). rewrite Hf. f_equal.
      apply list_filter_iff. intros d'. by rewrite Hsame.
    + intros x. rewrite Hdom, filter_cons_True, fmap_cons, elem_of_cons by done.
      rewrite (list_filter_iff (fun d => promoted_local st1 d = true) (fun d => promoted_local st d = true)) by (intros; by rewrite Hsame).
      destruct (decide (x = vd_Name d)) as [->|Hne]; [rewrite Hx; naive_solver|]. rewrite (Hother x Hne). naive_solver.
    + intros x i [H|(i' & Hi & H)]%Hids.
      * destruct (decide (x = vd_Name d)) as [->|Hne]; [|left; by rewrite <- (Hother x Hne)].
        right. eexists. split; [by left|]. cbn. split; [done|congruence].
      * right. exists i'. split; [by right|done].
  - specialize (IH st Hst). destruct (AnalyzeLocals decls st) as [infos st']. destruct IH as (Hst' & Hf & Hdom & Hids).
    assert (Hpd : promoted_local st d = false) by done. split; [done|]. split; [|split].
    + unfold FilterUnpromotedLocals, unpromoted in *. rewrite !filter_cons_True by done. cbn. by rewrite Hf.
    + intros x. rewrite Hdom, filter_cons_False by congruence. done.
    + intros x i [H|(i' & Hi & H)]%Hids; [by left|]. right. exists i'. split; [by right|done].
Qed.

Lemma next_temp_spec infos : 1 <= next_temp infos /\ forall i, i ∈ infos -> li_Promoted i = true -> li_TempID i < next_temp infos.
Proof using.
  unfold next_temp. enough (H : forall n, n <= fold_left (fun next i => if li_Promoted i && (next <=? li_TempID i) then li_TempID i + 1 else next) infos n /\
    forall i, i ∈ infos -> li_Promoted i = true -> li_TempID i < fold_left (fun next i => if li_Promoted i && (next <=? li_TempID i) then li_TempID i + 1 else next) infos n) by apply H.
  induction infos as [|i infos IH]; intros n; [split; [done|]; by intros i ?%elem_of_nil|]. cbn [fold_left].
  set (n' := if li_Promoted i && (n <=? li_TempID i) then li_TempID i + 1 else n). destruct (IH n') as [Hle Hi].
  assert (Hn : n <= n') by (unfold n'; destruct (li_Promoted i); cbn; [|lia]; destruct (Z.leb_spec n (li_TempID i)); lia).
  split; [lia|]. intros j [->|Hj]%elem_of_cons Hp; [|by apply Hi].
  enough (li_TempID i < n') by lia. unfold n'. rewrite Hp. cbn. destruct (Z.leb_spec n (li_TempID i)); lia.
Qed.
End Locals.

(** ** Declarations *)

(** All the declarations of a statement. *)
Fixpoint declarations (s : Cabs.Stmt) : list Cabs.Decl :=
  match s with
  | Cabs.DeclStmt ds => ds
  | Cabs.Block ss => concat (map declarations ss)
  | Cabs.For _ ds _ _ body => ds ++ declarations body
  | Cabs.While _ body | Cabs.DoWhile body _ | Cabs.Label _ body => declarations body
  | Cabs.If _ s1 o => declarations s1 ++ match o with Some s2 => declarations s2 | None => [] end
  | Cabs.Switch _ cases => concat (map (fun c : option Cabs.Expr * list Cabs.Stmt => concat (map declarations c.2)) cases)
  | _ => []
  end.

(** Where the pass looks for them: not under labels, and not for arrays in the
    head of a loop. *)
Fixpoint declarations_seen (s : Cabs.Stmt) : bool :=
  match s with
  | Cabs.Block ss => forallb declarations_seen ss
  | Cabs.For _ ds _ _ body => forallb (fun d => match Cabs.d_ArrayDims d with [] => true | _ => false end) ds && declarations_seen body
  | Cabs.While _ body | Cabs.DoWhile body _ => declarations_seen body
  | Cabs.Label _ body => match declarations body with [] => true | _ => false end
  | Cabs.If _ s1 o => declarations_seen s1 && match o with Some s2 => declarations_seen s2 | None => true end
  | Cabs.Switch _ cases => forallb (fun c : option Cabs.Expr * list Cabs.Stmt => forallb declarations_seen c.2) cases
  | _ => true
  end.

Section Collect.
  Context (defs : gmap string (list Ctypes.Field)).

(** The variable a declaration is of. *)
Definition local_of (d : Cabs.Decl) : VarDecl :=
  mkVarDecl (Cabs.d_Name d) (Some (array_type (Cabs.d_ArrayDims d) (declared_type defs d))) [].

(** Variables with their types, in an environment. *)
Definition set_types (ds : list VarDecl) (env : gmap string Ctypes.Type_) : gmap string Ctypes.Type_ :=
  fold_left (fun env d => <[vd_Name d := default Ctypes.Int (vd_Type d)]> env) ds env.

Definition with_types (ds : list VarDecl) (st : Transformer) : Transformer :=
  mkTransformer (nextTempID st) (tempTypes st) (set_types ds (typeEnv st)) (structDefs st).

(** The declarations [ds] are added. *)
Definition adds (ds : list Cabs.Decl) (g : list VarDecl * Transformer -> list VarDecl * Transformer) : Prop :=
  forall locals st, structDefs st = defs -> g (locals, st) = (locals ++ map local_of ds, with_types (map local_of ds) st).

Lemma with_types_nil st : with_types [] st = st.
Proof using. by destruct st. Qed.

Lemma with_types_app ds1 ds2 st : with_types ds2 (with_types ds1 st) = with_types (ds1 ++ ds2) st.
Proof using. unfold with_types, set_types. cbn. by rewrite fold_left_app. Qed.

Lemma adds_nil : adds [] (fun acc => acc).
Proof using. intros locals st _. by rewrite app_nil_r, with_types_nil. Qed.

Lemma adds_app ds1 ds2 g1 g2 : adds ds1 g1 -> adds ds2 g2 -> adds (ds1 ++ ds2) (fun acc => g2 (g1 acc)).
Proof using.
  intros H1 H2 locals st Hst. rewrite H1, H2, with_types_app by done. by rewrite <- app_assoc, map_app.
Qed.

Lemma adds_fold {A} (ds : A -> list Cabs.Decl) (g : list VarDecl * Transformer -> A -> list VarDecl * Transformer) l :
  Forall (fun a => adds (ds a) (fun acc => g acc a)) l -> adds (concat (map ds l)) (fun acc => fold_left g l acc).
Proof using.
  induction 1 as [|a l Ha _ IH]; [apply adds_nil|]. cbn. exact (adds_app _ _ _ _ Ha IH).
Qed.

Lemma adds_decls arrays ds :
  (arrays = false -> forallb (fun d => match Cabs.d_ArrayDims d with [] => true | _ => false end) ds = true) ->
  adds ds (fun acc => fold_left (collect_decl arrays) ds acc).
Proof using.
  intros Ha. assert (Hc : concat (map (fun d => [d]) ds) = ds) by (clear; induction ds; cbn; congruence).
  rewrite <- Hc at 1. apply adds_fold, Forall_forall. intros d Hd locals st Hst. unfold collect_decl, local_of, with_types, SetType. cbn.
  rewrite Hst. destruct arrays; [done|]. specialize (Ha eq_refl). rewrite forallb_forall in Ha. specialize (Ha d). cbn in Ha.
  rewrite <- list_elem_of_In in Ha. specialize (Ha Hd). by destruct (Cabs.d_ArrayDims d).
Qed.

Lemma collect_spec s : declarations_seen s = true -> adds (declarations s) (collectLocalsFromStmt s).
Proof using.
  induction s as [o|a|c b o IH IHo|c b IH|b c IH|init ds c inc b IH| | | |a cases IH|l'|l' b IH|ss IH|ds] using Cabs.Stmt_nested_ind;
    intros Hs; cbn [declarations declarations_seen collectLocalsFromStmt] in *; try (exact adds_nil).
  - apply andb_true_iff in Hs as [H1 H2]. specialize (IH H1). destruct o as [b2|].
    + exact (adds_app _ _ _ _ IH (IHo H2)).
    + rewrite app_nil_r. exact IH.
  - by apply IH.
  - by apply IH.
  - apply andb_true_iff in Hs as [H1 H2]. exact (adds_app _ _ _ _ (adds_decls false ds (fun _ => H1)) (IH H2)).
  - apply adds_fold. rewrite forallb_forall in Hs. apply Forall_forall. intros c Hc. rewrite Forall_forall in IH. specialize (IH c Hc).
    apply adds_fold, Forall_forall. intros b Hb. rewrite Forall_forall in IH. apply (IH b Hb).
    specialize (Hs c (proj1 (list_elem_of_In _ _) Hc)). rewrite forallb_forall in Hs. by apply Hs, list_elem_of_In.
  - destruct (declarations b); [exact adds_nil|done].
  - apply adds_fold, Forall_forall. intros b Hb. rewrite Forall_forall in IH. apply (IH b Hb).
    rewrite forallb_forall in Hs. by apply Hs, list_elem_of_In.
  - by apply adds_decls.
Qed.
End Collect.

(** ** Functions *)

Section Register.
  Context `{NO : NameOrder}.

(** All the entries of a map are inserted, in any order. *)
Lemma insert_range {V} t (m m0 : gmap string V) : fold_left (fun m x => <[x.1 := x.2]> m) (range_names t m) m0 = m ∪ m0.
Proof using.
  apply map_eq. intros x. assert (Hnd : NoDup (fst <$> range_names t m)) by (rewrite range_names_perm; apply NoDup_fst_map_to_list).
  rewrite (fold_insert_lookup fst snd) by done. destruct (m !! x) as [v|] eqn:E.
  - assert (Hin : (x, v) ∈ range_names t m) by (rewrite range_names_perm; by apply elem_of_map_to_list).
    rewrite (find_name_elem fst (x, v) _ Hnd Hin). by rewrite (lookup_union_Some_l _ _ _ _ E).
  - rewrite lookup_union_r by done. destruct (find_name fst x (range_names t m)) as [[y v]|] eqn:Ef; [|done].
    apply find_name_Some in Ef as [Hin Hx]. cbn in Hx. subst. rewrite range_names_perm in Hin. apply elem_of_map_to_list in Hin. congruence.
Qed.

Lemma register_spec t defs types params st :
  register t defs types params st =
    mkTransformer (nextTempID st) (tempTypes st) (set_types (param_decl <$> params) (types ∪ typeEnv st)) (defs ∪ structDefs st).
Proof using.
  assert (H1 : forall l st, fold_left (fun st s => SetStructDef s.1 s.2 st) l st =
    mkTransformer (nextTempID st) (tempTypes st) (typeEnv st) (fold_left (fun m x => <[x.1 := x.2]> m) l (structDefs st))).
  { induction l as [|x l IH]; intros st'; cbn [fold_left]; [by destruct st'|]. by rewrite IH. }
  assert (H2 : forall l st, fold_left (fun st x => SetType x.1 x.2 st) l st =
    mkTransformer (nextTempID st) (tempTypes st) (fold_left (fun m x => <[x.1 := x.2]> m) l (typeEnv st)) (structDefs st)).
  { induction l as [|x l IH]; intros st'; cbn [fold_left]; [by destruct st'|]. by rewrite IH. }
  unfold register, register_types, register_structs. rewrite H1, H2, !insert_range. clear H1 H2. cbn.
  unfold register_params, set_types. generalize (types ∪ typeEnv st) as env. induction params as [|p params IH]; intros env; [done|].
  exact (IH (<[Cabs.p_Name p := TypeFromString (Cabs.p_TypeSpec p)]> env)).
Qed.
End Register.

(** *** What C says of a function *)

Section Spec.
  Context (types : gmap string Ctypes.Type_) (defs : gmap string (list Ctypes.Field)) (fn : Cabs.FunDef) (body : list Cabs.Stmt).

Definition c_locals : list VarDecl := map (local_of defs) (declarations (Cabs.Block body)).
Definition c_params : list VarDecl := param_decl <$> Cabs.f_Params fn.
Definition c_types : gmap string Ctypes.Type_ := set_types c_locals (set_types c_params types).
Definition c_return : Type_ := Some (TypeFromString (Cabs.f_ReturnType fn)).

(** The locals that are kept by name: those of scalar types whose address is not
    taken. *)
Definition by_name (d : VarDecl) : bool :=
  negb (bool_decide (vd_Name d ∈ SimplLocals.AnalyzeStmt (Cabs.Block body) ∅)) && SimplLocals.IsScalarType (vd_Type d).

(** The parameters, the variables kept by name, and those in memory. *)
Definition c_function : Function :=
  mkFunction (Cabs.f_Name fn) c_return (c_params ++ filter (fun d => by_name d = true) c_locals)
    (filter (fun d => by_name d = false) c_locals) [] Sskip.

(** The types that are named are known. *)
Definition types_known : bool :=
  known_type (Cabs.f_ReturnType fn) && forallb (fun q => known_type (Cabs.p_TypeSpec q)) (Cabs.f_Params fn) &&
  forallb (fun d => known_type (Cabs.d_TypeSpec d)) (declarations (Cabs.Block body)).

(** What the pass asks of a function: the names of its variables differ, and no
    local hides a global variable or a function. *)
Definition function_ok (globals : list VarDecl) : bool :=
  types_known && declarations_seen (Cabs.Block body) && bool_decide (NoDup (vd_Name <$> c_params ++ c_locals)) &&
  forallb (fun d => bool_decide (types !! vd_Name d = None)) c_locals &&
  stmt_ok c_function globals c_types defs c_return false (Cabs.Block body).
End Spec.

Section Functions.
  Context {M : Type} `{FO : FloatOps} `{LO : Layout} `{TS : TargetSemantics val M}.
  Context {VT : ValueTarget M} {darwin : bool} {PC : PseudoCalls val M darwin}.
  Context `{NO : NameOrder}.
  Context (types : gmap string Ctypes.Type_) (defs : gmap string (list Ctypes.Field)) (globals : list VarDecl).
  Context (fn : Cabs.FunDef) (body : list Cabs.Stmt) (Hfn : Cabs.f_Body fn = Some body).
  Context (ok : function_ok types defs fn body globals = true).
  Local Abbreviation locals := (c_locals defs body).
  Local Abbreviation params := (c_params fn).
  Local Abbreviation loc0 := (SimplLocals.AnalyzeFunction fn SimplLocals.New).
  Local Abbreviation analysis := (SimplLocals.AnalyzeLocals locals loc0).

Lemma set_types_lookup ds env x :
  NoDup (vd_Name <$> ds) ->
  set_types ds env !! x = match find_name vd_Name x ds with Some d => Some (default Ctypes.Int (vd_Type d)) | None => env !! x end.
Proof using. intros H. unfold set_types. by rewrite (fold_insert_lookup vd_Name (fun d => default Ctypes.Int (vd_Type d))). Qed.

(** The types of the variables are registered twice; the second time changes nothing. *)
Lemma types_registered_twice :
  set_types params (types ∪ set_types locals (set_types params (types ∪ ∅))) = c_types types defs fn body.
Proof using ok.
  unfold c_types. rewrite (map_union_empty types). unfold function_ok in ok. rewrite !andb_true_iff, bool_decide_eq_true in ok.
  destruct ok as [[[[_ _] Hnd] Hg] _]. rewrite fmap_app in Hnd. apply NoDup_app in Hnd as (Hp & Hd & Hl). apply map_eq. intros x.
  rewrite !set_types_lookup by done. destruct (find_name vd_Name x params) as [d|] eqn:E.
  - destruct (find_name vd_Name x locals) as [d'|] eqn:E'; [|done]. apply find_name_Some in E as [H1 <-]. apply find_name_Some in E' as [H2 E'].
    destruct (Hd (vd_Name d)); [by apply list_elem_of_fmap_2|]. rewrite <- E'. by apply list_elem_of_fmap_2.
  - destruct (find_name vd_Name x locals) as [d'|] eqn:E'.
    + pose proof E' as E2. apply find_name_Some in E2 as [H2 E2]. rewrite forallb_forall in Hg.
      specialize (Hg d' (proj1 (list_elem_of_In _ _) H2)). apply bool_decide_eq_true in Hg. rewrite E2 in Hg.
      rewrite lookup_union_r by done. by rewrite set_types_lookup, E' by done.
    + destruct (types !! x) as [t|] eqn:Et; [by rewrite (lookup_union_Some_l _ _ _ _ Et)|]. rewrite lookup_union_r by done.
      by rewrite !set_types_lookup, E', E by done.
Qed.

Lemma loc0_eq : loc0 = SimplLocals.mkTransformer (SimplLocals.AnalyzeStmt (Cabs.Block body) ∅) ∅ 1 [].
Proof using Hfn. unfold SimplLocals.AnalyzeFunction. by rewrite Hfn. Qed.

Lemma by_name_promoted d : by_name body d = promoted_local loc0 d.
Proof using Hfn.
  unfold by_name, promoted_local, SimplLocals.CanPromoteToTemp. rewrite loc0_eq. cbn [SimplLocals.addressTaken].
  destruct (decide (vd_Name d ∈ SimplLocals.AnalyzeStmt (Cabs.Block body) ∅)) as [H|H]; [by rewrite bool_decide_eq_true_2|by rewrite bool_decide_eq_false_2].
Qed.

(** The function before and after the locals are promoted. *)
Definition named_function (t0 : Stmt) : Function :=
  mkFunction (Cabs.f_Name fn) (c_return fn) (c_params fn ++ filter (fun d => by_name body d = true) locals)
    (filter (fun d => by_name body d = false) locals) [] t0.

Definition clight_function (t0 : Stmt) (temps : list Type_) : Function :=
  mkFunction (Cabs.f_Name fn) (c_return fn) (c_params fn) (SimplLocals.FilterUnpromotedLocals analysis.1) temps
    (SimplLocals.TransformStmt (SimplLocals.varToTemp analysis.2) t0).

Lemma promotion t0 temps : stmt_over (next_temp analysis.1) t0 ->
  promotes (named_function t0) (clight_function t0 temps) (SimplLocals.varToTemp analysis.2) (next_temp analysis.1).
Proof using Hfn ok.
  intros Ho. assert (H0 : numbered loc0).
  { rewrite loc0_eq. split; [|split; [|done]]; cbn; intros x *; rewrite lookup_empty; done. }
  pose proof (AnalyzeLocals_spec locals loc0 H0) as Hs. destruct analysis as [infos st'] eqn:Ea in Hs, Ho |- *. destruct Hs as ((_ & Hinj & _) & Hf & Hdom & Hids).
  pose proof (next_temp_spec infos) as [_ Hnext]. cbn [fst snd] in *.
  assert (Hv : forall x, is_Some (SimplLocals.varToTemp st' !! x) <-> x ∈ vd_Name <$> filter (fun d => by_name body d = true) locals).
  { intros x. rewrite Hdom, loc0_eq. cbn [SimplLocals.varToTemp]. rewrite lookup_empty.
    rewrite (list_filter_iff (fun d => by_name body d = true) (fun d => promoted_local loc0 d = true)) by (intros d; by rewrite by_name_promoted).
    rewrite <- loc0_eq. split; [|by right]. intros [[? ?]|H]; [done|exact H]. }
  unfold function_ok in ok. rewrite !andb_true_iff, bool_decide_eq_true in ok. destruct ok as [[[[_ _] Hnd] _] _].
  rewrite fmap_app in Hnd. apply NoDup_app in Hnd as (Hp & Hd & Hl).
  assert (Hname : forall d d', d ∈ locals -> d' ∈ locals -> vd_Name d = vd_Name d' -> d = d').
  { intros d d' H1 H2 E. pose proof (find_name_elem vd_Name d locals Hl H1). pose proof (find_name_elem vd_Name d' locals Hl H2). congruence. }
  split; cbn [fn_Locals fn_Params fn_Body named_function clight_function].
  - rewrite Ea. cbn [fst]. rewrite Hf. unfold unpromoted.
    rewrite (list_filter_iff (fun d => by_name body d = false) (fun d => promoted_local loc0 d = false)) by (intros d; by rewrite by_name_promoted).
    rewrite <- (list_fmap_id (filter _ _)) at 1. apply list_fmap_ext. intros i d Hi. apply list_elem_of_lookup_2, list_elem_of_filter in Hi as [_ Hi].
    unfold c_locals in Hi. by apply list_elem_of_In, in_map_iff in Hi as (d0 & <- & _).
  - eexists. split; [done|]. exact Hv.
  - intros x Hx. apply Hv in Hx. apply list_elem_of_fmap in Hx as (d & -> & [Hb Hin]%list_elem_of_filter). cbn in Hb.
    intros (d' & E & [Hb' Hin']%list_elem_of_filter)%list_elem_of_fmap. rewrite (Hname d d' Hin Hin' E) in Hb. cbn in Hb'. congruence.
  - intros x Hx Hxp. apply Hv in Hx. apply list_elem_of_fmap in Hx as (d & -> & [_ Hin]%list_elem_of_filter).
    apply (Hd _ Hxp). by apply list_elem_of_fmap_2.
  - exact Hinj.
  - intros x id Hx. destruct (Hids x id Hx) as [H|(i & Hi & Hpr & <-)]; [|by apply Hnext].
    rewrite loc0_eq in H. cbn in H. by rewrite lookup_empty in H.
  - exact Ho.
  - by rewrite Ea.
Qed.

(** The call of the pass on the function. *)
Lemma translateFunction_unfold t :
  translateFunction t fn body defs types =
    '(t0, st) ← transformBlock body (mkTransformer (next_temp analysis.1) [] (c_types types defs fn body) defs);
    Some (clight_function t0 (SimplLocals.temps analysis.2 ++ tempTypes st)).
Proof using ok.
  unfold translateFunction, clight_function. rewrite !register_spec. cbn [nextTempID tempTypes typeEnv structDefs New].
  pose proof ok as Hok. unfold function_ok in Hok. rewrite !andb_true_iff in Hok. destruct Hok as [[[[_ Hseen] _] _] _].
  rewrite (collect_spec (defs ∪ ∅) (Cabs.Block body) Hseen) by done. rewrite (map_union_empty defs). cbn [app].
  change (map (local_of defs) (declarations (Cabs.Block body))) with locals. destruct analysis as [infos loc].
  rewrite register_spec. cbn [Reset with_types SetNextTempID nextTempID tempTypes typeEnv structDefs fst snd].
  pose proof types_registered_twice as Ht. rewrite (map_union_empty types) in Ht |- *. fold params. rewrite Ht.
  by rewrite map_union_idemp.
Qed.

Lemma translateFunction_preserves t :
  exists f, translateFunction t fn body defs types = Some f /\ fn_Name f = Cabs.f_Name fn /\ length (fn_Params f) = length (Cabs.f_Params fn) /\
    forall place lit args (m : M), length args = length (Cabs.f_Params fn) ->
      let src := c_function defs fn body in
      let run := c_step (PC := PC) src globals place lit (c_types types defs fn body) defs body (c_return fn) in
      let run' := cl_step (PC := PC) f globals place lit in
      (forall r, terminates run (c_init src body args m) r -> terminates run' (cl_init f args m) r) /\
      (safe run (c_init src body args m) ->
       safe run' (cl_init f args m) /\ forall r, terminates run' (cl_init f args m) r -> terminates run (c_init src body args m) r).
Proof using VT Hfn ok.
  rewrite translateFunction_unfold. set (st0 := mkTransformer _ _ _ _).
  assert (Hwell : well (c_types types defs fn body) defs st0) by done.
  assert (Hok : stmt_ok (c_function defs fn body) globals (c_types types defs fn body) defs (c_return fn) false (Cabs.Block body) = true)
    by (unfold function_ok in ok; rewrite !andb_true_iff in ok; apply ok).
  destruct (transformStmt_run (PC := PC) (c_function defs fn body) globals (fun _ => 0) (fun _ => Vint 0) _ _ _ _ _ Hok st0 Hwell) as (t0 & st1 & E & _).
  unfold transformBlock. rewrite E. eexists. split; [reflexivity|]. split; [done|]. split; [apply length_fmap|].
  intros place lit args m Hlen.
  destruct (transformStmt_over (next_temp analysis.1) _ _ _ _ E) as [Ho _]; [done|].
  assert (Hok0 : stmt_ok (named_function t0) globals (c_types types defs fn body) defs (c_return fn) false (Cabs.Block body) = true) by exact Hok.
  destruct (transformStmt_run (PC := PC) (named_function t0) globals place lit _ _ _ _ _ Hok0 st0 Hwell) as (t1 & st2 & E' & _ & Htr).
  rewrite E in E'. injection E' as <- <-.
  pose proof (function_forward (named_function t0) globals place lit _ defs body (c_return fn) t0 eq_refl Htr args m) as Hf.
  pose proof (function_backward (named_function t0) globals place lit _ defs body (c_return fn) t0 eq_refl Htr args m) as Hb.
  pose proof (function_safe (named_function t0) globals place lit _ defs body (c_return fn) t0 eq_refl Htr args m) as Hs.
  set (temps := SimplLocals.temps analysis.2 ++ tempTypes st1).
  destruct (promotion_preserves (named_function t0) (clight_function t0 temps) globals place lit _ _ (promotion t0 temps Ho) args m) as [Hf2 Hb2];
    [rewrite Hlen; symmetry; apply length_fmap|].
  split; [intros r Hr; by apply Hf2, Hf|]. intros Hsafe. destruct (Hb2 (Hs Hsafe)) as [Hs2 Hb3].
  split; [done|]. intros r Hr. apply Hb; [done|]. by apply Hb3.
Qed.
End Functions.

(** ** Programs *)

(** The functions of a program, with their bodies. *)
Definition function_definitions (p : Cabs.Program) : list (Cabs.FunDef * list Cabs.Stmt) :=
  omap (fun d => match d with Cabs.DFun fn => (fun body => (fn, body)) <$> Cabs.f_Body fn | _ => None end) p.

Definition program_defs (p : Cabs.Program) : gmap string (list Ctypes.Field) :=
  fold_left (fun defs s => <[s.1 := s.2]> defs) (structs_of p) ∅.

(** Definitions the pass reads as C does: types that it knows, which are not
    defined by [typedef], no enumerators, no arrays, and no variables that are
    only declared. *)
Definition definition_ok (d : Cabs.Definition_) : bool :=
  match d with
  | Cabs.DFun fn => known_type (Cabs.f_ReturnType fn) && forallb (fun q => known_type (Cabs.p_TypeSpec q)) (Cabs.f_Params fn)
  | Cabs.DVar d => known_type (Cabs.v_TypeSpec d) && negb (is_declaration d) && match Cabs.v_ArrayDims d with [] => true | _ => false end
  | Cabs.DStruct _ fields | Cabs.DUnion _ fields => forallb (fun f => known_type (Cabs.sf_TypeSpec f)) fields
  | Cabs.DTypedef _ _ _ | Cabs.DEnum _ _ => false
  end.

(** What the pass asks of a program. *)
Definition c_program_ok (p : Cabs.Program) : bool :=
  forallb definition_ok p &&
  forallb (fun fb => function_ok (global_types p) (program_defs p) fb.1 fb.2 (globals_of p)) (function_definitions p).

Section Programs.
  Context {M : Type} `{FO : FloatOps} `{LO : Layout} `{TS : TargetSemantics val M}.
  Context {VT : ValueTarget M} {darwin : bool} {PC : PseudoCalls val M darwin}.
  Context `{NO : NameOrder}.

(** [f] does what C says of the function [fn] with [body]. *)
Definition implements (p : Cabs.Program) (fn : Cabs.FunDef) (body : list Cabs.Stmt) (f : Function) : Prop :=
  forall place lit args (m : M), length args = length (Cabs.f_Params fn) ->
    let src := c_function (program_defs p) fn body in
    let run := c_step (PC := PC) src (globals_of p) place lit (c_types (global_types p) (program_defs p) fn body) (program_defs p) body (c_return fn) in
    let run' := cl_step (PC := PC) f (globals_of p) place lit in
    (forall r, terminates run (c_init src body args m) r -> terminates run' (cl_init f args m) r) /\
    (safe run (c_init src body args m) ->
     safe run' (cl_init f args m) /\ forall r, terminates run' (cl_init f args m) r -> terminates run (c_init src body args m) r).

Lemma function_definition_spec p fn body : (fn, body) ∈ function_definitions p -> Cabs.f_Body fn = Some body.
Proof using.
  unfold function_definitions. intros (d & _ & Hd)%list_elem_of_omap. destruct d as [fn'| | | | |]; try done.
  by apply fmap_Some in Hd as (b & Hb & [= -> ->]).
Qed.

Lemma functions_preserved p ds t :
  forallb (fun fb => function_ok (global_types p) (program_defs p) fb.1 fb.2 (globals_of p)) (function_definitions ds) = true ->
  exists fs, translate_functions t (program_defs p) (global_types p) ds = Some fs /\
    Forall2 (fun fb f => fn_Name f = Cabs.f_Name fb.1 /\ length (fn_Params f) = length (Cabs.f_Params fb.1) /\ implements p fb.1 fb.2 f)
      (function_definitions ds) fs.
Proof using VT.
  revert t. induction ds as [|d ds IH]; intros t Hok; [by exists []|].
  destruct d as [fn| | | | |]; try exact (IH t Hok). cbn [translate_functions]. unfold function_definitions in Hok |- *. cbn [omap list_omap] in Hok |- *.
  destruct (Cabs.f_Body fn) as [body|] eqn:Eb; [|exact (IH t Hok)]. cbn [fmap option_fmap option_map forallb fst snd] in Hok |- *.
  apply andb_true_iff in Hok as [Hf Hok]. destruct (IH (t + 4)%nat Hok) as (fs & E & Hfs).
  destruct (translateFunction_preserves (M := M) (global_types p) (program_defs p) (globals_of p) fn body Eb Hf t) as (f & Ef & Hn & Hl & Hp).
  exists (f :: fs). rewrite Ef. cbn [mbind option_bind]. rewrite E. split; [done|]. by constructor.
Qed.

Lemma generated_preserves p :
  c_program_ok p = true ->
  exists p', TranslateProgram p = Some p' /\ Globals p' = globals_of p /\
    forall i fn body, function_definitions p !! i = Some (fn, body) ->
      exists f, Functions p' !! i = Some f /\ fn_Name f = Cabs.f_Name fn /\ length (fn_Params f) = length (Cabs.f_Params fn) /\
        implements p fn body f.
Proof using VT.
  intros [_ Hok]%andb_true_iff. destruct (functions_preserved p p 0 Hok) as (fs & E & Hfs). unfold TranslateProgram. fold (program_defs p). rewrite E.
  eexists. split; [reflexivity|]. split; [done|]. intros i fn body Hi. destruct (Forall2_lookup_l _ _ _ _ _ Hfs Hi) as (f & Hf & H).
  by exists f.
Qed.

End Programs.

(** ** An example *)

Section Example.
Import Cabs.
Local Open Scope string_scope.

Definition declare_int (x : string) (init : option Expr) : Stmt := DeclStmt [mkDecl "int" x [] init].

(** [int fill(char *p, int n) {
       int i; int s = 0;
       for (i = 0; i < n; i++) { p[(long) i] = (char) n; s = s + (int) *p; }
       return ext(s) + s; }] *)
Definition fill_body : list Stmt :=
  let i := Variable_ "i" in let s := Variable_ "s" in let p := Variable_ "p" in
  [declare_int "i" None; declare_int "s" (Some (Constant 0));
   For (Some (Binary OpAssign i (Constant 0))) [] (Some (Binary OpLt i (Variable_ "n"))) (Some (Unary OpPostInc i))
     (Block [
        Computation (Binary OpAssign (Index p (Cast "long" i)) (Cast "char" (Variable_ "n")));
        Computation (Binary OpAssign s (Binary OpAdd s (Cast "int" (Unary OpDeref p))))]);
   Return (Some (Binary OpAdd (Call (Variable_ "ext") [s]) s))].

Definition fill_def : FunDef := mkFunDef "int" "fill" [mkParam "char*" "p"; mkParam "int" "n"] false (Some fill_body).

Definition fill_program : Program :=
  [DFun (mkFunDef "int" "ext" [mkParam "int" "x"] false None); DVar (mkVarDef "" "int" "total" [] (Some (Constant 7))); DFun fill_def].
End Example.

Definition fill_final : example_memory := <[0 := Vint 1]> (<[1026 := Vint 3]> (<[1025 := Vint 3]> {[1024 := Vint 3]})).


(** ** Where the pass differs from C *)

Section Divergences.
Import Cabs.
Local Open Scope string_scope.

(** A program of one function of [int]s. *)
Definition one_function (params : list string) (body : list Stmt) : FunDef :=
  mkFunDef "int" "f" (mkParam "int" <$> params) false (Some body).

(** [return x ? y && z : 0;] *)
Definition conditional_body : list Stmt :=
  [Return (Some (Conditional (Variable_ "x") (Binary OpAnd (Variable_ "y") (Variable_ "z")) (Constant 0)))].

(** [do continue; while (0); return 1;] *)
Definition do_continue_body : list Stmt := [DoWhile Continue (Constant 0); Return (Some (Constant 1))].
End Divergences.

(** What C says of a function that is the whole program, and what the pass makes
    of it. *)
Definition c_says (fn : Cabs.FunDef) (body : list Cabs.Stmt) (args : list val) (r : rtl_result val example_memory) : Prop :=
  let p := [Cabs.DFun fn] in
  terminates (c_step (PC := example_calls) (c_function ∅ fn body) [] (fun _ => 0) (fun _ => Vint 0) (c_types (global_types p) ∅ fn body) ∅ body (c_return fn))
    (c_init (c_function ∅ fn body) body args ∅) r.

Definition clight_says (f : Function) (args : list val) (r : rtl_result val example_memory) : Prop :=
  terminates (cl_step (PC := example_calls) f [] (fun _ => 0) (fun _ => Vint 0)) (cl_init f args ∅) r.

(** The function that a program of one function becomes. *)
Definition only_function (fn : Cabs.FunDef) : option Function :=
  p ← TranslateProgram (H := list_name_order) [Cabs.DFun fn]; head (Functions p).

(** The branches of a conditional whose branches change nothing lose the
    statements that compute them: where [return x ? y && z : 0;] returns 1, its
    translation returns nothing, since it reads a temporary that is never
    set. *)
Theorem conditional_drops_statements :
  let fn := one_function ["x"; "y"; "z"]%string conditional_body in
  c_says fn conditional_body [Vint 1; Vint 1; Vint 1] (RReturned (Some (Vint 1)) ∅) /\
  exists f, only_function fn = Some f /\ forall r, ~ clight_says f [Vint 1; Vint 1; Vint 1] r.
Proof.
  split; [apply (run_terminates _ 20); vm_compute; reflexivity|].
  eexists. split; [vm_compute; reflexivity|]. intros r. apply (walk_stuck _ 2). vm_compute. reflexivity.
Qed.

(** C38. [continue] in a do-while loop skips the condition: where
    [do continue; while (0); return 1;] returns 1, its translation runs
    forever. *)
Theorem do_continue_runs_forever :
  let fn := one_function [] do_continue_body in
  c_says fn do_continue_body [] (RReturned (Some (Vint 1)) ∅) /\
  exists f, only_function fn = Some f /\ forall r, ~ clight_says f [] r.
Proof.
  split; [apply (run_terminates _ 20); vm_compute; reflexivity|].
  eexists. split; [vm_compute; reflexivity|]. intros r. apply (walk_cycle _ 3 2); [vm_compute; by eexists|vm_compute; reflexivity].
Qed.

(** An assignment between two variables that are pointers to structures makes
    the pass panic: it compares their types with [!=], and types of structures
    hold slices, which cannot be compared. *)
Theorem struct_pointer_assignment_panics x y s1 s2 fields1 fields2 st :
  typeEnv st !! x = Some (Ctypes.Tpointer (Some (Ctypes.Tstruct s1 fields1))) ->
  typeEnv st !! y = Some (Ctypes.Tpointer (Some (Ctypes.Tstruct s2 fields2))) ->
  SimplExpr.TransformExpr (Cabs.Binary Cabs.OpAssign (Cabs.Variable_ x) (Cabs.Variable_ y)) st = None.
Proof.
  intros Hx Hy. cbn -[interface_eq]. unfold mbind, SE_bind, get_type, resolve, mret, SE_ret, GetType. cbn. by rewrite Hx, Hy.
Qed.

Lemma struct_pointer_assignment_panics_witness :
  let node := Ctypes.Tpointer (Some (Ctypes.Tstruct "node" [])) in
  SimplExpr.TransformExpr (Cabs.Binary Cabs.OpAssign (Cabs.Variable_ "p") (Cabs.Variable_ "q"))
    (SetType "p" node (SetType "q" node SimplExpr.New)) = None.
Proof. intros node. apply (struct_pointer_assignment_panics "p" "q" "node" "node" [] []); reflexivity. Defined.

(** ** Constant initializers *)

(** The number that bytes, the lowest first, stand for. *)
Fixpoint le_value (bytes : list Z) : Z :=
  match bytes with [] => 0 | b :: bytes => b + 256 * le_value bytes end.

(** The initializers the pass evaluates, and their values. *)
Fixpoint initial_value (a : Cabs.Expr) : option Z :=
  match a with
  | Cabs.Paren a | Cabs.Unary Cabs.OpPlus a => initial_value a
  | Cabs.Constant n => Some n
  | Cabs.Unary Cabs.OpNeg (Cabs.Constant n) => Some (- n)
  | _ => None
  end.

Lemma little_endian_value size z : le_value (little_endian size z) = z mod 256 ^ Z.of_nat size.
Proof.
  revert z. induction size as [|size IH]; intros z; [by rewrite Z.mod_1_r|]. cbn [little_endian le_value].
  rewrite IH. change 255 with (Z.ones 8). rewrite (Z.land_ones z 8), (Z.shiftr_div_pow2 z 8) by lia. change (2 ^ 8) with 256.
  replace (256 ^ Z.of_nat (Datatypes.S size)) with (256 * 256 ^ Z.of_nat size) by (rewrite <- Z.pow_succ_r by lia; f_equal; lia).
  rewrite Z.rem_mul_r by lia. done.
Qed.

Lemma little_endian_bytes size z : length (little_endian size z) = size /\ Forall (fun b => 0 <= b < 256) (little_endian size z).
Proof.
  revert z. induction size as [|size IH]; intros z; [by split|]. destruct (IH (Z.shiftr z 8)) as [Hl Hb]. cbn [little_endian]. split.
  - cbn. by rewrite Hl.
  - constructor; [|done]. change 255 with (Z.ones 8). rewrite (Z.land_ones z 8) by lia. apply Z.mod_pos_bound. lia.
Qed.

Lemma i64_bytes size z : 0 <= size <= 8 -> i64 z mod 256 ^ size = z mod 256 ^ size.
Proof.
  intros Hs. change 256 with (2 ^ 8). rewrite <- Z.pow_mul_r by lia. unfold i64, wrap.
  replace (2 ^ 64) with (2 ^ (64 - 8 * size) * 2 ^ (8 * size)) by (rewrite <- Z.pow_add_r by lia; f_equal; lia).
  rewrite Zminus_mod, (Z.mod_mod_divide _ _ (2 ^ (8 * size))) by apply Z.divide_factor_r. rewrite <- Zminus_mod. f_equal. lia.
Qed.

(** C36. The bytes of an initialized variable of at most 8 bytes are as many as its
    type has and are, the lowest first, those of the number, of which they keep
    what fits; an initializer that is not an integer constant, with signs and
    parentheses, gives none. *)
Theorem evaluateConstantInitializer_correct a t :
  0 <= SizeofType t <= 8 ->
  match initial_value a with
  | Some n =>
      let bytes := evaluateConstantInitializer a t in
      Z.of_nat (length bytes) = SizeofType t /\ Forall (fun b => 0 <= b < 256) bytes /\
      le_value bytes = n mod 256 ^ SizeofType t
  | None => evaluateConstantInitializer a t = []
  end.
Proof.
  intros Ht. assert (H : forall z, let bytes := little_endian (Z.to_nat (SizeofType t)) z in
    Z.of_nat (length bytes) = SizeofType t /\ Forall (fun b => 0 <= b < 256) bytes /\ le_value bytes = z mod 256 ^ SizeofType t).
  { intros z bytes. destruct (little_endian_bytes (Z.to_nat (SizeofType t)) z) as [Hl Hb]. split; [subst bytes; lia|]. split; [done|].
    subst bytes. rewrite little_endian_value. do 2 f_equal. lia. }
  induction a as [n|b|c|x|op a1 IH|op l r _ _|a1 IH|c u e _ _ _|g args _ _|a1 i _ _|a1 x arrow _|a1 _|u|u a1 _]
    using Cabs.Expr_nested_ind; try done; [apply H|].
  destruct op; try done. destruct a1; try done. cbn. rewrite <- (i64_bytes _ (- _)) by done. apply H.
Qed.

(** [short x = -(3)], with the parentheses around the whole. *)
Lemma evaluateConstantInitializer_correct_witness :
  evaluateConstantInitializer (Cabs.Paren (Cabs.Unary Cabs.OpNeg (Cabs.Constant 3))) Ctypes.Short = [253; 255] /\
  le_value (evaluateConstantInitializer (Cabs.Paren (Cabs.Unary Cabs.OpNeg (Cabs.Constant 3))) Ctypes.Short) = (-3) mod 256 ^ 2.
Proof.
  split; [vm_compute; reflexivity|].
  apply (evaluateConstantInitializer_correct (Cabs.Paren (Cabs.Unary Cabs.OpNeg (Cabs.Constant 3))) Ctypes.Short); vm_compute; by split.
Defined.
