(* ===== verification/CshmgenExpr.v ===== *)
(** Csharpminor generation: the translated expressions compute what the original
    ones do, where the operators and conversions the translator picks are those
    of C. *)

From stdpp Require Import pretty.
From S2P Require Import Prelude Target Semantics RtlSem Structured Values CminorSem.
From S2P Require Import CsharpminorSem CshmgenOps Cshmgen ClightSem.
From S2P Require Ctypes Clight Cminor Csharpminor.

#[local] Existing Instance Cminor.UnaryOp_eq_dec.
#[local] Existing Instance Cminor.BinaryOp_eq_dec.

(** ** Operators *)

(** The operators of [extendToLong]. *)
Definition extension (t : Type_) (signed : bool) : list Cminor.UnaryOp :=
  match t with
  | Some (Ctypes.Tlong _) => []
  | Some (Ctypes.Tint _ Ctypes.Unsigned) => [Cminor.Olongofintu]
  | _ => [if signed then Cminor.Olongofint else Cminor.Olongofintu]
  end.

(** What the code of a binary operator does. *)
Definition translated_plan (op : Clight.BinaryOp) (t1 t2 : Type_) : plan :=
  let '(op', cmp) := TranslateBinaryOp op t1 t2 in
  if IsComparisonOp op then
    let signed := bool_decide (op' = Cminor.Ocmpl) in
    if signed || bool_decide (op' = Cminor.Ocmplu) then
      mkPlan (extension t1 signed) (extension t2 signed) op' (Some cmp)
    else mkPlan [] [] op' (Some cmp)
  else mkPlan [] [] op' None.

(** Pointers to bytes move by what is added to them. *)
Definition byte_pointer (op : Clight.BinaryOp) (t1 t2 : Type_) : bool :=
  match op, t1, t2 with
  | (Clight.Oadd | Clight.Osub), Some (Ctypes.Tpointer elem), Some (Ctypes.Tlong _)
  | Clight.Oadd, Some (Ctypes.Tlong _), Some (Ctypes.Tpointer elem)
  | Clight.Osub, Some (Ctypes.Tpointer elem), Some (Ctypes.Tpointer _) => sizeofType elem =? 1
  | _, _, _ => false
  end.

Definition binop_ok (op : Clight.BinaryOp) (t1 t2 : Type_) : bool :=
  bool_decide (binop_plan op t1 t2 = Some (translated_plan op t1 t2)) || byte_pointer op t1 t2.

Definition unop_ok (op : Clight.UnaryOp) (t : Type_) : bool :=
  match op with Clight.Onotbool => is_int t | Clight.Oabsfloat => false | _ => true end.

Definition cast_ok (from to : Type_) : bool :=
  negb (is_bool to && negb (type_equal from to)) &&
  bool_decide (cast_conversion from to = Some (option_list (TranslateCast from to))).

Section Operators.
  Context {M : Type} `{FO : FloatOps} `{LO : Layout} `{TS : TargetSemantics val M} {VT : ValueTarget M}.
  Context (f : Csharpminor.Function) (gs : list Csharpminor.VarDecl) (place : string -> Z) (args : gmap string val).
  Context (e : gmap Z val) (m : M).
  Local Abbreviation value := (cs_expr f gs place args e m).

Lemma extend_run a v t signed : value a = Some v -> value (extendToLong a t signed) = run_ops (extension t signed) v.
Proof using.
  intros Hv. unfold extendToLong, extension. destruct t as [[|? []| | | | | | |]|]; try destruct signed;
    cbn; rewrite Hv; cbn; try done; by destruct v.
Qed.

Lemma cast_run a v from to : value a = Some v -> value (cast from to a) = run_ops (option_list (TranslateCast from to)) v.
Proof using.
  intros Hv. unfold cast. destruct (TranslateCast from to) as [op|]; cbn; [|done]. rewrite Hv. cbn.
  by destruct (eval_unop op v).
Qed.

Lemma binop_run op t1 t2 a1 a2 v1 v2 :
  value a1 = Some v1 -> value a2 = Some v2 -> value (binop op t1 t2 a1 a2) = run_plan (translated_plan op t1 t2) v1 v2.
Proof using.
  intros H1 H2. unfold binop, translated_plan. destruct (TranslateBinaryOp op t1 t2) as [op' cmp].
  destruct (IsComparisonOp op); [destruct (bool_decide (op' = Cminor.Ocmpl) || bool_decide (op' = Cminor.Ocmplu))|];
    unfold run_plan; cbn; rewrite ?(extend_run a1 v1), ?(extend_run a2 v2), ?H1, ?H2 by done; done.
Qed.

Lemma byte_pointer_run op t1 t2 a1 a2 v1 v2 v :
  byte_pointer op t1 t2 = true -> value a1 = Some v1 -> value a2 = Some v2 -> sem_binop op t1 t2 v1 v2 = Some v ->
  value (binop op t1 t2 a1 a2) = Some v.
Proof using.
  intros Hb H1 H2. rewrite (binop_run op t1 t2 a1 a2 v1 v2 H1 H2).
  destruct op; try done;
    destruct t1 as [[| |s1| |elem1| | | |]|]; try done; destruct t2 as [[| |s2| |elem2| | | |]|]; try done;
    apply Z.eqb_eq in Hb; unfold sem_binop; cbn; unfold distance; cbn; unfold to_address, conversion; cbn;
    destruct v1, v2; try done; cbn; rewrite ?Hb, ?Z.mul_1_r, ?(Z.add_comm n0 n); try done.
  unfold IntOps.guard_div. cbn. by rewrite Z.quot_1_r, i64_id by apply i64_range.
Qed.

(** Where the translator's choice is that of C, so is the result. *)
Lemma binop_ok_run op t1 t2 a1 a2 v1 v2 v :
  binop_ok op t1 t2 = true -> value a1 = Some v1 -> value a2 = Some v2 -> sem_binop op t1 t2 v1 v2 = Some v ->
  value (binop op t1 t2 a1 a2) = Some v.
Proof using.
  unfold binop_ok. rewrite orb_true_iff, bool_decide_eq_true. intros [Hp|Hb] H1 H2 Hv; [|by eapply byte_pointer_run].
  rewrite (binop_run op t1 t2 a1 a2 v1 v2 H1 H2). unfold sem_binop in Hv. by rewrite Hp in Hv.
Qed.

Lemma unop_ok_run op t a u v :
  unop_ok op t = true -> value a = Some u -> sem_unop op t u = Some v ->
  value (Csharpminor.Eunop (TranslateUnaryOp op t) a) = Some v.
Proof using.
  intros Ho Ha Hv. cbn. rewrite Ha. cbn.
  destruct op; try done; destruct t as [[|[] ?|?|[]|?|? ?|? ? ?|? ?|? ?]|]; try done;
    destruct u; try done; cbn in *; by rewrite negb_involutive in Hv.
Qed.

Lemma cast_ok_run from to a u v :
  cast_ok from to = true -> value a = Some u -> sem_cast from to u = Some v -> value (cast from to a) = Some v.
Proof using.
  unfold cast_ok, sem_cast. rewrite andb_true_iff, negb_true_iff, bool_decide_eq_true. intros [-> Hc] Ha Hv.
  rewrite (cast_run a u) by done. by rewrite Hc in Hv.
Qed.
End Operators.

(** ** What the translation of expressions supports *)

(** Could [x] be the label of a string literal? *)
Definition label_like (x : string) : bool := String.prefix ".Lstr" x.

Lemma string_label_like n : label_like (string_label n) = true.
Proof. unfold label_like, string_label. cbn. by destruct (pretty n). Qed.

Definition by_value (t : Type_) : bool := match access_mode t with ByValue _ => true | _ => false end.

Lemma by_value_chunk t c : access_mode t = ByValue c -> chunk_for t = c.
Proof. destruct t as [[|[] []|[]|[]|?|? ?|? ? ?|? ?|? ?]|]; cbn; congruence. Qed.

Section Supported.
  Context (f : Clight.Function) (gs : list Clight.VarDecl) (defs : gmap string (list Ctypes.Field)).

Definition params : gset string := list_to_set (Clight.vd_Name <$> Clight.fn_Params f).
Definition modified : gset string := scanForModifiedParams params (Clight.fn_Body f) ∅.

(** The temporaries that will shadow parameters. *)
Definition shadow_id (id : Z) : bool :=
  let n := Z.of_nat (length (Clight.fn_Temps f)) in (n <=? id) && (id <? n + Z.of_nat (size modified)).

Definition decl_of : Clight.VarDecl -> Csharpminor.VarDecl := fun d => translate_decl defs d [].

(** A variable is read as its declaration says. *)
Definition read_ok (d : Clight.VarDecl) (t : Type_) : bool :=
  match access_mode t, decl_chunk (decl_of d) with
  | ByValue c, Some c' => bool_decide (c = c')
  | _, _ => false
  end.

Definition variable_ok (x : string) (t : Type_) : bool :=
  match find_name Clight.vd_Name x (Clight.fn_Locals f) with
  | Some d => read_ok d t
  | None =>
      if is_param f x then true
      else match find_name Clight.vd_Name x gs with
           | Some d => read_ok d t
           | None => negb (by_value t) && negb (label_like x)
           end
  end.

Definition const_ok (n : Z) (t : Type_) : bool :=
  match promoted t with
  | Some (AInt _) => (-2147483648 <=? n) && (n <=? 2147483647)
  | Some (ALong _) => i64 n =? n
  | _ => false
  end.

Fixpoint expr_ok (a : Clight.Expr) : bool :=
  match a with
  | Clight.Econst_int n t => const_ok n t
  | Clight.Evar x t => variable_ok x t
  | Clight.Etempvar id _ => negb (shadow_id id)
  | Clight.Ederef a t => by_value t && expr_ok a
  | Clight.Eaddrof a _ => lvalue_ok a
  | Clight.Eunop op a _ => unop_ok op (Clight.ExprType a) && expr_ok a
  | Clight.Ebinop op a1 a2 _ => binop_ok op (Clight.ExprType a1) (Clight.ExprType a2) && expr_ok a1 && expr_ok a2
  | Clight.Ecast a t => cast_ok (Clight.ExprType a) t && expr_ok a
  | Clight.Efield a _ t => by_value t && lvalue_ok a
  | _ => true
  end
with lvalue_ok (a : Clight.Expr) : bool :=
  match a with
  | Clight.Evar _ _ => true
  | Clight.Ederef a _ => expr_ok a
  | Clight.Efield a _ _ => lvalue_ok a
  | _ => false
  end.

(** Calls: of a function that is named, or of an address that is read. *)
Definition callee_ok (a : Clight.Expr) : bool :=
  match a with
  | Clight.Evar x t =>
      match function_name f gs a with Some _ => negb (label_like x) | None => variable_ok x t end
  | Clight.Eaddrof (Clight.Evar _ _) _ => true
  | Clight.Etempvar _ _ | Clight.Ederef _ _ | Clight.Efield _ _ _ => expr_ok a
  | _ => false
  end.

(** No parameter has the name of a local variable, and names are distinct. *)
Definition names_ok : bool :=
  bool_decide (NoDup (Clight.vd_Name <$> Clight.fn_Locals f)) &&
  forallb (fun x => negb (is_local f x)) (Clight.vd_Name <$> Clight.fn_Params f).
End Supported.

(** ** Names *)

Section Names.
  Context (f : Clight.Function) (gs : list Clight.VarDecl) (defs : gmap string (list Ctypes.Field)).
  Context (extra : list Csharpminor.VarDecl) (extra_labels : Forall (fun d => label_like (Csharpminor.vd_Name d) = true) extra).
  Context (f' : Csharpminor.Function).
  Context (same_locals : Csharpminor.fn_Locals f' = decl_of defs <$> Clight.fn_Locals f).
  Context (same_params : Csharpminor.fn_Params f' = Clight.vd_Name <$> Clight.fn_Params f).

Definition global_of (d : Clight.VarDecl) : Csharpminor.VarDecl := translate_decl defs d (Clight.vd_Init d).

(** The global variables of the result: those of the program, and others that
    have labels for names. *)
Definition all_globals : list Csharpminor.VarDecl := (global_of <$> gs) ++ extra.

Lemma find_translated (g : Clight.VarDecl -> Csharpminor.VarDecl) x ds rest :
  (forall d, Csharpminor.vd_Name (g d) = Clight.vd_Name d) ->
  find_decl x ((g <$> ds) ++ rest) =
    match find_name Clight.vd_Name x ds with Some d => Some (g d) | None => find_decl x rest end.
Proof using.
  intros Hg. unfold find_decl. change (snd <$> list_find _ ?l) with (find_name Csharpminor.vd_Name x l).
  induction ds as [|d ds IH]; [done|]. cbn [fmap list_fmap app]. rewrite !find_name_cons, Hg.
  by destruct (decide (Clight.vd_Name d = x)).
Qed.

Lemma is_local_find x : is_local f x = match find_name Clight.vd_Name x (Clight.fn_Locals f) with Some _ => true | None => false end.
Proof using.
  unfold is_local. destruct (find_name _ x _) as [d|] eqn:E.
  - apply find_name_Some in E as [Hd <-]. apply bool_decide_eq_true_2. by apply list_elem_of_fmap_2.
  - apply find_name_None in E. by apply bool_decide_eq_false_2.
Qed.

Lemma meaning_of x :
  name_meaning f' all_globals x =
    match find_name Clight.vd_Name x (Clight.fn_Locals f) with
    | Some d => MLocal (decl_of defs d)
    | None =>
        if is_param f x then MParam
        else match find_name Clight.vd_Name x gs with
             | Some d => MGlobal (global_of d)
             | None => match find_decl x extra with Some d => MGlobal d | None => MSymbol end
             end
    end.
Proof using same_locals same_params.
  unfold name_meaning. rewrite same_locals, same_params, <- (app_nil_r (decl_of defs <$> _)), find_translated by done.
  unfold is_param. rewrite is_local_find.
  destruct (find_name _ x (Clight.fn_Locals f)) as [d|]; [done|]. cbn [negb andb]. rewrite decide_bool_decide.
  change (find_decl x []) with (@None Csharpminor.VarDecl). cbn [snd fmap option_fmap option_map].
  destruct (bool_decide _); [done|]. unfold all_globals. rewrite find_translated by done. by destruct (find_name _ x gs).
Qed.

Lemma extra_none x : label_like x = false -> find_decl x extra = None.
Proof using extra_labels.
  intros Hx. apply (find_name_None Csharpminor.vd_Name). intros (d & -> & Hd)%list_elem_of_fmap_1.
  rewrite Forall_forall in extra_labels. rewrite extra_labels in Hx; done.
Qed.
End Names.

(** ** Translations that succeed *)

Section Gives.
  Context `{LO : Layout} (lit : string -> val) (temps : gmap string Z).

Definition at_label (l : StringLiteral) : Prop := lit (Value l) = symbol_offset (Label l) 0.
Definition labelled (l : StringLiteral) : Prop := label_like (Label l) = true.

(** [x] does not panic; it adds string literals; and its result satisfies [P],
    if the literals are at the addresses of their labels. *)
Definition gives {A} (x : CM A) (P : A -> Prop) : Prop :=
  forall st, paramTemps st = temps -> exists a st', x st = Some (a, st') /\ paramTemps st' = temps /\
    strings st `prefix_of` strings st' /\ (Forall labelled (strings st) -> Forall labelled (strings st')) /\
    (Forall at_label (strings st') -> P a).

Lemma gives_ret {A} (a : A) (P : A -> Prop) : P a -> gives (mret a) P.
Proof using. intros Ha st Hst. by exists a, st. Qed.

Lemma gives_bind {A B} (x : CM A) (f : A -> CM B) (P : A -> Prop) (Q : B -> Prop) :
  gives x P -> (forall a, gives (f a) (fun b => P a -> Q b)) -> gives (x ≫= f) Q.
Proof using.
  intros Hx Hf st Hst. destruct (Hx st Hst) as (a & st1 & E1 & Hst1 & Hp1 & Hl1 & Ha).
  destruct (Hf a st1 Hst1) as (b & st2 & E2 & Hst2 & Hp2 & Hl2 & Hb). exists b, st2.
  unfold mbind, CM_bind. rewrite E1. cbn. split; [exact E2|]. split; [done|]. split; [by etrans|]. split; [by auto|].
  intros Hs. apply Hb; [done|]. apply Ha. destruct Hp2 as [l E]. rewrite E in Hs. by apply Forall_app in Hs as [? _].
Qed.

Lemma gives_impl {A} (x : CM A) (P Q : A -> Prop) : gives x P -> (forall a, P a -> Q a) -> gives x Q.
Proof using.
  intros Hx HPQ st Hst. destruct (Hx st Hst) as (a & st1 & E1 & Hst1 & Hp1 & Hl1 & Ha).
  exists a, st1. repeat (split; [done|]). auto.
Qed.

Lemma gives_map {A B} (x : CM A) (f : A -> B) (P : A -> Prop) (Q : B -> Prop) :
  gives x P -> (forall a, P a -> Q (f a)) -> gives (a ← x; mret (f a)) Q.
Proof using. intros Hx HPQ. eapply gives_bind; [exact Hx|]. intros a. by apply gives_ret, HPQ. Qed.

Lemma gives_string s : gives (translateString s) (fun a => exists l, a = Csharpminor.Econst (Csharpminor.Oaddrsymbol l 0) /\ lit s = symbol_offset l 0).
Proof using.
  intros st Hst. eexists _, _. split; [reflexivity|]. cbn. split; [done|]. split; [by apply prefix_app_r|].
  split; intros Hs.
  - apply Forall_app. split; [done|]. apply Forall_singleton. apply string_label_like.
  - apply Forall_app in Hs as [_ Hs]. eexists. split; [reflexivity|]. by inversion Hs.
Qed.
End Gives.

(** ** Expressions *)

Section Expressions.
  Context {M : Type} `{FO : FloatOps} `{LO : Layout} `{TS : TargetSemantics val M}.
  Context {VT : ValueTarget M}.
  Context (f : Clight.Function) (gs : list Clight.VarDecl) (defs : gmap string (list Ctypes.Field)).
  Context (extra : list Csharpminor.VarDecl) (extra_labels : Forall (fun d => label_like (Csharpminor.vd_Name d) = true) extra).
  Context (f' : Csharpminor.Function).
  Context (same_locals : Csharpminor.fn_Locals f' = decl_of defs <$> Clight.fn_Locals f).
  Context (same_params : Csharpminor.fn_Params f' = Clight.vd_Name <$> Clight.fn_Params f).
  Context (place : string -> Z) (lit : string -> val) (args : gmap string val) (temps : gmap string Z).
  Context (temps_params : forall x id, temps !! x = Some id -> is_param f x = true /\ shadow_id f id = true).
  Implicit Types (e : gmap Z val) (ps : gmap string val) (m : M).
  Local Abbreviation globals' := (all_globals gs defs extra).

(** Temporaries have the same values, apart from those that shadow
    parameters. *)
Definition env_rel e ps (e' : gmap Z val) : Prop :=
  (forall id v, shadow_id f id = false -> e !! id = Some v -> e' !! id = Some v) /\
  (forall x v, is_param f x = true -> ps !! x = Some v ->
     match temps !! x with Some id => e' !! id = Some v | None => args !! x = Some v end).

Definition simulates (a : Clight.Expr) (a' : Csharpminor.Expr) : Prop :=
  forall e ps e' m v, env_rel e ps e' -> cl_expr f place lit e ps m a = Some v -> cs_expr f' globals' place args e' m a' = Some v.

Definition simulates_lvalue (a : Clight.Expr) (a' : Csharpminor.Expr) : Prop :=
  forall e ps e' m v, env_rel e ps e' -> cl_lvalue f place lit e ps m a = Some v -> cs_expr f' globals' place args e' m a' = Some v.

Lemma const_simulates n t : const_ok n t = true -> simulates (Clight.Econst_int n t) (translateConstInt n t).
Proof using.
  intros Hok e ps e' m v _ Hv. cbn in *. unfold const_at, const_ok, translateConstInt in *.
  destruct t as [[|[] []|[]|[]|?|? ?|? ? ?|? ?|? ?]|]; try done; cbn in *; injection Hv as <-;
    try (apply andb_true_iff in Hok as [H1%Z.leb_le H2%Z.leb_le]; rewrite (proj2 (Z.ltb_ge _ _) H1), (proj2 (Z.ltb_ge _ _) H2); done);
    apply Z.eqb_eq in Hok; by rewrite Hok.
Qed.

Lemma access_by_value t a m c : access_mode t = ByValue c -> access t a m = eval_load_at c a m.
Proof using. unfold access. by intros ->. Qed.

Lemma read_simulates d t p m v : read_ok defs d t = true -> access t p m = Some v ->
  (chunk ← decl_chunk (decl_of defs d); eval_load_at chunk p m) = Some v.
Proof using.
  unfold read_ok, access. destruct (access_mode t); try done. destruct (decl_chunk _); [|done].
  by intros ->%bool_decide_eq_true.
Qed.

Lemma param_find x : is_param f x = true -> find_name Clight.vd_Name x (Clight.fn_Locals f) = None.
Proof using. unfold is_param. rewrite is_local_find. by destruct (find_name _ x _). Qed.

Lemma shadow_simulates x t id : temps !! x = Some id -> simulates (Clight.Evar x t) (Csharpminor.Etempvar id).
Proof using temps_params.
  intros Hid e ps e' m v [_ Hps] Hv. destruct (temps_params x id Hid) as [Hp _].
  cbn in Hv. rewrite Hp in Hv. specialize (Hps x v Hp Hv). by rewrite Hid in Hps.
Qed.

Lemma var_simulates x t : variable_ok f gs defs x t = true -> simulates (Clight.Evar x t) (translateVar temps x).
Proof using extra_labels same_locals same_params temps_params.
  intros Hok. unfold translateVar. destruct (temps !! x) as [id|] eqn:Hid; [by apply shadow_simulates|].
  intros e ps e' m v [_ Hps] Hv. cbn in *. unfold cs_var. rewrite (meaning_of f gs defs) by done.
  unfold variable_ok in Hok. unfold cl_address in Hv. rewrite is_local_find in Hv.
  destruct (find_name _ x (Clight.fn_Locals f)) as [d|] eqn:Hl.
  - assert (is_param f x = false) as Hp by (unfold is_param; by rewrite is_local_find, Hl).
    rewrite Hp in Hv. by eapply read_simulates.
  - destruct (is_param f x) eqn:Hp.
    + specialize (Hps x v Hp Hv). by rewrite Hid in Hps.
    + cbn in Hv. destruct (find_name _ x gs) as [d|] eqn:Hg; [by eapply (read_simulates d)|].
      apply andb_true_iff in Hok as [Hb%negb_true_iff Hx%negb_true_iff]. rewrite extra_none by done.
      unfold by_value, access in *. destruct (access_mode t); try done.
Qed.

Lemma address_simulates x t : simulates_lvalue (Clight.Evar x t) (Csharpminor.Eaddrof x).
Proof using same_locals same_params.
  intros e ps e' m v _ Hv. cbn in *. unfold cs_address. rewrite (meaning_of f gs defs) by done.
  unfold cl_address in Hv. rewrite is_local_find in Hv. destruct (find_name _ x (Clight.fn_Locals f)); [done|].
  destruct (is_param f x); [done|]. destruct (find_name _ x gs); [done|]. by destruct (find_decl x extra).
Qed.

Lemma load_simulates t p m v : by_value t = true -> access t p m = Some v -> eval_load_at (chunk_for t) p m = Some v.
Proof using.
  unfold by_value. destruct (access_mode t) as [c| |] eqn:E; try done. intros _. rewrite (access_by_value t p m c) by done.
  by rewrite (by_value_chunk t c).
Qed.

Lemma field_simulates t name p ofs q a e' m :
  cs_expr f' globals' place args e' m a = Some p -> field_place t name = Some ofs -> move_address p ofs = Some q ->
  cs_expr f' globals' place args e' m (add_offset a (fieldOffset t name)) = Some q.
Proof using.
  intros Ha Hofs Hq. assert (fieldOffset t name = ofs) as ->.
  { destruct t as [[| | | | | | |? fields|? fields]|]; try done; cbn in *; [by rewrite Hofs|]. destruct (decide _); congruence. }
  destruct p as [|p| |]; try done. cbn in Hq. unfold add_offset. destruct (ofs =? 0).
  - by injection Hq as <-.
  - cbn. rewrite Ha. cbn. by injection Hq as <-.
Qed.

Local Abbreviation ok := (expr_ok f gs defs).
Local Abbreviation lok := (lvalue_ok f gs defs).
Local Abbreviation gives := (gives lit temps).

Lemma translate_ok a :
  (ok a = true -> gives (TranslateExpr temps a) (simulates a)) /\
  (lok a = true -> gives (translateLvalueAddr temps a) (simulates_lvalue a)).
Proof using extra_labels same_locals same_params temps_params.
  induction a as [n t|b t|n t|b t|s t|x t|id t|a [IHe _] t|a [_ IHl] t|op a [IHe _] t|op a1 [IH1 _] a2 [IH2 _] t|a [IHe _] t|a [_ IHl] name t|ty t|ty t];
    (split; [intros Hok|intros Hlok; try done]); cbn [expr_ok lvalue_ok TranslateExpr translateLvalueAddr] in *;
    destruct_andb.
  - by apply gives_ret, const_simulates.
  - apply gives_ret. by intros e ps e' m v _ [= <-].
  - apply gives_ret. by intros e ps e' m v _ [= <-].
  - apply gives_ret. by intros e ps e' m v _ [= <-].
  - eapply gives_impl; [apply gives_string|]. intros a (l & -> & Hl) e ps e' m v _ Hv. cbn in *. by rewrite <- Hl.
  - by apply gives_ret, var_simulates.
  - apply gives_ret, address_simulates.
  - apply gives_ret. intros e ps e' m v [HR _] Hv. apply HR; [by apply negb_true_iff|done].
  - eapply gives_map; [by apply IHe|]. intros a' Ha e ps e' m v HR Hv. cbn in *.
    destruct (cl_expr f place lit e ps m a) as [p|] eqn:Ep; [|done]. rewrite (Ha e ps e' m p HR Ep). by apply load_simulates.
  - by apply IHe.
  - eapply gives_impl; [by apply IHl|]. intros a' Ha e ps e' m v HR Hv. by eapply Ha.
  - eapply gives_map; [by apply IHe|]. intros a' Ha e ps e' m v HR Hv. cbn in Hv.
    destruct (cl_expr f place lit e ps m a) as [u|] eqn:Eu; [|done]. eapply unop_ok_run; [done|by eapply Ha|exact Hv].
  - eapply gives_bind; [by apply IH1|]. intros a1'. eapply gives_map; [by apply IH2|].
    intros a2' Ha2 Ha1 e ps e' m v HR Hv. cbn in Hv.
    destruct (cl_expr f place lit e ps m a1) as [u1|] eqn:E1; [|done]. destruct (cl_expr f place lit e ps m a2) as [u2|] eqn:E2; [|done].
    eapply binop_ok_run; [done|by eapply Ha1|by eapply Ha2|exact Hv].
  - eapply gives_map; [by apply IHe|]. intros a' Ha e ps e' m v HR Hv. cbn in Hv.
    destruct (cl_expr f place lit e ps m a) as [u|] eqn:Eu; [|done]. eapply cast_ok_run; [done|by eapply Ha|exact Hv].
  - eapply gives_map; [by apply IHl|]. intros a' Ha e ps e' m v HR Hv. rewrite ?field_value, ?field_address in Hv.
    destruct (cl_lvalue f place lit e ps m a) as [p|] eqn:Ep; [|done]. cbn in Hv.
    destruct (field_place (Clight.ExprType a) name) as [ofs|] eqn:Eo; [|done]. cbn in Hv.
    destruct (move_address p ofs) as [q|] eqn:Eq; [|done]. cbn [cs_expr].
    rewrite (field_simulates _ _ p ofs q a' e' m) by (done || by apply (Ha e ps)). by apply load_simulates.
  - eapply gives_map; [by apply IHl|]. intros a' Ha e ps e' m v HR Hv. rewrite ?field_value, ?field_address in Hv.
    destruct (cl_lvalue f place lit e ps m a) as [p|] eqn:Ep; [|done]. cbn in Hv.
    destruct (field_place (Clight.ExprType a) name) as [ofs|] eqn:Eo; [|done]. cbn in Hv.
    apply (field_simulates _ _ p ofs v a' e' m); [by apply (Ha e ps)|done..].
  - apply gives_ret. by intros e ps e' m v _ [= <-].
  - apply gives_ret. by intros e ps e' m v _ [= <-].
Qed.
End Expressions.
