(* ===== verification/CshmgenProof.v ===== *)
(** Csharpminor generation: what is translated of statements, and how a
    statement and its translation are related.
    Csharpminor generation: a function and its translation take the same
    steps. *)

From S2P Require Import Prelude Target Semantics RtlSem Structured Values CminorSem CsharpminorSem CshmgenOps.
From S2P Require Import Cshmgen ClightSem CshmgenExpr CminorgenPass.
From S2P Require Ctypes Clight Cminor Csharpminor.

(** ** What the translation of statements supports *)

(** Control does not go on to what follows the statement. *)
Fixpoint leaves (s : Clight.Stmt) : bool :=
  match s with
  | Clight.Sbreak | Clight.Scontinue | Clight.Sreturn _ | Clight.Sgoto _ => true
  | Clight.Ssequence _ s => leaves s
  | Clight.Sifthenelse _ s1 s2 => leaves s1 && leaves s2
  | Clight.Slabel _ s => leaves s
  | _ => false
  end.

Section Supported.
  Context (f : Clight.Function) (gs : list Clight.VarDecl) (defs : gmap string (list Ctypes.Field)).
  Local Abbreviation expr_ok := (expr_ok f gs defs).

Definition result_ok (r : option Z) : bool := match r with Some id => negb (shadow_id f id) | None => true end.

Definition assign_ok (lhs : Clight.Expr) : bool :=
  match param_name f lhs with
  | Some _ => true
  | None => by_value (Clight.ExprType lhs) && lvalue_ok f gs defs lhs
  end.

(** [b] and [c]: whether a break and a continue may leave the statement. A
    switch is not left by a break, and without breaks no case may fall
    through. *)
Fixpoint stmt_ok (b c : bool) (s : Clight.Stmt) : bool :=
  match s with
  | Clight.Sskip | Clight.Sgoto _ | Clight.Sreturn None => true
  | Clight.Sassign lhs rhs => assign_ok lhs && expr_ok rhs
  | Clight.Sset id a => negb (shadow_id f id) && expr_ok a
  | Clight.Scall r g args => result_ok r && callee_ok f gs defs g && forallb expr_ok args
  | Clight.Sbuiltin r _ args => result_ok r && forallb expr_ok args
  | Clight.Ssequence s1 s2 => stmt_ok b c s1 && stmt_ok b c s2
  | Clight.Sifthenelse a s1 s2 => is_int (Clight.ExprType a) && expr_ok a && stmt_ok b c s1 && stmt_ok b c s2
  | Clight.Sloop s1 s2 => stmt_ok true true s1 && stmt_ok false false s2
  | Clight.Sbreak => b
  | Clight.Scontinue => c
  | Clight.Sreturn (Some a) => expr_ok a
  | Clight.Sswitch a cases d hasBreak =>
      expr_ok a && forallb (fun sc => stmt_ok false c sc.2) cases && stmt_ok false c d &&
      (hasBreak || forallb (fun sc => leaves sc.2) cases)
  | Clight.Slabel _ s => stmt_ok b c s
  end.
End Supported.

(** ** Assigned parameters *)

Lemma scan_union X0 s X : scanForModifiedParams X0 s X = X ∪ scanForModifiedParams X0 s ∅.
Proof.
  revert X. induction s as [|l r|id r|r g es|r b es|s1 s2 IH1 IH2|c s1 s2 IH1 IH2|s1 s2 IH1 IH2| | |a|a cases d h Hcases IHd|l s IH|l]
    using Clight.Stmt_nested_ind; intros X; cbn [scanForModifiedParams]; try set_solver.
  - destruct l; try set_solver. destruct (decide _); set_solver.
  - set (scan_cases := fold_left (fun X sc => scanForModifiedParams X0 sc.2 X) cases).
    rewrite (IHd (scan_cases X)), (IHd (scan_cases ∅)).
    enough (scan_cases X = X ∪ scan_cases ∅) by set_solver. subst scan_cases. clear IHd. revert X.
    induction Hcases as [|sc cases Hs _ IH]; intros X; cbn [fold_left]; [set_solver|].
    rewrite (IH (scanForModifiedParams _ sc.2 X)), (IH (scanForModifiedParams _ sc.2 ∅)), (Hs X). set_solver.
Qed.

Lemma scan_cases X0 (cases : list Clight.SwitchCase) X x :
  let found := fold_left (fun X sc => scanForModifiedParams X0 sc.2 X) cases X in
  (x ∈ X -> x ∈ found) /\ forall sc, sc ∈ cases -> x ∈ scanForModifiedParams X0 sc.2 ∅ -> x ∈ found.
Proof.
  revert X. induction cases as [|sc cases IH]; intros X; cbn [fold_left].
  - split; [done|]. by intros sc H%elem_of_nil.
  - destruct (IH (scanForModifiedParams X0 sc.2 X)) as [H1 H2]. rewrite (scan_union X0 sc.2 X) in *. split.
    + intros Hx. apply H1, elem_of_union. by left.
    + intros sc' [->|Hin]%elem_of_cons Hx; [apply H1, elem_of_union; by right|by eapply H2].
Qed.

(** ** Calls *)

Section Statements.
  Context {M : Type} `{FO : FloatOps} `{LO : Layout} `{TS : TargetSemantics val M}.
  Context {VT : ValueTarget M}.
  Context (f : Clight.Function) (gs : list Clight.VarDecl) (defs : gmap string (list Ctypes.Field)).
  Context (extra : list Csharpminor.VarDecl) (extra_labels : Forall (fun d => label_like (Csharpminor.vd_Name d) = true) extra).
  Context (f' : Csharpminor.Function).
  Context (same_locals : Csharpminor.fn_Locals f' = decl_of defs <$> Clight.fn_Locals f).
  Context (same_params : Csharpminor.fn_Params f' = Clight.vd_Name <$> Clight.fn_Params f).
  Context (place : string -> Z) (lit : string -> val) (args : gmap string val) (temps : gmap string Z).
  Context (temps_params : forall x id, temps !! x = Some id -> is_param f x = true /\ shadow_id f id = true).
  Context (names : names_ok f = true).
  Implicit Types (e : gmap Z val) (ps : gmap string val) (m : M).
  Local Abbreviation globals' := (all_globals gs defs extra).
  Local Abbreviation gives := (gives lit temps).
  Local Abbreviation simulates := (simulates (M := M) f gs defs extra f' place lit args temps).
  Local Abbreviation simulates_lvalue := (simulates_lvalue (M := M) f gs defs extra f' place lit args temps).
  Local Abbreviation env_rel := (env_rel f args temps).
  Local Abbreviation translate_ok := (translate_ok (M := M) f gs defs extra extra_labels f' same_locals same_params place lit args temps temps_params).

Definition calls (g : Clight.Expr) (g' : Csharpminor.Expr) : Prop :=
  forall e ps e' m fv, env_rel e ps e' -> cl_callee f gs place lit e ps m g = Some fv ->
    cs_callee f' globals' place args e' m g' = Some fv.

Lemma calls_address g g' :
  function_name f gs g = None -> named_symbol f' globals' g' = None -> simulates g g' -> calls g g'.
Proof using.
  intros Hg Hg' Hs e ps e' m fv HR Hf. unfold cl_callee in Hf. rewrite Hg in Hf. unfold cs_callee. rewrite Hg'.
  destruct (cl_expr f place lit e ps m g) as [v|] eqn:Ev; [|done]. rewrite (Hs e ps e' m v HR Ev). exact Hf.
Qed.

Lemma calls_symbol g g' x : function_name f gs g = Some x -> named_symbol f' globals' g' = Some x -> calls g g'.
Proof using.
  intros Hg Hg' e ps e' m fv HR Hf. unfold cl_callee in Hf. rewrite Hg in Hf. unfold cs_callee. by rewrite Hg'.
Qed.

Lemma var_meaning x : is_local f x = false -> is_param f x = false ->
  name_meaning f' globals' x =
    match find_name Clight.vd_Name x gs with
    | Some d => MGlobal (global_of defs d)
    | None => match find_decl x extra with Some d => MGlobal d | None => MSymbol end
    end.
Proof using same_locals same_params.
  intros Hl Hp. rewrite (meaning_of f gs defs) by done. rewrite is_local_find in Hl.
  destruct (find_name _ x (Clight.fn_Locals f)); [done|]. by rewrite Hp.
Qed.

Lemma is_global_find x : is_local f x = false -> is_param f x = false ->
  is_global f gs x = match find_name Clight.vd_Name x gs with Some _ => true | None => false end.
Proof using.
  intros Hl Hp. unfold is_global. rewrite Hl, Hp. cbn. destruct (find_name _ x gs) as [d|] eqn:E.
  - apply find_name_Some in E as [Hd <-]. apply bool_decide_eq_true_2. by apply list_elem_of_fmap_2.
  - apply find_name_None in E. by apply bool_decide_eq_false_2.
Qed.

Lemma var_calls x t : callee_ok f gs defs (Clight.Evar x t) = true -> calls (Clight.Evar x t) (translateVar temps x).
Proof using extra_labels same_locals same_params temps_params.
  cbn [callee_ok]. destruct (function_name f gs (Clight.Evar x t)) as [y|] eqn:Hf; intros Hok.
  - cbn in Hf. destruct (is_local f x) eqn:Hl; [done|]. destruct (is_param f x) eqn:Hp; [done|]. cbn in Hf.
    rewrite is_global_find in Hf by done. destruct (find_name _ x gs) eqn:Hg; [done|]. injection Hf as <-.
    unfold translateVar. destruct (temps !! x) as [id|] eqn:Hid; [by destruct (temps_params x id Hid); congruence|].
    apply (calls_symbol _ _ x); [cbn; by rewrite Hl, Hp, is_global_find, Hg|]. cbn.
    rewrite var_meaning, Hg, extra_none by (done || by apply negb_true_iff). done.
  - apply calls_address; [done| |by eapply var_simulates]. unfold translateVar.
    destruct (temps !! x) as [id|]; [done|]. cbn in Hf |- *. rewrite (meaning_of f gs defs) by done.
    rewrite is_local_find in Hf. destruct (find_name _ x (Clight.fn_Locals f)) eqn:Hl; [done|].
    destruct (is_param f x) eqn:Hp; [done|]. cbn in Hf. rewrite is_global_find in Hf by (done || by rewrite is_local_find, Hl).
    by destruct (find_name _ x gs).
Qed.

Lemma address_calls x t t' : calls (Clight.Eaddrof (Clight.Evar x t) t') (Csharpminor.Eaddrof x).
Proof using same_locals same_params.
  destruct (function_name f gs (Clight.Eaddrof (Clight.Evar x t) t')) as [y|] eqn:Hf.
  - apply (calls_symbol _ _ y); [done|]. cbn in Hf |- *. destruct (is_local f x) eqn:Hl; [done|].
    destruct (is_param f x) eqn:Hp; [done|]. injection Hf as <-. rewrite var_meaning by done.
    destruct (find_name _ x gs); [done|]. by destruct (find_decl x extra).
  - intros e ps e' m fv _ Hfv. unfold cl_callee in Hfv. rewrite Hf in Hfv. cbn in Hf, Hfv. unfold cl_address in Hfv.
    rewrite is_local_find in *. unfold cs_callee. cbn. unfold cs_address. rewrite (meaning_of f gs defs) by done.
    destruct (find_name _ x (Clight.fn_Locals f)); [done|]. by destruct (is_param f x).
Qed.

Lemma gives_and {A} (x : CM A) P Q : gives x P -> gives x Q -> gives x (fun a => P a /\ Q a).
Proof using.
  intros HP HQ st Hst. destruct (HP st Hst) as (a & st1 & E1 & ? & ? & ? & ?).
  destruct (HQ st Hst) as (b & st2 & E2 & ? & ? & ? & ?). rewrite E1 in E2. injection E2 as <- <-.
  exists a, st1. repeat (split; [done|]). auto.
Qed.

Lemma address_gives g :
  function_name f gs g = None -> expr_ok f gs defs g = true ->
  gives (TranslateExpr temps g) (fun g' => named_symbol f' globals' g' = None) -> gives (TranslateExpr temps g) (calls g).
Proof using extra_labels same_locals same_params temps_params.
  intros Hf Hok Hg. eapply gives_impl; [apply gives_and; [by apply translate_ok|exact Hg]|].
  intros g' [Hs Hn]. by apply calls_address.
Qed.

Lemma callee_gives g : callee_ok f gs defs g = true -> gives (TranslateExpr temps g) (calls g).
Proof using extra_labels same_locals same_params temps_params.
  intros Hok. destruct g as [|b|n|b|s|x t|id|p t|a t|op|op|a|a name t|t|t]; try done.
  - by apply gives_ret, var_calls.
  - apply address_gives; [done..|]. by apply gives_ret.
  - apply address_gives; [done..|]. cbn in Hok. destruct_andb. eapply gives_map; [by apply translate_ok|done].
  - destruct a; try done. apply gives_ret, address_calls.
  - apply address_gives; [done..|]. cbn in Hok. destruct_andb. eapply gives_map; [by apply translate_ok|done].
Qed.

Lemma exprs_gives es : forallb (expr_ok f gs defs) es = true -> gives (TranslateExprs temps es) (Forall2 simulates es).
Proof using extra_labels same_locals same_params temps_params.
  induction es as [|a es IH]; intros Hok; [by apply gives_ret|]. cbn in Hok. destruct_andb.
  eapply gives_bind; [by apply translate_ok|]. intros a'. eapply gives_map; [by apply IH|].
  intros es' Hes Ha. by constructor.
Qed.

Lemma exprs_values e ps e' m es es' vs :
  env_rel e ps e' -> Forall2 simulates es es' -> mapM (cl_expr f place lit e ps m) es = Some vs ->
  mapM (cs_expr f' globals' place args e' m) es' = Some vs.
Proof using.
  intros HR Hes. revert vs. induction Hes as [|a a' es es' Ha _ IH]; intros vs Hvs; [done|]. cbn [mapM] in *.
  destruct (cl_expr f place lit e ps m a) as [v|] eqn:Ev; [|done]. rewrite (Ha e ps e' m v HR Ev). cbn [mbind option_bind] in *.
  destruct (mapM (cl_expr f place lit e ps m) es) as [ws|]; [|done]. by rewrite (IH ws).
Qed.

(** ** Statements and their translations *)

Local Abbreviation stmt' := Csharpminor.Stmt.

Inductive translates : bool -> bool -> Clight.Stmt -> stmt' -> Prop :=
| tr_skip b c : translates b c Clight.Sskip Structured.Sskip
| tr_param b c lhs rhs x id a :
    param_name f lhs = Some x -> temps !! x = Some id -> simulates rhs a ->
    translates b c (Clight.Sassign lhs rhs) (Structured.Sassign id a)
| tr_store b c lhs rhs chunk p a :
    param_name f lhs = None -> access_mode (Clight.ExprType lhs) = ByValue chunk ->
    simulates_lvalue lhs p -> simulates rhs a ->
    translates b c (Clight.Sassign lhs rhs) (Structured.Sstore chunk p a)
| tr_set b c id rhs a :
    shadow_id f id = false -> simulates rhs a -> translates b c (Clight.Sset id rhs) (Structured.Sassign id a)
| tr_call b c r g es g' es' :
    result_ok f r = true -> calls g g' -> Forall2 simulates es es' ->
    translates b c (Clight.Scall r g es) (Structured.Scall r None g' es')
| tr_builtin b c r name es es' :
    result_ok f r = true -> Forall2 simulates es es' ->
    translates b c (Clight.Sbuiltin r name es) (Structured.Sbuiltin r name es')
| tr_seq b c s1 s2 t1 t2 :
    translates b c s1 t1 -> translates b c s2 t2 -> translates b c (Clight.Ssequence s1 s2) (Structured.Sseq t1 t2)
| tr_if b c a s1 s2 a' t1 t2 :
    is_int (Clight.ExprType a) = true -> simulates a a' -> translates b c s1 t1 -> translates b c s2 t2 ->
    translates b c (Clight.Sifthenelse a s1 s2) (Structured.Sifthenelse a' t1 t2)
| tr_loop b c s1 s2 t1 t2 :
    translates true true s1 t1 -> translates false false s2 t2 ->
    translates b c (Clight.Sloop s1 s2) (loop_code t1 t2)
| tr_break c : translates true c Clight.Sbreak (Structured.Sexit 1)
| tr_continue b : translates b true Clight.Scontinue (Structured.Sexit 0)
| tr_return b c : translates b c (Clight.Sreturn None) (Structured.Sreturn None)
| tr_return_value b c a a' :
    simulates a a' -> translates b c (Clight.Sreturn (Some a)) (Structured.Sreturn (Some a'))
| tr_switch b c a cases d hasBreak a' cases' d' :
    simulates a a' -> translates_cases c cases cases' -> translates false c d d' ->
    hasBreak || forallb (fun sc => leaves sc.2) cases = true ->
    translates b c (Clight.Sswitch a cases d hasBreak) (Structured.Sswitch (is_long (Clight.ExprType a)) a' cases' d')
| tr_label b c l s t : translates b c s t -> translates b c (Clight.Slabel l s) (Structured.Slabel l t)
| tr_goto b c l : translates b c (Clight.Sgoto l) (Structured.Sgoto l)
with translates_cases : bool -> list Clight.SwitchCase -> list (Z * stmt') -> Prop :=
| tr_nil c : translates_cases c [] []
| tr_case c z s t cases cases' :
    translates false c s t -> translates_cases c cases cases' -> translates_cases c ((z, s) :: cases) ((z, t) :: cases').

(** ** The translation of statements *)

(** A parameter that a statement assigns to has a temporary. *)
Definition shadowed (s : Clight.Stmt) : Prop := scanForModifiedParams (params f) s ∅ ⊆ dom temps.

Local Abbreviation ok := (stmt_ok f gs defs).

Lemma shadowed_seq s1 s2 : shadowed (Clight.Ssequence s1 s2) -> shadowed s1 /\ shadowed s2.
Proof using.
  unfold shadowed. cbn. rewrite (scan_union _ s2). intros H. split; intros x Hx; apply H, elem_of_union; [by left|by right].
Qed.

Lemma is_param_elem x : x ∈ params f -> is_param f x = true.
Proof using names.
  intros Hx%elem_of_list_to_set. unfold is_param. rewrite bool_decide_true by done.
  pose proof names as Hn. unfold names_ok in Hn. apply andb_true_iff in Hn as [_ Hn].
  rewrite forallb_forall in Hn. by rewrite Hn by by apply list_elem_of_In.
Qed.

Lemma assigned_name lhs : assigned_param (params f) lhs = param_name f lhs.
Proof using names.
  destruct lhs; try done. cbn. destruct (decide _) as [H|H]; [by rewrite is_param_elem|].
  destruct (is_param f Name) eqn:E; [|done]. contradict H. unfold is_param in E. apply andb_true_iff in E as [_ E%bool_decide_eq_true].
  by apply elem_of_list_to_set.
Qed.

Lemma temp_gives x id : temps !! x = Some id -> gives (getOrCreateParamTemp x) (fun id' => id' = id).
Proof using. intros Hid st Hst. unfold getOrCreateParamTemp. rewrite Hst, Hid. by exists id, st. Qed.

Lemma lvalue_chunk lhs : by_value (Clight.ExprType lhs) = true -> access_mode (Clight.ExprType lhs) = ByValue (chunk_for (Clight.ExprType lhs)).
Proof using.
  unfold by_value. destruct (access_mode _) as [c| |] eqn:E; try done. by rewrite (by_value_chunk _ c).
Qed.

Lemma assign_gives b c lhs rhs :
  ok b c (Clight.Sassign lhs rhs) = true -> shadowed (Clight.Sassign lhs rhs) ->
  gives (translateAssign temps (params f) lhs rhs) (translates b c (Clight.Sassign lhs rhs)).
Proof using extra_labels names same_locals same_params temps_params.
  intros Hok Hsh. cbn in Hok. destruct_andb. unfold assign_ok in *.
  eapply gives_bind; [by apply translate_ok|]. intros a. rewrite assigned_name. destruct (param_name f lhs) as [x|] eqn:Hx.
  - assert (exists id, temps !! x = Some id) as [id Hid].
    { destruct lhs; try done. cbn in Hx. destruct (is_param f Name) eqn:Hp; [|done]. injection Hx as ->.
      pose proof Hp as Hin. unfold is_param in Hin. apply andb_true_iff in Hin as [_ Hin%bool_decide_eq_true].
      apply elem_of_dom, Hsh. cbn. rewrite decide_True by by apply elem_of_list_to_set. set_solver. }
    eapply gives_map; [by apply temp_gives|]. intros _ -> Ha. by eapply tr_param.
  - destruct_andb. eapply gives_map; [by apply translate_ok|]. intros p Hp Ha. by apply tr_store; [|apply lvalue_chunk|..].
Qed.

Lemma shadowed_switch a (cases : list Clight.SwitchCase) d h :
  shadowed (Clight.Sswitch a cases d h) -> Forall (fun sc => shadowed sc.2) cases /\ shadowed d.
Proof using.
  unfold shadowed. cbn. rewrite (scan_union _ d). intros H. split; [apply Forall_forall; intros sc Hsc|]; intros x Hx; apply H, elem_of_union.
  - left. by eapply scan_cases.
  - by right.
Qed.

Lemma stmt_gives s : forall b c,
  ok b c s = true -> shadowed s -> gives (TranslateStmt temps (params f) s) (translates b c s).
Proof using extra_labels names same_locals same_params temps_params.
  induction s as [|l r|id r|r g es|r name es|s1 s2 IH1 IH2|a s1 s2 IH1 IH2|s1 s2 IH1 IH2| | |[a|]|a cases d h Hcases IHd|l s IH|l]
    using Clight.Stmt_nested_ind; intros b c Hok Hsh; cbn [TranslateStmt];
    try (by apply assign_gives); simpl in Hok; destruct_andb; try subst.
  - apply gives_ret, tr_skip.
  - eapply gives_map; [by apply translate_ok|]. intros a Ha. by apply tr_set; [apply negb_true_iff|].
  - eapply gives_bind; [by apply callee_gives|]. intros g'. eapply gives_map; [by apply exprs_gives|].
    intros es' Hes Hg. by apply tr_call.
  - eapply gives_map; [by apply exprs_gives|]. intros es' Hes. by apply tr_builtin.
  - apply shadowed_seq in Hsh as [? ?]. eapply gives_bind; [by apply (IH1 b c)|]. intros t1.
    eapply gives_map; [by apply (IH2 b c)|]. intros t2 Ht2 Ht1. by apply tr_seq.
  - apply shadowed_seq in Hsh as [? ?]. eapply gives_bind; [by apply translate_ok|]. intros a'.
    eapply gives_bind; [by apply (IH1 b c)|]. intros t1. eapply gives_map; [by apply (IH2 b c)|]. intros t2 Ht2 Ht1 Ha. by apply tr_if.
  - apply shadowed_seq in Hsh as [? ?]. eapply gives_bind; [by apply (IH1 true true)|]. intros t1.
    eapply gives_map; [by apply (IH2 false false)|]. intros t2 Ht2 Ht1. by apply tr_loop.
  - apply gives_ret, tr_break.
  - apply gives_ret, tr_continue.
  - eapply gives_map; [by apply translate_ok|]. intros a' Ha. by apply tr_return_value.
  - apply gives_ret, tr_return.
  - apply shadowed_switch in Hsh as [Hsc Hsd]. eapply gives_bind; [by apply translate_ok|]. intros a'.
    eapply gives_bind with (P := translates_cases c cases).
    + clear IHd Hsd. match goal with H : forallb (fun sc => ok _ _ _) cases = true |- _ => rename H into Hok end.
      match goal with H : h || _ = true |- _ => clear H end. induction Hcases as [|[z s] cases Hs _ IH]; [apply gives_ret, tr_nil|].
      simpl in Hok. destruct_andb. apply Forall_cons in Hsc as [Hsh Hsc].
      cbn [fst snd] in *. eapply gives_bind; [by apply (Hs false c)|]. intros t. eapply gives_map; [by apply IH|].
      intros cases' Hc Ht. by apply tr_case.
    + intros cases'. eapply gives_map; [by apply (IHd false c)|]. intros d' Hd Hc Ha. by apply tr_switch.
  - eapply gives_map; [by apply (IH b c)|]. intros t Ht. by apply tr_label.
  - apply gives_ret, tr_goto.
Qed.
End Statements.

Section Simulation.
  Context {M : Type} `{FO : FloatOps} `{LO : Layout} `{TS : TargetSemantics val M}.
  Context {VT : ValueTarget M} {darwin : bool} {PC : PseudoCalls val M darwin}.
  Context (f : Clight.Function) (gs : list Clight.VarDecl) (defs : gmap string (list Ctypes.Field)).
  Context (extra : list Csharpminor.VarDecl).
  Context (f' : Csharpminor.Function).
  Context (place : string -> Z) (lit : string -> val) (args : gmap string val) (temps : gmap string Z).
  Context (temps_params : forall x id, temps !! x = Some id -> is_param f x = true /\ shadow_id f id = true).
  Context (temps_inj : forall x y id, temps !! x = Some id -> temps !! y = Some id -> x = y).
  Implicit Types (e : gmap Z val) (ps : gmap string val) (m : M).
  Local Abbreviation globals' := (all_globals gs defs extra).
  Local Abbreviation simulates := (simulates (M := M) f gs defs extra f' place lit args temps).
  Local Abbreviation translates := (translates (M := M) f gs defs extra f' place lit args temps).
  Local Abbreviation translates_cases := (translates_cases (M := M) f gs defs extra f' place lit args temps).
  Local Abbreviation env_rel := (env_rel f args temps).
  Local Abbreviation stmt' := Csharpminor.Stmt.
  Local Abbreviation frame' := (frame Csharpminor.Sig Z Csharpminor.Expr Csharpminor.Expr Csharpminor.Expr).

(** ** Variables *)

Lemma env_rel_set e ps e' id v : shadow_id f id = false -> env_rel e ps e' -> env_rel (<[id := v]> e) ps (<[id := v]> e').
Proof using temps_params.
  intros Hid [He Hp]. split.
  - intros j w Hj Hw. destruct (decide (id = j)) as [<-|Hne]; [by rewrite lookup_insert_eq in *|].
    rewrite lookup_insert_ne in * by done. by apply He.
  - intros x w Hx Hw. specialize (Hp x w Hx Hw). destruct (temps !! x) as [j|] eqn:Hj; [|done].
    rewrite lookup_insert_ne; [done|]. destruct (temps_params x j Hj). congruence.
Qed.

Lemma env_rel_result e ps e' r v : result_ok f r = true -> env_rel e ps e' -> env_rel (set_result r v e) ps (set_result r v e').
Proof using temps_params. destruct r; [|done]. intros Hr%negb_true_iff. by apply env_rel_set. Qed.

Lemma env_rel_param e ps e' x id v :
  temps !! x = Some id -> env_rel e ps e' -> env_rel e (<[x := v]> ps) (<[id := v]> e').
Proof using temps_params temps_inj.
  intros Hid [He Hp]. destruct (temps_params x id Hid) as [Hx Hsh]. split.
  - intros j w Hj Hw. rewrite lookup_insert_ne by congruence. by apply He.
  - intros y w Hy Hw. destruct (decide (x = y)) as [<-|Hne].
    + rewrite lookup_insert_eq in Hw. injection Hw as <-. by rewrite Hid, lookup_insert_eq.
    + rewrite lookup_insert_ne in Hw by done. specialize (Hp y w Hy Hw). destruct (temps !! y) as [j|] eqn:Hj; [|done].
      rewrite lookup_insert_ne; [done|]. intros <-. by apply Hne, (temps_inj x y id).
Qed.

(** ** Continuations *)

(** The code of a loop after its body, and after its continuation. *)
Definition loop_body (t1 t2 : stmt') : stmt' := Structured.Seq [Structured.Sblock t1; t2].

Definition loop_rest (t1 t2 : stmt') (tk : list frame') : list frame' :=
  Fseq (Structured.Sloop (loop_body t1 t2)) :: Fblock :: tk.

Definition body_rest (t1 t2 : stmt') (tk : list frame') : list frame' :=
  (if Structured.is_skip t2 then [] else [Fseq t2]) ++ loop_rest t1 t2 tk.

(** [l]: control does not get there by going on from a statement. A switch has
    no frame in the translation. *)
Inductive cont_rel : bool -> bool -> bool -> list cl_frame -> list frame' -> Prop :=
| rel_nil l : cont_rel l false false [] []
| rel_seq l b c s t k tk :
    translates b c s t -> cont_rel (leaves s) b c k tk -> cont_rel l b c (Kseq s :: k) (Fseq t :: tk)
| rel_unreached b c s k tk : cont_rel true b c k tk -> cont_rel true b c (Kseq s :: k) tk
| rel_body l b c b' c' s1 s2 t1 t2 k tk :
    translates true true s1 t1 -> translates false false s2 t2 -> cont_rel false b c k tk ->
    cont_rel l b' c' (Kloop1 s1 s2 :: k) (Fblock :: body_rest t1 t2 tk)
| rel_continue l b c s1 s2 t1 t2 k tk :
    translates true true s1 t1 -> translates false false s2 t2 -> cont_rel false b c k tk ->
    cont_rel l false false (Kloop2 s1 s2 :: k) (loop_rest t1 t2 tk)
| rel_switch l b c k tk : cont_rel false b c k tk -> cont_rel l false c (Kswitch :: k) tk.

Lemma cont_rel_weaken l b c k tk : cont_rel l b c k tk -> cont_rel true b c k tk.
Proof using. intros H. inversion H; subst; econstructor; eassumption. Qed.

Lemma cont_rel_weaken' (l l' : bool) b c k tk : cont_rel l b c k tk -> (l = true -> l' = true) -> cont_rel l' b c k tk.
Proof using.
  intros H Hl. destruct l'; [by eapply cont_rel_weaken|]. destruct l; [|done]. by discriminate Hl.
Qed.

Lemma break_rel l c k tk : cont_rel l true c k tk -> forall k', break_cont k = Some k' ->
  exists tk' b' c', exit_cont 1 tk = Some tk' /\ cont_rel false b' c' k' tk'.
Proof using.
  intros H. remember true as b eqn:Hb in H. induction H as [l|l b c s t k tk Hs Hk IH|b c s k tk Hk IH|l b c b' c' s1 s2 t1 t2 k tk|l b c s1 s2 t1 t2 k tk|l b c k tk];
    intros k' Hk'; try done; cbn in Hk'; try (by apply IH).
  injection Hk' as <-. exists tk, b, c. split; [|done]. cbn. unfold body_rest, loop_rest. by destruct (Structured.is_skip t2).
Qed.

Lemma continue_rel l b k tk : cont_rel l b true k tk -> forall s2 k2, continue_cont k = Some (s2, k2) ->
  exists t1 t2 tk2, exit_cont 0 tk = Some (body_rest t1 t2 tk2) /\ translates false false s2 t2 /\
    cont_rel (leaves s2) false false k2 (loop_rest t1 t2 tk2).
Proof using.
  intros H. remember true as c eqn:Hc in H. induction H as [l|l b c s t k tk Hs Hk IH|b c s k tk Hk IH|l b c b' c' s1 s2 t1 t2 k tk|l b c s1 s2 t1 t2 k tk|l b c k tk Hk IH];
    intros s' k' Hk'; try done; cbn in Hk'; try (by apply IH).
  injection Hk' as <- <-. exists t1, t2, tk. split; [done|]. split; [done|]. by eapply rel_continue.
Qed.

(** *** Labels and cases *)

(** What is found in a statement is found in its translation. *)
Definition found (o : option (Clight.Stmt * list cl_frame)) (o' : option (stmt' * list frame')) : Prop :=
  match o with
  | None => o' = None
  | Some (s, k) => exists t tk b c, o' = Some (t, tk) /\ translates b c s t /\ cont_rel (leaves s) b c k tk
  end.

Lemma found_or o1 o1' o2 o2' :
  found o1 o1' -> found o2 o2' ->
  found (match o1 with Some r => Some r | None => o2 end) (match o1' with Some r => Some r | None => o2' end).
Proof using.
  intros H1 H2. destruct o1 as [[s k]|]; [|by rewrite H1]. destruct H1 as (t & tk & b & c & -> & H). by exists t, tk, b, c.
Qed.

Lemma found_rest l t1 t2 tk (o1 o2 : option (Clight.Stmt * list cl_frame)) :
  found o1 (find_stmt l t1 (Fblock :: body_rest t1 t2 tk)) -> found o2 (find_stmt l t2 (loop_rest t1 t2 tk)) ->
  found (match o1 with Some r => Some r | None => o2 end) (find_stmt l (loop_code t1 t2) tk).
Proof using.
  intros H1 H2. pose proof (found_or _ _ _ _ H1 H2) as H. unfold loop_code. cbn [find_stmt].
  unfold body_rest, loop_rest, loop_body in *. change (Structured.Seq [Structured.Sblock t1; t2])
    with (if Structured.is_skip t2 then Structured.Sblock t1 else Structured.Sseq (Structured.Sblock t1) t2) in *.
  destruct t2; cbn [Structured.is_skip app find_stmt] in *; try exact H.
  by destruct (find_stmt l t1 _).
Qed.

Lemma match_option_assoc {A} (o1 o2 o3 : option A) :
  match (match o1 with Some r => Some r | None => o2 end) with Some r => Some r | None => o3 end =
  match o1 with Some r => Some r | None => match o2 with Some r => Some r | None => o3 end end.
Proof using. by destruct o1. Qed.

Lemma find_rel l s : forall b c t k tk, translates b c s t -> cont_rel (leaves s) b c k tk ->
  found (cl_find l s k) (find_stmt l t tk).
Proof using.
  induction s as [|lhs r|id r|r g es|r name es|s1 s2 IH1 IH2|a s1 s2 IH1 IH2|s1 s2 IH1 IH2| | |a|a cases d h Hcases IHd|l' s IH|l']
    using Clight.Stmt_nested_ind; intros b c t k tk Ht Hk; inversion Ht; subst; clear Ht; try done; cbn [cl_find find_stmt leaves] in *.
  - apply found_or; [eapply IH1; [done|]; by eapply rel_seq|by eapply IH2].
  - apply found_or; [eapply IH1|eapply IH2]; try done; eapply cont_rel_weaken'; try done; intros [? ?]%andb_true_iff; done.
  - apply found_rest; [eapply IH1; [done|]; by eapply rel_body|eapply IH2; [done|]; by eapply rel_continue].
  - match goal with H : translates_cases _ _ _ |- _ => rename H into Hc end.
    match goal with H : h || _ = true |- _ => rename H into Hh end.
    assert (Hd : found (cl_find l d (Kswitch :: k)) (find_stmt l d' tk)) by (eapply IHd; [done|]; by eapply rel_switch).
    revert cases' Hc Hh. induction Hcases as [|[z s] cases Hs _ IH]; intros cases' Hc Hh; inversion Hc; subst; [exact Hd|].
    cbn [fst snd] in *. simpl in Hh. apply orb_true_iff in Hh.
    assert (Hh' : h || forallb (fun sc => leaves sc.2) cases = true).
    { apply orb_true_iff. destruct Hh as [->|[_ ?]%andb_true_iff]; [by left|by right]. }
    rewrite match_option_assoc. apply found_or; [|by apply IH]. eapply Hs; [done|]. destruct h; [by eapply rel_switch|].
    destruct Hh as [|[-> _]%andb_true_iff]; [done|]. apply rel_unreached. by eapply rel_switch.
  - destruct (decide (l = l')); [|by eapply IH]. cbn. eauto 10.
Qed.

Lemma select_rel h z c cases cases' d d' k tk :
  translates_cases c cases cases' -> translates false c d d' -> h || forallb (fun sc => leaves sc.2) cases = true ->
  cont_rel false false c k tk ->
  let sk := switch_point h z cases d k in
  translates false c sk.1 (select_case z cases' d') /\ cont_rel (leaves sk.1) false c sk.2 tk.
Proof using.
  intros Hc Hd Hh Hk. assert (Hw : forall l, cont_rel l false c k tk) by (intros l; by eapply cont_rel_weaken'). revert cases' Hc.
  induction cases as [|[v s] cases IH]; intros cases' Hc; inversion Hc; subst; cbn [switch_point select_case]; [done|].
  simpl in Hh. apply orb_true_iff in Hh. destruct (decide (z = v)).
  - split; [done|]. cbn. destruct h; [done|]. destruct Hh as [|[-> _]%andb_true_iff]; [done|]. by apply rel_unreached.
  - apply IH; [|done]. apply orb_true_iff. destruct Hh as [->|[_ ?]%andb_true_iff]; [by left|by right].
Qed.

(** ** Steps *)

  Context (tbody : stmt') (body_translated : translates false false (Clight.fn_Body f) tbody).
  Context (body_labels : forall l, find_stmt l (Csharpminor.fn_Body f') [] = find_stmt l tbody []).
Local Abbreviation step := (cl_step (PC := PC) f gs place lit).
Local Abbreviation step' := (struct_step (PC := PC) (csharpminor_language f' globals' place args) (Csharpminor.fn_Body f')).
Local Abbreviation state' := (stmt' * list frame' * gmap Z val * M)%type.

Definition sim (st : cl_state (M := M)) (t : state') : Prop :=
  let '(s, k, e, ps, m) := st in
  exists b c ts tk e', t = (ts, tk, e', m) /\ translates b c s ts /\ cont_rel (leaves s) b c k tk /\ env_rel e ps e'.

Definition depth (st : cl_state (M := M)) : nat := let '(s, k, e, ps, m) := st in length k.

(** A step before, and the steps after. *)
Definition simulated (o : outcome (cl_state (M := M)) (rtl_result val M)) (n : nat) (t : state') : Prop :=
  match o with
  | Next st => exists t', sim st t' /\ (tc (steps_to step') t t' \/ (t' = t /\ (depth st < n)%nat))
  | Halt r => terminates step' t r
  | Stuck => True
  end.

Lemma sim_intro b c s k e ps m ts tk e' :
  translates b c s ts -> cont_rel (leaves s) b c k tk -> env_rel e ps e' -> sim (s, k, e, ps, m) (ts, tk, e', m).
Proof using. intros. by exists b, c, ts, tk, e'. Qed.

Lemma simulated_next st n t t' : step' t = Next t' -> sim st t' -> simulated (Next st) n t.
Proof using. intros Ht Hs. exists t'. split; [done|]. left. by apply tc_once. Qed.

Lemma simulated_opt {A} (o : option A) g n t :
  (forall a, o = Some a -> simulated (g a) n t) -> simulated (cl_opt o g) n t.
Proof using. intros Hg. destruct o as [a|]; [by apply Hg|done]. Qed.

(** From the end of the body of a loop to its continuation. *)
Lemma body_rest_steps t1 t2 tk e' m :
  rtc (steps_to step') (Structured.Sskip, body_rest t1 t2 tk, e', m) (t2, loop_rest t1 t2 tk, e', m).
Proof using. unfold body_rest. destruct t2; cbn [Structured.is_skip app]; [apply rtc_refl|by apply rtc_once..]. Qed.

(** Into the body of a loop. *)
Lemma loop_steps t1 t2 tk e' m :
  tc (steps_to step') (Structured.Sloop (loop_body t1 t2), Fblock :: tk, e', m) (t1, Fblock :: body_rest t1 t2 tk, e', m).
Proof using.
  eapply tc_l; [reflexivity|]. change (loop_body t1 t2)
    with (if Structured.is_skip t2 then Structured.Sblock t1 else Structured.Sseq (Structured.Sblock t1) t2).
  unfold body_rest, loop_rest, loop_body. destruct t2; cbn [Structured.is_skip app];
    try (eapply tc_l; [reflexivity|by apply tc_once]); by apply tc_once.
Qed.

Lemma exit_steps n tk tk' e' m :
  exit_cont n tk = Some tk' -> step' (Structured.Sexit (Z.of_nat n), tk, e', m) = Next (Structured.Sskip, tk', e', m).
Proof using. intros E. cbn [struct_step]. rewrite (proj2 (Z.ltb_ge _ _)) by lia. by rewrite Nat2Z.id, E. Qed.

(** Back to the start of a loop. *)
Lemma again_steps t1 t2 tk e' m :
  tc (steps_to step') (Structured.Sskip, loop_rest t1 t2 tk, e', m) (t1, Fblock :: body_rest t1 t2 tk, e', m).
Proof using. eapply tc_l; [reflexivity|]. apply loop_steps. Qed.

Lemma skip_simulated k e ps m t :
  sim (Clight.Sskip, k, e, ps, m) t -> simulated (step (Clight.Sskip, k, e, ps, m)) (length k) t.
Proof using.
  intros (b & c & ts & tk & e' & -> & Ht & Hk & HR). inversion Ht; subst; clear Ht. cbn [leaves] in Hk.
  inversion Hk as [|l b0 c0 s t k0 tk0 Hs Hk0| |l b0 c0 b1 c1 s1 s2 t1 t2 k0 tk0 H1 H2 Hk0|l b0 c0 s1 s2 t1 t2 k0 tk0 H1 H2 Hk0|l b0 c0 k0 tk0 Hk0];
    subst; cbn [cl_step].
  - by apply terminates_halt.
  - eapply simulated_next; [reflexivity|]. by eapply sim_intro.
  - eexists. split; [eapply sim_intro; [exact H2| |exact HR]; by eapply rel_continue|]. left.
    eapply tc_rtc_r; [by apply tc_once|]. apply body_rest_steps.
  - eexists. split; [eapply sim_intro; [exact H1| |exact HR]; by eapply rel_body|]. left. apply again_steps.
  - eexists. split; [by eapply sim_intro; [apply tr_skip|..]|]. right. split; [done|]. cbn. lia.
Qed.

Lemma step_simulated st t : sim st t -> simulated (step st) (depth st) t.
Proof using temps_params temps_inj body_translated body_labels.
  destruct st as [[[[s k] e] ps] m]. intros Hst. destruct s as [|lhs r|id r|r g es|r name es|s1 s2|a s1 s2|s1 s2| | |[a|]|a cases d h|l s|l];
    [by apply skip_simulated|..]; destruct Hst as (b & c & ts & tk & e' & -> & Ht & Hk & HR);
    inversion Ht; subst; cbn [cl_step leaves depth] in *.
  - apply simulated_opt. intros [ps' m'] Hv. destruct (cl_expr f place lit e ps m r) as [v|] eqn:Ev; [|done]. cbn in Hv.
    unfold cl_assign in Hv. match goal with H : param_name f lhs = Some _ |- _ => rewrite H in Hv end. injection Hv as <- <-.
    match goal with H : simulates r _ |- _ => pose proof (H e ps e' m v HR Ev) as Hr end.
    eapply simulated_next; [cbn; by rewrite Hr|]. eapply sim_intro; [apply tr_skip|done|by apply env_rel_param].
  - apply simulated_opt. intros [ps' m'] Hv. destruct (cl_expr f place lit e ps m r) as [v|] eqn:Ev; [|done]. cbn in Hv.
    unfold cl_assign in Hv. match goal with H : param_name f lhs = None |- _ => rewrite H in Hv end.
    match goal with H : access_mode _ = ByValue _ |- _ => rewrite H in Hv end.
    destruct (cl_lvalue f place lit e ps m lhs) as [p'|] eqn:Ep; [|done]. cbn in Hv.
    destruct (eval_store_at chunk p' v m) as [m1|] eqn:Em; [|done]. injection Hv as <- <-.
    match goal with H : simulates r _, H' : _ lhs _ |- _ => pose proof (H e ps e' m v HR Ev) as Hr; pose proof (H' e ps e' m p' HR Ep) as Hp end.
    eapply simulated_next; [cbn; rewrite Hr; cbn; rewrite Hp; cbn; by rewrite Em|]. by eapply sim_intro; [apply tr_skip|..].
  - apply simulated_opt. intros v Hv. match goal with H : simulates r _ |- _ => pose proof (H e ps e' m v HR Hv) as Hr end.
    eapply simulated_next; [cbn; by rewrite Hr|]. eapply sim_intro; [apply tr_skip|done|by apply env_rel_set].
  - apply simulated_opt. intros [v m'] Hv. match goal with H : Forall2 _ es _ |- _ => rename H into Hes end.
    match goal with H : calls _ _ _ _ _ _ _ _ _ g _ |- _ => rename H into Hg end.
    destruct (cl_callee f gs place lit e ps m g) as [fv|] eqn:Ef; [|done]. cbn in Hv.
    destruct (mapM (cl_expr f place lit e ps m) es) as [vs|] eqn:Evs; [|done]. cbn in Hv.
    eapply simulated_next.
    { cbn. rewrite (Hg e ps e' m fv HR Ef). cbn. rewrite (exprs_values _ _ _ _ _ _ _ _ _ e ps e' m es es' vs HR Hes Evs). cbn. by rewrite Hv. }
    eapply sim_intro; [apply tr_skip|done|by apply env_rel_result].
  - apply simulated_opt. intros [v m'] Hv. match goal with H : Forall2 _ es _ |- _ => rename H into Hes end.
    destruct (mapM (cl_expr f place lit e ps m) es) as [vs|] eqn:Evs; [|done]. cbn in Hv.
    eapply simulated_next.
    { cbn. rewrite (exprs_values _ _ _ _ _ _ _ _ _ e ps e' m es es' vs HR Hes Evs). cbn. by rewrite Hv. }
    eapply sim_intro; [apply tr_skip|done|by apply env_rel_result].
  - eapply simulated_next; [reflexivity|]. eapply sim_intro; [done| |done]. by eapply rel_seq.
  - apply simulated_opt. intros v Hv. destruct (cl_expr f place lit e ps m a) as [u|] eqn:Eu; [|done]. cbn in Hv.
    match goal with H : simulates a _ |- _ => pose proof (H e ps e' m u HR Eu) as Ha end.
    assert (val_truth u = Some v) as Hu by (destruct (Clight.ExprType a) as [[]|]; try done; by destruct u).
    eapply simulated_next; [cbn; rewrite Ha; cbn; by rewrite Hu|].
    eapply sim_intro; [by destruct v| |done]. eapply cont_rel_weaken'; [done|]. intros [? ?]%andb_true_iff. by destruct v.
  - eexists. split; [eapply sim_intro; [eassumption| |exact HR]; by eapply rel_body|]. left.
    eapply tc_l; [reflexivity|]. apply loop_steps.
  - apply simulated_opt. intros k' Hk'. destruct (break_rel _ _ _ _ Hk k' Hk') as (tk' & b' & c' & He & Hr).
    eapply simulated_next; [by apply (exit_steps 1)|]. by eapply sim_intro; [apply tr_skip|..].
  - apply simulated_opt. intros [s2 k2] Hk'. destruct (continue_rel _ _ _ _ Hk s2 k2 Hk') as (t1 & t2 & tk2 & He & Ht2 & Hr).
    eexists. split; [by eapply sim_intro|]. left. eapply tc_rtc_r; [by apply tc_once, (exit_steps 0)|]. apply body_rest_steps.
  - destruct (cl_expr f place lit e ps m a) as [v|] eqn:Ev; [|done].
    match goal with H : simulates a _ |- _ => pose proof (H e ps e' m v HR Ev) as Ha end.
    apply terminates_halt. cbn. by rewrite Ha.
  - by apply terminates_halt.
  - apply simulated_opt. intros z Hz. destruct (cl_expr f place lit e ps m a) as [v|] eqn:Ev; [|done].
    match goal with H : simulates a _ |- _ => pose proof (H e ps e' m v HR Ev) as Ha end.
    cbn in Hz. eapply simulated_next; [cbn; rewrite Ha; cbn; by rewrite Hz|].
    match goal with Hc : translates_cases _ _ _, Hd : translates false _ d _, Hh : h || _ = true |- _ =>
      destruct (select_rel h z _ _ _ _ _ (Kswitch :: k) tk Hc Hd Hh) as [Ht1 Hk1] end; [by eapply rel_switch|].
    by eapply sim_intro.
  - eapply simulated_next; [reflexivity|]. by eapply sim_intro.
  - apply simulated_opt. intros [s' k'] Hf. pose proof (find_rel l _ _ _ _ _ _ body_translated (rel_nil _)) as Hr.
    rewrite Hf in Hr. destruct Hr as (t & tk' & b' & c' & Hf' & Ht' & Hk').
    eapply simulated_next; [cbn; by rewrite body_labels, Hf'|]. by eapply sim_intro.
Qed.

(** The translation ends as the function does; and if that one never gets stuck,
    neither does the translation. *)
Theorem sim_preserves st t :
  sim st t ->
  (forall r, terminates step st r -> terminates step' t r) /\
  (safe step st -> safe step' t /\ forall r, terminates step' t r -> terminates step st r).
Proof using temps_params temps_inj body_translated body_labels.
  intros Hst.
  assert (Hnext : forall s t s', sim s t -> step s = Next s' -> exists t', sim s' t' /\
    (tc (steps_to step') t t' \/ (t' = t /\ (depth s' < depth s)%nat))).
  { intros s1 t1 s' Hrel E. pose proof (step_simulated s1 t1 Hrel) as Hs. by rewrite E in Hs. }
  assert (Hhalt : forall s t r, sim s t -> step s = Halt r -> exists r', terminates step' t r' /\ r = r').
  { intros s1 t1 r Hrel E. pose proof (step_simulated s1 t1 Hrel) as Hs. rewrite E in Hs. by exists r. }
  split.
  - intros r Hr. by destruct (sim_forward_rel _ _ sim eq depth Hnext Hhalt _ _ r Hst Hr) as (r' & Ht & ->).
  - intros Hsafe. split; [by apply (sim_safe _ _ sim eq depth Hnext Hhalt _ _ Hst)|].
    intros r Hr. by destruct (sim_backward_safe _ _ sim eq depth Hnext Hhalt _ _ r Hst Hsafe Hr) as (r' & Ht & <-).
Qed.
End Simulation.
