(* ===== verification/CshmgenPass.v ===== *)
(** Csharpminor generation: functions with shadowed parameters, programs, and
    the theorem of the pass. *)

From S2P Require Import Prelude Target Semantics RtlSem Structured Values CminorSem.
From S2P Require Import CsharpminorSem CminorgenPass CshmgenOps Cshmgen ClightSem CshmgenExpr CshmgenProof.
From S2P Require Import ValuesExample.
From S2P Require Ctypes Clight Cminor Csharpminor.

#[local] Existing Instance Ctypes.FloatSize_eq_dec.

(** ** Temporaries that shadow parameters *)

Lemma shadow_temps_spec xs n :
  NoDup xs ->
  (shadow_temps xs n).2 = n + Z.of_nat (length xs) /\
  forall x id, (shadow_temps xs n).1 !! x = Some id <-> exists i, xs !! i = Some x /\ id = n + Z.of_nat i.
Proof.
  unfold shadow_temps. induction xs as [|y xs IH] using rev_ind; intros Hnd.
  - split; [cbn; lia|]. intros x id. cbn. rewrite lookup_empty. split; [done|]. by intros (i & Hi & _).
  - apply NoDup_app in Hnd as (Hnd & Hy & _). rewrite fold_left_app. destruct (IH Hnd) as [Hn Ht].
    destruct (fold_left _ xs (∅, n)) as [temps next]. cbn in Hn, Ht |- *. rewrite length_app. split; [cbn; lia|].
    intros x id. destruct (decide (y = x)) as [<-|Hne].
    + rewrite lookup_insert_eq. split.
      * intros [= <-]. exists (length xs). by rewrite lookup_app_r, Nat.sub_diag by lia.
      * intros (i & Hi & ->). apply lookup_app_Some in Hi as [Hi|[Hi Hl]].
        { apply list_elem_of_lookup_2 in Hi. destruct (Hy y Hi). by left. }
        apply list_lookup_singleton_Some in Hl as [Hl _]. f_equal. lia.
    + rewrite lookup_insert_ne, Ht by done. split; intros (i & Hi & ->); exists i; (split; [|done]).
      * by apply lookup_app_l_Some.
      * apply lookup_app_Some in Hi as [Hi|[_ Hl]]; [done|]. apply list_lookup_singleton_Some in Hl as [_ Hl]. congruence.
Qed.

Section Shadows.
  Context `{NO : NameOrder} (f : Clight.Function).
  Local Abbreviation n0 := (Z.of_nat (length (Clight.fn_Temps f))).

Definition shadows (f : Clight.Function) : gmap string Z * Z :=
  shadow_temps (findModifiedParams (Clight.fn_Body f) (Clight.vd_Name <$> Clight.fn_Params f)) (Z.of_nat (length (Clight.fn_Temps f))).

Lemma range_set_elem t X x : x ∈ range_set t X <-> x ∈ X.
Proof using.
  unfold range_set. rewrite range_names_perm, list_elem_of_fmap. split.
  - intros ([y []] & -> & Hy%elem_of_map_to_list). by apply lookup_gset_to_gmap_Some in Hy as [? _].
  - intros Hx. exists (x, ()). split; [done|]. by apply elem_of_map_to_list, lookup_gset_to_gmap_Some.
Qed.

Lemma range_set_distinct t X : NoDup (range_set t X).
Proof using. unfold range_set. rewrite range_names_perm. apply NoDup_fst_map_to_list. Qed.

Lemma range_set_length t X : length (range_set t X) = size X.
Proof using.
  rewrite <- (size_list_to_set (C := gset string)) by apply range_set_distinct. f_equal.
  apply set_eq. intros x. by rewrite elem_of_list_to_set, range_set_elem.
Qed.

Lemma shadows_elem x id :
  (shadows f).1 !! x = Some id -> x ∈ modified f /\ shadow_id f id = true.
Proof using.
  unfold shadows, findModifiedParams. intros H. apply shadow_temps_spec in H as (i & Hi & ->); [|apply range_set_distinct].
  pose proof (lookup_lt_Some _ _ _ Hi) as Hlt. rewrite range_set_length in Hlt. split.
  - apply list_elem_of_lookup_2 in Hi. by rewrite range_set_elem in Hi.
  - unfold shadow_id. change (scanForModifiedParams _ _ _) with (modified f) in Hlt.
    rewrite andb_true_iff, Z.leb_le, Z.ltb_lt. lia.
Qed.

Lemma shadows_inj x y id : (shadows f).1 !! x = Some id -> (shadows f).1 !! y = Some id -> x = y.
Proof using.
  unfold shadows, findModifiedParams. intros Hx Hy. apply shadow_temps_spec in Hx as (i & Hi & ->); [|apply range_set_distinct].
  apply shadow_temps_spec in Hy as (j & Hj & E); [|apply range_set_distinct]. replace j with i in Hj by lia. congruence.
Qed.

Lemma shadows_dom : modified f ⊆ dom (shadows f).1.
Proof using.
  intros x Hx. unfold shadows, findModifiedParams. apply elem_of_dom.
  assert (x ∈ range_set 0 (modified f)) as [i Hi]%list_elem_of_lookup_1 by by apply range_set_elem.
  eexists. apply shadow_temps_spec; [apply range_set_distinct|]. by exists i.
Qed.

Lemma modified_params x : x ∈ modified f -> x ∈ params f.
Proof using.
  unfold modified. generalize (Clight.fn_Body f) as s. intros s.
  enough (H : scanForModifiedParams (params f) s ∅ ⊆ params f) by apply H.
  induction s as [|l r|id r|r g es|r b es|s1 s2 IH1 IH2|c s1 s2 IH1 IH2|s1 s2 IH1 IH2| | |a|a cases d h Hcases IHd|l s IH|l]
    using Clight.Stmt_nested_ind; cbn [scanForModifiedParams]; try apply empty_subseteq; try done;
    try (rewrite (scan_union _ s2); by apply union_subseteq).
  - destruct l; try apply empty_subseteq. destruct (decide _); [set_solver|apply empty_subseteq].
  - rewrite (scan_union _ d). apply union_subseteq. split; [|done]. clear IHd.
    assert (H : forall X, X ⊆ params f -> fold_left (fun X sc => scanForModifiedParams (params f) sc.2 X) cases X ⊆ params f).
    { induction Hcases as [|sc cases Hs _ IH]; intros X HX; [done|]. cbn [fold_left]. apply IH.
      rewrite (scan_union _ sc.2). by apply union_subseteq. }
    apply H, empty_subseteq.
Qed.

Lemma shadows_params x id :
  names_ok f = true -> (shadows f).1 !! x = Some id -> is_param f x = true /\ shadow_id f id = true.
Proof using. intros names [Hx Hid]%shadows_elem. split; [|done]. by apply is_param_elem, modified_params. Qed.
End Shadows.

(** ** Functions *)

(** What the pass asks of a function. *)
Definition cshmgen_ok (defs : gmap string (list Ctypes.Field)) (gs : list Clight.VarDecl) (f : Clight.Function) : bool :=
  names_ok f && stmt_ok f gs defs false false (Clight.fn_Body f).

Section Functions.
  Context {M : Type} `{FO : FloatOps} `{LO : Layout} `{TS : TargetSemantics val M}.
  Context {VT : ValueTarget M} {darwin : bool} {PC : PseudoCalls val M darwin}.
  Context `{NO : NameOrder} (defs : gmap string (list Ctypes.Field)) (gs : list Clight.VarDecl) (f : Clight.Function).
  Context (ok : cshmgen_ok defs gs f = true).
  Local Abbreviation temps := (shadows f).1.

(** The copies of parameters. *)
Definition assigns (xs : list (string * Z)) : list Csharpminor.Stmt :=
  (fun xid => Structured.Sassign xid.2 (Csharpminor.Evar xid.1)) <$> xs.

(** The function with the body [tbody]. *)
Definition translation (tbody : Csharpminor.Stmt) : Csharpminor.Function :=
  Csharpminor.mkFunction (Clight.fn_Name f)
    (Csharpminor.mkSig (Clight.vd_Type <$> Clight.fn_Params f) (Clight.fn_Return f) false)
    (Clight.vd_Name <$> Clight.fn_Params f) (decl_of defs <$> Clight.fn_Locals f)
    (all_temp_types f temps (shadows f).2)
    (if decide (temps = ∅) then tbody else Structured.Seq (assigns (range_names 1 temps) ++ [tbody])).

Definition start (st : translators) : translators := mkTranslators (stringCounter st) (strings st) temps (shadows f).2.

Lemma translate_unfold st :
  translateFunctionWithStructs f defs st =
    '(tbody, st') ← TranslateStmt temps (params f) (Clight.fn_Body f) (start st);
    Some (translation tbody, mkTranslators (stringCounter st') (strings st') ∅ 0).
Proof using.
  unfold translateFunctionWithStructs, translation, start, assigns, shadows, params.
  by destruct (shadow_temps _ _) as [ts next].
Qed.

(** *** Before the body: the parameters are copied *)

Lemma seq_snoc (l : list Csharpminor.Stmt) s :
  Structured.Seq (l ++ [s]) =
    if Structured.is_skip (Structured.Seq l) then s
    else if Structured.is_skip s then Structured.Seq l else Structured.Sseq (Structured.Seq l) s.
Proof using. unfold Structured.Seq. by rewrite foldl_app. Qed.

Lemma assigns_snoc xs x : assigns (xs ++ [x]) = assigns xs ++ [Structured.Sassign x.2 (Csharpminor.Evar x.1)].
Proof using. unfold assigns. by rewrite fmap_app. Qed.

Lemma assigns_skip xs : Structured.is_skip (Structured.Seq (assigns xs)) = bool_decide (xs = []).
Proof using.
  induction xs as [|x xs _] using rev_ind; [done|]. rewrite assigns_snoc, seq_snoc, bool_decide_false by by destruct xs. by destruct (Structured.is_skip (Structured.Seq _)) eqn:E.
Qed.

Lemma assigns_labels l xs k : find_stmt l (Structured.Seq (assigns xs)) k = None.
Proof using.
  revert k. induction xs as [|x xs IH] using rev_ind; intros k; [done|]. rewrite assigns_snoc, seq_snoc. destruct (Structured.is_skip _); [done|]. cbn. by rewrite IH.
Qed.

(** The variables after the copies. *)
Definition loaded (args : gmap string val) (xs : list (string * Z)) (e : gmap Z val) : gmap Z val :=
  foldl (fun e xid => match args !! xid.1 with Some v => <[xid.2 := v]> e | None => e end) e xs.

Lemma loaded_lookup args xs e x id v :
  (x, id) ∈ xs -> (forall y, (y, id) ∈ xs -> y = x) -> args !! x = Some v -> loaded args xs e !! id = Some v.
Proof using.
  intros Hin Hid Hv. induction xs as [|[y j] xs IH] using rev_ind; [by apply elem_of_nil in Hin|].
  unfold loaded in *. rewrite foldl_app. cbn. destruct (decide (j = id)) as [->|Hj].
  - rewrite (Hid y) by (apply elem_of_app; right; by left). rewrite Hv. by rewrite lookup_insert_eq.
  - apply elem_of_app in Hin as [Hin|Hin]; [|apply list_elem_of_singleton in Hin; congruence].
    assert (loaded args xs e !! id = Some v) as Hl.
    { apply IH; [done|]. intros y' Hy'. apply Hid, elem_of_app. by left. }
    unfold loaded in Hl. destruct (args !! y); [by rewrite lookup_insert_ne|done].
Qed.

Lemma bind_params_elem params args x :
  length args = length params -> x ∈ params -> is_Some (bind_params params args !! x).
Proof using.
  unfold bind_params. intros Hl Hx.
  assert (H : forall e : gmap string val, x ∈ params \/ is_Some (e !! x) -> is_Some (foldl (fun (e : gmap string val) xv => <[xv.1:=xv.2]> e) e (zip params args) !! x)).
  { clear Hx. revert args Hl. induction params as [|y params IH]; intros [|v args] Hl e; try done; cbn.
    - intros [H%elem_of_nil|]; done.
    - intros Hx. apply IH; [by injection Hl|]. destruct (decide (y = x)) as [->|Hne]; [right; by rewrite lookup_insert_eq|].
      rewrite lookup_insert_ne by done. destruct Hx as [[]%elem_of_cons|]; auto. congruence. }
  apply H. by left.
Qed.

Section Run.
  Context (extra : list Csharpminor.VarDecl) (place : string -> Z) (lit : string -> val) (args : list val) (tbody : Csharpminor.Stmt).
  Context (args_length : length args = length (Clight.fn_Params f)).
  Local Abbreviation f' := (translation tbody).
  Local Abbreviation ps := (bind_params (Clight.vd_Name <$> Clight.fn_Params f) args).
  Local Abbreviation run := (cs_step (PC := PC) f' (all_globals gs defs extra) place args).
  Local Abbreviation xs := (range_names 1 temps).

Lemma shadow_elem x id : (x, id) ∈ xs <-> temps !! x = Some id.
Proof using. by rewrite range_names_perm, elem_of_map_to_list. Qed.

Lemma copied x id (e : gmap Z val) (m : M) :
  (x, id) ∈ xs -> exists v, ps !! x = Some v /\ cs_expr f' (all_globals gs defs extra) place ps e m (Csharpminor.Evar x) = Some v.
Proof using ok args_length.
  intros Hx%shadow_elem. pose proof ok as Hok. unfold cshmgen_ok in Hok. destruct_andb.
  destruct (shadows_params f x id) as [Hp _]; [done..|]. destruct (bind_params_elem (Clight.vd_Name <$> Clight.fn_Params f) args x) as [v Hv].
  - by rewrite length_fmap.
  - unfold is_param in Hp. destruct_andb. by eapply bool_decide_eq_true.
  - exists v. split; [done|]. cbn. unfold cs_var. rewrite (meaning_of f gs defs) by done.
    by rewrite param_find, Hp.
Qed.

Lemma assigns_steps ys k e m :
  (forall y, y ∈ ys -> y ∈ xs) ->
  rtc (steps_to run) (Structured.Seq (assigns ys), k, e, m) (Structured.Sskip, k, loaded ps ys e, m).
Proof using ok args_length.
  revert k. induction ys as [|[x id] ys IH] using rev_ind; intros k Hys; [apply rtc_refl|].
  destruct (copied x id (loaded ps ys e) m) as (v & Hv & Hx); [apply Hys, elem_of_app; right; by left|].
  assert (E : loaded ps (ys ++ [(x, id)]) e = <[id := v]> (loaded ps ys e)) by (unfold loaded; rewrite foldl_app; cbn; by rewrite Hv).
  rewrite E. assert (Hlast : forall k, run (Structured.Sassign id (Csharpminor.Evar x), k, loaded ps ys e, m) =
    Next (Structured.Sskip, k, <[id := v]> (loaded ps ys e), m)) 
    by (intros k'; exact (f_equal (fun o => step_opt o (fun w => Next (Structured.Sskip, k', <[id := w]> (loaded ps ys e), m))) Hx)).
  rewrite assigns_snoc, seq_snoc, assigns_skip. cbn [Structured.is_skip fst snd]. destruct ys as [|y ys].
  - rewrite bool_decide_true by done. apply rtc_once, Hlast.
  - rewrite bool_decide_false by done. eapply rtc_l; [reflexivity|]. etrans; [apply IH; intros z Hz; apply Hys, elem_of_app; by left|].
    eapply rtc_l; [reflexivity|]. apply rtc_once, Hlast.
Qed.

(** The function gets to its body with the parameters copied. *)
Lemma start_steps m : rtc (steps_to run) (cs_init f' m) (tbody, [], loaded ps xs ∅, m).
Proof using ok args_length.
  unfold cs_init. destruct (decide (temps = ∅)) as [E|E].
  - assert (xs = []) as -> by (apply Permutation_nil_r; rewrite range_names_perm, E; by rewrite map_to_list_empty).
    assert (Csharpminor.fn_Body f' = tbody) as -> by (cbn; by rewrite decide_True). apply rtc_refl.
  - assert (xs <> []) as Hxs.
    { intros H. apply E. apply map_to_list_empty_iff. apply Permutation_nil_r. by rewrite <- range_names_perm, H. }
    assert (Csharpminor.fn_Body f' =
      if Structured.is_skip tbody then Structured.Seq (assigns xs) else Structured.Sseq (Structured.Seq (assigns xs)) tbody) as ->.
    { cbn. rewrite decide_False by done. by rewrite seq_snoc, assigns_skip, bool_decide_false. }
    pose proof (fun k => assigns_steps xs k ∅ m (fun y H => H)) as Hsteps.
    destruct (Structured.is_skip tbody) eqn:Et.
    + assert (H : forall t, t = Structured.Sskip -> rtc (steps_to run) (Structured.Seq (assigns xs), [], ∅, m) (t, [], loaded ps xs ∅, m))
        by (intros t ->; apply Hsteps).
      apply H. clear -Et. by destruct tbody.
    + eapply rtc_l; [reflexivity|]. etrans; [apply Hsteps|]. by apply rtc_once.
Qed.
End Run.

Lemma translation_labels tbody l : find_stmt l (Csharpminor.fn_Body (translation tbody)) [] = find_stmt l tbody [].
Proof using.
  cbn. destruct (decide _); [done|]. rewrite seq_snoc, assigns_skip. destruct (bool_decide _); [done|].
  destruct (Structured.is_skip tbody) eqn:E.
  - rewrite assigns_labels. by destruct tbody.
  - cbn. by rewrite assigns_labels.
Qed.

Lemma ok_spec : names_ok f = true /\ stmt_ok f gs defs false false (Clight.fn_Body f) = true.
Proof using ok. pose proof ok as Hok. unfold cshmgen_ok in Hok. by apply andb_true_iff. Qed.

(** The body is translated; its translation does what it does. *)
Lemma body_gives extra f' place lit args :
  Forall (fun d => label_like (Csharpminor.vd_Name d) = true) extra ->
  Csharpminor.fn_Locals f' = decl_of defs <$> Clight.fn_Locals f ->
  Csharpminor.fn_Params f' = Clight.vd_Name <$> Clight.fn_Params f ->
  gives lit temps (TranslateStmt temps (params f) (Clight.fn_Body f))
    (translates (M := M) f gs defs extra f' place lit args temps false false (Clight.fn_Body f)).
Proof using ok.
  intros Hx Hl Hp. destruct ok_spec as [Hn Hs]. apply stmt_gives; try done.
  - intros x id. by apply shadows_params.
  - apply shadows_dom.
Qed.

Lemma translate_total st :
  Forall labelled (strings st) ->
  exists tbody st', TranslateStmt temps (params f) (Clight.fn_Body f) (start st) = Some (tbody, st') /\
    strings st `prefix_of` strings st' /\ Forall labelled (strings st').
Proof using ok VT.
  intros Hst. destruct (body_gives [] (translation Structured.Sskip) (fun _ => 0) (fun _ => Vint 0) ∅ (List.Forall_nil _) eq_refl eq_refl (start st) eq_refl)
    as (tbody & st' & E & _ & Hp & Hl & _). exists tbody, st'. split; [exact E|]. split; [exact Hp|by apply Hl].
Qed.

Lemma cshmgen_preserves st tbody st' extra place lit args (m : M) :
  TranslateStmt temps (params f) (Clight.fn_Body f) (start st) = Some (tbody, st') ->
  Forall (at_label lit) (strings st') -> Forall (fun d => label_like (Csharpminor.vd_Name d) = true) extra ->
  length args = length (Clight.fn_Params f) ->
  let f' := translation tbody in
  let run := cl_step (PC := PC) f gs place lit in let run' := cs_step (PC := PC) f' (all_globals gs defs extra) place args in
  (forall r, terminates run (cl_init f args m) r -> terminates run' (cs_init f' m) r) /\
  (safe run (cl_init f args m) ->
   safe run' (cs_init f' m) /\ forall r, terminates run' (cs_init f' m) r -> terminates run (cl_init f args m) r).
Proof using ok.
  intros E Hlit Hx Hargs f' run run'. destruct ok_spec as [Hn _].
  set (ps := bind_params (Clight.vd_Name <$> Clight.fn_Params f) args).
  destruct (body_gives extra f' place lit ps Hx eq_refl eq_refl (start st) eq_refl) as (t & st1 & E' & _ & _ & _ & Ht).
  rewrite E in E'. injection E' as <- <-. specialize (Ht Hlit).
  pose proof (start_steps extra place args tbody Hargs m) as Hstart. fold f' run' in Hstart.
  fold ps in Hstart. match type of Hstart with rtc _ _ ?t => set (t0 := t) in Hstart end.
  assert (Hsim : sim f gs defs extra f' place lit ps temps (cl_init f args m) t0).
  { eapply sim_intro; [exact Ht|apply rel_nil|]. split; [by intros id v _|]. intros x v Hp Hv.
    destruct (temps !! x) as [id|] eqn:Hid; [|exact Hv]. eapply loaded_lookup; [by apply shadow_elem| |exact Hv].
    intros y Hy%shadow_elem. by eapply shadows_inj. }
  destruct (sim_preserves f gs defs extra f' place lit ps temps (fun x id => shadows_params f x id Hn) (shadows_inj f) tbody Ht
    (translation_labels tbody) _ _ Hsim) as [H1 H2]. split.
  - intros r Hr. apply (terminates_rtc _ _ _ _ Hstart). by apply H1.
  - intros Hs. destruct (H2 Hs) as [Hs' Hr']. split; [by eapply safe_rtc|].
    intros r Hr. apply Hr'. by apply (terminates_rtc _ _ _ _ Hstart).
Qed.
End Functions.

(** ** Programs *)

Section Pass.
  Context {M : Type} `{FO : FloatOps} `{LO : Layout} `{TS : TargetSemantics val M}.
  Context {VT : ValueTarget M} {darwin : bool} {PC : PseudoCalls val M darwin}.
  Context `{NO : NameOrder}.

Definition struct_defs (p : Clight.Program) : gmap string (list Ctypes.Field) :=
  fold_left (fun defs s => <[s.1 := s.2]> defs) (Clight.Structs p) ∅.

(** What the pass asks of a program. *)
Definition clight_ok (p : Clight.Program) : bool :=
  forallb (cshmgen_ok (struct_defs p) (Clight.Globals p)) (Clight.Functions p).

(** String literals are where their variables are. *)
Definition literals_at (lit : string -> val) (p : Csharpminor.Program) : Prop :=
  forall l, string_global l ∈ Csharpminor.Globals p -> at_label lit l.

Lemma functions_translated defs gs fns st :
  forallb (cshmgen_ok defs gs) fns = true -> Forall labelled (strings st) ->
  exists fs st', translate_functions defs fns st = Some (fs, st') /\
    strings st `prefix_of` strings st' /\ Forall labelled (strings st') /\
    forall i f, fns !! i = Some f -> exists tbody st1 st2,
      TranslateStmt (shadows f).1 (params f) (Clight.fn_Body f) (start f st1) = Some (tbody, st2) /\
      strings st2 `prefix_of` strings st' /\ fs !! i = Some (translation defs f tbody).
Proof using VT.
  revert st. induction fns as [|f fns IH]; intros st Hok Hst; [by exists [], st|].
  cbn in Hok. destruct_andb. destruct (translate_total (M := M) defs gs f) with (st := st) as (tbody & st1 & E & Hp1 & Hl1); [done..|].
  destruct (IH (mkTranslators (stringCounter st1) (strings st1) ∅ 0)) as (fs & st' & E' & Hp' & Hl' & Hfs); [done..|].
  exists (translation defs f tbody :: fs), st'. split; [|split; [|split; [done|]]].
  - cbn [translate_functions]. unfold mbind, CM_bind. rewrite translate_unfold, E. cbn [mbind option_bind]. by rewrite E'.
  - by etrans.
  - intros [|i] g Hg; [|by apply Hfs]. injection Hg as <-. by exists tbody, st, st1.
Qed.

(** The translated functions, one by one. *)
Lemma TranslateProgram_preserves p :
  clight_ok p = true ->
  exists p', TranslateProgram p = Some p' /\
    forall i f, Clight.Functions p !! i = Some f ->
      exists f', Csharpminor.Functions p' !! i = Some f' /\ length (Csharpminor.fn_Params f') = length (Clight.fn_Params f) /\
      forall place lit args (m : M), literals_at lit p' -> length args = length (Clight.fn_Params f) ->
        let run := cl_step (PC := PC) f (Clight.Globals p) place lit in
        let run' := cs_step (PC := PC) f' (Csharpminor.Globals p') place args in
        (forall r, terminates run (cl_init f args m) r -> terminates run' (cs_init f' m) r) /\
        (safe run (cl_init f args m) ->
         safe run' (cs_init f' m) /\
         forall r, terminates run' (cs_init f' m) r -> terminates run (cl_init f args m) r).
Proof using VT.
  intros Hok. destruct (functions_translated (struct_defs p) (Clight.Globals p) (Clight.Functions p) NewExprTranslator)
    as (fs & st' & E & _ & Hl & Hfs); [done..|].
  unfold TranslateProgram. fold (struct_defs p). rewrite E. eexists. split; [reflexivity|].
  intros i f Hi. destruct (Hfs i f Hi) as (tbody & st1 & st2 & Et & Hp & Hf). exists (translation (struct_defs p) f tbody). split; [exact Hf|].
  split; [by cbn; rewrite length_fmap|].
  intros place lit args m Hlit Hargs. apply (cshmgen_preserves (struct_defs p) (Clight.Globals p) f) with (st := st1) (st' := st2); try done.
  - unfold clight_ok in Hok. rewrite forallb_forall in Hok. apply Hok. apply list_elem_of_In. by eapply list_elem_of_lookup_2.
  - apply Forall_forall. intros l Hin. apply Hlit. cbn. apply elem_of_app. right. apply list_elem_of_fmap_2.
    destruct Hp as [rest ->]. apply elem_of_app. by left.
  - apply Forall_forall. intros d (l & -> & Hin)%list_elem_of_fmap_1. rewrite Forall_forall in Hl. by apply Hl.
Qed.
End Pass.

(** ** Operators *)

(** Where the translator's choice for operands of arithmetic types is that of
    C: operands of the same kind, with the sign of the left one deciding for
    division; and integers that are compared, unless one is an [unsigned long]
    and the other a signed [int]. *)
Definition same_kind (t1 t2 : Type_) : bool :=
  match t1, t2 with
  | Some (Ctypes.Tint _ _), Some (Ctypes.Tint _ _) | Some (Ctypes.Tlong _), Some (Ctypes.Tlong _) => true
  | Some (Ctypes.Tfloat s1), Some (Ctypes.Tfloat s2) => bool_decide (s1 = s2)
  | _, _ => false
  end.

Definition common_unsigned (t1 t2 : Type_) : bool :=
  match promoted t1, promoted t2 with
  | Some a1, Some a2 => match common a1 a2 with AInt u | ALong u => u | _ => unsigned t1 end
  | _, _ => false
  end.

Definition is_integer (t : Type_) : bool := is_int t || is_long t.

Definition faithful (op : Clight.BinaryOp) (t1 t2 : Type_) : bool :=
  match op with
  | Clight.Oshl | Clight.Oshr => true
  | Clight.Odiv | Clight.Omod => same_kind t1 t2 && bool_decide (unsigned t1 = common_unsigned t1 t2)
  | Clight.Oeq | Clight.One | Clight.Olt | Clight.Ogt | Clight.Ole | Clight.Oge =>
      same_kind t1 t2 ||
      (is_integer t1 && is_integer t2 &&
       ((unsigned t1 || is_long t1) && (unsigned t2 || is_long t2) || negb (common_unsigned t1 t2)))
  | _ => same_kind t1 t2
  end.

Definition all_ops : list Clight.BinaryOp :=
  [Clight.Oadd; Clight.Osub; Clight.Omul; Clight.Odiv; Clight.Omod; Clight.Oeq; Clight.One; Clight.Olt; Clight.Ogt;
   Clight.Ole; Clight.Oge; Clight.Oand; Clight.Oor; Clight.Oxor; Clight.Oshl; Clight.Oshr].

Definition arithmetic_types : list Ctypes.Type_ :=
  (s ← [Ctypes.I8; Ctypes.I16; Ctypes.I32; Ctypes.IBool]; Ctypes.Tint s <$> [Ctypes.Signed; Ctypes.Unsigned]) ++
  (Ctypes.Tlong <$> [Ctypes.Signed; Ctypes.Unsigned]) ++ (Ctypes.Tfloat <$> [Ctypes.F32; Ctypes.F64]).

Lemma arithmetic_elem t : is_Some (promoted (Some t)) -> In t arithmetic_types.
Proof. intros [a Ha]. destruct t as [|[] []|[]|[]|?|? ?|? ? ?|? ?|? ?]; try done; cbn; tauto. Qed.

Lemma faithful_table :
  forallb (fun op => forallb (fun t1 => forallb (fun t2 =>
    match binop_plan op (Some t1) (Some t2) with
    | Some p => eqb (bool_decide (translated_plan op (Some t1) (Some t2) = p)) (faithful op (Some t1) (Some t2))
    | None => true
    end) arithmetic_types) arithmetic_types) all_ops = true.
Proof. vm_compute. reflexivity. Qed.

(** C35. The operators for operands of arithmetic types are those of C after the
    usual arithmetic conversions exactly where [faithful] says: not for
    operands of different kinds, such as an [int] and a [long], which are not
    converted; not for a division whose left operand is signed and the right
    one unsigned; not for a comparison of an [unsigned long] and a signed
    [int]. *)
Theorem TranslateBinaryOp_exact op t1 t2 p :
  is_Some (promoted (Some t1)) -> is_Some (promoted (Some t2)) -> binop_plan op (Some t1) (Some t2) = Some p ->
  (translated_plan op (Some t1) (Some t2) = p <-> faithful op (Some t1) (Some t2) = true).
Proof.
  intros H1%arithmetic_elem H2%arithmetic_elem Hp.
  pose proof faithful_table as H. rewrite forallb_forall in H. specialize (H op ltac:(destruct op; cbn; tauto)).
  rewrite forallb_forall in H. specialize (H t1 H1). rewrite forallb_forall in H. specialize (H t2 H2).
  rewrite Hp in H. apply eqb_prop in H. by rewrite <- H, bool_decide_eq_true.
Qed.

Lemma TranslateBinaryOp_exact_witness :
  translated_plan Clight.Olt (Some Ctypes.Int) (Some Ctypes.Long) = mkPlan [Cminor.Olongofint] [] Cminor.Ocmpl (Some Cminor.Clt) /\
  translated_plan Clight.Oadd (Some Ctypes.Int) (Some Ctypes.Long) <> mkPlan [Cminor.Olongofint] [] Cminor.Oaddl None.
Proof.
  split.
  - apply (TranslateBinaryOp_exact Clight.Olt Ctypes.Int Ctypes.Long); [by eexists|by eexists|reflexivity|reflexivity].
  - intros H. apply (TranslateBinaryOp_exact Clight.Oadd Ctypes.Int Ctypes.Long) in H; [discriminate|by eexists|by eexists|reflexivity].
Defined.

(** ** What goes wrong *)

Section Defects.
  Context {M : Type} `{FO : FloatOps} `{LO : Layout} `{TS : TargetSemantics val M}.
  Context {VT : ValueTarget M} {darwin : bool} {PC : PseudoCalls val M darwin}.

(** A number that is added to a pointer is not multiplied by the size of what
    the pointer points to. *)
Lemma pointer_unscaled f gs place args e (m : M) elem a1 a2 p n :
  cs_expr f gs place args e m a1 = Some (Vlong p) -> cs_expr f gs place args e m a2 = Some (Vlong n) ->
  let pointer := Some (Ctypes.Tpointer elem) in let long := Some Ctypes.Long in
  cs_expr f gs place args e m (binop Clight.Oadd pointer long a1 a2) = Some (Vlong (i64 (p + n))) /\
  sem_binop Clight.Oadd pointer long (Vlong p) (Vlong n) = Some (Vlong (i64 (p + n * sizeofType elem))).
Proof using. intros H1 H2 pointer long. split; [cbn; by rewrite H1, H2|done]. Qed.

(** A break leaves the switch it is in, but its translation the loop around the
    switch. *)
Lemma break_leaves_loop f gs place lit f' gs' args s1 s2 t1 t2 k tk e ps e' (m : M) :
  cl_step (PC := PC) f gs place lit (Clight.Sbreak, Kswitch :: Kloop1 s1 s2 :: k, e, ps, m) =
    Next (Clight.Sskip, Kloop1 s1 s2 :: k, e, ps, m) /\
  cs_step (PC := PC) f' gs' place args (Structured.Sexit 1, Fblock :: body_rest t1 t2 tk, e', m) =
    Next (Structured.Sskip, tk, e', m).
Proof using. split; [done|]. unfold body_rest, loop_rest. by destruct t2. Qed.
End Defects.

(** ** Example *)

Section Example.
Import Clight.
Local Open Scope string_scope.

Definition pair_type : Type_ := Some (Ctypes.Tstruct "pair" [("c", Ctypes.Char); ("v", Ctypes.Int)]).
Definition int : Type_ := Some Ctypes.Int.
Definition num (n : Z) : Expr := Econst_int n int.

(** [struct pair p; p.v = 0;
     for (; !(n < 1); n = n - 1) p.v = p.v + n;
     t = ext("hi", &p); switch (p.v) { case 6: return t; }
     return 0;] *)
Definition sum_fn : Function :=
  let p := Evar "p" pair_type in let v := Efield p "v" int in let n := Evar "n" int in
  mkFunction "sum" int [mkVarDecl "n" int []] [mkVarDecl "p" pair_type []] [None; int]
    (Clight.Seq [
      Sassign v (num 0);
      Sloop (Ssequence (Sifthenelse (Ebinop Olt n (num 1) int) Sbreak Sskip) (Sassign v (Ebinop Oadd v n int)))
        (Sassign n (Ebinop Osub n (num 1) int));
      Scall (Some 1) (Evar "ext" None) [Estring "hi" None; Eaddrof p (Some (Ctypes.Tpointer pair_type))];
      Sswitch v [(6, Sreturn (Some (Etempvar 1 int)))] Sskip false;
      Sreturn (Some (num 0))]).

Definition sum_prog : Program := mkProgram [("pair", [("c", Ctypes.Char); ("v", Ctypes.Int)])] [] [] [sum_fn].
End Example.

