(* ===== verification/Cpp.v ===== *)
(** Preprocessing tokens and the lexer of the preprocessor
    ([src/pkg/cpp/lexer.go]). *)

From Stdlib Require Import Ascii.
From S2P Require Import Prelude.

(** ** Tokens *)

Inductive TokenType :=
| PP_EOF | PP_IDENTIFIER | PP_NUMBER | PP_CHAR_CONST | PP_STRING | PP_PUNCTUATOR
| PP_HASH | PP_HASHHASH | PP_NEWLINE | PP_WHITESPACE | PP_HEADER_NAME | PP_PLACEHOLDER.

#[export] Instance TokenType_eq_dec : EqDecision TokenType.
Proof. solve_decision. Defined.

Definition TokenType_String (t : TokenType) : string :=
  match t with
  | PP_EOF => "EOF" | PP_IDENTIFIER => "IDENTIFIER" | PP_NUMBER => "NUMBER" | PP_CHAR_CONST => "CHAR_CONST"
  | PP_STRING => "STRING" | PP_PUNCTUATOR => "PUNCTUATOR" | PP_HASH => "HASH" | PP_HASHHASH => "HASHHASH"
  | PP_NEWLINE => "NEWLINE" | PP_WHITESPACE => "WHITESPACE" | PP_HEADER_NAME => "HEADER_NAME" | PP_PLACEHOLDER => "PLACEHOLDER"
  end%string.

Record SourceLoc := mkLoc { File : string; Line : Z; Column : Z }.

Record Token := mkToken {
  Type_ : TokenType;
  Text : string;
  Loc : SourceLoc
}.

(** A token with a type and a text. *)
Definition is_token (ty : TokenType) (s : string) (t : Token) : bool :=
  bool_decide (Type_ t = ty) && bool_decide (Text t = s).

(** [TokensToString] *)
Definition TokensToString (tokens : list Token) : string := foldr (fun t s => (Text t ++ s)%string) EmptyString tokens.

(** ** Characters and strings *)

Definition newline : ascii := "010"%char.
Definition quote : ascii := "034"%char.
Definition apostrophe : ascii := "039"%char.
Definition backslash : ascii := "092"%char.

Definition between (lo hi c : ascii) : bool :=
  (N_of_ascii lo <=? N_of_ascii c)%N && (N_of_ascii c <=? N_of_ascii hi)%N.

Definition isWhitespace (c : ascii) : bool := bool_decide (c ∈ [" "; "009"; "013"; "012"; "011"]%char).
Definition isDigit (c : ascii) : bool := between "0" "9" c.
Definition isHexDigit (c : ascii) : bool := isDigit c || between "a" "f" c || between "A" "F" c.
Definition isIdentStart (c : ascii) : bool := between "a" "z" c || between "A" "Z" c || bool_decide (c = "_"%char).
Definition isIdentContinue (c : ascii) : bool := isIdentStart c || isDigit c.

(** The first [n] characters, and those after them. *)
Fixpoint before (n : nat) (s : string) : string :=
  match n, s with S n, String c s => String c (before n s) | _, _ => EmptyString end.

Fixpoint after (n : nat) (s : string) : string :=
  match n, s with S n, String _ s => after n s | _, _ => s end.

(** How many characters at the front have a property. *)
Fixpoint span (p : ascii -> bool) (s : string) : nat :=
  match s with
  | String c s => if p c then S (span p s) else O
  | EmptyString => O
  end.

(** ** The lexer *)

(** [Lexer]; of [input] there is what follows [pos]. *)
Record Lexer := mkLexer {
  rest : string;
  line : Z;
  column : Z;
  filename : string;
  atBOL : bool
}.

Definition NewLexer (input filename : string) : Lexer := mkLexer input 1 1 filename true.

Definition loc (l : Lexer) : SourceLoc := mkLoc (filename l) (line l) (column l).

Definition set_atBOL (b : bool) (l : Lexer) : Lexer := mkLexer (rest l) (line l) (column l) (filename l) b.

Definition peek (l : Lexer) : option ascii := String.get 0 (rest l).

(** [l.peekAt(offset)] and the tests of [l.input\[l.pos+offset\]] *)
Definition peekAt (offset : nat) (l : Lexer) : option ascii := String.get offset (rest l).

Definition advance (l : Lexer) : Lexer :=
  match rest l with
  | String c s =>
      if bool_decide (c = newline) then mkLexer s (line l + 1) 1 (filename l) (atBOL l)
      else mkLexer s (line l) (column l + 1) (filename l) (atBOL l)
  | EmptyString => l
  end.

Fixpoint advances (n : nat) (l : Lexer) : Lexer :=
  match n with O => l | S n => advances n (advance l) end.

(** [handleLineContinuation], at [s]: what follows, and how many lines it skips. *)
Fixpoint continuations (s : string) : string * nat :=
  match s with
  | String c (String d s') =>
      if bool_decide (c = backslash) && bool_decide (d = newline) then
        let '(r, n) := continuations s' in (r, S n)
      else (s, O)
  | _ => (s, O)
  end.

Definition handleLineContinuation (l : Lexer) : Lexer :=
  match continuations (rest l) with
  | (_, O) => l
  | (s, n) => mkLexer s (line l + Z.of_nat n) 1 (filename l) (atBOL l)
  end.

(** The token of the next [n] characters. *)
Definition scan (n : nat) (ty : TokenType) (l : Lexer) : Token * Lexer :=
  (mkToken ty (before n (rest l)) (loc l), advances n l).

(** A comment of [n] characters: a space. *)
Definition scan_comment (n : nat) (l : Lexer) : Token * Lexer :=
  (mkToken PP_WHITESPACE " " (loc l), advances n l).

Definition scanWhitespace (l : Lexer) : Token * Lexer := scan (span isWhitespace (rest l)) PP_WHITESPACE l.

Definition line_rest (s : string) : nat := span (fun c => negb (bool_decide (c = newline))) s.

Definition scanLineComment (l : Lexer) : Token * Lexer := scan_comment (2 + line_rest (after 2 (rest l))) l.

(** The length of a comment, after its first two characters. *)
Fixpoint comment_length (s : string) : nat :=
  match s with
  | String c s' =>
      match s' with
      | String d _ => if bool_decide (c = "*"%char) && bool_decide (d = "/"%char) then 2%nat else S (comment_length s')
      | EmptyString => 1%nat
      end
  | EmptyString => O
  end.

Definition scanBlockComment (l : Lexer) : Token * Lexer := scan_comment (2 + comment_length (after 2 (rest l))) l.

Definition scanHash (l : Lexer) : Token * Lexer :=
  match peekAt 1 l with
  | Some d => if bool_decide (d = "#"%char) then scan 2 PP_HASHHASH (set_atBOL false l) else scan 1 PP_HASH (set_atBOL false l)
  | None => scan 1 PP_HASH (set_atBOL false l)
  end.

(** The length of a literal that [q] ends, after the first [q]; it ends before a
    newline that is not escaped, too. *)
Fixpoint quoted_length (q : ascii) (s : string) : nat :=
  match s with
  | EmptyString => O
  | String c s' =>
      if bool_decide (c = q) then 1%nat
      else
        match s' with
        | String _ s'' =>
            if bool_decide (c = backslash) then S (S (quoted_length q s''))
            else if bool_decide (c = newline) then O else S (quoted_length q s')
        | EmptyString => if bool_decide (c = newline) then O else 1%nat
        end
  end.

Definition scanString (l : Lexer) : Token * Lexer := scan (S (quoted_length quote (after 1 (rest l)))) PP_STRING l.
Definition scanCharConst (l : Lexer) : Token * Lexer := scan (S (quoted_length apostrophe (after 1 (rest l)))) PP_CHAR_CONST l.

(** Preprocessing numbers; a sign may follow an exponent letter. *)
Fixpoint number_length (s : string) : nat :=
  match s with
  | String c s' =>
      if isIdentContinue c || bool_decide (c = "."%char) then
        match s' with
        | String d s'' =>
            if bool_decide (c ∈ ["e"; "E"; "p"; "P"]%char) && bool_decide (d ∈ ["+"; "-"]%char) then S (S (number_length s''))
            else S (number_length s')
        | EmptyString => 1%nat
        end
      else O
  | EmptyString => O
  end.

Definition scanNumber (l : Lexer) : Token * Lexer := scan (number_length (rest l)) PP_NUMBER l.

(** [scanIdentifier], at [s]: line continuations are skipped. *)
Fixpoint identifier (s : string) (ln col : Z) : string * (string * Z * Z) :=
  match s with
  | String c s' =>
      let continue :=
        if isIdentContinue c then let '(text, st) := identifier s' ln (col + 1) in (String c text, st)
        else (EmptyString, (s, ln, col)) in
      match s' with
      | String d s'' => if bool_decide (c = backslash) && bool_decide (d = newline) then identifier s'' (ln + 1) 1 else continue
      | EmptyString => continue
      end
  | EmptyString => (EmptyString, (s, ln, col))
  end.

Definition scanIdentifier (l : Lexer) : Token * Lexer :=
  let '(text, (s, ln, col)) := identifier (rest l) (line l) (column l) in
  (mkToken PP_IDENTIFIER text (loc l), mkLexer s ln col (filename l) (atBOL l)).

Definition punctuator_length (s : string) : nat :=
  if bool_decide (before 3 s ∈ ["<<="; ">>="; "..."]%string) then 3%nat
  else if bool_decide (before 2 s ∈ ["->"; "++"; "--"; "<<"; ">>"; "<="; ">="; "=="; "!="; "&&"; "||"; "*="; "/="; "%="; "+="; "-="; "&="; "^="; "|="]%string)
  then 2%nat else 1%nat.

Definition scanPunctuator (l : Lexer) : Token * Lexer := scan (punctuator_length (rest l)) PP_PUNCTUATOR l.

Definition is_char (c : ascii) (o : option ascii) : bool := bool_decide (o = Some c).

(** [NextToken] after line continuations, at the character [c] *)
Definition next_token (c : ascii) (l : Lexer) : Token * Lexer :=
  let next := peekAt 1 l in
  if bool_decide (c = newline) then (mkToken PP_NEWLINE (String newline EmptyString) (loc l), set_atBOL true (advance l))
  else if isWhitespace c then scanWhitespace l
  else if bool_decide (c = "/"%char) && is_char "/" next then scanLineComment l
  else if bool_decide (c = "/"%char) && is_char "*" next then scanBlockComment l
  else if bool_decide (c = "#"%char) && atBOL l then scanHash l
  else
    let l := set_atBOL false l in
    if bool_decide (c = "#"%char) then
      if is_char "#" next then scan 2 PP_HASHHASH l else scan 1 PP_PUNCTUATOR l
    else if bool_decide (c = quote) then scanString l
    else if bool_decide (c = apostrophe) then scanCharConst l
    else if isDigit c || bool_decide (c = "."%char) && match next with Some d => isDigit d | None => false end then scanNumber l
    else if isIdentStart c then scanIdentifier l
    else scanPunctuator l.

Definition NextToken (l : Lexer) : Token * Lexer :=
  let l := handleLineContinuation l in
  match peek l with
  | None => (mkToken PP_EOF EmptyString (loc l), l)
  | Some c => next_token c l
  end.

(** The loop of [AllTokens]: at most [fuel] tokens. *)
Fixpoint all_tokens (fuel : nat) (l : Lexer) : option (list Token) :=
  match fuel with
  | O => None
  | S fuel =>
      let '(t, l) := NextToken l in
      if bool_decide (Type_ t = PP_EOF) then Some [t] else cons t <$> all_tokens fuel l
  end.

(** Every token but the last takes a character at least ([all_tokens_cut]). *)
Definition AllTokens (l : Lexer) : option (list Token) := all_tokens (S (String.length (rest l))) l.

(** The header name after [#include]. *)
Definition header_length (close : ascii) (s : string) : nat :=
  let n := span (fun c => negb (bool_decide (c = close)) && negb (bool_decide (c = newline))) s in
  if is_char close (String.get n s) then S n else n.

Definition ScanHeaderName (l : Lexer) : Token * Lexer :=
  let l := advances (span isWhitespace (rest l)) l in
  match peek l with
  | None => (mkToken PP_EOF EmptyString (loc l), l)
  | Some c =>
      if bool_decide (c = "<"%char) then scan (S (header_length ">" (after 1 (rest l)))) PP_HEADER_NAME l
      else if bool_decide (c = quote) then scan (S (header_length quote (after 1 (rest l)))) PP_HEADER_NAME l
      else NextToken l
  end.

(** ** Strings *)

Lemma before_after n s : (before n s ++ after n s)%string = s.
Proof. revert s. induction n as [|n IH]; intros [|c s]; [done..|exact (f_equal (String c) (IH s))]. Qed.

Lemma length_after n s : String.length (after n s) = (String.length s - n)%nat.
Proof. revert s. induction n as [|n IH]; intros [|c s]; cbn; [done..|]. apply IH. Qed.

Lemma rest_advance l : rest (advance l) = after 1 (rest l).
Proof. unfold advance. destruct (rest l) as [|c s] eqn:E; cbn; [done|]. by case_bool_decide. Qed.

Lemma rest_advances n l : rest (advances n l) = after n (rest l).
Proof.
  revert l. induction n as [|n IH]; intros l; [done|]. cbn [advances]. rewrite IH, rest_advance. destruct (rest l); [by destruct n|done].
Qed.

Lemma string_app_assoc (a b c : string) : (a ++ (b ++ c))%string = ((a ++ b) ++ c)%string.
Proof. induction a as [|x a IH]; [done|exact (f_equal (String x) IH)]. Qed.

Lemma string_app_nil (a : string) : (a ++ EmptyString)%string = a.
Proof. induction a as [|x a IH]; [done|exact (f_equal (String x) IH)]. Qed.

Lemma before_all n s : (String.length s <= n)%nat -> before n s = s.
Proof. revert s. induction n as [|n IH]; intros [|c s]; cbn; [done|lia|done|]. intros H. by rewrite IH by lia. Qed.

Lemma after_all n s : (String.length s <= n)%nat -> after n s = EmptyString.
Proof. revert s. induction n as [|n IH]; intros [|c s]; cbn; [done|lia|done|]. intros H. by rewrite IH by lia. Qed.

(** A scanner finds the end of a text that it has found. *)
Lemma span_before p s : span p (before (span p s) s) = span p s.
Proof. induction s as [|c s IH]; cbn; [done|]. destruct (p c) eqn:E; cbn; [by rewrite E, IH|done]. Qed.

Lemma span_le p s : (span p s <= String.length s)%nat.
Proof. induction s as [|c s IH]; cbn; [done|]. destruct (p c); lia. Qed.

Lemma two_step (P : string -> Prop) :
  P EmptyString -> (forall c, P (String c EmptyString)) ->
  (forall c d s, P s -> P (String d s) -> P (String c (String d s))) -> forall s, P s.
Proof.
  intros H0 H1 H2 s. enough (P s /\ forall c, P (String c s)) as [H _] by exact H.
  induction s as [|d s [IH IH']]; [by split|]. split; [apply IH'|]. intros c. apply H2; [exact IH|apply IH'].
Qed.

(** The equations of the scanners that look at two characters. *)
Lemma quoted_two q c d s :
  quoted_length q (String c (String d s)) =
    if bool_decide (c = q) then 1%nat
    else if bool_decide (c = backslash) then S (S (quoted_length q s))
    else if bool_decide (c = newline) then O else S (quoted_length q (String d s)).
Proof. reflexivity. Qed.

Lemma number_two c d s :
  number_length (String c (String d s)) =
    if isIdentContinue c || bool_decide (c = "."%char) then
      if bool_decide (c ∈ ["e"; "E"; "p"; "P"]%char) && bool_decide (d ∈ ["+"; "-"]%char) then S (S (number_length s))
      else S (number_length (String d s))
    else O.
Proof. reflexivity. Qed.

Lemma comment_two c d s :
  comment_length (String c (String d s)) =
    if bool_decide (c = "*"%char) && bool_decide (d = "/"%char) then 2%nat else S (comment_length (String d s)).
Proof. reflexivity. Qed.

Lemma before_S n c s : before (S n) (String c s) = String c (before n s).
Proof. reflexivity. Qed.

Lemma before_first n d s : before n (String d s) = EmptyString \/ exists s', before n (String d s) = String d s'.
Proof. destruct n; [by left|right; by eexists]. Qed.

Lemma quoted_before q s : quoted_length q (before (quoted_length q s) s) = quoted_length q s.
Proof.
  induction s as [|c|c d s IH IH'] using two_step; [done| |].
  - cbn. repeat (case_bool_decide; cbn; try done).
  - rewrite quoted_two. repeat case_bool_decide; [cbn; by rewrite bool_decide_eq_true_2| |done|].
    + rewrite !before_S, quoted_two, IH. by rewrite bool_decide_eq_false_2, bool_decide_eq_true_2.
    + rewrite before_S. destruct (before_first (quoted_length q (String d s)) d s) as [E|[s' E]]; rewrite E in IH' |- *.
      * rewrite <- IH'. cbn. by rewrite !bool_decide_eq_false_2.
      * rewrite quoted_two, IH'. by rewrite !bool_decide_eq_false_2.
Qed.

Lemma quoted_le q s : (quoted_length q s <= String.length s)%nat.
Proof.
  induction s as [|c|c d s IH IH'] using two_step; [done| |].
  - cbn. repeat case_bool_decide; lia.
  - rewrite quoted_two. cbn [String.length] in *. repeat case_bool_decide; lia.
Qed.

Lemma number_before s : number_length (before (number_length s) s) = number_length s.
Proof.
  induction s as [|c|c d s IH IH'] using two_step; [done| |].
  - cbn. destruct (isIdentContinue c || _) eqn:E; cbn; by rewrite ?E.
  - rewrite number_two. destruct (isIdentContinue c || bool_decide (c = "."%char)) eqn:E; [|done].
    destruct (bool_decide (c ∈ _) && bool_decide (d ∈ _)) eqn:Ee.
    + by rewrite !before_S, number_two, E, Ee, IH.
    + rewrite before_S. destruct (before_first (number_length (String d s)) d s) as [Eb|[s' Eb]]; rewrite Eb in IH' |- *.
      * rewrite <- IH'. cbn. by rewrite E.
      * by rewrite number_two, E, Ee, IH'.
Qed.

Lemma number_le s : (number_length s <= String.length s)%nat.
Proof.
  induction s as [|c|c d s IH IH'] using two_step; [done| |].
  - cbn. destruct (_ || _); lia.
  - rewrite number_two. cbn [String.length] in *. repeat case_match; lia.
Qed.

Lemma comment_le s : (comment_length s <= String.length s)%nat.
Proof.
  induction s as [|c|c d s IH IH'] using two_step; [done|done|]. rewrite comment_two. cbn [String.length] in *.
  case_match; lia.
Qed.

(** ** Pieces

    What the lexer promises: the input is cut into pieces, one for each token.
    The text of a token is its piece, without line continuations in front;
    a comment becomes a space, and identifiers lose the continuations inside. *)

(** The text without line continuations. *)
Fixpoint splice (s : string) : string :=
  match s with
  | String c s' =>
      match s' with
      | String d s'' => if bool_decide (c = backslash) && bool_decide (d = newline) then splice s'' else String c (splice s')
      | EmptyString => s
      end
  | EmptyString => s
  end.

(** A comment: to the end of the line, or to the first end mark, if there is one. *)
Definition is_comment (s : string) : Prop :=
  (exists p, s = (String "/" (String "/" p))%string /\ line_rest p = String.length p) \/
  (exists p, s = (String "/" (String "*" p))%string /\ comment_length p = String.length p).

Definition piece (p : string) (t : Token) : Prop :=
  exists skipped core, p = (skipped ++ core)%string /\ splice skipped = EmptyString /\
    (Text t = core \/ Type_ t = PP_IDENTIFIER /\ Text t = splice core \/
     Type_ t = PP_WHITESPACE /\ Text t = String " " EmptyString /\ is_comment core).

(** The bytes [0], ..., that begin a token of each type, and what its text is. *)
Definition first_is (p : ascii -> bool) (s : string) : bool :=
  match s with String c _ => p c | EmptyString => false end.

Lemma continuations_spec s :
  exists p, s = (p ++ (continuations s).1)%string /\ splice p = EmptyString /\
    String.length s = (2 * (continuations s).2 + String.length (continuations s).1)%nat /\
    (continuations (continuations s).1).2 = O.
Proof.
  induction s as [|c|c d s IH _] using two_step; [by exists EmptyString..|]. cbn [continuations].
  destruct (bool_decide (c = backslash) && bool_decide (d = newline)) eqn:E.
  - destruct IH as (p & Hp & Hs & Hl & Hc). destruct (continuations s) as [r n]. cbn [fst snd] in *.
    exists (String c (String d p)). split; [by rewrite Hp at 1|]. split; [cbn [splice]; by rewrite E|]. split; [cbn; lia|done].
  - exists EmptyString. split; [done|]. split; [done|]. split; [done|]. cbn [fst continuations]. by rewrite E.
Qed.

Lemma continuations_zero s : (continuations s).2 = O -> (continuations s).1 = s.
Proof.
  destruct s as [|c [|d s]]; cbn; [done..|]. destruct (_ && _); [|done]. by destruct (continuations s).
Qed.

Lemma handle_spec l :
  exists p, rest l = (p ++ rest (handleLineContinuation l))%string /\ splice p = EmptyString /\
    (continuations (rest (handleLineContinuation l))).2 = O.
Proof.
  unfold handleLineContinuation. destruct (continuations_spec (rest l)) as (p & Hp & Hs & _ & Hc).
  destruct (continuations (rest l)) as [r [|n]] eqn:E; cbn [fst snd] in *.
  - exists EmptyString. by rewrite E.
  - by exists p.
Qed.

Lemma identifier_spec s : forall ln col,
  let '(text, (s', _, _)) := identifier s ln col in
  exists p, s = (p ++ s')%string /\ text = splice p /\ span isIdentContinue text = String.length text.
Proof.
  induction s as [|c|c d s IH IH'] using two_step; intros ln col.
  - by exists EmptyString.
  - cbn. destruct (isIdentContinue c) eqn:E; [|by exists EmptyString]. exists (String c EmptyString). cbn. by rewrite E.
  - cbn [identifier]. fold (identifier (String d s) ln (col + 1)). destruct (bool_decide (c = backslash) && bool_decide (d = newline)) eqn:Eb.
    + specialize (IH (ln + 1) 1). destruct (identifier s (ln + 1) 1) as [text [[s' ln'] col']]. destruct IH as (p & -> & -> & H).
      exists (String c (String d p)). cbn [splice]. by rewrite Eb.
    + destruct (isIdentContinue c) eqn:E; [|by exists EmptyString]. specialize (IH' ln (col + 1)). cbn [identifier] in IH'.
      destruct (identifier (String d s) ln (col + 1)) as [text [[s' ln'] col']] eqn:Ei. cbn [identifier] in Ei. rewrite Ei in IH' |- *.
      destruct IH' as (p & Hp & -> & H). exists (String c p). split; [by rewrite Hp|]. split; [|cbn; by rewrite E, H].
      destruct p as [|d' p]; [done|]. cbn [splice]. injection Hp as <- Hp. by rewrite Eb.
Qed.

(** A token of the input from [l] on, and what it leaves. *)
Definition read (l : Lexer) (tl : Token * Lexer) : Prop :=
  exists p, rest l = (p ++ rest tl.2)%string /\ p <> EmptyString /\ piece p tl.1 /\ Type_ tl.1 <> PP_EOF.

Lemma before_not_nil n c s : before (S n) (String c s) <> EmptyString.
Proof. done. Qed.

Lemma piece_text ty s lo : piece s (mkToken ty s lo).
Proof. exists EmptyString, s. split; [done|]. split; [done|by left]. Qed.

Lemma scan_read n ty l : n <> O -> rest l <> EmptyString -> ty <> PP_EOF -> read l (scan n ty l).
Proof.
  intros Hn Hr Ht. destruct n as [|n]; [done|]. destruct (rest l) as [|c s] eqn:E; [done|].
  exists (before (S n) (rest l)). cbn [scan fst snd]. rewrite rest_advances. split; [by rewrite before_after|]. rewrite E.
  split; [done|]. split; [apply piece_text|done].
Qed.

Lemma set_atBOL_read b l tl : read (set_atBOL b l) tl -> read l tl.
Proof. done. Qed.

Lemma comment_read c d s n l :
  rest l = String c (String d s) -> is_comment (before (2 + n) (rest l)) -> read l (scan_comment (2 + n) l).
Proof.
  intros Hr Hc. exists (before (2 + n) (rest l)). cbn [scan_comment fst snd]. rewrite rest_advances.
  split; [by rewrite before_after|]. split; [by rewrite Hr|]. split; [|done].
  exists EmptyString, (before (2 + n) (rest l)). split; [done|]. split; [done|]. right; right. done.
Qed.

Lemma line_comment_cut s : is_comment (before (2 + line_rest s) (String "/" (String "/" s))).
Proof.
  left. exists (before (line_rest s) s). split; [done|]. unfold line_rest. rewrite span_before. symmetry.
  induction s as [|c s IH]; cbn; [done|]. destruct (negb _); cbn; [by rewrite IH|done].
Qed.

Lemma comment_before s : comment_length (before (comment_length s) s) = comment_length s.
Proof.
  induction s as [|c|c d s IH IH'] using two_step; [done|done|]. rewrite comment_two. destruct (bool_decide _ && _) eqn:E.
  - rewrite !before_S, comment_two. by rewrite E.
  - rewrite before_S. destruct (before_first (comment_length (String d s)) d s) as [Eb|[s' Eb]]; rewrite Eb in IH' |- *.
    + by rewrite <- IH'.
    + by rewrite comment_two, E, IH'.
Qed.

Lemma length_before n s : (n <= String.length s)%nat -> String.length (before n s) = n.
Proof. revert s. induction n as [|n IH]; intros [|c s]; cbn; try lia. intros H. rewrite IH by lia. done. Qed.

Lemma block_comment_cut s : is_comment (before (2 + comment_length s) (String "/" (String "*" s))).
Proof.
  right. exists (before (comment_length s) s). split; [done|]. rewrite comment_before, length_before; [done|apply comment_le].
Qed.

Lemma peekAt_1 l c s d : rest l = String c s -> peekAt 1 l = Some d -> exists s', rest l = String c (String d s').
Proof. intros E. unfold peekAt. rewrite E. destruct s as [|d' s]; cbn; [done|]. intros [= <-]. by exists s. Qed.

Lemma is_char_Some c o : is_char c o = true -> o = Some c.
Proof. unfold is_char. by rewrite bool_decide_eq_true. Qed.

Lemma between_not c d lo hi : between lo hi c = true -> between lo hi d = false -> c <> d.
Proof. intros H1 H2 ->. congruence. Qed.

Lemma isDigit_number c s : isDigit c = true -> number_length (String c s) <> O.
Proof.
  intros H. assert (Hi : isIdentContinue c = true) by (unfold isIdentContinue; rewrite H; apply orb_true_r).
  destruct s as [|d s]; [cbn; by rewrite Hi|]. rewrite number_two, Hi. cbn. by case_match.
Qed.

Lemma dot_number s : number_length (String "." s) <> O.
Proof. destruct s as [|d s]; [done|]. rewrite number_two. by case_match. Qed.

Lemma next_token_read c s l : rest l = String c s -> read l (next_token c l).
Proof.
  intros E. assert (Hr : rest l <> EmptyString) by (by rewrite E). unfold next_token.
  case_bool_decide as Hn. { subst c. exists (String newline EmptyString). cbn. rewrite rest_advance, E. split; [done|]. split; [done|]. split; [apply piece_text|done]. }
  destruct (isWhitespace c) eqn:Hw. { apply scan_read; [|done..]. rewrite E. cbn. by rewrite Hw. }
  destruct (bool_decide (c = "/"%char) && is_char "/" (peekAt 1 l)) eqn:Hl.
  { apply andb_true_iff in Hl as [->%bool_decide_eq_true H%is_char_Some]. destruct (peekAt_1 _ _ _ _ E H) as [s' E'].
    unfold scanLineComment. eapply comment_read; [exact E'|]. rewrite E'. apply line_comment_cut. }
  destruct (bool_decide (c = "/"%char) && is_char "*" (peekAt 1 l)) eqn:Hb.
  { apply andb_true_iff in Hb as [->%bool_decide_eq_true H%is_char_Some]. destruct (peekAt_1 _ _ _ _ E H) as [s' E'].
    unfold scanBlockComment. eapply comment_read; [exact E'|]. rewrite E'. apply block_comment_cut. }
  destruct (bool_decide (c = "#"%char) && atBOL l) eqn:Hh.
  { unfold scanHash. destruct (peekAt 1 l) as [d|]; [destruct (bool_decide (d = "#"%char))|]; by apply (set_atBOL_read false), scan_read. }
  apply (set_atBOL_read false). set (l' := set_atBOL false l) in *. change (rest l) with (rest l') in E, Hr.
  destruct (bool_decide (c = "#"%char)); [destruct (is_char "#" _); by apply scan_read|].
  destruct (bool_decide (c = quote)); [by apply scan_read|]. destruct (bool_decide (c = apostrophe)); [by apply scan_read|].
  destruct (isDigit c || bool_decide (c = "."%char) && match peekAt 1 l with Some d => isDigit d | None => false end) eqn:Hd.
  { apply scan_read; [|done..]. rewrite E. apply orb_true_iff in Hd as [Hd|[->%bool_decide_eq_true _]%andb_true_iff];
      [by apply isDigit_number|apply dot_number]. }
  destruct (isIdentStart c) eqn:Hi.
  - unfold scanIdentifier. pose proof (identifier_spec (rest l') (line l') (column l')) as H. rewrite E in H |- *.
    destruct (identifier _ _ _) as [text [[s' ln'] col']] eqn:Ei. destruct H as (p & Hp & Ht & _). exists p. cbn [fst snd rest Type_].
    rewrite E. split; [done|]. split.
    + intros ->. cbn in Ht. subst text. assert (Hne : c <> backslash) by (by intros ->).
      assert (Hc : isIdentContinue c = true) by (unfold isIdentContinue; by rewrite Hi).
      destruct s as [|d s]; cbn [identifier] in Ei; rewrite Hc, ?(bool_decide_eq_false_2 (c = backslash)) in Ei by done; [done|].
      cbn [andb] in Ei. by case_match; case_match.
    + split; [|done]. exists EmptyString, p. split; [done|]. split; [done|]. right; left. by rewrite Ht.
  - apply scan_read; [|done..]. unfold punctuator_length. repeat case_bool_decide; done.
Qed.

Lemma splice_two c d s :
  splice (String c (String d s)) =
    if bool_decide (c = backslash) && bool_decide (d = newline) then splice s else String c (splice (String d s)).
Proof. reflexivity. Qed.

Lemma splice_app p q : splice p = EmptyString -> splice (p ++ q)%string = splice q.
Proof.
  induction p as [|c|c d p IH _] using two_step; [done..|]. rewrite splice_two. destruct (_ && _) eqn:E; [|done].
  intros H. change (String c (String d p) ++ q)%string with (String c (String d (p ++ q)%string)). by rewrite splice_two, E, IH.
Qed.

Lemma read_skip l p l1 tl : rest l = (p ++ rest l1)%string -> splice p = EmptyString -> read l1 tl -> read l tl.
Proof.
  intros Hl Hp (q & Hq & Hne & (sk & core & -> & Hs & Ht) & He). exists (p ++ sk ++ core)%string.
  split; [by rewrite Hl, Hq, string_app_assoc|]. split; [by destruct p|]. split; [|done].
  exists (p ++ sk)%string, core. split; [by rewrite string_app_assoc|]. split; [by rewrite splice_app|done].
Qed.

Lemma NextToken_read l :
  read l (NextToken l) \/ splice (rest l) = EmptyString /\ Type_ (NextToken l).1 = PP_EOF /\ Text (NextToken l).1 = EmptyString.
Proof.
  destruct (handle_spec l) as (p & Hp & Hs & _). unfold NextToken, peek. set (l1 := handleLineContinuation l) in *.
  destruct (rest l1) as [|c s] eqn:E; cbn [String.get].
  - right. by rewrite Hp, string_app_nil.
  - left. eapply read_skip; [by rewrite E|done|]. by eapply next_token_read.
Qed.

Lemma length_string_app (a b : string) : String.length (a ++ b)%string = (String.length a + String.length b)%nat.
Proof. induction a as [|c a IH]; [done|]. exact (f_equal S IH). Qed.

(** The pieces of the tokens, and what is after the last one. *)
Definition cut (s : string) (ts : list Token) : Prop :=
  exists init eof ps tail, ts = init ++ [eof] /\ Type_ eof = PP_EOF /\ Text eof = EmptyString /\
    Forall (fun t => Type_ t <> PP_EOF) init /\
    s = (foldr String.append tail ps) /\ Forall2 piece ps init /\ splice tail = EmptyString.

Lemma all_tokens_cut fuel l : (String.length (rest l) < fuel)%nat -> exists ts, all_tokens fuel l = Some ts /\ cut (rest l) ts.
Proof.
  revert l. induction fuel as [|fuel IH]; intros l Hf; [lia|]. cbn [all_tokens].
  destruct (NextToken l) as [t l'] eqn:E. destruct (NextToken_read l) as [(p & Hp & Hne & Hpc & He)|(Hs & Ht & Hx)]; rewrite E in *; cbn [fst snd] in *.
  - rewrite bool_decide_eq_false_2 by done. destruct (IH l') as (ts & Hts & init & eof & ps & tail & -> & H1 & H2 & Hi & H3 & H4 & H5).
    { rewrite Hp, length_string_app in Hf. destruct p; [done|]. cbn in Hf. lia. }
    rewrite Hts. eexists. split; [reflexivity|]. exists (t :: init), eof, (p :: ps), tail.
    split; [done|]. split; [done|]. split; [done|]. split; [by constructor|]. split; [by rewrite Hp, H3|]. split; [by constructor|done].
  - rewrite bool_decide_eq_true_2 by done. eexists. split; [reflexivity|]. exists [], t, [], (rest l). by repeat split.
Qed.

Lemma AllTokens_some input fn : exists ts, AllTokens (NewLexer input fn) = Some ts.
Proof. destruct (all_tokens_cut (S (String.length input)) (NewLexer input fn)) as (ts & Hts & _); [cbn; lia|]. by exists ts. Qed.

(** *** Texts without comments and line continuations *)

Fixpoint plain_text (s : string) : bool :=
  match s with
  | String c s' =>
      match s' with
      | String d _ =>
          negb (bool_decide (c = backslash) && bool_decide (d = newline)) &&
          negb (bool_decide (c = "/"%char) && (bool_decide (d = "/"%char) || bool_decide (d = "*"%char))) && plain_text s'
      | EmptyString => true
      end
  | EmptyString => true
  end.

Lemma plain_two c d s :
  plain_text (String c (String d s)) =
    negb (bool_decide (c = backslash) && bool_decide (d = newline)) &&
    negb (bool_decide (c = "/"%char) && (bool_decide (d = "/"%char) || bool_decide (d = "*"%char))) && plain_text (String d s).
Proof. reflexivity. Qed.

Lemma plain_app p q : plain_text (p ++ q)%string = true -> plain_text p = true /\ plain_text q = true.
Proof.
  induction p as [|c|c d p _ IH] using two_step; intros H; [by split| |].
  - split; [done|]. destruct q as [|d q]; [done|]. change (String c EmptyString ++ String d q)%string with (String c (String d q)) in H.
    rewrite plain_two in H. by destruct_andb.
  - change (String c (String d p) ++ q)%string with (String c (String d (p ++ q)%string)) in H. rewrite plain_two in H |- *.
    apply andb_true_iff in H as [H1 H2]. destruct (IH H2) as [H3 H4]. split; [by rewrite H1, H3|done].
Qed.

Lemma plain_splice s : plain_text s = true -> splice s = s.
Proof.
  induction s as [|c|c d s _ IH] using two_step; [done..|]. rewrite plain_two, splice_two. intros [[H _]%andb_true_iff H2]%andb_true_iff.
  apply negb_true_iff in H. by rewrite H, IH.
Qed.

Lemma plain_piece p t : plain_text p = true -> piece p t -> Text t = p.
Proof.
  intros Hp (sk & core & -> & Hs & Ht). apply plain_app in Hp as [H1 H2]. rewrite plain_splice in Hs by done. subst sk.
  change (EmptyString ++ core)%string with core. destruct Ht as [Ht|[[_ Ht]|(_ & _ & [(q & -> & _)|(q & -> & _)])]]; [done| |done|done].
  by rewrite Ht, plain_splice.
Qed.

(** *** A token read again *)

Lemma punctuator_before s : s <> EmptyString -> punctuator_length (before (punctuator_length s) s) = punctuator_length s.
Proof.
  intros Hne. destruct s as [|c s]; [done|]. unfold punctuator_length at 2 3.
  destruct (bool_decide (before 3 (String c s) ∈ _)) eqn:E3; [|destruct (bool_decide (before 2 (String c s) ∈ _)) eqn:E2].
  - destruct s as [|d [|e s]]; cbn [before] in E3 |- *; try (by vm_compute in E3).
    + exfalso. apply bool_decide_eq_true in E3. set_solver.
    + exfalso. apply bool_decide_eq_true in E3. set_solver.
    + unfold punctuator_length. cbn [before]. by rewrite E3.
  - destruct s as [|d s]; cbn [before] in E2 |- *.
    + exfalso. apply bool_decide_eq_true in E2. set_solver.
    + unfold punctuator_length. cbn [before]. rewrite bool_decide_eq_false_2 by set_solver. by rewrite E2.
  - cbn [before]. unfold punctuator_length. cbn [before]. rewrite !bool_decide_eq_false_2 by set_solver. done.
Qed.

(** The lexer, given the text of the token alone, gives the token. *)
Definition again (t : Token) : Prop :=
  forall fn, exists l, NextToken (NewLexer (Text t) fn) = (mkToken (Type_ t) (Text t) (mkLoc fn 1 1), l) /\ rest l = EmptyString.

Lemma NextToken_first c s fn : (c = backslash -> s = EmptyString) ->
  NextToken (NewLexer (String c s) fn) = next_token c (NewLexer (String c s) fn).
Proof.
  intros Hc. unfold NextToken, handleLineContinuation. cbn [rest NewLexer].
  assert (continuations (String c s) = (String c s, O)) as ->; [|done].
  destruct s as [|d s]; [done|]. cbn [continuations]. rewrite bool_decide_eq_false_2; [done|]. intros H. by specialize (Hc H).
Qed.

Lemma again_scan ty c s lo :
  (c = backslash -> s = EmptyString) ->
  (forall fn, exists b, next_token c (NewLexer (String c s) fn) = scan (String.length (String c s)) ty (set_atBOL b (NewLexer (String c s) fn))) ->
  again (mkToken ty (String c s) lo).
Proof.
  intros Hc H fn. destruct (H fn) as [b Hb]. cbn [Text Type_]. rewrite NextToken_first, Hb by done. eexists. split.
  - unfold scan. cbn [rest set_atBOL NewLexer]. rewrite before_all by done. reflexivity.
  - rewrite rest_advances. cbn [rest set_atBOL NewLexer]. by rewrite after_all.
Qed.

Lemma peek_before n c s fn d :
  peekAt 1 (NewLexer (before (S n) (String c s)) fn) = Some d -> String.get 1 (String c s) = Some d.
Proof. unfold peekAt. cbn. destruct n as [|n], s as [|e s]; cbn; try done. Qed.

(** The tests of the next character that fail on the input fail on the text. *)
Lemma char_test_before n c s fn x : is_char x (String.get 1 (String c s)) = false -> is_char x (peekAt 1 (NewLexer (before (S n) (String c s)) fn)) = false.
Proof.
  unfold is_char. rewrite !bool_decide_eq_false. intros H E. apply H. by eapply peek_before.
Qed.

Lemma identifier_all s ln col : span isIdentContinue s = String.length s -> exists ln' col', identifier s ln col = (s, (EmptyString, ln', col')).
Proof.
  revert ln col. induction s as [|c s IH]; intros ln col; cbn [span String.length]; [by eexists _, _|]. destruct (isIdentContinue c) eqn:E; [|done].
  intros [= H]. destruct (IH ln (col + 1) H) as (ln' & col' & Hi). destruct s as [|d s]; cbn [identifier]; rewrite E; [by eexists _, _|].
  rewrite bool_decide_eq_false_2 by (by intros ->). cbn [andb]. cbn [identifier] in Hi. rewrite Hi. by eexists _, _.
Qed.

Lemma identifier_first c s ln col : isIdentContinue c = true ->
  exists text st, identifier (String c s) ln col = (String c text, st).
Proof.
  intros Hc. assert (Hb : c <> backslash) by (by intros ->). destruct s as [|d s]; cbn [identifier]; rewrite Hc; [by eexists _, _|].
  rewrite bool_decide_eq_false_2 by done. cbn [andb]. case_match. by eexists _, _.
Qed.

Lemma get_peekAt l c s : rest l = String c s -> peekAt 1 l = String.get 1 (String c s).
Proof. unfold peekAt. by intros ->. Qed.

Lemma blank_again c lo : isWhitespace c = true -> forall s, span isWhitespace (String c s) = String.length (String c s) -> again (mkToken PP_WHITESPACE (String c s) lo).
Proof.
  intros Hc s Hs. apply again_scan; [by intros ->|]. intros fn. exists true. unfold next_token.
  rewrite bool_decide_eq_false_2 by (by intros ->). rewrite Hc. unfold scanWhitespace. cbn [rest NewLexer]. by rewrite Hs.
Qed.

(** How the lexer goes on at a character that is no blank, and where no comment
    and no directive begins. *)
Definition scan_other (c : ascii) (next : option ascii) (l : Lexer) : Token * Lexer :=
  if bool_decide (c = "#"%char) then if is_char "#" next then scan 2 PP_HASHHASH l else scan 1 PP_PUNCTUATOR l
  else if bool_decide (c = quote) then scanString l
  else if bool_decide (c = apostrophe) then scanCharConst l
  else if isDigit c || bool_decide (c = "."%char) && match next with Some d => isDigit d | None => false end then scanNumber l
  else if isIdentStart c then scanIdentifier l
  else scanPunctuator l.

Definition begins_other (c : ascii) (next : option ascii) : bool :=
  negb (bool_decide (c = newline)) && negb (isWhitespace c) && negb (bool_decide (c = "/"%char) && is_char "/" next) &&
  negb (bool_decide (c = "/"%char) && is_char "*" next).

Lemma next_token_other c l : begins_other c (peekAt 1 l) = true -> bool_decide (c = "#"%char) && atBOL l = false ->
  next_token c l = scan_other c (peekAt 1 l) (set_atBOL false l).
Proof.
  unfold begins_other, next_token. intros [[[->%negb_true_iff ->%negb_true_iff]%andb_true_iff ->%negb_true_iff]%andb_true_iff ->%negb_true_iff]%andb_true_iff ->.
  reflexivity.
Qed.

Lemma begins_before c s n fn : begins_other c (String.get 1 (String c s)) = true ->
  begins_other c (peekAt 1 (NewLexer (before (S n) (String c s)) fn)) = true.
Proof.
  unfold begins_other. intros [[[H1 H2]%andb_true_iff H3]%andb_true_iff H4]%andb_true_iff. rewrite H1, H2. cbn [andb].
  apply negb_true_iff, andb_false_iff in H3, H4. apply andb_true_iff. split; apply negb_true_iff, andb_false_iff;
    [destruct H3 as [->|H3]|destruct H4 as [->|H4]]; try (by left); right; by apply char_test_before.
Qed.

(** A scanner of [n] characters that finds the same end in the text it found. *)
Lemma scan_other_again ty n c s lo :
  c <> "#"%char -> (c = backslash -> n = O) -> (n <= String.length s)%nat ->
  begins_other c (String.get 1 (String c s)) = true ->
  (forall fn, let l := set_atBOL false (NewLexer (before (S n) (String c s)) fn) in scan_other c (peekAt 1 l) l = scan (S n) ty l) ->
  again (mkToken ty (before (S n) (String c s)) lo).
Proof.
  intros Hh Hb Hn Ho Hs. rewrite before_S in *. apply again_scan; [intros ->; by rewrite Hb|]. intros fn. exists false.
  rewrite next_token_other; [|by apply (begins_before c s n)|by rewrite bool_decide_eq_false_2].
  specialize (Hs fn). cbn zeta in Hs. cbn [String.length]. rewrite length_before by done. exact Hs.
Qed.

Lemma span_all p s : span p (before (span p s) s) = String.length (before (span p s) s).
Proof. rewrite span_before, length_before; [done|apply span_le]. Qed.

Lemma hash_again l s : rest l = String "#" s ->
  let t := (if atBOL l then scanHash l
            else if is_char "#" (String.get 1 (String "#" s)) then scan 2 PP_HASHHASH (set_atBOL false l)
            else scan 1 PP_PUNCTUATOR (set_atBOL false l)).1 in
  ~ (Type_ t = PP_PUNCTUATOR /\ Text t = "#"%string) -> again t.
Proof.
  intros E t Hn. assert (H : (exists lo, t = mkToken PP_HASHHASH "##" lo) \/ (exists lo, t = mkToken PP_HASH "#" lo) \/ (exists lo, t = mkToken PP_PUNCTUATOR "#" lo)).
  { subst t. clear Hn. unfold scanHash. rewrite (get_peekAt l "#" s E). destruct s as [|d s]; cbn [String.get].
    - unfold scan. cbn [fst set_atBOL rest is_char]. rewrite E. destruct (atBOL l); cbn; eauto.
    - unfold is_char. destruct (decide (d = "#"%char)) as [->|Hd].
      + rewrite !bool_decide_eq_true_2 by done. unfold scan. cbn [fst set_atBOL rest]. rewrite E. destruct (atBOL l); cbn; eauto.
      + rewrite !bool_decide_eq_false_2 by congruence. unfold scan. cbn [fst set_atBOL rest]. rewrite E. destruct (atBOL l); cbn; eauto. }
  destruct H as [[lo ->]|[[lo ->]|[lo ->]]]; [intros fn; by eexists..|by destruct Hn].
Qed.

(** The first character of a number, and how long it is. *)
Lemma number_first c s :
  isDigit c || bool_decide (c = "."%char) && match String.get 1 (String c s) with Some d => isDigit d | None => false end = true ->
  c <> backslash /\ exists n, number_length (String c s) = S n /\ (n = O -> isDigit c = true).
Proof.
  intros Hd. split; [intros ->; by vm_compute in Hd|]. destruct (isDigit c) eqn:Ed.
  - pose proof (isDigit_number c s Ed). destruct (number_length (String c s)) as [|n]; [done|by exists n].
  - cbn [orb] in Hd. apply andb_true_iff in Hd as [->%bool_decide_eq_true Hd]. destruct s as [|d s]; [done|].
    exists (number_length (String d s)). rewrite number_two. split; [done|]. intros H. by destruct (isDigit_number d s Hd).
Qed.

Lemma number_again c s lo :
  c <> "#"%char -> bool_decide (c = quote) = false -> bool_decide (c = apostrophe) = false ->
  begins_other c (String.get 1 (String c s)) = true ->
  isDigit c || bool_decide (c = "."%char) && match String.get 1 (String c s) with Some d => isDigit d | None => false end = true ->
  again (mkToken PP_NUMBER (before (number_length (String c s)) (String c s)) lo).
Proof.
  intros Hh Hq Ha Ho Hd. destruct (number_first c s Hd) as (Hb & n & Hn & Hz). pose proof (number_le (String c s)) as Hle. rewrite Hn in *. cbn in Hle.
  apply scan_other_again; try done; [lia|]. intros fn l'. unfold scan_other. rewrite bool_decide_eq_false_2, Hq, Ha by done.
  assert ((isDigit c || bool_decide (c = "."%char) && match peekAt 1 l' with Some d => isDigit d | None => false end) = true) as ->.
  { destruct (isDigit c) eqn:Ed; [done|]. cbn [orb] in Hd |- *. apply andb_true_iff in Hd as [Hdot Hd]. rewrite Hdot.
    destruct s as [|d s]; [done|]. destruct n as [|n]; [by specialize (Hz eq_refl)|]. exact Hd. }
  unfold scanNumber. cbn [rest set_atBOL NewLexer l']. by rewrite <- Hn, number_before.
Qed.

Lemma identifier_again c text lo :
  isIdentStart c = true -> span isIdentContinue (String c text) = String.length (String c text) -> again (mkToken PP_IDENTIFIER (String c text) lo).
Proof.
  intros Hi Hall fn. cbn [Text Type_]. assert (Ho : scan_other c (peekAt 1 (NewLexer (String c text) fn)) (set_atBOL false (NewLexer (String c text) fn))
      = scanIdentifier (set_atBOL false (NewLexer (String c text) fn))).
  { unfold scan_other. assert (Hd : isDigit c = false) by (destruct c as [[] [] [] [] [] [] [] []]; vm_compute in Hi |- *; done).
    rewrite Hd, Hi, !bool_decide_eq_false_2 by (by intros ->). done. }
  rewrite NextToken_first, next_token_other; [|unfold begins_other| |by intros ->].
  - rewrite Ho. unfold scanIdentifier. cbn [rest line column set_atBOL NewLexer].
    destruct (identifier_all (String c text) 1 1 Hall) as (ln2 & col2 & ->). by eexists.
  - rewrite !bool_decide_eq_false_2 by (by intros ->). cbn [negb andb]. destruct (isWhitespace c) eqn:E; [|done].
    destruct c as [[] [] [] [] [] [] [] []]; vm_compute in Hi, E; done.
  - by rewrite bool_decide_eq_false_2 by (by intros ->).
Qed.

Lemma punctuator_first c s :
  exists n, punctuator_length (String c s) = S n /\ (c = backslash -> n = O) /\ (n <= String.length s)%nat.
Proof.
  unfold punctuator_length. destruct (bool_decide (before 3 _ ∈ _)) eqn:E3; [|destruct (bool_decide (before 2 _ ∈ _)) eqn:E2].
  - exists 2%nat. split; [done|]. apply bool_decide_eq_true in E3. destruct s as [|d [|e s]]; cbn [before] in E3; [set_solver..|].
    split; [intros ->; set_solver|cbn; lia].
  - exists 1%nat. split; [done|]. apply bool_decide_eq_true in E2. destruct s as [|d s]; cbn [before] in E2; [set_solver|].
    split; [intros ->; set_solver|cbn; lia].
  - exists O. split; [done|]. split; [done|lia].
Qed.

Lemma punctuator_again c s lo :
  c <> "#"%char -> bool_decide (c = quote) = false -> bool_decide (c = apostrophe) = false -> isIdentStart c = false ->
  begins_other c (String.get 1 (String c s)) = true ->
  isDigit c || bool_decide (c = "."%char) && match String.get 1 (String c s) with Some d => isDigit d | None => false end = false ->
  again (mkToken PP_PUNCTUATOR (before (punctuator_length (String c s)) (String c s)) lo).
Proof.
  intros Hh Hq Ha Hi Ho [Hd Hdot]%orb_false_iff. destruct (punctuator_first c s) as (n & Hn & Hb & Hle). pose proof (punctuator_before (String c s)) as Hpb. rewrite Hn in *.
  apply scan_other_again; try done. intros fn l'. unfold scan_other. rewrite bool_decide_eq_false_2, Hq, Ha, Hd, Hi by done.
  assert (bool_decide (c = "."%char) && match peekAt 1 l' with Some d => isDigit d | None => false end = false) as ->.
  { apply andb_false_iff in Hdot as [->|Hdot]; [done|]. apply andb_false_iff. right. destruct (peekAt 1 l') as [d|] eqn:Ep; [|done].
    change (peekAt 1 (NewLexer (before (S n) (String c s)) fn) = Some d) in Ep. apply peek_before in Ep. by rewrite Ep in Hdot. }
  cbn [orb]. unfold scanPunctuator. cbn [rest set_atBOL NewLexer l']. by rewrite Hpb.
Qed.

Lemma next_token_again c s l : rest l = String c s ->
  let t := (next_token c l).1 in ~ (Type_ t = PP_PUNCTUATOR /\ Text t = "#"%string) -> again t.
Proof.
  intros E t. subst t. unfold next_token. rewrite (get_peekAt l c s E).
  destruct (bool_decide (c = newline)) eqn:H1; [apply bool_decide_eq_true in H1 as ->; intros _ fn; by eexists|].
  destruct (isWhitespace c) eqn:H2.
  { intros _. unfold scanWhitespace, scan. cbn [fst]. rewrite E. cbn [span before]. rewrite H2. apply blank_again; [done|].
    cbn [span String.length]. by rewrite H2, span_all. }
  destruct (bool_decide (c = "/"%char) && is_char "/" (String.get 1 (String c s))) eqn:H3; [intros _; by apply blank_again|].
  destruct (bool_decide (c = "/"%char) && is_char "*" (String.get 1 (String c s))) eqn:H4; [intros _; by apply blank_again|].
  assert (Ho : begins_other c (String.get 1 (String c s)) = true) by (unfold begins_other; by rewrite H1, H2, H3, H4).
  clear H1 H2 H3 H4. destruct (bool_decide (c = "#"%char)) eqn:Hh.
  { apply bool_decide_eq_true in Hh as ->. cbn [andb]. exact (hash_again l s E). }
  cbn [andb]. apply bool_decide_eq_false in Hh. intros _. assert (El : rest (set_atBOL false l) = String c s) by exact E.
  destruct (bool_decide (c = quote)) eqn:Hq.
  { unfold scanString, scan. cbn [fst]. rewrite El. apply bool_decide_eq_true in Hq as ->. apply scan_other_again; try done; [apply quoted_le|].
    intros fn l'. unfold scan_other, scanString. cbn. by rewrite quoted_before. }
  destruct (bool_decide (c = apostrophe)) eqn:Ha.
  { unfold scanCharConst, scan. cbn [fst]. rewrite El. apply bool_decide_eq_true in Ha as ->. apply scan_other_again; try done; [apply quoted_le|].
    intros fn l'. unfold scan_other, scanCharConst. cbn. by rewrite quoted_before. }
  destruct (isDigit c || _) eqn:Hd; [unfold scanNumber, scan; cbn [fst]; rewrite El; by apply number_again|].
  destruct (isIdentStart c) eqn:Hi; [|unfold scanPunctuator, scan; cbn [fst]; rewrite El; by apply punctuator_again].
  unfold scanIdentifier. rewrite El. assert (Hic : isIdentContinue c = true) by (unfold isIdentContinue; by rewrite Hi).
  pose proof (identifier_spec (String c s) (line (set_atBOL false l)) (column (set_atBOL false l))) as Hs.
  destruct (identifier_first c s (line (set_atBOL false l)) (column (set_atBOL false l)) Hic) as (text & [[s' ln'] col'] & Hid).
  rewrite Hid in Hs |- *. destruct Hs as (_ & _ & _ & Hall). by apply identifier_again.
Qed.

(** Where there is nothing to drop, the texts are the input. *)
Lemma cut_plain s ts : cut s ts -> plain_text s = true -> TokensToString ts = s.
Proof.
  intros (init & eof & ps & tail & -> & _ & Ht & _ & -> & Hps & Hs).
  induction Hps as [|p t ps init Hp _ IH]; cbn [foldr app TokensToString]; intros Hplain.
  - rewrite plain_splice in Hs by done. by rewrite Ht, Hs.
  - apply plain_app in Hplain as [H1 H2]. rewrite (plain_piece p t H1 Hp). f_equal. by apply IH.
Qed.

(** ** Theorems *)

(** C39. The lexer of the preprocessor ends, and neither loses nor invents text:
    the input is cut into one piece for each token before the last, which marks
    the end. The text of a token is its piece, but for line continuations,
    which are dropped in front of tokens and inside identifiers, and for
    comments, which become spaces; where there are none of these, the texts
    together are the input. *)
Theorem AllTokens_pieces input fn :
  exists ts, AllTokens (NewLexer input fn) = Some ts /\ cut input ts /\
    (plain_text input = true -> TokensToString ts = input).
Proof.
  destruct (all_tokens_cut (S (String.length input)) (NewLexer input fn)) as (ts & Hts & Hcut); [cbn; lia|].
  exists ts. split; [exact Hts|]. split; [exact Hcut|]. by apply cut_plain.
Qed.

(** A token stands for itself: given only the text of a token, the lexer reads
    the token with that type and that text, and nothing else; only the operator
    [#] becomes the mark of a directive, being at the beginning of a line. *)
Theorem NextToken_again l :
  let t := (NextToken l).1 in ~ (Type_ t = PP_PUNCTUATOR /\ Text t = "#"%string) -> again t.
Proof.
  unfold NextToken, peek. set (l1 := handleLineContinuation l). destruct (rest l1) as [|c s] eqn:E; cbn [String.get].
  - intros _ fn. by eexists.
  - by apply (next_token_again c s l1).
Qed.

(** [a += 0x1p-3;] has no comments and no line continuations. *)
Lemma AllTokens_pieces_witness :
  exists ts, AllTokens (NewLexer "a += 0x1p-3;" "f.c") = Some ts /\ TokensToString ts = "a += 0x1p-3;"%string /\ length ts = 7%nat.
Proof.
  destruct (AllTokens_pieces "a += 0x1p-3;" "f.c") as (ts & Hts & _ & H). exists ts. split; [exact Hts|].
  split; [exact (H eq_refl)|]. vm_compute in Hts. by injection Hts as <-.
Defined.

(** The number at the front of [1e+5x >>= y]. *)
Lemma NextToken_again_witness :
  let t := (NextToken (NewLexer "1e+5x >>= y" "f.c")).1 in Text t = "1e+5x"%string /\ again t.
Proof.
  intros t. split; [vm_compute; reflexivity|]. apply (NextToken_again (NewLexer "1e+5x >>= y" "f.c")). vm_compute. by intros [? _].
Defined.
