(* ===== verification/CppExpr.v ===== *)
(** The evaluation of the expressions of [#if] ([src/pkg/cpp/conditional.go]): a
    parser by recursive descent that computes while it reads, and the grammar
    and the values it stands for. *)

From Stdlib Require Import Ascii.
From S2P Require Import Prelude Cpp.

(** ** Errors *)

(** An error has a format and its arguments, and may have one that it wraps
    ([%w]); [EPanic] is a panic; [EFuel] is none of the code. *)
Inductive cpp_error := EFuel | EPanic | EMsg (format : string) (args : list string) | EWrap (format : string) (args : list string) (e : cpp_error).

Inductive Result (A : Type) := Ok (a : A) | Err (e : cpp_error).
Arguments Ok {A} a.
Arguments Err {A} e.

#[export] Instance Result_ret : MRet Result := @Ok.
#[export] Instance Result_bind : MBind Result := fun A B f r => match r with Ok a => f a | Err e => Err e end.
#[export] Instance Result_fmap : FMap Result := fun A B f r => match r with Ok a => Ok (f a) | Err e => Err e end.

Definition wrap {A} (format : string) (args : list string) (r : Result A) : Result A :=
  match r with Ok a => Ok a | Err EFuel => Err EFuel | Err EPanic => Err EPanic | Err e => Err (EWrap format args e) end.

Lemma wrap_Ok {A} f args (r : Result A) a : wrap f args r = Ok a <-> r = Ok a.
Proof. by destruct r as [|[]]. Qed.

Lemma wrap_fuel {A} f args (r : Result A) : wrap f args r = Err EFuel <-> r = Err EFuel.
Proof. by destruct r as [|[]]. Qed.

(** ** Constants *)

(** [strconv.ParseInt] with a base, at 64 bits. *)
Definition digit (c : ascii) : option Z :=
  let n := Z.of_N (N_of_ascii c) in
  if isDigit c then Some (n - 48)
  else if between "a" "z" c then Some (n - 87)
  else if between "A" "Z" c then Some (n - 55)
  else None.

Fixpoint digits (base : Z) (acc : Z) (s : string) : option Z :=
  match s with
  | EmptyString => Some acc
  | String c s => d ← digit c; if d <? base then digits base (base * acc + d) s else None
  end.

Definition ParseInt (s : string) (base : Z) : Result Z :=
  let unsigned s := match s with EmptyString => None | _ => digits base 0 s end in
  let n :=
    match s with
    | String "+" s => unsigned s
    | String "-" s => Z.opp <$> unsigned s
    | _ => unsigned s
    end in
  match n with
  | Some n => if (-9223372036854775808 <=? n) && (n <=? 9223372036854775807) then Ok n else Err (EMsg "strconv.ParseInt: value out of range" [s])
  | None => Err (EMsg "strconv.ParseInt: invalid syntax" [s])
  end.

(** [strings.TrimRight(s, _)] with the letters of the suffixes *)
Fixpoint trim_suffix (s : string) : string :=
  match s with
  | EmptyString => EmptyString
  | String c s =>
      match trim_suffix s with
      | EmptyString => if bool_decide (c ∈ ["l"; "L"; "u"; "U"]%char) then EmptyString else String c EmptyString
      | s => String c s
      end
  end.

Definition parseNumber (s : string) : Result Z :=
  let s := trim_suffix s in
  match s with
  | String "0" (String c s') =>
      if bool_decide (c ∈ ["x"; "X"]%char) then ParseInt s' 16
      else if bool_decide (c ∈ ["b"; "B"]%char) then ParseInt s' 2
      else if between "0" "7" c then ParseInt (String c s') 8
      else ParseInt s 10
  | _ => ParseInt s 10
  end.

(** The text between the quotes; [None] when there are not two. *)
Fixpoint without_last (q : ascii) (s : string) : option string :=
  match s with
  | EmptyString => None
  | String c EmptyString => if bool_decide (c = q) then Some EmptyString else None
  | String c s => String c <$> without_last q s
  end.

(** The value of an escape sequence of one letter. *)
Definition simple_escape (c : ascii) : option Z :=
  match c with
  | "n" => Some 10 | "t" => Some 9 | "r" => Some 13 | "092" => Some 92 | "'" => Some 39 | "034" => Some 34
  | "0" => Some 0 | "a" => Some 7 | "b" => Some 8 | "f" => Some 12 | "v" => Some 11
  | _ => None
  end%char.

Definition parseCharConst (s : string) : Result Z :=
  match (match s with String "'" s => without_last apostrophe s | _ => None end) with
  | None => Err (EMsg "invalid character constant: %s" [s])
  | Some EmptyString => Err (EMsg "empty character constant" [])
  | Some (String "092" EmptyString) => Err (EMsg "invalid escape sequence" [])
  | Some (String "092" (String c inner)) =>
      match simple_escape c with
      | Some n => Ok n
      | None =>
          if bool_decide (c = "x"%char) then
            match inner with EmptyString => Err (EMsg "invalid hex escape" []) | _ => ParseInt inner 16 end
          else if between "0" "7" c then ParseInt (String c inner) 8
          else Err (EMsg "unknown escape sequence: %s" [String "092" (String c inner)])
      end
  | Some (String c _) => Ok (Z.of_N (N_of_ascii c))
  end.

(** ** The parser

    [exprParser] is the list of the tokens that are left. *)

Definition P (A : Type) : Type := list Token -> Result (A * list Token).

(** [p.peek()] *)
Definition peek_token (ts : list Token) : Token :=
  match ts with t :: _ => t | [] => mkToken PP_EOF EmptyString (mkLoc EmptyString 0 0) end.

(** [p.match(text)], when it is true: the tokens after it. *)
Definition matches_text (text : string) (ts : list Token) : option (list Token) :=
  match ts with t :: ts => if is_token PP_PUNCTUATOR text t then Some ts else None | [] => None end.

(** The operators, on [int64]. *)
Definition truth (b : bool) : Z := if b then 1 else 0.

(** A shift by [uint(right)]: by 64 or more, and by negative numbers, there is
    only the sign left. *)
Definition shift_left (a b : Z) : Z := if (0 <=? b) && (b <? 64) then i64 (Z.shiftl a b) else 0.
Definition shift_right (a b : Z) : Z := if (0 <=? b) && (b <? 64) then Z.shiftr a b else if a <? 0 then -1 else 0.

Definition operator : Type := string * (Z -> Z -> Result Z).

Definition or_ops : list operator := [("||"%string, fun a b => Ok (truth (negb (a =? 0) || negb (b =? 0))))].
Definition and_ops : list operator := [("&&"%string, fun a b => Ok (truth (negb (a =? 0) && negb (b =? 0))))].
Definition bitor_ops : list operator := [("|"%string, fun a b => Ok (Z.lor a b))].
Definition bitxor_ops : list operator := [("^"%string, fun a b => Ok (Z.lxor a b))].
Definition bitand_ops : list operator := [("&"%string, fun a b => Ok (Z.land a b))].
Definition equality_ops : list operator :=
  [("=="%string, fun a b => Ok (truth (a =? b))); ("!="%string, fun a b => Ok (truth (negb (a =? b))))].
Definition relational_ops : list operator :=
  [("<="%string, fun a b => Ok (truth (a <=? b))); (">="%string, fun a b => Ok (truth (b <=? a)));
   ("<"%string, fun a b => Ok (truth (a <? b))); (">"%string, fun a b => Ok (truth (b <? a)))].
Definition shift_ops : list operator := [("<<"%string, fun a b => Ok (shift_left a b)); (">>"%string, fun a b => Ok (shift_right a b))].
Definition additive_ops : list operator := [("+"%string, fun a b => Ok (i64 (a + b))); ("-"%string, fun a b => Ok (i64 (a - b)))].
Definition multiplicative_ops : list operator :=
  [("*"%string, fun a b => Ok (i64 (a * b)));
   ("/"%string, fun a b => if b =? 0 then Err (EMsg "division by zero" []) else Ok (i64 (Z.quot a b)));
   ("%"%string, fun a b => if b =? 0 then Err (EMsg "modulo by zero" []) else Ok (Z.rem a b))].

(** The operator of [ops] that the tokens begin with, and the tokens after it. *)
Fixpoint assoc {A} (name : string) (l : list (string * A)) : option A :=
  match l with [] => None | x :: l => if bool_decide (x.1 = name) then Some x.2 else assoc name l end.

Definition find_op {A} (ops : list (string * A)) (ts : list Token) : option (A * list Token) :=
  match ts with
  | t :: ts => if bool_decide (Type_ t = PP_PUNCTUATOR) then (fun f => (f, ts)) <$> assoc (Text t) ops else None
  | [] => None
  end.

(** The loop of a binary operator: operands from left to right. *)
Fixpoint binary_loop (ops : list operator) (operand : P Z) (fuel : nat) (lhs : Z) : P Z := fun ts =>
  match find_op ops ts with
  | None => Ok (lhs, ts)
  | Some (f, ts) =>
      match fuel with
      | O => Err EFuel
      | S fuel => '(rhs, ts) ← operand ts; lhs ← f lhs rhs; binary_loop ops operand fuel lhs ts
      end
  end.

(** Unary operators. *)
Definition unary_ops : list (string * (Z -> Z)) :=
  [("!"%string, fun v => truth (v =? 0)); ("-"%string, fun v => i64 (- v)); ("+"%string, fun v => v); ("~"%string, Z.lnot)].

Section Levels.
  (* [parseConditional], for what is in parentheses, and for branches *)
  Context (conditional : P Z) (fuel : nat).

Definition parsePrimary : P Z := fun ts =>
  let tok := peek_token ts in
  match matches_text "(" ts with
  | Some ts =>
      '(val, ts) ← conditional ts;
      match matches_text ")" ts with Some ts => Ok (val, ts) | None => Err (EMsg "expected ')'" []) end
  | None =>
      match Type_ tok with
      | PP_NUMBER => val ← parseNumber (Text tok); Ok (val, tail ts)
      | PP_CHAR_CONST => val ← parseCharConst (Text tok); Ok (val, tail ts)
      | _ => Err (EMsg "unexpected token in expression: %s (%v)" [Text tok; TokenType_String (Type_ tok)])
      end
  end.

Fixpoint parse_unary (fuel : nat) : P Z := fun ts =>
  match find_op unary_ops ts with
  | Some (f, ts) => match fuel with O => Err EFuel | S fuel => '(val, ts) ← parse_unary fuel ts; Ok (f val, ts) end
  | None => parsePrimary ts
  end.

Definition parseUnary : P Z := parse_unary fuel.

(** A level of binary operators over the one below it. *)
Definition level (ops : list operator) (operand : P Z) : P Z := fun ts =>
  '(lhs, ts) ← operand ts; binary_loop ops operand fuel lhs ts.

Definition parseMultiplicative : P Z := level multiplicative_ops parseUnary.
Definition parseAdditive : P Z := level additive_ops parseMultiplicative.
Definition parseShift : P Z := level shift_ops parseAdditive.
Definition parseRelational : P Z := level relational_ops parseShift.
Definition parseEquality : P Z := level equality_ops parseRelational.
Definition parseBitwiseAnd : P Z := level bitand_ops parseEquality.
Definition parseBitwiseXor : P Z := level bitxor_ops parseBitwiseAnd.
Definition parseBitwiseOr : P Z := level bitor_ops parseBitwiseXor.
Definition parseLogicalAnd : P Z := level and_ops parseBitwiseOr.
Definition parseLogicalOr : P Z := level or_ops parseLogicalAnd.

(** [parseConditional] after the condition *)
Definition conditional_tail (cond : Z) : P Z := fun ts =>
  match matches_text "?" ts with
  | Some ts =>
      '(thenVal, ts) ← conditional ts;
      match matches_text ":" ts with
      | Some ts => '(elseVal, ts) ← conditional ts; Ok (if cond =? 0 then elseVal else thenVal, ts)
      | None => Err (EMsg "expected ':' in conditional expression" [])
      end
  | None => Ok (cond, ts)
  end.
End Levels.

Fixpoint parse_conditional (fuel : nat) : P Z := fun ts =>
  match fuel with
  | O => Err EFuel
  | S fuel => '(cond, ts) ← parseLogicalOr (parse_conditional fuel) fuel ts; conditional_tail (parse_conditional fuel) cond ts
  end.

(** Every call is on fewer tokens, or is for an operand of a tighter operator
    ([conditional_ends]). *)
Definition parseConditional : P Z := fun ts => parse_conditional (S (length ts)) ts.

Definition is_blank (t : Token) : bool := bool_decide (Type_ t = PP_WHITESPACE) || bool_decide (Type_ t = PP_NEWLINE).

Definition evaluateExpr (tokens : list Token) : Result Z :=
  match filter (fun t => is_blank t = false) tokens with
  | [] => Err (EMsg "empty expression" [])
  | ts =>
      '(result, ts) ← parseConditional ts;
      match ts with [] => Ok result | t :: _ => Err (EMsg "unexpected token after expression: %s" [Text t]) end
  end.

(** ** The grammar

    Expressions, and the tokens they are written with: a primary expression is at
    level 0, one with unary operators at level 1, the binary operators are at
    the levels from 2 on, those that bind tighter first, and conditional
    expressions are at level 12. *)

Inductive cexpr :=
| CNum (t : Token)
| CParen (e : cexpr)
| CUnary (op : string) (e : cexpr)
| CBinary (op : string) (e1 e2 : cexpr)
| CCond (c e1 e2 : cexpr).

Definition table : list (list operator) :=
  [multiplicative_ops; additive_ops; shift_ops; relational_ops; equality_ops; bitand_ops; bitxor_ops; bitor_ops; and_ops; or_ops].

Definition is_operand (t : Token) : bool := bool_decide (Type_ t = PP_NUMBER) || bool_decide (Type_ t = PP_CHAR_CONST).

Inductive derives : nat -> cexpr -> list Token -> Prop :=
| derives_operand t : is_operand t = true -> derives 0 (CNum t) [t]
| derives_paren l r e ts :
    is_token PP_PUNCTUATOR "(" l = true -> is_token PP_PUNCTUATOR ")" r = true ->
    derives 12 e ts -> derives 0 (CParen e) (l :: ts ++ [r])
| derives_unary t op f e ts :
    is_token PP_PUNCTUATOR op t = true -> assoc op unary_ops = Some f -> derives 1 e ts -> derives 1 (CUnary op e) (t :: ts)
| derives_binary k ops t op f e1 e2 ts1 ts2 :
    table !! k = Some ops -> is_token PP_PUNCTUATOR op t = true -> assoc op ops = Some f ->
    derives (2 + k) e1 ts1 -> derives (1 + k) e2 ts2 -> derives (2 + k) (CBinary op e1 e2) (ts1 ++ t :: ts2)
| derives_cond q c e e1 e2 ts ts1 ts2 :
    is_token PP_PUNCTUATOR "?" q = true -> is_token PP_PUNCTUATOR ":" c = true ->
    derives 11 e ts -> derives 12 e1 ts1 -> derives 12 e2 ts2 -> derives 12 (CCond e e1 e2) (ts ++ q :: ts1 ++ c :: ts2)
| derives_up n e ts : (n < 12)%nat -> derives n e ts -> derives (S n) e ts.

Definition operand_value (t : Token) : Result Z :=
  if bool_decide (Type_ t = PP_NUMBER) then parseNumber (Text t) else parseCharConst (Text t).

Definition unary_value (op : string) (v : Z) : Z := match assoc op unary_ops with Some f => f v | None => v end.

Definition binary_value (op : string) (v1 v2 : Z) : Result Z :=
  match assoc op (concat table) with Some f => f v1 v2 | None => Err (EMsg "" []) end.

(** The value, all operands being evaluated. *)
Fixpoint denote (e : cexpr) : Result Z :=
  match e with
  | CNum t => operand_value t
  | CParen e => denote e
  | CUnary op e => unary_value op <$> denote e
  | CBinary op e1 e2 => v1 ← denote e1; v2 ← denote e2; binary_value op v1 v2
  | CCond c e1 e2 => v ← denote c; v1 ← denote e1; v2 ← denote e2; Ok (if v =? 0 then v2 else v1)
  end.

(** The value as in C, where operands that do not matter are not evaluated. *)
Fixpoint c_value (e : cexpr) : Result Z :=
  match e with
  | CNum t => operand_value t
  | CParen e => c_value e
  | CUnary op e => unary_value op <$> c_value e
  | CBinary op e1 e2 =>
      v1 ← c_value e1;
      if bool_decide (op = "||"%string) then if v1 =? 0 then (fun v => truth (negb (v =? 0))) <$> c_value e2 else Ok 1
      else if bool_decide (op = "&&"%string) then if v1 =? 0 then Ok 0 else (fun v => truth (negb (v =? 0))) <$> c_value e2
      else v2 ← c_value e2; binary_value op v1 v2
  | CCond c e1 e2 => v ← c_value c; if v =? 0 then c_value e2 else c_value e1
  end.

(** ** The levels of the parser *)

(** The parser of level [n] where expressions in parentheses are read by [cond]
    and loops have [k] rounds. *)
Fixpoint levels (cond : P Z) (k : nat) (ops : list (list operator)) (operand : P Z) : P Z :=
  match ops with [] => operand | o :: ops => levels cond k ops (level k o operand) end.

Definition parser (cond : P Z) (k n : nat) : P Z :=
  match n with
  | O => parsePrimary cond
  | S j =>
      if bool_decide (n = 12)%nat then fun ts => '(c, ts) ← parseLogicalOr cond k ts; conditional_tail cond c ts
      else levels cond k (take j table) (parseUnary cond k)
  end.

Lemma parse_conditional_S fuel : parse_conditional (S fuel) = parser (parse_conditional fuel) fuel 12.
Proof. reflexivity. Qed.

Lemma parser_cond cond k ts : parser cond k 12 ts = '(c, ts) ← parser cond k 11 ts; conditional_tail cond c ts.
Proof. reflexivity. Qed.

Lemma levels_app cond k ops o operand : levels cond k (ops ++ [o]) operand = level k o (levels cond k ops operand).
Proof. revert operand. induction ops as [|o' ops IH]; intros operand; [done|]. apply IH. Qed.

Lemma parser_binary cond k j ops : table !! j = Some ops -> parser cond k (2 + j) = level k ops (parser cond k (1 + j)).
Proof.
  intros H. assert (Hj : (j < 10)%nat) by (apply lookup_lt_Some in H; exact H). unfold parser.
  rewrite !bool_decide_eq_false_2 by lia. cbn [plus]. rewrite (take_S_r _ _ _ H). apply levels_app.
Qed.

(** *** Operators *)

Lemma is_token_spec ty s t : is_token ty s t = true <-> Type_ t = ty /\ Text t = s.
Proof. unfold is_token. by rewrite andb_true_iff, !bool_decide_eq_true. Qed.

Lemma find_op_token {A} (ops : list (string * A)) t ts op :
  is_token PP_PUNCTUATOR op t = true -> find_op ops (t :: ts) = (fun f => (f, ts)) <$> assoc op ops.
Proof. intros [Ht <-]%is_token_spec. cbn. by rewrite bool_decide_eq_true_2. Qed.

Lemma find_op_Some {A} (ops : list (string * A)) ts f ts' :
  find_op ops ts = Some (f, ts') -> exists t op, ts = t :: ts' /\ is_token PP_PUNCTUATOR op t = true /\ assoc op ops = Some f.
Proof.
  destruct ts as [|t ts]; [done|]. cbn. case_bool_decide as Ht; [|done]. intros (g & Hg & [= -> ->])%fmap_Some.
  exists t, (Text t). split; [done|]. split; [by apply is_token_spec|done].
Qed.

Lemma matches_text_Some s ts ts' : matches_text s ts = Some ts' -> exists t, ts = t :: ts' /\ is_token PP_PUNCTUATOR s t = true.
Proof. destruct ts as [|t ts]; [done|]. cbn. destruct (is_token _ _ t) eqn:E; [|done]. intros [= ->]. by exists t. Qed.

Lemma matches_text_cons s t ts : matches_text s (t :: ts) = if is_token PP_PUNCTUATOR s t then Some ts else None.
Proof. reflexivity. Qed.

(** The name of an operator of a level is one of those of the level. *)
Ltac operator_cases Hk Hf :=
  injection Hk as <-; cbn [assoc multiplicative_ops additive_ops shift_ops relational_ops equality_ops bitand_ops bitxor_ops bitor_ops and_ops or_ops fst snd] in Hf;
  repeat (case_bool_decide; [subst|]); try done.

(** An operator is in one level only. *)
Lemma one_level op i j oi oj f : table !! i = Some oi -> table !! j = Some oj -> i <> j -> assoc op oi = Some f -> assoc op oj = None.
Proof.
  intros Hi Hj Hij Hf. do 10 (destruct i as [|i]; [operator_cases Hi Hf; clear Hf;
    do 10 (destruct j as [|j]; [injection Hj as <-; first [done|by destruct Hij]|]); done|]). done.
Qed.

Lemma assoc_table op k ops f : table !! k = Some ops -> assoc op ops = Some f -> assoc op (concat table) = Some f.
Proof.
  intros Hk Hf. do 10 (destruct k as [|k]; [operator_cases Hk Hf; exact Hf|]). done.
Qed.

(** *** Parsers use up tokens, and rounds do not matter when there are enough *)

Definition shrinks (p : P Z) : Prop := forall ts v ts', p ts = Ok (v, ts') -> (length ts' < length ts)%nat.

Lemma find_op_shorter {A} (ops : list (string * A)) ts f ts' : find_op ops ts = Some (f, ts') -> length ts = S (length ts').
Proof. by intros (t & op & -> & _)%find_op_Some. Qed.

Lemma matches_shorter s ts ts' : matches_text s ts = Some ts' -> length ts = S (length ts').
Proof. by intros (t & -> & _)%matches_text_Some. Qed.

Lemma Ok_bind {A B} (r : Result A) (f : A -> Result B) b : r ≫= f = Ok b -> exists a, r = Ok a /\ f a = Ok b.
Proof. destruct r as [a|]; [|done]. intros H. by exists a. Qed.

(** Takes apart code that has ended well. *)
Ltac ok_inv :=
  repeat match goal with
  | H : (_ ≫= _) = Ok _ |- _ => apply Ok_bind in H as ([? ?] & ? & H) || apply Ok_bind in H as (? & ? & H); cbn [fst snd] in *
  | H : Ok _ = Ok _ |- _ => injection H as H; subst
  | H : (_, _) = (_, _) |- _ => injection H as H; subst
  | H : Err _ = Ok _ |- _ => discriminate H
  end.

Lemma loop_shorter ops operand fuel lhs ts v ts' :
  shrinks operand -> binary_loop ops operand fuel lhs ts = Ok (v, ts') -> (length ts' <= length ts)%nat.
Proof.
  intros Hs. revert lhs ts. induction fuel as [|fuel IH]; intros lhs ts; cbn [binary_loop]; destruct (find_op ops ts) as [[f ts1]|] eqn:E;
    intros H; ok_inv; [done..| |done].
  apply find_op_shorter in E. apply IH in H. apply Hs in H0. lia.
Qed.

Lemma loop_fuel ops operand k1 k2 lhs ts :
  shrinks operand -> (length ts <= k1)%nat -> (length ts <= k2)%nat -> binary_loop ops operand k1 lhs ts = binary_loop ops operand k2 lhs ts.
Proof.
  intros Hs. revert k2 lhs ts. induction k1 as [|k1 IH]; intros k2 lhs ts H1 H2; destruct k2 as [|k2]; cbn [binary_loop];
    destruct (find_op ops ts) as [[f ts1]|] eqn:E; try done; apply find_op_shorter in E; [lia..|].
  destruct (operand ts1) as [[rhs ts2]|e] eqn:Eo; [|done]. cbn. apply Hs in Eo. destruct (f lhs rhs); [|done]. cbn. apply IH; lia.
Qed.

Lemma level_shrinks k ops operand : shrinks operand -> shrinks (level k ops operand).
Proof.
  intros Hs ts v ts' H. unfold level in H. ok_inv. apply Hs in H0. apply (loop_shorter _ _ _ _ _ _ _ Hs) in H. lia.
Qed.

Lemma primary_shrinks cond : shrinks cond -> shrinks (parsePrimary cond).
Proof.
  intros Hs ts v ts' H. unfold parsePrimary in H. destruct (matches_text "(" ts) as [ts1|] eqn:E.
  - ok_inv. apply matches_shorter in E. destruct (matches_text ")" l) as [ts2|] eqn:E2; ok_inv. apply matches_shorter in E2. apply Hs in H0. lia.
  - destruct ts as [|t ts]; [done|]. cbn [peek_token] in H. destruct (Type_ t); ok_inv; cbn; lia.
Qed.

Lemma unary_shrinks cond k : shrinks cond -> shrinks (parse_unary cond k).
Proof.
  intros Hs. induction k as [|k IH]; intros ts v ts' H; cbn [parse_unary] in H; destruct (find_op unary_ops ts) as [[f ts1]|] eqn:E; ok_inv.
  - by apply (primary_shrinks cond Hs ts v).
  - apply find_op_shorter in E. apply IH in H0. lia.
  - by apply (primary_shrinks cond Hs ts v).
Qed.

Lemma levels_shrinks cond k ops operand : shrinks operand -> shrinks (levels cond k ops operand).
Proof. revert operand. induction ops as [|o ops IH]; intros operand Hs; [done|]. by apply IH, level_shrinks. Qed.

Lemma tail_shorter cond c ts v ts' : shrinks cond -> conditional_tail cond c ts = Ok (v, ts') -> (length ts' <= length ts)%nat.
Proof.
  intros Hs. unfold conditional_tail. destruct (matches_text "?" ts) as [ts1|] eqn:E; intros H; ok_inv; [|done].
  apply matches_shorter in E. destruct (matches_text ":" l) as [ts2|] eqn:E2; ok_inv. apply matches_shorter in E2. apply Hs in H0, H1. lia.
Qed.

Lemma parser_shrinks cond k n : shrinks cond -> shrinks (parser cond k n).
Proof.
  intros Hs. destruct n as [|j]; [by apply primary_shrinks|]. unfold parser. case_bool_decide.
  - intros ts v ts' H1. ok_inv. apply (tail_shorter _ _ _ _ _ Hs) in H1. assert (Hl : (length l < length ts)%nat); [|lia].
    revert H0. apply (levels_shrinks cond k table). by apply unary_shrinks.
  - by apply levels_shrinks, unary_shrinks.
Qed.

Lemma conditional_shrinks fuel : shrinks (parse_conditional fuel).
Proof. induction fuel as [|fuel IH]; [by intros ts v ts'|]. rewrite parse_conditional_S. by apply parser_shrinks. Qed.

#[local] Hint Resolve conditional_shrinks parser_shrinks : core.

(** ** What is derived is parsed *)

(** The loop of level [n], after the first operand. *)
Definition loop (cond : P Z) (k n : nat) (v : Z) : P Z :=
  match n with
  | S (S j) => match table !! j with Some ops => binary_loop ops (parser cond k (1 + j)) k v | None => fun ts => Ok (v, ts) end
  | _ => fun ts => Ok (v, ts)
  end.

(** The tokens do not go on with an operator that binds tighter than level [n]. *)
Definition free (n : nat) (ts : list Token) : Prop :=
  forall j ops, table !! j = Some ops -> (2 + j < n)%nat -> find_op ops ts = None.

Definition not_asked (n : nat) (ts : list Token) : Prop := n = 12%nat -> matches_text "?" ts = None.

Lemma free_less m n ts : (m <= n)%nat -> free n ts -> free m ts.
Proof. intros Hm H j ops Hj Hl. apply (H j ops Hj). lia. Qed.

Lemma loop_binary cond k j ops v : table !! j = Some ops -> loop cond k (2 + j) v = binary_loop ops (parser cond k (1 + j)) k v.
Proof. intros H. unfold loop. cbn [plus]. by rewrite H. Qed.

Lemma loop_free cond k n v ts : free (S n) ts -> loop cond k n v ts = Ok (v, ts).
Proof.
  intros H. destruct n as [|[|j]]; [done..|]. cbn [loop]. destruct (table !! j) as [ops|] eqn:E; [|done].
  specialize (H j ops E ltac:(lia)). destruct k; cbn [binary_loop]; by rewrite H.
Qed.

(** Tokens that are no operators. *)
Lemma no_operator s t ts n : s ∈ ["?"; ":"; ")"]%string -> is_token PP_PUNCTUATOR s t = true -> free n (t :: ts).
Proof.
  intros Hs Ht j ops Hj _. rewrite (find_op_token _ _ _ _ Ht). assert (assoc s ops = None) as ->; [|done].
  rewrite !elem_of_cons in Hs. do 10 (destruct j as [|j]; [injection Hj as <-; destruct Hs as [->|[->|[->|Hs]]]; [reflexivity..|by apply elem_of_nil in Hs]|]). done.
Qed.

Lemma other_token s s' t ts : is_token PP_PUNCTUATOR s t = true -> s <> s' -> matches_text s' (t :: ts) = None.
Proof.
  intros [Ht <-]%is_token_spec Hne. rewrite matches_text_cons. destruct (is_token PP_PUNCTUATOR s' t) eqn:E; [|done].
  apply is_token_spec in E as [_ E]. done.
Qed.

Lemma same_token s t ts : is_token PP_PUNCTUATOR s t = true -> matches_text s (t :: ts) = Some ts.
Proof. intros H. by rewrite matches_text_cons, H. Qed.

(** What [derives] says of the parser of level [n]. *)
Definition parsed (n : nat) (e : cexpr) (ts : list Token) : Prop :=
  forall F k rest, (length (ts ++ rest) <= F)%nat -> (length (ts ++ rest) <= k)%nat -> free n rest -> not_asked n rest ->
    parser (parse_conditional F) k n (ts ++ rest) = v ← denote e; loop (parse_conditional F) k n v rest.

(** The parser that is called for parentheses and branches. *)
Lemma parsed_inside e ts F rest : parsed 12 e ts -> (length (ts ++ rest) < F)%nat -> free 12 rest -> not_asked 12 rest ->
  parse_conditional F (ts ++ rest) = v ← denote e; Ok (v, rest).
Proof. intros H Hl Hf Ha. destruct F as [|F]; [lia|]. rewrite parse_conditional_S. by rewrite H by (done || lia). Qed.

Lemma Result_bind_assoc {A B C} (r : Result A) (f : A -> Result B) (g : B -> Result C) : (r ≫= f) ≫= g = r ≫= (fun a => f a ≫= g).
Proof. by destruct r. Qed.

Lemma parsed_paren l r e ts :
  is_token PP_PUNCTUATOR "(" l = true -> is_token PP_PUNCTUATOR ")" r = true -> parsed 12 e ts -> parsed 0 (CParen e) (l :: ts ++ [r]).
Proof.
  intros Hl Hr IH F k rest HF _ _ _. replace ((l :: ts ++ [r]) ++ rest) with (l :: ts ++ r :: rest) in * by (cbn; by rewrite <- app_assoc).
  cbn [parser]. unfold parsePrimary. rewrite (same_token _ _ _ Hl), (parsed_inside e ts F (r :: rest) IH); [|cbn in HF; lia|by eapply no_operator; [|exact Hr]; set_solver|by intros _; eapply other_token].
  rewrite Result_bind_assoc. cbn [denote]. destruct (denote e); [|done]. cbn [mbind Result_bind]. by rewrite (same_token _ _ _ Hr).
Qed.

Lemma parsed_unary t op f e ts :
  is_token PP_PUNCTUATOR op t = true -> assoc op unary_ops = Some f -> parsed 1 e ts -> parsed 1 (CUnary op e) (t :: ts).
Proof.
  intros Ht Hf IH F k rest HF Hk Hr Ha. cbn in HF, Hk. destruct k as [|k]; [lia|]. specialize (IH F k rest ltac:(lia) ltac:(lia) Hr ltac:(done)).
  change (parser (parse_conditional F) k 1) with (parse_unary (parse_conditional F) k) in IH.
  change (parser (parse_conditional F) (S k) 1) with (parse_unary (parse_conditional F) (S k)). cbn [app parse_unary].
  rewrite (find_op_token _ _ _ _ Ht), Hf. cbn [fmap option_fmap option_map]. rewrite IH, Result_bind_assoc. cbn [denote].
  destruct (denote e); [|done]. cbn. unfold unary_value. by rewrite Hf.
Qed.

Lemma parsed_binary k ops t op f e1 e2 ts1 ts2 :
  table !! k = Some ops -> is_token PP_PUNCTUATOR op t = true -> assoc op ops = Some f ->
  parsed (2 + k) e1 ts1 -> parsed (1 + k) e2 ts2 -> parsed (2 + k) (CBinary op e1 e2) (ts1 ++ t :: ts2).
Proof.
  intros Hk Ht Hf IH1 IH2 F fuel rest HF Hfuel Hr Ha. rewrite <- app_assoc in *. cbn [app] in *.
  pose proof (lookup_lt_Some _ _ _ Hk) as Hlt. change (length table) with 10%nat in Hlt.
  rewrite IH1; [|done..| |intros H; lia].
  2:{ intros j oj Hj Hl. rewrite (find_op_token _ _ _ _ Ht), (one_level op k j ops oj f) by (done || lia). done. }
  cbn [denote]. destruct (denote e1) as [v1|]; [|done]. cbn [mbind Result_bind]. rewrite (loop_binary _ _ _ _ _ Hk).
  rewrite length_app in HF, Hfuel. cbn in HF, Hfuel. destruct fuel as [|fuel]; [lia|]. cbn [binary_loop].
  rewrite (find_op_token _ _ _ _ Ht), Hf. cbn [fmap option_fmap option_map]. rewrite (IH2 F (S fuel) rest); [|lia..|by eapply free_less; [|exact Hr]; lia|intros H; lia].
  destruct (denote e2) as [v2|]; [|done]. cbn [mbind Result_bind]. rewrite loop_free by done. cbn [mbind Result_bind].
  unfold binary_value. rewrite (assoc_table op k ops f) by done. destruct (f v1 v2) as [v|]; [|done]. cbn [mbind Result_bind].
  rewrite (loop_binary _ _ _ _ _ Hk).
  apply loop_fuel; [auto|rewrite length_app in *; lia..].
Qed.

Lemma parsed_cond q c e e1 e2 ts ts1 ts2 :
  is_token PP_PUNCTUATOR "?" q = true -> is_token PP_PUNCTUATOR ":" c = true ->
  parsed 11 e ts -> parsed 12 e1 ts1 -> parsed 12 e2 ts2 -> parsed 12 (CCond e e1 e2) (ts ++ q :: ts1 ++ c :: ts2).
Proof.
  intros Hq Hc IH IH1 IH2 F k rest HF Hk Hr Ha. replace ((ts ++ q :: ts1 ++ c :: ts2) ++ rest) with (ts ++ q :: ts1 ++ c :: ts2 ++ rest) in *
    by (by rewrite <- !app_assoc; cbn; rewrite <- app_assoc).
  rewrite parser_cond, IH; [|done..|by eapply no_operator; [|exact Hq]; set_solver|by intros H].
  cbn [denote]. destruct (denote e) as [v|]; [|done]. cbn [mbind Result_bind].
  rewrite loop_free by (by eapply no_operator; [|exact Hq]; set_solver). cbn [mbind Result_bind].
  unfold conditional_tail. rewrite (same_token _ _ _ Hq). rewrite !length_app in HF. cbn in HF. rewrite !length_app in HF. cbn in HF. rewrite length_app in HF.
  rewrite (parsed_inside e1 ts1 F (c :: ts2 ++ rest) IH1); [|rewrite length_app; cbn; rewrite length_app; lia|by eapply no_operator; [|exact Hc]; set_solver|by intros _; eapply other_token].
  destruct (denote e1) as [v1|]; [|done]. cbn [mbind Result_bind]. rewrite (same_token _ _ _ Hc).
  rewrite (parsed_inside e2 ts2 F rest IH2); [|rewrite length_app; lia|done..]. by destruct (denote e2).
Qed.

Lemma is_operand_type t : is_operand t = true -> Type_ t = PP_NUMBER \/ Type_ t = PP_CHAR_CONST.
Proof. unfold is_operand. by rewrite orb_true_iff, !bool_decide_eq_true. Qed.

Lemma parsed_operand t : is_operand t = true -> parsed 0 (CNum t) [t].
Proof.
  intros Ht%is_operand_type F k rest _ _ _ _. cbn [app parser denote]. unfold parsePrimary, operand_value. rewrite matches_text_cons. unfold is_token.
  cbn [peek_token tail]. destruct Ht as [Ht|Ht]; rewrite Ht; cbn [bool_decide decide decide_rel andb].
  - rewrite bool_decide_eq_false_2 by done. cbn [andb]. by destruct (parseNumber (Text t)).
  - rewrite !bool_decide_eq_false_2 by done. cbn [andb]. by destruct (parseCharConst (Text t)).
Qed.

Lemma derives_nonempty n e ts : derives n e ts -> exists t ts', ts = t :: ts'.
Proof. induction 1 as [| | |k ops t op f e1 e2 ts1 ts2 _ _ _ _ (t1 & ts1' & ->) _ _|q c e e1 e2 ts ts1 ts2 _ _ _ (t1 & ts1' & ->) _ _ _ _|]; cbn; eauto. Qed.

Lemma primary_first e ts rest : derives 0 e ts -> find_op unary_ops (ts ++ rest) = None.
Proof.
  intros H. inversion H as [t Ht|l r e' ts' Hl _ _| | | |]; subst.
  - cbn [app find_op]. apply is_operand_type in Ht. rewrite bool_decide_eq_false_2; [done|]. intros E. rewrite E in Ht. by destruct Ht.
  - cbn [app]. by rewrite (find_op_token _ _ _ _ Hl).
Qed.

Lemma parsed_up n e ts : (n < 12)%nat -> derives n e ts -> parsed n e ts -> parsed (S n) e ts.
Proof.
  intros Hn Hd IH F k rest HF Hk Hr Ha. specialize (IH F k rest HF Hk ltac:(by eapply free_less; [|exact Hr]; lia) ltac:(intros H; lia)).
  destruct n as [|j].
  - change (parser (parse_conditional F) k 1) with (parse_unary (parse_conditional F) k).
    transitivity (parser (parse_conditional F) k 0 (ts ++ rest)); [|exact IH].
    destruct k; cbn [parse_unary]; by rewrite (primary_first e ts rest Hd).
  - destruct (decide (j = 10)%nat) as [->|Hj].
    + rewrite parser_cond, IH, Result_bind_assoc. destruct (denote e) as [v|]; [|done]. cbn [mbind Result_bind]. rewrite loop_free by done. cbn.
      unfold conditional_tail. by rewrite (Ha eq_refl).
    + destruct (lookup_lt_is_Some_2 table j) as [ops Hops]; [change (length table) with 10%nat; lia|].
      rewrite (parser_binary _ _ j ops Hops). unfold level. cbn [plus]. rewrite IH, Result_bind_assoc. destruct (denote e) as [v|]; [|done]. cbn [mbind Result_bind].
      rewrite loop_free by done. cbn [mbind Result_bind]. by rewrite (loop_binary _ _ _ _ _ Hops).
Qed.

Lemma derives_parsed n e ts : derives n e ts -> parsed n e ts.
Proof.
  induction 1; eauto using parsed_operand, parsed_paren, parsed_unary, parsed_binary, parsed_cond, parsed_up.
Qed.

(** ** What is parsed is derived *)

Definition sound (n : nat) (p : P Z) : Prop :=
  forall ts v rest, p ts = Ok (v, rest) -> exists e ts1, ts = ts1 ++ rest /\ derives n e ts1 /\ denote e = Ok v.

Lemma loop_sound j ops operand fuel e0 ts0 lhs ts v rest :
  table !! j = Some ops -> sound (1 + j) operand -> derives (2 + j) e0 ts0 -> denote e0 = Ok lhs ->
  binary_loop ops operand fuel lhs ts = Ok (v, rest) ->
  exists e ts1, ts = ts1 ++ rest /\ derives (2 + j) e (ts0 ++ ts1) /\ denote e = Ok v.
Proof.
  intros Hj Hop. revert e0 ts0 lhs ts. induction fuel as [|fuel IH]; intros e0 ts0 lhs ts H0 Hv H; cbn [binary_loop] in H;
    destruct (find_op ops ts) as [[f ts']|] eqn:E; ok_inv; try (exists e0, []; by rewrite app_nil_r).
  apply find_op_Some in E as (t & op & -> & Ht & Hf). destruct (Hop _ _ _ H1) as (e1 & ts1 & -> & H3 & H4).
  destruct (IH (CBinary op e0 e1) (ts0 ++ t :: ts1) x l) as (e & ts2 & -> & He & Hve); [by eapply derives_binary| |done|].
  - cbn [denote]. rewrite Hv, H4. cbn. unfold binary_value. by rewrite (assoc_table _ _ _ _ Hj Hf).
  - exists e, (t :: ts1 ++ ts2). split; [cbn; by rewrite app_assoc|]. split; [|done]. by rewrite <- app_assoc in He.
Qed.

Lemma level_sound k j ops operand : table !! j = Some ops -> sound (1 + j) operand -> sound (2 + j) (level k ops operand).
Proof.
  intros Hj Hop ts v rest H. unfold level in H. ok_inv. destruct (Hop _ _ _ H0) as (e0 & ts0 & -> & Hd & Hv).
  apply lookup_lt_Some in Hj as Hl. change (length table) with 10%nat in Hl.
  destruct (loop_sound j ops operand k e0 ts0 z l v rest) as (e & ts1 & -> & He & Hve); try done; [apply derives_up; [lia|done]|].
  exists e, (ts0 ++ ts1). by rewrite app_assoc.
Qed.

Lemma primary_sound cond : sound 12 cond -> sound 0 (parsePrimary cond).
Proof.
  intros Hc ts v rest H. unfold parsePrimary in H. destruct (matches_text "(" ts) as [ts1|] eqn:E.
  - apply matches_text_Some in E as (l & -> & Hl). ok_inv. destruct (matches_text ")" l0) as [ts2|] eqn:E2; ok_inv.
    apply matches_text_Some in E2 as (r & -> & Hr). destruct (Hc _ _ _ H0) as (e & ts3 & -> & Hd & Hv).
    exists (CParen e), (l :: ts3 ++ [r]). split; [cbn; by rewrite <- app_assoc|]. split; [by apply derives_paren|done].
  - destruct ts as [|t ts]; [done|]. cbn [peek_token] in H. destruct (Type_ t) eqn:Et; ok_inv; cbn [tail];
      (exists (CNum t), [t]; split; [done|]; split; [apply derives_operand; unfold is_operand; by rewrite Et|]; cbn; unfold operand_value; by rewrite Et).
Qed.

Lemma unary_sound cond k : sound 12 cond -> sound 1 (parse_unary cond k).
Proof.
  intros Hc. assert (Hp : sound 1 (parsePrimary cond)).
  { intros ts v rest H. destruct (primary_sound cond Hc _ _ _ H) as (e & ts1 & -> & Hd & Hv). exists e, ts1. split; [done|].
    split; [apply derives_up; [lia|done]|done]. }
  induction k as [|k IH]; intros ts v rest H; cbn [parse_unary] in H; destruct (find_op unary_ops ts) as [[f ts']|] eqn:E; ok_inv;
    [by apply Hp| |by apply Hp].
  apply find_op_Some in E as (t & op & -> & Ht & Hf). destruct (IH _ _ _ H0) as (e & ts1 & -> & Hd & Hv).
  exists (CUnary op e), (t :: ts1). split; [done|]. split; [by eapply derives_unary|]. cbn. rewrite Hv. cbn. unfold unary_value. by rewrite Hf.
Qed.

Lemma parser_sound_binary cond k n : sound 12 cond -> (n < 11)%nat -> sound (S n) (parser cond k (S n)).
Proof.
  intros Hc. induction n as [|j IH]; intros Hn; [by apply unary_sound|].
  destruct (lookup_lt_is_Some_2 table j) as [ops Hops]; [change (length table) with 10%nat; lia|].
  change (S (S j)) with (2 + j)%nat. rewrite (parser_binary _ _ j ops Hops). apply level_sound; [done|]. apply IH. lia.
Qed.

Lemma conditional_sound fuel : sound 12 (parse_conditional fuel).
Proof.
  induction fuel as [|fuel IH]; intros ts v rest H; [done|]. rewrite parse_conditional_S, parser_cond in H. ok_inv.
  destruct (parser_sound_binary (parse_conditional fuel) fuel 10 IH ltac:(lia) _ _ _ H0) as (c & ts1 & -> & Hc & Hv).
  unfold conditional_tail in H. destruct (matches_text "?" l) as [ts2|] eqn:E; ok_inv.
  - apply matches_text_Some in E as (q & -> & Hq). destruct (IH _ _ _ H1) as (e1 & ts3 & -> & He1 & Hv1).
    destruct (matches_text ":" l0) as [ts4|] eqn:E2; ok_inv. apply matches_text_Some in E2 as (k & -> & Hk).
    destruct (IH _ _ _ H2) as (e2 & ts5 & -> & He2 & Hv2). exists (CCond c e1 e2), (ts1 ++ q :: ts3 ++ k :: ts5).
    split; [rewrite <- !app_assoc; cbn; by rewrite <- app_assoc|]. split; [by apply derives_cond|]. cbn. by rewrite Hv, Hv1, Hv2.
  - exists c, ts1. split; [done|]. split; [apply derives_up; [lia|done]|done].
Qed.

(** ** The rounds are enough *)

Definition ends {A} (k : nat) (p : P A) : Prop := forall ts, (length ts <= k)%nat -> p ts <> Err EFuel.

Lemma ParseInt_ends s b : ParseInt s b <> Err EFuel.
Proof. unfold ParseInt. repeat case_match; done. Qed.

Lemma parseNumber_ends s : parseNumber s <> Err EFuel.
Proof. unfold parseNumber. repeat (case_match; try apply ParseInt_ends). Qed.

Lemma parseCharConst_ends s : parseCharConst s <> Err EFuel.
Proof.
  unfold parseCharConst. destruct (match s with EmptyString => None | _ => _ end) as [[|c inner]|]; [done| |done].
  destruct (decide (c = "092"%char)) as [->|Hc].
  - destruct inner as [|d inner]; [done|]. destruct (simple_escape d); [done|]. repeat (case_match; try apply ParseInt_ends; try done).
  - destruct c as [[] [] [] [] [] [] [] []]; done.
Qed.

Lemma op_ends j ops op f v1 v2 : table !! j = Some ops -> assoc op ops = Some f -> f v1 v2 <> Err EFuel.
Proof.
  intros Hj Hf. do 10 (destruct j as [|j]; [operator_cases Hj Hf; injection Hf as <-; cbn; try case_match; done|]). done.
Qed.

Lemma loop_ends j ops operand k lhs ts :
  table !! j = Some ops -> shrinks operand -> (length ts <= k)%nat -> (forall ts', (length ts' < length ts)%nat -> operand ts' <> Err EFuel) ->
  binary_loop ops operand k lhs ts <> Err EFuel.
Proof.
  intros Hj Hs. revert lhs ts. induction k as [|k IH]; intros lhs ts Hk Hop; cbn [binary_loop]; destruct (find_op ops ts) as [[f ts']|] eqn:E; try done;
    pose proof (find_op_shorter _ _ _ _ E) as Hl; [lia|].
  apply find_op_Some in E as (t & op & _ & _ & Hf). pose proof (Hop ts' ltac:(lia)) as Ho. destruct (operand ts') as [[rhs ts2]|e] eqn:Eo; cbn [mbind Result_bind]; [|congruence].
  apply Hs in Eo. pose proof (op_ends j ops op f lhs rhs Hj Hf) as Hv. destruct (f lhs rhs) as [z|]; cbn [mbind Result_bind]; [|congruence]. apply IH; [lia|].
  intros ts3 H3. apply Hop. lia.
Qed.

Lemma parser_ends F k n : (n <= 11)%nat -> (forall ts, (length ts < k)%nat -> parse_conditional F ts <> Err EFuel) -> ends k (parser (parse_conditional F) k n).
Proof.
  intros Hn Hc. assert (Hprim : ends k (parsePrimary (parse_conditional F))).
  { intros ts Hl. unfold parsePrimary. destruct (matches_text "(" ts) as [ts1|] eqn:E.
    - apply matches_shorter in E. pose proof (Hc ts1 ltac:(lia)) as H1. destruct (parse_conditional F ts1) as [[v ts2]|e] ; cbn [mbind Result_bind]; [|congruence]. by destruct (matches_text ")" ts2).
    - pose proof (parseNumber_ends (Text (peek_token ts))) as H1. pose proof (parseCharConst_ends (Text (peek_token ts))) as H2.
      destruct (Type_ (peek_token ts)); try done; [destruct (parseNumber _)|destruct (parseCharConst _)]; cbn [mbind Result_bind]; congruence. }
  assert (Hun : forall r, (r <= k)%nat -> ends r (parse_unary (parse_conditional F) r)).
  { induction r as [|r IH]; intros Hr ts Hl; cbn [parse_unary]; destruct (find_op unary_ops ts) as [[f ts1]|] eqn:E;
      try (apply Hprim; lia); apply find_op_shorter in E; [lia|]. pose proof (IH ltac:(lia) ts1 ltac:(lia)) as H1. destruct (parse_unary _ r ts1) as [[v ts2]|]; cbn [mbind Result_bind]; congruence. }
  destruct n as [|n]; [exact Hprim|]. induction n as [|j IH]; [by apply Hun|].
  destruct (lookup_lt_is_Some_2 table j) as [ops Hops]; [change (length table) with 10%nat; lia|].
  change (S (S j)) with (2 + j)%nat. rewrite (parser_binary _ _ j ops Hops). intros ts Hl. unfold level.
  pose proof (IH ltac:(lia)) as He. pose proof (He ts Hl) as H1. cbn [plus] in *. destruct (parser (parse_conditional F) k (S j) ts) as [[v ts1]|e] eqn:E; cbn [mbind Result_bind]; [|congruence]. apply (parser_shrinks _ _ _ (conditional_shrinks F)) in E. eapply loop_ends; [done|auto|lia|]. intros ts2 H2. apply He. lia.
Qed.

Lemma conditional_ends fuel ts : (length ts < fuel)%nat -> parse_conditional fuel ts <> Err EFuel.
Proof.
  revert ts. induction fuel as [|fuel IH]; intros ts Hl; [lia|]. rewrite parse_conditional_S, parser_cond.
  pose proof (parser_ends fuel fuel 11 ltac:(lia) IH ts ltac:(lia)) as H1.
  destruct (parser (parse_conditional fuel) fuel 11 ts) as [[v ts1]|e] eqn:E; cbn [mbind Result_bind]; [|congruence].
  apply (parser_shrinks _ _ _ (conditional_shrinks fuel)) in E. unfold conditional_tail. destruct (matches_text "?" ts1) as [ts2|] eqn:E2; [|done].
  apply matches_shorter in E2. pose proof (IH ts2 ltac:(lia)) as H2. destruct (parse_conditional fuel ts2) as [[v2 ts3]|e] eqn:E3; cbn [mbind Result_bind]; [|congruence].
  apply conditional_shrinks in E3. destruct (matches_text ":" ts3) as [ts4|] eqn:E4; [|done]. apply matches_shorter in E4.
  pose proof (IH ts4 ltac:(lia)) as H3. destruct (parse_conditional fuel ts4) as [[v3 ts5]|]; cbn [mbind Result_bind]; congruence.
Qed.

Lemma evaluateExpr_ends tokens : evaluateExpr tokens <> Err EFuel.
Proof.
  unfold evaluateExpr, parseConditional. destruct (filter _ tokens) as [|t ts]; [done|]. set (l := t :: ts).
  pose proof (conditional_ends (S (length l)) l ltac:(lia)) as He.
  destruct (parse_conditional (S (length l)) l) as [[v [|]]|e]; cbn [mbind Result_bind]; congruence.
Qed.

(** ** Theorems *)

Lemma denote_c_value e v : denote e = Ok v -> c_value e = Ok v.
Proof.
  revert v. induction e as [t|e IH|op e IH|op e1 IH1 e2 IH2|c IHc e1 IH1 e2 IH2]; intros v H; cbn [denote c_value] in *; [done|by apply IH| | |].
  - destruct (denote e) as [w|]; [|done]. by rewrite (IH w eq_refl).
  - ok_inv. rewrite (IH1 _ H0), (IH2 _ H1). cbn [mbind Result_bind fmap Result_fmap]. unfold binary_value in H.
    destruct (decide (op = "||"%string)) as [->|Ho]; [|destruct (decide (op = "&&"%string)) as [->|Ha]].
    + change (Ok (truth (negb (x =? 0) || negb (x0 =? 0))) = Ok v) in H. ok_inv. cbn. by destruct (x =? 0).
    + change (Ok (truth (negb (x =? 0) && negb (x0 =? 0))) = Ok v) in H. ok_inv. cbn. by destruct (x =? 0).
    + by rewrite !bool_decide_eq_false_2.
  - ok_inv. rewrite (IHc _ H0), (IH1 _ H1), (IH2 _ H2). cbn. by destruct (x =? 0).
Qed.

(** C13. The evaluator of [#if] is right. It always ends. On tokens that are
    written as the grammar of C constant expressions says it gives the value of
    the expression on 64-bit integers, or its error; on no others does it give a
    value; and a value that it gives is also that of the evaluation of C, where
    operands that do not matter are not evaluated. *)
Theorem evaluateExpr_correct tokens :
  let ts := filter (fun t => is_blank t = false) tokens in
  evaluateExpr tokens <> Err EFuel /\
  (forall e, derives 12 e ts -> evaluateExpr tokens = denote e) /\
  (forall v, evaluateExpr tokens = Ok v -> exists e, derives 12 e ts /\ denote e = Ok v /\ c_value e = Ok v).
Proof.
  intros ts. split; [apply evaluateExpr_ends|]. unfold evaluateExpr, parseConditional. fold ts. destruct ts as [|t ts'].
  { split; [|done]. intros e (? & ? & ?)%derives_nonempty. done. }
  set (l := t :: ts'). split.
  - intros e Hd%derives_parsed. pose proof (parsed_inside e l (S (length l)) [] Hd) as H. rewrite app_nil_r in H.
    rewrite H by (done || lia). by destruct (denote e).
  - intros v H. ok_inv. destruct (conditional_sound _ _ _ _ H0) as (e & ts1 & E & Hd & Hv). destruct l0 as [|t0 l0]; ok_inv.
    rewrite app_nil_r in E. subst ts1. exists e. split; [done|]. split; [done|]. by apply denote_c_value.
Qed.

(** Tokens without places, for examples. *)
Definition tok (ty : TokenType) (s : string) : Token := mkToken ty s (mkLoc EmptyString 0 0).

(** [1+2*3] *)
Lemma evaluateExpr_correct_witness :
  let one := tok PP_NUMBER "1" in let two := tok PP_NUMBER "2" in let three := tok PP_NUMBER "3" in
  evaluateExpr [one; tok PP_PUNCTUATOR "+"; two; tok PP_PUNCTUATOR "*"; three] =
  denote (CBinary "+" (CNum one) (CBinary "*" (CNum two) (CNum three))).
Proof.
  intros one two three. apply (evaluateExpr_correct [one; tok PP_PUNCTUATOR "+"; two; tok PP_PUNCTUATOR "*"; three]).
  cbn [filter list_filter decide is_blank]. do 9 (apply derives_up; [lia|]).
  apply (derives_binary 1 additive_ops (tok PP_PUNCTUATOR "+") "+" _ (CNum one) _ [one] [two; tok PP_PUNCTUATOR "*"; three] eq_refl eq_refl eq_refl).
  - do 3 (apply derives_up; [lia|]). by apply derives_operand.
  - apply (derives_binary 0 multiplicative_ops (tok PP_PUNCTUATOR "*") "*" _ (CNum two) _ [two] [three] eq_refl eq_refl eq_refl);
      repeat (apply derives_up; [lia|]); by apply derives_operand.
Defined.

(** [0 && 1/0] is an error, though in C its value is [0]. *)
Lemma operands_evaluated :
  let e := CBinary "&&" (CNum (tok PP_NUMBER "0")) (CBinary "/" (CNum (tok PP_NUMBER "1")) (CNum (tok PP_NUMBER "0"))) in
  evaluateExpr [tok PP_NUMBER "0"; tok PP_PUNCTUATOR "&&"; tok PP_NUMBER "1"; tok PP_PUNCTUATOR "/"; tok PP_NUMBER "0"] =
    Err (EMsg "division by zero" []) /\ c_value e = Ok 0.
Proof. split; reflexivity. Qed.
