(* ===== verification/CppExpand.v ===== *)
(** Macros and their expansion ([src/pkg/cpp/macro.go], [src/pkg/cpp/expand.go]):
    the table of macros, the arguments of a call, the operators [#] and [##], and
    the expansion, which hides a macro while it is expanded. *)

From Stdlib Require Import Ascii.
From stdpp Require Import pretty.
From S2P Require Import Prelude Cpp CppExpr.

(** ** Macros *)

Inductive MacroKind := MacroObject | MacroFunction | MacroBuiltin.

#[export] Instance MacroKind_eq_dec : EqDecision MacroKind.
Proof. solve_decision. Defined.

Record Macro := mkMacro {
  Name : string;
  Kind : MacroKind;
  Params : list string;
  IsVariadic : bool;
  Replacement : list Token;
  MacroLoc : SourceLoc;
  BuiltinFunc : option (SourceLoc -> list Token)
}.

Definition noLoc : SourceLoc := mkLoc EmptyString 0 0.

(** The dates are those of the clock when the table is made. *)
Record MacroTable := mkTable { macros : gmap string Macro; compDate : string; compTime : string }.

Definition set_macros (f : gmap string Macro -> gmap string Macro) (mt : MacroTable) : MacroTable :=
  mkTable (f (macros mt)) (compDate mt) (compTime mt).

Definition builtin (name : string) (f : option (SourceLoc -> list Token)) : Macro :=
  mkMacro name MacroBuiltin [] false [] noLoc f.

(** The built-in macros that stand for a number. *)
Definition version_macros : list (string * string) :=
  [("__STDC__", "1"); ("__STDC_VERSION__", "201112L"); ("__STDC_HOSTED__", "1"); ("__GNUC__", "4");
   ("__GNUC_MINOR__", "2"); ("__GNUC_PATCHLEVEL__", "1"); ("__GNUC_STDC_INLINE__", "1"); ("__SIZEOF_INT__", "4");
   ("__SIZEOF_LONG__", "8"); ("__SIZEOF_LONG_LONG__", "8"); ("__SIZEOF_SHORT__", "2"); ("__SIZEOF_POINTER__", "8");
   ("__SIZEOF_SIZE_T__", "8"); ("__SIZEOF_PTRDIFF_T__", "8"); ("__SIZEOF_FLOAT__", "4");
   ("__SIZEOF_DOUBLE__", "8")]%string.

Definition platform_macros : list (string * string) :=
  [("__BYTE_ORDER__", "1234"); ("__ORDER_LITTLE_ENDIAN__", "1234"); ("__ORDER_BIG_ENDIAN__", "4321");
   ("__LITTLE_ENDIAN__", "1"); ("__LP64__", "1"); ("__aarch64__", "1"); ("__arm64__", "1"); ("__APPLE__", "1");
   ("__MACH__", "1"); ("__APPLE_CC__", "6000")]%string.

Definition limit_macros : list (string * string) :=
  [("__CHAR_BIT__", "8"); ("__SCHAR_MAX__", "127"); ("__SHRT_MAX__", "32767"); ("__INT_MAX__", "2147483647");
   ("__LONG_MAX__", "9223372036854775807L"); ("__LONG_LONG_MAX__", "9223372036854775807LL");
   ("__WCHAR_MAX__", "2147483647"); ("__WCHAR_WIDTH__", "32"); ("__WINT_MAX__", "2147483647");
   ("__WINT_WIDTH__", "32")]%string.

Definition width_macros : list (string * string) :=
  [("__INTMAX_MAX__", "9223372036854775807L"); ("__INTMAX_WIDTH__", "64");
   ("__SIZE_MAX__", "18446744073709551615UL"); ("__SIZE_WIDTH__", "64"); ("__PTRDIFF_MAX__", "9223372036854775807L");
   ("__PTRDIFF_WIDTH__", "64"); ("__INTPTR_MAX__", "9223372036854775807L"); ("__INTPTR_WIDTH__", "64");
   ("__UINTPTR_MAX__", "18446744073709551615UL"); ("__INT8_MAX__", "127"); ("__INT16_MAX__", "32767");
   ("__INT32_MAX__", "2147483647"); ("__INT64_MAX__", "9223372036854775807LL"); ("__UINT8_MAX__", "255");
   ("__UINT16_MAX__", "65535"); ("__UINT32_MAX__", "4294967295U");
   ("__UINT64_MAX__", "18446744073709551615ULL")]%string.

Definition number_builtin (nv : string * string) : Macro :=
  builtin nv.1 (Some (fun loc => [mkToken PP_NUMBER nv.2 loc])).

Definition quoted (s : string) : string := String quote (s ++ String quote EmptyString)%string.

Definition initBuiltins (mt : MacroTable) : MacroTable :=
  let date_time :=
    [builtin "__FILE__" None; builtin "__LINE__" None;
     builtin "__DATE__" (Some (fun loc => [mkToken PP_STRING (quoted (compDate mt)) loc]));
     builtin "__TIME__" (Some (fun loc => [mkToken PP_STRING (quoted (compTime mt)) loc]))] in
  let numbers := map number_builtin (version_macros ++ platform_macros ++ limit_macros ++ width_macros) in
  set_macros (fun ms => foldl (fun ms m => <[Name m := m]> ms) ms (date_time ++ numbers)) mt.

Definition NewMacroTable (date time : string) : MacroTable := initBuiltins (mkTable ∅ date time).

(** [Define]; the warning that a macro is redefined goes to the standard error,
    which is not modelled. *)
Definition Define (m : Macro) (mt : MacroTable) : MacroTable := set_macros <[Name m := m]> mt.

Definition DefineObject (name : string) (replacement : list Token) (loc : SourceLoc) : MacroTable -> MacroTable :=
  Define (mkMacro name MacroObject [] false replacement loc None).

Definition DefineFunction (name : string) (params : list string) (isVariadic : bool) (replacement : list Token) (loc : SourceLoc) :
    MacroTable -> MacroTable :=
  Define (mkMacro name MacroFunction params isVariadic replacement loc None).

(** The loop that reads tokens up to the end, or to the end of a line. *)
Fixpoint line_tokens (fuel : nat) (l : Lexer) : list Token :=
  match fuel with
  | O => []
  | S fuel =>
      let '(t, l) := NextToken l in
      if bool_decide (Type_ t = PP_EOF) || bool_decide (Type_ t = PP_NEWLINE) then []
      else if bool_decide (Type_ t = PP_WHITESPACE) then line_tokens fuel l else t :: line_tokens fuel l
  end.

(** Every token takes a character at least ([NextToken_read]). *)
Definition tokenize (text file : string) : list Token := line_tokens (S (String.length text)) (NewLexer text file).

Definition DefineSimple (name value : string) (loc : SourceLoc) : MacroTable -> MacroTable :=
  DefineObject name (tokenize value "<cmdline>") loc.

Definition Undefine (name : string) (mt : MacroTable) : MacroTable :=
  if bool_decide (name ∈ ["__FILE__"; "__LINE__"]%string) then mt else set_macros (delete name) mt.

Definition Lookup (name : string) (mt : MacroTable) : option Macro := macros mt !! name.

Definition IsDefined (name : string) (mt : MacroTable) : bool := bool_decide (is_Some (macros mt !! name)).

Definition GetFileToken (loc : SourceLoc) : list Token := [mkToken PP_STRING (quoted (File loc)) loc].
Definition GetLineToken (loc : SourceLoc) : list Token := [mkToken PP_NUMBER (pretty (Line loc)) loc].

(** The name and the value of [-D], [NAME] or [NAME=VALUE]. *)
Fixpoint split_equals (s : string) : option (string * string) :=
  match s with
  | EmptyString => None
  | String c s => if bool_decide (c = "="%char) then Some (EmptyString, s) else (fun nv => (String c nv.1, nv.2)) <$> split_equals s
  end.

Definition parseCmdlineDefine (s : string) : string * string := default (s, "1"%string) (split_equals s).

Definition ApplyCmdlineDefines (defines undefines : list string) (mt : MacroTable) : MacroTable :=
  let loc := mkLoc "<command-line>" 1 1 in
  let mt := foldl (fun mt def => DefineSimple (parseCmdlineDefine def).1 (parseCmdlineDefine def).2 loc mt) mt defines in
  foldl (fun mt name => Undefine name mt) mt undefines.

(** ** The parts of a macro call *)

Definition set_loc (loc : SourceLoc) (t : Token) : Token := mkToken (Type_ t) (Text t) loc.

Definition is_ws (t : Token) : bool := bool_decide (Type_ t = PP_WHITESPACE).

Fixpoint skip_ws (ts : list Token) : list Token :=
  match ts with t :: ts' => if is_ws t then skip_ws ts' else ts | [] => [] end.

Definition trimWhitespace (ts : list Token) : list Token := reverse (skip_ws (reverse (skip_ws ts))).

Definition validateArgCount (macro : Macro) (args : list (list Token)) : Result unit :=
  let expected := length (Params macro) in
  if IsVariadic macro then
    if (length args <? expected)%nat then Err (EMsg "macro %s requires at least %d arguments, got %d" [Name macro; pretty expected; pretty (length args)])
    else Ok tt
  else
    if bool_decide (length args = expected) then Ok tt
    else Err (EMsg "macro %s requires %d arguments, got %d" [Name macro; pretty expected; pretty (length args)]).

(** The loop of [parseArguments] after the opening parenthesis: the arguments, and
    the tokens after the closing one. *)
Fixpoint parse_arguments (macro : Macro) (args : list (list Token)) (currentArg : list Token) (parenDepth : nat) (ts : list Token) :
    Result (list (list Token) * list Token) :=
  match ts with
  | [] => Err (EMsg "unterminated macro argument list" [])
  | tok :: ts =>
      if is_token PP_PUNCTUATOR "(" tok then parse_arguments macro args (currentArg ++ [tok]) (S parenDepth) ts
      else if is_token PP_PUNCTUATOR ")" tok then
        match pred parenDepth with
        | O =>
            let args := if (0 <? length currentArg)%nat || (0 <? length args)%nat then args ++ [trimWhitespace currentArg] else args in
            _ ← validateArgCount macro args; Ok (args, ts)
        | S d => parse_arguments macro args (currentArg ++ [tok]) (S d) ts
        end
      else if is_token PP_PUNCTUATOR "," tok && bool_decide (parenDepth = 1%nat) then
        parse_arguments macro (args ++ [trimWhitespace currentArg]) [] parenDepth ts
      else parse_arguments macro args (currentArg ++ [tok]) parenDepth ts
  end.

Definition parseArguments (macro : Macro) (ts : list Token) : Result (list (list Token) * list Token) :=
  parse_arguments macro [] [] 1 ts.

Fixpoint join_args (args : list (list Token)) : list Token :=
  match args with
  | [] => []
  | [arg] => arg
  | arg :: args => arg ++ mkToken PP_PUNCTUATOR "," noLoc :: mkToken PP_WHITESPACE " " noLoc :: join_args args
  end.

Definition buildVAArgs (args : list (list Token)) (numParams : nat) : list Token := join_args (drop numParams args).

(** The text of a string or character constant in a string, by bytes. *)
Fixpoint escape (s : string) : string :=
  match s with
  | EmptyString => EmptyString
  | String c s => if bool_decide (c = quote) || bool_decide (c = backslash) then String backslash (String c (escape s)) else String c (escape s)
  end.

Fixpoint stringify_loop (lastWasSpace : bool) (ts : list Token) : string :=
  match ts with
  | [] => EmptyString
  | tok :: ts =>
      if is_blank tok then (if lastWasSpace then stringify_loop true ts else String " " (stringify_loop true ts))
      else
        let text := if bool_decide (Type_ tok = PP_STRING) || bool_decide (Type_ tok = PP_CHAR_CONST) then escape (Text tok) else Text tok in
        (text ++ stringify_loop false ts)%string
  end.

(** [strings.HasSuffix(str, " ")], and [str] without it *)
Fixpoint trim_space (s : string) : string :=
  match s with
  | EmptyString => EmptyString
  | String c EmptyString => if bool_decide (c = " "%char) then EmptyString else s
  | String c s => String c (trim_space s)
  end.

Definition stringify (ts : list Token) (loc : SourceLoc) : Token :=
  mkToken PP_STRING (trim_space (String quote (stringify_loop true ts)) ++ String quote EmptyString)%string loc.

(** *** Token pasting *)

Definition retokenize (text : string) (loc : SourceLoc) : list Token := set_loc loc <$> tokenize text (File loc).

Definition paste (leftTok rightTok : Token) : list Token :=
  if bool_decide (Type_ leftTok = PP_PLACEHOLDER) then [rightTok]
  else if bool_decide (Type_ rightTok = PP_PLACEHOLDER) then [leftTok]
  else
    match retokenize (Text leftTok ++ Text rightTok) (Loc leftTok) with
    | [] => [mkToken PP_PLACEHOLDER EmptyString (Loc leftTok)]
    | ts => ts
    end.

(** The loop of [handleTokenPasting]; [result] is in reverse. *)
Fixpoint pasting_loop (fuel : nat) (result ts : list Token) : Result (list Token) :=
  match ts with
  | [] => Ok (reverse result)
  | tok :: ts =>
      match fuel with
      | O => Err EFuel
      | S fuel =>
          if bool_decide (Type_ tok = PP_HASHHASH) then
            match result, skip_ws ts, skip_ws result with
            | [], _, _ => Err (EMsg "## cannot appear at start of replacement list" [])
            | _, [], _ => Err (EMsg "## cannot appear at end of replacement list" [])
            | _, _, [] => Err (EMsg "## cannot appear at start of replacement list" [])
            | _, rightTok :: ts, leftTok :: result => pasting_loop fuel (reverse (paste leftTok rightTok) ++ result) ts
            end
          else pasting_loop fuel (tok :: result) ts
      end
  end.

Definition handleTokenPasting (tokens : list Token) : Result (list Token) :=
  filter (fun t => Type_ t <> PP_PLACEHOLDER) <$> pasting_loop (length tokens) [] tokens.

(** ** The expander

    [Expander] is the macros that are being expanded, which change, and the place
    for [__FILE__] and [__LINE__], which is set by the caller. The second hide set of
    [expandTokens] is no other than the expander's, or [nil]. *)

Abbreviation hideset := (gset string).

Definition M (A : Type) : Type := hideset -> Result A * hideset.

#[export] Instance M_ret : MRet M := fun A a hs => (Ok a, hs).
#[export] Instance M_bind : MBind M := fun A B f m hs =>
  match m hs with (Ok a, hs) => f a hs | (Err e, hs) => (Err e, hs) end.

Definition lift {A} (r : Result A) : M A := fun hs => (r, hs).
Definition get_hideset : M hideset := fun hs => (Ok hs, hs).

(** [e.hideset[name] = true], and [delete(e.hideset, name)] at the end, deferred *)
Definition hiding {A} (name : string) (m : M A) : M A := fun hs =>
  let '(r, hs) := m ({[name]} ∪ hs) in (r, hs ∖ {[name]}).

Section Expand.
  Context (mt : MacroTable) (eloc : SourceLoc).

Definition expandBuiltin (macro : Macro) (loc : SourceLoc) : Result (list Token) :=
  let useLoc := if bool_decide (File eloc = EmptyString) then loc else eloc in
  if bool_decide (Name macro = "__FILE__"%string) then Ok (GetFileToken useLoc)
  else if bool_decide (Name macro = "__LINE__"%string) then Ok (GetLineToken useLoc)
  else match BuiltinFunc macro with Some f => Ok (f useLoc) | None => Err (EMsg "built-in macro %s has no implementation" [Name macro]) end.

Section Nested.
  (* [expandTokens] for replacements and arguments *)
  Context (expandTokens : list Token -> M (list Token)).

Definition expandObjectMacro (macro : Macro) (loc : SourceLoc) : M (list Token) :=
  hiding (Name macro) (replacement ← lift (handleTokenPasting (set_loc loc <$> Replacement macro)); expandTokens replacement).

Definition param_map (macro : Macro) (args : list (list Token)) : gmap string (list Token) :=
  let m := foldl (fun m ip => <[ip.2 := default [] (args !! ip.1)]> m) ∅ (imap (fun i p => (i, p)) (Params macro)) in
  if IsVariadic macro then <["__VA_ARGS__"%string := buildVAArgs args (length (Params macro))]> m else m.

Definition isPasteOp (t : Token) : bool := bool_decide (Type_ t = PP_HASHHASH).

Definition first_is_paste (ts : list Token) : bool := match ts with t :: _ => isPasteOp t | [] => false end.

(** The argument that [#], the token before [ts], makes a string of, and the tokens
    after its name. *)
Definition stringify_operand (params : gmap string (list Token)) (tok : Token) (ts : list Token) : option (list Token * list Token) :=
  if is_token PP_PUNCTUATOR "#" tok || bool_decide (Type_ tok = PP_HASH) then
    match skip_ws ts with
    | t :: ts => if bool_decide (Type_ t = PP_IDENTIFIER) then (fun arg => (arg, ts)) <$> params !! Text t else None
    | [] => None
    end
  else None.

(** The loop of [expandFunctionMacro] over the replacement list; [beforePaste] is
    true after [##]. *)
Fixpoint substitute (params : gmap string (list Token)) (loc : SourceLoc) (fuel : nat) (beforePaste : bool) (ts : list Token) : M (list Token) :=
  match ts with
  | [] => mret []
  | tok :: ts =>
      match fuel with
      | O => lift (Err EFuel)
      | S fuel =>
          match stringify_operand params tok ts with
          | Some (arg, ts) => result ← substitute params loc fuel false ts; mret (stringify arg loc :: result)
          | None =>
              match (if bool_decide (Type_ tok = PP_IDENTIFIER) then params !! Text tok else None) with
              | Some paramTokens =>
                  arg ← (if beforePaste || first_is_paste ts then mret paramTokens else expandTokens paramTokens);
                  result ← substitute params loc fuel false ts; mret ((set_loc loc <$> arg) ++ result)
              | None => result ← substitute params loc fuel (isPasteOp tok) ts; mret (set_loc loc tok :: result)
              end
          end
      end
  end.

Definition expandFunctionMacro (macro : Macro) (args : list (list Token)) (loc : SourceLoc) : M (list Token) :=
  hiding (Name macro)
    (result ← substitute (param_map macro args) loc (length (Replacement macro)) false (Replacement macro);
     result ← lift (handleTokenPasting result);
     expandTokens result).

(** The loop of [expandTokens] *)
Fixpoint expand_loop (fuel : nat) (ts : list Token) : M (list Token) :=
  match ts with
  | [] => mret []
  | tok :: ts =>
      match fuel with
      | O => lift (Err EFuel)
      | S fuel =>
          let keep := result ← expand_loop fuel ts; mret (tok :: result) in
          hidden ← get_hideset;
          match (if bool_decide (Type_ tok = PP_IDENTIFIER) then Lookup (Text tok) mt else None) with
          | None => keep
          | Some macro =>
              if bool_decide (Text tok ∈ hidden) then keep
              else
                match Kind macro with
                | MacroBuiltin =>
                    expanded ← lift (expandBuiltin macro (Loc tok)); result ← expand_loop fuel ts; mret (expanded ++ result)
                | MacroFunction =>
                    match skip_ws ts with
                    | paren :: ts' =>
                        if is_token PP_PUNCTUATOR "(" paren then
                          '(args, ts') ← lift (wrap "%s:%d: %w" [File (Loc tok); pretty (Line (Loc tok))] (parseArguments macro ts'));
                          expanded ← expandFunctionMacro macro args (Loc tok);
                          result ← expand_loop fuel ts'; mret (expanded ++ result)
                        else keep
                    | [] => keep
                    end
                | MacroObject =>
                    expanded ← expandObjectMacro macro (Loc tok); result ← expand_loop fuel ts; mret (expanded ++ result)
                end
          end
      end
  end.
End Nested.

(** [depth] bounds the macros that are being expanded at once. *)
Fixpoint expand_tokens (depth : nat) (ts : list Token) : M (list Token) :=
  match depth with
  | O => lift (Err EFuel)
  | S depth => expand_loop (expand_tokens depth) (length ts) ts
  end.

(** No macro is expanded inside itself ([Expand_ends]). *)
Definition expandTokens (ts : list Token) : M (list Token) := expand_tokens (S (size (macros mt))) ts.
End Expand.

(** [Expand] and [ExpandWithLoc], of an expander that is not expanding. *)
Definition ExpandWithLoc (mt : MacroTable) (ts : list Token) (loc : SourceLoc) : Result (list Token) :=
  (expandTokens mt loc ts ∅).1.

(** ** Computations that neither run out of fuel nor change the hide set *)

Definition fine {A} (m : M A) (hs : hideset) : Prop := (m hs).1 <> Err EFuel /\ (m hs).2 = hs.

Lemma fine_ret {A} (a : A) hs : fine (mret a) hs.
Proof. done. Qed.

Lemma fine_lift {A} (r : Result A) hs : r <> Err EFuel -> fine (lift r) hs.
Proof. done. Qed.

Lemma M_bind_eq {A B} (m : M A) (f : A -> M B) hs :
  (m ≫= f) hs = match m hs with (Ok a, hs) => f a hs | (Err e, hs) => (Err e, hs) end.
Proof. reflexivity. Qed.

Lemma fine_bind {A B} (m : M A) (f : A -> M B) hs : fine m hs -> (forall a, (m hs).1 = Ok a -> fine (f a) hs) -> fine (m ≫= f) hs.
Proof.
  intros [H1 H2] H. unfold fine. rewrite M_bind_eq. destruct (m hs) as [[a|e] hs'] eqn:E; cbn in *; subst hs'; [by apply H|].
  split; [congruence|done].
Qed.

Lemma fine_hiding {A} name (m : M A) hs : name ∉ hs -> fine m ({[name]} ∪ hs) -> fine (hiding name m) hs.
Proof.
  intros Hn [H1 H2]. unfold fine, hiding. destruct (m _) as [r hs']. cbn in *. subst hs'. split; [done|]. set_solver.
Qed.

Lemma hiding_Ok {A} name (m : M A) hs a : (hiding name m hs).1 = Ok a -> (m ({[name]} ∪ hs)).1 = Ok a.
Proof. unfold hiding. by destruct (m _). Qed.

#[local] Hint Resolve fine_ret fine_lift : core.

Lemma skip_ws_le ts : (length (skip_ws ts) <= length ts)%nat.
Proof. induction ts as [|t ts IH]; cbn; [done|]. destruct (is_ws t); cbn; lia. Qed.

Lemma skip_ws_cons ts t ts' : skip_ws ts = t :: ts' -> (length ts' < length ts)%nat.
Proof. intros H. pose proof (skip_ws_le ts) as Hl. rewrite H in Hl. exact Hl. Qed.

Lemma pasting_ends fuel result ts : (length ts <= fuel)%nat -> pasting_loop fuel result ts <> Err EFuel.
Proof.
  revert result ts. induction fuel as [|fuel IH]; intros result [|t ts] Hl; cbn [pasting_loop length] in *; [done|lia|done|].
  case_bool_decide; [|apply IH; lia]. destruct result as [|r result]; [done|]. destruct (skip_ws ts) as [|t1 ts1] eqn:E; [done|].
  destruct (skip_ws (r :: result)); [done|]. apply skip_ws_cons in E. apply IH. lia.
Qed.

Lemma handleTokenPasting_ends ts : handleTokenPasting ts <> Err EFuel.
Proof. unfold handleTokenPasting. pose proof (pasting_ends (length ts) [] ts ltac:(done)) as H. destruct (pasting_loop _ _ _); [done|]. cbn. congruence. Qed.

Lemma arguments_shorter macro args cur d ts args' ts' : parse_arguments macro args cur d ts = Ok (args', ts') -> (length ts' < length ts)%nat.
Proof.
  revert args cur d. induction ts as [|t ts IH]; intros args cur d; [done|]. cbn [parse_arguments length]. intros H.
  assert (H' : (length ts' <= length ts)%nat); [|lia]. revert H.
  destruct (is_token PP_PUNCTUATOR "(" t); [intros H; apply IH in H; lia|]. destruct (is_token PP_PUNCTUATOR ")" t).
  - destruct (pred d); [intros H|intros H; apply IH in H; lia]. destruct (validateArgCount _ _); [|done]. cbn in H. by injection H as _ <-.
  - destruct (is_token _ _ t && _); intros H; apply IH in H; lia.
Qed.

Lemma validateArgCount_ends macro args : validateArgCount macro args <> Err EFuel.
Proof. unfold validateArgCount. repeat case_match; done. Qed.

Lemma arguments_end macro args cur d ts : parse_arguments macro args cur d ts <> Err EFuel.
Proof.
  revert args cur d. induction ts as [|t ts IH]; intros args cur d; [done|]. cbn [parse_arguments].
  destruct (is_token PP_PUNCTUATOR "(" t); [apply IH|]. destruct (is_token PP_PUNCTUATOR ")" t).
  - destruct (pred d); [|apply IH]. match goal with |- context [validateArgCount macro ?a] => pose proof (validateArgCount_ends macro a) as H end.
    destruct (validateArgCount _ _); cbn [mbind Result_bind]; [done|congruence].
  - destruct (is_token _ _ t && _); apply IH.
Qed.

Lemma operand_shorter params t ts arg ts' : stringify_operand params t ts = Some (arg, ts') -> (length ts' < length ts)%nat.
Proof.
  unfold stringify_operand. destruct (_ || _); [|done]. destruct (skip_ws ts) as [|t1 ts1] eqn:E; [done|].
  case_bool_decide; [|done]. intros (a & _ & [= -> ->])%fmap_Some. by apply skip_ws_cons in E.
Qed.

Lemma expandBuiltin_ends loc macro l : expandBuiltin loc macro l <> Err EFuel.
Proof. unfold expandBuiltin. repeat case_match; done. Qed.

(** ** Expansion ends *)

(** Macros are in the table under their names. *)
Definition well_named (mt : MacroTable) : Prop := forall n m, macros mt !! n = Some m -> Name m = n.

Section Ends.
  Context (mt : MacroTable) (eloc : SourceLoc) (Hwn : well_named mt).

(** The macros that are not hidden. *)
Definition visible (hs : hideset) : nat := size (dom (macros mt) ∖ hs).

Lemma visible_less n m hs : macros mt !! n = Some m -> n ∉ hs -> (visible ({[n]} ∪ hs) < visible hs)%nat.
Proof.
  intros Hn Hh. unfold visible. apply subset_size. apply (elem_of_dom_2 (D:=gset string)) in Hn. set_solver.
Qed.

Lemma substitute_fine rec params loc fuel b ts hs :
  (forall ts, fine (rec ts) hs) -> (length ts <= fuel)%nat -> fine (substitute rec params loc fuel b ts) hs.
Proof.
  intros Hrec. revert b ts. induction fuel as [|fuel IH]; intros b [|t ts] Hl; cbn [substitute length] in *; [done|lia|done|].
  destruct (stringify_operand params t ts) as [[arg ts']|] eqn:E.
  - apply operand_shorter in E. apply fine_bind; [apply IH; lia|done].
  - destruct (if bool_decide _ then _ else _) as [arg|].
    + apply fine_bind; [destruct (_ || _); [done|apply Hrec]|]. intros a _. apply fine_bind; [apply IH; lia|done].
    + apply fine_bind; [apply IH; lia|done].
Qed.

Lemma loop_fine rec fuel ts hs :
  (forall hs' ts, (visible hs' < visible hs)%nat -> fine (rec ts) hs') -> (length ts <= fuel)%nat -> fine (expand_loop mt eloc rec fuel ts) hs.
Proof.
  intros Hrec. revert ts. induction fuel as [|fuel IH]; intros [|t ts] Hl; cbn [expand_loop length] in *; [done|lia|done|].
  assert (Hk : fine (result ← expand_loop mt eloc rec fuel ts; mret (t :: result)) hs) by (apply fine_bind; [apply IH; lia|done]).
  apply fine_bind; [done|]. intros hidden [= <-]. destruct (if bool_decide _ then _ else _) as [m|] eqn:Em; [|exact Hk].
  case_bool_decide as Ht; [|done]. case_bool_decide as Hh; [exact Hk|]. pose proof (visible_less _ _ _ Em Hh) as Hv. rewrite <- (Hwn _ _ Em) in Hv, Hh.
  destruct (Kind m).
  - apply fine_bind; [|intros e _; apply fine_bind; [apply IH; lia|done]].
    apply fine_hiding; [done|]. apply fine_bind; [apply fine_lift, handleTokenPasting_ends|]. intros r _. by apply Hrec.
  - destruct (skip_ws ts) as [|p ts'] eqn:E; [exact Hk|]. destruct (is_token _ _ p); [|exact Hk]. apply skip_ws_cons in E.
    apply fine_bind; [apply fine_lift; rewrite wrap_fuel; apply arguments_end|]. intros [args ts2] Ha. cbn in Ha. apply wrap_Ok, arguments_shorter in Ha.
    apply fine_bind; [|intros e _; apply fine_bind; [apply IH; lia|done]]. apply fine_hiding; [done|].
    apply fine_bind; [apply substitute_fine; [intros; by apply Hrec|done]|]. intros r _.
    apply fine_bind; [apply fine_lift, handleTokenPasting_ends|]. intros r2 _. by apply Hrec.
  - apply fine_bind; [apply fine_lift, expandBuiltin_ends|]. intros e _. apply fine_bind; [apply IH; lia|done].
Qed.

Lemma expand_tokens_fine depth ts hs : (visible hs < depth)%nat -> fine (expand_tokens mt eloc depth ts) hs.
Proof.
  revert ts hs. induction depth as [|depth IH]; intros ts hs Hv; [lia|]. cbn [expand_tokens]. apply loop_fine; [|done]. intros hs' ts' Hl. apply IH. lia.
Qed.

Lemma expandTokens_fine ts hs : fine (expandTokens mt eloc ts) hs.
Proof.
  apply expand_tokens_fine. unfold visible. rewrite <- (size_dom (macros mt)).
  assert (H : (size (dom (macros mt) ∖ hs) <= size (dom (macros mt)))%nat) by (apply subseteq_size; set_solver). lia.
Qed.
End Ends.

(** ** Pasting, by the rule of C

    The operators are taken from the left: the tokens next to [##], but for white
    space, are joined and read as tokens again. What came of an operator is not taken
    for one. *)

Definition not_operator (t : Token) : Prop := Type_ t <> PP_HASHHASH.

(** What two tokens become; a placeholder stands for no token. *)
Inductive glued (left right : Token) : list Token -> Prop :=
| glued_left : Type_ left = PP_PLACEHOLDER -> glued left right [right]
| glued_right : Type_ left <> PP_PLACEHOLDER -> Type_ right = PP_PLACEHOLDER -> glued left right [left]
| glued_nothing :
    Type_ left <> PP_PLACEHOLDER -> Type_ right <> PP_PLACEHOLDER -> retokenize (Text left ++ Text right) (Loc left) = [] ->
    glued left right [mkToken PP_PLACEHOLDER EmptyString (Loc left)]
| glued_text ts :
    Type_ left <> PP_PLACEHOLDER -> Type_ right <> PP_PLACEHOLDER -> retokenize (Text left ++ Text right) (Loc left) = ts -> ts <> [] ->
    glued left right ts.

(** [ts], after the tokens [prev], becomes [out]. *)
Inductive pasting : list Token -> list Token -> list Token -> Prop :=
| pasting_end prev ts : Forall not_operator ts -> pasting prev ts (prev ++ ts)
| pasting_operator prev ts op before left w w' right g rest out :
    Forall not_operator ts -> Type_ op = PP_HASHHASH ->
    prev ++ ts = before ++ left :: w -> is_ws left = false -> Forall is_ws w ->
    Forall is_ws w' -> is_ws right = false -> glued left right g ->
    pasting (before ++ g) rest out -> pasting prev (ts ++ op :: w' ++ right :: rest) out.

(** A list without operators and placeholders. *)
Definition pasted (ts out : list Token) : Prop :=
  exists l, pasting [] ts l /\ out = filter (fun t => Type_ t <> PP_PLACEHOLDER) l.

Lemma paste_glued left right : glued left right (paste left right).
Proof.
  unfold paste. case_bool_decide; [by apply glued_left|]. case_bool_decide; [by apply glued_right|].
  destruct (retokenize _ _) eqn:E; [by apply glued_nothing|by apply glued_text].
Qed.

Lemma glued_fun left right g : glued left right g -> g = paste left right.
Proof.
  unfold paste. destruct 1 as [H1|H1 H2|H1 H2 H3|ts H1 H2 H3 H4]; [by rewrite bool_decide_eq_true_2|..]; rewrite bool_decide_eq_false_2 by done;
    [by rewrite bool_decide_eq_true_2|..]; rewrite bool_decide_eq_false_2 by done; rewrite H3; [done|by destruct ts].
Qed.

Lemma skip_ws_app w t ts : Forall is_ws w -> is_ws t = false -> skip_ws (w ++ t :: ts) = t :: ts.
Proof. intros Hw Ht. induction Hw as [|u w Hu _ IH]; cbn; [by rewrite Ht|]. apply Is_true_true in Hu. by rewrite Hu. Qed.

Lemma skip_ws_Some ts t ts' : skip_ws ts = t :: ts' -> exists w, ts = w ++ t :: ts' /\ Forall is_ws w /\ is_ws t = false.
Proof.
  induction ts as [|u ts IH]; [done|]. cbn. destruct (is_ws u) eqn:E; [|intros [= -> ->]; by exists []].
  intros (w & -> & Hw & Ht)%IH. exists (u :: w). split_and!; [done| |done]. constructor; [by apply Is_true_true|done].
Qed.

Lemma pasting_cons prev t ts out : not_operator t -> pasting (prev ++ [t]) ts out -> pasting prev (t :: ts) out.
Proof.
  intros Ht. inversion 1 as [d l Hl|d l op bf lf w w' rg g rest o Hl Hop He]; subst.
  - rewrite <- app_assoc. by apply pasting_end, Forall_cons.
  - rewrite <- app_assoc in He. apply (pasting_operator prev (t :: l) op bf lf w w' rg g); try done. by apply Forall_cons.
Qed.

Lemma pasting_loop_prefix fuel result ts rest :
  Forall not_operator ts -> (length (ts ++ rest) <= fuel)%nat ->
  exists fuel', pasting_loop fuel result (ts ++ rest) = pasting_loop fuel' (reverse ts ++ result) rest /\ (length rest <= fuel')%nat.
Proof.
  intros Hts. revert fuel result. induction Hts as [|t ts Ht _ IH]; intros fuel result Hl; [by exists fuel|].
  destruct fuel as [|fuel]; cbn [length app] in Hl; [lia|]. cbn [app pasting_loop]. rewrite bool_decide_eq_false_2 by done.
  destruct (IH fuel (t :: result) ltac:(lia)) as (f & -> & Hf). exists f. split; [|done]. by rewrite reverse_cons, <- app_assoc.
Qed.

(** The loop, which reads from the left with what it has made in reverse. *)
Lemma pasting_loop_complete prev ts out fuel :
  pasting prev ts out -> (length ts <= fuel)%nat -> pasting_loop fuel (reverse prev) ts = Ok out.
Proof.
  intros H. revert fuel. induction H as [prev ts Hts|prev ts op bf lf w w' rg g rest out Hts Hop He Hlf Hw Hw' Hrg Hg _ IH]; intros fuel Hl.
  - rewrite <- (app_nil_r ts) in Hl |- * at 1. destruct (pasting_loop_prefix fuel (reverse prev) ts [] Hts Hl) as ([|f] & -> & _);
      cbn; by rewrite <- reverse_app, reverse_involutive.
  - destruct (pasting_loop_prefix fuel (reverse prev) ts _ Hts Hl) as ([|f] & -> & Hf); [cbn in Hf; lia|].
    rewrite <- reverse_app, He. cbn [pasting_loop]. rewrite bool_decide_eq_true_2 by done.
    assert (Hs : skip_ws (reverse (bf ++ lf :: w)) = lf :: reverse bf).
    { rewrite reverse_app, reverse_cons, <- app_assoc. by apply skip_ws_app; [apply Forall_reverse|]. }
    rewrite (skip_ws_app w' rg rest Hw' Hrg). destruct (reverse (bf ++ lf :: w)) as [|r rs]; [done|]. rewrite Hs.
    rewrite (glued_fun _ _ _ Hg) in IH. rewrite <- reverse_app. apply IH. cbn [length] in Hf. rewrite length_app in Hf. cbn in Hf. lia.
Qed.

Lemma pasting_loop_sound fuel result ts out :
  pasting_loop fuel result ts = Ok out -> pasting (reverse result) ts out.
Proof.
  revert result ts. induction fuel as [|fuel IH]; intros result [|t ts]; cbn [pasting_loop]; try done;
    try (intros [= <-]; rewrite <- (app_nil_r (reverse result)) at 2; by apply pasting_end).
  case_bool_decide as Ht; [|intros H%IH; rewrite reverse_cons in H; by apply pasting_cons].
  destruct result as [|r rs]; [done|]. destruct (skip_ws ts) as [|rg ts'] eqn:Er; [done|]. destruct (skip_ws (r :: rs)) as [|lf bf] eqn:El; [done|].
  intros H%IH. apply skip_ws_Some in Er as (w' & -> & Hw' & Hrg), El as (w & -> & Hw & Hlf).
  rewrite reverse_app, reverse_involutive in H.
  apply (pasting_operator _ [] t (reverse bf) lf (reverse w) w' rg (paste lf rg)); try done; [|by apply Forall_reverse|apply paste_glued].
  rewrite app_nil_r, reverse_app, reverse_cons. by rewrite <- app_assoc.
Qed.

Lemma handleTokenPasting_pasted ts out : handleTokenPasting ts = Ok out <-> pasted ts out.
Proof.
  unfold handleTokenPasting, pasted. split.
  - destruct (pasting_loop _ _ _) as [l|] eqn:E; [|done]. intros [= <-]. exists l. split; [|done]. by apply pasting_loop_sound in E.
  - intros (l & Hl & ->). apply (pasting_loop_complete [] ts l (length ts)) in Hl; [|done]. unfold reverse in Hl. cbn in Hl. by rewrite Hl.
Qed.

(** ** Object-like macros, by the algorithm of the C committee

    Every token has a hide set of its own; the replacement of a macro, each of its
    tokens with the hide set of the name and the name, is put in front of the tokens
    that follow, and is read again with them. *)

Section Prosser.
  Context (mt : MacroTable) (eloc : SourceLoc).

(** The macro that a token is to be replaced by. *)
Definition active_macro (t : Token) (hs : hideset) : option Macro :=
  if bool_decide (Type_ t = PP_IDENTIFIER) && negb (bool_decide (Text t ∈ hs)) then macros mt !! Text t else None.

Definition with_hideset (hs : hideset) (ts : list Token) : list (Token * hideset) := (fun t => (t, hs)) <$> ts.

Inductive prosser : list (Token * hideset) -> list Token -> Prop :=
| prosser_nil : prosser [] []
| prosser_keep t hs ts out : active_macro t hs = None -> prosser ts out -> prosser ((t, hs) :: ts) (t :: out)
| prosser_builtin t hs m e ts out :
    active_macro t hs = Some m -> Kind m = MacroBuiltin -> expandBuiltin eloc m (Loc t) = Ok e ->
    prosser ts out -> prosser ((t, hs) :: ts) (e ++ out)
| prosser_object t hs m r ts out :
    active_macro t hs = Some m -> Kind m = MacroObject -> pasted (set_loc (Loc t) <$> Replacement m) r ->
    prosser (with_hideset ({[Text t]} ∪ hs) r ++ ts) out -> prosser ((t, hs) :: ts) out.

Definition objects_only : Prop := forall n m, macros mt !! n = Some m -> Kind m <> MacroFunction.

Context (Hwn : well_named mt) (Hobj : objects_only).

(** What the loop and [expandTokens] do: they give what is found token by token, and
    go on with what follows, or fail where there is nothing to be found. *)
Definition expands (m : M (list Token)) (ts : list Token) (hs : hideset) : Prop :=
  (m hs).2 = hs /\ forall rest out, prosser (with_hideset hs ts ++ rest) out <->
    exists e out', (m hs).1 = Ok e /\ out = e ++ out' /\ prosser rest out'.

Lemma expands_nil hs : expands (mret []) [] hs.
Proof. split; [done|]. intros rest out. split; [by exists [], out|]. by intros (e & out' & [= <-] & -> & H). Qed.

Lemma expands_app m1 m2 ts1 ts2 hs :
  expands m1 ts1 hs -> expands m2 ts2 hs -> expands (e ← m1; result ← m2; mret (e ++ result)) (ts1 ++ ts2) hs.
Proof.
  intros [H1 E1] [H2 E2]. unfold expands, with_hideset. rewrite M_bind_eq. destruct (m1 hs) as [r1 hs1]. cbn in H1, E1. subst hs1.
  rewrite fmap_app. split.
  { destruct r1; [|done]. rewrite M_bind_eq. destruct (m2 hs) as [[]]; done. }
  intros rest out. rewrite <- app_assoc, E1. destruct r1 as [e1|]; [|by split; intros (? & ? & ? & _)].
  rewrite M_bind_eq. destruct (m2 hs) as [r2 hs2]. cbn in H2, E2. subst hs2. split.
  - intros (? & o & [= <-] & -> & (e2 & o2 & -> & -> & Ho)%E2). exists (e1 ++ e2), o2. by rewrite <- app_assoc.
  - destruct r2 as [e2|]; [|by intros (? & ? & ? & _)]. intros (? & o2 & [= <-] & -> & Ho). exists e1, (e2 ++ o2).
    split_and!; [done|by rewrite app_assoc|]. apply E2. by exists e2, o2.
Qed.

Lemma keep_expands t hs : active_macro t hs = None -> expands (mret [t]) [t] hs.
Proof.
  intros Ht. split; [done|]. intros rest out. cbn. split.
  - inversion 1; subst; try congruence. eauto.
  - intros (e & out' & [= <-] & -> & H). by apply prosser_keep.
Qed.

Lemma builtin_expands t m hs :
  active_macro t hs = Some m -> Kind m = MacroBuiltin -> expands (lift (expandBuiltin eloc m (Loc t))) [t] hs.
Proof.
  intros Ha Hk. split; [done|]. intros rest out. cbn. split.
  - inversion 1; subst; try congruence. replace m0 with m in * by congruence. eauto.
  - intros (e & out' & He & -> & H). by eapply prosser_builtin.
Qed.

Lemma object_expands rec t m hs :
  active_macro t hs = Some m -> Kind m = MacroObject -> Name m = Text t -> Text t ∉ hs ->
  (forall ts, expands (rec ts) ts ({[Text t]} ∪ hs)) -> expands (expandObjectMacro rec m (Loc t)) [t] hs.
Proof.
  intros Ha Hk Hn Hh Hrec. unfold expands, expandObjectMacro, hiding. rewrite Hn, M_bind_eq. unfold lift.
  pose proof (handleTokenPasting_pasted (set_loc (Loc t) <$> Replacement m)) as Hp.
  destruct (handleTokenPasting _) as [r|err].
  - destruct (Hrec r) as [H1 H2]. destruct (rec r _) as [e hs']. cbn in H1 |- *. subst hs'. split; [set_solver|]. intros rest out.
    cbn in H2. rewrite <- H2. split; [|eapply prosser_object; [done..|by apply Hp]].
    inversion 1 as [| | |? ? m' r' ? ? Ha' Hk' Hp' H']; subst; try congruence. replace m' with m in * by congruence. apply Hp in Hp'. by injection Hp' as <-.
  - cbn. split; [set_solver|]. intros rest out. split; [|by intros (? & ? & ? & _)].
    inversion 1 as [| | |? ? m' r' ? ? Ha' Hk' Hp' H']; subst; try congruence. replace m' with m in * by congruence. by apply Hp in Hp'.
Qed.

Lemma loop_expands rec fuel ts hs :
  (forall hs' ts, (visible mt hs' < visible mt hs)%nat -> expands (rec ts) ts hs') -> (length ts <= fuel)%nat ->
  expands (expand_loop mt eloc rec fuel ts) ts hs.
Proof.
  intros Hrec. revert ts. induction fuel as [|fuel IH]; intros [|t ts] Hl; cbn [expand_loop length] in *; try lia; try apply expands_nil.
  specialize (IH ts ltac:(lia)). unfold expands. rewrite M_bind_eq. cbn [get_hideset].
  assert (Hk : active_macro t hs = None -> expands (result ← expand_loop mt eloc rec fuel ts; mret (t :: result)) (t :: ts) hs)
    by (intros H; exact (expands_app _ _ [t] ts hs (keep_expands t hs H) IH)).
  unfold active_macro in Hk. destruct (bool_decide (Type_ t = PP_IDENTIFIER)) eqn:Ei; [|by apply Hk]. cbn [andb] in Hk.
  unfold Lookup. destruct (macros mt !! Text t) as [m|] eqn:Em; [|by apply Hk; destruct (negb _)].
  case_bool_decide as Hh; [by apply Hk|]. clear Hk. assert (Ha : active_macro t hs = Some m).
  { unfold active_macro. by rewrite Ei, bool_decide_eq_false_2. }
  assert (Hv : (visible mt ({[Text t]} ∪ hs) < visible mt hs)%nat) by (by eapply visible_less).
  pose proof (Hobj _ _ Em) as Ho. destruct (Kind m) eqn:Ek; [|done|].
  - apply (expands_app _ _ [t] ts); [|done]. apply object_expands; try done; [by apply Hwn|]. intros ts'. by apply Hrec.
  - apply (expands_app _ _ [t] ts); [|done]. by apply builtin_expands.
Qed.

Lemma expandTokens_expands ts hs : expands (expandTokens mt eloc ts) ts hs.
Proof.
  unfold expandTokens. assert (H : forall d ts hs, (visible mt hs < d)%nat -> expands (expand_tokens mt eloc d ts) ts hs).
  { induction d as [|d IH]; intros ts' hs' Hv; [lia|]. apply loop_expands; [|done]. intros hs2 ts2 Hl. apply IH. lia. }
  apply H. unfold visible. rewrite <- (size_dom (macros mt)).
  assert (Hs : (size (dom (macros mt) ∖ hs) <= size (dom (macros mt)))%nat) by (apply subseteq_size; set_solver). lia.
Qed.
End Prosser.

(** *** Tables *)

Lemma Define_well_named m mt : well_named mt -> well_named (Define m mt).
Proof. intros H n m' Hm. cbn in Hm. apply lookup_insert_Some in Hm as [[<- <-]|[_ Hm]]; [done|by apply H]. Qed.

Lemma Define_objects m mt : Kind m <> MacroFunction -> objects_only mt -> objects_only (Define m mt).
Proof. intros Hk H n m' Hm. cbn in Hm. apply lookup_insert_Some in Hm as [[_ <-]|[_ Hm]]; [done|by apply (H n)]. Qed.

Lemma Undefine_well_named name mt : well_named mt -> well_named (Undefine name mt).
Proof. intros H n m. unfold Undefine. case_bool_decide; [apply H|]. intros Hm. cbn in Hm. apply lookup_delete_Some in Hm as [_ Hm]. by apply H. Qed.

Lemma foldl_preserves {A B} (P : A -> Prop) (f : A -> B -> A) : (forall a b, P a -> P (f a b)) -> forall l a, P a -> P (foldl f a l).
Proof. intros Hf. induction l as [|b l IH]; intros a Ha; [done|]. cbn. by apply IH, Hf. Qed.

Lemma NewMacroTable_well_named date time : well_named (NewMacroTable date time).
Proof.
  unfold NewMacroTable, initBuiltins, well_named. cbn [set_macros macros]. apply (foldl_preserves (fun ms => forall n m, ms !! n = Some m -> Name m = n)).
  - intros ms b H n m [[<- <-]|[_ Hm]]%lookup_insert_Some; [done|by apply H].
  - intros n m H. by rewrite lookup_empty in H.
Qed.

Lemma ApplyCmdlineDefines_well_named defines undefines mt : well_named mt -> well_named (ApplyCmdlineDefines defines undefines mt).
Proof.
  intros H. unfold ApplyCmdlineDefines. apply foldl_preserves; [intros; by apply Undefine_well_named|].
  apply foldl_preserves; [|done]. intros. by apply Define_well_named.
Qed.

(** ** Theorems *)

(** The expansion of macros ends, whatever the macros and the text are,
    with a text or an error, and leaves no macro hidden: each macro is hidden while
    it is expanded, so that no more macros are being expanded at once than there are
    in the table. *)
Theorem expandTokens_ends mt eloc ts hs :
  well_named mt -> (expandTokens mt eloc ts hs).1 <> Err EFuel /\ (expandTokens mt eloc ts hs).2 = hs.
Proof. intros H. by apply expandTokens_fine. Qed.

(** C12. Where no macro is function-like, expansion does what the algorithm of
    the C committee does, in which hide sets belong to tokens and replacements are
    read again together with what follows: to hide macros while they are expanded,
    and to expand replacements alone, is the same. The operators [##] of a
    replacement are taken from the left before, as the rule of C says. Expansion
    fails exactly where the algorithm has no result: [##] is at an end of a
    replacement, or a built-in macro has no implementation. Macros are in the table
    under their names, as [Define] puts them. *)
Theorem ExpandWithLoc_prosser mt eloc ts out :
  well_named mt -> objects_only mt -> ExpandWithLoc mt ts eloc = Ok out <-> prosser mt eloc (with_hideset ∅ ts) out.
Proof.
  intros Hwn Hobj. destruct (expandTokens_expands mt eloc Hwn Hobj ts ∅) as [_ H]. specialize (H [] out).
  rewrite app_nil_r in H. rewrite H. unfold ExpandWithLoc. split.
  - intros E. exists out, []. rewrite app_nil_r. split_and!; [done..|apply prosser_nil].
  - intros (e & o & -> & -> & Ho). inversion Ho. by rewrite app_nil_r.
Qed.

(** *** Examples *)

Definition tokens_of (s : string) : list Token :=
  filter (fun t => Type_ t <> PP_EOF) (default [] (AllTokens (NewLexer s "f.c"))).

Definition expanded (mt : MacroTable) (s : string) : Result string :=
  TokensToString <$> ExpandWithLoc mt (tokens_of s) (mkLoc "f.c" 7 1).

(** [#define A B A c], [#define B [A]] and [#define D A ## B ## 1 B] *)
Definition mutual : MacroTable :=
  DefineObject "D" (tokens_of "A ## B ## 1 B") noLoc
    (DefineObject "B" (tokens_of "[A]") noLoc (DefineObject "A" (tokens_of "B A c") noLoc (mkTable ∅ "" ""))).

Lemma mutual_well_named : well_named mutual.
Proof. do 3 apply Define_well_named. intros n m H. cbn in H. by apply lookup_empty_Some in H. Qed.

Lemma mutual_objects : objects_only mutual.
Proof. do 3 (apply Define_objects; [done|]). intros n m H. cbn in H. by apply lookup_empty_Some in H. Qed.

Lemma expandTokens_ends_witness :
  (expandTokens mutual noLoc (tokens_of "A B") ∅).1 <> Err EFuel /\ expanded mutual "A B" = Ok "[A] A c [B A c]"%string.
Proof. split; [apply (expandTokens_ends mutual noLoc (tokens_of "A B") ∅ mutual_well_named)|vm_compute; reflexivity]. Defined.

Lemma ExpandWithLoc_prosser_witness :
  let eloc := mkLoc "f.c" 7 1 in
  exists out, TokensToString out = "[A] A c AB1 [B A c]"%string /\ prosser mutual eloc (with_hideset ∅ (tokens_of "A D")) out.
Proof.
  intros eloc. destruct (ExpandWithLoc mutual (tokens_of "A D") eloc) as [out|] eqn:E; [|by vm_compute in E].
  exists out. split; [vm_compute in E; by injection E as <-|].
  exact (proj1 (ExpandWithLoc_prosser mutual eloc (tokens_of "A D") out mutual_well_named mutual_objects) E).
Defined.

Definition function_macro (name : string) (params : list string) (body : string) : MacroTable -> MacroTable :=
  DefineFunction name params false (tokens_of body) noLoc.

(** With [#define F(x) x+1], the inner call of [F(F(1))] is left as it is: the
    name is hidden while the argument is expanded. *)
Lemma own_argument_not_expanded : expanded (function_macro "F" ["x"%string] "x+1" (NewMacroTable "" "")) "F(F(1))" = Ok "F(1)+1"%string.
Proof. vm_compute. reflexivity. Qed.

(** With [#define C(x,y) x##y], [C(F,)] is an error: an empty argument leaves no
    placeholder. *)
Lemma empty_argument_not_pasted :
  expanded (function_macro "C" ["x"; "y"]%string "x##y" (NewMacroTable "" "")) "C(F,)" = Err (EMsg "## cannot appear at end of replacement list" []).
Proof. vm_compute. reflexivity. Qed.

(** With [#define G(x) x], [G()] is an error: it has no argument. *)
Lemma no_empty_argument :
  expanded (function_macro "G" ["x"%string] "x" (NewMacroTable "" "")) "G()" =
    Err (EWrap "%s:%d: %w" ["f.c"; "1"]%string (EMsg "macro %s requires %d arguments, got %d" ["G"; "1"; "0"]%string)).
Proof. vm_compute. reflexivity. Qed.

(** With [#define f(x) x] and [#define g f], [g(1)] stays [f(1)]: the replacement is
    not read again with what follows. *)
Lemma following_tokens_not_read :
  expanded (DefineObject "g" (tokens_of "f") noLoc (function_macro "f" ["x"%string] "x" (NewMacroTable "" ""))) "g(1)" = Ok "f(1)"%string.
Proof. vm_compute. reflexivity. Qed.
