(* ===== verification/CppDirective.v ===== *)
(** The directives of the preprocessor ([src/pkg/cpp/directive.go]), and the search
    for included files ([src/pkg/cpp/include.go]). *)

From Stdlib Require Import Ascii.
From stdpp Require Import pretty.
From S2P Require Import Prelude Cpp CppExpr CppExpand.

(** ** Directives

    The types of directives, each with the fields that are set for it; the place
    of a directive is where it is parsed from. *)
Inductive Directive :=
| DIR_INCLUDE (HeaderName : string) (IsSystemIncl : bool) (Expression : list Token)
| DIR_DEFINE (MacroName : string) (MacroParams : option (list string)) (IsVariadic : bool) (MacroBody : list Token)
| DIR_UNDEF (Identifier : string)
| DIR_IF (Expression : list Token)
| DIR_IFDEF (Identifier : string)
| DIR_IFNDEF (Identifier : string)
| DIR_ELIF (Expression : list Token)
| DIR_ELSE
| DIR_ENDIF
| DIR_LINE (LineNum : Z) (FileName : string)
| DIR_ERROR (Message : string)
| DIR_WARNING (Message : string)
| DIR_PRAGMA (PragmaTokens : list Token)
| DIR_LINEMARKER (LineNum : Z) (FileName : string) (LinemarkerFlags : list Z)
| DIR_EMPTY.

(** *** The parser; its state is the tokens that are left *)

(** [p.atEnd() || p.peek().Type == PP_NEWLINE] *)
Definition at_newline (ts : list Token) : bool :=
  match ts with [] => true | t :: _ => bool_decide (Type_ t = PP_NEWLINE) end.

Fixpoint to_newline (ts : list Token) : list Token :=
  match ts with t :: ts' => if bool_decide (Type_ t = PP_NEWLINE) then [] else t :: to_newline ts' | [] => [] end.

Definition collectToNewline (ts : list Token) : list Token := reverse (skip_ws (reverse (to_newline ts))).

(** [fmt.Sscanf(s, "%d", &n)] on the text of a number, which has no sign and no
    space in front: the digits at its beginning, and [0] where there are none or
    they are too many. *)
Definition parseIntNumber (s : string) : Z :=
  match before (span isDigit s) s with
  | EmptyString => 0
  | d => match ParseInt d 10 with Ok n => n | Err _ => 0 end
  end.

(** The text between quotes; [None] when there are not two. *)
Definition between_quotes (s : string) : option string :=
  match s with String c s => if bool_decide (c = quote) then without_last quote s else None | EmptyString => None end.

Definition unquoteString (s : string) : string := default s (between_quotes s).

(** [strings.TrimSpace], on ASCII *)
Definition isSpace (c : ascii) : bool := isWhitespace c || bool_decide (c = newline).

Fixpoint trim_left (s : string) : string :=
  match s with String c s' => if isSpace c then trim_left s' else s | EmptyString => EmptyString end.

Fixpoint trim_right (s : string) : string :=
  match s with
  | EmptyString => EmptyString
  | String c s => match trim_right s with EmptyString => if isSpace c then EmptyString else String c EmptyString | s => String c s end
  end.

Definition TrimSpace (s : string) : string := trim_right (trim_left s).

Section Parse.
  Context (loc : SourceLoc).

(** An error of the parser, with the place of the directive *)
Definition at_loc {A} (format : string) (args : list string) : Result A :=
  Err (EMsg ("%s:%d: " ++ format) (File loc :: pretty (Line loc) :: args)).

(** The name between angles, from punctuators *)
Fixpoint angled_name (ts : list Token) : string :=
  match ts with
  | [] => EmptyString
  | t :: ts =>
      if bool_decide (Type_ t = PP_NEWLINE) then EmptyString
      else if is_token PP_PUNCTUATOR ">" t then ">"%string
      else (Text t ++ angled_name ts)%string
  end.

Definition has_prefix (c : ascii) (s : string) : bool := match s with String d _ => bool_decide (d = c) | EmptyString => false end.

Definition parseInclude (ts : list Token) : Result Directive :=
  let ts := skip_ws ts in
  if at_newline ts then at_loc "#include expects a file name" []
  else
    let tok := peek_token ts in
    if bool_decide (Type_ tok = PP_HEADER_NAME) then Ok (DIR_INCLUDE (Text tok) (has_prefix "<" (Text tok)) [])
    else if bool_decide (Type_ tok = PP_STRING) then Ok (DIR_INCLUDE (Text tok) false [])
    else if is_token PP_PUNCTUATOR "<" tok then Ok (DIR_INCLUDE (String "<" (angled_name (tail ts))) true [])
    else Ok (DIR_INCLUDE EmptyString false (collectToNewline ts)).

(** After [...]: the closing parenthesis, and the tokens after it. *)
Definition after_dots (ts : list Token) : Result (list Token) :=
  match matches_text ")" (skip_ws ts) with Some ts => Ok ts | None => at_loc "'...' must be last parameter" [] end.

(** The loop of [parseDefine] over the parameters; each round but the last has a
    name. *)
Fixpoint define_params (fuel : nat) (params : list string) (ts : list Token) : Result (list string * bool * list Token) :=
  match ts with
  | [] => Ok (params, false, [])
  | _ =>
      let ts := skip_ws ts in
      match matches_text ")" ts with
      | Some ts => Ok (params, false, ts)
      | None =>
          match matches_text "..." ts with
          | Some ts => ts ← after_dots ts; Ok (params, true, ts)
          | None =>
              let tok := peek_token ts in
              if bool_decide (Type_ tok = PP_IDENTIFIER) then
                let ts := skip_ws (tail ts) in
                match matches_text "..." ts with
                | Some ts => ts ← after_dots ts; Ok (params ++ [Text tok], true, ts)
                | None =>
                    match fuel with
                    | O => Err EFuel
                    | S fuel => define_params fuel (params ++ [Text tok]) (match matches_text "," ts with Some ts => ts | None => ts end)
                    end
                end
              else at_loc "expected parameter name, got %s" [TokenType_String (Type_ tok)]
          end
      end
  end.

(** The identifier that a directive is about. *)
Definition expect_identifier (what : string) (ts : list Token) : Result (string * list Token) :=
  let ts := skip_ws ts in
  if at_newline ts then at_loc (what ++ " expects an identifier") []
  else
    let tok := peek_token ts in
    if bool_decide (Type_ tok = PP_IDENTIFIER) then Ok (Text tok, tail ts)
    else at_loc (what ++ " expects an identifier, got %s") [TokenType_String (Type_ tok)].

Definition parseDefine (ts : list Token) : Result Directive :=
  '(name, ts) ← expect_identifier "#define" ts;
  match matches_text "(" ts with
  | Some ts =>
      '(params, variadic, ts) ← define_params (length ts) [] ts;
      Ok (DIR_DEFINE name (Some params) variadic (collectToNewline (skip_ws ts)))
  | None => Ok (DIR_DEFINE name None false (collectToNewline (skip_ws ts)))
  end.

Definition parseUndef (ts : list Token) : Result Directive := (fun r => DIR_UNDEF r.1) <$> expect_identifier "#undef" ts.
Definition parseIfdef (ts : list Token) : Result Directive := (fun r => DIR_IFDEF r.1) <$> expect_identifier "#ifdef" ts.
Definition parseIfndef (ts : list Token) : Result Directive := (fun r => DIR_IFNDEF r.1) <$> expect_identifier "#ifndef" ts.

Definition parseIf (ts : list Token) : Result Directive :=
  match collectToNewline (skip_ws ts) with [] => at_loc "#if expects an expression" [] | e => Ok (DIR_IF e) end.

Definition parseElif (ts : list Token) : Result Directive :=
  match collectToNewline (skip_ws ts) with [] => at_loc "#elif expects an expression" [] | e => Ok (DIR_ELIF e) end.

(** The name of a file, when there is one, and the tokens after it. *)
Definition optional_string (ts : list Token) : option (string * list Token) :=
  match ts with t :: ts => if bool_decide (Type_ t = PP_STRING) then Some (unquoteString (Text t), ts) else None | [] => None end.

Definition parseLine (ts : list Token) : Result Directive :=
  let ts := skip_ws ts in
  if at_newline ts then at_loc "#line expects a line number" []
  else
    let tok := peek_token ts in
    if bool_decide (Type_ tok = PP_NUMBER) then
      Ok (DIR_LINE (parseIntNumber (Text tok)) (match optional_string (skip_ws (tail ts)) with Some (f, _) => f | None => EmptyString end))
    else at_loc "#line expects a line number, got %s" [TokenType_String (Type_ tok)].

(** The numbers at the front, with white space around them. *)
Fixpoint flags (ts : list Token) : list Z :=
  match ts with
  | t :: ts => if bool_decide (Type_ t = PP_NUMBER) then parseIntNumber (Text t) :: flags ts else if is_ws t then flags ts else []
  | [] => []
  end.

Definition parseLinemarker (ts : list Token) : Directive :=
  let n := parseIntNumber (Text (peek_token ts)) in
  match optional_string (skip_ws (tail ts)) with
  | Some (file, ts) => DIR_LINEMARKER n file (flags ts)
  | None => DIR_LINEMARKER n EmptyString []
  end.

(** The message of [#error] and [#warning] *)
Definition message (ts : list Token) : string := TrimSpace (TokensToString (to_newline (skip_ws ts))).

(** [ParseDirective], after [#] *)
Definition ParseDirective (ts : list Token) : Result Directive :=
  let ts := skip_ws ts in
  if at_newline ts then Ok DIR_EMPTY
  else
    let tok := peek_token ts in
    if bool_decide (Type_ tok = PP_NUMBER) then Ok (parseLinemarker ts)
    else if bool_decide (Type_ tok = PP_IDENTIFIER) then
      let named name := bool_decide (Text tok = name) in
      let ts := tail ts in
      if named "include"%string then parseInclude ts
      else if named "define"%string then parseDefine ts
      else if named "undef"%string then parseUndef ts
      else if named "if"%string then parseIf ts
      else if named "ifdef"%string then parseIfdef ts
      else if named "ifndef"%string then parseIfndef ts
      else if named "elif"%string then parseElif ts
      else if named "else"%string then Ok DIR_ELSE
      else if named "endif"%string then Ok DIR_ENDIF
      else if named "line"%string then parseLine ts
      else if named "error"%string then Ok (DIR_ERROR (message ts))
      else if named "warning"%string then Ok (DIR_WARNING (message ts))
      else if named "pragma"%string then Ok (DIR_PRAGMA (collectToNewline (skip_ws ts)))
      else at_loc "unknown directive #%s" [Text tok]
    else at_loc "expected directive name, got %s" [TokenType_String (Type_ tok)].
End Parse.

Definition ParseDirectiveFromTokens (ts : list Token) (loc : SourceLoc) : Result Directive := ParseDirective loc ts.

(** *** The parser ends *)

Lemma after_dots_ends loc ts : after_dots loc ts <> Err EFuel.
Proof. unfold after_dots. by destruct (matches_text _ _). Qed.

Lemma define_params_end loc fuel params ts : (length ts <= fuel)%nat -> define_params loc fuel params ts <> Err EFuel.
Proof.
  revert params ts. induction fuel as [|fuel IH]; intros params ts Hl; (destruct ts as [|t0 ts0]; [done|]); [cbn in Hl; lia|].
  cbn [define_params]. pose proof (skip_ws_le (t0 :: ts0)) as H0. set (ts := skip_ws (t0 :: ts0)) in *.
  destruct (matches_text ")" ts); [done|]. destruct (matches_text "..." ts) as [ts1|].
  { pose proof (after_dots_ends loc ts1). destruct (after_dots loc ts1); cbn [mbind Result_bind]; congruence. }
  case_bool_decide; [|done]. destruct ts as [|t ts1]; [done|]. cbn [tail length] in *. pose proof (skip_ws_le ts1).
  destruct (matches_text "..." (skip_ws ts1)) as [ts2|].
  { pose proof (after_dots_ends loc ts2). destruct (after_dots loc ts2); cbn [mbind Result_bind]; congruence. }
  apply IH. destruct (matches_text "," (skip_ws ts1)) as [ts2|] eqn:E; [apply matches_shorter in E|]; lia.
Qed.

Lemma expect_identifier_ends loc what ts : expect_identifier loc what ts <> Err EFuel.
Proof. unfold expect_identifier. repeat case_match; done. Qed.

Lemma ParseDirective_ends loc ts : ParseDirective loc ts <> Err EFuel.
Proof.
  assert (He : forall what ts (f : string * list Token -> Directive), f <$> expect_identifier loc what ts <> Err EFuel).
  { intros what ts' f. pose proof (expect_identifier_ends loc what ts'). destruct (expect_identifier loc what ts'); cbn; congruence. }
  unfold ParseDirective. destruct (at_newline _); [done|]. do 2 (case_bool_decide; [try done|]); [|done]. set (l := tail _).
  repeat match goal with |- (if ?b then _ else _) <> _ => destruct b end; try done; try apply He;
    try (unfold parseInclude, parseIf, parseElif, parseLine; repeat case_match; done).
  unfold parseDefine. pose proof (expect_identifier_ends loc "#define" l). destruct (expect_identifier loc "#define" l) as [[name ts1]|]; cbn [mbind Result_bind]; [|congruence].
  destruct (matches_text "(" ts1) as [ts2|]; [|done]. pose proof (define_params_end loc (length ts2) [] ts2 ltac:(done)).
  destruct (define_params loc (length ts2) [] ts2) as [[[? ?] ?]|]; cbn [mbind Result_bind]; congruence.
Qed.

(** [DefineFromDirective], on a directive that defines a macro *)
Definition DefineFromDirective (name : string) (params : option (list string)) (variadic : bool) (body : list Token) (loc : SourceLoc) :
    MacroTable -> MacroTable :=
  match params with
  | Some params => DefineFunction name params variadic body loc
  | None => DefineObject name body loc
  end.

(** ** Paths ([path/filepath], with [/] between the names) *)

Definition slash : ascii := "/"%char.

(** The names between slashes. *)
Fixpoint components (s : string) : list string :=
  match s with
  | EmptyString => [EmptyString]
  | String c s =>
      if bool_decide (c = slash) then EmptyString :: components s
      else match components s with x :: l => String c x :: l | [] => [String c EmptyString] end
  end.

Fixpoint join (sep : string) (l : list string) : string :=
  match l with [] => EmptyString | [x] => x | x :: l => (x ++ sep ++ join sep l)%string end.

(** The names that are left; [out] is in reverse. *)
Fixpoint clean (rooted : bool) (out : list string) (l : list string) : list string :=
  match l with
  | [] => reverse out
  | x :: l =>
      if bool_decide (x ∈ [EmptyString; "."%string]) then clean rooted out l
      else if bool_decide (x = ".."%string) then
        match out with
        | y :: out' => if bool_decide (y = ".."%string) then clean rooted (x :: out) l else clean rooted out' l
        | [] => if rooted then clean rooted [] l else clean rooted [x] l
        end
      else clean rooted (x :: out) l
  end.

Definition IsAbs (path : string) : bool := has_prefix slash path.

Definition Clean (path : string) : string :=
  let p := join "/" (clean (IsAbs path) [] (components path)) in
  if IsAbs path then String slash p else match p with EmptyString => "."%string | _ => p end.

Definition Join (a b : string) : string :=
  match a, b with
  | EmptyString, EmptyString => EmptyString
  | EmptyString, _ => Clean b
  | _, _ => Clean (a ++ "/" ++ b)
  end.

(** The path up to its last slash. *)
Fixpoint up_to_slash (s : string) : string :=
  match s with
  | EmptyString => EmptyString
  | String c s =>
      match up_to_slash s with EmptyString => if bool_decide (c = slash) then String c EmptyString else EmptyString | d => String c d end
  end.

Definition Dir (path : string) : string := Clean (up_to_slash path).

(** ** The search for files *)

Inductive IncludeKind := IncludeQuoted | IncludeAngled.

#[export] Instance IncludeKind_eq_dec : EqDecision IncludeKind.
Proof. solve_decision. Defined.

Record IncludeResolver := mkResolver {
  UserPaths : list string;
  SystemPaths : list string;
  CurrentDir : string;
  includeStack : list string;
  includedOnce : gset string;
  systemDetected : bool
}.

Definition NewIncludeResolver (user system : list string) : IncludeResolver := mkResolver user system EmptyString [] ∅ false.

Definition MaxIncludeDepth : nat := 200.

Definition set_CurrentDir (dir : string) (r : IncludeResolver) : IncludeResolver :=
  mkResolver (UserPaths r) (SystemPaths r) dir (includeStack r) (includedOnce r) (systemDetected r).

Definition SetCurrentFile (filename : string) : IncludeResolver -> IncludeResolver := set_CurrentDir (Dir filename).

Definition set_includeStack (l : list string) (r : IncludeResolver) : IncludeResolver :=
  mkResolver (UserPaths r) (SystemPaths r) (CurrentDir r) l (includedOnce r) (systemDetected r).

Definition PopFile (r : IncludeResolver) : IncludeResolver := set_includeStack (reverse (tail (reverse (includeStack r)))) r.

Definition IncludeDepth (r : IncludeResolver) : nat := length (includeStack r).

(** The operating system: the working directory, whether there is a file, the
    contents of files or why they cannot be read, and the directories that the
    compiler of the system searches. *)
Class OS := {
  Getwd : string;
  Stat : string -> bool;
  ReadFile : string -> string + string;
  detectedPaths : list string
}.

Section Resolver.
  Context `{OS}.

Definition Abs (path : string) : string := if IsAbs path then Clean path else Join Getwd path.

Definition DetectSystemPaths (r : IncludeResolver) : IncludeResolver :=
  if systemDetected r then r
  else mkResolver (UserPaths r) (SystemPaths r ++ detectedPaths) (CurrentDir r) (includeStack r) (includedOnce r) true.

Definition Resolve (filename : string) (kind : IncludeKind) (r : IncludeResolver) : Result string * IncludeResolver :=
  let r := DetectSystemPaths r in
  let current := if bool_decide (kind = IncludeQuoted) && negb (bool_decide (CurrentDir r = EmptyString)) then [CurrentDir r] else [] in
  let searchPaths := current ++ UserPaths r ++ SystemPaths r in
  match list_find (fun dir => Stat (Join dir filename) = true) searchPaths with
  | Some (_, dir) => (Ok (Abs (Join dir filename)), r)
  | None => (Err (EMsg "include file not found: " [filename; match kind with IncludeQuoted => "quoted" | IncludeAngled => "angled" end]%string), r)
  end.

Definition PushFile (path : string) (r : IncludeResolver) : Result unit * IncludeResolver :=
  if bool_decide (Abs path ∈ includeStack r) then (Err (EMsg "circular include detected: " (Abs path :: includeStack r)), r)
  else (Ok tt, set_includeStack (includeStack r ++ [Abs path]) r).

Definition MarkPragmaOnce (path : string) (r : IncludeResolver) : IncludeResolver :=
  mkResolver (UserPaths r) (SystemPaths r) (CurrentDir r) (includeStack r) ({[Abs path]} ∪ includedOnce r) (systemDetected r).

Definition IsAlreadyIncluded (path : string) (r : IncludeResolver) : bool := bool_decide (Abs path ∈ includedOnce r).
End Resolver.
