(* ===== verification/CppPreprocess.v ===== *)
(** Conditional compilation and the driver of the preprocessor
    ([src/pkg/cpp/conditional.go], [src/pkg/cpp/preprocess.go]). *)

From Stdlib Require Import Ascii.
From stdpp Require Import pretty.
From S2P Require Import Prelude Cpp CppExpr CppExpand CppDirective.

(** ** The state *)

Record ConditionState := mkCondition { active : bool; seenElse : bool; anyActive : bool }.

(** [Preprocessor]; the macros and the resolver are shared with the processor of
    conditionals, whose stack has the innermost level first here. [expanderLoc] is the
    place of the expander, which is that of the last line. *)
Record Preprocessor := mkPreprocessor {
  table : MacroTable;
  stack : list ConditionState;
  expanderLoc : SourceLoc;
  resolver : IncludeResolver;
  LineMarkers : bool;
  includeGuards : gmap string string
}.

Definition set_table f (p : Preprocessor) : Preprocessor :=
  mkPreprocessor (f (table p)) (stack p) (expanderLoc p) (resolver p) (LineMarkers p) (includeGuards p).
Definition set_stack st (p : Preprocessor) : Preprocessor :=
  mkPreprocessor (table p) st (expanderLoc p) (resolver p) (LineMarkers p) (includeGuards p).
Definition set_expanderLoc l (p : Preprocessor) : Preprocessor :=
  mkPreprocessor (table p) (stack p) l (resolver p) (LineMarkers p) (includeGuards p).
Definition set_resolver r (p : Preprocessor) : Preprocessor :=
  mkPreprocessor (table p) (stack p) (expanderLoc p) r (LineMarkers p) (includeGuards p).
Definition set_includeGuards g (p : Preprocessor) : Preprocessor :=
  mkPreprocessor (table p) (stack p) (expanderLoc p) (resolver p) (LineMarkers p) g.

(** Code that can fail and changes the state. *)
Definition PP (A : Type) : Type := Preprocessor -> Result A * Preprocessor.

#[export] Instance PP_ret : MRet PP := fun A a p => (Ok a, p).
#[export] Instance PP_bind : MBind PP := fun A B f m p => match m p with (Ok a, p) => f a p | (Err e, p) => (Err e, p) end.

Definition throw {A} (e : cpp_error) : PP A := fun p => (Err e, p).
Definition of_result {A} (r : Result A) : PP A := fun p => (r, p).
Definition gets {A} (f : Preprocessor -> A) : PP A := fun p => (Ok (f p), p).
Definition modify (f : Preprocessor -> Preprocessor) : PP unit := fun p => (Ok tt, f p).
Definition on_resolver {A} (f : IncludeResolver -> Result A * IncludeResolver) : PP A := fun p =>
  let '(r, res) := f (resolver p) in (r, set_resolver res p).
Definition wrapping {A} (format : string) (args : list string) (m : PP A) : PP A := fun p => let '(r, p) := m p in (wrap format args r, p).

(** [defer], run also after an error *)
Definition finally {A} (f : Preprocessor -> Preprocessor) (m : PP A) : PP A := fun p => let '(r, p) := m p in (r, f p).

(** ** Conditions *)

(** What [defined] is about, and the tokens after it. *)
Definition defined_operand (ts : list Token) : Result (string * list Token) :=
  match skip_ws ts with
  | [] => Err (EMsg "defined operator requires an identifier" [])
  | t :: ts =>
      if is_token PP_PUNCTUATOR "(" t then
        match skip_ws ts with
        | name :: ts =>
            if bool_decide (Type_ name = PP_IDENTIFIER) then
              match matches_text ")" (skip_ws ts) with
              | Some ts => Ok (Text name, ts)
              | None => Err (EMsg "missing ) in defined()" [])
              end
            else Err (EMsg "defined() requires an identifier" [])
        | [] => Err (EMsg "defined() requires an identifier" [])
        end
      else if bool_decide (Type_ t = PP_IDENTIFIER) then Ok (Text t, ts)
      else Err (EMsg "defined operator requires an identifier" [])
  end.

Definition number_token (value : string) (t : Token) : Token := mkToken PP_NUMBER value (Loc t).

Definition zero_one (b : bool) : string := if b then "1" else "0".

Definition is_identifier (name : string) (t : Token) : bool := is_token PP_IDENTIFIER name t.

(** [processDefinedOperator] *)
Fixpoint defined_loop (mt : MacroTable) (fuel : nat) (ts : list Token) : Result (list Token) :=
  match ts with
  | [] => Ok []
  | tok :: ts =>
      match fuel with
      | O => Err EFuel
      | S fuel =>
          if is_ws tok then defined_loop mt fuel ts
          else if is_identifier "defined" tok then
            '(name, ts) ← defined_operand ts;
            result ← defined_loop mt fuel ts; Ok (number_token (zero_one (IsDefined name mt)) tok :: result)
          else result ← defined_loop mt fuel ts; Ok (tok :: result)
      end
  end.

Definition processDefinedOperator (mt : MacroTable) (ts : list Token) : Result (list Token) := defined_loop mt (length ts) ts.

(** A closing parenthesis, if there is one, after white space. *)
Definition close_paren (ts : list Token) : list Token :=
  let ts := skip_ws ts in match matches_text ")" ts with Some ts => ts | None => ts end.

(** The name that is asked for by [__has_feature] and the like, and the tokens
    after the call. *)
Definition has_name (ts : list Token) : string * list Token :=
  match skip_ws ts with
  | t :: ts' => if bool_decide (Type_ t = PP_IDENTIFIER) then (Text t, close_paren ts') else (EmptyString, close_paren (t :: ts'))
  | [] => (EmptyString, [])
  end.

Definition has_supported (supported : list (string * bool)) (ts : list Token) : string * list Token :=
  let ts := skip_ws ts in
  match matches_text "(" ts with
  | Some ts => let '(name, ts) := has_name ts in (zero_one (default false (assoc name supported)), ts)
  | None => ("0"%string, ts)
  end.

Definition supported_features : list (string * bool) :=
  [("c_static_assert", true); ("c_generic_selections", true); ("c_alignas", true); ("c_alignof", true);
   ("c_thread_local", false); ("c_atomic", false); ("objc_arc", false); ("objc_arc_weak", false);
   ("objc_instancetype", false); ("objc_default_synthesize_properties", false); ("nullability", false);
   ("bounds_safety", false); ("attribute_availability_swift", false); ("attribute_availability_with_message", false);
   ("ptrauth_calls", false); ("ptrauth_returns", false); ("cxx_exceptions", false); ("cxx_rtti", false)]%string.

Definition supported_attributes : list (string * bool) :=
  [("aligned", true); ("always_inline", true); ("const", true); ("deprecated", true); ("format", true);
   ("malloc", true); ("noinline", true); ("noreturn", true); ("nothrow", true); ("packed", true); ("pure", true);
   ("unused", true); ("visibility", true); ("warn_unused_result", true); ("weak", true); ("constructor", true);
   ("destructor", true); ("nonnull", true); ("returns_nonnull", true); ("sentinel", true); ("format_arg", true);
   ("section", true); ("used", true); ("cold", false); ("hot", false); ("unavailable", false);
   ("disable_tail_calls", false); ("not_tail_called", false); ("objc_root_class", false);
   ("ns_returns_retained", false); ("ns_consumed", false); ("alloc_size", false); ("alloc_align", false);
   ("enum_extensibility", false); ("flag_enum", false); ("swift_name", false); ("swift_attr", false);
   ("swift_private", false); ("unsafe_buffer_usage", false)]%string.

Definition supported_builtins : list (string * bool) :=
  [("__builtin_expect", true); ("__builtin_constant_p", true); ("__builtin_types_compatible_p", true);
   ("__builtin_choose_expr", true); ("__builtin_offsetof", true); ("__builtin_va_list", true);
   ("__builtin_va_start", true); ("__builtin_va_end", true); ("__builtin_va_arg", true); ("__builtin_va_copy", true);
   ("__builtin_bswap16", true); ("__builtin_bswap32", true); ("__builtin_bswap64", true); ("__builtin_clz", true);
   ("__builtin_ctz", true); ("__builtin_popcount", true); ("__builtin_ffs", true); ("__builtin_unreachable", true);
   ("__builtin_trap", true); ("__builtin_prefetch", true); ("__builtin_memcpy", true); ("__builtin_memset", true);
   ("__builtin_memmove", true); ("__builtin_strlen", true); ("__builtin_strcmp", true);
   ("__builtin_object_size", true); ("__builtin_alloca", true); ("__builtin_frame_address", true);
   ("__builtin_return_address", true); ("__builtin_assume_aligned", false); ("__builtin_available", false)]%string.

Definition processHasFeature : list Token -> string * list Token := has_supported supported_features.
Definition processHasAttribute : list Token -> string * list Token := has_supported supported_attributes.
Definition processHasBuiltin : list Token -> string * list Token := has_supported supported_builtins.

(** The loop of [processHasCppAttribute] and of [processHasWarning], which ends at a
    closing parenthesis without an opening one. *)
Fixpoint skip_unopened (parenDepth : nat) (ts : list Token) : list Token :=
  match ts with
  | [] => []
  | t :: ts' =>
      if is_token PP_PUNCTUATOR "(" t then skip_unopened (S parenDepth) ts'
      else if is_token PP_PUNCTUATOR ")" t then match parenDepth with O => ts' | S d => skip_unopened d ts' end
      else skip_unopened parenDepth ts'
  end.

Definition processHasCppAttribute (ts : list Token) : string * list Token := ("0"%string, skip_unopened 0 ts).
Definition processHasWarning (ts : list Token) : string * list Token := ("0"%string, skip_unopened 0 ts).

Fixpoint skip_parens (parenDepth : nat) (ts : list Token) : list Token :=
  match ts, parenDepth with
  | [], _ => []
  | _, O => ts
  | t :: ts', S d =>
      if is_token PP_PUNCTUATOR "(" t then skip_parens (S parenDepth) ts'
      else if is_token PP_PUNCTUATOR ")" t then skip_parens d ts'
      else skip_parens parenDepth ts'
  end.

Definition skipParenthesizedArg (ts : list Token) : list Token :=
  let ts := skip_ws ts in match matches_text "(" ts with Some ts => skip_parens 1 ts | None => ts end.

(** The name of a header up to [>], and the tokens after it. *)
Fixpoint header_tokens (ts : list Token) : string * list Token :=
  match ts with
  | [] => (EmptyString, [])
  | t :: ts => if is_token PP_PUNCTUATOR ">" t then (">"%string, ts) else let '(s, ts) := header_tokens ts in ((Text t ++ s)%string, ts)
  end.

Definition has_suffix (c : ascii) (s : string) : bool := is_char c (String.get (String.length s - 1) s).

(** [s[1 : len(s)-1]], which panics on one character *)
Definition inner_text (s : string) : Result string :=
  match s with String _ (String d s') => Ok (before (String.length s') (String d s')) | _ => Err EPanic end.

Section Preprocess.
  Context `{OS}.

(** [processHasInclude], after the name *)
Definition processHasInclude (ts : list Token) : PP (string * list Token) :=
  let ts := skip_ws ts in
  match matches_text "(" ts with
  | None => mret ("0"%string, ts)
  | Some ts =>
      let ts := skip_ws ts in
      let '(headerName, ts) :=
        match ts with
        | t :: ts' =>
            if bool_decide (Type_ t = PP_STRING) then (Text t, ts')
            else if is_token PP_PUNCTUATOR "<" t then let '(s, ts) := header_tokens ts' in (String "<" s, ts)
            else (EmptyString, ts)
        | [] => (EmptyString, ts)
        end in
      let ts := close_paren ts in
      '(fileName, kind) ← of_result
        (if has_prefix "<" headerName && has_suffix ">" headerName then f ← inner_text headerName; Ok (f, IncludeAngled)
         else if has_prefix quote headerName && has_suffix quote headerName then f ← inner_text headerName; Ok (f, IncludeQuoted)
         else Ok (EmptyString, IncludeQuoted));
      if bool_decide (fileName = EmptyString) then mret ("0"%string, ts)
      else
        found ← on_resolver (fun r => let '(x, r) := Resolve fileName kind r in (Ok x, r));
        mret (match found with Ok _ => "1"%string | Err _ => "0"%string end, ts)
  end.

(** The operators of conditions, by name: the number that a call is replaced by, and the
    tokens after it. *)
Definition operator_call (name : string) (ts : list Token) : option (PP (string * list Token)) :=
  let named s := bool_decide (name = s) in
  if named "defined"%string then
    Some ('(name, ts) ← of_result (defined_operand ts); d ← gets (fun p => IsDefined name (table p)); mret (zero_one d, ts))
  else if named "__has_include"%string then Some (processHasInclude ts)
  else if named "__has_include_next"%string then Some ('(_, ts) ← processHasInclude ts; mret ("0"%string, ts))
  else if named "__has_feature"%string || named "__has_extension"%string then Some (mret (processHasFeature ts))
  else if named "__has_attribute"%string then Some (mret (processHasAttribute ts))
  else if named "__has_builtin"%string then Some (mret (processHasBuiltin ts))
  else if named "__has_cpp_attribute"%string then Some (mret (processHasCppAttribute ts))
  else if named "__has_warning"%string then Some (mret (processHasWarning ts))
  else if named "__building_module"%string then Some (mret ("0"%string, skipParenthesizedArg ts))
  else if named "__has_c_attribute"%string then Some (mret ("0"%string, skipParenthesizedArg ts))
  else None.

(** The loop of [processDefinedAndExpand] *)
Fixpoint operators_loop (fuel : nat) (ts : list Token) : PP (list Token) :=
  match ts with
  | [] => mret []
  | tok :: ts =>
      match fuel with
      | O => throw EFuel
      | S fuel =>
          if is_ws tok then operators_loop fuel ts
          else
            match (if bool_decide (Type_ tok = PP_IDENTIFIER) then operator_call (Text tok) ts else None) with
            | Some call => '(value, ts) ← call; result ← operators_loop fuel ts; mret (number_token value tok :: result)
            | None => result ← operators_loop fuel ts; mret (tok :: result)
            end
      end
  end.

Definition zero_identifier (t : Token) : Token := if bool_decide (Type_ t = PP_IDENTIFIER) then number_token "0" t else t.

(** The expander of conditions has no place of its own. *)
Definition processDefinedAndExpand (ts : list Token) : PP (list Token) :=
  result ← operators_loop (length ts) ts;
  mt ← gets table;
  expanded ← of_result (ExpandWithLoc mt result noLoc);
  processed ← of_result (processDefinedOperator mt expanded);
  mret (zero_identifier <$> processed).

Definition evaluateCondition (ts : list Token) : PP bool :=
  processed ← processDefinedAndExpand ts; result ← of_result (evaluateExpr processed); mret (negb (result =? 0)).

(** ** The stack of conditionals *)

Definition IsActive (p : Preprocessor) : bool := forallb active (stack p).

Definition push_condition (c : ConditionState) : PP unit := modify (fun p => set_stack (c :: stack p) p).

Definition ProcessIf (expr : list Token) : PP unit :=
  a ← gets IsActive;
  if (a : bool) then result ← wrapping "#if: %w" [] (evaluateCondition expr); push_condition (mkCondition result false result)
  else push_condition (mkCondition false false false).

Definition ProcessIfdef (name : string) : PP unit :=
  a ← gets IsActive;
  if (a : bool) then d ← gets (fun p => IsDefined name (table p)); push_condition (mkCondition d false d)
  else push_condition (mkCondition false false false).

Definition ProcessIfndef (name : string) : PP unit :=
  a ← gets IsActive;
  if (a : bool) then d ← gets (fun p => negb (IsDefined name (table p))); push_condition (mkCondition d false d)
  else push_condition (mkCondition false false false).

Definition ProcessElif (expr : list Token) : PP unit :=
  st ← gets stack;
  match st with
  | [] => throw (EMsg "#elif without matching #if" [])
  | state :: parents =>
      if seenElse state then throw (EMsg "#elif after #else" [])
      else if anyActive state || negb (forallb active parents) then
        modify (set_stack (mkCondition false (seenElse state) (anyActive state) :: parents))
      else
        result ← wrapping "#elif: %w" [] (evaluateCondition expr);
        modify (set_stack (mkCondition result (seenElse state) (anyActive state || result) :: parents))
  end.

Definition ProcessElse : PP unit :=
  st ← gets stack;
  match st with
  | [] => throw (EMsg "#else without matching #if" [])
  | state :: parents =>
      if seenElse state then throw (EMsg "duplicate #else" [])
      else
        let a := forallb active parents && negb (anyActive state) in
        modify (set_stack (mkCondition a true (anyActive state || a) :: parents))
  end.

Definition ProcessEndif : PP unit :=
  st ← gets stack;
  match st with [] => throw (EMsg "#endif without matching #if" []) | _ :: parents => modify (set_stack parents) end.

Definition CheckBalanced : PP unit :=
  st ← gets stack;
  match st with [] => mret tt | _ => throw (EMsg "unterminated conditional directive, %d level(s) unclosed" [pretty (length st)]) end.

(** ** The driver *)

(** The macro that a file begins by testing with [#ifndef] and defining. *)
Definition detectIncludeGuard (content filename : string) : string :=
  match take 11 (filter (fun t => is_blank t = false /\ Type_ t <> PP_EOF) (default [] (AllTokens (NewLexer content filename)))) with
  | h1 :: ifndef :: name :: h2 :: define :: name' :: _ =>
      if bool_decide (Type_ h1 = PP_HASH) && is_identifier "ifndef" ifndef && bool_decide (Type_ name = PP_IDENTIFIER) &&
         bool_decide (Type_ h2 = PP_HASH) && is_identifier "define" define && is_identifier (Text name) name'
      then Text name else EmptyString
  | _ => EmptyString
  end.

Definition isDirectiveLine (ts : list Token) : bool :=
  match filter (fun t => is_blank t = false) ts with t :: _ => bool_decide (Type_ t = PP_HASH) | [] => false end.

Definition newline_string : string := String newline EmptyString.

Definition processPragma (ts : list Token) (filename : string) : PP string :=
  match ts with
  | [] => mret EmptyString
  | t :: _ =>
      if is_identifier "once" t then _ ← modify (fun p => set_resolver (MarkPragmaOnce filename (resolver p)) p); mret EmptyString
      else mret ("#pragma " ++ TokensToString ts ++ newline_string)%string
  end.

(** The lines that tell the places of what follows. *)
Definition line_marker (line : Z) (file suffix : string) : string :=
  ("# " ++ pretty line ++ " " ++ quoted file ++ suffix ++ newline_string)%string.

Section Include.
  (* [preprocessContent], for included files *)
  Context (content : string -> string -> PP string).

(** [processInclude] from where the file is on the stack *)
Definition include_file (includePath : string) (loc : SourceLoc) (currentFile : string) : PP string :=
  text ← of_result (match ReadFile includePath with inl text => Ok text | inr e => Err (EMsg "reading %s: %w" [includePath; e]) end);
  let guardMacro := detectIncludeGuard text includePath in
  _ ← (if bool_decide (guardMacro = EmptyString) then mret tt
       else modify (fun p => set_includeGuards (<[includePath := guardMacro]> (includeGuards p)) p));
  markers ← gets LineMarkers;
  oldCurrentFile ← gets (fun p => CurrentDir (resolver p));
  _ ← modify (fun p => set_resolver (SetCurrentFile includePath (resolver p)) p);
  result ← wrapping "in %s: %w" [includePath] (content text includePath);
  _ ← modify (fun p => set_resolver (set_CurrentDir oldCurrentFile (resolver p)) p);
  mret (if (markers : bool) then line_marker 1 includePath " 1" ++ result ++ line_marker (Line loc + 1) currentFile " 2" else result)%string.

Definition processInclude (headerName : string) (expression : list Token) (loc : SourceLoc) (currentFile : string) : PP string :=
  headerName ←
    (if bool_decide (headerName = EmptyString) && (0 <? length expression)%nat then
       mt ← gets table; eloc ← gets expanderLoc;
       expanded ← of_result (wrap "expanding include: %w" [] (ExpandWithLoc mt expression eloc));
       mret (TrimSpace (TokensToString expanded))
     else mret headerName);
  if bool_decide (headerName = EmptyString) then throw (EMsg "empty include file name" [])
  else
    '(fileName, kind) ← of_result
      (if has_prefix "<" headerName && has_suffix ">" headerName then f ← inner_text headerName; Ok (f, IncludeAngled)
       else if has_prefix quote headerName && has_suffix quote headerName then f ← inner_text headerName; Ok (f, IncludeQuoted)
       else Ok (headerName, IncludeQuoted));
    _ ← modify (fun p => set_resolver (SetCurrentFile currentFile (resolver p)) p);
    includePath ← wrapping "#include %s: %w" [headerName] (on_resolver (Resolve fileName kind));
    once ← gets (fun p => IsAlreadyIncluded includePath (resolver p));
    if (once : bool) then mret EmptyString
    else
      guarded ← gets (fun p => match includeGuards p !! includePath with Some g => IsDefined g (table p) | None => false end);
      if (guarded : bool) then mret EmptyString
      else
        depth ← gets (fun p => IncludeDepth (resolver p));
        if (MaxIncludeDepth <=? depth)%nat then throw (EMsg "#include nested too deeply" [])
        else
          _ ← on_resolver (PushFile includePath);
          finally (fun p => set_resolver (PopFile (resolver p)) p) (include_file includePath loc currentFile).

(** What a directive in an active block does, other than the conditional ones;
    [ts] is its tokens. The message of [#warning] goes to the standard error. *)
Definition do_directive (dir : Directive) (ts : list Token) (loc : SourceLoc) (filename : string) : PP string :=
  match dir with
  | DIR_INCLUDE header _ expression => processInclude header expression loc filename
  | DIR_DEFINE name params variadic body => _ ← modify (set_table (DefineFromDirective name params variadic body loc)); mret EmptyString
  | DIR_UNDEF name => _ ← modify (set_table (Undefine name)); mret EmptyString
  | DIR_LINE n file =>
      mret (if bool_decide (file = EmptyString) then "# " ++ pretty n ++ newline_string else line_marker n file "")%string
  | DIR_LINEMARKER _ _ _ => mret (TokensToString ts ++ newline_string)%string
  | DIR_ERROR message => throw (EMsg "#error %s" [message])
  | DIR_WARNING _ | DIR_EMPTY => mret EmptyString
  | DIR_PRAGMA tokens => processPragma tokens filename
  | _ => throw (EMsg "unhandled directive type: %v" [])
  end.

(** The conditional directives, in active and inactive blocks. *)
Definition do_conditional (dir : Directive) : option (PP unit) :=
  match dir with
  | DIR_IF e => Some (ProcessIf e)
  | DIR_IFDEF name => Some (ProcessIfdef name)
  | DIR_IFNDEF name => Some (ProcessIfndef name)
  | DIR_ELIF e => Some (ProcessElif e)
  | DIR_ELSE => Some ProcessElse
  | DIR_ENDIF => Some ProcessEndif
  | _ => None
  end.

(** [processDirective], on a line that begins with [#]. *)
Definition processDirective (ts : list Token) (filename : string) : PP string :=
  match ts with
  | [] => mret EmptyString
  | hash :: directiveTokens =>
      let loc := Loc hash in
      a ← gets IsActive;
      match ParseDirectiveFromTokens directiveTokens loc with
      | Err e => if (a : bool) then throw e else mret EmptyString
      | Ok dir =>
          match do_conditional dir with
          | Some act => _ ← act; mret EmptyString
          | None => if (a : bool) then do_directive dir ts loc filename else mret EmptyString
          end
      end
  end.

Definition processLine (ts : list Token) (filename : string) : PP string :=
  match ts with
  | [] => mret EmptyString
  | first :: _ =>
      let line := skip_ws ts in
      if bool_decide (Type_ (peek_token line) = PP_HASH) then processDirective line filename
      else
        a ← gets IsActive;
        if (a : bool) then
          let loc := mkLoc filename (Line (Loc first)) 0 in
          _ ← modify (set_expanderLoc loc);
          mt ← gets table;
          expanded ← of_result (ExpandWithLoc mt ts loc);
          mret (TokensToString expanded)
        else mret EmptyString
  end.

Definition next_depth (tok : Token) (parenDepth : nat) : nat :=
  if is_token PP_PUNCTUATOR "(" tok then S parenDepth else if is_token PP_PUNCTUATOR ")" tok then pred parenDepth else parenDepth.

(** The loop of [preprocessContent] over the tokens up to the end. *)
Fixpoint content_loop (filename : string) (lineTokens : list Token) (currentLine : Z) (parenDepth : nat) (ts : list Token) : PP string :=
  let process := wrapping "%s:%d: %w" [filename; pretty currentLine] (processLine lineTokens filename) in
  match ts with
  | [] => process
  | tok :: ts =>
      let lineTokens := lineTokens ++ [tok] in
      let parenDepth := next_depth tok parenDepth in
      if bool_decide (Type_ tok = PP_NEWLINE) then
        if (0 <? parenDepth)%nat && negb (isDirectiveLine lineTokens) then content_loop filename lineTokens currentLine parenDepth ts
        else
          output ← wrapping "%s:%d: %w" [filename; pretty currentLine] (processLine lineTokens filename);
          result ← content_loop filename [] (Line (Loc tok) + 1) parenDepth ts; mret (output ++ result)%string
      else content_loop filename lineTokens currentLine parenDepth ts
  end.
End Include.

(** [preprocessContent] but for the first marker: reading a token does not
    depend on what was done with those before it, so all are read first. *)
Fixpoint preprocess_content (fuel : nat) (source filename : string) : PP string :=
  match fuel, AllTokens (NewLexer source filename) with
  | S fuel, Some ts => content_loop (preprocess_content fuel) filename [] 1 0 (filter (fun t => Type_ t <> PP_EOF) ts)
  | _, _ => throw EFuel
  end.

(** No more files are being included than [MaxIncludeDepth] allows
    ([preprocess_ends]). *)
Definition preprocessContent (source filename : string) (isTopLevel : bool) : PP string :=
  markers ← gets LineMarkers;
  depth ← gets (fun p => IncludeDepth (resolver p));
  result ← preprocess_content (S (MaxIncludeDepth - depth)) source filename;
  mret (if markers && isTopLevel then line_marker 1 filename "" ++ result else result)%string.

Definition preprocessContentTopLevel (source filename : string) : PP string :=
  result ← preprocessContent source filename true;
  _ ← wrapping "%s: %w" [filename] CheckBalanced; mret result.

Definition PreprocessString : string -> string -> PP string := preprocessContentTopLevel.

Definition PreprocessFile (filename : string) : PP string :=
  let absPath := Abs filename in
  text ← of_result (match ReadFile absPath with inl text => Ok text | inr e => Err (EMsg "reading %s: %w" [filename; e]) end);
  _ ← modify (fun p => set_resolver (SetCurrentFile absPath (resolver p)) p);
  _ ← on_resolver (PushFile absPath);
  finally (fun p => set_resolver (PopFile (resolver p)) p) (preprocessContentTopLevel text absPath).
End Preprocess.

(** The options that matter; the dates are those of the clock. *)
Record PreprocessorOptions := mkOptions {
  Defines : list string;
  Undefines : list string;
  IncludePaths : list string;
  SystemPaths_ : list string;
  LineMarkers_ : bool
}.

Definition NewPreprocessor (date time : string) (opts : PreprocessorOptions) : Preprocessor :=
  mkPreprocessor (ApplyCmdlineDefines (Defines opts) (Undefines opts) (NewMacroTable date time)) [] noLoc
    (NewIncludeResolver (IncludePaths opts) (SystemPaths_ opts)) (LineMarkers_ opts) ∅.

(** ** Preprocessing ends *)

Lemma PP_bind_eq {A B} (m : PP A) (f : A -> PP B) p :
  (m ≫= f) p = match m p with (Ok a, p) => f a p | (Err e, p) => (Err e, p) end.
Proof. reflexivity. Qed.

(** Code that, from a state where [n] files are being included, neither runs out of
    fuel nor changes the files that are being included, nor puts a macro under another
    name; [Q] is about what it returns. *)
Definition steady {A} (n : nat) (m : PP A) (Q : A -> Prop) : Prop := forall p,
  well_named (table p) -> IncludeDepth (resolver p) = n ->
  let '(r, p') := m p in
  r <> Err EFuel /\ well_named (table p') /\ includeStack (resolver p') = includeStack (resolver p) /\
  forall a, r = Ok a -> Q a.

#[local] Abbreviation any := (fun _ => True).

Section Steady.
  Context (n : nat).

Lemma steady_bind {A B} (m : PP A) (f : A -> PP B) Q R :
  steady n m Q -> (forall a, Q a -> steady n (f a) R) -> steady n (m ≫= f) R.
Proof.
  intros Hm Hf p Hw Hn. specialize (Hm p Hw Hn). rewrite PP_bind_eq.
  destruct (m p) as [[a|e] p']; destruct Hm as (H1 & H2 & H3 & H4); [|split_and!; [congruence|done..]].
  assert (Hd : IncludeDepth (resolver p') = n) by (unfold IncludeDepth in *; congruence).
  specialize (Hf a (H4 a eq_refl) p' H2 Hd). destruct (f a p') as [r p'']. destruct Hf as (H5 & H6 & H7 & H8). split_and!; [done|done|congruence|done].
Qed.

Lemma steady_any {A B} (m : PP A) (f : A -> PP B) R : steady n m any -> (forall a, steady n (f a) R) -> steady n (m ≫= f) R.
Proof. intros Hm Hf. eapply steady_bind; [exact Hm|]. intros a _. apply Hf. Qed.

Lemma steady_ret {A} (a : A) (Q : A -> Prop) : Q a -> steady n (mret a) Q.
Proof. intros H p Hw Hn. cbn. split_and!; [done..|]. by intros a' [= <-]. Qed.

Lemma steady_of_result {A} (r : Result A) (Q : A -> Prop) : r <> Err EFuel -> (forall a, r = Ok a -> Q a) -> steady n (of_result r) Q.
Proof. intros H HQ p Hw Hn. by cbn. Qed.

Lemma steady_throw {A} e (Q : A -> Prop) : e <> EFuel -> steady n (throw e) Q.
Proof. intros H p Hw Hn. cbn. split_and!; [congruence|done..]. Qed.

Lemma steady_gets {A} (f : Preprocessor -> A) (Q : A -> Prop) :
  (forall p, well_named (table p) -> IncludeDepth (resolver p) = n -> Q (f p)) -> steady n (gets f) Q.
Proof. intros H p Hw Hn. cbn. split_and!; [done..|]. intros a [= <-]. by apply H. Qed.

Lemma steady_modify f :
  (forall p, well_named (table p) -> well_named (table (f p)) /\ includeStack (resolver (f p)) = includeStack (resolver p)) ->
  steady n (modify f) any.
Proof. intros H p Hw Hn. destruct (H p Hw). by cbn. Qed.

Lemma steady_wrapping {A} format args (m : PP A) Q : steady n m Q -> steady n (wrapping format args m) Q.
Proof.
  intros Hm p Hw Hn. specialize (Hm p Hw Hn). unfold wrapping. destruct (m p) as [r p']. destruct Hm as (H1 & H2 & H3 & H4).
  rewrite wrap_fuel. split_and!; [done..|]. intros a Ha%wrap_Ok. by apply H4.
Qed.

Lemma steady_on_resolver {A} (f : IncludeResolver -> Result A * IncludeResolver) :
  (forall r, (f r).1 <> Err EFuel /\ includeStack (f r).2 = includeStack r) -> steady n (on_resolver f) any.
Proof. intros H p Hw Hn. unfold on_resolver. specialize (H (resolver p)). destruct (f (resolver p)) as [r res]. destruct H. by cbn. Qed.

Lemma steady_weaken {A} (m : PP A) (Q R : A -> Prop) : steady n m Q -> (forall a, Q a -> R a) -> steady n m R.
Proof.
  intros Hm H p Hw Hn. specialize (Hm p Hw Hn). destruct (m p). destruct Hm as (H1 & H2 & H3 & H4). split_and!; [done..|]. auto.
Qed.
End Steady.

#[local] Hint Resolve steady_ret steady_gets steady_throw steady_wrapping : core.

(** Goes through code one operation at a time. *)
Ltac steady_step :=
  match goal with
  | |- steady _ (_ ≫= _) _ => apply steady_any; [|intros ?]
  | |- steady _ (mret _) _ => by apply steady_ret
  | |- steady _ (gets _) _ => by apply steady_gets
  | |- steady _ (throw _) _ => by apply steady_throw
  | |- steady _ (wrapping _ _ _) _ => apply steady_wrapping
  | |- steady _ (modify _) _ => apply steady_modify; intros ? ?; by split
  | |- steady _ (if ?b then _ else _) _ => destruct b
  | |- steady _ (let '(_, _) := ?x in _) _ => destruct x
  | |- steady _ (match ?x with _ => _ end) _ => destruct x
  end.

(** *** The tokens that operators take *)

Lemma matches_le s ts ts' : matches_text s ts = Some ts' -> (length ts' <= length ts)%nat.
Proof. intros H%matches_shorter. lia. Qed.

Lemma close_paren_le ts : (length (close_paren ts) <= length ts)%nat.
Proof.
  unfold close_paren. pose proof (skip_ws_le ts). destruct (matches_text ")" (skip_ws ts)) eqn:E; [|done]. apply matches_le in E. lia.
Qed.

Lemma defined_operand_le ts name ts' : defined_operand ts = Ok (name, ts') -> (length ts' <= length ts)%nat.
Proof.
  unfold defined_operand. pose proof (skip_ws_le ts) as H0. destruct (skip_ws ts) as [|t ts1]; [done|]. cbn in H0. destruct (is_token _ _ t).
  - pose proof (skip_ws_le ts1) as H1. destruct (skip_ws ts1) as [|nm ts2]; [done|]. cbn in H1. case_bool_decide; [|done].
    pose proof (skip_ws_le ts2). destruct (matches_text ")" (skip_ws ts2)) eqn:E; [|done]. intros [= _ <-]. apply matches_le in E. lia.
  - case_bool_decide; [|done]. intros [= _ <-]. lia.
Qed.

Lemma defined_operand_ends ts : defined_operand ts <> Err EFuel.
Proof. unfold defined_operand. repeat case_match; done. Qed.

Lemma has_supported_le l ts : (length (has_supported l ts).2 <= length ts)%nat.
Proof.
  unfold has_supported, has_name. pose proof (skip_ws_le ts). destruct (matches_text "(" (skip_ws ts)) as [ts1|] eqn:E; [|done].
  apply matches_le in E. pose proof (skip_ws_le ts1). destruct (skip_ws ts1) as [|t ts2]; cbn in *; [lia|].
  pose proof (close_paren_le ts2). pose proof (close_paren_le (t :: ts2)). cbn in *. case_bool_decide; cbn; lia.
Qed.

Lemma skip_unopened_le d ts : (length (skip_unopened d ts) <= length ts)%nat.
Proof.
  revert d. induction ts as [|t ts IH]; intros d; [done|]. cbn. destruct (is_token _ "(" t); [specialize (IH (S d)); lia|].
  destruct (is_token _ ")" t); [destruct d as [|d]|]; [lia|specialize (IH d); lia..].
Qed.

Lemma skip_parens_le d ts : (length (skip_parens d ts) <= length ts)%nat.
Proof.
  revert d. induction ts as [|t ts IH]; intros [|d]; cbn; [done..|]. destruct (is_token _ "(" t); [specialize (IH (S (S d))); lia|].
  destruct (is_token _ ")" t); [specialize (IH d)|specialize (IH (S d))]; lia.
Qed.

Lemma skipParenthesizedArg_le ts : (length (skipParenthesizedArg ts) <= length ts)%nat.
Proof.
  unfold skipParenthesizedArg. pose proof (skip_ws_le ts). destruct (matches_text "(" (skip_ws ts)) as [ts1|] eqn:E; [|done].
  apply matches_le in E. pose proof (skip_parens_le 1 ts1). lia.
Qed.

Lemma header_tokens_le ts : (length (header_tokens ts).2 <= length ts)%nat.
Proof. induction ts as [|t ts IH]; [done|]. cbn. destruct (is_token _ _ t); [cbn; lia|]. destruct (header_tokens ts); cbn in *; lia. Qed.

Section Ends.
  Context `{OS}.

Lemma Resolve_stack f k r : includeStack (Resolve f k r).2 = includeStack r.
Proof. unfold Resolve, DetectSystemPaths. destruct (systemDetected r); by destruct (list_find _ _) as [[]|]. Qed.

Lemma Resolve_ends f k r : (Resolve f k r).1 <> Err EFuel.
Proof. unfold Resolve. by destruct (list_find _ _) as [[]|]. Qed.

Lemma inner_text_ends s : inner_text s <> Err EFuel.
Proof. unfold inner_text. by destruct s as [|? []]. Qed.

Lemma kind_ends header s k :
  (if has_prefix "<" header && has_suffix ">" header then f ← inner_text header; Ok (f, IncludeAngled)
   else if has_prefix quote header && has_suffix quote header then f ← inner_text header; Ok (f, IncludeQuoted)
   else Ok (s, k)) <> Err EFuel.
Proof. pose proof (inner_text_ends header) as H0. repeat case_match; try done; destruct (inner_text header); cbn [mbind Result_bind]; congruence. Qed.

Lemma processHasInclude_steady n ts : steady n (processHasInclude ts) (fun r => (length r.2 <= length ts)%nat).
Proof.
  unfold processHasInclude. pose proof (skip_ws_le ts). destruct (matches_text "(" (skip_ws ts)) as [ts1|] eqn:E; [|by apply steady_ret].
  apply matches_le in E. pose proof (skip_ws_le ts1). destruct (match skip_ws ts1 with [] => _ | _ => _ end) as [header ts2] eqn:Eh.
  assert (Hl : (length ts2 <= length (skip_ws ts1))%nat).
  { destruct (skip_ws ts1) as [|t ts3]; [by injection Eh as <- <-|]. pose proof (header_tokens_le ts3). destruct (header_tokens ts3).
    repeat case_match; injection Eh as <- <-; cbn in *; lia. }
  pose proof (close_paren_le ts2). apply steady_any; [apply steady_of_result; [apply kind_ends|done]|]. intros [fn k].
  case_bool_decide; [apply steady_ret; cbn; lia|]. apply steady_any; [|intros; apply steady_ret; cbn; lia].
  apply steady_on_resolver. intros r. pose proof (Resolve_stack fn k r). by destruct (Resolve fn k r).
Qed.

Lemma operator_call_steady n name ts call : operator_call name ts = Some call -> steady n call (fun r => (length r.2 <= length ts)%nat).
Proof.
  unfold operator_call. intros H0.
  repeat match type of H0 with (if ?b then _ else _) = _ => destruct b end; try discriminate H0; injection H0 as <-;
    try (apply steady_ret; first [apply has_supported_le|apply skip_unopened_le|apply skipParenthesizedArg_le]); [| |].
  - eapply steady_bind; [apply steady_of_result; [apply defined_operand_ends|]; exact (fun a Ha => Ha)|]. intros [nm ts'] Ha.
    apply defined_operand_le in Ha. apply steady_any; [by apply steady_gets|]. intros d. by apply steady_ret.
  - apply processHasInclude_steady.
  - eapply steady_bind; [apply processHasInclude_steady|]. intros [v ts'] Hl. by apply steady_ret.
Qed.

Lemma operators_steady n fuel ts : (length ts <= fuel)%nat -> steady n (operators_loop fuel ts) any.
Proof.
  revert ts. induction fuel as [|fuel IH]; intros [|t ts] Hl; cbn [operators_loop length] in *; try lia; try by apply steady_ret.
  destruct (is_ws t); [apply IH; lia|]. destruct (if bool_decide _ then _ else _) as [call|] eqn:E.
  - case_bool_decide; [|done]. eapply steady_bind; [by eapply operator_call_steady|]. intros [v ts'] Hl'. cbn in Hl'.
    apply steady_any; [apply IH; lia|]. intros r. by apply steady_ret.
  - apply steady_any; [apply IH; lia|]. intros r. by apply steady_ret.
Qed.

Lemma defined_loop_ends mt fuel ts : (length ts <= fuel)%nat -> defined_loop mt fuel ts <> Err EFuel.
Proof.
  revert ts. induction fuel as [|fuel IH]; intros [|t ts] Hl; cbn [defined_loop length] in *; try lia; try done.
  destruct (is_ws t); [apply IH; lia|]. destruct (is_identifier _ t).
  - pose proof (defined_operand_ends ts). destruct (defined_operand ts) as [[nm ts']|] eqn:E; cbn [mbind Result_bind]; [|congruence].
    apply defined_operand_le in E. specialize (IH ts' ltac:(lia)). destruct (defined_loop mt fuel ts'); cbn [mbind Result_bind]; congruence.
  - specialize (IH ts ltac:(lia)). destruct (defined_loop mt fuel ts); cbn [mbind Result_bind]; congruence.
Qed.

Lemma ExpandWithLoc_ends mt ts loc : well_named mt -> ExpandWithLoc mt ts loc <> Err EFuel.
Proof. intros Hw. unfold ExpandWithLoc. by apply expandTokens_fine. Qed.

Lemma expand_steady {A} n (g : MacroTable -> list Token) loc (f : list Token -> PP A) Q :
  (forall mt ts, well_named mt -> steady n (f ts) Q) ->
  steady n (mt ← gets table; expanded ← of_result (ExpandWithLoc mt (g mt) loc); f expanded) Q.
Proof.
  intros Hf. apply (steady_bind _ _ _ well_named); [by apply steady_gets|]. intros mt Hw.
  apply steady_any; [apply steady_of_result; [by apply ExpandWithLoc_ends|done]|]. intros ts. by apply (Hf mt).
Qed.

Lemma evaluateCondition_steady n ts : steady n (evaluateCondition ts) any.
Proof.
  unfold evaluateCondition, processDefinedAndExpand. apply steady_any.
  - apply steady_any; [by apply operators_steady|]. intros r. apply (steady_bind _ _ _ well_named); [by apply steady_gets|]. intros mt Hw.
    apply steady_any; [apply steady_of_result; [by apply ExpandWithLoc_ends|done]|]. intros e.
    apply steady_any; [apply steady_of_result; [by apply defined_loop_ends|done]|]. intros d. by apply steady_ret.
  - intros e. apply steady_any; [apply steady_of_result; [|done]|intros v; by apply steady_ret].
    apply evaluateExpr_ends.
Qed.

Lemma do_conditional_steady n dir act : do_conditional dir = Some act -> steady n act any.
Proof.
  destruct dir; cbn; intros [= <-];
    unfold ProcessIf, ProcessIfdef, ProcessIfndef, ProcessElif, ProcessElse, ProcessEndif, push_condition;
    repeat first [apply evaluateCondition_steady|steady_step].
Qed.

(** The file is on the stack while it is read, and no longer. *)
Lemma pushed_steady {A} n path (m : PP A) :
  steady (S n) m any -> steady n (_ ← on_resolver (PushFile path); finally (fun p => set_resolver (PopFile (resolver p)) p) m) any.
Proof.
  intros Hm p Hw Hn. rewrite PP_bind_eq. unfold on_resolver, PushFile.
  case_bool_decide; [by cbn|]. unfold finally. set (p1 := set_resolver _ p).
  assert (Hd : IncludeDepth (resolver p1) = S n).
  { unfold IncludeDepth in *. cbn. rewrite length_app. cbn. lia. }
  specialize (Hm p1 Hw Hd). destruct (m p1) as [r p2]. destruct Hm as (H1 & H2 & H3 & _). split_and!; [done|done| |done].
  cbn [resolver set_resolver PopFile set_includeStack includeStack]. rewrite H3. cbn [p1 resolver set_resolver set_includeStack includeStack].
  rewrite reverse_snoc. apply reverse_involutive.
Qed.

Section Content.
  Context (n : nat) (content : string -> string -> PP string).
  Context (Hcontent : (n < MaxIncludeDepth)%nat -> forall s f, steady (S n) (content s f) any).

Lemma include_file_steady path loc current : (n < MaxIncludeDepth)%nat -> steady (S n) (include_file content path loc current) any.
Proof.
  intros Hn. unfold include_file. apply steady_any; [apply steady_of_result; [by destruct (ReadFile path)|done]|]. intros text.
  repeat first [by apply Hcontent|steady_step].
Qed.

Lemma processInclude_steady header expr loc current : steady n (processInclude content header expr loc current) any.
Proof.
  unfold processInclude. apply steady_any.
  - destruct (_ && _); [|by apply steady_ret]. apply (steady_bind _ _ _ well_named); [by apply steady_gets|]. intros mt Hw.
    apply steady_any; [by apply steady_gets|]. intros eloc.
    apply steady_any; [apply steady_of_result; [rewrite wrap_fuel; by apply ExpandWithLoc_ends|done]|]. intros e. by apply steady_ret.
  - intros h. case_bool_decide; [by apply steady_throw|]. apply steady_any; [apply steady_of_result; [apply kind_ends|done]|]. intros [fn k].
    apply steady_any; [steady_step|]. intros _.
    apply steady_any; [apply steady_wrapping, steady_on_resolver; intros r; split; [apply Resolve_ends|apply Resolve_stack]|]. intros path.
    do 2 (apply steady_any; [by apply steady_gets|]; intros [|]; [by apply steady_ret|]).
    apply (steady_bind _ _ _ (fun d => d = n)); [by apply steady_gets|]. intros d ->.
    destruct (Nat.leb_spec MaxIncludeDepth n); [by apply steady_throw|]. apply pushed_steady. by apply include_file_steady.
Qed.

Lemma processPragma_steady ts f : steady n (processPragma ts f) any.
Proof. unfold processPragma. repeat steady_step. Qed.

Lemma do_directive_steady dir ts loc f : steady n (do_directive content dir ts loc f) any.
Proof.
  destruct dir; cbn [do_directive]; try (by repeat steady_step); [apply processInclude_steady| | |apply processPragma_steady].
  - apply steady_any; [|intros; by apply steady_ret]. apply steady_modify. intros p Hw. split; [|done]. cbn.
    unfold DefineFromDirective. case_match; by apply Define_well_named.
  - apply steady_any; [|intros; by apply steady_ret]. apply steady_modify. intros p Hw. split; [|done]. by apply Undefine_well_named.
Qed.

Lemma processLine_steady ts f : steady n (processLine content ts f) any.
Proof.
  unfold processLine. destruct ts as [|first ts]; [by apply steady_ret|]. case_bool_decide.
  - unfold processDirective. destruct (skip_ws (first :: ts)) as [|hash dts]; [by apply steady_ret|].
    apply steady_any; [by apply steady_gets|]. intros a.
    assert (Hp := ParseDirective_ends (Loc hash) dts). unfold ParseDirectiveFromTokens.
    destruct (ParseDirective _ dts) as [dir|e]; [|destruct a; [apply steady_throw; congruence|by apply steady_ret]].
    destruct (do_conditional dir) as [act|] eqn:E.
    + apply steady_any; [by eapply do_conditional_steady|]. intros _. by apply steady_ret.
    + destruct a; [apply do_directive_steady|by apply steady_ret].
  - apply steady_any; [by apply steady_gets|]. intros [|]; [|by apply steady_ret]. apply steady_any; [steady_step|]. intros _.
    apply (expand_steady n (fun _ => first :: ts)). intros. by apply steady_ret.
Qed.

Lemma content_loop_steady f lt line d ts : steady n (content_loop content f lt line d ts) any.
Proof.
  revert lt line d. induction ts as [|t ts IH]; intros lt line d; cbn [content_loop]; [apply steady_wrapping, processLine_steady|].
  case_bool_decide; [|apply IH]. destruct (_ && _); [apply IH|].
  apply steady_any; [apply steady_wrapping, processLine_steady|]. intros o. apply steady_any; [apply IH|]. intros r. by apply steady_ret.
Qed.
End Content.

Lemma preprocess_content_steady fuel n source f : (MaxIncludeDepth - n < fuel)%nat -> steady n (preprocess_content fuel source f) any.
Proof.
  revert n source f. induction fuel as [|fuel IH]; intros n source f Hf; [lia|]. cbn [preprocess_content].
  destruct (AllTokens_some source f) as [ts ->]. apply content_loop_steady. intros Hn s g. apply IH. lia.
Qed.

Lemma top_steady n source f : steady n (preprocessContentTopLevel source f) any.
Proof.
  unfold preprocessContentTopLevel, preprocessContent. apply steady_any.
  - apply steady_any; [by apply steady_gets|]. intros m. apply (steady_bind _ _ _ (fun d => d = n)); [by apply steady_gets|]. intros d ->.
    apply steady_any; [apply preprocess_content_steady; lia|]. intros r. by apply steady_ret.
  - intros r. unfold CheckBalanced. repeat steady_step.
Qed.
End Ends.

(** ** Conditional groups

    The text between [#if], [#elif], [#else] and [#endif] as the grammar of C nests
    it, and what preprocessing it is: there is no stack, the first branch whose
    condition holds is processed, and the conditions after it are not evaluated. *)

Definition line_directive (ts : list Token) : option (Result Directive) :=
  match skip_ws ts with
  | hash :: dts => if bool_decide (Type_ hash = PP_HASH) then Some (ParseDirectiveFromTokens dts (Loc hash)) else None
  | [] => None
  end.

Inductive group :=
| GEnd
| GLine (line : list Token) (rest : group)
| GIf (line : list Token) (body : group) (branches : alternatives) (rest : group)
with alternatives :=
| AEnd (line : list Token)
| AElif (line : list Token) (body : group) (branches : alternatives)
| AElse (line : list Token) (body : group) (line_end : list Token).

Scheme group_mut := Induction for group Sort Prop
  with alternatives_mut := Induction for alternatives Sort Prop.
Combined Scheme group_alternatives_ind from group_mut, alternatives_mut.

Fixpoint lines_of (g : group) : list (list Token) :=
  match g with
  | GEnd => []
  | GLine line g => line :: lines_of g
  | GIf line body a g => line :: lines_of body ++ lines_of_alternatives a ++ lines_of g
  end
with lines_of_alternatives (a : alternatives) : list (list Token) :=
  match a with
  | AEnd line => [line]
  | AElif line body a => line :: lines_of body ++ lines_of_alternatives a
  | AElse line body line_end => line :: lines_of body ++ [line_end]
  end.

Section Groups.
  Context `{OS} (content : string -> string -> PP string) (filename : string).

(** Lines that neither are conditional directives nor include a file. *)
Definition ordinary (ts : list Token) : Prop :=
  match line_directive ts with
  | Some (Ok (DIR_INCLUDE _ _ _)) => False
  | Some (Ok dir) => do_conditional dir = None
  | _ => True
  end.

(** The condition of an [#if], [#ifdef] or [#ifndef]. *)
Definition if_condition (ts : list Token) : option (PP bool) :=
  match line_directive ts with
  | Some (Ok (DIR_IF e)) => Some (wrapping "#if: %w" [] (evaluateCondition e))
  | Some (Ok (DIR_IFDEF name)) => Some (gets (fun p => IsDefined name (table p)))
  | Some (Ok (DIR_IFNDEF name)) => Some (gets (fun p => negb (IsDefined name (table p))))
  | _ => None
  end.

Definition elif_condition (ts : list Token) : option (PP bool) :=
  match line_directive ts with Some (Ok (DIR_ELIF e)) => Some (wrapping "#elif: %w" [] (evaluateCondition e)) | _ => None end.

Definition is_else (ts : list Token) : Prop := line_directive ts = Some (Ok DIR_ELSE).
Definition is_endif (ts : list Token) : Prop := line_directive ts = Some (Ok DIR_ENDIF).

Fixpoint nested (g : group) : Prop :=
  match g with
  | GEnd => True
  | GLine line g => ordinary line /\ nested g
  | GIf line body a g => is_Some (if_condition line) /\ nested body /\ nested_alternatives a /\ nested g
  end
with nested_alternatives (a : alternatives) : Prop :=
  match a with
  | AEnd line => is_endif line
  | AElif line body a => is_Some (elif_condition line) /\ nested body /\ nested_alternatives a
  | AElse line body line_end => is_else line /\ nested body /\ is_endif line_end
  end.

(** The lines one after the other, as in the loop of [preprocessContent]. *)
Fixpoint process_lines (l : list (list Token)) : PP string :=
  match l with
  | [] => mret EmptyString
  | line :: l => o ← processLine content line filename; r ← process_lines l; mret (o ++ r)%string
  end.

Definition holds (c : option (PP bool)) : PP bool := match c with Some m => m | None => mret false end.

Fixpoint run_group (g : group) : PP string :=
  match g with
  | GEnd => mret EmptyString
  | GLine line g => o ← processLine content line filename; r ← run_group g; mret (o ++ r)%string
  | GIf line body a g =>
      c ← holds (if_condition line);
      o ← (if (c : bool) then run_group body else run_alternatives a);
      r ← run_group g; mret (o ++ r)%string
  end
with run_alternatives (a : alternatives) : PP string :=
  match a with
  | AEnd _ => mret EmptyString
  | AElif line body a => c ← holds (elif_condition line); if (c : bool) then run_group body else run_alternatives a
  | AElse _ body _ => run_group body
  end.

(** *** Code that does not look at the stack *)

Definition stackless {A} (m : PP A) : Prop := forall p st, m (set_stack st p) = let '(r, q) := m p in (r, set_stack st q).

Lemma set_stack_id p : set_stack (stack p) p = p.
Proof. by destruct p. Qed.

Lemma set_stack_twice st st' p : set_stack st (set_stack st' p) = set_stack st p.
Proof. reflexivity. Qed.

Lemma stackless_stack {A} (m : PP A) p : stackless m -> stack (m p).2 = stack p.
Proof. intros Hm. pose proof (Hm p (stack p)) as E. rewrite set_stack_id in E. destruct (m p) as [r q]. injection E as E. cbn. by rewrite E. Qed.

Lemma stackless_bind {A B} (m : PP A) (f : A -> PP B) : stackless m -> (forall a, stackless (f a)) -> stackless (m ≫= f).
Proof. intros Hm Hf p st. rewrite !PP_bind_eq, Hm. destruct (m p) as [[a|e] q]; [apply Hf|done]. Qed.

Lemma stackless_ret {A} (a : A) : stackless (mret a).
Proof. done. Qed.

Lemma stackless_of_result {A} (r : Result A) : stackless (of_result r).
Proof. done. Qed.

Lemma stackless_throw {A} e : stackless (throw (A:=A) e).
Proof. done. Qed.

Lemma stackless_gets {A} (f : Preprocessor -> A) : (forall p st, f (set_stack st p) = f p) -> stackless (gets f).
Proof. intros Hf p st. unfold gets. by rewrite Hf. Qed.

Lemma stackless_modify f : (forall p st, f (set_stack st p) = set_stack st (f p)) -> stackless (modify f).
Proof. intros Hf p st. unfold modify. by rewrite Hf. Qed.

Lemma stackless_wrapping {A} format args (m : PP A) : stackless m -> stackless (wrapping format args m).
Proof. intros Hm p st. unfold wrapping. rewrite Hm. by destruct (m p). Qed.

Lemma stackless_on_resolver {A} (f : IncludeResolver -> Result A * IncludeResolver) : stackless (on_resolver f).
Proof. intros p st. unfold on_resolver. cbn. by destruct (f (resolver p)). Qed.

Ltac stackless_step :=
  match goal with
  | |- stackless (_ ≫= _) => apply stackless_bind; [|intros ?]
  | |- stackless (mret _) => apply stackless_ret
  | |- stackless (of_result _) => apply stackless_of_result
  | |- stackless (throw _) => apply stackless_throw
  | |- stackless (gets _) => by apply stackless_gets
  | |- stackless (modify _) => by apply stackless_modify
  | |- stackless (on_resolver _) => apply stackless_on_resolver
  | |- stackless (wrapping _ _ _) => apply stackless_wrapping
  | |- stackless (if ?b then _ else _) => destruct b
  | |- stackless (match ?x with _ => _ end) => destruct x
  end.

Lemma operator_call_stackless name ts call : operator_call name ts = Some call -> stackless call.
Proof.
  assert (Hi : stackless (processHasInclude ts)) by (unfold processHasInclude; repeat stackless_step).
  unfold operator_call. intros H0.
  repeat match type of H0 with (if ?b then _ else _) = _ => destruct b end; try discriminate H0; injection H0 as <-;
    repeat first [exact Hi|stackless_step].
Qed.

Lemma operators_stackless fuel ts : stackless (operators_loop fuel ts).
Proof.
  revert ts. induction fuel as [|fuel IH]; intros [|t ts]; cbn [operators_loop]; try done. destruct (is_ws t); [apply IH|].
  destruct (if bool_decide _ then _ else _) as [call|] eqn:E.
  - case_bool_decide; [|done]. apply stackless_bind; [by eapply operator_call_stackless|]. intros [v ts']. repeat first [apply IH|stackless_step].
  - repeat first [apply IH|stackless_step].
Qed.

Lemma evaluateCondition_stackless ts : stackless (evaluateCondition ts).
Proof. unfold evaluateCondition, processDefinedAndExpand. repeat first [apply operators_stackless|stackless_step]. Qed.

Lemma if_condition_stackless ts : stackless (holds (if_condition ts)).
Proof.
  unfold if_condition. destruct (line_directive ts) as [[[]|]|]; cbn; try stackless_step; [|by apply stackless_gets..]. apply evaluateCondition_stackless.
Qed.

Lemma elif_condition_stackless ts : stackless (holds (elif_condition ts)).
Proof. unfold elif_condition. destruct (line_directive ts) as [[[]|]|]; cbn; try stackless_step. apply evaluateCondition_stackless. Qed.

(** *** Lines *)

(** Code that does the same in all blocks that are active. *)
Definition framed {A} (m : PP A) : Prop := forall p st,
  IsActive p = true -> forallb active st = true -> m (set_stack st p) = let '(r, q) := m p in (r, set_stack st q).

Lemma stackless_framed {A} (m : PP A) : stackless m -> framed m.
Proof. intros Hm p st _ _. apply Hm. Qed.

Lemma framed_stack {A} (m : PP A) p : framed m -> IsActive p = true -> stack (m p).2 = stack p.
Proof.
  intros Hm Ha. pose proof (Hm p (stack p) Ha Ha) as E. rewrite set_stack_id in E. destruct (m p) as [r q]. injection E as E. cbn. by rewrite E.
Qed.

Lemma framed_bind {A B} (m : PP A) (f : A -> PP B) : framed m -> (forall a, framed (f a)) -> framed (m ≫= f).
Proof.
  intros Hm Hf p st Hp Hst. rewrite !PP_bind_eq, Hm by done. pose proof (framed_stack m p Hm Hp) as Hq.
  destruct (m p) as [[a|e] q]; [|done]. apply Hf; [|done]. cbn in Hq. unfold IsActive in *. by rewrite Hq.
Qed.

(** What an ordinary line does in an active block. *)
Definition line_action (ts : list Token) : PP string :=
  match ts with
  | [] => mret EmptyString
  | first :: _ =>
      match line_directive ts with
      | Some (Err e) => throw e
      | Some (Ok dir) => do_directive content dir (skip_ws ts) (Loc (peek_token (skip_ws ts))) filename
      | None =>
          let loc := mkLoc filename (Line (Loc first)) 0 in
          _ ← modify (set_expanderLoc loc); mt ← gets table; expanded ← of_result (ExpandWithLoc mt ts loc); mret (TokensToString expanded)
      end
  end.

(** A line, by its directive. *)
Lemma processLine_cases ts p :
  processLine content ts filename p =
    match line_directive ts with
    | Some (Ok dir) =>
        match do_conditional dir with
        | Some act => (_ ← act; mret EmptyString) p
        | None => if IsActive p then line_action ts p else (Ok EmptyString, p)
        end
    | Some (Err _) | None => if IsActive p then line_action ts p else (Ok EmptyString, p)
    end.
Proof.
  unfold processLine, line_action, line_directive. destruct ts as [|first ts]; [by destruct (IsActive p)|].
  destruct (skip_ws (first :: ts)) as [|h d]; cbn [peek_token].
  - case_bool_decide; [done|]. rewrite PP_bind_eq. cbn [gets]. by destruct (IsActive p).
  - case_bool_decide.
    + unfold processDirective. rewrite PP_bind_eq. cbn [gets]. destruct (ParseDirectiveFromTokens d (Loc h)) as [dir|e]; [|by destruct (IsActive p)].
      destruct (do_conditional dir); [done|]. by destruct (IsActive p).
    + rewrite PP_bind_eq. cbn [gets]. by destruct (IsActive p).
Qed.

Lemma ordinary_cases ts p : ordinary ts -> processLine content ts filename p = if IsActive p then line_action ts p else (Ok EmptyString, p).
Proof.
  intros Ho. rewrite processLine_cases. unfold ordinary in Ho. destruct (line_directive ts) as [[dir|e]|]; [|done..].
  by destruct dir; try rewrite Ho.
Qed.

Lemma conditional_case ts dir act p :
  line_directive ts = Some (Ok dir) -> do_conditional dir = Some act ->
  processLine content ts filename p = (_ ← act; mret EmptyString) p.
Proof. intros H1 H2. by rewrite processLine_cases, H1, H2. Qed.

Lemma line_action_stackless ts : ordinary ts -> stackless (line_action ts).
Proof.
  intros Ho. unfold ordinary in Ho. unfold line_action. destruct ts as [|first ts]; [apply stackless_ret|].
  destruct (line_directive (first :: ts)) as [[dir|e]|]; [|by apply stackless_throw|repeat stackless_step].
  destruct dir; try done; cbn [do_directive]; unfold processPragma; repeat stackless_step.
Qed.

Lemma ordinary_framed ts : ordinary ts -> framed (fun p => processLine content ts filename p).
Proof.
  intros Ho p st Hp Hst. rewrite !ordinary_cases by done. rewrite Hp.
  assert (IsActive (set_stack st p) = true) as -> by exact Hst. by apply line_action_stackless.
Qed.

Lemma run_framed : (forall g, nested g -> framed (run_group g)) /\ (forall a, nested_alternatives a -> framed (run_alternatives a)).
Proof.
  apply group_alternatives_ind; cbn [nested nested_alternatives run_group run_alternatives].
  - intros _. apply stackless_framed, stackless_ret.
  - intros line g IH [Ho Hg]. apply framed_bind; [by apply ordinary_framed|]. intros o. apply framed_bind; [by apply IH|]. intros r.
    apply stackless_framed, stackless_ret.
  - intros line body IHb a IHa g IH (_ & Hb & Ha & Hg). apply framed_bind; [apply stackless_framed, if_condition_stackless|]. intros c.
    apply framed_bind; [destruct c; [by apply IHb|by apply IHa]|]. intros o. apply framed_bind; [by apply IH|]. intros r.
    apply stackless_framed, stackless_ret.
  - intros line _. apply stackless_framed, stackless_ret.
  - intros line body IHb a IHa (_ & Hb & Ha). apply framed_bind; [apply stackless_framed, elif_condition_stackless|]. intros [|]; [by apply IHb|by apply IHa].
  - intros line body IHb line_end (_ & Hb & _). by apply IHb.
Qed.

(** *** Conditional lines on the stack *)

Lemma if_inactive line p :
  is_Some (if_condition line) -> IsActive p = false ->
  processLine content line filename p = (Ok EmptyString, set_stack (mkCondition false false false :: stack p) p).
Proof.
  intros [c Hc] Hp. unfold if_condition in Hc. destruct (line_directive line) as [[dir|]|] eqn:E; try done.
  destruct dir; try done; (rewrite (conditional_case _ _ _ p E eq_refl); rewrite PP_bind_eq;
    unfold ProcessIf, ProcessIfdef, ProcessIfndef; rewrite PP_bind_eq; cbn [gets]; by rewrite Hp).
Qed.

Lemma if_active line p :
  is_Some (if_condition line) -> IsActive p = true ->
  processLine content line filename p =
    match holds (if_condition line) p with
    | (Ok c, q) => (Ok EmptyString, set_stack (mkCondition c false c :: stack p) q)
    | (Err e, q) => (Err e, q)
    end.
Proof.
  intros Hc Hp. pose proof (stackless_stack _ p (if_condition_stackless line)) as Hs. revert Hc Hs. unfold if_condition.
  destruct (line_directive line) as [[dir|]|] eqn:E; try by intros [].
  destruct dir; try (by intros []); intros _; cbn [holds]; (rewrite (conditional_case _ _ _ p E eq_refl); rewrite PP_bind_eq;
    unfold ProcessIf, ProcessIfdef, ProcessIfndef; rewrite PP_bind_eq; cbn [gets]; rewrite Hp); [|done..].
  rewrite PP_bind_eq. destruct (wrapping _ _ _ p) as [[b|e] q]; cbn; [|done]. by intros ->.
Qed.

Lemma elif_skipped line p c st :
  is_Some (elif_condition line) -> stack p = c :: st -> seenElse c = false -> anyActive c || negb (forallb active st) = true ->
  processLine content line filename p = (Ok EmptyString, set_stack (mkCondition false false (anyActive c) :: st) p).
Proof.
  intros [m Hm] Hp Hs Ha. unfold elif_condition in Hm. destruct (line_directive line) as [[dir|]|] eqn:E; try done. destruct dir; try done.
  rewrite (conditional_case _ _ _ p E eq_refl). rewrite PP_bind_eq. unfold ProcessElif. rewrite PP_bind_eq. cbn [gets]. rewrite Hp, Hs, Ha. done.
Qed.

Lemma elif_tested line p c st :
  is_Some (elif_condition line) -> stack p = c :: st -> seenElse c = false -> anyActive c = false -> forallb active st = true ->
  processLine content line filename p =
    match holds (elif_condition line) p with
    | (Ok b, q) => (Ok EmptyString, set_stack (mkCondition b false b :: st) q)
    | (Err e, q) => (Err e, q)
    end.
Proof.
  intros [m Hm] Hp Hs Ha Hst. unfold elif_condition in *. destruct (line_directive line) as [[dir|]|] eqn:E; try done. destruct dir; try done.
  rewrite (conditional_case _ _ _ p E eq_refl). rewrite PP_bind_eq. unfold ProcessElif. rewrite PP_bind_eq. cbn [gets]. rewrite Hp, Hs, Ha, Hst. cbn [orb negb holds].
  rewrite PP_bind_eq. by destruct (wrapping _ _ _ p) as [[b|e] q].
Qed.

Lemma else_line line p c st :
  is_else line -> stack p = c :: st -> seenElse c = false ->
  processLine content line filename p =
    (Ok EmptyString, let a := forallb active st && negb (anyActive c) in set_stack (mkCondition a true (anyActive c || a) :: st) p).
Proof.
  intros E Hp Hs. rewrite (conditional_case _ _ _ p E eq_refl). rewrite PP_bind_eq. unfold ProcessElse. rewrite PP_bind_eq. cbn [gets]. by rewrite Hp, Hs.
Qed.

Lemma endif_line line p c st : is_endif line -> stack p = c :: st -> processLine content line filename p = (Ok EmptyString, set_stack st p).
Proof. intros E Hp. rewrite (conditional_case _ _ _ p E eq_refl). rewrite PP_bind_eq. unfold ProcessEndif. rewrite PP_bind_eq. cbn [gets]. by rewrite Hp. Qed.

(** *** Blocks that are skipped *)

Lemma process_lines_app l l' p : process_lines (l ++ l') p = (o ← process_lines l; r ← process_lines l'; mret (o ++ r)%string) p.
Proof.
  revert p. induction l as [|line l IH]; intros p; cbn [app process_lines].
  - rewrite PP_bind_eq. cbn [mret PP_ret]. rewrite PP_bind_eq. by destruct (process_lines l' p) as [[]].
  - rewrite (PP_bind_eq _ _ p), (PP_bind_eq (_ ≫= _) _ p), (PP_bind_eq (processLine _ _ _) _ p).
    destruct (processLine _ line _ p) as [[o|e] q]; [|done]. rewrite !(PP_bind_eq _ _ q), IH, !(PP_bind_eq _ _ q).
    destruct (process_lines l q) as [[o'|e] q']; [|done]. rewrite !(PP_bind_eq _ _ q'). cbn [mret PP_ret]. rewrite PP_bind_eq.
    destruct (process_lines l' q') as [[r|e] q'']; [|done]. cbn. by rewrite string_app_assoc.
Qed.

(** A line that gives no text. *)
Lemma process_silent line l p q : processLine content line filename p = (Ok EmptyString, q) -> process_lines (line :: l) p = process_lines l q.
Proof. intros E. cbn [process_lines]. rewrite PP_bind_eq, E, PP_bind_eq. by destruct (process_lines l q) as [[]]. Qed.

Lemma process_silent_app l l' p q : process_lines l p = (Ok EmptyString, q) -> process_lines (l ++ l') p = process_lines l' q.
Proof. intros E. rewrite process_lines_app, PP_bind_eq, E, PP_bind_eq. by destruct (process_lines l' q) as [[]]. Qed.

Lemma skipped :
  (forall g, nested g -> forall p, IsActive p = false -> process_lines (lines_of g) p = (Ok EmptyString, p)) /\
  (forall a, nested_alternatives a -> forall p c st,
     stack p = c :: st -> seenElse c = false -> anyActive c || negb (forallb active st) = true ->
     process_lines (lines_of_alternatives a) p = (Ok EmptyString, set_stack st p)).
Proof.
  apply group_alternatives_ind; cbn [nested nested_alternatives lines_of lines_of_alternatives].
  - done.
  - intros line g IH [Ho Hg] p Hp. erewrite process_silent; [by apply IH|]. rewrite ordinary_cases by done. by rewrite Hp.
  - intros line body IHb a IHa g IH (Hc & Hb & Ha & Hg) p Hp. erewrite process_silent by (by apply if_inactive).
    erewrite process_silent_app by (by apply IHb). erewrite process_silent_app.
    2:{ apply (IHa Ha _ (mkCondition false false false) (stack p)); [done..|]. unfold IsActive in Hp. by rewrite Hp. }
    rewrite set_stack_twice, set_stack_id. by apply IH.
  - intros line He p c st Hp _ _. erewrite process_silent by (by eapply endif_line). done.
  - intros line body IHb a IHa (Hc & Hb & Ha) p c st Hp Hs Hac. erewrite process_silent by (by eapply elif_skipped).
    erewrite process_silent_app by (by apply IHb). by erewrite IHa.
  - intros line body IHb line_end (He & Hb & Hend) p c st Hp Hs Hac. erewrite process_silent by (by eapply else_line). cbn zeta.
    assert (forallb active st && negb (anyActive c) = false) as -> by (destruct (forallb active st), (anyActive c); done).
    erewrite process_silent_app by (by apply IHb). erewrite process_silent by (by eapply endif_line). done.
Qed.

(** *** Blocks that are processed *)

(** The same result, and the same state unless it is an error. *)
Definition agree {A} (x y : Result A * Preprocessor) : Prop := x.1 = y.1 /\ forall a, x.1 = Ok a -> x.2 = y.2.

Lemma agree_refl {A} (x : Result A * Preprocessor) : agree x x.
Proof. done. Qed.

Lemma agree_bind {A B} (m m' : PP A) (f f' : A -> PP B) p p' :
  agree (m p) (m' p') -> (forall a q, m' p' = (Ok a, q) -> agree (f a q) (f' a q)) -> agree ((m ≫= f) p) ((m' ≫= f') p').
Proof.
  intros [H1 H2] Hf. rewrite !PP_bind_eq. destruct (m p) as [r q], (m' p') as [r' q']. cbn in *. subst r'. destruct r as [a|e]; [|done].
  rewrite (H2 a eq_refl). by apply Hf.
Qed.

Lemma agree_app l l' (m f : PP string) p q :
  agree (process_lines l p) (m q) -> (forall o q', m q = (Ok o, q') -> agree (process_lines l' q') (f q')) ->
  agree (process_lines (l ++ l') p) ((o ← m; r ← f; mret (o ++ r)%string) q).
Proof.
  intros H1 H2. rewrite process_lines_app. apply agree_bind; [done|]. intros o q' Hq. apply agree_bind; [by eapply H2|]. intros. apply agree_refl.
Qed.

(** A branch that is processed, and the lines after it, which are not. *)
Lemma taken body tail c st q :
  nested body -> (forall p, IsActive p = true -> agree (process_lines (lines_of body) p) (run_group body p)) ->
  active c = true -> forallb active st = true -> stack q = st ->
  (forall p, stack p = c :: st -> process_lines tail p = (Ok EmptyString, set_stack st p)) ->
  agree (process_lines (lines_of body ++ tail) (set_stack (c :: st) q)) (run_group body q).
Proof.
  intros Hb IH Hc Hst Hq Ht. assert (Hcs : forallb active (c :: st) = true) by (cbn; by rewrite Hc).
  assert (Hqa : IsActive q = true) by (unfold IsActive; by rewrite Hq).
  pose proof (proj1 run_framed body Hb q (c :: st) Hqa Hcs) as Hf. pose proof (framed_stack _ q (proj1 run_framed body Hb) Hqa) as Hs.
  destruct (IH (set_stack (c :: st) q) Hcs) as [H1 H2]. rewrite Hf in H1, H2. rewrite process_lines_app, PP_bind_eq.
  destruct (run_group body q) as [r q1]. cbn in H1, H2, Hs.
  destruct (process_lines (lines_of body) (set_stack (c :: st) q)) as [r' q2]. cbn in H1, H2. subst r'. destruct r as [o|e]; [|done].
  rewrite (H2 o eq_refl), PP_bind_eq, Ht by done. cbn. rewrite string_app_nil, set_stack_twice, <- Hq, <- Hs, set_stack_id. apply agree_refl.
Qed.

Lemma processed :
  (forall g, nested g -> forall p, IsActive p = true -> agree (process_lines (lines_of g) p) (run_group g p)) /\
  (forall a, nested_alternatives a -> forall p st, stack p = mkCondition false false false :: st -> forallb active st = true ->
     agree (process_lines (lines_of_alternatives a) p) (run_alternatives a (set_stack st p))).
Proof.
  apply group_alternatives_ind; cbn [nested nested_alternatives lines_of lines_of_alternatives run_group run_alternatives].
  - intros. apply agree_refl.
  - intros line g IH [Ho Hg] p Hp. cbn [process_lines]. apply agree_bind; [apply agree_refl|]. intros o q Hq.
    pose proof (framed_stack _ p (ordinary_framed line Ho) Hp) as Hs. cbn in Hs. rewrite Hq in Hs. cbn in Hs.
    apply agree_bind; [apply IH; [done|]; unfold IsActive in *; by rewrite Hs|]. intros. apply agree_refl.
  - intros line body IHb a IHa g IH (Hc & Hb & Ha & Hg) p Hp. cbn [process_lines]. rewrite PP_bind_eq, if_active, PP_bind_eq by done.
    pose proof (stackless_stack _ p (if_condition_stackless line)) as Hs. destruct (holds (if_condition line) p) as [[c|e] q]; cbn in Hs; [|done].
    assert (Hqa : IsActive q = true) by (unfold IsActive in *; by rewrite Hs).
    rewrite PP_bind_eq. set (p1 := set_stack _ q).
    assert (Hbody : agree (process_lines (lines_of body ++ lines_of_alternatives a) p1) ((if c then run_group body else run_alternatives a) q)).
    { destruct c.
      - apply taken; auto. intros p2 Hp2. by apply (proj2 skipped a Ha p2 (mkCondition true false true) (stack p)).
      - erewrite process_silent_app by (by apply skipped). pose proof (IHa Ha p1 (stack p) eq_refl Hp) as Hx.
        unfold p1 in Hx at 2. by rewrite set_stack_twice, <- Hs, set_stack_id in Hx. }
    destruct (agree_app _ (lines_of g) _ (run_group g) _ _ Hbody) as [H1 H2].
    { intros o q' Hq'. apply IH; [done|]. assert (Hf : framed (if c then run_group body else run_alternatives a)) by (destruct c; by apply run_framed).
      pose proof (framed_stack _ q Hf Hqa) as Hs'. rewrite Hq' in Hs'. cbn in Hs'. unfold IsActive in *. by rewrite Hs'. }
    clear Hbody. rewrite <- app_assoc in H1, H2. destruct (process_lines _ p1) as [[r|e] q1]; cbn in *; by split.
  - intros line He p st Hp _. erewrite process_silent by (by eapply endif_line). apply agree_refl.
  - intros line body IHb a IHa (Hc & Hb & Ha) p st Hp Hst. cbn [process_lines].
    rewrite PP_bind_eq, (elif_tested line p _ st Hc Hp) by done. rewrite PP_bind_eq, (elif_condition_stackless line p st).
    pose proof (stackless_stack _ p (elif_condition_stackless line)) as Hs. destruct (holds (elif_condition line) p) as [[c|e] q]; cbn in Hs; [|done].
    rewrite PP_bind_eq. assert (Hbody : agree (process_lines (lines_of body ++ lines_of_alternatives a) (set_stack (mkCondition c false c :: st) q))
      ((if c then run_group body else run_alternatives a) (set_stack st q))).
    { destruct c.
      - change (set_stack (?x :: st) q) with (set_stack (x :: st) (set_stack st q)). apply taken; auto. intros p2 Hp2. by eapply (proj2 skipped a Ha p2).
      - erewrite process_silent_app by (by apply skipped). exact (IHa Ha (set_stack (mkCondition false false false :: st) q) st eq_refl Hst). }
    destruct Hbody as [H1 H2]. destruct c, (process_lines _ (set_stack (_ :: st) q)) as [[r|e] q1]; cbn in *; by split.
  - intros line body IHb line_end (He & Hb & Hend) p st Hp Hst. erewrite process_silent by (by eapply else_line). cbn zeta. rewrite Hst. cbn [andb negb anyActive orb].
    change (set_stack (?x :: st) p) with (set_stack (x :: st) (set_stack st p)). apply taken; auto. intros p2 Hp2.
    erewrite process_silent by (by eapply endif_line). done.
Qed.
End Groups.

(** ** Lines and text *)

Section Lines.
  Context `{OS} (content : string -> string -> PP string) (filename : string).

(** The tokens of a line, with the end of the line, in which no parenthesis is left
    open. *)
Definition line_tokens_ok (l : list Token) : Prop :=
  exists init nl, l = init ++ [nl] /\ Type_ nl = PP_NEWLINE /\ Forall (fun t => Type_ t <> PP_NEWLINE) init /\
    foldl (fun d t => next_depth t d) O l = O.

Lemma content_loop_init init lt line d ts :
  Forall (fun t => Type_ t <> PP_NEWLINE) init ->
  content_loop content filename lt line d (init ++ ts) = content_loop content filename (lt ++ init) line (foldl (fun d t => next_depth t d) d init) ts.
Proof.
  intros Hi. revert lt d. induction Hi as [|t init Ht _ IH]; intros lt d; [by rewrite app_nil_r|]. cbn [app content_loop foldl].
  rewrite bool_decide_eq_false_2 by done. rewrite IH. by rewrite <- app_assoc.
Qed.

Lemma next_depth_newline t d : Type_ t = PP_NEWLINE -> next_depth t d = d.
Proof. intros Ht. unfold next_depth, is_token. by rewrite Ht. Qed.

Lemma content_loop_line l line ts :
  line_tokens_ok l -> exists format args next, content_loop content filename [] line 0 (l ++ ts) =
    output ← wrapping format args (processLine content l filename); result ← content_loop content filename [] next 0 ts; mret (output ++ result)%string.
Proof.
  intros (init & nl & -> & Hnl & Hi & Hd). rewrite <- app_assoc, content_loop_init by done. cbn [app content_loop].
  rewrite foldl_app in Hd. cbn in Hd. rewrite next_depth_newline in Hd by done. rewrite Hd. rewrite bool_decide_eq_true_2, next_depth_newline by done.
  cbn. eauto.
Qed.

(** The loop of [preprocessContent] on lines, but for the places in errors. *)
Lemma content_loop_lines ls line p :
  Forall line_tokens_ok ls ->
  match process_lines content filename ls p with
  | (Ok out, q) => content_loop content filename [] line 0 (concat ls) p = (Ok out, q)
  | (Err _, _) => exists e, (content_loop content filename [] line 0 (concat ls) p).1 = Err e
  end.
Proof.
  intros Hls. revert line p. induction Hls as [|l ls Hl _ IH]; intros line p; [done|]. cbn [concat process_lines].
  destruct (content_loop_line l line (concat ls) Hl) as (fmt & args & next & ->). rewrite !PP_bind_eq. unfold wrapping.
  destruct (processLine content l filename p) as [[o|e] q]; [|destruct e; cbn; eauto]. cbn [wrap]. rewrite !PP_bind_eq. specialize (IH next q).
  destruct (process_lines content filename ls q) as [[r|e] q']; [by rewrite IH|]. destruct IH as [e' He]. destruct (content_loop _ _ _ _ _ _ q) as [[r|e2] q2]; [done|].
  cbn. eauto.
Qed.

(** Tokens that are neither directives nor names of macros. *)
Definition inert (mt : MacroTable) (t : Token) : Prop :=
  Type_ t <> PP_HASH /\ (Type_ t = PP_IDENTIFIER -> macros mt !! Text t = None).

Lemma expand_inert mt eloc ts hs : Forall (inert mt) ts -> expandTokens mt eloc ts hs = (Ok ts, hs).
Proof.
  intros Ht. unfold expandTokens. cbn [expand_tokens]. generalize (expand_tokens mt eloc (size (macros mt))). intros rec.
  generalize (le_n (length ts)). generalize (length ts) at 2 3. intros fuel. revert ts Ht.
  induction fuel as [|fuel IH]; intros [|t ts] Ht Hl; cbn [expand_loop length] in *; try lia; try done.
  apply Forall_cons in Ht as [[_ Ht] Hts]. rewrite M_bind_eq. cbn [get_hideset]. unfold Lookup.
  assert ((if bool_decide (Type_ t = PP_IDENTIFIER) then macros mt !! Text t else None) = None) as -> by (case_bool_decide; auto).
  rewrite M_bind_eq, IH by (done || lia). done.
Qed.

Lemma skip_ws_incl t ts : t ∈ skip_ws ts -> t ∈ ts.
Proof. induction ts as [|u ts IH]; [done|]. cbn. destruct (is_ws u); [|done]. intros. by apply elem_of_cons; auto. Qed.

Lemma processLine_inert ts p :
  IsActive p = true -> Forall (inert (table p)) ts -> exists loc, processLine content ts filename p = (Ok (TokensToString ts), set_expanderLoc loc p).
Proof.
  intros Hp Ht. unfold processLine. destruct ts as [|t ts]; [exists (expanderLoc p); by destruct p|].
  rewrite bool_decide_eq_false_2.
  2:{ destruct (skip_ws (t :: ts)) as [|h d] eqn:E; [done|]. cbn. rewrite Forall_forall in Ht. apply (Ht h), skip_ws_incl. rewrite E. by left. }
  rewrite PP_bind_eq. cbn [gets]. rewrite Hp. set (loc := mkLoc _ _ _). exists loc. rewrite !PP_bind_eq. cbn [modify gets]. rewrite !PP_bind_eq. cbn [gets].
  rewrite PP_bind_eq. cbn [of_result table set_expanderLoc]. unfold ExpandWithLoc. by rewrite expand_inert.
Qed.

Lemma TokensToString_app ts ts' : TokensToString (ts ++ ts') = (TokensToString ts ++ TokensToString ts')%string.
Proof. unfold TokensToString in *. induction ts as [|t ts IH]; [done|]. cbn. by rewrite IH, string_app_assoc. Qed.

Lemma content_loop_inert lt line d ts p :
  IsActive p = true -> Forall (inert (table p)) (lt ++ ts) ->
  exists loc, content_loop content filename lt line d ts p = (Ok (TokensToString (lt ++ ts)), set_expanderLoc loc p).
Proof.
  revert lt line d p. induction ts as [|t ts IH]; intros lt line d p Hp Ht; cbn [content_loop].
  - rewrite app_nil_r in *. destruct (processLine_inert lt p Hp Ht) as [loc Hl]. exists loc. unfold wrapping. by rewrite Hl.
  - replace (lt ++ t :: ts) with ((lt ++ [t]) ++ ts) in * by (by rewrite <- app_assoc).
    case_bool_decide; [|by apply IH]. destruct (_ && _); [by apply IH|]. pose proof Ht as Ht0. apply Forall_app in Ht as [H1 H2].
    destruct (processLine_inert (lt ++ [t]) p Hp H1) as [loc Hl]. rewrite PP_bind_eq. unfold wrapping. rewrite Hl. cbn [wrap]. rewrite PP_bind_eq.
    destruct (IH [] (Line (Loc t) + 1) (next_depth t d) (set_expanderLoc loc p) Hp H2) as [loc' ->]. exists loc'. by rewrite (TokensToString_app (lt ++ [t]) ts).
Qed.

(** What is put in front of the text of a file. *)
Definition file_marker (p : Preprocessor) : string := if LineMarkers p then line_marker 1 filename "" else EmptyString.

(** [PreprocessString], but for the state it ends in. *)
Lemma PreprocessString_eq source p :
  (PreprocessString source filename p).1 =
    match preprocess_content (S (MaxIncludeDepth - IncludeDepth (resolver p))) source filename p with
    | (Ok out, q) =>
        match stack q with
        | [] => Ok (file_marker p ++ out)%string
        | _ => (wrapping "%s: %w" [filename] CheckBalanced q).1 ≫= fun _ => Ok (file_marker p ++ out)%string
        end
    | (Err e, _) => Err e
    end.
Proof.
  unfold PreprocessString, preprocessContentTopLevel, preprocessContent, file_marker.
  rewrite !PP_bind_eq. cbn [gets]. rewrite !PP_bind_eq. cbn [gets]. rewrite PP_bind_eq.
  destruct (preprocess_content _ _ _ p) as [[out|e] q]; [|done]. cbn [mret PP_ret].
  rewrite PP_bind_eq. unfold wrapping, CheckBalanced. rewrite !PP_bind_eq. cbn [gets].
  destruct (stack q); cbn; by destruct (LineMarkers p).
Qed.
End Lines.

(** ** Theorems *)

(** C11. Preprocessing terminates, whatever the files are, those that include one
    another or themselves too: it gives a text or an error, or panics, as it does on
    [#include] of a quotation mark alone ([lone_quote_panics]); it does not go on for
    ever. Expansion and the evaluation of conditions end, and files are included at
    most two hundred deep. When it has ended no file is left on the stack of included
    files, and macros are still in the table under their names, which is all that is
    asked of the table before, so that this holds again for the next file. *)
Theorem PreprocessFile_ends `{OS} filename p :
  well_named (table p) ->
  let '(r, q) := PreprocessFile filename p in
  r <> Err EFuel /\ includeStack (resolver q) = includeStack (resolver p) /\ well_named (table q).
Proof.
  intros Hw. assert (Hs : steady (IncludeDepth (resolver p)) (PreprocessFile filename) any).
  { unfold PreprocessFile. apply steady_any; [apply steady_of_result; [by destruct (ReadFile _)|done]|]. intros text.
    apply steady_any; [steady_step|]. intros _. apply pushed_steady, top_steady. }
  specialize (Hs p Hw eq_refl). destruct (PreprocessFile filename p) as [r q]. by destruct Hs as (H1 & H2 & H3 & _).
Qed.

(** C10. Conditional compilation is right. Of a text whose lines are nested as the
    grammar of C nests conditional groups, the preprocessor, which keeps a stack and
    reads line after line, makes what the grammar says: of every group the first
    branch whose condition holds, without evaluating the conditions after it or those
    inside the branches that are left out. In front is the marker of the file, where
    markers are on. This is said of texts that end with a line and in which every
    line closes the parentheses it opens (else they hide directives,
    [open_parenthesis_hides_directives]), no line includes a file, and conditional
    directives are as the parser wants them ([if_condition]; else they are not
    counted, [skipped_if_not_counted]); and of a preprocessor that is not inside a
    conditional. *)
Theorem PreprocessString_groups `{OS} source filename p ts g :
  AllTokens (NewLexer source filename) = Some ts ->
  filter (fun t => Type_ t <> PP_EOF) ts = concat (lines_of g) -> Forall line_tokens_ok (lines_of g) -> nested g ->
  stack p = [] ->
  match (run_group (preprocess_content (MaxIncludeDepth - IncludeDepth (resolver p))) filename g p).1 with
  | Ok out => (PreprocessString source filename p).1 = Ok (file_marker filename p ++ out)%string
  | Err _ => exists e, (PreprocessString source filename p).1 = Err e
  end.
Proof.
  intros Hts Hl Hok Hn Hst. set (content := preprocess_content _). assert (Ha : IsActive p = true) by (unfold IsActive; by rewrite Hst).
  destruct (proj1 (processed content filename) g Hn p Ha) as [H1 H2].
  pose proof (framed_stack _ p (proj1 (run_framed content filename) g Hn) Ha) as Hs.
  pose proof (content_loop_lines content filename (lines_of g) 1 p Hok) as Hc.
  rewrite PreprocessString_eq. cbn [preprocess_content]. fold content. clearbody content. rewrite Hts, Hl.
  destruct (process_lines content filename (lines_of g) p) as [r q], (run_group content filename g p) as [r' q']. cbn in H1, H2, Hs |- *. subst r'.
  destruct r as [out|e].
  - rewrite Hc. rewrite (H2 out eq_refl). by rewrite Hs, Hst.
  - destruct Hc as [e' He']. destruct (content_loop _ _ _ _ _ _ p) as [[o|e2] q2]; [done|]. cbn. eauto.
Qed.

(** C40. A text none of whose tokens is [#] or the name of a macro is left as it is,
    but for the marker of the file in front where markers are on: the preprocessor,
    outside conditionals, returns the texts of its tokens. That is the text itself
    where it has no comments, which become a space, and no line continuations, which
    are dropped. *)
Theorem PreprocessString_inert `{OS} source filename p ts :
  AllTokens (NewLexer source filename) = Some ts -> Forall (inert (table p)) ts -> stack p = [] ->
  (PreprocessString source filename p).1 = Ok (file_marker filename p ++ TokensToString ts)%string /\
  (plain_text source = true -> (PreprocessString source filename p).1 = Ok (file_marker filename p ++ source)%string).
Proof.
  intros Hts Hi Hst. assert (Hr : (PreprocessString source filename p).1 = Ok (file_marker filename p ++ TokensToString ts)%string).
  { destruct (all_tokens_cut (S (String.length source)) (NewLexer source filename)) as (ts' & Hts' & init & eof & ps & tl & -> & He & Ht & Hne & _); [cbn; lia|].
    assert (Some ts = Some (init ++ [eof])) as [= ->] by (by rewrite <- Hts, <- Hts').
    apply Forall_app in Hi as [Hi _]. rewrite PreprocessString_eq. cbn [preprocess_content]. rewrite Hts.
    rewrite filter_app, filter_cons_False by (intros Hx; by apply Hx). rewrite filter_nil, app_nil_r.
    assert (filter (fun t => Type_ t <> PP_EOF) init = init) as ->.
    { clear -Hne. induction Hne as [|t l Ht _ IH]; [done|]. rewrite filter_cons_True by done. by f_equal. }
    destruct (content_loop_inert (preprocess_content (MaxIncludeDepth - IncludeDepth (resolver p))) filename [] 1 0 init p) as [loc ->];
      [unfold IsActive; by rewrite Hst|done|]. cbn. rewrite Hst. cbn.
    by rewrite TokensToString_app; cbn; rewrite Ht, !string_app_nil. }
  split; [done|]. intros Hp. rewrite Hr. do 2 f_equal. destruct (all_tokens_cut (S (String.length source)) (NewLexer source filename)) as (ts' & Hts' & Hc); [cbn; lia|].
  assert (Some ts = Some ts') as [= ->] by (by rewrite <- Hts, <- Hts'). by apply cut_plain.
Qed.

(** *** Examples *)

Definition text_of (l : list string) : string := String.concat newline_string l.

(** A system with a header that includes itself, and one with a guard. *)
Definition headers : OS := {|
  Getwd := "/w";
  Stat f := bool_decide (f ∈ ["/w/self.h"; "/w/guard.h"]%string);
  ReadFile f :=
    if bool_decide (f = "/w/self.h"%string) then inl (text_of [("#include " ++ quoted "self.h")%string; ""])%string
    else if bool_decide (f = "/w/guard.h"%string) then inl (text_of ["#ifndef G"; "#define G"; "int a;"; "#endif"; "int b;"; ""])%string
    else inr "no such file"%string;
  detectedPaths := []
|}.

Definition fresh : Preprocessor := NewPreprocessor "" "" (mkOptions [] [] [] [] false).

Lemma fresh_well_named : well_named (table fresh).
Proof. apply ApplyCmdlineDefines_well_named, NewMacroTable_well_named. Qed.

Lemma PreprocessFile_ends_witness :
  (@PreprocessFile headers "self.h" fresh).1 <> Err EFuel /\ includeStack (resolver (@PreprocessFile headers "self.h" fresh).2) = [].
Proof.
  pose proof (@PreprocessFile_ends headers "self.h" fresh fresh_well_named) as H. destruct (PreprocessFile "self.h" fresh) as [r q].
  destruct H as (H1 & H2 & _). by split.
Defined.

(** The lines of tokens. *)
Fixpoint split_lines (line : list Token) (ts : list Token) : list (list Token) :=
  match ts with
  | [] => []
  | t :: ts => if bool_decide (Type_ t = PP_NEWLINE) then (line ++ [t]) :: split_lines [] ts else split_lines (line ++ [t]) ts
  end.

Definition example_text : string :=
  text_of ["#ifdef A"; "a"; "#elif 1+1==2"; "#if 0"; "b"; "#else"; "c"; "#endif"; "#else"; "d"; "#endif"; "e"; ""]%string.

Definition example_tokens : list Token := default [] (AllTokens (NewLexer example_text "f.c")).

Definition example_group : group :=
  let l n := nth n (split_lines [] example_tokens) [] in
  GIf (l 0%nat) (GLine (l 1%nat) GEnd)
    (AElif (l 2%nat) (GIf (l 3%nat) (GLine (l 4%nat) GEnd) (AElse (l 5%nat) (GLine (l 6%nat) GEnd) (l 7%nat)) GEnd)
      (AElse (l 8%nat) (GLine (l 9%nat) GEnd) (l 10%nat))) (GLine (l 11%nat) GEnd).

Lemma Forall_check {A} (f : A -> bool) (P : A -> Prop) l : (forall x, f x = true -> P x) -> forallb f l = true -> Forall P l.
Proof. intros Hf. induction l as [|x l IH]; [done|]. cbn. intros [Hx Hl]%andb_true_iff. constructor; auto. Qed.

(** A decision of [line_tokens_ok]. *)
Definition check_line (l : list Token) : bool :=
  match reverse l with
  | nl :: init =>
      bool_decide (Type_ nl = PP_NEWLINE) && forallb (fun t => negb (bool_decide (Type_ t = PP_NEWLINE))) (reverse init) &&
      (foldl (fun d t => next_depth t d) O l =? 0)%nat
  | [] => false
  end.

Lemma check_line_ok l : check_line l = true -> line_tokens_ok l.
Proof.
  unfold check_line. destruct (reverse l) as [|nl init] eqn:E; [done|]. intros [[H1 H2]%andb_true_iff H3]%andb_true_iff.
  exists (reverse init), nl. split_and!.
  - by rewrite <- (reverse_involutive l), E, reverse_cons.
  - by apply bool_decide_eq_true in H1.
  - apply Forall_forall. intros t Ht. rewrite forallb_forall in H2. specialize (H2 t (proj1 (list_elem_of_In _ _) Ht)).
    apply negb_true_iff, bool_decide_eq_false in H2. done.
  - by apply Nat.eqb_eq.
Qed.

Lemma PreprocessString_groups_witness :
  (@PreprocessString headers example_text "f.c" fresh).1 = Ok (text_of ["c"; "e"; ""]%string).
Proof.
  pose proof (@PreprocessString_groups headers example_text "f.c" fresh example_tokens example_group) as H.
  assert (Hr : (@run_group headers (@preprocess_content headers (MaxIncludeDepth - IncludeDepth (resolver fresh))) "f.c" example_group fresh).1 =
    Ok (text_of ["c"; "e"; ""]%string)) by (vm_compute; reflexivity).
  rewrite Hr in H. apply H; [vm_compute; reflexivity|vm_compute; reflexivity| |vm_compute; repeat split; eexists; reflexivity|reflexivity].
  apply (Forall_check _ _ _ check_line_ok). vm_compute. reflexivity.
Defined.

Definition plain_example : string := text_of ["int x = 1;"; ""]%string.

(** A decision of [inert]. *)
Definition check_inert (mt : MacroTable) (t : Token) : bool :=
  negb (bool_decide (Type_ t = PP_HASH)) &&
  (negb (bool_decide (Type_ t = PP_IDENTIFIER)) || match macros mt !! Text t with None => true | Some _ => false end).

Lemma check_inert_ok mt t : check_inert mt t = true -> inert mt t.
Proof.
  unfold check_inert. intros [H1 H2]%andb_true_iff. apply negb_true_iff, bool_decide_eq_false in H1. split; [done|].
  intros Ht. rewrite bool_decide_eq_true_2 in H2 by done. by destruct (macros mt !! Text t).
Qed.

(** With line markers, as the command has it. *)
Definition marking : Preprocessor := NewPreprocessor "" "" (mkOptions [] [] [] [] true).

Lemma PreprocessString_inert_witness :
  (@PreprocessString headers plain_example "f.c" marking).1 = Ok (line_marker 1 "f.c" "" ++ plain_example)%string.
Proof.
  apply (@PreprocessString_inert headers plain_example "f.c" marking (default [] (AllTokens (NewLexer plain_example "f.c"))));
    [vm_compute; reflexivity| |reflexivity|vm_compute; reflexivity].
  apply (Forall_check _ _ _ (check_inert_ok (table marking))). vm_compute. reflexivity.
Defined.

(** *** What the code does otherwise than C *)

Definition preprocessed (lines : list string) : Result string := (@PreprocessString headers (text_of lines) "/w/f.c" fresh).1.

(** A parenthesis that is left open, here in a block that is left out, hides the
    directives after it. *)
Lemma open_parenthesis_hides_directives :
  preprocessed ["#if 0"; "("; "#endif"; "x"; ""]%string =
    Err (EWrap "%s: %w" ["/w/f.c"]%string (EMsg "unterminated conditional directive, %d level(s) unclosed" ["1"]%string)).
Proof. vm_compute. reflexivity. Qed.

(** In a block that is left out, an [#if] without an expression opens no group. *)
Lemma skipped_if_not_counted :
  preprocessed ["#if 0"; "#if"; "#endif"; "x"; ""]%string = Ok (text_of ["x"; ""]%string).
Proof. vm_compute. reflexivity. Qed.

(** The call of [__has_warning] takes the rest of the condition with it. *)
Lemma has_warning_takes_the_rest : preprocessed ["#if __has_warning(w) || 1"; "x"; "#endif"; ""]%string = Ok EmptyString.
Proof. vm_compute. reflexivity. Qed.

(** What follows the [#endif] of a guard is left out the second time. *)
Lemma guarded_file_cut :
  preprocessed [("#include " ++ quoted "guard.h")%string; ("#include " ++ quoted "guard.h")%string; ""%string] = Ok (text_of ["int a;"; "int b;"; ""]%string).
Proof. vm_compute. reflexivity. Qed.

(** [#include] of a quotation mark alone panics. *)
Lemma lone_quote_panics : preprocessed [("#include " ++ String quote EmptyString)%string] = Err EPanic.
Proof. vm_compute. reflexivity. Qed.

(** A built-in macro is out of the range of conditions. *)
Lemma uint64_max_rejected :
  preprocessed ["#if __UINT64_MAX__ > 0"; "x"; "#endif"; ""]%string =
    Err (EWrap "%s:%d: %w" ["/w/f.c"; "1"]%string
      (EWrap "#if: %w" [] (EMsg "strconv.ParseInt: value out of range" ["18446744073709551615"]%string))).
Proof. vm_compute. reflexivity. Qed.
