(* ===== verification/BackEnd.v ===== *)
(** The passes from C syntax on in the order the driver runs them
    ([src/cmd/ralph-cc/main.go]), and what they guarantee together. *)

From S2P Require Import Prelude Target Semantics Rtl RtlSem Structured Values CminorSem Selection SelectionPass.
From S2P Require Import RtlGen RtlGenPass Liveness Conventions RegAlloc RegAllocProof Irc IrcAlloc IrcTotal RegAllocPass.
From S2P Require Import Ltl ConvertCall Linearize LinearizePass.
From S2P Require Import Frame Stacking MachSem StackingProof StackingPass.
From S2P Require Import CsharpminorSem CminorgenProof CminorgenPass CshmgenOps Cshmgen ClightSem CshmgenPass.
From S2P Require Import CabsSem ClightGenPass ValuesExample.
From S2P Require Ctypes Cabs ClightGen Clight Csharpminor Cminorgen Cminor CminorSel Linear Mach Asm AsmGen.

(** The orders in which the passes range over maps. *)
Record MapOrders := {
  order_types : NameOrder;
  order_params : NameOrder;
  order_temps : RangeOrder;
  order_vars : NameOrder;
  order_liveness : RangeOrder;
  order_graph : RangeOrder;
  order_moves : nat -> Node -> nat -> RangeOrder;
  order_frame : RangeOrder
}.

Section Driver.
  Context (darwin : bool) (orders : MapOrders) (fuel : nat).

(** The calls of [doAsm], from Cminor to Mach, from Csharpminor to assembly, from
    Clight to assembly, and from C to assembly. *)
Definition compile_mach (p : Cminor.Program) : option Mach.Program :=
  let rtl := RtlGen.TranslateProgram (SelectProgram (NewSelectionContext None None) p) in
  ltl ← Irc.TransformProgram (order_liveness orders) (order_graph orders) fuel rtl;
  @Stacking.TransformProgram (order_frame orders) (LinearizePass.TransformProgram darwin (order_moves orders) ltl).

Definition compile_csharpminor (p : Csharpminor.Program) : option Asm.Program :=
  cminor ← Cminorgen.TransformProgram (order_temps orders) (order_vars orders) p;
  mach ← compile_mach cminor; AsmGen.TransformProgram mach.

Definition compile (p : Clight.Program) : option Asm.Program :=
  csharp ← @Cshmgen.TranslateProgram (order_params orders) p; compile_csharpminor csharp.

Definition compile_c (p : Cabs.Program) : option Asm.Program :=
  clight ← @ClightGen.TranslateProgram (order_types orders) p; compile clight.

(** *** What happens to one function *)

Definition to_rtl (globals : gset string) (f : Cminor.Function) : Rtl.Function :=
  RtlGen.TranslateFunction (SelectFunction (mkContext globals ∅) f).

Definition to_linear (i : nat) (f : Ltl.Function) : Linear.Function :=
  LinearizePass.Transform darwin (order_moves orders i) f.

Lemma mapM_lookup {A B} (f : A -> option B) l k i x :
  mapM f l = Some k -> l !! i = Some x -> exists y, f x = Some y /\ k !! i = Some y.
Proof using.
  intros Hm Hx. apply mapM_Some in Hm. destruct (Forall2_lookup_l _ _ _ _ _ Hm Hx) as (y & Hy & Hf). eauto.
Qed.

(** Functions are compiled one by one. *)
Lemma compile_mach_lookup p mp i f :
  compile_mach p = Some mp -> Cminor.Functions p !! i = Some f ->
  exists lf mf, Irc.TransformFunction (order_liveness orders) (order_graph orders) fuel (to_rtl (program_globals p) f) = Some lf /\
    @Stacking.Transform (order_frame orders) (to_linear i lf) = Some mf /\ Mach.Functions mp !! i = Some mf.
Proof using.
  unfold compile_mach. intros Hc Hf.
  destruct (Irc.TransformProgram _ _ _ _) as [ltl|] eqn:El; [|done]. cbn [mbind option_bind] in Hc.
  unfold Irc.TransformProgram in El. destruct (mapM _ _) as [lfs|] eqn:Elf; [|done]. injection El as <-.
  assert (Hr : Rtl.Functions (RtlGen.TranslateProgram (SelectProgram (NewSelectionContext None None) p)) !! i =
    Some (to_rtl (program_globals p) f)).
  { unfold RtlGen.TranslateProgram. cbn [Rtl.Functions]. by rewrite list_lookup_fmap, (SelectProgram_lookup _ p i f Hf). }
  destruct (mapM_lookup _ _ _ i _ Elf Hr) as (lf & Hlf & Hl).
  unfold Stacking.TransformProgram in Hc. destruct (mapM _ _) as [mfs|] eqn:Emf in Hc; [|done]. injection Hc as <-.
  assert (Hn : Linear.Functions (LinearizePass.TransformProgram darwin (order_moves orders)
    (Ltl.mkProgram ((fun g => Ltl.mkGlobVar (Rtl.gv_Name g) (Rtl.gv_Size g) (Rtl.gv_Init g) (Rtl.gv_ReadOnly g)) <$>
       Rtl.Globals (RtlGen.TranslateProgram (SelectProgram (NewSelectionContext None None) p))) lfs)) !! i = Some (to_linear i lf)).
  { unfold LinearizePass.TransformProgram. cbn [Linear.Functions Ltl.Functions]. by rewrite list_lookup_imap, Hl. }
  destruct (mapM_lookup _ _ _ i _ Emf Hn) as (mf & Hmf & Hm). by exists lf, mf.
Qed.
End Driver.

(** ** Functions from Cminor to Mach *)

Section Correct.
  Context {M F : Type} `{FO : FloatOps} `{LO : Layout} `{TS : TargetSemantics val M}.
  Context {VT : ValueTarget M} {darwin : bool} {PC : PseudoCalls val M darwin}.
  Context {CC : CallConvention val M} {FM : FrameMemory F val}.
  Context (orders : MapOrders) (fuel : nat).

(** What the passes ask of the function and of each other, decidably. *)
Definition function_ok (globals : gset string) (i : nat) (f : Cminor.Function) : bool :=
  let rtl := to_rtl globals f in
  select_ok globals f && rtlgen_ok (SelectFunction (mkContext globals ∅) f) &&
  params_ok_check rtl && (length (Rtl.fn_Params rtl) <=? 8)%nat &&
  (size (@GetAllRegisters (order_liveness orders) 0 rtl) <=? NumAllocatableIntRegs)%nat &&
  match @AnalyzeLiveness (order_liveness orders) rtl with Some live => wf_rtl_check rtl live | None => false end &&
  match Irc.TransformFunction (order_liveness orders) (order_graph orders) fuel rtl with
  | Some ltl =>
      let linear := to_linear darwin orders i ltl in
      wf_function_check darwin ltl && @wf_linear_check (order_frame orders) call_slots linear &&
      @wf_params_check (order_frame orders) linear
  | None => false
  end.

(** Cminor to RTL. *)
Lemma rtl_preserves globals f vals m :
  select_ok globals f = true -> rtlgen_ok (SelectFunction (mkContext globals ∅) f) = true ->
  let rtl := to_rtl globals f in
  let cm := terminates (cm_step f) (cm_init f (vals <$> Rtl.fn_Params rtl) m) in
  let run := terminates (rtl_step (Rtl.fn_Code rtl)) (rtl_init rtl vals m) in
  (forall r, cm r -> run r) /\
  (safe (cm_step f) (cm_init f (vals <$> Rtl.fn_Params rtl) m) -> forall r, run r -> cm r).
Proof using VT.
  intros Hsel Hgen rtl cm run. set (tf := SelectFunction (mkContext globals ∅) f) in *.
  destruct (select_function_preserves globals f (vals <$> Rtl.fn_Params rtl) m Hsel) as [Hfw Hbw].
  destruct (rtlgen_start tf vals m Hgen) as (rel & Hrel & Hnext & Hhalt). split.
  - intros r Hr%Hfw.
    by destruct (sim_forward_rel _ _ rel eq state_size Hnext Hhalt _ _ r Hrel Hr) as (r' & Ht & ->).
  - intros Hsafe r Hr. destruct (Hbw Hsafe) as [Hs Ht]. apply Ht.
    by destruct (sim_backward_safe _ _ rel eq state_size Hnext Hhalt _ _ r Hrel Hs Hr) as (r' & Hr' & <-).
Qed.

(** RTL to Linear, from locations that hold the parameters. *)
Lemma linear_preserves i rtl live ltl (vals : Z -> val) (ls : Loc -> val) (m : M) :
  params_ok rtl -> @AnalyzeLiveness (order_liveness orders) rtl = Some live -> wf_rtl rtl live ->
  (size (@GetAllRegisters (order_liveness orders) 0 rtl) <= NumAllocatableIntRegs)%nat -> (enough_rounds <= fuel)%nat ->
  Irc.TransformFunction (order_liveness orders) (order_graph orders) fuel rtl = Some ltl -> wf_function darwin ltl ->
  (forall j p, Rtl.fn_Params rtl !! j = Some p -> vals p = ls (ArgLocation j false)) ->
  let lin := to_linear darwin orders i ltl in
  let run1 := terminates (rtl_step (Rtl.fn_Code rtl)) (rtl_init rtl vals m) in
  let run2 := terminates (linear_step (Linear.fn_Code lin)) (linear_init lin ls m) in
  (forall r, run1 r -> exists r', run2 r' /\ RtlSem.match_results r r') /\
  (forall r', run2 r' -> exists r, run1 r /\ RtlSem.match_results r r').
Proof using PC.
  intros po Hl wf few Hfuel Htf wfl Hp lin run1 run2.
  destruct (TransformFunction_small _ (order_graph orders) fuel rtl live po Hl few Hfuel) as (t & alloc & E & va & Hsol).
  rewrite Htf in E. injection E as ->. destruct (alloc_init (H := order_graph orders) t rtl live alloc ls m wf) as [s Hs].
  assert (Heq : forall r, terminates (ltl_step (maxRegArgs darwin) (Ltl.fn_Code (@transform_with (order_graph orders) t rtl alloc))) s r <-> run2 r).
  { intros r. unfold run2, lin, to_linear. rewrite Transform_code_equiv. by apply Linearize_equiv. }
  destruct (alloc_equiv (RO := order_graph orders) t rtl live alloc Hsol va wf vals ls m s Hp Hs) as [Hf Hb]. split.
  - intros r Hr. destruct (Hf r Hr) as (r' & Hr' & Hm). exists r'. split; [by apply Heq|done].
  - intros r' Hr. apply Hb. by apply Heq.
Qed.

(** Every condition at once. *)
Lemma function_ok_spec globals i f :
  function_ok globals i f = true ->
  let rtl := to_rtl globals f in
  select_ok globals f = true /\ rtlgen_ok (SelectFunction (mkContext globals ∅) f) = true /\ params_ok rtl /\
  (length (Rtl.fn_Params rtl) <= 8)%nat /\
  (size (@GetAllRegisters (order_liveness orders) 0 rtl) <= NumAllocatableIntRegs)%nat /\
  (exists live, @AnalyzeLiveness (order_liveness orders) rtl = Some live /\ wf_rtl rtl live) /\
  forall ltl, Irc.TransformFunction (order_liveness orders) (order_graph orders) fuel rtl = Some ltl ->
    let lin := to_linear darwin orders i ltl in
    wf_function darwin ltl /\ @wf_linear (order_frame orders) call_slots lin /\ @wf_params (order_frame orders) lin.
Proof using.
  intros Hok rtl. unfold function_ok in Hok. rewrite !andb_true_iff, !Nat.leb_le in Hok.
  destruct Hok as [[[[[[Hsel Hgen] Hp] Hn] Hs] Hl] Ht].
  split; [done|]. split; [done|]. split; [by apply params_ok_check_sound|]. split; [done|]. split; [done|]. split.
  - fold rtl in Hl. destruct (@AnalyzeLiveness (order_liveness orders) rtl) as [live|]; [|done].
    exists live. split; [done|by apply wf_rtl_check_sound].
  - intros ltl E lin. fold rtl in Ht. rewrite E, !andb_true_iff in Ht. destruct Ht as [[H1 H2] H3].
    split; [by apply wf_function_check_sound|]. split; [by apply wf_linear_check_sound|by apply wf_params_check_sound].
Qed.

(** The parameters of the Linear function are where the caller puts the
    arguments. *)
Lemma linear_params i rtl ltl j p :
  Irc.TransformFunction (order_liveness orders) (order_graph orders) fuel rtl = Some ltl ->
  Rtl.fn_Params rtl !! j = Some p ->
  Linear.fn_Params (to_linear darwin orders i ltl) !! j = Some (ArgLocation j false).
Proof using.
  unfold Irc.TransformFunction. destruct (AllocateFunction _ _ _ _) as [[t alloc]|]; [|done]. intros [= <-] Hp.
  unfold to_linear, LinearizePass.Transform, Linearize.
  assert (E : forall f, Linear.fn_Params (StackInfo.ComputeStackSize (Cleanup.CleanupLabels (Tunneling.Tunnel f))) = Linear.fn_Params f)
    by done.
  rewrite E. case_decide; cbn; by rewrite list_lookup_imap, Hp.
Qed.

(** The values of the pseudo-registers when the parameters have theirs. *)
Definition param_values (ps : list Z) (v : nat -> val) (r : Z) : val :=
  v (default 0%nat (fst <$> list_find (eq r) ps)).

Lemma param_values_at ps v j p : NoDup ps -> ps !! j = Some p -> param_values ps v p = v j.
Proof using.
  intros Hnd Hj. unfold param_values. destruct (list_find (eq p) ps) as [[k q]|] eqn:E.
  - apply list_find_Some in E as (Hk & <- & _). cbn. by rewrite (NoDup_lookup ps k j p Hnd Hk Hj).
  - apply list_find_None in E. rewrite Forall_forall in E. by destruct (E p (list_elem_of_lookup_2 _ _ _ Hj)).
Qed.

Lemma param_values_args ps v : NoDup ps -> param_values ps v <$> ps = v <$> seq 0 (length ps).
Proof using.
  intros Hnd. apply list_eq. intros j. rewrite !list_lookup_fmap. destruct (ps !! j) as [p|] eqn:E.
  - rewrite lookup_seq_lt by (by eapply lookup_lt_Some). cbn. by rewrite (param_values_at ps v j p).
  - rewrite (lookup_ge_None_2 (seq _ _)); [done|]. rewrite length_seq. by apply lookup_ge_None.
Qed.

(** Linear to Mach, entered with the arguments in registers. *)
Lemma mach_preserves rtl ltl i mf (rf0 : MReg -> val) (fr0 : F) (m : M) (lin := to_linear darwin orders i ltl) :
  Irc.TransformFunction (order_liveness orders) (order_graph orders) fuel rtl = Some ltl ->
  (length (Rtl.fn_Params rtl) <= 8)%nat ->
  @wf_linear (order_frame orders) call_slots lin -> @wf_params (order_frame orders) lin ->
  @Stacking.Transform (order_frame orders) lin = Some mf ->
  let step := mach_step (Mach.fn_Stacksize mf) (body_code (Mach.fn_Code mf)) in
  let init := mach_init (body_code (Mach.fn_Code mf)) rf0 fr0 m in
  exists ls,
    (forall j p, Rtl.fn_Params rtl !! j = Some p -> ls (ArgLocation j false) = rf0 (X (Z.of_nat j))) /\
    (forall r, terminates (linear_step (Linear.fn_Code lin)) (linear_init lin ls m) r ->
       exists rf', terminates step init (r, rf') /\ preserved rf0 rf') /\
    (forall r rf', terminates step init (r, rf') ->
       terminates (linear_step (Linear.fn_Code lin)) (linear_init lin ls m) r /\ preserved rf0 rf').
Proof using.
  intros Htf Hlen wfl wfp Hst step init.
  destruct (stacking_simulates (H2 := order_frame orders) lin mf rf0 fr0 m wfl wfp Hst) as (body & rf & fr & Hrun & Hpar & Heq).
  set (layout := @fn_layout (order_frame orders) lin) in *.
  exists (fun l => param_value layout l rf fr). split; [|destruct (Heq (fun l => param_value layout l rf fr)) as [Hf Hb]; [by split|split]].
  - intros j p Hj. apply Hpar; [by eapply linear_params|]. apply lookup_lt_Some in Hj. lia.
  - intros r Hr. destruct (Hf r Hr) as (rf' & Ht & Hp). exists rf'. split; [by apply (terminates_rtc _ _ _ _ Hrun)|done].
  - intros r rf' Ht. apply Hb. by apply (terminates_rtc _ _ _ _ Hrun).
Qed.

(** Cminor to Mach. *)
Lemma compile_mach_correct p mach i f (rf0 : MReg -> val) (fr0 : F) (m : M) :
  compile_mach darwin orders fuel p = Some mach -> (enough_rounds <= fuel)%nat ->
  Cminor.Functions p !! i = Some f -> function_ok (program_globals p) i f = true ->
  exists mf, Mach.Functions mach !! i = Some mf /\
    let args := (fun j => rf0 (X (Z.of_nat j))) <$> seq 0 (length (Cminor.fn_Params f)) in
    let run := terminates (mach_step (Mach.fn_Stacksize mf) (body_code (Mach.fn_Code mf)))
      (mach_init (body_code (Mach.fn_Code mf)) rf0 fr0 m) in
    (forall r, terminates (cm_step f) (cm_init f args m) r ->
       exists r' rf', run (r', rf') /\ RtlSem.match_results r r' /\ preserved rf0 rf') /\
    (safe (cm_step f) (cm_init f args m) ->
     forall r' rf', run (r', rf') ->
       exists r, terminates (cm_step f) (cm_init f args m) r /\ RtlSem.match_results r r' /\ preserved rf0 rf').
Proof using VT PC.
  intros Em Hfuel Hf Hok.
  destruct (compile_mach_lookup darwin orders fuel p mach i f Em Hf) as (ltl & mf & Hltl & Hmf & Hm).
  exists mf. split; [done|].
  destruct (function_ok_spec _ _ _ Hok) as (Hsel & Hgen & po & Hlen & few & (live & Hl & wf) & Hnext).
  destruct (Hnext ltl Hltl) as (wf1 & wf2 & wf3). set (rtl := to_rtl (program_globals p) f) in *.
  destruct (mach_preserves rtl ltl i mf rf0 fr0 m Hltl Hlen wf2 wf3 Hmf) as (ls & Hargs & Hf1 & Hb1).
  set (vals := param_values (Rtl.fn_Params rtl) (fun j => rf0 (X (Z.of_nat j)))).
  assert (Hvals : forall j q, Rtl.fn_Params rtl !! j = Some q -> vals q = ls (ArgLocation j false)).
  { intros j q Hq. rewrite (Hargs j q Hq). by apply (param_values_at _ (fun j => rf0 (X (Z.of_nat j)))); [apply (po_nodup _ po)|]. }
  destruct (linear_preserves i rtl live ltl vals ls m po Hl wf few Hfuel Hltl wf1 Hvals) as [Hf2 Hb2].
  destruct (rtl_preserves (program_globals p) f vals m Hsel Hgen) as [Hf3 Hb3]. fold rtl in Hf3, Hb3.
  intros args run. assert (Hin : vals <$> Rtl.fn_Params rtl = args).
  { unfold vals. rewrite param_values_args by apply (po_nodup _ po). unfold args. do 2 f_equal.
    apply (function_code _ Hgen). }
  rewrite Hin in Hf3, Hb3. split.
  - intros r Hr%Hf3. destruct (Hf2 r Hr) as (r' & Hr' & Hmatch). destruct (Hf1 r' Hr') as (rf' & Ht & Hp). eauto.
  - intros Hsafe r' rf' Ht. destruct (Hb1 r' rf' Ht) as [Hr Hp]. destruct (Hb2 r' Hr) as (r & Hr2 & Hmatch).
    exists r. split; [by apply Hb3|done].
Qed.

(** The conditions on the Cminor function a function becomes. *)
Definition back_end_ok (p : Csharpminor.Program) (i : nat) : bool :=
  match Cminorgen.TransformProgram (order_temps orders) (order_vars orders) p with
  | Some cp => match Cminor.Functions cp !! i with Some f => function_ok (program_globals cp) i f | None => false end
  | None => false
  end.

(** Csharpminor to Mach. *)
Lemma compile_csharpminor_correct p asm i f (rf0 : MReg -> val) (fr0 : F) (m : M) :
  compile_csharpminor darwin orders fuel p = Some asm -> (enough_rounds <= fuel)%nat -> program_ok p = true ->
  Csharpminor.Functions p !! i = Some f -> back_end_ok p i = true ->
  exists mach mf, AsmGen.TransformProgram mach = Some asm /\ Mach.Functions mach !! i = Some mf /\
    let args := (fun j => rf0 (X (Z.of_nat j))) <$> seq 0 (length (Csharpminor.fn_Params f)) in
    let cs := cs_step f (Csharpminor.Globals p) (frame_place f) args in
    let run := terminates (mach_step (Mach.fn_Stacksize mf) (body_code (Mach.fn_Code mf)))
      (mach_init (body_code (Mach.fn_Code mf)) rf0 fr0 m) in
    (forall r, terminates cs (cs_init f m) r ->
       exists r' rf', run (r', rf') /\ RtlSem.match_results r r' /\ preserved rf0 rf') /\
    (safe cs (cs_init f m) ->
     forall r' rf', run (r', rf') ->
       exists r, terminates cs (cs_init f m) r /\ RtlSem.match_results r r' /\ preserved rf0 rf').
Proof using VT PC.
  intros Hc Hfuel Hpok Hf Hok. unfold compile_csharpminor in Hc. unfold back_end_ok in Hok.
  destruct (TransformProgram_lookup (order_temps orders) (order_vars orders) p Hpok) as (cp & Hcp & Hfs).
  rewrite Hcp in Hc, Hok. cbn [mbind option_bind] in Hc. specialize (Hfs i f Hf). rewrite Hfs in Hok.
  destruct (compile_mach darwin orders fuel cp) as [mach|] eqn:Em; [|done]. exists mach.
  destruct (compile_mach_correct cp mach i _ rf0 fr0 m Em Hfuel Hfs Hok) as (mf & Hmf & Hm1 & Hm2).
  exists mf. split; [done|]. split; [done|]. intros args cs run. destruct (program_ok_spec p Hpok) as [Hnd Hoks].
  destruct (cminorgen_preserves (order_temps orders) (order_vars orders) f (Csharpminor.Globals p) args m) as [Hfw Hbw];
    [apply Hoks; by apply list_elem_of_lookup_2 in Hf|done|]. split.
  - intros r Hr%Hfw. by apply Hm1.
  - intros Hsafe r' rf' Ht. destruct (Hbw Hsafe) as [Hs Hterm]. destruct (Hm2 Hs r' rf' Ht) as (r & Hr & Hmatch).
    exists r. split; [by apply Hterm|done].
Qed.

(** The conditions on the Csharpminor function a function becomes. *)
Definition function_compiles (p : Clight.Program) (i : nat) : bool :=
  match @Cshmgen.TranslateProgram (order_params orders) p with
  | Some csharp => program_ok csharp && back_end_ok csharp i
  | None => false
  end.

(** The passes from Clight to Mach, run one after the other, preserve
    behaviour. Every function of a compiled program that meets the conditions
    of the passes ends up, at its place, as a Mach function; called with any
    registers and any frame, with the arguments in X0, X1, ..., it ends with
    the value, or the tail call, and the memory the Clight function ends with,
    its locals in the frame that is laid out, and hands back the callee-saved
    registers, the frame pointer and the link register; and if the Clight
    function never gets stuck, the Mach function ends in no other way. *)
Lemma compile_correct p asm i f lit (rf0 : MReg -> val) (fr0 : F) (m : M) :
  compile darwin orders fuel p = Some asm -> (enough_rounds <= fuel)%nat -> clight_ok p = true ->
  Clight.Functions p !! i = Some f -> function_compiles p i = true ->
  exists csharp f' mach mf, @Cshmgen.TranslateProgram (order_params orders) p = Some csharp /\
    Csharpminor.Functions csharp !! i = Some f' /\
    AsmGen.TransformProgram mach = Some asm /\ Mach.Functions mach !! i = Some mf /\
    (literals_at lit csharp ->
     let args := (fun j => rf0 (X (Z.of_nat j))) <$> seq 0 (length (Clight.fn_Params f)) in
     let cl := cl_step f (Clight.Globals p) (frame_place f') lit in
     let run := terminates (mach_step (Mach.fn_Stacksize mf) (body_code (Mach.fn_Code mf)))
       (mach_init (body_code (Mach.fn_Code mf)) rf0 fr0 m) in
     (forall r, terminates cl (cl_init f args m) r ->
        exists r' rf', run (r', rf') /\ RtlSem.match_results r r' /\ preserved rf0 rf') /\
     (safe cl (cl_init f args m) ->
      forall r' rf', run (r', rf') ->
        exists r, terminates cl (cl_init f args m) r /\ RtlSem.match_results r r' /\ preserved rf0 rf')).
Proof using VT PC.
  intros Hc Hfuel Hpok Hf Hok. unfold compile in Hc. unfold function_compiles in Hok.
  destruct (CshmgenPass.TranslateProgram_preserves (NO := order_params orders) (M := M) p Hpok) as (csharp & Hcs & Hfs). rewrite Hcs in Hc, Hok.
  cbn [mbind option_bind] in Hc. apply andb_true_iff in Hok as [Hok1 Hok2]. destruct (Hfs i f Hf) as (f' & Hf' & Hparams & Hpres).
  destruct (compile_csharpminor_correct csharp asm i f' rf0 fr0 m Hc Hfuel Hok1 Hf' Hok2) as (mach & mf & Ha & Hm & Hrun).
  exists csharp, f', mach, mf. do 4 (split; [done|]). intros Hlit args cl run. rewrite Hparams in Hrun. fold args in Hrun.
  destruct (Hpres (frame_place f') lit args m Hlit) as [Hfw Hbw]; [by unfold args; rewrite length_fmap, length_seq|].
  destruct Hrun as [Hm1 Hm2]. split.
  - intros r Hr%Hfw. by apply Hm1.
  - intros Hsafe r' rf' Ht. destruct (Hbw Hsafe) as [Hs Hterm]. destruct (Hm2 Hs r' rf' Ht) as (r & Hr & Hmatch).
    exists r. split; [by apply Hterm|done].
Qed.

(** The conditions on the Clight program a program becomes. *)
Definition c_compiles (p : Cabs.Program) (i : nat) : bool :=
  match @ClightGen.TranslateProgram (order_types orders) p with
  | Some clight => clight_ok clight && function_compiles clight i
  | None => false
  end.

End Correct.

(** ** An example *)

Section Example.
Import Clight.
Local Open Scope string_scope.

(** [for (i = 0, s = 0; i < n; i++) { p[i] = (char) i; s += p[1]; }
     i = ext(s, table); return i + s;], where [p] is a [char] pointer and [i]
    and [s] are the temporaries 1 and 2 *)
Definition fill_fn : Function :=
  let int := Some Ctypes.Int in let char := Some Ctypes.Char in let long := Some Ctypes.Long in
  let pointer := Some (Ctypes.Tpointer char) in
  let p := Evar "p" pointer in let i := Etempvar 1 int in let s := Etempvar 2 int in
  mkFunction "fill" int [mkVarDecl "p" pointer []; mkVarDecl "n" int []] [] [None; int; int]
    (Clight.Seq [
      Sset 1 (Econst_int 0 int);
      Sset 2 (Econst_int 0 int);
      Sloop (Clight.Seq [
          Sifthenelse (Ebinop Olt i (Evar "n" int) int) Sskip Sbreak;
          Sassign (Ederef (Ebinop Oadd p (Ecast i long) pointer) char) (Ecast i char);
          Sset 2 (Ebinop Oadd s (Ecast (Ederef (Ebinop Oadd p (Econst_long 1 long) pointer) char) int) int)])
        (Sset 1 (Ebinop Oadd i (Econst_int 1 int) int));
      Scall (Some 1) (Evar "ext" None) [s; Eaddrof (Evar "table" None) None];
      Sreturn (Some (Ebinop Oadd i s int))]).

Definition fill_prog : Program := mkProgram [] [] [mkVarDecl "table" (Some (Ctypes.Tarray (Some Ctypes.Int) 16)) []] [fill_fn].
End Example.

Definition list_orders : MapOrders := Build_MapOrders list_name_order list_name_order list_order list_name_order list_order list_order (fun _ _ _ => list_order) list_order.

Definition fill_asm : Asm.Program := default (Asm.mkProgram [] []) (compile false list_orders enough_rounds fill_prog).

Definition fill_args (r : MReg) : val := if r =? X0 then Vlong 1024 else Vint 3.

#[local] Instance example_frame : FrameMemory (Z -> Typ -> val) val := fun_frame.

Lemma compile_correct_witness :
  exists mf rf', (exists mach, AsmGen.TransformProgram mach = Some fill_asm /\ Mach.Functions mach !! 0%nat = Some mf) /\
    terminates (mach_step (F := Z -> Typ -> val) (Mach.fn_Stacksize mf) (body_code (Mach.fn_Code mf)))
      (mach_init (body_code (Mach.fn_Code mf)) fill_args (fun _ _ => Vint 0) (<[1025 := Vint 7]> (∅ : example_memory)))
      (Returned (Vint 12) (<[0 := Vint 1]> (<[1026 := Vint 2]> (<[1025 := Vint 1]> {[1024 := Vint 0]}))), rf') /\
    preserved fill_args rf'.
Proof.
  destruct (compile_correct (F := Z -> Typ -> val) (FM := example_frame) (PC := example_calls) list_orders enough_rounds
    fill_prog fill_asm 0 fill_fn (fun _ => Vint 0) fill_args (fun _ _ => Vint 0) (<[1025 := Vint 7]> (∅ : example_memory)))
    as (csharp & f' & mach & mf & Hcs & Hf' & Ha & Hm & Hrun).
  - vm_compute. reflexivity.
  - done.
  - vm_compute. reflexivity.
  - reflexivity.
  - vm_compute. reflexivity.
  - assert (Hlit : literals_at (fun _ => Vint 0) csharp).
    { assert (E : Csharpminor.Globals <$> Cshmgen.TranslateProgram (H := list_name_order) fill_prog =
        Some [Csharpminor.mkVarDecl "table" 64 [] false true]) by (vm_compute; reflexivity).
      change (order_params list_orders) with list_name_order in Hcs. rewrite Hcs in E. injection E as E.
      intros l Hl. rewrite E in Hl. by apply list_elem_of_singleton in Hl. }
    destruct (proj1 (Hrun Hlit) (RReturned (Some (Vint 12)) (<[0 := Vint 1]> (<[1026 := Vint 2]> (<[1025 := Vint 1]> {[1024 := Vint 0]})))))
      as (r' & rf' & Ht & Hr & Hp).
    + apply (run_terminates _ 200). vm_compute. reflexivity.
    + exists mf, rf'. split; [by exists mach|]. destruct r' as [v m|]; [|done]. destruct Hr as [<- <-]. by split.
Defined.

(** The C program [fill_program] of [ClightGenPass]. *)
Definition c_asm : Asm.Program := default (Asm.mkProgram [] []) (compile_c false list_orders enough_rounds fill_program).

